(* ===== verification/_CoqProject ===== *)
-Q . S2P
Prelude.v
UIntSet.v
Pickler.v
FileHash.v
Files.v
Locs.v
Types.v
NameTable.v
NameText.v
NameTableSer.v
Symbols.v
SymbolRefs.v
SymbolEntry.v
SymbolViews.v
SymbolConsistent.v
SymbolSample.v
SymbolProps.v
Linearize.v
Ast.v
TreeWalk.v
Cfg.v
CfgTopo.v
CfgReads.v
CfgArgs.v
CfgFinalize.v
CfgBuild.v
NamerMethods.v
NamerParams.v
NamerProps.v
NamerDelete.v
NamerDeleteProps.v
KwargsFinder.v
CfgBuildInv.v
CfgWalk.v
CfgMethod.v
CfgPasses.v
NameCache.v
GlobalStateSer.v
ScipUtils.v
ScipProto.v
ScipGem.v
ScipSymbolRef.v
ScipState.v
ScipFieldResolve.v
ScipOccurrences.v
ScipTraversal.v
ScipSample.v
ScipReplay.v
ScipRun.v
ScipLocals.v
ScipDefinitions.v
ScipAliases.v
ScipPlaces.v
ScipIndexing.v
ScipDocuments.v
ScipTypeSymbols.v
ScipExtension.v
ScipCalls.v
ScipPipeline.v
ScipThreads.v
ScipIndex.v
LspEpochs.v
LspEpochsProps.v
NameSubst.v
NameSubstProps.v
AstSubst.v
AstSubstProps.v
