(* ===== verification/Prelude.v ===== *)
(** * A verification library for scip-ruby

    scip-ruby is Sorbet, a type checker for Ruby, extended with an indexer that writes SCIP
    (a protobuf format for code navigation). This library models, function by function, five of its
    layers and the data they share, and proves them correct:

    - the core data of the checker, with the serializer that stores it in the payload of the binary
      and in the cache on disk (src/core, src/core/serialize, src/main/cache, src/payload);
    - the live symbol table (src/core/GlobalState.cc, Symbols.cc) and the part of the namer that enters
      and deletes methods and fields (src/namer);
    - what the language server relies on: the substitution of names between global states
      (src/core/NameSubstitution, src/ast/substitute) and the epochs by which two threads share the checker (src/core/lsp);
    - the class hierarchy (src/core/GlobalState.cc, Symbols.cc) and the control flow graphs that are
      built from syntax trees (src/cfg, src/common/UIntSet);
    - the SCIP indexer as a whole (src/scip_indexer), with the part of the pipeline that calls it
      (src/main/pipeline/pipeline.cc) and the walks over trees it uses (src/ast/treemap): from the trees
      of the files, taken by any number of threads, to the index that is written.

    ** How the parts interact

    Every identifier is interned once in the name table of a global state; symbols, trees and types
    refer to names, to files and to each other by [uint32_t] references. The serializer writes all of
    them as a stream of small integers through the pickler. A run of the checker starts from the
    payload, appends the chain of name-table diffs that earlier runs left in a key-value store, and
    leaves its own diff behind; trees are cached per file under the hash of the source. The namer enters the
    definitions of each file in the symbol table: a method that is defined again with other parameters
    renames the present one, and when a file changes in an editor its old definitions are found and deleted
    by the hashes of their names. Trees are indexed in global states of their own, and their names are substituted when they are
    merged; to hash a file its tree is moved to an empty state, and the names of symbols that the walk meets are the
    usages of the file. While the thread of the language server that checks types is on a slow path, the thread that processes
    edits may cancel it or have it run a task in between. The resolver linearizes the ancestors of every class, and members are looked up along them. For every method and
    class body the builder translates the tree to a graph of basic blocks and finishes it: unreachable
    blocks go, temporaries are dealiased, and each block gets as arguments the variables that reach it and
    that it needs, which the analysis keeps in bit sets. Every thread of the
    pipeline walks the trees of its files and calls the indexer for each class, each method and each graph; an exception
    ends the check of a file, which then has no document, and the thread goes on with the next one.
    The indexer finds out what the names in the source stand for, turns each program symbol into a SCIP
    symbol (the gem of its file and the path of its owners) and each local variable into a number,
    collects occurrences and symbol informations in a state of the thread, and sorts those of a file
    into a document when the file is finished. At the end the documents of all threads are sorted and
    written.

    ** Files

    - [Prelude] (this file): machine integers, byte strings, tactics, hint databases, and the lemmas
      on lists, sorting and chains of references that the other files share.
    - [Pickler]: src/core/serialize/pickler.h and the [Pickler] and [UnPickler] functions of
      serialize.cc. Its class [RoundTrips] is the interface of the serializer: a writer, a reader, the
      values they are meant for and the value read back. Each component provides instances for its
      data, and the theorems about larger data are proved from the instances of the parts.
    - [FileHash], [Files], [Locs], [Types], [Symbols]: the data of src/core/FileHash, Files, Loc and
      LocOffsets, TypePtr and Symbols, their operations and their serialization. Files also has the
      sigil parser and the line table, FileHash the galloping intersection test.
    - [NameTable]: the hash table of names (src/core/GlobalState.cc, hashing.h). [NameText]: printing
      and classification of names (src/core/Names.cc). [NameTableSer]: full tables and diffs on disk.
    - [SymbolRefs]: references to symbols and the queries that follow them (src/core/SymbolRef.h,
      Symbols.cc).
    - [SymbolEntry]: the operations that change the symbol table: entering, renaming and deleting symbols,
      singleton classes and static initializers (src/core/GlobalState.cc, Symbols.cc). [SymbolViews] has views of the table
      ([place], [member], ...) and what each operation does to them, [SymbolConsistent] the invariant
      of the table, [SymbolSample] a small table, [SymbolProps] the theorems.
    - [NamerMethods]: [defineMethod], [insertMethod] and [modifyMethod] (src/namer/namer.cc) with the
      hash of the shape of a method (src/ast/ParamParsing.cc); [NamerParams] and [NamerProps] prove
      them correct. [NamerDelete]: [deleteOldDefinitions] and [insertField], with the hashes of names of
      src/core/FileHash.cc; [NamerDeleteProps] has their theorems.
    - [NameSubst]: [NameSubstitution] and [LazyNameSubstitution] (src/core/NameSubstitution), with the hash of names that ignores
      unique ones; [NameSubstProps] has their theorems. [AstSubst]: the walk [SubstWalk] (src/ast/substitute), written against the class
      [Substituter], the interface of the two substitutions; in [AstSubstProps] the walk is proved correct for every
      substituter that keeps the laws [SubstituterLaws], and the two are shown to keep them.
    - [LspEpochs]: [TypecheckEpochManager] and [PreemptionTaskManager] (src/core/lsp), with the loops of the processing
      and the typechecking thread that call them (src/main/lsp), as a transition system over critical sections
      and atomic accesses; [LspEpochsProps] has the invariants and the theorems.
    - [Linearize]: ancestors of classes: [computeClassLinearization] and its helpers
      (src/core/GlobalState.cc), [derivesFrom], [addMixin] and the transitive lookups of members
      (Symbols.cc).
    - [UIntSet]: bit sets (src/common/UIntSet).
    - [Cfg]: the data of src/cfg (CFG.h, CFG.cc, Instructions.h, LocalRef.cc), with
      [findAllReadsAndWrites]; [CfgReads] says what that analysis computes. [CfgTopo]:
      [topoSortFwd] and [fillInTopoSorts]. [CfgArgs]: [fillInBlockArguments]. [CfgFinalize]: the other passes
      of builder_finalize.cc. [CfgBuild]: the builder itself (builder_walk.cc, builder_entry.cc), as a
      state monad that may stop. [CfgBuildInv] has the invariant of a graph under construction and a logic
      of triples for the monad, [CfgWalk] a triple for each case of [walk], [CfgMethod] the triples of
      [buildFor], and [CfgPasses] the theorems about building and finishing.
    - [TreeWalk]: [TreeMapper] (src/ast/treemap/treemap.h) as const walks and queries use it.
      [KwargsFinder]: the query of src/main/lsp/KwargsFinder.cc.
    - [Ast]: syntax trees, the factories the reader calls, and the cache of trees (src/ast,
      serialize.cc). [GlobalStateSer]: the whole global state.
    - [NameCache]: [retainGlobalState] (src/main/cache/cache.cc) and the loading of cached names
      (src/payload/payload.cc), as a transition system over processes that share one store.
    - [ScipUtils], [ScipProto]: strings of SCIP symbols and the order of SCIP messages
      (SCIPUtils.cc, SCIPProtoExt.cc). The class [Comparison] of ScipProto is the interface between
      the comparison of a message and those of its fields.
    - [ScipGem]: gem names and versions (SCIPGemMetadata). [ScipSymbolRef]: SCIP symbols of program
      symbols (SCIPSymbolRef). [ScipState]: the indexer's state and documents ([SCIPState] of
      SCIPIndexer.cc), and [ScipDocuments] what its operations do to finished documents.
      [ScipFieldResolve]: resolution of undeclared fields (SCIPFieldResolve).
    - [ScipOccurrences]: the places of names in the source and the types of receivers (the helpers of
      SCIPIndexer.cc). [ScipTraversal]: [AliasMap] and [CFGTraversal], written against the class
      [Recorder], the interface of the traversal to the state; the state of the indexer is one instance,
      a list of calls another. [ScipSample] has a graph on which the theorems are tried.
    - Theorems about the traversal: [ScipReplay] (lemmas that reduce a traversal of the state to the calls it writes
      down, which the others use), [ScipRun] and [ScipLocals] (numbers of locals), [ScipDefinitions] (which occurrences are
      definitions), [ScipAliases] (no symbol is lost), [ScipPlaces] and [ScipIndexing] (places stay in
      the file, so that a traversal is a run of the state).
    - [ScipTypeSymbols]: [TypeSymbolCollector]. [ScipExtension]: [SCIPSemanticExtension], [IndexWriter] and
      the map from files to gems. [ScipPipeline]: [typecheckOne] and [CFGCollectorAndTyper], with the calls
      that are made before an exception. [ScipCalls]: every call of the extension is a run of the state of its thread. [ScipThreads]:
      interleavings of the calls of threads, each of which returns or raises. [ScipIndex]: the theorems about the written index.

    ** Conventions

    Integers are [Z], with every narrowing written as a reduction; a reference is the number it
    holds. Functions that mutate an argument return its new value. [None] stands for an uncaught
    exception, a read outside a table or a buffer, or a loop that has not ended within its fuel;
    theorems that an operation succeeds therefore also show that its loops end. [ENFORCE] is compiled
    out of release builds and checks nothing, except in the pickler, where a failed one is [None], and in
    the builder of graphs, where a failed one about the graph stops the builder with [BadGraph], so that the
    theorem that this never happens covers the checks of debug builds too. A status that the indexer
    returns is a value; where the source only asserts that it is a success, it is ignored.

    Where the source catches an exception the model has one. A walk over a tree has an [Outcome]: it returns or
    throws, and leaves a state in either case. The check of a file ([typecheckOne]) gives the calls of the extension that are made
    and whether it ran to its end. A call of the extension that raises ([CallThrows]) is one whose model has no
    result; it leaves a state of its thread that the theorems do not fix: they assume that it has no document more than
    before (a document is the last thing that [saveDocument] adds) and, for well-formedness, that it was reached by
    recordings.

    A thread is a number, and the table of thread states a map that every call changes at the entry of
    its thread, as the lock of the source allows; a schedule is a list of calls with their threads. The
    nodes of a tree that the source knows by their addresses are known by their places in the tree.

    A [BasicBlock *] is the id of the block; the blocks are a map from ids, so that a graph shows which
    blocks have been destroyed. Sets of bits are vectors of 32-bit words, as in the source, and the
    theorems about them are stated over finite sets. The number of words is computed in 32 bits, so that they hold
    for sizes up to 2^32 - 32, which bounds the local variables of a graph in the theorems that use bit sets.

    Fuel is chosen so that it cannot be the reason of a failure: probing of a hash table is bounded by
    its number of buckets, which triangular probing visits all; chains of derived names by the number
    of names, for substitutions and hashes too; owners by the number of symbols; superclasses by the number of classes; readers by
    the bytes that remain, since every node is at least one byte; the intersection test by the
    lengths of its inputs; line and sigil scans by the length of the source; the topological sort by four
    turns for each block; the search for a free mangled name by the members of the owner; the chain of singleton classes by
    the number of classes; the loops for block arguments by the bits of all bounds, since every turn but the
    first and the last adds one; linearization by the rank of the class; the translation of a
    tree by its depth. Walks over trees are structural and need none. In the pipeline the fuel of the builder
    and of [simplify] is an argument, and the theorems about the index are about runs for which it suffices.

    ** What the theorems show

    - Round trips: the pickler, every stored kind of data, the tables, the global state and the tree
      cache are read back as they were written, within the ranges of the format; unresolved types and empty lists of type
      parameters in symbols are the exceptions, and the theorems say what they become.
    - The name table interns: entering terminates, gives equal references exactly to equal names, and
      never disturbs a reference already given out; lookups are complete; names print, and their text
      is stable.
    - The symbol table stays consistent under any sequence of its operations: owners, members and tables
      agree, singleton classes and the classes they are attached to are linked both ways. Entering is idempotent; renaming
      ends at the first free number and frees the name. One theorem exhibits a sequence of definitions after
      which the method that another one replaced is not found.
    - Methods: defining a method succeeds, and it is found again by the hash of its shape, which is
      the same for the tree and for the symbol. Deletion by the hash of a name removes what is defined in
      the file alone, and nothing else. A field is deleted by its hash exactly if the class that contains it is the one it was entered in; for fields
      of methods at the top level it is not, and they stay.
    - Substitution of names: names of one table are entered in another in an order in which every name comes after the one it is
      derived from, so that none fails; substitutes are derived in the same way from the same strings, different names have different ones, and hashes
      of names do not depend on the table. A walk over a tree renames exactly its names, and the usages of a file have every
      name by which its tree refers to a symbol.
    - The language server, under every interleaving of its two threads: slow paths start, are canceled and are committed in the order of an abstract
      protocol; a task that was scheduled is finished or taken back before the slow path is over; the processing thread never waits for the
      other one forever.
    - The name cache is consistent under any interleaving of processes.
    - Locations, lines and sigils: conversions are inverse, ranges do not wrap, lines concatenate to
      the source, sigils are found where they are written. The intersection test agrees with its
      specification.
    - The written index: it has one document for each Ruby file whose check ran to its end and none for others, whatever
      the interleaving of the threads and whichever files raise exceptions; it
      is the same for all interleavings and all orders of visiting the table of threads; everything in it
      is well-formed.
    - The traversal: numbers of locals are unambiguous; an
      assignment defines a local exactly where the local is not known; every symbol of the graph has an
      occurrence; all places lie in the file. Walks over trees are sequences of calls
      that depend on the tree alone.
    - The state of the indexer: every run of the indexer's operations keeps the index well-formed; references are
      recorded once; documents are complete, sorted and independent of the order of recording; SCIP
      symbols follow the owners of the program symbol and identify it; their strings identify them,
      except in a case that a theorem exhibits; comparisons are orders; escaped text is UTF-8.
    - Linearization of a hierarchy without cycles in which only modules are mixed in ends, and what a class derives from
      afterwards is what it descends from in the program. Members are found in a fixed order of classes, which for
      linearized classes is that of the ancestors, and lookups raise exactly where the bound of the source on the depth comes
      before a member.
    - Graphs: the builder never uses a block, an edge or a variable that does not exist, and what it returns
      passes the checks of debug builds. The passes that follow succeed, in particular their loops end;
      the order covers exactly the reachable blocks; bit sets are sets; the arguments of a block
      are among those that reach it and that it may need, and all that it needs if the first turn of the
      iteration has changed a size. Examples show methods for which the passes do
      less than they mean to: a fixed point that is not reached, and a dead block that is erased.
    - Fields resolve to the class their specification names; gem metadata is parsed as documented.

    ** Parameters

    Code outside the repository is an argument of the definitions that use it: LZ4, XXH32, the JSON
    parser and UTF-8 decoder of rapidjson, the paths of the file system, sorts, and the order in which a
    hash table is visited. Hypotheses state its documented contract: decompressing what was
    compressed gives it back, hashes are 32-bit, a decoder accepts only well-formed sequences, a sort
    returns a sorted permutation, and a visit sees every entry once. The references of well-known names and
    symbols, which the build generates, are arguments, and so are three parts of the repository that are
    not modelled: operations on types ([TypeOps]: unions and substitution), the pretty printer of types
    with the search for documentation, and inference, which gives a graph with types or none, or raises; whether the
    validator of definitions raises is an argument too. No hypothesis is made about these.

    ** Not modelled

    - Debug printers and counters of the indexer, its command line options, and the encoding of messages
      by protobuf.
    - Walks that change the tree, but for the substitution of names. [simplify] and [markLoopHeaders] are defined and run before
      inference ([finishBuild]), but the theorem on the finishing passes ends before them.
    - Subtyping, inference and the dispatch of calls: they compare types by the identity of their pointers and
      update constraints in place while they ask for ancestors, so that a model without the addresses
      of types would not be faithful.
    - Of the namer, the finder of definitions, classes, constants, type members and the rewriting of
      trees; the resolver and the packager. They report errors and change trees as they go, over the
      operations of the symbol table that are modelled here.
    - The parser, desugarer and rewriters, the queues and requests of the language server, the lock that parks its workers, and the rest of the driver. LMDB is a
      finite map in the name cache. *)

From Stdlib Require Export ZArith Lia Ascii String.
From stdpp Require Export base tactics option list numbers strings gmap sorting.

#[local] Open Scope Z_scope.

(** ** Machine integers

    A C++ unsigned [w]-bit integer is a [Z] in [[0, 2^w)]; each conversion to such a type is
    written out as a reduction modulo [2^w]. *)

Definition u8 (z : Z) : Z := z mod 2 ^ 8.

Definition u16 (z : Z) : Z := z mod 2 ^ 16.

Definition u32 (z : Z) : Z := z mod 2 ^ 32.

Definition u64 (z : Z) : Z := z mod 2 ^ 64.

(** Two's complement conversions, e.g. [int sz = getU4()]. *)
Definition i32 (z : Z) : Z :=
  let w := u32 z in if bool_decide (w < 2 ^ 31) then w else (w - 2 ^ 32).

Definition i64 (z : Z) : Z :=
  let w := u64 z in if bool_decide (w < 2 ^ 63) then w else (w - 2 ^ 64).

Definition is_u8 (z : Z) : Prop := (0 <= z < 2 ^ 8).

Definition is_u16 (z : Z) : Prop := (0 <= z < 2 ^ 16).

Definition is_u32 (z : Z) : Prop := (0 <= z < 2 ^ 32).

Definition is_u64 (z : Z) : Prop := (0 <= z < 2 ^ 64).

Definition is_i64 (z : Z) : Prop := (- 2 ^ 63 <= z < 2 ^ 63).

(** The sizes that survive [int n = getU4()]. *)
Definition is_size (n : nat) : Prop := (Z.of_nat n < 2 ^ 31).

(** ** Byte strings

    [std::string] and [std::string_view] are lists of characters (bytes). *)

Abbreviation str := (list ascii).

Notation "'s!' x" := (String.list_ascii_of_string x%string) (at level 1, x at level 0).

Definition byte_of_char (c : ascii) : Z := Z.of_N (N_of_ascii c).

Definition char_of_byte (z : Z) : ascii := ascii_of_N (Z.to_N z).

(** ** Tactics and hints *)

Create HintDb words.

Ltac unfold_words :=
  unfold is_u8, is_u16, is_u32, is_u64, is_i64, is_size, u8, u16, u32, u64 in *.

(** Arithmetic on machine integers: unfold the ranges and let [lia] see [/] and [mod]. *)
Ltac word_lia := unfold_words; simpl Z.pow in *; Z.to_euclidean_division_equations; lia.

Ltac destruct_match :=
  match goal with
  | |- context [match ?x with _ => _ end] => destruct x eqn:?
  end.

Lemma u8_id z : is_u8 z -> u8 z = z.
Proof. intros; unfold_words; by apply Z.mod_small. Qed.

Lemma u16_id z : is_u16 z -> u16 z = z.
Proof. intros; unfold_words; by apply Z.mod_small. Qed.

Lemma u32_id z : is_u32 z -> u32 z = z.
Proof. intros; unfold_words; by apply Z.mod_small. Qed.

Lemma u64_id z : is_u64 z -> u64 z = z.
Proof. intros; unfold_words; by apply Z.mod_small. Qed.

Lemma u8_range z : is_u8 (u8 z).
Proof. unfold_words; by apply Z.mod_pos_bound. Qed.

Lemma u16_range z : is_u16 (u16 z).
Proof. unfold_words; by apply Z.mod_pos_bound. Qed.

Lemma u32_range z : is_u32 (u32 z).
Proof. unfold_words; by apply Z.mod_pos_bound. Qed.

Lemma u64_range z : is_u64 (u64 z).
Proof. unfold_words; by apply Z.mod_pos_bound. Qed.

Lemma is_u8_u32 z : is_u8 z -> is_u32 z.
Proof. unfold_words; lia. Qed.

Lemma is_u16_u32 z : is_u16 z -> is_u32 z.
Proof. unfold_words; lia. Qed.

Lemma is_size_u32 n : is_size n -> is_u32 (Z.of_nat n).
Proof. unfold_words; lia. Qed.

Lemma i32_size n : is_size n -> i32 (Z.of_nat n) = Z.of_nat n.
Proof.
  intros Hn. unfold i32. rewrite u32_id by by apply is_size_u32.
  rewrite bool_decide_eq_true_2; [done | exact Hn].
Qed.

(** Casting to [uint64_t] and back is the identity on [int64_t]. *)
Lemma i64_u64 z : is_i64 z -> i64 (u64 z) = z.
Proof.
  intros Hz. unfold i64. rewrite (u64_id (u64 z)) by apply u64_range.
  unfold is_i64 in Hz. unfold u64. case_bool_decide as E.
  - destruct (Z.le_gt_cases 0 z); [rewrite Z.mod_small; lia |].
    rewrite (Z.mod_eq z) in E by lia. rewrite Z.mod_eq by lia.
    replace (z / 2 ^ 64) with (-1) in *; [lia |].
    apply (Z.div_unique z _ (-1) (z + 2 ^ 64)); lia.
  - destruct (Z.le_gt_cases 0 z); [rewrite Z.mod_small in E; lia |].
    rewrite Z.mod_eq by lia. replace (z / 2 ^ 64) with (-1); [lia |].
    apply (Z.div_unique z _ (-1) (z + 2 ^ 64)); lia.
Qed.

Lemma byte_of_char_range c : is_u8 (byte_of_char c).
Proof.
  unfold byte_of_char, is_u8. pose proof (N_ascii_bounded c). lia.
Qed.

Lemma char_of_byte_of_char c : char_of_byte (byte_of_char c) = c.
Proof. unfold char_of_byte, byte_of_char. rewrite N2Z.id. apply ascii_N_embedding. Qed.

Lemma byte_of_char_of_byte z : is_u8 z -> byte_of_char (char_of_byte z) = z.
Proof.
  unfold is_u8, char_of_byte, byte_of_char. intros Hz.
  rewrite N_ascii_embedding by lia. lia.
Qed.

Lemma byte_of_char_inj c d : byte_of_char c = byte_of_char d -> c = d.
Proof.
  intros E. rewrite <- (char_of_byte_of_char c), <- (char_of_byte_of_char d). by rewrite E.
Qed.

#[export] Hint Resolve u8_range u16_range u32_range u64_range is_u8_u32 is_u16_u32 is_size_u32
  byte_of_char_range : words.

(** The bits of a number below [2^n] all lie below position [n]. *)
Lemma testbit_above lo n i : (0 <= lo < 2 ^ n) -> (n <= i) -> Z.testbit lo i = false.
Proof.
  intros Hlo Hi. destruct (Z.eq_dec lo 0) as [-> | Hne]; [apply Z.bits_0 |].
  apply Z.bits_above_log2; [lia |]. apply Z.log2_lt_pow2; [lia |].
  apply Z.lt_le_trans with (2 ^ n); [lia |]. apply Z.pow_le_mono_r; lia.
Qed.

(** A disjoint bitwise "or" of a low part and a shifted high part is an addition. *)
Lemma lor_shift_add lo hi n :
  (0 <= n) -> (0 <= lo < 2 ^ n) -> Z.lor lo (Z.shiftl hi n) = (lo + hi * 2 ^ n).
Proof.
  intros Hn Hlo. rewrite <- Z.shiftl_mul_pow2 by done. symmetry. apply Z.add_nocarry_lor.
  apply Z.bits_inj'. intros i Hi. rewrite Z.land_spec, Z.bits_0.
  destruct (Z.lt_ge_cases i n) as [Hin | Hin].
  - by rewrite Z.shiftl_spec_low, andb_false_r.
  - by rewrite (testbit_above lo n i).
Qed.

(** ** Booleans as bytes: [putU1(flag)] and [getU1() != 0] *)

Definition u1_of_bool (b : bool) : Z := if b then 1 else 0.

Definition bool_of_u1 (z : Z) : bool := negb (z =? 0).

Lemma u1_of_bool_range b : is_u8 (u1_of_bool b).
Proof. destruct b; unfold is_u8; simpl; lia. Qed.

Lemma bool_of_u1_of_bool b : bool_of_u1 (u1_of_bool b) = b.
Proof. by destruct b. Qed.

#[export] Hint Resolve u1_of_bool_range : words.

(** ** [std::string_view] *)

Fixpoint is_prefix (p s : str) : bool :=
  match p, s with
  | [], _ => true
  | c :: p, d :: s => bool_decide (c = d) && is_prefix p s
  | _ :: _, [] => false
  end.

(** [absl::EndsWith] *)
Definition is_suffix (p s : str) : bool := is_prefix (rev p) (rev s).

(** [s.find(p)]: the first index at which [p] occurs. *)
Fixpoint find_sub (p s : str) : option nat :=
  if is_prefix p s then Some O
  else match s with [] => None | _ :: s => S <$> find_sub p s end.

(** [s.find(p, start)] *)
Definition find_sub_from (p s : str) (start : nat) : option nat :=
  if (start <=? length s)%nat then (fun k => (start + k)%nat) <$> find_sub p (drop start s)
  else None.

(** [s.find_first_of(c, start)] for one character, and [s.find_first_not_of] with its complement. *)
Fixpoint find_char (f : ascii -> bool) (s : str) : option nat :=
  match s with
  | [] => None
  | c :: s => if f c then Some O else S <$> find_char f s
  end.

Definition find_char_from (f : ascii -> bool) (s : str) (start : nat) : option nat :=
  (fun k => (start + k)%nat) <$> find_char f (drop start s).

(** [s.substr(pos, len)] *)
Definition substr (s : str) (pos len : nat) : str := take len (drop pos s).

Definition char_eqb (c d : ascii) : bool := bool_decide (c = d).

Lemma is_prefix_spec p s : is_prefix p s = true <-> p `prefix_of` s.
Proof.
  revert s. induction p as [| c p IH]; intros s; simpl.
  - split; [intros _; apply prefix_nil | done].
  - destruct s as [| d s].
    + split; [done |]. intros H. by apply prefix_nil_not in H.
    + rewrite andb_true_iff, bool_decide_eq_true, IH. split.
      * intros [-> H]. by apply prefix_cons.
      * intros H. split; [by eapply prefix_cons_inv_1 | by eapply prefix_cons_inv_2].
Qed.

Lemma is_suffix_spec p s : is_suffix p s = true <-> p `suffix_of` s.
Proof.
  unfold is_suffix. rewrite is_prefix_spec. split.
  - intros [k E]. exists (rev k). apply (f_equal (@rev ascii)) in E.
    by rewrite rev_app_distr, !rev_involutive in E.
  - intros [k ->]. exists (rev k). by rewrite rev_app_distr.
Qed.

(** [find] returns an occurrence, and no earlier index is one. *)
Lemma find_sub_Some p s k :
  find_sub p s = Some k -> is_prefix p (drop k s) = true /\ (k <= length s)%nat /\
    forall j, (j < k)%nat -> is_prefix p (drop j s) = false.
Proof.
  revert k. induction s as [| c s IH]; intros k; simpl.
  - destruct (is_prefix p []) eqn:E; [| done]. intros [= <-]. repeat split; [done | simpl; lia | lia].
  - destruct (is_prefix p (c :: s)) eqn:E.
    + intros [= <-]. repeat split; [done | lia | lia].
    + destruct (find_sub p s) as [k' |]; simpl; [| done]. intros [= <-].
      destruct (IH k') as (H1 & H2 & H3); [done |]. repeat split; [done | lia |].
      intros [| j] Hj; [done |]. apply H3. lia.
Qed.

Lemma find_sub_None p s : find_sub p s = None -> forall j, is_prefix p (drop j s) = false.
Proof.
  induction s as [| c s IH]; simpl.
  - destruct (is_prefix p []) eqn:E; [done |]. intros _ j. by rewrite drop_nil.
  - destruct (is_prefix p (c :: s)) eqn:E; [done |].
    destruct (find_sub p s); simpl; [done |]. intros _ [| j]; [done |]. by apply IH.
Qed.

(** ** Loops that may fail *)

Fixpoint foldM {A B} (f : B -> A -> option B) (b : B) (l : list A) : option B :=
  match l with [] => Some b | x :: l => b ← f b x; foldM f b l end.

(** A search that stops at the first element for which the test holds *)
Fixpoint existsM {A} (f : A -> option bool) (l : list A) : option bool :=
  match l with
  | [] => Some false
  | x :: l => b ← f x; if (b : bool) then Some true else existsM f l
  end.

Lemma existsM_spec {A} (f : A -> option bool) (P : A -> Prop) l :
  (forall x, x ∈ l -> exists b, f x = Some b /\ (b = true <-> P x)) ->
  exists b, existsM f l = Some b /\ (b = true <-> exists x, x ∈ l /\ P x).
Proof.
  induction l as [| x l IH]; intros H; simpl.
  - exists false. split; [done |]. split; [done |]. intros (y & Hy & _). by apply not_elem_of_nil in Hy.
  - destruct (H x) as (b & -> & Hb); [apply list_elem_of_here |]. cbn. destruct b.
    + exists true. split; [done |]. split; [| done]. intros _. exists x. split; [apply list_elem_of_here | by apply Hb].
    + destruct IH as (b & -> & Hb'); [intros; apply H; by apply list_elem_of_further |].
      exists b. split; [done |]. rewrite Hb'. split; intros (y & Hy & HP).
      * exists y. split; [by apply list_elem_of_further | done].
      * apply elem_of_cons in Hy as [-> | Hy]; [by apply Hb in HP | by exists y].
Qed.

Lemma foldM_app {A B} (f : B -> A -> option B) b l l' : foldM f b (l ++ l') = b ← foldM f b l; foldM f b l'.
Proof. revert b. induction l as [| x l IH]; intros b; [done |]. cbn. destruct (f b x); [apply IH | done]. Qed.

(** An invariant of a loop: the elements already treated, and the rest. *)
Lemma foldM_inv {A B} (f : B -> A -> option B) (P : list A -> B -> Prop) l b :
  P [] b ->
  (forall done x rest b, l = done ++ x :: rest -> P done b -> exists b', f b x = Some b' /\ P (done ++ [x]) b') ->
  exists b', foldM f b l = Some b' /\ P l b'.
Proof.
  intros H0 Hs. cut (forall done rest b, l = done ++ rest -> P done b -> exists b', foldM f b rest = Some b' /\ P l b').
  { intros H. by apply (H [] l b). }
  intros done rest. revert done. induction rest as [| x rest IH]; intros done b' -> HP; simpl.
  - exists b'. split; [done |]. by rewrite app_nil_r.
  - destruct (Hs done x rest b') as (b'' & Hf & HP'); [done | done |]. rewrite Hf. cbn.
    apply (IH (done ++ [x])); [by rewrite <- app_assoc | done].
Qed.

(** ** [std::lower_bound] on a sorted range: the first index whose element is not less. *)
Fixpoint lower_bound (l : list Z) (x : Z) : nat :=
  match l with
  | [] => O
  | y :: l => if y <? x then S (lower_bound l x) else O
  end.

Lemma lower_bound_le l x : (lower_bound l x <= length l)%nat.
Proof. induction l as [| y l IH]; simpl; [done |]. destruct (y <? x); lia. Qed.

Lemma lower_bound_before l x i y : (i < lower_bound l x)%nat -> l !! i = Some y -> y < x.
Proof.
  revert i. induction l as [| z l IH]; intros i; simpl; [lia |].
  destruct (Z.ltb_spec z x); [| lia]. destruct i as [| i]; simpl; intros Hi Hy; [by simplify_eq |].
  apply (IH i); [lia | done].
Qed.

Lemma lower_bound_at l x y : l !! lower_bound l x = Some y -> x <= y.
Proof.
  induction l as [| z l IH]; simpl; [done |].
  destruct (Z.ltb_spec z x); simpl; [done |]. intros. by simplify_eq.
Qed.

(** ** Chains of references *)

Section Chains.
Context {A} (next : A -> option A) (target : A).

(** [n] steps from [a] to [target] *)
Inductive chain_to : A -> nat -> Prop :=
| chain_here : chain_to target 0
| chain_step a b n : a <> target -> next a = Some b -> chain_to b n -> chain_to a (S n).

Lemma chain_to_depth a n m : chain_to a n -> chain_to a m -> n = m.
Proof.
  intros Hn. revert m. induction Hn as [| a b n Ha Hb Hn IH]; intros m Hm; inversion Hm; subst; try done.
  f_equal. apply IH. congruence.
Qed.

Lemma chain_to_visits a n : chain_to a n ->
  exists l, length l = n /\ NoDup l /\ (forall x, x ∈ l -> x <> target /\ is_Some (next x)) /\
    forall x, x ∈ l -> exists m, (0 < m <= n)%nat /\ chain_to x m.
Proof.
  induction 1 as [| a b n Ha Hb Hn (l & Hl & Hnd & Hnx & Hd)].
  { exists []. split_and!; [done | constructor | |]; by intros x Hx%not_elem_of_nil. }
  exists (a :: l). split_and!.
  - cbn. by rewrite Hl.
  - constructor; [| done]. intros (m & Hm & Hc)%Hd.
    assert (m = S n); [eapply chain_to_depth; [done | by econstructor] | lia].
  - intros x [-> | Hx]%elem_of_cons; [by rewrite Hb | by apply Hnx].
  - intros x [-> | (m & Hm & Hc)%Hd]%elem_of_cons.
    + exists (S n). split; [lia | by econstructor].
    + exists m. split; [lia | done].
Qed.

(** A chain is not longer than a list of everything that has a successor. *)
Lemma chain_to_bound a n l : chain_to a n -> (forall x, is_Some (next x) -> x ∈ l) -> (n <= length l)%nat.
Proof.
  intros (v & <- & Hnd & Hnx & _)%chain_to_visits Hl. apply submseteq_length, NoDup_submseteq; [done |].
  intros x Hx. by apply Hl, Hnx.
Qed.
End Chains.
