(* ===== verification/UIntSet.v ===== *)
(** * Bit sets

    Models [UIntSet] of src/common/UIntSet.h, UIntSet.cc and UIntSetForEach.h, the sets of local
    variables that the construction of control flow graphs computes with. A set is a vector of 32-bit
    words; [None] stands for an access outside the vector, which a release build does not check. *)

From S2P Require Import Prelude.

#[local] Open Scope Z_scope.

(** ** Operations *)

Record UIntSet := mkUIntSet { _members : list Z }.

(** [UIntSet::UIntSet(size)]: the number of words, [(size + 31) / 32], is computed in [uint32_t] *)
Definition newUIntSet (size : nat) : UIntSet :=
  mkUIntSet (replicate (Z.to_nat (u32 (Z.of_nat size + 31) / 32)) 0).

Definition uis_clear (s : UIntSet) : UIntSet := mkUIntSet ((fun _ => 0) <$> _members s).

Definition memberIndex (item : nat) : nat := Nat.shiftr item 5.

Definition itemMask (item : nat) : Z := u32 (Z.shiftl 1 (Z.of_nat (Nat.land item 31))).

(** [~mask] on [uint32_t] *)
Definition not32 (z : Z) : Z := u32 (Z.lnot z).

Definition uis_add (item : nat) (s : UIntSet) : option UIntSet :=
  w ← _members s !! memberIndex item;
  Some (mkUIntSet (<[memberIndex item := Z.lor w (itemMask item)]> (_members s))).

Definition uis_remove (item : nat) (s : UIntSet) : option UIntSet :=
  w ← _members s !! memberIndex item;
  Some (mkUIntSet (<[memberIndex item := Z.land w (not32 (itemMask item))]> (_members s))).

Definition uis_contains (s : UIntSet) (item : nat) : option bool :=
  w ← _members s !! memberIndex item;
  Some (0 <? Z.land w (itemMask item)).

(** The loops over the words of this set and another, which must not be shorter. *)
Definition wordwise (f : Z -> Z -> Z) (s t : UIntSet) : option UIntSet :=
  if (length (_members s) <=? length (_members t))%nat
  then Some (mkUIntSet (zip_with f (_members s) (_members t)))
  else None.

Definition uis_removeAll (s t : UIntSet) : option UIntSet :=
  wordwise (fun a b => Z.land a (not32 b)) s t.

Definition uis_addAll (s t : UIntSet) : option UIntSet := wordwise Z.lor s t.

Definition uis_intersect (s t : UIntSet) : option UIntSet := wordwise Z.land s t.

(** [add(a, b)]: [ourptr[i] |= aptr[i] | bptr[i]] *)
Definition uis_addBoth (s a b : UIntSet) : option UIntSet :=
  if (length (_members s) <=? length (_members a))%nat && (length (_members s) <=? length (_members b))%nat
  then Some (mkUIntSet (zip_with Z.lor (_members s) (zip_with Z.lor (_members a) (_members b))))
  else None.

(** [overwriteWithUnion(a, b)]: [ourptr[i] = aptr[i] | bptr[i]] *)
Definition uis_overwriteWithUnion (s a b : UIntSet) : option UIntSet :=
  if (length (_members s) <=? length (_members a))%nat && (length (_members s) <=? length (_members b))%nat
  then Some (mkUIntSet (take (length (_members s)) (zip_with Z.lor (_members a) (_members b))))
  else None.

Definition uis_empty (s : UIntSet) : bool := forallb (fun items => negb (0 <? items)) (_members s).

(** [__builtin_popcount] of the bits below [n] *)
Fixpoint popcount (n : nat) (z : Z) : nat :=
  match n with
  | O => 0
  | S n => (if Z.testbit z (Z.of_nat n) then 1 else 0) + popcount n z
  end.

Definition uis_size (s : UIntSet) : nat := sum_list (popcount 32 <$> _members s).

(** [__builtin_ctz]: the position of the lowest bit that is set, searched from [i] *)
Fixpoint ctz_from (n : nat) (i : nat) (z : Z) : nat :=
  match n with
  | O => i
  | S n => if Z.testbit z (Z.of_nat i) then i else ctz_from n (S i) z
  end.

Definition ctz (z : Z) : nat := ctz_from 32 0 z.

(** The inner loop of [forEach]; a word has 32 bits, so 32 turns are enough. *)
Fixpoint forEach_word (fuel : nat) (base : nat) (entry : Z) : list nat :=
  match fuel with
  | O => []
  | S fuel =>
      if entry =? 0 then []
      else (base + ctz entry)%nat :: forEach_word fuel base (Z.land entry (u32 (entry - 1)))
  end.

Fixpoint forEach_words (base : nat) (words : list Z) : list nat :=
  match words with
  | [] => []
  | entry :: words => forEach_word 32 base entry ++ forEach_words (base + 32) words
  end.

(** The items [forEach] passes to its argument, in order. *)
Definition uis_forEach (s : UIntSet) : list nat := forEach_words 0 (_members s).

(** ** Sets of numbers

    The specification: a bit set represents a finite set of numbers below 32 times its words. *)

(** The sizes for which the constructor's count of words does not wrap around *)
Definition fitsWords (size : nat) : Prop := Z.of_nat size + 31 < 2 ^ 32.

(** Bit [i] of a vector of words *)
Definition has (ws : list Z) (i : nat) : bool :=
  match ws !! (i / 32)%nat with Some w => Z.testbit w (Z.of_nat (i mod 32)) | None => false end.

Record represents (words : nat) (s : UIntSet) (X : gset nat) : Prop := {
  rep_words : length (_members s) = words;
  rep_u32 : Forall is_u32 (_members s);
  rep_has i : has (_members s) i = bool_decide (i ∈ X) }.

Lemma memberIndex_div i : memberIndex i = (i / 32)%nat.
Proof. unfold memberIndex. by rewrite Nat.shiftr_div_pow2. Qed.

Lemma itemMask_pow i : itemMask i = 2 ^ Z.of_nat (i mod 32).
Proof.
  unfold itemMask. change 31%nat with (Nat.ones 5). rewrite Nat.land_ones. change (2 ^ 5)%nat with 32%nat.
  rewrite Z.shiftl_1_l, u32_id; [done |]. pose proof (Nat.mod_upper_bound i 32).
  split; [lia | apply Z.pow_lt_mono_r; lia].
Qed.

Lemma testbit_mask i j : Z.testbit (itemMask i) (Z.of_nat j) = bool_decide (j = (i mod 32)%nat).
Proof.
  rewrite itemMask_pow, Z.pow2_bits_eqb by lia. apply eq_true_iff_eq.
  rewrite Z.eqb_eq, bool_decide_eq_true. lia.
Qed.

Lemma testbit_not32 z j : (j < 32)%nat -> Z.testbit (not32 z) (Z.of_nat j) = negb (Z.testbit z (Z.of_nat j)).
Proof.
  intros Hj. unfold not32, u32. rewrite Z.mod_pow2_bits_low by lia. by rewrite Z.lnot_spec by lia.
Qed.

Lemma is_u32_bits z : 0 <= z -> (forall j, 32 <= j -> Z.testbit z j = false) -> is_u32 z.
Proof.
  intros Hz Hb. split; [done |]. destruct (Z.eq_dec z 0) as [-> | Hne]; [lia |].
  apply Z.log2_lt_pow2; [lia |]. destruct (Z.lt_ge_cases (Z.log2 z) 32); [done |].
  specialize (Hb (Z.log2 z)). rewrite Z.bit_log2 in Hb by lia. by specialize (Hb H).
Qed.

Lemma u32_lor a b : is_u32 a -> is_u32 b -> is_u32 (Z.lor a b).
Proof.
  intros Ha Hb. apply is_u32_bits; [apply Z.lor_nonneg; split; apply Ha || apply Hb |].
  intros j Hj. by rewrite Z.lor_spec, (testbit_above a 32), (testbit_above b 32).
Qed.

Lemma u32_land a b : is_u32 a -> is_u32 (Z.land a b).
Proof.
  intros Ha. apply is_u32_bits; [apply Z.land_nonneg; left; apply Ha |].
  intros j Hj. by rewrite Z.land_spec, (testbit_above a 32).
Qed.

Lemma u32_mask i : is_u32 (itemMask i).
Proof. apply u32_range. Qed.

#[export] Hint Resolve u32_lor u32_land u32_mask : words.

Lemma rep_low words s X i : represents words s X -> i ∈ X -> (i < 32 * words)%nat.
Proof.
  intros [Hw _ Hh] Hi. specialize (Hh i). rewrite (bool_decide_eq_true_2 _ Hi) in Hh. unfold has in Hh.
  destruct (_members s !! (i / 32)%nat) eqn:E; [| done]. apply lookup_lt_Some in E.
  pose proof (Nat.div_mod i 32). pose proof (Nat.mod_upper_bound i 32). lia.
Qed.

Lemma rep_lookup words s X i : represents words s X -> (i < 32 * words)%nat ->
  exists w, _members s !! memberIndex i = Some w /\ is_u32 w /\
    Z.testbit w (Z.of_nat (i mod 32)) = bool_decide (i ∈ X).
Proof.
  intros [Hw Hu Hh] Hi. rewrite memberIndex_div.
  destruct (lookup_lt_is_Some_2 (_members s) (i / 32)%nat) as [w Hl].
  { rewrite Hw. apply Nat.Div0.div_lt_upper_bound; lia. }
  exists w. split_and!; [done | by eapply Forall_lookup_1 |]. rewrite <- Hh. unfold has. by rewrite Hl.
Qed.

(** Pointwise operations on the word of one item change that item only. *)
Lemma has_insert ws k w i : (k < length ws)%nat ->
  has (<[k := w]> ws) i = if decide ((i / 32)%nat = k) then Z.testbit w (Z.of_nat (i mod 32)) else has ws i.
Proof.
  intros Hk. unfold has. destruct (decide ((i / 32)%nat = k)) as [<- | Hne].
  - by rewrite list_lookup_insert_eq.
  - by rewrite list_lookup_insert_ne.
Qed.

Lemma same_item i j : (i / 32 = j / 32 -> i mod 32 = j mod 32 -> i = j)%nat.
Proof. intros H1 H2. rewrite (Nat.div_mod_eq i 32), (Nat.div_mod_eq j 32). congruence. Qed.

(** One operation on bits, lifted to words and to sets *)
Lemma rep_update words s X i w (Y : gset nat) : represents words s X -> (i < 32 * words)%nat -> is_u32 w ->
  (forall j, (j / 32 = i / 32)%nat -> Z.testbit w (Z.of_nat (j mod 32)) = bool_decide (j ∈ Y)) ->
  (forall j, (j / 32 <> i / 32)%nat -> j ∈ Y <-> j ∈ X) ->
  represents words (mkUIntSet (<[memberIndex i := w]> (_members s))) Y.
Proof.
  intros HR Hi Hw Hsame Hother. assert (Hk : (i / 32 < length (_members s))%nat).
  { rewrite (rep_words _ _ _ HR). apply Nat.Div0.div_lt_upper_bound; lia. }
  rewrite memberIndex_div. split; cbn.
  - by rewrite length_insert, (rep_words _ _ _ HR).
  - apply Forall_insert; [apply HR | done].
  - intros j. rewrite has_insert by done. destruct (decide _) as [E | E]; [by apply Hsame |].
    rewrite (rep_has _ _ _ HR). apply bool_decide_ext. symmetry. by apply Hother.
Qed.

Lemma has_zip (f : Z -> Z -> Z) (g : bool -> bool -> bool) a b i :
  length a = length b -> g false false = false ->
  (forall x y j, (j < 32)%nat -> Z.testbit (f x y) (Z.of_nat j) = g (Z.testbit x (Z.of_nat j)) (Z.testbit y (Z.of_nat j))) ->
  has (zip_with f a b) i = g (has a i) (has b i).
Proof.
  intros Hl Hg Hf. unfold has. rewrite lookup_zip_with.
  destruct (a !! (i / 32)%nat) eqn:Ea, (b !! (i / 32)%nat) eqn:Eb; cbn [mbind option_bind]; try done.
  - apply Hf, Nat.mod_upper_bound. lia.
  - apply lookup_lt_Some in Ea. apply lookup_ge_None in Eb. lia.
  - apply lookup_lt_Some in Eb. apply lookup_ge_None in Ea. lia.
Qed.

Lemma rep_zip words (f : Z -> Z -> Z) (g : bool -> bool -> bool) s t (X Y W : gset nat) :
  represents words s X -> represents words t Y -> g false false = false ->
  (forall x y, is_u32 x -> is_u32 y -> is_u32 (f x y)) ->
  (forall x y j, (j < 32)%nat -> Z.testbit (f x y) (Z.of_nat j) = g (Z.testbit x (Z.of_nat j)) (Z.testbit y (Z.of_nat j))) ->
  (forall i, bool_decide (i ∈ W) = g (bool_decide (i ∈ X)) (bool_decide (i ∈ Y))) ->
  represents words (mkUIntSet (zip_with f (_members s) (_members t))) W.
Proof.
  intros [Hs Hus Hhs] [Ht Hut Hht] Hg Hu Hf HW. split; cbn.
  - rewrite length_zip_with. lia.
  - apply Forall_lookup. intros k w. rewrite lookup_zip_with.
    destruct (_members s !! k) eqn:E1, (_members t !! k) eqn:E2; cbn; try done. intros [= <-].
    apply Hu; [exact (Forall_lookup_1 _ _ _ _ Hus E1) | exact (Forall_lookup_1 _ _ _ _ Hut E2)].
  - intros i. rewrite (has_zip f g) by (done || lia). by rewrite Hhs, Hht, HW.
Qed.

Lemma zero_no_bits w : is_u32 w -> (0 <? w) = false <-> forall j, (j < 32)%nat -> Z.testbit w (Z.of_nat j) = false.
Proof.
  intros Hw. rewrite Z.ltb_ge. split.
  - intros H j _. replace w with 0 by (unfold is_u32 in Hw; lia). apply Z.bits_0.
  - intros H. replace w with 0; [lia |]. apply Z.bits_inj'. intros j Hj. rewrite Z.bits_0.
    destruct (Z.lt_ge_cases j 32).
    + specialize (H (Z.to_nat j) ltac:(lia)). rewrite Z2Nat.id in H by lia. done.
    + by rewrite (testbit_above w 32).
Qed.

(** ** Clearing the lowest bit *)

Lemma ctz_from_spec n i z :
  (exists j, (i <= j < i + n)%nat /\ Z.testbit z (Z.of_nat j) = true) ->
  (i <= ctz_from n i z < i + n)%nat /\ Z.testbit z (Z.of_nat (ctz_from n i z)) = true /\
  forall j, (i <= j < ctz_from n i z)%nat -> Z.testbit z (Z.of_nat j) = false.
Proof.
  revert i. induction n as [| n IH]; intros i (j & Hj & Hb); [lia |]. simpl.
  destruct (Z.testbit z (Z.of_nat i)) eqn:E.
  - split_and!; [lia | lia | done | lia].
  - destruct (IH (S i)) as (H1 & H2 & H3).
    { exists j. split; [| done]. destruct (decide (i = j)); [congruence | lia]. }
    split_and!; [lia | lia | done |]. intros k Hk. destruct (decide (k = i)) as [-> | Hne]; [done |].
    apply H3. lia.
Qed.

Lemma ctz_spec z : is_u32 z -> z <> 0 ->
  (ctz z < 32)%nat /\ Z.testbit z (Z.of_nat (ctz z)) = true /\
  forall j, (j < ctz z)%nat -> Z.testbit z (Z.of_nat j) = false.
Proof.
  intros Hz Hne. destruct (ctz_from_spec 32 0 z) as (H1 & H2 & H3).
  { exists (Z.to_nat (Z.log2 z)). pose proof (Z.log2_nonneg z). unfold is_u32 in Hz.
    rewrite Z2Nat.id by done. split; [| apply Z.bit_log2; lia].
    pose proof (Z.log2_lt_pow2 z 32 ltac:(lia)). lia. }
  fold (ctz z) in *. split_and!; [lia | done |]. intros j Hj. apply H3. lia.
Qed.

(** [entry &= entry - 1] clears the lowest bit of [entry] and no other. *)
Lemma clear_lowest z b : 0 < z -> 0 <= b -> Z.testbit z b = true ->
  (forall j, 0 <= j < b -> Z.testbit z j = false) ->
  forall i, 0 <= i -> Z.testbit (Z.land z (z - 1)) i = Z.testbit z i && negb (i =? b).
Proof.
  intros Hz Hb Hbit Hlow i Hi. rewrite Z.land_spec.
  assert (Hmod : z mod 2 ^ b = 0).
  { apply Z.bits_inj'. intros j Hj. rewrite Z.bits_0. destruct (Z.lt_ge_cases j b).
    - rewrite Z.mod_pow2_bits_low by done. by apply Hlow.
    - by rewrite Z.mod_pow2_bits_high. }
  pose proof (Z.pow_pos_nonneg 2 b ltac:(lia) Hb) as Hp.
  pose proof (Z.div_mod z (2 ^ b) ltac:(lia)) as Hdm. set (m := z / 2 ^ b) in *.
  assert (Hodd : Z.odd m = true) by (rewrite <- Z.bit0_odd; unfold m; rewrite Z.div_pow2_bits by lia; done).
  rewrite Z.odd_spec in Hodd. destruct Hodd as [k Hk].
  assert (Hz1 : z - 1 = (2 ^ b - 1) + (2 * k) * 2 ^ b) by lia.
  assert (Hhi : (z - 1) / 2 ^ b = 2 * k) by (rewrite Hz1, Z.div_add, Z.div_small by lia; lia).
  destruct (Z.lt_trichotomy i b) as [Hlt | [-> | Hgt]].
  - by rewrite Hlow.
  - rewrite Z.eqb_refl, andb_false_r, Hbit. cbn.
    replace b with (0 + b) by lia. rewrite <- Z.div_pow2_bits by lia. rewrite Hhi. by rewrite Z.testbit_even_0.
  - replace (i =? b) with false by lia. rewrite andb_true_r.
    replace (Z.testbit (z - 1) i) with (Z.testbit z i); [by destruct (Z.testbit z i) |].
    replace i with ((i - b) + b) by lia. rewrite <- !Z.div_pow2_bits by lia. rewrite Hhi. fold m. rewrite Hk.
    replace (i - b) with (Z.succ (i - b - 1)) by lia.
    by rewrite Z.testbit_odd_succ, Z.testbit_even_succ by lia.
Qed.

(** ** Counting and enumeration *)

Definition bitList (z : Z) : list nat := filter (fun j => Z.testbit z (Z.of_nat j) = true) (seq 0 32).

Lemma bitList_spec z j : j ∈ bitList z <-> (j < 32)%nat /\ Z.testbit z (Z.of_nat j) = true.
Proof. unfold bitList. rewrite list_elem_of_filter, elem_of_seq. naive_solver lia. Qed.

Lemma bitList_sorted z : StronglySorted lt (bitList z).
Proof.
  unfold bitList. generalize 0%nat, 32%nat. intros b n. revert b.
  induction n as [| n IH]; intros b; simpl; [constructor |]. rewrite filter_cons.
  destruct (decide _); [| apply IH]. constructor; [apply IH |].
  apply Forall_forall. intros j (_ & Hj%elem_of_seq)%list_elem_of_filter. lia.
Qed.

Lemma sorted_lt_nodup (l : list nat) : StronglySorted lt l -> NoDup l.
Proof.
  induction 1 as [| x l Hs IH Hx]; constructor; [| done]. intros Hin.
  rewrite Forall_forall in Hx. specialize (Hx _ Hin). lia.
Qed.

(** Two strictly sorted lists with the same elements are equal. *)
Lemma sorted_lt_unique (l k : list nat) :
  StronglySorted lt l -> StronglySorted lt k -> (forall i, i ∈ l <-> i ∈ k) -> l = k.
Proof.
  intros Hl Hk He. apply (StronglySorted_unique_strong lt); [| done | done |].
  - intros x y _ _ H1 H2. lia.
  - apply NoDup_Permutation; [by apply sorted_lt_nodup | by apply sorted_lt_nodup | done].
Qed.

Lemma forEach_word_spec fuel base z : is_u32 z -> (length (bitList z) <= fuel)%nat ->
  forEach_word fuel base z = (Nat.add base) <$> bitList z.
Proof.
  revert z. induction fuel as [| fuel IH]; intros z Hz Hlen; simpl.
  - by destruct (bitList z); [| simpl in Hlen; lia].
  - destruct (Z.eqb_spec z 0) as [-> | Hne]; [done |].
    assert (Hpos : 0 < z) by (unfold is_u32 in Hz; lia).
    destruct (ctz_spec z Hz Hne) as (Hc & Hbit & Hlow). rewrite u32_id by (unfold is_u32 in *; lia).
    set (z' := Z.land z (z - 1)). assert (Hz' : is_u32 z') by by apply u32_land.
    assert (E : bitList z = ctz z :: bitList z').
    { assert (Hbits : forall j, Z.testbit z' (Z.of_nat j) = Z.testbit z (Z.of_nat j) && negb (j =? ctz z)%nat).
      { intros j. unfold z'. rewrite (clear_lowest z (Z.of_nat (ctz z))); [| lia | lia | done | | lia].
        - do 2 f_equal. apply eq_true_iff_eq. rewrite Z.eqb_eq, Nat.eqb_eq. lia.
        - intros k Hk. specialize (Hlow (Z.to_nat k) ltac:(lia)). by rewrite Z2Nat.id in Hlow by lia. }
      apply sorted_lt_unique; [apply bitList_sorted | |].
      - constructor; [apply bitList_sorted |]. apply Forall_forall. intros j (_ & Hj)%bitList_spec.
        rewrite Hbits, andb_true_iff, negb_true_iff, Nat.eqb_neq in Hj. destruct Hj as [Hj Hjc].
        destruct (Nat.lt_ge_cases j (ctz z)); [| lia]. by rewrite Hlow in Hj.
      - intros j. rewrite elem_of_cons, !bitList_spec, Hbits, andb_true_iff, negb_true_iff, Nat.eqb_neq.
        destruct (decide (j = ctz z)) as [-> |]; naive_solver. }
    rewrite E in Hlen |- *. simpl in *. f_equal. apply IH; [done | lia].
Qed.

Lemma bitList_short z : (length (bitList z) <= 32)%nat.
Proof. unfold bitList. etrans; [apply length_filter |]. by rewrite length_seq. Qed.

Lemma popcount_filter n z :
  popcount n z = length (filter (fun j => Z.testbit z (Z.of_nat j) = true) (seq 0 n)).
Proof.
  induction n as [| n IH]; [done |]. simpl popcount. rewrite seq_S, filter_app, length_app, IH. simpl.
  rewrite filter_cons. case_decide as E; simpl; [rewrite E; lia |].
  destruct (Z.testbit z (Z.of_nat n)); [done | simpl; lia].
Qed.

Lemma forEach_words_spec base ws : Forall is_u32 ws ->
  StronglySorted lt (forEach_words base ws) /\
  (forall i, i ∈ forEach_words base ws <-> (base <= i)%nat /\ has ws (i - base) = true) /\
  length (forEach_words base ws) = sum_list (popcount 32 <$> ws).
Proof.
  intros Hu. revert base. induction Hu as [| w ws Hw Hu IH]; intros base; cbn [forEach_words].
  - split_and!; [constructor | | done]. intros i. unfold has. rewrite lookup_nil. set_solver.
  - rewrite forEach_word_spec by (done || apply bitList_short). destruct (IH (base + 32)%nat) as (H1 & H2 & H3).
    split_and!.
    + apply StronglySorted_app. split_and!.
      * intros i j (i' & -> & Hi%bitList_spec)%list_elem_of_fmap (Hj & _)%H2. lia.
      * apply (StronglySorted_fmap _ lt lt); [intros; lia | apply bitList_sorted].
      * done.
    + intros i. rewrite elem_of_app, H2, list_elem_of_fmap. unfold has.
      destruct (decide (base <= i)%nat) as [Hb |]; cycle 1.
      { split; [| naive_solver lia]. intros [(j & -> & _) | (? & _)]; lia. }
      destruct (decide (i - base < 32)%nat) as [Hlt | Hge].
      * rewrite (Nat.div_small (i - base)), (Nat.mod_small (i - base)) by done. cbn [lookup list_lookup]. split.
        -- intros [(j & -> & Hj%bitList_spec) | [? _]]; [| lia]. split; [lia |].
           replace (base + j - base)%nat with j by lia. apply Hj.
        -- intros [_ Hbit]. left. exists (i - base)%nat. split; [lia |]. by apply bitList_spec, conj.
      * assert (E : (i - base = (i - (base + 32)) + 1 * 32)%nat) by lia.
        rewrite E, Nat.div_add, Nat.Div0.mod_add, Nat.add_1_r by lia. cbn [lookup list_lookup].
        split; [| intros [_ ?]; right; split; [lia | done]].
        intros [(j & -> & Hj%bitList_spec) | [? ?]]; [lia | split; [lia | done]].
    + rewrite length_app, length_fmap, H3. cbn [fmap list_fmap sum_list]. rewrite popcount_filter. done.
Qed.

(** ** The operations on sets *)

Lemma rep_new n : fitsWords n -> represents ((n + 31) / 32) (newUIntSet n) ∅.
Proof.
  unfold fitsWords. intros Hn. split; cbn [newUIntSet _members].
  - rewrite length_replicate, u32_id by (unfold is_u32; lia).
    rewrite <- (Nat2Z.id ((n + 31) / 32)), Nat2Z.inj_div, Nat2Z.inj_add. done.
  - apply Forall_replicate. unfold is_u32. lia.
  - intros i. unfold has. rewrite bool_decide_eq_false_2 by set_solver.
    destruct (replicate _ _ !! _) eqn:E; [| done]. apply lookup_replicate in E as [-> _]. apply Z.bits_0.
Qed.

Lemma rep_clear words s X : represents words s X -> represents words (uis_clear s) ∅.
Proof.
  intros [Hw _ _]. split; cbn [uis_clear _members].
  - by rewrite length_fmap.
  - apply Forall_fmap, Forall_true. intros; cbn. unfold is_u32. lia.
  - intros i. unfold has. rewrite bool_decide_eq_false_2 by set_solver. rewrite list_lookup_fmap.
    destruct (_members s !! _); cbn [fmap option_fmap option_map]; [apply Z.bits_0 | done].
Qed.

Lemma rep_add words s X i : represents words s X -> (i < 32 * words)%nat ->
  exists s', uis_add i s = Some s' /\ represents words s' ({[i]} ∪ X).
Proof.
  intros HR Hi. destruct (rep_lookup _ _ _ _ HR Hi) as (w & Hw & Hu & _). unfold uis_add. rewrite Hw.
  eexists. split; [done |]. apply (rep_update _ _ X); [done | done | auto with words | |].
  - intros j Hj. rewrite Z.lor_spec, testbit_mask. pose proof (rep_has _ _ _ HR j) as Hh. unfold has in Hh.
    rewrite memberIndex_div in Hw. rewrite Hj, Hw in Hh. rewrite Hh. apply eq_true_iff_eq.
    rewrite orb_true_iff, !bool_decide_eq_true. pose proof (same_item j i Hj). set_solver.
  - intros j Hj. assert (j <> i) by congruence. set_solver.
Qed.

Lemma rep_remove words s X i : represents words s X -> (i < 32 * words)%nat ->
  exists s', uis_remove i s = Some s' /\ represents words s' (X ∖ {[i]}).
Proof.
  intros HR Hi. destruct (rep_lookup _ _ _ _ HR Hi) as (w & Hw & Hu & _). unfold uis_remove. rewrite Hw.
  eexists. split; [done |]. apply (rep_update _ _ X); [done | done | auto with words | |].
  - intros j Hj. rewrite Z.land_spec, testbit_not32, testbit_mask by (apply Nat.mod_upper_bound; lia).
    pose proof (rep_has _ _ _ HR j) as Hh. unfold has in Hh.
    rewrite memberIndex_div in Hw. rewrite Hj, Hw in Hh. rewrite Hh. apply eq_true_iff_eq.
    rewrite andb_true_iff, negb_true_iff, bool_decide_eq_false, !bool_decide_eq_true.
    pose proof (same_item j i Hj). set_solver.
  - intros j Hj. assert (j <> i) by congruence. set_solver.
Qed.

Lemma rep_contains words s X i : represents words s X -> (i < 32 * words)%nat ->
  uis_contains s i = Some (bool_decide (i ∈ X)).
Proof.
  intros HR Hi. destruct (rep_lookup _ _ _ _ HR Hi) as (w & Hw & Hu & Hb). unfold uis_contains. rewrite Hw.
  cbn [mbind option_bind]. f_equal. rewrite <- Hb.
  destruct (Z.testbit w (Z.of_nat (i mod 32))) eqn:E.
  - apply not_false_iff_true. intros Hz. apply zero_no_bits with (j := (i mod 32)%nat) in Hz;
      [| auto with words | apply Nat.mod_upper_bound; lia].
    rewrite Z.land_spec, E, testbit_mask, bool_decide_eq_true_2 in Hz by done. done.
  - apply zero_no_bits; [auto with words |]. intros j Hj. rewrite Z.land_spec, testbit_mask.
    destruct (decide (j = (i mod 32)%nat)) as [-> | Hn]; [by rewrite E |].
    rewrite (bool_decide_eq_false_2 _ Hn). apply andb_false_r.
Qed.

Lemma rep_wordwise words f g s t (X Y W : gset nat) :
  represents words s X -> represents words t Y -> g false false = false ->
  (forall x y, is_u32 x -> is_u32 y -> is_u32 (f x y)) ->
  (forall x y j, (j < 32)%nat -> Z.testbit (f x y) (Z.of_nat j) = g (Z.testbit x (Z.of_nat j)) (Z.testbit y (Z.of_nat j))) ->
  (forall i, bool_decide (i ∈ W) = g (bool_decide (i ∈ X)) (bool_decide (i ∈ Y))) ->
  exists s', wordwise f s t = Some s' /\ represents words s' W.
Proof.
  intros Hs Ht Hg Hu Hf HW. unfold wordwise. rewrite (rep_words _ _ _ Hs), (rep_words _ _ _ Ht), Nat.leb_refl.
  eexists. split; [done |]. by eapply rep_zip.
Qed.

Lemma rep_addAll words s t X Y : represents words s X -> represents words t Y ->
  exists s', uis_addAll s t = Some s' /\ represents words s' (X ∪ Y).
Proof.
  intros Hs Ht. eapply (rep_wordwise _ _ orb); try done; [auto with words | intros; apply Z.lor_spec |].
  intros i. apply eq_true_iff_eq. rewrite orb_true_iff, !bool_decide_eq_true. set_solver.
Qed.

Lemma rep_intersect words s t X Y : represents words s X -> represents words t Y ->
  exists s', uis_intersect s t = Some s' /\ represents words s' (X ∩ Y).
Proof.
  intros Hs Ht. eapply (rep_wordwise _ _ andb); try done; [auto with words | intros; apply Z.land_spec |].
  intros i. apply eq_true_iff_eq. rewrite andb_true_iff, !bool_decide_eq_true. set_solver.
Qed.

Lemma rep_removeAll words s t X Y : represents words s X -> represents words t Y ->
  exists s', uis_removeAll s t = Some s' /\ represents words s' (X ∖ Y).
Proof.
  intros Hs Ht. eapply (rep_wordwise _ _ (fun a b => a && negb b)); try done; [auto with words | |].
  - intros. by rewrite Z.land_spec, testbit_not32.
  - intros i. apply eq_true_iff_eq. rewrite andb_true_iff, negb_true_iff, bool_decide_eq_false, !bool_decide_eq_true.
    set_solver.
Qed.

Lemma rep_union words a b A B : represents words a A -> represents words b B ->
  represents words (mkUIntSet (zip_with Z.lor (_members a) (_members b))) (A ∪ B).
Proof.
  intros Ha Hb. eapply (rep_zip _ _ orb); try done; [auto with words | intros; apply Z.lor_spec |].
  intros i. apply eq_true_iff_eq. rewrite orb_true_iff, !bool_decide_eq_true. set_solver.
Qed.

Lemma rep_addBoth words s a b X A B : represents words s X -> represents words a A -> represents words b B ->
  exists s', uis_addBoth s a b = Some s' /\ represents words s' (X ∪ (A ∪ B)).
Proof.
  intros Hs Ha Hb. unfold uis_addBoth.
  rewrite (rep_words _ _ _ Hs), (rep_words _ _ _ Ha), (rep_words _ _ _ Hb), Nat.leb_refl.
  eexists. split; [done |]. exact (rep_union _ _ _ _ _ Hs (rep_union _ _ _ _ _ Ha Hb)).
Qed.

Lemma rep_overwriteWithUnion words s a b X A B :
  represents words s X -> represents words a A -> represents words b B ->
  exists s', uis_overwriteWithUnion s a b = Some s' /\ represents words s' (A ∪ B).
Proof.
  intros Hs Ha Hb. unfold uis_overwriteWithUnion.
  rewrite (rep_words _ _ _ Hs), (rep_words _ _ _ Ha), (rep_words _ _ _ Hb), Nat.leb_refl.
  eexists. split; [done |]. pose proof (rep_union _ _ _ _ _ Ha Hb) as HR.
  rewrite take_ge; [done |]. pose proof (rep_words _ _ _ HR) as Hl. cbn [_members] in Hl. lia.
Qed.

Lemma rep_forEach words s X : represents words s X ->
  StronglySorted lt (uis_forEach s) /\ (forall i, i ∈ uis_forEach s <-> i ∈ X) /\
  length (uis_forEach s) = uis_size s.
Proof.
  intros [_ Hu Hh]. destruct (forEach_words_spec 0 _ Hu) as (H1 & H2 & H3). unfold uis_forEach.
  split_and!; [done | | done]. intros i. rewrite H2, Nat.sub_0_r, Hh, bool_decide_eq_true. naive_solver lia.
Qed.

Lemma rep_size words s X : represents words s X -> uis_size s = size X.
Proof.
  intros HR. destruct (rep_forEach _ _ _ HR) as (H1 & H2 & <-). unfold size, set_size. cbn [compose].
  apply Permutation_length, NoDup_Permutation; [by apply sorted_lt_nodup | apply NoDup_elements |].
  intros i. by rewrite H2, elem_of_elements.
Qed.

Lemma rep_empty words s X : represents words s X -> uis_empty s = bool_decide (X = ∅).
Proof.
  intros HR. apply eq_true_iff_eq. unfold uis_empty. rewrite forallb_forall, bool_decide_eq_true. split.
  - intros H. apply set_eq. intros i. split; [| set_solver]. intros Hi.
    destruct (rep_lookup _ _ _ i HR) as (w & Hw & Hu & Hb); [by eapply rep_low |].
    specialize (H w). rewrite negb_true_iff, (zero_no_bits w Hu) in H.
    rewrite H, bool_decide_eq_true_2 in Hb; [done | done | | apply Nat.mod_upper_bound; lia].
    apply list_elem_of_In. by eapply list_elem_of_lookup_2.
  - intros -> w Hw%list_elem_of_In. apply list_elem_of_lookup in Hw as [k Hk]. apply negb_true_iff.
    apply zero_no_bits; [by eapply Forall_lookup_1; [apply (rep_u32 _ _ _ HR) |] |]. intros j Hj.
    pose proof (rep_has _ _ _ HR (k * 32 + j)) as Hh. unfold has in Hh.
    rewrite Nat.div_add_l, (Nat.div_small j), Nat.add_0_r, Hk in Hh by lia.
    rewrite Nat.add_comm, Nat.Div0.mod_add, Nat.mod_small in Hh by done. rewrite Hh.
    apply bool_decide_eq_false_2. set_solver.
Qed.

(** C37: bit sets implement sets of numbers, for sizes up to 2^32 - 32, beyond which the constructor's
    count of words wraps around. Started from the constructor, every operation inside the
    capacity succeeds and does on the set that is represented what it does on the bits: adding and
    removing one item or another set, intersection, union, membership, emptiness, cardinality; and
    [forEach] passes each member once, in increasing order. *)
Theorem uintset_refines n : fitsWords n ->
  let words := ((n + 31) / 32)%nat in
  represents words (newUIntSet n) ∅ /\
  forall s X, represents words s X ->
    (forall i, (i < n)%nat ->
       (exists s', uis_add i s = Some s' /\ represents words s' ({[i]} ∪ X)) /\
       (exists s', uis_remove i s = Some s' /\ represents words s' (X ∖ {[i]})) /\
       uis_contains s i = Some (bool_decide (i ∈ X))) /\
    (forall t Y, represents words t Y ->
       (exists s', uis_addAll s t = Some s' /\ represents words s' (X ∪ Y)) /\
       (exists s', uis_removeAll s t = Some s' /\ represents words s' (X ∖ Y)) /\
       (exists s', uis_intersect s t = Some s' /\ represents words s' (X ∩ Y)) /\
       (forall u W, represents words u W ->
          (exists s', uis_addBoth s t u = Some s' /\ represents words s' (X ∪ (Y ∪ W))) /\
          (exists s', uis_overwriteWithUnion s t u = Some s' /\ represents words s' (Y ∪ W)))) /\
    represents words (uis_clear s) ∅ /\ uis_empty s = bool_decide (X = ∅) /\ uis_size s = size X /\
    StronglySorted lt (uis_forEach s) /\ (forall i, i ∈ uis_forEach s <-> i ∈ X).
Proof.
  intros Hn words. split; [by apply rep_new |]. intros s X HR. split_and!.
  - intros i Hi. assert (i < 32 * words)%nat.
    { unfold words. pose proof (Nat.div_mod (n + 31) 32). pose proof (Nat.mod_upper_bound (n + 31) 32). lia. }
    split_and!; [by apply rep_add | by apply rep_remove | by eapply rep_contains].
  - intros t Y Ht. split_and!; [by apply rep_addAll | by apply rep_removeAll | by apply rep_intersect |].
    intros u W Hu. split; [by apply rep_addBoth | by eapply rep_overwriteWithUnion].
  - by eapply rep_clear.
  - by eapply rep_empty.
  - by eapply rep_size.
  - by eapply rep_forEach.
  - by eapply rep_forEach.
Qed.

(** A set of 40 numbers, and what the constructor does past the bound: it has no words, and adding an
    item is an access outside the vector. *)
Lemma uintset_refines_witness : fitsWords 40 /\ represents 2 (newUIntSet 40) ∅ /\
  uis_forEach (mkUIntSet [5; 128]) = [0; 2; 39]%nat.
Proof. split; [by vm_compute |]. split; [| done]. exact (proj1 (uintset_refines 40 ltac:(by vm_compute))). Defined.

Lemma newUIntSet_wraps n i : Z.of_nat n = 2 ^ 32 - 31 -> uis_add i (newUIntSet n) = None.
Proof. intros Hn. unfold uis_add, newUIntSet. rewrite Hn. done. Qed.
