(* ===== verification/Pickler.v ===== *)
(** * The pickler: byte-level encoding of the cache and of the payload

    Models [Pickler] and [UnPickler] of src/core/serialize/pickler.h and
    src/core/serialize/serialize.cc: one-byte writes, variable-length 32-bit integers with run-length
    encoding of zeros, variable-length 64-bit integers, strings and byte spans, and the
    compressed container written by [Pickler::result] and read by the [UnPickler] constructor.

    A [Pickler &] argument is explicit state passing; an [UnPickler &] argument is the state of the
    error monad [unp], in which [None] stands for undefined behaviour (a read past the end of the
    buffer, an [ENFORCE] that does not hold) or for a raised exception. *)

From S2P Require Import Prelude.

#[local] Open Scope Z_scope.

(** A sequence of statements that each update the pickler. *)
Declare Scope pickle_scope.
Notation "p |> f" := (f p) (at level 50, left associativity, only parsing) : pickle_scope.

(** ** Definitions *)

Record Pickler := mkPickler { pdata : list Z; pzeroCounter : Z }.

Record UnPickler := mkUnPickler { upos : Z; uzeroCounter : Z; udata : list Z }.

Definition emptyPickler : Pickler := mkPickler [] 0.

Definition UCHAR_MAX : Z := 255.

(** [data.emplace_back(b)]: the argument is converted to [uint8_t]. *)
Definition emplace_back (b : Z) (p : Pickler) : Pickler :=
  mkPickler (pdata p ++ [u8 b]) (pzeroCounter p).

(** [if (zeroCounter != 0) { data.emplace_back(zeroCounter); zeroCounter = 0; }] *)
Definition flushZeros (p : Pickler) : Pickler :=
  if pzeroCounter p =? 0 then p
  else mkPickler (pdata (emplace_back (pzeroCounter p) p)) 0.

Definition putU1 (u : Z) (p : Pickler) : Pickler := emplace_back u (flushZeros p).

(** The loop [while (u > 127) { ... u = u >> 7; } ...(u & 127)] shared by [putU4] and [putU8]: the
    bytes it writes. [fuel] bounds the number of iterations. *)
Fixpoint varint (fuel : nat) (u : Z) : list Z :=
  match fuel with
  | O => []
  | S fuel =>
      if 127 <? u then Z.lor 128 (Z.land u 127) :: varint fuel (Z.shiftr u 7)
      else [Z.land u 127]
  end.

(** A [uint32_t] has at most five, a [uint64_t] at most ten, groups of seven bits. *)
Definition U4_GROUPS : nat := 5.

Definition U8_GROUPS : nat := 10.

Definition putU4 (u : Z) (p : Pickler) : Pickler :=
  if u =? 0 then
    if pzeroCounter p =? 0 then mkPickler (pdata (emplace_back 0 p)) 1
    else if pzeroCounter p =? UCHAR_MAX then
      (* [data.emplace_back(UCHAR_MAX); zeroCounter = 0; putU4(u);]: the recursive call finds the
         counter at zero *)
      mkPickler (pdata (emplace_back 0 (emplace_back UCHAR_MAX p))) 1
    else mkPickler (pdata p) (pzeroCounter p + 1)
  else fold_left (fun q b => emplace_back b q) (varint U4_GROUPS u) (flushZeros p).

Definition putU8 (i : Z) (p : Pickler) : Pickler :=
  fold_left (fun q b => putU1 b q) (varint U8_GROUPS i) p.

(** [putS8(i)] is [putU8(bit_cast<uint64_t>(i))]. *)
Definition putS8 (i : Z) (p : Pickler) : Pickler := putU8 (u64 i) p.

Definition putStr (s : str) (p : Pickler) : Pickler :=
  fold_left (fun q c => putU1 (byte_of_char c) q) s (putU4 (Z.of_nat (length s)) p).

Definition putBytes (bs : list Z) (p : Pickler) : Pickler :=
  fold_left (fun q b => putU1 b q) bs (putU4 (Z.of_nat (length bs)) p).

(** A container is written element by element. *)
Definition putAll {A} (put : A -> Pickler -> Pickler) (l : list A) (p : Pickler) : Pickler :=
  fold_left (fun q a => put a q) l p.

(** [p.putU4(l.size()); for (auto &a : l) ...] *)
Definition putVec {A} (put : A -> Pickler -> Pickler) (l : list A) (p : Pickler) : Pickler :=
  putAll put l (putU4 (Z.of_nat (length l)) p).

(** *** The reading monad *)

Definition unp (A : Type) : Type := UnPickler -> option (A * UnPickler).

#[export] Instance unp_ret : MRet unp := fun A x r => Some (x, r).

#[export] Instance unp_bind : MBind unp := fun A B k m r =>
  match m r with
  | Some (x, r') => k x r'
  | None => None
  end.

Definition unp_fail {A} : unp A := fun _ => None.

(** [data[pos++]] *)
Definition nextByte : unp Z := fun r =>
  match udata r !! Z.to_nat (upos r) with
  | Some b => Some (b, mkUnPickler (upos r + 1) (uzeroCounter r) (udata r))
  | None => None
  end.

Definition setZeroCounter (z : Z) : unp unit := fun r =>
  Some (tt, mkUnPickler (upos r) (u8 z) (udata r)).

(** [ENFORCE_NO_TIMER(zeroCounter == 0); return data[pos++];] *)
Definition getU1 : unp Z := fun r =>
  if uzeroCounter r =? 0 then nextByte r else None.

(** One unrolled step of [getU4]: read a group and shift it into place. *)
Definition getGroup (shift res : Z) (k : Z -> unp Z) : unp Z :=
  vle ← nextByte;
  let res := Z.lor res (u32 (Z.shiftl (Z.land vle 127) shift)) in
  if Z.land vle 128 =? 0 then mret res else k res.

Definition getU4 : unp Z := fun r =>
  if negb (uzeroCounter r =? 0) then
    Some (0, mkUnPickler (upos r) (uzeroCounter r - 1) (udata r))
  else
    (b ← nextByte;
     if b =? 0 then
       z ← nextByte;
       _ ← setZeroCounter (z - 1);
       mret 0
     else
       let res := Z.land b 127 in
       if Z.land b 128 =? 0 then mret res
       else getGroup 7 res (fun res => getGroup 14 res (fun res => getGroup 21 res (fun res =>
              getGroup 28 res (fun res => mret res))))) r.

(** The loop of [getU8]. Each iteration reads one byte of the buffer, so the length of the buffer
    bounds the iterations; a shift of 64 bits or more is undefined behaviour. *)
Fixpoint getU8_loop (fuel : nat) (i res : Z) : unp Z :=
  match fuel with
  | O => unp_fail
  | S fuel =>
      vle ← getU1;
      if 64 <=? i * 7 then unp_fail
      else
        let res := Z.lor res (u64 (Z.shiftl (Z.land vle 127) (i * 7))) in
        if Z.land vle 128 =? 0 then mret res else getU8_loop fuel (i + 1) res
  end.

Definition getU8 : unp Z := fun r => getU8_loop (length (udata r)) 0 0 r.

Definition getS8 : unp Z := u ← getU8; mret (i64 u).

(** The [sz] bytes at [pos]; a negative size or a slice past the end is undefined behaviour. *)
Definition takeSlice (sz : Z) : unp (list Z) := fun r =>
  if (0 <=? sz) && (upos r + sz <=? Z.of_nat (length (udata r))) then
    Some (take (Z.to_nat sz) (drop (Z.to_nat (upos r)) (udata r)),
          mkUnPickler (upos r + sz) (uzeroCounter r) (udata r))
  else None.

Definition getBytes : unp (list Z) := sz ← getU4; takeSlice (i32 sz).

Definition getStr : unp str := bs ← getBytes; mret (char_of_byte <$> bs).

(** [for (i = 0; i < n; i++) { ... emplace_back(get()); }] *)
Fixpoint getN {A} (get : unp A) (n : nat) : unp (list A) :=
  match n with
  | O => mret []
  | S n => x ← get; xs ← getN get n; mret (x :: xs)
  end.

(** [int n = getU4(); vector<T> v(n);] or a loop up to [n]: a negative [n] makes the vector's
    constructor throw. *)
Definition getVec {A} (get : unp A) : unp (list A) :=
  n ← getU4;
  let n := i32 n in
  if n <? 0 then unp_fail else getN get (Z.to_nat n).

(** [uint32_t n = getU4(); for (int i = 0; i < n; i++)]: the comparison is unsigned. *)
Definition getVecU {A} (get : unp A) : unp (list A) :=
  n ← getU4; getN get (Z.to_nat n).

#[global] Arguments putU1 : simpl never.
#[global] Arguments putU4 : simpl never.
#[global] Arguments putU8 : simpl never.
#[global] Arguments putS8 : simpl never.
#[global] Arguments putStr : simpl never.
#[global] Arguments putBytes : simpl never.
#[global] Arguments putVec : simpl never.
#[global] Arguments getU1 : simpl never.
#[global] Arguments getU4 : simpl never.
#[global] Arguments getU8 : simpl never.
#[global] Arguments getS8 : simpl never.
#[global] Arguments getStr : simpl never.
#[global] Arguments getBytes : simpl never.
#[global] Arguments getVec : simpl never.
#[global] Arguments getVecU : simpl never.

(** *** The compressed container *)

(** [memcpy] of an [int] on a little-endian machine, and back. *)
Definition int_bytes (n : Z) : list Z :=
  [u8 n; u8 (Z.shiftr n 8); u8 (Z.shiftr n 16); u8 (Z.shiftr n 24)].

Definition int_of_bytes (bs : list Z) : option Z :=
  match bs with
  | [a; b; c; d] =>
      Some (i32 (Z.lor a (Z.lor (Z.shiftl b 8) (Z.lor (Z.shiftl c 16) (Z.shiftl d 24)))))
  | _ => None
  end.

Definition SIZE_BYTES : nat := 4.

Section LZ4.
(** The LZ4 library, which is third-party code: [compress src cap] is [LZ4_compress_fast], which
    returns no bytes when the destination of [cap] bytes is too small, and [decompress src cap] is
    [LZ4_decompress_safe]. *)
Context (compress : list Z -> Z -> list Z).
Context (decompress : list Z -> Z -> option (list Z)).
Context (compressBound : Z -> Z).

(** [Pickler::result]. [None] is the exception [incompressible pickler?]. *)
Definition result (p : Pickler) : option (list Z) :=
  let p := flushZeros p in
  let maxDstSize := compressBound (Z.of_nat (length (pdata p))) in
  let out := compress (pdata p) (2048 + maxDstSize - Z.of_nat SIZE_BYTES * 2) in
  let resultCode := Z.of_nat (length out) in
  if resultCode =? 0 then None
  else Some (int_bytes resultCode ++ int_bytes (Z.of_nat (length (pdata p))) ++ out).

(** [UnPickler::UnPickler]. [None] is the exception [incomplete decompression]. *)
Definition openUnPickler (compressed : list Z) : option UnPickler :=
  match int_of_bytes (take SIZE_BYTES compressed),
        int_of_bytes (take SIZE_BYTES (drop SIZE_BYTES compressed)) with
  | Some compressedSize, Some uncompressedSize =>
      match decompress (take (Z.to_nat compressedSize) (drop (SIZE_BYTES * 2) compressed))
                       uncompressedSize with
      | Some d =>
          if Z.of_nat (length d) =? uncompressedSize then Some (mkUnPickler 0 0 d) else None
      | None => None
      end
  | _, _ => None
  end.
End LZ4.

(** ** The reader follows the writer

    [future w D]: the buffer [D] can be what a pickler in state [w] ends up writing.
    [sync D w r]: a reader in state [r] over [D] has consumed exactly what led the writer to [w].
    While a run of zeros is open, the writer has not yet written the run's length, whereas the
    reader has already read it. *)

Definition pwf (w : Pickler) : Prop := 0 <= pzeroCounter w <= UCHAR_MAX.

Definition future (w : Pickler) (D : list Z) : Prop :=
  if pzeroCounter w =? 0 then pdata w `prefix_of` D
  else exists z, pzeroCounter w <= z <= UCHAR_MAX /\ (pdata w ++ [z]) `prefix_of` D.

Definition sync (D : list Z) (w : Pickler) (r : UnPickler) : Prop :=
  udata r = D /\
  if pzeroCounter w =? 0 then
    upos r = Z.of_nat (length (pdata w)) /\ uzeroCounter r = 0
  else
    upos r = Z.of_nat (length (pdata w)) + 1 /\
    exists z, D !! length (pdata w) = Some z /\ uzeroCounter r = z - pzeroCounter w.

(** [extends w w']: whatever can follow [w'] can follow [w]. *)
Definition extends (w w' : Pickler) : Prop :=
  (pwf w -> pwf w') /\ forall D, future w' D -> pwf w -> future w D.

(** [decodes get w w' x]: writing took the pickler from [w] to [w'], and [get], run on a reader that
    is in step with [w], returns [x] and is then in step with [w']. *)
Definition decodes {A} (get : unp A) (w w' : Pickler) (x : A) : Prop :=
  extends w w' /\
  forall D r, pwf w -> future w' D -> sync D w r ->
    exists r', get r = Some (x, r') /\ sync D w' r'.

(** What one component promises another: a writer, a reader and the values that survive. *)
Class RoundTrips {A B} (put : A -> Pickler -> Pickler) (get : unp B) (ok : A -> Prop)
  (image : A -> B) : Prop :=
  round_trip : forall a w, ok a -> decodes get w (put a w) (image a).

Create HintDb pickle.

Lemma extends_refl w : extends w w.
Proof. by split. Qed.

Lemma extends_trans w1 w2 w3 : extends w1 w2 -> extends w2 w3 -> extends w1 w3.
Proof. intros [H1 F1] [H2 F2]. split; [by auto |]. intros D HD Hw. auto. Qed.

Lemma decodes_ret {A} (x : A) w : decodes (mret x) w w x.
Proof. split; [apply extends_refl |]. intros D r _ _ Hs. by exists r. Qed.

Lemma decodes_bind {A B} (m : unp A) (k : A -> unp B) w1 w2 w3 x y :
  decodes m w1 w2 x -> decodes (k x) w2 w3 y -> decodes (m ≫= k) w1 w3 y.
Proof.
  intros [E1 M] [E2 K]. split; [by eapply extends_trans |].
  intros D r Hw HD Hs.
  destruct (M D r Hw) as (r1 & Hr1 & Hs1); [by apply E2, E1 | done |].
  destruct (K D r1) as (r2 & Hr2 & Hs2); [by apply E1 | done | done |].
  exists r2. split; [| done]. unfold mbind, unp_bind. by rewrite Hr1.
Qed.

Lemma extends_flush w : extends w (flushZeros w).
Proof.
  unfold extends, flushZeros, pwf, future. destruct (Z.eqb_spec (pzeroCounter w) 0) as [E | E].
  { rewrite E. auto. }
  simpl. split; [lia |]. intros D HD Hw. exists (pzeroCounter w). split; [lia |].
  by rewrite u8_id in HD by (unfold is_u8, UCHAR_MAX in *; lia).
Qed.

Lemma flush_zc w : pzeroCounter (flushZeros w) = 0.
Proof. unfold flushZeros. by destruct (Z.eqb_spec (pzeroCounter w) 0). Qed.

(** Once the run of zeros is closed, the reader has no zeros left to deliver. *)
Lemma sync_flush D w r :
  pwf w -> future (flushZeros w) D -> sync D w r -> sync D (flushZeros w) r.
Proof.
  unfold pwf, future, sync, flushZeros, UCHAR_MAX. intros Hw.
  destruct (Z.eqb_spec (pzeroCounter w) 0) as [E | E]; [by rewrite E |]. simpl.
  intros HD (? & Hpos & z & Hz & Hzc).
  rewrite u8_id in * by (unfold is_u8; lia).
  destruct HD as [k ->]. rewrite <- app_assoc, lookup_app_r, Nat.sub_diag in Hz by done.
  simplify_eq/=. rewrite length_app. simpl. split; [done | lia].
Qed.

(** Appending bytes to a pickler whose zero run is closed. *)
Lemma extends_append w bs z :
  pzeroCounter w = 0 -> 0 <= z <= UCHAR_MAX -> extends w (mkPickler (pdata w ++ bs) z).
Proof.
  intros E Hz. split; [intros _; exact Hz |]. unfold future. rewrite E. simpl.
  intros D HD _. destruct (Z.eqb_spec z 0).
  - etrans; [| exact HD]. by apply prefix_app_r.
  - destruct HD as (z' & _ & HD). etrans; [| exact HD].
    rewrite <- app_assoc. by apply prefix_app_r.
Qed.

Lemma fold_emplace bs w :
  Forall is_u8 bs -> pzeroCounter w = 0 ->
  fold_left (fun q b => emplace_back b q) bs w = mkPickler (pdata w ++ bs) 0.
Proof.
  intros Hbs. revert w. induction Hbs as [| b bs Hb _ IH]; intros w E; simpl.
  - rewrite app_nil_r. destruct w; simpl in *; by subst.
  - rewrite IH by done. simpl. by rewrite u8_id, <- app_assoc by done.
Qed.

Lemma fold_putU1 bs w :
  Forall is_u8 bs -> pzeroCounter w = 0 ->
  fold_left (fun q b => putU1 b q) bs w = mkPickler (pdata w ++ bs) 0.
Proof.
  intros Hbs. revert w. induction Hbs as [| b bs Hb _ IH]; intros w E; simpl.
  - rewrite app_nil_r. destruct w; simpl in *; by subst.
  - rewrite IH by (unfold putU1; simpl; apply flush_zc).
    unfold putU1, flushZeros. rewrite E. simpl. by rewrite u8_id, <- app_assoc by done.
Qed.

(** [nextByte] in a buffer that continues with [b]. *)
Lemma nextByte_app d b rest pos z :
  pos = Z.of_nat (length d) ->
  nextByte (mkUnPickler pos z (d ++ b :: rest)) =
    Some (b, mkUnPickler (pos + 1) z (d ++ b :: rest)).
Proof.
  intros ->. unfold nextByte. simpl. rewrite Nat2Z.id, lookup_app_r, Nat.sub_diag by done. done.
Qed.

(** A reader in step with a pickler whose zero run is closed. *)
Lemma sync_closed D w r :
  pzeroCounter w = 0 -> sync D w r -> r = mkUnPickler (Z.of_nat (length (pdata w))) 0 D.
Proof.
  unfold sync. intros -> (Hd & Hp & Hz). destruct r; simpl in *. by subst.
Qed.

Lemma sync_mk D w bs :
  sync D (mkPickler (pdata w ++ bs) 0)
    (mkUnPickler (Z.of_nat (length (pdata w)) + Z.of_nat (length bs)) 0 D).
Proof. unfold sync. simpl. rewrite length_app. split; [done | lia]. Qed.

(** A write that closes the zero run and appends [bs], and a read that consumes exactly [bs]. *)
Lemma decodes_bytes {A} (get : unp A) w bs x :
  (forall d rest, get (mkUnPickler (Z.of_nat (length d)) 0 (d ++ bs ++ rest)) =
     Some (x, mkUnPickler (Z.of_nat (length d) + Z.of_nat (length bs)) 0 (d ++ bs ++ rest))) ->
  decodes get w (mkPickler (pdata (flushZeros w) ++ bs) 0) x.
Proof.
  intros Hget.
  assert (E : extends (flushZeros w) (mkPickler (pdata (flushZeros w) ++ bs) 0)).
  { apply extends_append; [apply flush_zc | done]. }
  split; [eapply extends_trans; [apply extends_flush | exact E] |].
  intros D r Hw HD Hs.
  assert (HF : future (flushZeros w) D) by (apply E; [done | by apply extends_flush]).
  apply sync_flush, sync_closed in Hs as ->; [| apply flush_zc | done | done].
  unfold future in HD. simpl in HD. destruct HD as [rest ->].
  eexists. rewrite <- app_assoc, Hget. split; [done |]. rewrite app_assoc. apply sync_mk.
Qed.

Lemma decodes_putU1 u w : is_u8 u -> decodes getU1 w (putU1 u w) u.
Proof.
  intros Hu. unfold putU1, emplace_back. rewrite flush_zc, u8_id by done.
  apply decodes_bytes. intros d rest. unfold getU1. simpl. by rewrite nextByte_app.
Qed.

(** The bytes of [varint] are bytes, and the fuel bounds are enough: more fuel writes the same. *)
Lemma varint_bytes fuel u : 0 <= u -> Forall is_u8 (varint fuel u).
Proof.
  revert u. induction fuel as [| fuel IH]; intros u Hu; simpl; [done |].
  change 127 with (Z.ones 7). rewrite Z.land_ones by lia.
  pose proof (Z.mod_pos_bound u (2 ^ 7)).
  destruct (Z.ltb_spec (Z.ones 7) u); constructor; try done.
  - rewrite Z.lor_comm. change 128 with (Z.shiftl 1 7). rewrite lor_shift_add by lia.
    unfold is_u8. lia.
  - apply IH. by apply Z.shiftr_nonneg.
  - unfold is_u8. lia.
Qed.

Lemma varint_fuel fuel extra u :
  0 <= u < 2 ^ (7 * Z.of_nat fuel) -> (0 < fuel)%nat ->
  varint (fuel + extra) u = varint fuel u.
Proof.
  revert u. induction fuel as [| fuel IH]; intros u Hu Hf; [lia |]. simpl.
  destruct (Z.ltb_spec 127 u); [| done]. f_equal.
  destruct fuel as [| fuel]; [change (2 ^ (7 * Z.of_nat 1)) with 128 in Hu; lia |].
  apply IH; [| lia]. rewrite Z.shiftr_div_pow2 by lia. split; [apply Z.div_pos; lia |].
  apply Z.div_lt_upper_bound; [lia |]. rewrite <- Z.pow_add_r by lia.
  replace (7 + 7 * Z.of_nat (S fuel)) with (7 * Z.of_nat (S (S fuel))) by lia. apply Hu.
Qed.

(** One group of a varint: its continuation bit and its payload. *)
Lemma group_more u : Z.land (Z.lor 128 (Z.land u 127)) 128 = 128 /\
  Z.land (Z.lor 128 (Z.land u 127)) 127 = Z.land u 127.
Proof.
  rewrite !Z.land_lor_distr_l, <- !Z.land_assoc. change (Z.land 127 128) with 0.
  change (Z.land 127 127) with 127. rewrite Z.land_0_r, Z.lor_0_r. done.
Qed.

Lemma group_last u : 0 <= u -> u <= 127 -> Z.land u 127 = u /\ Z.land u 128 = 0.
Proof.
  intros H0 H1. change 127 with (Z.ones 7). rewrite Z.land_ones, Z.mod_small by lia.
  split; [done |]. change 128 with (Z.shiftl 1 7). apply Z.bits_inj'. intros i Hi.
  rewrite Z.land_spec, Z.bits_0. destruct (Z.lt_ge_cases i 7).
  - by rewrite Z.shiftl_spec_low, andb_false_r.
  - by rewrite (testbit_above u 7 i) by lia.
Qed.

(** *** Reading back a 32-bit integer *)

(** [getGroup] on the next group of a varint: with more groups to come, and on the last one. *)
Lemma getGroup_more d rest u shift res k :
  let b := Z.lor 128 (Z.land u 127) in
  getGroup shift res k (mkUnPickler (Z.of_nat (length d)) 0 (d ++ b :: rest)) =
  k (Z.lor res (u32 (Z.shiftl (Z.land u 127) shift)))
    (mkUnPickler (Z.of_nat (length d) + 1) 0 (d ++ b :: rest)).
Proof.
  simpl. unfold getGroup, mbind, unp_bind. rewrite nextByte_app by done.
  destruct (group_more u) as [-> ->]. done.
Qed.

Lemma getGroup_last d rest u shift res k :
  0 <= u <= 127 ->
  getGroup shift res k (mkUnPickler (Z.of_nat (length d)) 0 (d ++ u :: rest)) =
  Some (Z.lor res (u32 (Z.shiftl u shift)),
        mkUnPickler (Z.of_nat (length d) + 1) 0 (d ++ u :: rest)).
Proof.
  intros Hu. unfold getGroup, mbind, unp_bind. rewrite nextByte_app by done.
  destruct (group_last u) as [-> ->]; [lia | lia |]. done.
Qed.

(** The unrolled reads of [getU4] as a loop. *)
Fixpoint groups (n : nat) (shift res : Z) : unp Z :=
  match n with
  | O => mret res
  | S n => getGroup shift res (groups n (shift + 7))
  end.

Lemma low_group u : 0 <= u -> 0 <= Z.land u 127 <= 127 /\ u = Z.land u 127 + 128 * Z.shiftr u 7.
Proof.
  intros Hu. change 127 with (Z.ones 7) at 1 2 4. rewrite Z.land_ones, Z.shiftr_div_pow2 by lia.
  change (2 ^ 7) with 128. word_lia.
Qed.

Lemma groups_varint n shift res u d rest :
  0 <= shift -> 0 <= res < 2 ^ shift -> 0 <= u < 2 ^ (7 * Z.of_nat n) -> u * 2 ^ shift < 2 ^ 32 ->
  (0 < n)%nat ->
  groups n shift res (mkUnPickler (Z.of_nat (length d)) 0 (d ++ varint n u ++ rest)) =
  Some (res + u * 2 ^ shift,
        mkUnPickler (Z.of_nat (length d) + Z.of_nat (length (varint n u))) 0
          (d ++ varint n u ++ rest)).
Proof.
  revert shift res u d. induction n as [| n IH]; intros shift res u d Hs Hres Hu Hfit Hn; [lia |].
  assert (Hp : 0 < 2 ^ shift) by (apply Z.pow_pos_nonneg; lia).
  destruct (low_group u) as [Hlo Hsplit]; [lia |].
  cbn [groups varint]. destruct (Z.ltb_spec 127 u) as [Hbig | Hsmall].
  - destruct n as [| n]; [change (2 ^ (7 * Z.of_nat 1)) with 128 in Hu; lia |].
    cbn [app]. rewrite getGroup_more.
    assert (Hhi : 0 <= Z.shiftr u 7) by (apply Z.shiftr_nonneg; lia).
    assert (Hhi' : Z.shiftr u 7 < 2 ^ (7 * Z.of_nat (S n))).
    { apply Z.mul_lt_mono_pos_l with (2 ^ 7); [lia |].
      rewrite <- Z.pow_add_r by lia.
      replace (7 + 7 * Z.of_nat (S n)) with (7 * Z.of_nat (S (S n))) by lia. lia. }
    assert (Hpow : 2 ^ (shift + 7) = 128 * 2 ^ shift) by (rewrite Z.pow_add_r by lia; lia).
    rewrite u32_id by (rewrite Z.shiftl_mul_pow2 by lia; unfold is_u32; nia).
    rewrite lor_shift_add by lia.
    specialize (IH (shift + 7) (res + Z.land u 127 * 2 ^ shift) (Z.shiftr u 7)
                  (d ++ [Z.lor 128 (Z.land u 127)])).
    rewrite length_app, Nat2Z.inj_add, <- app_assoc in IH. cbn [length app] in IH.
    change (Z.of_nat 1) with 1 in IH. rewrite IH; [| lia | nia | lia | nia | lia].
    f_equal. f_equal; [rewrite Hpow; nia |].
    f_equal. cbn [length]. lia.
  - destruct (group_last u) as [E _]; [lia | lia |]. rewrite E. cbn [app length].
    rewrite getGroup_last by lia.
    rewrite u32_id by (rewrite Z.shiftl_mul_pow2 by lia; unfold is_u32; nia).
    by rewrite lor_shift_add by lia.
Qed.

Lemma varint_head_nonzero n u : 0 < u -> exists b bs, varint (S n) u = b :: bs /\ b <> 0.
Proof.
  intros Hu. simpl. destruct (Z.ltb_spec 127 u); do 2 eexists; split; [done | | done |].
  - destruct (group_more u) as [H1 _]. intros E. by rewrite E in H1.
  - by destruct (group_last u) as [-> _]; lia.
Qed.

Lemma land_127_range b : 0 <= Z.land b 127 <= 127.
Proof.
  change 127 with (Z.ones 7). rewrite Z.land_ones by lia.
  pose proof (Z.mod_pos_bound b (2 ^ 7)). change (Z.ones 7) with 127. lia.
Qed.

(** [getU4] on a number whose first byte is not zero is a loop over at most five groups. *)
Lemma getU4_groups b r :
  b <> 0 -> uzeroCounter r = 0 -> udata r !! Z.to_nat (upos r) = Some b ->
  getU4 r = groups U4_GROUPS 0 0 r.
Proof.
  intros Hb Hz Hl. unfold getU4, U4_GROUPS. rewrite Hz. cbn [groups negb Z.eqb].
  unfold getGroup at 5. unfold mbind, unp_bind, nextByte at 1 3. rewrite Hl.
  destruct (Z.eqb_spec b 0); [done |].
  rewrite Z.shiftl_0_r, Z.lor_0_l, u32_id; [done |].
  pose proof (land_127_range b). unfold is_u32. lia.
Qed.

Lemma putU4_nonzero u w :
  is_u32 u -> u <> 0 ->
  putU4 u w = mkPickler (pdata (flushZeros w) ++ varint U4_GROUPS u) 0.
Proof.
  intros Hu Hne. unfold putU4. destruct (Z.eqb_spec u 0); [done |].
  apply fold_emplace; [apply varint_bytes; unfold is_u32 in *; lia | apply flush_zc].
Qed.

Lemma decodes_putU4_nonzero u w : is_u32 u -> u <> 0 -> decodes getU4 w (putU4 u w) u.
Proof.
  intros Hu Hne. rewrite putU4_nonzero by done. apply decodes_bytes. intros d rest.
  destruct (varint_head_nonzero 4 u) as (b & bs & E & Hb); [unfold is_u32 in *; lia |].
  change (S 4) with U4_GROUPS in E.
  rewrite (getU4_groups b); cbn [upos udata uzeroCounter]; [| done | done |].
  - unfold is_u32 in Hu. rewrite groups_varint; [do 2 f_equal | ..]; unfold U4_GROUPS; lia.
  - by rewrite E, Nat2Z.id, lookup_app_r, Nat.sub_diag.
Qed.

(** *** Runs of zeros *)

(** Opening a run: the byte [0] is followed by the run's length. *)
Lemma getU4_open d z rest :
  1 <= z <= UCHAR_MAX ->
  getU4 (mkUnPickler (Z.of_nat (length d)) 0 (d ++ 0 :: z :: rest)) =
  Some (0, mkUnPickler (Z.of_nat (length d) + 2) (z - 1) (d ++ 0 :: z :: rest)).
Proof.
  intros Hz. unfold getU4. cbn [negb uzeroCounter Z.eqb]. unfold mbind, unp_bind.
  rewrite nextByte_app by done. cbn [Z.eqb].
  pose proof (nextByte_app (d ++ [0]) z rest (Z.of_nat (length d) + 1) 0) as Hn.
  rewrite <- app_assoc in Hn. cbn [app] in Hn. rewrite Hn by (rewrite length_app; simpl; lia).
  unfold setZeroCounter. cbn [upos udata].
  rewrite u8_id by (unfold is_u8, UCHAR_MAX in *; lia). unfold mret, unp_ret. do 3 f_equal. lia.
Qed.

(** A write that opens a zero run after the bytes [bs], from a state in which the reader has
    consumed [bs]. *)
Lemma decodes_open w d :
  (pwf w -> forall D z, (d ++ [0; z]) `prefix_of` D -> future w D) ->
  (forall D r, pwf w -> d `prefix_of` D -> sync D w r -> r = mkUnPickler (Z.of_nat (length d)) 0 D) ->
  decodes getU4 w (mkPickler (d ++ [0]) 1) 0.
Proof.
  intros Hf Hr. split.
  - split; [intros _; unfold pwf, UCHAR_MAX; simpl; lia |].
    intros D (z & Hz & HD) Hw. cbn [pdata] in HD. apply (Hf Hw D z).
    by rewrite <- app_assoc in HD.
  - intros D r Hw (z & Hz & HD) Hs. cbn [pdata pzeroCounter] in *.
    rewrite <- app_assoc in HD. cbn [app] in HD.
    apply Hr in Hs as ->; [| done | etrans; [| exact HD]; by apply prefix_app_r].
    destruct HD as [rest ->]. rewrite <- app_assoc. cbn [app]. rewrite getU4_open by done.
    eexists. split; [done |]. unfold sync. cbn [pdata pzeroCounter udata upos uzeroCounter Z.eqb].
    rewrite length_app. cbn [length]. split; [done |]. split; [lia |]. exists z.
    split; [| done]. by rewrite lookup_app_r, Nat.add_comm, Nat.add_sub by lia.
Qed.

(** Continuing a run: nothing is written, and the reader delivers one of its zeros. *)
Lemma decodes_run w :
  pzeroCounter w <> 0 -> pzeroCounter w <> UCHAR_MAX ->
  decodes getU4 w (mkPickler (pdata w) (pzeroCounter w + 1)) 0.
Proof.
  intros E E'. split.
  - split; [unfold pwf, UCHAR_MAX in *; simpl; lia |].
    unfold future, pwf. cbn [pdata pzeroCounter]. intros D HD Hw.
    rewrite (proj2 (Z.eqb_neq _ _)) in HD by lia. rewrite (proj2 (Z.eqb_neq _ _)) by lia.
    destruct HD as (z & Hz & HD). exists z. split; [lia | done].
  - intros D r Hw HD Hs. unfold future, sync, pwf in *. cbn [pdata pzeroCounter] in *.
    rewrite (proj2 (Z.eqb_neq _ _)) in HD by lia. rewrite (proj2 (Z.eqb_neq _ _)) in Hs by lia.
    rewrite (proj2 (Z.eqb_neq _ _)) by lia.
    destruct HD as (z' & Hz' & [rest ->]), Hs as (Hd & Hp & z & Hz & Hzc).
    rewrite <- app_assoc, lookup_app_r, Nat.sub_diag in Hz by done. simplify_eq/=.
    unfold getU4. rewrite (proj2 (Z.eqb_neq _ _)) by lia. eexists. split; [done |].
    cbn [udata upos uzeroCounter]. split; [done |]. split; [done |]. exists z.
    rewrite <- app_assoc, lookup_app_r, Nat.sub_diag by done. split; [done | lia].
Qed.

Lemma decodes_putU4_zero w : decodes getU4 w (putU4 0 w) 0.
Proof.
  unfold putU4. cbn [Z.eqb]. destruct (Z.eqb_spec (pzeroCounter w) 0) as [E | E];
    [| destruct (Z.eqb_spec (pzeroCounter w) UCHAR_MAX) as [E' | E']].
  - apply decodes_open.
    + unfold future. rewrite E. cbn [Z.eqb]. intros _ D z HD. etrans; [| exact HD].
      by apply prefix_app_r.
    + intros D r _ _ Hs. by apply sync_closed.
  - unfold emplace_back. cbn [pdata]. change (u8 UCHAR_MAX) with 255. change (u8 0) with 0.
    apply decodes_open.
    + unfold future. rewrite E'. cbn [Z.eqb UCHAR_MAX]. intros _ D z HD. exists 255.
      split; [unfold UCHAR_MAX; lia |]. etrans; [| exact HD]. by apply prefix_app_r.
    + intros D r _ HD Hs. unfold sync in Hs. rewrite E' in Hs. cbn [Z.eqb UCHAR_MAX] in Hs.
      destruct Hs as (Hd & Hp & z & Hz & Hzc). destruct HD as [rest ->].
      rewrite <- app_assoc, lookup_app_r, Nat.sub_diag in Hz by done. simplify_eq/=.
      destruct r; simpl in *. subst. rewrite length_app. simpl. f_equal. lia.
  - by apply decodes_run.
Qed.

Lemma decodes_putU4 u w : is_u32 u -> decodes getU4 w (putU4 u w) u.
Proof.
  intros Hu. destruct (Z.eq_dec u 0) as [-> | Hne];
    [apply decodes_putU4_zero | by apply decodes_putU4_nonzero].
Qed.

(** *** 64-bit integers, strings, spans and containers *)

Lemma getU8_varint n i res u d rest fuel :
  0 <= i -> 7 * i < 64 -> 0 <= res < 2 ^ (i * 7) -> 0 <= u < 2 ^ (7 * Z.of_nat n) ->
  u * 2 ^ (i * 7) < 2 ^ 64 -> (0 < n)%nat -> (length (varint n u) <= fuel)%nat ->
  getU8_loop fuel i res (mkUnPickler (Z.of_nat (length d)) 0 (d ++ varint n u ++ rest)) =
  Some (res + u * 2 ^ (i * 7),
        mkUnPickler (Z.of_nat (length d) + Z.of_nat (length (varint n u))) 0
          (d ++ varint n u ++ rest)).
Proof.
  revert i res u d fuel. induction n as [| n IH];
    intros i res u d fuel Hi Hi64 Hres Hu Hfit Hn Hfuel; [lia |].
  assert (Hp : 0 < 2 ^ (i * 7)) by (apply Z.pow_pos_nonneg; lia).
  destruct (low_group u) as [Hlo Hsplit]; [lia |].
  cbn [varint] in *. destruct (Z.ltb_spec 127 u) as [Hbig | Hsmall]; cbn [length] in Hfuel;
    (destruct fuel as [| fuel]; [lia |]); cbn [getU8_loop app];
    unfold mbind, unp_bind, getU1; cbn [uzeroCounter Z.eqb]; rewrite nextByte_app by done;
    rewrite (proj2 (Z.leb_gt _ _)) by lia.
  - destruct n as [| n]; [change (2 ^ (7 * Z.of_nat 1)) with 128 in Hu; lia |].
    destruct (group_more u) as [-> ->].
    assert (Hhi : 0 <= Z.shiftr u 7) by (apply Z.shiftr_nonneg; lia).
    assert (Hhi' : Z.shiftr u 7 < 2 ^ (7 * Z.of_nat (S n))).
    { apply Z.mul_lt_mono_pos_l with (2 ^ 7); [lia |]. rewrite <- Z.pow_add_r by lia.
      replace (7 + 7 * Z.of_nat (S n)) with (7 * Z.of_nat (S (S n))) by lia. lia. }
    assert (Hpow : 2 ^ ((i + 1) * 7) = 128 * 2 ^ (i * 7)).
    { replace ((i + 1) * 7) with (i * 7 + 7) by lia. rewrite Z.pow_add_r by lia. lia. }
    assert (Hi1 : 7 * (i + 1) < 64).
    { apply Z.lt_nge. intros Hge. assert (2 ^ 64 <= 2 ^ ((i + 1) * 7)).
      { apply Z.pow_le_mono_r; lia. } nia. }
    rewrite u64_id by (rewrite Z.shiftl_mul_pow2 by lia; unfold is_u64; nia).
    rewrite lor_shift_add by lia. cbn [Z.eqb].
    specialize (IH (i + 1) (res + Z.land u 127 * 2 ^ (i * 7)) (Z.shiftr u 7)
                  (d ++ [Z.lor 128 (Z.land u 127)]) fuel).
    rewrite length_app, Nat2Z.inj_add, <- app_assoc in IH. cbn [length app] in IH.
    change (Z.of_nat 1) with 1 in IH. rewrite IH; [| lia | lia | nia | lia | nia | lia | lia].
    do 2 f_equal; [rewrite Hpow; nia |]. f_equal. cbn [length]. lia.
  - destruct (group_last u) as [E E0]; [lia | lia |]. rewrite E. rewrite E, E0. cbn [Z.eqb length].
    rewrite u64_id by (rewrite Z.shiftl_mul_pow2 by lia; unfold is_u64; nia).
    by rewrite lor_shift_add by lia.
Qed.

Lemma fold_putU1_flush bs w :
  Forall is_u8 bs -> bs <> [] ->
  fold_left (fun q b => putU1 b q) bs w = mkPickler (pdata (flushZeros w) ++ bs) 0.
Proof.
  intros Hbs Hne. destruct Hbs as [| b bs Hb Hbs]; [done |]. cbn [fold_left].
  rewrite fold_putU1 by (done || apply flush_zc).
  unfold putU1, emplace_back. cbn [pdata]. by rewrite u8_id, <- app_assoc by done.
Qed.

Lemma decodes_putU8 u w : is_u64 u -> decodes getU8 w (putU8 u w) u.
Proof.
  intros Hu. unfold is_u64 in Hu. unfold putU8.
  rewrite fold_putU1_flush;
    [| apply varint_bytes; lia | unfold U8_GROUPS; cbn [varint]; by destruct (127 <? u)].
  apply decodes_bytes. intros d rest. unfold getU8. cbn [udata].
  rewrite (getU8_varint U8_GROUPS 0 0 u d rest);
    [do 2 f_equal; lia | lia | lia | lia | unfold U8_GROUPS; lia | lia | unfold U8_GROUPS; lia |].
  rewrite !length_app. lia.
Qed.

Lemma decodes_putS8 i w : is_i64 i -> decodes getS8 w (putS8 i w) i.
Proof.
  intros Hi. unfold getS8, putS8. eapply decodes_bind; [apply decodes_putU8, u64_range |].
  rewrite i64_u64 by done. apply decodes_ret.
Qed.

Lemma decodes_slice bs w :
  Forall is_u8 bs -> is_size (length bs) -> pzeroCounter w = 0 \/ bs = [] ->
  decodes (takeSlice (Z.of_nat (length bs))) w (fold_left (fun q b => putU1 b q) bs w) bs.
Proof.
  intros Hbs Hsz [Hz | ->].
  - rewrite fold_putU1 by done.
    replace (pdata w) with (pdata (flushZeros w)) by (unfold flushZeros; by rewrite Hz).
    apply decodes_bytes. intros d rest. unfold takeSlice. cbn [upos uzeroCounter udata].
    rewrite (proj2 (Z.leb_le 0 _)) by lia. rewrite (proj2 (Z.leb_le _ _)) by (rewrite !length_app; lia).
    cbn [andb]. by rewrite !Nat2Z.id, drop_app_length, take_app_length.
  - cbn [fold_left length]. split; [apply extends_refl |]. intros D r Hw HD Hs.
    exists r. split; [| done]. unfold takeSlice.
    assert (0 <= upos r <= Z.of_nat (length (udata r))).
    { unfold sync, future in *. destruct Hs as [-> Hs]. destruct (pzeroCounter w =? 0).
      - destruct Hs as [-> _]. apply prefix_length in HD. lia.
      - destruct Hs as [-> _], HD as (z & _ & HD). apply prefix_length in HD.
        rewrite length_app in HD. simpl in HD. lia. }
    rewrite !(proj2 (Z.leb_le _ _)) by lia. cbn. rewrite Z.add_0_r. by destruct r.
Qed.

Lemma putU4_size_zc bs w :
  is_size (length bs) -> pzeroCounter (putU4 (Z.of_nat (length bs)) w) = 0 \/ (bs : list Z) = [].
Proof.
  intros Hs. destruct bs as [| b bs]; [by right |]. left.
  rewrite putU4_nonzero; [done | by apply is_size_u32 | simpl; lia].
Qed.

Lemma decodes_putBytes bs w :
  Forall is_u8 bs -> is_size (length bs) -> decodes getBytes w (putBytes bs w) bs.
Proof.
  intros Hbs Hs. unfold getBytes, putBytes.
  eapply decodes_bind; [by apply decodes_putU4, is_size_u32 |].
  rewrite i32_size by done. apply decodes_slice; auto using putU4_size_zc.
Qed.

Lemma putStr_putBytes s w : putStr s w = putBytes (byte_of_char <$> s) w.
Proof.
  unfold putStr, putBytes. rewrite length_fmap. generalize (putU4 (Z.of_nat (length s)) w).
  induction s as [| c s IH]; intros w0; simpl; [done | apply IH].
Qed.

Lemma decodes_putStr s w : is_size (length s) -> decodes getStr w (putStr s w) s.
Proof.
  intros Hs. rewrite putStr_putBytes. unfold getStr.
  eapply (decodes_bind getBytes _ w _ _ (byte_of_char <$> s)).
  - apply decodes_putBytes; [| by rewrite length_fmap].
    apply Forall_fmap, Forall_true. intros; apply byte_of_char_range.
  - rewrite <- list_fmap_compose.
    replace ((char_of_byte ∘ byte_of_char) <$> s) with s; [apply decodes_ret |].
    induction s; simpl; [done |]. f_equal; [by rewrite char_of_byte_of_char |].
    apply IHs. unfold is_size in *. simpl in Hs. lia.
Qed.

(** A container written element by element is read back element by element. *)
Lemma decodes_putAll {A B} (put : A -> Pickler -> Pickler) (get : unp B) (f : A -> B) l w :
  Forall (fun a => forall w, decodes get w (put a w) (f a)) l ->
  decodes (getN get (length l)) w (putAll put l w) (f <$> l).
Proof.
  intros Hl. revert w. induction Hl as [| a l Ha _ IH]; intros w; cbn; [apply decodes_ret |].
  eapply decodes_bind; [apply Ha |]. eapply decodes_bind; [apply IH |]. apply decodes_ret.
Qed.

Lemma decodes_getVec {A B} (put : A -> Pickler -> Pickler) (get : unp B) (f : A -> B) l w :
  is_size (length l) -> Forall (fun a => forall w, decodes get w (put a w) (f a)) l ->
  decodes (getVec get) w (putVec put l w) (f <$> l).
Proof.
  intros Hs Hl. unfold getVec, putVec. eapply decodes_bind; [by apply decodes_putU4, is_size_u32 |].
  rewrite i32_size by done. rewrite (proj2 (Z.ltb_ge _ _)) by lia. rewrite Nat2Z.id.
  by apply decodes_putAll.
Qed.

Lemma decodes_getVecU {A B} (put : A -> Pickler -> Pickler) (get : unp B) (f : A -> B) l w :
  is_size (length l) -> Forall (fun a => forall w, decodes get w (put a w) (f a)) l ->
  decodes (getVecU get) w (putVec put l w) (f <$> l).
Proof.
  intros Hs Hl. unfold getVecU, putVec. eapply decodes_bind; [by apply decodes_putU4, is_size_u32 |].
  rewrite Nat2Z.id. by apply decodes_putAll.
Qed.

(** The same for elements that satisfy the interface. *)
Lemma decodes_vec {A B} (put : A -> Pickler -> Pickler) (get : unp B) ok f
    `{!RoundTrips put get ok f} l w :
  is_size (length l) -> Forall ok l -> decodes (getVec get) w (putVec put l w) (f <$> l).
Proof.
  intros Hs Hl. apply decodes_getVec; [done |]. eapply Forall_impl; [exact Hl |].
  intros a Ha w'. by apply round_trip.
Qed.

Lemma decodes_vec_id {A} (put : A -> Pickler -> Pickler) (get : unp A) ok
    `{!RoundTrips put get ok id} l w :
  is_size (length l) -> Forall ok l -> decodes (getVec get) w (putVec put l w) l.
Proof. intros Hs Hl. rewrite <- (list_fmap_id l) at 2. by eapply decodes_vec. Qed.

Lemma decodes_vecU {A B} (put : A -> Pickler -> Pickler) (get : unp B) ok f
    `{!RoundTrips put get ok f} l w :
  is_size (length l) -> Forall ok l -> decodes (getVecU get) w (putVec put l w) (f <$> l).
Proof.
  intros Hs Hl. apply decodes_getVecU; [done |]. eapply Forall_impl; [exact Hl |].
  intros a Ha w'. by apply round_trip.
Qed.

Lemma decodes_vecU_id {A} (put : A -> Pickler -> Pickler) (get : unp A) ok
    `{!RoundTrips put get ok id} l w :
  is_size (length l) -> Forall ok l -> decodes (getVecU get) w (putVec put l w) l.
Proof. intros Hs Hl. rewrite <- (list_fmap_id l) at 2. by eapply decodes_vecU. Qed.

(** From a fresh pickler to a reader at the start of what was written. *)
Lemma decodes_run_from_start {A} (get : unp A) w x :
  decodes get emptyPickler w x ->
  exists r, get (mkUnPickler 0 0 (pdata (flushZeros w))) = Some (x, r).
Proof.
  intros [E H].
  assert (Hw0 : pwf emptyPickler) by (unfold pwf, UCHAR_MAX; simpl; lia).
  assert (Hf : future w (pdata (flushZeros w))).
  { apply (proj2 (extends_flush w)); [| by apply (proj1 E)].
    unfold future. rewrite flush_zc. cbn [Z.eqb]. reflexivity. }
  destruct (H _ (mkUnPickler 0 0 (pdata (flushZeros w))) Hw0 Hf) as (r & Hr & _); [| by exists r].
  unfold sync. by cbn.
Qed.

#[export] Hint Resolve decodes_putU1 decodes_putU4 decodes_putU8 decodes_putS8 decodes_putStr
  decodes_putBytes decodes_ret : pickle.

#[export] Hint Extern 2 (decodes (getVec _) _ (putVec _ _ _) _) =>
  (eapply decodes_vec_id; [typeclasses eauto | |]) || (eapply decodes_vec; [typeclasses eauto | |])
  : pickle.

#[export] Hint Extern 2 (decodes (getVecU _) _ (putVec _ _ _) _) =>
  (eapply decodes_vecU_id; [typeclasses eauto | |]) || (eapply decodes_vecU; [typeclasses eauto | |])
  : pickle.

(** Steps through a reader and the writer it mirrors: the innermost write of the writer is matched
    with the first read of the reader. *)
Ltac pickle_step :=
  lazymatch goal with
  | |- decodes (mret _) ?w ?w _ => apply decodes_ret
  | |- decodes (mbind ?k ?m) ?w ?W _ =>
      match W with
      | context [?f w] =>
          eapply (decodes_bind m k w (f w)); [solve [eauto with pickle words] | cbv beta]
      end
  end.

Ltac pickle_simpl := cbn [negb bool_of_u1 u1_of_bool Z.eqb Pos.eqb].

Ltac pickle := cbv zeta; pickle_simpl; repeat (pickle_step; pickle_simpl).

(** ** Writers that can raise

    Pickling a type or a tree can throw ([Exception::notImplemented]): such a writer returns [None].
    [emits put get x]: [put] succeeds from every state of the pickler, and [get] reads [x] back from
    what it wrote. *)

Definition wput : Type := Pickler -> option Pickler.

Definition lift (f : Pickler -> Pickler) : wput := fun p => Some (f p).

Definition raise : wput := fun _ => None.

Definition skip : wput := fun p => Some p.

Definition andThen (f g : wput) : wput := fun p => p' ← f p; g p'.

Notation "f ;;> g" := (andThen f g) (at level 60, right associativity) : pickle_scope.

Fixpoint putEach {A} (put : A -> wput) (l : list A) : wput :=
  match l with
  | [] => skip
  | a :: l => andThen (put a) (putEach put l)
  end.

(** [p.putU4(l.size()); for (auto &a : l) pickle(p, a);] *)
Definition putVecW {A} (put : A -> wput) (l : list A) : wput :=
  andThen (lift (putU4 (Z.of_nat (length l)))) (putEach put l).

Definition emits {A} (put : wput) (get : unp A) (x : A) : Prop :=
  forall w, exists w', put w = Some w' /\ decodes get w w' x.

Lemma emits_lift {A} (f : Pickler -> Pickler) (get : unp A) x :
  (forall w, decodes get w (f w) x) -> emits (lift f) get x.
Proof. intros H w. by exists (f w). Qed.

Lemma emits_bind {A B} (f g : wput) (m : unp A) (k : A -> unp B) x y :
  emits f m x -> emits g (k x) y -> emits (andThen f g) (m ≫= k) y.
Proof.
  intros Hf Hg w. destruct (Hf w) as (w1 & E1 & D1), (Hg w1) as (w2 & E2 & D2).
  exists w2. unfold andThen. rewrite E1. cbn. split; [done |]. by eapply decodes_bind.
Qed.

Lemma emits_ret {A} (x : A) : emits skip (mret x) x.
Proof. intros w. exists w. split; [done | apply decodes_ret]. Qed.

Lemma emits_last {A B} (f : wput) (m : unp A) (k : A -> unp B) x y :
  emits f m x -> k x = mret y -> emits f (m ≫= k) y.
Proof.
  intros Hf Hk w. destruct (Hf w) as (w1 & E1 & D1). exists w1. split; [done |].
  eapply decodes_bind; [done |]. rewrite Hk. apply decodes_ret.
Qed.

(** A reader that only computes consumes nothing. *)
Lemma emits_pure {A B} (f : wput) (m : unp A) (k : A -> unp B) x y :
  m = mret x -> emits f (k x) y -> emits f (m ≫= k) y.
Proof.
  intros -> Hf w. destruct (Hf w) as (w1 & E1 & D1). exists w1. split; [done |].
  eapply decodes_bind; [apply decodes_ret | done].
Qed.

Lemma emits_each {A B} (put : A -> wput) (get : unp B) (f : A -> B) l :
  Forall (fun a => emits (put a) get (f a)) l -> emits (putEach put l) (getN get (length l)) (f <$> l).
Proof.
  induction 1 as [| a l Ha _ IH]; cbn; [apply emits_ret |].
  eapply emits_bind; [exact Ha |]. eapply emits_last; [exact IH | done].
Qed.

Lemma emits_vec {A B} (put : A -> wput) (get : unp B) (f : A -> B) l :
  is_size (length l) -> Forall (fun a => emits (put a) get (f a)) l ->
  emits (putVecW put l) (getVec get) (f <$> l).
Proof.
  intros Hs Hl. unfold putVecW, getVec.
  eapply emits_bind; [apply emits_lift; intros; by apply decodes_putU4, is_size_u32 |].
  rewrite i32_size by done. rewrite (proj2 (Z.ltb_ge _ _)) by lia. rewrite Nat2Z.id.
  by apply emits_each.
Qed.

Lemma emits_vecU {A B} (put : A -> wput) (get : unp B) (f : A -> B) l :
  is_size (length l) -> Forall (fun a => emits (put a) get (f a)) l ->
  emits (putVecW put l) (getVecU get) (f <$> l).
Proof.
  intros Hs Hl. unfold putVecW, getVecU.
  eapply emits_bind; [apply emits_lift; intros; by apply decodes_putU4, is_size_u32 |].
  rewrite Nat2Z.id. by apply emits_each.
Qed.

(** The same with no change to the elements. *)
Lemma emits_vec_id {A} (put : A -> wput) (get : unp A) l :
  is_size (length l) -> Forall (fun a => emits (put a) get a) l -> emits (putVecW put l) (getVec get) l.
Proof. intros Hs Hl. rewrite <- (list_fmap_id l) at 2. by apply (emits_vec put get id). Qed.

Lemma emits_vecU_id {A} (put : A -> wput) (get : unp A) l :
  is_size (length l) -> Forall (fun a => emits (put a) get a) l -> emits (putVecW put l) (getVecU get) l.
Proof. intros Hs Hl. rewrite <- (list_fmap_id l) at 2. by apply (emits_vecU put get id). Qed.

#[export] Hint Extern 1 (emits (lift _) _ _) => (apply emits_lift; intros) : pickle.
#[export] Hint Resolve emits_ret : pickle.

(** Matches the next write with the next read. *)
Ltac emit_step :=
  cbv zeta; cbv beta;
  lazymatch goal with
  | |- emits skip (mret _) _ => apply emits_ret
  | |- emits (andThen _ _) (mbind _ _) _ =>
      eapply emits_bind; [solve [eauto with pickle words] |]
  | |- emits _ (mbind _ _) _ =>
      eapply emits_last; [solve [eauto with pickle words] | cbv beta; try reflexivity]
  end.

Ltac emit := repeat (emit_step; pickle_simpl).

(** [scans put get x]: as [emits], for a reader that may stop before the end of what was written. *)
Definition scans {A} (put : wput) (get : unp A) (x : A) : Prop :=
  forall w, exists w', put w = Some w' /\ extends w w' /\
    forall D r, pwf w -> future w' D -> sync D w r -> exists r', get r = Some (x, r').

Lemma scans_emits {A} (put : wput) (get : unp A) x : emits put get x -> scans put get x.
Proof.
  intros H w. destruct (H w) as (w' & E & Hext & Hd). exists w'. split; [done |]. split; [done |].
  intros D r Hw HD Hs. destruct (Hd D r Hw HD Hs) as (r' & Hr & _). by exists r'.
Qed.

Lemma scans_bind {A B} (f g : wput) (m : unp A) (k : A -> unp B) x y :
  emits f m x -> scans g (k x) y -> scans (andThen f g) (m ≫= k) y.
Proof.
  intros Hf Hg w. destruct (Hf w) as (w1 & E1 & X1 & D1), (Hg w1) as (w2 & E2 & X2 & D2).
  exists w2. unfold andThen. rewrite E1. split; [done |]. split; [by eapply extends_trans |].
  intros D r Hw HD Hs. destruct (D1 D r Hw) as (r1 & Hr1 & Hs1); [by apply X2, X1 | done |].
  destruct (D2 D r1) as (r2 & Hr2); [by apply X1 | done | done |].
  exists r2. unfold mbind, unp_bind. by rewrite Hr1.
Qed.

(** The rest of what was written is not read. *)
Lemma scans_stop {A B} (put : wput) (get : unp A) x (y : B) : emits put get x -> scans put (mret y) y.
Proof.
  intros H w. destruct (H w) as (w' & E & Hext & _). exists w'. split; [done |]. split; [done |].
  intros D r _ _ _. by exists r.
Qed.

(** *** Fuel for recursive readers

    A recursive reader is called with as much fuel as the buffer has bytes. *)
Definition fuelled {A} (get : nat -> unp A) : unp A := fun r => get (S (length (udata r))) r.

Lemma future_length w D : future w D -> (length (pdata w) <= length D)%nat.
Proof.
  unfold future. destruct (pzeroCounter w =? 0).
  - apply prefix_length.
  - intros (z & _ & H). apply prefix_length in H. rewrite length_app in H. lia.
Qed.

Lemma decodes_fuelled {A} (get : nat -> unp A) d w w' x :
  (forall n, (d <= n)%nat -> decodes (get n) w w' x) -> (d <= S (length (pdata w')))%nat ->
  decodes (fuelled get) w w' x.
Proof.
  intros Hget Hd. split; [exact (proj1 (Hget d (le_n d))) |].
  intros D r Hw HD Hs. unfold fuelled.
  pose proof (future_length _ _ HD) as Hlen. assert (udata r = D) as Hr by apply Hs.
  apply (Hget (S (length (udata r)))); [rewrite Hr; lia | done | done | done].
Qed.

(** Nothing a pickler does removes bytes. *)
Definition grows (put : wput) : Prop :=
  forall w w', put w = Some w' -> (length (pdata w) <= length (pdata w'))%nat.

Lemma flushZeros_grows w : (length (pdata w) <= length (pdata (flushZeros w)))%nat.
Proof.
  unfold flushZeros. destruct (_ =? _); [done |]. cbn. rewrite length_app. lia.
Qed.

Lemma fold_emplace_grows bs w :
  length (pdata (fold_left (fun q b => emplace_back b q) bs w)) = (length (pdata w) + length bs)%nat.
Proof.
  revert w. induction bs as [| b bs IH]; intros w; cbn [fold_left length]; [lia |].
  rewrite IH. cbn. rewrite length_app. cbn. lia.
Qed.

Lemma putU1_grows u w : (length (pdata w) < length (pdata (putU1 u w)))%nat.
Proof.
  unfold putU1. cbn. rewrite length_app. cbn. pose proof (flushZeros_grows w). lia.
Qed.

Lemma putU1_fold_grows {A} (f : A -> Z) bs w :
  (length (pdata w) <= length (pdata (fold_left (fun q b => putU1 (f b) q) bs w)))%nat.
Proof.
  revert w. induction bs as [| b bs IH]; intros w; cbn [fold_left]; [lia |].
  specialize (IH (putU1 (f b) w)). pose proof (putU1_grows (f b) w). lia.
Qed.

Lemma putU4_grows u w : (length (pdata w) <= length (pdata (putU4 u w)))%nat.
Proof.
  unfold putU4. destruct (u =? 0).
  - destruct (_ =? 0); [cbn; rewrite length_app; lia |].
    destruct (_ =? UCHAR_MAX); cbn; [rewrite !length_app; lia | lia].
  - rewrite fold_emplace_grows. pose proof (flushZeros_grows w). lia.
Qed.

(** A non-zero number takes at least one byte. *)
Lemma putU4_nonzero_grows u w :
  is_u32 u -> u <> 0 -> (length (pdata w) < length (pdata (putU4 u w)))%nat.
Proof.
  intros Hu Hne. rewrite putU4_nonzero by done. cbn [pdata]. rewrite length_app.
  destruct (varint_head_nonzero 4 u) as (b & bs & E & _); [unfold is_u32 in *; lia |].
  change (S 4) with U4_GROUPS in E. rewrite E. cbn [length]. pose proof (flushZeros_grows w). lia.
Qed.

Lemma grows_putU4 u : grows (lift (putU4 u)).
Proof. intros w w' [= <-]. apply putU4_grows. Qed.

Lemma grows_putU1 u : grows (lift (putU1 u)).
Proof. intros w w' [= <-]. pose proof (putU1_grows u w). lia. Qed.

Lemma grows_putU8 u : grows (lift (putU8 u)).
Proof. intros w w' [= <-]. apply (putU1_fold_grows id). Qed.

Lemma grows_putS8 u : grows (lift (putS8 u)).
Proof. apply grows_putU8. Qed.

Lemma grows_skip : grows skip.
Proof. intros w w' [= <-]. done. Qed.

Lemma grows_raise : grows raise.
Proof. by intros w w'. Qed.

Lemma grows_andThen f g : grows f -> grows g -> grows (andThen f g).
Proof.
  intros Hf Hg w w'. unfold andThen. destruct (f w) as [w1 |] eqn:E; cbn; [| done].
  intros H. apply Hf in E. apply Hg in H. lia.
Qed.

Lemma grows_each {A} (put : A -> wput) l : Forall (fun a => grows (put a)) l -> grows (putEach put l).
Proof. induction 1; cbn; [apply grows_skip | by apply grows_andThen]. Qed.

Lemma grows_vec {A} (put : A -> wput) l : Forall (fun a => grows (put a)) l -> grows (putVecW put l).
Proof. intros. apply grows_andThen; [apply grows_putU4 | by apply grows_each]. Qed.

#[export] Hint Resolve grows_putU4 grows_putU1 grows_putU8 grows_putS8 grows_skip grows_raise
  grows_andThen grows_each grows_vec : pickle.

#[global] Arguments putVecW : simpl never.

(** ** The container *)

Lemma int_bytes_range n : Forall is_u8 (int_bytes n).
Proof. unfold int_bytes. repeat constructor; apply u8_range. Qed.

(** The four bytes of an [int] put back together. *)
Lemma int_of_int_bytes n : 0 <= n < 2 ^ 31 -> int_of_bytes (int_bytes n) = Some n.
Proof.
  intros Hn. unfold int_of_bytes, int_bytes. f_equal.
  assert (Hor : Z.lor (u8 n) (Z.lor (Z.shiftl (u8 (Z.shiftr n 8)) 8)
            (Z.lor (Z.shiftl (u8 (Z.shiftr n 16)) 16) (Z.shiftl (u8 (Z.shiftr n 24)) 24))) = n).
  { apply Z.bits_inj'. intros i Hi. rewrite !Z.lor_spec, !Z.shiftl_spec by lia. unfold u8.
    assert (Hb : forall m k, 0 <= k -> Z.testbit (m mod 2 ^ 8) k = (k <? 8) && Z.testbit m k).
    { intros m k Hk. destruct (Z.ltb_spec k 8);
        [by rewrite Z.mod_pow2_bits_low | by rewrite Z.mod_pow2_bits_high by lia]. }
    assert (Hs : forall m j k, Z.testbit (m mod 2 ^ 8) (k - j) =
                   (j <=? k) && (k <? j + 8) && Z.testbit m (k - j)).
    { intros m j k. destruct (Z.leb_spec j k); [| by rewrite Z.testbit_neg_r by lia].
      rewrite Hb by lia. f_equal. destruct (Z.ltb_spec k (j + 8)), (Z.ltb_spec (k - j) 8); lia. }
    rewrite Hb, !Hs by lia.
    destruct (Z.ltb_spec i 32) as [H32 | H32].
    - assert (i < 8 \/ 8 <= i < 16 \/ 16 <= i < 24 \/ 24 <= i) as Hcase by lia.
      destruct Hcase as [? | [? | [? | ?]]];
        repeat match goal with
               | |- context [?a <? ?b] => destruct (Z.ltb_spec a b); try lia
               | |- context [?a <=? ?b] => destruct (Z.leb_spec a b); try lia
               end; cbn [andb orb]; rewrite ?orb_false_r, ?Z.shiftr_spec by lia;
        f_equal; try done; lia.
    - rewrite (testbit_above n 31) by lia.
      repeat match goal with
             | |- context [?a <? ?b] => destruct (Z.ltb_spec a b); try lia
             end. }
  rewrite Hor. unfold i32. rewrite u32_id by (unfold is_u32; lia).
  by rewrite bool_decide_eq_true_2 by lia.
Qed.

(** *** Sequences of writes

    What a client of the pickler does: a sequence of writes. Its mirror reads the same kinds of
    values in the same order. *)
Inductive op :=
| OpU1 (u : Z) | OpU4 (u : Z) | OpU8 (u : Z) | OpS8 (i : Z) | OpStr (s : str) | OpBytes (bs : list Z).

Definition op_ok (o : op) : Prop :=
  match o with
  | OpU1 u => is_u8 u
  | OpU4 u => is_u32 u
  | OpU8 u => is_u64 u
  | OpS8 i => is_i64 i
  | OpStr s => is_size (length s)
  | OpBytes bs => Forall is_u8 bs /\ is_size (length bs)
  end.

Definition write (o : op) (p : Pickler) : Pickler :=
  match o with
  | OpU1 u => putU1 u p
  | OpU4 u => putU4 u p
  | OpU8 u => putU8 u p
  | OpS8 i => putS8 i p
  | OpStr s => putStr s p
  | OpBytes bs => putBytes bs p
  end.

(** The read that mirrors a write; it looks at the kind of the write only. *)
Definition read (o : op) : unp op :=
  match o with
  | OpU1 _ => u ← getU1; mret (OpU1 u)
  | OpU4 _ => u ← getU4; mret (OpU4 u)
  | OpU8 _ => u ← getU8; mret (OpU8 u)
  | OpS8 _ => i ← getS8; mret (OpS8 i)
  | OpStr _ => s ← getStr; mret (OpStr s)
  | OpBytes _ => bs ← getBytes; mret (OpBytes bs)
  end.

Definition writeAll (os : list op) (p : Pickler) : Pickler := putAll write os p.

Fixpoint readAll (os : list op) : unp (list op) :=
  match os with
  | [] => mret []
  | o :: os => x ← read o; xs ← readAll os; mret (x :: xs)
  end.

Lemma decodes_write o w : op_ok o -> decodes (read o) w (write o w) o.
Proof.
  destruct o; cbn [op_ok read write]; intros Ho; try by pickle. destruct Ho. by pickle.
Qed.

Lemma decodes_writeAll os w : Forall op_ok os -> decodes (readAll os) w (writeAll os w) os.
Proof.
  intros Hos. revert w. induction Hos as [| o os Ho _ IH]; intros w; cbn; [apply decodes_ret |].
  eapply decodes_bind; [by apply decodes_write |]. eapply decodes_bind; [apply IH |].
  apply decodes_ret.
Qed.

(** What LZ4 documents: compression of an input of at most [LZ4_MAX_INPUT_SIZE] bytes into a
    destination of at least [LZ4_compressBound] bytes succeeds, writes at most that many bytes, and
    decompression restores the input. *)
Definition LZ4_MAX_INPUT_SIZE : Z := 2113929216.

Definition lz4_compresses (compress : list Z -> Z -> list Z) (compressBound : Z -> Z) : Prop :=
  forall src cap, Z.of_nat (length src) <= LZ4_MAX_INPUT_SIZE ->
    compressBound (Z.of_nat (length src)) <= cap ->
    0 < Z.of_nat (length (compress src cap)) <= compressBound (Z.of_nat (length src)).

Definition lz4_restores (compress : list Z -> Z -> list Z)
    (decompress : list Z -> Z -> option (list Z)) : Prop :=
  forall src cap, compress src cap <> [] ->
    decompress (compress src cap) (Z.of_nat (length src)) = Some src.

(** A larger input is refused, and the bound of an admissible size is an [int]. *)
Definition lz4_limits (compress : list Z -> Z -> list Z) (compressBound : Z -> Z) : Prop :=
  (forall src cap, LZ4_MAX_INPUT_SIZE < Z.of_nat (length src) -> compress src cap = []) /\
  (forall n, 0 <= n <= LZ4_MAX_INPUT_SIZE -> compressBound n < 2 ^ 31).

Section Container.
Context (compress : list Z -> Z -> list Z) (decompress : list Z -> Z -> option (list Z)).
Context (compressBound : Z -> Z).
Context (Hcompress : lz4_compresses compress compressBound).
Context (Hrestore : lz4_restores compress decompress).

(** Opening the container gives a reader at the start of what was written. *)
Lemma open_stored p cap :
  let d := pdata (flushZeros p) in
  Z.of_nat (length d) < 2 ^ 31 -> 0 < Z.of_nat (length (compress d cap)) < 2 ^ 31 ->
  openUnPickler decompress
    (int_bytes (Z.of_nat (length (compress d cap))) ++ int_bytes (Z.of_nat (length d)) ++ compress d cap)
  = Some (mkUnPickler 0 0 d).
Proof.
  intros d Hlen Hc. unfold openUnPickler, SIZE_BYTES. set (out := compress d cap) in *.
  change (take 4 (int_bytes (Z.of_nat (length out)) ++ int_bytes (Z.of_nat (length d)) ++ out))
    with (int_bytes (Z.of_nat (length out))).
  change (take 4 (drop 4 (int_bytes (Z.of_nat (length out)) ++ int_bytes (Z.of_nat (length d)) ++ out)))
    with (int_bytes (Z.of_nat (length d))).
  change (drop (4 * 2) (int_bytes (Z.of_nat (length out)) ++ int_bytes (Z.of_nat (length d)) ++ out))
    with out.
  rewrite !int_of_int_bytes by lia. rewrite Nat2Z.id, firstn_all.
  assert (Hne : out <> []) by (intros E; rewrite E in Hc; simpl in Hc; lia).
  unfold out in *. rewrite (Hrestore d cap Hne). by rewrite Z.eqb_refl.
Qed.

Lemma open_result p :
  Z.of_nat (length (pdata (flushZeros p))) <= LZ4_MAX_INPUT_SIZE ->
  compressBound (Z.of_nat (length (pdata (flushZeros p)))) < 2 ^ 31 ->
  exists bytes, result compress compressBound p = Some bytes /\
    openUnPickler decompress bytes = Some (mkUnPickler 0 0 (pdata (flushZeros p))).
Proof.
  intros Hlen Hbound. unfold result. set (d := pdata (flushZeros p)) in *.
  set (cap := 2048 + compressBound (Z.of_nat (length d)) - Z.of_nat SIZE_BYTES * 2).
  assert (Hcap : compressBound (Z.of_nat (length d)) <= cap) by (unfold cap, SIZE_BYTES; lia).
  pose proof (Hcompress d cap Hlen Hcap) as Hc. rewrite (proj2 (Z.eqb_neq _ _)) by lia.
  eexists. split; [done |]. unfold LZ4_MAX_INPUT_SIZE in Hlen. apply open_stored; fold d; lia.
Qed.

(** A container that was written opens. *)
Lemma open_written p bytes :
  lz4_limits compress compressBound -> result compress compressBound p = Some bytes ->
  openUnPickler decompress bytes = Some (mkUnPickler 0 0 (pdata (flushZeros p))).
Proof.
  intros [Hbig Hlim]. unfold result. set (d := pdata (flushZeros p)).
  set (cap := 2048 + compressBound (Z.of_nat (length d)) - Z.of_nat SIZE_BYTES * 2).
  destruct (Z.eqb_spec (Z.of_nat (length (compress d cap))) 0) as [| Hne]; [done |]. intros [= <-].
  assert (Hlen : Z.of_nat (length d) <= LZ4_MAX_INPUT_SIZE).
  { destruct (Z.le_gt_cases (Z.of_nat (length d)) LZ4_MAX_INPUT_SIZE); [done |].
    rewrite Hbig in Hne by done. done. }
  assert (Hcap : compressBound (Z.of_nat (length d)) <= cap) by (unfold cap, SIZE_BYTES; lia).
  pose proof (Hcompress d cap Hlen Hcap). specialize (Hlim _ (conj (Zle_0_nat _) Hlen)).
  unfold LZ4_MAX_INPUT_SIZE in Hlen. apply open_stored; fold d; lia.
Qed.

(** A whole serialized value: written to a fresh pickler, and read from the container. *)
Definition serialize (put : wput) : option (list Z) :=
  p ← put emptyPickler; result compress compressBound p.

Definition deserialize {A} (get : unp A) (data : list Z) : option A :=
  r ← openUnPickler decompress data; '(x, _) ← get r; Some x.

(** The value is small enough for LZ4. *)
Definition small (put : wput) : Prop :=
  forall p, put emptyPickler = Some p ->
    Z.of_nat (length (pdata (flushZeros p))) <= LZ4_MAX_INPUT_SIZE /\
    compressBound (Z.of_nat (length (pdata (flushZeros p)))) < 2 ^ 31.

Lemma container_scans {A} (put : wput) (get : unp A) x :
  scans put get x -> small put ->
  exists data, serialize put = Some data /\ deserialize get data = Some x.
Proof.
  intros Hs Hsmall. destruct (Hs emptyPickler) as (w & E & Hext & Hd).
  destruct (Hsmall w E) as [Hlen Hbound]. destruct (open_result w Hlen Hbound) as (data & Hdata & Ho).
  exists data. unfold serialize, deserialize. rewrite E. split; [done |]. rewrite Ho. cbn.
  destruct (Hd (pdata (flushZeros w)) (mkUnPickler 0 0 (pdata (flushZeros w)))) as (r & ->); [| | | done].
  - unfold pwf, UCHAR_MAX. simpl. lia.
  - apply (proj2 (extends_flush w)); [| apply (proj1 Hext); unfold pwf, UCHAR_MAX; simpl; lia].
    unfold future. rewrite flush_zc. cbn [Z.eqb]. reflexivity.
  - unfold sync. by cbn.
Qed.

(** What was written is what is read, whenever writing succeeded. *)
Lemma container_decodes {A} (put : wput) (get : unp A) w data x :
  lz4_limits compress compressBound -> put emptyPickler = Some w -> decodes get emptyPickler w x ->
  serialize put = Some data -> deserialize get data = Some x.
Proof.
  intros Hlim E Hd. unfold serialize, deserialize. rewrite E. cbn. intros Hdata.
  rewrite (open_written w data Hlim Hdata). cbn.
  destruct (decodes_run_from_start _ _ _ Hd) as (r & Hr). by rewrite Hr.
Qed.
End Container.

(** C33: whatever sequence of values a client writes to a fresh pickler, within the ranges of their
    types, the container [Pickler::result] returns opens without an exception, and the mirrored
    sequence of reads returns exactly the values written: run-length encoded zeros, the closing of a
    run by another write, variable-length integers and strings all included. LZ4 is a parameter with
    its documented contract. *)
Theorem pickler_roundtrip (compress : list Z -> Z -> list Z)
    (decompress : list Z -> Z -> option (list Z)) (compressBound : Z -> Z) (os : list op) :
  lz4_compresses compress compressBound ->
  lz4_restores compress decompress ->
  Forall op_ok os ->
  Z.of_nat (length (pdata (flushZeros (writeAll os emptyPickler)))) <= LZ4_MAX_INPUT_SIZE ->
  compressBound (Z.of_nat (length (pdata (flushZeros (writeAll os emptyPickler))))) < 2 ^ 31 ->
  exists bytes r r',
    result compress compressBound (writeAll os emptyPickler) = Some bytes /\
    openUnPickler decompress bytes = Some r /\ readAll os r = Some (os, r').
Proof.
  intros Hc Hr Hos Hlen Hbound.
  destruct (open_result _ _ _ Hc Hr (writeAll os emptyPickler) Hlen Hbound) as (bytes & Hb & Ho).
  destruct (decodes_run_from_start _ _ _ (decodes_writeAll os emptyPickler Hos)) as (r' & Hr').
  eauto 6.
Qed.

(** A stand-in for LZ4 that stores its input behind a marker byte. *)
Definition storeCompress (src : list Z) (cap : Z) : list Z :=
  if (Z.of_nat (length src) <=? LZ4_MAX_INPUT_SIZE) && (Z.of_nat (length src) + 1 <=? cap)
  then 0 :: src else [].

Definition storeDecompress (src : list Z) (cap : Z) : option (list Z) :=
  match src with _ :: d => Some d | [] => None end.

Lemma storeCompress_compresses : lz4_compresses storeCompress Z.succ.
Proof.
  intros src cap Hlen Hcap. unfold storeCompress. rewrite !(proj2 (Z.leb_le _ _)) by lia.
  cbn [length andb]. lia.
Qed.

Lemma storeCompress_restores : lz4_restores storeCompress storeDecompress.
Proof. intros src cap. unfold storeCompress. by destruct (_ && _). Qed.

Lemma storeCompress_limits : lz4_limits storeCompress Z.succ.
Proof.
  split; [| unfold LZ4_MAX_INPUT_SIZE; lia].
  intros src cap H. unfold storeCompress. by rewrite (proj2 (Z.leb_gt _ _)).
Qed.

Lemma pickler_roundtrip_witness :
  exists bytes r r',
    result storeCompress Z.succ
      (writeAll [OpU4 0; OpU4 0; OpU4 300; OpStr s! "ab"; OpU4 0; OpS8 (-1); OpU4 0] emptyPickler)
      = Some bytes /\
    openUnPickler storeDecompress bytes = Some r /\
    readAll [OpU4 0; OpU4 0; OpU4 300; OpStr s! "ab"; OpU4 0; OpS8 (-1); OpU4 0] r =
      Some ([OpU4 0; OpU4 0; OpU4 300; OpStr s! "ab"; OpU4 0; OpS8 (-1); OpU4 0], r').
Proof.
  apply pickler_roundtrip.
  - apply storeCompress_compresses.
  - apply storeCompress_restores.
  - repeat constructor; cbn; unfold_words; simpl; lia.
  - vm_compute. discriminate.
  - reflexivity.
Defined.
