(* ===== verification/FileHash.v ===== *)
(** * File hashes

    Models src/core/FileHash.h and src/core/FileHash.cc (the fingerprints stored with each file and
    the intersection test that decides which files to retypecheck), and their serialization in
    src/core/serialize/serialize.cc. The hash wrappers [WithoutUniqueNameHash], [FullNameHash] and
    [ArityHash] hold one [uint32_t] and are represented by it. *)

From S2P Require Import Prelude Pickler.

#[local] Open Scope Z_scope.
#[local] Open Scope pickle_scope.

(** ** Data *)

Record SymbolHash := mkSymbolHash { sh_nameHash : Z; sh_symbolHash : Z }.

(** [uint32_t ownerIdx : 28] *)
Definition bits28 (z : Z) : Z := z mod 2 ^ 28.

Record FoundStaticFieldHash := mkFoundStaticFieldHash {
  fsf_ownerIdx : Z; fsf_ownerIsSymbol : bool; fsf_nameHash : Z }.

Record FoundTypeMemberHash := mkFoundTypeMemberHash {
  ftm_ownerIdx : Z; ftm_ownerIsSymbol : bool; ftm_isTypeTemplate : bool; ftm_nameHash : Z }.

Record FoundMethodHash := mkFoundMethodHash {
  fm_ownerIdx : Z; fm_ownerIsSymbol : bool; fm_useSingletonClass : bool;
  fm_nameHash : Z; fm_arityHash : Z }.

Record FoundFieldHash := mkFoundFieldHash {
  ff_ownerIdx : Z; ff_ownerIsSymbol : bool; ff_onSingletonClass : bool;
  ff_isInstanceVariable : bool; ff_fromWithinMethod : bool; ff_nameHash : Z }.

Record FoundDefHashes := mkFoundDefHashes {
  staticFieldHashes : list FoundStaticFieldHash;
  typeMemberHashes : list FoundTypeMemberHash;
  methodHashes : list FoundMethodHash;
  fieldHashes : list FoundFieldHash }.

Record LocalSymbolTableHashes := mkLocalSymbolTableHashes {
  hierarchyHash : Z; classModuleHash : Z; typeMemberHash : Z; fieldHash : Z;
  staticFieldHash : Z; classAliasHash : Z; methodHash : Z;
  retypecheckableSymbolHashes : list SymbolHash }.

Record UsageHash := mkUsageHash { nameHashes : list Z }.

Record FileHash := mkFileHash {
  localSymbolTableHashes : LocalSymbolTableHashes;
  usages : UsageHash;
  foundHashes : FoundDefHashes }.

(** ** States of a hash *)

Definition HASH_STATE_NOT_COMPUTED : Z := 0.

Definition HASH_STATE_NOT_COMPUTED_COLLISION_AVOID : Z := 1.

Definition HASH_STATE_INVALID_PARSE : Z := 2.

Definition HASH_STATE_INVALID_PARSE_COLLISION_AVOID : Z := 3.

Definition patchHash (hash : Z) : Z :=
  if hash =? HASH_STATE_NOT_COMPUTED then HASH_STATE_NOT_COMPUTED_COLLISION_AVOID
  else if hash =? HASH_STATE_INVALID_PARSE then HASH_STATE_INVALID_PARSE_COLLISION_AVOID
  else hash.

Definition invalidParse : LocalSymbolTableHashes :=
  mkLocalSymbolTableHashes HASH_STATE_INVALID_PARSE HASH_STATE_INVALID_PARSE
    HASH_STATE_INVALID_PARSE HASH_STATE_INVALID_PARSE HASH_STATE_INVALID_PARSE
    HASH_STATE_INVALID_PARSE HASH_STATE_INVALID_PARSE [].

Definition isInvalidParse (h : LocalSymbolTableHashes) : bool :=
  hierarchyHash h =? HASH_STATE_INVALID_PARSE.

(** ** Intersection of two sorted vectors

    The iterators [aIt] and [bIt] are the suffixes they point at; [lower_bound] from an iterator
    returns that very iterator exactly when it advances by zero. [None] is a loop that has not
    finished within the fuel. *)
Fixpoint sortedIntersects_loop (fuel : nat) (a b : list Z) (prevEqual : bool) : option bool :=
  match fuel with
  | O => None
  | S fuel =>
      match b with
      | [] => Some false
      | y :: _ =>
          let aAdvance := lower_bound a y in
          let a' := drop aAdvance a in
          let aEqual := (aAdvance =? 0)%nat in
          if aEqual && prevEqual then Some true
          else
            match a' with
            | [] => Some false
            | x :: _ =>
                let bAdvance := lower_bound b x in
                let b' := drop bAdvance b in
                let bEqual := (bAdvance =? 0)%nat in
                if bEqual && aEqual then Some true
                else sortedIntersects_loop fuel a' b' bEqual
            end
      end
  end.

Definition sortedIntersects (a b : list Z) : option bool :=
  sortedIntersects_loop (length a + length b + 1) a b false.

(** ** Serialization *)

Definition pickleSymbolHash (h : SymbolHash) (p : Pickler) : Pickler :=
  p |> putU4 (sh_nameHash h) |> putU4 (sh_symbolHash h).

Definition pickleStaticFieldHash (h : FoundStaticFieldHash) (p : Pickler) : Pickler :=
  p |> putU4 (fsf_ownerIdx h) |> putU1 (u1_of_bool (fsf_ownerIsSymbol h))
    |> putU4 (fsf_nameHash h).

Definition pickleTypeMemberHash (h : FoundTypeMemberHash) (p : Pickler) : Pickler :=
  p |> putU4 (ftm_ownerIdx h) |> putU1 (u1_of_bool (ftm_ownerIsSymbol h))
    |> putU1 (u1_of_bool (ftm_isTypeTemplate h)) |> putU4 (ftm_nameHash h).

Definition pickleMethodHash (h : FoundMethodHash) (p : Pickler) : Pickler :=
  p |> putU4 (fm_ownerIdx h) |> putU1 (u1_of_bool (fm_ownerIsSymbol h))
    |> putU1 (u1_of_bool (fm_useSingletonClass h)) |> putU4 (fm_nameHash h)
    |> putU4 (fm_arityHash h).

Definition pickleFieldHash (h : FoundFieldHash) (p : Pickler) : Pickler :=
  p |> putU4 (ff_ownerIdx h) |> putU1 (u1_of_bool (ff_ownerIsSymbol h))
    |> putU1 (u1_of_bool (ff_onSingletonClass h)) |> putU1 (u1_of_bool (ff_isInstanceVariable h))
    |> putU1 (u1_of_bool (ff_fromWithinMethod h)) |> putU4 (ff_nameHash h).

Definition pickleFileHash (fh : option FileHash) (p : Pickler) : Pickler :=
  match fh with
  | None => putU1 0 p
  | Some fh =>
      let l := localSymbolTableHashes fh in
      let f := foundHashes fh in
      p |> putU1 1
        |> putU4 (hierarchyHash l) |> putU4 (classModuleHash l) |> putU4 (typeMemberHash l)
        |> putU4 (fieldHash l) |> putU4 (staticFieldHash l) |> putU4 (classAliasHash l)
        |> putU4 (methodHash l)
        |> putVec pickleSymbolHash (retypecheckableSymbolHashes l)
        |> putVec putU4 (nameHashes (usages fh))
        |> putVec pickleStaticFieldHash (staticFieldHashes f)
        |> putVec pickleTypeMemberHash (typeMemberHashes f)
        |> putVec pickleMethodHash (methodHashes f)
        |> putVec pickleFieldHash (fieldHashes f)
  end.

Definition unpickleSymbolHash : unp SymbolHash :=
  key ← getU4; value ← getU4; mret (mkSymbolHash key value).

Definition unpickleStaticFieldHash : unp FoundStaticFieldHash :=
  ownerIdx ← getU4; ownerIsSymbol ← getU1; fullNameHash ← getU4;
  mret (mkFoundStaticFieldHash (bits28 ownerIdx) (bool_of_u1 ownerIsSymbol) fullNameHash).

Definition unpickleTypeMemberHash : unp FoundTypeMemberHash :=
  ownerIdx ← getU4; ownerIsSymbol ← getU1; isTypeTemplate ← getU1; fullNameHash ← getU4;
  mret (mkFoundTypeMemberHash (bits28 ownerIdx) (bool_of_u1 ownerIsSymbol)
          (bool_of_u1 isTypeTemplate) fullNameHash).

Definition unpickleMethodHash : unp FoundMethodHash :=
  ownerIdx ← getU4; ownerIsSymbol ← getU1; useSingletonClass ← getU1; fullNameHash ← getU4;
  arityHash ← getU4;
  mret (mkFoundMethodHash (bits28 ownerIdx) (bool_of_u1 ownerIsSymbol)
          (bool_of_u1 useSingletonClass) fullNameHash arityHash).

Definition unpickleFieldHash : unp FoundFieldHash :=
  ownerIdx ← getU4; ownerIsSymbol ← getU1; onSingletonClass ← getU1; isInstanceVariable ← getU1;
  fromWithinMethod ← getU1; fullNameHash ← getU4;
  mret (mkFoundFieldHash (bits28 ownerIdx) (bool_of_u1 ownerIsSymbol)
          (bool_of_u1 onSingletonClass) (bool_of_u1 isInstanceVariable)
          (bool_of_u1 fromWithinMethod) fullNameHash).

Definition unpickleFileHash : unp (option FileHash) :=
  hadIt ← getU1;
  if negb (bool_of_u1 hadIt) then mret None
  else
    hierarchyHash ← getU4; classModuleHash ← getU4; typeMemberHash ← getU4; fieldHash ← getU4;
    staticFieldHash ← getU4; classAliasHash ← getU4; methodHash ← getU4;
    retypecheckable ← getVecU unpickleSymbolHash;
    names ← getVecU getU4;
    staticFields ← getVecU unpickleStaticFieldHash;
    typeMembers ← getVecU unpickleTypeMemberHash;
    methods ← getVecU unpickleMethodHash;
    fields ← getVecU unpickleFieldHash;
    mret (Some (mkFileHash
      (mkLocalSymbolTableHashes hierarchyHash classModuleHash typeMemberHash fieldHash
         staticFieldHash classAliasHash methodHash retypecheckable)
      (mkUsageHash names)
      (mkFoundDefHashes staticFields typeMembers methods fields))).

(** ** The types of the fields *)

Definition is_u28 (z : Z) : Prop := 0 <= z < 2 ^ 28.

Definition SymbolHash_ok (h : SymbolHash) : Prop :=
  is_u32 (sh_nameHash h) /\ is_u32 (sh_symbolHash h).

Definition StaticFieldHash_ok (h : FoundStaticFieldHash) : Prop :=
  is_u28 (fsf_ownerIdx h) /\ is_u32 (fsf_nameHash h).

Definition TypeMemberHash_ok (h : FoundTypeMemberHash) : Prop :=
  is_u28 (ftm_ownerIdx h) /\ is_u32 (ftm_nameHash h).

Definition MethodHash_ok (h : FoundMethodHash) : Prop :=
  is_u28 (fm_ownerIdx h) /\ is_u32 (fm_nameHash h) /\ is_u32 (fm_arityHash h).

Definition FieldHash_ok (h : FoundFieldHash) : Prop :=
  is_u28 (ff_ownerIdx h) /\ is_u32 (ff_nameHash h).

(** A vector whose elements have their type's range and whose size fits an [int]. *)
Definition vec_ok {A} (ok : A -> Prop) (l : list A) : Prop := is_size (length l) /\ Forall ok l.

Definition LocalSymbolTableHashes_ok (l : LocalSymbolTableHashes) : Prop :=
  Forall is_u32 [hierarchyHash l; classModuleHash l; typeMemberHash l; fieldHash l;
                 staticFieldHash l; classAliasHash l; methodHash l] /\
  vec_ok SymbolHash_ok (retypecheckableSymbolHashes l).

Definition FileHash_ok (fh : FileHash) : Prop :=
  LocalSymbolTableHashes_ok (localSymbolTableHashes fh) /\
  vec_ok is_u32 (nameHashes (usages fh)) /\
  vec_ok StaticFieldHash_ok (staticFieldHashes (foundHashes fh)) /\
  vec_ok TypeMemberHash_ok (typeMemberHashes (foundHashes fh)) /\
  vec_ok MethodHash_ok (methodHashes (foundHashes fh)) /\
  vec_ok FieldHash_ok (fieldHashes (foundHashes fh)).

(** ** Round trips *)

Lemma bits28_id z : is_u28 z -> bits28 z = z.
Proof. intros. by apply Z.mod_small. Qed.

Lemma is_u28_u32 z : is_u28 z -> is_u32 z.
Proof. unfold is_u28, is_u32. lia. Qed.

#[export] Hint Resolve is_u28_u32 : words.

(** Each record's reader is the mirror of its writer: step through both, then use that the bit
    fields hold their values. *)
Ltac record_round_trip :=
  repeat match goal with H : _ /\ _ |- _ => destruct H end;
  pickle;
  rewrite ?bool_of_u1_of_bool, ?bits28_id by assumption;
  apply decodes_ret.

#[export] Instance SymbolHash_rt : RoundTrips pickleSymbolHash unpickleSymbolHash SymbolHash_ok id.
Proof. intros [k v] w [? ?]. unfold pickleSymbolHash, unpickleSymbolHash. by pickle. Qed.

#[export] Instance U4_rt : RoundTrips putU4 getU4 is_u32 id.
Proof. intros u w Hu. by apply decodes_putU4. Qed.

#[export] Instance StaticFieldHash_rt :
  RoundTrips pickleStaticFieldHash unpickleStaticFieldHash StaticFieldHash_ok id.
Proof.
  intros [o s n] w Hok. unfold StaticFieldHash_ok, pickleStaticFieldHash, unpickleStaticFieldHash in *.
  cbn in *. record_round_trip.
Qed.

#[export] Instance TypeMemberHash_rt :
  RoundTrips pickleTypeMemberHash unpickleTypeMemberHash TypeMemberHash_ok id.
Proof.
  intros [o s t n] w Hok. unfold TypeMemberHash_ok, pickleTypeMemberHash, unpickleTypeMemberHash in *.
  cbn in *. record_round_trip.
Qed.

#[export] Instance MethodHash_rt : RoundTrips pickleMethodHash unpickleMethodHash MethodHash_ok id.
Proof.
  intros [o s u n a] w Hok. unfold MethodHash_ok, pickleMethodHash, unpickleMethodHash in *.
  cbn in *. record_round_trip.
Qed.

#[export] Instance FieldHash_rt : RoundTrips pickleFieldHash unpickleFieldHash FieldHash_ok id.
Proof.
  intros [o s a b c n] w Hok. unfold FieldHash_ok, pickleFieldHash, unpickleFieldHash in *.
  cbn in *. record_round_trip.
Qed.

Lemma is_u8_0 : is_u8 0. Proof. unfold is_u8. lia. Qed.

Lemma is_u8_1 : is_u8 1. Proof. unfold is_u8. lia. Qed.

#[export] Hint Resolve is_u8_0 is_u8_1 : words.

Definition FileHash_opt_ok (fh : option FileHash) : Prop :=
  match fh with Some fh => FileHash_ok fh | None => True end.

#[export] Instance FileHash_rt : RoundTrips pickleFileHash unpickleFileHash FileHash_opt_ok id.
Proof.
  intros [[[h1 h2 h3 h4 h5 h6 h7 syms] [names] [sf tm me fi]] |] w Hok;
    unfold pickleFileHash, unpickleFileHash; [| by pickle].
  destruct Hok as ([Hh [Hs1 Hs2]] & [Hn1 Hn2] & [Hf1 Hf2] & [Ht1 Ht2] & [Hm1 Hm2] & [Hg1 Hg2]).
  cbn in *. rewrite !Forall_cons in Hh. destruct Hh as (? & ? & ? & ? & ? & ? & ? & _).
  pickle.
Qed.

(** ** The intersection test *)

(** Dropping the elements below the head of the other vector drops no common element. *)
Lemma lower_bound_drop (a : list Z) (y x : Z) :
  x ∈ a -> y <= x -> x ∈ drop (lower_bound a y) a.
Proof.
  induction a as [| z a IH]; simpl; [done |]. intros Hx Hle.
  destruct (Z.ltb_spec z y); [| done]. apply elem_of_cons in Hx as [-> | Hx]; [lia | auto].
Qed.

Lemma sorted_drop (n : nat) (l : list Z) : Sorted Z.le l -> Sorted Z.le (drop n l).
Proof.
  revert n. induction l as [| x l IH]; intros n Hl; [by rewrite drop_nil |].
  destruct n; [done |]. inversion Hl; subst. by apply IH.
Qed.

Lemma sorted_head_le (x z : Z) (l : list Z) : Sorted Z.le (x :: l) -> z ∈ x :: l -> x <= z.
Proof.
  intros Hs. apply Sorted_StronglySorted in Hs; [| intros ?; lia]. inversion Hs; subst.
  intros [-> | Hz]%elem_of_cons; [lia |]. by eapply Forall_forall in H2; [| done].
Qed.

Definition intersects (a b : list Z) : Prop := exists z, z ∈ a /\ z ∈ b.

(** Advancing either iterator keeps the set of common elements. *)
Lemma intersects_advance_a a y b :
  Sorted Z.le (y :: b) ->
  intersects (drop (lower_bound a y) a) (y :: b) <-> intersects a (y :: b).
Proof.
  intros Hb. split; intros (z & Ha & Hz); exists z; split; try done.
  - rewrite <- (take_drop (lower_bound a y) a). apply elem_of_app. by right.
  - apply lower_bound_drop; [done |]. by eapply sorted_head_le.
Qed.

Lemma intersects_comm a b : intersects a b <-> intersects b a.
Proof. split; intros (z & ? & ?); by exists z. Qed.

(** [prevEqual] records that the head of [b] is not below the head of [a]. *)
Definition heads_le (a b : list Z) : Prop :=
  match a, b with x :: _, y :: _ => x <= y | _, _ => False end.

Lemma sortedIntersects_loop_spec fuel a b prevEqual :
  Sorted Z.le a -> Sorted Z.le b -> (length a + length b < fuel)%nat ->
  (prevEqual = true -> heads_le a b) ->
  exists r, sortedIntersects_loop fuel a b prevEqual = Some r /\ (r = true <-> intersects a b).
Proof.
  revert a b prevEqual. induction fuel as [| fuel IH]; intros a b pe Ha Hb Hf Hpe; [lia |].
  cbn [sortedIntersects_loop]. destruct b as [| y b].
  { exists false. split; [done |]. split; [done |]. intros (z & _ & Hz). by apply not_elem_of_nil in Hz. }
  set (n := lower_bound a y). pose proof (intersects_advance_a a y b Hb) as Hadv. fold n in Hadv.
  destruct (Nat.eqb_spec n 0) as [En | En].
  - (* the first iterator did not move *)
    rewrite En in *. rewrite drop_0 in *. destruct pe; cbn [andb].
    { exists true. split; [done |]. split; [| done]. intros _. destruct a as [| x a]; [by cbn in Hpe |].
      exists x. unfold n in En. cbn in En. specialize (Hpe eq_refl). cbn in Hpe.
      destruct (Z.ltb_spec x y); [done |]. assert (x = y) as -> by lia. split; left. }
    destruct a as [| x a].
    { exists false. split; [done |]. split; [done |]. intros (z & Hz & _). by apply not_elem_of_nil in Hz. }
    set (m := lower_bound (y :: b) x). pose proof (intersects_advance_a (y :: b) x a Ha) as Hadv'.
    fold m in Hadv'. destruct (Nat.eqb_spec m 0) as [Em | Em]; cbn [andb].
    + exists true. split; [done |]. split; [| done]. intros _. exists x.
      unfold n, m in *. cbn in En, Em. destruct (Z.ltb_spec x y); [done |].
      destruct (Z.ltb_spec y x); [done |]. assert (x = y) as -> by lia. split; left.
    + destruct (IH (x :: a) (drop m (y :: b)) false) as (r & Hr & Hspec);
        [done | by apply sorted_drop | rewrite length_drop; cbn [length] in *; lia | done |].
      exists r. split; [done |]. rewrite Hspec. rewrite (intersects_comm (x :: a)), Hadv'.
      apply intersects_comm.
  - (* the first iterator moved *)
    cbn [andb]. assert (Hn : (n <= length a)%nat) by apply lower_bound_le.
    destruct (drop n a) as [| x a'] eqn:Ed.
    { exists false. split; [done |]. rewrite <- Hadv. split; [done |].
      intros (z & Hz & _). by apply not_elem_of_nil in Hz. }
    assert (Ha' : Sorted Z.le (x :: a')) by (rewrite <- Ed; by apply sorted_drop).
    assert (Hlen : length (x :: a') = (length a - n)%nat) by by rewrite <- Ed, length_drop.
    set (m := lower_bound (y :: b) x). pose proof (intersects_advance_a (y :: b) x a' Ha') as Hadv'.
    fold m in Hadv'. rewrite andb_false_r.
    destruct (IH (x :: a') (drop m (y :: b)) (m =? 0)%nat) as (r & Hr & Hspec).
    + done.
    + by apply sorted_drop.
    + rewrite length_drop. cbn [length] in *. lia.
    + intros Em%Nat.eqb_eq. rewrite Em, drop_0. unfold m in Em. cbn in Em.
      destruct (Z.ltb_spec y x); [done |]. by cbn.
    + exists r. split; [done |]. rewrite Hspec, (intersects_comm (x :: a')), Hadv', intersects_comm.
      done.
Qed.

(** ** Properties *)

(** A file hash, present or absent, written by the pickler is read back unchanged, whatever was
    written before it and whatever follows. *)
Theorem file_hash_roundtrip fh w :
  FileHash_opt_ok fh -> decodes unpickleFileHash w (pickleFileHash fh w) fh.
Proof. apply FileHash_rt. Qed.

Definition sampleFileHash : FileHash :=
  mkFileHash (mkLocalSymbolTableHashes 7 0 0 300 0 0 9 [mkSymbolHash 5 0])
    (mkUsageHash [1; 0; 70000])
    (mkFoundDefHashes [mkFoundStaticFieldHash 3 true 4] []
       [mkFoundMethodHash 0 false true 11 2] [mkFoundFieldHash 1 false true false true 6]).

Lemma file_hash_roundtrip_witness :
  decodes unpickleFileHash emptyPickler (pickleFileHash (Some sampleFileHash) emptyPickler)
    (Some sampleFileHash).
Proof.
  apply file_hash_roundtrip.
  repeat first [split | constructor]; vm_compute; first [done | by split].
Defined.

(** On sorted vectors [WithoutUniqueNameHash::sortedIntersects] terminates and returns true
    exactly when the vectors share an element: galloping with alternating [lower_bound]s skips no
    common element. *)
Theorem sortedIntersects_correct a b :
  Sorted Z.le a -> Sorted Z.le b ->
  exists r, sortedIntersects a b = Some r /\ (r = true <-> exists z, z ∈ a /\ z ∈ b).
Proof.
  intros Ha Hb. apply sortedIntersects_loop_spec; [done | done | lia | done].
Qed.

Lemma sortedIntersects_correct_witness :
  exists r, sortedIntersects [1; 4; 9] [2; 3; 9] = Some r /\
    (r = true <-> exists z, z ∈ [1; 4; 9] /\ z ∈ [2; 3; 9]).
Proof. apply sortedIntersects_correct; repeat constructor; lia. Defined.
