(* ===== verification/Files.v ===== *)
(** * Source files

    Models src/core/Files.h, src/core/Files.cc, src/core/StrictLevel.h and [findLineBreaks] of
    src/common/common.cc: a file's path flags, its [# typed:] sigil, its line table, and its
    serialization in src/core/serialize/serialize.cc. The lazily computed XXH128 digest of the
    source is not modelled (the digest function is third-party code). *)

From S2P Require Import Prelude Pickler FileHash.

#[local] Open Scope Z_scope.
#[local] Open Scope pickle_scope.

(** ** Strictness levels *)

Inductive StrictLevel :=
| Internal | NoneLevel | Ignore | FalseLevel | TrueLevel | Strict | Strong | Max
| Autogenerated | Stdlib.

#[export] Instance StrictLevel_eq_dec : EqDecision StrictLevel.
Proof. solve_decision. Defined.

(** The values of [StrictLevel] *)
Definition strictValue (l : StrictLevel) : Z :=
  match l with
  | Internal => 0 | NoneLevel => 1 | Ignore => 2 | FalseLevel => 3 | TrueLevel => 4 | Strict => 5 | Strong => 6 | Max => 7
  | Autogenerated => 10 | Stdlib => 11
  end.

Definition SIGIL_PREFIX : str := s! "typed:".

Definition str_eqb (a b : str) : bool := bool_decide (a = b).

Definition fromString (s : str) : StrictLevel :=
  if str_eqb s s! "ignore" then Ignore
  else if str_eqb s s! "false" then FalseLevel
  else if str_eqb s s! "true" then TrueLevel
  else if str_eqb s s! "strict" then Strict
  else if str_eqb s s! "strong" then Strong
  else if str_eqb s s! "autogenerated" then Autogenerated
  else if str_eqb s s! "__STDLIB_INTERNAL" then Stdlib
  else NoneLevel.

Definition toString (l : StrictLevel) : str :=
  match l with
  | Internal => s! "internal"
  | NoneLevel => s! "none"
  | Ignore => s! "ignore"
  | FalseLevel => s! "false"
  | TrueLevel => s! "true"
  | Strict => s! "strict"
  | Strong => s! "strong"
  | Max => s! "max"
  | Autogenerated => s! "autogenerated"
  | Stdlib => s! "__STDLIB_INTERNAL"
  end.

(** ** The sigil parser *)

Definition is_space (c : ascii) : bool := char_eqb c " ".

Definition newline : ascii := "010".

Definition carriageReturn : ascii := "013".

(** [source[i] == c]; reading past the end is false. *)
Definition char_at (source : str) (i : nat) (c : ascii) : bool :=
  match source !! i with Some d => char_eqb d c | None => false end.

(** The number of leading characters that satisfy [f]. *)
Fixpoint count_while (f : ascii -> bool) (s : str) : nat :=
  match s with
  | c :: s => if f c then S (count_while f s) else O
  | [] => O
  end.

(** [while (comment_start > 0) { --comment_start; if (source[comment_start] == ' ') continue; else
    break; }] *)
Fixpoint commentStart (source : str) (comment_start : nat) : nat :=
  match comment_start with
  | O => O
  | S n => if char_at source n " " then commentStart source n else n
  end.

Definition not_word_end (c : ascii) : bool := negb (char_eqb c " ") && negb (char_eqb c newline).

(** [ParseSigil<StrictLevel>::parse]: [None] is a loop that has not finished within the fuel. *)
Fixpoint parse_loop (fuel : nat) (source : str) (start : nat) : option StrictLevel :=
  match fuel with
  | O => None
  | S fuel =>
      match find_sub_from SIGIL_PREFIX source start with
      | None => Some NoneLevel
      | Some start =>
          if negb (char_at source (commentStart source start) "#") then
            parse_loop fuel source (start + 1)
          else
            let start := (start + length SIGIL_PREFIX)%nat in
            let start := (start + count_while is_space (drop start source))%nat in
            if (length source <=? start)%nat then Some NoneLevel
            else
              let e := (start + 1 + count_while not_word_end (drop (start + 1) source))%nat in
              let e := if char_at source (e - 1) carriageReturn then (e - 1)%nat else e in
              let result := fromString (substr source start (e - start)) in
              if bool_decide (result = NoneLevel) then parse_loop fuel source e
              else Some result
      end
  end.

Definition fileStrictSigil (source : str) : option StrictLevel :=
  parse_loop (length source + 1) source 0.

(** ** Line breaks *)

Definition is_newline (c : ascii) : bool := char_eqb c newline.

Fixpoint findLineBreaks_loop (fuel : nat) (s : str) (next_pos : nat) (res : list Z) : option (list Z) :=
  match fuel with
  | O => None
  | S fuel =>
      match find_char_from is_newline s next_pos with
      | None => Some (res ++ [u32 (Z.of_nat (length s))])
      | Some pos => findLineBreaks_loop fuel s (pos + 1) (res ++ [u32 (Z.of_nat pos)])
      end
  end.

Definition findLineBreaks (s : str) : option (list Z) := findLineBreaks_loop (length s + 1) s 0 [].

(** ** Files *)

Inductive FileType := NotYetRead | PayloadGeneration | Payload | Normal.

#[export] Instance FileType_eq_dec : EqDecision FileType.
Proof. solve_decision. Defined.

Definition u1_of_FileType (t : FileType) : Z :=
  match t with NotYetRead => 0 | PayloadGeneration => 1 | Payload => 2 | Normal => 3 end.

(** The cast [(File::Type)p.getU1()]; [None] for a byte that is none of the enumeration's values. *)
Definition FileType_of_u1 (z : Z) : option FileType :=
  match z with 0 => Some NotYetRead | 1 => Some PayloadGeneration | 2 => Some Payload
             | 3 => Some Normal | _ => None end.

Record Flags := mkFlags {
  fl_hasIndexErrors : bool; fl_isTestPath : bool; fl_isTestFile : bool;
  fl_hasPackageRBIPath : bool; fl_hasPackageRbPath : bool; fl_isOpenInClient : bool }.

Definition isPackageRBIPath (path : str) : bool := is_suffix s! ".package.rbi" path.

Definition isRBIPath (path : str) : bool := is_suffix s! ".rbi" path.

(** The index of the last occurrence of a character. *)
Fixpoint rfind_char (c : ascii) (s : str) : option nat :=
  match s with
  | [] => None
  | d :: s =>
      match rfind_char c s with
      | Some k => Some (S k)
      | None => if char_eqb d c then Some O else None
      end
  end.

(** What follows the last slash. *)
Definition basename (path : str) : str :=
  match rfind_char "/" path with
  | Some pos => drop (pos + 1) path
  | None => path
  end.

Definition isPackagePath (path : str) : bool := str_eqb (basename path) s! "__package.rb".

(** [absl::StrContains] *)
Definition str_contains (s p : str) : bool := bool_decide (is_Some (find_sub p s)).

Definition makeFlags (path : str) : Flags :=
  mkFlags false (str_contains path s! "/test/") (is_suffix s! ".test.rb" path)
    (isPackageRBIPath path) (isPackagePath path) false.

Record File := mkFile {
  epoch : Z; sourceType : FileType; flags : Flags; path_ : str; source_ : str;
  lineBreaks_ : option (list Z); minErrorLevel_ : StrictLevel;
  originalSigil : StrictLevel; strictLevel : StrictLevel; hash_ : option FileHash }.

Definition INVALID_POS_LOC : Z := 2 ^ 32 - 1.

(** The constructor; [None] is the exception for a file that is too large. *)
Definition makeFile (path source : str) (t : FileType) (ep : Z) : option File :=
  sigil ← fileStrictSigil source;
  if INVALID_POS_LOC <=? Z.of_nat (length source) then None
  else Some (mkFile ep t (makeFlags path) path source None Max sigil sigil None).

Definition deepCopy (f : File) : option File :=
  ret ← makeFile (path_ f) (source_ f) (sourceType f) (epoch f);
  Some (mkFile (epoch ret) (sourceType ret) (flags ret) (path_ ret) (source_ ret)
          (lineBreaks_ f) (minErrorLevel_ f) (originalSigil ret) (strictLevel f) (hash_ ret)).

Definition setFileHash (hash : option FileHash) (f : File) : File :=
  match hash_ f with
  | Some _ => f
  | None =>
      mkFile (epoch f) (sourceType f) (flags f) (path_ f) (source_ f) (lineBreaks_ f)
        (minErrorLevel_ f) (originalSigil f) (strictLevel f) hash
  end.

Definition setLineBreaks (l : list Z) (f : File) : File :=
  mkFile (epoch f) (sourceType f) (flags f) (path_ f) (source_ f) (Some l)
    (minErrorLevel_ f) (originalSigil f) (strictLevel f) (hash_ f).

(** [File::lineBreaks]: the line table, computed once and kept in the file. *)
Definition lineBreaks (f : File) : option (list Z * File) :=
  match lineBreaks_ f with
  | Some l => Some (l, f)
  | None => my ← findLineBreaks (source_ f); Some (my, setLineBreaks my f)
  end.

Definition lineCount (f : File) : option Z :=
  '(l, _) ← lineBreaks f; Some (Z.of_nat (length l)).

(** 1-indexed line number; [None] when a line number is out of range (an [ENFORCE]). *)
Definition getLine (f : File) (i : Z) : option str :=
  '(l, _) ← lineBreaks f;
  if (1 <=? i) && (i <=? Z.of_nat (length l)) then
    e ← l !! Z.to_nat (i - 1);
    start ← (if i =? 1 then Some 0 else (fun b => b + 1) <$> l !! Z.to_nat (i - 2));
    Some (substr (source_ f) (Z.to_nat start) (Z.to_nat (u32 (e - start))))
  else None.

Definition isPayload (f : File) : bool :=
  bool_decide (sourceType f = PayloadGeneration) || bool_decide (sourceType f = Payload).

Definition isRBI (f : File) : bool := isRBIPath (path_ f).

Definition isStdlib (f : File) : bool := bool_decide (originalSigil f = Stdlib).

Definition hasPackageRbPath (f : File) : bool :=
  fl_hasPackageRbPath (flags f) && negb (bool_decide (strictLevel f = Ignore)).

Definition isPackage (packagesEnabled : bool) (f : File) : bool :=
  hasPackageRbPath f && packagesEnabled.

Definition isTestPackage (packagesEnabled : bool) (f : File) : bool :=
  hasPackageRbPath f && fl_isTestPath (flags f) && packagesEnabled.

Definition isPackagedTest (f : File) : bool := fl_isTestFile (flags f) || fl_isTestPath (flags f).

Definition isPackagedTestHelper (f : File) : bool :=
  fl_isTestPath (flags f) && negb (fl_isTestFile (flags f)).

(** ** Censoring of paths in snapshots *)

Definition EXTERNAL_PREFIX : str := s! "external/com_stripe_ruby_typer/".

Definition URL_PREFIX : str := s! "https://github.com/sorbet/sorbet/tree/master/".

(** [if (absl::StartsWith(s, p)) s.remove_prefix(p.size())] *)
Definition strip_prefix (p s : str) : str := if is_prefix p s then drop (length p) s else s.

Definition censorFilePathForSnapshotTests (orig : str) : str :=
  let result := strip_prefix EXTERNAL_PREFIX orig in
  let result :=
    if is_prefix URL_PREFIX result then
      strip_prefix EXTERNAL_PREFIX (drop (length URL_PREFIX) result)
    else result in
  if is_prefix URL_PREFIX orig then URL_PREFIX ++ result else result.

(** ** Serialization *)

Definition pickleFile (f : File) (p : Pickler) : Pickler :=
  p |> putU1 (u1_of_FileType (sourceType f)) |> putStr (path_ f) |> putStr (source_ f)
    |> pickleFileHash (hash_ f).

Definition lift_option {A} (o : option A) : unp A :=
  match o with Some x => mret x | None => unp_fail end.

Definition unpickleFile : unp File :=
  t ← getU1;
  path ← getStr;
  source ← getStr;
  globalStateHash ← unpickleFileHash;
  t ← lift_option (FileType_of_u1 t);
  ret ← lift_option (makeFile path source t 0);
  mret (setFileHash globalStateHash ret).

(** ** The sigil parser: termination and the first sigil *)

Lemma count_while_le f s : (count_while f s <= length s)%nat.
Proof. induction s as [| c s IH]; simpl; [done |]. destruct (f c); lia. Qed.

(** [s.find(p, start)] returns an index from [start] on at which [p] fits. *)
Lemma find_sub_from_bounds p s start k :
  find_sub_from p s start = Some k ->
  (start <= k)%nat /\ (k + length p <= length s)%nat /\ is_prefix p (drop k s) = true.
Proof.
  unfold find_sub_from. destruct (Nat.leb_spec start (length s)); [| done].
  destruct (find_sub p (drop start s)) as [j |] eqn:E; simpl; [| done]. intros [= <-].
  apply find_sub_Some in E as (Hp & Hj & _). rewrite drop_drop in Hp. split; [lia |].
  split; [| done]. apply is_prefix_spec, prefix_length in Hp. rewrite length_drop in *. lia.
Qed.

Lemma parse_loop_total fuel source start :
  (start <= length source)%nat -> (length source - start < fuel)%nat ->
  exists l, parse_loop fuel source start = Some l.
Proof.
  revert start. induction fuel as [| fuel IH]; intros start Hs Hf; [lia |].
  cbn [parse_loop]. destruct (find_sub_from SIGIL_PREFIX source start) as [k |] eqn:E; [| by eexists].
  apply find_sub_from_bounds in E as (Hk & Hlen & _). change (length SIGIL_PREFIX) with 6%nat in *.
  destruct (negb _); [apply IH; lia |]. cbv zeta.
  set (st := (k + 6 + count_while is_space (drop (k + 6) source))%nat).
  destruct (Nat.leb_spec (length source) st) as [|Hst]; [by eexists |].
  pose proof (count_while_le not_word_end (drop (st + 1) source)) as He.
  rewrite length_drop in He. set (e := (st + 1 + _)%nat). assert (st < e <= length source)%nat by lia.
  assert (k + 6 <= st)%nat by lia.
  destruct (bool_decide _); [| by eexists]. apply IH; destruct (char_at _ _ _); lia.
Qed.

Lemma fileStrictSigil_total source : exists l, fileStrictSigil source = Some l.
Proof. apply parse_loop_total; lia. Qed.

(** The levels a file can ask for. *)
Definition user_level (l : StrictLevel) : Prop :=
  l = Ignore \/ l = FalseLevel \/ l = TrueLevel \/ l = Strict \/ l = Strong \/
  l = Autogenerated \/ l = Stdlib.

(** What can follow the level: the end, a space or a newline, with an optional carriage return. *)
Definition word_end (t : str) : Prop :=
  t = [] \/ (exists c r, t = c :: r /\ not_word_end c = false) \/
  t = [carriageReturn] \/
  (exists c r, t = carriageReturn :: c :: r /\ not_word_end c = false).

Lemma count_while_app_all f a b :
  forallb f a = true -> count_while f (a ++ b) = (length a + count_while f b)%nat.
Proof.
  induction a as [| c a IH]; simpl; [done |]. intros [-> H]%andb_true_iff. by rewrite IH.
Qed.

Lemma commentStart_spaces pre c n rest :
  is_space c = false ->
  commentStart (pre ++ c :: replicate n " "%char ++ rest) (length pre + 1 + n) = length pre.
Proof.
  intros Hc. induction n as [| n IH] in rest |- *.
  - replace (length pre + 1 + 0)%nat with (S (length pre)) by lia. cbn [commentStart].
    unfold char_at. rewrite lookup_app_r, Nat.sub_diag by lia. cbn.
    unfold is_space in Hc. by rewrite Hc.
  - replace (length pre + 1 + S n)%nat with (S (length pre + 1 + n)) by lia. cbn [commentStart].
    replace (pre ++ c :: replicate (S n) " "%char ++ rest)
      with ((pre ++ c :: replicate n " "%char) ++ " "%char :: rest)
      by (rewrite replicate_S_end, <- !app_assoc; done).
    unfold char_at. rewrite list_lookup_middle
      by (rewrite length_app; cbn [length]; rewrite length_replicate; lia).
    change (char_eqb " " " ") with true. cbv iota.
    rewrite <- app_assoc. cbn [app]. apply IH.
Qed.

Lemma toString_word l :
  user_level l ->
  forallb not_word_end (toString l) = true /\ fromString (toString l) = l /\
  (exists c r, toString l = c :: r /\ is_space c = false) /\
  last (toString l) <> Some carriageReturn /\ l <> NoneLevel.
Proof.
  intros [-> | [-> | [-> | [-> | [-> | [-> | ->]]]]]]; repeat split;
    try (vm_compute; by eauto); try (vm_compute; discriminate);
    do 2 eexists; split; reflexivity.
Qed.

Lemma drop_at (a b : str) n : n = length a -> drop n (a ++ b) = b.
Proof. intros ->. apply drop_app_length. Qed.

(** The scan for the end of the word, a trailing carriage return removed, ends exactly after it. *)
Lemma word_scan (a w t : str) c r :
  w = c :: r -> forallb not_word_end w = true -> last w <> Some carriageReturn -> word_end t ->
  let start := length a in
  let e := (start + 1 + count_while not_word_end (drop (start + 1) (a ++ w ++ t)))%nat in
  (if char_at (a ++ w ++ t) (e - 1) carriageReturn then (e - 1)%nat else e) =
  (start + length w)%nat.
Proof.
  intros Hw Hall Hlast Ht. cbv zeta.
  assert (Hr : drop (length a + 1) (a ++ w ++ t) = r ++ t).
  { rewrite Hw. cbn [app]. change (c :: r ++ t) with ([c] ++ r ++ t). rewrite app_assoc.
    apply drop_at. by rewrite length_app. }
  rewrite Hr. rewrite Hw in Hall. cbn [forallb] in Hall. apply andb_true_iff in Hall as [_ Hall].
  rewrite count_while_app_all by done.
  assert (Hlw : length w = S (length r)) by by rewrite Hw.
  assert (Hnocr : char_at (a ++ w ++ t) (length a + length r) carriageReturn = false).
  { unfold char_at. rewrite lookup_app_r, lookup_app_l by lia.
    replace (length a + length r - length a)%nat with (pred (length w)) by lia.
    rewrite <- last_lookup. destruct (last w) as [d |] eqn:El; [| done].
    unfold char_eqb. apply bool_decide_eq_false_2. congruence. }
  assert (Hcr : forall t', t = carriageReturn :: t' ->
            char_at (a ++ w ++ t) (length a + S (length r)) carriageReturn = true).
  { intros t' ->. unfold char_at. rewrite app_assoc, list_lookup_middle; [done |].
    rewrite length_app. lia. }
  destruct Ht as [-> | [(d & t' & -> & Hd) | [-> | (d & t' & -> & Hd)]]]; cbn [count_while];
    rewrite ?Hd; cbn [not_word_end].
  - replace (length a + 1 + (length r + 0) - 1)%nat with (length a + length r)%nat by lia.
    rewrite Hnocr. lia.
  - replace (length a + 1 + (length r + 0) - 1)%nat with (length a + length r)%nat by lia.
    rewrite Hnocr. lia.
  - change (not_word_end carriageReturn) with true. cbv iota.
    replace (length a + 1 + (length r + 1) - 1)%nat with (length a + S (length r))%nat by lia.
    rewrite (Hcr []) by done. lia.
  - change (not_word_end carriageReturn) with true. cbv iota.
    replace (length a + 1 + (length r + 1) - 1)%nat with (length a + S (length r))%nat by lia.
    rewrite (Hcr (d :: t')) by done. lia.
Qed.

Lemma forallb_spaces m : forallb is_space (replicate m " "%char) = true.
Proof. induction m as [| m IH]; [done | exact IH]. Qed.

(** A source whose first [typed:] is a sigil comment. *)
Definition sigil_source (pre : str) (n m : nat) (l : StrictLevel) (t : str) : str :=
  pre ++ "#"%char :: replicate n " "%char ++ SIGIL_PREFIX ++ replicate m " "%char ++ toString l ++ t.

Lemma sigil_first pre n m l t :
  user_level l -> word_end t ->
  find_sub SIGIL_PREFIX (sigil_source pre n m l t) = Some (length pre + 1 + n)%nat ->
  fileStrictSigil (sigil_source pre n m l t) = Some l.
Proof.
  intros Hl Ht Hfind. destruct (toString_word l Hl) as (Hall & Hfrom & (c & r & Hw & Hc) & Hlast & Hne).
  unfold fileStrictSigil. rewrite Nat.add_1_r. cbn [parse_loop].
  unfold find_sub_from. rewrite drop_0, Hfind. cbn [Nat.leb fmap option_fmap option_map Nat.add].
  set (S0 := sigil_source pre n m l t) in *. set (k := (length pre + 1 + n)%nat) in *.
  assert (Hcs : commentStart S0 k = length pre).
  { unfold S0, sigil_source, k. by apply commentStart_spaces. }
  rewrite Hcs. replace (char_at S0 (length pre) "#") with true
    by (unfold char_at, S0, sigil_source; by rewrite list_lookup_middle).
  cbn [negb]. set (a := pre ++ "#"%char :: replicate n " "%char ++ SIGIL_PREFIX).
  assert (Ha : S0 = a ++ replicate m " "%char ++ toString l ++ t).
  { unfold S0, sigil_source, a. rewrite <- app_assoc. cbn [app]. by rewrite <- app_assoc. }
  assert (Hla : (k + length SIGIL_PREFIX)%nat = length a).
  { unfold a, k. rewrite length_app. cbn [length]. rewrite length_app, length_replicate. lia. }
  rewrite Hla, Ha, drop_at, count_while_app_all by (done || apply forallb_spaces).
  replace (count_while is_space (toString l ++ t)) with O by (rewrite Hw; cbn; by rewrite Hc).
  rewrite length_replicate, Nat.add_0_r. cbv zeta.
  set (a' := a ++ replicate m " "%char). assert (Ha' : a ++ replicate m " "%char ++ toString l ++ t
    = a' ++ toString l ++ t) by by unfold a'; rewrite app_assoc.
  assert (Hla' : (length a + m)%nat = length a').
  { unfold a'. by rewrite length_app, length_replicate. }
  rewrite Ha', Hla'. pose proof (word_scan a' (toString l) t c r Hw Hall Hlast Ht) as Hscan.
  cbv zeta in Hscan. rewrite Hscan.
  destruct (Nat.leb_spec (length (a' ++ toString l ++ t)) (length a')) as [Hle |].
  { rewrite !length_app, Hw in Hle. cbn [length] in Hle. lia. }
  unfold substr. rewrite drop_at by done.
  replace (length a' + length (toString l) - length a')%nat with (length (toString l)) by lia.
  rewrite take_app_length, Hfrom. by rewrite bool_decide_eq_false_2.
Qed.

(** ** The line table *)

(** The offset of every newline, and of the end. *)
Fixpoint breaks (off : Z) (s : str) : list Z :=
  match s with
  | [] => [off]
  | c :: s => if is_newline c then off :: breaks (off + 1) s else breaks (off + 1) s
  end.

(** The lines of a text, without their newlines. *)
Fixpoint lines (s : str) : list str :=
  match s with
  | [] => [[]]
  | c :: s =>
      if is_newline c then [] :: lines s
      else match lines s with
           | l :: ls => (c :: l) :: ls
           | [] => [[c]]
           end
  end.

Fixpoint join_lines (ls : list str) : str :=
  match ls with
  | [] => []
  | [l] => l
  | l :: ls => l ++ newline :: join_lines ls
  end.

Lemma lines_cons s : exists l ls, lines s = l :: ls.
Proof.
  destruct s as [| c s]; simpl; [by eauto |]. destruct (is_newline c); [by eauto |].
  destruct (lines s); by eauto.
Qed.

Lemma join_lines_lines s : join_lines (lines s) = s.
Proof.
  induction s as [| c s IH]; [done |]. cbn [lines]. destruct (lines_cons s) as (l & ls & E).
  rewrite E in *. destruct (is_newline c) eqn:Ec.
  - cbn [join_lines app]. apply bool_decide_eq_true in Ec as ->. f_equal. exact IH.
  - destruct ls; cbn [join_lines app] in *; by f_equal.
Qed.

Lemma length_breaks off s : length (breaks off s) = length (lines s).
Proof.
  revert off. induction s as [| c s IH]; intros off; [done |]. cbn.
  destruct (is_newline c); cbn; [by rewrite IH |]. rewrite IH.
  by destruct (lines_cons s) as (l & ls & ->).
Qed.

(** The offsets lie in the text, grow strictly, and end with its length. *)
Lemma breaks_range off s b : b ∈ breaks off s -> off <= b <= off + Z.of_nat (length s).
Proof.
  revert off. induction s as [| c s IH]; intros off; cbn [breaks length].
  - intros ->%list_elem_of_singleton. lia.
  - destruct (is_newline c); [intros [-> | H]%elem_of_cons; [lia |] | intros H];
      apply IH in H; lia.
Qed.

Lemma breaks_sorted off s : StronglySorted Z.lt (breaks off s).
Proof.
  revert off. induction s as [| c s IH]; intros off; cbn [breaks]; [repeat constructor |].
  destruct (is_newline c); [| done]. constructor; [done |]. apply Forall_forall.
  intros b Hb%breaks_range. lia.
Qed.

Lemma breaks_last off s : last (breaks off s) = Some (off + Z.of_nat (length s)).
Proof.
  revert off. induction s as [| c s IH]; intros off; cbn [breaks length].
  - cbn. f_equal. lia.
  - destruct (is_newline c).
    + rewrite last_cons, IH. f_equal. lia.
    + rewrite IH. f_equal. lia.
Qed.

Lemma breaks_app_plain off a s :
  forallb (fun c => negb (is_newline c)) a = true ->
  breaks off (a ++ s) = breaks (off + Z.of_nat (length a)) s.
Proof.
  revert off. induction a as [| c a IH]; intros off; cbn [app forallb breaks length].
  - intros _. f_equal. lia.
  - intros [Hc%negb_true_iff Ha]%andb_true_iff. rewrite Hc, IH by done. f_equal. lia.
Qed.

(** A search that succeeds splits the text at the first hit. *)
Lemma find_char_split f s :
  match find_char f s with
  | Some k => exists a c b, s = a ++ c :: b /\ length a = k /\ f c = true /\
                forallb (fun c => negb (f c)) a = true
  | None => forallb (fun c => negb (f c)) s = true
  end.
Proof.
  induction s as [| c s IH]; cbn; [done |]. destruct (f c) eqn:E.
  - by exists [], c, s.
  - destruct (find_char f s) as [k |]; cbn.
    + destruct IH as (a & d & b & -> & <- & Hd & Ha). exists (c :: a), d, b. cbn. by rewrite E.
    + by rewrite IH.
Qed.

Lemma findLineBreaks_loop_spec fuel pre s res :
  (length s < fuel)%nat -> Z.of_nat (length (pre ++ s)) < 2 ^ 32 ->
  findLineBreaks_loop fuel (pre ++ s) (length pre) res =
  Some (res ++ breaks (Z.of_nat (length pre)) s).
Proof.
  revert pre s res. induction fuel as [| fuel IH]; intros pre s res Hf Hlen; [lia |].
  cbn [findLineBreaks_loop]. unfold find_char_from. rewrite drop_app_length.
  pose proof (find_char_split is_newline s) as Hsplit. rewrite length_app in Hlen.
  destruct (find_char is_newline s) as [k |]; cbn.
  - destruct Hsplit as (a & c & b & -> & <- & Hc & Ha). rewrite length_app in *. cbn [length] in *.
    rewrite u32_id by (unfold is_u32; lia).
    specialize (IH (pre ++ a ++ [c]) b (res ++ [Z.of_nat (length pre + length a)])).
    rewrite !length_app in IH. cbn [length] in IH. rewrite <- !app_assoc in IH. cbn [app] in IH.
    replace (length pre + length a + 1)%nat with (length pre + (length a + 1))%nat by lia.
    rewrite IH by (rewrite ?length_app; cbn [length]; lia). rewrite breaks_app_plain by done.
    cbn [breaks]. rewrite Hc. do 3 f_equal; [lia |]. f_equal. lia.
  - rewrite u32_id by (unfold is_u32; rewrite length_app; lia).
    rewrite <- (app_nil_r s) at 2. rewrite breaks_app_plain by done. cbn [breaks].
    rewrite length_app. do 3 f_equal. lia.
Qed.

Lemma findLineBreaks_spec s :
  Z.of_nat (length s) < 2 ^ 32 -> findLineBreaks s = Some (breaks 0 s).
Proof.
  intros Hs. unfold findLineBreaks. by apply (findLineBreaks_loop_spec _ [] s []); [lia |].
Qed.

(** The start of the [i]-th line (0-indexed), from the table of line ends. *)
Definition line_start (off : Z) (l : list Z) (i : nat) : option Z :=
  match i with O => Some off | S j => (fun b => b + 1) <$> l !! j end.

Lemma lines_lookup off s i e st :
  breaks off s !! i = Some e -> line_start off (breaks off s) i = Some st ->
  off <= st <= e /\ lines s !! i = Some (substr s (Z.to_nat (st - off)) (Z.to_nat (e - st))).
Proof.
  revert off i e st. induction s as [| c s IH]; intros off i e st.
  - destruct i as [| i]; cbn; [| by destruct i]. intros [= <-] [= <-]. split; [lia |].
    by rewrite Z.sub_diag.
  - cbn [breaks lines]. destruct (is_newline c).
    + destruct i as [| i].
      * cbn. intros [= <-] [= <-]. split; [lia |]. by rewrite !Z.sub_diag.
      * intros He Hst. destruct (IH (off + 1) i e st) as [Hr Hl]; [done | by destruct i |].
        split; [lia |]. change (([] :: lines s) !! S i) with (lines s !! i). rewrite Hl.
        f_equal. unfold substr.
        replace (Z.to_nat (st - off)) with (S (Z.to_nat (st - (off + 1)))) by lia. done.
    + destruct (lines_cons s) as (l0 & ls & El). rewrite El in *. intros He Hst.
      destruct i as [| i].
      * cbn in Hst. injection Hst as <-. destruct (IH (off + 1) O e (off + 1)) as [Hr Hl]; [done | done |].
        split; [lia |]. cbn in *. injection Hl as ->. rewrite !Z.sub_diag. f_equal. unfold substr.
        replace (Z.to_nat (e - off)) with (S (Z.to_nat (e - (off + 1)))) by lia. done.
      * destruct (IH (off + 1) (S i) e st) as [Hr Hl]; [done | done |]. split; [lia |].
        change (((c :: l0) :: ls) !! S i) with ((l0 :: ls) !! S i). rewrite Hl. f_equal. unfold substr.
        replace (Z.to_nat (st - off)) with (S (Z.to_nat (st - (off + 1)))) by lia. done.
Qed.

(** The invariant of a file: its size fits a position, its line table, once computed, is that of
    its source, and its flags are those of its path. *)
Record File_wf (f : File) : Prop := {
  wf_size : Z.of_nat (length (source_ f)) < INVALID_POS_LOC;
  wf_breaks : forall l, lineBreaks_ f = Some l -> l = breaks 0 (source_ f);
  wf_sigil : fileStrictSigil (source_ f) = Some (originalSigil f);
}.

Lemma lineBreaks_wf f :
  File_wf f -> exists f', lineBreaks f = Some (breaks 0 (source_ f), f') /\ File_wf f' /\
    source_ f' = source_ f.
Proof.
  intros Hwf. pose proof Hwf as [Hsz Hb Hs]. unfold lineBreaks. destruct (lineBreaks_ f) as [l |] eqn:E.
  - exists f. rewrite (Hb l) by done. by split; [| split].
  - unfold INVALID_POS_LOC in Hsz. rewrite findLineBreaks_spec by lia. cbn. eexists.
    split; [done |]. split; [| done]. split; cbn; [done | congruence | done].
Qed.

Lemma makeFile_wf path source t ep f : makeFile path source t ep = Some f -> File_wf f.
Proof.
  unfold makeFile. destruct (fileStrictSigil source) as [l |] eqn:E; cbn; [| done].
  destruct (Z.leb_spec INVALID_POS_LOC (Z.of_nat (length source))); [done |]. intros [= <-].
  split; by cbn.
Qed.

Lemma makeFile_total path source t ep :
  Z.of_nat (length source) < INVALID_POS_LOC -> exists f, makeFile path source t ep = Some f.
Proof.
  intros H. unfold makeFile. destruct (fileStrictSigil_total source) as [l ->]. cbn.
  rewrite (proj2 (Z.leb_gt _ _)) by done. by eexists.
Qed.

Lemma getLine_lines f i :
  File_wf f -> (i < length (lines (source_ f)))%nat ->
  getLine f (Z.of_nat i + 1) = lines (source_ f) !! i.
Proof.
  intros Hwf Hi. destruct (lineBreaks_wf f Hwf) as (f' & Hb & _). unfold getLine. rewrite Hb. cbn.
  assert (Hi' : (i < length (breaks 0 (source_ f)))%nat) by by rewrite length_breaks.
  rewrite (proj2 (Z.leb_le 1 _)), (proj2 (Z.leb_le _ (Z.of_nat (length _)))) by lia. cbn [andb].
  replace (Z.to_nat (Z.of_nat i + 1 - 1)) with i by lia.
  destruct (lookup_lt_is_Some_2 _ _ Hi') as [e He]. rewrite He. cbn.
  assert (Hst : exists st, line_start 0 (breaks 0 (source_ f)) i = Some st).
  { destruct i as [| i]; cbn; [by eexists |].
    destruct (lookup_lt_is_Some_2 (breaks 0 (source_ f)) i) as [b ->]; [lia |]. by eexists. }
  destruct Hst as [st Hst].
  assert (Hstart : (if Z.of_nat i + 1 =? 1 then Some 0
      else (fun b => b + 1) <$> breaks 0 (source_ f) !! Z.to_nat (Z.of_nat i + 1 - 2)) = Some st).
  { rewrite <- Hst. destruct i as [| i]; [done |].
    rewrite (proj2 (Z.eqb_neq _ _)) by lia. cbn [line_start]. do 3 f_equal. lia. }
  rewrite Hstart. cbn. destruct (lines_lookup 0 _ i e st He Hst) as [Hr ->].
  assert (He' : e <= Z.of_nat (length (source_ f))).
  { eapply list_elem_of_lookup_2, breaks_range in He. lia. }
  destruct Hwf as [Hsz _ _]. unfold INVALID_POS_LOC in Hsz.
  rewrite u32_id by (unfold is_u32; lia). by rewrite Z.sub_0_r.
Qed.

(** ** Serialization *)

(** What survives: the path, the contents, the kind and the hash; the rest is recomputed. *)
Definition reloaded (f : File) : File :=
  mkFile 0 (sourceType f) (makeFlags (path_ f)) (path_ f) (source_ f) None Max (originalSigil f)
    (originalSigil f) (hash_ f).

Definition File_ok (f : File) : Prop :=
  File_wf f /\ is_size (length (path_ f)) /\ is_size (length (source_ f)) /\ FileHash_opt_ok (hash_ f).

Lemma decodes_lift_option {A} (o : option A) x w : o = Some x -> decodes (lift_option o) w w x.
Proof. intros ->. apply decodes_ret. Qed.

Lemma FileType_roundtrip t : FileType_of_u1 (u1_of_FileType t) = Some t.
Proof. by destruct t. Qed.

Lemma makeFile_sigil path source t sigil :
  fileStrictSigil source = Some sigil -> Z.of_nat (length source) < INVALID_POS_LOC ->
  makeFile path source t 0 =
    Some (mkFile 0 t (makeFlags path) path source None Max sigil sigil None).
Proof.
  intros E Hs. unfold makeFile. rewrite E. cbn. by rewrite (proj2 (Z.leb_gt _ _)).
Qed.

#[export] Instance File_rt : RoundTrips pickleFile unpickleFile File_ok reloaded.
Proof.
  intros f w ([Hsz Hb Hsig] & Hp & Hs & Hh). unfold pickleFile, unpickleFile.
  assert (is_u8 (u1_of_FileType (sourceType f))) by (destruct (sourceType f); unfold is_u8; cbn; lia).
  pickle. eapply decodes_bind; [by apply FileHash_rt |].
  eapply decodes_bind; [apply decodes_lift_option, FileType_roundtrip |].
  eapply decodes_bind; [by apply decodes_lift_option, makeFile_sigil |].
  apply decodes_ret.
Qed.

(** ** Properties *)

(** Parsing the sigil terminates on every source, and a source whose first [typed:] is written
    as a comment, with any number of spaces around it and followed by a level and the end of the
    word (Unix or DOS line ends included), gets exactly that level. *)
Theorem fileStrictSigil_correct source :
  (exists l, fileStrictSigil source = Some l) /\
  forall pre n m l t, user_level l -> word_end t -> source = sigil_source pre n m l t ->
    find_sub SIGIL_PREFIX source = Some (length pre + 1 + n)%nat ->
    fileStrictSigil source = Some l.
Proof.
  split; [apply fileStrictSigil_total |]. intros pre n m l t Hl Ht -> Hf. by apply sigil_first.
Qed.

Lemma fileStrictSigil_correct_witness :
  fileStrictSigil (sigil_source s! "#!ruby" 1 2 Strict [carriageReturn; newline]) = Some Strict.
Proof.
  eapply (proj2 (fileStrictSigil_correct _) s! "#!ruby" 1%nat 2%nat); [| | reflexivity |].
  - unfold user_level. tauto.
  - right. right. right. by exists newline, [].
  - vm_compute. reflexivity.
Defined.

(** The line table and [File::getLine] agree with the text: the lines of a file, read one by
    one, joined by newlines, are its source, and [lineCount] is their number. *)
Theorem file_lines_join path source t ep f :
  makeFile path source t ep = Some f ->
  exists n ls, lineCount f = Some (Z.of_nat n) /\
    mapM (fun i => getLine f (Z.of_nat i + 1)) (seq 0 n) = Some ls /\ join_lines ls = source.
Proof.
  intros Hmk. pose proof (makeFile_wf _ _ _ _ _ Hmk) as Hwf.
  assert (Hsrc : source_ f = source).
  { unfold makeFile in Hmk. destruct (fileStrictSigil source); cbn in Hmk; [| done].
    destruct (INVALID_POS_LOC <=? _); by simplify_eq/=. }
  exists (length (lines source)), (lines source). split.
  - destruct (lineBreaks_wf f Hwf) as (f' & Hb & _). unfold lineCount. rewrite Hb. cbn.
    by rewrite length_breaks, Hsrc.
  - split; [| apply join_lines_lines]. apply mapM_Some. apply Forall2_same_length_lookup_2.
    + by rewrite length_seq.
    + intros i x l Hx Hl. apply lookup_seq in Hx as [-> Hi]. cbn in *.
      rewrite getLine_lines, Hsrc by (by rewrite ?Hsrc). done.
Qed.

Lemma file_lines_join_witness :
  exists f n ls, makeFile s! "a.rb" s! "x" Normal 0 = Some f /\ lineCount f = Some (Z.of_nat n) /\
    mapM (fun i => getLine f (Z.of_nat i + 1)) (seq 0 n) = Some ls /\ join_lines ls = s! "x".
Proof.
  eexists. destruct (file_lines_join s! "a.rb" s! "x" Normal 0
    (mkFile 0 Normal (makeFlags s! "a.rb") s! "a.rb" s! "x" None Max NoneLevel NoneLevel None))
    as (n & ls & H); [vm_compute; reflexivity |].
  exists n, ls. split; [vm_compute; reflexivity | exact H].
Defined.

(** A pickled file is read back with its path, contents, kind and hash; its flags and sigil are
    recomputed to the same values, and the state that belongs to one process (the epoch, an
    overridden strictness level, the cached line table) is reset. *)
Theorem file_roundtrip f w : File_ok f -> decodes unpickleFile w (pickleFile f w) (reloaded f).
Proof. apply File_rt. Qed.

Lemma file_roundtrip_witness :
  exists f, makeFile s! "lib/a.rb" s! "# typed: true" Normal 4 = Some f /\
    decodes unpickleFile emptyPickler (pickleFile f emptyPickler) (reloaded f).
Proof.
  eexists (mkFile 4 Normal (makeFlags s! "lib/a.rb") s! "lib/a.rb" s! "# typed: true" None Max
             TrueLevel TrueLevel None).
  split; [vm_compute; reflexivity |]. apply file_roundtrip. split; [| by vm_compute].
  split; [reflexivity | done | vm_compute; reflexivity].
Defined.
