(* ===== verification/Locs.v ===== *)
(** * Source locations

    Models src/core/LocOffsets.h, src/core/Loc.h and src/core/Loc.cc: offsets into a file, the
    conversions between offsets and line/column pairs, and the operations that move or widen a
    location; and their serialization in src/core/serialize/serialize.cc. A [FileRef] is the
    [uint32_t] it holds; [FileRef::data] is the argument [f]. *)

From S2P Require Import Prelude Pickler FileHash Files.

#[local] Open Scope Z_scope.
#[local] Open Scope pickle_scope.

(** ** Offsets *)

Record LocOffsets := mkLocOffsets { beginLoc : Z; endLoc : Z }.

#[export] Instance LocOffsets_eq_dec : EqDecision LocOffsets.
Proof. solve_decision. Defined.

Definition noOffsets : LocOffsets := mkLocOffsets INVALID_POS_LOC INVALID_POS_LOC.

Definition offsets_exists (l : LocOffsets) : bool :=
  negb (endLoc l =? INVALID_POS_LOC) && negb (beginLoc l =? INVALID_POS_LOC).

Definition offsets_length (l : LocOffsets) : Z := u32 (endLoc l - beginLoc l).

Definition offsets_empty (l : LocOffsets) : bool := beginLoc l =? endLoc l.

Definition offsets_copyWithZeroLength (l : LocOffsets) : LocOffsets :=
  mkLocOffsets (beginLoc l) (beginLoc l).

Definition offsets_copyEndWithZeroLength (l : LocOffsets) : LocOffsets :=
  mkLocOffsets (endLoc l) (endLoc l).

Definition offsets_join (l other : LocOffsets) : LocOffsets :=
  if negb (offsets_exists l) then other
  else if negb (offsets_exists other) then l
  else mkLocOffsets (Z.min (beginLoc l) (beginLoc other)) (Z.max (endLoc l) (endLoc other)).

Definition offsets_contains (l other : LocOffsets) : bool :=
  (beginLoc l <=? beginLoc other) && (endLoc other <=? endLoc l).

(** ** Locations *)

Record Loc := mkLoc { locFile : Z; locOffsets : LocOffsets }.

#[export] Instance Loc_eq_dec : EqDecision Loc.
Proof. solve_decision. Defined.

Definition noLoc (file : Z) : Loc := mkLoc file noOffsets.

Definition loc_exists (l : Loc) : bool := negb (locFile l =? 0) && offsets_exists (locOffsets l).

Definition beginPos (l : Loc) : Z := beginLoc (locOffsets l).

Definition endPos (l : Loc) : Z := endLoc (locOffsets l).

Definition copyWithZeroLength (l : Loc) : Loc :=
  mkLoc (locFile l) (offsets_copyWithZeroLength (locOffsets l)).

Definition copyEndWithZeroLength (l : Loc) : Loc :=
  mkLoc (locFile l) (offsets_copyEndWithZeroLength (locOffsets l)).

Definition loc_join (l other : Loc) : Loc :=
  if negb (loc_exists l) then other
  else if negb (loc_exists other) then l
  else mkLoc (locFile l)
         (mkLocOffsets (Z.min (beginPos l) (beginPos other)) (Z.max (endPos l) (endPos other))).

Definition loc_contains (l other : Loc) : bool :=
  (locFile l =? locFile other) && offsets_contains (locOffsets l) (locOffsets other).

(** ** Lines and columns, both 1-indexed *)

Record Detail := mkDetail { line : Z; column : Z }.

#[export] Instance Detail_eq_dec : EqDecision Detail.
Proof. solve_decision. Defined.

Definition pos2Detail (f : File) (off : Z) : option Detail :=
  '(lb, _) ← lineBreaks f;
  let it := lower_bound lb off in
  match it with
  | O => Some (mkDetail 1 (u32 (off + 1)))
  | S prev => b ← lb !! prev; Some (mkDetail (u32 (Z.of_nat it + 1)) (u32 (off - b)))
  end.

(** The inner option is the result [nullopt]; [lineLength] is a [size_t]. *)
Definition detail2Pos (f : File) (detail : Detail) : option (option Z) :=
  '(lb, _) ← lineBreaks f;
  let line1idx := line detail in
  if negb ((1 <=? line1idx) && (line1idx <=? Z.of_nat (length lb) + 1)) then Some None
  else
    let line0idx := line1idx - 1 in
    lineStart ← (if line0idx =? 0 then Some 0
                 else (fun b => u32 (b + 1)) <$> lb !! Z.to_nat (line0idx - 1));
    lineEnd ← (if line0idx <? Z.of_nat (length lb) then lb !! Z.to_nat line0idx
               else Some (Z.of_nat (length (source_ f))));
    let lineLength := u64 (lineEnd - lineStart) in
    let column1idx := column detail in
    if u64 (lineLength + 1) <? column1idx then Some None
    else
      let column0idx := u32 (column1idx - 1) in
      Some (Some (u32 (lineStart + column0idx))).

Definition fromDetails (f : File) (fileRef : Z) (b e : Detail) : option (option Loc) :=
  beginOff ← detail2Pos f b;
  match beginOff with
  | None => Some None
  | Some beginOff =>
      endOff ← detail2Pos f e;
      match endOff with
      | None => Some None
      | Some endOff => Some (Some (mkLoc fileRef (mkLocOffsets beginOff endOff)))
      end
  end.

Definition toDetails (f : File) (l : Loc) : option (Detail * Detail) :=
  b ← pos2Detail f (beginPos l); e ← pos2Detail f (endPos l); Some (b, e).

(** The text a location spans; [substr] throws when it starts past the end. *)
Definition loc_source (f : File) (l : Loc) : option (option str) :=
  if negb (loc_exists l) then Some None
  else if Z.of_nat (length (source_ f)) <? beginPos l then None
  else Some (Some (substr (source_ f) (Z.to_nat (beginPos l))
                     (Z.to_nat (offsets_length (locOffsets l))))).

(** Sums are computed at 64 bits; [end + endAdjust > fileLength] is an unsigned comparison. *)
Definition adjust (f : File) (l : Loc) (beginAdjust endAdjust : Z) : Loc :=
  if negb (loc_exists l) then noLoc (locFile l)
  else
    let b := beginPos l in
    let e := endPos l in
    let fileLength := Z.of_nat (length (source_ f)) in
    if b + beginAdjust <? 0 then noLoc (locFile l)
    else if e + endAdjust <? b + beginAdjust then noLoc (locFile l)
    else if fileLength <? u64 (e + endAdjust) then noLoc (locFile l)
    else mkLoc (locFile l) (mkLocOffsets (u32 (b + beginAdjust)) (u32 (e + endAdjust))).

Definition adjustLen (f : File) (l : Loc) (beginAdjust len : Z) : Loc :=
  if negb (loc_exists l) then noLoc (locFile l)
  else
    let b := beginPos l in
    let fileLength := Z.of_nat (length (source_ f)) in
    if b + beginAdjust <? 0 then noLoc (locFile l)
    else if fileLength <? u64 (b + beginAdjust + len) then noLoc (locFile l)
    else
      let newBegin := u32 (b + beginAdjust) in
      mkLoc (locFile l) (mkLocOffsets newBegin (u32 (newBegin + len))).

Definition not_blank (c : ascii) : bool := negb (char_eqb c " ") && negb (char_eqb c "009").

Definition findStartOfIndentation (f : File) (l : Loc) : option (Loc * Z) :=
  '(startDetail, _) ← toDetails f l;
  maybeLineStart ← detail2Pos f (mkDetail (line startDetail) 1);
  lineStart ← maybeLineStart;
  let lineView := drop (Z.to_nat lineStart) (source_ f) in
  let padding := match find_char not_blank lineView with
                 | None => 0
                 | Some padding => Z.of_nat padding
                 end in
  let startOffset := u32 (lineStart + padding) in
  Some (mkLoc (locFile l) (mkLocOffsets startOffset startOffset), u32 padding).

Definition truncateToFirstLine (f : File) (l : Loc) : option Loc :=
  '(beginDetail, endDetail) ← toDetails f l;
  if line beginDetail =? line endDetail then Some l
  else
    '(lb, _) ← lineBreaks f;
    firstNewline ← lb !! Z.to_nat (line beginDetail - 1);
    Some (mkLoc (locFile l) (mkLocOffsets (beginPos l) firstNewline)).

(** ** Serialization *)

Definition pickleLocOffsets (l : LocOffsets) (p : Pickler) : Pickler :=
  p |> putU4 (beginLoc l) |> putU4 (u32 (endLoc l - beginLoc l)).

Definition unpickleLocOffsets : unp LocOffsets :=
  beginLoc ← getU4;
  length ← getU4;
  mret (mkLocOffsets beginLoc (u32 (beginLoc + length))).

Definition pickleLoc (l : Loc) (p : Pickler) : Pickler :=
  p |> putU4 (locFile l) |> pickleLocOffsets (locOffsets l).

Definition unpickleLoc : unp Loc :=
  file ← getU4;
  offsets ← unpickleLocOffsets;
  mret (mkLoc file offsets).

(** ** Offsets and details *)

Lemma sorted_lookup_lt (l : list Z) i j x y :
  StronglySorted Z.lt l -> (i < j)%nat -> l !! i = Some x -> l !! j = Some y -> x < y.
Proof.
  intros Hs. revert i j. induction Hs as [| z l Hs IH Hall]; intros i j Hij; [done |].
  destruct j as [| j]; [lia |]. destruct i as [| i]; cbn; intros Hi Hj.
  - simplify_eq. eapply Forall_lookup_1 in Hall; [exact Hall | exact Hj].
  - eapply IH; [| exact Hi | exact Hj]. lia.
Qed.

(** The line that holds an offset of the file. *)
Lemma lower_bound_in s off :
  0 <= off <= Z.of_nat (length s) ->
  exists e, breaks 0 s !! lower_bound (breaks 0 s) off = Some e /\ off <= e.
Proof.
  intros Hoff. pose proof (breaks_last 0 s) as Hlast. rewrite last_lookup in Hlast.
  set (lb := breaks 0 s) in *.
  assert (Hlt : (lower_bound lb off < length lb)%nat).
  { apply Nat.nle_gt. intros Hge. pose proof (lookup_lt_Some _ _ _ Hlast).
    eapply (lower_bound_before lb off (pred (length lb))) in Hlast; lia. }
  destruct (lookup_lt_is_Some_2 _ _ Hlt) as [e He]. exists e. split; [done |].
  by eapply lower_bound_at.
Qed.

Lemma breaks_lookup_range s i b :
  breaks 0 s !! i = Some b -> 0 <= b <= Z.of_nat (length s) /\ (i <= length s)%nat.
Proof.
  intros H. split.
  - apply list_elem_of_lookup_2, breaks_range in H. lia.
  - apply lookup_lt_Some in H.
    assert (Hlen : forall off, (length (breaks off s) <= length s + 1)%nat).
    { clear. induction s as [| c s IH]; intros off; cbn; [lia |].
      destruct (is_newline c); cbn; specialize (IH (off + 1)); lia. }
    specialize (Hlen 0). lia.
Qed.

(** The start of line [k], given the end of the line before it. *)
Definition starts (lb : list Z) (k : nat) (st : Z) : Prop :=
  match k with O => st = 0 | S p => exists b, lb !! p = Some b /\ st = b + 1 end.

(** [detail2Pos] at an existing line. *)
Lemma detail2Pos_line f k c st e :
  File_wf f -> starts (breaks 0 (source_ f)) k st -> breaks 0 (source_ f) !! k = Some e ->
  1 <= c <= e - st + 1 -> detail2Pos f (mkDetail (Z.of_nat k + 1) c) = Some (Some (st + c - 1)).
Proof.
  intros Hwf Hst He Hc. destruct (lineBreaks_wf f Hwf) as (f' & Hb & _).
  destruct Hwf as [Hsz _ _]. unfold INVALID_POS_LOC in Hsz. set (lb := breaks 0 (source_ f)) in *.
  pose proof (lookup_lt_Some _ _ _ He) as Hk. pose proof (breaks_lookup_range _ _ _ He) as [Her _].
  unfold detail2Pos. rewrite Hb. cbn.
  rewrite (proj2 (Z.leb_le 1 _)), (proj2 (Z.leb_le _ (Z.of_nat (length lb) + 1))) by lia. cbn [andb negb].
  replace (Z.of_nat k + 1 - 1) with (Z.of_nat k) by lia.
  rewrite (proj2 (Z.ltb_lt _ _)) by lia. rewrite Nat2Z.id.
  assert (Hst' : (if Z.of_nat k =? 0 then Some 0
      else (fun b => u32 (b + 1)) <$> lb !! Z.to_nat (Z.of_nat k - 1)) = Some st /\ 0 <= st).
  { destruct k as [| p]; [cbn in Hst; by subst |]. destruct Hst as (b & Hlb & ->).
    rewrite (proj2 (Z.eqb_neq _ _)) by lia. replace (Z.to_nat (Z.of_nat (S p) - 1)) with p by lia.
    pose proof (breaks_lookup_range _ _ _ Hlb) as [Hbr _]. fold lb in Hlb. rewrite Hlb. cbn.
    rewrite u32_id by (unfold is_u32; lia). split; [done | lia]. }
  destruct Hst' as [-> Hst0]. cbn. rewrite He. cbn.
  rewrite !(u64_id (_ - _)), u64_id by (unfold is_u64; lia).
  rewrite (proj2 (Z.ltb_ge _ _)) by lia. rewrite !u32_id by (unfold is_u32; rewrite ?u32_id; unfold is_u32; lia).
  do 2 f_equal. lia.
Qed.

(** [pos2Detail] at an offset of line [k]. *)
Lemma pos2Detail_line f k off st e :
  File_wf f -> starts (breaks 0 (source_ f)) k st -> breaks 0 (source_ f) !! k = Some e ->
  st <= off <= e -> pos2Detail f off = Some (mkDetail (Z.of_nat k + 1) (off - st + 1)).
Proof.
  intros Hwf Hst He Hoff. destruct (lineBreaks_wf f Hwf) as (f' & Hb & _).
  destruct Hwf as [Hsz _ _]. unfold INVALID_POS_LOC in Hsz. set (lb := breaks 0 (source_ f)) in *.
  pose proof (breaks_sorted 0 (source_ f)) as Hsort. fold lb in Hsort.
  pose proof (breaks_lookup_range _ _ _ He) as [Her Hk].
  assert (Hlow : lower_bound lb off = k).
  { destruct (Nat.lt_trichotomy (lower_bound lb off) k) as [Hlt | [Heq | Hgt]]; [| done |].
    - exfalso. destruct k as [| p]; [lia |]. destruct Hst as (b & Hlb & ->).
      destruct (lookup_lt_is_Some_2 lb (lower_bound lb off)) as [x Hx].
      { apply lookup_lt_Some in He. lia. }
      pose proof (lower_bound_at _ _ _ Hx). destruct (decide (lower_bound lb off = p)) as [Ep | Ep].
      + rewrite Ep in Hx. simplify_eq. lia.
      + assert (x < b) by (eapply (sorted_lookup_lt lb _ p); [done | | done | done]; lia). lia.
    - pose proof (lower_bound_before _ _ _ _ Hgt He). lia. }
  unfold pos2Detail. rewrite Hb. cbn. fold lb. rewrite Hlow. destruct k as [| p].
  - cbn in Hst. subst st. rewrite u32_id by (unfold is_u32; lia). do 2 f_equal; lia.
  - destruct Hst as (b & Hlb & ->). pose proof (breaks_lookup_range _ _ _ Hlb) as [Hbr _].
    fold lb in Hlb. rewrite Hlb. cbn [mbind option_bind].
    rewrite !u32_id by (unfold is_u32; lia). do 2 f_equal; lia.
Qed.

(** Every offset of the file lies on a line. *)
Lemma offset_line s off :
  0 <= off <= Z.of_nat (length s) ->
  exists k st e, starts (breaks 0 s) k st /\ breaks 0 s !! k = Some e /\ st <= off <= e.
Proof.
  intros Hoff. destruct (lower_bound_in s off Hoff) as (e & He & Hle).
  set (k := lower_bound (breaks 0 s) off) in *. exists k.
  destruct k as [| p] eqn:Ek; [exists 0, e; split; [done | split; [done | lia]] |].
  destruct (lookup_lt_is_Some_2 (breaks 0 s) p) as [b Hb]; [apply lookup_lt_Some in He; lia |].
  exists (b + 1), e. split; [by exists b |]. split; [done |].
  assert (b < off); [| lia]. eapply lower_bound_before; [| exact Hb]. unfold k in Ek. lia.
Qed.

(** ** Serialization *)

Definition LocOffsets_ok (l : LocOffsets) : Prop := is_u32 (beginLoc l) /\ is_u32 (endLoc l).

Definition Loc_ok (l : Loc) : Prop := is_u32 (locFile l) /\ LocOffsets_ok (locOffsets l).

(** The end is written relative to the beginning modulo [2^32], so the pair of an absent location,
    or one whose end lies before its beginning, survives too. *)
#[export] Instance LocOffsets_rt : RoundTrips pickleLocOffsets unpickleLocOffsets LocOffsets_ok id.
Proof.
  intros [b e] w [Hb He]. unfold pickleLocOffsets, unpickleLocOffsets. cbn in *. pickle.
  replace (u32 (b + u32 (e - b))) with e; [apply decodes_ret |].
  unfold u32, is_u32 in *. rewrite Zplus_mod_idemp_r. replace (b + (e - b)) with e by lia.
  by rewrite Z.mod_small.
Qed.

Lemma decodes_LocOffsets l w :
  LocOffsets_ok l -> decodes unpickleLocOffsets w (pickleLocOffsets l w) l.
Proof. apply LocOffsets_rt. Qed.

#[export] Hint Resolve decodes_LocOffsets : pickle.

#[export] Instance Loc_rt : RoundTrips pickleLoc unpickleLoc Loc_ok id.
Proof. intros [f o] w [Hf Ho]. unfold pickleLoc, unpickleLoc. cbn in *. pickle. Qed.

Lemma decodes_Loc l w : Loc_ok l -> decodes unpickleLoc w (pickleLoc l w) l.
Proof. apply Loc_rt. Qed.

#[export] Hint Resolve decodes_Loc : pickle.

#[global] Arguments pickleLoc : simpl never.
#[global] Arguments pickleLocOffsets : simpl never.
#[global] Arguments unpickleLoc : simpl never.
#[global] Arguments unpickleLocOffsets : simpl never.

(** ** Joining *)

(** A location of a file: it does not exist, or its end does not lie before its beginning. *)
Definition offsets_wf (l : LocOffsets) : Prop :=
  l = noOffsets \/ (0 <= beginLoc l <= endLoc l /\ endLoc l < INVALID_POS_LOC).

Lemma offsets_exists_wf l :
  offsets_wf l -> offsets_exists l = true -> 0 <= beginLoc l <= endLoc l /\ endLoc l < INVALID_POS_LOC.
Proof. intros [-> | H]; [vm_compute; done | done]. Qed.

Lemma offsets_wf_exists b e : 0 <= b <= e -> e < INVALID_POS_LOC -> offsets_exists (mkLocOffsets b e) = true.
Proof.
  intros Hb He. unfold offsets_exists. cbn.
  by rewrite !(proj2 (Z.eqb_neq _ _)) by (unfold INVALID_POS_LOC in *; lia).
Qed.

(** ** Properties *)

(** Offsets and line/column pairs are two views of the positions of a file: every offset has a
    pair on an existing line, converting it back gives the offset, and every pair (with columns
    counted from one) that has an offset is the pair of that offset. *)
Theorem pos_detail_inverse f :
  File_wf f ->
  (forall off, 0 <= off <= Z.of_nat (length (source_ f)) ->
     exists d, pos2Detail f off = Some d /\ detail2Pos f d = Some (Some off) /\
       1 <= line d <= Z.of_nat (length (breaks 0 (source_ f))) /\ 1 <= column d) /\
  (forall k st e c, starts (breaks 0 (source_ f)) k st -> breaks 0 (source_ f) !! k = Some e ->
     1 <= c <= e - st + 1 ->
     exists off, detail2Pos f (mkDetail (Z.of_nat k + 1) c) = Some (Some off) /\
       pos2Detail f off = Some (mkDetail (Z.of_nat k + 1) c)).
Proof.
  intros Hwf. split.
  - intros off Hoff. destruct (offset_line _ _ Hoff) as (k & st & e & Hst & He & Hr).
    eexists. split; [by eapply pos2Detail_line |]. cbn. apply lookup_lt_Some in He as Hk.
    split; [| lia]. rewrite (detail2Pos_line f k _ st e) by (done || lia). do 2 f_equal. lia.
  - intros k st e c Hst He Hc. eexists. split; [eapply detail2Pos_line; eauto |].
    rewrite (pos2Detail_line f k _ st e) by (done || lia). do 2 f_equal. lia.
Qed.

Definition sampleFile : File :=
  mkFile 0 Normal (makeFlags s! "a.rb") s! "a.rb" (s! "ab" ++ newline :: s! "c") None Max NoneLevel
    NoneLevel None.

Lemma sampleFile_wf : File_wf sampleFile.
Proof. apply (makeFile_wf s! "a.rb" (s! "ab" ++ newline :: s! "c") Normal 0). reflexivity. Qed.

Lemma pos_detail_inverse_witness :
  (exists d, pos2Detail sampleFile 3 = Some d /\ detail2Pos sampleFile d = Some (Some 3) /\
     1 <= line d <= 2 /\ 1 <= column d) /\
  exists off, detail2Pos sampleFile (mkDetail 2 2) = Some (Some off) /\
    pos2Detail sampleFile off = Some (mkDetail 2 2).
Proof.
  split.
  - apply (proj1 (pos_detail_inverse sampleFile sampleFile_wf)). vm_compute. split; discriminate.
  - apply (proj2 (pos_detail_inverse sampleFile sampleFile_wf) 1%nat 3 4 2);
      [by exists 2 | reflexivity | lia].
Defined.

(** C38: [Loc::adjust] never wraps: for adjustments that fit an [int32_t] the result is the moved
    range when that range lies in the file, and the absent location otherwise. *)
Theorem adjust_exact f l ba ea :
  File_wf f -> loc_exists l = true -> offsets_wf (locOffsets l) ->
  - 2 ^ 31 <= ba < 2 ^ 31 -> - 2 ^ 31 <= ea < 2 ^ 31 ->
  adjust f l ba ea =
    if bool_decide (0 <= beginPos l + ba <= endPos l + ea /\
                    endPos l + ea <= Z.of_nat (length (source_ f)))
    then mkLoc (locFile l) (mkLocOffsets (beginPos l + ba) (endPos l + ea))
    else noLoc (locFile l).
Proof.
  intros [Hsz _ _] Hex Hwf Hba Hea. unfold adjust. rewrite Hex. cbn [negb].
  unfold loc_exists in Hex. apply andb_true_iff in Hex as [_ Hex].
  destruct (offsets_exists_wf _ Hwf Hex) as [Hb He]. unfold beginPos, endPos, INVALID_POS_LOC in *.
  set (b := beginLoc (locOffsets l)) in *. set (e := endLoc (locOffsets l)) in *.
  destruct (Z.ltb_spec (b + ba) 0); [by rewrite bool_decide_eq_false_2 by lia |].
  destruct (Z.ltb_spec (e + ea) (b + ba)); [by rewrite bool_decide_eq_false_2 by lia |].
  rewrite u64_id by (unfold is_u64; lia).
  destruct (Z.ltb_spec (Z.of_nat (length (source_ f))) (e + ea));
    [by rewrite bool_decide_eq_false_2 by lia |].
  rewrite bool_decide_eq_true_2 by lia. by rewrite !u32_id by (unfold is_u32; lia).
Qed.

Lemma adjust_exact_witness :
  adjust sampleFile (mkLoc 1 (mkLocOffsets 1 2)) (-1) 2 = mkLoc 1 (mkLocOffsets 0 4).
Proof.
  rewrite (adjust_exact sampleFile (mkLoc 1 (mkLocOffsets 1 2)) (-1) 2);
    [reflexivity | apply sampleFile_wf | reflexivity | | lia | lia].
  right. vm_compute. repeat split; discriminate.
Defined.

(** Joining two existing ranges gives the least range that contains both; an absent range is
    neutral. *)
Theorem offsets_join_least a b :
  offsets_wf a -> offsets_wf b ->
  offsets_join noOffsets a = a /\ offsets_join a noOffsets = a /\
  (offsets_exists a = true -> offsets_exists b = true ->
     offsets_exists (offsets_join a b) = true /\
     offsets_contains (offsets_join a b) a = true /\ offsets_contains (offsets_join a b) b = true /\
     forall c, offsets_contains c a = true -> offsets_contains c b = true ->
       offsets_contains c (offsets_join a b) = true).
Proof.
  intros Ha Hb. split; [done |]. split.
  { unfold offsets_join. destruct (offsets_exists a) eqn:E; cbn [negb]; [done |].
    destruct Ha as [-> | [Hr He]]; [done |]. destruct a as [x y]. by rewrite offsets_wf_exists in E. }
  intros Ea Eb. destruct (offsets_exists_wf _ Ha Ea), (offsets_exists_wf _ Hb Eb).
  unfold offsets_join. rewrite Ea, Eb. cbn [negb].
  split; [apply offsets_wf_exists; lia |]. unfold offsets_contains. cbn [beginLoc endLoc].
  rewrite !andb_true_iff, !Z.leb_le. split; [lia |]. split; [lia |]. intros c.
  rewrite !andb_true_iff, !Z.leb_le. lia.
Qed.

Lemma offsets_join_least_witness :
  offsets_contains (offsets_join (mkLocOffsets 3 5) (mkLocOffsets 8 9)) (mkLocOffsets 8 9) = true.
Proof.
  apply (offsets_join_least (mkLocOffsets 3 5) (mkLocOffsets 8 9)); [| | reflexivity | reflexivity];
    right; vm_compute; repeat split; discriminate.
Defined.

(** [Loc::truncateToFirstLine] keeps the beginning and stays within the location; the
    result lies on one line: no newline in it. *)
Theorem truncateToFirstLine_one_line f l :
  File_wf f -> 0 <= beginPos l <= endPos l -> endPos l <= Z.of_nat (length (source_ f)) ->
  exists l', truncateToFirstLine f l = Some l' /\ locFile l' = locFile l /\
    beginPos l' = beginPos l /\ beginPos l' <= endPos l' <= endPos l /\
    exists k st e, starts (breaks 0 (source_ f)) k st /\ breaks 0 (source_ f) !! k = Some e /\
      st <= beginPos l' /\ endPos l' <= e.
Proof.
  intros Hwf Hr Hlen. destruct (offset_line (source_ f) (beginPos l)) as (k & st & e & Hst & He & Hb); [lia |].
  destruct (offset_line (source_ f) (endPos l)) as (k' & st' & e' & Hst' & He' & Hb'); [lia |].
  unfold truncateToFirstLine, toDetails.
  rewrite (pos2Detail_line f k (beginPos l) st e), (pos2Detail_line f k' (endPos l) st' e') by done. cbn.
  destruct (Z.eqb_spec (Z.of_nat k + 1) (Z.of_nat k' + 1)) as [Ek | Ek].
  - assert (k = k') as <- by lia. simplify_eq. exists l. repeat split; try lia. exists k, st, e.
    repeat split; try done; lia.
  - destruct (lineBreaks_wf f Hwf) as (f' & Hlb & _). rewrite Hlb. cbn.
    replace (Z.to_nat (Z.of_nat k + 1 - 1)) with k by lia. rewrite He. cbn.
    pose proof (breaks_sorted 0 (source_ f)) as Hsort.
    assert (Hee : e <= endPos l).
    { destruct (Nat.lt_trichotomy k k') as [Hlt | [-> | Hgt]]; [| lia |].
      - destruct k' as [| p]; [lia |]. destruct Hst' as (b & Hpb & ->).
        destruct (decide (k = p)) as [-> | ?]; [simplify_eq; lia |].
        assert (e < b) by (eapply (sorted_lookup_lt _ k p); [done | lia | done | done]). lia.
      - destruct k as [| p]; [lia |]. destruct Hst as (b & Hpb & ->).
        destruct (decide (k' = p)) as [-> | ?]; [simplify_eq; lia |].
        assert (e' < b) by (eapply (sorted_lookup_lt _ k' p); [done | lia | done | done]). lia. }
    eexists. split; [done |]. unfold beginPos, endPos in *. cbn. repeat split; try lia.
    exists k, st, e. repeat split; try done; lia.
Qed.

Lemma truncateToFirstLine_one_line_witness :
  exists l', truncateToFirstLine sampleFile (mkLoc 1 (mkLocOffsets 1 4)) = Some l' /\
    beginPos l' = 1 /\ endPos l' <= 4.
Proof.
  destruct (truncateToFirstLine_one_line sampleFile (mkLoc 1 (mkLocOffsets 1 4)))
    as (l' & H & _ & Hb & He & _); [apply sampleFile_wf | | |];
    [vm_compute; split; discriminate | vm_compute; discriminate |].
  exists l'. split; [exact H | split; [exact Hb | apply He]].
Defined.
