(* ===== verification/Types.v ===== *)
(** * Types and their serialization

    Models the representation of types (src/core/TypePtr.h, src/core/Types.h) and
    [SerializerImpl::pickle(Pickler &, const TypePtr &)] and [SerializerImpl::unpickleType] of
    src/core/serialize/serialize.cc. References to symbols and names are the [uint32_t] they hold; a
    float literal is the bit pattern [absl::bit_cast<int64_t>] gives. The arguments of a C++ call
    are evaluated from left to right, as the compiler the project is built with does. *)

From S2P Require Import Prelude Pickler FileHash Files Locs.

#[local] Set Warnings "-register-all".
#[local] Open Scope Z_scope.
#[local] Open Scope pickle_scope.

(** ** Data *)

Inductive LiteralKind := LitString | LitSymbol.

#[export] Instance LiteralKind_eq_dec : EqDecision LiteralKind.
Proof. solve_decision. Defined.

(** [NullType] is the null [TypePtr]. *)
Inductive TypePtr :=
| NullType
| ClassType (symbol : Z)
| BlamedUntyped (blame : Z)
| UnresolvedClassType (scope : Z) (names : list Z)
| UnresolvedAppliedType (klass : Z) (targs : list TypePtr)
| LambdaParam (definition : Z) (lowerBound upperBound : TypePtr)
| SelfTypeParam (definition : Z)
| AliasType (symbol : Z)
| SelfType
| IntegerLiteralType (value : Z)
| FloatLiteralType (bits : Z)
| NamedLiteralType (kind : LiteralKind) (name : Z)
| TypeVar (sym : Z)
| OrType (l r : TypePtr)
| AndType (l r : TypePtr)
| ShapeType (keys values : list TypePtr)
| TupleType (elems : list TypePtr)
| AppliedType (klass : Z) (targs : list TypePtr)
| MetaType (wrapped : TypePtr).

(** [TypePtr::Tag]; the null pointer has no tag and is written as 0. *)
Definition type_tag (t : TypePtr) : Z :=
  match t with
  | NullType => 0
  | ClassType _ => 1
  | BlamedUntyped _ => 2
  | UnresolvedClassType _ _ => 3
  | UnresolvedAppliedType _ _ => 4
  | LambdaParam _ _ _ => 5
  | SelfTypeParam _ => 6
  | AliasType _ => 7
  | SelfType => 8
  | IntegerLiteralType _ => 9
  | FloatLiteralType _ => 10
  | NamedLiteralType _ _ => 11
  | TypeVar _ => 12
  | OrType _ _ => 13
  | AndType _ _ => 14
  | ShapeType _ _ => 15
  | TupleType _ => 16
  | AppliedType _ _ => 17
  | MetaType _ => 18
  end.

Definition noSymbol : Z := 0.

(** [TypePtr::untypedBlame] *)
Definition untypedBlame (t : TypePtr) : Z :=
  match t with BlamedUntyped blame => blame | _ => noSymbol end.

Definition u1_of_LiteralKind (k : LiteralKind) : Z :=
  match k with LitString => 0 | LitSymbol => 1 end.

(** ** Writing *)

Fixpoint pickleType (t : TypePtr) : wput :=
  match t with
  | NullType => lift (putU4 0)
  | _ =>
      lift (putU4 (type_tag t)) ;;>
      match t with
      | NullType => skip
      | UnresolvedAppliedType _ _ | UnresolvedClassType _ _ | BlamedUntyped _ =>
          lift (putU4 (untypedBlame t))
      | ClassType symbol => lift (putU4 symbol)
      | OrType l r => pickleType l ;;> pickleType r
      | NamedLiteralType kind name =>
          lift (putU1 (u1_of_LiteralKind kind)) ;;> lift (putU4 name)
      | IntegerLiteralType value => lift (putS8 value)
      | FloatLiteralType bits => lift (putS8 bits)
      | AndType l r => pickleType l ;;> pickleType r
      | TupleType elems => putVecW pickleType elems
      | ShapeType keys values =>
          putVecW pickleType keys ;;> putEach pickleType values
      | AliasType symbol => lift (putU4 symbol)
      | LambdaParam definition lowerBound upperBound =>
          pickleType lowerBound ;;> pickleType upperBound ;;> lift (putU4 definition)
      | AppliedType klass targs => lift (putU4 klass) ;;> putVecW pickleType targs
      | TypeVar sym => lift (putU4 sym)
      | SelfType => skip
      | MetaType _ | SelfTypeParam _ => raise
      end
  end.

(** ** Reading *)

Fixpoint unpickleType (fuel : nat) : unp TypePtr :=
  match fuel with
  | O => unp_fail
  | S fuel =>
      tag ← getU4;
      match tag with
      | 0 => mret NullType
      | 2 => blame ← getU4; mret (BlamedUntyped blame)
      | 1 | 3 | 4 => symbol ← getU4; mret (ClassType symbol)
      | 13 => l ← unpickleType fuel; r ← unpickleType fuel; mret (OrType l r)
      | 11 =>
          kind ← getU1;
          name ← getU4;
          match kind with
          | 0 => mret (NamedLiteralType LitString name)
          | 1 => mret (NamedLiteralType LitSymbol name)
          | _ => unp_fail
          end
      | 9 => value ← getS8; mret (IntegerLiteralType value)
      | 10 => bits ← getS8; mret (FloatLiteralType bits)
      | 14 => l ← unpickleType fuel; r ← unpickleType fuel; mret (AndType l r)
      | 16 => elems ← getVec (unpickleType fuel); mret (TupleType elems)
      | 15 =>
          sz ← getU4;
          let sz := i32 sz in
          if sz <? 0 then unp_fail
          else
            keys ← getN (unpickleType fuel) (Z.to_nat sz);
            values ← getN (unpickleType fuel) (Z.to_nat sz);
            mret (ShapeType keys values)
      | 7 => symbol ← getU4; mret (AliasType symbol)
      | 5 =>
          lower ← unpickleType fuel;
          upper ← unpickleType fuel;
          definition ← getU4;
          mret (LambdaParam definition lower upper)
      | 17 =>
          klass ← getU4;
          targs ← getVec (unpickleType fuel);
          mret (AppliedType klass targs)
      | 12 => sym ← getU4; mret (TypeVar sym)
      | 8 => mret SelfType
      | _ => unp_fail
      end
  end.

(** ** Induction over types *)

Section TypePtrInd.
Variable P : TypePtr -> Prop.
Hypothesis HNull : P NullType.
Hypothesis HClass : forall s, P (ClassType s).
Hypothesis HBlamed : forall s, P (BlamedUntyped s).
Hypothesis HUnresolvedClass : forall s ns, P (UnresolvedClassType s ns).
Hypothesis HUnresolvedApplied : forall k ts, Forall P ts -> P (UnresolvedAppliedType k ts).
Hypothesis HLambda : forall d l u, P l -> P u -> P (LambdaParam d l u).
Hypothesis HSelfTypeParam : forall d, P (SelfTypeParam d).
Hypothesis HAlias : forall s, P (AliasType s).
Hypothesis HSelf : P SelfType.
Hypothesis HInteger : forall v, P (IntegerLiteralType v).
Hypothesis HFloat : forall v, P (FloatLiteralType v).
Hypothesis HNamed : forall k n, P (NamedLiteralType k n).
Hypothesis HTypeVar : forall s, P (TypeVar s).
Hypothesis HOr : forall l r, P l -> P r -> P (OrType l r).
Hypothesis HAnd : forall l r, P l -> P r -> P (AndType l r).
Hypothesis HShape : forall ks vs, Forall P ks -> Forall P vs -> P (ShapeType ks vs).
Hypothesis HTuple : forall es, Forall P es -> P (TupleType es).
Hypothesis HApplied : forall k ts, Forall P ts -> P (AppliedType k ts).
Hypothesis HMeta : forall t, P t -> P (MetaType t).

Fixpoint TypePtr_nested_ind (t : TypePtr) : P t :=
  let go := fix go (l : list TypePtr) : Forall P l :=
    match l with
    | [] => Forall_nil_2 P
    | t :: l => Forall_cons_2 P t l (TypePtr_nested_ind t) (go l)
    end in
  match t with
  | NullType => HNull
  | ClassType s => HClass s
  | BlamedUntyped s => HBlamed s
  | UnresolvedClassType s ns => HUnresolvedClass s ns
  | UnresolvedAppliedType k ts => HUnresolvedApplied k ts (go ts)
  | LambdaParam d l u => HLambda d l u (TypePtr_nested_ind l) (TypePtr_nested_ind u)
  | SelfTypeParam d => HSelfTypeParam d
  | AliasType s => HAlias s
  | SelfType => HSelf
  | IntegerLiteralType v => HInteger v
  | FloatLiteralType v => HFloat v
  | NamedLiteralType k n => HNamed k n
  | TypeVar s => HTypeVar s
  | OrType l r => HOr l r (TypePtr_nested_ind l) (TypePtr_nested_ind r)
  | AndType l r => HAnd l r (TypePtr_nested_ind l) (TypePtr_nested_ind r)
  | ShapeType ks vs => HShape ks vs (go ks) (go vs)
  | TupleType es => HTuple es (go es)
  | AppliedType k ts => HApplied k ts (go ts)
  | MetaType t => HMeta t (TypePtr_nested_ind t)
  end.
End TypePtrInd.

(** ** What survives *)

(** The ranges of the fields, and that every type in it can be persisted (inference-only types
    raise). *)
Fixpoint type_ok (t : TypePtr) : Prop :=
  match t with
  | NullType | SelfType | UnresolvedClassType _ _ | UnresolvedAppliedType _ _ => True
  | ClassType s | BlamedUntyped s | AliasType s | TypeVar s | NamedLiteralType _ s => is_u32 s
  | LambdaParam d l u => is_u32 d /\ type_ok l /\ type_ok u
  | IntegerLiteralType v | FloatLiteralType v => is_i64 v
  | OrType l r | AndType l r => type_ok l /\ type_ok r
  | ShapeType ks vs =>
      is_size (length ks) /\ length ks = length vs /\ foldr (fun t => and (type_ok t)) True ks /\
      foldr (fun t => and (type_ok t)) True vs
  | TupleType es => is_size (length es) /\ foldr (fun t => and (type_ok t)) True es
  | AppliedType k ts =>
      is_u32 k /\ is_size (length ts) /\ foldr (fun t => and (type_ok t)) True ts
  | MetaType _ | SelfTypeParam _ => False
  end.

(** What is read back: an unresolved type loses its scope and names, and its class. *)
Fixpoint reloadType (t : TypePtr) : TypePtr :=
  match t with
  | UnresolvedClassType _ _ | UnresolvedAppliedType _ _ => ClassType noSymbol
  | LambdaParam d l u => LambdaParam d (reloadType l) (reloadType u)
  | OrType l r => OrType (reloadType l) (reloadType r)
  | AndType l r => AndType (reloadType l) (reloadType r)
  | ShapeType ks vs => ShapeType (reloadType <$> ks) (reloadType <$> vs)
  | TupleType es => TupleType (reloadType <$> es)
  | AppliedType k ts => AppliedType k (reloadType <$> ts)
  | t => t
  end.

Fixpoint type_resolved (t : TypePtr) : bool :=
  match t with
  | UnresolvedClassType _ _ | UnresolvedAppliedType _ _ => false
  | LambdaParam _ l u => type_resolved l && type_resolved u
  | OrType l r | AndType l r => type_resolved l && type_resolved r
  | ShapeType ks vs => forallb type_resolved ks && forallb type_resolved vs
  | TupleType es => forallb type_resolved es
  | AppliedType _ ts => forallb type_resolved ts
  | _ => true
  end.

(** The nesting depth: how often [unpickleType] calls itself. *)
Definition max_list (l : list nat) : nat := foldr Nat.max O l.

Fixpoint type_depth (t : TypePtr) : nat :=
  match t with
  | LambdaParam _ l u => S (Nat.max (type_depth l) (type_depth u))
  | OrType l r | AndType l r => S (Nat.max (type_depth l) (type_depth r))
  | ShapeType ks vs => S (Nat.max (max_list (type_depth <$> ks)) (max_list (type_depth <$> vs)))
  | TupleType es => S (max_list (type_depth <$> es))
  | AppliedType _ ts => S (max_list (type_depth <$> ts))
  | _ => 1%nat
  end.

(** ** Round trip *)

Lemma all_Forall {A} (P : A -> Prop) l : foldr (fun a => and (P a)) True l -> Forall P l.
Proof. induction l; cbn; [constructor |]. intros [? ?]. constructor; auto. Qed.

Lemma max_list_le l n x : x ∈ l -> (max_list l <= n)%nat -> (x <= n)%nat.
Proof.
  unfold max_list. induction l as [| y l IH]; cbn; [by intros ?%not_elem_of_nil |].
  intros [-> | H]%elem_of_cons Hle; [lia |]. apply IH; [done | lia].
Qed.

(** The elements of a vector whose depths are below the bound of the vector. *)
Lemma max_list_Forall {A} (f : A -> nat) l n :
  (max_list (f <$> l) <= n)%nat -> Forall (fun a => (f a <= n)%nat) l.
Proof.
  intros H. apply Forall_forall. intros a Ha. eapply max_list_le; [| exact H].
  by apply list_elem_of_fmap_2.
Qed.

Lemma Forall_emits {A B} (P : A -> Prop) (put : A -> wput) (get : unp B) f (l : list A) :
  Forall (fun a => P a -> emits (put a) get (f a)) l -> Forall P l ->
  Forall (fun a => emits (put a) get (f a)) l.
Proof. rewrite !Forall_forall. auto. Qed.

(** What the recursion gives for a list of types. *)
Lemma Forall_types n ts :
  Forall (fun t => forall n, type_ok t -> (type_depth t <= n)%nat ->
            emits (pickleType t) (unpickleType n) (reloadType t)) ts ->
  Forall type_ok ts -> (max_list (type_depth <$> ts) <= n)%nat ->
  Forall (fun t => emits (pickleType t) (unpickleType n) (reloadType t)) ts.
Proof.
  intros IH Hok Hd%max_list_Forall. rewrite !Forall_forall in *. auto.
Qed.

Lemma u32_tag t : is_u32 (type_tag t).
Proof. destruct t; unfold is_u32; cbn; lia. Qed.

#[export] Hint Resolve u32_tag : words.

Lemma is_u32_0 : is_u32 0.
Proof. unfold is_u32. lia. Qed.

#[export] Hint Resolve is_u32_0 : words.

(** The tag read back selects the case. *)
Ltac type_case :=
  eapply emits_bind; [apply emits_lift; intros; apply decodes_putU4, (u32_tag _) |];
  cbn [type_tag untypedBlame]; cbv beta iota.

Lemma emits_shape_body ks vs n :
  is_size (length ks) -> length ks = length vs ->
  Forall (fun t => emits (pickleType t) (unpickleType n) (reloadType t)) ks ->
  Forall (fun t => emits (pickleType t) (unpickleType n) (reloadType t)) vs ->
  emits (putVecW pickleType ks ;;> putEach pickleType vs)
    (sz ← getU4;
     let sz := i32 sz in
     if sz <? 0 then unp_fail
     else
       keys ← getN (unpickleType n) (Z.to_nat sz);
       values ← getN (unpickleType n) (Z.to_nat sz);
       mret (ShapeType keys values))
    (ShapeType (reloadType <$> ks) (reloadType <$> vs)).
Proof.
  intros Hs Hlen Hks Hvs w. set (g := _ ≫= _).
  assert (H : emits (lift (putU4 (Z.of_nat (length ks))) ;;>
                putEach pickleType ks ;;> putEach pickleType vs) g
              (ShapeType (reloadType <$> ks) (reloadType <$> vs))).
  { eapply emits_bind; [apply emits_lift; intros; by apply decodes_putU4, is_size_u32 |].
    cbv zeta. rewrite i32_size by done. rewrite (proj2 (Z.ltb_ge _ _)) by lia. rewrite Nat2Z.id.
    eapply emits_bind; [by apply emits_each |]. rewrite Hlen.
    eapply emits_last; [by apply emits_each | done]. }
  destruct (H w) as (w' & E & D). exists w'. split; [| done].
  unfold putVecW, andThen, lift in *. cbn in *. exact E.
Qed.

Lemma type_emits t : forall n, type_ok t -> (type_depth t <= n)%nat ->
  emits (pickleType t) (unpickleType n) (reloadType t).
Proof.
  induction t using TypePtr_nested_ind; intros fuel Hok Hd;
    (destruct fuel as [| fuel]; [cbn in Hd; lia |]); cbn [unpickleType pickleType]; cbn [type_ok] in Hok;
    cbn [type_depth] in Hd; try contradiction;
    try (type_case; cbn [reloadType]; by emit).
  - eapply emits_last; [apply emits_lift; intros; apply decodes_putU4, is_u32_0 | done].
  - destruct Hok as (? & ? & ?). type_case. cbn [reloadType].
    eapply emits_bind; [apply IHt1; [done | lia] |]. eapply emits_bind; [apply IHt2; [done | lia] |].
    by emit.
  - type_case. destruct k; cbn [reloadType u1_of_LiteralKind]; by emit.
  - destruct Hok as (? & ?). type_case. cbn [reloadType].
    eapply emits_bind; [apply IHt1; [done | lia] |]. eapply emits_last; [apply IHt2; [done | lia] | done].
  - destruct Hok as (? & ?). type_case. cbn [reloadType].
    eapply emits_bind; [apply IHt1; [done | lia] |]. eapply emits_last; [apply IHt2; [done | lia] | done].
  - destruct Hok as (? & ? & Hk%all_Forall & Hv%all_Forall). type_case. cbn [reloadType].
    apply emits_shape_body; [done | done | |]; apply Forall_types; (done || lia).
  - destruct Hok as (? & He%all_Forall). type_case. cbn [reloadType].
    eapply emits_last; [apply (emits_vec _ _ reloadType); [done |]; apply Forall_types; (done || lia) | done].
  - destruct Hok as (? & ? & He%all_Forall). type_case. cbn [reloadType].
    eapply emits_bind; [eauto with pickle words |].
    eapply emits_last; [apply (emits_vec _ _ reloadType); [done |]; apply Forall_types; (done || lia) | done].
Qed.

(** *** The fuel is enough

    A type other than the null type starts with a non-zero tag, so each level of nesting takes at
    least one byte of the buffer. *)

Lemma type_grows t : grows (pickleType t).
Proof.
  induction t using TypePtr_nested_ind; cbn [pickleType]; eauto 8 with pickle.
Qed.

(** [put] adds at least [n] bytes whenever it succeeds. *)
Definition adds (n : nat) (put : wput) : Prop :=
  forall w w', put w = Some w' -> (length (pdata w) + n <= length (pdata w'))%nat.

Lemma adds_andThen_l n f g : adds n f -> grows g -> adds n (f ;;> g).
Proof.
  intros Hf Hg w w'. unfold andThen. destruct (f w) as [w1 |] eqn:E; cbn; [| done].
  intros H. apply Hf in E. apply Hg in H. lia.
Qed.

Lemma adds_andThen_r n f g : grows f -> adds n g -> adds n (f ;;> g).
Proof.
  intros Hf Hg w w'. unfold andThen. destruct (f w) as [w1 |] eqn:E; cbn; [| done].
  intros H. apply Hf in E. apply Hg in H. lia.
Qed.

Lemma adds_max n m put : adds n put -> adds m put -> adds (Nat.max n m) put.
Proof. intros Hn Hm w w' E. specialize (Hn w w' E). specialize (Hm w w' E). lia. Qed.

(** A non-zero number in front takes a byte of its own. *)
Lemma adds_nonzero n u put :
  is_u32 u -> u <> 0 -> adds n put -> adds (S n) (lift (putU4 u) ;;> put).
Proof.
  intros Hu Hne Hp w w'. unfold andThen, lift. cbn. intros H. apply Hp in H.
  pose proof (putU4_nonzero_grows u w Hu Hne). lia.
Qed.

Lemma adds_tag n t put :
  type_tag t <> 0 -> adds n put -> adds (S n) (lift (putU4 (type_tag t)) ;;> put).
Proof. apply adds_nonzero, u32_tag. Qed.

Lemma adds_0 put : grows put -> adds 0 put.
Proof. intros H w w' E. apply H in E. lia. Qed.

Lemma adds_each {A} (put : A -> wput) (f : A -> nat) l :
  Forall (fun a => adds (f a) (put a)) l -> Forall (fun a => grows (put a)) l ->
  adds (max_list (f <$> l)) (putEach put l).
Proof.
  intros H. induction H as [| a l Ha _ IH]; intros Hg; cbn; [by apply adds_0, grows_skip |].
  inversion Hg; subst. apply adds_max.
  - apply adds_andThen_l; [done | by apply grows_each].
  - apply adds_andThen_r; [done | by apply IH].
Qed.

Lemma adds_types ts :
  Forall (fun t => adds (type_depth t - 1) (pickleType t)) ts ->
  adds (max_list ((fun t => type_depth t - 1)%nat <$> ts)) (putEach pickleType ts).
Proof.
  intros H. apply adds_each; [done |]. apply Forall_true. apply type_grows.
Qed.

Lemma max_list_pred {A} (f : A -> nat) l :
  (max_list (f <$> l) - 1 <= max_list ((fun a => f a - 1)%nat <$> l))%nat.
Proof. unfold max_list. induction l as [| a l IH]; cbn in *; lia. Qed.

Lemma adds_le n m put : (n <= m)%nat -> adds m put -> adds n put.
Proof. intros Hle H w w' E. apply H in E. lia. Qed.

Lemma type_adds t : adds (type_depth t - 1) (pickleType t).
Proof.
  induction t using TypePtr_nested_ind; cbn [type_depth];
    try (apply adds_0, type_grows); cbn [pickleType].
  - rewrite Nat.sub_succ, Nat.sub_0_r.
    eapply adds_le; [| apply (adds_tag (Nat.max (type_depth t1 - 1) (type_depth t2 - 1)));
      [done |]]; [lia |].
    apply adds_max; [apply adds_andThen_l | apply adds_andThen_r; [| apply adds_andThen_l]];
      eauto using type_grows with pickle.
  - rewrite Nat.sub_succ, Nat.sub_0_r.
    eapply adds_le; [| apply (adds_tag (Nat.max (type_depth t1 - 1) (type_depth t2 - 1)));
      [done |]]; [lia |].
    apply adds_max; [apply adds_andThen_l | apply adds_andThen_r]; eauto using type_grows with pickle.
  - rewrite Nat.sub_succ, Nat.sub_0_r.
    eapply adds_le; [| apply (adds_tag (Nat.max (type_depth t1 - 1) (type_depth t2 - 1)));
      [done |]]; [lia |].
    apply adds_max; [apply adds_andThen_l | apply adds_andThen_r]; eauto using type_grows with pickle.
  - rewrite Nat.sub_succ, Nat.sub_0_r. pose proof (max_list_pred type_depth ks).
    pose proof (max_list_pred type_depth vs).
    eapply adds_le; [| eapply adds_tag; [done |]; apply adds_max;
      [apply adds_andThen_l; [apply adds_andThen_r; [apply grows_putU4 | by apply adds_types] |]
      | apply adds_andThen_r; [| by apply adds_types]]]; [lia | |];
      [apply grows_each | apply grows_vec]; apply Forall_true; apply type_grows.
  - rewrite Nat.sub_succ, Nat.sub_0_r. pose proof (max_list_pred type_depth es).
    eapply adds_le; [| eapply adds_tag; [done |]; apply adds_andThen_r;
      [apply grows_putU4 | by apply adds_types]]. lia.
  - rewrite Nat.sub_succ, Nat.sub_0_r. pose proof (max_list_pred type_depth ts).
    eapply adds_le; [| eapply adds_tag; [done |]; apply adds_andThen_r; [apply grows_putU4 |];
      apply adds_andThen_r; [apply grows_putU4 | by apply adds_types]]. lia.
Qed.

(** [unpickleType] as the other components call it. *)
Definition unpickleTypePtr : unp TypePtr := fuelled unpickleType.

Lemma emits_type t : type_ok t -> emits (pickleType t) unpickleTypePtr (reloadType t).
Proof.
  intros Hok w. destruct (type_emits t (type_depth t) Hok (le_n _) w) as (w' & E & D).
  exists w'. split; [done |]. apply (decodes_fuelled unpickleType (type_depth t)).
  - intros n Hn. destruct (type_emits t n Hok Hn w) as (w'' & E' & D'). by simplify_eq.
  - apply type_adds in E. lia.
Qed.

#[export] Hint Resolve emits_type : pickle.

(** A resolved type is read back unchanged. *)
Lemma reloadType_resolved t : type_resolved t = true -> reloadType t = t.
Proof.
  assert (Hmap : forall ts, Forall (fun t => type_resolved t = true -> reloadType t = t) ts ->
            forallb type_resolved ts = true -> reloadType <$> ts = ts).
  { induction 1 as [| t' ts Ht _ IH]; cbn; [done |]. intros [H1 H2]%andb_true_iff.
    by rewrite Ht, IH. }
  induction t using TypePtr_nested_ind; cbn; try done;
    try (intros [H1 H2]%andb_true_iff); intros; f_equal; auto.
Qed.

(** ** Properties *)

(** Pickling any persistable type from any state of the pickler raises no exception, and
    [unpickleType], whose recursion the size of the buffer bounds, reads back the same type; only
    unresolved types are changed. *)
Theorem type_roundtrip t w :
  type_ok t ->
  exists w', pickleType t w = Some w' /\ decodes unpickleTypePtr w w' (reloadType t) /\
    (type_resolved t = true -> reloadType t = t).
Proof.
  intros Hok. destruct (emits_type t Hok w) as (w' & E & D).
  exists w'. split; [done |]. split; [done |]. apply reloadType_resolved.
Qed.

Lemma type_roundtrip_witness :
  exists w', pickleType (OrType (TupleType [ClassType 7; IntegerLiteralType (-3)])
                 (AppliedType 11 [NullType; NamedLiteralType LitSymbol 14])) emptyPickler = Some w' /\
    decodes unpickleTypePtr emptyPickler w'
      (OrType (TupleType [ClassType 7; IntegerLiteralType (-3)])
         (AppliedType 11 [NullType; NamedLiteralType LitSymbol 14])).
Proof.
  destruct (type_roundtrip (OrType (TupleType [ClassType 7; IntegerLiteralType (-3)])
    (AppliedType 11 [NullType; NamedLiteralType LitSymbol 14])) emptyPickler) as (w' & E & D & _).
  - repeat split; vm_compute; try discriminate; reflexivity.
  - by exists w'.
Defined.

(** The class [T.untyped] of an unresolved type. *)
Definition untypedClass : Z := 16.

(** The serializer does not preserve unresolved types. They are class types over [T.untyped];
    what [pickle] stores is the (absent) blame, and [unpickleType] reads it as a class, so they come
    back as a class type over no class at all. *)
Theorem unresolved_type_reload scope names w :
  exists w', pickleType (UnresolvedClassType scope names) w = Some w' /\
    decodes unpickleTypePtr w w' (ClassType noSymbol) /\
    ClassType noSymbol <> ClassType untypedClass.
Proof.
  destruct (emits_type (UnresolvedClassType scope names) I w) as (w' & E & D). by exists w'.
Qed.
