(* ===== verification/NameTable.v ===== *)
(** * The name table

    Models the interning of names: [NameHash] of src/core/GlobalState.h and the functions
    [enterNameUTF8], [enterNameConstant], [freshNameUnique], their lookups and the growth of the
    table in src/core/GlobalState.cc; [NameRef] of src/core/NameRef.h; [nextPowerOfTwo] of
    src/common/common.cc. The table is an open-addressing hash table with triangular probing, whose
    buckets refer to three vectors of names. A [NameRef] is the raw [uint32_t] it holds.

    The string hash (XXH32) is a parameter, and a [None] stands for a raised exception or for a loop
    that has not finished within its fuel. *)

From Stdlib Require Import Znumtheory.
From S2P Require Import Prelude Pickler FileHash.

#[local] Open Scope Z_scope.
#[local] Open Scope pickle_scope.

(** ** Name references *)

Inductive NameKind := UTF8 | UNIQUE | CONSTANT.

#[export] Instance NameKind_eq_dec : EqDecision NameKind.
Proof. solve_decision. Defined.

Definition kind_bits (k : NameKind) : Z := match k with UTF8 => 1 | UNIQUE => 2 | CONSTANT => 3 end.

Definition KIND_BITS : Z := 2.

Definition KIND_MASK : Z := 3.

(** [NameRef(gs, kind, id)] *)
Definition makeNameRef (k : NameKind) (id : Z) : Z := Z.lor (u32 (Z.shiftl id KIND_BITS)) (kind_bits k).

(** [NameRef::kind]; a reference without a kind does not exist. *)
Definition nameKind (raw : Z) : option NameKind :=
  match Z.land raw KIND_MASK with
  | 1 => Some UTF8
  | 2 => Some UNIQUE
  | 3 => Some CONSTANT
  | _ => None
  end.

Definition unsafeTableIndex (raw : Z) : Z := Z.shiftr raw KIND_BITS.

Definition noName : Z := 0.

Inductive UniqueNameKind :=
| Desugar | Namer | MangleRename | Singleton | Overload | TypeVarName | PositionalArg
| MangledKeywordArg | ResolverMissingClass | TEnum | StructName | Packager | DesugarCsend.

#[export] Instance UniqueNameKind_eq_dec : EqDecision UniqueNameKind.
Proof. solve_decision. Defined.

Definition u1_of_unk (k : UniqueNameKind) : Z :=
  match k with
  | Desugar => 0 | Namer => 1 | MangleRename => 2 | Singleton => 3 | Overload => 4
  | TypeVarName => 5 | PositionalArg => 6 | MangledKeywordArg => 7 | ResolverMissingClass => 8
  | TEnum => 9 | StructName => 10 | Packager => 11 | DesugarCsend => 12
  end.

Definition unk_of_u1 (z : Z) : option UniqueNameKind :=
  match z with
  | 0 => Some Desugar | 1 => Some Namer | 2 => Some MangleRename | 3 => Some Singleton
  | 4 => Some Overload | 5 => Some TypeVarName | 6 => Some PositionalArg
  | 7 => Some MangledKeywordArg | 8 => Some ResolverMissingClass | 9 => Some TEnum
  | 10 => Some StructName | 11 => Some Packager | 12 => Some DesugarCsend
  | _ => None
  end.

Record UniqueName := mkUniqueName { un_original : Z; un_num : Z; un_kind : UniqueNameKind }.

#[export] Instance UniqueName_eq_dec : EqDecision UniqueName.
Proof. solve_decision. Defined.

(** ** Hashes *)

Definition HASH_MULT2 : Z := 31.

Definition mix (acc nw : Z) : Z :=
  u32 (nw + u32 (Z.shiftl acc 6) + u32 (Z.shiftl acc 16) - acc).

Definition hashMixUnique (unk : UniqueNameKind) (num rawId : Z) : Z :=
  u32 (mix (mix num (u1_of_unk unk)) rawId * HASH_MULT2 + kind_bits UNIQUE).

Definition hashMixConstant (id : Z) : Z := u32 (id * HASH_MULT2 + kind_bits CONSTANT).

(** [nextPowerOfTwo] *)
Definition smear (n v : Z) : Z := Z.lor v (Z.shiftr v n).

Definition nextPowerOfTwo (v : Z) : Z :=
  if v =? 0 then 1
  else u32 (smear 16 (smear 8 (smear 4 (smear 2 (smear 1 (v - 1))))) + 1).

(** ** The hash table *)

Record Bucket := mkBucket { bhash : Z; brawId : Z }.

#[export] Instance Bucket_eq_dec : EqDecision Bucket.
Proof. solve_decision. Defined.

Definition emptyBucket : Bucket := mkBucket 0 0.

Definition present (b : Bucket) : bool := negb (brawId b =? 0).

(** The loop of [lookupBucket]: the bucket it stops at and the probe count. *)
Fixpoint lookupBucket_loop (fuel : nat) (buckets : list Bucket) (hash : Z) (pred : Z -> bool)
    (bucketId probeCount : Z) : option (Z * Z) :=
  match fuel with
  | O => None
  | S fuel =>
      let mask := Z.of_nat (length buckets) - 1 in
      b ← buckets !! Z.to_nat bucketId;
      if present b && negb ((bhash b =? hash) && pred (brawId b)) then
        lookupBucket_loop fuel buckets hash pred (Z.land (u32 (bucketId + probeCount)) mask)
          (u32 (probeCount + 1))
      else Some (bucketId, probeCount)
  end.

Definition lookupBucket (buckets : list Bucket) (hash : Z) (pred : Z -> bool) : option Z :=
  let hashTableSize := Z.of_nat (length buckets) in
  let mask := hashTableSize - 1 in
  '(bucketId, probeCount) ←
    lookupBucket_loop (S (length buckets)) buckets hash pred (Z.land hash mask) 1;
  if probeCount =? hashTableSize then None else Some bucketId.

Definition isEmpty : Z -> bool := fun _ => false.

(** [while (to[bucketId].rawId != 0) ...] of [moveNames] *)
Fixpoint freeBucket_loop (fuel : nat) (to : list Bucket) (bucketId probe : Z) : option Z :=
  match fuel with
  | O => None
  | S fuel =>
      let mask := Z.of_nat (length to) - 1 in
      b ← to !! Z.to_nat bucketId;
      if negb (brawId b =? 0) then
        freeBucket_loop fuel to (Z.land (u32 (bucketId + probe)) mask) (u32 (probe + 1))
      else Some bucketId
  end.

Fixpoint moveNames (from to : list Bucket) : option (list Bucket) :=
  match from with
  | [] => Some to
  | b :: from =>
      if negb (brawId b =? 0) then
        bucketId ← freeBucket_loop (S (length to)) to
                     (Z.land (bhash b) (Z.of_nat (length to) - 1)) 1;
        moveNames from (<[Z.to_nat bucketId := b]> to)
      else moveNames from to
  end.

Definition expandBuckets (buckets : list Bucket) (utf8NameSize constantNameSize uniqueNameSize : Z)
    : option (list Bucket) :=
  let hashTableSize :=
    u32 (2 * nextPowerOfTwo (u32 (utf8NameSize + constantNameSize + uniqueNameSize))) in
  if Z.of_nat (length buckets) <? hashTableSize then
    moveNames buckets (replicate (Z.to_nat hashTableSize) emptyBucket)
  else Some buckets.

(** ** The tables of a [GlobalState]: the names, the capacities of their vectors, the buckets *)

Record NameTable := mkNameTable {
  utf8Names : list str; constantNames : list Z; uniqueNames : list UniqueName;
  utf8Capacity : Z; constantCapacity : Z; uniqueCapacity : Z;
  namesByHash : list Bucket }.

Definition vsize {A} (l : list A) : Z := Z.of_nat (length l).

(** [GlobalState::expandNames]: [reserve] never shrinks. *)
Definition expandNames (nt : NameTable) (utf8NameSize constantNameSize uniqueNameSize : Z)
    : option NameTable :=
  b ← expandBuckets (namesByHash nt) utf8NameSize constantNameSize uniqueNameSize;
  Some (mkNameTable (utf8Names nt) (constantNames nt) (uniqueNames nt)
          (Z.max (utf8Capacity nt) utf8NameSize) (Z.max (constantCapacity nt) constantNameSize)
          (Z.max (uniqueCapacity nt) uniqueNameSize) b).

Definition dataUtf8 (nt : NameTable) (raw : Z) : option str :=
  utf8Names nt !! Z.to_nat (unsafeTableIndex raw).

Definition dataCnst (nt : NameTable) (raw : Z) : option Z :=
  constantNames nt !! Z.to_nat (unsafeTableIndex raw).

Definition dataUnique (nt : NameTable) (raw : Z) : option UniqueName :=
  uniqueNames nt !! Z.to_nat (unsafeTableIndex raw).

(** The predicates of [NameHash::Bucket] *)
Definition isUtf8 (nt : NameTable) (utf8 : str) (name : Z) : bool :=
  bool_decide (nameKind name = Some UTF8) && bool_decide (dataUtf8 nt name = Some utf8).

Definition isConstant (nt : NameTable) (original : Z) (name : Z) : bool :=
  bool_decide (nameKind name = Some CONSTANT) && bool_decide (dataCnst nt name = Some original).

Definition isUnique (nt : NameTable) (unk : UniqueNameKind) (original num : Z) (name : Z) : bool :=
  bool_decide (nameKind name = Some UNIQUE) &&
  bool_decide (dataUnique nt name = Some (mkUniqueName original num unk)).

Definition setBucket (bucketId hash rawId : Z) (buckets : list Bucket) : list Bucket :=
  <[Z.to_nat bucketId := mkBucket hash rawId]> buckets.

Section Hashed.
(** [XXH32] of a string. *)
Context (xxh32 : str -> Z).

Definition hashMixUTF8 (name : str) : Z := xxh32 name.

Definition lookupNameUTF8 (nt : NameTable) (nm : str) : option Z :=
  bucketId ← lookupBucket (namesByHash nt) (hashMixUTF8 nm) (isUtf8 nt nm);
  bucket ← namesByHash nt !! Z.to_nat bucketId;
  Some (if present bucket then brawId bucket else noName).

Definition enterNameUTF8 (nt : NameTable) (nm : str) : option (Z * NameTable) :=
  let hash := hashMixUTF8 nm in
  bucketId ← lookupBucket (namesByHash nt) hash (isUtf8 nt nm);
  bucket ← namesByHash nt !! Z.to_nat bucketId;
  if present bucket then Some (brawId bucket, nt)
  else
    '(nt, bucketId) ←
      (if vsize (utf8Names nt) =? utf8Capacity nt then
         nt ← expandNames nt (u32 (utf8Capacity nt * 2)) (constantCapacity nt) (uniqueCapacity nt);
         bucketId ← lookupBucket (namesByHash nt) hash isEmpty;
         Some (nt, bucketId)
       else Some (nt, bucketId));
    let name := makeNameRef UTF8 (vsize (utf8Names nt)) in
    Some (name,
          mkNameTable (utf8Names nt ++ [nm]) (constantNames nt) (uniqueNames nt)
            (utf8Capacity nt) (constantCapacity nt) (uniqueCapacity nt)
            (setBucket bucketId hash name (namesByHash nt))).

Definition lookupNameConstant (nt : NameTable) (original : Z) : option Z :=
  bucketId ← lookupBucket (namesByHash nt) (hashMixConstant original) (isConstant nt original);
  bucket ← namesByHash nt !! Z.to_nat bucketId;
  Some (if present bucket then brawId bucket else noName).

Definition enterNameConstant (nt : NameTable) (original : Z) : option (Z * NameTable) :=
  let hash := hashMixConstant original in
  bucketId ← lookupBucket (namesByHash nt) hash (isConstant nt original);
  bucket ← namesByHash nt !! Z.to_nat bucketId;
  if present bucket then Some (brawId bucket, nt)
  else
    '(nt, bucketId) ←
      (if vsize (constantNames nt) =? constantCapacity nt then
         nt ← expandNames nt (utf8Capacity nt) (u32 (constantCapacity nt * 2)) (uniqueCapacity nt);
         bucketId ← lookupBucket (namesByHash nt) hash isEmpty;
         Some (nt, bucketId)
       else Some (nt, bucketId));
    let name := makeNameRef CONSTANT (vsize (constantNames nt)) in
    Some (name,
          mkNameTable (utf8Names nt) (constantNames nt ++ [original]) (uniqueNames nt)
            (utf8Capacity nt) (constantCapacity nt) (uniqueCapacity nt)
            (setBucket bucketId hash name (namesByHash nt))).

Definition enterNameConstantStr (nt : NameTable) (original : str) : option (Z * NameTable) :=
  '(utf8, nt) ← enterNameUTF8 nt original; enterNameConstant nt utf8.

Definition lookupNameConstantStr (nt : NameTable) (original : str) : option Z :=
  utf8 ← lookupNameUTF8 nt original;
  if utf8 =? noName then Some noName else lookupNameConstant nt utf8.

Definition lookupNameUnique (nt : NameTable) (unk : UniqueNameKind) (original num : Z) : option Z :=
  bucketId ← lookupBucket (namesByHash nt) (hashMixUnique unk num original)
               (isUnique nt unk original num);
  bucket ← namesByHash nt !! Z.to_nat bucketId;
  Some (if present bucket then brawId bucket else noName).

Definition freshNameUnique (nt : NameTable) (unk : UniqueNameKind) (original num : Z)
    : option (Z * NameTable) :=
  let hash := hashMixUnique unk num original in
  bucketId ← lookupBucket (namesByHash nt) hash (isUnique nt unk original num);
  bucket ← namesByHash nt !! Z.to_nat bucketId;
  if present bucket then Some (brawId bucket, nt)
  else
    '(nt, bucketId) ←
      (if vsize (uniqueNames nt) =? uniqueCapacity nt then
         nt ← expandNames nt (utf8Capacity nt) (constantCapacity nt) (u32 (uniqueCapacity nt * 2));
         bucketId ← lookupBucket (namesByHash nt) hash isEmpty;
         Some (nt, bucketId)
       else Some (nt, bucketId));
    let name := makeNameRef UNIQUE (vsize (uniqueNames nt)) in
    Some (name,
          mkNameTable (utf8Names nt) (constantNames nt)
            (uniqueNames nt ++ [mkUniqueName original num unk])
            (utf8Capacity nt) (constantCapacity nt) (uniqueCapacity nt)
            (setBucket bucketId hash name (namesByHash nt))).
End Hashed.

#[global] Arguments lookupBucket : simpl never.
#[global] Arguments expandNames : simpl never.
#[global] Arguments makeNameRef : simpl never.
#[global] Arguments setBucket : simpl never.

(** ** Triangular probing

    The [j]-th bucket probed for a hash, in a table of [sz] buckets. *)

Fixpoint tri (j : nat) : Z := match j with O => 0 | S j => tri j + (Z.of_nat j + 1) end.

Definition slot (sz h : Z) (j : nat) : Z := (h + tri j) mod sz.

Lemma tri_double j : 2 * tri j = Z.of_nat j * (Z.of_nat j + 1).
Proof. induction j as [| j IH]; cbn [tri]; nia. Qed.

Lemma pow2_divides_odd k a b : 0 <= k -> Z.odd a = true -> (2 ^ k | a * b) -> (2 ^ k | b).
Proof.
  intros Hk Ha Hd. apply (Z.gauss _ a b Hd), Z.coprime_pow_l; [done |].
  apply Z.coprime_prime_l; [apply Z.prime_2 |]. intros [c ->].
  rewrite Z.mul_comm, Z.odd_mul in Ha. done.
Qed.

(** The probes of one round visit different buckets, because the size is a power of two. *)
Lemma slot_inj k h i j :
  0 <= k -> Z.of_nat i < 2 ^ k -> Z.of_nat j < 2 ^ k -> slot (2 ^ k) h i = slot (2 ^ k) h j -> i = j.
Proof.
  intros Hk. assert (Hwlog : forall i j, (i < j)%nat -> Z.of_nat j < 2 ^ k ->
    slot (2 ^ k) h i <> slot (2 ^ k) h j).
  { clear i j. intros i j Hij Hj E. unfold slot in E.
    assert (Hd : (2 ^ k | tri j - tri i)).
    { apply Z.mod_divide; [lia |]. rewrite <- (Z.sub_diag ((h + tri i) mod 2 ^ k)).
      rewrite E at 1. replace (tri j - tri i) with ((h + tri j) - (h + tri i)) by lia.
      rewrite Zminus_mod, E, Z.sub_diag. by rewrite Z.mod_0_l by lia. }
    assert (Hd2 : (2 ^ (k + 1) | (Z.of_nat j - Z.of_nat i) * (Z.of_nat j + Z.of_nat i + 1))).
    { replace ((Z.of_nat j - Z.of_nat i) * (Z.of_nat j + Z.of_nat i + 1)) with (2 * (tri j - tri i)).
      - rewrite Z.pow_add_r, Z.mul_comm by lia. by apply Z.mul_divide_mono_l.
      - pose proof (tri_double i). pose proof (tri_double j). nia. }
    assert (Hp : 2 ^ (k + 1) = 2 * 2 ^ k) by (rewrite Z.pow_add_r by lia; lia).
    destruct (Z.odd (Z.of_nat j - Z.of_nat i)) eqn:Ho.
    - apply pow2_divides_odd in Hd2; [| lia | done]. apply Z.divide_pos_le in Hd2; lia.
    - assert (Ho' : Z.odd (Z.of_nat j + Z.of_nat i + 1) = true).
      { replace (Z.of_nat j + Z.of_nat i + 1) with
          ((Z.of_nat j - Z.of_nat i) + (1 + 2 * Z.of_nat i)) by lia.
        rewrite Z.odd_add, Ho, Z.odd_add_mul_2. done. }
      rewrite Z.mul_comm in Hd2. apply pow2_divides_odd in Hd2; [| lia | done].
      apply Z.divide_pos_le in Hd2; lia. }
  intros Hi Hj E. destruct (Nat.lt_trichotomy i j) as [Hlt | [-> | Hgt]]; [| done |].
  - by apply Hwlog in E.
  - symmetry in E. by apply Hwlog in E.
Qed.

Lemma slot_range k h j : 0 <= k -> 0 <= slot (2 ^ k) h j < 2 ^ k.
Proof. intros. apply Z.mod_pos_bound. by apply Z.pow_pos_nonneg. Qed.

Lemma land_mask x k : 0 <= k -> Z.land x (2 ^ k - 1) = x mod 2 ^ k.
Proof. intros. rewrite <- Z.land_ones by done. f_equal. rewrite Z.ones_equiv. lia. Qed.

(** One step of the loops. *)
Lemma slot_next k h j :
  0 <= k <= 32 ->
  Z.land (u32 (slot (2 ^ k) h j + (Z.of_nat j + 1))) (2 ^ k - 1) = slot (2 ^ k) h (S j).
Proof.
  intros Hk. rewrite land_mask by lia. unfold u32, slot. cbn [tri].
  rewrite Z.mod_mod_divide by (exists (2 ^ (32 - k)); rewrite <- Z.pow_add_r by lia; f_equal; lia).
  rewrite Zplus_mod_idemp_l. f_equal. lia.
Qed.

(** ** Counting the buckets in use *)

Fixpoint used (buckets : list Bucket) : nat :=
  match buckets with
  | [] => O
  | b :: buckets => ((if present b then 1 else 0) + used buckets)%nat
  end.

(** The indices of the buckets in use. *)
Definition usedAt (buckets : list Bucket) (i : nat) : bool :=
  match buckets !! i with Some b => present b | None => false end.

Lemma used_indices buckets :
  length (List.filter (usedAt buckets) (seq 0 (length buckets))) = used buckets.
Proof.
  induction buckets as [| b buckets IH]; [done |]. cbn [length seq List.filter used].
  rewrite <- seq_shift, <- (map_ext (fun x => S x)) by done.
  assert (Hf : forall l, length (List.filter (usedAt (b :: buckets)) (map S l)) =
                         length (List.filter (usedAt buckets) l)).
  { induction l as [| i l IHl]; [done |]. cbn [map List.filter].
    change (usedAt (b :: buckets) (S i)) with (usedAt buckets i).
    destruct (usedAt buckets i); cbn [length]; by rewrite IHl. }
  change (usedAt (b :: buckets) 0) with (present b). destruct (present b); cbn [length];
    rewrite Hf, IH; lia.
Qed.

(** Different indices in use are at most as many as there are buckets in use. *)
Lemma used_pigeonhole buckets (L : list nat) :
  List.NoDup L -> (forall i, In i L -> usedAt buckets i = true) -> (length L <= used buckets)%nat.
Proof.
  intros Hnd Hin. rewrite <- used_indices. apply NoDup_incl_length; [done |].
  intros i Hi. apply filter_In. split; [| auto]. apply in_seq.
  specialize (Hin i Hi). unfold usedAt in Hin.
  destruct (buckets !! i) eqn:E; [| done]. apply lookup_lt_Some in E. lia.
Qed.

Lemma used_insert buckets i b b' :
  buckets !! i = Some b -> present b = false -> present b' = true ->
  used (<[i := b']> buckets) = S (used buckets).
Proof.
  revert i. induction buckets as [| c buckets IH]; intros i; [done |].
  destruct i as [| i]; intros E Hb Hb'.
  - cbn in *. simplify_eq. by rewrite Hb, Hb'.
  - change (<[S i := b']> (c :: buckets)) with (c :: <[i := b']> buckets). cbn [used].
    rewrite (IH i) by done. lia.
Qed.

Lemma used_replicate n : used (replicate n emptyBucket) = O.
Proof. induction n; [done | exact IHn]. Qed.

(** A decidable property with a witness has a least one. *)
Lemma least_witness (P : nat -> bool) n :
  P n = true -> exists m, (m <= n)%nat /\ P m = true /\ forall i, (i < m)%nat -> P i = false.
Proof.
  induction n as [n IH] using lt_wf_ind. intros Hn.
  destruct (existsb P (seq 0 n)) eqn:E.
  - apply existsb_exists in E as (i & Hi & Hp). apply in_seq in Hi.
    destruct (IH i) as (m & Hm & H); [lia | done |]. exists m. split; [lia | done].
  - exists n. split; [lia |]. split; [done |]. intros i Hi.
    destruct (P i) eqn:Ep; [| done]. exfalso. apply not_true_iff_false in E. apply E.
    apply existsb_exists. exists i. split; [apply in_seq; lia | done].
Qed.

(** ** The invariant of the table

    [entries] lists the hash and the reference of each name. *)

Record TableInv (buckets : list Bucket) (entries : list (Z * Z)) : Prop := {
  inv_size : exists k, 2 <= k <= 31 /\ Z.of_nat (length buckets) = 2 ^ k;
  inv_used : used buckets = length entries;
  inv_exists : forall h raw, (h, raw) ∈ entries -> raw <> 0;
  inv_placed : forall h raw, (h, raw) ∈ entries -> exists j,
    Z.of_nat j < Z.of_nat (length buckets) /\
    buckets !! Z.to_nat (slot (Z.of_nat (length buckets)) h j) = Some (mkBucket h raw) /\
    forall i, (i < j)%nat -> usedAt buckets (Z.to_nat (slot (Z.of_nat (length buckets)) h i)) = true;
  inv_sound : forall i b, buckets !! i = Some b -> present b = true -> (bhash b, brawId b) ∈ entries;
}.

(** The slots a lookup finds free: every earlier probe hits a bucket in use. *)
Definition freeSlot (buckets : list Bucket) (h id : Z) : Prop :=
  exists m, Z.of_nat m < Z.of_nat (length buckets) /\
    id = slot (Z.of_nat (length buckets)) h m /\
    (exists b : Bucket, buckets !! Z.to_nat id = Some b /\ present b = false) /\
    forall i, (i < m)%nat -> usedAt buckets (Z.to_nat (slot (Z.of_nat (length buckets)) h i)) = true.

Lemma slot_lookup (buckets : list Bucket) k h j :
  0 <= k -> Z.of_nat (length buckets) = 2 ^ k ->
  exists b, buckets !! Z.to_nat (slot (Z.of_nat (length buckets)) h j) = Some b.
Proof.
  intros Hk Hsz. apply lookup_lt_is_Some_2. pose proof (slot_range k h j Hk). rewrite Hsz. lia.
Qed.

Lemma slot_first (buckets : list Bucket) k h :
  0 <= k -> Z.of_nat (length buckets) = 2 ^ k ->
  Z.land h (Z.of_nat (length buckets) - 1) = slot (Z.of_nat (length buckets)) h 0.
Proof. intros Hk ->. rewrite land_mask by done. unfold slot. cbn [tri]. by rewrite Z.add_0_r. Qed.

(** Among the first probes one finds a free bucket: at most one more than there are names. *)
Lemma free_probe buckets k h :
  0 <= k -> Z.of_nat (length buckets) = 2 ^ k -> (used buckets < length buckets)%nat ->
  exists m, (m <= used buckets)%nat /\
    usedAt buckets (Z.to_nat (slot (Z.of_nat (length buckets)) h m)) = false.
Proof.
  intros Hk Hsz Hu.
  destruct (existsb (fun j => negb (usedAt buckets (Z.to_nat (slot (Z.of_nat (length buckets)) h j))))
              (seq 0 (S (used buckets)))) eqn:E.
  - apply existsb_exists in E as (m & Hm & Hf). apply in_seq in Hm. exists m.
    split; [lia |]. by apply negb_true_iff.
  - exfalso.
    assert (Hall : forall j, In j (seq 0 (S (used buckets))) ->
              usedAt buckets (Z.to_nat (slot (Z.of_nat (length buckets)) h j)) = true).
    { intros j Hj. destruct (usedAt _ _) eqn:Eu; [done |]. exfalso.
      apply not_true_iff_false in E. apply E. apply existsb_exists. exists j. by rewrite Eu. }
    pose proof (used_pigeonhole buckets
      (map (fun j => Z.to_nat (slot (Z.of_nat (length buckets)) h j)) (seq 0 (S (used buckets))))) as Hp.
    rewrite length_map, length_seq in Hp. cut ((S (used buckets) <= used buckets)%nat); [lia |].
    apply Hp.
    + apply NoDup_map_NoDup_ForallPairs; [| apply seq_NoDup].
      intros i j Hi Hj Heq. apply in_seq in Hi, Hj. rewrite Hsz in Heq.
      pose proof (slot_range k h i Hk). pose proof (slot_range k h j Hk).
      apply (slot_inj k h); lia.
    + intros i (j & <- & Hj)%in_map_iff. by apply Hall.
Qed.

Definition stops (h : Z) (pred : Z -> bool) (b : Bucket) : bool :=
  negb (present b && negb ((bhash b =? h) && pred (brawId b))).

Definition stopsAt (buckets : list Bucket) (h : Z) (pred : Z -> bool) (j : nat) : bool :=
  match buckets !! Z.to_nat (slot (Z.of_nat (length buckets)) h j) with
  | Some b => stops h pred b
  | None => false
  end.

(** The loop stops at the first probe that may stop it. *)
Lemma lookupBucket_loop_spec fuel buckets k h pred j m :
  0 <= k <= 31 -> Z.of_nat (length buckets) = 2 ^ k ->
  (forall i, (j <= i < m)%nat -> stopsAt buckets h pred i = false) ->
  stopsAt buckets h pred m = true -> (j <= m)%nat -> (m - j < fuel)%nat -> Z.of_nat m < 2 ^ k ->
  lookupBucket_loop fuel buckets h pred (slot (Z.of_nat (length buckets)) h j) (Z.of_nat j + 1) =
    Some (slot (Z.of_nat (length buckets)) h m, Z.of_nat m + 1).
Proof.
  intros Hk Hsz. revert j. induction fuel as [| fuel IH]; intros j Hbefore Hm Hjm Hf Hmk; [lia |].
  cbn [lookupBucket_loop]. destruct (slot_lookup buckets k h j) as [b Hb]; [lia | done |].
  rewrite Hb. cbn. destruct (decide (j = m)) as [-> | Hne].
  - unfold stopsAt in Hm. rewrite Hb in Hm. unfold stops in Hm. apply negb_true_iff in Hm.
    by rewrite Hm.
  - assert (Hj : stopsAt buckets h pred j = false) by (apply Hbefore; lia).
    unfold stopsAt in Hj. rewrite Hb in Hj. unfold stops in Hj. apply negb_false_iff in Hj.
    rewrite Hj. pose proof (slot_next k h j) as Hnext. rewrite <- Hsz in Hnext.
    rewrite Hnext by lia.
    assert (2 ^ k <= 2 ^ 31) by (apply Z.pow_le_mono_r; lia).
    rewrite (u32_id (Z.of_nat j + 1 + 1)) by (unfold is_u32; lia).
    replace (Z.of_nat j + 1 + 1) with (Z.of_nat (S j) + 1) by lia.
    apply IH; [| done | lia | lia | done]. intros i Hi. apply Hbefore. lia.
Qed.

(** What a lookup returns: a bucket in use that satisfies the predicate, or, when no name with this
    hash does, the free bucket at which it is to be entered. *)
Lemma lookupBucket_spec buckets entries h pred :
  TableInv buckets entries -> (length entries + 1 < length buckets)%nat ->
  exists id b, lookupBucket buckets h pred = Some id /\ buckets !! Z.to_nat id = Some b /\
    ((present b = true /\ (h, brawId b) ∈ entries /\ pred (brawId b) = true) \/
     (present b = false /\ freeSlot buckets h id /\
      forall raw, (h, raw) ∈ entries -> pred raw = false)).
Proof.
  intros Hinv Hroom. destruct Hinv as [(k & Hk & Hsz) Hu Hex Hpl Hso].
  destruct (free_probe buckets k h) as (m0 & Hm0 & Hfree); [lia | done | lia |].
  assert (Hstop0 : stopsAt buckets h pred m0 = true).
  { unfold stopsAt, usedAt in *. destruct (slot_lookup buckets k h m0) as [b Hb]; [lia | done |].
    rewrite Hb in *. unfold stops. by rewrite Hfree. }
  destruct (least_witness _ _ Hstop0) as (m & Hm & Hstop & Hleast).
  destruct (slot_lookup buckets k h m) as [b Hb]; [lia | done |].
  exists (slot (Z.of_nat (length buckets)) h m), b. split; [| split; [done |]].
  { unfold lookupBucket. rewrite (slot_first buckets k) by (lia || done).
    change 1 with (Z.of_nat 0 + 1).
    rewrite (lookupBucket_loop_spec _ _ k h pred 0 m);
      [| lia | done | intros i Hi; apply Hleast; lia | done | lia | lia | lia].
    cbn. destruct (Z.eqb_spec (Z.of_nat m + 1) (Z.of_nat (length buckets))); [lia | done]. }
  assert (Hbefore : forall i, (i < m)%nat ->
            usedAt buckets (Z.to_nat (slot (Z.of_nat (length buckets)) h i)) = true).
  { intros i Hi. specialize (Hleast i Hi). unfold stopsAt, usedAt in *.
    destruct (slot_lookup buckets k h i) as [c Hc]; [lia | done |]. rewrite Hc in *.
    unfold stops in Hleast. by apply negb_false_iff, andb_true_iff in Hleast as [? _]. }
  unfold stopsAt in Hstop. rewrite Hb in Hstop. unfold stops in Hstop. apply negb_true_iff in Hstop.
  destruct (present b) eqn:Ep.
  - left. cbn in Hstop. apply negb_false_iff, andb_true_iff in Hstop as [Hh%Z.eqb_eq Hp].
    split; [done |]. split; [| done]. rewrite <- Hh. by eapply Hso.
  - right. split; [done |]. split.
    { exists m. split; [lia |]. split; [done |]. split; [by exists b | done]. }
    intros raw Hraw. destruct (pred raw) eqn:Epr; [| done]. exfalso.
    destruct (Hpl h raw Hraw) as (j & Hj & Hbj & Hjbefore).
    assert (Hjstop : stopsAt buckets h pred j = true).
    { unfold stopsAt. rewrite Hbj. unfold stops. cbn. by rewrite Z.eqb_refl, Epr, andb_false_r. }
    destruct (Nat.lt_trichotomy m j) as [Hlt | [-> | Hgt]].
    + specialize (Hjbefore m Hlt). unfold usedAt in Hjbefore. rewrite Hb in Hjbefore. congruence.
    + rewrite Hbj in Hb. simplify_eq. unfold present in Ep. cbn in Ep.
      apply negb_false_iff, Z.eqb_eq in Ep. by apply (Hex h raw).
    + by rewrite Hleast in Hjstop.
Qed.

(** Filling a free bucket keeps every other bucket in use. *)
Lemma usedAt_insert buckets i b' j :
  present b' = true -> usedAt buckets j = true -> usedAt (<[i := b']> buckets) j = true.
Proof.
  intros Hb' Hj. unfold usedAt in *. destruct (decide (i = j)) as [-> | Hne].
  - destruct (buckets !! j) eqn:E; [| done]. by rewrite list_lookup_insert_eq by by apply lookup_lt_Some in E.
  - by rewrite list_lookup_insert_ne.
Qed.

Lemma TableInv_insert buckets entries h raw id :
  TableInv buckets entries -> freeSlot buckets h id -> raw <> 0 ->
  TableInv (<[Z.to_nat id := mkBucket h raw]> buckets) ((h, raw) :: entries).
Proof.
  intros [(k & Hk & Hsz) Hu Hex Hpl Hso] (m & Hm & Hid & (b & Hb & Hfree) & Hbefore) Hraw.
  assert (Hp : present (mkBucket h raw) = true).
  { unfold present. cbn. by rewrite (proj2 (Z.eqb_neq _ _)). }
  assert (Hlt : (Z.to_nat id < length buckets)%nat) by by apply lookup_lt_Some in Hb.
  split; rewrite ?length_insert.
  - by exists k.
  - rewrite (used_insert _ _ b) by done. cbn. by rewrite Hu.
  - intros h' raw' [[= -> ->] | H]%elem_of_cons; [done | by apply (Hex h')].
  - intros h' raw' [[= -> ->] | H]%elem_of_cons.
    + exists m. split; [done |]. rewrite <- Hid. split; [by apply list_lookup_insert_eq |].
      intros i Hi. apply usedAt_insert; auto.
    + destruct (Hpl h' raw' H) as (j & Hj & Hbj & Hjb). exists j. split; [done |]. split.
      * rewrite list_lookup_insert_ne; [done |]. intros E. rewrite E, Hbj in Hb. simplify_eq.
        unfold present in Hfree. cbn in Hfree. apply negb_false_iff, Z.eqb_eq in Hfree.
        by apply (Hex h' raw').
      * intros i Hi. apply usedAt_insert; auto.
  - intros i c Hc Hpc. destruct (decide (Z.to_nat id = i)) as [<- | Hne].
    + rewrite list_lookup_insert_eq in Hc by done. simplify_eq. cbn. left.
    + rewrite list_lookup_insert_ne in Hc by done. right. by apply (Hso i).
Qed.

(** The invariant depends on which entries there are, not on their order. *)
Lemma TableInv_perm buckets entries entries' :
  TableInv buckets entries -> entries ≡ₚ entries' -> TableInv buckets entries'.
Proof.
  intros [Hsz Hu Hex Hpl Hso] Hp. split; [done | by rewrite <- Hp | | |].
  - intros h raw. rewrite <- Hp. apply Hex.
  - intros h raw. rewrite <- Hp. apply Hpl.
  - intros i b. rewrite <- Hp. apply Hso.
Qed.

Lemma TableInv_same buckets entries entries' :
  TableInv buckets entries -> length entries = length entries' ->
  (forall e, e ∈ entries <-> e ∈ entries') -> TableInv buckets entries'.
Proof.
  intros [Hsz Hu Hex Hpl Hso] Hlen He. split; [done | congruence | | |].
  - intros h raw. rewrite <- He. apply Hex.
  - intros h raw. rewrite <- He. apply Hpl.
  - intros i b. rewrite <- He. apply Hso.
Qed.

Lemma TableInv_empty k :
  2 <= k <= 31 -> TableInv (replicate (Z.to_nat (2 ^ k)) emptyBucket) [].
Proof.
  intros Hk. assert (0 < 2 ^ k) by (apply Z.pow_pos_nonneg; lia). split.
  - exists k. split; [done |]. rewrite length_replicate. lia.
  - apply used_replicate.
  - by intros h raw ?%not_elem_of_nil.
  - by intros h raw ?%not_elem_of_nil.
  - intros i b [-> _]%lookup_replicate. done.
Qed.

(** ** Growing the table *)

Lemma freeBucket_lookup fuel to h id probe :
  freeBucket_loop fuel to id probe = fst <$> lookupBucket_loop fuel to h isEmpty id probe.
Proof.
  revert id probe. induction fuel as [| fuel IH]; intros id probe; [done |].
  cbn [freeBucket_loop lookupBucket_loop]. destruct (to !! Z.to_nat id) as [b |]; cbn; [| done].
  unfold present, isEmpty. rewrite andb_false_r. cbn [negb]. rewrite andb_true_r.
  destruct (negb (brawId b =? 0)); [apply IH | done].
Qed.

(** A free bucket for any hash, while the table has room. *)
Lemma freeBucket_spec to entries h :
  TableInv to entries -> (length entries < length to)%nat ->
  exists id, freeBucket_loop (S (length to)) to (Z.land h (Z.of_nat (length to) - 1)) 1 = Some id /\
    freeSlot to h id.
Proof.
  intros Hinv Hroom. destruct Hinv as [(k & Hk & Hsz) Hu Hex Hpl Hso].
  destruct (free_probe to k h) as (m0 & Hm0 & Hfree0); [lia | done | lia |].
  destruct (least_witness (fun j => negb (usedAt to (Z.to_nat (slot (Z.of_nat (length to)) h j)))) m0)
    as (m & Hm & Hstop & Hleast); [by rewrite Hfree0 |]. apply negb_true_iff in Hstop.
  assert (Hused : forall i, stopsAt to h isEmpty i =
            negb (usedAt to (Z.to_nat (slot (Z.of_nat (length to)) h i)))).
  { intros i. unfold stopsAt, usedAt. destruct (slot_lookup to k h i) as [b Hb]; [lia | done |].
    rewrite Hb. unfold stops, isEmpty. rewrite andb_false_r. cbn [negb]. by rewrite andb_true_r. }
  exists (slot (Z.of_nat (length to)) h m). split.
  - rewrite (freeBucket_lookup _ _ h), (slot_first to k) by (lia || done).
    change 1 with (Z.of_nat 0 + 1).
    by rewrite (lookupBucket_loop_spec _ _ k h isEmpty 0 m);
      [| lia | done | intros i Hi; rewrite Hused; apply Hleast; lia
       | rewrite Hused; by rewrite Hstop | lia | lia | lia].
  - exists m. split; [lia |]. split; [done |]. split.
    + destruct (slot_lookup to k h m) as [b Hb]; [lia | done |]. exists b. split; [done |].
      unfold usedAt in Hstop. by rewrite Hb in Hstop.
    + intros i Hi. specialize (Hleast i Hi). by apply negb_false_iff in Hleast.
Qed.

(** The entries that a table's buckets hold. *)
Definition entriesOf (buckets : list Bucket) : list (Z * Z) :=
  (fun b => (bhash b, brawId b)) <$> List.filter present buckets.

Lemma moveNames_spec from : forall to entries,
  TableInv to entries -> (length (entriesOf from) + length entries < length to)%nat ->
  exists to', moveNames from to = Some to' /\ length to' = length to /\
    TableInv to' (rev (entriesOf from) ++ entries).
Proof.
  induction from as [| b from IH]; intros to entries Hinv Hroom; [by exists to |].
  cbn [moveNames]. unfold entriesOf in *. cbn [List.filter] in *.
  change (negb (brawId b =? 0)) with (present b). destruct (present b) eqn:Ep; [| by apply IH].
  cbn in Hroom. destruct (freeBucket_spec to entries (bhash b)) as (id & Hid & Hfree); [done | lia |].
  rewrite Hid. cbn.
  assert (Hraw : brawId b <> 0) by by apply negb_true_iff, Z.eqb_neq in Ep.
  pose proof (TableInv_insert to entries (bhash b) (brawId b) id Hinv Hfree Hraw) as Hinv'.
  replace (mkBucket (bhash b) (brawId b)) with b in Hinv' by by destruct b.
  destruct (IH _ _ Hinv') as (to' & Hmv & Hlen & Hinv''); [rewrite length_insert; cbn; lia |].
  exists to'. split; [done |]. split; [by rewrite Hlen, length_insert |].
  by rewrite <- app_assoc.
Qed.

Lemma entriesOf_used buckets : length (entriesOf buckets) = used buckets.
Proof.
  induction buckets as [| b buckets IH]; [done |]. unfold entriesOf in *. cbn.
  destruct (present b); cbn; by rewrite IH.
Qed.

Lemma entriesOf_spec buckets h raw :
  (h, raw) ∈ entriesOf buckets <->
  exists i, buckets !! i = Some (mkBucket h raw) /\ raw <> 0.
Proof.
  unfold entriesOf. rewrite list_elem_of_fmap. split.
  - intros ([h' raw'] & [= -> ->] & Hb). apply list_elem_of_In, filter_In in Hb as [Hb Hp].
    apply list_elem_of_In, list_elem_of_lookup_1 in Hb as [i Hi]. exists i. split; [done |].
    unfold present in Hp. cbn in Hp. by apply negb_true_iff, Z.eqb_neq in Hp.
  - intros (i & Hi & Hr). exists (mkBucket h raw). split; [done |].
    apply list_elem_of_In, filter_In. split; [by eapply list_elem_of_In, list_elem_of_lookup_2 |].
    unfold present. cbn. by rewrite (proj2 (Z.eqb_neq _ _)).
Qed.

(** Rehashing keeps the entries. *)
Lemma rehash_spec buckets entries k :
  TableInv buckets entries -> 2 <= k <= 31 -> Z.of_nat (length entries) < 2 ^ k ->
  exists b', moveNames buckets (replicate (Z.to_nat (2 ^ k)) emptyBucket) = Some b' /\
    Z.of_nat (length b') = 2 ^ k /\ TableInv b' entries.
Proof.
  intros Hinv Hk Hroom. assert (0 < 2 ^ k) by (apply Z.pow_pos_nonneg; lia).
  destruct (moveNames_spec buckets (replicate (Z.to_nat (2 ^ k)) emptyBucket) [])
    as (b' & Hmv & Hlen & Hinv').
  - by apply TableInv_empty.
  - rewrite entriesOf_used, (inv_used _ _ Hinv), length_replicate. cbn. lia.
  - exists b'. split; [done |]. split; [rewrite Hlen, length_replicate; lia |].
    rewrite app_nil_r in Hinv'. eapply TableInv_same; [exact Hinv' | |].
    + rewrite length_rev, entriesOf_used. apply (inv_used _ _ Hinv).
    + intros [h raw]. rewrite list_elem_of_In, <- in_rev, <- list_elem_of_In, entriesOf_spec. split.
      * intros (i & Hi & Hr). apply (inv_sound _ _ Hinv i _ Hi). unfold present. cbn.
        by rewrite (proj2 (Z.eqb_neq _ _)).
      * intros He. destruct (inv_placed _ _ Hinv _ _ He) as (j & _ & Hb & _).
        eexists. split; [exact Hb | by apply (inv_exists _ _ Hinv h)].
Qed.

(** ** The next power of two *)

(** [covers w x y]: a bit of [y] is set when one of the [w] bits of [x] from it upwards is. *)
Definition covers (w x y : Z) : Prop :=
  forall i, 0 <= i -> (Z.testbit y i = true <-> exists j, i <= j < i + w /\ Z.testbit x j = true).

Lemma covers_smear w x y : 0 < w -> covers w x y -> covers (2 * w) x (smear w y).
Proof.
  intros Hw Hc i Hi. unfold smear. rewrite Z.lor_spec, Z.shiftr_spec, orb_true_iff by done.
  rewrite (Hc i), (Hc (i + w)) by lia. split.
  - intros [(j & Hj & Hb) | (j & Hj & Hb)]; exists j; (split; [lia | done]).
  - intros (j & Hj & Hb). destruct (Z.lt_ge_cases j (i + w));
      [left | right]; exists j; (split; [lia | done]).
Qed.

Lemma smear_all x : 0 < x < 2 ^ 32 ->
  smear 16 (smear 8 (smear 4 (smear 2 (smear 1 x)))) = 2 ^ (Z.log2 x + 1) - 1.
Proof.
  intros Hx.
  assert (Hc : covers 32 x (smear 16 (smear 8 (smear 4 (smear 2 (smear 1 x)))))).
  { apply (covers_smear 16); [lia |]. apply (covers_smear 8); [lia |]. apply (covers_smear 4); [lia |].
    apply (covers_smear 2); [lia |]. apply (covers_smear 1); [lia |]. intros i Hi. split.
    - intros H. exists i. split; [lia | done].
    - intros (j & Hj & H). by replace i with j by lia. }
  assert (Hlog : 0 <= Z.log2 x < 32) by (split; [apply Z.log2_nonneg | apply Z.log2_lt_pow2; lia]).
  apply Z.bits_inj'. intros i Hi. replace (2 ^ (Z.log2 x + 1) - 1) with (Z.ones (Z.log2 x + 1))
    by (rewrite Z.ones_equiv; lia). rewrite Z.testbit_ones_nonneg by lia.
  apply eq_true_iff_eq. rewrite (Hc i Hi), Z.ltb_lt. split.
  - intros (j & Hj & Hb). destruct (Z.le_gt_cases j (Z.log2 x)); [lia |].
    rewrite Z.bits_above_log2 in Hb by lia. done.
  - intros Hlt. exists (Z.log2 x). split; [lia |]. apply Z.bit_log2. lia.
Qed.

Lemma nextPowerOfTwo_spec v :
  0 <= v <= 2 ^ 31 -> exists j, 0 <= j <= 31 /\ nextPowerOfTwo v = 2 ^ j /\ v <= 2 ^ j /\
    (forall i, 0 <= i -> v <= 2 ^ i -> j <= i).
Proof.
  intros Hv. unfold nextPowerOfTwo. destruct (Z.eqb_spec v 0) as [-> | Hne].
  { exists 0. repeat split; try lia. }
  destruct (Z.eq_dec v 1) as [-> | Hne1].
  { exists 0. repeat split; try lia. }
  assert (Hlog : 0 <= Z.log2 (v - 1) < 31) by (split; [apply Z.log2_nonneg | apply Z.log2_lt_pow2; lia]).
  pose proof (Z.log2_spec (v - 1)) as Hspec.
  replace (Z.succ (Z.log2 (v - 1))) with (Z.log2 (v - 1) + 1) in Hspec by lia.
  exists (Z.log2 (v - 1) + 1). rewrite smear_all by lia.
  assert (2 ^ (Z.log2 (v - 1) + 1) <= 2 ^ 31) by (apply Z.pow_le_mono_r; lia).
  assert (0 < 2 ^ (Z.log2 (v - 1) + 1)) by (apply Z.pow_pos_nonneg; lia).
  rewrite Z.sub_add, u32_id by (unfold is_u32; lia). repeat split; try lia.
  intros i Hi Hvi. assert (Z.log2 (v - 1) < i) by (apply Z.log2_lt_pow2; lia). lia.
Qed.

Lemma expandBuckets_spec buckets entries a b c :
  TableInv buckets entries -> 2 <= a + b + c <= 2 ^ 30 -> 0 <= a -> 0 <= b -> 0 <= c ->
  Z.of_nat (length entries) < 2 * (a + b + c) ->
  exists b', expandBuckets buckets a b c = Some b' /\ TableInv b' entries /\
    2 * (a + b + c) <= Z.of_nat (length b') /\ (length buckets <= length b')%nat.
Proof.
  intros Hinv Hs Ha Hb Hc Hroom. unfold expandBuckets. rewrite (u32_id (a + b + c)) by (unfold is_u32; lia).
  destruct (nextPowerOfTwo_spec (a + b + c)) as (j & Hj & -> & Hle & Hmin); [lia |].
  assert (Hj1 : 1 <= j <= 30).
  { split; [| apply Hmin; lia]. destruct (Z.eq_dec j 0) as [-> |]; [| lia]. simpl in Hle. lia. }
  assert (H2 : 2 * 2 ^ j = 2 ^ (j + 1)) by (rewrite Z.pow_add_r by lia; lia).
  assert (2 ^ (j + 1) <= 2 ^ 31) by (apply Z.pow_le_mono_r; lia).
  rewrite H2, u32_id by (unfold is_u32; lia).
  destruct (Z.ltb_spec (Z.of_nat (length buckets)) (2 ^ (j + 1))).
  - destruct (rehash_spec buckets entries (j + 1) Hinv) as (b' & -> & Hlen & Hinv'); [lia | lia |].
    exists b'. split; [done |]. split; [done |]. lia.
  - exists buckets. split; [done |]. split; [done |]. lia.
Qed.

(** ** The abstract contents of the table: which name each reference stands for *)

Inductive NameData := NUtf8 (s : str) | NConstant (original : Z) | NUnique (u : UniqueName).

#[export] Instance NameData_eq_dec : EqDecision NameData.
Proof. solve_decision. Defined.

Definition refs {A} (k : NameKind) (mk : A -> NameData) (l : list A) : list (Z * NameData) :=
  imap (fun i a => (makeNameRef k (Z.of_nat i), mk a)) l.

Definition allNames (nt : NameTable) : list (Z * NameData) :=
  refs UTF8 NUtf8 (utf8Names nt) ++ refs CONSTANT NConstant (constantNames nt) ++
  refs UNIQUE NUnique (uniqueNames nt).

Lemma makeNameRef_add k id : 0 <= id < 2 ^ 30 -> makeNameRef k id = kind_bits k + id * 4.
Proof.
  intros Hid. unfold makeNameRef, KIND_BITS. rewrite u32_id
    by (rewrite Z.shiftl_mul_pow2 by lia; unfold is_u32; lia).
  rewrite Z.lor_comm, lor_shift_add by (destruct k; cbn; lia). done.
Qed.

Lemma makeNameRef_kind k id : 0 <= id < 2 ^ 30 -> nameKind (makeNameRef k id) = Some k.
Proof.
  intros Hid. rewrite makeNameRef_add by done. unfold nameKind, KIND_MASK.
  change 3 with (Z.ones 2). rewrite Z.land_ones by lia. change (2 ^ 2) with 4.
  rewrite Z_mod_plus_full. by destruct k.
Qed.

Lemma makeNameRef_index k id : 0 <= id < 2 ^ 30 -> unsafeTableIndex (makeNameRef k id) = id.
Proof.
  intros Hid. rewrite makeNameRef_add by done. unfold unsafeTableIndex, KIND_BITS.
  rewrite Z.shiftr_div_pow2 by lia. change (2 ^ 2) with 4.
  rewrite Z.div_add by lia. rewrite (Z.div_small (kind_bits k)) by (destruct k; cbn; lia). lia.
Qed.

Lemma makeNameRef_nonzero k id : 0 <= id < 2 ^ 30 -> makeNameRef k id <> 0.
Proof. intros Hid. rewrite makeNameRef_add by done. destruct k; cbn; lia. Qed.

Lemma makeNameRef_u32 k id : 0 <= id < 2 ^ 30 -> is_u32 (makeNameRef k id).
Proof. intros Hid. rewrite makeNameRef_add by done. unfold is_u32. destruct k; cbn; lia. Qed.

Lemma refs_elem {A} k (mk : A -> NameData) l raw d :
  (raw, d) ∈ refs k mk l <->
  exists i a, raw = makeNameRef k (Z.of_nat i) /\ d = mk a /\ l !! i = Some a.
Proof.
  unfold refs. rewrite list_elem_of_lookup. setoid_rewrite list_lookup_imap. split.
  - intros (i & Hi). destruct (l !! i) as [a |] eqn:E; [| done]. cbn in Hi. simplify_eq.
    by exists i, a.
  - intros (i & a & -> & -> & E). exists i. by rewrite E.
Qed.

Lemma length_refs {A} k (mk : A -> NameData) l : length (refs k mk l) = length l.
Proof. apply length_imap. Qed.

Lemma refs_snoc {A} k (mk : A -> NameData) l a :
  refs k mk (l ++ [a]) = refs k mk l ++ [(makeNameRef k (vsize l), mk a)].
Proof. unfold refs, vsize. rewrite imap_app. cbn. by rewrite Nat.add_0_r. Qed.

Section Interning.
Context (xxh32 : str -> Z).

Definition hashName (d : NameData) : Z :=
  match d with
  | NUtf8 s => hashMixUTF8 xxh32 s
  | NConstant original => hashMixConstant original
  | NUnique u => hashMixUnique (un_kind u) (un_num u) (un_original u)
  end.

Definition entries (nt : NameTable) : list (Z * Z) :=
  (fun '(raw, d) => (hashName d, raw)) <$> allNames nt.

(** The three entry points and lookups as one. *)
Definition enterName (nt : NameTable) (d : NameData) : option (Z * NameTable) :=
  match d with
  | NUtf8 s => enterNameUTF8 xxh32 nt s
  | NConstant original => enterNameConstant nt original
  | NUnique u => freshNameUnique nt (un_kind u) (un_original u) (un_num u)
  end.

Definition lookupName (nt : NameTable) (d : NameData) : option Z :=
  match d with
  | NUtf8 s => lookupNameUTF8 xxh32 nt s
  | NConstant original => lookupNameConstant nt original
  | NUnique u => lookupNameUnique nt (un_kind u) (un_original u) (un_num u)
  end.

Definition capacities (nt : NameTable) : Z :=
  utf8Capacity nt + constantCapacity nt + uniqueCapacity nt.

(** The invariant of the name table: the buckets index the names, no name is entered twice, each
    vector fits its capacity, and at most half of the buckets can ever be in use. *)
Record NameTable_wf (nt : NameTable) : Prop := {
  nt_table : TableInv (namesByHash nt) (entries nt);
  nt_nodup : NoDup (allNames nt).*2;
  nt_utf8 : vsize (utf8Names nt) <= utf8Capacity nt /\ 1 <= utf8Capacity nt;
  nt_constant : vsize (constantNames nt) <= constantCapacity nt /\ 1 <= constantCapacity nt;
  nt_unique : vsize (uniqueNames nt) <= uniqueCapacity nt /\ 1 <= uniqueCapacity nt;
  nt_room : 2 * capacities nt <= Z.of_nat (length (namesByHash nt));
}.

Lemma length_entries nt :
  Z.of_nat (length (entries nt)) =
  vsize (utf8Names nt) + vsize (constantNames nt) + vsize (uniqueNames nt).
Proof.
  unfold entries, allNames, vsize. rewrite length_fmap, !length_app, !length_refs. lia.
Qed.

Lemma elem_entries nt h raw :
  (h, raw) ∈ entries nt <-> exists d, h = hashName d /\ (raw, d) ∈ allNames nt.
Proof.
  unfold entries. rewrite list_elem_of_fmap. split.
  - intros ([raw' d] & [= -> ->] & H). by exists d.
  - intros (d & -> & H). by exists (raw, d).
Qed.

(** All indices stay below the range of a reference. *)
Lemma index_bound nt :
  NameTable_wf nt -> vsize (utf8Names nt) < 2 ^ 30 /\ vsize (constantNames nt) < 2 ^ 30 /\
    vsize (uniqueNames nt) < 2 ^ 30 /\ (length (entries nt) + 1 < length (namesByHash nt))%nat.
Proof.
  intros [[(k & Hk & Hsz) _ _ _ _] _ [? ?] [? ?] [? ?] Hroom]. unfold capacities in Hroom.
  pose proof (length_entries nt). assert (2 ^ k <= 2 ^ 31) by (apply Z.pow_le_mono_r; lia).
  unfold vsize in *. lia.
Qed.

(** A reference stands for one name. *)
Lemma refs_functional {A} k (mk : A -> NameData) l raw d i :
  (raw, d) ∈ refs k mk l -> vsize l < 2 ^ 30 -> raw = makeNameRef k i -> 0 <= i < 2 ^ 30 ->
  exists a, d = mk a /\ l !! Z.to_nat i = Some a.
Proof.
  intros (j & a & -> & -> & Hj)%refs_elem Hl Heq Hi.
  pose proof (lookup_lt_Some _ _ _ Hj). unfold vsize in Hl.
  apply (f_equal unsafeTableIndex) in Heq. rewrite !makeNameRef_index in Heq by lia.
  exists a. split; [done |]. replace (Z.to_nat i) with j by lia. done.
Qed.

(** The kind and the index of the reference of a name in the table. *)
Lemma allNames_data nt raw d :
  NameTable_wf nt -> (raw, d) ∈ allNames nt ->
  raw <> 0 /\ is_u32 raw /\
  match d with
  | NUtf8 s => nameKind raw = Some UTF8 /\ dataUtf8 nt raw = Some s
  | NConstant o => nameKind raw = Some CONSTANT /\ dataCnst nt raw = Some o
  | NUnique u => nameKind raw = Some UNIQUE /\ dataUnique nt raw = Some u
  end.
Proof.
  intros Hwf Hin. destruct (index_bound nt Hwf) as (H1 & H2 & H3 & _). unfold vsize in *.
  unfold allNames in Hin. rewrite !elem_of_app, !refs_elem in Hin.
  destruct Hin as [(i & a & -> & -> & Hi) | [(i & a & -> & -> & Hi) | (i & a & -> & -> & Hi)]];
    pose proof (lookup_lt_Some _ _ _ Hi);
    (split; [apply makeNameRef_nonzero; lia |]); (split; [apply makeNameRef_u32; lia |]);
    (split; [apply makeNameRef_kind; lia |]);
    unfold dataUtf8, dataCnst, dataUnique; rewrite makeNameRef_index, Nat2Z.id by lia; done.
Qed.

(** The predicates recognise exactly their name. *)
Definition predicate (nt : NameTable) (d : NameData) : Z -> bool :=
  match d with
  | NUtf8 s => isUtf8 nt s
  | NConstant original => isConstant nt original
  | NUnique u => isUnique nt (un_kind u) (un_original u) (un_num u)
  end.

Lemma predicate_spec nt d raw d' :
  NameTable_wf nt -> (raw, d') ∈ allNames nt -> predicate nt d raw = true <-> d' = d.
Proof.
  intros Hwf Hin. destruct (allNames_data nt raw d' Hwf Hin) as (_ & _ & Hd).
  destruct d as [s | o | [o n k]], d' as [s' | o' | u']; cbn [predicate];
    unfold isUtf8, isConstant, isUnique; cbn [un_kind un_original un_num];
    destruct Hd as [Hk Hv]; rewrite ?Hk, ?Hv, andb_true_iff, !bool_decide_eq_true;
    (split; [intros [? ?]; congruence | intros [= ->]; done || (intros; congruence)]).
Qed.

(** Looking a name up finds its reference, or the bucket it belongs in. *)
Lemma lookup_name_bucket nt d :
  NameTable_wf nt ->
  exists id b, lookupBucket (namesByHash nt) (hashName d) (predicate nt d) = Some id /\
    namesByHash nt !! Z.to_nat id = Some b /\
    ((present b = true /\ (brawId b, d) ∈ allNames nt) \/
     (present b = false /\ freeSlot (namesByHash nt) (hashName d) id /\
      forall raw, (raw, d) ∉ allNames nt)).
Proof.
  intros Hwf. destruct (index_bound nt Hwf) as (_ & _ & _ & Hroom).
  destruct (lookupBucket_spec _ _ (hashName d) (predicate nt d) (nt_table _ Hwf) Hroom)
    as (id & b & Hid & Hb & Hcase).
  exists id, b. split; [done |]. split; [done |].
  destruct Hcase as [(Hp & He & Hpred) | (Hp & Hfree & Hnone)]; [left | right].
  - split; [done |]. apply elem_entries in He as (d' & _ & Hd').
    apply (predicate_spec nt d (brawId b) d' Hwf Hd') in Hpred as ->. done.
  - split; [done |]. split; [done |]. intros raw Hin.
    assert (He : (hashName d, raw) ∈ entries nt) by (apply elem_entries; by exists d).
    specialize (Hnone raw He). pose proof (proj2 (predicate_spec nt d raw d Hwf Hin) eq_refl).
    congruence.
Qed.

Lemma nodup_functional nt d r1 r2 :
  NameTable_wf nt -> (r1, d) ∈ allNames nt -> (r2, d) ∈ allNames nt -> r1 = r2.
Proof.
  intros Hwf H1 H2. apply list_elem_of_lookup in H1 as [i Hi], H2 as [j Hj].
  assert (i = j) as ->; [| congruence]. eapply (NoDup_lookup _ i j d); [apply (nt_nodup _ Hwf) | |];
    rewrite list_lookup_fmap, ?Hi, ?Hj; done.
Qed.

(** Growing the vectors and the table changes no name. *)
Lemma expandNames_spec nt a b c :
  NameTable_wf nt -> a + b + c <= 2 ^ 30 ->
  utf8Capacity nt <= a -> constantCapacity nt <= b -> uniqueCapacity nt <= c ->
  exists nt', expandNames nt a b c = Some nt' /\ NameTable_wf nt' /\ allNames nt' = allNames nt /\
    utf8Names nt' = utf8Names nt /\ constantNames nt' = constantNames nt /\
    uniqueNames nt' = uniqueNames nt /\
    utf8Capacity nt' = a /\ constantCapacity nt' = b /\ uniqueCapacity nt' = c.
Proof.
  intros Hwf Hbound Ha Hb Hc. pose proof (length_entries nt) as Hlen.
  destruct Hwf as [Htab Hnd [Hu Hu1] [Hk Hk1] [Hq Hq1] Hroom]. unfold capacities in *.
  destruct (expandBuckets_spec _ _ a b c Htab) as (b' & Hb' & Htab' & Hsz & Hgrow);
    [lia | lia | lia | lia | lia |].
  unfold expandNames. rewrite Hb'. cbn. eexists. split; [done |].
  rewrite !Z.max_r by lia. split; [| by cbn].
  split; cbn; [done | done | lia | lia | lia | unfold capacities; cbn; lia].
Qed.

(** A free bucket for a hash after growing. *)
Lemma lookup_empty_bucket nt h :
  NameTable_wf nt ->
  exists id, lookupBucket (namesByHash nt) h isEmpty = Some id /\ freeSlot (namesByHash nt) h id.
Proof.
  intros Hwf. destruct (index_bound nt Hwf) as (_ & _ & _ & Hroom).
  destruct (lookupBucket_spec _ _ h isEmpty (nt_table _ Hwf) Hroom) as (id & b & Hid & _ & Hcase).
  exists id. split; [done |]. destruct Hcase as [(_ & _ & ?) | (_ & ? & _)]; done.
Qed.

(** Appending a new name and filling its bucket keeps the invariant. *)
Lemma append_wf nt nt' d raw id :
  NameTable_wf nt -> freeSlot (namesByHash nt) (hashName d) id -> raw <> 0 ->
  (forall r, (r, d) ∉ allNames nt) -> allNames nt' ≡ₚ (raw, d) :: allNames nt ->
  namesByHash nt' = setBucket id (hashName d) raw (namesByHash nt) ->
  vsize (utf8Names nt') <= utf8Capacity nt' -> vsize (constantNames nt') <= constantCapacity nt' ->
  vsize (uniqueNames nt') <= uniqueCapacity nt' ->
  utf8Capacity nt' = utf8Capacity nt -> constantCapacity nt' = constantCapacity nt ->
  uniqueCapacity nt' = uniqueCapacity nt -> NameTable_wf nt'.
Proof.
  intros [Htab Hnd [Hu Hu1] [Hk Hk1] [Hq Hq1] Hroom] Hfree Hraw Hnew Hperm Hbuckets Hs1 Hs2 Hs3 E1 E2 E3.
  split; try lia.
  - rewrite Hbuckets. eapply TableInv_perm; [by apply TableInv_insert |].
    unfold entries. rewrite Hperm. done.
  - rewrite Hperm. cbn. apply NoDup_cons. split; [| done].
    intros Hin. apply list_elem_of_fmap in Hin as ([r d'] & -> & Hin). by apply (Hnew r).
  - unfold capacities in *. rewrite Hbuckets. unfold setBucket. rewrite length_insert. lia.
Qed.

(** What entering a name promises. *)
Definition interned (nt : NameTable) (d : NameData) (raw : Z) (nt' : NameTable) : Prop :=
  NameTable_wf nt' /\ raw <> 0 /\ (raw, d) ∈ allNames nt' /\
  (forall r d', (r, d') ∈ allNames nt -> (r, d') ∈ allNames nt') /\
  (forall r d', (r, d') ∈ allNames nt' -> (r, d') ∈ allNames nt \/ (r, d') = (raw, d)) /\
  ((exists r, (r, d) ∈ allNames nt) -> nt' = nt).

Lemma interned_present nt d raw : NameTable_wf nt -> (raw, d) ∈ allNames nt -> interned nt d raw nt.
Proof.
  intros Hwf Hin. destruct (allNames_data nt raw d Hwf Hin) as (Hr & _).
  split; [done |]. split; [done |]. split; [done |]. auto.
Qed.

Lemma interned_append nt nt' d raw :
  NameTable_wf nt' -> raw <> 0 -> allNames nt' ≡ₚ (raw, d) :: allNames nt ->
  (forall r, (r, d) ∉ allNames nt) -> interned nt d raw nt'.
Proof.
  intros Hwf Hraw Hperm Hnew. split; [done |]. split; [done |]. split; [| split; [| split]].
  - rewrite Hperm. left.
  - intros r d' H. rewrite Hperm. by right.
  - intros r d'. rewrite Hperm. intros [-> | H]%elem_of_cons; auto.
  - intros [r Hr]. by destruct (Hnew r).
Qed.

(** How the new name changes the contents. *)
Lemma allNames_snoc nt nt' d raw :
  match d with
  | NUtf8 s => utf8Names nt' = utf8Names nt ++ [s] /\ constantNames nt' = constantNames nt /\
      uniqueNames nt' = uniqueNames nt /\ raw = makeNameRef UTF8 (vsize (utf8Names nt))
  | NConstant o => utf8Names nt' = utf8Names nt /\ constantNames nt' = constantNames nt ++ [o] /\
      uniqueNames nt' = uniqueNames nt /\ raw = makeNameRef CONSTANT (vsize (constantNames nt))
  | NUnique u => utf8Names nt' = utf8Names nt /\ constantNames nt' = constantNames nt /\
      uniqueNames nt' = uniqueNames nt ++ [u] /\ raw = makeNameRef UNIQUE (vsize (uniqueNames nt))
  end -> allNames nt' ≡ₚ (raw, d) :: allNames nt.
Proof.
  unfold allNames. destruct d; intros (-> & -> & -> & ->); rewrite refs_snoc; solve_Permutation.
Qed.

(** The last part of the three entry points. *)
Definition appended (nt : NameTable) (d : NameData) (id : Z) : Z * NameTable :=
  match d with
  | NUtf8 s =>
      let name := makeNameRef UTF8 (vsize (utf8Names nt)) in
      (name, mkNameTable (utf8Names nt ++ [s]) (constantNames nt) (uniqueNames nt)
        (utf8Capacity nt) (constantCapacity nt) (uniqueCapacity nt)
        (setBucket id (hashName d) name (namesByHash nt)))
  | NConstant o =>
      let name := makeNameRef CONSTANT (vsize (constantNames nt)) in
      (name, mkNameTable (utf8Names nt) (constantNames nt ++ [o]) (uniqueNames nt)
        (utf8Capacity nt) (constantCapacity nt) (uniqueCapacity nt)
        (setBucket id (hashName d) name (namesByHash nt)))
  | NUnique u =>
      let name := makeNameRef UNIQUE (vsize (uniqueNames nt)) in
      (name, mkNameTable (utf8Names nt) (constantNames nt) (uniqueNames nt ++ [u])
        (utf8Capacity nt) (constantCapacity nt) (uniqueCapacity nt)
        (setBucket id (hashName d) name (namesByHash nt)))
  end.

Definition has_room (nt : NameTable) (d : NameData) : Prop :=
  match d with
  | NUtf8 _ => vsize (utf8Names nt) < utf8Capacity nt
  | NConstant _ => vsize (constantNames nt) < constantCapacity nt
  | NUnique _ => vsize (uniqueNames nt) < uniqueCapacity nt
  end.

Lemma vsize_snoc {A} (l : list A) a : vsize (l ++ [a]) = vsize l + 1.
Proof. unfold vsize. rewrite length_app. cbn. lia. Qed.

Lemma appended_spec nt d id :
  NameTable_wf nt -> freeSlot (namesByHash nt) (hashName d) id -> has_room nt d ->
  (forall r, (r, d) ∉ allNames nt) ->
  interned nt d (appended nt d id).1 (appended nt d id).2.
Proof.
  intros Hwf Hfree Hroom Hnew. destruct (index_bound nt Hwf) as (H1 & H2 & H3 & _).
  pose proof Hwf as [_ _ [Hu _] [Hk _] [Hq _] _].
  assert (Hraw : (appended nt d id).1 <> 0)
    by (destruct d; cbn; apply makeNameRef_nonzero; unfold vsize in *; lia).
  assert (Hperm : allNames (appended nt d id).2 ≡ₚ ((appended nt d id).1, d) :: allNames nt)
    by (apply allNames_snoc; by destruct d).
  apply interned_append; [| done | done | done].
  eapply append_wf; try eassumption; destruct d; cbn; try done; cbn in Hroom;
    rewrite ?vsize_snoc; lia.
Qed.

Lemma interned_same_names nt nt1 d raw nt' :
  allNames nt1 = allNames nt -> (forall r, (r, d) ∉ allNames nt) ->
  interned nt1 d raw nt' -> interned nt d raw nt'.
Proof.
  intros E Hnew (H1 & H2 & H3 & H4 & H5 & _). rewrite E in *.
  split; [done |]. split; [done |]. split; [done |]. split; [done |]. split; [done |].
  intros [r Hr]. by destruct (Hnew r).
Qed.

(** Growing for a new name of a kind whose vector is full, then finding its bucket. *)
Lemma grow_and_append nt d a b c :
  NameTable_wf nt -> a + b + c <= 2 ^ 30 ->
  utf8Capacity nt <= a -> constantCapacity nt <= b -> uniqueCapacity nt <= c ->
  (match d with
   | NUtf8 _ => vsize (utf8Names nt) < a
   | NConstant _ => vsize (constantNames nt) < b
   | NUnique _ => vsize (uniqueNames nt) < c
   end) ->
  (forall r, (r, d) ∉ allNames nt) ->
  exists nt1 id, expandNames nt a b c = Some nt1 /\
    lookupBucket (namesByHash nt1) (hashName d) isEmpty = Some id /\
    interned nt d (appended nt1 d id).1 (appended nt1 d id).2.
Proof.
  intros Hwf Hbound Ha Hb Hc Hlt Hnew.
  destruct (expandNames_spec nt a b c Hwf Hbound Ha Hb Hc)
    as (nt1 & He & Hwf1 & Hall & E1 & E2 & E3 & E4 & E5 & E6).
  destruct (lookup_empty_bucket nt1 (hashName d) Hwf1) as (id & Hid & Hfree).
  exists nt1, id. split; [done |]. split; [done |].
  apply (interned_same_names nt nt1); [done | done |]. apply appended_spec; [done | done | |].
  - destruct d; unfold has_room; congruence.
  - by rewrite Hall.
Qed.

Lemma enter_spec nt d :
  NameTable_wf nt -> capacities nt <= 2 ^ 29 ->
  exists raw nt', enterName nt d = Some (raw, nt') /\ interned nt d raw nt'.
Proof.
  intros Hwf Hcap. unfold capacities in Hcap. pose proof Hwf as [_ _ [Hu Hu1] [Hk Hk1] [Hq Hq1] _].
  destruct (lookup_name_bucket nt d Hwf) as (id & b & Hid & Hb & Hcase).
  destruct d as [s | o | [o n k]]; cbn [enterName un_kind un_original un_num];
    unfold enterNameUTF8, enterNameConstant, freshNameUnique;
    cbn [hashName predicate un_kind un_original un_num] in Hid; rewrite Hid; cbn; rewrite Hb; cbn;
    (destruct Hcase as [(Hp & Hin) | (Hp & Hfree & Hnew)]; rewrite Hp;
     [exists (brawId b), nt; split; [done | by apply interned_present] |]).
  - destruct (Z.eqb_spec (vsize (utf8Names nt)) (utf8Capacity nt)) as [E | E].
    + rewrite (u32_id (utf8Capacity nt * 2)) by (unfold is_u32; lia).
      destruct (grow_and_append nt (NUtf8 s) (utf8Capacity nt * 2) (constantCapacity nt) (uniqueCapacity nt))
        as (nt1 & id1 & He & Hl & Hint); [done | lia | lia | lia | lia | lia | done |].
      rewrite He. cbn. cbn in Hl. rewrite Hl. cbn. eexists _, _. split; [done | exact Hint].
    + cbn. eexists _, _. split; [done |]. apply (appended_spec nt (NUtf8 s) id); cbn; (done || lia).
  - destruct (Z.eqb_spec (vsize (constantNames nt)) (constantCapacity nt)) as [E | E].
    + rewrite (u32_id (constantCapacity nt * 2)) by (unfold is_u32; lia).
      destruct (grow_and_append nt (NConstant o) (utf8Capacity nt) (constantCapacity nt * 2) (uniqueCapacity nt))
        as (nt1 & id1 & He & Hl & Hint); [done | lia | lia | lia | lia | lia | done |].
      rewrite He. cbn. cbn in Hl. rewrite Hl. cbn. eexists _, _. split; [done | exact Hint].
    + cbn. eexists _, _. split; [done |]. apply (appended_spec nt (NConstant o) id); cbn; (done || lia).
  - destruct (Z.eqb_spec (vsize (uniqueNames nt)) (uniqueCapacity nt)) as [E | E].
    + rewrite (u32_id (uniqueCapacity nt * 2)) by (unfold is_u32; lia).
      destruct (grow_and_append nt (NUnique (mkUniqueName o n k)) (utf8Capacity nt) (constantCapacity nt)
                  (uniqueCapacity nt * 2))
        as (nt1 & id1 & He & Hl & Hint); [done | lia | lia | lia | lia | lia | done |].
      rewrite He. cbn. cbn in Hl. rewrite Hl. cbn. eexists _, _. split; [done | exact Hint].
    + cbn. eexists _, _. split; [done |].
      apply (appended_spec nt (NUnique (mkUniqueName o n k)) id); cbn; (done || lia).
Qed.

Lemma lookup_spec nt d :
  NameTable_wf nt ->
  exists raw, lookupName nt d = Some raw /\
    ((raw <> noName /\ (raw, d) ∈ allNames nt) \/ (raw = noName /\ forall r, (r, d) ∉ allNames nt)).
Proof.
  intros Hwf. destruct (lookup_name_bucket nt d Hwf) as (id & b & Hid & Hb & Hcase).
  exists (if present b then brawId b else noName). split.
  - destruct d as [s | o | [o n k]]; cbn [lookupName un_kind un_original un_num];
      unfold lookupNameUTF8, lookupNameConstant, lookupNameUnique;
      cbn [hashName predicate un_kind un_original un_num] in Hid; rewrite Hid; cbn; by rewrite Hb.
  - destruct Hcase as [(-> & Hin) | (-> & _ & Hnew)]; [left | right]; [| done].
    split; [| done]. by destruct (allNames_data nt _ d Hwf Hin).
Qed.
End Interning.

(** ** Properties *)

(** C14: names are interned. From a well-formed table of ordinary size, entering any name (a
    string, a constant over a name, or a unique name) raises no exception and its probe loops
    terminate, growing the table when a vector is full; the result is a well-formed table in which
    the returned reference, and no other, stands for that name, all earlier references keep their
    names, and nothing changes when the name was there already. *)
Theorem enterName_interns (xxh32 : str -> Z) nt d :
  NameTable_wf xxh32 nt -> capacities nt <= 2 ^ 29 ->
  exists raw nt', enterName xxh32 nt d = Some (raw, nt') /\ interned xxh32 nt d raw nt' /\
    forall r, (r, d) ∈ allNames nt' -> r = raw.
Proof.
  intros Hwf Hcap. destruct (enter_spec xxh32 nt d Hwf Hcap) as (raw & nt' & He & Hint).
  exists raw, nt'. split; [done |]. split; [done |]. destruct Hint as (Hwf' & _ & Hin & _).
  intros r Hr. by apply (nodup_functional xxh32 nt' d).
Qed.

(** A small table, as the constructor of [GlobalState] makes it. *)
Definition emptyTable (a b c : Z) : NameTable :=
  mkNameTable [] [] [] a b c (replicate (Z.to_nat (nextPowerOfTwo (2 * (a + b + c)))) emptyBucket).

Lemma emptyTable_wf xxh32 a b c :
  1 <= a -> 1 <= b -> 1 <= c -> a + b + c <= 2 ^ 29 -> NameTable_wf xxh32 (emptyTable a b c).
Proof.
  intros Ha Hb Hc Hs. destruct (nextPowerOfTwo_spec (2 * (a + b + c))) as (j & Hj & E & Hle & Hmin); [lia |].
  assert (0 < 2 ^ j) by (apply Z.pow_pos_nonneg; lia).
  assert (2 <= j <= 31).
  { split; [| lia]. destruct (Z.le_gt_cases 2 j) as [| Hlt]; [done |].
    assert (2 ^ j <= 2 ^ 1) by (apply Z.pow_le_mono_r; lia). lia. }
  unfold emptyTable. split; cbn [namesByHash utf8Names constantNames uniqueNames utf8Capacity
    constantCapacity uniqueCapacity]; unfold vsize; cbn [length]; try lia.
  - rewrite E. by apply TableInv_empty.
  - constructor.
  - unfold capacities. cbn [utf8Capacity constantCapacity uniqueCapacity].
    rewrite length_replicate, E. lia.
Qed.

Lemma enterName_interns_witness :
  exists raw nt', enterName (fun _ => 5) (emptyTable 1 1 1) (NUtf8 s! "foo") = Some (raw, nt') /\
    (raw, NUtf8 s! "foo") ∈ allNames nt'.
Proof.
  destruct (enterName_interns (fun _ => 5) (emptyTable 1 1 1) (NUtf8 s! "foo"))
    as (raw & nt' & H & (_ & _ & Hin & _) & _);
    [apply emptyTable_wf; lia | vm_compute; discriminate |].
  exists raw, nt'. split; [exact H | exact Hin].
Defined.

(** Looking a name up in a well-formed table terminates without an exception and returns the
    reference that stands for it, or [noName] exactly when the table does not have it. *)
Theorem lookupName_correct (xxh32 : str -> Z) nt d :
  NameTable_wf xxh32 nt ->
  exists raw, lookupName xxh32 nt d = Some raw /\
    ((raw <> noName /\ (raw, d) ∈ allNames nt) \/ (raw = noName /\ forall r, (r, d) ∉ allNames nt)).
Proof. apply lookup_spec. Qed.

Lemma lookupName_correct_witness :
  exists raw, lookupName (fun _ => 0) (emptyTable 1 1 1) (NConstant 5) = Some raw /\
    ((raw <> noName /\ (raw, NConstant 5) ∈ allNames (emptyTable 1 1 1)) \/
     (raw = noName /\ forall r, (r, NConstant 5) ∉ allNames (emptyTable 1 1 1))).
Proof. apply lookupName_correct, emptyTable_wf; lia. Defined.

(** [nextPowerOfTwo], a sequence of shifts and ors, computes the least power of two that is not
    below its argument, for every argument up to [2^31]. *)
Theorem nextPowerOfTwo_least v :
  0 <= v <= 2 ^ 31 -> exists j, 0 <= j <= 31 /\ nextPowerOfTwo v = 2 ^ j /\ v <= 2 ^ j /\
    (forall i, 0 <= i -> v <= 2 ^ i -> j <= i).
Proof. apply nextPowerOfTwo_spec. Qed.

Lemma nextPowerOfTwo_least_witness :
  exists j, 0 <= j <= 31 /\ nextPowerOfTwo 1000 = 2 ^ j /\ 1000 <= 2 ^ j.
Proof.
  destruct (nextPowerOfTwo_least 1000) as (j & H1 & H2 & H3 & _); [lia |]. by exists j.
Defined.
