(* ===== verification/NameText.v ===== *)
(** * Text of names

    Models the printing and classification of names in src/core/Names.cc. A unique or constant name
    refers to the name it was derived from, so each function follows a chain of references; [None]
    stands for a read outside the table or for a chain longer than the table. [censorForSnapshotTests]
    is an argument, and so are the well-known names, whose references the build generates. *)

From stdpp Require Import pretty.
From S2P Require Import Prelude Pickler FileHash NameTable.

#[local] Open Scope Z_scope.

(** [fmt::format] of a [uint32_t] *)
Definition decimal (z : Z) : str := String.list_ascii_of_string (pretty (Z.to_N z)).

(** The references of the names in core/Names.h that this file mentions *)
Record WellKnownNames := mkWellKnownNames {
  wk_staticInit : Z; wk_leq : Z; wk_geq : Z; wk_tripleEq : Z; wk_eqeq : Z; wk_neq : Z }.

Section Text.
Context (nt : NameTable).

(** ** Printing *)

Definition originalName (raw : Z) : option Z :=
  match nameKind raw with
  | Some UNIQUE => un_original <$> dataUnique nt raw
  | Some CONSTANT => dataCnst nt raw
  | _ => None
  end.

(** What [show] prints for a unique name, given the text of its original *)
Definition showUnique (u : UniqueName) (original : str) : str :=
  match un_kind u with
  | Singleton => s! "<Class:" ++ original ++ s! ">"
  | Overload => original ++ s! " (overload." ++ decimal (un_num u) ++ s! ")"
  | _ => original
  end.

Fixpoint show_loop (fuel : nat) (raw : Z) : option str :=
  match fuel with
  | O => None
  | S fuel =>
      match nameKind raw with
      | Some UTF8 => dataUtf8 nt raw
      | Some UNIQUE =>
          u ← dataUnique nt raw;
          original ← show_loop fuel (un_original u);
          Some (showUnique u original)
      | Some CONSTANT => original ← dataCnst nt raw; show_loop fuel original
      | None => None
      end
  end.

Fixpoint shortName_loop (fuel : nat) (raw : Z) : option str :=
  match fuel with
  | O => None
  | S fuel =>
      match nameKind raw with
      | Some UTF8 => dataUtf8 nt raw
      | Some UNIQUE => u ← dataUnique nt raw; shortName_loop fuel (un_original u)
      | Some CONSTANT => original ← dataCnst nt raw; shortName_loop fuel original
      | None => None
      end
  end.

(** No chain is longer than the table. *)
Definition chainFuel : nat := length (allNames nt).

Definition show (raw : Z) : option str := show_loop chainFuel raw.

Definition shortName (raw : Z) : option str := shortName_loop chainFuel raw.

Context (wk : WellKnownNames) (censorForSnapshotTests : bool).

(** The number a unique name is printed with *)
Definition uniqueNum (u : UniqueName) : str :=
  if censorForSnapshotTests && bool_decide (un_kind u = Namer) && (un_original u =? wk_staticInit wk)
  then s! "CENSORED"
  else decimal (un_num u).

Definition toStringUnique (u : UniqueName) (original : str) : str :=
  match un_kind u with
  | Singleton => s! "<Class:" ++ original ++ s! ">"
  | Overload => original ++ s! " (overload." ++ decimal (un_num u) ++ s! ")"
  | DesugarCsend => s! "<&" ++ original ++ s! ">"
  | _ => original ++ s! "$" ++ uniqueNum u
  end.

Fixpoint toString_loop (fuel : nat) (raw : Z) : option str :=
  match fuel with
  | O => None
  | S fuel =>
      match nameKind raw with
      | Some UTF8 => dataUtf8 nt raw
      | Some UNIQUE =>
          u ← dataUnique nt raw;
          original ← show_loop fuel (un_original u);
          Some (toStringUnique u original)
      | Some CONSTANT =>
          o ← dataCnst nt raw;
          original ← toString_loop fuel o;
          Some (s! "<C " ++ original ++ s! ">")
      | None => None
      end
  end.

Definition toStringName (raw : Z) : option str := toString_loop chainFuel raw.

Definition rawKind (k : UniqueNameKind) : str :=
  match k with
  | Desugar => s! "D" | Namer => s! "N" | MangleRename => s! "M" | Singleton => s! "S"
  | Overload => s! "O" | TypeVarName => s! "T" | PositionalArg => s! "A"
  | MangledKeywordArg => s! "K" | ResolverMissingClass => s! "R" | TEnum => s! "E"
  | StructName => s! "U" | Packager => s! "G" | DesugarCsend => s! "&"
  end.

Definition showRawUnique (u : UniqueName) (original : str) : str :=
  s! "<" ++ rawKind (un_kind u) ++ s! " " ++ original ++ s! " $" ++ uniqueNum u ++ s! ">".

Fixpoint showRaw_loop (fuel : nat) (raw : Z) : option str :=
  match fuel with
  | O => None
  | S fuel =>
      match nameKind raw with
      | Some UTF8 => s ← dataUtf8 nt raw; Some (s! "<U " ++ s ++ s! ">")
      | Some UNIQUE =>
          u ← dataUnique nt raw;
          original ← showRaw_loop fuel (un_original u);
          Some (showRawUnique u original)
      | Some CONSTANT =>
          o ← dataCnst nt raw;
          original ← showRaw_loop fuel o;
          Some (s! "<C " ++ original ++ s! ">")
      | None => None
      end
  end.

Definition showRaw (raw : Z) : option str := showRaw_loop chainFuel raw.

(** ** Classification *)

Definition isOverloadName (raw : Z) : option bool :=
  match nameKind raw with
  | Some UNIQUE => u ← dataUnique nt raw; Some (bool_decide (un_kind u = Overload))
  | _ => Some false
  end.

(** [None] also where the source raises: a [DesugarCsend] name. *)
Fixpoint isClassName_loop (fuel : nat) (raw : Z) : option bool :=
  match fuel with
  | O => None
  | S fuel =>
      match nameKind raw with
      | Some UTF8 => Some false
      | Some UNIQUE =>
          u ← dataUnique nt raw;
          match un_kind u with
          | Singleton | MangleRename | TEnum | StructName => isClassName_loop fuel (un_original u)
          | DesugarCsend => None
          | _ => Some false
          end
      | Some CONSTANT => Some true
      | None => None
      end
  end.

Definition isClassName (raw : Z) : option bool := isClassName_loop chainFuel raw.

Definition isTEnumName (raw : Z) : option bool :=
  match nameKind raw with
  | Some CONSTANT =>
      original ← dataCnst nt raw;
      match nameKind original with
      | Some UNIQUE => u ← dataUnique nt original; Some (bool_decide (un_kind u = TEnum))
      | _ => Some false
      end
  | _ => Some false
  end.

Definition isValidConstantName (raw : Z) : option bool :=
  match nameKind raw with
  | Some UTF8 => Some true
  | Some UNIQUE =>
      u ← dataUnique nt raw;
      match un_kind u with
      | ResolverMissingClass | TEnum | StructName | Packager => Some true
      | DesugarCsend => None
      | _ => Some false
      end
  | Some CONSTANT => Some false
  | None => None
  end.

Definition isAnyStaticInitName (raw : Z) : option bool :=
  if raw =? wk_staticInit wk then Some true
  else
    match nameKind raw with
    | Some UNIQUE => u ← dataUnique nt raw; Some (un_original u =? wk_staticInit wk)
    | _ => Some false
    end.

Definition isUniqueNameOf (raw name : Z) : option bool :=
  match nameKind raw with
  | Some UNIQUE => u ← dataUnique nt raw; Some (un_original u =? name)
  | _ => Some false
  end.

Definition hasUniqueNameKind (raw : Z) (uniqueNameKind : UniqueNameKind) : option bool :=
  match nameKind raw with
  | Some UNIQUE => u ← dataUnique nt raw; Some (bool_decide (un_kind u = uniqueNameKind))
  | _ => Some false
  end.

Definition isSetter (raw : Z) : option bool :=
  match nameKind raw with
  | Some UTF8 =>
      rawName ← dataUtf8 nt raw;
      if (length rawName <? 2)%nat then Some false
      else if bool_decide (last rawName = Some "="%char) then
        Some (negb ((raw =? wk_leq wk) || (raw =? wk_geq wk) || (raw =? wk_tripleEq wk) ||
                    (raw =? wk_eqeq wk) || (raw =? wk_neq wk)))
      else Some false
  | _ => Some false
  end.
End Text.

(** ** Derived names *)

Section Derived.
Context (xxh32 : str -> Z).

Definition addEq (nt : NameTable) (raw : Z) : option (Z * NameTable) :=
  name ← dataUtf8 nt raw; enterNameUTF8 xxh32 nt (name ++ s! "=").

Definition lookupWithEq (nt : NameTable) (raw : Z) : option Z :=
  name ← dataUtf8 nt raw; lookupNameUTF8 xxh32 nt (name ++ s! "=").

Definition addQuestion (nt : NameTable) (raw : Z) : option (Z * NameTable) :=
  name ← dataUtf8 nt raw; enterNameUTF8 xxh32 nt (name ++ s! "?").

Definition prepend (nt : NameTable) (raw : Z) (s : str) : option (Z * NameTable) :=
  name ← dataUtf8 nt raw; enterNameUTF8 xxh32 nt (s ++ name).

Definition addAt (nt : NameTable) (raw : Z) : option (Z * NameTable) :=
  name ← dataUtf8 nt raw; enterNameUTF8 xxh32 nt (s! "@" ++ name).

Definition lookupWithAt (nt : NameTable) (raw : Z) : option Z :=
  name ← dataUtf8 nt raw; lookupNameUTF8 xxh32 nt (s! "@" ++ name).
End Derived.

(** ** Chains of names *)

(** [grounded nt raw n]: [n] steps from [raw] to a string name. *)
Inductive grounded (nt : NameTable) : Z -> nat -> Prop :=
| grounded_utf8 raw s : (raw, NUtf8 s) ∈ allNames nt -> grounded nt raw 0
| grounded_unique raw u n :
    (raw, NUnique u) ∈ allNames nt -> grounded nt (un_original u) n -> grounded nt raw (S n)
| grounded_constant raw o n :
    (raw, NConstant o) ∈ allNames nt -> grounded nt o n -> grounded nt raw (S n).

(** Every name of the table goes back to a string. *)
Definition all_grounded (nt : NameTable) : Prop :=
  forall raw d, (raw, d) ∈ allNames nt -> exists n, grounded nt raw n.

(** The name a new name is derived from is in the table. *)
Definition original_known (nt : NameTable) (d : NameData) : Prop :=
  match d with
  | NUtf8 _ => True
  | NConstant o => exists d', (o, d') ∈ allNames nt
  | NUnique u => exists d', (un_original u, d') ∈ allNames nt
  end.

Lemma allNames_functional nt raw d1 d2 : (exists h, NameTable_wf h nt) ->
  (raw, d1) ∈ allNames nt -> (raw, d2) ∈ allNames nt -> d1 = d2.
Proof.
  intros [h Hwf] H1 H2. destruct (allNames_data h nt raw d1 Hwf H1) as (_ & _ & D1).
  destruct (allNames_data h nt raw d2 Hwf H2) as (_ & _ & D2).
  destruct d1, d2; destruct D1, D2; congruence.
Qed.

Lemma grounded_mono nt nt' raw n :
  (forall r d, (r, d) ∈ allNames nt -> (r, d) ∈ allNames nt') -> grounded nt raw n -> grounded nt' raw n.
Proof. intros Hsub. induction 1; [eapply grounded_utf8 | eapply grounded_unique | eapply grounded_constant]; eauto. Qed.

Lemma grounded_depth h nt raw n m : NameTable_wf h nt ->
  grounded nt raw n -> grounded nt raw m -> n = m.
Proof.
  intros Hwf Hn. revert m. assert (Hf : exists h, NameTable_wf h nt) by eauto.
  induction Hn as [raw s H | raw u n H Hg IH | raw o n H Hg IH]; intros m Hm; inversion Hm; subst;
    match goal with
    | H1 : (?r, _) ∈ _, H2 : (?r, _) ∈ _ |- _ =>
        pose proof (allNames_functional nt r _ _ Hf H1 H2); simplify_eq; auto
    end.
Qed.

(** The names of a chain are different. *)
Lemma grounded_chain h nt raw n : NameTable_wf h nt -> grounded nt raw n ->
  exists l, length l = S n /\ NoDup l /\ l ⊆ (allNames nt).*1 /\
    forall r, r ∈ l -> exists m, (m <= n)%nat /\ grounded nt r m.
Proof.
  intros Hwf. assert (Hel : forall r d, (r, d) ∈ allNames nt -> r ∈ (allNames nt).*1)
    by (intros r d H; apply list_elem_of_fmap; by exists (r, d)).
  assert (Hstep : forall r o n d, (r, d) ∈ allNames nt -> grounded nt r (S n) -> grounded nt o n ->
    (exists l, length l = S n /\ NoDup l /\ l ⊆ (allNames nt).*1 /\
      forall r, r ∈ l -> exists m, (m <= n)%nat /\ grounded nt r m) ->
    exists l, length l = S (S n) /\ NoDup l /\ l ⊆ (allNames nt).*1 /\
      forall r, r ∈ l -> exists m, (m <= S n)%nat /\ grounded nt r m).
  { intros r o n' d Hin Hr Ho (l & Hl & Hnd & Hsub & Hg). exists (r :: l). split_and!.
    - cbn. by rewrite Hl.
    - constructor; [| done]. intros (m & Hm & Hgm)%Hg.
      pose proof (grounded_depth h nt r _ _ Hwf Hr Hgm). lia.
    - intros x [-> | Hx]%elem_of_cons; [by eapply Hel | by apply Hsub].
    - intros x [-> | (m & Hm & Hgm)%Hg]%elem_of_cons; [eauto | exists m; split; [lia | done]]. }
  induction 1 as [raw s H | raw u n H Hg IH | raw o n H Hg IH].
  - exists [raw]. split_and!; [done | apply NoDup_singleton | |].
    + intros x ->%list_elem_of_singleton. by eapply Hel.
    + intros x ->%list_elem_of_singleton. exists O. split; [lia | by econstructor].
  - eapply (Hstep raw (un_original u)); eauto. by eapply grounded_unique.
  - eapply (Hstep raw o); eauto. by eapply grounded_constant.
Qed.

Lemma grounded_bound h nt raw n : NameTable_wf h nt -> grounded nt raw n -> (n < chainFuel nt)%nat.
Proof.
  intros Hwf Hg. destruct (grounded_chain h nt raw n Hwf Hg) as (l & Hl & Hnd & Hsub & _).
  pose proof (submseteq_length _ _ (NoDup_submseteq _ _ Hnd Hsub)) as H.
  rewrite length_fmap in H. unfold chainFuel. lia.
Qed.

(** ** Texts *)

(** Two tables, the first contained in the second. *)
Section Stable.
Context (h : str -> Z) (nt nt' : NameTable) (wk : WellKnownNames) (censor : bool).
Context (Hwf : NameTable_wf h nt) (Hwf' : NameTable_wf h nt').
Context (Hsub : forall r d, (r, d) ∈ allNames nt -> (r, d) ∈ allNames nt').

(** Rewrites the kind and the data of a name of the smaller table, in both tables. *)
Ltac name_data H :=
  let H' := fresh in
  pose proof (Hsub _ _ H) as H';
  apply (allNames_data h _ _ _ Hwf) in H as (_ & _ & ? & ?);
  apply (allNames_data h _ _ _ Hwf') in H' as (_ & _ & _ & ?).

(** [f] and [f'] give the name the same text with any fuel above its depth. *)
Definition texts_agree {A} (f f' : nat -> Z -> option A) (raw : Z) (n : nat) : Prop :=
  exists t, forall fuel, (n < fuel)%nat -> f fuel raw = Some t /\ f' fuel raw = Some t.

Ltac solve_text :=
  intros [| fuel] Hfuel; [lia |]; cbn;
  repeat match goal with H : nameKind _ = Some _ |- _ => rewrite H end;
  repeat match goal with H : _ = Some _ |- _ => rewrite H; cbn end;
  try match goal with Ht : forall fuel, (_ < fuel)%nat -> _ |- _ =>
    destruct (Ht fuel ltac:(lia)) as [-> ->] end; done.

Lemma show_agree raw n : grounded nt raw n -> texts_agree (show_loop nt) (show_loop nt') raw n.
Proof.
  induction 1 as [raw s H | raw u n H Hg [t Ht] | raw o n H Hg [t Ht]]; name_data H.
  - exists s. solve_text.
  - exists (showUnique u t). solve_text.
  - exists t. solve_text.
Qed.

Lemma shortName_agree raw n :
  grounded nt raw n -> texts_agree (shortName_loop nt) (shortName_loop nt') raw n.
Proof.
  induction 1 as [raw s H | raw u n H Hg [t Ht] | raw o n H Hg [t Ht]]; name_data H.
  - exists s. solve_text.
  - exists t. solve_text.
  - exists t. solve_text.
Qed.

Lemma toString_agree raw n :
  grounded nt raw n -> texts_agree (toString_loop nt wk censor) (toString_loop nt' wk censor) raw n.
Proof.
  induction 1 as [raw s H | raw u n H Hg _ | raw o n H Hg [t Ht]]; name_data H.
  - exists s. solve_text.
  - destruct (show_agree _ _ Hg) as [t Ht]. exists (toStringUnique wk censor u t). solve_text.
  - exists (s! "<C " ++ t ++ s! ">"). solve_text.
Qed.

Lemma showRaw_agree raw n :
  grounded nt raw n -> texts_agree (showRaw_loop nt wk censor) (showRaw_loop nt' wk censor) raw n.
Proof.
  induction 1 as [raw s H | raw u n H Hg [t Ht] | raw o n H Hg [t Ht]]; name_data H.
  - exists (s! "<U " ++ s ++ s! ">"). solve_text.
  - exists (showRawUnique wk censor u t). solve_text.
  - exists (s! "<C " ++ t ++ s! ">"). solve_text.
Qed.

Lemma agree_texts {A} (f f' : nat -> Z -> option A) raw n :
  grounded nt raw n -> texts_agree f f' raw n ->
  exists t, f (chainFuel nt) raw = Some t /\ f' (chainFuel nt') raw = Some t.
Proof.
  intros Hg [t Ht]. exists t. split.
  - apply Ht. by eapply (grounded_bound h).
  - apply Ht. eapply (grounded_bound h); [done |]. by apply (grounded_mono nt).
Qed.

Lemma texts_stable raw n : grounded nt raw n ->
  (exists t, show nt raw = Some t /\ show nt' raw = Some t) /\
  (exists t, shortName nt raw = Some t /\ shortName nt' raw = Some t) /\
  (exists t, toStringName nt wk censor raw = Some t /\ toStringName nt' wk censor raw = Some t) /\
  (exists t, showRaw nt wk censor raw = Some t /\ showRaw nt' wk censor raw = Some t).
Proof.
  intros Hg. split_and!; eapply agree_texts; eauto using show_agree, shortName_agree, toString_agree,
    showRaw_agree.
Qed.
End Stable.

Lemma all_grounded_enter xxh32 nt d raw nt' :
  all_grounded nt -> original_known nt d -> interned xxh32 nt d raw nt' -> all_grounded nt'.
Proof.
  intros Hg Hd (_ & _ & Hin & Hsub & Hnew & _) r d' [Hr | [= -> ->]]%Hnew.
  { destruct (Hg r d' Hr) as [n Hn]. exists n. by apply (grounded_mono nt). }
  destruct d as [s | o | u]; cbn in Hd.
  - exists O. by eapply grounded_utf8.
  - destruct Hd as [d' Hd]. destruct (Hg _ _ Hd) as [n Hn]. exists (S n).
    eapply grounded_constant; [done | by apply (grounded_mono nt)].
  - destruct Hd as [d' Hd]. destruct (Hg _ _ Hd) as [n Hn]. exists (S n).
    eapply grounded_unique; [done | by apply (grounded_mono nt)].
Qed.

(** ** Properties *)

(** Names can always be printed, and printing is stable. In a well-formed table in which every
    chain of derived names ends in a string, entering a name whose original is in the table keeps
    that so, and every name that was there, and the new one, has a text in each of the four forms:
    the loops end within the size of the table, and for the old names the texts do not change. *)
Theorem name_text_stable xxh32 wk censor nt d raw nt' :
  NameTable_wf xxh32 nt -> capacities nt <= 2 ^ 29 -> all_grounded nt -> original_known nt d ->
  enterName xxh32 nt d = Some (raw, nt') ->
  all_grounded nt' /\
  (forall r d', (r, d') ∈ allNames nt ->
    (exists t, show nt r = Some t /\ show nt' r = Some t) /\
    (exists t, shortName nt r = Some t /\ shortName nt' r = Some t) /\
    (exists t, toStringName nt wk censor r = Some t /\ toStringName nt' wk censor r = Some t) /\
    (exists t, showRaw nt wk censor r = Some t /\ showRaw nt' wk censor r = Some t)) /\
  is_Some (show nt' raw) /\ is_Some (shortName nt' raw) /\
  is_Some (toStringName nt' wk censor raw) /\ is_Some (showRaw nt' wk censor raw).
Proof.
  intros Hwf Hcap Hg Hd He. destruct (enter_spec xxh32 nt d Hwf Hcap) as (raw' & nt'' & He' & Hint).
  rewrite He in He'. injection He' as <- <-.
  assert (Hg' : all_grounded nt') by by eapply all_grounded_enter.
  destruct Hint as (Hwf' & _ & Hin & Hsub & _). split; [done |]. split.
  - intros r d' Hr. destruct (Hg r d' Hr) as [n Hn]. by eapply texts_stable.
  - destruct (Hg' raw d Hin) as [n Hn].
    destruct (texts_stable xxh32 nt' nt' wk censor Hwf' Hwf' (fun _ _ H => H) raw n Hn)
      as ((t1 & H1 & _) & (t2 & H2 & _) & (t3 & H3 & _) & (t4 & H4 & _)). eauto.
Qed.

Lemma emptyTable_grounded a b c : all_grounded (emptyTable a b c).
Proof. intros raw d H. by apply not_elem_of_nil in H. Qed.

Lemma name_text_stable_witness :
  exists raw nt', enterName (fun _ => 5) (emptyTable 1 1 1) (NUtf8 s! "foo") = Some (raw, nt') /\
    show nt' raw = Some (s! "foo").
Proof.
  destruct (enterName (fun _ => 5) (emptyTable 1 1 1) (NUtf8 s! "foo")) as [[raw nt'] |] eqn:E;
    [| by vm_compute in E].
  exists raw, nt'. split; [done |].
  destruct (name_text_stable (fun _ => 5) (mkWellKnownNames 0 0 0 0 0 0) false (emptyTable 1 1 1)
    (NUtf8 s! "foo") raw nt') as (_ & _ & [t Ht] & _).
  - apply emptyTable_wf; lia.
  - vm_compute; discriminate.
  - apply emptyTable_grounded.
  - exact I.
  - exact E.
  - rewrite Ht. vm_compute in E. injection E as <- <-. vm_compute in Ht. by injection Ht as <-.
Defined.

(** Setter names. From a well-formed table of ordinary size, [addEq] of a string name enters
    the name with an equals sign, [lookupWithEq] then finds that name, and it is a setter unless it
    is one of the comparison operators or the name was empty. *)
Theorem addEq_lookupWithEq xxh32 wk nt raw s :
  NameTable_wf xxh32 nt -> capacities nt <= 2 ^ 29 -> (raw, NUtf8 s) ∈ allNames nt ->
  exists ref nt', addEq xxh32 nt raw = Some (ref, nt') /\ NameTable_wf xxh32 nt' /\
    dataUtf8 nt' ref = Some (s ++ s! "=") /\ lookupWithEq xxh32 nt' raw = Some ref /\
    isSetter nt' wk ref =
      Some (negb (bool_decide (s = [] \/ ref ∈ [wk_leq wk; wk_geq wk; wk_tripleEq wk; wk_eqeq wk; wk_neq wk]))).
Proof.
  intros Hwf Hcap Hraw.
  destruct (enter_spec xxh32 nt (NUtf8 (s ++ s! "=")) Hwf Hcap) as (ref & nt' & He & Hint).
  destruct Hint as (Hwf' & Hnz & Hin & Hsub & _). exists ref, nt'.
  destruct (allNames_data _ _ _ _ Hwf Hraw) as (_ & _ & _ & Hd).
  destruct (allNames_data _ _ _ _ Hwf' (Hsub _ _ Hraw)) as (_ & _ & _ & Hd').
  destruct (allNames_data _ _ _ _ Hwf' Hin) as (_ & _ & Hk & Href).
  split_and!; [unfold addEq; rewrite Hd; exact He | done | done | |].
  - unfold lookupWithEq. rewrite Hd'. cbn.
    destruct (lookup_spec xxh32 nt' (NUtf8 (s ++ s! "=")) Hwf') as (r & Hl & Hr). cbn in Hl. rewrite Hl.
    destruct Hr as [[_ Hr] | [_ Hr]]; [| by destruct (Hr ref)].
    f_equal. by eapply (nodup_functional xxh32 nt').
  - unfold isSetter. rewrite Hk, Href. cbn. rewrite length_app, last_snoc. cbn.
    destruct s as [| c s]; [done |]. cbn [length Nat.add]. rewrite Nat.add_1_r. cbn.
    f_equal. f_equal. apply eq_bool_prop_intro.
    rewrite bool_decide_spec, !orb_True, !Is_true_true, !Z.eqb_eq, !elem_of_cons, elem_of_nil.
    split; [tauto | intros [[=] | H]; tauto].
Qed.

Definition fooTable : NameTable :=
  match enterName (fun _ => 5) (emptyTable 1 1 1) (NUtf8 s! "foo") with
  | Some (_, nt) => nt
  | None => emptyTable 1 1 1
  end.

Lemma addEq_lookupWithEq_witness :
  exists ref nt', addEq (fun _ => 5) fooTable 1 = Some (ref, nt') /\
    lookupWithEq (fun _ => 5) nt' 1 = Some ref.
Proof.
  destruct (addEq_lookupWithEq (fun _ => 5) (mkWellKnownNames 0 0 0 0 0 0) fooTable 1 s! "foo")
    as (ref & nt' & H1 & _ & _ & H2 & _); [| vm_compute; discriminate | vm_compute; left | by exists ref, nt'].
  destruct (enter_spec (fun _ => 5) (emptyTable 1 1 1) (NUtf8 s! "foo")) as (raw & nt & He & Hwf & _);
    [apply emptyTable_wf; lia | vm_compute; discriminate |].
  unfold fooTable. by rewrite He.
Defined.
