(* ===== verification/NameTableSer.v ===== *)
(** * Serialization of the name table

    Models [pickleNameTable], [unpickleNameTable], the incremental [pickleNameTableDiff] and
    [unpickleNameTableDiff], and the functions of [Serializer] that store and load them, in
    src/core/serialize/serialize.cc. *)

From S2P Require Import Prelude Pickler FileHash Files NameTable.

#[local] Open Scope Z_scope.
#[local] Open Scope pickle_scope.

(** ** Writing *)

Section Writing.
Context (xxh32 : str -> Z).

Definition pickleUTF8Name (n : str) (p : Pickler) : Pickler := p |> putStr n.

Definition pickleConstantName (original : Z) (p : Pickler) : Pickler := p |> putU4 original.

Definition pickleUniqueName (n : UniqueName) (p : Pickler) : Pickler :=
  p |> putU4 (un_original n) |> putU4 (un_num n) |> putU1 (u1_of_unk (un_kind n)).

(** The entries: the hash, then the name. *)
Definition pickleUtf8Entry (n : str) (p : Pickler) : Pickler :=
  p |> putU4 (hashMixUTF8 xxh32 n) |> pickleUTF8Name n.

Definition pickleConstantEntry (original : Z) (p : Pickler) : Pickler :=
  p |> putU4 (hashMixConstant original) |> pickleConstantName original.

Definition pickleUniqueEntry (n : UniqueName) (p : Pickler) : Pickler :=
  p |> putU4 (hashMixUnique (un_kind n) (un_num n) (un_original n)) |> pickleUniqueName n.

Definition pickleNameTable (nt : NameTable) (p : Pickler) : Pickler :=
  p |> putU4 (vsize (namesByHash nt))
    |> putVec pickleUtf8Entry (utf8Names nt)
    |> putVec pickleConstantEntry (constantNames nt)
    |> putVec pickleUniqueEntry (uniqueNames nt).

(** One table of [pickleNameTableDiff]: the number of names written before, the number of new
    names, and the new names. *)
Definition pickleDiff {A} (put : A -> Pickler -> Pickler) (start : Z) (l : list A) (p : Pickler)
    : Pickler :=
  p |> putU4 start |> putU4 (u32 (vsize l - start)) |> putAll put (drop (Z.to_nat start) l).

Definition pickleNameTableDiff (utf8Written constantWritten uniqueWritten : Z) (nt : NameTable)
    (p : Pickler) : Pickler :=
  p |> pickleDiff pickleUtf8Entry utf8Written (utf8Names nt)
    |> pickleDiff pickleConstantEntry constantWritten (constantNames nt)
    |> pickleDiff pickleUniqueEntry uniqueWritten (uniqueNames nt).
End Writing.

(** ** Reading *)

Definition unpickleUTF8Name : unp str := getStr.

Definition unpickleConstantName : unp Z := getU4.

Definition unpickleUniqueName : unp UniqueName :=
  original ← getU4; num ← getU4; kind ← getU1;
  kind ← lift_option (unk_of_u1 kind);
  mret (mkUniqueName original num kind).

(** [auto &bucket = namesByHash.lookupBucket(hash, isEmpty()); bucket.hash = hash;
    bucket.rawId = ...] *)
Definition fillBucket (hash rawId : Z) (buckets : list Bucket) : unp (list Bucket) :=
  id ← lift_option (lookupBucket buckets hash isEmpty);
  mret (setBucket id hash rawId buckets).

(** [names.emplace_back(name)], for each of the three vectors. The preceding [reserve] leaves room,
    so the capacities do not change. *)
Definition pushUtf8 (name : str) (b : list Bucket) (nt : NameTable) : NameTable :=
  mkNameTable (utf8Names nt ++ [name]) (constantNames nt) (uniqueNames nt)
    (utf8Capacity nt) (constantCapacity nt) (uniqueCapacity nt) b.

Definition pushConstant (name : Z) (b : list Bucket) (nt : NameTable) : NameTable :=
  mkNameTable (utf8Names nt) (constantNames nt ++ [name]) (uniqueNames nt)
    (utf8Capacity nt) (constantCapacity nt) (uniqueCapacity nt) b.

Definition pushUnique (name : UniqueName) (b : list Bucket) (nt : NameTable) : NameTable :=
  mkNameTable (utf8Names nt) (constantNames nt) (uniqueNames nt ++ [name])
    (utf8Capacity nt) (constantCapacity nt) (uniqueCapacity nt) b.

(** The loop that reads the names of one kind. *)
Fixpoint readNames {A} (kind : NameKind) (get : unp A) (push : A -> list Bucket -> NameTable -> NameTable)
    (n : nat) (i : Z) (nt : NameTable) : unp NameTable :=
  match n with
  | O => mret nt
  | S n =>
      hash ← getU4;
      name ← get;
      b ← fillBucket hash (makeNameRef kind i) (namesByHash nt);
      readNames kind get push n (i + 1) (push name b nt)
  end.

Definition readUtf8 := readNames UTF8 unpickleUTF8Name pushUtf8.

Definition readConstant := readNames CONSTANT unpickleConstantName pushConstant.

Definition readUnique := readNames UNIQUE unpickleUniqueName pushUnique.

(** [vector::reserve] *)
Definition reserveNames (a b c : Z) (nt : NameTable) : NameTable :=
  mkNameTable (utf8Names nt) (constantNames nt) (uniqueNames nt)
    (Z.max (utf8Capacity nt) a) (Z.max (constantCapacity nt) b) (Z.max (uniqueCapacity nt) c)
    (namesByHash nt).

(** [int namesSize = p.getU4()]; [vector::reserve] throws on a negative size. *)
Definition getCount : unp Z :=
  n ← getU4; let n := i32 n in if n <? 0 then unp_fail else mret n.

Definition loadUtf8 (nt : NameTable) : unp NameTable :=
  namesSize ← getCount;
  readUtf8 (Z.to_nat namesSize) 0 (reserveNames (nextPowerOfTwo namesSize) 0 0 nt).

Definition loadConstant (nt : NameTable) : unp NameTable :=
  namesSize ← getCount;
  readConstant (Z.to_nat namesSize) 0 (reserveNames 0 (nextPowerOfTwo namesSize) 0 nt).

Definition loadUnique (nt : NameTable) : unp NameTable :=
  namesSize ← getCount;
  readUnique (Z.to_nat namesSize) 0 (reserveNames 0 0 (nextPowerOfTwo namesSize) nt).

(** [clear] keeps the capacities of the vectors; [resize] makes empty buckets. *)
Definition unpickleNameTable (old : NameTable) : unp NameTable :=
  namesByHashSize ← getU4;
  let nt := mkNameTable [] [] [] (utf8Capacity old) (constantCapacity old) (uniqueCapacity old)
              (replicate (Z.to_nat namesByHashSize) emptyBucket) in
  nt ← loadUtf8 nt;
  nt ← loadConstant nt;
  loadUnique nt.

Definition unpickleNameTableDiff (nt : NameTable) : unp NameTable :=
  startUtf8 ← getU4;
  numNewUtf8 ← getU4;
  nt ← readUtf8 (Z.to_nat numNewUtf8) startUtf8 nt;
  startConstant ← getU4;
  numNewConstant ← getU4;
  nt ← readConstant (Z.to_nat numNewConstant) startConstant nt;
  startUnique ← getU4;
  numNewUnique ← getU4;
  readUnique (Z.to_nat numNewUnique) startUnique nt.

(** ** Round trips *)

Definition UniqueName_ok (u : UniqueName) : Prop := is_u32 (un_original u) /\ is_u32 (un_num u).

(** The names of a table have the ranges of their types. *)
Record names_ok (nt : NameTable) : Prop := {
  ok_utf8 : vec_ok (fun s : str => is_size (length s)) (utf8Names nt);
  ok_constant : vec_ok is_u32 (constantNames nt);
  ok_unique : vec_ok UniqueName_ok (uniqueNames nt);
}.

Lemma unk_roundtrip k : unk_of_u1 (u1_of_unk k) = Some k.
Proof. by destruct k. Qed.

Lemma u1_of_unk_range k : is_u8 (u1_of_unk k).
Proof. destruct k; unfold is_u8; cbn; lia. Qed.

#[export] Hint Resolve u1_of_unk_range : words.

Lemma decodes_UniqueName u w :
  UniqueName_ok u -> decodes unpickleUniqueName w (pickleUniqueName u w) u.
Proof.
  intros [Ho Hn]. destruct u as [o n k]. unfold unpickleUniqueName, pickleUniqueName. cbn in *.
  pickle. eapply decodes_bind; [apply decodes_lift_option, unk_roundtrip | apply decodes_ret].
Qed.

Section Loading.
Context (xxh32 : str -> Z).
Context (Hxxh : forall s, is_u32 (xxh32 s)).

Lemma hashName_range d : is_u32 (hashName xxh32 d).
Proof. destruct d; cbn; [apply Hxxh | apply u32_range | apply u32_range]. Qed.

(** The name a value stands for, its writer and its place in the table, for each of the kinds. *)
Record NameVector {A} (kind : NameKind) (mk : A -> NameData) (get : unp A)
    (put : A -> Pickler -> Pickler) (ok : A -> Prop) (names : NameTable -> list A)
    (push : A -> list Bucket -> NameTable -> NameTable) : Prop := {
  nv_decodes : forall a w, ok a -> decodes get w (put a w) a;
  nv_push_names : forall a b nt, names (push a b nt) = names nt ++ [a];
  nv_push_buckets : forall a b nt, namesByHash (push a b nt) = b;
  nv_push_all : forall a b nt,
    allNames (push a b nt) ≡ₚ (makeNameRef kind (vsize (names nt)), mk a) :: allNames nt;
}.

Lemma entries_perm nt nt' raw d :
  allNames nt' ≡ₚ (raw, d) :: allNames nt ->
  entries xxh32 nt' ≡ₚ (hashName xxh32 d, raw) :: entries xxh32 nt.
Proof. intros H. unfold entries. by rewrite H. Qed.

(** Pushing the elements of a vector one by one, with the buckets the loop computes. *)
Inductive pushed {A} (push : A -> list Bucket -> NameTable -> NameTable) :
    list A -> NameTable -> NameTable -> Prop :=
| pushed_nil nt : pushed push [] nt nt
| pushed_cons a l b nt nt' : pushed push l (push a b nt) nt' -> pushed push (a :: l) nt nt'.

Lemma decodes_readNames {A} kind mk get put ok names push
    (Hv : @NameVector A kind mk get put ok names push) l :
  forall nt w,
  TableInv (namesByHash nt) (entries xxh32 nt) -> Forall ok l ->
  vsize (names nt) + vsize l < 2 ^ 30 ->
  (length (entries xxh32 nt) + length l < length (namesByHash nt))%nat ->
  exists nt', decodes (readNames kind get push (length l) (vsize (names nt)) nt) w
      (putAll (fun a p => put a (putU4 (hashName xxh32 (mk a)) p)) l w) nt' /\
    pushed push l nt nt' /\ TableInv (namesByHash nt') (entries xxh32 nt') /\
    length (namesByHash nt') = length (namesByHash nt).
Proof.
  induction l as [| a l IH]; intros nt w Hinv Hok Hidx Hroom.
  { exists nt. split; [apply decodes_ret |]. split; [constructor | done]. }
  inversion Hok as [| ? ? Ha Hl]; subst. unfold vsize in Hidx. cbn [length] in *.
  destruct (lookupBucket_spec _ _ (hashName xxh32 (mk a)) isEmpty Hinv) as (id & b & Hid & _ & Hcase);
    [lia |].
  destruct Hcase as [(_ & _ & ?) | (_ & Hfree & _)]; [done |].
  set (raw := makeNameRef kind (vsize (names nt))).
  set (b' := setBucket id (hashName xxh32 (mk a)) raw (namesByHash nt)).
  assert (Hraw : raw <> 0) by (apply makeNameRef_nonzero; unfold vsize; lia).
  assert (Hlb : length b' = length (namesByHash nt)) by apply length_insert.
  pose proof (nv_push_all _ _ _ _ _ _ _ Hv a b' nt) as Hperm. fold raw in Hperm.
  apply entries_perm in Hperm.
  assert (Hlen : length (entries xxh32 (push a b' nt)) = S (length (entries xxh32 nt)))
    by by rewrite Hperm.
  destruct (IH (push a b' nt) (put a (putU4 (hashName xxh32 (mk a)) w))) as (nt' & Hd & Hp & Hinv' & Hl').
  - rewrite (nv_push_buckets _ _ _ _ _ _ _ Hv). eapply TableInv_perm; [| symmetry; exact Hperm].
    by apply TableInv_insert.
  - done.
  - rewrite (nv_push_names _ _ _ _ _ _ _ Hv), vsize_snoc. unfold vsize. lia.
  - rewrite (nv_push_buckets _ _ _ _ _ _ _ Hv), Hlb, Hlen. lia.
  - rewrite (nv_push_names _ _ _ _ _ _ _ Hv), vsize_snoc in Hd.
    rewrite (nv_push_buckets _ _ _ _ _ _ _ Hv), Hlb in Hl'.
    exists nt'. split; [| split; [by econstructor | done]].
    cbn [readNames putAll fold_left]. eapply decodes_bind; [apply decodes_putU4, hashName_range |].
    eapply decodes_bind; [by apply (nv_decodes _ _ _ _ _ _ _ Hv) |].
    eapply decodes_bind; [| exact Hd]. unfold fillBucket. rewrite Hid.
    eapply decodes_bind; [by apply decodes_lift_option | apply decodes_ret].
Qed.

Lemma utf8_vector :
  NameVector UTF8 NUtf8 unpickleUTF8Name pickleUTF8Name (fun s => is_size (length s)) utf8Names pushUtf8.
Proof.
  split; try done; [intros; by apply decodes_putStr |].
  intros a b nt. by apply allNames_snoc.
Qed.

Lemma constant_vector :
  NameVector CONSTANT NConstant unpickleConstantName pickleConstantName is_u32 constantNames pushConstant.
Proof.
  split; try done; [intros; by apply decodes_putU4 |].
  intros a b nt. by apply allNames_snoc.
Qed.

Lemma unique_vector :
  NameVector UNIQUE NUnique unpickleUniqueName pickleUniqueName UniqueName_ok uniqueNames pushUnique.
Proof.
  split; try done; [intros; by apply decodes_UniqueName |].
  intros a b nt. by apply allNames_snoc.
Qed.

Lemma pushed_utf8 l nt nt' : pushed pushUtf8 l nt nt' ->
  nt' = mkNameTable (utf8Names nt ++ l) (constantNames nt) (uniqueNames nt) (utf8Capacity nt)
          (constantCapacity nt) (uniqueCapacity nt) (namesByHash nt').
Proof.
  induction 1 as [nt | a l b nt nt' _ IH]; [by destruct nt; cbn; rewrite app_nil_r |].
  rewrite IH. cbn. by rewrite <- app_assoc.
Qed.

Lemma pushed_constant l nt nt' : pushed pushConstant l nt nt' ->
  nt' = mkNameTable (utf8Names nt) (constantNames nt ++ l) (uniqueNames nt) (utf8Capacity nt)
          (constantCapacity nt) (uniqueCapacity nt) (namesByHash nt').
Proof.
  induction 1 as [nt | a l b nt nt' _ IH]; [by destruct nt; cbn; rewrite app_nil_r |].
  rewrite IH. cbn. by rewrite <- app_assoc.
Qed.

Lemma pushed_unique l nt nt' : pushed pushUnique l nt nt' ->
  nt' = mkNameTable (utf8Names nt) (constantNames nt) (uniqueNames nt ++ l) (utf8Capacity nt)
          (constantCapacity nt) (uniqueCapacity nt) (namesByHash nt').
Proof.
  induction 1 as [nt | a l b nt nt' _ IH]; [by destruct nt; cbn; rewrite app_nil_r |].
  rewrite IH. cbn. by rewrite <- app_assoc.
Qed.

Lemma decodes_getCount {A} (l : list A) w :
  is_size (length l) -> decodes getCount w (putU4 (Z.of_nat (length l)) w) (vsize l).
Proof.
  intros Hs. unfold getCount. eapply decodes_bind; [by apply decodes_putU4, is_size_u32 |].
  cbv zeta. rewrite i32_size by done. rewrite (proj2 (Z.ltb_ge _ _)) by lia. apply decodes_ret.
Qed.

(** A whole vector: its size, then its names. *)
Lemma decodes_vector {A} kind mk get put ok names push
    (Hv : @NameVector A kind mk get put ok names push) (l : list A) nt nt0 w
    (Hnt : forall n, exists a b c, nt0 n = reserveNames a b c nt) :
  TableInv (namesByHash nt) (entries xxh32 nt) -> vec_ok ok l -> vsize l < 2 ^ 30 ->
  (forall n, names (nt0 n) = []) -> (length (entries xxh32 nt) + length l < length (namesByHash nt))%nat ->
  exists nt', decodes (namesSize ← getCount; readNames kind get push (Z.to_nat namesSize) 0 (nt0 namesSize)) w
      (putVec (fun a p => put a (putU4 (hashName xxh32 (mk a)) p)) l w) nt' /\
    pushed push l (nt0 (vsize l)) nt' /\ TableInv (namesByHash nt') (entries xxh32 nt') /\
    length (namesByHash nt') = length (namesByHash nt).
Proof.
  intros Hinv [Hs Hok] Hidx Hempty Hroom. destruct (Hnt (vsize l)) as (a & b & c & E).
  destruct (decodes_readNames kind mk get put ok names push Hv l (nt0 (vsize l))
              (putU4 (Z.of_nat (length l)) w)) as (nt' & Hd & Hp & Hinv' & Hlen).
  - by rewrite E.
  - done.
  - rewrite Hempty. change (vsize []) with 0. lia.
  - rewrite E. exact Hroom.
  - exists nt'. split; [| split; [done | split; [done | by rewrite Hlen, E]]].
    unfold putVec. eapply decodes_bind; [by apply (decodes_getCount l) |]. rewrite Hempty in Hd.
    unfold vsize at 1. by rewrite Nat2Z.id.
Qed.

Lemma vector_size {A} (ok : A -> Prop) (l : list A) : vec_ok ok l -> is_size (length l).
Proof. by intros [? _]. Qed.

(** What loading gives: the same names under the same references. *)
Definition same_names (nt nt' : NameTable) : Prop :=
  utf8Names nt' = utf8Names nt /\ constantNames nt' = constantNames nt /\
  uniqueNames nt' = uniqueNames nt.

(** Nothing but names and buckets was added: no reallocation, no rehashing. *)
Definition same_shape (nt nt' : NameTable) : Prop :=
  utf8Capacity nt' = utf8Capacity nt /\ constantCapacity nt' = constantCapacity nt /\
  uniqueCapacity nt' = uniqueCapacity nt /\ length (namesByHash nt') = length (namesByHash nt).

Lemma same_names_all nt nt' : same_names nt nt' -> allNames nt' = allNames nt.
Proof. intros (E1 & E2 & E3). unfold allNames. by rewrite E1, E2, E3. Qed.

Lemma same_names_lookup nt nt' d :
  NameTable_wf xxh32 nt -> NameTable_wf xxh32 nt' -> same_names nt nt' ->
  lookupName xxh32 nt' d = lookupName xxh32 nt d.
Proof.
  intros Hwf Hwf' Hs. pose proof (same_names_all _ _ Hs) as E.
  destruct (lookup_spec xxh32 nt d Hwf) as (r & -> & Hr).
  destruct (lookup_spec xxh32 nt' d Hwf') as (r' & -> & Hr'). rewrite E in Hr'. f_equal.
  destruct Hr as [[_ Hr] | [-> Hr]], Hr' as [[_ Hr'] | [-> Hr']]; try done.
  - exact (nodup_functional xxh32 nt d r' r Hwf Hr' Hr).
  - by destruct (Hr' r).
  - by destruct (Hr r').
Qed.

(** The capacities after loading: [reserve] to the next power of two. *)
Definition reloadedCapacity {A} (old : Z) (l : list A) : Z := Z.max old (nextPowerOfTwo (vsize l)).

Definition reload_room (nt old : NameTable) : Prop :=
  2 * (reloadedCapacity (utf8Capacity old) (utf8Names nt) +
       reloadedCapacity (constantCapacity old) (constantNames nt) +
       reloadedCapacity (uniqueCapacity old) (uniqueNames nt)) <= vsize (namesByHash nt).

Lemma capacity_fits {A} old (l : list A) :
  vsize l < 2 ^ 30 -> vsize l <= reloadedCapacity old l /\ 1 <= reloadedCapacity old l.
Proof.
  intros Hl. unfold reloadedCapacity. destruct (nextPowerOfTwo_spec (vsize l)) as (j & Hj & -> & Hle & _).
  - unfold vsize in *. lia.
  - assert (0 < 2 ^ j) by (apply Z.pow_pos_nonneg; lia). lia.
Qed.

Lemma load_name_table nt old w :
  NameTable_wf xxh32 nt -> names_ok nt -> reload_room nt old ->
  0 <= utf8Capacity old -> 0 <= constantCapacity old -> 0 <= uniqueCapacity old ->
  exists nt', decodes (unpickleNameTable old) w (pickleNameTable xxh32 nt w) nt' /\
    NameTable_wf xxh32 nt' /\ same_names nt nt'.
Proof.
  intros Hwf [Hu Hc Hq] Hroom Ho1 Ho2 Ho3.
  destruct (index_bound xxh32 nt Hwf) as (I1 & I2 & I3 & Hfit). pose proof (length_entries xxh32 nt) as Hlen.
  pose proof (nt_table _ _ Hwf) as Htab. destruct (inv_size _ _ Htab) as (k & Hk & Hsz).
  assert (2 ^ k <= 2 ^ 31) by (apply Z.pow_le_mono_r; lia). unfold vsize in Hlen.
  unfold pickleNameTable, unpickleNameTable.
  set (fresh := mkNameTable [] [] [] (utf8Capacity old) (constantCapacity old) (uniqueCapacity old)
                  (replicate (Z.to_nat (vsize (namesByHash nt))) emptyBucket)).
  assert (Hfresh : TableInv (namesByHash fresh) (entries xxh32 fresh)).
  { unfold fresh. cbn. unfold vsize. rewrite Hsz. by apply TableInv_empty. }
  assert (Hfl : length (namesByHash fresh) = length (namesByHash nt)).
  { unfold fresh, vsize. cbn. rewrite length_replicate. lia. }
  set (w1 := putU4 (vsize (namesByHash nt)) w).
  destruct (decodes_vector UTF8 NUtf8 _ _ _ _ _ utf8_vector (utf8Names nt) fresh
              (fun n => reserveNames (nextPowerOfTwo n) 0 0 fresh) w1) as (nt1 & D1 & P1 & T1 & L1);
    [by eauto | done | done | done | done | rewrite Hfl; cbn; lia |].
  apply pushed_utf8 in P1. set (w2 := putVec _ (utf8Names nt) w1) in *.
  assert (N1 : utf8Names nt1 = utf8Names nt /\ constantNames nt1 = [] /\ uniqueNames nt1 = [])
    by by rewrite P1.
  pose proof (length_entries xxh32 nt1) as Hlen1. destruct N1 as (N1 & N1' & N1'').
  rewrite N1, N1', N1'' in Hlen1. unfold vsize in Hlen1. cbn [length] in Hlen1.
  destruct (decodes_vector CONSTANT NConstant _ _ _ _ _ constant_vector (constantNames nt) nt1
              (fun n => reserveNames 0 (nextPowerOfTwo n) 0 nt1) w2) as (nt2 & D2 & P2 & T2 & L2);
    [by eauto | done | done | done | done | rewrite L1, Hfl; lia |].
  apply pushed_constant in P2. set (w3 := putVec _ (constantNames nt) w2) in *.
  assert (N2 : utf8Names nt2 = utf8Names nt /\ constantNames nt2 = constantNames nt /\ uniqueNames nt2 = []).
  { rewrite P2. cbn. by rewrite N1, N1', N1''. }
  pose proof (length_entries xxh32 nt2) as Hlen2. destruct N2 as (N2 & N2' & N2'').
  rewrite N2, N2', N2'' in Hlen2. unfold vsize in Hlen2. cbn [length] in Hlen2.
  destruct (decodes_vector UNIQUE NUnique _ _ _ _ _ unique_vector (uniqueNames nt) nt2
              (fun n => reserveNames 0 0 (nextPowerOfTwo n) nt2) w3) as (nt3 & D3 & P3 & T3 & L3);
    [by eauto | done | done | done | done | rewrite L2, L1, Hfl; lia |].
  apply pushed_unique in P3.
  assert (Hs : same_names nt nt3).
  { rewrite P3. unfold same_names. cbn. by rewrite N2, N2', N2''. }
  exists nt3. split; [| split; [| done]].
  - eapply (decodes_bind _ _ _ w1); [apply decodes_putU4; unfold is_u32, vsize; lia |]. cbv zeta. fold fresh.
    eapply decodes_bind; [exact D1 |]. eapply decodes_bind; [exact D2 |]. exact D3.
  - destruct (capacity_fits (utf8Capacity old) (utf8Names nt) I1).
    destruct (capacity_fits (constantCapacity old) (constantNames nt) I2).
    destruct (capacity_fits (uniqueCapacity old) (uniqueNames nt) I3).
    assert (C1 : utf8Capacity nt3 = reloadedCapacity (utf8Capacity old) (utf8Names nt)).
    { rewrite P3. cbn. rewrite P2. cbn. rewrite P1. cbn. unfold reloadedCapacity. lia. }
    assert (C2 : constantCapacity nt3 = reloadedCapacity (constantCapacity old) (constantNames nt)).
    { rewrite P3. cbn. rewrite P2. cbn. rewrite P1. cbn. unfold reloadedCapacity. lia. }
    assert (C3 : uniqueCapacity nt3 = reloadedCapacity (uniqueCapacity old) (uniqueNames nt)).
    { rewrite P3. cbn. rewrite P2. cbn. rewrite P1. cbn. unfold reloadedCapacity. lia. }
    pose proof Hs as (S1 & S2 & S3). split; rewrite ?C1, ?C2, ?C3, ?S1, ?S2, ?S3; try done.
    + rewrite (same_names_all _ _ Hs). apply (nt_nodup _ _ Hwf).
    + unfold capacities. rewrite C1, C2, C3, L3, L2, L1, Hfl. exact Hroom.
Qed.

(** The indices fit a reference, and the names fit [buckets] buckets. *)
Definition names_fit (nt : NameTable) (buckets : Z) : Prop :=
  vsize (utf8Names nt) < 2 ^ 30 /\ vsize (constantNames nt) < 2 ^ 30 /\ vsize (uniqueNames nt) < 2 ^ 30 /\
  vsize (utf8Names nt) + vsize (constantNames nt) + vsize (uniqueNames nt) < buckets.

(** One part of a diff: the names of one kind that were added since. *)
Lemma decodes_diff {A} kind mk get put ok names push
    (Hv : @NameVector A kind mk get put ok names push) (l : list A) nt w :
  TableInv (namesByHash nt) (entries xxh32 nt) -> Forall ok l ->
  vsize (names nt) + vsize l < 2 ^ 30 ->
  (length (entries xxh32 nt) + length l < length (namesByHash nt))%nat ->
  exists nt', decodes (start ← getU4; n ← getU4; readNames kind get push (Z.to_nat n) start nt) w
      (pickleDiff (fun a p => put a (putU4 (hashName xxh32 (mk a)) p)) (vsize (names nt)) (names nt ++ l) w)
      nt' /\
    pushed push l nt nt' /\ TableInv (namesByHash nt') (entries xxh32 nt') /\
    length (namesByHash nt') = length (namesByHash nt).
Proof.
  intros Hinv Hok Hidx Hroom.
  set (w1 := putU4 (vsize l) (putU4 (vsize (names nt)) w)).
  destruct (decodes_readNames kind mk get put ok names push Hv l nt w1) as (nt' & Hd & Hp & Hinv' & Hlen);
    [done | done | done | done |].
  exists nt'. split; [| done]. unfold pickleDiff.
  assert (0 <= vsize (names nt) /\ 0 <= vsize l) as [? ?] by (unfold vsize; lia).
  replace (vsize (names nt ++ l) - vsize (names nt)) with (vsize l)
    by (unfold vsize; rewrite length_app; lia).
  rewrite (u32_id (vsize l)) by (unfold is_u32; lia).
  replace (Z.to_nat (vsize (names nt))) with (length (names nt)) by (unfold vsize; lia).
  rewrite drop_app_length. fold w1.
  eapply (decodes_bind _ _ w (putU4 (vsize (names nt)) w)); [apply decodes_putU4; unfold is_u32; lia |].
  eapply (decodes_bind _ _ _ w1); [apply decodes_putU4; unfold is_u32; lia |].
  by replace (Z.to_nat (vsize l)) with (length l) by (unfold vsize; lia).
Qed.

Lemma decodes_assoc2 {A B C D} (m : unp A) (m' : unp B) (f : A -> B -> unp C) (g : C -> unp D) w w' y :
  decodes ((a ← m; b ← m'; f a b) ≫= g) w w' y -> decodes (a ← m; b ← m'; f a b ≫= g) w w' y.
Proof.
  intros [E H]. split; [done |]. intros d r Hw Hf Hs. destruct (H d r Hw Hf Hs) as (r' & Hr & Hs').
  exists r'. split; [| done]. unfold mbind, unp_bind in *. destruct (m r) as [[a r1] |]; [| done].
  by destruct (m' r1) as [[b r2] |].
Qed.

Lemma load_name_table_diff nt0 du dc dq nt w :
  TableInv (namesByHash nt0) (entries xxh32 nt0) ->
  utf8Names nt = utf8Names nt0 ++ du -> constantNames nt = constantNames nt0 ++ dc ->
  uniqueNames nt = uniqueNames nt0 ++ dq -> names_ok nt ->
  names_fit nt (vsize (namesByHash nt0)) ->
  exists nt', decodes (unpickleNameTableDiff nt0) w
      (pickleNameTableDiff xxh32 (vsize (utf8Names nt0)) (vsize (constantNames nt0))
         (vsize (uniqueNames nt0)) nt w) nt' /\
    same_names nt nt' /\ TableInv (namesByHash nt') (entries xxh32 nt') /\ same_shape nt0 nt'.
Proof.
  intros Hinv Eu Ec Eq [[_ Hu] [_ Hc] [_ Hq]] Hroom.
  unfold pickleNameTableDiff. unfold names_fit in Hroom. rewrite Eu, Ec, Eq in *.
  rewrite !Forall_app in *. destruct Hu as [_ Hu], Hc as [_ Hc], Hq as [_ Hq].
  unfold vsize in Hroom. rewrite !length_app in Hroom.
  pose proof (length_entries xxh32 nt0) as Hlen. unfold vsize in Hlen.
  destruct (decodes_diff UTF8 NUtf8 _ _ _ _ _ utf8_vector du nt0 w) as (nt1 & D1 & P1 & T1 & L1);
    [done | done | unfold vsize; lia | lia |].
  apply pushed_utf8 in P1. set (w1 := pickleDiff _ _ _ w) in *.
  pose proof (length_entries xxh32 nt1) as Hlen1. unfold vsize in Hlen1.
  assert (N1 : utf8Names nt1 = utf8Names nt0 ++ du /\ constantNames nt1 = constantNames nt0 /\
            uniqueNames nt1 = uniqueNames nt0) by by rewrite P1.
  destruct N1 as (N1 & N1' & N1''). rewrite N1, N1', N1'', length_app in Hlen1.
  destruct (decodes_diff CONSTANT NConstant _ _ _ _ _ constant_vector dc nt1 w1)
    as (nt2 & D2 & P2 & T2 & L2);
    [done | done | rewrite N1'; unfold vsize; lia | lia |].
  apply pushed_constant in P2. rewrite N1' in D2. set (w2 := pickleDiff _ _ _ w1) in *.
  pose proof (length_entries xxh32 nt2) as Hlen2. unfold vsize in Hlen2.
  assert (N2 : utf8Names nt2 = utf8Names nt0 ++ du /\ constantNames nt2 = constantNames nt0 ++ dc /\
            uniqueNames nt2 = uniqueNames nt0) by (rewrite P2; cbn; by rewrite N1, N1', N1'').
  destruct N2 as (N2 & N2' & N2''). rewrite N2, N2', N2'', !length_app in Hlen2.
  destruct (decodes_diff UNIQUE NUnique _ _ _ _ _ unique_vector dq nt2 w2) as (nt3 & D3 & P3 & T3 & L3);
    [done | done | rewrite N2''; unfold vsize; lia | lia |].
  apply pushed_unique in P3. rewrite N2'' in D3. exists nt3.
  split; [| split; [| split; [done |]]].
  - unfold unpickleNameTableDiff. apply decodes_assoc2. eapply decodes_bind; [exact D1 |].
    apply decodes_assoc2. eapply decodes_bind; [exact D2 |]. exact D3.
  - unfold same_names. rewrite Eu, Ec, Eq, P3. cbn. by rewrite N2, N2', N2''.
  - unfold same_shape. rewrite L3, L2, L1, P3. cbn. rewrite P2. cbn. by rewrite P1.
Qed.
End Loading.

(** ** Properties *)

(** A pickled name table is read back into any global state: the same names under the same
    references, in a well-formed table rebuilt from the stored hashes, so that every lookup gives
    the same answer. *)
Theorem name_table_roundtrip (xxh32 : str -> Z) nt old w :
  (forall s, is_u32 (xxh32 s)) -> NameTable_wf xxh32 nt -> names_ok nt -> reload_room nt old ->
  0 <= utf8Capacity old -> 0 <= constantCapacity old -> 0 <= uniqueCapacity old ->
  exists nt', decodes (unpickleNameTable old) w (pickleNameTable xxh32 nt w) nt' /\
    NameTable_wf xxh32 nt' /\ same_names nt nt' /\
    forall d, lookupName xxh32 nt' d = lookupName xxh32 nt d.
Proof.
  intros Hx Hwf Hok Hroom H1 H2 H3.
  destruct (load_name_table xxh32 Hx nt old w Hwf Hok Hroom H1 H2 H3) as (nt' & Hd & Hwf' & Hs).
  exists nt'. split; [done |]. split; [done |]. split; [done |]. intros d. by apply same_names_lookup.
Qed.

Lemma name_table_roundtrip_witness :
  exists nt', decodes (unpickleNameTable (emptyTable 1 1 1)) emptyPickler
      (pickleNameTable (fun _ => 7) (emptyTable 1 1 1) emptyPickler) nt' /\
    NameTable_wf (fun _ => 7) nt'.
Proof.
  destruct (name_table_roundtrip (fun _ => 7) (emptyTable 1 1 1) (emptyTable 1 1 1) emptyPickler)
    as (nt' & Hd & Hwf & _).
  - intros _. unfold is_u32. lia.
  - apply emptyTable_wf; lia.
  - split; split; try constructor; vm_compute; reflexivity.
  - vm_compute. discriminate.
  - vm_compute. discriminate.
  - vm_compute. discriminate.
  - vm_compute. discriminate.
  - by exists nt'.
Defined.

(** A diff of the name table, appended to a state that has the names written before, gives the
    names of the state that was stored, under the same references and with their buckets filled,
    without growing the table. *)
Theorem name_table_diff_roundtrip (xxh32 : str -> Z) nt0 du dc dq nt w :
  (forall s, is_u32 (xxh32 s)) ->
  TableInv (namesByHash nt0) (entries xxh32 nt0) ->
  utf8Names nt = utf8Names nt0 ++ du -> constantNames nt = constantNames nt0 ++ dc ->
  uniqueNames nt = uniqueNames nt0 ++ dq -> names_ok nt ->
  names_fit nt (vsize (namesByHash nt0)) ->
  exists nt', decodes (unpickleNameTableDiff nt0) w
      (pickleNameTableDiff xxh32 (vsize (utf8Names nt0)) (vsize (constantNames nt0))
         (vsize (uniqueNames nt0)) nt w) nt' /\
    same_names nt nt' /\ TableInv (namesByHash nt') (entries xxh32 nt') /\ same_shape nt0 nt'.
Proof. intros Hx. by apply load_name_table_diff. Qed.

Lemma name_table_diff_roundtrip_witness :
  exists nt', decodes (unpickleNameTableDiff (emptyTable 1 1 1)) emptyPickler
      (pickleNameTableDiff (fun _ => 7) 0 0 0
         (mkNameTable [s! "a"; s! "b"] [1] [] 2 1 1 []) emptyPickler) nt' /\
    utf8Names nt' = [s! "a"; s! "b"].
Proof.
  destruct (name_table_diff_roundtrip (fun _ => 7) (emptyTable 1 1 1) [s! "a"; s! "b"] [1] []
              (mkNameTable [s! "a"; s! "b"] [1] [] 2 1 1 []) emptyPickler)
    as (nt' & Hd & (Hs & _) & _).
  - intros _. unfold is_u32. lia.
  - apply (nt_table (fun _ => 7)), emptyTable_wf; lia.
  - reflexivity.
  - reflexivity.
  - reflexivity.
  - split; split; repeat constructor; vm_compute; (reflexivity || discriminate).
  - split_and!; vm_compute; reflexivity.
  - exists nt'. split; [exact Hd | exact Hs].
Defined.
