(* ===== verification/Symbols.v ===== *)
(** * Symbols and the symbol table

    Models the stored symbols of src/core/Symbols.h (classes and modules, methods, fields, type
    parameters and members), [ParamInfo] of src/core/Types.h, and their serialization in
    src/core/serialize/serialize.cc. References to symbols, names and files are the [uint32_t] they
    hold. The flag classes are bit fields; [bit_cast] takes the first field to the lowest bit. *)

From S2P Require Import Prelude Pickler FileHash Files Locs Types.

#[local] Open Scope Z_scope.
#[local] Open Scope pickle_scope.

(** ** Bit fields *)

Fixpoint pack_bits (bs : list bool) : Z :=
  match bs with
  | [] => 0
  | b :: bs => u1_of_bool b + 2 * pack_bits bs
  end.

(** [rawBits & VALID_BITS_MASK] with [n] flags *)
Definition mask_bits (n : Z) (z : Z) : Z := Z.land z (2 ^ n - 1).

(** *** Methods *)

Record MethodFlags := mkMethodFlags {
  mf_isRewriterSynthesized : bool; mf_isProtected : bool; mf_isPrivate : bool; mf_isOverloaded : bool;
  mf_isAbstract : bool; mf_isGenericMethod : bool; mf_isOverridable : bool; mf_isFinal : bool;
  mf_isOverride : bool; mf_allowIncompatibleOverrideAll : bool;
  mf_allowIncompatibleOverrideVisibility : bool; mf_isPackagePrivate : bool }.

Definition MethodFlags_bits (f : MethodFlags) : list bool :=
  [mf_isRewriterSynthesized f; mf_isProtected f; mf_isPrivate f; mf_isOverloaded f; mf_isAbstract f;
   mf_isGenericMethod f; mf_isOverridable f; mf_isFinal f; mf_isOverride f;
   mf_allowIncompatibleOverrideAll f; mf_allowIncompatibleOverrideVisibility f; mf_isPackagePrivate f].

Definition MethodFlags_serialize (f : MethodFlags) : Z := mask_bits 12 (pack_bits (MethodFlags_bits f)).

(** [std::bit_cast<Method::Flags>] *)
Definition MethodFlags_of_bits (z : Z) : MethodFlags :=
  mkMethodFlags (Z.testbit z 0) (Z.testbit z 1) (Z.testbit z 2) (Z.testbit z 3) (Z.testbit z 4)
    (Z.testbit z 5) (Z.testbit z 6) (Z.testbit z 7) (Z.testbit z 8) (Z.testbit z 9) (Z.testbit z 10)
    (Z.testbit z 11).

(** *** Fields *)

Record FieldFlags := mkFieldFlags {
  ff_isField : bool; ff_isStaticField : bool; ff_isStaticFieldTypeAlias : bool;
  ff_isStaticFieldPrivate : bool; ff_isExported : bool }.

Definition FieldFlags_bits (f : FieldFlags) : list bool :=
  [ff_isField f; ff_isStaticField f; ff_isStaticFieldTypeAlias f; ff_isStaticFieldPrivate f;
   ff_isExported f].

Definition FieldFlags_serialize (f : FieldFlags) : Z := mask_bits 5 (pack_bits (FieldFlags_bits f)).

Definition FieldFlags_of_bits (z : Z) : FieldFlags :=
  mkFieldFlags (Z.testbit z 0) (Z.testbit z 1) (Z.testbit z 2) (Z.testbit z 3) (Z.testbit z 4).

(** *** Type parameters *)

Record TypeParameterFlags := mkTypeParameterFlags {
  tf_isTypeParameter : bool; tf_isTypeMember : bool; tf_isCovariant : bool; tf_isInvariant : bool;
  tf_isContravariant : bool; tf_isFixed : bool }.

Definition TypeParameterFlags_bits (f : TypeParameterFlags) : list bool :=
  [tf_isTypeParameter f; tf_isTypeMember f; tf_isCovariant f; tf_isInvariant f;
   tf_isContravariant f; tf_isFixed f].

Definition TypeParameterFlags_serialize (f : TypeParameterFlags) : Z :=
  mask_bits 6 (pack_bits (TypeParameterFlags_bits f)).

Definition TypeParameterFlags_of_bits (z : Z) : TypeParameterFlags :=
  mkTypeParameterFlags (Z.testbit z 0) (Z.testbit z 1) (Z.testbit z 2) (Z.testbit z 3)
    (Z.testbit z 4) (Z.testbit z 5).

(** *** Classes and modules *)

Record ClassFlags := mkClassFlags {
  cf_isClass : bool; cf_isModule : bool; cf_isAbstract : bool; cf_isInterface : bool;
  cf_isLinearizationComputed : bool; cf_isFinal : bool; cf_isSealed : bool; cf_isPrivate : bool;
  cf_isDeclared : bool; cf_isDeclaredInPackage : bool; cf_isExported : bool;
  cf_isBehaviorDefining : bool }.

Definition ClassFlags_bits (f : ClassFlags) : list bool :=
  [cf_isClass f; cf_isModule f; cf_isAbstract f; cf_isInterface f; cf_isLinearizationComputed f;
   cf_isFinal f; cf_isSealed f; cf_isPrivate f; cf_isDeclared f; cf_isDeclaredInPackage f;
   cf_isExported f; cf_isBehaviorDefining f].

Definition ClassFlags_serialize (f : ClassFlags) : Z := mask_bits 12 (pack_bits (ClassFlags_bits f)).

Definition ClassFlags_of_bits (z : Z) : ClassFlags :=
  mkClassFlags (Z.testbit z 0) (Z.testbit z 1) (Z.testbit z 2) (Z.testbit z 3) (Z.testbit z 4)
    (Z.testbit z 5) (Z.testbit z 6) (Z.testbit z 7) (Z.testbit z 8) (Z.testbit z 9) (Z.testbit z 10)
    (Z.testbit z 11).

(** *** Parameters *)

Record ParamFlags := mkParamFlags {
  pf_isKeyword : bool; pf_isRepeated : bool; pf_isDefault : bool; pf_isShadow : bool;
  pf_isBlock : bool }.

Definition ParamFlags_toU1 (f : ParamFlags) : Z :=
  let flags := 0 in
  let flags := if pf_isKeyword f then flags + 1 else flags in
  let flags := if pf_isRepeated f then flags + 2 else flags in
  let flags := if pf_isDefault f then flags + 4 else flags in
  let flags := if pf_isShadow f then flags + 8 else flags in
  if pf_isBlock f then flags + 16 else flags.

Definition ParamFlags_setFromU1 (flags : Z) : ParamFlags :=
  mkParamFlags (bool_of_u1 (Z.land flags 1)) (bool_of_u1 (Z.land flags 2))
    (bool_of_u1 (Z.land flags 4)) (bool_of_u1 (Z.land flags 8)) (bool_of_u1 (Z.land flags 16)).

(** ** Symbols *)

Record ParamInfo := mkParamInfo {
  pi_name : Z; pi_rebind : Z; pi_loc : Loc; pi_flags : ParamFlags; pi_type : TypePtr }.

(** [unique_ptr<InlinedVector<...>> typeParams] is absent or a vector. *)
Record Method := mkMethod {
  me_nameLoc : Loc; me_owner : Z; me_name : Z; me_rebind : Z; me_flags : MethodFlags;
  me_typeParams : option (list Z); me_parameters : list ParamInfo; me_resultType : TypePtr;
  me_intrinsicOffset : Z; me_locs : list Loc }.

Record Field := mkField {
  fi_owner : Z; fi_name : Z; fi_flags : FieldFlags; fi_resultType : TypePtr; fi_locs : list Loc }.

Record TypeParameter := mkTypeParameter {
  tp_owner : Z; tp_name : Z; tp_flags : TypeParameterFlags; tp_resultType : TypePtr;
  tp_locs : list Loc }.

Record ClassOrModule := mkClassOrModule {
  cm_packageRegistryOwner : Z; cm_package : Z; cm_owner : Z; cm_name : Z; cm_superClass : Z;
  cm_flags : ClassFlags; cm_mixins : list Z; cm_typeParams : option (list Z);
  cm_members : gmap Z Z; cm_resultType : TypePtr; cm_locs : list Loc }.

(** [typeParameters()] and [typeMembers()] *)
Definition typeParameters (tps : option (list Z)) : list Z := default [] tps.

(** ** Writing *)

Definition pickleParamInfo (what : ParamInfo) : wput :=
  lift (putU4 (pi_name what)) ;;> lift (putU4 (pi_rebind what)) ;;> lift (pickleLoc (pi_loc what)) ;;>
  lift (putU1 (ParamFlags_toU1 (pi_flags what))) ;;> pickleType (pi_type what).

Definition pickleMethod (what : Method) : wput :=
  lift (pickleLoc (me_nameLoc what)) ;;> lift (putU4 (me_owner what)) ;;>
  lift (putU4 (me_name what)) ;;> lift (putU4 (me_rebind what)) ;;>
  lift (putU4 (MethodFlags_serialize (me_flags what))) ;;>
  lift (putVec putU4 (typeParameters (me_typeParams what))) ;;>
  putVecW pickleParamInfo (me_parameters what) ;;>
  pickleType (me_resultType what) ;;> lift (putU4 (me_intrinsicOffset what)) ;;>
  lift (putVec pickleLoc (me_locs what)).

Definition pickleMember (m : Z * Z) (p : Pickler) : Pickler := p |> putU4 m.1 |> putU4 m.2.

(** The members, sorted by the raw id of their name. *)
Definition member_le (a b : Z * Z) : Prop := a.1 <= b.1.

#[export] Instance member_le_dec a b : Decision (member_le a b).
Proof. unfold member_le. apply _. Defined.

Definition membersSorted (m : gmap Z Z) : list (Z * Z) := merge_sort member_le (map_to_list m).

Definition pickleClassOrModule (what : ClassOrModule) : wput :=
  lift (putU4 (cm_packageRegistryOwner what)) ;;> lift (putU4 (cm_package what)) ;;>
  lift (putU4 (cm_owner what)) ;;> lift (putU4 (cm_name what)) ;;>
  lift (putU4 (cm_superClass what)) ;;> lift (putU4 (ClassFlags_serialize (cm_flags what))) ;;>
  lift (putVec putU4 (cm_mixins what)) ;;>
  lift (putVec putU4 (typeParameters (cm_typeParams what))) ;;>
  lift (putVec pickleMember (membersSorted (cm_members what))) ;;>
  pickleType (cm_resultType what) ;;> lift (putVec pickleLoc (cm_locs what)).

Definition pickleField (what : Field) : wput :=
  lift (putU4 (fi_owner what)) ;;> lift (putU4 (fi_name what)) ;;>
  lift (putU1 (FieldFlags_serialize (fi_flags what))) ;;> pickleType (fi_resultType what) ;;>
  lift (putVec pickleLoc (fi_locs what)).

Definition pickleTypeParameter (what : TypeParameter) : wput :=
  lift (putU4 (tp_owner what)) ;;> lift (putU4 (tp_name what)) ;;>
  lift (putU1 (TypeParameterFlags_serialize (tp_flags what))) ;;>
  pickleType (tp_resultType what) ;;> lift (putVec pickleLoc (tp_locs what)).

(** ** Reading *)

Definition unpickleArgInfo : unp ParamInfo :=
  name ← getU4; rebind ← getU4; loc ← unpickleLoc; flags ← getU1; type ← unpickleTypePtr;
  mret (mkParamInfo name rebind loc (ParamFlags_setFromU1 flags) type).

(** [int n = p.getU4(); for (int i = 0; i < n; i++)]: nothing is read for a negative [n]. *)
Definition getVecI {A} (get : unp A) : unp (list A) :=
  n ← getU4; getN get (Z.to_nat (i32 n)).

(** [if (typeParamsSize != 0) { auto &vec = getOrCreateTypeParameters(); ... }] *)
Definition unpickleTypeParams : unp (option (list Z)) :=
  typeParamsSize ← getU4;
  let typeParamsSize := i32 typeParamsSize in
  if typeParamsSize =? 0 then mret None
  else vec ← getN getU4 (Z.to_nat typeParamsSize); mret (Some vec).

(** The same for a class, whose vector is reserved first: a negative size throws. *)
Definition unpickleTypeMembers : unp (option (list Z)) :=
  typeParamsSize ← getU4;
  let typeParamsSize := i32 typeParamsSize in
  if typeParamsSize =? 0 then mret None
  else if typeParamsSize <? 0 then unp_fail
  else vec ← getN getU4 (Z.to_nat typeParamsSize); mret (Some vec).

Definition unpickleMethod : unp Method :=
  nameLoc ← unpickleLoc; owner ← getU4; name ← getU4; rebind ← getU4; flagsU2 ← getU4;
  typeParams ← unpickleTypeParams;
  parameters ← getVecI unpickleArgInfo;
  resultType ← unpickleTypePtr;
  intrinsicOffset ← getU4;
  locs ← getVecU unpickleLoc;
  mret (mkMethod nameLoc owner name rebind (MethodFlags_of_bits (u16 flagsU2)) typeParams parameters
          resultType (u16 intrinsicOffset) locs).

Definition unpickleMember : unp (Z * Z) := name ← getU4; sym ← getU4; mret (name, sym).

(** [result.members()[name] = sym], in the order read. *)
Definition insertMembers (l : list (Z * Z)) : gmap Z Z :=
  fold_left (fun m '(name, sym) => <[name := sym]> m) l ∅.

Definition unpickleClassOrModule : unp ClassOrModule :=
  packageRegistryOwner ← getU4; package ← getU4; owner ← getU4; name ← getU4; superClass ← getU4;
  flagsRaw ← getU4;
  mixins ← getVec getU4;
  typeParams ← unpickleTypeMembers;
  members ← getVec unpickleMember;
  resultType ← unpickleTypePtr;
  locs ← getVecU unpickleLoc;
  mret (mkClassOrModule packageRegistryOwner package owner name superClass
          (ClassFlags_of_bits (u16 flagsRaw)) mixins typeParams (insertMembers members) resultType
          locs).

Definition unpickleField : unp Field :=
  owner ← getU4; name ← getU4; flagsU1 ← getU1; resultType ← unpickleTypePtr;
  locs ← getVecU unpickleLoc;
  mret (mkField owner name (FieldFlags_of_bits flagsU1) resultType locs).

Definition unpickleTypeParameter : unp TypeParameter :=
  owner ← getU4; name ← getU4; flagsU1 ← getU1; resultType ← unpickleTypePtr;
  locs ← getVecU unpickleLoc;
  mret (mkTypeParameter owner name (TypeParameterFlags_of_bits flagsU1) resultType locs).

(** ** The symbol table *)

Record SymbolTable := mkSymbolTable {
  classAndModules : list ClassOrModule; methods : list Method; fields : list Field;
  typeParams : list TypeParameter; typeMembers : list TypeParameter }.

Definition pickleSymbolTable (st : SymbolTable) : wput :=
  putVecW pickleClassOrModule (classAndModules st) ;;> putVecW pickleMethod (methods st) ;;>
  putVecW pickleField (fields st) ;;> putVecW pickleTypeParameter (typeParams st) ;;>
  putVecW pickleTypeParameter (typeMembers st).

Definition unpickleSymbolTable : unp SymbolTable :=
  classAndModules ← getVecI unpickleClassOrModule;
  methods ← getVecI unpickleMethod;
  fields ← getVecI unpickleField;
  typeParameters ← getVecI unpickleTypeParameter;
  typeMembers ← getVecI unpickleTypeParameter;
  mret (mkSymbolTable classAndModules methods fields typeParameters typeMembers).

(** ** What survives *)

Definition ParamInfo_ok (a : ParamInfo) : Prop :=
  is_u32 (pi_name a) /\ is_u32 (pi_rebind a) /\ Loc_ok (pi_loc a) /\ type_ok (pi_type a).

Definition typeParams_ok (tps : option (list Z)) : Prop := vec_ok is_u32 (typeParameters tps).

Definition Method_ok (m : Method) : Prop :=
  Loc_ok (me_nameLoc m) /\ is_u32 (me_owner m) /\ is_u32 (me_name m) /\ is_u32 (me_rebind m) /\
  typeParams_ok (me_typeParams m) /\ vec_ok ParamInfo_ok (me_parameters m) /\
  type_ok (me_resultType m) /\ is_u16 (me_intrinsicOffset m) /\ vec_ok Loc_ok (me_locs m).

Definition Field_ok (f : Field) : Prop :=
  is_u32 (fi_owner f) /\ is_u32 (fi_name f) /\ type_ok (fi_resultType f) /\ vec_ok Loc_ok (fi_locs f).

Definition TypeParameter_ok (t : TypeParameter) : Prop :=
  is_u32 (tp_owner t) /\ is_u32 (tp_name t) /\ type_ok (tp_resultType t) /\ vec_ok Loc_ok (tp_locs t).

Definition member_ok (m : Z * Z) : Prop := is_u32 m.1 /\ is_u32 m.2.

Definition ClassOrModule_ok (c : ClassOrModule) : Prop :=
  Forall is_u32 [cm_packageRegistryOwner c; cm_package c; cm_owner c; cm_name c; cm_superClass c] /\
  vec_ok is_u32 (cm_mixins c) /\ typeParams_ok (cm_typeParams c) /\
  is_size (size (cm_members c)) /\ Forall member_ok (map_to_list (cm_members c)) /\
  type_ok (cm_resultType c) /\ vec_ok Loc_ok (cm_locs c).

Definition SymbolTable_ok (st : SymbolTable) : Prop :=
  vec_ok ClassOrModule_ok (classAndModules st) /\ vec_ok Method_ok (methods st) /\
  vec_ok Field_ok (fields st) /\ vec_ok TypeParameter_ok (typeParams st) /\
  vec_ok TypeParameter_ok (typeMembers st).

(** An empty vector of type parameters comes back as no vector, and types as [reloadType] says. *)
Definition reloadTypeParams (tps : option (list Z)) : option (list Z) :=
  match tps with Some [] => None | tps => tps end.

Definition reloadParamInfo (a : ParamInfo) : ParamInfo :=
  mkParamInfo (pi_name a) (pi_rebind a) (pi_loc a) (pi_flags a) (reloadType (pi_type a)).

Definition reloadMethod (m : Method) : Method :=
  mkMethod (me_nameLoc m) (me_owner m) (me_name m) (me_rebind m) (me_flags m)
    (reloadTypeParams (me_typeParams m)) (reloadParamInfo <$> me_parameters m)
    (reloadType (me_resultType m)) (me_intrinsicOffset m) (me_locs m).

Definition reloadField (f : Field) : Field :=
  mkField (fi_owner f) (fi_name f) (fi_flags f) (reloadType (fi_resultType f)) (fi_locs f).

Definition reloadTypeParameter (t : TypeParameter) : TypeParameter :=
  mkTypeParameter (tp_owner t) (tp_name t) (tp_flags t) (reloadType (tp_resultType t)) (tp_locs t).

Definition reloadClassOrModule (c : ClassOrModule) : ClassOrModule :=
  mkClassOrModule (cm_packageRegistryOwner c) (cm_package c) (cm_owner c) (cm_name c)
    (cm_superClass c) (cm_flags c) (cm_mixins c) (reloadTypeParams (cm_typeParams c)) (cm_members c)
    (reloadType (cm_resultType c)) (cm_locs c).

Definition reloadSymbolTable (st : SymbolTable) : SymbolTable :=
  mkSymbolTable (reloadClassOrModule <$> classAndModules st) (reloadMethod <$> methods st)
    (reloadField <$> fields st) (reloadTypeParameter <$> typeParams st)
    (reloadTypeParameter <$> typeMembers st).

(** ** Flags *)

Lemma pack_bits_testbit bs i : Z.testbit (pack_bits bs) (Z.of_nat i) = nth i bs false.
Proof.
  revert i. induction bs as [| b bs IH]; intros i; cbn [pack_bits].
  - rewrite Z.bits_0. by destruct i.
  - replace (u1_of_bool b + 2 * pack_bits bs) with (2 * pack_bits bs + Z.b2z b) by (destruct b; cbn; lia).
    destruct i as [| i]; cbn [nth].
    + apply Z.testbit_0_r.
    + rewrite Nat2Z.inj_succ, Z.testbit_succ_r by lia. apply IH.
Qed.

Lemma mask_bits_range n z : 0 <= n -> 0 <= mask_bits n z < 2 ^ n.
Proof.
  intros Hn. unfold mask_bits. replace (2 ^ n - 1) with (Z.ones n) by (rewrite Z.ones_equiv; lia).
  rewrite Z.land_ones by done. apply Z.mod_pos_bound. by apply Z.pow_pos_nonneg.
Qed.

Lemma mask_bits_testbit n z i :
  Z.of_nat i < n -> Z.testbit (mask_bits n z) (Z.of_nat i) = Z.testbit z (Z.of_nat i).
Proof.
  intros Hi. unfold mask_bits. replace (2 ^ n - 1) with (Z.ones n) by (rewrite Z.ones_equiv; lia).
  rewrite Z.land_spec, Z.testbit_ones_nonneg, (proj2 (Z.ltb_lt _ _)) by lia. apply andb_true_r.
Qed.

Lemma flag_testbit n bs i :
  0 <= i < n -> Z.testbit (mask_bits n (pack_bits bs)) i = nth (Z.to_nat i) bs false.
Proof.
  intros. rewrite <- (Z2Nat.id i) at 1 by lia. by rewrite mask_bits_testbit, pack_bits_testbit by lia.
Qed.

Lemma MethodFlags_roundtrip f : MethodFlags_of_bits (MethodFlags_serialize f) = f.
Proof.
  unfold MethodFlags_of_bits, MethodFlags_serialize. rewrite !flag_testbit by lia. by destruct f.
Qed.

Lemma ClassFlags_roundtrip f : ClassFlags_of_bits (ClassFlags_serialize f) = f.
Proof.
  unfold ClassFlags_of_bits, ClassFlags_serialize. rewrite !flag_testbit by lia. by destruct f.
Qed.

Lemma FieldFlags_roundtrip f : FieldFlags_of_bits (FieldFlags_serialize f) = f.
Proof. destruct f as [[] [] [] [] []]; reflexivity. Qed.

Lemma TypeParameterFlags_roundtrip f : TypeParameterFlags_of_bits (TypeParameterFlags_serialize f) = f.
Proof. destruct f as [[] [] [] [] [] []]; reflexivity. Qed.

Lemma ParamFlags_roundtrip f : ParamFlags_setFromU1 (ParamFlags_toU1 f) = f.
Proof. destruct f as [[] [] [] [] []]; reflexivity. Qed.

Lemma ParamFlags_range f : is_u8 (ParamFlags_toU1 f).
Proof. destruct f as [[] [] [] [] []]; unfold is_u8; cbn; lia. Qed.

Lemma FieldFlags_range f : is_u8 (FieldFlags_serialize f).
Proof. pose proof (mask_bits_range 5 (pack_bits (FieldFlags_bits f))). unfold is_u8, FieldFlags_serialize. lia. Qed.

Lemma TypeParameterFlags_range f : is_u8 (TypeParameterFlags_serialize f).
Proof.
  pose proof (mask_bits_range 6 (pack_bits (TypeParameterFlags_bits f))).
  unfold is_u8, TypeParameterFlags_serialize. lia.
Qed.

Lemma MethodFlags_range f : is_u16 (MethodFlags_serialize f).
Proof. pose proof (mask_bits_range 12 (pack_bits (MethodFlags_bits f))). unfold is_u16, MethodFlags_serialize. lia. Qed.

Lemma ClassFlags_range f : is_u16 (ClassFlags_serialize f).
Proof. pose proof (mask_bits_range 12 (pack_bits (ClassFlags_bits f))). unfold is_u16, ClassFlags_serialize. lia. Qed.

#[export] Hint Resolve ParamFlags_range FieldFlags_range TypeParameterFlags_range MethodFlags_range
  ClassFlags_range : words.

#[global] Arguments MethodFlags_serialize : simpl never.
#[global] Arguments ClassFlags_serialize : simpl never.
#[global] Arguments FieldFlags_serialize : simpl never.
#[global] Arguments TypeParameterFlags_serialize : simpl never.
#[global] Arguments ParamFlags_toU1 : simpl never.

(** ** Members *)

Lemma membersSorted_perm m : membersSorted m ≡ₚ map_to_list m.
Proof. apply merge_sort_Permutation. Qed.

(** Reading the members back in any order gives the map. *)
Lemma insertMembers_perm l (m : gmap Z Z) : l ≡ₚ map_to_list m -> insertMembers l = m.
Proof.
  intros Hp. assert (Hnd : NoDup l.*1) by (rewrite Hp; apply NoDup_fst_map_to_list).
  assert (Hgen : forall acc : gmap Z Z, (forall k, k ∈ l.*1 -> acc !! k = None) ->
            fold_left (fun m '(name, sym) => <[name := sym]> m) l acc = list_to_map l ∪ acc).
  { clear Hp. induction l as [| [k v] l IH]; intros acc Hacc; cbn.
    - by rewrite map_empty_union.
    - apply NoDup_cons in Hnd as [Hk Hnd]. rewrite IH; [| done |].
      + rewrite <- insert_union_r; [by rewrite insert_union_l |]. by apply not_elem_of_list_to_map_1.
      + intros k' Hk'. rewrite lookup_insert_ne; [apply Hacc; by right |]. intros ->. done. }
  unfold insertMembers. rewrite Hgen by (intros; apply lookup_empty). rewrite map_union_empty.
  rewrite <- (list_to_map_to_list m). by apply list_to_map_proper.
Qed.

Lemma insertMembers_sorted (m : gmap Z Z) : insertMembers (membersSorted m) = m.
Proof. apply insertMembers_perm, membersSorted_perm. Qed.

Lemma length_membersSorted m : length (membersSorted m) = size m.
Proof. by rewrite membersSorted_perm, length_map_to_list. Qed.

(** ** Round trips *)

Lemma emits_vecI {A B} (put : A -> wput) (get : unp B) (f : A -> B) l :
  is_size (length l) -> Forall (fun a => emits (put a) get (f a)) l ->
  emits (putVecW put l) (getVecI get) (f <$> l).
Proof.
  intros Hs Hl. unfold putVecW, getVecI.
  eapply emits_bind; [apply emits_lift; intros; by apply decodes_putU4, is_size_u32 |].
  rewrite i32_size by done. rewrite Nat2Z.id. by apply emits_each.
Qed.

Lemma emits_vecI_ok {A B} (put : A -> wput) (get : unp B) (ok : A -> Prop) (f : A -> B) l :
  (forall a, ok a -> emits (put a) get (f a)) -> vec_ok ok l -> emits (putVecW put l) (getVecI get) (f <$> l).
Proof. intros Hput [Hs Hl]. apply emits_vecI; [done |]. by eapply Forall_impl. Qed.

Lemma emits_u4 u : is_u32 u -> emits (lift (putU4 u)) getU4 u.
Proof. intros. apply emits_lift. intros. by apply decodes_putU4. Qed.

Lemma decodes_u4s l w : Forall is_u32 l -> decodes (getN getU4 (length l)) w (putAll putU4 l w) l.
Proof.
  intros Hl. pose proof (decodes_putAll putU4 getU4 id l) as H. rewrite list_fmap_id in H. apply H.
  eapply Forall_impl; [exact Hl |]. intros u Hu w'. by apply decodes_putU4.
Qed.

Lemma emits_typeParams tps :
  typeParams_ok tps ->
  emits (lift (putVec putU4 (typeParameters tps))) unpickleTypeParams (reloadTypeParams tps).
Proof.
  intros [Hs Hok]. apply emits_lift. intros w. unfold unpickleTypeParams, putVec.
  eapply decodes_bind; [by apply decodes_putU4, is_size_u32 |]. cbv zeta. rewrite i32_size by done.
  destruct tps as [[| t tps] |]; [apply decodes_ret | | apply decodes_ret].
  rewrite (proj2 (Z.eqb_neq _ _)) by (cbn; lia). rewrite Nat2Z.id.
  eapply decodes_bind; [by apply decodes_u4s | apply decodes_ret].
Qed.

Lemma emits_typeMembers tps :
  typeParams_ok tps ->
  emits (lift (putVec putU4 (typeParameters tps))) unpickleTypeMembers (reloadTypeParams tps).
Proof.
  intros [Hs Hok]. apply emits_lift. intros w. unfold unpickleTypeMembers, putVec.
  eapply decodes_bind; [by apply decodes_putU4, is_size_u32 |]. cbv zeta. rewrite i32_size by done.
  destruct tps as [[| t tps] |]; [apply decodes_ret | | apply decodes_ret].
  rewrite (proj2 (Z.eqb_neq _ _)), (proj2 (Z.ltb_ge _ _)) by (cbn; lia). rewrite Nat2Z.id.
  eapply decodes_bind; [by apply decodes_u4s | apply decodes_ret].
Qed.

#[export] Instance member_rt : RoundTrips pickleMember unpickleMember member_ok id.
Proof. intros [k v] w [? ?]. unfold pickleMember, unpickleMember. cbn in *. pickle. Qed.

Lemma emits_members m :
  is_size (size m) -> Forall member_ok (map_to_list m) ->
  emits (lift (putVec pickleMember (membersSorted m))) (getVec unpickleMember) (membersSorted m).
Proof.
  intros Hs Hm. apply emits_lift. intros w. apply decodes_vec_id with member_ok; [apply _ | |].
  - by rewrite length_membersSorted.
  - by rewrite membersSorted_perm.
Qed.

#[export] Hint Resolve emits_typeParams emits_typeMembers emits_members : pickle.

(** Splits the well-formedness of a record into the facts the automation uses. *)
Ltac split_ok :=
  repeat match goal with
         | H : vec_ok _ _ |- _ => destruct H
         | H : _ /\ _ |- _ => destruct H
         | H : Forall _ (_ :: _) |- _ => apply Forall_cons in H
         end.

Lemma emits_ParamInfo a : ParamInfo_ok a -> emits (pickleParamInfo a) unpickleArgInfo (reloadParamInfo a).
Proof.
  intros Hok. unfold ParamInfo_ok in Hok. destruct a as [n r l f t]. cbn in *. split_ok.
  unfold pickleParamInfo, unpickleArgInfo, reloadParamInfo. cbn. emit.
  by rewrite ParamFlags_roundtrip.
Qed.

Lemma emits_params l :
  vec_ok ParamInfo_ok l ->
  emits (putVecW pickleParamInfo l) (getVecI unpickleArgInfo) (reloadParamInfo <$> l).
Proof. apply emits_vecI_ok, emits_ParamInfo. Qed.

Lemma emits_Method m : Method_ok m -> emits (pickleMethod m) unpickleMethod (reloadMethod m).
Proof.
  intros Hok. unfold Method_ok in Hok. destruct m as [nl o n r fl tps ps rt io ls]. cbn in *.
  assert (Hps : vec_ok ParamInfo_ok ps) by apply Hok.
  assert (Htps : typeParams_ok tps) by apply Hok. apply emits_params in Hps.
  destruct Hok as (? & ? & ? & ? & _ & _ & ? & ? & [? ?]).
  unfold pickleMethod, unpickleMethod, reloadMethod. cbn. emit.
  by rewrite u16_id, u16_id, MethodFlags_roundtrip by auto with words.
Qed.

Lemma emits_Field f : Field_ok f -> emits (pickleField f) unpickleField (reloadField f).
Proof.
  intros Hok. unfold Field_ok in Hok. destruct f as [o n fl rt ls]. cbn in *. split_ok.
  unfold pickleField, unpickleField, reloadField. cbn. emit.
  by rewrite FieldFlags_roundtrip.
Qed.

Lemma emits_TypeParameter t :
  TypeParameter_ok t -> emits (pickleTypeParameter t) unpickleTypeParameter (reloadTypeParameter t).
Proof.
  intros Hok. unfold TypeParameter_ok in Hok. destruct t as [o n fl rt ls]. cbn in *. split_ok.
  unfold pickleTypeParameter, unpickleTypeParameter, reloadTypeParameter. cbn. emit.
  by rewrite TypeParameterFlags_roundtrip.
Qed.

Lemma emits_ClassOrModule c :
  ClassOrModule_ok c -> emits (pickleClassOrModule c) unpickleClassOrModule (reloadClassOrModule c).
Proof.
  intros Hok. unfold ClassOrModule_ok in Hok.
  destruct c as [a b o n sc fl mx tps mm rt ls]. cbn in *.
  assert (Htps : typeParams_ok tps) by apply Hok. 
  destruct Hok as (Hids & [? ?] & _ & ? & ? & ? & [? ?]). split_ok.
  unfold pickleClassOrModule, unpickleClassOrModule, reloadClassOrModule. cbn. emit.
  by rewrite u16_id, ClassFlags_roundtrip, insertMembers_sorted by auto with words.
Qed.

Lemma emits_SymbolTable st :
  SymbolTable_ok st -> emits (pickleSymbolTable st) unpickleSymbolTable (reloadSymbolTable st).
Proof.
  intros (Hc & Hm & Hf & Ht & Hb). unfold pickleSymbolTable, unpickleSymbolTable, reloadSymbolTable.
  eapply emits_bind; [by apply (emits_vecI_ok _ _ _ _ _ emits_ClassOrModule) |].
  eapply emits_bind; [by apply (emits_vecI_ok _ _ _ _ _ emits_Method) |].
  eapply emits_bind; [by apply (emits_vecI_ok _ _ _ _ _ emits_Field) |].
  eapply emits_bind; [by apply (emits_vecI_ok _ _ _ _ _ emits_TypeParameter) |].
  eapply emits_last; [by apply (emits_vecI_ok _ _ _ _ _ emits_TypeParameter) | done].
Qed.

(** ** Properties *)

(** The whole symbol table survives: from any state of the pickler, pickling it raises no
    exception, and reading it back gives every class, method, field, type parameter and type member
    with its flags, members, parameters and locations; only unresolved types and empty vectors of
    type parameters change. *)
Theorem symbol_table_roundtrip st w :
  SymbolTable_ok st ->
  exists w', pickleSymbolTable st w = Some w' /\
    decodes unpickleSymbolTable w w' (reloadSymbolTable st).
Proof. intros Hok. by apply emits_SymbolTable. Qed.

Definition sampleMethod : Method :=
  mkMethod (mkLoc 1 (mkLocOffsets 3 9)) 2 5 0
    (mkMethodFlags false true false false true false false false false false false true)
    (Some [4]) [mkParamInfo 6 0 (noLoc 0) (mkParamFlags true false true false false) (ClassType 7)]
    (OrType (ClassType 15) (ClassType 9)) 0 [mkLoc 1 (mkLocOffsets 3 9)].

Definition sampleClass : ClassOrModule :=
  mkClassOrModule 30 0 3 13 6 (mkClassFlags true false false false true false false false true false false true)
    [17; 18] None (<[5 := 41]> (<[9 := 42]> ∅)) NullType [].

Definition sampleSymbolTable : SymbolTable := mkSymbolTable [sampleClass] [sampleMethod] [] [] [].

Lemma symbol_table_roundtrip_witness :
  exists w', pickleSymbolTable sampleSymbolTable emptyPickler = Some w' /\
    decodes unpickleSymbolTable emptyPickler w' sampleSymbolTable.
Proof.
  apply (symbol_table_roundtrip sampleSymbolTable emptyPickler).
  repeat first [split | constructor]; vm_compute; first [done | split; done].
Defined.
