(* ===== verification/SymbolRefs.v ===== *)
(** * References into the symbol table

    Models [SymbolRef] of src/core/SymbolRef.h and the queries on symbols of src/core/Symbols.cc that
    follow references: names, owners, locations, aliases, members and singleton classes. A
    [SymbolRef] is the [uint32_t] it holds, a [ClassOrModuleRef] the index of a class. [None] stands
    for a read outside the table. *)

From S2P Require Import Prelude Pickler FileHash Files Locs Types NameTable NameText Symbols.

#[local] Open Scope Z_scope.

(** ** References *)

Inductive SymbolKind := KClassOrModule | KMethod | KFieldOrStaticField | KTypeParameter | KTypeMember.

#[export] Instance SymbolKind_eq_dec : EqDecision SymbolKind.
Proof. solve_decision. Defined.

Definition symbol_kind_bits (k : SymbolKind) : Z :=
  match k with
  | KClassOrModule => 0 | KMethod => 1 | KFieldOrStaticField => 2 | KTypeParameter => 3 | KTypeMember => 4
  end.

(** [SymbolRef(gs, kind, id)] *)
Definition makeSymbolRef (k : SymbolKind) (id : Z) : Z :=
  Z.lor (u32 (Z.shiftl id 3)) (symbol_kind_bits k).

Definition symbolKind (raw : Z) : option SymbolKind :=
  match Z.land raw 7 with
  | 0 => Some KClassOrModule
  | 1 => Some KMethod
  | 2 => Some KFieldOrStaticField
  | 3 => Some KTypeParameter
  | 4 => Some KTypeMember
  | _ => None
  end.

Definition symbolIndex (raw : Z) : Z := Z.shiftr raw 3.

(** [SymbolRef::exists]: index 0 of each table is the symbol that does not exist. *)
Definition symbol_exists (raw : Z) : bool := negb (symbolIndex raw =? 0).

Definition isClassOrModule (raw : Z) : bool := bool_decide (symbolKind raw = Some KClassOrModule).

Definition isMethod (raw : Z) : bool := bool_decide (symbolKind raw = Some KMethod).

(** [Symbols::root()] and [Symbols::untyped()] as classes *)
Definition root : Z := 3.

Definition classSymbol (klass : Z) : Z := makeSymbolRef KClassOrModule klass.

Lemma makeSymbolRef_add k id : 0 <= id < 2 ^ 29 -> makeSymbolRef k id = symbol_kind_bits k + id * 8.
Proof.
  intros Hid. unfold makeSymbolRef. rewrite Z.shiftl_mul_pow2, u32_id by (unfold is_u32; lia).
  rewrite Z.lor_comm, <- Z.shiftl_mul_pow2 by lia. rewrite lor_shift_add; [done | lia | destruct k; cbn; lia].
Qed.

Lemma makeSymbolRef_kind k id : 0 <= id < 2 ^ 29 -> symbolKind (makeSymbolRef k id) = Some k.
Proof.
  intros Hid. unfold symbolKind. rewrite makeSymbolRef_add by done.
  rewrite (Z.land_ones _ 3) by lia. rewrite Z.mod_add by lia. by destruct k.
Qed.

Lemma makeSymbolRef_index k id : 0 <= id < 2 ^ 29 -> symbolIndex (makeSymbolRef k id) = id.
Proof.
  intros Hid. unfold symbolIndex. rewrite makeSymbolRef_add, Z.shiftr_div_pow2 by lia.
  rewrite Z.div_add, Z.div_small by (lia || destruct k; cbn; lia). lia.
Qed.

(** ** Queries *)

(** References to well-known symbols and names, which the build generates *)
Record WellKnown := mkWellKnown {
  n_singleton : Z; n_attached : Z; badAliasMethodStub : Z; Sorbet_Private : Z; T_class : Z;
  n_staticInit : Z }.

(** The parts of a [GlobalState] that the queries read *)
Record Symbolic := mkSymbolic { sy_table : SymbolTable; sy_names : NameTable; sy_wk : WellKnown }.

Section Queries.
Context (gs : Symbolic).

Definition classData (klass : Z) : option ClassOrModule :=
  classAndModules (sy_table gs) !! Z.to_nat klass.

Definition methodData (m : Z) : option Method := methods (sy_table gs) !! Z.to_nat m.

Definition fieldData (f : Z) : option Field := fields (sy_table gs) !! Z.to_nat f.

Definition typeParameterData (t : Z) : option TypeParameter := typeParams (sy_table gs) !! Z.to_nat t.

Definition typeMemberData (t : Z) : option TypeParameter := typeMembers (sy_table gs) !! Z.to_nat t.

(** [SymbolRef::name] *)
Definition symbolName (sym : Z) : option Z :=
  match symbolKind sym with
  | Some KClassOrModule => cm_name <$> classData (symbolIndex sym)
  | Some KMethod => me_name <$> methodData (symbolIndex sym)
  | Some KFieldOrStaticField => fi_name <$> fieldData (symbolIndex sym)
  | Some KTypeParameter => tp_name <$> typeParameterData (symbolIndex sym)
  | Some KTypeMember => tp_name <$> typeMemberData (symbolIndex sym)
  | None => None
  end.

(** [SymbolRef::owner]; classes, methods and fields are owned by classes. *)
Definition symbolOwner (sym : Z) : option Z :=
  match symbolKind sym with
  | Some KClassOrModule => (classSymbol ∘ cm_owner) <$> classData (symbolIndex sym)
  | Some KMethod => (classSymbol ∘ me_owner) <$> methodData (symbolIndex sym)
  | Some KFieldOrStaticField => (classSymbol ∘ fi_owner) <$> fieldData (symbolIndex sym)
  | Some KTypeParameter => tp_owner <$> typeParameterData (symbolIndex sym)
  | Some KTypeMember => tp_owner <$> typeMemberData (symbolIndex sym)
  | None => None
  end.

(** [loc()]: the last location, or none *)
Definition lastLoc (locs : list Loc) : Loc := default (noLoc 0) (last locs).

(** [SymbolRef::loc] *)
Definition symbolLoc (sym : Z) : option Loc :=
  match symbolKind sym with
  | Some KClassOrModule => (lastLoc ∘ cm_locs) <$> classData (symbolIndex sym)
  | Some KMethod => (lastLoc ∘ me_locs) <$> methodData (symbolIndex sym)
  | Some KFieldOrStaticField => (lastLoc ∘ fi_locs) <$> fieldData (symbolIndex sym)
  | Some KTypeParameter => (lastLoc ∘ tp_locs) <$> typeParameterData (symbolIndex sym)
  | Some KTypeMember => (lastLoc ∘ tp_locs) <$> typeMemberData (symbolIndex sym)
  | None => None
  end.

(** [SymbolRef::resultType] *)
Definition symbolResultType (sym : Z) : option TypePtr :=
  match symbolKind sym with
  | Some KClassOrModule => cm_resultType <$> classData (symbolIndex sym)
  | Some KMethod => me_resultType <$> methodData (symbolIndex sym)
  | Some KFieldOrStaticField => fi_resultType <$> fieldData (symbolIndex sym)
  | Some KTypeParameter => tp_resultType <$> typeParameterData (symbolIndex sym)
  | Some KTypeMember => tp_resultType <$> typeMemberData (symbolIndex sym)
  | None => None
  end.

(** The recursion is bounded by the source's own [depthLimit]. *)
Fixpoint dealiasWithDefault (depthLimit : nat) (symbol def : Z) : option Z :=
  resultType ← symbolResultType symbol;
  match resultType with
  | AliasType target =>
      match depthLimit with
      | O => Some def
      | S depthLimit => dealiasWithDefault depthLimit target def
      end
  | _ => Some symbol
  end.

(** [SymbolRef::dealias], with the default argument 42 of the overloads it calls *)
Definition dealias (sym : Z) : option Z :=
  match symbolKind sym with
  | Some KMethod =>
      dealiasWithDefault 42 sym (makeSymbolRef KMethod (badAliasMethodStub (sy_wk gs)))
  | Some _ => dealiasWithDefault 42 sym (classSymbol untypedClass)
  | None => None
  end.

Definition findMemberNoDealias (klass name : Z) : option Z :=
  c ← classData klass; Some (default noSymbol (cm_members c !! name)).

Definition findMember (klass name : Z) : option Z :=
  ret ← findMemberNoDealias klass name;
  if symbol_exists ret then dealias ret else Some ret.

Definition findMethod (klass name : Z) : option Z :=
  sym ← findMember klass name;
  Some (if symbol_exists sym && isMethod sym then symbolIndex sym else 0).

Definition isSingletonName (name : Z) : option bool := hasUniqueNameKind (sy_names gs) name NameTable.Singleton.

Definition isMangledSingletonName (name : Z) : option bool :=
  match nameKind name with
  | Some UNIQUE =>
      u ← dataUnique (sy_names gs) name;
      if bool_decide (un_kind u = MangleRename) then isSingletonName (un_original u) else Some false
  | _ => Some false
  end.

(** [isSingletonName(name) || isMangledSingletonName(name)] *)
Definition isSingletonClass (klass : Z) : option bool :=
  c ← classData klass;
  isSingletonName (cm_name c) ≫= fun b : bool =>
  if b then Some true else isMangledSingletonName (cm_name c).

Definition lookupSingletonClass (klass : Z) : option Z :=
  if klass =? untypedClass then Some untypedClass
  else symbolIndex <$> findMember klass (n_singleton (sy_wk gs)).

Definition attachedClass (klass : Z) : option Z :=
  if klass =? untypedClass then Some untypedClass
  else symbolIndex <$> findMember klass (n_attached (sy_wk gs)).
End Queries.
