(* ===== verification/SymbolEntry.v ===== *)
(** * Entering, renaming and deleting symbols

    Models the operations of src/core/GlobalState.cc that change the symbol table ([enterClassOrModuleSymbol],
    [enterMethodSymbol] and the others, [mangleRenameMethod], [deleteMethodSymbol], ...), the lookups through
    mangled names, and the operations of src/core/Symbols.cc that they call ([addLoc], [singletonClass],
    [methodArityHash]). A table is a vector; a reference to a symbol is its index, which never changes. [None]
    stands for an exception, a read outside a table, or a loop that has not ended within its fuel. *)

From S2P Require Import Prelude Pickler FileHash Files Locs Types NameTable NameText Symbols SymbolRefs.

#[local] Open Scope Z_scope.

(** ** The state *)

(** [SymbolTableOffsets], sizes of the tables at the end of a stratum of packages *)
Record SymbolTableOffsets := mkOffsets {
  classAndModulesOffset : Z; methodsOffset : Z; fieldsOffset : Z; typeMembersOffset : Z; typeParametersOffset : Z }.

(** What entering asks of [PackageDB]: the packages are the classes of the registry that [getPackageInfo] knows. *)
Record PackageDB := mkPackageDB { pk_enabled : bool; pk_testPackages : bool; pk_packages : gset Z }.

Record GlobalState := mkGlobalState {
  g_symbols : Symbolic; g_files : list File; symbolOffsets : list SymbolTableOffsets;
  earliestReopenedStratum : option Z; symbolTableFrozen : bool; packageDB : PackageDB }.

(** Symbols and names that the build generates *)
Record EntryNames := mkEntryNames {
  sym_todo : Z; sym_PackageSpecRegistry : Z; sym_rootSingleton : Z;
  n_AttachedClass : Z; n_TEST_NAMESPACE : Z; n_blkArg : Z }.

Definition table (gs : GlobalState) : SymbolTable := sy_table (g_symbols gs).

Definition nametable (gs : GlobalState) : NameTable := sy_names (g_symbols gs).

Definition wellKnown (gs : GlobalState) : WellKnown := sy_wk (g_symbols gs).

Definition set_table (t : SymbolTable) (gs : GlobalState) : GlobalState :=
  mkGlobalState (mkSymbolic t (nametable gs) (wellKnown gs)) (g_files gs) (symbolOffsets gs)
    (earliestReopenedStratum gs) (symbolTableFrozen gs) (packageDB gs).

Definition set_names (nt : NameTable) (gs : GlobalState) : GlobalState :=
  mkGlobalState (mkSymbolic (table gs) nt (wellKnown gs)) (g_files gs) (symbolOffsets gs)
    (earliestReopenedStratum gs) (symbolTableFrozen gs) (packageDB gs).

Definition set_classes l (t : SymbolTable) := mkSymbolTable l (methods t) (fields t) (typeParams t) (typeMembers t).
Definition set_methods l (t : SymbolTable) := mkSymbolTable (classAndModules t) l (fields t) (typeParams t) (typeMembers t).
Definition set_fields l (t : SymbolTable) := mkSymbolTable (classAndModules t) (methods t) l (typeParams t) (typeMembers t).
Definition set_typeParams l (t : SymbolTable) := mkSymbolTable (classAndModules t) (methods t) (fields t) l (typeMembers t).
Definition set_typeMembers l (t : SymbolTable) := mkSymbolTable (classAndModules t) (methods t) (fields t) (typeParams t) l.

(** Writes through a reference *)
Definition updateClass (id : Z) (f : ClassOrModule -> ClassOrModule) (gs : GlobalState) : option GlobalState :=
  c ← classData (g_symbols gs) id;
  Some (set_table (set_classes (<[Z.to_nat id := f c]> (classAndModules (table gs))) (table gs)) gs).

Definition updateMethod (id : Z) (f : Method -> Method) (gs : GlobalState) : option GlobalState :=
  m ← methodData (g_symbols gs) id;
  Some (set_table (set_methods (<[Z.to_nat id := f m]> (methods (table gs))) (table gs)) gs).

Definition updateField (id : Z) (f : Field -> Field) (gs : GlobalState) : option GlobalState :=
  x ← fieldData (g_symbols gs) id;
  Some (set_table (set_fields (<[Z.to_nat id := f x]> (fields (table gs))) (table gs)) gs).

Definition updateTypeParameter (id : Z) (f : TypeParameter -> TypeParameter) (gs : GlobalState) : option GlobalState :=
  x ← typeParameterData (g_symbols gs) id;
  Some (set_table (set_typeParams (<[Z.to_nat id := f x]> (typeParams (table gs))) (table gs)) gs).

Definition updateTypeMember (id : Z) (f : TypeParameter -> TypeParameter) (gs : GlobalState) : option GlobalState :=
  x ← typeMemberData (g_symbols gs) id;
  Some (set_table (set_typeMembers (<[Z.to_nat id := f x]> (typeMembers (table gs))) (table gs)) gs).

Definition set_members m (c : ClassOrModule) : ClassOrModule :=
  mkClassOrModule (cm_packageRegistryOwner c) (cm_package c) (cm_owner c) (cm_name c) (cm_superClass c) (cm_flags c)
    (cm_mixins c) (cm_typeParams c) m (cm_resultType c) (cm_locs c).

Definition set_memberTypes tps (c : ClassOrModule) : ClassOrModule :=
  mkClassOrModule (cm_packageRegistryOwner c) (cm_package c) (cm_owner c) (cm_name c) (cm_superClass c) (cm_flags c)
    (cm_mixins c) tps (cm_members c) (cm_resultType c) (cm_locs c).

(** [members()[name] = sym] *)
Definition setMember (name sym : Z) (c : ClassOrModule) : ClassOrModule := set_members (<[name := sym]> (cm_members c)) c.

Definition eraseMember (name : Z) (c : ClassOrModule) : ClassOrModule := set_members (delete name (cm_members c)) c.

Definition set_parameters ps (m : Method) : Method :=
  mkMethod (me_nameLoc m) (me_owner m) (me_name m) (me_rebind m) (me_flags m) (me_typeParams m) ps (me_resultType m)
    (me_intrinsicOffset m) (me_locs m).

Definition set_methodTypes tps (m : Method) : Method :=
  mkMethod (me_nameLoc m) (me_owner m) (me_name m) (me_rebind m) (me_flags m) tps (me_parameters m) (me_resultType m)
    (me_intrinsicOffset m) (me_locs m).

Definition set_methodName name (m : Method) : Method :=
  mkMethod (me_nameLoc m) (me_owner m) name (me_rebind m) (me_flags m) (me_typeParams m) (me_parameters m)
    (me_resultType m) (me_intrinsicOffset m) (me_locs m).

Definition set_methodLocs locs (m : Method) : Method :=
  mkMethod (me_nameLoc m) (me_owner m) (me_name m) (me_rebind m) (me_flags m) (me_typeParams m) (me_parameters m)
    (me_resultType m) (me_intrinsicOffset m) locs.

Definition set_fieldLocs locs (f : Field) : Field := mkField (fi_owner f) (fi_name f) (fi_flags f) (fi_resultType f) locs.

Definition set_typeParameterLocs locs (t : TypeParameter) : TypeParameter :=
  mkTypeParameter (tp_owner t) (tp_name t) (tp_flags t) (tp_resultType t) locs.

Definition set_typeParameterType type (t : TypeParameter) : TypeParameter :=
  mkTypeParameter (tp_owner t) (tp_name t) (tp_flags t) type (tp_locs t).

(** ** Locations of symbols *)

(** Files are numbered from one. *)
Definition fileOf (gs : GlobalState) (file : Z) : option File :=
  if file <=? 0 then None else g_files gs !! Z.to_nat (file - 1).

(** Replaces the first location in the same file. *)
Fixpoint replaceLoc (loc : Loc) (locs : list Loc) : option (list Loc) :=
  match locs with
  | [] => None
  | existing :: locs => if locFile existing =? locFile loc then Some (loc :: locs) else (existing ::.) <$> replaceLoc loc locs
  end.

Definition addLocInternal (gs : GlobalState) (loc mainLoc : Loc) (locs : list Loc) : option (list Loc) :=
  match replaceLoc loc locs with
  | Some locs => Some locs
  | None =>
      if (length locs =? 0)%nat then Some [loc]
      else
        f ← fileOf gs (locFile loc);
        if bool_decide (sourceType f = Normal) && negb (isRBI f) then
          if loc_exists mainLoc then
            mainFile ← fileOf gs (locFile mainLoc);
            Some (if strictValue (strictLevel mainFile) <=? strictValue (strictLevel f) then locs ++ [loc] else loc :: locs)
          else Some (loc :: locs)
        else Some (take (length locs - 1) locs ++ loc :: drop (length locs - 1) locs)
  end.

(** [addLoc] of a symbol with the given locations *)
Definition addLoc (gs : GlobalState) (loc : Loc) (locs : list Loc) : option (list Loc) :=
  if locFile loc =? 0 then Some locs else addLocInternal gs loc (lastLoc locs) locs.

Definition removeLocsForFile (file : Z) (locs : list Loc) : list Loc := filter (fun loc => locFile loc <> file) locs.

(** ** Entering symbols *)

Definition noFlags : ClassFlags := ClassFlags_of_bits 0.

Definition isPackageSpecSymbol (gs : GlobalState) (klass : Z) : option bool :=
  if klass =? 0 then Some false else c ← classData (g_symbols gs) klass; Some (cm_packageRegistryOwner c =? klass).

(** The name without the wrappers of singleton classes *)
Fixpoint unwrapSingleton (fuel : nat) (nt : NameTable) (name : Z) : option Z :=
  b ← hasUniqueNameKind nt name NameTable.Singleton;
  if (b : bool) then
    match fuel with
    | O => None
    | S fuel => u ← dataUnique nt name; unwrapSingleton fuel nt (un_original u)
    end
  else Some name.

Section Enter.
Context (en : EntryNames).

(** The packages of a class: its place in the registry and the package *)
Definition packageInfoForClassOrModule (gs : GlobalState) (owner name : Z) : option (Z * Z) :=
  if negb (pk_enabled (packageDB gs)) then Some (0, 0)
  else if (owner =? root) && negb (pk_testPackages (packageDB gs)) && (name =? n_TEST_NAMESPACE en)
  then Some (sym_PackageSpecRegistry en, 0)
  else
    ownerData ← classData (g_symbols gs) owner;
    isSpec ← isPackageSpecSymbol gs owner;
    let ownerCanStart := (owner =? root) || (isSpec : bool) ||
      ((cm_owner ownerData =? root) && (cm_name ownerData =? n_TEST_NAMESPACE en)) in
    let registryOwner :=
      if negb ownerCanStart && (cm_package ownerData =? 0) && (cm_packageRegistryOwner ownerData =? sym_PackageSpecRegistry en)
      then 0 else cm_packageRegistryOwner ownerData in
    if registryOwner =? 0 then Some (0, cm_package ownerData)
    else
      registryName ← unwrapSingleton (chainFuel (nametable gs)) (nametable gs) name;
      member ← findMember (g_symbols gs) registryOwner registryName;
      if symbol_exists member && isClassOrModule member then
        let pkg := symbolIndex member in
        Some (pkg, if bool_decide (pkg ∈ pk_packages (packageDB gs)) then pkg else cm_package ownerData)
      else Some (0, cm_package ownerData).

(** [members()[name]], or no symbol *)
Definition memberOf (c : ClassOrModule) (name : Z) : Z := default noSymbol (cm_members c !! name).

Definition enterClassOrModuleSymbol (loc : Loc) (owner name : Z) (gs : GlobalState) : option (Z * GlobalState) :=
  ownerScope ← classData (g_symbols gs) owner;
  let store := memberOf ownerScope name in
  if symbol_exists store then Some (symbolIndex store, gs)
  else
    let ret := vsize (classAndModules (table gs)) in
    gs ← updateClass owner (setMember name (classSymbol ret)) gs;
    locs ← addLoc gs loc [];
    let data := mkClassOrModule 0 0 owner name 0 noFlags [] None ∅ NullType locs in
    let gs := set_table (set_classes (classAndModules (table gs) ++ [data]) (table gs)) gs in
    '(registryOwner, package) ← packageInfoForClassOrModule gs owner name;
    gs ← updateClass ret (fun _ => mkClassOrModule registryOwner package owner name 0 noFlags [] None ∅ NullType locs) gs;
    Some (ret, gs).

Inductive Variance := CoVariant | ContraVariant | Invariant.

Definition varianceFlags (isTypeParameter isTypeMember : bool) (v : Variance) : TypeParameterFlags :=
  mkTypeParameterFlags isTypeParameter isTypeMember (match v with CoVariant => true | _ => false end)
    (match v with Invariant => true | _ => false end) (match v with ContraVariant => true | _ => false end) false.

Definition contiguousStrataUntil (gs : GlobalState) : Z :=
  let recorded := vsize (symbolOffsets gs) - 1 in
  match earliestReopenedStratum gs with Some stratum => Z.min stratum recorded | None => recorded end.

Definition updateSymbolTableOffsets (gs : GlobalState) : GlobalState :=
  let t := table gs in
  let offsets := mkOffsets (vsize (classAndModules t)) (vsize (methods t)) (vsize (fields t)) (vsize (typeMembers t))
    (vsize (typeParams t)) in
  mkGlobalState (g_symbols gs) (g_files gs) (symbolOffsets gs ++ [offsets]) (earliestReopenedStratum gs)
    (symbolTableFrozen gs) (packageDB gs).

Definition reopenStratum (stratum : Z) (gs : GlobalState) : GlobalState :=
  mkGlobalState (g_symbols gs) (g_files gs) (symbolOffsets gs)
    (Some (match earliestReopenedStratum gs with Some earliest => Z.min earliest stratum | None => stratum end))
    (symbolTableFrozen gs) (packageDB gs).

Definition enterTypeMember (loc : Loc) (owner name : Z) (variance : Variance) (gs : GlobalState) : option (Z * GlobalState) :=
  ownerScope ← classData (g_symbols gs) owner;
  let store := memberOf ownerScope name in
  if symbol_exists store then Some (symbolIndex store, gs)
  else
    boundary ← symbolOffsets gs !! Z.to_nat (contiguousStrataUntil gs);
    if negb (owner =? 0) && (owner <? classAndModulesOffset boundary) then None
    else
      let result := vsize (typeMembers (table gs)) in
      gs ← updateClass owner (setMember name (makeSymbolRef KTypeMember result)) gs;
      locs ← addLoc gs loc [];
      let data := mkTypeParameter (classSymbol owner) name (varianceFlags false true variance) NullType locs in
      let gs := set_table (set_typeMembers (typeMembers (table gs) ++ [data]) (table gs)) gs in
      gs ← updateClass owner (fun c =>
             let members := typeParameters (cm_typeParams c) in
             set_memberTypes (Some (if bool_decide (result ∈ members) then members else members ++ [result])) c) gs;
      Some (result, gs).

(** The first of the parameters that has the name *)
Fixpoint findTypeParameter (gs : GlobalState) (name : Z) (params : list Z) : option (option Z) :=
  match params with
  | [] => Some None
  | param :: params =>
      tp ← typeParameterData (g_symbols gs) param;
      if tp_name tp =? name then Some (Some param) else findTypeParameter gs name params
  end.

Definition enterTypeParameter (loc : Loc) (owner name : Z) (variance : Variance) (gs : GlobalState) : option (Z * GlobalState) :=
  ownerScope ← methodData (g_symbols gs) owner;
  found ← findTypeParameter gs name (typeParameters (me_typeParams ownerScope));
  match found with
  | Some typeParam =>
      if symbolTableFrozen gs then Some (typeParam, gs)
      else
        tp ← typeParameterData (g_symbols gs) typeParam;
        locs ← addLoc gs loc (tp_locs tp);
        gs ← updateTypeParameter typeParam (set_typeParameterLocs locs) gs;
        Some (typeParam, gs)
  | None =>
      let result := vsize (typeParams (table gs)) in
      locs ← addLoc gs loc [];
      let data := mkTypeParameter (makeSymbolRef KMethod owner) name (varianceFlags true false variance) NullType locs in
      let gs := set_table (set_typeParams (typeParams (table gs) ++ [data]) (table gs)) gs in
      gs ← updateMethod owner (fun m => set_methodTypes (Some (typeParameters (me_typeParams m) ++ [result])) m) gs;
      Some (result, gs)
  end.

Definition enterMethodSymbol (loc : Loc) (owner name : Z) (nameLoc : Loc) (gs : GlobalState) : option (Z * GlobalState) :=
  ownerScope ← classData (g_symbols gs) owner;
  let store := memberOf ownerScope name in
  if symbol_exists store then Some (symbolIndex store, gs)
  else
    let result := vsize (methods (table gs)) in
    gs ← updateClass owner (setMember name (makeSymbolRef KMethod result)) gs;
    locs ← addLoc gs loc [];
    let data := mkMethod nameLoc owner name 0 (MethodFlags_of_bits 0) None [] NullType 0 locs in
    Some (result, set_table (set_methods (methods (table gs) ++ [data]) (table gs)) gs).

Definition newField (owner name : Z) (flags : FieldFlags) (loc : Loc) (gs : GlobalState) : option (Z * GlobalState) :=
  let result := vsize (fields (table gs)) in
  gs ← updateClass owner (setMember name (makeSymbolRef KFieldOrStaticField result)) gs;
  locs ← addLoc gs loc [];
  let data := mkField owner name flags NullType locs in
  Some (result, set_table (set_fields (fields (table gs) ++ [data]) (table gs)) gs).

Definition enterFieldSymbol (loc : Loc) (owner name : Z) (gs : GlobalState) : option (Z * GlobalState) :=
  ownerScope ← classData (g_symbols gs) owner;
  let store := memberOf ownerScope name in
  if symbol_exists store then Some (symbolIndex store, gs)
  else newField owner name (mkFieldFlags true false false false false) loc gs.

Definition enterStaticFieldSymbol (loc : Loc) (owner name : Z) (gs : GlobalState) : option (Z * GlobalState) :=
  ownerScope ← classData (g_symbols gs) owner;
  let store := memberOf ownerScope name in
  if symbol_exists store then
    if symbolTableFrozen gs then Some (symbolIndex store, gs)
    else
      f ← fieldData (g_symbols gs) (symbolIndex store);
      locs ← addLoc gs loc (fi_locs f);
      gs ← updateField (symbolIndex store) (set_fieldLocs locs) gs;
      Some (symbolIndex store, gs)
  else newField owner name (mkFieldFlags false true false false false) loc gs.

Definition noParamFlags : ParamFlags := ParamFlags_setFromU1 0.

Fixpoint parameterIndex (name : Z) (params : list ParamInfo) : option nat :=
  match params with
  | [] => None
  | param :: params => if pi_name param =? name then Some O else S <$> parameterIndex name params
  end.

(** The parameter is returned by its index in the method. *)
Definition enterMethodParameter (loc : Loc) (owner name : Z) (gs : GlobalState) : option (nat * GlobalState) :=
  ownerScope ← methodData (g_symbols gs) owner;
  match parameterIndex name (me_parameters ownerScope) with
  | Some i => Some (i, gs)
  | None =>
      gs ← updateMethod owner (fun m => set_parameters (me_parameters m ++ [mkParamInfo name 0 loc noParamFlags NullType]) m) gs;
      Some (length (me_parameters ownerScope), gs)
  end.

(** A write to the parameter that [enterMethodParameter] returned *)
Definition setParameter (owner : Z) (i : nat) (f : ParamInfo -> ParamInfo) (gs : GlobalState) : option GlobalState :=
  updateMethod owner (fun m => set_parameters (alter f i (me_parameters m)) m) gs.

Definition set_paramLoc loc (p : ParamInfo) : ParamInfo := mkParamInfo (pi_name p) (pi_rebind p) loc (pi_flags p) (pi_type p).

Definition copyParameter (original res : Z) (paramsToKeep : list bool) (gs : GlobalState) (i : nat) : option GlobalState :=
  m ← methodData (g_symbols gs) original;
  param ← me_parameters m !! i;
  keep ← paramsToKeep !! i;
  if negb (keep : bool) && negb (pf_isBlock (pi_flags param)) then Some gs
  else
    let loc := if keep then pi_loc param else noLoc 0 in
    '(j, gs) ← enterMethodParameter loc res (pi_name param) gs;
    setParameter res j (fun _ => set_paramLoc loc param) gs.

Definition enterNewMethodOverload (sigLoc : Loc) (original originalName num : Z) (paramsToKeep : list bool) (gs : GlobalState)
    : option (Z * GlobalState) :=
  '(name, nt) ← freshNameUnique (nametable gs) Overload originalName num;
  let gs := set_names nt gs in
  m ← methodData (g_symbols gs) original;
  '(res, gs) ← enterMethodSymbol sigLoc (me_owner m) name (me_nameLoc m) gs;
  m ← methodData (g_symbols gs) original;
  gs ← foldM (copyParameter original res paramsToKeep) gs (seq 0 (length (me_parameters m)));
  Some (res, gs).

Definition set_superClass klass (c : ClassOrModule) : ClassOrModule :=
  mkClassOrModule (cm_packageRegistryOwner c) (cm_package c) (cm_owner c) (cm_name c) klass (cm_flags c)
    (cm_mixins c) (cm_typeParams c) (cm_members c) (cm_resultType c) (cm_locs c).

Definition setIsModule (isModule : bool) (c : ClassOrModule) : ClassOrModule :=
  let f := cm_flags c in
  mkClassOrModule (cm_packageRegistryOwner c) (cm_package c) (cm_owner c) (cm_name c) (cm_superClass c)
    (mkClassFlags (if isModule then cf_isClass f else true) (if isModule then true else cf_isModule f) (cf_isAbstract f)
       (cf_isInterface f) (cf_isLinearizationComputed f) (cf_isFinal f) (cf_isSealed f) (cf_isPrivate f) (cf_isDeclared f)
       (cf_isDeclaredInPackage f) (cf_isExported f) (cf_isBehaviorDefining f))
    (cm_mixins c) (cm_typeParams c) (cm_members c) (cm_resultType c) (cm_locs c).

Definition singletonClass (klass : Z) (gs : GlobalState) : option (Z * GlobalState) :=
  singleton ← lookupSingletonClass (g_symbols gs) klass;
  if negb (singleton =? 0) then Some (singleton, gs)
  else
    self ← classData (g_symbols gs) klass;
    '(singletonName, nt) ← freshNameUnique (nametable gs) NameTable.Singleton (cm_name self) 1;
    '(singleton, gs) ← enterClassOrModuleSymbol (lastLoc (cm_locs self)) (cm_owner self) singletonName (set_names nt gs);
    gs ← updateClass singleton (fun c => setIsModule false (set_superClass (sym_todo en)
           (setMember (n_attached (wellKnown gs)) (classSymbol klass) c))) gs;
    self ← classData (g_symbols gs) klass;
    '(tp, gs) ← enterTypeMember (lastLoc (cm_locs self)) singleton (n_AttachedClass en) CoVariant gs;
    let todo := ClassType (sym_todo en) in
    gs ← updateTypeMember tp (set_typeParameterType (LambdaParam tp todo todo)) gs;
    gs ← updateClass klass (setMember (n_singleton (wellKnown gs)) (classSymbol singleton)) gs;
    Some (singleton, gs).

(** [synthesizeClass], which the constructor of an empty state uses *)
Definition synthesizeClass (name superclass : Z) (isModule : bool) (gs : GlobalState) : option (Z * GlobalState) :=
  let symRef := vsize (classAndModules (table gs)) in
  let data := setIsModule isModule (mkClassOrModule 0 0 root name superclass noFlags [] None ∅ NullType []) in
  let gs := set_table (set_classes (classAndModules (table gs) ++ [data]) (table gs)) gs in
  gs ← (if root <? symRef then updateClass root (setMember name (classSymbol symRef)) gs else Some gs);
  Some (symRef, gs).

Definition set_isBlock (p : ParamInfo) : ParamInfo :=
  let f := pi_flags p in
  mkParamInfo (pi_name p) (pi_rebind p) (pi_loc p)
    (mkParamFlags (pf_isKeyword f) (pf_isRepeated f) (pf_isDefault f) (pf_isShadow f) true) (pi_type p).

(** A new initializer gets a block parameter, an old one the location. *)
Definition finishStaticInit (loc : Loc) (prevCount sym : Z) (gs : GlobalState) : option (Z * GlobalState) :=
  if negb (prevCount =? vsize (methods (table gs))) then
    '(i, gs) ← enterMethodParameter (noLoc (locFile loc)) sym (n_blkArg en) gs;
    gs ← setParameter sym i set_isBlock gs;
    Some (sym, gs)
  else
    m ← methodData (g_symbols gs) sym;
    locs ← addLoc gs loc (me_locs m);
    gs ← updateMethod sym (set_methodLocs locs) gs;
    Some (sym, gs).

Definition staticInitForClass (klass : Z) (loc : Loc) (gs : GlobalState) : option (Z * GlobalState) :=
  let prevCount := vsize (methods (table gs)) in
  '(singleton, gs) ← singletonClass klass gs;
  '(sym, gs) ← enterMethodSymbol loc singleton (n_staticInit (wellKnown gs)) loc gs;
  finishStaticInit loc prevCount sym gs.

Definition staticInitForFile (loc : Loc) (gs : GlobalState) : option (Z * GlobalState) :=
  '(nm, nt) ← freshNameUnique (nametable gs) Namer (n_staticInit (wellKnown gs)) (locFile loc);
  let gs := set_names nt gs in
  let prevCount := vsize (methods (table gs)) in
  '(sym, gs) ← enterMethodSymbol loc (sym_rootSingleton en) nm (noLoc 0) gs;
  finishStaticInit loc prevCount sym gs.
End Enter.

(** ** Lookups through mangled names *)

Section Lookup.
Context (gs : GlobalState) (owner name : Z).

Abbreviation lookupMangled num := (lookupNameUnique (nametable gs) MangleRename name num).

(** The loop of the lookups: [accept] says whether a member is the one that is looked for. *)
Fixpoint mangledLoop {A} (fuel : nat) (accept : Z -> option (option A)) (members : gmap Z Z) (lookupName unique : Z)
    : option (option A) :=
  match members !! lookupName with
  | None => Some None
  | Some sym =>
      match fuel with
      | O => None
      | S fuel =>
          found ← accept sym;
          match found with
          | Some a => Some (Some a)
          | None =>
              next ← lookupMangled unique;
              if next =? noName then Some None else mangledLoop fuel accept members next (u32 (unique + 1))
          end
      end
  end.

Definition lookupSymbolWithKind (kind : SymbolKind) (defaultReturnValue : Z) (ignoreKind : bool) : option Z :=
  ownerScope ← classData (g_symbols gs) owner;
  found ← mangledLoop (S (size (cm_members ownerScope)))
            (fun sym => Some (if ignoreKind || bool_decide (symbolKind sym = Some kind) then Some sym else None))
            (cm_members ownerScope) name 1;
  Some (default defaultReturnValue found).

Context (hashString : str -> Z).

(** [ArityHash(result)], which keeps two values free *)
Definition arityHash (result : Z) : Z := if result =? 0 then 1 else if result =? 2 then 3 else result.

Definition mixParameter (result : Z) (e : ParamInfo) : option Z :=
  result ← (if pf_isKeyword (pi_flags e) then s ← shortName (nametable gs) (pi_name e); Some (mix result (hashString s))
            else Some result);
  Some (mix result (ParamFlags_toU1 (pi_flags e))).

Definition methodArityHash (m : Method) : option Z :=
  arityHash <$> foldM mixParameter (mix 0 (u32 (vsize (me_parameters m)))) (me_parameters m).

Definition hasIntrinsic (m : Method) : bool := negb (me_intrinsicOffset m =? 0).

Definition hasSig (m : Method) : bool := match me_resultType m with NullType => false | _ => true end.

Definition matchesArityHash (hash method : Z) : option bool :=
  m ← methodData (g_symbols gs) method;
  let isUninitializedIntrinsic := hasIntrinsic m && negb (hasSig m) && negb (loc_exists (lastLoc (me_locs m))) in
  overload ← isOverloadName (nametable gs) (me_name m);
  if (overload : bool) then Some false
  else arity ← methodArityHash m; Some ((arity =? hash) || isUninitializedIntrinsic).

Definition lookupMethodSymbolWithHash (hash : Z) : option Z :=
  ownerScope ← classData (g_symbols gs) owner;
  found ← mangledLoop (S (size (cm_members ownerScope)))
            (fun sym => if isMethod sym then b ← matchesArityHash hash (symbolIndex sym); Some (if (b : bool) then Some (symbolIndex sym) else None)
                        else Some None)
            (cm_members ownerScope) name 1;
  Some (default 0 found).

(** The symbol that had the name of a method before: the last of the renamed ones *)
Fixpoint lastRenamed (fuel : nat) (members : gmap Z Z) (lookupName unique : Z) : option Z :=
  match members !! lookupName with
  | None => Some noSymbol
  | Some sym =>
      match fuel with
      | O => None
      | S fuel =>
          next ← lookupMangled (u32 (unique + 1));
          if next =? noName then Some sym else lastRenamed fuel members next (u32 (unique + 1))
      end
  end.
End Lookup.

Definition findRenamedSymbol (gs : GlobalState) (owner sym : Z) : option Z :=
  name ← symbolName (g_symbols gs) sym;
  ownerScope ← classData (g_symbols gs) owner;
  match nameKind name with
  | Some UNIQUE =>
      u ← dataUnique (nametable gs) name;
      if negb (bool_decide (un_kind u = MangleRename)) then Some noSymbol
      else if un_num u =? 1 then Some noSymbol
      else
        nm ← lookupNameUnique (nametable gs) MangleRename (un_original u) (u32 (un_num u - 1));
        if nm =? noName then Some noSymbol else cm_members ownerScope !! nm
  | _ =>
      lookupName ← lookupNameUnique (nametable gs) MangleRename name 1;
      lastRenamed gs name (S (size (cm_members ownerScope))) (cm_members ownerScope) lookupName 1
  end.

(** ** Renaming and deleting

    The source erases what [find] has found. *)

Definition eraseExisting (owner name : Z) (gs : GlobalState) : option GlobalState :=
  c ← classData (g_symbols gs) owner;
  _ ← cm_members c !! name;
  updateClass owner (eraseMember name) gs.

Fixpoint nextMangled_loop (fuel : nat) (owner origName collisionCount : Z) (gs : GlobalState) : option (Z * GlobalState) :=
  match fuel with
  | O => None
  | S fuel =>
      '(name, nt) ← freshNameUnique (nametable gs) MangleRename origName collisionCount;
      let gs := set_names nt gs in
      member ← findMember (g_symbols gs) owner name;
      if symbol_exists member then nextMangled_loop fuel owner origName (u32 (collisionCount + 1)) gs else Some (name, gs)
  end.

Definition nextMangledName (owner origName : Z) (gs : GlobalState) : option (Z * GlobalState) :=
  ownerData ← classData (g_symbols gs) owner;
  nextMangled_loop (S (size (cm_members ownerData))) owner origName 1 gs.

Definition mangleRenameMethod (what origName : Z) (gs : GlobalState) : option GlobalState :=
  m ← methodData (g_symbols gs) what;
  let owner := me_owner m in
  ownerData ← classData (g_symbols gs) owner;
  _ ← cm_members ownerData !! origName;
  '(name, gs) ← nextMangledName owner origName gs;
  gs ← updateClass owner (fun c => setMember name (makeSymbolRef KMethod what) (eraseMember origName c)) gs;
  updateMethod what (set_methodName name) gs.

Definition deleteTypeParameter (gs : GlobalState) (tp : Z) : option GlobalState :=
  stub ← typeParameterData (g_symbols gs) 0; updateTypeParameter tp (fun _ => stub) gs.

Definition deleteMethodSymbol (what : Z) (gs : GlobalState) : option GlobalState :=
  m ← methodData (g_symbols gs) what;
  gs ← eraseExisting (me_owner m) (me_name m) gs;
  gs ← foldM deleteTypeParameter gs (typeParameters (me_typeParams m));
  stub ← methodData (g_symbols gs) 0;
  updateMethod what (fun _ => stub) gs.

Definition deleteFieldSymbol (what : Z) (gs : GlobalState) : option GlobalState :=
  f ← fieldData (g_symbols gs) what;
  gs ← eraseExisting (fi_owner f) (fi_name f) gs;
  stub ← fieldData (g_symbols gs) 0;
  updateField what (fun _ => stub) gs.

(** [erase] of the first element that is equal *)
Fixpoint eraseFirst (x : Z) (l : list Z) : list Z :=
  match l with [] => [] | y :: l => if x =? y then l else y :: eraseFirst x l end.

Definition deleteTypeMemberSymbol (what : Z) (gs : GlobalState) : option GlobalState :=
  tm ← typeMemberData (g_symbols gs) what;
  let owner := symbolIndex (tp_owner tm) in
  gs ← eraseExisting owner (tp_name tm) gs;
  c ← classData (g_symbols gs) owner;
  members ← cm_typeParams c;
  if negb (bool_decide (what ∈ members)) then None
  else
  gs ← updateClass owner (set_memberTypes (Some (eraseFirst what members))) gs;
  stub ← typeMemberData (g_symbols gs) 0;
  updateTypeMember what (fun _ => stub) gs.
