(* ===== verification/SymbolViews.v ===== *)
(** * Consistency of the symbol table

    What the operations of [SymbolEntry] keep true: every member of a class is a symbol that has this class as its
    owner and the name under which it is listed, every symbol that has not been deleted is listed by its owner,
    singleton classes and the classes they are attached to know each other, and so do type members and type
    parameters and their owners. The invariant is stated over views of the state, and the operations are
    described by what they do to the views. *)

From S2P Require Import Prelude Pickler FileHash Files Locs Types NameTable NameText Symbols SymbolRefs SymbolEntry.

#[local] Open Scope Z_scope.

(** ** Views *)

Section Views.
Context (gs : GlobalState).

(** The index of the owner of a symbol, and its name *)
Definition place (kd : SymbolKind) (i : Z) : option (Z * Z) :=
  match kd with
  | KClassOrModule => (fun c => (cm_owner c, cm_name c)) <$> classData (g_symbols gs) i
  | KMethod => (fun m => (me_owner m, me_name m)) <$> methodData (g_symbols gs) i
  | KFieldOrStaticField => (fun f => (fi_owner f, fi_name f)) <$> fieldData (g_symbols gs) i
  | KTypeParameter => (fun t => (symbolIndex (tp_owner t), tp_name t)) <$> typeParameterData (g_symbols gs) i
  | KTypeMember => (fun t => (symbolIndex (tp_owner t), tp_name t)) <$> typeMemberData (g_symbols gs) i
  end.

Definition member (k n : Z) : option Z := c ← classData (g_symbols gs) k; cm_members c !! n.

Definition resultType (kd : SymbolKind) (i : Z) : TypePtr :=
  match kd with
  | KClassOrModule => from_option cm_resultType NullType (classData (g_symbols gs) i)
  | KMethod => from_option me_resultType NullType (methodData (g_symbols gs) i)
  | KFieldOrStaticField => from_option fi_resultType NullType (fieldData (g_symbols gs) i)
  | KTypeParameter => from_option tp_resultType NullType (typeParameterData (g_symbols gs) i)
  | KTypeMember => from_option tp_resultType NullType (typeMemberData (g_symbols gs) i)
  end.

(** What a symbol is an alias of *)
Definition aliasTarget (kd : SymbolKind) (i : Z) : option Z :=
  match resultType kd i with AliasType target => Some target | _ => None end.

(** The type members of a class, the type parameters of a method *)
Definition ownTypes (kd : SymbolKind) (i : Z) : list Z :=
  match kd with
  | KClassOrModule => from_option (fun c => typeParameters (cm_typeParams c)) [] (classData (g_symbols gs) i)
  | KMethod => from_option (fun m => typeParameters (me_typeParams m)) [] (methodData (g_symbols gs) i)
  | _ => []
  end.

Definition tableSize (kd : SymbolKind) : Z :=
  match kd with
  | KClassOrModule => vsize (classAndModules (table gs))
  | KMethod => vsize (methods (table gs))
  | KFieldOrStaticField => vsize (fields (table gs))
  | KTypeParameter => vsize (typeParams (table gs))
  | KTypeMember => vsize (typeMembers (table gs))
  end.
End Views.

(** The parts of the state that entering symbols does not change *)
Definition settings (gs : GlobalState) : list File * list SymbolTableOffsets * option Z * bool * PackageDB :=
  (g_files gs, symbolOffsets gs, earliestReopenedStratum gs, symbolTableFrozen gs, packageDB gs).

(** Names of members that are not links between a class and its singleton class *)
Definition plain (wk : WellKnown) (n : Z) : Prop := n <> n_singleton wk /\ n <> n_attached wk.

(** Methods own type parameters, classes own all other symbols. *)
Definition ownerKind (kd : SymbolKind) : SymbolKind := match kd with KTypeParameter => KMethod | _ => KClassOrModule end.

(** Owners list their symbols, except for the classes that are made before the root. *)
Definition listed (kd : SymbolKind) (i : Z) : Prop := kd <> KTypeParameter /\ (kd = KClassOrModule -> root < i).

(** The kind of the types that a class or a method declares *)
Definition typesKind (kd : SymbolKind) : option SymbolKind :=
  match kd with KClassOrModule => Some KTypeMember | KMethod => Some KTypeParameter | _ => None end.

(** A symbol that has an owner, and so has not been deleted *)
Definition live (gs : GlobalState) (kd : SymbolKind) (i : Z) : Prop :=
  0 < i /\ exists o n, place gs kd i = Some (o, n) /\ 0 < o.

Definition named (gs : GlobalState) (n : Z) : Prop := exists d, (n, d) ∈ allNames (nametable gs).

Record Consistent (h : str -> Z) (gs : GlobalState) : Prop := mkConsistent {
  co_names : NameTable_wf h (nametable gs);
  co_sizes kd : 1 <= tableSize gs kd < 2 ^ 29;
  co_stub kd o n : kd <> KClassOrModule -> place gs kd 0 = Some (o, n) -> o = 0;
  co_stubAlias kd : aliasTarget gs kd 0 = None;
  co_badAlias : 0 < badAliasMethodStub (wellKnown gs) < 2 ^ 29;
  co_links : n_singleton (wellKnown gs) <> n_attached (wellKnown gs);
  co_linkNames : nameKind (n_singleton (wellKnown gs)) = Some UTF8 /\ nameKind (n_attached (wellKnown gs)) = Some UTF8;
  co_named kd i o n : 0 <= i -> place gs kd i = Some (o, n) -> named gs n;
  co_owner kd i o n : 0 < i -> place gs kd i = Some (o, n) -> 0 <= o /\ is_Some (place gs (ownerKind kd) o);
  co_member k n sym : 0 < k -> plain (wellKnown gs) n -> member gs k n = Some sym ->
    exists kd i, sym = makeSymbolRef kd i /\ 0 < i /\ kd <> KTypeParameter /\ place gs kd i = Some (k, n);
  co_listed kd i k n : 0 < i -> 0 < k -> listed kd i -> place gs kd i = Some (k, n) ->
    plain (wellKnown gs) n /\ member gs k n = Some (makeSymbolRef kd i);
  co_singleton k sym : 0 < k -> member gs k (n_singleton (wellKnown gs)) = Some sym ->
    exists s, 0 < s /\ sym = classSymbol s /\ member gs s (n_attached (wellKnown gs)) = Some (classSymbol k);
  co_attached s sym : 0 < s -> member gs s (n_attached (wellKnown gs)) = Some sym ->
    exists k, 0 < k /\ sym = classSymbol k /\ member gs k (n_singleton (wellKnown gs)) = Some (classSymbol s);
  co_alias kd i target : 0 <= i -> aliasTarget gs kd i = Some target ->
    exists kd' i', target = makeSymbolRef kd' i' /\ 0 < i' /\ is_Some (place gs kd' i');
  co_types kd tk i t : typesKind kd = Some tk -> live gs kd i ->
    t ∈ ownTypes gs kd i <-> 0 < t /\ exists n, place gs tk t = Some (i, n);
  co_typeNames kd tk i : typesKind kd = Some tk -> live gs kd i -> NoDup (ownTypes gs kd i) /\
    forall t t' n, 0 < t -> 0 < t' -> place gs tk t = Some (i, n) -> place gs tk t' = Some (i, n) -> t = t' }.

(** ** A new symbol *)

(** [gs'] has one symbol more than [gs]. *)
Record NewSymbol (kd : SymbolKind) (i o n : Z) (gs gs' : GlobalState) : Prop := mkNewSymbol {
  ns_names : nametable gs' = nametable gs;
  ns_wk : wellKnown gs' = wellKnown gs;
  ns_settings : settings gs' = settings gs;
  ns_size kd' : tableSize gs' kd' = if decide (kd' = kd) then tableSize gs kd + 1 else tableSize gs kd';
  ns_index : i = tableSize gs kd;
  ns_place kd' j : 0 <= j -> place gs' kd' j = if decide ((kd', j) = (kd, i)) then Some (o, n) else place gs kd' j;
  ns_member k m : 0 <= k -> member gs' k m =
    if decide (kd <> KTypeParameter /\ (k, m) = (o, n)) then Some (makeSymbolRef kd i) else member gs k m;
  ns_alias kd' j : 0 <= j -> aliasTarget gs' kd' j = aliasTarget gs kd' j;
  ns_types kd' j : 0 <= j -> ownTypes gs' kd' j =
    if decide (typesKind kd' = Some kd /\ j = o) then ownTypes gs kd' j ++ [i] else ownTypes gs kd' j }.

Lemma place_size gs kd i : 0 <= i -> is_Some (place gs kd i) <-> i < tableSize gs kd.
Proof.
  intros Hi. unfold tableSize, vsize, table. destruct kd; cbn; rewrite fmap_is_Some; unfold classData, methodData, fieldData, typeParameterData, typeMemberData;
    rewrite lookup_lt_is_Some; lia.
Qed.

Lemma place_lt gs kd i p : 0 <= i -> place gs kd i = Some p -> i < tableSize gs kd.
Proof. intros Hi H. apply place_size; [done|]. by eexists. Qed.

Lemma makeSymbolRef_inj kd i kd' i' : 0 <= i < 2 ^ 29 -> 0 <= i' < 2 ^ 29 ->
  makeSymbolRef kd i = makeSymbolRef kd' i' -> kd = kd' /\ i = i'.
Proof.
  intros Hi Hi' E. split.
  - pose proof (makeSymbolRef_kind kd i Hi). pose proof (makeSymbolRef_kind kd' i' Hi'). congruence.
  - rewrite <- (makeSymbolRef_index kd i), <- (makeSymbolRef_index kd' i') by done. congruence.
Qed.

(** Symbols that are not there have no parts. *)
Lemma ownTypes_unplaced gs kd i : place gs kd i = None -> ownTypes gs kd i = [].
Proof. destruct kd; cbn; try done; by intros ->%fmap_None. Qed.

Lemma member_unplaced gs k n : place gs KClassOrModule k = None -> member gs k n = None.
Proof. unfold member. cbn. by intros ->%fmap_None. Qed.

Lemma resultType_unplaced gs kd i : place gs kd i = None -> resultType gs kd i = NullType.
Proof. destruct kd; cbn; by intros ->%fmap_None. Qed.

Section New.
Context (h : str -> Z) (kd : SymbolKind) (i o n : Z) (gs gs' : GlobalState).
Context (Hco : Consistent h gs) (Hnew : NewSymbol kd i o n gs gs').
Context (Ho : 0 < o) (Howner : is_Some (place gs (ownerKind kd) o)) (Hroom : tableSize gs kd + 1 < 2 ^ 29).
Context (Hname : kd <> KTypeParameter -> plain (wellKnown gs) n /\ member gs o n = None).
Context (Hnamed : named gs n) (Hclass : kd = KClassOrModule -> root < i).
Context (Htype : kd = KTypeParameter -> forall t, 0 < t -> place gs KTypeParameter t <> Some (o, n)).

Lemma new_index : 0 < i < 2 ^ 29.
Proof. pose proof (co_sizes _ _ Hco kd). rewrite (ns_index _ _ _ _ _ _ Hnew). lia. Qed.

Lemma new_unplaced : place gs kd i = None.
Proof.
  pose proof new_index. destruct (place gs kd i) eqn:E; [|done]. apply place_lt in E; [|lia].
  rewrite (ns_index _ _ _ _ _ _ Hnew) in E. lia.
Qed.

Lemma new_place_old kd' j p : 0 <= j -> place gs kd' j = Some p -> place gs' kd' j = Some p.
Proof.
  intros Hj E. rewrite (ns_place _ _ _ _ _ _ Hnew) by done. rewrite decide_False; [done|]. intros [= -> ->].
  by rewrite new_unplaced in E.
Qed.

Lemma new_place_new : place gs' kd i = Some (o, n).
Proof. pose proof new_index. rewrite (ns_place _ _ _ _ _ _ Hnew), decide_True by (done || lia). done. Qed.

Lemma new_place_inv kd' j p : 0 <= j -> place gs' kd' j = Some p -> place gs kd' j = Some p \/ (kd', j, p) = (kd, i, (o, n)).
Proof.
  intros Hj. rewrite (ns_place _ _ _ _ _ _ Hnew) by done. case_decide as E; [|by left].
  injection E as -> ->. intros [= <-]. by right.
Qed.

Lemma new_place_is_Some kd' j : 0 <= j -> is_Some (place gs kd' j) -> is_Some (place gs' kd' j).
Proof. intros Hj [p E]. exists p. by apply new_place_old. Qed.

Lemma new_member_old k m sym : 0 <= k -> member gs k m = Some sym -> member gs' k m = Some sym.
Proof.
  intros Hk E. rewrite (ns_member _ _ _ _ _ _ Hnew) by done. rewrite decide_False; [done|]. intros [Hkd [= -> ->]].
  destruct (Hname Hkd) as [_ Hn]. by rewrite Hn in E.
Qed.

Lemma new_member_link k m : 0 <= k -> ~ plain (wellKnown gs) m -> member gs' k m = member gs k m.
Proof.
  intros Hk Hm. rewrite (ns_member _ _ _ _ _ _ Hnew) by done. rewrite decide_False; [done|]. intros [Hkd [= -> ->]].
  by destruct (Hname Hkd).
Qed.

Lemma new_live kd' j : live gs' kd' j -> live gs kd' j \/ (kd', j) = (kd, i).
Proof.
  intros (Hj & o' & n' & E & Ho'). destruct (new_place_inv kd' j (o', n')) as [H|H]; [lia|done| |right; congruence].
  left. split; [done|]. by exists o', n'.
Qed.

Lemma new_types kd' tk j t : typesKind kd' = Some tk -> live gs' kd' j ->
  t ∈ ownTypes gs' kd' j <-> 0 < t /\ exists n, place gs' tk t = Some (j, n).
Proof.
  intros Hk Hl. pose proof new_index as Hi. pose proof Hl as [Hj _]. rewrite (ns_types _ _ _ _ _ _ Hnew) by lia.
  assert (Hold : t ∈ ownTypes gs kd' j <-> 0 < t /\ exists n, place gs tk t = Some (j, n)).
  { destruct (new_live kd' j Hl) as [H|[= -> ->]]; [by apply (co_types _ _ Hco)|]. split.
    - by rewrite (ownTypes_unplaced gs kd i new_unplaced), elem_of_nil.
    - intros (Ht & m & E). apply (co_owner _ _ Hco) in E as (_ & [p E]); [|done]. exfalso. pose proof new_unplaced as Hun.
      destruct kd; cbn in Hk; try done; injection Hk as <-; cbn [ownerKind] in E; by rewrite Hun in E. }
  assert (Hplace : 0 < t -> (exists n, place gs' tk t = Some (j, n)) <-> (exists n, place gs tk t = Some (j, n)) \/ (tk, t) = (kd, i) /\ j = o).
  { intros Ht. split.
    - intros (m & [H|[= -> -> -> ->]]%new_place_inv); [left; by exists m|by right|lia].
    - intros [[m H]|[[= -> ->] ->]]; [exists m; apply new_place_old; [lia|done]|exists n; apply new_place_new]. }
  case_decide as E.
  - destruct E as [E ->]. rewrite E in Hk. injection Hk as <-. rewrite elem_of_app, list_elem_of_singleton, Hold. naive_solver lia.
  - rewrite Hold. split; [naive_solver|]. intros [Ht H]. split; [done|]. apply Hplace in H as [H|[[= -> ->] ->]]; [done|by destruct E|done].
Qed.

Lemma new_typeNames kd' tk j : typesKind kd' = Some tk -> live gs' kd' j -> NoDup (ownTypes gs' kd' j) /\
  forall t t' m, 0 < t -> 0 < t' -> place gs' tk t = Some (j, m) -> place gs' tk t' = Some (j, m) -> t = t'.
Proof.
  intros Hk Hl. pose proof new_index as Hi. pose proof Hl as [Hj _].
  assert (Hold : NoDup (ownTypes gs kd' j) /\ (forall t, t ∈ ownTypes gs kd' j -> 0 < t /\ is_Some (place gs tk t)) /\
    forall t t' m, 0 < t -> 0 < t' -> place gs tk t = Some (j, m) -> place gs tk t' = Some (j, m) -> t = t').
  { destruct (new_live kd' j Hl) as [H|[= -> ->]].
    - destruct (co_typeNames _ _ Hco kd' tk j Hk H) as [Hn Hinj]. split_and!; [done| |done].
      intros t Ht. apply (co_types _ _ Hco kd' tk j t Hk H) in Ht as (? & m & ?). split; [done|by eexists].
    - rewrite (ownTypes_unplaced gs kd i new_unplaced). split_and!; [constructor|by intros t ?%elem_of_nil|].
      intros t t' m Ht _ E. apply (co_owner _ _ Hco) in E as (_ & [p E]); [|done]. exfalso. pose proof new_unplaced as Hun.
      destruct kd; cbn in Hk; try done; injection Hk as <-; cbn [ownerKind] in E; by rewrite Hun in E. }
  destruct Hold as (Hn & Hin & Hinj). split.
  - rewrite (ns_types _ _ _ _ _ _ Hnew) by lia. case_decide as E; [|done]. destruct E as [E ->]. rewrite E in Hk. injection Hk as <-.
    apply NoDup_app. split_and!; [done| |apply NoDup_singleton]. intros t [_ [p Ht]]%Hin ->%list_elem_of_singleton. by rewrite new_unplaced in Ht.
  - assert (Hfresh : forall t m, 0 < t -> place gs tk t = Some (j, m) -> (tk, j, m) <> (kd, o, n)).
    { intros t m Ht E [= -> -> ->]. destruct (decide (kd = KTypeParameter)) as [->|Hkd]; [by apply (Htype eq_refl t Ht)|].
      destruct (Hname Hkd) as [_ Hnone]. destruct kd' ; cbn in Hk; try done; injection Hk as <-; [|done].
      apply (co_listed _ _ Hco) in E as [_ E]; [by rewrite Hnone in E|done|done|done]. }
    intros t t' m Ht Ht' [E|[= -> -> -> ->]]%new_place_inv [E'|E']%new_place_inv; try lia.
    + by eapply Hinj.
    + injection E' as -> -> -> ->. by destruct (Hfresh t n Ht E).
    + by destruct (Hfresh t' n Ht' E').
    + congruence.
Qed.

Lemma consistent_new : Consistent h gs'.
Proof.
  pose proof new_index as Hi. pose proof (ns_wk _ _ _ _ _ _ Hnew) as Hwk. split; rewrite ?Hwk.
  - rewrite (ns_names _ _ _ _ _ _ Hnew). apply (co_names _ _ Hco).
  - intros kd'. rewrite (ns_size _ _ _ _ _ _ Hnew). pose proof (co_sizes _ _ Hco kd'). case_decide; subst; lia.
  - intros kd' o' n' Hc [E|[= _ ?]]%new_place_inv; [by eapply (co_stub _ _ Hco)|lia|done].
  - intros kd'. rewrite (ns_alias _ _ _ _ _ _ Hnew) by done. apply (co_stubAlias _ _ Hco).
  - apply (co_badAlias _ _ Hco).
  - apply (co_links _ _ Hco).
  - apply (co_linkNames _ _ Hco).
  - unfold named. rewrite (ns_names _ _ _ _ _ _ Hnew). intros kd' j o' n' Hj [E|[= _ _ _ ->]]%new_place_inv; [by eapply (co_named _ _ Hco)|done..].
  - intros kd' j o' n' Hj [E|[= -> -> -> ->]]%new_place_inv; [|split; [lia|]; apply new_place_is_Some; [lia|done]|lia].
    apply (co_owner _ _ Hco) in E as [? ?]; [|done]. split; [done|]. by apply new_place_is_Some.
  - intros k m sym Hk Hm. rewrite (ns_member _ _ _ _ _ _ Hnew) by lia. case_decide as E.
    + destruct E as [Hkd [= -> ->]]. intros [= <-]. exists kd, i. split_and!; [done|lia|done|apply new_place_new].
    + intros (kd' & j & -> & Hj & Hkd & Hp)%(co_member _ _ Hco); [|done..]. exists kd', j. split_and!; [done..|].
      apply new_place_old; [lia|done].
  - intros kd' j k m Hj Hk Hl [E|[= -> -> -> ->]]%new_place_inv; [| |lia].
    + apply (co_listed _ _ Hco) in E as [? ?]; [|done..]. split; [done|]. apply new_member_old; [lia|done].
    + destruct Hl as [Hkd _]. destruct (Hname Hkd). split; [done|].
      rewrite (ns_member _ _ _ _ _ _ Hnew), decide_True by (done || lia). done.
  - intros k sym Hk. rewrite new_member_link; [|lia|unfold plain; tauto].
    intros (s & Hs & -> & E)%(co_singleton _ _ Hco); [|done]. exists s. split_and!; [done..|]. apply new_member_old; [lia|done].
  - intros k sym Hk. rewrite new_member_link; [|lia|unfold plain; tauto].
    intros (s & Hs & -> & E)%(co_attached _ _ Hco); [|done]. exists s. split_and!; [done..|]. apply new_member_old; [lia|done].
  - intros kd' j target Hj. rewrite (ns_alias _ _ _ _ _ _ Hnew) by done. intros (kd1 & i1 & -> & Hi1 & E)%(co_alias _ _ Hco); [|done].
    exists kd1, i1. split_and!; [done..|]. apply new_place_is_Some; [lia|done].
  - apply new_types.
  - apply new_typeNames.
Qed.
End New.

(** ** Writes to the tables *)

Lemma lookup_insert_view {A B} (g : A -> B) (l : list A) i a b j : l !! i = Some a -> g b = g a -> g <$> <[i := b]> l !! j = g <$> l !! j.
Proof.
  intros Hl Hg. destruct (decide (i = j)) as [->|Hne]; [|by rewrite list_lookup_insert_ne].
  rewrite list_lookup_insert_eq by (by eapply lookup_lt_Some). rewrite Hl. cbn. by rewrite Hg.
Qed.

Lemma from_option_view {A B} (g : A -> B) d (o o' : option A) : g <$> o = g <$> o' -> from_option g d o = from_option g d o'.
Proof. destruct o, o'; cbn; congruence. Qed.

Lemma lookup_snoc_view {A} (l : list A) x j : 0 <= j -> (l ++ [x]) !! Z.to_nat j = if decide (j = vsize l) then Some x else l !! Z.to_nat j.
Proof.
  intros Hj. unfold vsize. case_decide as E.
  - subst. by rewrite Nat2Z.id, list_lookup_middle.
  - destruct (decide (Z.to_nat j < length l)%nat); [by rewrite lookup_app_l|]. rewrite lookup_ge_None_2 by (rewrite length_app; cbn; lia).
    by rewrite lookup_ge_None_2 by lia.
Qed.

(** [gs'] has the same symbols as [gs], with the same names and owners. *)
Record SameSymbols (gs gs' : GlobalState) : Prop := mkSame {
  sa_wk : wellKnown gs' = wellKnown gs;
  sa_settings : settings gs' = settings gs;
  sa_size kd : tableSize gs' kd = tableSize gs kd;
  sa_place kd j : place gs' kd j = place gs kd j }.

Lemma updateClass_views id f gs gs' : 0 <= id -> updateClass id f gs = Some gs' ->
  (forall c, classData (g_symbols gs) id = Some c ->
     cm_owner (f c) = cm_owner c /\ cm_name (f c) = cm_name c /\ cm_resultType (f c) = cm_resultType c) ->
  exists c, classData (g_symbols gs) id = Some c /\ nametable gs' = nametable gs /\ SameSymbols gs gs' /\
    (forall kd j, resultType gs' kd j = resultType gs kd j) /\
    (forall k m, 0 <= k -> member gs' k m = if decide (k = id) then cm_members (f c) !! m else member gs k m) /\
    (forall kd j, 0 <= j -> ownTypes gs' kd j =
      if decide (kd = KClassOrModule /\ j = id) then typeParameters (cm_typeParams (f c)) else ownTypes gs kd j).
Proof.
  intros Hid E Hf. unfold updateClass in E. apply bind_Some in E as (c & Hc & [= <-]). exists c. destruct (Hf c Hc) as (H1 & H2 & H3).
  split_and!; [done|done| | | |].
  - split; [done|done| |].
    + intros []; cbn; try done. unfold vsize. by rewrite length_insert.
    + intros [] j; cbn; try done. apply lookup_insert_view with c; [done|]. congruence.
  - intros [] j; cbn; try done. apply from_option_view, lookup_insert_view with c; done.
  - intros k m Hk. unfold member, classData. cbn. case_decide as E; [subst k|].
    + by rewrite list_lookup_insert_eq by (by eapply lookup_lt_Some).
    + by rewrite list_lookup_insert_ne by lia.
  - intros [] j Hj; cbn; rewrite ?decide_False by (intros [? _]; done); try done. unfold classData. cbn. case_decide as E.
    + destruct E as [_ ->]. by rewrite list_lookup_insert_eq by (by eapply lookup_lt_Some).
    + rewrite list_lookup_insert_ne; [done|]. intros H. apply E. split; [done|lia].
Qed.

(** A method appended to its table *)
Definition appendMethod (m : Method) (gs : GlobalState) : GlobalState := set_table (set_methods (methods (table gs) ++ [m]) (table gs)) gs.
Definition appendClass (c : ClassOrModule) (gs : GlobalState) : GlobalState := set_table (set_classes (classAndModules (table gs) ++ [c]) (table gs)) gs.
Definition appendField (f : Field) (gs : GlobalState) : GlobalState := set_table (set_fields (fields (table gs) ++ [f]) (table gs)) gs.
Definition appendTypeMember (t : TypeParameter) (gs : GlobalState) : GlobalState := set_table (set_typeMembers (typeMembers (table gs) ++ [t]) (table gs)) gs.
Definition appendTypeParameter (t : TypeParameter) (gs : GlobalState) : GlobalState := set_table (set_typeParams (typeParams (table gs) ++ [t]) (table gs)) gs.

(** What a symbol that was appended looks like *)
Record Appended (kd : SymbolKind) (p : Z * Z) (gs gs' : GlobalState) : Prop := mkAppended {
  ap_names : nametable gs' = nametable gs;
  ap_wk : wellKnown gs' = wellKnown gs;
  ap_settings : settings gs' = settings gs;
  ap_size kd' : tableSize gs' kd' = if decide (kd' = kd) then tableSize gs kd + 1 else tableSize gs kd';
  ap_place kd' j : 0 <= j -> place gs' kd' j = if decide ((kd', j) = (kd, tableSize gs kd)) then Some p else place gs kd' j;
  ap_member k m : 0 <= k -> member gs' k m = member gs k m;
  ap_result kd' j : 0 <= j -> resultType gs' kd' j = resultType gs kd' j;
  ap_types kd' j : 0 <= j -> ownTypes gs' kd' j = ownTypes gs kd' j }.

Ltac other_tables :=
  intros []; intros; cbn; try done; rewrite ?decide_False by (intros [=]); rewrite ?vsize_snoc; try done.

(** The entry at the end of a table is the new one, and it was not there before. *)
Ltac at_end :=
  unfold classData, methodData, fieldData, typeParameterData, typeMemberData; cbn;
  rewrite lookup_snoc_view by done; unfold table;
  (case_decide; [subst|try done]); repeat case_decide; try done; try congruence;
  try (rewrite lookup_ge_None_2 by (unfold vsize; lia); cbn; congruence).

Ltac appends := split; [done|done|done|other_tables|other_tables|try done; intros ? ? ?; unfold member|other_tables|other_tables]; at_end.

Lemma appendMethod_views m gs : me_resultType m = NullType -> me_typeParams m = None ->
  Appended KMethod (me_owner m, me_name m) gs (appendMethod m gs).
Proof. intros Hr Ht. appends. rewrite lookup_ge_None_2 by (unfold vsize; lia). cbn. by rewrite Ht. Qed.

Lemma appendClass_views c gs : cm_resultType c = NullType -> cm_typeParams c = None -> cm_members c = ∅ ->
  Appended KClassOrModule (cm_owner c, cm_name c) gs (appendClass c gs).
Proof.
  intros Hr Ht Hm. appends; rewrite lookup_ge_None_2 by (unfold vsize; lia); cbn; [by rewrite Hm|by rewrite Ht].
Qed.

Lemma appendField_views f gs : fi_resultType f = NullType -> Appended KFieldOrStaticField (fi_owner f, fi_name f) gs (appendField f gs).
Proof. intros Hr. appends. Qed.

Lemma appendTypeMember_views t gs : tp_resultType t = NullType ->
  Appended KTypeMember (symbolIndex (tp_owner t), tp_name t) gs (appendTypeMember t gs).
Proof. intros Hr. appends. Qed.

Lemma appendTypeParameter_views t gs : tp_resultType t = NullType ->
  Appended KTypeParameter (symbolIndex (tp_owner t), tp_name t) gs (appendTypeParameter t gs).
Proof. intros Hr. appends. Qed.

Lemma addLoc_nil gs loc : addLoc gs loc [] = Some (if locFile loc =? 0 then [] else [loc]).
Proof. unfold addLoc. by destruct (_ =? _). Qed.

Lemma updateClass_total id f gs : is_Some (place gs KClassOrModule id) -> is_Some (updateClass id f gs).
Proof. intros [p Hp]. unfold updateClass. cbn in Hp. apply fmap_Some in Hp as (c & -> & _). by eexists. Qed.

(** The views of a state that differs in other parts only *)
Record SameViews (gs gs' : GlobalState) : Prop := mkSameViews {
  sv_names : nametable gs' = nametable gs;
  sv_symbols : SameSymbols gs gs';
  sv_member k m : 0 <= k -> member gs' k m = member gs k m;
  sv_result kd j : 0 <= j -> aliasTarget gs' kd j = aliasTarget gs kd j;
  sv_types kd j : 0 <= j -> ownTypes gs' kd j = ownTypes gs kd j }.

Lemma NewSymbol_same kd i o n gs gs1 gs2 : NewSymbol kd i o n gs gs1 -> SameViews gs1 gs2 -> NewSymbol kd i o n gs gs2.
Proof.
  intros [] [H1 [H2 Hs H3 H4] H5 H6 H7]. split; [congruence|congruence|congruence|intros; by rewrite H3|done|..]; intros.
  - by rewrite H4, ns_place0.
  - by rewrite H5, ns_member0.
  - by rewrite H6, ns_alias0.
  - by rewrite H7, ns_types0.
Qed.

(** A member is listed and its symbol appended. *)
Lemma new_listed kd o n gs gs1 gs2 : kd <> KTypeParameter -> kd <> KTypeMember -> 0 <= o ->
  updateClass o (setMember n (makeSymbolRef kd (tableSize gs kd))) gs = Some gs1 -> Appended kd (o, n) gs1 gs2 ->
  NewSymbol kd (tableSize gs kd) o n gs gs2.
Proof.
  intros Hkd Hkd' Ho E [A1 A2 As A3 A4 A5 A6 A7].
  apply updateClass_views in E as (c & Hc & B1 & [B2 Bs B3 B4] & B5 & B6 & B7); [|done|done].
  split; [congruence|congruence|congruence| |done|..].
  - intros kd'. rewrite A3. by rewrite !B3.
  - intros kd' j Hj. by rewrite A4, B3, B4.
  - intros k m Hk. rewrite A5, B6 by done. destruct (decide (k = o)) as [->|Hne].
    + cbn. destruct (decide (m = n)) as [->|Hne]; [by rewrite lookup_insert_eq, decide_True by done|].
      rewrite lookup_insert_ne, decide_False by (congruence || by intros [_ [=]]). unfold member. by rewrite Hc.
    + by rewrite decide_False by (intros [_ [=]]; done).
  - intros kd' j Hj. unfold aliasTarget. by rewrite A6, B5.
  - intros kd' j Hj. rewrite A7, B7 by done. rewrite (decide_False (P := typesKind _ = _ /\ _)).
    + case_decide as Ed; [|done]. destruct Ed as [-> ->]. cbn. by rewrite Hc.
    + intros [H _]. by destruct kd'; cbn in H; try done; injection H as <-.
Qed.
