(* ===== verification/SymbolConsistent.v ===== *)
(** * The operations on the symbol table keep it consistent

    Each operation of [SymbolEntry] is described by what it does to the views of [SymbolViews]; from that follow the
    theorems of this file: entering finds what is there or adds one symbol, renaming and deleting change what they
    are asked to, and any sequence of operations keeps the table consistent. *)

From S2P Require Import Prelude Pickler FileHash Files Locs Types NameTable NameText Symbols SymbolRefs SymbolEntry SymbolViews.

#[local] Open Scope Z_scope.

(** ** Entering *)

Lemma data_placed {A} (f : A -> Z * Z) o p : f <$> o = Some p -> exists x, o = Some x /\ f x = p.
Proof. intros (x & -> & ->)%fmap_Some. by exists x. Qed.

(** The owner has a symbol of this name, or gets one. *)
Definition Entered (kd : SymbolKind) (o n : Z) (gs : GlobalState) (r : Z) (gs' : GlobalState) : Prop :=
  (exists sym, member gs o n = Some sym /\ symbol_exists sym = true /\ r = symbolIndex sym /\ SameViews gs gs') \/
  (from_option symbol_exists false (member gs o n) = false /\ NewSymbol kd r o n gs gs').

Lemma SameViews_refl gs : SameViews gs gs.
Proof. split; try done. Qed.

Lemma memberOf_member gs o c n : classData (g_symbols gs) o = Some c ->
  symbol_exists (memberOf c n) = from_option symbol_exists false (member gs o n) /\
  (symbol_exists (memberOf c n) = true -> member gs o n = Some (memberOf c n)).
Proof. intros Hc. unfold memberOf, member. rewrite Hc. cbn. by destruct (cm_members c !! n). Qed.

Lemma class_there gs o : is_Some (place gs KClassOrModule o) -> exists c, classData (g_symbols gs) o = Some c.
Proof. intros [p Hp]. cbn in Hp. apply fmap_Some in Hp as (c & Hc & _). by exists c. Qed.

(** The start of each of the functions that enter a member *)
Lemma entered_existing kd gs o c n : classData (g_symbols gs) o = Some c -> symbol_exists (memberOf c n) = true ->
  Entered kd o n gs (symbolIndex (memberOf c n)) gs.
Proof. intros Hc E. destruct (memberOf_member gs o c n Hc) as [_ H]. left. eexists. split_and!; [by apply H|done|done|apply SameViews_refl]. Qed.

Lemma enterMethodSymbol_entered loc o n nameLoc gs : 0 <= o -> is_Some (place gs KClassOrModule o) ->
  exists r gs', enterMethodSymbol loc o n nameLoc gs = Some (r, gs') /\ Entered KMethod o n gs r gs'.
Proof.
  intros Ho Hp. destruct (class_there _ _ Hp) as [c Hc]. unfold enterMethodSymbol. rewrite Hc. cbn [mbind option_bind].
  destruct (symbol_exists (memberOf c n)) eqn:E; [eexists _, _; split; [done|by apply entered_existing]|].
  destruct (updateClass_total o (setMember n (makeSymbolRef KMethod (vsize (methods (table gs))))) gs Hp) as [gs1 E1].
  rewrite E1. cbn [mbind option_bind]. rewrite addLoc_nil. cbn [mbind option_bind]. eexists _, _. split; [done|]. right.
  split; [by rewrite <- (proj1 (memberOf_member gs o c n Hc))|]. eapply (new_listed KMethod); [done..|exact E1|by apply (appendMethod_views (mkMethod _ o n _ _ _ _ _ _ _))].
Qed.

Lemma newField_new o n flags loc gs : 0 <= o -> is_Some (place gs KClassOrModule o) ->
  exists r gs', newField o n flags loc gs = Some (r, gs') /\ NewSymbol KFieldOrStaticField r o n gs gs'.
Proof.
  intros Ho Hp. unfold newField.
  destruct (updateClass_total o (setMember n (makeSymbolRef KFieldOrStaticField (vsize (fields (table gs))))) gs Hp) as [gs1 E1].
  rewrite E1. cbn [mbind option_bind]. rewrite addLoc_nil. cbn [mbind option_bind]. eexists _, _. split; [done|].
  eapply (new_listed KFieldOrStaticField); [done..|exact E1|by apply (appendField_views (mkField o n _ _ _))].
Qed.

Lemma enterFieldSymbol_entered loc o n gs : 0 <= o -> is_Some (place gs KClassOrModule o) ->
  exists r gs', enterFieldSymbol loc o n gs = Some (r, gs') /\ Entered KFieldOrStaticField o n gs r gs'.
Proof.
  intros Ho Hp. destruct (class_there _ _ Hp) as [c Hc]. unfold enterFieldSymbol. rewrite Hc. cbn [mbind option_bind].
  destruct (symbol_exists (memberOf c n)) eqn:E; [eexists _, _; split; [done|by apply entered_existing]|].
  destruct (newField_new o n (mkFieldFlags true false false false false) loc gs Ho Hp) as (r & gs' & -> & H).
  eexists _, _. split; [done|]. right. split; [by rewrite <- (proj1 (memberOf_member gs o c n Hc))|done].
Qed.

(** *** Updates that keep names, owners and aliases *)

Lemma aliasTarget_ext gs gs' kd j : resultType gs' kd j = resultType gs kd j -> aliasTarget gs' kd j = aliasTarget gs kd j.
Proof. unfold aliasTarget. by intros ->. Qed.

Ltac same_symbols x :=
  split; [done|done|intros []; cbn; try done; unfold vsize; by rewrite length_insert|
    intros [] j; cbn; try done; apply lookup_insert_view with x; [done|congruence]].

Ltac same_results x :=
  intros [] j _; apply aliasTarget_ext; cbn; try done; apply from_option_view, lookup_insert_view with x; done.

Lemma updateField_same id f gs gs' : updateField id f gs = Some gs' ->
  (forall x, fi_owner (f x) = fi_owner x /\ fi_name (f x) = fi_name x /\ fi_resultType (f x) = fi_resultType x) -> SameViews gs gs'.
Proof.
  intros E Hf. unfold updateField in E. apply bind_Some in E as (x & Hx & [= <-]). destruct (Hf x) as (H1 & H2 & H3).
  split; [done|same_symbols x|done|same_results x|done].
Qed.

Lemma updateTypeParameter_same id f gs gs' : updateTypeParameter id f gs = Some gs' ->
  (forall x, tp_owner (f x) = tp_owner x /\ tp_name (f x) = tp_name x /\ tp_resultType (f x) = tp_resultType x) -> SameViews gs gs'.
Proof.
  intros E Hf. unfold updateTypeParameter in E. apply bind_Some in E as (x & Hx & [= <-]). destruct (Hf x) as (H1 & H2 & H3).
  split; [done|same_symbols x|done|same_results x|done].
Qed.

(** A type that is not an alias replaces another. *)
Lemma updateTypeMember_same id f gs gs' : 0 <= id -> updateTypeMember id f gs = Some gs' ->
  (forall x, tp_owner (f x) = tp_owner x /\ tp_name (f x) = tp_name x) -> aliasTarget gs KTypeMember id = None ->
  (forall x, match tp_resultType (f x) with AliasType _ => False | _ => True end) -> SameViews gs gs'.
Proof.
  intros Hid E Hf Hn Ha. unfold updateTypeMember in E. apply bind_Some in E as (x & Hx & [= <-]). destruct (Hf x) as (H1 & H2).
  split; [done|same_symbols x|done| |done].
  intros [] j Hj; try done. destruct (decide (j = id)) as [->|Hne].
  - rewrite Hn. unfold aliasTarget, resultType, typeMemberData. cbn. rewrite list_lookup_insert_eq by (by eapply lookup_lt_Some). cbn.
    specialize (Ha x). by destruct (tp_resultType (f x)).
  - unfold aliasTarget, resultType, typeMemberData. cbn. by rewrite list_lookup_insert_ne by lia.
Qed.

Lemma updateMethod_views id f gs gs' : 0 <= id -> updateMethod id f gs = Some gs' ->
  (forall m, me_owner (f m) = me_owner m /\ me_name (f m) = me_name m /\ me_resultType (f m) = me_resultType m) ->
  exists m, methodData (g_symbols gs) id = Some m /\ nametable gs' = nametable gs /\ SameSymbols gs gs' /\
    (forall k n, member gs' k n = member gs k n) /\
    (forall kd j, 0 <= j -> aliasTarget gs' kd j = aliasTarget gs kd j) /\
    (forall kd j, 0 <= j -> ownTypes gs' kd j =
      if decide (kd = KMethod /\ j = id) then typeParameters (me_typeParams (f m)) else ownTypes gs kd j).
Proof.
  intros Hid E Hf. unfold updateMethod in E. apply bind_Some in E as (x & Hx & [= <-]). exists x. destruct (Hf x) as (H1 & H2 & H3).
  split_and!; [done|done|same_symbols x|done|same_results x|].
  intros [] j Hj; cbn; rewrite ?decide_False by (intros [? _]; done); try done. unfold methodData. cbn. case_decide as E.
  - destruct E as [_ ->]. by rewrite list_lookup_insert_eq by (by eapply lookup_lt_Some).
  - rewrite list_lookup_insert_ne; [done|]. intros H. apply E. split; [done|lia].
Qed.

Lemma updateMethod_same id f gs gs' : 0 <= id -> updateMethod id f gs = Some gs' ->
  (forall m, me_owner (f m) = me_owner m /\ me_name (f m) = me_name m /\ me_resultType (f m) = me_resultType m /\
     me_typeParams (f m) = me_typeParams m) -> SameViews gs gs'.
Proof.
  intros Hid E Hf. apply updateMethod_views in E as (m & Hm & H1 & H2 & H3 & H4 & H5); [|done|intros m; destruct (Hf m) as (?&?&?&?); done].
  split; [done|done|done|done|]. intros kd j Hj. rewrite H5 by done. case_decide as E; [|done]. destruct E as [-> ->]. cbn. rewrite Hm. cbn.
  by destruct (Hf m) as (?&?&?& ->).
Qed.

Lemma SameViews_trans gs1 gs2 gs3 : SameViews gs1 gs2 -> SameViews gs2 gs3 -> SameViews gs1 gs3.
Proof.
  intros [A1 [A2 A3 A4 A5] A6 A7 A8] [B1 [B2 B3 B4 B5] B6 B7 B8]. split; [congruence|split; intros; congruence|..]; intros.
  - by rewrite B6, A6.
  - by rewrite B7, A7.
  - by rewrite B8, A8.
Qed.

Lemma enterStaticFieldSymbol_entered loc o n gs r gs' : 0 <= o -> enterStaticFieldSymbol loc o n gs = Some (r, gs') ->
  Entered KFieldOrStaticField o n gs r gs'.
Proof.
  intros Ho E. unfold enterStaticFieldSymbol in E. apply bind_Some in E as (c & Hc & E).
  destruct (symbol_exists (memberOf c n)) eqn:Ee.
  - destruct (memberOf_member gs o c n Hc) as [_ H]. left. exists (memberOf c n). split; [by apply H|]. split; [done|].
    destruct (symbolTableFrozen gs); [injection E as <- <-; split; [done|apply SameViews_refl]|].
    apply bind_Some in E as (f & Hf & E). apply bind_Some in E as (locs & Hl & E). apply bind_Some in E as (gs1 & E1 & [= <- <-]).
    split; [done|]. by eapply updateField_same.
  - assert (Hp : is_Some (place gs KClassOrModule o)) by (cbn; by rewrite Hc).
    right. split; [by rewrite <- (proj1 (memberOf_member gs o c n Hc))|].
    destruct (newField_new o n (mkFieldFlags false true false false false) loc gs Ho Hp) as (r1 & gs1 & E1 & H). congruence.
Qed.

(** *** Type members, type parameters and classes *)

Lemma fresh_type h gs kd tk i : Consistent h gs -> typesKind kd = Some tk -> live gs kd i -> tableSize gs tk ∉ ownTypes gs kd i.
Proof.
  intros Hco Hk Hl [Ht (n & E)]%(co_types _ _ Hco kd tk i _ Hk Hl). apply place_lt in E; lia.
Qed.

Lemma enterTypeMember_views loc o n v gs r gs' : 0 < o < 2 ^ 29 -> tableSize gs KTypeMember ∉ ownTypes gs KClassOrModule o ->
  enterTypeMember loc o n v gs = Some (r, gs') -> Entered KTypeMember o n gs r gs'.
Proof.
  intros Ho Hfresh E. unfold enterTypeMember in E. apply bind_Some in E as (c & Hc & E).
  destruct (symbol_exists (memberOf c n)) eqn:Ee; [injection E as <- <-; by apply entered_existing|].
  apply bind_Some in E as (boundary & _ & E). destruct (_ && _) in E; [done|]. apply bind_Some in E as (gs1 & E1 & E).
  rewrite addLoc_nil in E. cbn [mbind option_bind] in E.
  right. split; [by rewrite <- (proj1 (memberOf_member gs o c n Hc))|].
  set (t := mkTypeParameter (classSymbol o) n _ _ _) in E. fold (appendTypeMember t gs1) in E.
  assert (Ho' : symbolIndex (classSymbol o) = o) by (apply makeSymbolRef_index; lia).
  pose proof (appendTypeMember_views t gs1 eq_refl) as [A1 A2 As A3 A4 A5 A6 A7]. cbn [tp_owner tp_name t] in A4. rewrite Ho' in A4.
  set (gs2 := appendTypeMember t gs1) in *. clearbody gs2.
  apply bind_Some in E as (gs3 & E3 & [= <- <-]).
  apply updateClass_views in E1 as (c1 & Hc1 & B1 & [B2 Bs B3 B4] & B5 & B6 & B7); [|lia|done].
  apply updateClass_views in E3 as (c3 & Hc3 & D1 & [D2 Ds D3 D4] & D5 & D6 & D7); [|lia|done].
  assert (Hown : typeParameters (cm_typeParams c3) = ownTypes gs KClassOrModule o).
  { transitivity (ownTypes gs2 KClassOrModule o); [cbn; by rewrite Hc3|]. rewrite A7, B7, decide_True by (lia || done). cbn. by rewrite Hc1. }
  assert (Hmem : forall m, cm_members c3 !! m = member gs2 o m) by (intros m; unfold member; by rewrite Hc3).
  split; [congruence|congruence|congruence| |done|..].
  - intros kd'. by rewrite D3, A3, !B3.
  - intros kd' j Hj. rewrite D4, A4, B3, B4 by done. done.
  - intros k m Hk. rewrite D6 by done. cbn. destruct (decide (k = o)) as [->|Hne].
    + rewrite Hmem, A5, B6, decide_True by (lia || done). cbn. destruct (decide (m = n)) as [->|Hne].
      * by rewrite lookup_insert_eq, decide_True by done.
      * rewrite lookup_insert_ne, decide_False by (congruence || by intros [_ [=]]). unfold member. by rewrite Hc1.
    + rewrite A5, B6, decide_False by done. by rewrite decide_False by (intros [_ [=]]; done).
  - intros kd' j Hj. apply aliasTarget_ext. by rewrite D5, A6, B5.
  - intros kd' j Hj. rewrite D7 by done. destruct (decide (kd' = KClassOrModule /\ j = o)) as [[-> ->]|Hne].
    + rewrite decide_True by done. cbn. rewrite Hown, bool_decide_eq_false_2; [done|exact Hfresh].
    + rewrite decide_False by (intros [H ->]; destruct kd'; cbn in H; (done || by apply Hne)).
      rewrite A7, B7, decide_False by done. done.
Qed.

Lemma enterTypeMember_entered h loc o n v gs r gs' : Consistent h gs -> live gs KClassOrModule o ->
  enterTypeMember loc o n v gs = Some (r, gs') -> Entered KTypeMember o n gs r gs'.
Proof.
  intros Hco Hl. pose proof Hl as (Ho & o' & n' & Hp & _). apply enterTypeMember_views; [|by eapply fresh_type].
  apply place_lt in Hp; [|lia]. pose proof (co_sizes _ _ Hco KClassOrModule). lia.
Qed.

(** A type parameter is found by its name, or added. *)
Definition EnteredParameter (m n : Z) (gs : GlobalState) (r : Z) (gs' : GlobalState) : Prop :=
  (r ∈ ownTypes gs KMethod m /\ place gs KTypeParameter r = Some (m, n) /\ SameViews gs gs') \/
  ((forall t, 0 < t -> place gs KTypeParameter t <> Some (m, n)) /\ NewSymbol KTypeParameter r m n gs gs').

Lemma findTypeParameter_spec gs n l found : findTypeParameter gs n l = Some found ->
  match found with
  | Some t => t ∈ l /\ exists tp, typeParameterData (g_symbols gs) t = Some tp /\ tp_name tp = n
  | None => forall t, t ∈ l -> exists tp, typeParameterData (g_symbols gs) t = Some tp /\ tp_name tp <> n
  end.
Proof.
  induction l as [|t l IH]; cbn; [intros [= <-]; by intros t ?%elem_of_nil|].
  intros (tp & Ht & E)%bind_Some. destruct (Z.eqb_spec (tp_name tp) n) as [Hn|Hn].
  - injection E as <-. split; [by left|]. by exists tp.
  - apply IH in E. destruct found as [t'|].
    + destruct E as [? ?]. split; [by right|done].
    + intros t' [->|Hin]%elem_of_cons; [by exists tp|by apply E].
Qed.

Lemma enterTypeParameter_entered h loc m n v gs r gs' : Consistent h gs -> live gs KMethod m ->
  enterTypeParameter loc m n v gs = Some (r, gs') -> EnteredParameter m n gs r gs'.
Proof.
  intros Hco Hl E. pose proof Hl as (Hm & o' & n' & Hp & _). unfold enterTypeParameter in E. apply bind_Some in E as (x & Hx & E).
  assert (Hown : typeParameters (me_typeParams x) = ownTypes gs KMethod m) by (cbn; by rewrite Hx).
  apply bind_Some in E as (found & Hf%findTypeParameter_spec & E). rewrite Hown in Hf. destruct found as [t|].
  - destruct Hf as (Hin & tp & Htp & Hn). pose proof Hin as [Ht (n1 & Hp1)]%(co_types _ _ Hco KMethod KTypeParameter m); [|done..].
    assert (Hplace : place gs KTypeParameter t = Some (m, n)) by (rewrite Hp1; cbn in Hp1; rewrite Htp in Hp1; cbn in Hp1; congruence).
    left. destruct (symbolTableFrozen gs); [injection E as <- <-; split_and!; [done|done|apply SameViews_refl]|].
    rewrite Htp in E. cbn [mbind option_bind] in E. apply bind_Some in E as (locs & _ & E). apply bind_Some in E as (gs1 & E1 & [= <- <-]).
    split_and!; [done|done|]. by eapply updateTypeParameter_same.
  - right. rewrite addLoc_nil in E. cbn [mbind option_bind] in E.
    set (t := mkTypeParameter (makeSymbolRef KMethod m) n _ _ _) in E. fold (appendTypeParameter t gs) in E.
    assert (Hm' : symbolIndex (makeSymbolRef KMethod m) = m).
    { apply makeSymbolRef_index. apply place_lt in Hp; [|lia]. pose proof (co_sizes _ _ Hco KMethod). lia. }
    pose proof (appendTypeParameter_views t gs eq_refl) as [A1 A2 As A3 A4 A5 A6 A7]. cbn [tp_owner tp_name t] in A4. rewrite Hm' in A4.
    set (gs2 := appendTypeParameter t gs) in *.
    apply bind_Some in E as (gs3 & E3 & [= <- <-]).
    apply updateMethod_views in E3 as (x3 & Hx3 & D1 & [D2 Ds D3 D4] & D5 & D6 & D7); [|lia|done].
    split.
    + intros t' Ht' E. assert (Hin : t' ∈ ownTypes gs KMethod m) by (apply (co_types _ _ Hco KMethod KTypeParameter m); [done..|]; split; [done|by exists n]).
      apply Hf in Hin as (tp & Htp & Hn). cbn in E. rewrite Htp in E. cbn in E. congruence.
    + split; [congruence|congruence|congruence| |done|..].
      * intros kd'. by rewrite D3, A3.
      * intros kd' j Hj. by rewrite D4, A4.
      * intros k y Hk. rewrite D5, A5 by done. by rewrite decide_False by (intros [? _]; done).
      * intros kd' j Hj. rewrite D6 by done. by apply aliasTarget_ext, A6.
      * intros kd' j Hj. rewrite D7 by done. destruct (decide (kd' = KMethod /\ j = m)) as [[-> ->]|Hne].
        -- rewrite decide_True by done. cbn. change (methodData (g_symbols gs) m = Some x3) in Hx3. by rewrite Hx3.
        -- rewrite decide_False by (intros [H ->]; destruct kd'; cbn in H; (done || by apply Hne)). by rewrite A7.
Qed.

Lemma enterClassOrModuleSymbol_entered en loc o n gs r gs' : 0 <= o -> enterClassOrModuleSymbol en loc o n gs = Some (r, gs') ->
  Entered KClassOrModule o n gs r gs'.
Proof.
  intros Ho E. unfold enterClassOrModuleSymbol in E. apply bind_Some in E as (c & Hc & E).
  destruct (symbol_exists (memberOf c n)) eqn:Ee; [injection E as <- <-; by apply entered_existing|].
  apply bind_Some in E as (gs1 & E1 & E). rewrite addLoc_nil in E. cbn [mbind option_bind] in E.
  right. split; [by rewrite <- (proj1 (memberOf_member gs o c n Hc))|].
  set (data := mkClassOrModule 0 0 o n _ _ _ _ _ _ _) in E. fold (appendClass data gs1) in E.
  apply bind_Some in E as ([registryOwner package] & _ & E). apply bind_Some in E as (gs2 & E2 & [= <- <-]).
  pose proof (new_listed KClassOrModule o n gs gs1 _ ltac:(done) ltac:(done) Ho E1 (appendClass_views data gs1 eq_refl eq_refl eq_refl)) as Hnew.
  eapply NewSymbol_same; [exact Hnew|]. clear Hnew.
  assert (Hsize : vsize (classAndModules (table gs)) = vsize (classAndModules (table gs1))).
  { apply updateClass_views in E1 as (_ & _ & _ & [_ _ B3 _] & _); [|done|done]. symmetry. apply (B3 KClassOrModule). }
  assert (Hdata : classData (g_symbols (appendClass data gs1)) (vsize (classAndModules (table gs))) = Some data).
  { unfold classData. cbn. rewrite lookup_snoc_view by (unfold vsize; lia). by rewrite decide_True. }
  apply updateClass_views in E2 as (c2 & Hc2 & D1 & D2 & D3 & D4 & D5); [|unfold vsize; lia|].
  2: { intros c2 H. rewrite Hdata in H. by injection H as <-. }
  rewrite Hdata in Hc2. injection Hc2 as <-. split; [done|done| |intros; by apply aliasTarget_ext, D3|].
  - intros k m Hk. rewrite D4 by done. case_decide; [|done]. subst. unfold member. by rewrite Hdata.
  - intros kd j Hj. rewrite D5 by done. case_decide as Ed; [|done]. destruct Ed as [-> ->]. unfold ownTypes. by rewrite Hdata.
Qed.

(** ** Consistency *)

Lemma consistent_same h gs gs' : Consistent h gs -> SameViews gs gs' -> Consistent h gs'.
Proof.
  intros Hco [H1 [H2 _ H3 H4] H5 H6 H7].
  assert (Hl : forall kd i, live gs' kd i <-> live gs kd i) by (intros; unfold live; setoid_rewrite H4; done).
  split; unfold named; rewrite ?H1, ?H2; try apply Hco.
  - intros kd. rewrite H3. apply Hco.
  - intros kd o n. rewrite H4. apply Hco.
  - intros kd. rewrite H6 by done. apply Hco.
  - intros kd i o n. rewrite H4. apply Hco.
  - intros kd i o n. rewrite !H4. apply Hco.
  - intros k n sym Hk. rewrite H5 by lia. setoid_rewrite H4. by apply Hco.
  - intros kd i k n Hi Hk. rewrite H4, H5 by lia. by apply Hco.
  - intros k sym Hk. rewrite H5 by lia. intros (s & ? & ? & ?)%(co_singleton _ _ Hco); [|done]. exists s. rewrite H5 by lia. done.
  - intros k sym Hk. rewrite H5 by lia. intros (s & ? & ? & ?)%(co_attached _ _ Hco); [|done]. exists s. rewrite H5 by lia. done.
  - intros kd i t Hi. rewrite H6 by done. setoid_rewrite H4. by apply Hco.
  - intros kd tk i t Hk Hli. pose proof (proj1 Hli). rewrite H7 by lia. setoid_rewrite H4. apply (co_types _ _ Hco kd tk); [done|by apply Hl].
  - intros kd tk i Hk Hli. pose proof (proj1 Hli). rewrite H7 by lia. setoid_rewrite H4. apply (co_typeNames _ _ Hco kd tk); [done|by apply Hl].
Qed.

Lemma ref_exists kd i : 0 < i < 2 ^ 29 -> symbol_exists (makeSymbolRef kd i) = true.
Proof. intros Hi. unfold symbol_exists. rewrite makeSymbolRef_index by lia. apply negb_true_iff, Z.eqb_neq. lia. Qed.

Lemma placed_bound h gs kd i p : Consistent h gs -> 0 <= i -> place gs kd i = Some p -> i < 2 ^ 29.
Proof. intros Hco Hi E%place_lt; [|done]. pose proof (co_sizes _ _ Hco kd). lia. Qed.

Lemma member_exists h gs k n sym : Consistent h gs -> 0 < k -> plain (wellKnown gs) n -> member gs k n = Some sym -> symbol_exists sym = true.
Proof.
  intros Hco Hk Hn (kd & i & -> & Hi & _ & E)%(co_member _ _ Hco); [|done..]. apply ref_exists.
  apply (placed_bound h) in E; [lia|done|lia].
Qed.

(** What the callers of the functions that enter a member see to *)
Record Enterable (gs : GlobalState) (kd : SymbolKind) (o n : Z) : Prop := mkEnterable {
  en_owner : live gs (ownerKind kd) o;
  en_named : named gs n;
  en_plain : kd <> KTypeParameter -> plain (wellKnown gs) n;
  en_room : tableSize gs kd + 1 < 2 ^ 29;
  en_root : kd = KClassOrModule -> root < tableSize gs kd }.

Lemma entered_new h kd o n gs r gs' : Consistent h gs -> Enterable gs kd o n -> kd <> KTypeParameter ->
  Entered kd o n gs r gs' -> member gs o n = None -> NewSymbol kd r o n gs gs'.
Proof. intros Hco He Hkd [(sym & E & _)|[_ H]] Hn; [by rewrite Hn in E|done]. Qed.

Lemma consistent_entered h kd o n gs r gs' : Consistent h gs -> Enterable gs kd o n -> kd <> KTypeParameter ->
  Entered kd o n gs r gs' -> Consistent h gs'.
Proof.
  intros Hco [(Ho & o' & n' & Hp & _) Hn Hpl Hr Hc] Hkd [(sym & _ & _ & _ & H)|[Hm Hnew]]; [by eapply consistent_same|].
  eapply (consistent_new h kd r o n gs); [done|done|done|by eexists|done| |done|intros Hk; rewrite (ns_index _ _ _ _ _ _ Hnew); by apply Hc|done].
  intros _. split; [by apply Hpl|]. destruct (member gs o n) as [sym|] eqn:E; [|done]. cbn in Hm.
  by rewrite (member_exists h gs o n sym Hco Ho (Hpl Hkd) E) in Hm.
Qed.

Lemma consistent_enteredParameter h m n gs r gs' : Consistent h gs -> Enterable gs KTypeParameter m n ->
  EnteredParameter m n gs r gs' -> Consistent h gs'.
Proof.
  intros Hco [(Ho & o' & n' & Hp & _) Hn Hpl Hr Hc] [(_ & _ & H)|[Hm Hnew]]; [by eapply consistent_same|].
  eapply (consistent_new h KTypeParameter r m n); try done; by eexists.
Qed.

(** ** Names *)

Lemma freshUnique_spec h gs unk original num : NameTable_wf h (nametable gs) -> capacities (nametable gs) <= 2 ^ 29 ->
  exists raw nt, freshNameUnique (nametable gs) unk original num = Some (raw, nt) /\
    interned h (nametable gs) (NUnique (mkUniqueName original num unk)) raw nt.
Proof. intros Hwf Hc. destruct (enter_spec h (nametable gs) (NUnique (mkUniqueName original num unk)) Hwf Hc) as (raw & nt & E & H). by exists raw, nt. Qed.

Lemma unique_kind h nt raw u : NameTable_wf h nt -> (raw, NUnique u) ∈ allNames nt -> nameKind raw = Some UNIQUE.
Proof. intros Hwf Hin. destruct (allNames_data h nt raw (NUnique u) Hwf Hin) as (_ & H). cbn in H. naive_solver. Qed.

(** A table that has all the names of another one *)
Definition grown (h : str -> Z) (nt nt' : NameTable) : Prop :=
  NameTable_wf h nt' /\ forall r d, (r, d) ∈ allNames nt -> (r, d) ∈ allNames nt'.

Lemma consistent_grown h gs nt : Consistent h gs -> grown h (nametable gs) nt -> Consistent h (set_names nt gs).
Proof.
  intros Hco (Hwf & Hmono). pose proof Hco as []. split; try assumption.
  intros kd i o n Hi H. destruct (SymbolViews.co_named _ _ Hco kd i o n Hi H) as [d' Hd]. exists d'. by apply Hmono.
Qed.

Lemma consistent_names h gs d raw nt : Consistent h gs -> interned h (nametable gs) d raw nt -> Consistent h (set_names nt gs).
Proof. intros Hco (Hwf & _ & _ & Hmono & _). by apply consistent_grown. Qed.

(** ** Dealiasing *)

Lemma symbolResultType_place gs kd i : 0 <= i < 2 ^ 29 -> is_Some (place gs kd i) ->
  symbolResultType (g_symbols gs) (makeSymbolRef kd i) = Some (resultType gs kd i).
Proof.
  intros Hi [p Hp]. unfold symbolResultType. rewrite makeSymbolRef_kind, makeSymbolRef_index by done.
  destruct kd; cbn in *; apply fmap_Some in Hp as (x & -> & _); done.
Qed.

Lemma dealiasWithDefault_exists h gs fuel kd i def : Consistent h gs -> 0 < i -> is_Some (place gs kd i) -> symbol_exists def = true ->
  exists s, dealiasWithDefault (g_symbols gs) fuel (makeSymbolRef kd i) def = Some s /\ symbol_exists s = true.
Proof.
  intros Hco. revert kd i. induction fuel as [|fuel IH]; intros kd i Hi Hp Hdef;
    pose proof Hp as [p Hb]; (apply (placed_bound h) in Hb; [|done|lia]);
    cbn; rewrite symbolResultType_place by (done || lia); cbn.
  - destruct (resultType gs kd i); eexists; (split; [done|]); try (apply ref_exists; lia); done.
  - destruct (resultType gs kd i) eqn:Er;
      try (eexists; split; [done|]; apply ref_exists; lia).
    destruct (co_alias _ _ Hco kd i symbol) as (kd' & i' & -> & Hi' & Hp'); [lia|unfold aliasTarget; by rewrite Er|]. by apply IH.
Qed.

Lemma dealias_exists h gs kd i : Consistent h gs -> 0 < i -> is_Some (place gs kd i) ->
  exists s, dealias (g_symbols gs) (makeSymbolRef kd i) = Some s /\ symbol_exists s = true.
Proof.
  intros Hco Hi Hp. pose proof Hp as [p Hb]; apply (placed_bound h) in Hb; [|done|lia]. unfold dealias. rewrite makeSymbolRef_kind by lia.
  destruct kd; apply (dealiasWithDefault_exists h); try done. apply ref_exists, (co_badAlias _ _ Hco).
Qed.

Lemma findMember_spec h gs k n : Consistent h gs -> 0 < k -> is_Some (place gs KClassOrModule k) -> plain (wellKnown gs) n ->
  exists s, findMember (g_symbols gs) k n = Some s /\ symbol_exists s = bool_decide (is_Some (member gs k n)).
Proof.
  intros Hco Hk Hp Hn. destruct (class_there _ _ Hp) as [c Hc]. unfold findMember, findMemberNoDealias. rewrite Hc. cbn.
  destruct (cm_members c !! n) as [sym|] eqn:E.
  - assert (Hm : member gs k n = Some sym) by (unfold member; by rewrite Hc). rewrite bool_decide_eq_true_2 by (by rewrite Hm). cbn.
    rewrite (member_exists h gs k n sym) by done.
    apply (co_member _ _ Hco) in Hm as (kd & i & -> & Hi & _ & Hp'); [|done..]. apply (dealias_exists h); [done..|by eexists].
  - assert (Hm : member gs k n = None) by (unfold member; by rewrite Hc). rewrite Hm. exists noSymbol. by rewrite bool_decide_eq_false_2 by (by intros [? ?]).
Qed.

(** ** The next mangled name *)

Definition mangled (origName num : Z) : NameData := NUnique (mkUniqueName origName num MangleRename).

(** The number is taken: its name is a member of the class. *)
Definition taken (gs : GlobalState) (owner origName num : Z) : Prop :=
  exists raw, (raw, mangled origName num) ∈ allNames (nametable gs) /\ is_Some (member gs owner raw).

Lemma taken_bound h gs owner origName (n : nat) (members : gmap Z Z) : Consistent h gs ->
  (forall raw, is_Some (member gs owner raw) -> is_Some (members !! raw)) ->
  (forall j, 1 <= j <= Z.of_nat n -> taken gs owner origName j) -> (n <= size members)%nat /\ (n <= length (allNames (nametable gs)))%nat.
Proof.
  intros Hco Hsub Hall. pose proof (co_names _ _ Hco) as Hwf.
  assert (H : exists l : list Z, length l = n /\ NoDup l /\
    forall raw, raw ∈ l -> is_Some (member gs owner raw) /\ exists j, 1 <= j <= Z.of_nat n /\ (raw, mangled origName j) ∈ allNames (nametable gs)).
  { induction n as [|n IH]; [exists []; split_and!; [done|constructor|by intros ? ?%elem_of_nil]|].
    destruct IH as (l & Hl & Hnd & Hj); [intros j Hj; apply Hall; lia|].
    destruct (Hall (Z.of_nat (S n))) as (raw & Hin & Hraw); [lia|]. exists (raw :: l). split_and!; [cbn; lia| |].
    - constructor; [|done]. intros (_ & j & Hj' & Hr)%Hj.
      assert (E : mangled origName j = mangled origName (Z.of_nat (S n))) by (eapply (allNames_functional (nametable gs) raw); eauto).
      injection E as E. lia.
    - intros r [->|(? & j & ? & ?)%Hj]%elem_of_cons; (split; [done|]); [exists (Z.of_nat (S n)); split; [lia|done]|exists j; split; [lia|done]]. }
  destruct H as (l & <- & Hnd & Hj). split.
  - rewrite <- size_dom, <- (size_list_to_set (C := gset Z) l Hnd). apply subseteq_size.
    intros raw [Hm _]%elem_of_list_to_set%Hj. by apply elem_of_dom, Hsub.
  - rewrite <- (length_fmap fst). apply submseteq_length, NoDup_submseteq; [done|].
    intros raw (_ & j & _ & Hin)%Hj. apply list_elem_of_fmap. by exists (raw, mangled origName j).
Qed.

Lemma allNames_capacity h nt : NameTable_wf h nt -> Z.of_nat (length (allNames nt)) <= capacities nt.
Proof.
  intros Hwf. pose proof (length_entries h nt) as He. unfold entries in He. rewrite length_fmap in He. rewrite He.
  pose proof (nt_utf8 _ _ Hwf). pose proof (nt_constant _ _ Hwf). pose proof (nt_unique _ _ Hwf). unfold capacities. lia.
Qed.

Lemma set_names_id gs : set_names (nametable gs) gs = gs.
Proof. by destruct gs as [[] ? ? ? ? ?]. Qed.

Lemma unique_plain h gs nt raw u : Consistent h gs -> NameTable_wf h nt -> (raw, NUnique u) ∈ allNames nt -> plain (wellKnown gs) raw.
Proof.
  intros Hco Hwf Hin%(unique_kind h); [|done]. destruct (co_linkNames _ _ Hco). split; congruence.
Qed.

Record NextMangled (h : str -> Z) (owner origName : Z) (gs : GlobalState) (name : Z) (nt : NameTable) (k : Z) : Prop := mkNextMangled {
  nm_number : 1 <= k < 2 ^ 32;
  nm_interned : interned h (nametable gs) (mangled origName k) name nt;
  nm_free : member gs owner name = None;
  nm_taken j : 1 <= j < k -> taken gs owner origName j;
  nm_fresh : freshNameUnique (nametable gs) MangleRename origName k = Some (name, nt) }.

Lemma nextMangled_loop_spec h gs owner origName fuel (n : nat) (members : gmap Z Z) : Consistent h gs -> capacities (nametable gs) <= 2 ^ 29 ->
  0 < owner -> is_Some (place gs KClassOrModule owner) ->
  (forall raw, is_Some (member gs owner raw) -> is_Some (members !! raw)) ->
  (forall j, 1 <= j <= Z.of_nat n -> taken gs owner origName j) -> (S (size members) <= n + fuel)%nat ->
  exists name nt k, nextMangled_loop fuel owner origName (Z.of_nat n + 1) gs = Some (name, set_names nt gs) /\
    NextMangled h owner origName gs name nt k.
Proof.
  intros Hco Hcap Ho Hp Hsub. revert n. induction fuel as [|fuel IH]; intros n Hall Hfuel;
    pose proof (taken_bound h gs owner origName n members Hco Hsub Hall) as [Hn Hn']; [lia|].
  pose proof (allNames_capacity _ _ (co_names _ _ Hco)).
  destruct (freshUnique_spec h gs MangleRename origName (Z.of_nat n + 1) (co_names _ _ Hco) Hcap) as (raw & nt & E & Hint).
  cbn [nextMangled_loop]. rewrite E. cbn [mbind option_bind]. pose proof Hint as (Hwf & _ & Hin & Hmono & _ & Hsame).
  assert (Hpl : plain (wellKnown gs) raw) by (by eapply unique_plain).
  destruct (findMember_spec h (set_names nt gs) owner raw (consistent_names _ _ _ _ _ Hco Hint) Ho Hp Hpl) as (s & -> & Hs).
  cbn [mbind option_bind]. rewrite Hs. clear Hs. change (member (set_names nt gs) owner raw) with (member gs owner raw). case_bool_decide as Hm.
  - destruct Hm as [sym Hm]. pose proof Hm as (kd & i & _ & Hi & _ & Hpi)%(co_member _ _ Hco); [|done..].
    apply (co_named _ _ Hco) in Hpi as [d Hd]; [|lia].
    assert (d = mangled origName (Z.of_nat n + 1)) as -> by (eapply (allNames_functional nt raw); eauto).
    rewrite Hsame, set_names_id by (by exists raw). rewrite u32_id by (unfold is_u32; lia).
    replace (Z.of_nat n + 1 + 1) with (Z.of_nat (S n) + 1) by lia. apply IH; [|lia].
    intros j Hj. destruct (decide (j = Z.of_nat n + 1)) as [->|]; [|apply Hall; lia]. exists raw. split; [done|by eexists].
  - exists raw, nt, (Z.of_nat n + 1). split; [done|]. split; [lia|done|by apply eq_None_not_Some| |done]. intros j Hj. apply Hall. lia.
Qed.

Lemma nextMangledName_spec h gs owner origName : Consistent h gs -> capacities (nametable gs) <= 2 ^ 29 ->
  0 < owner -> is_Some (place gs KClassOrModule owner) ->
  exists name nt k, nextMangledName owner origName gs = Some (name, set_names nt gs) /\ NextMangled h owner origName gs name nt k.
Proof.
  intros Hco Hcap Ho Hp. destruct (class_there _ _ Hp) as [c Hc]. unfold nextMangledName. rewrite Hc. cbn [mbind option_bind].
  apply (nextMangled_loop_spec h gs owner origName _ 0 (cm_members c)); [done..| |lia|lia].
  intros raw. unfold member. by rewrite Hc.
Qed.

(** ** Renaming *)

(** [gs'] has another name for a method. *)
Record Renamed (what o n n' : Z) (gs gs' : GlobalState) : Prop := mkRenamed {
  rn_wk : wellKnown gs' = wellKnown gs;
  rn_size kd : tableSize gs' kd = tableSize gs kd;
  rn_place kd j : 0 <= j -> place gs' kd j = if decide ((kd, j) = (KMethod, what)) then Some (o, n') else place gs kd j;
  rn_member k m : 0 <= k -> member gs' k m =
    if decide ((k, m) = (o, n')) then Some (makeSymbolRef KMethod what)
    else if decide ((k, m) = (o, n)) then None else member gs k m;
  rn_alias kd j : 0 <= j -> aliasTarget gs' kd j = aliasTarget gs kd j;
  rn_types kd j : 0 <= j -> ownTypes gs' kd j = ownTypes gs kd j }.

Lemma consistent_renamed h what o n n' gs gs' : Consistent h gs -> Renamed what o n n' gs gs' -> NameTable_wf h (nametable gs') ->
  (forall m, named gs m -> named gs' m) -> named gs' n' -> 0 < what -> 0 < o -> place gs KMethod what = Some (o, n) ->
  plain (wellKnown gs) n' -> member gs o n' = None -> Consistent h gs'.
Proof.
  intros Hco [R1 R2 R3 R4 R5 R6] Hwf Hmono Hn' Hw Ho Hp Hpl Hfree.
  destruct (co_listed _ _ Hco KMethod what o n) as [Hpln Hmem]; [done..|].
  assert (Hne : n' <> n) by (intros ->; by rewrite Hfree in Hmem).
  assert (Hold : forall kd j p, 0 <= j -> place gs' kd j = Some p -> (place gs kd j = Some p /\ (kd, j) <> (KMethod, what)) \/ (kd, j, p) = (KMethod, what, (o, n'))).
  { intros kd j p Hj. rewrite R3 by done. case_decide as E; [|by left]. intros [= <-]. injection E as -> ->. by right. }
  assert (Hsome : forall kd j, 0 <= j -> is_Some (place gs' kd j) <-> is_Some (place gs kd j)).
  { intros kd j Hj. rewrite R3 by done. case_decide as E; [injection E as -> ->; rewrite Hp; done|done]. }
  assert (Hlink : forall k m, 0 <= k -> ~ plain (wellKnown gs) m -> member gs' k m = member gs k m).
  { intros k m Hk Hm. rewrite R4 by done. rewrite !decide_False by (intros [= -> ->]; done). done. }
  assert (Hlive : forall kd j, live gs' kd j -> live gs kd j).
  { intros kd j (Hj & o1 & n1 & [[E _]|[= -> -> -> ->]]%Hold & Ho1); [|split; [lia|by exists o, n]|lia]. split; [done|by exists o1, n1]. }
  assert (Htp : forall tk kd t i m, typesKind kd = Some tk -> 0 < t -> place gs' tk t = Some (i, m) <-> place gs tk t = Some (i, m)).
  { intros tk kd t i m Hk Ht. rewrite R3 by lia. rewrite decide_False; [done|]. intros [= -> _]. by destruct kd. }
  split; rewrite ?R1; try apply Hco; try done.
  - intros kd. rewrite R2. apply Hco.
  - intros kd o1 n1 Hk [[E _]|[= _ ? _ _]]%Hold; [by eapply (co_stub _ _ Hco)|lia|done].
  - intros kd. rewrite R5 by done. apply Hco.
  - intros kd i o1 n1 Hi [[E _]|[= _ _ _ ->]]%Hold; [|done|done]. eapply Hmono, (co_named _ _ Hco); done.
  - intros kd i o1 n1 Hi [[E _]|[= -> -> -> ->]]%Hold; [|apply (co_owner _ _ Hco) in Hp as [? ?]; [|done]|lia].
    + apply (co_owner _ _ Hco) in E as [? ?]; [|done]. split; [done|]. by apply Hsome.
    + split; [done|]. by apply Hsome.
  - intros k m sym Hk Hm. rewrite R4 by lia. case_decide as E1.
    { injection E1 as -> ->. intros [= <-]. exists KMethod, what. split_and!; [done|done|done|]. rewrite R3, decide_True by (done || lia). done. }
    case_decide as E2; [done|]. intros (kd & i & -> & Hi & Hkd & E)%(co_member _ _ Hco); [|done..]. exists kd, i. split_and!; [done..|].
    rewrite R3 by lia. rewrite decide_False; [done|]. intros [= -> ->]. congruence.
  - intros kd i k m Hi Hk Hl [[E Hd]|[= -> -> -> ->]]%Hold; [| |lia].
    + pose proof (co_listed _ _ Hco kd i k m Hi Hk Hl E) as [? Hm]. split; [done|]. rewrite R4 by lia.
      rewrite !decide_False; [done| |]; intros [= -> ->]; [|congruence].
      apply Hd. rewrite Hmem in Hm. injection Hm as Hm. apply makeSymbolRef_inj in Hm as [-> ->]; [done| |].
      * apply (placed_bound h) in Hp; [lia|done|lia].
      * apply (placed_bound h) in E; [lia|done|lia].
    + split; [done|]. rewrite R4, decide_True by (done || lia). done.
  - intros k sym Hk. rewrite Hlink; [|lia|unfold plain; tauto]. intros (s & ? & -> & E)%(co_singleton _ _ Hco); [|done].
    exists s. rewrite Hlink; [done|lia|unfold plain; tauto].
  - intros k sym Hk. rewrite Hlink; [|lia|unfold plain; tauto]. intros (s & ? & -> & E)%(co_attached _ _ Hco); [|done].
    exists s. rewrite Hlink; [done|lia|unfold plain; tauto].
  - intros kd i t Hi. rewrite R5 by done. intros (kd' & i' & -> & ? & ?)%(co_alias _ _ Hco); [|done]. exists kd', i'. split_and!; [done..|].
    by apply Hsome; [lia|].
  - intros kd tk i t Hk Hl. pose proof (proj1 Hl). rewrite R6, (co_types _ _ Hco kd tk) by (lia || by auto).
    split; intros (Ht & m & E); (split; [done|]); exists m; by eapply Htp.
  - intros kd tk i Hk Hl. pose proof (proj1 Hl). rewrite R6 by lia. destruct (co_typeNames _ _ Hco kd tk i Hk (Hlive _ _ Hl)) as [? Hinj].
    split; [done|]. intros t t' m Ht Ht' E E'. apply (Hinj t t' m Ht Ht'); by eapply Htp.
Qed.

Lemma updateMethod_total id f gs : is_Some (place gs KMethod id) -> is_Some (updateMethod id f gs).
Proof. intros [p Hp]. unfold updateMethod. cbn in Hp. apply fmap_Some in Hp as (c & -> & _). by eexists. Qed.

Lemma mangleRename_renamed h gs what o n : Consistent h gs -> capacities (nametable gs) <= 2 ^ 29 -> 0 < what -> 0 < o ->
  place gs KMethod what = Some (o, n) ->
  exists gs' name nt k, mangleRenameMethod what n gs = Some gs' /\ nametable gs' = nt /\ Renamed what o n name gs gs' /\
    settings gs' = settings gs /\ NextMangled h o n gs name nt k.
Proof.
  intros Hco Hcap Hw Ho Hp. destruct (co_listed _ _ Hco KMethod what o n) as [Hpln Hmem]; [done..|].
  pose proof Hp as [_ Hown]%(co_owner _ _ Hco); [|done]. cbn [ownerKind] in Hown. destruct (class_there _ _ Hown) as [c Hc].
  unfold mangleRenameMethod. pose proof Hp as Hp'. cbn in Hp'. apply fmap_Some in Hp' as (m & Hm & [= -> ->]). rewrite Hm. cbn [mbind option_bind].
  rewrite Hc. cbn [mbind option_bind]. assert (Hcm : cm_members c !! me_name m = Some (makeSymbolRef KMethod what)).
  { unfold member in Hmem. by rewrite Hc in Hmem. }
  rewrite Hcm. cbn [mbind option_bind]. destruct (nextMangledName_spec h gs (me_owner m) (me_name m) Hco Hcap Ho Hown) as (name & nt & k & -> & Hnm).
  cbn [mbind option_bind]. set (gs0 := set_names nt gs). destruct (updateClass_total (me_owner m) (fun c =>
    setMember name (makeSymbolRef KMethod what) (eraseMember (me_name m) c)) gs0 Hown) as [gs1 E1].
  rewrite E1. cbn [mbind option_bind]. apply updateClass_views in E1 as (c1 & Hc1 & B1 & [B2 Bs B3 B4] & B5 & B6 & B7); [|lia|done].
  destruct (updateMethod_total what (set_methodName name) gs1) as [gs2 E2]; [by rewrite B4; eexists|]. rewrite E2.
  unfold updateMethod in E2. apply bind_Some in E2 as (m2 & Hm2 & [= <-]).
  change (classData (g_symbols gs) (me_owner m) = Some c1) in Hc1. rewrite Hc in Hc1. injection Hc1 as <-.
  assert (Hsame : me_owner m2 = me_owner m).
  { pose proof (B4 KMethod what) as H. change (place gs0 KMethod what) with (place gs KMethod what) in H. rewrite Hp in H. cbn in H. rewrite Hm2 in H. by injection H. }
  eexists _, name, nt, k. split; [done|]. split; [exact B1|]. split; [|split; [exact Bs|done]]. split.
  - exact B2.
  - intros kd. transitivity (tableSize gs1 kd); [|exact (B3 kd)]. destruct kd; cbn; try done. unfold vsize. by rewrite length_insert.
  - intros kd j Hj. change (place gs kd j) with (place gs0 kd j). rewrite <- B4. destruct kd; rewrite ?decide_False by (intros [=]); try done.
    cbn. unfold methodData. cbn. case_decide as E.
    + injection E as ->. rewrite list_lookup_insert_eq by (by eapply lookup_lt_Some). cbn. by rewrite Hsame.
    + rewrite list_lookup_insert_ne by (intros ?; apply E; f_equal; lia). done.
  - intros k' m' Hk. change (member gs1 k' m' = if decide ((k', m') = (me_owner m, name)) then Some (makeSymbolRef KMethod what)
      else if decide ((k', m') = (me_owner m, me_name m)) then None else member gs k' m').
    rewrite B6 by done. destruct (decide (k' = me_owner m)) as [->|Hne].
    + cbn. destruct (decide (m' = name)) as [->|Hn1]; [by rewrite lookup_insert_eq, decide_True by done|].
      rewrite lookup_insert_ne, (decide_False (P := (_, m') = (_, name))) by congruence.
      destruct (decide (m' = me_name m)) as [->|Hn2]; [by rewrite lookup_delete_eq, decide_True by done|].
      rewrite lookup_delete_ne, decide_False by congruence. unfold member. by rewrite Hc.
    + by rewrite !decide_False by congruence.
  - intros kd j Hj. apply aliasTarget_ext. change (resultType gs kd j) with (resultType gs0 kd j). rewrite <- B5. destruct kd; try done.
    cbn. apply from_option_view, lookup_insert_view with m2; done.
  - intros kd j Hj. transitivity (ownTypes gs1 kd j).
    + destruct kd; try done. cbn. apply from_option_view, lookup_insert_view with m2; done.
    + rewrite B7 by done. case_decide as E; [|done]. destruct E as [-> ->]. cbn. by rewrite Hc.
Qed.

(** ** Singleton classes *)

(** [gs'] links a class and its singleton class. *)
Record Linked (k s : Z) (gs gs' : GlobalState) : Prop := mkLinked {
  ln_names : nametable gs' = nametable gs;
  ln_symbols : SameSymbols gs gs';
  ln_member k' m : 0 <= k' -> member gs' k' m =
    if decide ((k', m) = (k, n_singleton (wellKnown gs))) then Some (classSymbol s)
    else if decide ((k', m) = (s, n_attached (wellKnown gs))) then Some (classSymbol k) else member gs k' m;
  ln_alias kd j : 0 <= j -> aliasTarget gs' kd j = aliasTarget gs kd j;
  ln_types kd j : 0 <= j -> ownTypes gs' kd j = ownTypes gs kd j }.

Lemma consistent_linked h k s gs gs' : Consistent h gs -> Linked k s gs gs' -> 0 < k -> 0 < s ->
  member gs k (n_singleton (wellKnown gs)) = None -> member gs s (n_attached (wellKnown gs)) = None -> Consistent h gs'.
Proof.
  intros Hco [R0 [R1 _ R2 R3] R4 R5 R6] Hk Hs Hk0 Hs0. pose proof (co_links _ _ Hco) as Hl.
  assert (Hlive : forall kd j, live gs' kd j <-> live gs kd j) by (intros; unfold live; setoid_rewrite R3; done).
  assert (Hplain : forall k' m, 0 <= k' -> plain (wellKnown gs) m -> member gs' k' m = member gs k' m).
  { intros k' m Hk' [? ?]. rewrite R4 by done. rewrite !decide_False by congruence. done. }
  split; unfold named; rewrite ?R0, ?R1; try apply Hco.
  - intros kd. rewrite R2. apply Hco.
  - intros kd o n. rewrite R3. apply Hco.
  - intros kd. rewrite R5 by done. apply Hco.
  - intros kd i o n. rewrite R3. apply Hco.
  - intros kd i o n. rewrite !R3. apply Hco.
  - intros k' n sym Hk' Hn. rewrite Hplain by (done || lia). setoid_rewrite R3. by apply Hco.
  - intros kd i k' n Hi Hk' Hli. rewrite R3. intros E. destruct (co_listed _ _ Hco kd i k' n) as [? ?]; [done..|].
    split; [done|]. rewrite Hplain by (done || lia). done.
  - intros k' sym Hk'. rewrite R4 by lia. case_decide as E.
    + injection E as ->. intros [= <-]. exists s. split_and!; [done|done|]. rewrite R4, decide_False, decide_True by (congruence || lia). done.
    + rewrite decide_False by congruence. intros (s' & Hs' & -> & E')%(co_singleton _ _ Hco); [|done]. exists s'. split_and!; [done|done|].
      rewrite R4, !decide_False by (congruence || lia). done.
  - intros s' sym Hs'. rewrite R4 by lia. rewrite decide_False by congruence. case_decide as E.
    + injection E as ->. intros [= <-]. exists k. split_and!; [done|done|]. rewrite R4, decide_True by (congruence || lia). done.
    + intros (k' & Hk' & -> & E')%(co_attached _ _ Hco); [|done]. exists k'. split_and!; [done|done|].
      rewrite R4, !decide_False by (congruence || lia). done.
  - intros kd i t Hi. rewrite R5 by done. setoid_rewrite R3. by apply Hco.
  - intros kd tk i t Hk' Hli. pose proof (proj1 Hli). rewrite R6 by lia. setoid_rewrite R3. apply (co_types _ _ Hco kd tk); [done|by apply Hlive].
  - intros kd tk i Hk' Hli. pose proof (proj1 Hli). rewrite R6 by lia. setoid_rewrite R3. apply (co_typeNames _ _ Hco kd tk); [done|by apply Hlive].
Qed.

(** The name of the singleton class is not taken by another symbol of the owner. *)
Definition singletonFree (gs : GlobalState) (o n : Z) : Prop :=
  forall nm, (nm, NUnique (mkUniqueName n 1 NameTable.Singleton)) ∈ allNames (nametable gs) -> member gs o nm = None.

(** [gs'] has another member of a class. *)
Record MemberSet (id m v : Z) (gs gs' : GlobalState) : Prop := mkMemberSet {
  ms_names : nametable gs' = nametable gs;
  ms_symbols : SameSymbols gs gs';
  ms_member k m' : 0 <= k -> member gs' k m' = if decide ((k, m') = (id, m)) then Some v else member gs k m';
  ms_alias kd j : 0 <= j -> aliasTarget gs' kd j = aliasTarget gs kd j;
  ms_types kd j : 0 <= j -> ownTypes gs' kd j = ownTypes gs kd j }.

Lemma updateClass_member id m v f gs gs' : 0 <= id -> updateClass id f gs = Some gs' ->
  (forall c, cm_owner (f c) = cm_owner c /\ cm_name (f c) = cm_name c /\ cm_resultType (f c) = cm_resultType c /\
     cm_members (f c) = <[m := v]> (cm_members c) /\ cm_typeParams (f c) = cm_typeParams c) -> MemberSet id m v gs gs'.
Proof.
  intros Hid E Hf. apply updateClass_views in E as (c & Hc & B1 & B2 & B5 & B6 & B7); [|done|intros c _; by destruct (Hf c) as (?&?&?&?&?)].
  destruct (Hf c) as (_ & _ & _ & Hm & Ht). split; [done|done| |intros; by apply aliasTarget_ext, B5|].
  - intros k m' Hk. rewrite B6 by done. destruct (decide (k = id)) as [->|Hne]; [|by rewrite decide_False by congruence].
    rewrite Hm. destruct (decide (m' = m)) as [->|Hne]; [by rewrite lookup_insert_eq, decide_True by done|].
    rewrite lookup_insert_ne, decide_False by congruence. unfold member. by rewrite Hc.
  - intros kd j Hj. rewrite B7 by done. case_decide as E; [|done]. destruct E as [-> ->]. rewrite Ht. unfold ownTypes. by rewrite Hc.
Qed.

Lemma linked_members k s gs gs1 gs2 : MemberSet s (n_attached (wellKnown gs)) (classSymbol k) gs gs1 ->
  MemberSet k (n_singleton (wellKnown gs)) (classSymbol s) gs1 gs2 -> Linked k s gs gs2.
Proof.
  intros [A1 [A2 As A3 A4] A5 A6 A7] [B1 [B2 Bs B3 B4] B5 B6 B7]. split; [congruence|split; intros; congruence|..]; intros.
  - by rewrite B5, A5.
  - by rewrite B6, A6.
  - by rewrite B7, A7.
Qed.

(** The type member may be entered before or after the link is set. *)
Lemma new_before_link kd i s n k m v gs gs1 gs2 gsL : kd <> KTypeParameter -> n <> m ->
  NewSymbol kd i s n gs gs1 -> MemberSet k m v gs1 gs2 -> MemberSet k m v gs gsL -> NewSymbol kd i s n gsL gs2.
Proof.
  intros Hkd Hnm [N1 N2 N3 N4 N5 N6 N7 N8 N9] [A1 [A2 As A3 A4] A5 A6 A7] [B1 [B2 Bs B3 B4] B5 B6 B7].
  split; [congruence|congruence|congruence|intros; by rewrite A3, N4, !B3|by rewrite B3|..]; intros.
  - by rewrite A4, N6, B4.
  - rewrite A5, N7, B5 by done. destruct (decide ((k0, m0) = (k, m))) as [E|E]; [|done].
    rewrite decide_False; [done|]. intros [_ E']. congruence.
  - by rewrite A6, N8, B6.
  - by rewrite A7, N9, B7.
Qed.

Lemma lookupSingletonClass_none gs k : k <> untypedClass -> is_Some (place gs KClassOrModule k) ->
  member gs k (n_singleton (wellKnown gs)) = None -> lookupSingletonClass (g_symbols gs) k = Some 0.
Proof.
  intros Hk Hp Hm. destruct (class_there _ _ Hp) as [c Hc]. unfold lookupSingletonClass. rewrite (proj2 (Z.eqb_neq _ _) Hk).
  unfold findMember, findMemberNoDealias. rewrite Hc. cbn. unfold member, wellKnown in Hm. rewrite Hc in Hm. cbn in Hm. by rewrite Hm.
Qed.

(** A new singleton class is linked to its class and has the type member of attached classes. *)
Lemma singletonClass_new h en k o n gs s gs' : Consistent h gs -> 0 < k -> 0 < o -> place gs KClassOrModule k = Some (o, n) ->
  k <> untypedClass -> member gs k (n_singleton (wellKnown gs)) = None -> singletonFree gs o n ->
  capacities (nametable gs) <= 2 ^ 29 -> root < tableSize gs KClassOrModule -> tableSize gs KClassOrModule + 1 < 2 ^ 29 ->
  tableSize gs KTypeMember + 1 < 2 ^ 29 -> named gs (n_AttachedClass en) -> plain (wellKnown gs) (n_AttachedClass en) ->
  singletonClass en k gs = Some (s, gs') ->
  Consistent h gs' /\ s = tableSize gs KClassOrModule /\ wellKnown gs' = wellKnown gs /\
  member gs' k (n_singleton (wellKnown gs)) = Some (classSymbol s) /\ member gs' s (n_attached (wellKnown gs)) = Some (classSymbol k).
Proof.
  intros Hco Hk Ho Hp Hku Hnone Hfree Hcap Hroot Hroom1 Hroom2 Hac Hacp E. unfold singletonClass in E.
  rewrite lookupSingletonClass_none in E by (done || by eexists). cbn [mbind option_bind Z.eqb negb] in E.
  pose proof Hp as (c & Hc & [= <- <-])%data_placed. rewrite Hc in E. cbn [mbind option_bind] in E.
  destruct (freshUnique_spec h gs NameTable.Singleton (cm_name c) 1 (co_names _ _ Hco) Hcap) as (nm & nt & En & Hint). rewrite En in E. cbn [mbind option_bind] in E.
  apply bind_Some in E as ([s1 gs1] & E1 & E). set (gs0 := set_names nt gs) in *.
  pose proof (consistent_names _ _ _ _ _ Hco Hint) as Hco0. fold gs0 in Hco0. pose proof Hint as (Hwf & _ & Hin & Hmono & _).
  apply enterClassOrModuleSymbol_entered in E1; [|lia].
  assert (Hnm : plain (wellKnown gs) nm) by (by eapply unique_plain).
  assert (Hmem : member gs0 (cm_owner c) nm = None).
  { change (member gs (cm_owner c) nm = None). destruct (member gs (cm_owner c) nm) as [sym|] eqn:Em; [|done].
    pose proof Em as (kd & i & _ & Hi & _ & Hpi)%(co_member _ _ Hco); [|done..]. apply (co_named _ _ Hco) in Hpi as [d Hd]; [|lia].
    rewrite <- Em. apply Hfree. assert (d = NUnique (mkUniqueName (cm_name c) 1 NameTable.Singleton)) as -> by (eapply (allNames_functional nt nm); eauto). done. }
  destruct E1 as [(sym & Em & _)|[_ Hnew1]]; [by rewrite Hmem in Em|].
  pose proof (ns_index _ _ _ _ _ _ Hnew1) as Hs1. change (s1 = tableSize gs KClassOrModule) in Hs1.
  assert (Hco1 : Consistent h gs1).
  { eapply (consistent_new h KClassOrModule s1 (cm_owner c) nm gs0); [done|done|done| |done|done| |intros _; lia|done].
    - by apply (co_owner _ _ Hco) in Hp as [_ ?].
    - by eexists. }
  pose proof (ns_wk _ _ _ _ _ _ Hnew1) as Hwk1. change (wellKnown gs1 = wellKnown gs) in Hwk1.
  assert (Hs1' : 0 < s1 < 2 ^ 29) by (pose proof (co_sizes _ _ Hco KClassOrModule); lia).
  assert (Hs1m : forall m, member gs1 s1 m = None).
  { intros m. rewrite (ns_member _ _ _ _ _ _ Hnew1) by lia. rewrite decide_False.
    - apply member_unplaced. change (place gs KClassOrModule s1 = None). destruct (place gs KClassOrModule s1) eqn:Ep; [|done]. apply place_lt in Ep; lia.
    - intros [_ [= Eo _]]. apply (co_owner _ _ Hco) in Hp as [_ [p Hpo]]; [|done]. cbn [ownerKind] in Hpo. apply place_lt in Hpo; lia. }
  apply bind_Some in E as (gs2 & E2 & E). apply updateClass_member with (m := n_attached (wellKnown gs)) (v := classSymbol k) in E2; [|lia|].
  2: { intros c'. rewrite Hwk1. done. }
  apply bind_Some in E as (c' & _ & E). apply bind_Some in E as ([tp gs3] & E3 & E).
  pose proof (ms_symbols _ _ _ _ _ E2) as [D1 _ D2 D3].
  apply enterTypeMember_views in E3; [|lia|].
  2: { rewrite (ms_types _ _ _ _ _ E2), (ns_types _ _ _ _ _ _ Hnew1), decide_False by (lia || by intros [? _]).
       rewrite (ownTypes_unplaced gs0 KClassOrModule s1); [by intros ?%elem_of_nil|].
       change (place gs KClassOrModule s1 = None). destruct (place gs KClassOrModule s1) eqn:Ep; [|done]. apply place_lt in Ep; lia. }
  assert (Hac2 : member gs2 s1 (n_AttachedClass en) = None).
  { rewrite (ms_member _ _ _ _ _ E2) by lia. rewrite decide_False, Hs1m; [done|]. intros [= H]. by destruct Hacp. }
  destruct E3 as [(sym & Em & _)|[_ Hnew3]]; [by rewrite Hac2 in Em|].
  apply bind_Some in E as (gs4 & E4 & E). pose proof (ns_index _ _ _ _ _ _ Hnew3) as Htp.
  assert (Htp' : tp = tableSize gs KTypeMember) by (rewrite Htp, D2, (ns_size _ _ _ _ _ _ Hnew1); done).
  assert (0 <= tp) by (pose proof (co_sizes _ _ Hco KTypeMember); lia).
  apply updateTypeMember_same in E4; [|done|done| |done].
  2: { rewrite (ns_alias _ _ _ _ _ _ Hnew3), (ms_alias _ _ _ _ _ E2), (ns_alias _ _ _ _ _ _ Hnew1) by done. unfold aliasTarget.
       rewrite resultType_unplaced; [done|]. destruct (place gs0 KTypeMember tp) eqn:Ep; [|done]. apply place_lt in Ep; [|done].
       change (tp < tableSize gs KTypeMember) in Ep. lia. }
  apply bind_Some in E as (gs5 & E5 & [= <- <-]). pose proof (NewSymbol_same _ _ _ _ _ _ _ Hnew3 E4) as Hnew4.
  assert (Hwk4 : wellKnown gs4 = wellKnown gs) by (rewrite (ns_wk _ _ _ _ _ _ Hnew4), D1; done).
  apply updateClass_member with (m := n_singleton (wellKnown gs)) (v := classSymbol s1) in E5; [|lia|intros ?; rewrite Hwk4; done].
  destruct (updateClass_total k (setMember (n_singleton (wellKnown gs)) (classSymbol s1)) gs2) as [gsL EL].
  { rewrite D3. exists (cm_owner c, cm_name c). apply (new_place_old h KClassOrModule s1 (cm_owner c) nm gs0 gs1 Hco0 Hnew1); [done|lia|exact Hp]. }
  apply updateClass_member with (m := n_singleton (wellKnown gs)) (v := classSymbol s1) in EL; [|lia|done].
  assert (HcoL : Consistent h gsL).
  { eapply (consistent_linked h k s1 gs1); [done| |lia|lia| |by rewrite Hs1m].
    - apply linked_members with gs2; by rewrite Hwk1.
    - rewrite Hwk1. rewrite (ns_member _ _ _ _ _ _ Hnew1) by lia. rewrite decide_False; [exact Hnone|]. intros [_ [= _ <-]]. by destruct Hnm. }
  pose proof (new_before_link KTypeMember tp s1 (n_AttachedClass en) k _ _ _ _ _ _ ltac:(done) (proj1 Hacp) Hnew4 E5 EL) as Hnew5.
  assert (HwkL : wellKnown gsL = wellKnown gs) by (rewrite (sa_wk _ _ (ms_symbols _ _ _ _ _ EL)), D1; done).
  pose proof (ms_symbols _ _ _ _ _ EL) as [_ _ L2 L3].
  assert (Hneq : forall m, (s1, m) <> (k, n_singleton (wellKnown gs))).
  { intros m [= Hks _]. apply place_lt in Hp; lia. }
  split_and!.
  - eapply (consistent_new h KTypeMember tp s1 (n_AttachedClass en) gsL); [done|done|lia| | | | |done|done].
    + cbn [ownerKind]. rewrite L3, D3. exists (cm_owner c, nm). by apply (new_place_new h KClassOrModule s1 (cm_owner c) nm gs0 gs1 Hco0 Hnew1).
    + rewrite L2, D2, (ns_size _ _ _ _ _ _ Hnew1). done.
    + intros _. rewrite HwkL. split; [done|]. rewrite (ms_member _ _ _ _ _ EL) by lia. rewrite decide_False by apply Hneq. done.
    + destruct Hac as [d Hd]. exists d. rewrite (ms_names _ _ _ _ _ EL), (ms_names _ _ _ _ _ E2), (ns_names _ _ _ _ _ _ Hnew1). by apply Hmono.
  - done.
  - rewrite (sa_wk _ _ (ms_symbols _ _ _ _ _ E5)). done.
  - rewrite (ms_member _ _ _ _ _ E5), decide_True by (done || lia). done.
  - rewrite (ms_member _ _ _ _ _ E5) by lia. rewrite decide_False by apply Hneq. rewrite (ns_member _ _ _ _ _ _ Hnew4) by lia.
    rewrite decide_False by (intros [_ [= H1]]; by destruct Hacp). rewrite (ms_member _ _ _ _ _ E2), decide_True by (done || lia). done.
Qed.

(** ** Deleting *)

(** [gs'] has stubs in place of some symbols, which their owner no longer lists. *)
Record Deleted (kd : SymbolKind) (what o n : Z) (gs gs' : GlobalState) : Prop := mkDeleted {
  de_names : nametable gs' = nametable gs;
  de_wk : wellKnown gs' = wellKnown gs;
  de_size kd' : tableSize gs' kd' = tableSize gs kd';
  de_place kd' j : 0 <= j -> place gs' kd' j =
    if decide ((kd', j) = (kd, what) \/ (kd = KMethod /\ kd' = KTypeParameter /\ j ∈ ownTypes gs KMethod what))
    then place gs kd' 0 else place gs kd' j;
  de_member k m : 0 <= k -> member gs' k m = if decide ((k, m) = (o, n)) then None else member gs k m;
  de_alias kd' j : 0 <= j -> aliasTarget gs' kd' j = aliasTarget gs kd' j \/ aliasTarget gs' kd' j = None;
  de_types kd' j t : 0 <= j -> live gs' kd' j -> t ∈ ownTypes gs' kd' j <->
    t ∈ ownTypes gs kd' j /\ ~ (kd = KTypeMember /\ (kd', j, t) = (KClassOrModule, o, what));
  de_typesNoDup kd' j : 0 <= j -> live gs' kd' j -> NoDup (ownTypes gs kd' j) -> NoDup (ownTypes gs' kd' j) }.

Lemma consistent_deleted h kd what o n gs gs' : Consistent h gs -> Deleted kd what o n gs gs' ->
  kd <> KTypeParameter -> kd <> KClassOrModule -> 0 < what -> 0 < o -> place gs kd what = Some (o, n) -> Consistent h gs'.
Proof.
  intros Hco [R0 R1 R2 R3 R4 R5 R6 R7] Hk1 Hk2 Hw Ho Hp.
  destruct (co_listed _ _ Hco kd what o n) as [Hpln Hmem]; [done|done|by split|done|].
  set (gone kd' j := (kd', j) = (kd, what) \/ (kd = KMethod /\ kd' = KTypeParameter /\ j ∈ ownTypes gs KMethod what)) in R3.
  assert (Hpl : forall kd' j, 0 <= j -> (gone kd' j /\ place gs' kd' j = place gs kd' 0) \/ (~ gone kd' j /\ place gs' kd' j = place gs kd' j)).
  { intros kd' j Hj. rewrite R3 by done. destruct (decide _); [by left|by right]. }
  clear R3.
  assert (Hgone : forall kd' j, gone kd' j -> 0 < j /\ kd' <> KClassOrModule /\ is_Some (place gs kd' j)).
  { intros kd' j [[= -> ->]|(-> & -> & H)]; [split_and!; [done|done|by eexists]|].
    apply (co_types _ _ Hco KMethod KTypeParameter what) in H as (? & m & ?); [|done|split; [done|by exists o, n]]. split_and!; [done|done|by eexists]. }
  assert (Hsome : forall kd' j, 0 <= j -> is_Some (place gs' kd' j) <-> is_Some (place gs kd' j)).
  { intros kd' j Hj. destruct (Hpl kd' j Hj) as [[E ->]|[_ ->]]; [|done]. apply Hgone in E as (_ & _ & E). split; [done|]. intros _.
    apply place_size; [done|]. pose proof (co_sizes _ _ Hco kd'). lia. }
  assert (Hkept : forall kd' j o' n', 0 < o' -> 0 <= j -> place gs' kd' j = Some (o', n') -> place gs kd' j = Some (o', n') /\ ~ gone kd' j).
  { intros kd' j o' n' Ho' Hj. destruct (Hpl kd' j Hj) as [[E ->]|[? ->]]; [|done]. intros H.
    apply (co_stub _ _ Hco) in H; [lia|]. by apply Hgone in E as (_ & ? & _). }
  assert (Hlink : forall k m, 0 <= k -> ~ plain (wellKnown gs) m -> member gs' k m = member gs k m).
  { intros k m Hk Hm. rewrite R4 by done. rewrite decide_False by (intros [= -> ->]; done). done. }
  assert (Hlive : forall kd' j, live gs' kd' j -> live gs kd' j /\ ~ gone kd' j).
  { intros kd' j (Hj & o1 & n1 & E & Ho1). destruct (Hkept kd' j o1 n1) as [? ?]; [done|lia|done|]. split; [|done]. split; [done|by exists o1, n1]. }
  split; unfold named; rewrite ?R0, ?R1; try apply Hco; try done.
  - intros kd'. rewrite R2. apply Hco.
  - intros kd' o1 n1 Hk. destruct (Hpl kd' 0) as [[E ->]|[_ ->]]; [done|by apply Hgone in E as [? _]; lia|]. by apply Hco.
  - intros kd'. destruct (R5 kd' 0) as [E|E]; [done| |done]. rewrite E. apply Hco.
  - intros kd' i o1 n1 Hi. destruct (Hpl kd' i Hi) as [[_ ->]|[_ ->]]; intros H; by eapply (co_named _ _ Hco) in H.
  - intros kd' i o1 n1 Hi. destruct (Hpl kd' i) as [[E ->]|[_ ->]]; [lia|intros H..].
    + apply Hgone in E as (_ & E & _). apply (co_stub _ _ Hco) in H as ->; [|done]. split; [done|]. apply Hsome; [done|].
      apply place_size; [done|]. pose proof (co_sizes _ _ Hco (ownerKind kd')). lia.
    + apply (co_owner _ _ Hco) in H as [? ?]; [|done]. split; [done|]. by apply Hsome.
  - intros k m sym Hk Hm. rewrite R4 by lia. case_decide as E1; [done|].
    intros (kd' & i & -> & Hi & Hkd & E)%(co_member _ _ Hco); [|done..]. exists kd', i. split_and!; [done..|].
    destruct (Hpl kd' i) as [[[[= -> ->]|(-> & -> & _)] _]|[_ ->]]; [lia|congruence|done|done].
  - intros kd' i k m Hi Hk Hl E. destruct (Hkept kd' i k m) as [E' Hd]; [done|lia|done|].
    pose proof (co_listed _ _ Hco kd' i k m Hi Hk Hl E') as [? Hm]. split; [done|]. rewrite R4 by lia.
    rewrite decide_False; [done|]. intros [= -> ->]. apply Hd. left. rewrite Hmem in Hm. injection Hm as Hm.
    apply makeSymbolRef_inj in Hm as [-> ->]; [done| |].
    + apply (placed_bound h) in Hp; [lia|done|lia].
    + apply (placed_bound h) in E'; [lia|done|lia].
  - intros k sym Hk. rewrite Hlink; [|lia|unfold plain; tauto]. intros (s & ? & -> & E)%(co_singleton _ _ Hco); [|done].
    exists s. rewrite Hlink; [done|lia|unfold plain; tauto].
  - intros k sym Hk. rewrite Hlink; [|lia|unfold plain; tauto]. intros (s & ? & -> & E)%(co_attached _ _ Hco); [|done].
    exists s. rewrite Hlink; [done|lia|unfold plain; tauto].
  - intros kd' i t Hi. destruct (R5 kd' i Hi) as [->| ->]; [|done]. intros (kd1 & i1 & -> & ? & ?)%(co_alias _ _ Hco); [|done].
    exists kd1, i1. split_and!; [done..|]. by apply Hsome; [lia|].
  - intros kd' tk i t Hk Hl. pose proof (proj1 Hl) as Hi. destruct (Hlive _ _ Hl) as [Hl0 Hg]. rewrite R6, (co_types _ _ Hco kd' tk) by (done || lia).
    split.
    + intros [(Ht & m & E) Hnot]. split; [done|]. exists m. destruct (Hpl tk t) as [[Hd _]|[_ ->]]; [lia| |done]. exfalso. destruct Hd as [[= -> ->]|(-> & -> & Hin)].
      * rewrite Hp in E. injection E as -> ->. destruct kd'; cbn in Hk; try done; injection Hk as <-; [by apply Hnot|done].
      * destruct kd'; cbn in Hk; try done. apply (co_types _ _ Hco KMethod KTypeParameter what) in Hin as (_ & m' & E'); [|done|split; [done|by exists o, n]].
        rewrite E in E'. injection E' as -> ->. apply Hg. by left.
    + intros (Ht & m & E). destruct (Hkept tk t i m) as [E' Hd]; [lia|lia|done|]. split; [split; [done|by exists m]|].
      intros [-> [= -> -> ->]]. cbn in Hk. injection Hk as <-. apply Hd. by left.
  - intros kd' tk i Hk Hl. pose proof (proj1 Hl) as Hi. destruct (Hlive _ _ Hl) as [Hl0 Hg].
    destruct (co_typeNames _ _ Hco kd' tk i Hk Hl0) as [? Hinj].
    split; [apply R7; [lia|done|done]|]. intros t t' m Ht Ht' E E'. apply (Hinj t t' m Ht Ht'); eapply Hkept; (done || lia).
Qed.

Lemma deleteTypeParameters_spec l : forall gs stub, typeParameterData (g_symbols gs) 0 = Some stub ->
  (forall t, t ∈ l -> 0 < t < tableSize gs KTypeParameter) ->
  exists tps, foldM deleteTypeParameter gs l = Some (set_table (set_typeParams tps (table gs)) gs) /\
    length tps = length (typeParams (table gs)) /\
    forall j, 0 <= j -> tps !! Z.to_nat j = if decide (j ∈ l) then Some stub else typeParameterData (g_symbols gs) j.
Proof.
  induction l as [|t l IH]; intros gs stub Hs Hl.
  { exists (typeParams (table gs)). split; [cbn; by destruct gs as [[[] ? ?] ? ? ? ? ?]|]. split; [done|]. intros j _.
    rewrite decide_False; [done|]. by intros ?%elem_of_nil. }
  assert (Ht : 0 < t < tableSize gs KTypeParameter) by (apply Hl; by left). unfold tableSize, vsize in Ht.
  destruct (lookup_lt_is_Some_2 (typeParams (table gs)) (Z.to_nat t)) as [x Hx]; [lia|].
  change (typeParameterData (g_symbols gs) t = Some x) in Hx.
  set (gs1 := set_table (set_typeParams (<[Z.to_nat t := stub]> (typeParams (table gs))) (table gs)) gs).
  assert (E1 : deleteTypeParameter gs t = Some gs1) by (unfold deleteTypeParameter, updateTypeParameter; rewrite Hs; cbn [mbind option_bind]; by rewrite Hx).
  cbn [foldM]. rewrite E1. cbn [mbind option_bind].
  assert (Hs1 : typeParameterData (g_symbols gs1) 0 = Some stub).
  { unfold typeParameterData, gs1. cbn. rewrite list_lookup_insert_ne by lia. exact Hs. }
  destruct (IH gs1 stub Hs1) as (tps & -> & Hlen & Htps).
  { intros t' Ht'. unfold gs1, tableSize, vsize. cbn. rewrite length_insert. apply Hl. by right. }
  exists tps. split; [done|]. split; [rewrite Hlen; unfold gs1; cbn; by rewrite length_insert|].
  intros j Hj. rewrite Htps by done. destruct (decide (j ∈ l)) as [Hin|Hin]; [by rewrite decide_True by (by right)|].
  unfold typeParameterData, gs1. cbn. destruct (decide (t = j)) as [->|Hne].
  - rewrite decide_True by (by left). rewrite list_lookup_insert_eq by lia. done.
  - rewrite decide_False by (intros [?|?]%elem_of_cons; congruence). rewrite list_lookup_insert_ne by lia. done.
Qed.

Lemma eraseExisting_views gs o n : 0 <= o -> is_Some (place gs KClassOrModule o) -> is_Some (member gs o n) ->
  exists gs', eraseExisting o n gs = Some gs' /\ nametable gs' = nametable gs /\ SameSymbols gs gs' /\
    (forall kd j, resultType gs' kd j = resultType gs kd j) /\
    (forall k m, 0 <= k -> member gs' k m = if decide ((k, m) = (o, n)) then None else member gs k m) /\
    (forall kd j, 0 <= j -> ownTypes gs' kd j = ownTypes gs kd j) /\
    methods (table gs') = methods (table gs) /\ fields (table gs') = fields (table gs) /\
    typeParams (table gs') = typeParams (table gs) /\ typeMembers (table gs') = typeMembers (table gs) /\
    exists c, classData (g_symbols gs) o = Some c /\ classData (g_symbols gs') o = Some (eraseMember n c).
Proof.
  intros Ho Hp [sym Hm]. destruct (class_there _ _ Hp) as [c Hc]. unfold eraseExisting. rewrite Hc. cbn [mbind option_bind].
  assert (Hcm : cm_members c !! n = Some sym) by (unfold member in Hm; by rewrite Hc in Hm). rewrite Hcm. cbn [mbind option_bind].
  destruct (updateClass_total o (eraseMember n) gs Hp) as [gs' E]. exists gs'. split; [done|].
  pose proof E as (c1 & Hc1 & B1 & B2 & B5 & B6 & B7)%updateClass_views; [|done|done]. rewrite Hc in Hc1. injection Hc1 as <-.
  unfold updateClass in E. rewrite Hc in E. injection E as <-. split_and!; try done.
  - intros k m Hk. rewrite B6 by done. destruct (decide (k = o)) as [->|Hne]; [|by rewrite decide_False by congruence].
    cbn. destruct (decide (m = n)) as [->|Hne]; [by rewrite lookup_delete_eq, decide_True by done|].
    rewrite lookup_delete_ne, decide_False by congruence. unfold member. by rewrite Hc.
  - intros kd j Hj. rewrite B7 by done. destruct (decide (kd = KClassOrModule /\ j = o)) as [[-> ->]|]; [|done]. cbn. by rewrite Hc.
  - exists c. split; [done|]. unfold classData. cbn. by rewrite list_lookup_insert_eq by (by eapply lookup_lt_Some).
Qed.

Lemma live_stub h gs kd : Consistent h gs -> kd <> KClassOrModule -> exists n, place gs kd 0 = Some (0, n).
Proof.
  intros Hco Hk. destruct (place gs kd 0) as [[o n]|] eqn:E; [exists n; by rewrite (co_stub _ _ Hco kd o n Hk E)|].
  pose proof (co_sizes _ _ Hco kd). exfalso. apply eq_None_not_Some in E. apply E, place_size; lia.
Qed.

Lemma deleteMethod_deleted h gs what o n : Consistent h gs -> 0 < what -> 0 < o -> place gs KMethod what = Some (o, n) ->
  exists gs', deleteMethodSymbol what gs = Some gs' /\ Deleted KMethod what o n gs gs'.
Proof.
  intros Hco Hw Ho Hp. destruct (co_listed _ _ Hco KMethod what o n) as [Hpln Hmem]; [done|done|by split|done|].
  pose proof Hp as [_ Hown]%(co_owner _ _ Hco); [|done]. cbn [ownerKind] in Hown.
  pose proof Hp as (m & Hm & [= <- <-])%data_placed. unfold deleteMethodSymbol. rewrite Hm. cbn [mbind option_bind].
  destruct (eraseExisting_views gs (me_owner m) (me_name m)) as (gs1 & -> & B1 & [B2 Bs B3 B4] & B5 & B6 & B7 & T1 & T2 & T3 & T4 & _);
    [lia|done|by eexists|]. cbn [mbind option_bind].
  destruct (live_stub h gs KTypeParameter Hco ltac:(done)) as [ns (stub & Hs & Hs')%data_placed].
  assert (Htypes : ownTypes gs KMethod what = typeParameters (me_typeParams m)) by (cbn; by rewrite Hm).
  destruct (deleteTypeParameters_spec (typeParameters (me_typeParams m)) gs1 stub) as (tps & E2 & Hlen & Htps).
  { unfold typeParameterData in *. fold (table gs1). rewrite T3. exact Hs. }
  { intros t Ht. rewrite <- Htypes in Ht. apply (co_types _ _ Hco KMethod KTypeParameter what) in Ht as (Ht & mm & E); [|done|split; [done|by exists (me_owner m), (me_name m)]].
    split; [done|]. rewrite B3. apply place_lt in E; lia. }
  rewrite E2. cbn [mbind option_bind]. destruct (live_stub h gs KMethod Hco ltac:(done)) as [nm (mstub & Hms & Hms')%data_placed].
  assert (Hms1 : methodData (g_symbols (set_table (set_typeParams tps (table gs1)) gs1)) 0 = Some mstub).
  { unfold methodData in *. cbn. fold (table gs1). rewrite T1. exact Hms. }
  assert (Hm1 : methodData (g_symbols (set_table (set_typeParams tps (table gs1)) gs1)) what = Some m).
  { unfold methodData in *. cbn. fold (table gs1). rewrite T1. exact Hm. }
  rewrite Hms1. cbn [mbind option_bind]. unfold updateMethod. rewrite Hm1. cbn [mbind option_bind]. eexists. split; [done|].
  set (gs3 := set_table _ _).
  assert (Hother : forall j, 0 <= j -> j <> what -> methodData (g_symbols gs3) j = methodData (g_symbols gs) j).
  { intros j Hj Hne. unfold methodData, gs3. cbn. rewrite list_lookup_insert_ne by lia. fold (table gs1). by rewrite T1. }
  assert (Hself : methodData (g_symbols gs3) what = Some mstub).
  { unfold methodData, gs3. cbn. apply list_lookup_insert_eq. fold (table gs1). rewrite T1. by eapply lookup_lt_Some. }
  assert (Hpar : forall j, 0 <= j -> typeParameterData (g_symbols gs3) j =
    if decide (j ∈ ownTypes gs KMethod what) then Some stub else typeParameterData (g_symbols gs) j).
  { intros j Hj. rewrite Htypes. transitivity (tps !! Z.to_nat j); [done|]. rewrite Htps by done. unfold typeParameterData. fold (table gs1). by rewrite T3. }
  assert (Hplace : forall kd j, kd <> KMethod -> kd <> KTypeParameter -> place gs3 kd j = place gs kd j).
  { intros kd j H1 H2. rewrite <- B4. by destruct kd. }
  assert (Hnot : forall j, 0 <= j -> live gs3 KMethod j -> j <> what).
  { intros j Hj (_ & o1 & n1 & E & Ho1) ->. unfold place in E. rewrite Hself in E. cbn in E. rewrite Hms' in E. injection E as <- _. lia. }
  split; [done|done| | | | | |].
  - intros kd. rewrite <- B3. destruct kd; cbn; unfold vsize; cbn; rewrite ?length_insert, ?Hlen; done.
  - intros kd j Hj. destruct kd.
    + rewrite Hplace, decide_False by naive_solver. done.
    + destruct (decide (j = what)) as [->|Hne]; [rewrite decide_True by naive_solver|rewrite decide_False by naive_solver].
      * unfold place. by rewrite Hself, Hms.
      * unfold place. by rewrite Hother.
    + rewrite Hplace, decide_False by naive_solver. done.
    + unfold place. rewrite Hpar, Hs by done. destruct (decide (j ∈ ownTypes gs KMethod what)); [rewrite decide_True by naive_solver; done|].
      rewrite decide_False by naive_solver. done.
    + rewrite Hplace, decide_False by naive_solver. done.
  - exact B6.
  - intros kd j Hj. destruct kd; try (left; apply aliasTarget_ext; rewrite <- B5; done).
    + destruct (decide (j = what)) as [->|Hne]; [right|left; apply aliasTarget_ext; unfold resultType; by rewrite Hother].
      pose proof (co_stubAlias _ _ Hco KMethod) as H. unfold aliasTarget, resultType in *. by rewrite Hself, Hms in *.
    + unfold aliasTarget, resultType. rewrite Hpar by done. destruct (decide _); [right|by left].
      pose proof (co_stubAlias _ _ Hco KTypeParameter) as H. unfold aliasTarget, resultType in H. by rewrite Hs in H.
  - intros kd j t Hj Hl. destruct kd; try done.
    + rewrite <- (B7 KClassOrModule j) by done. split; [intros ?; split; [done|by intros [? _]]|by intros [? _]].
    + pose proof (Hnot j Hj Hl). unfold ownTypes. rewrite Hother by done. split; [intros ?; split; [done|by intros [? _]]|by intros [? _]].
    + cbn. split; [by intros ?%elem_of_nil|by intros [? _]].
    + cbn. split; [by intros ?%elem_of_nil|by intros [? _]].
    + cbn. split; [by intros ?%elem_of_nil|by intros [? _]].
  - intros kd j Hj Hl. destruct kd; try done.
    + by rewrite <- (B7 KClassOrModule j).
    + pose proof (Hnot j Hj Hl). unfold ownTypes. by rewrite Hother.
Qed.

Lemma deleteField_deleted h gs what o n : Consistent h gs -> 0 < what -> 0 < o -> place gs KFieldOrStaticField what = Some (o, n) ->
  exists gs', deleteFieldSymbol what gs = Some gs' /\ Deleted KFieldOrStaticField what o n gs gs'.
Proof.
  intros Hco Hw Ho Hp. destruct (co_listed _ _ Hco KFieldOrStaticField what o n) as [Hpln Hmem]; [done|done|by split|done|].
  pose proof Hp as [_ Hown]%(co_owner _ _ Hco); [|done]. cbn [ownerKind] in Hown.
  pose proof Hp as (f & Hf & [= <- <-])%data_placed. unfold deleteFieldSymbol. rewrite Hf. cbn [mbind option_bind].
  destruct (eraseExisting_views gs (fi_owner f) (fi_name f)) as (gs1 & -> & B1 & [B2 Bs B3 B4] & B5 & B6 & B7 & T1 & T2 & T3 & T4 & _);
    [lia|done|by eexists|]. cbn [mbind option_bind].
  destruct (live_stub h gs KFieldOrStaticField Hco ltac:(done)) as [ns (stub & Hs & Hs')%data_placed].
  assert (Hd : forall j, fieldData (g_symbols gs1) j = fieldData (g_symbols gs) j) by (intros j; unfold fieldData; fold (table gs1); by rewrite T2).
  rewrite Hd, Hs. cbn [mbind option_bind]. unfold updateField. rewrite Hd, Hf. cbn [mbind option_bind]. eexists. split; [done|].
  set (gs3 := set_table _ _).
  assert (Hnew : forall j, 0 <= j -> fieldData (g_symbols gs3) j = if decide (j = what) then Some stub else fieldData (g_symbols gs) j).
  { intros j Hj. rewrite <- Hd. unfold fieldData, gs3. cbn. case_decide as E; [subst|by rewrite list_lookup_insert_ne by lia].
    apply list_lookup_insert_eq. fold (table gs1). rewrite T2. by eapply lookup_lt_Some. }
  assert (Hplace : forall kd j, kd <> KFieldOrStaticField -> place gs3 kd j = place gs kd j) by (intros kd j H1; rewrite <- B4; by destruct kd).
  split; [done|done| | | | | |].
  - intros kd. rewrite <- B3. destruct kd; cbn; unfold vsize; cbn; rewrite ?length_insert; done.
  - intros kd j Hj. destruct (decide (kd = KFieldOrStaticField)) as [->|Hne]; [|rewrite Hplace, decide_False by naive_solver; done].
    unfold place. rewrite Hnew, Hs by done. destruct (decide (j = what)); [rewrite decide_True by naive_solver|rewrite decide_False by naive_solver]; done.
  - exact B6.
  - intros kd j Hj. destruct kd; try (left; apply aliasTarget_ext; rewrite <- B5; done).
    unfold aliasTarget, resultType. rewrite Hnew by done. destruct (decide _); [right|by left].
    pose proof (co_stubAlias _ _ Hco KFieldOrStaticField) as H. unfold aliasTarget, resultType in H. by rewrite Hs in H.
  - intros kd j t Hj Hl. rewrite <- (B7 kd j) by done. split; [intros ?; split; [done|by intros [? _]]|by intros [? _]].
  - intros kd j Hj Hl. by rewrite <- (B7 kd j).
Qed.

Lemma eraseFirst_elem x l y : NoDup l -> y ∈ eraseFirst x l <-> y ∈ l /\ y <> x.
Proof.
  induction 1 as [|z l Hz Hn IH]; cbn; [rewrite elem_of_nil; tauto|]. destruct (Z.eqb_spec x z) as [->|Hne].
  - rewrite elem_of_cons. split; [intros ?; split; [by right|congruence]|by intros [[->|?] ?]].
  - rewrite !elem_of_cons, IH. naive_solver.
Qed.

Lemma eraseFirst_NoDup x l : NoDup l -> NoDup (eraseFirst x l).
Proof.
  induction 1 as [|z l Hz Hn IH]; cbn; [constructor|]. destruct (x =? z); [done|]. constructor; [|done].
  by intros [? _]%eraseFirst_elem.
Qed.

Lemma deleteTypeMember_deleted h gs what o n : Consistent h gs -> 0 < what -> live gs KClassOrModule o ->
  place gs KTypeMember what = Some (o, n) -> exists gs', deleteTypeMemberSymbol what gs = Some gs' /\ Deleted KTypeMember what o n gs gs'.
Proof.
  intros Hco Hw Hlo Hp. pose proof (proj1 Hlo) as Ho. destruct (co_listed _ _ Hco KTypeMember what o n) as [Hpln Hmem]; [done|done|by split|done|].
  pose proof Hp as [_ Hown]%(co_owner _ _ Hco); [|done]. cbn [ownerKind] in Hown.
  pose proof Hp as (f & Hf & Hfo)%data_placed. injection Hfo as Hfo <-. unfold deleteTypeMemberSymbol. rewrite Hf. cbn [mbind option_bind]. rewrite Hfo.
  destruct (eraseExisting_views gs o (tp_name f)) as (gs1 & -> & B1 & [B2 Bs B3 B4] & B5 & B6 & B7 & T1 & T2 & T3 & T4 & c & Hc & Hc1);
    [lia|done|by eexists|]. cbn [mbind option_bind].
  rewrite Hc1. cbn [mbind option_bind]. cbn [cm_typeParams eraseMember set_members].
  assert (Hin : what ∈ ownTypes gs KClassOrModule o) by (apply (co_types _ _ Hco KClassOrModule KTypeMember o); [done|done|split; [done|by exists (tp_name f)]]).
  unfold ownTypes in Hin. rewrite Hc in Hin. cbn in Hin. destruct (cm_typeParams c) as [members|] eqn:Ec; [|by apply elem_of_nil in Hin].
  cbn in Hin. cbn [mbind option_bind]. rewrite bool_decide_eq_true_2 by done. cbn [negb].
  destruct (updateClass_total o (set_memberTypes (Some (eraseFirst what members))) gs1) as [gs2 E2]; [by rewrite B4|].
  assert (Ttm : typeMembers (table gs2) = typeMembers (table gs)).
  { pose proof E2 as E. unfold updateClass in E. apply bind_Some in E as (? & _ & [= <-]). exact T4. }
  rewrite E2. cbn [mbind option_bind]. apply updateClass_views in E2 as (c2 & Hc2 & D1 & [D2 Ds D3 D4] & D5 & D6 & D7); [|lia|done].
  rewrite Hc1 in Hc2. injection Hc2 as <-. cbn [cm_members set_memberTypes cm_typeParams] in D6, D7.
  destruct (live_stub h gs KTypeMember Hco ltac:(done)) as [ns (stub & Hs & Hs')%data_placed].
  assert (Hd : forall j, typeMemberData (g_symbols gs2) j = typeMemberData (g_symbols gs) j) by (intros j; unfold typeMemberData; fold (table gs2); by rewrite Ttm).
  rewrite Hd, Hs. cbn [mbind option_bind]. unfold updateTypeMember. rewrite Hd, Hf. cbn [mbind option_bind]. eexists. split; [done|].
  set (gs3 := set_table _ _).
  assert (Hnew : forall j, 0 <= j -> typeMemberData (g_symbols gs3) j = if decide (j = what) then Some stub else typeMemberData (g_symbols gs) j).
  { intros j Hj. rewrite <- Hd. unfold typeMemberData, gs3. cbn. case_decide as E; [subst|by rewrite list_lookup_insert_ne by lia].
    apply list_lookup_insert_eq. fold (table gs2). rewrite Ttm. by eapply lookup_lt_Some. }
  assert (Hplace : forall kd j, kd <> KTypeMember -> place gs3 kd j = place gs kd j) by (intros kd j H1; rewrite <- B4, <- D4; by destruct kd).
  assert (Htypes : forall kd j, 0 <= j -> ownTypes gs3 kd j = if decide (kd = KClassOrModule /\ j = o) then eraseFirst what members else ownTypes gs kd j).
  { intros kd j Hj. transitivity (ownTypes gs2 kd j); [done|]. rewrite D7, B7 by done. done. }
  assert (Hmembers : ownTypes gs KClassOrModule o = members) by (unfold ownTypes; rewrite Hc; cbn; by rewrite Ec).
  destruct (co_typeNames _ _ Hco KClassOrModule KTypeMember o) as [Hnd _]; [done|done|]. rewrite Hmembers in Hnd.
  split; [exact (eq_trans D1 B1)|exact (eq_trans D2 B2)| | | | | |].
  - intros kd. rewrite <- B3, <- D3. destruct kd; cbn; unfold vsize; cbn; rewrite ?length_insert; done.
  - intros kd j Hj. destruct (decide (kd = KTypeMember)) as [->|Hne]; [|rewrite Hplace, decide_False by naive_solver; done].
    unfold place. rewrite Hnew, Hs by done. destruct (decide (j = what)); [rewrite decide_True by naive_solver|rewrite decide_False by naive_solver]; done.
  - intros k m Hk. rewrite <- B6 by done. transitivity (member gs2 k m); [done|]. rewrite D6 by done. case_decide as E; [|done].
    subst. unfold member. by rewrite Hc1.
  - intros kd j Hj. destruct kd; try (left; apply aliasTarget_ext; rewrite <- B5, <- D5; done).
    unfold aliasTarget, resultType. rewrite Hnew by done. destruct (decide _); [right|by left].
    pose proof (co_stubAlias _ _ Hco KTypeMember) as H. unfold aliasTarget, resultType in H. by rewrite Hs in H.
  - intros kd j t Hj Hl. rewrite Htypes by done. destruct (decide (kd = KClassOrModule /\ j = o)) as [[-> ->]|Hne].
    + rewrite Hmembers, eraseFirst_elem by done. naive_solver.
    + split; [intros ?; split; [done|intros [_ [= -> -> _]]; by apply Hne]|by intros [? _]].
  - intros kd j Hj Hl Hn. rewrite Htypes by done. destruct (decide (kd = KClassOrModule /\ j = o)) as [[-> ->]|Hne]; [|done].
    by apply eraseFirst_NoDup.
Qed.
