(* ===== verification/SymbolSample.v ===== *)
(** * A small symbol table

    The classes that are made before and with the root, the stubs that start the other tables, and the names that
    the examples enter. It is consistent, and the examples about the symbol table start from it. *)

From S2P Require Import Prelude Pickler FileHash Files Locs Types NameTable NameText Symbols SymbolRefs SymbolEntry SymbolViews SymbolConsistent.

#[local] Open Scope Z_scope.

(** ** Names *)

(** Enters names one after the other, as long as the tables are of ordinary size. *)
Fixpoint enterNames (h : str -> Z) (nt : NameTable) (ds : list NameData) : option NameTable :=
  match ds with
  | [] => Some nt
  | d :: ds => if capacities nt <=? 2 ^ 29 then '(_, nt) ← enterName h nt d; enterNames h nt ds else None
  end.

Lemma enterNames_wf h ds : forall nt nt', NameTable_wf h nt -> enterNames h nt ds = Some nt' -> NameTable_wf h nt'.
Proof.
  induction ds as [|d ds IH]; intros nt nt' Hwf E; [by injection E as <-|]. cbn in E. destruct (Z.leb_spec (capacities nt) (2 ^ 29)); [|done].
  destruct (enter_spec h nt d) as (raw & nt1 & E1 & Hwf1 & _); [done..|]. rewrite E1 in E. by eapply IH.
Qed.

Definition sampleHash (s : str) : Z := Z.of_nat (length s) + 1.

Definition sampleTexts : list str :=
  [s! "<none>"; s! "<root>"; s! "<singleton>"; s! "<attached>"; s! "foo"; s! "bar"; s! "<static-init>"; s! "A"; s! "B"; s! "<AttachedClass>"; s! "<blk>"; s! "arg"; s! "<kwargs>"].

(** The reference of a string, and of a constant *)
Definition text (i : nat) : Z := makeNameRef UTF8 (Z.of_nat i).
Definition constant (i : nat) : Z := makeNameRef CONSTANT (Z.of_nat i).

Definition sampleNameTable : NameTable :=
  default (emptyTable 16 16 16)
    (enterNames sampleHash (emptyTable 16 16 16) ((NUtf8 <$> sampleTexts) ++ (NConstant ∘ text <$> [0%nat; 1%nat; 7%nat; 8%nat; 9%nat]))).

Lemma sampleNameTable_wf : NameTable_wf sampleHash sampleNameTable.
Proof.
  assert (E : is_Some (enterNames sampleHash (emptyTable 16 16 16)
    ((NUtf8 <$> sampleTexts) ++ (NConstant ∘ text <$> [0%nat; 1%nat; 7%nat; 8%nat; 9%nat])))) by (vm_compute; by eexists).
  destruct E as [nt E]. unfold sampleNameTable. rewrite E. eapply enterNames_wf; [|exact E]. apply emptyTable_wf; lia.
Qed.

Definition foo : Z := text 4.
Definition bar : Z := text 5.
Definition constantA : Z := constant 2.
Definition constantB : Z := constant 3.

(** ** The table *)

Definition sampleWellKnown : WellKnown := mkWellKnown (text 2) (text 3) 1 0 0 (text 6).

Definition sampleEntryNames : EntryNames := mkEntryNames 1 0 0 (constant 4) 0 0.

Definition stubTable : GlobalState :=
  let none := constant 0 in
  mkGlobalState
    (mkSymbolic (mkSymbolTable [] [mkMethod (noLoc 0) 0 none 0 (MethodFlags_of_bits 0) None [] NullType 0 []]
       [mkField 0 none (mkFieldFlags false false false false false) NullType []]
       [mkTypeParameter 0 none (varianceFlags true false Invariant) NullType []]
       [mkTypeParameter 0 none (varianceFlags false true Invariant) NullType []]) sampleNameTable sampleWellKnown)
    [sampleFile] [mkOffsets 0 0 0 0 0] None false (mkPackageDB false false ∅).

(** The classes up to the root *)
Definition sampleState : GlobalState :=
  default stubTable (foldM (fun gs name => snd <$> synthesizeClass name 0 false gs) stubTable
    [constant 0; constant 0; constant 0; constant 1]).

Lemma sample_place kd i o n : 0 <= i -> place sampleState kd i = Some (o, n) ->
  match kd with
  | KClassOrModule => i <= 3 /\ o = root /\ (n = constant 0 \/ n = constant 1)
  | _ => i = 0 /\ o = 0 /\ n = constant 0
  end.
Proof.
  intros Hi E. destruct kd; cbn in E; apply fmap_Some in E as (x & E & [= -> ->]);
    unfold classData, methodData, fieldData, typeParameterData, typeMemberData in E;
    destruct (Z.to_nat i) as [|[|[|[|j]]]] eqn:Ej; vm_compute in E; simplify_eq; cbn; split_and!; try lia; auto.
Qed.

Lemma sample_member k n : 0 <= k -> member sampleState k n = None.
Proof.
  intros Hk. unfold member. destruct (classData (g_symbols sampleState) k) as [c|] eqn:E; [cbn|done].
  unfold classData in E.
  destruct (Z.to_nat k) as [|[|[|[|j]]]]; vm_compute in E; simplify_eq; reflexivity.
Qed.

Lemma sample_types kd i : 0 <= i -> ownTypes sampleState kd i = [] /\ resultType sampleState kd i = NullType.
Proof.
  intros Hi. destruct kd; cbn; unfold classData, methodData, fieldData, typeParameterData, typeMemberData;
    destruct (Z.to_nat i) as [|[|[|[|j]]]]; done.
Qed.

Lemma sampleState_consistent : Consistent sampleHash sampleState.
Proof.
  split.
  - exact sampleNameTable_wf.
  - intros kd. destruct kd; vm_compute; (split; [done|reflexivity]).
  - intros kd o n Hk E. apply sample_place in E; [|done]. by destruct kd; naive_solver.
  - intros kd. unfold aliasTarget. by rewrite (proj2 (sample_types kd 0 ltac:(done))).
  - vm_compute. done.
  - vm_compute. done.
  - done.
  - intros kd i o n Hi E. apply sample_place in E; [|done].
    assert (Hn : n = constant 0 \/ n = constant 1) by (destruct kd; naive_solver).
    destruct Hn as [-> | ->]; eexists; apply list_elem_of_In; vm_compute; eauto 20.
  - intros kd i o n Hi E. apply sample_place in E; [|lia].
    destruct kd; destruct E as (? & -> & ?); try lia. by split; [|eexists].
  - intros k n sym Hk _ E. by rewrite sample_member in E by lia.
  - intros kd i k n Hi Hk [_ Hl] E. apply sample_place in E; [|lia]. destruct kd; destruct E as (? & ? & ?); try lia.
    specialize (Hl eq_refl). unfold root in Hl. lia.
  - intros k sym Hk E. by rewrite sample_member in E by lia.
  - intros k sym Hk E. by rewrite sample_member in E by lia.
  - intros kd i target Hi E. unfold aliasTarget in E. by rewrite (proj2 (sample_types kd i Hi)) in E.
  - intros kd tk i t Ht [Hi _]. rewrite (proj1 (sample_types kd i ltac:(lia))). split; [by intros ?%not_elem_of_nil|].
    intros [? [n E]]. apply sample_place in E; [|lia]. destruct kd; simplify_eq/=; destruct E as (? & ? & ?); lia.
  - intros kd tk i Ht [Hi _]. rewrite (proj1 (sample_types kd i ltac:(lia))). split; [constructor|].
    intros t t' n ? ? E _. apply sample_place in E; [|lia]. destruct kd; simplify_eq/=; destruct E as (? & ? & ?); lia.
Qed.
