(* ===== verification/SymbolProps.v ===== *)
(** * Properties of the symbol table

    Sequences of the operations of [SymbolEntry] keep the table consistent; entering is idempotent; methods that are
    renamed are found again under their mangled names, with an exception that the last theorem shows. *)

From S2P Require Import Prelude Pickler FileHash Files Locs Types NameTable NameText Symbols SymbolRefs SymbolEntry SymbolViews SymbolConsistent SymbolSample.

#[local] Open Scope Z_scope.

(** ** Parameters *)

Lemma enterMethodParameter_same loc m n gs i gs' : 0 <= m -> enterMethodParameter loc m n gs = Some (i, gs') -> SameViews gs gs'.
Proof.
  intros Hm E. unfold enterMethodParameter in E. apply bind_Some in E as (x & Hx & E). destruct (parameterIndex _ _).
  - injection E as _ <-. apply SameViews_refl.
  - apply bind_Some in E as (gs1 & E & [= _ <-]). by eapply updateMethod_same.
Qed.

Lemma setParameter_same m i f gs gs' : 0 <= m -> setParameter m i f gs = Some gs' -> SameViews gs gs'.
Proof. intros Hm E. by eapply updateMethod_same in E. Qed.

Lemma copyParameter_same original res keep gs i gs' : 0 <= res -> copyParameter original res keep gs i = Some gs' -> SameViews gs gs'.
Proof.
  intros Hr E. unfold copyParameter in E. apply bind_Some in E as (m & _ & E). apply bind_Some in E as (param & _ & E).
  apply bind_Some in E as (k & _ & E). destruct (_ && _); [injection E as <-; apply SameViews_refl|].
  apply bind_Some in E as ([j gs1] & E1 & E). eapply SameViews_trans; [by eapply enterMethodParameter_same|by eapply setParameter_same].
Qed.

Lemma foldM_same {A} (f : GlobalState -> A -> option GlobalState) l gs gs' :
  (forall x g g', f g x = Some g' -> SameViews g g') -> foldM f gs l = Some gs' -> SameViews gs gs'.
Proof.
  intros Hf. revert gs. induction l as [|x l IH]; intros gs E; [injection E as <-; apply SameViews_refl|].
  cbn in E. apply bind_Some in E as (gs1 & E1 & E). eapply SameViews_trans; [by eapply Hf|by apply IH].
Qed.

Lemma finishStaticInit_same en loc count sym gs r gs' : 0 <= sym -> finishStaticInit en loc count sym gs = Some (r, gs') ->
  SameViews gs gs' /\ r = sym.
Proof.
  intros Hs E. unfold finishStaticInit in E. destruct (negb _).
  - apply bind_Some in E as ([i gs1] & E1 & E). apply bind_Some in E as (gs2 & E2 & [= <- <-]). split; [|done].
    eapply SameViews_trans; [by eapply enterMethodParameter_same|by eapply setParameter_same].
  - apply bind_Some in E as (m & _ & E). apply bind_Some in E as (locs & _ & E). apply bind_Some in E as (gs2 & E2 & [= <- <-]).
    split; [|done]. by eapply updateMethod_same.
Qed.

(** ** Operations *)

Inductive SymbolOp :=
| EnterClass (loc : Loc) (owner name : Z)
| EnterTypeMember (loc : Loc) (owner name : Z) (variance : Variance)
| EnterTypeParameter (loc : Loc) (owner name : Z) (variance : Variance)
| EnterMethod (loc : Loc) (owner name : Z) (nameLoc : Loc)
| EnterOverload (sigLoc : Loc) (original originalName num : Z) (paramsToKeep : list bool)
| EnterField (loc : Loc) (owner name : Z)
| EnterStaticField (loc : Loc) (owner name : Z)
| EnterParameter (loc : Loc) (owner name : Z)
| EnterSingleton (klass : Z)
| EnterFileInit (loc : Loc)
| Rename (what origName : Z)
| DeleteMethod (what : Z)
| DeleteField (what : Z)
| DeleteTypeMember (what : Z).

Section Operations.
Context (h : str -> Z) (en : EntryNames).

Definition performOp (op : SymbolOp) (gs : GlobalState) : option GlobalState :=
  match op with
  | EnterClass loc owner name => snd <$> enterClassOrModuleSymbol en loc owner name gs
  | EnterTypeMember loc owner name v => snd <$> enterTypeMember loc owner name v gs
  | EnterTypeParameter loc owner name v => snd <$> enterTypeParameter loc owner name v gs
  | EnterMethod loc owner name nameLoc => snd <$> enterMethodSymbol loc owner name nameLoc gs
  | EnterOverload sigLoc original originalName num keep => snd <$> enterNewMethodOverload sigLoc original originalName num keep gs
  | EnterField loc owner name => snd <$> enterFieldSymbol loc owner name gs
  | EnterStaticField loc owner name => snd <$> enterStaticFieldSymbol loc owner name gs
  | EnterParameter loc owner name => snd <$> enterMethodParameter loc owner name gs
  | EnterSingleton klass => snd <$> singletonClass en klass gs
  | EnterFileInit loc => snd <$> staticInitForFile en loc gs
  | Rename what origName => mangleRenameMethod what origName gs
  | DeleteMethod what => deleteMethodSymbol what gs
  | DeleteField what => deleteFieldSymbol what gs
  | DeleteTypeMember what => deleteTypeMemberSymbol what gs
  end.

(** A symbol of a class that has not been deleted *)
Definition ownedBy (gs : GlobalState) (kd : SymbolKind) (what o n : Z) : Prop :=
  0 < what /\ live gs KClassOrModule o /\ place gs kd what = Some (o, n).

(** What the callers see to: owners and the symbols that are changed exist, names are in the name table, and the
    tables are not full. *)
Definition allowed (gs : GlobalState) (op : SymbolOp) : Prop :=
  match op with
  | EnterClass _ owner name => Enterable gs KClassOrModule owner name
  | EnterTypeMember _ owner name _ => Enterable gs KTypeMember owner name
  | EnterTypeParameter _ owner name _ => Enterable gs KTypeParameter owner name
  | EnterMethod _ owner name _ => Enterable gs KMethod owner name
  | EnterOverload _ original _ _ _ => (exists o n, ownedBy gs KMethod original o n) /\
      tableSize gs KMethod + 1 < 2 ^ 29 /\ capacities (nametable gs) <= 2 ^ 29
  | EnterField _ owner name | EnterStaticField _ owner name => Enterable gs KFieldOrStaticField owner name
  | EnterParameter _ owner _ => 0 <= owner
  | EnterSingleton klass =>
      klass <> untypedClass /\ capacities (nametable gs) <= 2 ^ 29 /\ named gs (n_AttachedClass en) /\
      plain (wellKnown gs) (n_AttachedClass en) /\ root < tableSize gs KClassOrModule /\
      tableSize gs KClassOrModule + 1 < 2 ^ 29 /\ tableSize gs KTypeMember + 1 < 2 ^ 29 /\
      exists o n, 0 < klass /\ 0 < o /\ place gs KClassOrModule klass = Some (o, n) /\ singletonFree gs o n
  | EnterFileInit _ => live gs KClassOrModule (sym_rootSingleton en) /\
      tableSize gs KMethod + 1 < 2 ^ 29 /\ capacities (nametable gs) <= 2 ^ 29
  | Rename what origName => (exists o, ownedBy gs KMethod what o origName) /\ capacities (nametable gs) <= 2 ^ 29
  | DeleteMethod what => exists o n, ownedBy gs KMethod what o n
  | DeleteField what => exists o n, ownedBy gs KFieldOrStaticField what o n
  | DeleteTypeMember what => exists o n, ownedBy gs KTypeMember what o n
  end.

(** The part of the functions that enter a method under a unique name *)
Lemma enterUnique_consistent unk original num loc o nameLoc nm nt gs r gs' : Consistent h gs -> capacities (nametable gs) <= 2 ^ 29 ->
  live gs KClassOrModule o -> tableSize gs KMethod + 1 < 2 ^ 29 -> freshNameUnique (nametable gs) unk original num = Some (nm, nt) ->
  enterMethodSymbol loc o nm nameLoc (set_names nt gs) = Some (r, gs') -> Consistent h gs' /\ (0 <= r).
Proof.
  intros Hco Hcap Hl Hr En E. destruct (freshUnique_spec h gs unk original num (co_names _ _ Hco) Hcap) as (nm' & nt' & En' & Hint).
  rewrite En in En'. injection En' as <- <-. pose proof (consistent_names _ _ _ _ _ Hco Hint) as Hco'. pose proof Hint as (Hwf & _ & Hin & _).
  pose proof Hl as (Ho & o' & n' & Hp & _).
  destruct (enterMethodSymbol_entered loc o nm nameLoc (set_names nt gs)) as (r1 & gs1 & E1 & He); [lia|by eexists|].
  rewrite E in E1. injection E1 as <- <-.
  assert (Hen : Enterable (set_names nt gs) KMethod o nm).
  { split; [done|by eexists|intros _; by eapply unique_plain|done|done]. }
  split; [by eapply consistent_entered|]. destruct He as [(sym & Hm & _ & -> & _)|[_ Hnew]].
  - apply (co_member _ _ Hco') in Hm as (kd & i & -> & Hi & _ & Hpi); [|done|by eapply unique_plain].
    rewrite makeSymbolRef_index; [lia|]. apply (placed_bound h) in Hpi; [lia|done|lia].
  - rewrite (ns_index _ _ _ _ _ _ Hnew). unfold tableSize, vsize. lia.
Qed.

Lemma performOp_consistent gs op gs' : Consistent h gs -> allowed gs op -> performOp op gs = Some gs' -> Consistent h gs'.
Proof.
  intros Hco Ha E. destruct op; cbn [performOp] in E; try (apply fmap_Some in E as ([r gs1] & E & ->); cbn [snd]).
  - pose proof (en_owner _ _ _ _ Ha) as [? _]. apply enterClassOrModuleSymbol_entered in E; [|lia]. by eapply consistent_entered.
  - apply (enterTypeMember_entered h) in E; [|done|apply (en_owner _ _ _ _ Ha)]. by eapply consistent_entered.
  - apply (enterTypeParameter_entered h) in E; [|done|apply (en_owner _ _ _ _ Ha)]. by eapply consistent_enteredParameter.
  - pose proof (en_owner _ _ _ _ Ha) as (? & ? & ? & ? & _).
    destruct (enterMethodSymbol_entered loc owner name nameLoc gs) as (r1 & gs2 & E1 & He); [lia|by eexists|].
    rewrite E in E1. injection E1 as <- <-. by eapply consistent_entered.
  - destruct Ha as ((o & n & Hw & Hl & Hp) & Hr & Hcap). unfold enterNewMethodOverload in E. apply bind_Some in E as ([nm nt] & En & E).
    apply data_placed in Hp as (m & Hm & [= <- <-]). change (methodData (g_symbols (set_names nt gs)) original) with (methodData (g_symbols gs) original) in E.
    rewrite Hm in E. cbn [mbind option_bind] in E. apply bind_Some in E as ([res gs2] & E2 & E).
    eapply enterUnique_consistent in E2 as [Hco2 Hres]; [|done..]. apply bind_Some in E as (m2 & _ & E). apply bind_Some in E as (gs3 & E3 & [= <- <-]).
    eapply consistent_same; [done|]. eapply foldM_same; [|exact E3]. intros x g g'. by apply copyParameter_same.
  - pose proof (en_owner _ _ _ _ Ha) as (? & ? & ? & ? & _).
    destruct (enterFieldSymbol_entered loc owner name gs) as (r1 & gs2 & E1 & He); [lia|by eexists|].
    rewrite E in E1. injection E1 as <- <-. by eapply consistent_entered.
  - pose proof (en_owner _ _ _ _ Ha) as [? _]. apply enterStaticFieldSymbol_entered in E; [|lia]. by eapply consistent_entered.
  - eapply consistent_same; [done|]. by eapply enterMethodParameter_same.
  - destruct Ha as (Hu & Hcap & Hn & Hp & Hroot & Hr1 & Hr2 & o & n & Hk & Ho & Hpl & Hfree).
    destruct (member gs klass (n_singleton (wellKnown gs))) as [sym|] eqn:Em.
    + pose proof Em as (s & Hs & -> & Hatt)%(co_singleton _ _ Hco); [|done]. unfold singletonClass in E. apply bind_Some in E as (s' & Hs' & E).
      destruct (Z.eqb_spec s' 0) as [->|Hne]; cbn [negb] in E; [|by injection E as _ <-]. exfalso.
      unfold lookupSingletonClass in Hs'. rewrite (proj2 (Z.eqb_neq _ _) Hu) in Hs'. apply fmap_Some in Hs' as (t & Ht & Et).
      unfold findMember, findMemberNoDealias in Ht. pose proof Hpl as (c & Hc & _)%data_placed. rewrite Hc in Ht. cbn [mbind option_bind] in Ht.
      unfold member in Em. rewrite Hc in Em. cbn [mbind option_bind] in Em. fold (wellKnown gs) in Ht. rewrite Em in Ht. change (default noSymbol (Some (classSymbol s))) with (makeSymbolRef KClassOrModule s) in Ht.
      assert (Hps : is_Some (place gs KClassOrModule s)).
      { unfold member in Hatt. cbn. destruct (classData (g_symbols gs) s); [by eexists|done]. }
      pose proof Hps as [p Hb]. apply (placed_bound h) in Hb; [|done|lia].
      rewrite ref_exists in Ht by lia. destruct (dealias_exists h gs KClassOrModule s Hco Hs Hps) as (t' & Ht' & Hex).
      rewrite Ht in Ht'. injection Ht' as <-. unfold symbol_exists in Hex. rewrite <- Et in Hex. done.
    + eapply singletonClass_new in E as [? _]; done.
  - destruct Ha as (Hl & Hr & Hcap). unfold staticInitForFile in E. apply bind_Some in E as ([nm nt] & En & E). apply bind_Some in E as ([sym gs2] & E2 & E).
    eapply enterUnique_consistent in E2 as [Hco2 Hres]; [|done..]. apply finishStaticInit_same in E as [? _]; [|done]. by eapply consistent_same.
  - destruct Ha as ((o & Hw & Hl & Hp) & Hcap). pose proof Hl as [Ho _].
    destruct (mangleRename_renamed h gs what o origName Hco Hcap Hw Ho Hp) as (gs1 & name & nt & k & E1 & <- & Hrn & _ & Hnm).
    rewrite E in E1. injection E1 as <-. pose proof (nm_interned _ _ _ _ _ _ _ Hnm) as (Hwf & _ & Hin & Hmono & _).
    eapply consistent_renamed; [done|done|done| |by eexists|done|done|done|by eapply unique_plain|apply (nm_free _ _ _ _ _ _ _ Hnm)].
    intros m [d Hd]. exists d. by apply Hmono.
  - destruct Ha as (o & n & Hw & Hl & Hp). pose proof Hl as [Ho _]. destruct (deleteMethod_deleted h gs what o n Hco Hw Ho Hp) as (gs1 & E1 & Hd).
    rewrite E in E1. injection E1 as <-. by eapply consistent_deleted.
  - destruct Ha as (o & n & Hw & Hl & Hp). pose proof Hl as [Ho _]. destruct (deleteField_deleted h gs what o n Hco Hw Ho Hp) as (gs1 & E1 & Hd).
    rewrite E in E1. injection E1 as <-. by eapply consistent_deleted.
  - destruct Ha as (o & n & Hw & Hl & Hp). pose proof Hl as [Ho _]. destruct (deleteTypeMember_deleted h gs what o n Hco Hw Hl Hp) as (gs1 & E1 & Hd).
    rewrite E in E1. injection E1 as <-. by eapply consistent_deleted.
Qed.
End Operations.

(** ** Entering again *)

(** The functions that enter a member, by its kind *)
Definition enterSymbol (en : EntryNames) (kd : SymbolKind) (loc : Loc) (o n : Z) (gs : GlobalState) : option (Z * GlobalState) :=
  match kd with
  | KClassOrModule => enterClassOrModuleSymbol en loc o n gs
  | KMethod => enterMethodSymbol loc o n loc gs
  | KFieldOrStaticField => enterFieldSymbol loc o n gs
  | KTypeMember => enterTypeMember loc o n Invariant gs
  | KTypeParameter => enterTypeParameter loc o n Invariant gs
  end.

(** A symbol that its owner lists is not entered twice. *)
Lemma reenter en kd loc o n gs i : kd <> KTypeParameter -> 0 < i < 2 ^ 29 -> is_Some (place gs KClassOrModule o) ->
  member gs o n = Some (makeSymbolRef kd i) -> enterSymbol en kd loc o n gs = Some (i, gs).
Proof.
  intros Hkd Hi Hown Hm. destruct (class_there _ _ Hown) as [c Hc]. destruct (memberOf_member gs o c n Hc) as [He Hmem].
  rewrite Hm in He. cbn [from_option] in He. rewrite ref_exists in He by lia. pose proof (Hmem He) as Hq. rewrite Hm in Hq. injection Hq as Hq.
  destruct kd; try done; cbn; unfold enterClassOrModuleSymbol, enterMethodSymbol, enterFieldSymbol, enterTypeMember;
    rewrite Hc; cbn [mbind option_bind]; rewrite He, <- Hq, makeSymbolRef_index by lia; done.
Qed.

Lemma enterSymbol_entered h en kd loc o n gs r gs' : Consistent h gs -> kd <> KTypeParameter -> live gs KClassOrModule o ->
  enterSymbol en kd loc o n gs = Some (r, gs') -> Entered kd o n gs r gs'.
Proof.
  intros Hco Hkd Hl E. pose proof Hl as (Ho & o' & n' & Hp & _). destruct kd; cbn in E; try done.
  - eapply enterClassOrModuleSymbol_entered; [lia|done].
  - destruct (enterMethodSymbol_entered loc o n loc gs) as (r1 & gs1 & E1 & He); [lia|by eexists|]. congruence.
  - destruct (enterFieldSymbol_entered loc o n gs) as (r1 & gs1 & E1 & He); [lia|by eexists|]. congruence.
  - by eapply enterTypeMember_entered.
Qed.

(** C4: entering a class, a method, a field or a type member under a name of its owner gives the symbol that the owner has
    under that name, or a new one at the end of its table; either way the table stays consistent, no other symbol changes
    its name or its owner, and entering the same name again gives the same symbol and changes nothing. Methods and fields
    can always be entered. *)
Theorem enterSymbol_correct h en kd loc o n gs : Consistent h gs -> Enterable gs kd o n -> kd <> KTypeParameter ->
  (forall sym, member gs o n = Some sym -> symbolKind sym = Some kd) ->
  (kd = KMethod \/ kd = KFieldOrStaticField -> is_Some (enterSymbol en kd loc o n gs)) /\
  forall r gs', enterSymbol en kd loc o n gs = Some (r, gs') ->
    Consistent h gs' /\ place gs' kd r = Some (o, n) /\
    (forall kd' j p, 0 <= j -> place gs kd' j = Some p -> place gs' kd' j = Some p) /\
    (place gs kd r = Some (o, n) /\ tableSize gs' kd = tableSize gs kd \/ r = tableSize gs kd /\ tableSize gs' kd = tableSize gs kd + 1) /\
    enterSymbol en kd loc o n gs' = Some (r, gs').
Proof.
  intros Hco Hen Hkd Hkind. pose proof (en_owner _ _ _ _ Hen) as Hl. assert (Hok : ownerKind kd = KClassOrModule) by (by destruct kd).
  rewrite Hok in Hl. pose proof Hl as (Ho & o' & n' & Hpo & _). split.
  { intros [->| ->]; cbn.
    - destruct (enterMethodSymbol_entered loc o n loc gs) as (r & gs' & E & _); [lia|by eexists|]. by rewrite E.
    - destruct (enterFieldSymbol_entered loc o n gs) as (r & gs' & E & _); [lia|by eexists|]. by rewrite E. }
  intros r gs' E. apply (enterSymbol_entered h) in E; [|done..]. pose proof (consistent_entered h kd o n gs r gs' Hco Hen Hkd E) as Hco'.
  split; [done|]. destruct E as [(sym & Hm & Hex & -> & Hsame)|[Hnone Hnew]].
  - pose proof Hm as (kd' & i & -> & Hi & Hkd' & Hp)%(co_member _ _ Hco); [|done|by apply (en_plain _ _ _ _ Hen)].
    pose proof Hp as Hb%(placed_bound h); [|done|lia]. specialize (Hkind _ Hm). rewrite makeSymbolRef_kind in Hkind by lia. injection Hkind as ->.
    rewrite makeSymbolRef_index by lia. pose proof (sv_symbols _ _ Hsame) as [_ _ Hsz Hpl]. rewrite Hpl. split_and!; [done| |by left; rewrite Hsz|].
    + intros. by rewrite Hpl.
    + apply reenter; [done|lia|rewrite Hpl; by eexists|]. rewrite (sv_member _ _ Hsame); [done|lia].
  - pose proof (ns_index _ _ _ _ _ _ Hnew) as Hr. pose proof (co_sizes _ _ Hco kd). pose proof (en_room _ _ _ _ Hen).
    split_and!.
    + rewrite (ns_place _ _ _ _ _ _ Hnew), decide_True by (done || lia). done.
    + intros kd' j p Hj Hp. by apply (new_place_old h kd r o n gs gs').
    + right. split; [done|]. by rewrite (ns_size _ _ _ _ _ _ Hnew), decide_True.
    + apply reenter; [done|lia| |].
      * exists (o', n'). apply (new_place_old h kd r o n gs gs'); [done..|lia|done].
      * rewrite (ns_member _ _ _ _ _ _ Hnew), decide_True by (done || lia). done.
Qed.

(** ** Runs *)

Definition opStep (en : EntryNames) (gs gs' : GlobalState) : Prop := exists op, allowed en gs op /\ performOp en op gs = Some gs'.

Lemma run_consistent h en gs gs' : Consistent h gs -> rtc (opStep en) gs gs' -> Consistent h gs'.
Proof. intros Hco Hrun. induction Hrun as [gs|gs gs1 gs' (op & Ha & E) _ IH]; [done|]. apply IH. by eapply performOp_consistent. Qed.

(** C2: any sequence of operations on the symbol table (entering symbols of all kinds, overloads, singleton classes and
    initializers, renaming and deleting) keeps it consistent, if the callers name existing owners and symbols. In
    particular every symbol that has not been deleted passes the sanity check of debug builds: its owner lists it under
    its name, and entering it again gives the same symbol. *)
Theorem symbol_table_consistent h en gs gs' : Consistent h gs -> rtc (opStep en) gs gs' ->
  Consistent h gs' /\
  forall kd i o n loc, 0 < i -> 0 < o -> listed kd i -> place gs' kd i = Some (o, n) ->
    findMemberNoDealias (g_symbols gs') o n = Some (makeSymbolRef kd i) /\ enterSymbol en kd loc o n gs' = Some (i, gs').
Proof.
  intros Hco Hrun. pose proof (run_consistent _ _ _ _ Hco Hrun) as Hco'. split; [done|]. intros kd i o n loc Hi Ho Hl Hp. destruct (co_listed _ _ Hco' kd i o n) as [_ Hm]; [done..|].
  pose proof Hp as Hb%(placed_bound h); [|done|lia]. pose proof Hp as [_ Hown]%(co_owner _ _ Hco'); [|done].
  assert (Hok : ownerKind kd = KClassOrModule) by (destruct Hl; by destruct kd). rewrite Hok in Hown. split.
  - unfold findMemberNoDealias. destruct (class_there _ _ Hown) as [c Hc]. unfold member in Hm. rewrite Hc in *. cbn in *. by rewrite Hm.
  - apply reenter; [apply Hl|lia|done|done].
Qed.

(** ** Renamed methods *)

Lemma lookupMangled_spec h gs name num : NameTable_wf h (nametable gs) ->
  exists raw, lookupNameUnique (nametable gs) MangleRename name num = Some raw /\
    ((raw <> noName /\ (raw, mangled name num) ∈ allNames (nametable gs)) \/
     (raw = noName /\ forall r, (r, mangled name num) ∉ allNames (nametable gs))).
Proof. intros Hwf. exact (lookup_spec h (nametable gs) (mangled name num) Hwf). Qed.

(** The search ends at the last of the numbers without a gap, if no larger number is in use. *)
Lemma lastRenamed_spec h gs name members sym (d : nat) : NameTable_wf h (nametable gs) -> forall u lookupName fuel,
  let k := u + Z.of_nat d in 0 <= u -> k + 1 < 2 ^ 32 -> (d < fuel)%nat ->
  (lookupName, mangled name u) ∈ allNames (nametable gs) ->
  (forall j, u <= j < k -> exists raw s, (raw, mangled name j) ∈ allNames (nametable gs) /\ members !! raw = Some s) ->
  (exists raw, (raw, mangled name k) ∈ allNames (nametable gs) /\ members !! raw = Some sym) ->
  (forall raw, (raw, mangled name (k + 1)) ∉ allNames (nametable gs)) ->
  lastRenamed gs name fuel members lookupName u = Some sym.
Proof.
  intros Hwf. induction d as [|d IH]; intros u lookupName fuel k Hu Hk Hf Hin Hall (raw & Hraw & Hs) Hend;
    (destruct fuel as [|fuel]; [lia|]); cbn [lastRenamed];
    destruct (lookupMangled_spec h gs name (u + 1) Hwf) as (next & En & Hcase); rewrite u32_id by (unfold is_u32; lia).
  - assert (lookupName = raw) as -> by (eapply (nodup_functional h _ (mangled name u)); [done|done|]; by replace u with k by lia).
    rewrite Hs, En. cbn [mbind option_bind]. destruct Hcase as [[_ H]|[-> _]]; [|done]. exfalso. apply (Hend next).
    by replace (k + 1) with (u + 1) by lia.
  - destruct (Hall u) as (raw0 & s0 & Hr0 & Hs0); [lia|].
    assert (lookupName = raw0) as -> by (by eapply (nodup_functional h _ (mangled name u))). rewrite Hs0, En. cbn [mbind option_bind].
    destruct Hcase as [[Hne H]|[_ Hno]].
    + rewrite (proj2 (Z.eqb_neq _ _) Hne). apply IH; [lia|lia|lia|done|..].
      * intros j Hj. apply Hall. lia.
      * replace (u + 1 + Z.of_nat d) with k by lia. by exists raw.
      * by replace (u + 1 + Z.of_nat d) with k by lia.
    + exfalso. destruct (decide (u + 1 < k)) as [Hlt|].
      * destruct (Hall (u + 1)) as (r & _ & Hr & _); [lia|]. by apply (Hno r).
      * apply (Hno raw). by replace (u + 1) with k by lia.
Qed.

Lemma findRenamed_last h gs o n r sym k : Consistent h gs -> 0 < o -> 0 < r -> place gs KMethod r = Some (o, n) -> nameKind n <> Some UNIQUE ->
  1 <= k -> k + 1 < 2 ^ 32 -> (forall j, 1 <= j <= k -> taken gs o n j) ->
  (exists raw, (raw, mangled n k) ∈ allNames (nametable gs) /\ member gs o raw = Some sym) ->
  (forall raw, (raw, mangled n (k + 1)) ∉ allNames (nametable gs)) ->
  findRenamedSymbol gs o (makeSymbolRef KMethod r) = Some sym.
Proof.
  intros Hco Ho Hr Hp Hn Hk Hk2 Hall Hlast Hend. pose proof Hp as [_ Hown]%(co_owner _ _ Hco); [|done]. cbn [ownerKind] in Hown.
  destruct (class_there _ _ Hown) as [c Hc]. pose proof Hp as Hb%(placed_bound h); [|done|lia].
  assert (Hmem : forall m, cm_members c !! m = member gs o m) by (intros m; unfold member; by rewrite Hc).
  unfold findRenamedSymbol. assert (Hname : symbolName (g_symbols gs) (makeSymbolRef KMethod r) = Some n).
  { unfold symbolName. rewrite makeSymbolRef_kind, makeSymbolRef_index by lia. apply data_placed in Hp as (m & -> & [= _ <-]). done. }
  rewrite Hname, Hc. cbn [mbind option_bind].
  assert (Hgoal : (lookupName ← lookupNameUnique (nametable gs) MangleRename n 1;
    lastRenamed gs n (S (size (cm_members c))) (cm_members c) lookupName 1) = Some sym); [|by destruct (nameKind n) as [[]|]].
  destruct (lookupMangled_spec h gs n 1 (co_names _ _ Hco)) as (l1 & -> & Hcase). cbn [mbind option_bind].
  destruct (Hall 1) as (r1 & Hr1 & _); [lia|]. destruct Hcase as [[_ Hl1]|[_ Hno]]; [|by destruct (Hno r1)].
  destruct (taken_bound h gs o n (Z.to_nat k) (cm_members c) Hco) as [Hsz _].
  { intros raw. by rewrite Hmem. }
  { intros j Hj. apply Hall. lia. }
  apply (lastRenamed_spec h gs n (cm_members c) sym (Z.to_nat (k - 1)) (co_names _ _ Hco)); [lia|lia|lia|done|..].
  - intros j Hj. destruct (Hall j) as (raw & Hraw & [s Hs]); [lia|]. exists raw, s. by rewrite Hmem.
  - destruct Hlast as (raw & Hraw & Hs). exists raw. rewrite Hmem. by replace (1 + Z.of_nat (Z.to_nat (k - 1))) with k by lia.
  - by replace (1 + Z.of_nat (Z.to_nat (k - 1))) with k by lia.
Qed.

(** Entering a name adds at most one to the table. *)
Lemma interned_length h nt d raw nt' : interned h nt d raw nt' -> (length (allNames nt') <= S (length (allNames nt)))%nat.
Proof.
  intros (Hwf & _ & _ & _ & Hnew & _). change (S (length (allNames nt))) with (length ((raw, d) :: allNames nt)).
  apply submseteq_length, NoDup_submseteq; [eapply NoDup_fmap_1, (nt_nodup _ _ Hwf)|].
  intros [r d'] Hin. destruct (Hnew r d' Hin) as [?| ->]; set_solver.
Qed.

(** After a renaming all numbers up to the new one are in use. *)
Lemma taken_all h gs gs2 o n name k : NameTable_wf h (nametable gs2) -> nameKind n <> Some UNIQUE ->
  (forall r d, (r, d) ∈ allNames (nametable gs) -> (r, d) ∈ allNames (nametable gs2)) -> (forall j, 1 <= j < k -> taken gs o n j) ->
  (name, mangled n k) ∈ allNames (nametable gs2) -> is_Some (member gs2 o name) ->
  (forall raw, raw <> name -> raw <> n -> member gs2 o raw = member gs o raw) -> forall j, 1 <= j <= k -> taken gs2 o n j.
Proof.
  intros Hwf Hn Hmono Htaken Hin Hname Hmem j Hj. destruct (decide (j = k)) as [->|Hjk]; [by exists name|].
  destruct (Htaken j) as (raw & Hraw%Hmono & Hsome); [lia|]. exists raw. split; [done|]. rewrite Hmem; [done| |].
  - intros ->. assert (E : mangled n j = mangled n k) by (eapply (allNames_functional _ name); eauto). injection E as E. lia.
  - intros ->. by apply (unique_kind h) in Hraw.
Qed.

(** C3: renaming a method makes room for another one of the same name. It always succeeds, its loop ends at the first
    number whose mangled name the owner does not use, the method keeps its reference and its owner, and the name is
    free: entering it again gives a new method. The method that was renamed is found from the new one, if no class
    uses the mangled name with the next number. *)
Theorem mangleRename_correct h gs what o n loc nameLoc : Consistent h gs -> ownedBy gs KMethod what o n ->
  capacities (nametable gs) <= 2 ^ 29 -> tableSize gs KMethod + 1 < 2 ^ 29 -> nameKind n <> Some UNIQUE ->
  exists gs1 name k, mangleRenameMethod what n gs = Some gs1 /\ Consistent h gs1 /\
    place gs1 KMethod what = Some (o, name) /\ (name, mangled n k) ∈ allNames (nametable gs1) /\
    member gs o name = None /\ (forall j, 1 <= j < k -> taken gs o n j) /\
    exists r gs2, enterMethodSymbol loc o n nameLoc gs1 = Some (r, gs2) /\ Consistent h gs2 /\ r = tableSize gs KMethod /\
      place gs2 KMethod r = Some (o, n) /\ place gs2 KMethod what = Some (o, name) /\
      ((forall raw, (raw, mangled n (k + 1)) ∉ allNames (nametable gs2)) ->
       findRenamedSymbol gs2 o (makeSymbolRef KMethod r) = Some (makeSymbolRef KMethod what)).
Proof.
  intros Hco (Hw & Hl & Hp) Hcap Hroom Hn. pose proof Hl as (Ho & o' & n' & Hpo & Ho').
  destruct (mangleRename_renamed h gs what o n Hco Hcap Hw Ho Hp) as (gs1 & name & nt & k & E1 & Hnt & Hrn & Hset & Hnm).
  pose proof Hnm as [Hk Hint Hfree Htaken _]. rewrite <- Hnt in Hint. pose proof Hint as (Hwf & _ & Hin & Hmono & Hnew & _).
  pose proof Hrn as [R1 R2 R3 R4 R5 R6].
  assert (Hpl : plain (wellKnown gs) name) by (by eapply unique_plain).
  destruct (co_listed _ _ Hco KMethod what o n) as [Hpn Hmn]; [done|done|by split|done|].
  assert (Hne : name <> n) by (intros ->; by rewrite Hfree in Hmn).
  assert (Hnamed : forall m, named gs m -> named gs1 m) by (intros m [d Hd]; exists d; by apply Hmono).
  assert (Hco1 : Consistent h gs1) by (eapply consistent_renamed; try done; by eexists).
  assert (Hp1 : place gs1 KMethod what = Some (o, name)) by (by rewrite R3, decide_True by (done || lia)).
  assert (Hm1 : member gs1 o n = None) by (rewrite R4, decide_False, decide_True by (congruence || lia); done).
  assert (Hpo1 : place gs1 KClassOrModule o = Some (o', n')) by (rewrite R3, decide_False by (done || lia); done).
  exists gs1, name, k. split_and!; try done.
  destruct (enterMethodSymbol_entered loc o n nameLoc gs1) as (r & gs2 & E2 & He); [lia|by eexists|].
  assert (Hen : Enterable gs1 KMethod o n).
  { split; [split; [done|by exists o', n']|apply Hnamed; by eapply (co_named _ _ Hco) in Hp; [|lia]|intros _; by rewrite R1|by rewrite R2|done]. }
  pose proof (consistent_entered h _ _ _ _ _ _ Hco1 Hen ltac:(done) He) as Hco2.
  destruct He as [(sym & Hm & _)|[_ Hns]]; [by rewrite Hm1 in Hm|]. pose proof (ns_index _ _ _ _ _ _ Hns) as Hr. rewrite R2 in Hr.
  assert (Hr0 : 0 < r) by (pose proof (co_sizes _ _ Hco KMethod); lia).
  assert (Hpr : place gs2 KMethod r = Some (o, n)) by (rewrite (ns_place _ _ _ _ _ _ Hns), decide_True by (done || lia); done).
  assert (Hpw : place gs2 KMethod what = Some (o, name)).
  { apply (new_place_old h KMethod r o n gs1 gs2); [done|done|by rewrite R2|lia|done]. }
  assert (Hmem2 : forall m, m <> n -> member gs2 o m = member gs1 o m).
  { intros m Hmn'. rewrite (ns_member _ _ _ _ _ _ Hns), decide_False by (lia || (intros [_ [=]]; done)). done. }
  pose proof (ns_names _ _ _ _ _ _ Hns) as Hnt2. exists r, gs2. split_and!; try done.
  assert (Hmw : member gs2 o name = Some (makeSymbolRef KMethod what)) by (rewrite Hmem2 by done; rewrite R4, decide_True by (done || lia); done).
  assert (Hall : forall j, 1 <= j <= k -> taken gs2 o n j).
  { apply (taken_all h gs gs2 o n name k); rewrite ?Hnt2; try done. intros raw Hr1 Hr2. rewrite Hmem2 by done. rewrite R4, !decide_False by (congruence || lia). done. }
  intros Hend. eapply (findRenamed_last h gs2 o n r _ k); try done; [lia| |exists name; rewrite Hnt2; done].
  destruct (taken_bound h gs2 o n (Z.to_nat k) (from_option cm_members ∅ (classData (g_symbols gs2) o)) Hco2) as [_ Hle].
  { intros raw. unfold member. by destruct (classData _ o). }
  { intros j Hj. apply Hall. lia. }
  rewrite Hnt2 in Hle. pose proof (allNames_capacity h _ (co_names _ _ Hco)).
  pose proof (interned_length _ _ _ _ _ Hint). lia.
Qed.


(** ** Examples *)

Definition nowhere : Loc := noLoc 0.

(** The state after operations *)
Definition after (ops : list SymbolOp) : GlobalState :=
  default sampleState (foldM (fun gs op => performOp sampleEntryNames op gs) sampleState ops).

Ltac is_named := eexists; apply list_elem_of_In; vm_compute; eauto 40.

Ltac is_live := split; [done|do 2 eexists; split; [vm_compute; reflexivity|done]].

Ltac enterable := split; [is_live|is_named|intros _; vm_compute; done|vm_compute; reflexivity|intros ?; first [discriminate|vm_compute; reflexivity]].

Ltac is_owned := split; [done|apply and_comm; split; [vm_compute; reflexivity|is_live]].

(** The class [A] has had three methods [foo], the class [B] two. *)
Definition renames : list SymbolOp :=
  [EnterClass nowhere root constantA; EnterClass nowhere root constantB; EnterMethod nowhere 4 foo nowhere; Rename 1 foo;
   EnterMethod nowhere 4 foo nowhere; Rename 2 foo; EnterMethod nowhere 4 foo nowhere; EnterMethod nowhere 5 foo nowhere;
   Rename 4 foo; EnterMethod nowhere 5 foo nowhere].

(** Symbols of the other kinds, some of them deleted again *)
Definition edits : list SymbolOp :=
  [EnterClass nowhere root constantA; EnterSingleton 4; EnterMethod nowhere 5 foo nowhere; EnterTypeParameter nowhere 1 bar Invariant;
   EnterField nowhere 4 bar; EnterTypeMember nowhere 4 constantB CoVariant; DeleteMethod 1; DeleteField 1; DeleteTypeMember 2;
   EnterMethod nowhere 4 foo nowhere].

Lemma after_steps ops : is_Some (foldM (fun gs op => performOp sampleEntryNames op gs) sampleState ops) ->
  (forall i op, ops !! i = Some op -> allowed sampleEntryNames (after (take i ops)) op) -> rtc (opStep sampleEntryNames) sampleState (after ops).
Proof.
  induction ops as [|op ops IH] using rev_ind; intros Hrun Hall; [done|]. unfold after. pose proof Hrun as Hrun'. rewrite foldM_app in Hrun'.
  destruct (foldM _ _ ops) as [gs|] eqn:E; [|by destruct Hrun']. cbn in Hrun'. destruct Hrun' as [gs' E'].
  rewrite foldM_app, E. cbn. rewrite E'. cbn. apply bind_Some in E' as (gs1 & E' & [= ->]).
  assert (H : after ops = gs) by (unfold after; by rewrite E). rewrite H in IH. eapply rtc_r.
  - apply IH; [by eexists|].
    intros i op' Hi. pose proof (lookup_lt_Some _ _ _ Hi). specialize (Hall i op'). rewrite take_app_le in Hall by lia. apply Hall.
    by apply lookup_app_l_Some.
  - exists op. split; [|done]. specialize (Hall (length ops) op). rewrite take_app_length, lookup_app_r, Nat.sub_diag in Hall by done.
    rewrite <- H. by apply Hall.
Qed.

Lemma renames_run : rtc (opStep sampleEntryNames) sampleState (after renames).
Proof.
  apply after_steps; [vm_compute; by eexists|]. intros i op Hi.
  do 10 (destruct i as [|i]; [injection Hi as <-; cbn [take renames allowed]; first [enterable|split; [eexists; is_owned|vm_compute; done]]|]).
  done.
Qed.

Lemma edits_run : rtc (opStep sampleEntryNames) sampleState (after edits).
Proof.
  apply after_steps; [vm_compute; by eexists|]. intros i op Hi. destruct i as [|[|i]]; [injection Hi as <-; cbn [take edits allowed]..|].
  - enterable.
  - split_and!; [done|vm_compute; done|is_named|vm_compute; done..|]. do 2 eexists. split_and!; [done| |vm_compute; reflexivity|]; [done|].
    intros nm Hnm. apply list_elem_of_In in Hnm. vm_compute in Hnm. naive_solver.
  - do 8 (destruct i as [|i]; [injection Hi as <-; cbn [take edits allowed]; first [enterable|do 2 eexists; is_owned]|]). done.
Qed.

Lemma enterSymbol_correct_witness : exists gs', enterSymbol sampleEntryNames KMethod nowhere root foo sampleState = Some (1, gs') /\
  enterSymbol sampleEntryNames KMethod nowhere root foo gs' = Some (1, gs').
Proof.
  destruct (enterSymbol_correct sampleHash sampleEntryNames KMethod nowhere root foo sampleState) as [[[r gs'] E] Hall];
    [exact sampleState_consistent|enterable|done|intros sym H; by rewrite sample_member in H|by left|].
  destruct (Hall r gs' E) as (_ & _ & _ & [[H _]|[-> _]] & Hagain).
  - apply sample_place in H; [destruct H as (_ & [=] & _)|]. destruct (Z.le_gt_cases 0 r); [done|]. exfalso.
    enough (r = 1) by lia. vm_compute in E. by injection E as <-.
  - exists gs'. split; [exact E|exact Hagain].
Defined.

Lemma symbol_table_consistent_witness : Consistent sampleHash (after edits) /\
  findMemberNoDealias (g_symbols (after edits)) 4 foo = Some (makeSymbolRef KMethod 2).
Proof.
  destruct (symbol_table_consistent sampleHash sampleEntryNames sampleState (after edits) sampleState_consistent edits_run) as [Hco H].
  split; [exact Hco|]. apply (H KMethod 2 4 foo nowhere); [done|done|done|vm_compute; reflexivity].
Defined.

Definition oneMethod : list SymbolOp := [EnterClass nowhere root constantA; EnterMethod nowhere 4 foo nowhere].

Lemma oneMethod_run : rtc (opStep sampleEntryNames) sampleState (after oneMethod).
Proof.
  apply after_steps; [vm_compute; by eexists|]. intros i op Hi.
  do 2 (destruct i as [|i]; [injection Hi as <-; cbn [take oneMethod allowed]; enterable|]). done.
Qed.

Lemma mangleRename_correct_witness : exists gs1 gs2, mangleRenameMethod 1 foo (after oneMethod) = Some gs1 /\
  enterMethodSymbol nowhere 4 foo nowhere gs1 = Some (2, gs2) /\
  findRenamedSymbol gs2 4 (makeSymbolRef KMethod 2) = Some (makeSymbolRef KMethod 1).
Proof.
  destruct (mangleRename_correct sampleHash (after oneMethod) 1 4 foo nowhere nowhere)
    as (gs1 & name & k & E1 & _ & _ & Hname & _ & _ & r & gs2 & E2 & _ & Hr & _ & _ & Hfind);
    [exact (run_consistent _ _ _ _ sampleState_consistent oneMethod_run)|is_owned|vm_compute; done|vm_compute; done|done|].
  vm_compute in Hr. subst r. exists gs1, gs2. split; [exact E1|]. split; [exact E2|]. apply Hfind. intros raw Hraw.
  vm_compute in E1. injection E1 as <-. vm_compute in E2. injection E2 as <-.
  apply list_elem_of_In in Hname, Hraw. vm_compute in Hraw, Hname. naive_solver.
Defined.

(** The comment of [findRenamedSymbol] says that a method without a mangled name replaced the one whose mangled name
    has the largest number, if there is one. The loop asks the name table for the next number, not the class, and so
    it can miss that method: here the class [B] has a method under the mangled name [foo] with number 1, which its present
    method [foo] replaced, but because another class uses the number 2 nothing is found. *)
Theorem findRenamedSymbol_misses : exists gs name, rtc (opStep sampleEntryNames) sampleState gs /\
  dataUnique (nametable gs) name = Some (mkUniqueName foo 1 MangleRename) /\
  place gs KMethod 4 = Some (5, name) /\ member gs 5 name = Some (makeSymbolRef KMethod 4) /\ place gs KMethod 5 = Some (5, foo) /\
  findRenamedSymbol gs 5 (makeSymbolRef KMethod 5) = Some noSymbol.
Proof.
  exists (after renames), (makeNameRef UNIQUE 0). split; [exact renames_run|]. split_and!; vm_compute; reflexivity.
Qed.
