(* ===== verification/Linearize.v ===== *)
(** * Ancestors of classes and modules

    Models the linearization of the class hierarchy ([maybeAddMixin], [computeClassLinearization],
    [fullLinearizationSlow] and [GlobalState::computeLinearization] of src/core/GlobalState.cc) and what
    src/core/Symbols.cc builds on it: [derivesFrom], [addMixin], and the lookup of members in
    ancestors. The classes are the vector of the symbol table, which linearization updates in place.
    [None] stands for a read outside the table, a raised exception, or an exhausted fuel. *)

From S2P Require Import Prelude Pickler FileHash Files Locs Types NameTable NameText Symbols SymbolRefs.

#[local] Open Scope Z_scope.

(** ** Well-known classes *)

Definition BasicObject : Z := 20.

Definition classStubModule : Z := 43.

Definition PlaceholderMixin : Z := 45.

Definition StubSuperClass : Z := 46.

(** ** Operations *)

Abbreviation Classes := (list ClassOrModule).

Definition classAt (cs : Classes) (klass : Z) : option ClassOrModule := cs !! Z.to_nat klass.

Definition set_mixins (mixins : list Z) (c : ClassOrModule) : ClassOrModule :=
  mkClassOrModule (cm_packageRegistryOwner c) (cm_package c) (cm_owner c) (cm_name c) (cm_superClass c)
    (cm_flags c) mixins (cm_typeParams c) (cm_members c) (cm_resultType c) (cm_locs c).

Definition set_linearizationComputed (b : bool) (c : ClassOrModule) : ClassOrModule :=
  let f := cm_flags c in
  mkClassOrModule (cm_packageRegistryOwner c) (cm_package c) (cm_owner c) (cm_name c) (cm_superClass c)
    (mkClassFlags (cf_isClass f) (cf_isModule f) (cf_isAbstract f) (cf_isInterface f) b (cf_isFinal f)
       (cf_isSealed f) (cf_isPrivate f) (cf_isDeclared f) (cf_isDeclaredInPackage f) (cf_isExported f)
       (cf_isBehaviorDefining f))
    (cm_mixins c) (cm_typeParams c) (cm_members c) (cm_resultType c) (cm_locs c).

Definition isLinearizationComputed (c : ClassOrModule) : bool := cf_isLinearizationComputed (cm_flags c).

Definition isModule (c : ClassOrModule) : bool := cf_isModule (cm_flags c).

Definition isClassModuleSet (c : ClassOrModule) : bool := cf_isClass (cm_flags c) || cf_isModule (cm_flags c).

Fixpoint derivesFrom (fuel : nat) (cs : Classes) (klass sym : Z) : option bool :=
  match fuel with
  | O => None
  | S fuel =>
      data ← classAt cs klass;
      inMixins ← existsM (fun a => if a =? sym then Some true
                                   else if isLinearizationComputed data then Some false
                                   else derivesFrom fuel cs a sym) (cm_mixins data);
      if (inMixins : bool) then Some true
      else if cm_superClass data =? 0 then Some false
      else if sym =? cm_superClass data then Some true
      else derivesFrom fuel cs (cm_superClass data) sym
  end.

(** [std::find]: the index of the first occurrence *)
Fixpoint find_index (x : Z) (l : list Z) : option nat :=
  match l with [] => None | y :: l => if y =? x then Some O else S <$> find_index x l end.

(** The list of mixins with [mixin], and the position behind it *)
Definition maybeAddMixin (fuel : nat) (cs : Classes) (forSym mixin parent : Z) (st : list Z * nat)
    : option (list Z * nat) :=
  let '(mixinList, pos) := st in
  if forSym =? mixin then None
  else
    derived ← derivesFrom fuel cs parent mixin;
    if (derived : bool) then Some (mixinList, pos)
    else
      match find_index mixin mixinList with
      | Some newPos => Some (mixinList, if (pos <=? newPos)%nat then (newPos + 1)%nat else pos)
      | None => Some (take pos mixinList ++ mixin :: drop pos mixinList, (pos + 1)%nat)
      end.

Fixpoint computeClassLinearization (fuel : nat) (cs : Classes) (ofClass : Z) : option Classes :=
  match fuel with
  | O => None
  | S fuel =>
      data ← classAt cs ofClass;
      if isLinearizationComputed data then Some cs
      else
        cs ← (if cm_superClass data =? 0 then Some cs
              else computeClassLinearization fuel cs (cm_superClass data));
        data ← classAt cs ofClass;
        '(cs, newMixins) ← foldM (addMixinsOf fuel ofClass (cm_superClass data)) (cs, []) (cm_mixins data);
        data ← classAt cs ofClass;
        Some (<[Z.to_nat ofClass := set_linearizationComputed true (set_mixins newMixins data)]> cs)
  end
(** The body of the loop over the mixins of a class *)
with addMixinsOf (fuel : nat) (ofClass superClass : Z) (st : Classes * list Z) (mixin : Z)
    : option (Classes * list Z) :=
  match fuel with
  | O => None
  | S fuel =>
      let '(cs, newMixins) := st in
      if mixin =? superClass then Some (cs, newMixins)
      else
        m ← classAt cs mixin;
        if (cm_superClass m =? StubSuperClass) || (cm_superClass m =? classStubModule)
        then Some (cs, newMixins ++ [mixin])
        else
          cs ← computeClassLinearization fuel cs mixin;
          m ← classAt cs mixin;
          if negb (isModule m) then
            '(cs, allMixins) ← fullLinearizationSlowImpl fuel mixin (cs, []);
            Some (cs, allMixins ++ newMixins)
          else
            '(newMixins, _) ←
              foldM (fun st mixin => maybeAddMixin fuel cs ofClass mixin superClass st) (newMixins, O)
                (mixin :: cm_mixins m);
            Some (cs, newMixins)
  end
with fullLinearizationSlowImpl (fuel : nat) (klass : Z) (st : Classes * list Z) : option (Classes * list Z) :=
  match fuel with
  | O => None
  | S fuel =>
      let '(cs, acc) := st in
      info ← classAt cs klass;
      st ← foldM (fun (st : Classes * list Z) m =>
                    let '(cs, acc) := st in
                    if bool_decide (m ∈ acc) then Some st
                    else
                      data ← classAt cs m;
                      if isModule data then Some (cs, acc ++ [m])
                      else
                        cs ← computeClassLinearization fuel cs m;
                        fullLinearizationSlowImpl fuel m (cs, acc))
             (cs, acc ++ [klass]) (cm_mixins info);
      let '(cs, acc) := st in
      if (cm_superClass info =? 0) || bool_decide (cm_superClass info ∈ acc) then Some (cs, acc)
      else
        cs ← computeClassLinearization fuel cs (cm_superClass info);
        fullLinearizationSlowImpl fuel (cm_superClass info) (cs, acc)
  end.

(** [newClassOrModules()] is the argument [refs]. *)
Definition computeLinearization (fuel : nat) (cs : Classes) (refs : list Z) : option Classes :=
  foldM (computeClassLinearization fuel) cs refs.

(** [ClassOrModule::addMixinAt] *)
Definition addMixinAt (sym : Z) (index : option nat) (c : ClassOrModule) : option ClassOrModule :=
  match index with
  | Some i =>
      if (i <? length (cm_mixins c))%nat then Some (set_mixins (<[i := sym]> (cm_mixins c)) c) else None
  | None => Some (set_mixins (cm_mixins c ++ [sym]) c)
  end.

(** [ClassOrModule::addMixin], with the table in which the class was changed *)
Definition addMixin (fuel : nat) (cs : Classes) (klass sym : Z) (index : option nat) : option (bool * Classes) :=
  c ← classAt cs klass;
  s ← classAt cs sym;
  let isValidMixin := negb (isClassModuleSet s) || isModule s || (sym =? BasicObject) in
  c' ← (if negb (isLinearizationComputed c) then addMixinAt sym index c
        else if negb (sym =? cm_superClass c) && negb (bool_decide (sym ∈ cm_mixins c)) then
          derived ← (if cm_superClass c =? 0 then Some false else derivesFrom fuel cs (cm_superClass c) sym);
          if (derived : bool) then Some c
          else c ← addMixinAt sym index c; Some (set_linearizationComputed false c)
        else Some c);
  Some (isValidMixin, <[Z.to_nat klass := c']> cs).

(** [ClassOrModule::addMixinPlaceholder] *)
Definition addMixinPlaceholder (c : ClassOrModule) : Z * ClassOrModule :=
  (u16 (Z.of_nat (length (cm_mixins c ++ [PlaceholderMixin])) - 1),
   set_mixins (cm_mixins c ++ [PlaceholderMixin]) c).

Section Lookup.
Context (gs : Symbolic).

Definition findMemberMaybeDealias (dealias : bool) (klass name : Z) : option Z :=
  if dealias then findMember gs klass name else findMemberNoDealias gs klass name.

(** The first result of a search that exists *)
Fixpoint firstExisting (f : Z -> option Z) (l : list Z) : option Z :=
  match l with
  | [] => Some noSymbol
  | x :: l => result ← f x; if symbol_exists result then Some result else firstExisting f l
  end.

(** [rec] is the lookup with one level less. *)
Definition findParentMemberTransitiveInternal (rec : Z -> option Z) (dealias : bool) (klass name : Z) : option Z :=
  data ← classData gs klass;
  result ← (if isLinearizationComputed data
            then firstExisting (fun m => findMemberMaybeDealias dealias m name) (cm_mixins data)
            else firstExisting rec (rev (cm_mixins data)));
  if symbol_exists result then Some result
  else if cm_superClass data =? 0 then Some noSymbol
  else rec (cm_superClass data).

(** [maxDepth] is the source's own bound on the recursion, whose end raises an exception. *)
Fixpoint findMemberTransitiveInternal (maxDepth : nat) (dealias : bool) (klass name : Z) : option Z :=
  match maxDepth with
  | O => None
  | S depth =>
      result ← findMemberMaybeDealias dealias klass name;
      if symbol_exists result then Some result
      else findParentMemberTransitiveInternal
             (fun parent => findMemberTransitiveInternal depth dealias parent name) dealias klass name
  end.

Definition findMemberTransitive (klass name : Z) : option Z := findMemberTransitiveInternal 100 true klass name.

Definition findMemberTransitiveNoDealias (klass name : Z) : option Z :=
  findMemberTransitiveInternal 100 false klass name.

Definition asMethod (sym : Z) : Z := if symbol_exists sym && isMethod sym then symbolIndex sym else 0.

Definition findMethodTransitive (klass name : Z) : option Z := asMethod <$> findMemberTransitive klass name.

Definition findParentMethodTransitive (klass name : Z) : option Z :=
  asMethod <$> findParentMemberTransitiveInternal
    (fun parent => findMemberTransitiveInternal 99 true parent name) true klass name.

(** [findConcreteMethodTransitiveInternal]. The overload of a mixin's method is looked up in [owner]. *)
Definition concreteIn (owner klass name : Z) : option Z :=
  result ← findMethod gs klass name;
  result ← (if result =? 0 then Some result
            else
              m ← methodData gs result;
              if mf_isOverloaded (me_flags m) then
                overloadName ← lookupNameUnique (sy_names gs) NameTable.Overload name 1;
                findMethod gs owner overloadName
              else Some result);
  if result =? 0 then Some 0
  else m ← methodData gs result; Some (if mf_isAbstract (me_flags m) then 0 else result).

Fixpoint firstConcrete (f : Z -> option Z) (l : list Z) : option Z :=
  match l with
  | [] => Some 0
  | x :: l => result ← f x; if result =? 0 then firstConcrete f l else Some result
  end.

Fixpoint findConcreteMethodTransitiveInternal (maxDepth : nat) (owner name : Z) : option Z :=
  match maxDepth with
  | O => None
  | S depth =>
      data ← classData gs owner;
      result ← firstConcrete (fun klass => concreteIn owner klass name) (owner :: cm_mixins data);
      if negb (result =? 0) then Some result
      else if cm_superClass data =? 0 then Some 0
      else findConcreteMethodTransitiveInternal depth (cm_superClass data) name
  end.

Definition findConcreteMethodTransitive (klass name : Z) : option Z :=
  findConcreteMethodTransitiveInternal 100 klass name.
End Lookup.

(** ** Specification

    What the ancestors of a class are, before anything is linearized *)

(** [s] is mixed into [c], directly or through other mixins. *)
Inductive included (cs : Classes) : Z -> Z -> Prop :=
| included_mixin c data m : classAt cs c = Some data -> m ∈ cm_mixins data -> included cs c m
| included_trans c data m s :
    classAt cs c = Some data -> m ∈ cm_mixins data -> included cs m s -> included cs c s.

(** [s] is a superclass of [c], or is mixed into [c] or one of its superclasses. *)
Inductive descends (cs : Classes) : Z -> Z -> Prop :=
| descends_included c s : included cs c s -> descends cs c s
| descends_super c data :
    classAt cs c = Some data -> cm_superClass data <> 0 -> descends cs c (cm_superClass data)
| descends_trans c data s :
    classAt cs c = Some data -> cm_superClass data <> 0 -> descends cs (cm_superClass data) s -> descends cs c s.

(** A hierarchy as the resolver leaves it: references are valid, there are no cycles, only modules are
    mixed in, their superclasses were found, and no module is an ancestor of the superclass of a
    module. Index 0 is the class that does not exist. *)
Record hierarchy (cs : Classes) (rank : Z -> nat) : Prop := {
  h_none : exists d, classAt cs 0 = Some d /\ cm_mixins d = [] /\ cm_superClass d = 0;
  h_refs c d : classAt cs c = Some d -> 0 <= cm_superClass d /\ is_Some (classAt cs (cm_superClass d)) /\
    forall m, m ∈ cm_mixins d -> 0 < m /\ is_Some (classAt cs m);
  h_rank c d : classAt cs c = Some d -> (cm_superClass d <> 0 -> (rank (cm_superClass d) < rank c)%nat) /\
    forall m, m ∈ cm_mixins d -> (rank m < rank c)%nat;
  h_modules c d m : classAt cs c = Some d -> m ∈ cm_mixins d ->
    exists dm, classAt cs m = Some dm /\ isModule dm = true /\ cm_superClass dm <> StubSuperClass /\
      cm_superClass dm <> classStubModule;
  h_module_super c d s ds : classAt cs c = Some d -> isModule d = true -> cm_superClass d <> 0 ->
    s = cm_superClass d \/ descends cs (cm_superClass d) s -> classAt cs s = Some ds -> isModule ds = false }.

(** What [derivesFrom] reads off classes that are linearized *)
Inductive above (cs : Classes) : Z -> Z -> Prop :=
| above_mixin c data s : classAt cs c = Some data -> s ∈ cm_mixins data -> above cs c s
| above_super c data :
    classAt cs c = Some data -> cm_superClass data <> 0 -> above cs c (cm_superClass data)
| above_trans c data s :
    classAt cs c = Some data -> cm_superClass data <> 0 -> above cs (cm_superClass data) s -> above cs c s.

(** Above the superclass of a class with this data *)
Definition above_super_of (cs : Classes) (d : ClassOrModule) (s : Z) : Prop :=
  cm_superClass d <> 0 /\ (s = cm_superClass d \/ above cs (cm_superClass d) s).

Definition flagged (cs : Classes) (c : Z) : Prop :=
  exists d, classAt cs c = Some d /\ isLinearizationComputed d = true.

(** A class whose mixins are linearized: each of them is mixed in, none occurs twice, and everything
    that is mixed in is one of them or above the superclass. *)
Record linearized (cs0 cs : Classes) (c : Z) (d : ClassOrModule) : Prop := {
  lin_super : cm_superClass d <> 0 -> flagged cs (cm_superClass d);
  lin_nodup : NoDup (cm_mixins d);
  lin_sound s : s ∈ cm_mixins d -> included cs0 c s;
  lin_complete s : included cs0 c s -> s ∈ cm_mixins d \/ above_super_of cs d s }.

(** [d] is [d0] except for the linearization. *)
Definition relinearized (d0 d : ClassOrModule) : Prop :=
  d = set_linearizationComputed (isLinearizationComputed d) (set_mixins (cm_mixins d) d0).

Definition consistent (cs0 cs : Classes) (c : Z) (d0 d : ClassOrModule) : Prop :=
  relinearized d0 d /\ if isLinearizationComputed d then linearized cs0 cs c d else cm_mixins d = cm_mixins d0.

Record LinInv (cs0 cs : Classes) : Prop := {
  li_length : length cs = length cs0;
  li_class c d0 : 0 <= c -> classAt cs0 c = Some d0 -> exists d, classAt cs c = Some d /\ consistent cs0 cs c d0 d }.

Section Linearization.
Context (cs0 : Classes) (rank : Z -> nat) (Hh : hierarchy cs0 rank).

(** Classes that are linearized stay as they are. *)
Definition keeps (cs cs' : Classes) : Prop :=
  forall c d, 0 <= c -> classAt cs c = Some d -> isLinearizationComputed d = true -> classAt cs' c = Some d.

#[local] Instance keeps_preorder : PreOrder keeps.
Proof. split; [by intros cs c d | intros x y z H1 H2 c d Hc Hd Hf; apply H2; auto]. Qed.

(** Classes above a rank are not touched. *)
Definition frame (n : nat) (cs cs' : Classes) : Prop :=
  forall c, 0 <= c -> (n <= rank c)%nat -> classAt cs' c = classAt cs c.

Lemma relinearized_super d0 d : relinearized d0 d -> cm_superClass d = cm_superClass d0.
Proof. by intros ->. Qed.

Lemma relinearized_module d0 d : relinearized d0 d -> isModule d = isModule d0.
Proof. by intros ->. Qed.

Lemma included_valid c s : included cs0 c s -> 0 < s /\ is_Some (classAt cs0 s).
Proof. induction 1 as [c d m Hd Hm | c d m s Hd Hm _ IH]; [| done]. by apply (h_refs _ _ Hh c d). Qed.

Lemma included_rank c s : included cs0 c s -> (rank s < rank c)%nat.
Proof.
  induction 1 as [c d m Hd Hm | c d m s Hd Hm _ IH].
  - by apply (h_rank _ _ Hh c d).
  - etrans; [done |]. by apply (h_rank _ _ Hh c d).
Qed.

Lemma included_module c s d : included cs0 c s -> classAt cs0 s = Some d -> isModule d = true.
Proof.
  induction 1 as [c e m Hd Hm | c e m s Hd Hm _ IH]; [| done]. intros E.
  destruct (h_modules _ _ Hh c e m) as (dm & E' & Hmod & _); [done | done |]. congruence.
Qed.

Lemma li_inv cs c d : LinInv cs0 cs -> 0 <= c -> classAt cs c = Some d ->
  exists d0, classAt cs0 c = Some d0 /\ consistent cs0 cs c d0 d.
Proof.
  intros HI Hc Hd. destruct (classAt cs0 c) as [d0 |] eqn:E.
  - destruct (li_class _ _ HI c d0) as (d' & E' & H); [done | done |]. exists d0. split; [done |]. congruence.
  - unfold classAt in *. apply lookup_ge_None in E. apply lookup_lt_Some in Hd.
    rewrite (li_length _ _ HI) in Hd. lia.
Qed.

(** In a class that is linearized, or is the absent class, [derivesFrom] decides [above]. *)
Lemma above_inv cs c d s : classAt cs c = Some d -> above cs c s <-> s ∈ cm_mixins d \/ above_super_of cs d s.
Proof.
  intros Hd. unfold above_super_of. split.
  - inversion 1 as [c' d' s' Hd' Hs | c' d' Hd' Hne | c' d' s' Hd' Hne Ha]; subst; rewrite Hd in Hd'; simplify_eq; tauto.
  - intros [Hs | [Hne [-> | Ha]]]; [by eapply above_mixin | by eapply above_super | by eapply above_trans].
Qed.

Lemma derivesFrom_above cs fuel c s : LinInv cs0 cs -> 0 <= c ->
  c = 0 /\ (0 < fuel)%nat \/ flagged cs c /\ (rank c < fuel)%nat ->
  exists b, derivesFrom fuel cs c s = Some b /\ (b = true <-> above cs c s).
Proof.
  intros HI. revert c. induction fuel as [| fuel IH]; intros c Hc Hfl; [lia |]. cbn [derivesFrom].
  assert (Hd : exists d, classAt cs c = Some d /\ (isLinearizationComputed d = true \/ cm_mixins d = []) /\
     0 <= cm_superClass d /\
     (cm_superClass d = 0 \/ flagged cs (cm_superClass d) /\ (rank (cm_superClass d) < fuel)%nat)).
  { destruct Hfl as [[-> _] | [(d & Hd & Hfl) Hf]].
    - destruct (h_none _ _ Hh) as (d0 & E0 & Hm & Hs).
      destruct (li_class _ _ HI 0 d0) as (d & E & Hr & Hc0); [lia | done |]. exists d.
      rewrite (relinearized_super _ _ Hr), Hs. split_and!; [done | | lia | by left].
      destruct (isLinearizationComputed d); [by left | right; congruence].
    - exists d. destruct (li_inv _ _ _ HI Hc Hd) as (d0 & E0 & Hr & Hl). rewrite Hfl in Hl.
      pose proof (h_refs _ _ Hh c d0 E0) as (Hs & _). pose proof (h_rank _ _ Hh c d0 E0) as [Hrk _].
      rewrite <- (relinearized_super _ _ Hr) in Hs, Hrk. split_and!; [done | by left | done |].
      destruct (decide (cm_superClass d = 0)) as [| Hne]; [by left | right]. split; [by apply Hl | specialize (Hrk Hne); lia]. }
  destruct Hd as (d & Hd & Hm & Hs0 & Hsuper). rewrite Hd. cbn [mbind option_bind].
  destruct (existsM_spec (fun a => if a =? s then Some true else if isLinearizationComputed d then Some false
      else derivesFrom fuel cs a s) (fun a => a = s) (cm_mixins d)) as (b & -> & Hb).
  { intros a Ha. destruct (Z.eqb_spec a s) as [-> | Hne]; [by exists true |].
    destruct Hm as [-> | E]; [by exists false | rewrite E in Ha; by apply not_elem_of_nil in Ha]. }
  cbn [mbind option_bind]. assert (Hin : b = true <-> s ∈ cm_mixins d) by naive_solver. clear Hb.
  setoid_rewrite (above_inv _ _ _ s Hd). unfold above_super_of. destruct b.
  { exists true. naive_solver. }
  destruct (Z.eqb_spec (cm_superClass d) 0) as [E | Hne]; [exists false; naive_solver |].
  destruct (Z.eqb_spec s (cm_superClass d)) as [E | Hs]; [exists true; naive_solver |].
  destruct Hsuper as [? | [Hsf Hsr]]; [done |].
  destruct (IH (cm_superClass d)) as (b & Hb1 & Hb2); [done | by right |]. exists b. split; [done |].
  rewrite Hb2. naive_solver.
Qed.

(** Linearizing more classes does not change what is above a class that is linearized. *)
Lemma above_keeps cs cs' c s : LinInv cs0 cs -> keeps cs cs' -> 0 <= c -> flagged cs c ->
  above cs c s <-> above cs' c s.
Proof.
  intros HI Hk. remember (rank c) as n eqn:En. revert c En.
  induction n as [n IH] using lt_wf_ind. intros c -> Hc (d & Hd & Hfl).
  assert (Hd' : classAt cs' c = Some d) by auto.
  rewrite (above_inv _ _ _ _ Hd), (above_inv _ _ _ _ Hd'). unfold above_super_of.
  destruct (li_inv _ _ _ HI Hc Hd) as (d0 & E0 & Hr & Hl). rewrite Hfl in Hl.
  destruct (h_refs _ _ Hh c d0 E0) as (Hs & _). destruct (h_rank _ _ Hh c d0 E0) as [Hrk _].
  rewrite <- (relinearized_super _ _ Hr) in Hs, Hrk.
  destruct (decide (cm_superClass d = 0)) as [| Hne]; [naive_solver |].
  rewrite (IH (rank (cm_superClass d))); [done | by apply Hrk | done | done | by apply Hl].
Qed.

Lemma above_super_of_keeps cs cs' d s : LinInv cs0 cs -> keeps cs cs' -> 0 <= cm_superClass d ->
  (cm_superClass d <> 0 -> flagged cs (cm_superClass d)) ->
  above_super_of cs d s <-> above_super_of cs' d s.
Proof.
  intros HI Hk H0 Hf. unfold above_super_of. destruct (decide (cm_superClass d = 0)); [naive_solver |].
  by rewrite (above_keeps cs cs') by auto.
Qed.

Lemma linearized_keeps cs cs' c d : LinInv cs0 cs -> keeps cs cs' -> 0 <= c -> classAt cs c = Some d ->
  linearized cs0 cs c d -> linearized cs0 cs' c d.
Proof.
  intros HI Hk Hc Hd [H1 H2 H3 H4]. destruct (li_inv _ _ _ HI Hc Hd) as (d0 & E0 & Hr & _).
  destruct (h_refs _ _ Hh c d0 E0) as (Hs & _). rewrite <- (relinearized_super _ _ Hr) in Hs.
  split; [| done | done |].
  - intros Hne. destruct (H1 Hne) as (e & He & Hfl). exists e. auto.
  - intros s Hi. rewrite <- (above_super_of_keeps cs cs'); auto.
Qed.

Lemma included_above cs c s : LinInv cs0 cs -> 0 <= c -> flagged cs c -> included cs0 c s -> above cs c s.
Proof.
  intros HI Hc (d & Hd & Hfl) Hi. destruct (li_inv _ _ _ HI Hc Hd) as (d0 & _ & _ & Hl). rewrite Hfl in Hl.
  rewrite (above_inv _ _ _ _ Hd). by apply Hl.
Qed.

Lemma above_none cs s : LinInv cs0 cs -> ~ above cs 0 s.
Proof.
  intros HI. destruct (h_none _ _ Hh) as (d0 & E0 & Hm & Hs).
  destruct (li_class _ _ HI 0 d0) as (d & Hd & Hr & Hl); [lia | done |].
  rewrite (above_inv _ _ _ _ Hd). intros [Hin | [Hne _]].
  - destruct (isLinearizationComputed d); [| rewrite Hl, Hm in Hin; by apply not_elem_of_nil in Hin].
    apply (lin_sound _ _ _ _ Hl) in Hin. inversion Hin as [c e m He Hme | c e m s' He Hme]; subst;
      rewrite He in E0; simplify_eq; rewrite Hm in Hme; by apply not_elem_of_nil in Hme.
  - by rewrite (relinearized_super _ _ Hr) in Hne.
Qed.

Lemma above_descends cs c s : LinInv cs0 cs -> 0 <= c -> flagged cs c -> above cs c s -> descends cs0 c s.
Proof.
  intros HI Hc Hf Ha. revert Hc Hf. induction Ha as [c d s Hd Hs | c d Hd Hne | c d s Hd Hne _ IH];
    intros Hc (d' & Hd' & Hfl); rewrite Hd in Hd'; simplify_eq;
    destruct (li_inv _ _ _ HI Hc Hd) as (d0 & E0 & Hr & Hl); rewrite Hfl in Hl.
  - by apply descends_included, Hl.
  - rewrite (relinearized_super _ _ Hr) in *. by eapply descends_super.
  - pose proof (lin_super _ _ _ _ Hl Hne) as Hsf. destruct (h_refs _ _ Hh c d0 E0) as (Hs & _).
    rewrite (relinearized_super _ _ Hr) in *. eapply descends_trans; [done | done |]. by apply IH.
Qed.

(** *** Adding one mixin *)

Lemma find_index_spec x l :
  match find_index x l with Some i => l !! i = Some x | None => x ∉ l end.
Proof.
  induction l as [| y l IH]; simpl; [apply not_elem_of_nil |].
  destruct (Z.eqb_spec y x) as [-> | Hne]; [done |]. destruct (find_index x l); [done |].
  apply not_elem_of_cons. done.
Qed.

(** [st'] extends the list [st] by [mixin], unless it is there or above the superclass already. *)
Lemma maybeAddMixin_spec cs fuel forSym mixin parent l pos :
  LinInv cs0 cs -> 0 <= parent -> parent = 0 /\ (0 < fuel)%nat \/ flagged cs parent /\ (rank parent < fuel)%nat ->
  forSym <> mixin -> NoDup l -> (pos <= length l)%nat ->
  exists l' pos', maybeAddMixin fuel cs forSym mixin parent (l, pos) = Some (l', pos') /\
    NoDup l' /\ (pos' <= length l')%nat /\ l ⊆ l' /\ (forall s, s ∈ l' -> s ∈ l \/ s = mixin) /\
    (mixin ∈ l' \/ above cs parent mixin).
Proof.
  intros HI H0 Hfl Hne Hnd Hpos. unfold maybeAddMixin. destruct (Z.eqb_spec forSym mixin); [done |].
  destruct (derivesFrom_above cs fuel parent mixin) as (b & -> & Hb); [done.. |]. cbn [mbind option_bind].
  destruct b; [exists l, pos; naive_solver |].
  pose proof (find_index_spec mixin l) as Hi. destruct (find_index mixin l) as [i |].
  - eexists l, _. split; [done |]. pose proof (lookup_lt_Some _ _ _ Hi). apply list_elem_of_lookup_2 in Hi.
    split_and!; [done | destruct (pos <=? i)%nat eqn:E; [apply Nat.leb_le in E; lia | done] | done | auto | auto].
  - eexists _, _. split; [done |].
    assert (Hp : mixin :: l ≡ₚ take pos l ++ mixin :: drop pos l)
      by by rewrite <- Permutation_middle, take_drop.
    split_and!.
    + rewrite <- Hp. by constructor.
    + rewrite <- Hp. simpl. lia.
    + intros s Hs. rewrite <- Hp. by right.
    + intros s. rewrite <- Hp, elem_of_cons. tauto.
    + left. rewrite <- Hp. by left.
Qed.

(** The same for a list of mixins *)
Lemma maybeAddMixins_spec cs fuel forSym parent l ms :
  LinInv cs0 cs -> 0 <= parent -> parent = 0 /\ (0 < fuel)%nat \/ flagged cs parent /\ (rank parent < fuel)%nat ->
  forSym ∉ ms -> NoDup l ->
  exists l' pos', foldM (fun st mixin => maybeAddMixin fuel cs forSym mixin parent st) (l, O) ms = Some (l', pos') /\
    NoDup l' /\ l ⊆ l' /\ (forall s, s ∈ l' -> s ∈ l \/ s ∈ ms) /\
    (forall s, s ∈ ms -> s ∈ l' \/ above cs parent s).
Proof.
  intros HI H0 Hfl Hne Hnd.
  destruct (foldM_inv (fun st mixin => maybeAddMixin fuel cs forSym mixin parent st)
    (fun done st => NoDup st.1 /\ (st.2 <= length st.1)%nat /\ l ⊆ st.1 /\
       (forall s, s ∈ st.1 -> s ∈ l \/ s ∈ done) /\ (forall s, s ∈ done -> s ∈ st.1 \/ above cs parent s))
    ms (l, O)) as ([l' pos'] & Hf & H1 & _ & H2 & H3 & H4).
  - cbn. split_and!; [done | lia | done | auto | intros s Hs; by apply not_elem_of_nil in Hs].
  - intros done x rest [k pos] -> (H1 & H2 & H3 & H4 & H5). cbn [fst snd] in *. cbv beta.
    destruct (maybeAddMixin_spec cs fuel forSym x parent k pos) as (k' & pos' & -> & G1 & G2 & G3 & G4 & G5);
      [done.. | set_solver | done | done |].
    eexists. split; [reflexivity |]. cbn [fst snd]. split_and!; [assumption | assumption | set_solver | |].
    + intros s Hs. apply G4 in Hs as [Hs | ->]; [apply H4 in Hs |]; set_solver.
    + intros s [Hs | ->%list_elem_of_singleton]%elem_of_app; [| assumption]. apply H5 in Hs. set_solver.
  - exists l', pos'. done.
Qed.

Lemma frame_trans n cs cs' cs'' : frame n cs cs' -> frame n cs' cs'' -> frame n cs cs''.
Proof. intros H1 H2 c Hc Hn. by rewrite H2, H1. Qed.

Lemma frame_weaken n m cs cs' : (n <= m)%nat -> frame n cs cs' -> frame m cs cs'.
Proof. intros Hnm H c Hc Hm. apply H; [done | lia]. Qed.

Definition computed (fuel : nat) (cs : Classes) (c : Z) : Prop :=
  exists cs', computeClassLinearization fuel cs c = Some cs' /\ LinInv cs0 cs' /\ keeps cs cs' /\
    flagged cs' c /\ frame (S (rank c)) cs cs'.

(** What the loop over the mixins of [c] has reached after [done] *)
Record Progress (csA : Classes) (c : Z) (d0 : ClassOrModule) (done : list Z) (st : Classes * list Z) : Prop := {
  pr_inv : LinInv cs0 st.1;
  pr_keeps : keeps csA st.1;
  pr_frame : frame (rank c) csA st.1;
  pr_nodup : NoDup st.2;
  pr_sound s : s ∈ st.2 -> included cs0 c s;
  pr_complete m s : m ∈ done -> s = m \/ included cs0 m s -> s ∈ st.2 \/ above_super_of csA d0 s }.

(** One turn of that loop *)
Lemma addMixinsOf_spec fuel csA c d0 done m st :
  (forall cs, LinInv cs0 cs -> computed fuel cs m) ->
  LinInv cs0 csA -> 0 <= c -> classAt cs0 c = Some d0 -> m ∈ cm_mixins d0 ->
  (cm_superClass d0 <> 0 -> flagged csA (cm_superClass d0)) -> (rank c <= fuel)%nat ->
  Progress csA c d0 done st ->
  exists st', addMixinsOf (S fuel) c (cm_superClass d0) st m = Some st' /\ Progress csA c d0 (done ++ [m]) st'.
Proof.
  intros Hrec HA Hc E0 Hm Hsf Hfuel [P1 P2 P3 P4 P5 P6]. destruct st as [cs l]. cbn [fst snd] in *.
  cbn [addMixinsOf]. destruct (h_refs _ _ Hh c d0 E0) as (Hs0 & _ & Hmv). destruct (Hmv m Hm) as [Hm0 _].
  destruct (h_rank _ _ Hh c d0 E0) as [Hrs Hrm]. specialize (Hrm m Hm).
  destruct (h_modules _ _ Hh c d0 m E0 Hm) as (dm & Em & Hmod & Hst1 & Hst2).
  destruct (Z.eqb_spec m (cm_superClass d0)) as [Heq | Hneq].
  { eexists. split; [done |]. split; cbn; try done. intros k s [Hk | ->%list_elem_of_singleton]%elem_of_app; [by apply P6 |].
    intros Hs. right. split; [lia |]. rewrite <- Heq. destruct Hs as [-> | Hs]; [by left | right].
    apply included_above; [done | lia | rewrite Heq; apply Hsf; lia | done]. }
  destruct (li_class _ _ P1 m dm) as (d1 & E1 & Hr1 & _); [lia | done |]. rewrite E1. cbn [mbind option_bind].
  rewrite (relinearized_super _ _ Hr1). rewrite (proj2 (Z.eqb_neq _ _) Hst1), (proj2 (Z.eqb_neq _ _) Hst2).
  cbn [orb]. destruct (Hrec cs P1) as (cs' & -> & Q1 & Q2 & (d2 & E2 & Hfl) & Q4). cbn [mbind option_bind].
  rewrite E2. cbn [mbind option_bind]. destruct (li_inv cs' m d2 Q1 ltac:(lia) E2) as (dm' & Em' & Hr2 & Hl2).
  rewrite Hfl in Hl2. assert (dm' = dm) as -> by congruence.
  rewrite (relinearized_module _ _ Hr2), Hmod. cbn [negb].
  destruct (maybeAddMixins_spec cs' fuel c (cm_superClass d0) l (m :: cm_mixins d2))
    as (l' & pos' & -> & G1 & G2 & G3 & G4); [done | done | | | done |].
  { destruct (decide (cm_superClass d0 = 0)) as [| Hne]; [left; lia | right]. split; [| specialize (Hrs Hne); lia].
    destruct (Hsf Hne) as (e & He & Hfe). exists e. split; [| done]. apply Q2; [done | by apply P2 | done]. }
  { intros [Heq | Hin]%elem_of_cons; [subst; lia |].
    apply (lin_sound _ _ _ _ Hl2) in Hin. apply included_rank in Hin. lia. }
  cbn [mbind option_bind]. eexists. split; [done |]. split; cbn [fst snd]; [done | by etrans | | done | |].
  - eapply frame_trans; [done |]. eapply frame_weaken; [| done]. lia.
  - intros s [Hs | [-> | Hs]%elem_of_cons]%G3; [by apply P5 | by eapply included_mixin |].
    eapply included_trans; [done | done |]. by apply (lin_sound _ _ _ _ Hl2).
  - assert (HQ : forall k s, k ∈ done -> s = k \/ included cs0 k s -> s ∈ l' \/ above_super_of csA d0 s).
    { intros k s Hk Hs. destruct (P6 k s Hk Hs) as [? | ?]; [left; by apply G2 | by right]. }
    assert (Hup : forall s, s ∈ m :: cm_mixins d2 -> s ∈ l' \/ above_super_of csA d0 s).
    { intros s Hs. destruct (G4 s Hs) as [? | Ha]; [by left | right].
      apply (above_super_of_keeps csA cs'); [done | by etrans | done | done |].
      destruct (decide (cm_superClass d0 = 0)) as [E | Hne]; [rewrite E in Ha; by apply above_none in Ha |].
      split; [done | by right]. }
    intros k s [Hk | ->%list_elem_of_singleton]%elem_of_app; [by apply HQ |].
    intros [-> | Hi]; [apply Hup; by left |].
    destruct (lin_complete _ _ _ _ Hl2 s Hi) as [Hin | [Hne Ha]]; [apply Hup; by right |]. exfalso.
    destruct (included_valid _ _ Hi) as [_ [ds Es]]. pose proof (included_module _ _ _ Hi Es) as Hms.
    rewrite (h_module_super _ _ Hh m dm s ds) in Hms; try done; rewrite <- (relinearized_super _ _ Hr2); [done |].
    destruct Ha as [-> | Ha]; [by left | right]. apply (above_descends cs'); [done | | by apply Hl2 | done].
    rewrite (relinearized_super _ _ Hr2). by apply (h_refs _ _ Hh m dm).
Qed.

(** Recording the result keeps the invariant. *)
Lemma record_linearization cs c d0 d l : LinInv cs0 cs -> 0 <= c -> classAt cs0 c = Some d0 ->
  classAt cs c = Some d -> isLinearizationComputed d = false ->
  (cm_superClass d0 <> 0 -> flagged cs (cm_superClass d0)) -> NoDup l -> (forall s, s ∈ l -> included cs0 c s) ->
  (forall s, included cs0 c s -> s ∈ l \/ above_super_of cs d0 s) ->
  let cs' := <[Z.to_nat c := set_linearizationComputed true (set_mixins l d)]> cs in
  LinInv cs0 cs' /\ keeps cs cs' /\ flagged cs' c /\ frame (S (rank c)) cs cs'.
Proof.
  intros HI Hc E0 Hd Hnf Hsf Hnd Hsound Hcomplete cs'.
  assert (Hlt : (Z.to_nat c < length cs)%nat) by by eapply lookup_lt_Some.
  assert (Hat : classAt cs' c = Some (set_linearizationComputed true (set_mixins l d)))
    by by unfold classAt, cs'; rewrite list_lookup_insert_eq.
  assert (Hother : forall k, 0 <= k -> k <> c -> classAt cs' k = classAt cs k).
  { intros k Hk Hne. unfold classAt, cs'. rewrite list_lookup_insert_ne by lia. done. }
  assert (Hk : keeps cs cs').
  { intros k e Hk He Hf. rewrite Hother; [done | done |]. intros ->. congruence. }
  destruct (li_inv _ _ _ HI Hc Hd) as (d0' & E0' & Hr & _). assert (d0' = d0) as -> by congruence.
  destruct (h_refs _ _ Hh c d0 E0) as (Hs0 & _).
  split_and!; [| done | by eexists | intros k Hk0 Hrk; apply Hother; [done | intros ->; lia]].
  split; [by unfold cs'; rewrite length_insert; apply HI |]. intros k e0 Hk0 Ek. destruct (decide (k = c)) as [-> | Hne].
  - assert (e0 = d0) as -> by congruence. eexists. split; [done |]. split.
    { unfold relinearized. cbn. by rewrite Hr. }
    cbn. split; cbn.
    + rewrite (relinearized_super _ _ Hr). intros Hne. destruct (Hsf Hne) as (e & He & Hfe). exists e. auto.
    + done.
    + done.
    + intros s Hi. destruct (Hcomplete s Hi) as [? | Ha]; [by left | right].
      apply (above_super_of_keeps cs cs') in Ha; [| done..]. unfold above_super_of in *. cbn.
      by rewrite (relinearized_super _ _ Hr).
  - rewrite Hother by done. destruct (li_class _ _ HI k e0 Hk0 Ek) as (e & He & Hre & Hle). exists e.
    split; [done |]. split; [done |]. destruct (isLinearizationComputed e); [| done]. by eapply linearized_keeps.
Qed.

Lemma computeClassLinearization_spec fuel cs c : LinInv cs0 cs -> 0 <= c -> is_Some (classAt cs0 c) ->
  (2 * rank c + 1 < fuel)%nat -> computed fuel cs c.
Proof.
  revert cs c. induction fuel as [fuel IH] using lt_wf_ind. intros cs c HI Hc [d0 E0] Hfuel.
  destruct fuel as [| [| fuel]]; [lia | lia |]. unfold computed. remember (S fuel) as f1 eqn:Ef.
  cbn [computeClassLinearization].
  destruct (li_class _ _ HI c d0) as (d & Hd & Hr & Hl); [done | done |]. rewrite Hd. cbn [mbind option_bind].
  destruct (isLinearizationComputed d) eqn:Hfl.
  { exists cs. split_and!; [done | done | done | by exists d |]. by intros k _ _. }
  destruct (h_refs _ _ Hh c d0 E0) as (Hs0 & Hs1 & Hmv). destruct (h_rank _ _ Hh c d0 E0) as [Hrs Hrm].
  pose proof (relinearized_super _ _ Hr) as Hsup. rewrite Hsup.
  assert (Hstep : exists cs1, (if cm_superClass d0 =? 0 then Some cs
      else computeClassLinearization f1 cs (cm_superClass d0)) = Some cs1 /\ LinInv cs0 cs1 /\ keeps cs cs1 /\
      (cm_superClass d0 <> 0 -> flagged cs1 (cm_superClass d0)) /\ frame (rank c) cs cs1).
  { destruct (Z.eqb_spec (cm_superClass d0) 0) as [E | Hne].
    - exists cs. split_and!; [done | done | done | done | by intros k _ _].
    - specialize (Hrs Hne). destruct (IH f1 ltac:(lia) cs (cm_superClass d0)) as (cs1 & -> & H1 & H2 & H3 & H4);
        [done | done | done | lia |]. exists cs1. split_and!; [done | done | done | done |].
      eapply frame_weaken; [| done]. lia. }
  destruct Hstep as (cs1 & -> & HI1 & Hk1 & Hsf & Hfr1). cbn [mbind option_bind].
  assert (Hd1 : classAt cs1 c = Some d) by (rewrite Hfr1; [done | done | lia]). rewrite Hd1. cbn [mbind option_bind].
  rewrite Hl, Hsup.
  destruct (foldM_inv (addMixinsOf f1 c (cm_superClass d0)) (Progress cs1 c d0) (cm_mixins d0) (cs1, []))
    as ([cs2 l] & -> & [P1 P2 P3 P4 P5 P6]).
  { split; cbn [fst snd]; [done | done | by intros k _ _ | apply NoDup_nil_2 | |].
    - intros s Hs. by apply not_elem_of_nil in Hs.
    - intros m s Hs. by apply not_elem_of_nil in Hs. }
  { intros done x rest st Hsplit HP. assert (Hx : x ∈ cm_mixins d0) by (rewrite Hsplit; set_solver).
    specialize (Hrm x Hx). destruct (Hmv x Hx) as [? ?].
    subst f1. apply addMixinsOf_spec; [| assumption.. | lia | assumption].
    intros cs' HI'. apply IH; [lia | done | lia | done | lia]. }
  cbn [fst snd mbind option_bind] in *. assert (Hd2 : classAt cs2 c = Some d) by (rewrite P3; [done | done | lia]).
  rewrite Hd2. cbn [mbind option_bind].
  destruct (record_linearization cs2 c d0 d l) as (R1 & R2 & R3 & R4); try done.
  { intros Hne. destruct (Hsf Hne) as (e & He & Hfe). exists e. auto. }
  { intros s Hi. rewrite <- (above_super_of_keeps cs1 cs2) by done. destruct Hi as [? e m He Hm | ? e m s He Hm Hi];
      assert (e = d0) as -> by congruence; apply (P6 m); auto. }
  eexists. split; [done |]. split_and!; [done | by do 2 (etrans; [done |]) | done |].
  eapply frame_trans; [by eapply frame_weaken; [| eapply frame_trans; [exact Hfr1 | exact P3]]; lia | done].
Qed.

Lemma descends_above cs c s : LinInv cs0 cs -> 0 <= c -> flagged cs c -> descends cs0 c s -> above cs c s.
Proof.
  intros HI Hc Hf Hs. revert Hc Hf. induction Hs as [c s Hi | c d0 E0 Hne | c d0 s E0 Hne _ IH]; intros Hc Hf.
  - by apply included_above.
  - destruct (li_class _ _ HI c d0 Hc E0) as (d & Hd & Hr & _). rewrite <- (relinearized_super _ _ Hr) in *.
    by eapply above_super.
  - destruct Hf as (d & Hd & Hfl). destruct (li_inv _ _ _ HI Hc Hd) as (e0 & E0' & Hr & Hl). rewrite Hfl in Hl.
    assert (e0 = d0) as -> by congruence. destruct (h_refs _ _ Hh c d0 E0) as (Hs0 & _).
    rewrite <- (relinearized_super _ _ Hr) in *. eapply above_trans; [done | done |]. apply IH; [done | by apply Hl].
Qed.
End Linearization.

(** ** Correctness *)

(** C27: linearization is correct on every [hierarchy] in which the classes that are flagged already are linearized: the
    references of its classes are valid, superclasses and mixins have smaller ranks (there are no cycles), only modules are
    mixed in, none of them with a stub for its superclass, and no module is an ancestor of the superclass of a module. So
    the branches of the mixin loop for mixed-in classes and for stubs are not taken. Then, with fuel for twice the rank of
    each class, computing the linearization of any classes terminates without an exception and changes nothing
    but the mixins and their flag. The mixins of a class that was computed are modules that are mixed
    in directly or indirectly, each once; and from then on [derivesFrom], which looks at no mixin's
    mixins any more, answers exactly whether the symbol is a superclass or is mixed into the class or
    one of its superclasses. *)
Theorem linearization_correct cs rank fuel refs :
  hierarchy cs rank ->
  (forall c d, 0 <= c -> classAt cs c = Some d -> isLinearizationComputed d = true -> linearized cs cs c d) ->
  (forall c, c ∈ refs -> 0 <= c /\ is_Some (classAt cs c) /\ (2 * rank c + 1 < fuel)%nat) ->
  exists cs', computeLinearization fuel cs refs = Some cs' /\ length cs' = length cs /\
    (forall c d, 0 <= c -> classAt cs c = Some d -> exists d', classAt cs' c = Some d' /\ relinearized d d') /\
    (forall c, c ∈ refs ->
       exists d', classAt cs' c = Some d' /\ isLinearizationComputed d' = true /\ NoDup (cm_mixins d') /\
         (forall s, s ∈ cm_mixins d' -> included cs c s) /\
         forall fuel' s, (rank c < fuel')%nat ->
           exists b, derivesFrom fuel' cs' c s = Some b /\ (b = true <-> descends cs c s)).
Proof.
  intros Hh Hinit Hrefs. assert (HI : LinInv cs cs).
  { split; [done |]. intros c d Hc Hd. exists d. split; [done |]. split; [by destruct d as [????? []] |].
    destruct (isLinearizationComputed d) eqn:E; [by apply Hinit | done]. }
  destruct (foldM_inv (computeClassLinearization fuel)
    (fun done cs' => LinInv cs cs' /\ forall c, c ∈ done -> flagged cs' c) refs cs) as (cs' & Hrun & HI' & Hfl).
  { split; [done |]. intros c Hc. by apply not_elem_of_nil in Hc. }
  { intros done c rest cs1 -> (HI1 & Hf1). destruct (Hrefs c) as (Hc & Hs & Hfuel); [set_solver |].
    destruct (computeClassLinearization_spec cs rank Hh fuel cs1 c) as (cs2 & Hrun & HI2 & Hk & Hf2 & _); try assumption.
    exists cs2. split; [assumption |]. split; [assumption |]. intros k [Hk' | ->%list_elem_of_singleton]%elem_of_app; [| assumption].
    destruct (Hf1 k Hk') as (d & Hd & Hfd). exists d. split; [| assumption]. apply Hk; try assumption.
    destruct (Hrefs k) as (? & _); [set_solver | assumption]. }
  exists cs'. split; [done |]. split; [apply HI' |]. split.
  { intros c d Hc Hd. destruct (li_class _ _ HI' c d Hc Hd) as (d' & Hd' & Hr & _). by exists d'. }
  intros c Hc. destruct (Hrefs c Hc) as (H0 & _). destruct (Hfl c Hc) as (d' & Hd' & Hfd).
  destruct (li_inv _ _ _ _ HI' H0 Hd') as (d & Hd & Hr & Hl). rewrite Hfd in Hl.
  exists d'. split_and!; [done | done | apply Hl | apply Hl |]. intros fuel' s Hf.
  destruct (derivesFrom_above cs rank Hh cs' fuel' c s HI' H0) as (b & Hb & Hiff); [right; by split; [exists d' |] |].
  exists b. split; [done |]. rewrite Hiff. split; [by eapply above_descends; [| | | exists d'] |].
  by eapply descends_above; [| | | exists d'].
Qed.

(** A class with two modules, one of which includes the other *)
Definition sampleClass (isModule : bool) (super : Z) (mixins : list Z) : ClassOrModule :=
  mkClassOrModule 0 0 3 0 super
    (mkClassFlags (negb isModule) isModule false false false false false false true false false false)
    mixins None ∅ NullType [].

Definition sampleClasses : Classes :=
  [sampleClass false 0 []; sampleClass false 0 []; sampleClass true 0 []; sampleClass true 0 [2];
   sampleClass false 1 [2; 3]].

Definition sampleRank (c : Z) : nat := if c =? 4 then 2 else if c =? 3 then 1 else 0.

Lemma sample_cases c d : classAt sampleClasses c = Some d ->
  (c <= 0 /\ d = sampleClass false 0 []) \/ (c = 1 /\ d = sampleClass false 0 []) \/
  (c = 2 /\ d = sampleClass true 0 []) \/ (c = 3 /\ d = sampleClass true 0 [2]) \/
  (c = 4 /\ d = sampleClass false 1 [2; 3]).
Proof.
  unfold classAt. intros H. pose proof (lookup_lt_Some _ _ _ H) as Hl. cbn [length sampleClasses] in Hl.
  destruct (Z.to_nat c) as [| [| [| [| [| n]]]]] eqn:E; cbn in H; simplify_eq.
  - left. split; [lia | done].
  - right; left. split; [lia | done].
  - do 2 right; left. split; [lia | done].
  - do 3 right; left. split; [lia | done].
  - do 4 right. split; [lia | done].
Qed.

Lemma sample_hierarchy : hierarchy sampleClasses sampleRank.
Proof.
  split.
  - by eexists.
  - intros c d [[? ->] | [[-> ->] | [[-> ->] | [[-> ->] | [-> ->]]]]]%sample_cases; cbn; split_and!; try lia; try by eexists.
    all: intros m; rewrite ?elem_of_cons, elem_of_nil; intros Hm; destruct_or? Hm; try done; subst; (split; [lia | by eexists]).
  - intros c d [[? ->] | [[-> ->] | [[-> ->] | [[-> ->] | [-> ->]]]]]%sample_cases; cbn; split; try done; try (intros _; cbn; lia).
    all: intros m; rewrite ?elem_of_cons, elem_of_nil; intros Hm; destruct_or? Hm; try done; subst; cbn; lia.
  - intros c d m [[? ->] | [[-> ->] | [[-> ->] | [[-> ->] | [-> ->]]]]]%sample_cases; cbn;
      rewrite ?elem_of_cons, elem_of_nil; intros Hm; destruct_or? Hm; try done; subst; by eexists.
  - intros c d s ds [[? ->] | [[-> ->] | [[-> ->] | [[-> ->] | [-> ->]]]]]%sample_cases; done.
Qed.

Lemma linearization_correct_witness :
  exists cs', computeLinearization 10 sampleClasses [4] = Some cs' /\
    exists b, derivesFrom 5 cs' 4 2 = Some b /\ (b = true <-> descends sampleClasses 4 2).
Proof.
  destruct (linearization_correct sampleClasses sampleRank 10 [4]) as (cs' & Hrun & _ & _ & H).
  - apply sample_hierarchy.
  - intros c d _ [[? ->] | [[-> ->] | [[-> ->] | [[-> ->] | [-> ->]]]]]%sample_cases; done.
  - intros c ->%list_elem_of_singleton. split_and!; [lia | by eexists | cbn; lia].
  - exists cs'. split; [done |]. destruct (H 4) as (d' & _ & _ & _ & _ & Hd); [by left |].
    apply Hd. cbn. lia.
Defined.

(** *** Lookup of members *)

(** The ancestors of a class in the order Ruby searches them, and the number of superclasses *)
Inductive ancestors (gs : Symbolic) : Z -> nat -> list Z -> Prop :=
| ancestors_top c d : classData gs c = Some d -> isLinearizationComputed d = true -> cm_superClass d = 0 ->
    ancestors gs c 0 (c :: cm_mixins d)
| ancestors_super c d n l : classData gs c = Some d -> isLinearizationComputed d = true ->
    cm_superClass d <> 0 -> ancestors gs (cm_superClass d) n l -> ancestors gs c (S n) (c :: cm_mixins d ++ l).

(** The classes in which a lookup from [c] looks, in this order, if none has the member: [c], then its mixins, or, if they are
    not linearized, everything that a lookup from the last of them, the one before and so on would look at, then the same
    from its superclass. [None] marks where the bound on the depth is reached. *)
Fixpoint searchOrder (gs : Symbolic) (depth : nat) (c : Z) : list (option Z) :=
  match depth with
  | O => [None]
  | S depth =>
      match classData gs c with
      | None => [Some c]
      | Some d =>
          Some c ::
          (if isLinearizationComputed d then Some <$> cm_mixins d else concat (searchOrder gs depth <$> rev (cm_mixins d))) ++
          (if cm_superClass d =? 0 then [] else searchOrder gs depth (cm_superClass d))
      end
  end.

(** The first of these classes in which the lookup [f] finds something *)
Fixpoint firstIn (f : Z -> option Z) (l : list (option Z)) : option Z :=
  match l with
  | [] => Some noSymbol
  | None :: _ => None
  | Some x :: l => result ← f x; if symbol_exists result then Some result else firstIn f l
  end.

(** From [c] to [k] by [n] superclasses and mixins that are not linearized *)
Inductive leads (gs : Symbolic) : nat -> Z -> Z -> Prop :=
| leads_self c : leads gs 0 c c
| leads_mixin c d m : classData gs c = Some d -> isLinearizationComputed d = true -> m ∈ cm_mixins d -> leads gs 0 c m
| leads_parent c d p n k : classData gs c = Some d ->
    (isLinearizationComputed d = false /\ p ∈ cm_mixins d) \/ (p = cm_superClass d /\ p <> 0) ->
    leads gs n p k -> leads gs (S n) c k.

Lemma firstIn_app f l k : firstIn f (l ++ k) = (result ← firstIn f l; if symbol_exists result then Some result else firstIn f k).
Proof.
  induction l as [| [x |] l IH]; [done | | done]. cbn [app firstIn]. destruct (f x) as [r |]; cbn [mbind option_bind]; [| done].
  destruct (symbol_exists r) eqn:E; cbn [mbind option_bind]; [by rewrite E | done].
Qed.

Lemma firstIn_classes f l : firstIn f (Some <$> l) = firstExisting f l.
Proof. induction l as [| x l IH]; [done |]. cbn. by rewrite <- IH. Qed.

Lemma firstIn_concat f (g : Z -> list (option Z)) l : firstIn f (concat (g <$> l)) = firstExisting (fun x => firstIn f (g x)) l.
Proof. induction l as [| x l IH]; [done |]. cbn [fmap list_fmap concat firstExisting]. by rewrite firstIn_app, IH. Qed.

Lemma firstExisting_ext f g l : (forall x, f x = g x) -> firstExisting f l = firstExisting g l.
Proof. intros H. induction l as [| x l IH]; [done |]. cbn. by rewrite H, IH. Qed.

(** A lookup is a search in that order. *)
Lemma findMemberTransitive_order gs dealias name depth : forall c,
  findMemberTransitiveInternal gs depth dealias c name =
    firstIn (fun k => findMemberMaybeDealias gs dealias k name) (searchOrder gs depth c).
Proof.
  induction depth as [| depth IH]; intros c; [done |]. cbn [findMemberTransitiveInternal searchOrder].
  unfold findParentMemberTransitiveInternal. destruct (classData gs c) as [d |] eqn:Hd.
  - cbn [firstIn mbind option_bind]. destruct (findMemberMaybeDealias gs dealias c name) as [r |]; cbn [mbind option_bind]; [| done].
    destruct (symbol_exists r); [done |]. rewrite firstIn_app.
    replace (firstIn _ (if isLinearizationComputed d then _ else _)) with
      (if isLinearizationComputed d then firstExisting (fun m => findMemberMaybeDealias gs dealias m name) (cm_mixins d)
       else firstExisting (fun parent => findMemberTransitiveInternal gs depth dealias parent name) (rev (cm_mixins d)))
      by (destruct (isLinearizationComputed d); [by rewrite firstIn_classes | rewrite firstIn_concat; by apply firstExisting_ext]).
    destruct (if isLinearizationComputed d then _ else _) as [r' |]; cbn [mbind option_bind]; [| done].
    destruct (symbol_exists r'); [done |]. destruct (cm_superClass d =? 0); [done | apply IH].
  - cbn [firstIn]. assert (Hn : findMemberMaybeDealias gs dealias c name = None); [| by rewrite Hn].
    unfold findMemberMaybeDealias. destruct dealias; unfold findMember, findMemberNoDealias; by rewrite Hd.
Qed.

(** Parents whose lookups follow *)
Lemma order_parents gs depth c d o : classData gs c = Some d ->
  o ∈ searchOrder gs (S depth) c <->
    o = Some c \/ (isLinearizationComputed d = true /\ exists m, m ∈ cm_mixins d /\ o = Some m) \/
    exists p, ((isLinearizationComputed d = false /\ p ∈ cm_mixins d) \/ (p = cm_superClass d /\ p <> 0)) /\ o ∈ searchOrder gs depth p.
Proof.
  intros Hd. cbn [searchOrder]. rewrite Hd, elem_of_cons, elem_of_app.
  assert (Hs : o ∈ (if cm_superClass d =? 0 then [] else searchOrder gs depth (cm_superClass d)) <->
    exists p, (p = cm_superClass d /\ p <> 0) /\ o ∈ searchOrder gs depth p).
  { destruct (Z.eqb_spec (cm_superClass d) 0) as [E | E]; split.
    - by intros []%not_elem_of_nil.
    - intros (p & [-> Hp] & _). done.
    - intros H. by exists (cm_superClass d).
    - by intros (p & [-> _] & H). }
  rewrite Hs. destruct (isLinearizationComputed d).
  - rewrite list_elem_of_fmap. naive_solver.
  - rewrite (list_elem_of_In (concat _)), in_concat.
    assert (Hm : (exists x, In x (searchOrder gs depth <$> rev (cm_mixins d)) /\ In o x) <->
      exists p, p ∈ cm_mixins d /\ o ∈ searchOrder gs depth p).
    { split.
      - intros (x & Hx & Ho). apply list_elem_of_In, list_elem_of_fmap in Hx as (p & -> & Hp).
        apply list_elem_of_In, in_rev, list_elem_of_In in Hp. exists p. split; [done | by apply list_elem_of_In].
      - intros (p & Hp & Ho). exists (searchOrder gs depth p). split; apply list_elem_of_In; [| done].
        apply list_elem_of_fmap. exists p. split; [done |]. by apply list_elem_of_In, in_rev, list_elem_of_In in Hp. }
    rewrite Hm. naive_solver.
Qed.

Lemma order_leads gs depth : forall c,
  (forall k, Some k ∈ searchOrder gs depth c <-> exists n, (n < depth)%nat /\ leads gs n c k) /\
  (None ∈ searchOrder gs depth c <-> exists k, leads gs depth c k).
Proof.
  induction depth as [| depth IH]; intros c.
  { cbn. split; [intros k; split; [by intros ?%list_elem_of_singleton | intros (n & ? & _); lia] |].
    split; [exists c; constructor | by left]. }
  destruct (classData gs c) as [d |] eqn:Hd.
  - split; [intros k |]; rewrite (order_parents gs depth c d _ Hd).
    + split.
      * intros [[= ->] | [(Hl & m & Hm & [= ->]) | (p & Hp & H)]]; [exists 0%nat; split; [lia | constructor] |
          exists 0%nat; split; [lia | by econstructor] |].
        apply (proj1 (IH p)) in H as (n & Hn & H). exists (S n). split; [lia | by econstructor].
      * intros (n & Hn & H). inversion H as [| ? d' m Hd' |? d' p n' ? Hd' Hp H']; subst; [by left | |]; rewrite Hd in Hd'; injection Hd' as <-.
        -- right; left. naive_solver.
        -- right; right. exists p. split; [done |]. apply (proj1 (IH p)). exists n'. split; [lia | done].
    + split.
      * intros [? | [(_ & m & _ & ?) | (p & Hp & H)]]; [done | done |]. apply (proj2 (IH p)) in H as (k & H). exists k. by econstructor.
      * intros (k & H). inversion H as [| | ? d' p n' ? Hd' Hp H']; subst. rewrite Hd in Hd'; injection Hd' as <-.
        right; right. exists p. split; [done |]. apply (proj2 (IH p)). by exists k.
  - cbn [searchOrder]. rewrite Hd. split; [intros k |]; rewrite list_elem_of_singleton; split.
    + intros [= ->]. exists 0%nat. split; [lia | constructor].
    + intros (n & _ & H). inversion H; subst; congruence.
    + done.
    + intros (k & H). inversion H; subst; congruence.
Qed.

(** A class that is linearized together with its superclasses *)
Lemma order_ancestors gs c n l : ancestors gs c n l -> forall depth,
  ((n < depth)%nat -> searchOrder gs depth c = Some <$> l) /\
  ((depth <= n)%nat -> exists l', l' `prefix_of` l /\ searchOrder gs depth c = (Some <$> l') ++ [None]).
Proof.
  induction 1 as [c d Hd Hfl Hs | c d n l Hd Hfl Hs Ha IH]; intros [| depth].
  - split; [lia |]. intros _. exists []. split; [apply prefix_nil | done].
  - split; [| lia]. intros _. cbn [searchOrder]. rewrite Hd, Hfl, Hs. cbn. by rewrite app_nil_r.
  - split; [lia |]. intros _. exists []. split; [apply prefix_nil | done].
  - cbn [searchOrder]. rewrite Hd, Hfl, (proj2 (Z.eqb_neq _ _) Hs). destruct (IH depth) as [IH1 IH2]. split; intros Hn.
    + rewrite IH1 by lia. by rewrite fmap_cons, fmap_app.
    + destruct IH2 as (l' & Hp & ->); [lia |]. exists (c :: cm_mixins d ++ l'). split; [by apply prefix_cons, prefix_app |].
      by rewrite fmap_cons, fmap_app, <- app_comm_cons, app_assoc.
Qed.

(** A search raises where it comes to the bound, if every class has an answer. *)
Lemma firstIn_raises f l : (forall k, Some k ∈ l -> is_Some (f k)) ->
  firstIn f l = None <-> exists before after, l = before ++ None :: after /\
    forall k, Some k ∈ before -> exists r, f k = Some r /\ symbol_exists r = false.
Proof.
  induction l as [| [x |] l IH]; intros Hdef; cbn [firstIn].
  - split; [done |]. intros (before & after & H & _). by destruct (app_cons_not_nil _ _ _ H).
  - destruct (Hdef x ltac:(by left)) as [r Hr]. rewrite Hr. cbn [mbind option_bind]. destruct (symbol_exists r) eqn:E.
    + split; [done |]. intros (before & after & H & Hb). destruct before as [| o before]; [done |]. injection H as <- _.
      destruct (Hb x ltac:(by left)) as (r' & Hr' & E'). congruence.
    + rewrite IH by (intros k Hk; apply Hdef; by right). split.
      * intros (before & after & -> & Hb). exists (Some x :: before), after. split; [done |].
        intros k [[= ->] | Hk]%elem_of_cons; [by exists r | by apply Hb].
      * intros (before & after & H & Hb). destruct before as [| o before]; [done |]. injection H as <- ->.
        exists before, after. split; [done |]. intros k Hk. apply Hb. by right.
  - split; [| done]. intros _. exists [], l. split; [done |]. by intros k []%not_elem_of_nil.
Qed.

(** C28: members are looked up in a fixed order of classes, for every class, linearized or not, and whether or not names are
    dealiased: the class, its mixins in the order of the linearization or, before they are linearized, from the last
    to the first with all that they lead to, then the same from the superclass. These classes are the ones that fewer than
    100 superclasses and mixins that are not linearized lead to, and the order comes to the bound exactly if 100 of them
    lead somewhere. The first member is the result, no symbol if there is none; and the lookup raises exactly if the bound
    is reached before a member is found. For a class that is linearized together with its superclasses the order is that of the
    ancestors, cut at the bound. *)
Theorem findMemberTransitive_correct gs c name :
  let order := searchOrder gs 100 c in
  findMemberTransitive gs c name = firstIn (fun k => findMember gs k name) order /\
  findMemberTransitiveNoDealias gs c name = firstIn (fun k => findMemberNoDealias gs k name) order /\
  (forall k, Some k ∈ order <-> exists n, (n < 100)%nat /\ leads gs n c k) /\
  (None ∈ order <-> exists k, leads gs 100 c k) /\
  ((forall k, Some k ∈ order -> is_Some (findMember gs k name)) ->
     findMemberTransitive gs c name = None <-> exists before after, order = before ++ None :: after /\
       forall k, Some k ∈ before -> exists r, findMember gs k name = Some r /\ symbol_exists r = false) /\
  (forall n l, ancestors gs c n l ->
     ((n < 100)%nat -> order = Some <$> l) /\
     ((100 <= n)%nat -> exists l', l' `prefix_of` l /\ order = (Some <$> l') ++ [None])).
Proof.
  intros order. pose proof (findMemberTransitive_order gs true name 100 c) as Ht.
  pose proof (findMemberTransitive_order gs false name 100 c) as Hf. destruct (order_leads gs 100 c) as [H1 H2]. fold order in Ht, Hf, H1, H2.
  split_and!; [done | done | done | done | |].
  - intros Hdef. unfold findMemberTransitive. rewrite Ht. by apply firstIn_raises.
  - intros n l Ha. apply (order_ancestors gs c n l Ha 100).
Qed.

(** A class whose superclass and mixin both have the member 7 *)
Definition sampleProgram : Symbolic :=
  let klass module super mixins members :=
    set_linearizationComputed true
      (mkClassOrModule 0 0 3 0 super
         (mkClassFlags (negb module) module false false false false false false true false false false)
         mixins None members NullType []) in
  mkSymbolic
    (mkSymbolTable
       [klass false 0 [] ∅; klass false 0 [] {[7 := classSymbol 1]}; klass true 0 [] {[7 := classSymbol 2]};
        klass false 1 [2] ∅] [] [] [] [])
    (emptyTable 1 1 1) (mkWellKnown 0 0 0 0 0 0).

(** The order of the sample, and of the class without its linearization *)
Lemma findMemberTransitive_correct_witness : findMemberTransitive sampleProgram 3 7 = Some (classSymbol 2) /\
  searchOrder sampleProgram 100 3 = [Some 3; Some 2; Some 1].
Proof.
  destruct (findMemberTransitive_correct sampleProgram 3 7) as (H & _ & _ & _ & _ & Ho).
  split; [rewrite H; reflexivity |]. apply (Ho 1%nat [3; 2; 1]); [| lia].
  pose proof (ancestors_super sampleProgram 3 _ 0 [1] eq_refl eq_refl) as Hs. apply Hs; [done |].
  pose proof (ancestors_top sampleProgram 1 _ eq_refl eq_refl) as H'. by apply H'.
Defined.
