(* ===== verification/Ast.v ===== *)
(** * Syntax trees and their serialization

    Models the tree nodes of src/ast/Trees.h, the factories of src/ast/Helpers.h the deserializer
    builds nodes with, and [SerializerImpl::pickle(Pickler &, const File &, const ExpressionPtr &)]
    and [SerializerImpl::unpickleExpr] of src/core/serialize/serialize.cc: what the cache of
    indexed trees stores per file. References to symbols and names are the [uint32_t] they hold.
    The name [<blk>] ([core::Names::blkArg()], generated by the build) is a parameter. [ENFORCE] is
    compiled out of a release build and checks nothing here. *)

From S2P Require Import Prelude Pickler FileHash Files Locs Types Symbols.

#[local] Set Warnings "-register-all".
#[local] Open Scope Z_scope.
#[local] Open Scope pickle_scope.

(** ** Data *)

Inductive ClassDefKind := KindModule | KindClass.

Inductive IdentKind := IdentLocal | IdentInstance | IdentClass | IdentGlobal.

(** [Send::Flags] *)
Record SendFlags := mkSendFlags {
  sf_isPrivateOk : bool; sf_isRewriterSynthesized : bool; sf_hasBlock : bool }.

(** [FoundMethod::Flags] *)
Record MethodDefFlags := mkMethodDefFlags {
  mdf_isSelfMethod : bool; mdf_isRewriterSynthesized : bool; mdf_isAttrBestEffortUIOnly : bool;
  mdf_discardDef : bool; mdf_genericPropGetter : bool; mdf_hasHandwrittenBody : bool }.

(** [NullTree] is the null [ExpressionPtr]. A [ConstantLit] is in one of three states: a known
    symbol, a symbol with the literal it was resolved from, and a literal whose resolution failed,
    with the scopes that were searched. *)
Inductive Expr :=
| NullTree
| EmptyTree
| Send (loc : LocOffsets) (fun_ : Z) (funLoc : LocOffsets) (flags : SendFlags) (numPosArgs : Z)
    (recv : Expr) (args : list Expr)
| ClassDef (loc declLoc : LocOffsets) (symbol : Z) (kind : ClassDefKind) (rhs : list Expr)
    (name : Expr) (ancestors singletonAncestors : list Expr)
| MethodDef (loc declLoc nameLoc : LocOffsets) (symbol : Z) (rhs : Expr) (params : list Expr)
    (name : Z) (flags : MethodDefFlags)
| If (loc : LocOffsets) (cond thenp elsep : Expr)
| While (loc : LocOffsets) (cond body : Expr)
| Break (loc : LocOffsets) (expr : Expr)
| Retry (loc : LocOffsets)
| Next (loc : LocOffsets) (expr : Expr)
| Return (loc : LocOffsets) (expr : Expr)
| RescueCase (loc : LocOffsets) (exceptions : list Expr) (var body : Expr)
| Rescue (loc : LocOffsets) (body : Expr) (rescueCases : list Expr) (else_ ensure : Expr)
| Local (loc : LocOffsets) (name unique : Z)
| UnresolvedIdent (loc : LocOffsets) (kind : IdentKind) (name : Z)
| RestParam (loc : LocOffsets) (expr : Expr)
| KeywordArg (loc : LocOffsets) (expr : Expr)
| OptionalParam (loc : LocOffsets) (expr default_ : Expr)
| BlockParam (loc : LocOffsets) (expr : Expr)
| ShadowArg (loc : LocOffsets) (expr : Expr)
| Assign (loc : LocOffsets) (lhs rhs : Expr)
| Cast (loc : LocOffsets) (cast : Z) (type : TypePtr) (arg typeExpr : Expr)
| Hash (loc : LocOffsets) (keys values : list Expr)
| Array (loc : LocOffsets) (elems : list Expr)
| Literal (loc : LocOffsets) (value : TypePtr)
| UnresolvedConstantLit (loc : LocOffsets) (cnst : Z) (scope : Expr)
| KnownConstantLit (loc : LocOffsets) (symbol : Z)
| ResolvedConstantLit (symbol : Z) (loc : LocOffsets) (cnst : Z) (scope : Expr)
| FailedConstantLit (resolutionScopes : list Z) (loc : LocOffsets) (cnst : Z) (scope : Expr)
| ZSuperArgs (loc : LocOffsets)
| Block (loc : LocOffsets) (params : list Expr) (body : Expr)
| InsSeq (loc : LocOffsets) (stats : list Expr) (expr : Expr)
| RuntimeMethodDefinition (loc : LocOffsets) (name : Z) (isSelfMethod : bool)
| Self (loc : LocOffsets).

(** [ast::Tag] *)
Definition expr_tag (e : Expr) : Z :=
  match e with
  | NullTree => 0
  | EmptyTree => 1
  | Send _ _ _ _ _ _ _ => 2
  | ClassDef _ _ _ _ _ _ _ _ => 3
  | MethodDef _ _ _ _ _ _ _ _ => 4
  | If _ _ _ _ => 5
  | While _ _ _ => 6
  | Break _ _ => 7
  | Retry _ => 8
  | Next _ _ => 9
  | Return _ _ => 10
  | RescueCase _ _ _ _ => 11
  | Rescue _ _ _ _ _ => 12
  | Local _ _ _ => 13
  | UnresolvedIdent _ _ _ => 14
  | RestParam _ _ => 15
  | KeywordArg _ _ => 16
  | OptionalParam _ _ _ => 17
  | BlockParam _ _ => 18
  | ShadowArg _ _ => 19
  | Assign _ _ _ => 20
  | Cast _ _ _ _ _ => 21
  | Hash _ _ _ => 22
  | Array _ _ => 23
  | Literal _ _ => 24
  | UnresolvedConstantLit _ _ _ => 25
  | KnownConstantLit _ _ | ResolvedConstantLit _ _ _ _ | FailedConstantLit _ _ _ _ => 26
  | ZSuperArgs _ => 27
  | Block _ _ _ => 28
  | InsSeq _ _ _ => 29
  | RuntimeMethodDefinition _ _ _ => 30
  | Self _ => 31
  end.

Definition UNRESOLVED_CONSTANT_LIT_TAG : Z := 25.

Definition u1_of_ClassDefKind (k : ClassDefKind) : Z :=
  match k with KindModule => 0 | KindClass => 1 end.

Definition u1_of_IdentKind (k : IdentKind) : Z :=
  match k with IdentLocal => 0 | IdentInstance => 1 | IdentClass => 2 | IdentGlobal => 3 end.

(** The casts of a byte to an enumeration; a byte that is no enumerator has no meaning. *)
Definition ClassDefKind_of_u1 (z : Z) : unp ClassDefKind :=
  match z with 0 => mret KindModule | 1 => mret KindClass | _ => unp_fail end.

Definition IdentKind_of_u1 (z : Z) : unp IdentKind :=
  match z with
  | 0 => mret IdentLocal
  | 1 => mret IdentInstance
  | 2 => mret IdentClass
  | 3 => mret IdentGlobal
  | _ => unp_fail
  end.

(** [std::bit_cast<uint8_t>] of the flags and back. *)
Definition SendFlags_to_u1 (f : SendFlags) : Z :=
  pack_bits [sf_isPrivateOk f; sf_isRewriterSynthesized f; sf_hasBlock f].

Definition SendFlags_of_u1 (z : Z) : SendFlags :=
  mkSendFlags (Z.testbit z 0) (Z.testbit z 1) (Z.testbit z 2).

Definition MethodDefFlags_to_u1 (f : MethodDefFlags) : Z :=
  pack_bits [mdf_isSelfMethod f; mdf_isRewriterSynthesized f; mdf_isAttrBestEffortUIOnly f;
             mdf_discardDef f; mdf_genericPropGetter f; mdf_hasHandwrittenBody f].

Definition MethodDefFlags_of_u1 (z : Z) : MethodDefFlags :=
  mkMethodDefFlags (Z.testbit z 0) (Z.testbit z 1) (Z.testbit z 2) (Z.testbit z 3) (Z.testbit z 4)
    (Z.testbit z 5).

(** [SymbolRef(Symbols::StubModule()).rawId()]: the index 43 above three bits of kind. *)
Definition StubModule : Z := Z.shiftl 43 3.

(** ** The argument vector of a send

    Positional arguments, then interleaved keyword pairs, then an optional keyword splat, then an
    optional block; [size] is [args.size()]. *)

Definition hasKwSplat (size numPosArgs : Z) (hasBlock : bool) : bool :=
  Z.testbit (u64 (size - numPosArgs - u1_of_bool hasBlock)) 0.

Definition numKwArgs (size numPosArgs : Z) (hasBlock : bool) : Z :=
  u16 (size - numPosArgs - u1_of_bool (hasKwSplat size numPosArgs hasBlock) - u1_of_bool hasBlock) / 2.

Definition numNonBlockArgs (size numPosArgs : Z) (hasBlock : bool) : Z :=
  u16 (numPosArgs + numKwArgs size numPosArgs hasBlock * 2 +
       u1_of_bool (hasKwSplat size numPosArgs hasBlock)).

(** [Send::addPosArg] *)
Definition addPosArg (numPosArgs : Z) (args : list Expr) (ptr : Expr) : Z * list Expr :=
  (u16 (numPosArgs + 1), take (Z.to_nat numPosArgs) args ++ [ptr] ++ drop (Z.to_nat numPosArgs) args).

(** ** Writing *)

(** The first [n] elements, [for (auto &a : l.subspan(0, n))]; reading past the end of the vector
    has no defined result. *)
Fixpoint putFirst {A} (put : A -> wput) (n : nat) (l : list A) {struct l} : wput :=
  match n, l with
  | O, _ => skip
  | S n, a :: l => put a ;;> putFirst put n l
  | S _, [] => raise
  end.

(** [l.back()] *)
Fixpoint putBack {A} (put : A -> wput) (l : list A) : wput :=
  match l with
  | [] => raise
  | [a] => put a
  | _ :: l => putBack put l
  end.

Definition putSize {A} (l : list A) : wput := lift (putU4 (Z.of_nat (length l))).

Definition putLoc (l : LocOffsets) : wput := lift (pickleLocOffsets l).

(** [pickle(p, f, const UnresolvedConstantLit &)], given the writer of its scope. *)
Definition pickleLit (loc : LocOffsets) (cnst : Z) (scope : wput) : wput :=
  putLoc loc ;;> lift (putU4 cnst) ;;> scope.

Fixpoint pickleExpr (what : Expr) : wput :=
  match what with
  | NullTree => lift (putU4 0)
  | _ =>
      lift (putU4 (expr_tag what)) ;;>
      match what with
      | NullTree => skip
      | Send loc fun_ funLoc flags numPosArgs recv args =>
          putLoc loc ;;> lift (putU4 fun_) ;;> putLoc funLoc ;;> lift (putU1 (SendFlags_to_u1 flags)) ;;>
          lift (putU4 numPosArgs) ;;>
          (let numNonBlock := numNonBlockArgs (Z.of_nat (length args)) numPosArgs (sf_hasBlock flags) in
           lift (putU4 (u32 (numNonBlock + (if sf_hasBlock flags then 1 else 0)))) ;;>
           pickleExpr recv ;;>
           putFirst pickleExpr (Z.to_nat numNonBlock) args ;;>
           (if sf_hasBlock flags then putBack pickleExpr args else skip))
      | Block loc params body =>
          putLoc loc ;;> putSize params ;;> pickleExpr body ;;> putEach pickleExpr params
      | Literal loc value => putLoc loc ;;> pickleType value
      | While loc cond body => putLoc loc ;;> pickleExpr cond ;;> pickleExpr body
      | Return loc expr => putLoc loc ;;> pickleExpr expr
      | If loc cond thenp elsep =>
          putLoc loc ;;> pickleExpr cond ;;> pickleExpr thenp ;;> pickleExpr elsep
      | UnresolvedConstantLit loc cnst scope => pickleLit loc cnst (pickleExpr scope)
      | Local loc name unique => putLoc loc ;;> lift (putU4 name) ;;> lift (putU4 unique)
      | Assign loc lhs rhs => putLoc loc ;;> pickleExpr lhs ;;> pickleExpr rhs
      | InsSeq loc stats expr =>
          putLoc loc ;;> putSize stats ;;> pickleExpr expr ;;> putEach pickleExpr stats
      | Next loc expr => putLoc loc ;;> pickleExpr expr
      | Break loc expr => putLoc loc ;;> pickleExpr expr
      | Retry loc => putLoc loc
      | Hash loc keys values =>
          putLoc loc ;;> putSize values ;;> putEach pickleExpr values ;;> putEach pickleExpr keys
      | Array loc elems => putLoc loc ;;> putSize elems ;;> putEach pickleExpr elems
      | Cast loc cast type arg typeExpr =>
          putLoc loc ;;> lift (putU4 cast) ;;> pickleType type ;;> pickleExpr arg ;;> pickleExpr typeExpr
      | EmptyTree => skip
      | ClassDef loc declLoc symbol kind rhs name ancestors singletonAncestors =>
          putLoc loc ;;> putLoc declLoc ;;> lift (putU1 (u1_of_ClassDefKind kind)) ;;>
          lift (putU4 symbol) ;;> putSize ancestors ;;> putSize singletonAncestors ;;> putSize rhs ;;>
          pickleExpr name ;;> putEach pickleExpr ancestors ;;> putEach pickleExpr singletonAncestors ;;>
          putEach pickleExpr rhs
      | MethodDef loc declLoc nameLoc symbol rhs params name flags =>
          putLoc loc ;;> putLoc declLoc ;;> putLoc nameLoc ;;> lift (putU1 (MethodDefFlags_to_u1 flags)) ;;>
          lift (putU4 name) ;;> lift (putU4 symbol) ;;> putSize params ;;> pickleExpr rhs ;;>
          putEach pickleExpr params
      | Rescue loc body rescueCases else_ ensure =>
          putLoc loc ;;> putSize rescueCases ;;> pickleExpr ensure ;;> pickleExpr else_ ;;>
          pickleExpr body ;;> putEach pickleExpr rescueCases
      | RescueCase loc exceptions var body =>
          putLoc loc ;;> putSize exceptions ;;> pickleExpr var ;;> pickleExpr body ;;>
          putEach pickleExpr exceptions
      | RestParam loc expr => putLoc loc ;;> pickleExpr expr
      | KeywordArg loc expr => putLoc loc ;;> pickleExpr expr
      | ShadowArg loc expr => putLoc loc ;;> pickleExpr expr
      | BlockParam loc expr => putLoc loc ;;> pickleExpr expr
      | OptionalParam loc expr default_ => putLoc loc ;;> pickleExpr expr ;;> pickleExpr default_
      | ZSuperArgs loc => putLoc loc
      | UnresolvedIdent loc kind name =>
          putLoc loc ;;> lift (putU1 (u1_of_IdentKind kind)) ;;> lift (putU4 name)
      | KnownConstantLit loc symbol => putLoc loc ;;> lift (putU4 symbol) ;;> lift (putU4 0)
      | ResolvedConstantLit symbol loc cnst scope =>
          putLoc loc ;;> lift (putU4 symbol) ;;> lift (putU4 UNRESOLVED_CONSTANT_LIT_TAG) ;;>
          pickleLit loc cnst (pickleExpr scope)
      | FailedConstantLit _ loc cnst scope =>
          putLoc loc ;;> lift (putU4 StubModule) ;;> lift (putU4 UNRESOLVED_CONSTANT_LIT_TAG) ;;>
          pickleLit loc cnst (pickleExpr scope)
      | RuntimeMethodDefinition loc name isSelfMethod =>
          putLoc loc ;;> lift (putU4 name) ;;> lift (putU1 (u1_of_bool isSelfMethod))
      | Self loc => putLoc loc
      end
  end.

(** ** The factories of [ast::MK] that do more than build a node *)

Definition MK_InsSeq (loc : LocOffsets) (stats : list Expr) (expr : Expr) : Expr :=
  match stats with [] => expr | _ => InsSeq loc stats expr end.

(** An assignment to a send [x.y=()], or to the one a safe navigation ends in, adds the right-hand
    side to the arguments of the send. *)
Definition MK_Assign (loc : LocOffsets) (lhs rhs : Expr) : Expr :=
  match lhs with
  | Send l fun_ funLoc flags numPosArgs recv args =>
      let '(numPosArgs, args) := addPosArg numPosArgs args rhs in
      Send l fun_ funLoc flags numPosArgs recv args
  | InsSeq ls stats (If li cond thenp (Send l fun_ funLoc flags numPosArgs recv args)) =>
      let '(numPosArgs, args) := addPosArg numPosArgs args rhs in
      InsSeq ls stats (If li cond thenp (Send l fun_ funLoc flags numPosArgs recv args))
  | _ => Assign loc lhs rhs
  end.

Definition isLocalOrBlockParam (e : Expr) : bool :=
  match e with Local _ _ _ | BlockParam _ _ => true | _ => false end.

(** A method whose parameters do not end in a block parameter gets the parameter [<blk>]. *)
Definition MK_MethodParams (blkArg : Z) (params : list Expr) : list Expr :=
  if from_option isLocalOrBlockParam false (last params) then params
  else params ++ [BlockParam noOffsets (UnresolvedIdent noOffsets IdentLocal blkArg)].

(** ** Reading *)

Section Reading.
Variable blkArg : Z.

Definition getSize : unp nat := sz ← getU4; mret (Z.to_nat sz).

Fixpoint unpickleExpr (fuel : nat) : unp Expr :=
  match fuel with
  | O => unp_fail
  | S fuel =>
      let unpickleLit (k : LocOffsets -> Z -> Expr -> Expr) : unp Expr :=
        loc ← unpickleLocOffsets; cnst ← getU4; scope ← unpickleExpr fuel; mret (k loc cnst scope) in
      let unpickle1 (k : LocOffsets -> Expr -> Expr) : unp Expr :=
        loc ← unpickleLocOffsets; expr ← unpickleExpr fuel; mret (k loc expr) in
      let unpickle2 (k : LocOffsets -> Expr -> Expr -> Expr) : unp Expr :=
        loc ← unpickleLocOffsets; a ← unpickleExpr fuel; b ← unpickleExpr fuel; mret (k loc a b) in
      kind ← getU4;
      match kind with
      | 0 => mret NullTree
      | 2 =>
          loc ← unpickleLocOffsets; fun_ ← getU4; funLoc ← unpickleLocOffsets; flagsU1 ← getU1;
          numPosArgs ← getU4; argsSize ← getSize; recv ← unpickleExpr fuel;
          store ← getN (unpickleExpr fuel) argsSize;
          mret (Send loc fun_ funLoc (SendFlags_of_u1 flagsU1) (u16 numPosArgs) recv store)
      | 28 =>
          loc ← unpickleLocOffsets; paramsSize ← getSize; body ← unpickleExpr fuel;
          params ← getN (unpickleExpr fuel) paramsSize;
          mret (Block loc params body)
      | 24 => loc ← unpickleLocOffsets; tpe ← unpickleTypePtr; mret (Literal loc tpe)
      | 6 => unpickle2 While
      | 10 => unpickle1 Return
      | 5 =>
          loc ← unpickleLocOffsets; cond ← unpickleExpr fuel; thenp ← unpickleExpr fuel;
          elsep ← unpickleExpr fuel; mret (If loc cond thenp elsep)
      | 25 => unpickleLit UnresolvedConstantLit
      | 13 => loc ← unpickleLocOffsets; nm ← getU4; unique ← getU4; mret (Local loc nm unique)
      | 20 => unpickle2 MK_Assign
      | 29 =>
          loc ← unpickleLocOffsets; insSize ← getSize; expr ← unpickleExpr fuel;
          stats ← getN (unpickleExpr fuel) insSize;
          mret (MK_InsSeq loc stats expr)
      | 9 => unpickle1 Next
      | 7 => unpickle1 Break
      | 8 => loc ← unpickleLocOffsets; mret (Retry loc)
      | 22 =>
          loc ← unpickleLocOffsets; sz ← getSize; values ← getN (unpickleExpr fuel) sz;
          keys ← getN (unpickleExpr fuel) sz; mret (Hash loc keys values)
      | 23 =>
          loc ← unpickleLocOffsets; sz ← getSize; elems ← getN (unpickleExpr fuel) sz;
          mret (Array loc elems)
      | 21 =>
          loc ← unpickleLocOffsets; kind ← getU4; type ← unpickleTypePtr; arg ← unpickleExpr fuel;
          typeExpr ← unpickleExpr fuel; mret (Cast loc kind type arg typeExpr)
      | 1 => mret EmptyTree
      | 3 =>
          loc ← unpickleLocOffsets; declLoc ← unpickleLocOffsets; kind ← getU1; symbol ← getU4;
          ancestorsSize ← getSize; singletonAncestorsSize ← getSize; rhsSize ← getSize;
          name ← unpickleExpr fuel; ancestors ← getN (unpickleExpr fuel) ancestorsSize;
          singletonAncestors ← getN (unpickleExpr fuel) singletonAncestorsSize;
          rhs ← getN (unpickleExpr fuel) rhsSize;
          kind ← ClassDefKind_of_u1 kind;
          mret (ClassDef loc declLoc symbol kind rhs name ancestors singletonAncestors)
      | 4 =>
          loc ← unpickleLocOffsets; declLoc ← unpickleLocOffsets; nameLoc ← unpickleLocOffsets;
          flagsU1 ← getU1; name ← getU4; symbol ← getU4; argsSize ← getSize; rhs ← unpickleExpr fuel;
          params ← getN (unpickleExpr fuel) argsSize;
          mret (MethodDef loc declLoc nameLoc symbol rhs (MK_MethodParams blkArg params) name
                  (MethodDefFlags_of_u1 flagsU1))
      | 12 =>
          loc ← unpickleLocOffsets; rescueCasesSize ← getSize; ensure ← unpickleExpr fuel;
          else_ ← unpickleExpr fuel; body ← unpickleExpr fuel;
          cases ← getN (unpickleExpr fuel) rescueCasesSize;
          mret (Rescue loc body cases else_ ensure)
      | 11 =>
          loc ← unpickleLocOffsets; exceptionsSize ← getSize; var ← unpickleExpr fuel;
          body ← unpickleExpr fuel; exceptions ← getN (unpickleExpr fuel) exceptionsSize;
          mret (RescueCase loc exceptions var body)
      | 15 => unpickle1 RestParam
      | 16 => unpickle1 KeywordArg
      | 19 => unpickle1 ShadowArg
      | 18 => unpickle1 BlockParam
      | 17 => unpickle2 OptionalParam
      | 27 => loc ← unpickleLocOffsets; mret (ZSuperArgs loc)
      | 14 =>
          loc ← unpickleLocOffsets; kind ← getU1; name ← getU4; kind ← IdentKind_of_u1 kind;
          mret (UnresolvedIdent loc kind name)
      | 26 =>
          loc ← unpickleLocOffsets; sym ← getU4; litTag ← getU4;
          if litTag =? UNRESOLVED_CONSTANT_LIT_TAG then unpickleLit (ResolvedConstantLit sym)
          else if negb (litTag =? 0) then unp_fail
          else mret (KnownConstantLit loc sym)
      | 30 =>
          loc ← unpickleLocOffsets; name ← getU4; isSelfMethod ← getU1;
          mret (RuntimeMethodDefinition loc name (bool_of_u1 isSelfMethod))
      | 31 => loc ← unpickleLocOffsets; mret (Self loc)
      | _ => unp_fail
      end
  end.

(** [unpickleExpr] with as much fuel as the buffer has bytes. *)
Definition unpickleTree : unp Expr := fuelled unpickleExpr.
End Reading.

(** ** Induction over trees *)

Section ExprInd.
Variable P : Expr -> Prop.
Hypothesis HNull : P NullTree.
Hypothesis HEmpty : P EmptyTree.
Hypothesis HSend : forall l f fl fs n r args, P r -> Forall P args -> P (Send l f fl fs n r args).
Hypothesis HClassDef : forall l d s k rhs n anc sanc, Forall P rhs -> P n -> Forall P anc ->
  Forall P sanc -> P (ClassDef l d s k rhs n anc sanc).
Hypothesis HMethodDef : forall l d nl s rhs ps n f, P rhs -> Forall P ps ->
  P (MethodDef l d nl s rhs ps n f).
Hypothesis HIf : forall l c t e, P c -> P t -> P e -> P (If l c t e).
Hypothesis HWhile : forall l c b, P c -> P b -> P (While l c b).
Hypothesis HBreak : forall l e, P e -> P (Break l e).
Hypothesis HRetry : forall l, P (Retry l).
Hypothesis HNext : forall l e, P e -> P (Next l e).
Hypothesis HReturn : forall l e, P e -> P (Return l e).
Hypothesis HRescueCase : forall l xs v b, Forall P xs -> P v -> P b -> P (RescueCase l xs v b).
Hypothesis HRescue : forall l b cs e n, P b -> Forall P cs -> P e -> P n -> P (Rescue l b cs e n).
Hypothesis HLocal : forall l n u, P (Local l n u).
Hypothesis HUnresolvedIdent : forall l k n, P (UnresolvedIdent l k n).
Hypothesis HRestParam : forall l e, P e -> P (RestParam l e).
Hypothesis HKeywordArg : forall l e, P e -> P (KeywordArg l e).
Hypothesis HOptionalParam : forall l e d, P e -> P d -> P (OptionalParam l e d).
Hypothesis HBlockParam : forall l e, P e -> P (BlockParam l e).
Hypothesis HShadowArg : forall l e, P e -> P (ShadowArg l e).
Hypothesis HAssign : forall l a b, P a -> P b -> P (Assign l a b).
Hypothesis HCast : forall l c t a te, P a -> P te -> P (Cast l c t a te).
Hypothesis HHash : forall l ks vs, Forall P ks -> Forall P vs -> P (Hash l ks vs).
Hypothesis HArray : forall l es, Forall P es -> P (Array l es).
Hypothesis HLiteral : forall l v, P (Literal l v).
Hypothesis HUnresolved : forall l c s, P s -> P (UnresolvedConstantLit l c s).
Hypothesis HKnown : forall l s, P (KnownConstantLit l s).
Hypothesis HResolved : forall y l c s, P s -> P (ResolvedConstantLit y l c s).
Hypothesis HFailed : forall y l c s, P s -> P (FailedConstantLit y l c s).
Hypothesis HZSuper : forall l, P (ZSuperArgs l).
Hypothesis HBlock : forall l ps b, Forall P ps -> P b -> P (Block l ps b).
Hypothesis HInsSeq : forall l ss e, Forall P ss -> P e -> P (InsSeq l ss e).
Hypothesis HRuntime : forall l n b, P (RuntimeMethodDefinition l n b).
Hypothesis HSelf : forall l, P (Self l).

Fixpoint Expr_nested_ind (e : Expr) : P e :=
  let go := fix go (l : list Expr) : Forall P l :=
    match l with
    | [] => Forall_nil_2 P
    | e :: l => Forall_cons_2 P e l (Expr_nested_ind e) (go l)
    end in
  match e with
  | NullTree => HNull
  | EmptyTree => HEmpty
  | Send l f fl fs n r args => HSend l f fl fs n r args (Expr_nested_ind r) (go args)
  | ClassDef l d s k rhs n anc sanc =>
      HClassDef l d s k rhs n anc sanc (go rhs) (Expr_nested_ind n) (go anc) (go sanc)
  | MethodDef l d nl s rhs ps n f => HMethodDef l d nl s rhs ps n f (Expr_nested_ind rhs) (go ps)
  | If l c t e => HIf l c t e (Expr_nested_ind c) (Expr_nested_ind t) (Expr_nested_ind e)
  | While l c b => HWhile l c b (Expr_nested_ind c) (Expr_nested_ind b)
  | Break l e => HBreak l e (Expr_nested_ind e)
  | Retry l => HRetry l
  | Next l e => HNext l e (Expr_nested_ind e)
  | Return l e => HReturn l e (Expr_nested_ind e)
  | RescueCase l xs v b => HRescueCase l xs v b (go xs) (Expr_nested_ind v) (Expr_nested_ind b)
  | Rescue l b cs e n =>
      HRescue l b cs e n (Expr_nested_ind b) (go cs) (Expr_nested_ind e) (Expr_nested_ind n)
  | Local l n u => HLocal l n u
  | UnresolvedIdent l k n => HUnresolvedIdent l k n
  | RestParam l e => HRestParam l e (Expr_nested_ind e)
  | KeywordArg l e => HKeywordArg l e (Expr_nested_ind e)
  | OptionalParam l e d => HOptionalParam l e d (Expr_nested_ind e) (Expr_nested_ind d)
  | BlockParam l e => HBlockParam l e (Expr_nested_ind e)
  | ShadowArg l e => HShadowArg l e (Expr_nested_ind e)
  | Assign l a b => HAssign l a b (Expr_nested_ind a) (Expr_nested_ind b)
  | Cast l c t a te => HCast l c t a te (Expr_nested_ind a) (Expr_nested_ind te)
  | Hash l ks vs => HHash l ks vs (go ks) (go vs)
  | Array l es => HArray l es (go es)
  | Literal l v => HLiteral l v
  | UnresolvedConstantLit l c s => HUnresolved l c s (Expr_nested_ind s)
  | KnownConstantLit l s => HKnown l s
  | ResolvedConstantLit y l c s => HResolved y l c s (Expr_nested_ind s)
  | FailedConstantLit y l c s => HFailed y l c s (Expr_nested_ind s)
  | ZSuperArgs l => HZSuper l
  | Block l ps b => HBlock l ps b (go ps) (Expr_nested_ind b)
  | InsSeq l ss e => HInsSeq l ss e (go ss) (Expr_nested_ind e)
  | RuntimeMethodDefinition l n b => HRuntime l n b
  | Self l => HSelf l
  end.
End ExprInd.

(** ** What survives *)

(** The direct subtrees of a node, in no particular order. *)
Definition kids (e : Expr) : list Expr :=
  match e with
  | NullTree | EmptyTree | Retry _ | Local _ _ _ | UnresolvedIdent _ _ _ | Literal _ _
  | KnownConstantLit _ _ | ZSuperArgs _ | RuntimeMethodDefinition _ _ _ | Self _ => []
  | Send _ _ _ _ _ recv args => recv :: args
  | ClassDef _ _ _ _ rhs name anc sanc => name :: rhs ++ anc ++ sanc
  | MethodDef _ _ _ _ rhs params _ _ => rhs :: params
  | If _ cond thenp elsep => [cond; thenp; elsep]
  | While _ a b | OptionalParam _ a b | Assign _ a b | Cast _ _ _ a b => [a; b]
  | Break _ e | Next _ e | Return _ e | RestParam _ e | KeywordArg _ e | BlockParam _ e
  | ShadowArg _ e | UnresolvedConstantLit _ _ e | ResolvedConstantLit _ _ _ e
  | FailedConstantLit _ _ _ e => [e]
  | RescueCase _ exceptions var body => var :: body :: exceptions
  | Rescue _ body cases else_ ensure => body :: else_ :: ensure :: cases
  | Hash _ keys values => keys ++ values
  | Array _ elems => elems
  | Block _ params body => body :: params
  | InsSeq _ stats expr => expr :: stats
  end.

(** The locations of a node. *)
Definition node_locs (e : Expr) : list LocOffsets :=
  match e with
  | NullTree | EmptyTree => []
  | Send l _ fl _ _ _ _ => [l; fl]
  | ClassDef l d _ _ _ _ _ _ => [l; d]
  | MethodDef l d nl _ _ _ _ _ => [l; d; nl]
  | If l _ _ _ | While l _ _ | OptionalParam l _ _ | Assign l _ _ | Cast l _ _ _ _ | Break l _
  | Next l _ | Return l _ | RestParam l _ | KeywordArg l _ | BlockParam l _ | ShadowArg l _
  | UnresolvedConstantLit l _ _ | ResolvedConstantLit _ l _ _ | FailedConstantLit _ l _ _
  | RescueCase l _ _ _ | Rescue l _ _ _ _ | Hash l _ _ | Array l _ | Block l _ _ | InsSeq l _ _
  | Retry l | Local l _ _ | UnresolvedIdent l _ _ | Literal l _ | KnownConstantLit l _
  | ZSuperArgs l | RuntimeMethodDefinition l _ _ | Self l => [l]
  end.

(** The names, symbols and other numbers of a node. *)
Definition node_ids (e : Expr) : list Z :=
  match e with
  | Send _ f _ _ _ _ _ => [f]
  | ClassDef _ _ s _ _ _ _ _ => [s]
  | MethodDef _ _ _ s _ _ n _ => [s; n]
  | Local _ n u => [n; u]
  | UnresolvedIdent _ _ n | Cast _ n _ _ _ | UnresolvedConstantLit _ n _ | KnownConstantLit _ n
  | FailedConstantLit _ _ n _ | RuntimeMethodDefinition _ n _ => [n]
  | ResolvedConstantLit y _ n _ => [y; n]
  | _ => []
  end.

Definition Send_ok (size numPosArgs : Z) (hasBlock : bool) : Prop :=
  0 <= numPosArgs /\ numPosArgs + u1_of_bool hasBlock <= size /\ size - u1_of_bool hasBlock < 2 ^ 16.

(** An assignment whose left-hand side [MK::Assign] does not rewrite. *)
Definition plain_lhs (lhs : Expr) : bool :=
  match lhs with
  | Send _ _ _ _ _ _ _ => false
  | InsSeq _ _ (If _ _ _ (Send _ _ _ _ _ _ _)) => false
  | _ => true
  end.

Definition node_shape_ok (e : Expr) : Prop :=
  match e with
  | Send _ _ _ flags numPosArgs _ args =>
      Send_ok (Z.of_nat (length args)) numPosArgs (sf_hasBlock flags)
  | MethodDef _ _ _ _ _ params _ _ => from_option isLocalOrBlockParam false (last params) = true
  | Assign _ lhs _ => plain_lhs lhs = true
  | InsSeq _ stats _ => stats <> []
  | Hash _ keys values => length keys = length values
  | Cast _ _ t _ _ | Literal _ t => type_ok t /\ type_resolved t = true
  | FailedConstantLit _ _ _ _ => False
  | _ => True
  end.

Record node_ok (e : Expr) : Prop := mk_node_ok {
  node_ok_locs : Forall LocOffsets_ok (node_locs e);
  node_ok_ids : Forall is_u32 (node_ids e);
  node_ok_kids : is_u32 (Z.of_nat (length (kids e)));
  node_ok_shape : node_shape_ok e }.

(** A tree all of whose nodes fit the format: references, offsets and the numbers of children have 32 bits; a send has fewer
    than 2^16 arguments besides its block, whose numbers the source keeps in [uint16_t]; the last parameter of a method is a local or a
    block parameter; the left-hand sides of assignments are none that [MK::Assign] rewrites; sequences have statements;
    hashes have as many keys as values; the types of casts and literals are resolved; and no constant failed to resolve. *)
Inductive tree_ok : Expr -> Prop :=
| tree_ok_intro e : node_ok e -> Forall tree_ok (kids e) -> tree_ok e.

(** At most [n] nodes above one another. *)
Fixpoint fits (n : nat) (e : Expr) : Prop :=
  match n with
  | O => False
  | S n => Forall (fits n) (kids e)
  end.

(** ** Lemmas on the parts of a node *)

Lemma u32_expr_tag e : is_u32 (expr_tag e).
Proof. destruct e; unfold is_u32; cbn; lia. Qed.

#[export] Hint Resolve u32_expr_tag : words.

Lemma SendFlags_roundtrip f : SendFlags_of_u1 (SendFlags_to_u1 f) = f.
Proof. by destruct f as [[] [] []]. Qed.

Lemma MethodDefFlags_roundtrip f : MethodDefFlags_of_u1 (MethodDefFlags_to_u1 f) = f.
Proof. by destruct f as [[] [] [] [] [] []]. Qed.

Lemma SendFlags_range f : is_u8 (SendFlags_to_u1 f).
Proof. destruct f as [[] [] []]; unfold is_u8; cbn; lia. Qed.

Lemma MethodDefFlags_range f : is_u8 (MethodDefFlags_to_u1 f).
Proof. destruct f as [[] [] [] [] [] []]; unfold is_u8; cbn; lia. Qed.

Lemma ClassDefKind_range k : is_u8 (u1_of_ClassDefKind k).
Proof. destruct k; unfold is_u8; cbn; lia. Qed.

Lemma IdentKind_range k : is_u8 (u1_of_IdentKind k).
Proof. destruct k; unfold is_u8; cbn; lia. Qed.

#[export] Hint Resolve SendFlags_range MethodDefFlags_range ClassDefKind_range IdentKind_range : words.

#[global] Arguments SendFlags_to_u1 : simpl never.
#[global] Arguments SendFlags_of_u1 : simpl never.
#[global] Arguments MethodDefFlags_to_u1 : simpl never.
#[global] Arguments MethodDefFlags_of_u1 : simpl never.
#[global] Arguments numNonBlockArgs : simpl never.

(** The layout of the arguments accounts for all of them. *)
Lemma numNonBlockArgs_size size n b :
  Send_ok size n b -> numNonBlockArgs size n b = size - u1_of_bool b.
Proof.
  intros (Hn & Hle & Hlt). unfold numNonBlockArgs, numKwArgs, hasKwSplat.
  set (m := size - n - u1_of_bool b).
  assert (Hb : 0 <= u1_of_bool b <= 1) by (destruct b; cbn; lia).
  rewrite (u64_id m) by (unfold m; unfold_words; lia). rewrite Z.bit0_odd.
  replace (size - n - u1_of_bool (Z.odd m) - u1_of_bool b) with (m - u1_of_bool (Z.odd m)) by (unfold m; lia).
  assert (Hm : m - u1_of_bool (Z.odd m) = 2 * Z.div2 m)
    by (rewrite (Z.div2_odd m) at 1; unfold u1_of_bool; destruct (Z.odd m); cbn; lia).
  assert (0 <= Z.div2 m <= m) by (rewrite Z.div2_div; split; [apply Z.div_pos | apply Z.div_le_upper_bound]; lia).
  assert (Hodd : 0 <= u1_of_bool (Z.odd m) <= 1) by (destruct (Z.odd m); cbn; lia).
  rewrite (u16_id (m - _)) by (unfold_words; lia). rewrite Hm at 1.
  replace (2 * Z.div2 m / 2) with (Z.div2 m) by (rewrite Z.mul_comm, Z.div_mul; lia).
  rewrite u16_id; unfold_words; lia.
Qed.

Lemma putFirst_all {A} (put : A -> wput) l w : putFirst put (length l) l w = putEach put l w.
Proof.
  revert w. induction l as [| a l IH]; intros w; cbn; [done |].
  unfold andThen. destruct (put a w); cbn; auto.
Qed.

Lemma putFirst_back {A} (put : A -> wput) l w :
  l <> [] -> (putFirst put (pred (length l)) l ;;> putBack put l) w = putEach put l w.
Proof.
  revert w. induction l as [| a l IH]; intros w Hne; [done |]. cbn [length pred].
  destruct l as [| b l]; [cbn; unfold andThen, skip; by destruct (put a w) |].
  cbn [length pred putFirst putBack putEach] in *. unfold andThen in *.
  destruct (put a w) as [w1 |]; cbn; [| done]. by apply IH.
Qed.

(** What is written of the arguments of a send is all of them, in order. *)
Lemma put_send_args {A} (put : A -> wput) n b (args : list A) w :
  Send_ok (Z.of_nat (length args)) n b ->
  (putFirst put (Z.to_nat (numNonBlockArgs (Z.of_nat (length args)) n b)) args ;;>
   (if b then putBack put args else skip)) w = putEach put args w.
Proof.
  intros Hok. rewrite numNonBlockArgs_size by done. destruct Hok as (? & ? & _). destruct b; cbn in *.
  - rewrite <- putFirst_back by (intros ->; cbn in *; lia). do 3 f_equal. lia.
  - rewrite Z.sub_0_r, Nat2Z.id. rewrite <- putFirst_all. unfold andThen, skip.
    by destruct (putFirst put (length args) args w).
Qed.

(** ** Round trip *)

Lemma emits_ext {A} (f g : wput) (get : unp A) x :
  (forall w, f w = g w) -> emits g get x -> emits f get x.
Proof. intros E H w. rewrite E. apply H. Qed.

Lemma emits_each_id {A} (put : A -> wput) (get : unp A) l :
  Forall (fun a => emits (put a) get a) l -> emits (putEach put l) (getN get (length l)) l.
Proof. intros H. rewrite <- (list_fmap_id l) at 3. by apply emits_each. Qed.

Lemma emits_size {A} (l : list A) : is_u32 (Z.of_nat (length l)) -> emits (putSize l) getSize (length l).
Proof.
  intros H. unfold putSize, getSize. eapply emits_last; [by eauto with pickle |].
  by rewrite Nat2Z.id.
Qed.

Lemma emits_loc l : LocOffsets_ok l -> emits (putLoc l) unpickleLocOffsets l.
Proof. intros H. unfold putLoc. eauto with pickle. Qed.

Lemma emits_resolved t : type_ok t /\ type_resolved t = true -> emits (pickleType t) unpickleTypePtr t.
Proof. intros [Hok Hr]. rewrite <- (reloadType_resolved t Hr) at 2. by apply emits_type. Qed.

#[export] Hint Resolve emits_each_id emits_size emits_loc emits_resolved : pickle.

#[global] Arguments putSize : simpl never.
#[global] Arguments putLoc : simpl never.
#[global] Arguments unpickleTypePtr : simpl never.
#[global] Arguments getSize : simpl never.

Lemma u32_length_le {A} (l : list A) n :
  is_u32 (Z.of_nat n) -> (length l <= n)%nat -> is_u32 (Z.of_nat (length l)).
Proof. unfold_words. lia. Qed.

(** Takes the facts about a node and its subtrees apart. *)
Ltac node_facts :=
  repeat match goal with
         | H : Forall _ (_ :: _) |- _ => apply Forall_cons in H as [? H]
         | H : Forall _ (_ ++ _) |- _ => apply Forall_app in H as [? H]
         | H : Forall _ [] |- _ => clear H
         end.

Ltac vec_size :=
  match goal with
  | H : is_u32 (Z.of_nat (length ?k)) |- is_u32 (Z.of_nat (length ?l)) =>
      apply (u32_length_le l _ H); cbn [length]; rewrite ?length_app; lia
  end.

#[export] Hint Extern 5 (is_u32 (Z.of_nat (length _))) => vec_size : words.

(** The cases of the parts that are decoded by a pure function. *)
Lemma ClassDefKind_decode k : ClassDefKind_of_u1 (u1_of_ClassDefKind k) = mret k.
Proof. by destruct k. Qed.

Lemma IdentKind_decode k : IdentKind_of_u1 (u1_of_IdentKind k) = mret k.
Proof. by destruct k. Qed.

Lemma MK_MethodParams_ok blkArg params :
  from_option isLocalOrBlockParam false (last params) = true -> MK_MethodParams blkArg params = params.
Proof. unfold MK_MethodParams. by intros ->. Qed.

Lemma MK_Assign_plain loc lhs rhs : plain_lhs lhs = true -> MK_Assign loc lhs rhs = Assign loc lhs rhs.
Proof.
  destruct lhs as [| | | | | | | | | | | | | | | | | | | | | | | | | | | | | | | ? ? e | |]; cbn; try done.
  destruct e as [| | | | | ? ? ? e | | | | | | | | | | | | | | | | | | | | | | | | | | | |]; cbn; try done.
  by destruct e.
Qed.

Lemma MK_InsSeq_ok loc stats expr : stats <> [] -> MK_InsSeq loc stats expr = InsSeq loc stats expr.
Proof. by destruct stats. Qed.

Lemma emits_send_size {A} (args : list A) n b :
  Send_ok (Z.of_nat (length args)) n b ->
  emits (lift (putU4 (u32 (numNonBlockArgs (Z.of_nat (length args)) n b + (if b then 1 else 0)))))
    getSize (length args).
Proof.
  intros Hok. rewrite numNonBlockArgs_size by done. destruct Hok as (? & ? & Hlt).
  replace (Z.of_nat (length args) - u1_of_bool b + (if b then 1 else 0)) with (Z.of_nat (length args))
    by (destruct b; cbn; lia).
  assert (is_u32 (Z.of_nat (length args))) by (unfold_words; destruct b; cbn in Hlt; lia).
  rewrite u32_id by done. by apply emits_size.
Qed.

Lemma emits_send_args (get : unp Expr) n b args :
  Send_ok (Z.of_nat (length args)) n b -> Forall (fun k => emits (pickleExpr k) get k) args ->
  emits (putFirst pickleExpr (Z.to_nat (numNonBlockArgs (Z.of_nat (length args)) n b)) args ;;>
         (if b then putBack pickleExpr args else skip)) (getN get (length args)) args.
Proof.
  intros Hok Hem. eapply emits_ext; [by intros; apply put_send_args |]. by apply emits_each_id.
Qed.

#[export] Hint Resolve emits_send_size : pickle.

Lemma Send_ok_numPosArgs size n b : Send_ok size n b -> is_u16 n.
Proof. intros (? & ? & ?). unfold_words. destruct b; cbn in *; lia. Qed.
Lemma expr_emits blkArg n : forall e, tree_ok e -> fits n e ->
  emits (pickleExpr e) (unpickleExpr blkArg n) e.
Proof.
  induction n as [| n IH]; intros e Hok Hfit; [done |].
  destruct Hok as [e [Hlocs Hids Hkids Hshape] Hsub].
  assert (Hem : Forall (fun k => emits (pickleExpr k) (unpickleExpr blkArg n) k) (kids e)).
  { cbn [fits] in Hfit. rewrite Forall_forall in *. auto. }
  clear IH Hsub Hfit.
  destruct e; cbn [kids node_locs node_ids node_shape_ok] in *; node_facts;
    cbn [unpickleExpr pickleExpr]; cbv zeta;
    try (eapply emits_bind; [apply emits_lift; intros; apply decodes_putU4, u32_expr_tag |];
      cbn [expr_tag]; cbv beta iota); unfold pickleLit; try (by emit).
  - pose proof (Send_ok_numPosArgs _ _ _ Hshape). pose proof (is_u16_u32 numPosArgs).
    do 7 (eapply emits_bind; [solve [eauto with pickle words] |]).
    eapply emits_last; [by apply emits_send_args |]. cbv beta.
    by rewrite SendFlags_roundtrip, u16_id.
  - emit. by rewrite ClassDefKind_decode.
  - emit. by rewrite MethodDefFlags_roundtrip, MK_MethodParams_ok.
  - emit. by rewrite IdentKind_decode.
  - emit. by rewrite MK_Assign_plain.
  - emit. rewrite <- Hshape. by emit.
  - emit. rewrite Z.eqb_refl. by emit.
  - emit. by rewrite MK_InsSeq_ok.
  - emit. by destruct isSelfMethod.
Qed.

(** *** The fuel is enough

    Every node other than the null tree starts with a non-zero tag, so each level takes a byte. *)

Lemma grows_loc l : grows (putLoc l).
Proof.
  intros w w' [= <-]. unfold pickleLocOffsets.
  etransitivity; [apply putU4_grows | apply putU4_grows].
Qed.

Lemma grows_size {A} (l : list A) : grows (putSize l).
Proof. apply grows_putU4. Qed.

Lemma grows_first {A} (put : A -> wput) n l :
  Forall (fun a => grows (put a)) l -> grows (putFirst put n l).
Proof.
  intros H. revert n. induction H; intros [| n]; cbn; auto using grows_skip, grows_raise, grows_andThen.
Qed.

Lemma grows_back {A} (put : A -> wput) l : Forall (fun a => grows (put a)) l -> grows (putBack put l).
Proof.
  induction 1 as [| a l Ha Hl IH]; cbn; [apply grows_raise |]. by destruct l.
Qed.

#[export] Hint Resolve grows_loc grows_size grows_first grows_back type_grows : pickle.

Lemma grows_block {A} (b : bool) (put : A -> wput) l :
  Forall (fun a => grows (put a)) l -> grows (if b then putBack put l else skip).
Proof. destruct b; eauto with pickle. Qed.

#[export] Hint Resolve grows_block : pickle.

Lemma expr_grows e : grows (pickleExpr e).
Proof.
  induction e using Expr_nested_ind; cbn [pickleExpr]; unfold pickleLit; eauto 15 with pickle.
Qed.

Lemma adds_ext n (f g : wput) : (forall w, f w = g w) -> adds n g -> adds n f.
Proof. intros E H w w'. rewrite E. apply H. Qed.

Lemma adds_elem {A} (put : A -> wput) a l n :
  a ∈ l -> adds n (put a) -> (forall a, grows (put a)) -> adds n (putEach put l).
Proof.
  intros Ha Hn Hg. induction l as [| b l IH]; [by apply not_elem_of_nil in Ha |]. cbn.
  apply elem_of_cons in Ha as [<- | Ha].
  - apply adds_andThen_l; [done |]. apply grows_each, Forall_true, Hg.
  - apply adds_andThen_r; [apply Hg | by apply IH].
Qed.

(** Finds the write of a subtree among the writes of its node. *)
Ltac find_kid :=
  first
    [ assumption
    | solve [eapply adds_elem; [eassumption | assumption | apply expr_grows]]
    | apply adds_andThen_l; [find_kid | solve [eauto 15 using Forall_true, expr_grows with pickle]]
    | apply adds_andThen_r; [solve [eauto using Forall_true, expr_grows with pickle] | find_kid] ].

Ltac kid_cases :=
  repeat match goal with
         | H : _ ∈ _ :: _ |- _ => apply elem_of_cons in H as [-> | H]
         | H : _ ∈ _ ++ _ |- _ => apply elem_of_app in H as [H | H]
         | H : _ ∈ [] |- _ => by apply not_elem_of_nil in H
         end.

(** A tree takes a byte more than any of its direct subtrees. *)
Lemma kid_adds e k n :
  node_ok e -> k ∈ kids e -> adds n (pickleExpr k) -> adds (S n) (pickleExpr e).
Proof.
  intros [_ _ _ Hshape] Hk Hn.
  destruct e; cbn [kids node_shape_ok] in *; kid_cases; cbn [pickleExpr];
    (apply adds_nonzero; [apply u32_expr_tag | done |]); unfold pickleLit; cbv zeta; try find_kid.
  do 7 (apply adds_andThen_r; [solve [eauto using expr_grows with pickle] |]).
  eapply adds_ext; [by intros; apply put_send_args |]. find_kid.
Qed.

(** Either the nesting of a tree is at most [n], or the tree takes [n] bytes. *)
Lemma fits_or_adds n : forall e, tree_ok e -> fits n e \/ adds n (pickleExpr e).
Proof.
  induction n as [| n IH]; intros e Hok; [right; apply adds_0, expr_grows |].
  destruct Hok as [e Hnode Hsub]. cbn [fits].
  assert (H : Forall (fits n) (kids e) \/ Exists (fun k => adds n (pickleExpr k)) (kids e)).
  { induction Hsub as [| k ks Hk _ IHk]; [left; constructor |].
    destruct (IH k Hk), IHk; try (by left; constructor); right; by (constructor; done). }
  destruct H as [H | H]; [by left | right].
  apply Exists_exists in H as (k & Hk & Hadds). by eapply kid_adds.
Qed.

Lemma fits_mono n m e : (n <= m)%nat -> fits n e -> fits m e.
Proof.
  revert m e. induction n as [| n IH]; intros m e Hle Hf; [done |].
  destruct m as [| m]; [lia |]. cbn [fits] in *. eapply Forall_impl; [exact Hf |].
  intros k. apply IH. lia.
Qed.

(** Every tree has some finite nesting. *)
Lemma fits_kids e : Forall (fun k => exists n, fits n k) (kids e) -> exists n, fits n e.
Proof.
  intros H. cut (exists n, Forall (fits n) (kids e)); [intros [n Hn]; by exists (S n) |].
  induction H as [| k ks [n Hn] _ [m Hm]]; [by exists O |].
  exists (Nat.max n m). constructor; [eapply fits_mono; [| done]; lia |].
  eapply Forall_impl; [exact Hm |]. intros. eapply fits_mono; [| done]; lia.
Qed.

Lemma fits_finite e : exists n, fits n e.
Proof.
  induction e using Expr_nested_ind; apply fits_kids; cbn [kids];
    repeat (apply Forall_cons_2 || apply Forall_app_2 || apply Forall_nil_2); assumption.
Qed.

Lemma emits_tree blkArg e : tree_ok e -> emits (pickleExpr e) (unpickleTree blkArg) e.
Proof.
  intros Hok w. destruct (fits_finite e) as [d0 Hd0].
  destruct (expr_emits blkArg d0 e Hok Hd0 w) as (w' & E & _). exists w'. split; [done |].
  set (d := S (length (pdata w'))).
  assert (Hfit : fits d e).
  { destruct (fits_or_adds d e Hok) as [| Hadds]; [done |]. apply Hadds in E. unfold d in E. lia. }
  apply (decodes_fuelled (unpickleExpr blkArg) d); [| done].
  intros n Hn. destruct (expr_emits blkArg n e Hok (fits_mono d n e Hn Hfit) w) as (w'' & E' & D').
  by simplify_eq.
Qed.

#[export] Hint Resolve emits_tree : pickle.

(** ** The cache entry of a file

    [Serializer::storeTree] and [Serializer::loadTree]. The hash of the source is XXH3 of 128 bits,
    third-party code: [xxh128] gives its 16 bytes. *)

Section Cache.
Context (compress : list Z -> Z -> list Z) (decompress : list Z -> Z -> option (list Z)).
Context (compressBound : Z -> Z) (xxh128 : str -> list Z) (blkArg : Z).

(** [File::sourceHash] *)
Definition sourceHash (file : File) : list Z := xxh128 (source_ file).

Definition pickleTree (file : File) (tree : Expr) : wput :=
  lift (putU4 (u32 (Z.of_nat (length (source_ file))))) ;;> lift (putBytes (sourceHash file)) ;;>
  lift (pickleFileHash (hash_ file)) ;;> pickleExpr tree.

Definition storeTree (file : File) (tree : Expr) : option (list Z) :=
  serialize compress compressBound (pickleTree file tree).

(** The file after the call, and the tree returned: the null tree when the file has changed. *)
Definition readTree (file : File) : unp (File * Expr) :=
  fileSrcLen ← getU4;
  if negb (Z.of_nat (length (source_ file)) =? fileSrcLen) then mret (file, NullTree)
  else
    hashBytes ← getBytes;
    if negb (bool_decide (hashBytes = sourceHash file)) then mret (file, NullTree)
    else
      fileHash ← unpickleFileHash;
      tree ← unpickleTree blkArg;
      mret (setFileHash fileHash file, tree).

Definition loadTree (file : File) (data : list Z) : option (File * Expr) :=
  deserialize decompress (readTree file) data.
End Cache.

(** The documented size of the hash. *)
Definition hashes_16_bytes (xxh128 : str -> list Z) : Prop :=
  forall s, length (xxh128 s) = 16%nat /\ Forall is_u8 (xxh128 s).

Lemma emits_fileHash fh : FileHash_opt_ok fh -> emits (lift (pickleFileHash fh)) unpickleFileHash fh.
Proof. intros H. apply emits_lift. intros w. by apply FileHash_rt. Qed.

Section CacheProofs.
Context (xxh128 : str -> list Z) (Hxxh : hashes_16_bytes xxh128) (blkArg : Z).
Context (file : File) (tree : Expr).
Context (Hsize : Z.of_nat (length (source_ file)) < INVALID_POS_LOC).
Context (Hhash : FileHash_opt_ok (hash_ file)) (Htree : tree_ok tree).

Lemma emits_source_size :
  emits (lift (putU4 (u32 (Z.of_nat (length (source_ file)))))) getU4 (Z.of_nat (length (source_ file))).
Proof.
  unfold INVALID_POS_LOC in Hsize. rewrite u32_id by (unfold_words; lia).
  apply emits_lift. intros. apply decodes_putU4. unfold_words. lia.
Qed.

Lemma emits_source_hash : emits (lift (putBytes (sourceHash xxh128 file))) getBytes (sourceHash xxh128 file).
Proof.
  destruct (Hxxh (source_ file)) as [Hlen Hu]. apply emits_lift. intros. apply decodes_putBytes; [done |].
  unfold sourceHash, is_size. rewrite Hlen. lia.
Qed.

Lemma emits_hash_and_tree :
  emits (lift (pickleFileHash (hash_ file)) ;;> pickleExpr tree)
    (fileHash ← unpickleFileHash; tree ← unpickleTree blkArg; mret (fileHash, tree)) (hash_ file, tree).
Proof.
  eapply emits_bind; [by apply emits_fileHash |]. eapply emits_last; [by apply emits_tree | done].
Qed.

(** The entry is read back for a file with the same source. *)
Lemma scans_tree_same file' :
  source_ file' = source_ file ->
  scans (pickleTree xxh128 file tree) (readTree xxh128 blkArg file') (setFileHash (hash_ file) file', tree).
Proof.
  intros Hsrc. unfold pickleTree, readTree.
  eapply scans_bind; [apply emits_source_size |]. rewrite Hsrc, Z.eqb_refl. cbn [negb].
  eapply scans_bind; [apply emits_source_hash |].
  rewrite bool_decide_eq_true_2 by (unfold sourceHash; by rewrite Hsrc). cbn [negb].
  eapply scans_bind; [by apply emits_fileHash |].
  apply scans_emits. eapply emits_last; [by apply emits_tree | done].
Qed.

(** It is refused for a file whose source has changed its size or its hash. *)
Lemma scans_tree_changed file' :
  length (source_ file') <> length (source_ file) \/ sourceHash xxh128 file' <> sourceHash xxh128 file ->
  scans (pickleTree xxh128 file tree) (readTree xxh128 blkArg file') (file', NullTree).
Proof.
  intros Hne. unfold pickleTree, readTree. eapply scans_bind; [apply emits_source_size |].
  destruct (Z.eqb_spec (Z.of_nat (length (source_ file'))) (Z.of_nat (length (source_ file))))
    as [E | E]; cbn [negb].
  - destruct Hne as [Hne | Hne]; [lia |]. eapply scans_bind; [apply emits_source_hash |].
    rewrite bool_decide_eq_false_2 by congruence. eapply scans_stop, emits_hash_and_tree.
  - eapply scans_stop. eapply (emits_bind _ _ _ (fun _ => _)); [apply emits_source_hash |].
    apply emits_hash_and_tree.
Qed.
End CacheProofs.

(** ** Properties *)

(** C31: every tree that fits the format ([tree_ok]), however deeply nested, is written without an exception
    and read back node for node. The conditions of [tree_ok] are on each node: 32-bit references, offsets and numbers of
    children, fewer than 2^16 arguments of a send besides its block, a local or block parameter at the end of the parameters of a method, no
    left-hand side that [MK::Assign] rewrites, no empty sequence, as many keys as values in a hash, resolved types, and no
    constants that failed to resolve. For such trees the layout of the arguments of a send, the block parameter the
    method factory adds, the assignments and sequences the factories rewrite all come back as they
    were, and the reader's recursion is bounded by the size of the buffer. *)
Theorem tree_roundtrip blkArg tree w :
  tree_ok tree ->
  exists w', pickleExpr tree w = Some w' /\ decodes (unpickleTree blkArg) w w' tree.
Proof. intros Hok. exact (emits_tree blkArg tree Hok w). Qed.

(** [x.foo(1, k: true) { |b| b }] with the positions of the source. *)
Definition sampleTree : Expr :=
  let at_ b e := mkLocOffsets b e in
  InsSeq (at_ 0 30)
    [Assign (at_ 0 5) (Local (at_ 0 1) 12 0) (Literal (at_ 4 5) (IntegerLiteralType 1))]
    (Send (at_ 7 30) 20 (at_ 9 12) (mkSendFlags false false true) 1 (Local (at_ 7 8) 12 0)
       [Literal (at_ 13 14) (IntegerLiteralType 1);
        Literal (at_ 16 18) (NamedLiteralType LitSymbol 9);
        KnownConstantLit (at_ 19 23) 344;
        Block (at_ 25 30) [Local (at_ 26 27) 33 1] (ResolvedConstantLit 8 (at_ 28 29) 4 EmptyTree)]).

Ltac check_tree :=
  repeat (apply tree_ok_intro; [split; cbn | cbn]);
  repeat first [ apply Forall_nil_2 | apply Forall_cons_2 | apply tree_ok_intro; [split; cbn |]; cbn ];
  repeat split; vm_compute; try discriminate; try reflexivity; auto.

Lemma sampleTree_ok : tree_ok sampleTree.
Proof. unfold sampleTree. check_tree. Qed.

Lemma tree_roundtrip_witness :
  exists w', pickleExpr sampleTree emptyPickler = Some w' /\
    decodes (unpickleTree 77) emptyPickler w' sampleTree.
Proof. apply tree_roundtrip, sampleTree_ok. Defined.

(** The cache of indexed trees. What [storeTree] stores for a file and its tree is loaded
    again, with the file hash, for any file with the same source; for a file whose source differs in
    size or hash [loadTree] returns the null tree and leaves the file alone. LZ4 and XXH3 are
    parameters with their documented contracts. *)
Theorem tree_cache_roundtrip compress decompress compressBound xxh128 blkArg file tree :
  lz4_compresses compress compressBound -> lz4_restores compress decompress ->
  hashes_16_bytes xxh128 ->
  Z.of_nat (length (source_ file)) < INVALID_POS_LOC -> FileHash_opt_ok (hash_ file) ->
  tree_ok tree -> small compressBound (pickleTree xxh128 file tree) ->
  exists data, storeTree compress compressBound xxh128 file tree = Some data /\
    forall file',
      (source_ file' = source_ file ->
       loadTree decompress xxh128 blkArg file' data = Some (setFileHash (hash_ file) file', tree)) /\
      (length (source_ file') <> length (source_ file) \/
         sourceHash xxh128 file' <> sourceHash xxh128 file ->
       loadTree decompress xxh128 blkArg file' data = Some (file', NullTree)).
Proof.
  intros Hc Hr Hx Hsize Hhash Htree Hsmall.
  assert (Hload : forall file' x,
    scans (pickleTree xxh128 file tree) (readTree xxh128 blkArg file') x ->
    exists data, storeTree compress compressBound xxh128 file tree = Some data /\
      loadTree decompress xxh128 blkArg file' data = Some x).
  { intros file' x Hs. by eapply container_scans. }
  destruct (Hload file _ (scans_tree_same _ Hx blkArg file tree Hsize Hhash Htree file eq_refl))
    as (data & Hdata & _).
  exists data. split; [done |]. intros file'. split; intros H.
  - destruct (Hload file' _ (scans_tree_same _ Hx blkArg file tree Hsize Hhash Htree file' H))
      as (data' & E & Hl). by simplify_eq.
  - destruct (Hload file' _ (scans_tree_changed _ Hx blkArg file tree Hsize Hhash Htree file' H))
      as (data' & E & Hl). by simplify_eq.
Qed.

(** A hash of the length only. *)
Definition lengthHash (s : str) : list Z := u8 (Z.of_nat (length s)) :: repeat 0 15.

Definition cachedFile (source : str) : File :=
  mkFile 0 Normal (makeFlags s! "a.rb") s! "a.rb" source None Max NoneLevel NoneLevel None.

Lemma tree_cache_roundtrip_witness :
  exists data,
    storeTree storeCompress Z.succ lengthHash (cachedFile s! "x = 1") sampleTree = Some data /\
    loadTree storeDecompress lengthHash 77 (cachedFile s! "x = 1") data =
      Some (cachedFile s! "x = 1", sampleTree) /\
    loadTree storeDecompress lengthHash 77 (cachedFile s! "x = 12") data =
      Some (cachedFile s! "x = 12", NullTree).
Proof.
  destruct (tree_cache_roundtrip storeCompress storeDecompress Z.succ lengthHash 77
    (cachedFile s! "x = 1") sampleTree) as (data & E & Hl).
  - apply storeCompress_compresses.
  - apply storeCompress_restores.
  - intros s. split; [reflexivity |]. constructor; [apply u8_range |].
    repeat constructor; unfold is_u8; lia.
  - reflexivity.
  - exact I.
  - exact sampleTree_ok.
  - intros p [= <-]. split; [vm_compute; discriminate | vm_compute; reflexivity].
  - exists data. split; [exact E |]. split; [by apply Hl |]. apply Hl. left. vm_compute. discriminate.
Defined.
