(* ===== verification/TreeWalk.v ===== *)
(** * Walks over syntax trees

    Models [TreeMapper] of src/ast/treemap/treemap.h as [ConstTreeWalk], [ConstShallowWalk] and [TreeQuery]
    use it: a visitor has hooks that are called before and after a node, and keeps a state. A walk ignores what a hook
    returns; a query stops where a hook says so. A node is known by its place, the numbers of the
    children on the way to it, innermost first. A walk is left by an exception of a hook, or by its own at a node that is only
    allowed elsewhere; the state of the visitor is then what the hooks have made of it. *)

From S2P Require Import Prelude Pickler FileHash Files Locs Types NameTable NameText Symbols SymbolRefs Ast.

#[local] Open Scope Z_scope.

(** [core::Context] without the global state *)
Record CoreContext := mkContext { ctx_owner : Z; ctx_file : Z }.

Definition withOwner (sym : Z) (ctx : CoreContext) : CoreContext := mkContext sym (ctx_file ctx).

Inductive TreeMapKind := ConstWalk | Query.

Inductive TreeMapDepthKind := Full | Shallow.

Inductive QueryControl := Continue | Done | Skip.

(** [preTransformExpressionPtr], and [preTransform] and [postTransform] of the class of the node *)
Inductive Phase := PreExpression | Pre | Post.

Abbreviation Place := (list nat).

Record Call := mkCall { ca_phase : Phase; ca_ctx : CoreContext; ca_place : Place; ca_node : Expr }.

(** A hook, or a walk, returns a value or raises an exception; either way the visitor is left in some state. *)
Inductive Outcome (St A : Type) := Throws (s : St) | Returns (s : St) (a : A).
Arguments Throws {St A} s.
Arguments Returns {St A} s a.

(** The state, if nothing was raised *)
Definition result {St A} (o : Outcome St A) : option St := match o with Throws _ => None | Returns s _ => Some s end.

(** The state that is left *)
Definition leftBy {St A} (o : Outcome St A) : St := match o with Throws s | Returns s _ => s end.

Section Mapper.
Context {St : Type} (kind : TreeMapKind) (depth : TreeMapDepthKind).
(** A hook that the visitor does not have returns [Continue] and changes nothing. *)
Context (hook : Call -> St -> Outcome St QueryControl).

(** What follows is skipped when the query is done. *)
Definition andThen (r : Outcome St bool) (k : St -> Outcome St bool) : Outcome St bool :=
  match r with
  | Throws s => Throws s
  | Returns s true => Returns s true
  | Returns s false => k s
  end.

Definition callPreExpression (ctx : CoreContext) (p : Place) (v : Expr) (s : St) : Outcome St bool :=
  match kind with
  | ConstWalk => match hook (mkCall PreExpression ctx p v) s with Throws s => Throws s | Returns s _ => Returns s false end
  | Query => Returns s false
  end.

(** [CALL_PRE]; [k] is the rest of the function. *)
Definition callPre (ctx : CoreContext) (p : Place) (v : Expr) (s : St) (k : St -> Outcome St bool) : Outcome St bool :=
  match hook (mkCall Pre ctx p v) s with
  | Throws s => Throws s
  | Returns s control =>
      match kind with
      | ConstWalk => k s
      | Query => match control with Continue => k s | Done => Returns s true | Skip => Returns s false end
      end
  end.

(** [CALL_POST] *)
Definition callPost (ctx : CoreContext) (p : Place) (v : Expr) (s : St) : Outcome St bool :=
  match hook (mkCall Post ctx p v) s with
  | Throws s => Throws s
  | Returns s control => Returns s (match kind, control with Query, Done => true | _, _ => false end)
  end.

(** A loop over the nodes of a list, with their numbers *)
Definition eachFrom (f : nat -> Expr -> St -> Outcome St bool) : nat -> list Expr -> St -> Outcome St bool :=
  fix each (i : nat) (l : list Expr) (s : St) : Outcome St bool :=
    match l with
    | [] => Returns s false
    | x :: l => andThen (f i x s) (each (S i) l)
    end.

(** The nodes that [mapIt] refuses *)
Definition isRefused (e : Expr) : bool :=
  match e with
  | RescueCase _ _ _ _ | RestParam _ _ | KeywordArg _ _ | OptionalParam _ _ _ | BlockParam _ _ | ShadowArg _ _ => true
  | _ => false
  end.

(** [mapIt], with [f] for the functions of the classes *)
Definition enter (f : CoreContext -> Place -> Expr -> St -> Outcome St bool) (ctx : CoreContext) (p : Place) (what : Expr) (s : St)
    : Outcome St bool :=
  match what with
  | NullTree => Returns s false
  | _ => andThen (callPreExpression ctx p what s) (fun s => if isRefused what then Throws s else f ctx p what s)
  end.

(** [mapSend], [mapClassDef] and so on *)
Fixpoint mapNode (ctx : CoreContext) (p : Place) (v : Expr) (s : St) {struct v} : Outcome St bool :=
  match v with
  | NullTree | EmptyTree | ZSuperArgs _ => Returns s false
  | Send _ _ _ _ _ recv args =>
      callPre ctx p v s (fun s =>
      andThen (enter mapNode ctx (0%nat :: p) recv s) (fun s =>
      andThen (eachFrom (fun i arg => enter mapNode ctx (i :: p) arg) 1 args s) (callPost ctx p v)))
  | ClassDef _ _ symbol _ rhs _ _ _ =>
      callPre ctx p v s (fun s =>
      andThen (eachFrom (fun i def => enter mapNode (withOwner (classSymbol symbol) ctx) (i :: p) def) 0 rhs s)
        (callPost ctx p v))
  | MethodDef _ _ _ symbol rhs params _ _ =>
      callPre ctx p v s (fun s =>
      andThen (eachFrom (fun i param s =>
                 match param with
                 | OptionalParam _ _ default_ =>
                     enter mapNode (withOwner (makeSymbolRef KMethod symbol) ctx) (0%nat :: i :: p) default_ s
                 | _ => Returns s false
                 end) 1 params s) (fun s =>
      andThen (match depth with
               | Full => enter mapNode (withOwner (makeSymbolRef KMethod symbol) ctx) (0%nat :: p) rhs s
               | Shallow => Returns s false
               end) (callPost ctx p v)))
  | If _ cond thenp elsep =>
      callPre ctx p v s (fun s =>
      andThen (enter mapNode ctx (0%nat :: p) cond s) (fun s =>
      andThen (enter mapNode ctx (1%nat :: p) thenp s) (fun s =>
      andThen (enter mapNode ctx (2%nat :: p) elsep s) (callPost ctx p v))))
  | While _ cond body =>
      callPre ctx p v s (fun s =>
      andThen (enter mapNode ctx (0%nat :: p) cond s) (fun s =>
      andThen (enter mapNode ctx (1%nat :: p) body s) (callPost ctx p v)))
  | Break _ expr | Next _ expr | Return _ expr =>
      callPre ctx p v s (fun s => andThen (enter mapNode ctx (0%nat :: p) expr s) (callPost ctx p v))
  | RescueCase _ exceptions var body =>
      callPre ctx p v s (fun s =>
      andThen (eachFrom (fun i el => enter mapNode ctx (i :: p) el) 2 exceptions s) (fun s =>
      andThen (enter mapNode ctx (0%nat :: p) var s) (fun s =>
      andThen (enter mapNode ctx (1%nat :: p) body s) (callPost ctx p v))))
  | Rescue _ body rescueCases else_ ensure =>
      callPre ctx p v s (fun s =>
      andThen (enter mapNode ctx (0%nat :: p) body s) (fun s =>
      andThen (match kind with
               | ConstWalk => eachFrom (fun i el s => match el with RescueCase _ _ _ _ => mapNode ctx (i :: p) el s | _ => Throws s end)
                                3 rescueCases s
               | Query => Returns s false
               end) (fun s =>
      andThen (enter mapNode ctx (1%nat :: p) else_ s) (fun s =>
      andThen (enter mapNode ctx (2%nat :: p) ensure s) (callPost ctx p v)))))
  | Assign _ lhs rhs =>
      callPre ctx p v s (fun s =>
      andThen (enter mapNode ctx (0%nat :: p) lhs s) (fun s =>
      andThen (enter mapNode ctx (1%nat :: p) rhs s) (callPost ctx p v)))
  | Cast _ _ _ arg typeExpr =>
      callPre ctx p v s (fun s =>
      andThen (enter mapNode ctx (0%nat :: p) arg s) (fun s =>
      andThen (enter mapNode ctx (1%nat :: p) typeExpr s) (callPost ctx p v)))
  | Hash _ keys values =>
      callPre ctx p v s (fun s =>
      andThen (eachFrom (fun i key => enter mapNode ctx (i :: p) key) 0 keys s) (fun s =>
      andThen (eachFrom (fun i value => enter mapNode ctx (i :: p) value) (length keys) values s) (callPost ctx p v)))
  | Array _ elems =>
      callPre ctx p v s (fun s =>
      andThen (eachFrom (fun i elem => enter mapNode ctx (i :: p) elem) 0 elems s) (callPost ctx p v))
  | Block _ params body =>
      callPre ctx p v s (fun s =>
      andThen (eachFrom (fun i param s =>
                 match param with
                 | OptionalParam _ _ default_ => enter mapNode ctx (0%nat :: i :: p) default_ s
                 | _ => Returns s false
                 end) 1 params s) (fun s =>
      andThen (enter mapNode ctx (0%nat :: p) body s) (callPost ctx p v)))
  | InsSeq _ stats expr =>
      callPre ctx p v s (fun s =>
      andThen (eachFrom (fun i stat => enter mapNode ctx (i :: p) stat) 1 stats s) (fun s =>
      andThen (enter mapNode ctx (0%nat :: p) expr s) (callPost ctx p v)))
  | Retry _ | UnresolvedIdent _ _ _ | Literal _ _ | UnresolvedConstantLit _ _ _ | KnownConstantLit _ _
  | ResolvedConstantLit _ _ _ _ | FailedConstantLit _ _ _ _ | Local _ _ _ | RuntimeMethodDefinition _ _ _ | Self _ =>
      callPost ctx p v s
  | RestParam _ _ | KeywordArg _ _ | OptionalParam _ _ _ | BlockParam _ _ | ShadowArg _ _ => Throws s
  end.

Definition mapIt : CoreContext -> Place -> Expr -> St -> Outcome St bool := enter mapNode.
End Mapper.

(** A hook of a walk, or of a query, that leaves its state as it was when it raises *)
Definition lifted {St} (hook : Call -> St -> option St) (call : Call) (s : St) : Outcome St QueryControl :=
  match hook call s with Some s => Returns s Continue | None => Throws s end.

Definition queried {St} (hook : Call -> St -> option (St * QueryControl)) (call : Call) (s : St) : Outcome St QueryControl :=
  match hook call s with Some (s, control) => Returns s control | None => Throws s end.

Definition constWalk {St} (depth : TreeMapDepthKind) (hook : Call -> St -> option St) (ctx : CoreContext) (to : Expr) (s : St)
    : option St :=
  result (mapIt ConstWalk depth (lifted hook) ctx [] to s).

(** [ConstTreeWalk::apply] and [ConstShallowWalk::apply] of a tree; the second may be left by an exception that is caught. *)
Definition constTreeWalk {St} (hook : Call -> St -> option St) : CoreContext -> Expr -> St -> option St := constWalk Full hook.

Definition constShallowWalk {St} (hook : Call -> St -> Outcome St QueryControl) (ctx : CoreContext) (to : Expr) (s : St)
    : Outcome St bool :=
  mapIt ConstWalk Shallow hook ctx [] to s.

(** [ConstTreeWalk::apply] of a class: [mapClassDefDirect] goes through no [preTransformExpressionPtr]. *)
Definition constTreeWalkClass {St} (hook : Call -> St -> option St) (ctx : CoreContext) (to : Expr) (s : St) : option St :=
  result (mapNode ConstWalk Full (lifted hook) ctx [] to s).

(** [TreeQuery::apply] *)
Definition treeQuery {St} (hook : Call -> St -> option (St * QueryControl)) (ctx : CoreContext) (to : Expr) (s : St) : option St :=
  result (mapIt Query Full (queried hook) ctx [] to s).

(** ** The children of a node

    In the order of the visits, with the context and the place below the node; a child that is not
    entered through [mapIt] is marked. *)

Record Child := mkChild { ch_direct : bool; ch_ctx : CoreContext; ch_place : Place; ch_node : Expr }.

Definition childAt (ctx : CoreContext) (i : nat) (x : Expr) : Child := mkChild false ctx [i] x.

Fixpoint childrenFrom (ctx : CoreContext) (n : nat) (l : list Expr) : list Child :=
  match l with [] => [] | x :: l => childAt ctx n x :: childrenFrom ctx (S n) l end.

Fixpoint directFrom (ctx : CoreContext) (n : nat) (l : list Expr) : list Child :=
  match l with [] => [] | x :: l => mkChild true ctx [n] x :: directFrom ctx (S n) l end.

(** Only optional parameters have subexpressions. *)
Definition defaultOf (ctx : CoreContext) (i : nat) (param : Expr) : list Child :=
  match param with OptionalParam _ _ default_ => [mkChild false ctx [0; i]%nat default_] | _ => [] end.

Fixpoint defaultsFrom (ctx : CoreContext) (n : nat) (params : list Expr) : list Child :=
  match params with [] => [] | param :: params => defaultOf ctx n param ++ defaultsFrom ctx (S n) params end.

Definition children (kind : TreeMapKind) (depth : TreeMapDepthKind) (ctx : CoreContext) (v : Expr) : list Child :=
  match v with
  | Send _ _ _ _ _ recv args => childAt ctx 0 recv :: childrenFrom ctx 1 args
  | ClassDef _ _ symbol _ rhs _ _ _ => childrenFrom (withOwner (classSymbol symbol) ctx) 0 rhs
  | MethodDef _ _ _ symbol rhs params _ _ =>
      let ctx := withOwner (makeSymbolRef KMethod symbol) ctx in
      defaultsFrom ctx 1 params ++ match depth with Full => [childAt ctx 0 rhs] | Shallow => [] end
  | If _ cond thenp elsep => [childAt ctx 0 cond; childAt ctx 1 thenp; childAt ctx 2 elsep]
  | While _ a b | Assign _ a b | Cast _ _ _ a b => [childAt ctx 0 a; childAt ctx 1 b]
  | Break _ expr | Next _ expr | Return _ expr => [childAt ctx 0 expr]
  | RescueCase _ exceptions var body => childrenFrom ctx 2 exceptions ++ [childAt ctx 0 var; childAt ctx 1 body]
  | Rescue _ body rescueCases else_ ensure =>
      childAt ctx 0 body ::
      match kind with ConstWalk => directFrom ctx 3 rescueCases | Query => [] end ++
      [childAt ctx 1 else_; childAt ctx 2 ensure]
  | Hash _ keys values => childrenFrom ctx 0 keys ++ childrenFrom ctx (length keys) values
  | Array _ elems => childrenFrom ctx 0 elems
  | Block _ params body => defaultsFrom ctx 1 params ++ [childAt ctx 0 body]
  | InsSeq _ stats expr => childrenFrom ctx 1 stats ++ [childAt ctx 0 expr]
  | _ => []
  end.

(** The nodes without hooks, and those with a hook before *)
Definition isSilent (e : Expr) : bool := match e with NullTree | EmptyTree | ZSuperArgs _ => true | _ => false end.

Definition hasPre (e : Expr) : bool :=
  match e with
  | Send _ _ _ _ _ _ _ | ClassDef _ _ _ _ _ _ _ _ | MethodDef _ _ _ _ _ _ _ _ | If _ _ _ _ | While _ _ _ | Break _ _
  | Next _ _ | Return _ _ | RescueCase _ _ _ _ | Rescue _ _ _ _ _ | Assign _ _ _ | Cast _ _ _ _ _ | Hash _ _ _
  | Array _ _ | Block _ _ _ | InsSeq _ _ _ => true
  | _ => false
  end.

Definition isRescueCase (e : Expr) : bool := match e with RescueCase _ _ _ _ => true | _ => false end.

Section Children.
Context {St : Type} (kind : TreeMapKind) (depth : TreeMapDepthKind) (hook : Call -> St -> Outcome St QueryControl).

Abbreviation walk := (St -> Outcome St bool).
Abbreviation visitNode := (mapNode kind depth hook).
Abbreviation enterNode := (enter kind hook).

Fixpoint runAll (fs : list walk) (s : St) : Outcome St bool :=
  match fs with [] => Returns s false | f :: fs => andThen (f s) (runAll fs) end.

Definition mapChild (p : Place) (ch : Child) (s : St) : Outcome St bool :=
  if ch_direct ch then if isRescueCase (ch_node ch) then visitNode (ch_ctx ch) (ch_place ch ++ p) (ch_node ch) s else Throws s
  else enterNode visitNode (ch_ctx ch) (ch_place ch ++ p) (ch_node ch) s.

Lemma andThen_ext r (k k' : walk) : (forall s, k s = k' s) -> andThen r k = andThen r k'.
Proof. intros H. destruct r as [s|s []]; cbn; [done|done|apply H]. Qed.

Lemma andThen_ret s (k : walk) : andThen (Returns s false) k = k s.
Proof. done. Qed.

Lemma andThen_assoc r (k k' : walk) : andThen (andThen r k) k' = andThen r (fun s => andThen (k s) k').
Proof. by destruct r as [s|s []]. Qed.

Lemma callPre_ext ctx p v s (k k' : walk) : (forall s, k s = k' s) -> callPre kind hook ctx p v s k = callPre kind hook ctx p v s k'.
Proof. intros H. unfold callPre. destruct (hook _ s) as [s'|s' []]; cbn; [done|..]; destruct kind; try done; apply H. Qed.

Lemma runAll_app fs gs s : runAll (fs ++ gs) s = andThen (runAll fs s) (runAll gs).
Proof.
  revert s. induction fs as [|f fs IH]; intros s; [done|]. cbn [runAll app]. rewrite andThen_assoc. by apply andThen_ext.
Qed.

Lemma eachFrom_children ctx p l n s : eachFrom (fun i x => enterNode visitNode ctx (i :: p) x) n l s =
  runAll (mapChild p <$> childrenFrom ctx n l) s.
Proof.
  revert n s. induction l as [|x l IH]; intros n s; [done|]. cbn [eachFrom childrenFrom fmap list_fmap runAll].
  apply andThen_ext. intros s'. apply (IH (S n) s').
Qed.

Lemma eachFrom_direct ctx p l n s :
  eachFrom (fun i el s => match el with RescueCase _ _ _ _ => visitNode ctx (i :: p) el s | _ => Throws s end) n l s =
  runAll (mapChild p <$> directFrom ctx n l) s.
Proof.
  revert n s. induction l as [|x l IH]; intros n s; [done|]. cbn [eachFrom directFrom fmap list_fmap runAll].
  transitivity (andThen (mapChild p (mkChild true ctx [n] x) s) (eachFrom (fun i el s => match el with RescueCase _ _ _ _ =>
    visitNode ctx (i :: p) el s | _ => Throws s end) (S n) l)).
  - by destruct x.
  - apply andThen_ext. intros s'. apply (IH (S n) s').
Qed.

Lemma eachFrom_defaults ctx p params n s :
  eachFrom (fun i param s => match param with OptionalParam _ _ d => enterNode visitNode ctx (0%nat :: i :: p) d s | _ => Returns s false end)
    n params s = runAll (mapChild p <$> defaultsFrom ctx n params) s.
Proof.
  revert n s. induction params as [|x params IH]; intros n s; [done|]. cbn [eachFrom defaultsFrom]. rewrite fmap_app, runAll_app.
  transitivity (andThen (runAll (mapChild p <$> defaultOf ctx n x) s)
    (eachFrom (fun i param s => match param with OptionalParam _ _ d => enterNode visitNode ctx (0%nat :: i :: p) d s | _ => Returns s false end)
       (S n) params)).
  - destruct x; try done. cbn [defaultOf fmap list_fmap runAll]. rewrite andThen_assoc. by apply andThen_ext.
  - apply andThen_ext. intros s'. apply (IH (S n) s').
Qed.

Lemma runAll_walk (fs : list walk) s :
  match kind with ConstWalk => runAll fs s | Query => Returns s false end =
  runAll (match kind with ConstWalk => fs | Query => [] end) s.
Proof. by destruct kind. Qed.

Lemma fmap_walk {A B} (f : A -> B) (l : list A) :
  f <$> match kind with ConstWalk => l | Query => [] end = match kind with ConstWalk => f <$> l | Query => [] end.
Proof. by destruct kind. Qed.

Lemma runAll_depth (f : walk) s :
  runAll (match depth with Full => [f] | Shallow => [] end) s = match depth with Full => f s | Shallow => Returns s false end.
Proof. destruct depth; [|done]. cbn. by destruct (f s) as [?|? []]. Qed.

Lemma fmap_depth {A B} (f : A -> B) (x : A) :
  f <$> match depth with Full => [x] | Shallow => [] end = match depth with Full => [f x] | Shallow => [] end.
Proof. by destruct depth. Qed.

(** Bring both sides into the form of a sequence. *)
Ltac line_up :=
  repeat (rewrite ?eachFrom_children, ?eachFrom_direct, ?eachFrom_defaults, ?runAll_app, ?andThen_assoc, ?andThen_ret; cbn [runAll fmap list_fmap];
    try done; try (apply andThen_ext; intros ?)).

(** The function of a class, by the children *)
Lemma mapNode_children ctx p v s : visitNode ctx p v s =
  if isSilent v then Returns s false
  else if hasPre v then callPre kind hook ctx p v s (fun s =>
    andThen (runAll (mapChild p <$> children kind depth ctx v) s) (callPost kind hook ctx p v))
  else if isRefused v then Throws s else callPost kind hook ctx p v s.
Proof.
  destruct v; try done; cbn [isSilent hasPre children mapNode]; apply callPre_ext; intros s'; rewrite ?fmap_app, ?fmap_cons.
  all: line_up.
  - rewrite fmap_depth, runAll_depth. line_up.
  - rewrite fmap_app, runAll_walk, fmap_walk. line_up.
Qed.
End Children.

(** ** Induction over what is visited *)

Lemma childrenFrom_node ctx n l ch : ch ∈ childrenFrom ctx n l -> ch_node ch ∈ l.
Proof.
  revert n. induction l as [|x l IH]; intros n; cbn; [by intros []%not_elem_of_nil|].
  intros [->|H]%elem_of_cons; [by left|right; by eapply IH].
Qed.

Lemma directFrom_node ctx n l ch : ch ∈ directFrom ctx n l -> ch_node ch ∈ l.
Proof.
  revert n. induction l as [|x l IH]; intros n; cbn; [by intros []%not_elem_of_nil|].
  intros [->|H]%elem_of_cons; [by left|right; by eapply IH].
Qed.

Lemma defaultsFrom_node ctx n l ch : ch ∈ defaultsFrom ctx n l -> exists loc e, OptionalParam loc e (ch_node ch) ∈ l.
Proof.
  revert n. induction l as [|x l IH]; intros n; cbn; [by intros []%not_elem_of_nil|].
  intros [H|H]%elem_of_app.
  - destruct x; try by apply not_elem_of_nil in H. apply list_elem_of_singleton in H as ->. eexists _, _. by left.
  - apply IH in H as (loc & e & H). exists loc, e. by right.
Qed.

(** The property of a node, and of the default of a parameter *)
Definition withDefault (P : Expr -> Prop) (v : Expr) : Prop := P v /\ match v with OptionalParam _ _ d => P d | _ => True end.

(** A property holds of all nodes if it holds of a node whenever it holds of its children. *)
Lemma children_ind (kind : TreeMapKind) (depth : TreeMapDepthKind) (P : Expr -> Prop) :
  (forall v, (forall ctx ch, ch ∈ children kind depth ctx v -> P (ch_node ch)) -> P v) -> forall v, P v.
Proof.
  intros Hstep v. enough (withDefault P v) as [? _] by done.
  induction v using Expr_nested_ind; (split; [apply Hstep|try done; try by match goal with H : withDefault P ?d |- P ?d => apply H end]);
    intros ctx ch; cbn [children]; try by intros []%not_elem_of_nil.
  all: repeat match goal with H : withDefault _ _ |- _ => destruct H as [H _] end.
  all: try destruct depth.
  all: rewrite ?elem_of_app, ?elem_of_cons, ?elem_of_nil; intros Hch.
  all: repeat match goal with H : _ \/ _ |- _ => destruct H as [H|H] end; subst; try done.
  all: try (apply elem_of_app in Hch as [Hch|Hch]).
  all: rewrite ?elem_of_cons, ?elem_of_nil in Hch; repeat match goal with H : _ \/ _ |- _ => destruct H as [H|H] end; subst; try done.
  all: try (destruct kind; [|by apply not_elem_of_nil in Hch]).
  all: match type of Hch with
       | _ ∈ defaultsFrom _ _ _ => apply defaultsFrom_node in Hch as (loc & e & Hch)
       | _ ∈ directFrom _ _ _ => apply directFrom_node in Hch
       | _ => apply childrenFrom_node in Hch
       end.
  all: match goal with Hin : _ ∈ ?l, HF : Forall _ ?l |- _ => by apply (proj1 (Forall_forall _ _) HF) in Hin as [? ?] end.
Qed.

(** ** The calls of a walk *)

(** *** Properties of all nodes of a tree *)

Inductive everyNode (P : Expr -> Prop) : Expr -> Prop :=
| everyNode_intro v : P v -> Forall (everyNode P) (kids v) -> everyNode P v.

Fixpoint everyNodeb (p : Expr -> bool) (fuel : nat) (v : Expr) : bool :=
  match fuel with O => false | S fuel => p v && forallb (everyNodeb p fuel) (kids v) end.

Lemma everyNodeb_sound p (P : Expr -> Prop) fuel v : (forall x, p x = true -> P x) -> everyNodeb p fuel v = true -> everyNode P v.
Proof.
  intros Hp. revert v. induction fuel as [|fuel IH]; intros v; cbn; [done|]. intros [Hv Hk]%andb_true_iff.
  constructor; [auto|]. apply Forall_forall. intros x Hx. apply IH. rewrite forallb_forall in Hk. apply Hk. by apply list_elem_of_In.
Qed.

Lemma children_everyNode P kind depth ctx v ch : everyNode P v -> ch ∈ children kind depth ctx v -> everyNode P (ch_node ch).
Proof.
  intros [v' _ Hk] Hch. rewrite Forall_forall in Hk.
  assert (H3 : forall c n l, ch ∈ defaultsFrom c n l -> (forall x, x ∈ l -> everyNode P x) -> everyNode P (ch_node ch)).
  { intros c n l (loc & e & Hin)%defaultsFrom_node Hl. apply Hl in Hin. inversion Hin as [? _ H]. cbn in H.
    apply Forall_cons in H as [_ H]. by apply Forall_cons in H as [H _]. }
  destruct v'; cbn [children kids] in *; try destruct depth; try destruct kind;
    rewrite ?elem_of_app, ?elem_of_cons, ?elem_of_app, ?elem_of_cons, ?elem_of_nil in Hch.
  all: repeat match goal with H : _ \/ _ |- _ => destruct H as [H|H] end; subst; try done.
  all: repeat match type of Hch with
       | _ ∈ defaultsFrom _ _ _ => eapply H3; [exact Hch|]; intros ? ?; apply Hk
       | _ ∈ directFrom _ _ _ => apply directFrom_node in Hch; apply Hk
       | _ ∈ childrenFrom _ _ _ => apply childrenFrom_node in Hch; apply Hk
       end.
  all: try apply Hk; set_solver.
Qed.

Section Calls.
Context (depth : TreeMapDepthKind).

(** The calls that a walk makes when the hooks return, and whether it then raises an exception of its own *)
Record Trace := mkTrace { tr_calls : list Call; tr_raises : bool }.

Definition traceOf (o : Outcome (list Call) bool) : Trace :=
  match o with Throws calls => mkTrace calls true | Returns calls _ => mkTrace calls false end.

Definition logCall (call : Call) (l : list Call) : Outcome (list Call) QueryControl := Returns (l ++ [call]) Continue.

Definition nodeTrace (ctx : CoreContext) (p : Place) (v : Expr) : Trace := traceOf (mapNode ConstWalk depth logCall ctx p v []).

Definition entryTrace (ctx : CoreContext) (p : Place) (v : Expr) : Trace := traceOf (mapIt ConstWalk depth logCall ctx p v []).

Definition childTrace (p : Place) (ch : Child) : Trace :=
  if ch_direct ch then
    if isRescueCase (ch_node ch) then nodeTrace (ch_ctx ch) (ch_place ch ++ p) (ch_node ch) else mkTrace [] true
  else entryTrace (ch_ctx ch) (ch_place ch ++ p) (ch_node ch).

(** The calls of a walk that raises no exception of its own *)
Definition whole (t : Trace) : option (list Call) := if tr_raises t then None else Some (tr_calls t).

Definition nodeCalls (ctx : CoreContext) (p : Place) (v : Expr) : option (list Call) := whole (nodeTrace ctx p v).

Definition callsOf (ctx : CoreContext) (p : Place) (v : Expr) : option (list Call) := whole (entryTrace ctx p v).

Definition childCalls (p : Place) (ch : Child) : option (list Call) :=
  if ch_direct ch then if isRescueCase (ch_node ch) then nodeCalls (ch_ctx ch) (ch_place ch ++ p) (ch_node ch) else None
  else callsOf (ch_ctx ch) (ch_place ch ++ p) (ch_node ch).

(** One walk after another *)
Definition seqTrace (t u : Trace) : Trace :=
  if tr_raises t then t else mkTrace (tr_calls t ++ tr_calls u) (tr_raises u).

Definition seqAll (ts : list Trace) : Trace := foldr seqTrace (mkTrace [] false) ts.

Lemma whole_seq t u : whole (seqTrace t u) = (cs ← whole t; ds ← whole u; Some (cs ++ ds)).
Proof. unfold whole, seqTrace. destruct t as [cs []], u as [ds []]; done. Qed.

Lemma whole_all ts : whole (seqAll ts) = @concat _ <$> mapM id (whole <$> ts).
Proof.
  induction ts as [|t ts IH]; [done|]. cbn [seqAll foldr fmap list_fmap]. fold (seqAll ts). rewrite whole_seq, IH.
  cbn. destruct (whole t); cbn; [|done]. by destruct (mapM id (whole <$> ts)).
Qed.

Lemma seq_elem c t u : c ∈ tr_calls (seqTrace t u) -> c ∈ tr_calls t \/ c ∈ tr_calls u.
Proof. unfold seqTrace. destruct (tr_raises t); cbn; [by left|]. by intros ?%elem_of_app. Qed.

Lemma all_elem c ts : c ∈ tr_calls (seqAll ts) -> exists t, t ∈ ts /\ c ∈ tr_calls t.
Proof.
  induction ts as [|t ts IH]; cbn; [by intros []%not_elem_of_nil|]. intros [H|H]%seq_elem; [exists t; set_solver|].
  destruct (IH H) as (u & Hu & Hc). exists u. set_solver.
Qed.

(** A walk with any hooks makes these calls, as long as they return, and never stops early. *)
Section Replay.
Context {St : Type} (hook : Call -> St -> Outcome St QueryControl).

Fixpoint makeCalls (calls : list Call) (s : St) : Outcome St bool :=
  match calls with
  | [] => Returns s false
  | call :: calls => match hook call s with Throws s => Throws s | Returns s _ => makeCalls calls s end
  end.

Definition replay (t : Trace) (s : St) : Outcome St bool :=
  andThen (makeCalls (tr_calls t) s) (fun s => if tr_raises t then Throws s else Returns s false).

Definition makes (f : St -> Outcome St bool) (t : Trace) : Prop := forall s, f s = replay t s.

Lemma makeCalls_app cs ds s : makeCalls (cs ++ ds) s = andThen (makeCalls cs s) (makeCalls ds).
Proof. revert s. induction cs as [|c cs IH]; intros s; [done|]. cbn. destruct (hook c s); [done|apply IH]. Qed.

Lemma makeCalls_false cs s s' b : makeCalls cs s = Returns s' b -> b = false.
Proof. revert s. induction cs as [|c cs IH]; intros s; cbn; [by intros [= _ <-]|]. destruct (hook c s); [done|apply IH]. Qed.

Lemma makes_throws : makes Throws (mkTrace [] true).
Proof. by intros s. Qed.

Lemma makes_ret : makes (fun s => Returns s false) (mkTrace [] false).
Proof. by intros s. Qed.

Lemma makes_andThen f g t u : makes f t -> makes g u -> makes (fun s => andThen (f s) g) (seqTrace t u).
Proof.
  intros Hf Hg s. rewrite Hf. unfold replay, seqTrace. rewrite andThen_assoc. destruct (tr_raises t) eqn:E; [by rewrite E|].
  cbn [tr_calls tr_raises]. rewrite makeCalls_app, andThen_assoc. apply andThen_ext. intros s'. apply Hg.
Qed.

Lemma makes_runAll fs ts : Forall2 makes fs ts -> makes (runAll fs) (seqAll ts).
Proof. induction 1 as [|f t fs ts Hf Hfs IH]; [apply makes_ret|]. intros s. exact (makes_andThen f (runAll fs) t _ Hf IH s). Qed.

Lemma makes_callPre ctx p v f t : makes f t ->
  makes (fun s => callPre ConstWalk hook ctx p v s f) (seqTrace (mkTrace [mkCall Pre ctx p v] false) t).
Proof. intros Hf s. unfold callPre, replay. cbn. destruct (hook _ s) as [s1|s1 []]; [done|apply Hf..]. Qed.

Lemma makes_callPost ctx p v : makes (callPost ConstWalk hook ctx p v) (mkTrace [mkCall Post ctx p v] false).
Proof. intros s. unfold callPost, replay. cbn. by destruct (hook _ s). Qed.

Lemma makes_callPreExpression ctx p v :
  makes (callPreExpression ConstWalk hook ctx p v) (mkTrace [mkCall PreExpression ctx p v] false).
Proof. intros s. unfold callPreExpression, replay. cbn. by destruct (hook _ s). Qed.

(** The calls by the children *)
Definition nodeTraceBy (kids : list Trace) (ctx : CoreContext) (p : Place) (v : Expr) : Trace :=
  if isSilent v then mkTrace [] false
  else if hasPre v then
    seqTrace (mkTrace [mkCall Pre ctx p v] false) (seqTrace (seqAll kids) (mkTrace [mkCall Post ctx p v] false))
  else if isRefused v then mkTrace [] true else mkTrace [mkCall Post ctx p v] false.

Definition enterTraceBy (t : Trace) (ctx : CoreContext) (p : Place) (v : Expr) : Trace :=
  match v with
  | NullTree => mkTrace [] false
  | _ => seqTrace (mkTrace [mkCall PreExpression ctx p v] false) (if isRefused v then mkTrace [] true else t)
  end.

Lemma makes_enter f t ctx p v : makes (f ctx p v) t -> makes (enter ConstWalk hook f ctx p v) (enterTraceBy t ctx p v).
Proof.
  intros Hf. assert (H : makes (fun s => andThen (callPreExpression ConstWalk hook ctx p v s)
      (fun s => if isRefused v then Throws s else f ctx p v s))
    (seqTrace (mkTrace [mkCall PreExpression ctx p v] false) (if isRefused v then mkTrace [] true else t))).
  { apply makes_andThen; [apply makes_callPreExpression|]. intros s. destruct (isRefused v); [done|apply Hf]. }
  destruct v; try exact H. apply makes_ret.
Qed.

Lemma makes_node ctx p v kids : Forall2 makes (mapChild ConstWalk depth hook p <$> children ConstWalk depth ctx v) kids ->
  makes (mapNode ConstWalk depth hook ctx p v) (nodeTraceBy kids ctx p v).
Proof.
  intros Hk s. rewrite mapNode_children. unfold nodeTraceBy. destruct (isSilent v); [done|]. destruct (hasPre v).
  - apply (makes_callPre ctx p v _ _ (makes_andThen _ _ _ _ (makes_runAll _ _ Hk) (makes_callPost ctx p v)) s).
  - destruct (isRefused v); [done|]. apply makes_callPost.
Qed.
End Replay.

Lemma makeCalls_log cs l : makeCalls logCall cs l = Returns (l ++ cs) false.
Proof. revert l. induction cs as [|c cs IH]; intros l; [by rewrite app_nil_r|]. cbn. by rewrite IH, <- app_assoc. Qed.

Lemma makes_trace f t : makes logCall f t -> traceOf (f []) = t.
Proof. intros H. rewrite H. unfold replay. rewrite makeCalls_log. by destruct t as [cs []]. Qed.

(** The calls do not depend on the visitor. *)
Lemma node_makes v : forall ctx p, exists t, forall (St : Type) (hook : Call -> St -> Outcome St QueryControl),
  makes hook (mapNode ConstWalk depth hook ctx p v) t.
Proof.
  induction v as [v IH] using (children_ind ConstWalk depth). intros ctx p.
  assert (Hkids : exists kids, forall St (hook : Call -> St -> Outcome St QueryControl),
    Forall2 (makes hook) (mapChild ConstWalk depth hook p <$> children ConstWalk depth ctx v) kids).
  { specialize (IH ctx). induction (children ConstWalk depth ctx v) as [|ch l IHl]; [exists []; intros; constructor|].
    destruct IHl as (kids & Hkids); [intros ch' Hch; apply IH; by right|].
    destruct (IH ch ltac:(by left) (ch_ctx ch) (ch_place ch ++ p)) as (t & Ht).
    exists ((if ch_direct ch then if isRescueCase (ch_node ch) then t else mkTrace [] true
             else enterTraceBy t (ch_ctx ch) (ch_place ch ++ p) (ch_node ch)) :: kids).
    intros St hook. cbn. constructor; [|apply Hkids]. unfold mapChild. destruct (ch_direct ch); [destruct (isRescueCase _)|].
    - intros s. apply (Ht St hook).
    - by intros s.
    - intros s. apply (makes_enter hook _ _ _ _ _ (Ht St hook)). }
  destruct Hkids as (kids & Hkids). exists (nodeTraceBy kids ctx p v). intros St hook. apply makes_node, Hkids.
Qed.

Lemma nodeTrace_makes {St} (hook : Call -> St -> Outcome St QueryControl) ctx p v :
  makes hook (mapNode ConstWalk depth hook ctx p v) (nodeTrace ctx p v).
Proof.
  destruct (node_makes v ctx p) as (t & Ht). replace (nodeTrace ctx p v) with t; [apply Ht|].
  symmetry. apply makes_trace, Ht.
Qed.

Lemma entryTrace_enter ctx p v : entryTrace ctx p v = enterTraceBy (nodeTrace ctx p v) ctx p v.
Proof. apply makes_trace, makes_enter, nodeTrace_makes. Qed.

Lemma entryTrace_makes {St} (hook : Call -> St -> Outcome St QueryControl) ctx p v :
  makes hook (mapIt ConstWalk depth hook ctx p v) (entryTrace ctx p v).
Proof. rewrite entryTrace_enter. apply makes_enter, nodeTrace_makes. Qed.

Lemma nodeTrace_children ctx p v : nodeTrace ctx p v = nodeTraceBy (childTrace p <$> children ConstWalk depth ctx v) ctx p v.
Proof.
  apply makes_trace, makes_node. apply Forall2_fmap, Forall_Forall2_diag, Forall_forall. intros ch _. unfold mapChild, childTrace.
  destruct (ch_direct ch); [destruct (isRescueCase _)|]; intros s; [apply nodeTrace_makes|done|apply entryTrace_makes].
Qed.

(** *** Walks that return *)

(** A sequence of calls of hooks that leave nothing behind when they raise *)
Definition perform {St} (hook : Call -> St -> option St) (calls : list Call) (s : St) : option St :=
  foldM (fun s call => hook call s) s calls.

Lemma replay_result {St} (hook : Call -> St -> option St) t s :
  result (replay (lifted hook) t s) = (cs ← whole t; perform hook cs s).
Proof.
  assert (H : forall cs s, result (makeCalls (lifted hook) cs s) = perform hook cs s).
  { intros cs. induction cs as [|c cs IH]; intros s1; [done|]. cbn. unfold lifted at 1, perform. cbn.
    destruct (hook c s1); cbn; [apply IH|done]. }
  unfold replay, whole. destruct (tr_raises t).
  - destruct (makeCalls _ _ s) as [?|? b] eqn:E; [done|]. by rewrite (makeCalls_false _ _ _ _ _ E).
  - cbn [mbind option_bind]. rewrite <- H. by destruct (makeCalls _ _ s) as [?|? []].
Qed.

Lemma constTreeWalkClass_calls {St} (hook : Call -> St -> option St) ctx v s : depth = Full ->
  constTreeWalkClass hook ctx v s = (cs ← nodeCalls ctx [] v; perform hook cs s).
Proof. intros Hd. unfold constTreeWalkClass. rewrite <- Hd, (nodeTrace_makes (lifted hook)). apply replay_result. Qed.

Definition nodeCallsBy (kids : list (option (list Call))) (ctx : CoreContext) (p : Place) (v : Expr) : option (list Call) :=
  if isSilent v then Some []
  else if hasPre v then cs ← @concat _ <$> mapM id kids; Some (mkCall Pre ctx p v :: cs ++ [mkCall Post ctx p v])
  else if isRefused v then None else Some [mkCall Post ctx p v].

Definition enterCallsBy (calls : option (list Call)) (ctx : CoreContext) (p : Place) (v : Expr) : option (list Call) :=
  match v with NullTree => Some [] | _ => if isRefused v then None else cs ← calls; Some (mkCall PreExpression ctx p v :: cs) end.

Lemma childCalls_whole p ch : childCalls p ch = whole (childTrace p ch).
Proof. unfold childCalls, childTrace. destruct (ch_direct ch); [by destruct (isRescueCase _)|done]. Qed.

(** The calls of a node are those of its children, between its own. *)
Lemma nodeCalls_children ctx p v : nodeCalls ctx p v = nodeCallsBy (childCalls p <$> children ConstWalk depth ctx v) ctx p v.
Proof.
  unfold nodeCalls. rewrite nodeTrace_children. unfold nodeTraceBy, nodeCallsBy. destruct (isSilent v); [done|]. destruct (hasPre v).
  - rewrite !whole_seq, whole_all, <- list_fmap_compose.
    rewrite (list_fmap_ext (childCalls p) (whole ∘ childTrace p)) by (intros; apply childCalls_whole).
    by destruct (mapM id _).
  - by destruct (isRefused v).
Qed.

Lemma callsOf_enter ctx p v : callsOf ctx p v = enterCallsBy (nodeCalls ctx p v) ctx p v.
Proof.
  unfold callsOf. rewrite entryTrace_enter. unfold enterTraceBy, enterCallsBy, nodeCalls.
  assert (H : whole (seqTrace (mkTrace [mkCall PreExpression ctx p v] false) (if isRefused v then mkTrace [] true else nodeTrace ctx p v)) =
    if isRefused v then None else cs ← whole (nodeTrace ctx p v); Some (mkCall PreExpression ctx p v :: cs)).
  { rewrite whole_seq. by destruct (isRefused v), (whole (nodeTrace ctx p v)). }
  destruct v; try exact H. done.
Qed.

(** ** Every node once *)

(** The nodes that a walk reaches from a node *)
Inductive within : CoreContext -> Place -> Expr -> CoreContext -> Place -> Expr -> Prop :=
| within_here ctx p v : within ctx p v ctx p v
| within_child ctx p v ch ctx' q x :
    ch ∈ children ConstWalk depth ctx v -> within (ch_ctx ch) (ch_place ch ++ p) (ch_node ch) ctx' q x -> within ctx p v ctx' q x.

(** *** Walks that may raise *)

(** Every call is about a node that is reached, also when the walk raises. *)
Lemma nodeTrace_within v : forall ctx p c, c ∈ tr_calls (nodeTrace ctx p v) -> within ctx p v (ca_ctx c) (ca_place c) (ca_node c).
Proof.
  induction v as [v IH] using (children_ind ConstWalk depth). intros ctx p c. rewrite nodeTrace_children. unfold nodeTraceBy.
  destruct (isSilent v); [by intros []%not_elem_of_nil|]. destruct (hasPre v).
  - intros [Hc|[Hc|Hc]%seq_elem]%seq_elem; [apply list_elem_of_singleton in Hc as ->; constructor| |
      apply list_elem_of_singleton in Hc as ->; constructor].
    apply all_elem in Hc as (t & (ch & -> & Hch)%list_elem_of_fmap & Hc). eapply within_child; [exact Hch|].
    unfold childTrace in Hc. destruct (ch_direct ch).
    + destruct (isRescueCase _); [by apply (IH ctx ch Hch)|by apply not_elem_of_nil in Hc].
    + rewrite entryTrace_enter in Hc. unfold enterTraceBy in Hc.
      destruct (ch_node ch) eqn:E; try by apply not_elem_of_nil in Hc.
      all: apply seq_elem in Hc as [Hc|Hc]; [apply list_elem_of_singleton in Hc as ->; rewrite <- E; constructor|].
      all: cbn [isRefused] in Hc; try by apply not_elem_of_nil in Hc.
      all: rewrite <- E in *; by apply (IH ctx ch Hch).
  - destruct (isRefused v); [by intros []%not_elem_of_nil|]. intros Hc. apply list_elem_of_singleton in Hc as ->. constructor.
Qed.

Lemma entryTrace_within v ctx p c : c ∈ tr_calls (entryTrace ctx p v) -> within ctx p v (ca_ctx c) (ca_place c) (ca_node c).
Proof.
  rewrite entryTrace_enter. unfold enterTraceBy. intros Hc. assert (H : c = mkCall PreExpression ctx p v \/ c ∈ tr_calls (nodeTrace ctx p v)).
  { destruct v; try by apply not_elem_of_nil in Hc.
    all: apply seq_elem in Hc as [?%list_elem_of_singleton|Hc]; [by left|right].
    all: cbn [isRefused] in Hc; done || by apply not_elem_of_nil in Hc. }
  destruct H as [->|H]; [constructor|by apply nodeTrace_within].
Qed.

(** What every call about a node of the tree keeps, raising or not, holds of the state in which a walk is left. *)
Lemma walk_left {St} (I : St -> Prop) (hook : Call -> St -> Outcome St QueryControl) ctx v s :
  (forall c s, within ctx [] v (ca_ctx c) (ca_place c) (ca_node c) -> I s -> I (leftBy (hook c s))) -> I s ->
  I (leftBy (mapIt ConstWalk depth hook ctx [] v s)).
Proof.
  intros Hhook Hs. rewrite entryTrace_makes. pose proof (entryTrace_within v ctx []) as Hw. unfold replay.
  assert (H : I (leftBy (makeCalls hook (tr_calls (entryTrace ctx [] v)) s))).
  { revert s Hs Hw. induction (tr_calls (entryTrace ctx [] v)) as [|c cs IH]; intros s Hs Hw; [done|]. cbn.
    pose proof (Hhook c s (Hw c ltac:(by left)) Hs) as Hc. destruct (hook c s) as [s1|s1 ctl]; [done|].
    apply IH; [done|]. intros c' Hc'. apply Hw. by right. }
  destruct (makeCalls _ _ s) as [s1|s1 []]; cbn; [done|done|]. by destruct (tr_raises _).
Qed.

(** The number of a child among the children *)
Definition branch (ch : Child) : option nat := last (ch_place ch).

Lemma childrenFrom_branches ctx n l : branch <$> childrenFrom ctx n l = Some <$> seq n (length l).
Proof. revert n. induction l as [|x l IH]; intros n; [done|]. cbn. by rewrite IH. Qed.

Lemma directFrom_branches ctx n l : branch <$> directFrom ctx n l = Some <$> seq n (length l).
Proof. revert n. induction l as [|x l IH]; intros n; [done|]. cbn. by rewrite IH. Qed.

Lemma defaultsFrom_branches ctx n l : branch <$> defaultsFrom ctx n l `sublist_of` Some <$> seq n (length l).
Proof.
  revert n. induction l as [|x l IH]; intros n; [done|]. cbn. rewrite fmap_app. destruct x; cbn; try (by constructor; apply IH).
Qed.

(** Numbers from [n] on, and smaller ones *)
Lemma branches_nodup (l : list (option nat)) n k (small : list nat) : l `sublist_of` Some <$> seq n k ->
  NoDup small -> Forall (fun i => i < n)%nat small -> NoDup (l ++ (Some <$> small)).
Proof.
  intros Hl Hs Hn. rewrite Forall_forall in Hn. apply NoDup_app. split_and!.
  - eapply sublist_NoDup; [|exact Hl]. apply NoDup_fmap_2; [apply _|apply NoDup_seq].
  - intros o Ho (i & -> & Hi)%list_elem_of_fmap. apply (elem_of_submseteq l (Some <$> seq n k)) in Ho; [|by apply sublist_submseteq].
    apply list_elem_of_fmap in Ho as (j & [= ->] & Hj). apply elem_of_seq in Hj. apply Hn in Hi. lia.
  - apply NoDup_fmap_2; [apply _|done].
Qed.

Lemma children_branches ctx v : NoDup (branch <$> children ConstWalk depth ctx v).
Proof.
  assert (Hall : forall n k, NoDup (Some <$> seq n k)) by (intros; apply NoDup_fmap_2; [apply _|apply NoDup_seq]).
  assert (Hsub : forall n k, Some <$> seq n k `sublist_of` Some <$> seq n k) by done.
  assert (H0 : NoDup [0]%nat /\ NoDup [0; 1]%nat /\ NoDup [0; 1; 2]%nat) by (apply (bool_decide_unpack _); by vm_compute).
  destruct H0 as (H0 & H1 & H2).
  destruct v; cbn [children]; rewrite ?fmap_app, ?fmap_cons, ?fmap_app, ?childrenFrom_branches, ?directFrom_branches;
    try apply NoDup_nil_2; try apply Hall.
  - apply (Hall 0%nat (S (length args))).
  - destruct depth.
    + eapply (branches_nodup _ 1 _ [0]%nat); [apply defaultsFrom_branches|done|repeat constructor].
    + eapply (branches_nodup _ 1 _ []); [apply defaultsFrom_branches|constructor..].
  - apply (branches_nodup [] 3 0 [0; 1; 2]%nat); [done..|repeat constructor; lia].
  - apply (branches_nodup [] 2 0 [0; 1]%nat); [done..|repeat constructor; lia].
  - apply (branches_nodup [] 1 0 [0]%nat); [done..|repeat constructor; lia].
  - apply (branches_nodup [] 1 0 [0]%nat); [done..|repeat constructor; lia].
  - apply (branches_nodup [] 1 0 [0]%nat); [done..|repeat constructor; lia].
  - apply (branches_nodup _ 2 (length exceptions) [0; 1]%nat); [done..|repeat constructor; lia].
  - rewrite Permutation_middle. apply (branches_nodup _ 3 (length rescueCases) [0; 1; 2]%nat); [done..|repeat constructor; lia].
  - apply (branches_nodup [] 2 0 [0; 1]%nat); [done..|repeat constructor; lia].
  - apply (branches_nodup [] 2 0 [0; 1]%nat); [done..|repeat constructor; lia].
  - rewrite <- fmap_app, <- seq_app. apply Hall.
  - eapply (branches_nodup _ 1 _ [0]%nat); [apply defaultsFrom_branches|done|repeat constructor].
  - apply (branches_nodup _ 1 (length stats) [0]%nat); [done..|repeat constructor; lia].
Qed.

Lemma children_place ctx v ch : ch ∈ children ConstWalk depth ctx v -> is_Some (branch ch).
Proof.
  assert (H1 : forall ctx n l, ch ∈ childrenFrom ctx n l -> is_Some (branch ch)).
  { intros ctx' n l Hch%(list_elem_of_fmap_2 branch). rewrite childrenFrom_branches in Hch.
    apply list_elem_of_fmap in Hch as (i & -> & _). by eexists. }
  assert (H2 : forall ctx n l, ch ∈ directFrom ctx n l -> is_Some (branch ch)).
  { intros ctx' n l Hch%(list_elem_of_fmap_2 branch). rewrite directFrom_branches in Hch.
    apply list_elem_of_fmap in Hch as (i & -> & _). by eexists. }
  assert (H3 : forall ctx n l, ch ∈ defaultsFrom ctx n l -> is_Some (branch ch)).
  { intros ctx' n l Hch%(list_elem_of_fmap_2 branch). eapply elem_of_submseteq in Hch; [|apply sublist_submseteq, defaultsFrom_branches].
    apply list_elem_of_fmap in Hch as (i & -> & _). by eexists. }
  destruct v; cbn [children]; rewrite ?elem_of_app, ?elem_of_cons, ?elem_of_app, ?elem_of_cons, ?elem_of_nil;
    try destruct depth; rewrite ?elem_of_cons, ?elem_of_nil; naive_solver (subst; cbn; eauto).
Qed.

(** The calls at a node: its own around those of its children *)
Lemma nodeCalls_inv ctx p v cs : nodeCalls ctx p v = Some cs ->
  (isSilent v = true /\ cs = []) \/
  (isSilent v = false /\ hasPre v = false /\ cs = [mkCall Post ctx p v]) \/
  (isSilent v = false /\ hasPre v = true /\ exists css,
     Forall2 (fun ch ds => childCalls p ch = Some ds) (children ConstWalk depth ctx v) css /\
     cs = mkCall Pre ctx p v :: concat css ++ [mkCall Post ctx p v]).
Proof.
  rewrite nodeCalls_children. unfold nodeCallsBy. destruct (isSilent v) eqn:Es; [intros [= <-]; by left|].
  destruct (hasPre v) eqn:Ep.
  - intros (all & (css & Hm & ->)%fmap_Some & [= <-])%bind_Some. right; right. split_and!; [done..|]. exists css. split; [|done].
    apply mapM_Some_1 in Hm. by apply Forall2_fmap_l in Hm.
  - destruct (isRefused v); [done|]. intros [= <-]. right; left. done.
Qed.

Lemma callsOf_inv ctx p v cs : callsOf ctx p v = Some cs ->
  (v = NullTree /\ cs = []) \/ (exists ds, nodeCalls ctx p v = Some ds /\ cs = mkCall PreExpression ctx p v :: ds).
Proof.
  rewrite callsOf_enter. unfold enterCallsBy. intros H. destruct v; try (injection H as <-; by left); right.
  all: cbn [isRefused] in H; try done; apply bind_Some in H as (ds & Hds & [= <-]); by exists ds.
Qed.

Lemma childCalls_inv p ch ds : childCalls p ch = Some ds ->
  (ch_node ch = NullTree /\ ds = []) \/
  exists es, nodeCalls (ch_ctx ch) (ch_place ch ++ p) (ch_node ch) = Some es /\
    (ds = es \/ ds = mkCall PreExpression (ch_ctx ch) (ch_place ch ++ p) (ch_node ch) :: es).
Proof.
  unfold childCalls. destruct (ch_direct ch); [destruct (isRescueCase _); [|done]|].
  - intros H. right. exists ds. split; [done|by left].
  - intros [?|(es & Hes & ->)]%callsOf_inv; [by left|]. right. exists es. split; [done|by right].
Qed.

(** A call of a child is at its place, or one of the calls of its class. *)
Lemma childCalls_elem p ch ds c : childCalls p ch = Some ds -> c ∈ ds ->
  c = mkCall PreExpression (ch_ctx ch) (ch_place ch ++ p) (ch_node ch) \/
  exists es, nodeCalls (ch_ctx ch) (ch_place ch ++ p) (ch_node ch) = Some es /\ c ∈ es.
Proof.
  intros [(_ & ->)|(es & Hes & [->| ->])]%childCalls_inv Hc; [by apply not_elem_of_nil in Hc|right; by exists es|].
  apply elem_of_cons in Hc as [->|Hc]; [by left|right; by exists es].
Qed.

(** A call of some child *)
Lemma concat_elem {A B} (R : A -> list B -> Prop) l css c : Forall2 R l css -> c ∈ concat css ->
  exists i x cs, l !! i = Some x /\ css !! i = Some cs /\ R x cs /\ c ∈ cs.
Proof.
  intros Hall Hc. apply list_elem_of_In, in_concat in Hc as (cs & Hcs & Hc). apply list_elem_of_In in Hcs, Hc.
  apply list_elem_of_lookup in Hcs as (i & Hi). destruct (Forall2_lookup_r _ _ _ _ _ Hall Hi) as (x & Hx & HR).
  by exists i, x, cs.
Qed.

Lemma nodeCalls_place v : forall ctx p cs c, nodeCalls ctx p v = Some cs -> c ∈ cs -> exists w, ca_place c = w ++ p.
Proof.
  induction v as [v IH] using (children_ind ConstWalk depth). intros ctx p cs c Hcs Hc.
  destruct (nodeCalls_inv _ _ _ _ Hcs) as [(_ & ->)|[(_ & _ & ->)|(_ & _ & css & Hall & ->)]].
  - by apply not_elem_of_nil in Hc.
  - apply list_elem_of_singleton in Hc as ->. by exists [].
  - apply elem_of_cons in Hc as [->|[Hc|Hc]%elem_of_app]; [by exists []| |apply list_elem_of_singleton in Hc as ->; by exists []].
    destruct (concat_elem _ _ _ _ Hall Hc) as (i & ch & ds & Hch%list_elem_of_lookup_2 & _ & Hd & Hin).
    destruct (childCalls_elem _ _ _ _ Hd Hin) as [->|(es & Hes & Hes')]; [by exists (ch_place ch)|].
    destruct (IH ctx ch Hch _ _ _ _ Hes Hes') as (w & Hw). exists (w ++ ch_place ch). by rewrite <- app_assoc.
Qed.

Lemma childCalls_place p ch ds c : childCalls p ch = Some ds -> c ∈ ds -> exists w, ca_place c = w ++ ch_place ch ++ p.
Proof.
  intros Hd Hc. destruct (childCalls_elem _ _ _ _ Hd Hc) as [->|(es & Hes & Hin)]; [by exists []|]. by eapply nodeCalls_place.
Qed.

(** Calls of two children are at different places. *)
Lemma places_branch p w w' ch ch' : is_Some (branch ch) -> is_Some (branch ch') ->
  w ++ ch_place ch ++ p = w' ++ ch_place ch' ++ p -> branch ch = branch ch'.
Proof.
  unfold branch. intros [i Hi] [j Hj] E. rewrite !app_assoc in E. apply app_inv_tail in E.
  apply (f_equal last) in E. rewrite !last_app, Hi, Hj in E. by rewrite Hi, Hj.
Qed.

Definition callKey (c : Call) : Phase * Place := (ca_phase c, ca_place c).

Lemma NoDup_concat {A} (ls : list (list A)) : (forall i l, ls !! i = Some l -> NoDup l) ->
  (forall i j l l' x, ls !! i = Some l -> ls !! j = Some l' -> x ∈ l -> x ∈ l' -> i = j) -> NoDup (concat ls).
Proof.
  induction ls as [|l ls IH]; intros Hn Hd; [constructor|]. cbn. apply NoDup_app. split_and!.
  - by apply (Hn 0%nat).
  - intros x Hx Hc. apply list_elem_of_In, in_concat in Hc as (l' & Hl' & Hx'). apply list_elem_of_In in Hl', Hx'.
    apply list_elem_of_lookup in Hl' as (j & Hj). by specialize (Hd 0%nat (S j) l l' x eq_refl Hj Hx Hx').
  - apply IH; [intros i; apply (Hn (S i))|]. intros i j l1 l2 x H1 H2 Hx1 Hx2.
    by injection (Hd (S i) (S j) l1 l2 x H1 H2 Hx1 Hx2).
Qed.

Lemma childCalls_nodup p ch ds : childCalls p ch = Some ds ->
  (forall es, nodeCalls (ch_ctx ch) (ch_place ch ++ p) (ch_node ch) = Some es -> NoDup (callKey <$> es)) ->
  (forall es c, nodeCalls (ch_ctx ch) (ch_place ch ++ p) (ch_node ch) = Some es -> c ∈ es -> ca_phase c = PreExpression ->
     ca_place c <> ch_place ch ++ p) -> NoDup (callKey <$> ds).
Proof.
  intros [(_ & ->)|(es & Hes & [->| ->])]%childCalls_inv Hn Hp; [constructor|by apply Hn|]. cbn. constructor; [|by apply Hn].
  intros (c & Hk & Hc)%list_elem_of_fmap. injection Hk as Hph Hpl. by apply (Hp es c Hes Hc).
Qed.

Lemma below_ne p w ch : is_Some (branch ch) -> w ++ ch_place ch ++ p <> p.
Proof.
  unfold branch. intros [i Hi] E. apply (f_equal length) in E. rewrite !length_app in E. destruct (ch_place ch); [done|cbn in E; lia].
Qed.

Lemma children_below ctx p v css i ds c : Forall2 (fun ch ds => childCalls p ch = Some ds) (children ConstWalk depth ctx v) css ->
  css !! i = Some ds -> c ∈ ds -> ca_place c <> p.
Proof.
  intros Hall Hi Hc E. destruct (Forall2_lookup_r _ _ _ _ _ Hall Hi) as (ch & Hch & Hd).
  destruct (childCalls_place _ _ _ _ Hd Hc) as (w & Hw). rewrite E in Hw. symmetry in Hw. revert Hw.
  apply below_ne. eapply children_place. by eapply list_elem_of_lookup_2.
Qed.

(** Calls before an expression are made where it is entered. *)
Lemma nodeCalls_own ctx p v cs c : nodeCalls ctx p v = Some cs -> c ∈ cs -> ca_phase c = PreExpression -> ca_place c <> p.
Proof.
  intros Hcs Hc Hp. destruct (nodeCalls_inv _ _ _ _ Hcs) as [(_ & ->)|[(_ & _ & ->)|(_ & _ & css & Hall & ->)]].
  - by apply not_elem_of_nil in Hc.
  - apply list_elem_of_singleton in Hc as ->. done.
  - apply elem_of_cons in Hc as [->|[Hc|Hc]%elem_of_app]; [done| |by apply list_elem_of_singleton in Hc as ->].
    destruct (concat_elem _ _ _ _ Hall Hc) as (i & ch & ds & _ & Hi & _ & Hin). by eapply children_below.
Qed.

Lemma nodeCalls_nodup v : forall ctx p cs, nodeCalls ctx p v = Some cs -> NoDup (callKey <$> cs).
Proof.
  induction v as [v IH] using (children_ind ConstWalk depth). intros ctx p cs Hcs.
  destruct (nodeCalls_inv _ _ _ _ Hcs) as [(_ & ->)|[(_ & _ & ->)|(_ & _ & css & Hall & ->)]].
  - constructor.
  - apply NoDup_singleton.
  - assert (Hown : forall ph c, callKey c = (ph, p) -> c ∈ concat css -> False).
    { intros ph c [= _ Hp] Hc. destruct (concat_elem _ _ _ _ Hall Hc) as (i & ch & ds & _ & Hi & _ & Hin). by eapply children_below. }
    rewrite fmap_cons, fmap_app. constructor; [|apply NoDup_app; split_and!].
    + rewrite elem_of_app. intros [(c & Hk & Hc)%list_elem_of_fmap|H%list_elem_of_singleton]; [|done]. by eapply Hown.
    + rewrite concat_map. apply NoDup_concat.
      * intros i ks (ds & -> & Hi)%list_lookup_fmap_Some. destruct (Forall2_lookup_r _ _ _ _ _ Hall Hi) as (ch & Hch & Hd).
        apply list_elem_of_lookup_2 in Hch. eapply childCalls_nodup; [done|intros es; by apply (IH ctx)|intros es c; apply nodeCalls_own].
      * intros i j ks ks' k (ds & -> & Hi)%list_lookup_fmap_Some (ds' & -> & Hj)%list_lookup_fmap_Some
          (c & -> & Hc)%list_elem_of_fmap (c' & Hk & Hc')%list_elem_of_fmap.
        destruct (Forall2_lookup_r _ _ _ _ _ Hall Hi) as (ch & Hch & Hd), (Forall2_lookup_r _ _ _ _ _ Hall Hj) as (ch' & Hch' & Hd').
        destruct (childCalls_place _ _ _ _ Hd Hc) as (w & Hw), (childCalls_place _ _ _ _ Hd' Hc') as (w' & Hw').
        injection Hk as _ Hk. rewrite Hw, Hw' in Hk.
        apply places_branch in Hk; [|eapply children_place, list_elem_of_lookup_2; done..].
        eapply NoDup_lookup; [apply (children_branches ctx v)|by rewrite list_lookup_fmap, Hch|by rewrite list_lookup_fmap, Hch', Hk].
    + intros k Hk1 Hk2%list_elem_of_singleton. apply list_elem_of_fmap in Hk1 as (c & -> & Hc). by eapply Hown.
    + apply NoDup_singleton.
Qed.

(** The calls of every node that is reached are made. *)
Lemma within_calls ctx p v ctx' q x : within ctx p v ctx' q x -> forall cs, nodeCalls ctx p v = Some cs -> isSilent x = false ->
  mkCall Post ctx' q x ∈ cs /\ (hasPre x = true -> mkCall Pre ctx' q x ∈ cs).
Proof.
  induction 1 as [ctx p v|ctx p v ch ctx' q x Hch Hw IH]; intros cs Hcs Hx.
  - destruct (nodeCalls_inv _ _ _ _ Hcs) as [(? & _)|[(_ & Hp & ->)|(_ & _ & css & Hall & ->)]]; [congruence| |].
    + split; [by left|congruence].
    + split; [|intros _; by left]. right. apply elem_of_app. right. by left.
  - destruct (nodeCalls_inv _ _ _ _ Hcs) as [(Hs & _)|[(_ & Hp & _)|(_ & _ & css & Hall & ->)]].
    + destruct v; try done; by apply not_elem_of_nil in Hch.
    + destruct v; try done; by apply not_elem_of_nil in Hch.
    + apply list_elem_of_lookup in Hch as (i & Hi). destruct (Forall2_lookup_l _ _ _ _ _ Hall Hi) as (ds & Hds & Hd).
      assert (Hin : forall c, c ∈ ds -> c ∈ mkCall Pre ctx p v :: concat css ++ [mkCall Post ctx p v]).
      { intros c Hc. right. apply elem_of_app. left. apply list_elem_of_In, in_concat. exists ds.
        split; apply list_elem_of_In; [by eapply list_elem_of_lookup_2|done]. }
      apply childCalls_inv in Hd as [(Hnull & ->)|(es & Hes & Hd)].
      * rewrite Hnull in Hw. inversion Hw; subst; [done|]. by apply not_elem_of_nil in H.
      * destruct (IH es Hes Hx) as [H1 H2]. destruct Hd as [->| ->]; split; intros; apply Hin; naive_solver (by eauto using list_elem_of_further).
Qed.

(** Every call is that of a node that is reached. *)
Lemma nodeCalls_within v : forall ctx p cs c, nodeCalls ctx p v = Some cs -> c ∈ cs ->
  within ctx p v (ca_ctx c) (ca_place c) (ca_node c) /\ (ca_phase c = Pre -> hasPre (ca_node c) = true) /\
  (ca_phase c = Post -> isSilent (ca_node c) = false).
Proof.
  induction v as [v IH] using (children_ind ConstWalk depth). intros ctx p cs c Hcs Hc.
  destruct (nodeCalls_inv _ _ _ _ Hcs) as [(_ & ->)|[(Hs & _ & ->)|(Hs & Hp & css & Hall & ->)]].
  - by apply not_elem_of_nil in Hc.
  - apply list_elem_of_singleton in Hc as ->. split; [constructor|done].
  - apply elem_of_cons in Hc as [->|[Hc|Hc]%elem_of_app]; [split; [constructor|done]| |].
    + destruct (concat_elem _ _ _ _ Hall Hc) as (i & ch & ds & Hch%list_elem_of_lookup_2 & _ & Hd & Hin).
      destruct (childCalls_elem _ _ _ _ Hd Hin) as [->|(es & Hes & Hes')].
      * split; [|done]. eapply within_child; [done|]. constructor.
      * destruct (IH ctx ch Hch _ _ _ _ Hes Hes') as [Hw Hrest]. split; [|done]. by eapply within_child.
    + apply list_elem_of_singleton in Hc as ->. split; [constructor|done].
Qed.

(** The file of the context never changes. *)
Lemma within_file ctx p v ctx' q x : within ctx p v ctx' q x -> ctx_file ctx' = ctx_file ctx.
Proof.
  induction 1 as [|ctx p v ch ctx' q x Hch _ IH]; [done|]. rewrite IH. clear -Hch.
  assert (H1 : forall c n l, ch ∈ childrenFrom c n l -> ctx_file (ch_ctx ch) = ctx_file c).
  { intros c n l. revert n. induction l as [|y l IH]; intros n; cbn; [by intros []%not_elem_of_nil|].
    intros [->|H]%elem_of_cons; [done|by eapply IH]. }
  assert (H2 : forall c n l, ch ∈ directFrom c n l -> ctx_file (ch_ctx ch) = ctx_file c).
  { intros c n l. revert n. induction l as [|y l IH]; intros n; cbn; [by intros []%not_elem_of_nil|].
    intros [->|H]%elem_of_cons; [done|by eapply IH]. }
  assert (H3 : forall c n l, ch ∈ defaultsFrom c n l -> ctx_file (ch_ctx ch) = ctx_file c).
  { intros c n l. revert n. induction l as [|y l IH]; intros n; cbn; [by intros []%not_elem_of_nil|].
    intros [H|H]%elem_of_app; [|by eapply IH]. destruct y; try by apply not_elem_of_nil in H.
    by apply list_elem_of_singleton in H as ->. }
  destruct v; cbn [children] in Hch; try destruct depth; rewrite ?elem_of_app, ?elem_of_cons, ?elem_of_app, ?elem_of_cons, ?elem_of_nil in Hch.
  all: repeat match goal with H : _ \/ _ |- _ => destruct H as [H|H] end; subst; try done.
  all: by first [apply H1 in Hch|apply H2 in Hch|apply H3 in Hch].
Qed.

Lemma within_everyNode P ctx p v ctx' q x : within ctx p v ctx' q x -> everyNode P v -> everyNode P x.
Proof. induction 1 as [|ctx p v ch ctx' q x Hch _ IH]; [done|]. intros Hv. apply IH. by eapply children_everyNode. Qed.

(** ** When a walk raises *)

(** A child that is refused where it is *)
Definition misplaced (ch : Child) : bool := if ch_direct ch then negb (isRescueCase (ch_node ch)) else isRefused (ch_node ch).

Lemma childCalls_total p ch : misplaced ch = false ->
  (isRefused (ch_node ch) && negb (isRescueCase (ch_node ch)) = false ->
   is_Some (nodeCalls (ch_ctx ch) (ch_place ch ++ p) (ch_node ch))) -> is_Some (childCalls p ch).
Proof.
  unfold misplaced, childCalls. destruct (ch_direct ch).
  - destruct (isRescueCase _) eqn:E; [|done]. cbn. rewrite andb_false_r. by intros _ H; apply H.
  - intros Hr H. rewrite Hr in H. destruct (H eq_refl) as [cs Hcs]. rewrite callsOf_enter. unfold enterCallsBy. rewrite Hr, Hcs.
    destruct (ch_node ch); by eexists.
Qed.

Lemma nodeCalls_total v : forall ctx p, isRefused v && negb (isRescueCase v) = false ->
  (forall ctx' q x ch, within ctx p v ctx' q x -> ch ∈ children ConstWalk depth ctx' x -> misplaced ch = false) ->
  is_Some (nodeCalls ctx p v).
Proof.
  induction v as [v IH] using (children_ind ConstWalk depth). intros ctx p Hv Hall.
  rewrite nodeCalls_children. unfold nodeCallsBy. destruct (isSilent v); [by eexists|]. destruct (hasPre v) eqn:Ep.
  - assert (Hkids : is_Some (mapM id (childCalls p <$> children ConstWalk depth ctx v))).
    { apply mapM_is_Some_2, Forall_fmap, Forall_forall. intros ch Hch. cbn.
      apply childCalls_total; [by eapply Hall; [constructor|]|]. intros Hr. apply (IH ctx ch Hch); [done|].
      intros ctx' q x ch' Hw. apply (Hall ctx' q). by eapply within_child. }
    destruct Hkids as [kids ->]. by eexists.
  - destruct (isRefused v) eqn:Er; [|by eexists]. cbn in Hv. apply negb_false_iff in Hv. by destruct v.
Qed.

Lemma childCalls_misplaced p ch : is_Some (childCalls p ch) -> misplaced ch = false.
Proof.
  unfold misplaced, childCalls. destruct (ch_direct ch); [by destruct (isRescueCase _)|].
  rewrite callsOf_enter. unfold enterCallsBy. destruct (ch_node ch); cbn; intros [? ?]; done.
Qed.

Lemma nodeCalls_placed ctx p v ctx' q x : within ctx p v ctx' q x -> is_Some (nodeCalls ctx p v) ->
  forall ch, ch ∈ children ConstWalk depth ctx' x -> misplaced ch = false.
Proof.
  assert (Hkid : forall ctx p v ch, is_Some (nodeCalls ctx p v) -> ch ∈ children ConstWalk depth ctx v -> is_Some (childCalls p ch)).
  { intros ctx1 p1 v1 ch [cs Hcs] Hch. destruct (nodeCalls_inv _ _ _ _ Hcs) as [(Hs & _)|[(_ & Hp & _)|(_ & _ & css & Hall & _)]].
    - destruct v1; try done; by apply not_elem_of_nil in Hch.
    - destruct v1; try done; by apply not_elem_of_nil in Hch.
    - apply list_elem_of_lookup in Hch as (i & Hi). destruct (Forall2_lookup_l _ _ _ _ _ Hall Hi) as (ds & _ & Hd). by eexists. }
  induction 1 as [ctx p v|ctx p v ch ctx' q x Hch Hw IH]; intros Hs ch' Hch'.
  - eapply childCalls_misplaced. by eapply Hkid.
  - destruct (Hkid _ _ _ _ Hs Hch) as [ds [(Hnull & _)|(es & Hes & _)]%childCalls_inv].
    + rewrite Hnull in Hw. inversion Hw; subst; by apply not_elem_of_nil in Hch' || by apply not_elem_of_nil in H.
    + by eapply IH.
Qed.

End Calls.
