(* ===== verification/Cfg.v ===== *)
(** * Control flow graphs

    Models src/cfg/CFG.h and CFG.cc, Instructions.h, LocalRef.cc, LinkRef.h and
    src/core/LocalVariable.cc: the graph of basic blocks a method is translated to, its local variables
    and the analysis of reads and writes.

    A [BasicBlock *] is the id of the block. The blocks live in a heap, from which [erase] removes
    them; [basicBlocks] lists the ids of the blocks the graph owns, in order. [None] stands for a use
    of a block that was erased, of a null pointer, or of an index outside a vector. A [LocalRef] is the
    index of a variable, a [LinkRef] the index of a link. *)

From S2P Require Import Prelude Pickler FileHash Files Locs Types NameTable NameText Symbols SymbolRefs.
From S2P Require Import UIntSet.

#[local] Open Scope Z_scope.

(** ** Local variables *)

Record LocalVariable := mkLocalVariable { lv_name : Z; lv_unique : Z }.

#[export] Instance LocalVariable_eq_dec : EqDecision LocalVariable.
Proof. solve_decision. Defined.

#[export] Program Instance LocalVariable_countable : Countable LocalVariable :=
  inj_countable' (fun v => (lv_name v, lv_unique v)) (fun '(n, u) => mkLocalVariable n u) _.
Next Obligation. by intros []. Qed.

(** The names the builder uses, whose references the build generates *)
Record CfgNames := mkCfgNames {
  n_whileTemp : Z; n_ifTemp : Z; n_returnTemp : Z; n_statTemp : Z; n_assignTemp : Z; n_returnMethodTemp : Z;
  n_blockReturnTemp : Z; n_nextTemp : Z; n_selfMethodTemp : Z; n_selfLocal : Z; n_selfRestore : Z;
  n_hashTemp : Z; n_arrayTemp : Z; n_rescueTemp : Z; n_exceptionValue : Z; n_exceptionClassTemp : Z;
  n_gotoDeadTemp : Z; n_isaCheckTemp : Z; n_throwAwayTemp : Z; n_castTemp : Z; n_finalReturn : Z;
  n_cfgAlias : Z; n_magic : Z; n_blockCall : Z; n_unconditional : Z; n_keepForIde : Z; n_keepForCfgTemp : Z;
  n_argPresent : Z; n_blkArg : Z; n_blockPreCallTemp : Z; n_blockBreakAssign : Z; n_blockBreak : Z;
  n_retryTemp : Z; n_retry : Z; n_tripleEq : Z; n_buildHash : Z; n_buildArray : Z; n_cast : Z; n_let : Z;
  n_uncheckedLet : Z; n_bind : Z; n_syntheticBind : Z; n_suggestFieldType : Z; n_class : Z;
  n_singletonClassInstance : Z; n_instance : Z; n_absurd : Z; n_typeParameter : Z; n_new : Z; n_lambda : Z;
  n_lambdaTLet : Z; n_unsafe : Z; n_ivarNameMissing : Z; n_cvarNameMissing : Z }.

(** [LocalVariable::isSyntheticTemporary] *)
Definition isSyntheticTemporaryVar (wn : CfgNames) (v : LocalVariable) : bool :=
  if bool_decide (nameKind (lv_name v) = Some UNIQUE) then true
  else if lv_unique v =? 0 then false
  else bool_decide (lv_name v ∈
    [n_whileTemp wn; n_ifTemp wn; n_returnTemp wn; n_statTemp wn; n_assignTemp wn; n_returnMethodTemp wn;
     n_blockReturnTemp wn; n_nextTemp wn; n_selfMethodTemp wn; n_selfLocal wn; n_selfRestore wn;
     n_hashTemp wn; n_arrayTemp wn; n_rescueTemp wn; n_exceptionValue wn; n_exceptionClassTemp wn;
     n_gotoDeadTemp wn; n_isaCheckTemp wn; n_throwAwayTemp wn; n_castTemp wn; n_finalReturn wn;
     n_cfgAlias wn; n_magic wn]).

(** [LocalVariable::isAliasForGlobal] *)
Definition isAliasForGlobalVar (wn : CfgNames) (v : LocalVariable) : bool := lv_name v =? n_cfgAlias wn.

(** The fixed variables of a graph *)
Definition noVariable : nat := 0.

Definition blockCall : nat := 1.

Definition selfVariable : nat := 2.

Definition unconditional : nat := 3.

Definition finalReturn : nat := 4.

Definition local_exists (v : nat) : bool := (0 <? v)%nat.

(** ** Instructions *)

Record LocalOccurrence := mkLocalOccurrence { lo_variable : nat; lo_loc : LocOffsets }.

#[export] Instance LocalOccurrence_eq_dec : EqDecision LocalOccurrence.
Proof. solve_decision. Defined.

(** [LocalOccurrence::synthetic] *)
Definition synthetic (v : nat) : LocalOccurrence := mkLocalOccurrence v noOffsets.

(** The type is filled in by inference. *)
Record VariableUseSite := mkUseSite { vu_variable : nat; vu_type : TypePtr; vu_loc : LocOffsets }.

Definition useSite (v : nat) (loc : LocOffsets) : VariableUseSite := mkUseSite v NullType loc.

Definition occurrence (u : VariableUseSite) : LocalOccurrence := mkLocalOccurrence (vu_variable u) (vu_loc u).

(** [VariableUseSite::operator=(LocalOccurrence)] *)
Definition assignUseSite (u : VariableUseSite) (l : LocalOccurrence) : VariableUseSite :=
  mkUseSite (lo_variable l) (vu_type u) (lo_loc l).

(** What inference retains of the dispatch of a call for the indexer *)
Record SCIPKeywordArgument := mkKeywordArgument { ka_method : Z; ka_name : Z; ka_loc : LocOffsets }.

Record SCIPDispatchInfo := mkDispatchInfo {
  keywordArguments : list SCIPKeywordArgument; intersectionMethods : option (list Z) }.

Module Insn.
(** [argRefs()] and [argLocs()] are [args], and [argTypes()] has as many elements. *)
Record SendData := mkSend {
  recv : VariableUseSite; receiverLoc : LocOffsets; fun_ : Z; funLoc : LocOffsets; numPosArgs : Z;
  isPrivateOk : bool; args : list (nat * LocOffsets); link : nat;
  argTypes : list TypePtr; scipDispatchInfo : option SCIPDispatchInfo }.

Inductive Instruction :=
| Ident (what : nat)
| Alias (what name : Z)
| SolveConstraint (link send : nat)
| Send (s : SendData)
| Return (what : VariableUseSite) (whatLoc : LocOffsets)
| BlockReturn (link : nat) (what : VariableUseSite)
| LoadSelf (link fallback : nat)
| Literal (value : TypePtr)
| GetCurrentException
| LoadArg (method argId : Z)
| ArgPresent (method argId : Z)
| LoadYieldParams (link : nat)
| YieldParamPresent (argId : Z)
| YieldLoadArg (argId : Z) (flags : ParamFlags) (yieldParam : VariableUseSite)
| Cast (value : VariableUseSite) (valueLoc : LocOffsets) (type : TypePtr) (cast : Z)
| TAbsurd (what : VariableUseSite)
| KeepAlive (what : nat).

(** [Send::make], with the arguments its initializer is filled with, and no block *)
Definition makeSend (recv : nat) (receiverLoc : LocOffsets) (fun_ : Z) (funLoc : LocOffsets)
    (numPosArgs : Z) (isPrivateOk : bool) (args : list (nat * LocOffsets)) : SendData :=
  mkSend (useSite recv receiverLoc) receiverLoc fun_ funLoc (u16 numPosArgs) isPrivateOk args 0
    (replicate (length args) NullType) None.

Definition withLink (link : nat) (s : SendData) : SendData :=
  mkSend (recv s) (receiverLoc s) (fun_ s) (funLoc s) (numPosArgs s) (isPrivateOk s) (args s) link
    (argTypes s) (scipDispatchInfo s).
End Insn.

(** [value] with the flag [isSynthetic] of its pointer *)
Record Binding := mkBinding {
  bd_bind : VariableUseSite; bd_loc : LocOffsets; bd_value : Insn.Instruction; bd_synthetic : bool }.

(** ** Blocks and graphs *)

Record BlockExit := mkBlockExit {
  be_cond : VariableUseSite; be_thenb : option nat; be_elseb : option nat; be_loc : LocOffsets }.

Definition isCondSet (e : BlockExit) : bool := local_exists (vu_variable (be_cond e)).

Definition isUnconditional (e : BlockExit) : bool := bool_decide (be_thenb e = be_elseb e).

Record BasicBlock := mkBasicBlock {
  bb_args : list VariableUseSite; bb_id : nat; bb_isLoopHeader : bool; bb_wasJumpDestination : bool;
  bb_outerLoops : Z; bb_exprs : list Binding; bb_exit : BlockExit; bb_backEdges : list nat }.

(** [SendAndBlockLink]; the result of the dispatch is filled in by inference. *)
Record SendAndBlockLink := mkLink { lk_fun : Z; lk_loc : LocOffsets; lk_paramFlags : list ParamFlags }.

Record CFG := mkCFG {
  cfg_symbol : Z; maxBasicBlockId : nat; cfg_loc : LocOffsets; cfg_declLoc : LocOffsets;
  cfg_blocks : gmap nat BasicBlock; basicBlocks : list nat; implicitReturnLoc : LocOffsets;
  forwardsTopoSort : list nat; minLoops : list Z; maxLoopWrite : list Z;
  localVariables : list LocalVariable; localVariableToLocalRef : gmap LocalVariable nat;
  links : list (option SendAndBlockLink) }.

(** *** Field updates *)

Definition set_exprs (exprs : list Binding) (b : BasicBlock) : BasicBlock :=
  mkBasicBlock (bb_args b) (bb_id b) (bb_isLoopHeader b) (bb_wasJumpDestination b) (bb_outerLoops b) exprs
    (bb_exit b) (bb_backEdges b).

Definition set_exit (exit : BlockExit) (b : BasicBlock) : BasicBlock :=
  mkBasicBlock (bb_args b) (bb_id b) (bb_isLoopHeader b) (bb_wasJumpDestination b) (bb_outerLoops b)
    (bb_exprs b) exit (bb_backEdges b).

Definition set_backEdges (edges : list nat) (b : BasicBlock) : BasicBlock :=
  mkBasicBlock (bb_args b) (bb_id b) (bb_isLoopHeader b) (bb_wasJumpDestination b) (bb_outerLoops b)
    (bb_exprs b) (bb_exit b) edges.

Definition set_wasJumpDestination (b : BasicBlock) : BasicBlock :=
  mkBasicBlock (bb_args b) (bb_id b) (bb_isLoopHeader b) true (bb_outerLoops b) (bb_exprs b) (bb_exit b)
    (bb_backEdges b).

Definition set_isLoopHeader (b : BasicBlock) : BasicBlock :=
  mkBasicBlock (bb_args b) (bb_id b) true (bb_wasJumpDestination b) (bb_outerLoops b) (bb_exprs b) (bb_exit b)
    (bb_backEdges b).

Definition set_args (args : list VariableUseSite) (b : BasicBlock) : BasicBlock :=
  mkBasicBlock args (bb_id b) (bb_isLoopHeader b) (bb_wasJumpDestination b) (bb_outerLoops b) (bb_exprs b)
    (bb_exit b) (bb_backEdges b).

Definition set_blocks (blocks : gmap nat BasicBlock) (c : CFG) : CFG :=
  mkCFG (cfg_symbol c) (maxBasicBlockId c) (cfg_loc c) (cfg_declLoc c) blocks (basicBlocks c)
    (implicitReturnLoc c) (forwardsTopoSort c) (minLoops c) (maxLoopWrite c) (localVariables c)
    (localVariableToLocalRef c) (links c).

Definition set_basicBlocks (ids : list nat) (c : CFG) : CFG :=
  mkCFG (cfg_symbol c) (maxBasicBlockId c) (cfg_loc c) (cfg_declLoc c) (cfg_blocks c) ids
    (implicitReturnLoc c) (forwardsTopoSort c) (minLoops c) (maxLoopWrite c) (localVariables c)
    (localVariableToLocalRef c) (links c).

Definition set_topoSort (order : list nat) (c : CFG) : CFG :=
  mkCFG (cfg_symbol c) (maxBasicBlockId c) (cfg_loc c) (cfg_declLoc c) (cfg_blocks c) (basicBlocks c)
    (implicitReturnLoc c) order (minLoops c) (maxLoopWrite c) (localVariables c) (localVariableToLocalRef c)
    (links c).

Definition set_loops (mins maxs : list Z) (c : CFG) : CFG :=
  mkCFG (cfg_symbol c) (maxBasicBlockId c) (cfg_loc c) (cfg_declLoc c) (cfg_blocks c) (basicBlocks c)
    (implicitReturnLoc c) (forwardsTopoSort c) mins maxs (localVariables c) (localVariableToLocalRef c)
    (links c).

Definition set_implicitReturnLoc (loc : LocOffsets) (c : CFG) : CFG :=
  mkCFG (cfg_symbol c) (maxBasicBlockId c) (cfg_loc c) (cfg_declLoc c) (cfg_blocks c) (basicBlocks c) loc
    (forwardsTopoSort c) (minLoops c) (maxLoopWrite c) (localVariables c) (localVariableToLocalRef c)
    (links c).

(** [block->field = ...] *)
Definition updateBlock (b : nat) (f : BasicBlock -> BasicBlock) (c : CFG) : option CFG :=
  d ← cfg_blocks c !! b; Some (set_blocks (<[b := f d]> (cfg_blocks c)) c).

(** *** Operations of the graph *)

Definition entry (c : CFG) : option nat := basicBlocks c !! 0%nat.

Definition deadBlock (c : CFG) : option nat := basicBlocks c !! 1%nat.

Definition emptyExit : BlockExit := mkBlockExit (mkUseSite noVariable NullType noOffsets) None None noOffsets.

Definition freshBlock (outerLoops : Z) (c : CFG) : nat * CFG :=
  let id := maxBasicBlockId c in
  (id, mkCFG (cfg_symbol c) (S id) (cfg_loc c) (cfg_declLoc c)
         (<[id := mkBasicBlock [] id false false outerLoops [] emptyExit []]> (cfg_blocks c))
         (basicBlocks c ++ [id]) (implicitReturnLoc c) (forwardsTopoSort c) (minLoops c) (maxLoopWrite c)
         (localVariables c) (localVariableToLocalRef c) (links c)).

Definition INT_MAX : Z := 2 ^ 31 - 1.

(** [enterLocalInternal]: [ref], the out parameter, is the entry of [variable] in the map. *)
Definition enterLocalInternal (variable : LocalVariable) (c : CFG) : nat * CFG :=
  let id := length (localVariables c) in
  (id, mkCFG (cfg_symbol c) (maxBasicBlockId c) (cfg_loc c) (cfg_declLoc c) (cfg_blocks c) (basicBlocks c)
         (implicitReturnLoc c) (forwardsTopoSort c) (minLoops c ++ [INT_MAX]) (maxLoopWrite c ++ [0])
         (localVariables c ++ [variable]) (<[variable := id]> (localVariableToLocalRef c)) (links c)).

(** The access by [operator\[\]] enters a variable that is absent, with the reference 0. *)
Definition enterLocal (variable : LocalVariable) (c : CFG) : nat * CFG :=
  let ref := default noVariable (localVariableToLocalRef c !! variable) in
  if negb (local_exists ref) && negb (lv_name variable =? 0) then enterLocalInternal variable c
  else (ref, mkCFG (cfg_symbol c) (maxBasicBlockId c) (cfg_loc c) (cfg_declLoc c) (cfg_blocks c) (basicBlocks c)
               (implicitReturnLoc c) (forwardsTopoSort c) (minLoops c) (maxLoopWrite c) (localVariables c)
               (<[variable := ref]> (localVariableToLocalRef c)) (links c)).

Definition enterLink (fun_ : Z) (loc : LocOffsets) (paramFlags : list ParamFlags) (c : CFG) : nat * CFG :=
  (length (links c),
   mkCFG (cfg_symbol c) (maxBasicBlockId c) (cfg_loc c) (cfg_declLoc c) (cfg_blocks c) (basicBlocks c)
     (implicitReturnLoc c) (forwardsTopoSort c) (minLoops c) (maxLoopWrite c) (localVariables c)
     (localVariableToLocalRef c) (links c ++ [Some (mkLink fun_ loc paramFlags)])).

(** *** Checks *)

Definition countOf (b : nat) (edges : list nat) : nat := length (filter (fun p => p = b) edges).

(** The [ENFORCE]s of [CFG::sanityCheck] about one block *)
Definition sanityCheckBlock (c : CFG) (b : nat) : bool :=
  match cfg_blocks c !! b with
  | None => false
  | Some bb =>
      isCondSet (bb_exit bb) &&
      (bool_decide (deadBlock c = Some b) ||
       match be_thenb (bb_exit bb) ≫= (fun t => cfg_blocks c !! t), be_elseb (bb_exit bb) ≫= (fun e => cfg_blocks c !! e) with
       | Some thenb, Some elseb =>
           let cond := vu_variable (be_cond (bb_exit bb)) in
           (countOf b (bb_backEdges thenb) =? 1)%nat && (countOf b (bb_backEdges elseb) =? 1)%nat &&
           (if isUnconditional (bb_exit bb) then (cond =? unconditional)%nat
            else local_exists cond && negb (cond =? unconditional)%nat)
       | _, _ => false
       end)
  end.

Definition sanityCheck (c : CFG) : bool := forallb (sanityCheckBlock c) (basicBlocks c).

(** *** Construction *)

Section WithNames.
Context (wn : CfgNames).

(** [CFG::CFG]; the symbol and the locations are assigned by the builder. *)
Definition newCFG : CFG :=
  let c := mkCFG 0 0 noOffsets noOffsets ∅ [] noOffsets [] [] [] [] ∅ [] in
  let '(_, c) := freshBlock 0 c in
  let '(dead, c) := freshBlock 0 c in
  let c := default c (updateBlock dead
    (set_exit (mkBlockExit (mkUseSite unconditional NullType noOffsets) (Some dead) (Some dead) noOffsets)) c) in
  let c := mkCFG (cfg_symbol c) (maxBasicBlockId c) (cfg_loc c) (cfg_declLoc c) (cfg_blocks c) (basicBlocks c)
    (implicitReturnLoc c) (forwardsTopoSort c) (minLoops c) (maxLoopWrite c) (localVariables c)
    (localVariableToLocalRef c) [None] in
  let '(_, c) := enterLocalInternal (mkLocalVariable 0 0) c in
  let '(_, c) := enterLocal (mkLocalVariable (n_blockCall wn) 0) c in
  let '(_, c) := enterLocal (mkLocalVariable (n_selfLocal wn) 0) c in
  let '(_, c) := enterLocal (mkLocalVariable (n_unconditional wn) 0) c in
  let '(_, c) := enterLocal (mkLocalVariable (n_finalReturn wn) 0) c in c.

(** [LocalRef::data] *)
Definition localData (c : CFG) (v : nat) : option LocalVariable := localVariables c !! v.

Definition isAliasForGlobal (c : CFG) (v : nat) : option bool := isAliasForGlobalVar wn <$> localData c v.

Definition isSyntheticTemporary (c : CFG) (v : nat) : option bool := isSyntheticTemporaryVar wn <$> localData c v.

(** ** Reads and writes *)

Record ReadsAndWrites := mkReadsAndWrites { rw_reads : list UIntSet; rw_writes : list UIntSet; rw_dead : list UIntSet }.

Definition newReadsAndWrites (maxBasicBlockId numLocalVariables : nat) : ReadsAndWrites :=
  let sets := replicate maxBasicBlockId (newUIntSet numLocalVariables) in mkReadsAndWrites sets sets sets.

(** The variables the cascade of casts in [findAllReadsAndWrites] adds to the reads *)
Definition instructionReads (i : Insn.Instruction) : list nat :=
  match i with
  | Insn.Ident what => [what]
  | Insn.Send s => vu_variable (Insn.recv s) :: (Insn.args s).*1
  | Insn.TAbsurd what => [vu_variable what]
  | Insn.Return what _ => [vu_variable what]
  | Insn.BlockReturn _ what => [vu_variable what]
  | Insn.Cast value _ _ _ => [vu_variable value]
  | Insn.LoadSelf _ fallback => [fallback]
  | Insn.SolveConstraint _ send => [send]
  | Insn.YieldLoadArg _ _ yieldParam => [vu_variable yieldParam]
  | Insn.KeepAlive what => [what]
  | _ => []
  end.

Definition isAlias (i : Insn.Instruction) : bool := match i with Insn.Alias _ _ => true | _ => false end.

Definition addItems (s : UIntSet) (items : list nat) : option UIntSet := foldM (fun s i => uis_add i s) s items.

(** One binding of a block: its reads, writes and dead variables so far *)
Definition bindingReadsAndWrites (c : CFG) (st : UIntSet * UIntSet * UIntSet) (bind : Binding)
    : option (UIntSet * UIntSet * UIntSet) :=
  let '(blockReads, blockWrites, blockDead) := st in
  let variable := vu_variable (bd_bind bind) in
  blockWrites ← uis_add variable blockWrites;
  isGlobal ← isAliasForGlobal c variable;
  blockReads ← (if isGlobal && negb (isAlias (bd_value bind)) then uis_add variable blockReads else Some blockReads);
  blockReads ← addItems blockReads (instructionReads (bd_value bind));
  isRead ← uis_contains blockReads variable;
  blockDead ← (if negb isRead then uis_add variable blockDead else Some blockDead);
  Some (blockReads, blockWrites, blockDead).

Definition blockReadsAndWrites (c : CFG) (target : ReadsAndWrites) (b : nat) : option ReadsAndWrites :=
  bb ← cfg_blocks c !! b;
  let id := bb_id bb in
  reads ← rw_reads target !! id;
  writes ← rw_writes target !! id;
  dead ← rw_dead target !! id;
  '(reads, writes, dead) ← foldM (bindingReadsAndWrites c) (reads, writes, dead) (bb_exprs bb);
  let cond := vu_variable (be_cond (bb_exit bb)) in
  reads ← (if negb (cond =? unconditional)%nat then uis_add cond reads else Some reads);
  Some (mkReadsAndWrites (<[id := reads]> (rw_reads target)) (<[id := writes]> (rw_writes target))
          (<[id := dead]> (rw_dead target))).

(** [usageCounts]: how many blocks mention a variable, and the first of them *)
Definition countUsage (blockId : nat) (usageCounts : list (nat * nat)) (local : nat) : option (list (nat * nat)) :=
  '(count, first) ← usageCounts !! local;
  Some (<[local := (S count, if (count =? 0)%nat then blockId else first)]> usageCounts).

Definition countBlock (target : ReadsAndWrites) (st : UIntSet * list (nat * nat)) (blockId : nat)
    : option (UIntSet * list (nat * nat)) :=
  let '(scratch, usageCounts) := st in
  reads ← rw_reads target !! blockId;
  writes ← rw_writes target !! blockId;
  scratch ← uis_overwriteWithUnion scratch reads writes;
  usageCounts ← foldM (countUsage blockId) usageCounts (uis_forEach scratch);
  Some (scratch, usageCounts).

(** Variables that only one block mentions are no writes of that block. *)
Definition removePrivate (usageCounts : list (nat * nat)) (writes : list UIntSet) (local : nat) : option (list UIntSet) :=
  '(count, block) ← usageCounts !! local;
  if (count =? 1)%nat then
    set ← writes !! block;
    set ← uis_remove local set;
    Some (<[block := set]> writes)
  else Some writes.

Definition findAllReadsAndWrites (c : CFG) : option ReadsAndWrites :=
  let numLocals := length (localVariables c) in
  target ← foldM (blockReadsAndWrites c) (newReadsAndWrites (maxBasicBlockId c) numLocals) (basicBlocks c);
  '(_, usageCounts) ← foldM (countBlock target) (newUIntSet numLocals, replicate numLocals (0, 0)%nat)
                        (seq 0 (maxBasicBlockId c));
  writes ← foldM (removePrivate usageCounts) (rw_writes target) (seq 0 numLocals);
  Some (mkReadsAndWrites (rw_reads target) writes (rw_dead target)).
End WithNames.

(** Distinct references for the names, for examples *)
Definition sampleNames : CfgNames :=
  mkCfgNames
    5 9 13 17 21 25 29 33 37 41 45 49 53 57 61 65 69 73
    77 81 85 89 93 97 101 105 109 113 117 121 125 129 133 137 141 145
    149 153 157 161 165 169 173 177 181 185 189 193 197 201 205 209 213 217.
