(* ===== verification/CfgTopo.v ===== *)
(** * The order of the blocks of a graph

    Models [topoSortFwd] of src/cfg/builder/builder_finalize.cc and [fillInTopoSorts] of
    builder_entry.cc: the post-order of the blocks reachable from the entry, and the removal of the
    others. [fast_sort] is a merge sort: the keys identify the elements, so every sort gives the same
    list. *)

From S2P Require Import Prelude Pickler FileHash Files Locs Types NameTable NameText Symbols SymbolRefs.
From S2P Require Import UIntSet Cfg.

#[local] Open Scope Z_scope.

(** ** The sort *)

Definition UNVISITED : Z := -1.

Definition PROCESSING : Z := -2.

Inductive Event := Enter | Exit.

#[export] Instance Event_eq_dec : EqDecision Event.
Proof. solve_decision. Defined.

Abbreviation WorkItem := (nat * Event)%type.

(** The state of the loop: the blocks emitted so far, their indices, and the work stack, whose head is
    [work.back()] *)
Record TopoState := mkTopoState { ts_target : list nat; ts_index : list Z; ts_work : list WorkItem }.

(** One turn of the loop; [None] is an access outside a vector or to a missing block. *)
Definition topoStep (c : CFG) (st : TopoState) : option TopoState :=
  let '(mkTopoState target index work) := st in
  match work with
  | [] => Some st
  | (block, Enter) :: rest =>
      bb ← cfg_blocks c !! block;
      seen ← index !! bb_id bb;
      if negb (seen =? UNVISITED) then Some (mkTopoState target index rest)
      else
        let index := <[bb_id bb := PROCESSING]> index in
        thenb ← be_thenb (bb_exit bb);
        elseb ← be_elseb (bb_exit bb);
        thenBlock ← cfg_blocks c !! thenb;
        thenIndex ← index !! bb_id thenBlock;
        let work := (block, Exit) :: rest in
        let work := if thenIndex =? UNVISITED then (thenb, Enter) :: work else work in
        work ← (if isUnconditional (bb_exit bb) then Some work
                else
                  elseBlock ← cfg_blocks c !! elseb;
                  elseIndex ← index !! bb_id elseBlock;
                  Some (if elseIndex =? UNVISITED then (elseb, Enter) :: work else work));
        Some (mkTopoState target index work)
  | (block, Exit) :: rest =>
      bb ← cfg_blocks c !! block;
      Some (mkTopoState (target ++ [block]) (<[bb_id bb := Z.of_nat (length target)]> index) rest)
  end.

Fixpoint topoLoop (fuel : nat) (c : CFG) (st : TopoState) : option TopoState :=
  match ts_work st with
  | [] => Some st
  | _ =>
      match fuel with
      | O => None
      | S fuel => st ← topoStep c st; topoLoop fuel c st
      end
  end.

(** Every block is entered once and left once, and is pushed at most once for each edge to it. *)
Definition topoFuel (numBlocks : nat) : nat := (4 * numBlocks + 1)%nat.

(** The order and the map from block ids to positions in it *)
Definition topoSortFwd (c : CFG) (numBlocks entryBB : nat) : option (list nat * list Z) :=
  st ← topoLoop (topoFuel numBlocks) c (mkTopoState [] (replicate numBlocks UNVISITED) [(entryBB, Enter)]);
  Some (ts_target st, ts_index st).

(** [edges.erase(remove(edges.begin(), edges.end(), b), edges.end())] *)
Definition removeEdge (b : nat) (edges : list nat) : list nat := filter (fun e => e <> b) edges.

Definition eraseBackEdge (b : nat) (from : nat) (c : CFG) : option CFG :=
  updateBlock from (fun bb => set_backEdges (removeEdge b (bb_backEdges bb)) bb) c.

(** Is the block one the sort did not find? *)
Definition unreached (forwardsIds : list Z) (c : CFG) (b : nat) : option bool :=
  bb ← cfg_blocks c !! b; i ← forwardsIds !! bb_id bb; Some (i =? -1).

Definition disconnect (forwardsIds : list Z) (c : CFG) (b : nat) : option CFG :=
  bb ← cfg_blocks c !! b;
  i ← forwardsIds !! bb_id bb;
  if i =? -1 then
    thenb ← be_thenb (bb_exit bb);
    c ← eraseBackEdge b thenb c;
    elseb ← be_elseb (bb_exit bb);
    eraseBackEdge b elseb c
  else Some c.

(** [erase_if(cfg.basicBlocks, ...)] destroys the blocks it removes. *)
Definition eraseUnreached (forwardsIds : list Z) (c : CFG) (b : nat) : option CFG :=
  gone ← unreached forwardsIds c b;
  Some (if (gone : bool)
        then set_basicBlocks (filter (fun k => k <> b) (basicBlocks c)) (set_blocks (delete b (cfg_blocks c)) c)
        else c).

(** Blocks in decreasing order of their position *)
Definition positionGe (forwardsIds : list Z) (ids : gmap nat BasicBlock) : relation nat := fun a b =>
  from_option (fun bb => default 0 (forwardsIds !! bb_id bb)) 0 (ids !! b) <=
  from_option (fun bb => default 0 (forwardsIds !! bb_id bb)) 0 (ids !! a).

#[export] Instance positionGe_dec forwardsIds ids : RelDecision (positionGe forwardsIds ids).
Proof. intros a b. unfold positionGe. apply _. Defined.

Definition sortBackEdges (forwardsIds : list Z) (c : CFG) (b : nat) : option CFG :=
  updateBlock b (fun bb => set_backEdges (merge_sort (positionGe forwardsIds (cfg_blocks c)) (bb_backEdges bb)) bb) c.

Definition fillInTopoSorts (c : CFG) : option CFG :=
  entryBB ← entry c;
  '(target, forwardsIds) ← topoSortFwd c (maxBasicBlockId c) entryBB;
  let c := set_topoSort target c in
  c ← foldM (disconnect forwardsIds) c (basicBlocks c);
  c ← foldM (eraseUnreached forwardsIds) c (basicBlocks c);
  foldM (sortBackEdges forwardsIds) c (basicBlocks c).

(** ** Well-formed graphs *)

(** [v] is a target of the exit of [u]. *)
Definition succ (c : CFG) (u v : nat) : Prop :=
  exists bb, cfg_blocks c !! u = Some bb /\ (be_thenb (bb_exit bb) = Some v \/ be_elseb (bb_exit bb) = Some v).

Definition reachable (c : CFG) : relation nat := rtc (succ c).

(** Ids are below [maxBasicBlockId], and every exit leads to blocks of the graph. *)
Record wf_graph (c : CFG) : Prop := mk_wf_graph {
  wf_id : forall k bb, cfg_blocks c !! k = Some bb -> bb_id bb = k /\ (k < maxBasicBlockId c)%nat;
  wf_exit : forall k bb, cfg_blocks c !! k = Some bb ->
    exists t e, be_thenb (bb_exit bb) = Some t /\ be_elseb (bb_exit bb) = Some e /\
                is_Some (cfg_blocks c !! t) /\ is_Some (cfg_blocks c !! e) }.

(** The marks of the sort *)
Definition unvisited (index : list Z) : nat := length (filter (fun z => z = UNVISITED) index).

Section Sort.
Context (c : CFG) (wf : wf_graph c) (entryBB : nat).

(** Every work item is a block; what lies above the [Exit] of [u] is reachable from [u]; the
    successors of [u] are marked or wait above it. *)
Record topo_inv (st : TopoState) : Prop := mk_topo_inv {
  ti_length : length (ts_index st) = maxBasicBlockId c;
  ti_work : forall u ev, (u, ev) ∈ ts_work st -> is_Some (cfg_blocks c !! u) /\ reachable c entryBB u;
  ti_target : forall i u, ts_target st !! i = Some u <-> ts_index st !! u = Some (Z.of_nat i);
  ti_target_block : forall u, u ∈ ts_target st -> is_Some (cfg_blocks c !! u) /\ reachable c entryBB u;
  ti_processing : forall u, ts_index st !! u = Some PROCESSING <-> (u, Exit) ∈ ts_work st;
  ti_nodup : NoDup (filter (fun w => w.2 = Exit) (ts_work st));
  ti_marks : forall u z, ts_index st !! u = Some z -> z = UNVISITED \/ z = PROCESSING \/ 0 <= z;
  ti_above : forall above u below, ts_work st = above ++ (u, Exit) :: below ->
    (forall w ev, (w, ev) ∈ above -> reachable c u w) /\
    (forall v, succ c u v -> ts_index st !! v <> Some UNVISITED \/ (v, Enter) ∈ above);
  ti_closed : forall i u v, ts_target st !! i = Some u -> succ c u v ->
    (exists j, (j < i)%nat /\ ts_target st !! j = Some v) \/
    (reachable c v u /\ ts_index st !! v <> Some UNVISITED);
  ti_entry : ts_index st !! entryBB <> Some UNVISITED \/ (entryBB, Enter) ∈ ts_work st }.

Definition topo_measure (st : TopoState) : nat := (3 * unvisited (ts_index st) + length (ts_work st))%nat.

Lemma succ_block u v : succ c u v -> is_Some (cfg_blocks c !! u) /\ is_Some (cfg_blocks c !! v).
Proof using wf.
  intros (bb & Hu & Hv). split; [eauto|].
  destruct (wf_exit c wf u bb Hu) as (t & e & Ht & He & Hbt & Hbe).
  destruct Hv; simplify_eq; congruence.
Qed.

Lemma reachable_block u v : is_Some (cfg_blocks c !! u) -> reachable c u v -> is_Some (cfg_blocks c !! v).
Proof using wf. intros Hu Hr. induction Hr as [|x y z Hs Hr IH]; [done|]. apply IH. by apply (succ_block x). Qed.

Lemma block_index (index : list Z) u : length index = maxBasicBlockId c -> is_Some (cfg_blocks c !! u) -> is_Some (index !! u).
Proof using wf. intros Hl [bb Hb]. apply lookup_lt_is_Some. rewrite Hl. by apply (wf_id c wf u bb). Qed.

Lemma unvisited_insert index u z : index !! u = Some UNVISITED -> z <> UNVISITED ->
  S (unvisited (<[u := z]> index)) = unvisited index.
Proof.
  intros Hu Hz. unfold unvisited. revert u Hu.
  induction index as [|y index IH]; intros [|u] Hu; simplify_eq/=.
  - rewrite !filter_cons. by repeat case_decide.
  - rewrite !filter_cons. case_decide; simpl; [f_equal|]; by apply IH.
Qed.

Lemma unvisited_insert_le index u z : z <> UNVISITED -> (unvisited (<[u := z]> index) <= unvisited index)%nat.
Proof.
  intros Hz. unfold unvisited. revert u.
  induction index as [|y index IH]; intros [|u]; simpl; [done..| |].
  - rewrite !filter_cons. repeat case_decide; simpl; by try lia.
  - rewrite !filter_cons. case_decide; simpl; specialize (IH u); lia.
Qed.

Lemma topo_init : is_Some (cfg_blocks c !! entryBB) ->
  topo_inv (mkTopoState [] (replicate (maxBasicBlockId c) UNVISITED) [(entryBB, Enter)]).
Proof using wf.
  intros Hent. split; simpl.
  - apply length_replicate.
  - intros u ev Hin. apply list_elem_of_singleton in Hin. simplify_eq. split; [done|constructor].
  - intros i u. split; [done|]. intros [Hu _]%lookup_replicate. unfold UNVISITED in Hu. lia.
  - intros u Hu. by apply elem_of_nil in Hu.
  - intros u. split.
    + intros [Hu _]%lookup_replicate. done.
    + intros Hin. by apply list_elem_of_singleton in Hin.
  - apply NoDup_nil_2.
  - intros u z [-> _]%lookup_replicate. by left.
  - intros above u below Hw. destruct above as [|? [|??]]; simplify_eq/=.
  - done.
  - right. set_solver.
Qed.

Lemma index_insert_ne (index : list Z) u v z : z <> UNVISITED -> (index !! v <> Some UNVISITED \/ u = v) ->
  <[u := z]> index !! v <> Some UNVISITED.
Proof.
  intros Hz Hv Heq. apply list_lookup_insert_Some in Heq as [(-> & ? & _)|[Hne Heq]]; [done|].
  by destruct Hv.
Qed.

Lemma topo_skip target index u rest : index !! u <> Some UNVISITED ->
  topo_inv (mkTopoState target index ((u, Enter) :: rest)) -> topo_inv (mkTopoState target index rest).
Proof.
  intros Hu [Hlen Hwork Htgt Htb Hproc Hnd Hmarks Habove Hclosed Hentry]; simpl in *. split; simpl; [done| |done|done| |done|done| |done|].
  - intros v ev Hin. apply (Hwork v ev). by apply list_elem_of_further.
  - intros v. rewrite Hproc, elem_of_cons. naive_solver.
  - intros above v below ->. destruct (Habove ((u, Enter) :: above) v below eq_refl) as [H1 H2]. split.
    + intros w ev Hin. apply (H1 w ev). by apply list_elem_of_further.
    + intros w Hw. destruct (H2 w Hw) as [?|Hin]; [by left|]. apply elem_of_cons in Hin as [?|?]; [|by right].
      simplify_eq. by left.
  - destruct Hentry as [?|Hin]; [by left|]. apply elem_of_cons in Hin as [?|?]; [|by right]. simplify_eq. by left.
Qed.

Lemma topo_enter target index u rest pushes :
  index !! u = Some UNVISITED ->
  (forall w ev, (w, ev) ∈ pushes -> ev = Enter /\ succ c u w) ->
  (forall v, succ c u v -> <[u := PROCESSING]> index !! v <> Some UNVISITED \/ (v, Enter) ∈ pushes) ->
  topo_inv (mkTopoState target index ((u, Enter) :: rest)) ->
  topo_inv (mkTopoState target (<[u := PROCESSING]> index) (pushes ++ (u, Exit) :: rest)).
Proof using wf.
  intros Hu Hpush Hsucc [Hlen Hwork Htgt Htb Hproc Hnd Hmarks Habove Hclosed Hentry]; simpl in *.
  assert (Hlt : (u < length index)%nat) by eauto using lookup_lt_Some.
  assert (HP : PROCESSING <> UNVISITED) by done.
  destruct (Hwork u Enter ltac:(set_solver)) as [_ Hreach].
  split; simpl.
  - by rewrite length_insert.
  - intros v ev Hin. apply elem_of_app in Hin as [Hin|Hin].
    + destruct (Hpush v ev Hin) as [_ Hs]. split; [by apply (succ_block u)|]. by eapply rtc_r.
    + apply elem_of_cons in Hin as [?|Hin]; [|apply (Hwork v ev); set_solver].
      simplify_eq. apply (Hwork u Enter). set_solver.
  - intros i v. rewrite Htgt, list_lookup_insert_Some. split; [|unfold PROCESSING; naive_solver lia].
    intros Hv. right. split; [|done]. intros ->. rewrite Hu in Hv. unfold UNVISITED in Hv. simplify_eq. lia.
  - done.
  - intros v. rewrite elem_of_app, elem_of_cons, list_lookup_insert_Some, Hproc, elem_of_cons.
    split; [naive_solver|]. intros [Hin|[?|Hin]]; [by apply Hpush in Hin as []|naive_solver|].
    right. split; [|by right]. intros ->.
    assert (index !! v = Some PROCESSING) by (apply Hproc; set_solver). congruence.
  - rewrite filter_app, !filter_cons. simpl. rewrite filter_cons in Hnd. simpl in Hnd.
    replace (filter (fun w : WorkItem => w.2 = Exit) pushes) with (@nil WorkItem).
    + simpl. constructor; [|done]. rewrite list_elem_of_filter. intros [_ Hin].
      assert (index !! u = Some PROCESSING) by (apply Hproc; set_solver). congruence.
    + symmetry. apply elem_of_nil_inv. intros [w ev] [? Hin]%list_elem_of_filter. apply Hpush in Hin as [-> _]. done.
  - intros v z. rewrite list_lookup_insert_Some. naive_solver.
  - intros above v below Heq. apply app_eq_inv in Heq as [(k & -> & Hk)|(k & -> & Hk)].
    + destruct k as [|[k0 kev] k]; simplify_eq/=.
      * rewrite app_nil_r in Hpush, Hsucc. split; [|done]. intros w ev Hin. apply rtc_once. by eapply Hpush.
      * exfalso. destruct (Hpush k0 Exit ltac:(set_solver)) as [? _]. done.
    + destruct k as [|[k0 kev] k]; simplify_eq/=.
      * rewrite app_nil_r. split; [|done]. intros w ev Hin. apply rtc_once. by eapply Hpush.
      * destruct (Habove ((k0, Enter) :: k) v below eq_refl) as [H1 H2].
        assert (Hvk : reachable c v k0) by (apply (H1 k0 Enter); set_solver). split.
        -- intros w ev Hin. apply elem_of_app in Hin as [Hin|Hin].
           ++ eapply rtc_r; [done|]. by eapply Hpush.
           ++ apply elem_of_cons in Hin as [?|Hin]; [by simplify_eq|]. apply (H1 w ev). set_solver.
        -- intros w Hw. destruct (H2 w Hw) as [?|Hin].
           ++ left. by apply index_insert_ne; [|left].
           ++ apply elem_of_cons in Hin as [?|Hin]; [|right; set_solver].
              simplify_eq. left. by apply index_insert_ne; [|right].
  - intros i x y Hx Hs. destruct (Hclosed i x y Hx Hs) as [?|[??]]; [by left|]. right.
    split; [done|]. by apply index_insert_ne; [|left].
  - destruct Hentry as [?|Hin].
    + left. by apply index_insert_ne; [|left].
    + apply elem_of_cons in Hin as [?|?]; [|right; set_solver]. simplify_eq. left. by apply index_insert_ne; [|right].
Qed.

Lemma topo_exit target index u rest :
  topo_inv (mkTopoState target index ((u, Exit) :: rest)) ->
  topo_inv (mkTopoState (target ++ [u]) (<[u := Z.of_nat (length target)]> index) rest).
Proof using wf.
  intros [Hlen Hwork Htgt Htb Hproc Hnd Hmarks Habove Hclosed Hentry]; simpl in *.
  assert (Hu : index !! u = Some PROCESSING) by (apply Hproc; set_solver).
  assert (Hlt : (u < length index)%nat) by eauto using lookup_lt_Some.
  assert (HP : Z.of_nat (length target) <> UNVISITED) by (unfold UNVISITED; lia).
  assert (Hfresh : (u, Exit) ∉ rest).
  { rewrite filter_cons in Hnd. simpl in Hnd. apply NoDup_cons in Hnd as [Hni _].
    contradict Hni. by apply list_elem_of_filter. }
  destruct (Habove [] u rest eq_refl) as [_ Hsucc].
  split; simpl.
  - by rewrite length_insert.
  - intros v ev Hin. apply (Hwork v ev). set_solver.
  - intros i v. rewrite lookup_snoc_Some, Htgt, list_lookup_insert_Some. split.
    + intros [[Hi Hv]|[<- <-]]; [|naive_solver]. right. split; [|done]. intros ->.
      rewrite Hu in Hv. unfold PROCESSING in Hv. simplify_eq. lia.
    + intros [(-> & Hi & _)|[Hne Hv]]; [right; split; [lia|done]|]. left. split; [|done].
      apply lookup_lt_is_Some. exists v. by apply Htgt.
  - intros v Hin. apply elem_of_app in Hin as [Hin|Hin%list_elem_of_singleton]; [by apply Htb|].
    subst v. apply (Hwork u Exit). set_solver.
  - intros v. rewrite list_lookup_insert_Some, Hproc, elem_of_cons. split.
    + intros [(_ & Heq & _)|[Hne [?|?]]]; [unfold PROCESSING in Heq; lia|naive_solver|done].
    + intros Hin. right. split; [|by right]. by intros ->.
  - rewrite filter_cons in Hnd. simpl in Hnd. by apply NoDup_cons in Hnd as [_ ?].
  - intros v z. rewrite list_lookup_insert_Some. intros [(_ & <- & _)|[_ ?]]; [lia|by eapply Hmarks].
  - intros above v below ->. destruct (Habove ((u, Exit) :: above) v below eq_refl) as [H1 H2]. split.
    + intros w ev Hin. apply (H1 w ev). set_solver.
    + intros w Hw. destruct (H2 w Hw) as [?|Hin]; [left; by apply index_insert_ne; [|left]|].
      apply elem_of_cons in Hin as [?|?]; [done|by right].
  - intros i x y Hx Hs. apply lookup_snoc_Some in Hx as [[Hi Hx]|[-> <-]].
    + destruct (Hclosed i x y Hx Hs) as [(j & Hj & Hy)|[??]].
      * left. exists j. split; [done|]. by apply lookup_app_l_Some.
      * right. split; [done|]. by apply index_insert_ne; [|left].
    + destruct (block_index index y Hlen) as [z Hz]; [by apply (succ_block u)|].
      destruct (Hmarks y z Hz) as [->|[->|Hpos]].
      * by destruct (Hsucc y Hs) as [?|?%elem_of_nil].
      * right. split; [|apply index_insert_ne; [done|]; rewrite Hz; by left].
        apply Hproc, elem_of_cons in Hz as [?|Hin]; [simplify_eq; constructor|].
        apply list_elem_of_split in Hin as (l1 & l2 & ->).
        apply (proj1 (Habove ((u, Exit) :: l1) y l2 eq_refl) u Exit). set_solver.
      * left. exists (Z.to_nat z).
        assert (Hy : target !! Z.to_nat z = Some y) by (apply Htgt; by rewrite Z2Nat.id).
        split; [by eapply lookup_lt_Some|]. by apply lookup_app_l_Some.
  - destruct Hentry as [?|Hin]; [left; by apply index_insert_ne; [|left]|].
    apply elem_of_cons in Hin as [?|?]; [done|by right].
Qed.

(** A turn of the loop never fails, keeps the invariant and gets closer to the end. *)
Lemma topoStep_ok st : topo_inv st -> ts_work st <> [] ->
  exists st', topoStep c st = Some st' /\ topo_inv st' /\ (topo_measure st' < topo_measure st)%nat.
Proof using wf.
  destruct st as [target index work]. intros Hinv Hne. simpl in Hne.
  destruct work as [|[u [|]] rest]; [done| |].
  - destruct (ti_work _ Hinv u Enter ltac:(set_solver)) as [[bb Hbb] _].
    destruct (wf_id c wf u bb Hbb) as [Hid _].
    destruct (block_index index u (ti_length _ Hinv)) as [z Hz]; [by eauto|]. simpl. rewrite Hbb. simpl. rewrite Hid, Hz. simpl.
    destruct (Z.eqb_spec z UNVISITED) as [->|Hzne]; simpl.
    + destruct (wf_exit c wf u bb Hbb) as (t & e & Ht & He & [tb Htb] & [eb Heb]).
      assert (Hst : succ c u t) by (exists bb; auto). assert (Hse : succ c u e) by (exists bb; auto).
      destruct (wf_id c wf t tb Htb) as [Hidt _]. destruct (wf_id c wf e eb Heb) as [Hide _].
      pose proof (ti_length _ Hinv) as Hlen. simpl in Hlen.
      destruct (block_index (<[u := PROCESSING]> index) t) as [zt Hzt]; [by rewrite length_insert|by eauto|].
      destruct (block_index (<[u := PROCESSING]> index) e) as [ze Hze]; [by rewrite length_insert|by eauto|].
      rewrite Ht. simpl. rewrite He. simpl. rewrite Htb. simpl. rewrite Hidt, Hzt. simpl.
      set (pt := if zt =? UNVISITED then [(t, Enter)] else []).
      set (pe := if isUnconditional (bb_exit bb) then [] else if ze =? UNVISITED then [(e, Enter)] else []).
      exists (mkTopoState target (<[u := PROCESSING]> index) ((pe ++ pt) ++ (u, Exit) :: rest)). split; [|split].
      * rewrite <- app_assoc. unfold pt, pe. destruct (isUnconditional (bb_exit bb)); [by destruct (zt =? UNVISITED)|].
        rewrite Heb. simpl. rewrite Hide, Hze. simpl. by destruct (zt =? UNVISITED), (ze =? UNVISITED).
      * apply topo_enter; [done| | |done].
        -- intros w ev Hin. apply elem_of_app in Hin as [Hin|Hin]; unfold pt, pe in Hin; repeat case_match;
             (by apply elem_of_nil in Hin) || (apply list_elem_of_singleton in Hin; by simplify_eq).
        -- assert (Hpt : <[u := PROCESSING]> index !! t <> Some UNVISITED \/ (t, Enter) ∈ pe ++ pt).
           { rewrite Hzt. unfold pt. destruct (Z.eqb_spec zt UNVISITED); [right; set_solver|left; congruence]. }
           intros v (bb' & Hbb' & Hv). assert (bb' = bb) as -> by congruence.
           destruct (decide (v = t)) as [->|Hvt]; [done|]. assert (v = e) as -> by (destruct Hv; congruence).
           assert (Hun : isUnconditional (bb_exit bb) = false) by (apply bool_decide_eq_false; congruence).
           unfold pe. rewrite Hze, Hun. destruct (Z.eqb_spec ze UNVISITED); [right; set_solver|left; congruence].
      * unfold topo_measure. simpl. pose proof (unvisited_insert index u PROCESSING Hz ltac:(done)).
        rewrite length_app. simpl.
        assert (length (pe ++ pt) <= 2)%nat; [|lia]. unfold pe, pt.
        by destruct (isUnconditional (bb_exit bb)), (zt =? UNVISITED), (ze =? UNVISITED); simpl; lia.
    + eexists. split; [done|]. split; [eapply topo_skip; [|done]; congruence|]. unfold topo_measure. simpl. lia.
  - destruct (ti_work _ Hinv u Exit ltac:(set_solver)) as [[bb Hbb] _].
    destruct (wf_id c wf u bb Hbb) as [Hid _]. simpl. rewrite Hbb. simpl. rewrite Hid.
    eexists. split; [done|]. split; [by apply topo_exit|]. unfold topo_measure. simpl.
    pose proof (unvisited_insert_le index u (Z.of_nat (length target)) ltac:(unfold UNVISITED; lia)). lia.
Qed.

Lemma topoLoop_ok fuel st : topo_inv st -> (topo_measure st <= fuel)%nat ->
  exists st', topoLoop fuel c st = Some st' /\ topo_inv st' /\ ts_work st' = [].
Proof using wf.
  revert st. induction fuel as [|fuel IH]; intros st Hinv Hm; simpl.
  - unfold topo_measure in Hm. destruct (ts_work st) eqn:Hw; [eauto|simpl in Hm; lia].
  - destruct (ts_work st) eqn:Hw; [eauto|].
    destruct (topoStep_ok st Hinv) as (st' & Hs & Hinv' & Hlt); [congruence|].
    rewrite Hs. simpl. apply IH; [done|lia].
Qed.

(** What a finished sort has computed: the post-order of the reachable blocks and its inverse *)
Record topo_result (target : list nat) (ids : list Z) : Prop := mk_topo_result {
  tr_nodup : NoDup target;
  tr_reachable : forall v, v ∈ target <-> reachable c entryBB v;
  tr_ids : forall i v, target !! i = Some v <-> ids !! v = Some (Z.of_nat i);
  tr_length : length ids = maxBasicBlockId c;
  tr_others : forall v z, ids !! v = Some z -> v ∉ target -> z = -1;
  tr_order : forall i j u v, target !! i = Some u -> target !! j = Some v -> succ c u v ->
    (j < i)%nat \/ reachable c v u }.

Lemma topo_finished target ids : is_Some (cfg_blocks c !! entryBB) ->
  topo_inv (mkTopoState target ids []) -> topo_result target ids.
Proof using wf.
  intros Hent [Hlen Hwork Htgt Htb Hproc Hnd Hmarks Habove Hclosed Hentry]; simpl in *.
  assert (Hvis : forall v, is_Some (cfg_blocks c !! v) -> ids !! v <> Some UNVISITED -> v ∈ target).
  { intros v Hv Hne. destruct (block_index ids v Hlen Hv) as [z Hz].
    destruct (Hmarks v z Hz) as [->|[->|Hpos]]; [done|by apply Hproc, elem_of_nil in Hz|].
    apply list_elem_of_lookup. exists (Z.to_nat z). apply Htgt. by rewrite Z2Nat.id. }
  assert (Hnodup : NoDup target).
  { apply NoDup_alt. intros i j x Hi%Htgt Hj%Htgt. rewrite Hi in Hj. simplify_eq. lia. }
  split; [done| |done|done| |].
  - intros v. split; [by intros [_ ?]%Htb|]. intros Hr.
    assert (He : entryBB ∈ target) by (destruct Hentry as [?|?%elem_of_nil]; [by apply Hvis|done]).
    clear Hentry Hent Hwork Htb. revert He. induction Hr as [|x y z Hs Hr IH]; [done|].
    intros Hx. apply IH. apply list_elem_of_lookup in Hx as [i Hi].
    destruct (Hclosed i x y Hi Hs) as [(j & _ & Hj)|[_ Hne]]; [by eapply list_elem_of_lookup_2|].
    apply Hvis; [|done]. by apply (succ_block x).
  - intros v z Hz Hni. destruct (Hmarks v z Hz) as [->|[->|Hpos]]; [done|by apply Hproc, elem_of_nil in Hz|].
    destruct Hni. apply list_elem_of_lookup. exists (Z.to_nat z). apply Htgt. by rewrite Z2Nat.id.
  - intros i j u v Hu Hv Hs. destruct (Hclosed i u v Hu Hs) as [(j' & Hj' & Hv')|[? _]]; [|by right].
    left. by rewrite (NoDup_lookup target j j' v Hnodup Hv Hv').
Qed.

Lemma topoSortFwd_result : is_Some (cfg_blocks c !! entryBB) ->
  exists target ids, topoSortFwd c (maxBasicBlockId c) entryBB = Some (target, ids) /\ topo_result target ids.
Proof using wf.
  intros Hent. unfold topoSortFwd.
  destruct (topoLoop_ok (topoFuel (maxBasicBlockId c)) _ (topo_init Hent)) as ([target ids work] & Hrun & Hinv & Hw).
  { unfold topo_measure, topoFuel, unvisited. simpl.
    pose proof (length_filter (fun z => z = UNVISITED) (replicate (maxBasicBlockId c) UNVISITED)) as Hl.
    rewrite length_replicate in Hl. lia. }
  rewrite Hrun. simpl in *. subst work. eauto using topo_finished.
Qed.
End Sort.

(** ** Removal of unreachable blocks *)

(** The list of blocks is the heap without repetition, and back edges are edges. *)
Record wf_cfg (c : CFG) : Prop := mk_wf_cfg {
  wc_graph : wf_graph c;
  wc_listed : forall k, k ∈ basicBlocks c <-> is_Some (cfg_blocks c !! k);
  wc_nodup : NoDup (basicBlocks c);
  wc_back : forall k bb p, cfg_blocks c !! k = Some bb -> p ∈ bb_backEdges bb -> succ c p k }.

(** Back edges that satisfy a predicate *)
Definition pruneEdges (P : nat -> Prop) `{forall p, Decision (P p)} (bb : BasicBlock) : BasicBlock :=
  set_backEdges (filter P (bb_backEdges bb)) bb.

Lemma filter_ext_in {A} (P Q : A -> Prop) `{forall x, Decision (P x)} `{forall x, Decision (Q x)} (l : list A) :
  (forall x, x ∈ l -> P x <-> Q x) -> filter P l = filter Q l.
Proof.
  induction l as [|x l IH]; intros H1; [done|]. rewrite !filter_cons, IH; [|set_solver].
  specialize (H1 x ltac:(set_solver)). repeat case_decide; naive_solver.
Qed.

Lemma filter_all {A} (P : A -> Prop) `{forall x, Decision (P x)} (l : list A) : (forall x, x ∈ l -> P x) -> filter P l = l.
Proof.
  induction l as [|x l IH]; intros H1; [done|]. rewrite filter_cons_True, IH; [done|set_solver..].
Qed.

Lemma pruneEdges_ext (P Q : nat -> Prop) `{forall p, Decision (P p)} `{forall p, Decision (Q p)} bb :
  (forall p, p ∈ bb_backEdges bb -> P p <-> Q p) -> pruneEdges P bb = pruneEdges Q bb.
Proof. intros H1. unfold pruneEdges. f_equal. by apply filter_ext_in. Qed.

Lemma pruneEdges_remove (P : nat -> Prop) `{forall p, Decision (P p)} x bb :
  set_backEdges (removeEdge x (bb_backEdges (pruneEdges P bb))) (pruneEdges P bb) =
  pruneEdges (fun p => p <> x /\ P p) bb.
Proof. unfold pruneEdges, removeEdge. simpl. rewrite list_filter_filter. done. Qed.

Lemma set_blocks_twice m m' c : set_blocks m (set_blocks m' c) = set_blocks m c.
Proof. done. Qed.

Lemma eraseBackEdge_alter x k m c : is_Some (m !! k) ->
  eraseBackEdge x k (set_blocks m c) =
  Some (set_blocks (alter (fun bb => set_backEdges (removeEdge x (bb_backEdges bb)) bb) k m) c).
Proof.
  intros [bb Hbb]. unfold eraseBackEdge, updateBlock. simpl. rewrite Hbb. simpl. rewrite set_blocks_twice. do 2 f_equal.
  apply map_eq. intros i. rewrite lookup_insert, lookup_alter. case_decide; [|done]. subst. by rewrite Hbb.
Qed.

Lemma set_blocks_id c : set_blocks (cfg_blocks c) c = c.
Proof. by destruct c. Qed.

Lemma set_backEdges_id bb : set_backEdges (bb_backEdges bb) bb = bb.
Proof. by destruct bb. Qed.

Section Prune.
Context (c : CFG) (wf : wf_cfg c) (entryBB : nat) (target : list nat) (ids : list Z)
  (Hres : topo_result c entryBB target ids).

Lemma ids_reached k : is_Some (cfg_blocks c !! k) ->
  exists z, ids !! k = Some z /\ (z =? -1) = bool_decide (k ∉ target).
Proof using wf Hres.
  intros Hk. destruct (block_index c (wc_graph c wf) ids k (tr_length _ _ _ _ Hres) Hk) as [z Hz].
  exists z. split; [done|]. case_bool_decide as Hin.
  - by rewrite (tr_others _ _ _ _ Hres k z Hz Hin).
  - apply list_elem_of_lookup in Hin as [i Hi].
    apply (tr_ids _ _ _ _ Hres) in Hi. rewrite Hz in Hi. simplify_eq. apply Z.eqb_neq. lia.
Qed.

Lemma disconnect_all order : forall c0, c0 = set_topoSort order c ->
  foldM (disconnect ids) c0 (basicBlocks c) =
  Some (set_blocks (pruneEdges (fun p => p ∈ target) <$> cfg_blocks c) c0).
Proof using wf Hres.
  intros c0 ->.
  destruct (foldM_inv (disconnect ids)
    (fun done c1 => c1 = set_blocks (pruneEdges (fun p => ~ (p ∈ done /\ p ∉ target)) <$> cfg_blocks c) (set_topoSort order c))
    (basicBlocks c) (set_topoSort order c)) as (c1 & Hrun & ->).
  - rewrite <- (set_blocks_id (set_topoSort order c)) at 1. f_equal. simpl. symmetry.
    rewrite <- (map_fmap_id (cfg_blocks c)) at 2. apply map_fmap_ext. intros k bb _.
    unfold pruneEdges. rewrite filter_all; [by apply set_backEdges_id|]. intros p _ [Hp _]. by apply elem_of_nil in Hp.
  - intros done x rest c1 Hl ->.
    assert (Hx : is_Some (cfg_blocks c !! x)) by (apply (wc_listed c wf); rewrite Hl; set_solver).
    destruct (ids_reached x Hx) as (z & Hz & Hdec). destruct Hx as [bb Hbb].
    destruct (wf_id c (wc_graph c wf) x bb Hbb) as [Hid _].
    unfold disconnect. simpl. rewrite lookup_fmap, Hbb. simpl. rewrite Hid, Hz. simpl. rewrite Hdec.
    case_bool_decide as Hin.
    + destruct (wf_exit c (wc_graph c wf) x bb Hbb) as (t & e & Ht & He & Htb & Heb).
      eexists. split; [|done]. rewrite Ht. simpl.
      rewrite eraseBackEdge_alter by (by rewrite lookup_fmap, fmap_is_Some). simpl. rewrite He. simpl.
      rewrite eraseBackEdge_alter by (by rewrite lookup_alter_is_Some, lookup_fmap, fmap_is_Some).
      do 2 f_equal. apply map_eq. intros k. rewrite !lookup_fmap.
      assert (Hother : forall kb, cfg_blocks c !! k = Some kb -> t <> k -> e <> k -> x ∉ bb_backEdges kb).
      { intros kb Hk Ht' He' Hp.
        destruct (wc_back c wf k kb x Hk Hp) as (bb' & Hbb' & [?|?]); simplify_eq; congruence. }
      destruct (decide (e = k)) as [->|]; [rewrite lookup_alter_eq|rewrite lookup_alter_ne by done];
        (destruct (decide (t = k)) as [->|]; [rewrite lookup_alter_eq|rewrite lookup_alter_ne by done]);
        rewrite lookup_fmap; destruct (cfg_blocks c !! k) as [kb|] eqn:Hk; try done; cbn [fmap option_fmap option_map]; f_equal;
        rewrite ?pruneEdges_remove; try rewrite (pruneEdges_remove (fun p => p <> x /\ _));
        apply pruneEdges_ext; intros p Hp; [set_solver..|].
      assert (p <> x); [|set_solver]. intros ->. by apply (Hother kb).
    + eexists. split; [done|]. f_equal. apply map_fmap_ext. intros k bb' _.
      apply pruneEdges_ext. set_solver.
  - rewrite Hrun. do 2 f_equal. apply map_fmap_ext. intros k bb Hk. apply pruneEdges_ext. intros p Hp.
    split; [|set_solver]. intros Hn. destruct (decide (p ∈ target)); [done|]. destruct Hn. split; [|done].
    apply (wc_listed c wf). by eapply (succ_block c (wc_graph c wf) p k), (wc_back c wf).
Qed.

(** Erasing blocks from a graph whose heap has the ids of [c] *)
Lemma eraseUnreached_all c1 : cfg_blocks c1 = pruneEdges (fun p => p ∈ target) <$> cfg_blocks c ->
  basicBlocks c1 = basicBlocks c ->
  foldM (eraseUnreached ids) c1 (basicBlocks c) =
  Some (set_basicBlocks (filter (fun k => k ∈ target) (basicBlocks c))
         (set_blocks (filter (fun kv => kv.1 ∈ target) (cfg_blocks c1)) c1)).
Proof using wf Hres.
  intros Hm Hb.
  destruct (foldM_inv (eraseUnreached ids)
    (fun done c2 => c2 = set_basicBlocks (filter (fun k => ~ (k ∈ done /\ k ∉ target)) (basicBlocks c))
                          (set_blocks (filter (fun kv => ~ (kv.1 ∈ done /\ kv.1 ∉ target)) (cfg_blocks c1)) c1))
    (basicBlocks c) c1) as (c2 & Hrun & ->).
  - rewrite filter_all by set_solver. rewrite map_filter_id by set_solver. rewrite <- Hb. by destruct c1.
  - intros done x rest c2 Hl ->.
    assert (Hx : is_Some (cfg_blocks c !! x)) by (apply (wc_listed c wf); rewrite Hl; set_solver).
    assert (Hnew : x ∉ done).
    { pose proof (wc_nodup c wf) as Hnd. rewrite Hl in Hnd. apply NoDup_app in Hnd as (_ & Hd & _).
      intros Hin. apply (Hd x Hin). set_solver. }
    destruct (ids_reached x Hx) as (z & Hz & Hdec). destruct Hx as [bb Hbb].
    destruct (wf_id c (wc_graph c wf) x bb Hbb) as [Hid _].
    eexists. split; [|done]. unfold eraseUnreached, unreached. simpl.
    assert (Hlk : filter (fun kv => ~ (kv.1 ∈ done /\ kv.1 ∉ target)) (cfg_blocks c1) !! x =
                  Some (pruneEdges (fun p => p ∈ target) bb)).
    { apply map_lookup_filter_Some. rewrite Hm, lookup_fmap, Hbb. set_solver. }
    rewrite Hlk. simpl. rewrite Hid, Hz. simpl. rewrite Hdec. f_equal. case_bool_decide as Hin.
    + unfold set_basicBlocks, set_blocks. simpl. f_equal.
      * apply map_eq. intros k. apply option_eq. intros b.
        rewrite lookup_delete_Some, !map_lookup_filter_Some. simpl. set_solver.
      * rewrite list_filter_filter. apply filter_ext_in. set_solver.
    + unfold set_basicBlocks, set_blocks. simpl. f_equal.
      * apply map_filter_ext. simpl. set_solver.
      * apply filter_ext_in. set_solver.
  - rewrite Hrun. f_equal. f_equal; [|f_equal].
    + apply filter_ext_in. intros k Hk. destruct (decide (k ∈ target)); set_solver.
    + apply map_filter_ext. simpl. intros k b Hk. rewrite Hm, lookup_fmap, fmap_Some in Hk. destruct Hk as (bb & Hk & ->).
      assert (k ∈ basicBlocks c) by (apply (wc_listed c wf); eauto).
      destruct (decide (k ∈ target)); set_solver.
Qed.
End Prune.

(** *** Sorting of back edges *)

#[local] Instance positionGe_total ids m : Total (positionGe ids m).
Proof. intros a b. unfold positionGe. lia. Qed.

#[local] Instance positionGe_trans ids m : Transitive (positionGe ids m).
Proof. intros a b d. unfold positionGe. lia. Qed.

Lemma positionGe_ext ids (m m' : gmap nat BasicBlock) a b : (forall k, bb_id <$> m !! k = bb_id <$> m' !! k) ->
  positionGe ids m a b -> positionGe ids m' a b.
Proof.
  intros Hm. unfold positionGe. pose proof (Hm a) as Ha. pose proof (Hm b) as Hb. revert Ha Hb.
  destruct (m !! a), (m' !! a), (m !! b), (m' !! b); simpl; intros; simplify_eq; simpl; congruence.
Qed.

Lemma StronglySorted_impl {A} (R S : relation A) (l : list A) :
  (forall a b, a ∈ l -> b ∈ l -> R a b -> S a b) -> StronglySorted R l -> StronglySorted S l.
Proof.
  intros Himpl Hs. induction Hs as [|a l Hs IH Hall]; constructor; [apply IH; set_solver|].
  rewrite Forall_forall in Hall |- *. set_solver.
Qed.

(** [b'] is [b] with its back edges rearranged, and sorted if [P]. *)
Definition edgesSorted (R : relation nat) (P : Prop) (b' b : BasicBlock) : Prop :=
  exists es, b' = set_backEdges es b /\ es ≡ₚ bb_backEdges b /\ (P -> StronglySorted R es).

Lemma sortBackEdges_all ids c : NoDup (basicBlocks c) -> (forall k, k ∈ basicBlocks c -> is_Some (cfg_blocks c !! k)) ->
  exists m, foldM (sortBackEdges ids) c (basicBlocks c) = Some (set_blocks m c) /\
    forall k, option_Forall2 (edgesSorted (positionGe ids (cfg_blocks c)) (k ∈ basicBlocks c)) (m !! k) (cfg_blocks c !! k).
Proof.
  intros Hnd Hlisted.
  destruct (foldM_inv (sortBackEdges ids)
    (fun done c' => exists m, c' = set_blocks m c /\
      forall k, option_Forall2 (edgesSorted (positionGe ids (cfg_blocks c)) (k ∈ done)) (m !! k) (cfg_blocks c !! k))
    (basicBlocks c) c) as (c' & Hrun & m & -> & Hm); [| |by eauto].
  - exists (cfg_blocks c). split; [by rewrite set_blocks_id|]. intros k. apply option_Forall2_refl. intros b.
    exists (bb_backEdges b). split; [by rewrite set_backEdges_id|]. split; [done|]. by intros ?%elem_of_nil.
  - intros done x rest c' Hl (m & -> & Hm).
    assert (Hx : is_Some (cfg_blocks c !! x)) by (apply Hlisted; rewrite Hl; set_solver).
    destruct Hx as [bb Hbb]. pose proof (Hm x) as Hmx. rewrite Hbb in Hmx.
    inversion Hmx as [b' b (es & -> & Hperm & Hsorted) Hmx' |]; simplify_eq.
    unfold sortBackEdges, updateBlock. simpl. rewrite <- Hmx'. simpl.
    eexists. split; [done|]. eexists. split; [done|]. intros k. rewrite lookup_insert. case_decide as Hk.
    + subst k. rewrite Hbb. constructor. eexists. split; [done|]. split.
      * rewrite merge_sort_Permutation. done.
      * intros _. eapply StronglySorted_impl; [|apply StronglySorted_merge_sort; apply _].
        intros a b _ _. apply positionGe_ext. intros k. specialize (Hm k).
        inversion Hm as [b1 b2 (? & -> & _) | ]; simpl; done.
    + destruct (Hm k) as [b1 b2 (es' & -> & Hp & Hs)|]; constructor. exists es'. split; [done|].
      split; [done|]. intros Hin. apply Hs. set_solver.
Qed.

(** [a] does not come before [b] in [order]. *)
Definition laterIn (order : list nat) : relation nat := fun a b =>
  exists i j, order !! i = Some a /\ order !! j = Some b /\ (j <= i)%nat.

(** What [fillInTopoSorts] makes of the blocks of [c] when [order] is the post-order from its entry *)
Record pruned (c : CFG) (order : list nat) (c' : CFG) : Prop := mk_pruned {
  pr_max : maxBasicBlockId c' = maxBasicBlockId c;
  pr_listed : basicBlocks c' = filter (fun k => k ∈ order) (basicBlocks c);
  pr_tables : localVariables c' = localVariables c /\ minLoops c' = minLoops c /\ maxLoopWrite c' = maxLoopWrite c;
  pr_dom : forall k, is_Some (cfg_blocks c' !! k) <-> k ∈ order;
  pr_block : forall k b', cfg_blocks c' !! k = Some b' ->
    exists b es, cfg_blocks c !! k = Some b /\ b' = set_backEdges es b /\
      es ≡ₚ filter (fun p => p ∈ order) (bb_backEdges b) /\ StronglySorted (laterIn order) es }.

Lemma pruned_wf c e target ids c' : wf_cfg c -> topo_result c e target ids -> pruned c target c' -> wf_cfg c'.
Proof.
  intros Hwf Hres Hpr.
  assert (Hsucc : forall u v, u ∈ target -> succ c u v <-> succ c' u v).
  { intros u v Hu. apply (pr_dom c target c' Hpr) in Hu as [b' Hb'].
    destruct (pr_block c target c' Hpr u b' Hb') as (b & es & Hb & -> & _).
    split; intros (bb & Hbb & Hv).
    - assert (bb = b) as -> by congruence. by exists (set_backEdges es b).
    - assert (bb = set_backEdges es b) as -> by congruence. by exists b. }
  assert (Hclosed : forall u v, u ∈ target -> succ c u v -> v ∈ target).
  { intros u v Hu Hs. apply (tr_reachable _ _ _ _ Hres). apply (tr_reachable _ _ _ _ Hres) in Hu. by eapply rtc_r. }
  split; [split| | |].
  - intros k b' Hb'. destruct (pr_block c target c' Hpr k b' Hb') as (b & es & Hb & -> & _).
    rewrite (pr_max c target c' Hpr). exact (wf_id c (wc_graph c Hwf) k b Hb).
  - intros k b' Hb'. assert (Hk : k ∈ target) by (apply (pr_dom c target c' Hpr); eauto).
    destruct (pr_block c target c' Hpr k b' Hb') as (b & es & Hb & -> & _).
    destruct (wf_exit c (wc_graph c Hwf) k b Hb) as (t & el & Ht & Hel & _).
    exists t, el. split; [done|]. split; [done|]. rewrite !(pr_dom c target c' Hpr).
    split; apply (Hclosed k); unfold succ; eauto.
  - intros k. rewrite (pr_dom c target c' Hpr), (pr_listed c target c' Hpr), list_elem_of_filter.
    split; [naive_solver|]. intros Hk. split; [done|]. apply (wc_listed c Hwf).
    apply (pr_dom c target c' Hpr) in Hk as [b' Hb'].
    destruct (pr_block c target c' Hpr k b' Hb') as (b & es & Hb & _). eauto.
  - rewrite (pr_listed c target c' Hpr). apply NoDup_filter, (wc_nodup c Hwf).
  - intros k b' p Hb' Hp. destruct (pr_block c target c' Hpr k b' Hb') as (b & es & Hb & -> & Hperm & _).
    simpl in Hp. rewrite Hperm, list_elem_of_filter in Hp. destruct Hp as [Hpt Hp].
    apply Hsucc; [done|]. by apply (wc_back c Hwf k b).
Qed.

Lemma fillInTopoSorts_pruned c e : wf_cfg c -> entry c = Some e ->
  exists c' ids, fillInTopoSorts c = Some c' /\ topo_result c e (forwardsTopoSort c') ids /\
    pruned c (forwardsTopoSort c') c'.
Proof.
  intros Hwf He. unfold fillInTopoSorts. rewrite He. simpl.
  assert (Hent : is_Some (cfg_blocks c !! e)) by (apply (wc_listed c Hwf); by eapply list_elem_of_lookup_2).
  destruct (topoSortFwd_result c (wc_graph c Hwf) e Hent) as (target & ids & -> & Hres). simpl.
  rewrite (disconnect_all c Hwf e target ids Hres target _ eq_refl). simpl.
  rewrite (eraseUnreached_all c Hwf e target ids Hres) by done. simpl.
  match goal with |- context [foldM (sortBackEdges ids) ?c2 _] => set (c2' := c2) end.
  destruct (sortBackEdges_all ids c2') as (m & Hrun & Hm).
  { subst c2'. simpl. apply NoDup_filter, (wc_nodup c Hwf). }
  { subst c2'. simpl. intros k [Hk Hl]%list_elem_of_filter. apply (wc_listed c Hwf) in Hl as [b Hb].
    exists (pruneEdges (fun p => p ∈ target) b). apply map_lookup_filter_Some. by rewrite lookup_fmap, Hb. }
  simpl in Hrun. rewrite Hrun. exists (set_blocks m c2'), ids. split; [done|]. simpl. split; [done|].
  assert (Hlk : forall k b2, cfg_blocks c2' !! k = Some b2 <->
    k ∈ target /\ exists b, cfg_blocks c !! k = Some b /\ b2 = pruneEdges (fun p => p ∈ target) b).
  { intros k b2. subst c2'. simpl. rewrite map_lookup_filter_Some, lookup_fmap, fmap_Some. naive_solver. }
  split; simpl; [done|done|done| |].
  - intros k. specialize (Hm k). split.
    + intros [b' Hb']. rewrite Hb' in Hm. inversion Hm as [? b2 _ Heq1 Heq2|]. symmetry in Heq2. by apply Hlk in Heq2 as [? _].
    + intros Hk. assert (Hd : is_Some (cfg_blocks c !! k)) by (apply (reachable_block c (wc_graph c Hwf) e); [done|by apply (tr_reachable _ _ _ _ Hres)]).
      destruct Hd as [b Hb]. assert (Hb2 : cfg_blocks c2' !! k = Some (pruneEdges (fun p => p ∈ target) b)) by (apply Hlk; eauto).
      rewrite Hb2 in Hm. inversion Hm. eauto.
  - intros k b' Hb'. specialize (Hm k). rewrite Hb' in Hm. inversion Hm as [? b2 (es & -> & Hperm & Hs) Heq1 Heq2|].
    symmetry in Heq2. apply Hlk in Heq2 as (Hk & b & Hb & ->). exists b, es. split; [done|]. split; [done|]. split; [done|].
    eapply StronglySorted_impl; [|apply Hs].
    + assert (Hpos : forall p, p ∈ es -> exists i b2, target !! i = Some p /\ cfg_blocks c2' !! p = Some b2 /\
                                 bb_id b2 = p /\ ids !! p = Some (Z.of_nat i)).
      { intros p Hp. rewrite Hperm in Hp. apply list_elem_of_filter in Hp as [Hp Hpb].
        pose proof (wc_back c Hwf k b p Hb Hpb) as (pb & Hpb' & _).
        pose proof Hp as [i Hi]%list_elem_of_lookup. exists i, (pruneEdges (fun p => p ∈ target) pb).
        split; [done|]. split; [apply Hlk; eauto|]. split; [exact (proj1 (wf_id c (wc_graph c Hwf) p pb Hpb'))|].
        by apply (tr_ids _ _ _ _ Hres). }
      intros x y (i & xb & Hi & Hxb & Hxi & Hxids)%Hpos (j & yb & Hj & Hyb & Hyi & Hyids)%Hpos.
      unfold positionGe. rewrite Hxb, Hyb. simpl. rewrite Hxi, Hyi, Hxids, Hyids. simpl. intros Hle.
      exists i, j. split; [done|]. split; [done|lia].
    + apply list_elem_of_filter. split; [done|]. apply (wc_listed c Hwf). eauto.
Qed.

Lemma entry_kept (order : list nat) c e : e ∈ order -> entry c = Some e ->
  filter (fun k => k ∈ order) (basicBlocks c) !! 0%nat = Some e.
Proof.
  unfold entry. destruct (basicBlocks c) as [|b l]; [done|]. intros He [= ->]. by rewrite filter_cons_True.
Qed.

(** C26: on a well-formed graph [fillInTopoSorts] succeeds, within the fuel of its loop. The order it
    stores lists exactly the blocks reachable from the entry, each once, and a block comes after each
    of its successors from which it cannot be reached again. The graph keeps exactly these blocks, in
    their order and with their contents; their back edges are the old ones from reachable blocks, in
    decreasing position; the entry stays and the graph is well-formed again. *)
Theorem fillInTopoSorts_correct c e : wf_cfg c -> entry c = Some e ->
  exists c', fillInTopoSorts c = Some c' /\ entry c' = Some e /\ wf_cfg c' /\
    NoDup (forwardsTopoSort c') /\
    (forall k, k ∈ forwardsTopoSort c' <-> reachable c e k) /\
    (forall i j u v, forwardsTopoSort c' !! i = Some u -> forwardsTopoSort c' !! j = Some v ->
       succ c u v -> (j < i)%nat \/ reachable c v u) /\
    pruned c (forwardsTopoSort c') c'.
Proof.
  intros Hwf He. destruct (fillInTopoSorts_pruned c e Hwf He) as (c' & ids & Hrun & Hres & Hpr).
  exists c'. split; [done|]. split.
  { unfold entry. rewrite (pr_listed _ _ _ Hpr). apply entry_kept; [|done].
    apply (tr_reachable _ _ _ _ Hres). constructor. }
  split; [by eapply pruned_wf|]. split; [apply Hres|]. split; [apply Hres|]. split; [apply Hres|done].
Qed.

(** *** A decision procedure for well-formedness *)

Definition isSucc (c : CFG) (u v : nat) : bool :=
  match cfg_blocks c !! u with
  | Some bb => bool_decide (be_thenb (bb_exit bb) = Some v) || bool_decide (be_elseb (bb_exit bb) = Some v)
  | None => false
  end.

Definition exitsIn (c : CFG) (bb : BasicBlock) : bool :=
  match be_thenb (bb_exit bb), be_elseb (bb_exit bb) with
  | Some t, Some e => bool_decide (t ∈ dom (cfg_blocks c)) && bool_decide (e ∈ dom (cfg_blocks c))
  | _, _ => false
  end.

Definition blockOk (c : CFG) (k : nat) (bb : BasicBlock) : bool :=
  (bb_id bb =? k)%nat && (k <? maxBasicBlockId c)%nat && exitsIn c bb && forallb (fun p => isSucc c p k) (bb_backEdges bb).

Definition wf_cfgb (c : CFG) : bool :=
  forallb (fun '(k, bb) => blockOk c k bb) (map_to_list (cfg_blocks c)) &&
  bool_decide (NoDup (basicBlocks c)) && bool_decide (list_to_set (basicBlocks c) = dom (cfg_blocks c)).

Lemma isSucc_spec c u v : isSucc c u v = true <-> succ c u v.
Proof.
  unfold isSucc, succ. destruct (cfg_blocks c !! u) as [bb|]; [|naive_solver].
  rewrite orb_true_iff, !bool_decide_eq_true. naive_solver.
Qed.

Lemma wf_cfgb_sound c : wf_cfgb c = true -> wf_cfg c.
Proof.
  unfold wf_cfgb. rewrite !andb_true_iff, !bool_decide_eq_true, forallb_forall. intros [[Hblocks Hnd] Hdom].
  assert (Hok : forall k bb, cfg_blocks c !! k = Some bb -> blockOk c k bb = true).
  { intros k bb Hk. apply (Hblocks (k, bb)), list_elem_of_In, elem_of_map_to_list. done. }
  assert (Hexit : forall k bb, cfg_blocks c !! k = Some bb -> exitsIn c bb = true).
  { intros k bb Hk%Hok. unfold blockOk in Hk. rewrite !andb_true_iff in Hk. tauto. }
  split; [split| |done|].
  - intros k bb Hk%Hok. unfold blockOk in Hk. rewrite !andb_true_iff, Nat.eqb_eq, Nat.ltb_lt in Hk. tauto.
  - intros k bb Hk%Hexit. unfold exitsIn in Hk. destruct (be_thenb (bb_exit bb)) as [t|], (be_elseb (bb_exit bb)) as [el|]; try done.
    rewrite andb_true_iff, !bool_decide_eq_true, !elem_of_dom in Hk. naive_solver.
  - intros k. rewrite <- elem_of_dom, <- Hdom. by rewrite elem_of_list_to_set.
  - intros k bb p Hk%Hok Hp. unfold blockOk in Hk. rewrite !andb_true_iff, forallb_forall in Hk.
    apply isSucc_spec, Hk. by apply list_elem_of_In.
Qed.

(** A loop at 2 and 3 that leaves to 4, the dead block 1, and an unreachable block 5 that jumps to 4 *)
Definition sampleBlock (id t e : nat) (back : list nat) : BasicBlock :=
  mkBasicBlock [] id false false 0 [] (mkBlockExit (useSite unconditional noOffsets) (Some t) (Some e) noOffsets) back.

Definition sampleGraph : CFG :=
  mkCFG 0 6 noOffsets noOffsets
    (list_to_map [(0, sampleBlock 0 2 2 []); (1, sampleBlock 1 1 1 [4]); (2, sampleBlock 2 3 4 [0; 3]);
                  (3, sampleBlock 3 2 2 [2]); (4, sampleBlock 4 1 1 [2; 5]); (5, sampleBlock 5 4 4 [])])%nat
    [0; 1; 2; 3; 4; 5]%nat noOffsets [] [] [] [] ∅ [].

Lemma fillInTopoSorts_correct_witness :
  wf_cfg sampleGraph /\ (forwardsTopoSort <$> fillInTopoSorts sampleGraph) = Some [1; 4; 3; 2; 0]%nat /\
  exists c', fillInTopoSorts sampleGraph = Some c' /\ forall k, k ∈ forwardsTopoSort c' <-> reachable sampleGraph 0%nat k.
Proof.
  assert (Hwf : wf_cfg sampleGraph) by (apply wf_cfgb_sound; vm_compute; reflexivity).
  split; [done|]. split; [vm_compute; reflexivity|].
  destruct (fillInTopoSorts_correct sampleGraph 0%nat Hwf eq_refl) as (c' & Hrun & _ & _ & _ & Hr & _). eauto.
Defined.
