(* ===== verification/CfgReads.v ===== *)
(** * What blocks read and write

    The meaning of [CFG::findAllReadsAndWrites] (src/cfg/CFG.cc, modelled in [Cfg]): the bit sets it
    computes represent the variables that a block reads, those that it writes and another block
    mentions, and those that it writes before it reads them. *)

From S2P Require Import Prelude Pickler FileHash Files Locs Types NameTable NameText Symbols SymbolRefs.
From S2P Require Import UIntSet Cfg CfgTopo.

#[local] Open Scope Z_scope.

Section WithNames.
Context (wn : CfgNames) (c : CFG).

#[local] Abbreviation words := ((length (localVariables c) + 31) / 32)%nat.

(** ** The sets *)

(** A binding reads what its instruction reads and, when it assigns to a global, the global too. *)
Definition bindingReads (bind : Binding) : list nat :=
  (if default false (isAliasForGlobal wn c (vu_variable (bd_bind bind))) && negb (isAlias (bd_value bind))
   then [vu_variable (bd_bind bind)] else []) ++ instructionReads (bd_value bind).

Definition bindingWrites (bind : Binding) : nat := vu_variable (bd_bind bind).

Definition condReads (bb : BasicBlock) : list nat :=
  let cond := vu_variable (be_cond (bb_exit bb)) in if (cond =? unconditional)%nat then [] else [cond].

Definition readIn (bb : BasicBlock) (v : nat) : Prop :=
  (exists bind, bind ∈ bb_exprs bb /\ v ∈ bindingReads bind) \/ v ∈ condReads bb.

Definition writtenIn (bb : BasicBlock) (v : nat) : Prop := exists bind, bind ∈ bb_exprs bb /\ bindingWrites bind = v.

(** Some binding writes [v], and no binding up to it reads [v]. *)
Definition deadIn (exprs : list Binding) (v : nat) : Prop :=
  exists before bind after, exprs = before ++ bind :: after /\ bindingWrites bind = v /\
    forall b, b ∈ before ++ [bind] -> v ∉ bindingReads b.

(** The variables a graph mentions exist. *)
Definition vars_ok : Prop := forall k bb, cfg_blocks c !! k = Some bb ->
  (forall bind v, bind ∈ bb_exprs bb -> v = bindingWrites bind \/ v ∈ instructionReads (bd_value bind) ->
     (v < length (localVariables c))%nat) /\
  (vu_variable (be_cond (bb_exit bb)) < length (localVariables c))%nat.

Lemma local_in_words v : (v < length (localVariables c))%nat -> (v < 32 * words)%nat.
Proof. intros Hv. pose proof (Nat.div_mod_eq (length (localVariables c) + 31) 32). pose proof (Nat.mod_upper_bound (length (localVariables c) + 31) 32). lia. Qed.

Lemma rep_addItems items s (X : gset nat) : represents words s X -> (forall v, v ∈ items -> (v < length (localVariables c))%nat) ->
  exists s', addItems s items = Some s' /\ represents words s' (list_to_set items ∪ X).
Proof.
  unfold addItems. revert s X. induction items as [|v items IH]; intros s X Hs Hv; simpl.
  - exists s. split; [done|]. eapply eq_ind; [exact Hs|set_solver].
  - destruct (rep_add words s X v Hs) as (s1 & -> & Hs1); [apply local_in_words, Hv; set_solver|]. simpl.
    destruct (IH s1 _ Hs1) as (s' & -> & Hs'); [set_solver|]. exists s'. split; [done|].
    eapply eq_ind; [exact Hs'|set_solver].
Qed.

(** ** One block *)

Definition block_sets (exprs : list Binding) (X Y Z : gset nat) : Prop :=
  (forall v, (v ∈ X) <-> exists bind, bind ∈ exprs /\ v ∈ bindingReads bind) /\
  (forall v, (v ∈ Y) <-> exists bind, bind ∈ exprs /\ bindingWrites bind = v) /\
  (forall v, (v ∈ Z) <-> deadIn exprs v).

Lemma deadIn_snoc exprs bind v : deadIn (exprs ++ [bind]) v <->
  (deadIn exprs v \/ (bindingWrites bind = v /\ forall b, b ∈ exprs ++ [bind] -> v ∉ bindingReads b)).
Proof.
  split.
  - intros (before & b & after & Heq & Hw & Hr). destruct after as [|a after _] using rev_ind.
    + apply app_inj_tail in Heq as [-> ->]. by right.
    + rewrite app_comm_cons, app_assoc in Heq. apply app_inj_tail in Heq as [-> ->]. left. by exists before, b, after.
  - intros [(before & b & after & -> & Hw & Hr)|[Hw Hr]].
    + exists before, b, (after ++ [bind]). split; [by rewrite <- app_assoc|done].
    + by exists exprs, bind, [].
Qed.

Lemma bindingReadsAndWrites_spec exprs bind r w d (X Y Z : gset nat) :
  represents words r X -> represents words w Y -> represents words d Z -> block_sets exprs X Y Z ->
  (forall v, v = bindingWrites bind \/ v ∈ instructionReads (bd_value bind) -> (v < length (localVariables c))%nat) ->
  exists r' w' d' X' Y' Z', bindingReadsAndWrites wn c (r, w, d) bind = Some (r', w', d') /\
    represents words r' X' /\ represents words w' Y' /\ represents words d' Z' /\ block_sets (exprs ++ [bind]) X' Y' Z'.
Proof.
  intros Hr Hw Hd (HX & HY & HZ) Hv. unfold bindingReadsAndWrites.
  set (v := vu_variable (bd_bind bind)).
  assert (Hvl : (v < length (localVariables c))%nat) by (apply Hv; by left).
  pose proof (local_in_words v Hvl) as Hvw.
  destruct (rep_add words w Y v Hw Hvw) as (w' & -> & Hw'). cbn [mbind option_bind].
  destruct (lookup_lt_is_Some_2 (localVariables c) v Hvl) as [lv Hlv].
  assert (Hg : isAliasForGlobal wn c v = Some (isAliasForGlobalVar wn lv)) by (unfold isAliasForGlobal, localData; by rewrite Hlv).
  rewrite Hg. cbn [mbind option_bind].
  set (g := isAliasForGlobalVar wn lv && negb (isAlias (bd_value bind))).
  assert (Hbr : bindingReads bind = (if g then [v] else []) ++ instructionReads (bd_value bind)).
  { unfold bindingReads. fold v. by rewrite Hg. }
  assert (exists r1, (if g then uis_add v r else Some r) = Some r1 /\ represents words r1 (list_to_set (if g then [v] else []) ∪ X))
    as (r1 & -> & Hr1).
  { destruct g.
    - destruct (rep_add words r X v Hr Hvw) as (r1 & -> & Hr1). exists r1. split; [done|]. eapply eq_ind; [exact Hr1|set_solver].
    - exists r. split; [done|]. eapply eq_ind; [exact Hr|set_solver]. }
  cbn [mbind option_bind].
  destruct (rep_addItems (instructionReads (bd_value bind)) r1 _ Hr1) as (r2 & -> & Hr2); [auto|]. cbn [mbind option_bind].
  rewrite (rep_contains words r2 _ v Hr2 Hvw). cbn [mbind option_bind].
  set (X2 := list_to_set (instructionReads (bd_value bind)) ∪ (list_to_set (if g then [v] else []) ∪ X)) in *.
  assert (HX2 : forall u, (u ∈ X2) <-> exists b, b ∈ exprs ++ [bind] /\ u ∈ bindingReads b).
  { intros u. subst X2. rewrite !elem_of_union, !elem_of_list_to_set, HX. split.
    - intros [?|[?|(b & ? & ?)]]; [exists bind|exists bind|exists b]; rewrite ?Hbr; set_solver.
    - intros (b & [?|Hb%list_elem_of_singleton]%elem_of_app & Hu); [right; right; eauto|]. subst b. rewrite Hbr in Hu. set_solver. }
  assert (HY2 : forall u, (u ∈ {[v]} ∪ Y) <-> exists b, b ∈ exprs ++ [bind] /\ bindingWrites b = u).
  { intros u. rewrite elem_of_union, elem_of_singleton, HY. split.
    - intros [->|(b & ? & ?)]; [exists bind|exists b]; set_solver.
    - intros (b & [?|Hb%list_elem_of_singleton]%elem_of_app & Hu); [right; eauto|]. subst b. by left. }
  case_bool_decide as Hin; cbn [negb].
  - cbn [mbind option_bind]. exists r2, w', d, X2, ({[v]} ∪ Y), Z. split_and!; try done. unfold block_sets. split_and!; try done.
    intros u. rewrite deadIn_snoc, HZ. split; [by left|]. intros [?|[Hbw Hnr]]; [done|].
    apply HX2 in Hin as (b & Hb & Hub). change (v = u) in Hbw. subst u. by apply Hnr in Hub.
  - destruct (rep_add words d Z v Hd Hvw) as (d' & -> & Hd'). cbn [mbind option_bind].
    exists r2, w', d', X2, ({[v]} ∪ Y), ({[v]} ∪ Z). split_and!; try done. unfold block_sets. split_and!; try done.
    intros u. rewrite deadIn_snoc, elem_of_union, elem_of_singleton, HZ. split.
    + intros [->|?]; [|by left]. right. split; [done|]. intros b Hb Hu. apply Hin, HX2. eauto.
    + intros [?|[Hbw Hnr]]; [by right|]. left. done.
Qed.

Definition blockFacts (bb : BasicBlock) (X Y Z : gset nat) : Prop :=
  (forall v, (v ∈ X) <-> readIn bb v) /\ (forall v, (v ∈ Y) <-> writtenIn bb v) /\ (forall v, (v ∈ Z) <-> deadIn (bb_exprs bb) v).

Context (wf : wf_cfg c) (vars : vars_ok) (few : fitsWords (length (localVariables c))).

Lemma block_bindings bb k : cfg_blocks c !! k = Some bb ->
  exists r w d X Y Z, foldM (bindingReadsAndWrites wn c)
      (newUIntSet (length (localVariables c)), newUIntSet (length (localVariables c)), newUIntSet (length (localVariables c)))
      (bb_exprs bb) = Some (r, w, d) /\
    represents words r X /\ represents words w Y /\ represents words d Z /\ block_sets (bb_exprs bb) X Y Z.
Proof using vars wf few.
  intros Hb.
  destruct (foldM_inv (bindingReadsAndWrites wn c)
    (fun done st => exists r w d X Y Z, st = (r, w, d) /\
       represents words r X /\ represents words w Y /\ represents words d Z /\ block_sets done X Y Z)
    (bb_exprs bb) (newUIntSet (length (localVariables c)), newUIntSet (length (localVariables c)), newUIntSet (length (localVariables c))))
    as (st & Hrun & r & w & d & X & Y & Z & -> & H); [| |by exists r, w, d, X, Y, Z].
  - eexists _, _, _, ∅, ∅, ∅. split; [done|]. split_and!; try by apply rep_new. unfold block_sets. split_and!; intros v.
    + set_solver.
    + set_solver.
    + split; [set_solver|]. intros (? & ? & ? & Heq & _). by destruct (app_cons_not_nil _ _ _ Heq).
  - intros done bind rest st Hl (r & w & d & X & Y & Z & -> & Hr & Hw & Hd & Hs).
    destruct (bindingReadsAndWrites_spec done bind r w d X Y Z Hr Hw Hd Hs) as (r' & w' & d' & X' & Y' & Z' & -> & H).
    + intros v Hv. apply (proj1 (vars k bb Hb) bind); [|done]. rewrite Hl. set_solver.
    + eexists. split; [done|]. by exists r', w', d', X', Y', Z'.
Qed.

(** The sets of the blocks in [done]; the others are still empty. *)
Definition rw_inv (done : list nat) (t : ReadsAndWrites) : Prop :=
  exists Xs Ys Zs, Forall2 (represents words) (rw_reads t) Xs /\ Forall2 (represents words) (rw_writes t) Ys /\
    Forall2 (represents words) (rw_dead t) Zs /\
    length Xs = maxBasicBlockId c /\ length Ys = maxBasicBlockId c /\ length Zs = maxBasicBlockId c /\
    forall k, if decide (k ∈ done)
              then exists bb, cfg_blocks c !! k = Some bb /\ blockFacts bb (Xs !!! k) (Ys !!! k) (Zs !!! k)
              else Xs !!! k = ∅ /\ Ys !!! k = ∅ /\ Zs !!! k = ∅ /\
                   (forall s, rw_reads t !! k = Some s \/ rw_writes t !! k = Some s \/ rw_dead t !! k = Some s ->
                      s = newUIntSet (length (localVariables c))).

Lemma rw_inv_init : rw_inv [] (newReadsAndWrites (maxBasicBlockId c) (length (localVariables c))).
Proof.
  set (E := replicate (maxBasicBlockId c) (∅ : gset nat)).
  assert (HE : Forall2 (represents words) (replicate (maxBasicBlockId c) (newUIntSet (length (localVariables c)))) E)
    by apply Forall2_replicate, rep_new, few.
  assert (Hl : length E = maxBasicBlockId c) by apply length_replicate.
  assert (Hemp : forall k, E !!! k = ∅).
  { intros k. rewrite list_lookup_total_alt. destruct (E !! k) eqn:Hk; [|done]. by apply lookup_replicate in Hk as [-> _]. }
  exists E, E, E. split_and!; try done. intros k. rewrite decide_False by set_solver. split_and!; try apply Hemp.
  intros s. cbn [newReadsAndWrites rw_reads rw_writes rw_dead]. rewrite !lookup_replicate. naive_solver.
Qed.

Lemma blockReadsAndWrites_inv done b t : rw_inv done t -> b ∉ done -> is_Some (cfg_blocks c !! b) ->
  exists t', blockReadsAndWrites wn c t b = Some t' /\ rw_inv (done ++ [b]) t'.
Proof using vars wf few.
  intros (Xs & Ys & Zs & HX & HY & HZ & HlX & HlY & HlZ & Hk) Hb [bb Hbb].
  destruct (wf_id c (wc_graph c wf) b bb Hbb) as [Hid Hlt].
  assert (Hget : forall L (X : list (gset nat)), Forall2 (represents words) L X -> length X = maxBasicBlockId c -> is_Some (L !! b)).
  { intros L X HL HlX'. apply lookup_lt_is_Some. rewrite (Forall2_length _ _ _ HL). lia. }
  destruct (Hget _ _ HX HlX) as [r0 Hr0]. destruct (Hget _ _ HY HlY) as [w0 Hw0]. destruct (Hget _ _ HZ HlZ) as [d0 Hd0].
  pose proof (Hk b) as Hkb. rewrite decide_False in Hkb by done. destruct Hkb as (_ & _ & _ & Hnew).
  destruct (block_bindings bb b Hbb) as (r & w & d & X & Y & Z & Hrun & Hr & Hw & Hd & Hs).
  unfold blockReadsAndWrites. rewrite Hbb. cbn [mbind option_bind]. rewrite Hid, Hr0, Hw0, Hd0. cbn [mbind option_bind].
  rewrite (Hnew r0), (Hnew w0), (Hnew d0), Hrun by auto. cbn [mbind option_bind].
  assert (exists r', (if negb (vu_variable (be_cond (bb_exit bb)) =? unconditional)%nat
                      then uis_add (vu_variable (be_cond (bb_exit bb))) r else Some r) = Some r' /\
                     represents words r' (list_to_set (condReads bb) ∪ X)) as (r' & -> & Hr').
  { unfold condReads. destruct (Nat.eqb_spec (vu_variable (be_cond (bb_exit bb))) unconditional); cbn [negb].
    - exists r. split; [done|]. eapply eq_ind; [exact Hr|set_solver].
    - destruct (rep_add words r X (vu_variable (be_cond (bb_exit bb))) Hr) as (r' & -> & Hr').
      { apply local_in_words, (vars b bb Hbb). }
      exists r'. split; [done|]. eapply eq_ind; [exact Hr'|set_solver]. }
  cbn [mbind option_bind]. eexists. split; [done|].
  exists (<[b := list_to_set (condReads bb) ∪ X]> Xs), (<[b := Y]> Ys), (<[b := Z]> Zs).
  split_and!; try (by apply Forall2_insert); try (by rewrite length_insert). intros k.
  destruct (decide (k = b)) as [->|Hne].
  - rewrite decide_True by set_solver. exists bb. split; [done|]. rewrite !list_lookup_total_insert_eq by lia.
    destruct Hs as (HsX & HsY & HsZ). split_and!; intros v; [|apply HsY|apply HsZ].
    rewrite elem_of_union, elem_of_list_to_set, HsX. unfold readIn. tauto.
  - rewrite !list_lookup_total_insert_ne by done. cbn [rw_reads rw_writes rw_dead]. rewrite !list_lookup_insert_ne by done.
    specialize (Hk k). destruct (decide (k ∈ done)); [rewrite decide_True by set_solver|rewrite decide_False by set_solver]; done.
Qed.

(** ** Variables of a single block *)

(** The blocks that mention [v], in order *)
Definition mentions (Xs Ys : list (gset nat)) (done : list nat) (v : nat) : list nat :=
  filter (fun k => v ∈ Xs !!! k ∪ Ys !!! k) done.

Definition usage_inv (Xs Ys : list (gset nat)) (done : list nat) (usage : list (nat * nat)) : Prop :=
  length usage = length (localVariables c) /\
  forall v cnt first, usage !! v = Some (cnt, first) ->
    cnt = length (mentions Xs Ys done v) /\ forall k, head (mentions Xs Ys done v) = Some k -> first = k.

Lemma count_items (b : nat) items (usage : list (nat * nat)) : NoDup items -> (forall v, v ∈ items -> (v < length usage)%nat) ->
  exists usage', foldM (countUsage b) usage items = Some usage' /\ length usage' = length usage /\
    forall v, usage' !! v = (fun '(cnt, first) => if decide (v ∈ items) then (S cnt, if (cnt =? 0)%nat then b else first)
                                                  else (cnt, first)) <$> usage !! v.
Proof.
  intros Hnd. revert usage. induction Hnd as [|x items Hx Hnd IH]; intros usage Hv; cbn [foldM].
  - exists usage. split_and!; [done..|]. intros v. destruct (usage !! v) as [[cnt first]|]; done.
  - destruct (lookup_lt_is_Some_2 usage x ltac:(apply Hv; set_solver)) as [[cnt first] Hu].
    assert (Hc : countUsage b usage x = Some (<[x := (S cnt, if (cnt =? 0)%nat then b else first)]> usage))
      by (unfold countUsage; by rewrite Hu).
    rewrite Hc. cbn [mbind option_bind].
    destruct (IH (<[x := (S cnt, if (cnt =? 0)%nat then b else first)]> usage)) as (usage' & -> & Hl & Hlk).
    { intros v Hin. rewrite length_insert. apply Hv. set_solver. }
    exists usage'. split; [done|]. rewrite length_insert in Hl. split; [done|]. intros v. rewrite Hlk.
    destruct (decide (v = x)) as [->|Hne].
    + rewrite list_lookup_insert_eq by (by eapply lookup_lt_Some). rewrite Hu. simpl.
      rewrite decide_False by done. by rewrite decide_True by set_solver.
    + rewrite list_lookup_insert_ne by done. destruct (usage !! v) as [[cnt' first']|]; simpl; [|done].
      f_equal. destruct (decide (v ∈ items)); [by rewrite decide_True by set_solver|by rewrite decide_False by set_solver].
Qed.

Lemma mentions_snoc Xs Ys done b v : mentions Xs Ys (done ++ [b]) v =
  mentions Xs Ys done v ++ (if decide (v ∈ Xs !!! b ∪ Ys !!! b) then [b] else []).
Proof. unfold mentions. rewrite filter_app, filter_cons. done. Qed.

Lemma usage_step Xs Ys done b usage usage' (items : list nat) : usage_inv Xs Ys done usage ->
  (forall v, v ∈ items <-> v ∈ Xs !!! b ∪ Ys !!! b) -> length usage' = length usage ->
  (forall v, usage' !! v = (fun '(cnt, first) => if decide (v ∈ items) then (S cnt, if (cnt =? 0)%nat then b else first)
                                                 else (cnt, first)) <$> usage !! v) ->
  usage_inv Xs Ys (done ++ [b]) usage'.
Proof.
  intros [Hl Hu] Hitems Hl' Hlk. split; [lia|]. intros v cnt' first'. rewrite Hlk, mentions_snoc.
  destruct (usage !! v) as [[cnt first]|] eqn:E; [|done]. simpl. destruct (Hu v cnt first E) as [Hcnt Hfirst].
  destruct (decide (v ∈ items)) as [Hin|Hin].
  - intros [= <- <-]. rewrite decide_True by (by apply Hitems). rewrite length_app. simpl. split; [lia|].
    destruct (mentions Xs Ys done v) as [|m ms]; simpl in *; subst cnt; simpl; [by intros k [= ->]|by auto].
  - intros [= <- <-]. rewrite decide_False by (by rewrite <- Hitems). rewrite app_nil_r. auto.
Qed.

(** The tables that the first loop of [findAllReadsAndWrites] leaves *)
Record tables (t : ReadsAndWrites) (Xs Ys Zs : list (gset nat)) : Prop := mk_tables {
  tb_reads : Forall2 (represents words) (rw_reads t) Xs;
  tb_writes : Forall2 (represents words) (rw_writes t) Ys;
  tb_dead : Forall2 (represents words) (rw_dead t) Zs;
  tb_lengths : length Xs = maxBasicBlockId c /\ length Ys = maxBasicBlockId c /\ length Zs = maxBasicBlockId c;
  tb_facts : forall k bb, cfg_blocks c !! k = Some bb -> blockFacts bb (Xs !!! k) (Ys !!! k) (Zs !!! k);
  tb_others : forall k, cfg_blocks c !! k = None -> Xs !!! k = ∅ /\ Ys !!! k = ∅;
  tb_local : forall k v, v ∈ Xs !!! k ∪ Ys !!! k -> (v < length (localVariables c))%nat }.

Lemma reads_local bb k v : cfg_blocks c !! k = Some bb -> readIn bb v \/ writtenIn bb v -> (v < length (localVariables c))%nat.
Proof using vars.
  intros Hb. destruct (vars k bb Hb) as [Hbind Hcond]. intros [[(bind & Hin & Hv)|Hv]|(bind & Hin & <-)].
  - apply (Hbind bind); [done|]. unfold bindingReads in Hv. apply elem_of_app in Hv as [Hv|]; [|by right].
    destruct (_ && _); [|by apply elem_of_nil in Hv]. left. by apply list_elem_of_singleton in Hv.
  - unfold condReads in Hv. destruct (_ =? _)%nat; [by apply elem_of_nil in Hv|]. by apply list_elem_of_singleton in Hv as ->.
  - apply (Hbind bind); auto.
Qed.

Lemma first_tables : exists t Xs Ys Zs,
  foldM (blockReadsAndWrites wn c) (newReadsAndWrites (maxBasicBlockId c) (length (localVariables c))) (basicBlocks c) = Some t /\
  tables t Xs Ys Zs.
Proof using vars wf few.
  destruct (foldM_inv (blockReadsAndWrites wn c) rw_inv (basicBlocks c) (newReadsAndWrites (maxBasicBlockId c) (length (localVariables c))))
    as (t & Hrun & Xs & Ys & Zs & HX & HY & HZ & HlX & HlY & HlZ & Hk); [apply rw_inv_init| |].
  - intros done x rest t Hl Ht. apply blockReadsAndWrites_inv; [done| |].
    + pose proof (wc_nodup c wf) as Hnd. rewrite Hl in Hnd. apply NoDup_app in Hnd as (_ & Hd & _).
      intros Hin. apply (Hd x Hin). set_solver.
    + apply (wc_listed c wf). rewrite Hl. set_solver.
  - exists t, Xs, Ys, Zs. split; [done|]. split; try done.
    + intros k bb Hb. specialize (Hk k). rewrite decide_True in Hk by (apply (wc_listed c wf); eauto).
      destruct Hk as (bb' & Hb' & Hf). by assert (bb' = bb) as -> by congruence.
    + intros k Hb. specialize (Hk k). rewrite decide_False in Hk; [naive_solver|]. rewrite (wc_listed c wf), Hb. by intros [].
    + intros k v Hv. specialize (Hk k). destruct (decide (k ∈ basicBlocks c)); [|set_solver].
      destruct Hk as (bb & Hb & HfX & HfY & _). apply (reads_local bb k v Hb). rewrite elem_of_union, HfX, HfY in Hv. done.
Qed.

Lemma rep_at L (X : list (gset nat)) k : Forall2 (represents words) L X -> (k < length X)%nat ->
  exists s, L !! k = Some s /\ represents words s (X !!! k).
Proof.
  intros HR Hk. destruct (lookup_lt_is_Some_2 X k Hk) as [A HA]. destruct (Forall2_lookup_r _ _ _ _ _ HR HA) as (s & Hs & Hrep).
  exists s. split; [done|]. by rewrite (list_lookup_total_correct _ _ _ HA).
Qed.

Lemma count_all t Xs Ys Zs : tables t Xs Ys Zs -> exists scratch usage,
  foldM (countBlock t) (newUIntSet (length (localVariables c)), replicate (length (localVariables c)) (0, 0)%nat)
    (seq 0 (maxBasicBlockId c)) = Some (scratch, usage) /\ usage_inv Xs Ys (seq 0 (maxBasicBlockId c)) usage.
Proof.
  intros [HX HY HZ (HlX & HlY & _) _ _ Hloc].
  destruct (foldM_inv (countBlock t)
    (fun done st => exists scratch usage S, st = (scratch, usage) /\ represents words scratch S /\ usage_inv Xs Ys done usage)
    (seq 0 (maxBasicBlockId c)) (newUIntSet (length (localVariables c)), replicate (length (localVariables c)) (0, 0)%nat))
    as (st & Hrun & scratch & usage & S & -> & _ & Hu); [| |by eauto].
  - eexists _, _, _. split; [done|]. split; [by apply rep_new|]. split; [apply length_replicate|].
    intros v cnt first [[= -> ->] _]%lookup_replicate. done.
  - intros done b rest st Hl (scratch & usage & S & -> & Hs & Hu).
    assert (Hb : (b < maxBasicBlockId c)%nat) by (assert (Hin : b ∈ seq 0 (maxBasicBlockId c)) by (rewrite Hl; set_solver); apply elem_of_seq in Hin; lia).
    destruct (rep_at _ _ b HX ltac:(lia)) as (r & Hr & Hrr). destruct (rep_at _ _ b HY ltac:(lia)) as (w & Hw & Hrw).
    unfold countBlock. rewrite Hr, Hw. cbn [mbind option_bind].
    destruct (rep_overwriteWithUnion _ _ _ _ _ _ _ Hs Hrr Hrw) as (s' & -> & Hs'). cbn [mbind option_bind].
    destruct (rep_forEach _ _ _ Hs') as (Hsorted & Hels & _).
    destruct (count_items b (uis_forEach s') usage) as (usage' & -> & Hl' & Hlk).
    + by apply sorted_lt_nodup.
    + intros v Hv. rewrite (proj1 Hu). apply (Hloc b). by apply Hels.
    + cbn [mbind option_bind]. eexists. split; [done|]. eexists _, _, _. split; [done|]. split; [done|].
      by eapply usage_step.
Qed.

Lemma remove_private t Xs Ys Zs usage : tables t Xs Ys Zs -> usage_inv Xs Ys (seq 0 (maxBasicBlockId c)) usage ->
  exists W Ws, foldM (removePrivate usage) (rw_writes t) (seq 0 (length (localVariables c))) = Some W /\
    Forall2 (represents words) W Ws /\ length Ws = maxBasicBlockId c /\
    forall k v, (v ∈ Ws !!! k) <-> (v ∈ Ys !!! k /\ ~ ((v < length (localVariables c))%nat /\ mentions Xs Ys (seq 0 (maxBasicBlockId c)) v = [k])).
Proof.
  intros [HX HY HZ (HlX & HlY & _) _ _ Hloc] [Hul Hu].
  destruct (foldM_inv (removePrivate usage)
    (fun done W => exists Ws, Forall2 (represents words) W Ws /\ length Ws = maxBasicBlockId c /\
       forall k v, (v ∈ Ws !!! k) <-> (v ∈ Ys !!! k /\ ~ (v ∈ done /\ mentions Xs Ys (seq 0 (maxBasicBlockId c)) v = [k])))
    (seq 0 (length (localVariables c))) (rw_writes t)) as (W & Hrun & Ws & HW & HlW & Hws).
  - exists Ys. split_and!; [done..|]. intros k v. set_solver.
  - intros done v rest W Hl (Ws & HW & HlW & Hws).
    assert (Hv : (v < length (localVariables c))%nat)
      by (assert (Hin : v ∈ seq 0 (length (localVariables c))) by (rewrite Hl; set_solver); apply elem_of_seq in Hin; lia).
    destruct (lookup_lt_is_Some_2 usage v ltac:(lia)) as [[cnt first] Huv]. destruct (Hu v cnt first Huv) as [Hcnt Hfirst].
    unfold removePrivate. rewrite Huv. cbn [mbind option_bind]. destruct (Nat.eqb_spec cnt 1) as [Hone|Hone].
    + rewrite Hone in Hcnt. destruct (mentions Xs Ys (seq 0 (maxBasicBlockId c)) v) as [|k0 [|??]] eqn:Hm; simpl in Hcnt; [lia| |lia].
      rewrite (Hfirst k0 eq_refl) in *.
      assert (Hk0 : (k0 < maxBasicBlockId c)%nat).
      { assert (Hin : k0 ∈ mentions Xs Ys (seq 0 (maxBasicBlockId c)) v) by (rewrite Hm; set_solver).
        unfold mentions in Hin. apply list_elem_of_filter in Hin as [_ Hin%elem_of_seq]. lia. }
      destruct (rep_at _ _ k0 HW ltac:(lia)) as (s & -> & Hrs). cbn [mbind option_bind].
      destruct (rep_remove words s _ v Hrs) as (s' & -> & Hrs'); [by apply local_in_words|]. cbn [mbind option_bind].
      eexists. split; [done|]. exists (<[k0 := Ws !!! k0 ∖ {[v]}]> Ws). split; [by apply Forall2_insert|].
      split; [by rewrite length_insert|]. intros k u. destruct (decide (k = k0)) as [->|Hne].
      * rewrite list_lookup_total_insert_eq by lia. rewrite elem_of_difference, Hws, elem_of_singleton, elem_of_app, list_elem_of_singleton.
        destruct (decide (u = v)) as [->|]; [rewrite Hm|]; naive_solver.
      * rewrite list_lookup_total_insert_ne by done. rewrite Hws, elem_of_app, list_elem_of_singleton.
        destruct (decide (u = v)) as [->|]; [rewrite Hm|]; naive_solver.
    + exists W. split; [done|]. exists Ws. split_and!; [done..|]. intros k u. rewrite Hws, elem_of_app, list_elem_of_singleton.
      assert (mentions Xs Ys (seq 0 (maxBasicBlockId c)) v <> [k]) by (intros Hm; rewrite Hm in Hcnt; simpl in Hcnt; lia).
      destruct (decide (u = v)) as [->|]; naive_solver.
  - exists W, Ws. split_and!; [done..|]. intros k v. rewrite Hws, elem_of_seq. naive_solver lia.
Qed.

(** What the analysis promises of the block at [k] *)
Record analysed (k : nat) (bb : BasicBlock) (X W Z : gset nat) : Prop := mk_analysed {
  an_reads : forall v, (v ∈ X) <-> readIn bb v;
  an_writes : forall v, (v ∈ W) <-> (writtenIn bb v /\
    exists k' bb', k' <> k /\ cfg_blocks c !! k' = Some bb' /\ (readIn bb' v \/ writtenIn bb' v));
  an_dead : forall v, (v ∈ Z) <-> deadIn (bb_exprs bb) v }.

Lemma mentions_single Xs Ys n k v : (k < n)%nat -> v ∈ Ys !!! k ->
  mentions Xs Ys (seq 0 n) v <> [k] -> exists k', k' <> k /\ v ∈ Xs !!! k' ∪ Ys !!! k'.
Proof.
  intros Hk Hv Hne. assert (Hin : k ∈ mentions Xs Ys (seq 0 n) v).
  { unfold mentions. apply list_elem_of_filter. split; [set_solver|]. apply elem_of_seq. lia. }
  assert (Hnd : NoDup (mentions Xs Ys (seq 0 n) v)) by apply NoDup_filter, NoDup_seq.
  assert (Hfil : forall k', k' ∈ mentions Xs Ys (seq 0 n) v -> v ∈ Xs !!! k' ∪ Ys !!! k') by (intros k' Hk'; by apply list_elem_of_filter in Hk' as [? _]).
  destruct (mentions Xs Ys (seq 0 n) v) as [|a [|b l]]; [by apply elem_of_nil in Hin| |].
  - apply list_elem_of_singleton in Hin as ->. done.
  - apply NoDup_cons in Hnd as [Hab _]. destruct (decide (a = k)) as [->|]; [exists b|exists a]; set_solver.
Qed.

Lemma findAllReadsAndWrites_analysed : exists t Xs Ws Zs, findAllReadsAndWrites wn c = Some t /\
  Forall2 (represents words) (rw_reads t) Xs /\ Forall2 (represents words) (rw_writes t) Ws /\
  Forall2 (represents words) (rw_dead t) Zs /\
  length Xs = maxBasicBlockId c /\ length Ws = maxBasicBlockId c /\ length Zs = maxBasicBlockId c /\
  forall k bb, cfg_blocks c !! k = Some bb -> analysed k bb (Xs !!! k) (Ws !!! k) (Zs !!! k).
Proof using vars wf few.
  destruct first_tables as (t & Xs & Ys & Zs & Hrun & Ht).
  destruct (count_all t Xs Ys Zs Ht) as (scratch & usage & Hcount & Hu).
  destruct (remove_private t Xs Ys Zs usage Ht Hu) as (W & Ws & Hrem & HW & HlW & Hws).
  destruct Ht as [HX HY HZ (HlX & HlY & HlZ) Hfacts Hothers Hloc].
  unfold findAllReadsAndWrites. rewrite Hrun. cbn [mbind option_bind]. rewrite Hcount. cbn [mbind option_bind]. rewrite Hrem. cbn [mbind option_bind].
  eexists _, Xs, Ws, Zs. split; [done|]. split_and!; try done. intros k bb Hb. destruct (Hfacts k bb Hb) as (HfX & HfY & HfZ).
  destruct (wf_id c (wc_graph c wf) k bb Hb) as [_ Hlt].
  split; [done| |done]. intros v. rewrite Hws, <- HfY. split.
  - intros [Hv Hnot]. split; [done|].
    destruct (mentions_single Xs Ys (maxBasicBlockId c) k v Hlt Hv) as (k' & Hne & Hk').
    { intros Hm. apply Hnot. split; [|done]. apply (Hloc k). set_solver. }
    destruct (cfg_blocks c !! k') as [bb'|] eqn:Hb'; [|destruct (Hothers k' Hb'); set_solver].
    destruct (Hfacts k' bb' Hb') as (HfX' & HfY' & _). exists k', bb'. split; [done|]. split; [done|].
    by rewrite elem_of_union, HfX', HfY' in Hk'.
  - intros (Hv & k' & bb' & Hne & Hb' & Hm). split; [done|]. intros [_ Hone].
    destruct (Hfacts k' bb' Hb') as (HfX' & HfY' & _). destruct (wf_id c (wc_graph c wf) k' bb' Hb') as [_ Hlt'].
    assert (Hin : k' ∈ mentions Xs Ys (seq 0 (maxBasicBlockId c)) v).
    { unfold mentions. apply list_elem_of_filter. rewrite elem_of_union, HfX', HfY', elem_of_seq. split; [done|lia]. }
    rewrite Hone in Hin. by apply list_elem_of_singleton in Hin.
Qed.
End WithNames.

(** *** A decision procedure for [vars_ok] *)

Definition bindingVars (bind : Binding) : list nat := bindingWrites bind :: instructionReads (bd_value bind).

Definition vars_okb (c : CFG) : bool :=
  forallb (fun '(_, bb) =>
      forallb (fun bind => forallb (fun v => v <? length (localVariables c))%nat (bindingVars bind)) (bb_exprs bb) &&
      (vu_variable (be_cond (bb_exit bb)) <? length (localVariables c))%nat)
    (map_to_list (cfg_blocks c)).

Lemma vars_okb_sound c : vars_okb c = true -> vars_ok c.
Proof.
  unfold vars_okb. rewrite forallb_forall. intros Hall k bb Hb.
  specialize (Hall (k, bb)). cbv beta iota in Hall. rewrite andb_true_iff, forallb_forall, Nat.ltb_lt in Hall.
  destruct Hall as [Hbind Hcond]; [by apply list_elem_of_In, elem_of_map_to_list|]. split; [|done].
  intros bind v Hin Hv. apply list_elem_of_In in Hin. apply Hbind in Hin. rewrite forallb_forall in Hin.
  apply Nat.ltb_lt, Hin, list_elem_of_In. unfold bindingVars. destruct Hv as [->|]; set_solver.
Qed.
