(* ===== verification/CfgArgs.v ===== *)
(** * Block arguments

    Models [fillInBlockArguments] of src/cfg/builder/builder_finalize.cc: the variables that a block
    takes from its predecessors are those that it or a later block may read, and that an earlier block
    writes. Both bounds are computed by turns over all blocks that stop when a turn changes no size. *)

From S2P Require Import Prelude Pickler FileHash Files Locs Types NameTable NameText Symbols SymbolRefs.
From S2P Require Import UIntSet Cfg CfgTopo CfgReads.

#[local] Open Scope Z_scope.

(** ** The pass *)

(** The variables of [deadForBlock] that are removed from the requirements of a block *)
Definition removable (c : CFG) (bb : BasicBlock) (deadForBlock toRemove : UIntSet) : option UIntSet :=
  foldM (fun toRemove local =>
           m ← minLoops c !! local;
           if bb_outerLoops bb <=? m then uis_add local toRemove else Some toRemove)
    (uis_clear toRemove) (uis_forEach deadForBlock).

(** [if (b != cfg.deadBlock()) set.add(bounds\[b->id\])] *)
Definition addBoundsOf (c : CFG) (dead b : nat) (bounds : list UIntSet) (set : UIntSet) : option UIntSet :=
  if (b =? dead)%nat then Some set
  else bb ← cfg_blocks c !! b; other ← bounds !! bb_id bb; uis_addAll set other.

(** One block of one turn of the first loop of [fillInBlockArguments]: the bounds, the scratch set, and
    whether the size of a bound has changed *)
Definition requireBlock (c : CFG) (RnW : ReadsAndWrites) (dead : nat) (st : list UIntSet * UIntSet * bool) (b : nat)
    : option (list UIntSet * UIntSet * bool) :=
  let '(upperBounds1, toRemove, changed) := st in
  bb ← cfg_blocks c !! b;
  set ← upperBounds1 !! bb_id bb;
  let sz := uis_size set in
  thenb ← be_thenb (bb_exit bb);
  set ← addBoundsOf c dead thenb upperBounds1 set;
  elseb ← be_elseb (bb_exit bb);
  set ← addBoundsOf c dead elseb (<[bb_id bb := set]> upperBounds1) set;
  deadForBlock ← rw_dead RnW !! bb_id bb;
  '(set, toRemove) ←
    (if negb (uis_empty deadForBlock) then
       toRemove ← removable c bb deadForBlock toRemove;
       set ← uis_removeAll set toRemove;
       Some (set, toRemove)
     else Some (set, toRemove));
  Some (<[bb_id bb := set]> upperBounds1, toRemove, changed || negb (uis_size set =? sz)%nat).

(** The loops [while (changed)]: a turn returns the new bounds and whether they have changed. *)
Fixpoint whileChanged {A} (fuel : nat) (turn : A -> option (A * bool)) (a : A) : option A :=
  match fuel with
  | O => None
  | S fuel => '(a, changed) ← turn a; if (changed : bool) then whileChanged fuel turn a else Some a
  end.

Definition requireTurn (c : CFG) (RnW : ReadsAndWrites) (dead : nat) (st : list UIntSet * UIntSet)
    : option (list UIntSet * UIntSet * bool) :=
  foldM (requireBlock c RnW dead) (st, false) (forwardsTopoSort c).

(** The same for the second loop, which accumulates writes *)
Definition provideBlock (c : CFG) (RnW : ReadsAndWrites) (dead : nat) (st : list UIntSet * bool) (b : nat)
    : option (list UIntSet * bool) :=
  let '(upperBounds2, changed) := st in
  bb ← cfg_blocks c !! b;
  set ← upperBounds2 !! bb_id bb;
  let sz := uis_size set in
  set ← foldM (fun set edge =>
      if (edge =? dead)%nat then Some set
      else
        e ← cfg_blocks c !! edge;
        writes ← rw_writes RnW !! bb_id e;
        other ← (if (bb_id e =? bb_id bb)%nat then Some set else upperBounds2 !! bb_id e);
        uis_addBoth set writes other) set (bb_backEdges bb);
  Some (<[bb_id bb := set]> upperBounds2, changed || negb (sz =? uis_size set)%nat).

Definition provideTurn (c : CFG) (RnW : ReadsAndWrites) (dead : nat) (bounds : list UIntSet)
    : option (list UIntSet * bool) :=
  foldM (provideBlock c RnW dead) (bounds, false) (rev (forwardsTopoSort c)).

Definition mergeBounds (upperBounds2 : list UIntSet) (st : CFG * list UIntSet) (b : nat) : option (CFG * list UIntSet) :=
  let '(c, upperBounds1) := st in
  bb ← cfg_blocks c !! b;
  one ← upperBounds1 !! bb_id bb;
  two ← upperBounds2 !! bb_id bb;
  intersection ← uis_intersect one two;
  c ← updateBlock b (fun bb => set_args (bb_args bb ++ ((fun local => useSite local noOffsets) <$> uis_forEach intersection)) bb) c;
  Some (c, <[bb_id bb := intersection]> upperBounds1).

(** A turn of the loops adds a variable to the bound of some block, except for the first and the last. *)
Definition boundsFuel (c : CFG) : nat := (maxBasicBlockId c * (length (localVariables c) + 32) + 2)%nat.

Definition fillInBlockArguments (RnW : ReadsAndWrites) (c : CFG) : option (CFG * list UIntSet) :=
  dead ← deadBlock c;
  let numLocals := length (localVariables c) in
  '(upperBounds1, _) ← whileChanged (boundsFuel c) (requireTurn c RnW dead) (rw_reads RnW, newUIntSet numLocals);
  upperBounds2 ← whileChanged (boundsFuel c) (provideTurn c RnW dead)
                   (replicate (maxBasicBlockId c) (newUIntSet numLocals));
  foldM (mergeBounds upperBounds2) (c, upperBounds1) (basicBlocks c).


(** ** Turns over sets of variables

    The bounds of all blocks as a list of finite sets; [F] gives the new bound of a block. *)

Section Rounds.
Context (F : list (gset nat) -> nat -> gset nat) (n : nat).

Definition visit (st : list (gset nat) * bool) (u : nat) : list (gset nat) * bool :=
  (<[u := F st.1 u]> st.1, st.2 || negb (size (F st.1 u) =? size (st.1 !!! u))%nat).

Definition total (X : list (gset nat)) : nat := sum_list_with size X.

Lemma total_insert X u (A : gset nat) : (u < length X)%nat ->
  (total (<[u := A]> X) + size (X !!! u) = total X + size A)%nat.
Proof.
  unfold total. revert u. induction X as [|Y X IH]; intros [|u] Hu; simpl in Hu; [lia..| |].
  - change ((Y :: X) !!! 0%nat) with Y. simpl. lia.
  - change ((Y :: X) !!! S u) with (X !!! u). specialize (IH u ltac:(lia)). simpl. lia.
Qed.

(** Properties that single visits keep *)
Lemma round_inv (J : list (gset nat) -> Prop) order X ch :
  (forall X u, length X = n -> J X -> u ∈ order -> J (<[u := F X u]> X)) -> length X = n -> J X ->
  length (foldl visit (X, ch) order).1 = n /\ J (foldl visit (X, ch) order).1.
Proof.
  revert X ch. induction order as [|u order IH]; intros X ch Hs Hl HJ; simpl; [done|].
  apply IH; [|by rewrite length_insert|apply Hs; set_solver].
  intros X' u' HX' HJ' Hu'. apply Hs; set_solver.
Qed.

(** Inflationary visits *)
Context (I : list (gset nat) -> Prop).

Lemma round_grows order X ch : (forall u, u ∈ order -> (u < n)%nat) ->
  (forall X u, length X = n -> I X -> u ∈ order -> X !!! u ⊆ F X u /\ I (<[u := F X u]> X)) ->
  length X = n -> I X ->
  let st := foldl visit (X, ch) order in
  length st.1 = n /\ I st.1 /\ (forall u, X !!! u ⊆ st.1 !!! u) /\
  (ch = true -> st.2 = true) /\
  (st.2 = true -> ch = true \/ (total X < total st.1)%nat) /\ (total X <= total st.1)%nat /\
  (st.2 = false -> st.1 = X /\ forall u, u ∈ order -> F X u = X !!! u).
Proof.
  intros Hlt Hs. revert X ch. induction order as [|u order IH]; intros X ch Hl HI; simpl.
  { split_and!; try done; [by left|]. intros _. split; [done|]. by intros u ?%elem_of_nil. }
  destruct (Hs X u Hl HI ltac:(set_solver)) as [Hsub HI'].
  assert (Hu : (u < n)%nat) by (apply Hlt; set_solver).
  pose proof (total_insert X u (F X u) ltac:(lia)) as Htot. pose proof (subseteq_size _ _ Hsub) as Hsize.
  set (ch1 := ch || negb (size (F X u) =? size (X !!! u))%nat).
  change (visit (X, ch) u) with (<[u := F X u]> X, ch1).
  destruct (IH ltac:(set_solver) ltac:(set_solver) (<[u := F X u]> X) ch1) as (H1 & H2 & H3 & H4 & H5 & H6 & H7);
    [by rewrite length_insert|done|].
  assert (Hpoint : forall v, X !!! v ⊆ <[u := F X u]> X !!! v).
  { intros v. destruct (decide (v = u)) as [->|]; [by rewrite list_lookup_total_insert_eq by lia|by rewrite list_lookup_total_insert_ne]. }
  split_and!; [done|done| | | |lia|].
  - intros v. etrans; [apply Hpoint|apply H3].
  - intros ->. by apply H4.
  - intros Hch. destruct (H5 Hch) as [[?|Hne%negb_true_iff%Nat.eqb_neq]%orb_true_iff|?]; [by left|right; lia|right; lia].
  - intros Hch. destruct (H7 Hch) as [Heq Hfix].
    destruct (size (F X u) =? size (X !!! u))%nat eqn:Hsz.
    + apply Nat.eqb_eq in Hsz. assert (HF : F X u = X !!! u).
      { apply leibniz_equiv. symmetry. apply set_subseteq_size_equiv; [done|lia]. }
      assert (HX : <[u := F X u]> X = X).
      { rewrite HF. apply list_insert_id. by rewrite <- list_lookup_lookup_total_lt by lia. }
      rewrite HX in Hfix, Heq |- *. rewrite HX in H7. split; [exact Heq|].
      intros v [->|Hv]%elem_of_cons; [done|by apply Hfix].
    + rewrite H4 in Hch; [done|]. subst ch1. apply orb_true_r.
Qed.
End Rounds.

(** A loop whose changing turns decrease a measure ends, in a state that a turn did not change. *)
Lemma whileChanged_spec {A} (turn : A -> option (A * bool)) (I Q : A -> Prop) (mu : A -> nat) fuel a :
  (forall a, I a -> exists a' ch, turn a = Some (a', ch) /\ I a' /\ if (ch : bool) then (mu a' < mu a)%nat else Q a') ->
  I a -> (mu a < fuel)%nat ->
  exists a', whileChanged fuel turn a = Some a' /\ Q a'.
Proof.
  intros Hstep. revert a. induction fuel as [|fuel IH]; intros a HI Hm; [lia|]. simpl.
  destruct (Hstep a HI) as (a' & ch & -> & HI' & Hch). simpl. destruct ch; [|eauto]. apply IH; [done|lia].
Qed.

(** ** The turns compute the bounds *)

(** The data of a graph that is ready for the pass, with the sets its bit sets represent *)
Record args_ready (c : CFG) (RnW : ReadsAndWrites) (reads writes deads : list (gset nat)) : Prop := mk_args_ready {
  ar_wf : wf_cfg c;
  ar_few : fitsWords (length (localVariables c));
  ar_order : forall k, k ∈ forwardsTopoSort c <-> is_Some (cfg_blocks c !! k);
  ar_reads : Forall2 (represents ((length (localVariables c) + 31) / 32)) (rw_reads RnW) reads;
  ar_writes : Forall2 (represents ((length (localVariables c) + 31) / 32)) (rw_writes RnW) writes;
  ar_deads : Forall2 (represents ((length (localVariables c) + 31) / 32)) (rw_dead RnW) deads;
  ar_lengths : length reads = maxBasicBlockId c /\ length writes = maxBasicBlockId c /\ length deads = maxBasicBlockId c;
  ar_minLoops : forall u v, is_Some (cfg_blocks c !! u) -> v ∈ deads !!! u -> is_Some (minLoops c !! v) }.

Section Bounds.
Context (c : CFG) (RnW : ReadsAndWrites) (reads writes deads : list (gset nat)) (dead : nat).
Context (ready : args_ready c RnW reads writes deads).

#[local] Abbreviation words := ((length (localVariables c) + 31) / 32)%nat.
#[local] Abbreviation bounds_rep := (Forall2 (represents words)).

(** The variables whose old value block [u] does not need although a later block may read them *)
Definition killed (u : nat) : gset nat :=
  match cfg_blocks c !! u with
  | Some bb => filter (fun v => bb_outerLoops bb <= default 0 (minLoops c !! v)) (deads !!! u)
  | None => ∅
  end.

Definition boundOf (X : list (gset nat)) (u : nat) : gset nat := if (u =? dead)%nat then ∅ else X !!! u.

Definition required (X : list (gset nat)) (u : nat) : gset nat :=
  match cfg_blocks c !! u with
  | Some bb => ((X !!! u ∪ from_option (boundOf X) ∅ (be_thenb (bb_exit bb))) ∪
                from_option (boundOf X) ∅ (be_elseb (bb_exit bb))) ∖ killed u
  | None => ∅
  end.

Definition provided (X : list (gset nat)) (u : nat) : gset nat :=
  match cfg_blocks c !! u with
  | Some bb => foldl (fun A p => if (p =? dead)%nat then A
                                 else A ∪ (writes !!! p ∪ (if (p =? u)%nat then A else X !!! p))) (X !!! u) (bb_backEdges bb)
  | None => ∅
  end.

Lemma bounds_rep_lookup L X u : bounds_rep L X -> (u < length X)%nat ->
  exists s, L !! u = Some s /\ represents words s (X !!! u).
Proof.
  intros HR Hu. destruct (lookup_lt_is_Some_2 X u Hu) as [A HA].
  destruct (Forall2_lookup_r _ _ _ _ _ HR HA) as (s & Hs & Hrep). exists s. split; [done|].
  by rewrite (list_lookup_total_correct _ _ _ HA).
Qed.

Lemma bounds_rep_insert L X u s (A : gset nat) : bounds_rep L X -> represents words s A ->
  bounds_rep (<[u := s]> L) (<[u := A]> X).
Proof. intros. by apply Forall2_insert. Qed.

Lemma removable_spec bb d t (D T : gset nat) : represents words d D -> represents words t T ->
  (forall v, v ∈ D -> is_Some (minLoops c !! v)) ->
  exists s, removable c bb d t = Some s /\
    represents words s (filter (fun v => bb_outerLoops bb <= default 0 (minLoops c !! v)) D).
Proof.
  intros Hd Ht Hmin. destruct (rep_forEach _ _ _ Hd) as (_ & Hel & _). unfold removable.
  destruct (foldM_inv (fun toRemove local => m ← minLoops c !! local;
       if bb_outerLoops bb <=? m then uis_add local toRemove else Some toRemove)
    (fun done s => represents words s (filter (fun v => bb_outerLoops bb <= default 0 (minLoops c !! v)) (list_to_set done)))
    (uis_forEach d) (uis_clear t)) as (s & Hrun & Hs).
  - eapply eq_ind; [by eapply rep_clear|]. set_solver.
  - intros done x rest s Hl Hs.
    assert (Hx : x ∈ D) by (apply Hel; rewrite Hl; set_solver).
    destruct (Hmin x Hx) as [m Hm]. rewrite Hm. simpl.
    assert (Happ : list_to_set (done ++ [x]) = list_to_set done ∪ {[x]} :> gset nat) by set_solver. rewrite Happ.
    destruct (Z.leb_spec (bb_outerLoops bb) m).
    + destruct (rep_add words s _ x Hs) as (s' & -> & Hs'); [by apply (rep_low words d D)|]. exists s'. split; [done|].
      eapply eq_ind; [exact Hs'|]. apply leibniz_equiv. intros v. rewrite elem_of_union, !elem_of_filter, elem_of_union, elem_of_singleton.
      destruct (decide (v = x)) as [->|]; [rewrite Hm; simpl|]; naive_solver.
    + exists s. split; [done|]. eapply eq_ind; [exact Hs|]. apply leibniz_equiv. intros v.
      rewrite !elem_of_filter, elem_of_union, elem_of_singleton.
      destruct (decide (v = x)) as [->|]; [rewrite Hm; simpl; naive_solver lia|naive_solver].
  - exists s. split; [done|]. eapply eq_ind; [exact Hs|]. apply leibniz_equiv. intros v.
    rewrite !elem_of_filter, elem_of_list_to_set, Hel. done.
Qed.

Lemma block_lt u bb : cfg_blocks c !! u = Some bb -> bb_id bb = u /\ (u < maxBasicBlockId c)%nat.
Proof using ready. apply (wf_id c (wc_graph c (ar_wf _ _ _ _ _ ready))). Qed.

Lemma addBoundsOf_spec L X b s (A : gset nat) : bounds_rep L X -> length X = maxBasicBlockId c ->
  is_Some (cfg_blocks c !! b) -> represents words s A ->
  exists s', addBoundsOf c dead b L s = Some s' /\ represents words s' (A ∪ boundOf X b).
Proof using ready.
  intros HR Hl [bb Hb] Hs. unfold addBoundsOf, boundOf. destruct (Nat.eqb_spec b dead).
  - exists s. split; [done|]. eapply eq_ind; [exact Hs|]. set_solver.
  - destruct (block_lt b bb Hb) as [Hid Hlt]. rewrite Hb. simpl. rewrite Hid.
    destruct (bounds_rep_lookup L X b HR ltac:(lia)) as (t & -> & Ht). simpl. by apply rep_addAll.
Qed.

Lemma requireBlock_spec L X tr T ch u : bounds_rep L X -> length X = maxBasicBlockId c -> represents words tr T ->
  is_Some (cfg_blocks c !! u) ->
  exists L' tr' T', requireBlock c RnW dead (L, tr, ch) u = Some (L', tr', (visit required (X, ch) u).2) /\
    bounds_rep L' (visit required (X, ch) u).1 /\ represents words tr' T'.
Proof using ready.
  intros HR Hl Htr [bb Hb]. destruct (block_lt u bb Hb) as [Hid Hlt].
  destruct (bounds_rep_lookup L X u HR ltac:(lia)) as (s & Hs & Hrs).
  destruct (wf_exit c (wc_graph c (ar_wf _ _ _ _ _ ready)) u bb Hb) as (t & e & Ht & He & Htb & Heb).
  destruct (addBoundsOf_spec L X t s _ HR Hl Htb Hrs) as (s1 & Hs1 & Hr1).
  destruct (addBoundsOf_spec (<[u := s1]> L) (<[u := X !!! u ∪ boundOf X t]> X) e s1
      (X !!! u ∪ boundOf X t) (bounds_rep_insert _ _ u _ _ HR Hr1))
    as (s2 & Hs2 & Hr2); [by rewrite length_insert|done|done|].
  destruct (ar_lengths _ _ _ _ _ ready) as (_ & _ & Hld).
  destruct (bounds_rep_lookup (rw_dead RnW) deads u (ar_deads _ _ _ _ _ ready) ltac:(lia)) as (d & Hd & Hrd).
  assert (Hunion : (X !!! u ∪ boundOf X t) ∪ boundOf (<[u := X !!! u ∪ boundOf X t]> X) e =
                   (X !!! u ∪ boundOf X t) ∪ boundOf X e).
  { assert (X !!! u ⊆ X !!! u ∪ boundOf X t) by set_solver. revert H. generalize (X !!! u ∪ boundOf X t). intros A HA.
    unfold boundOf. destruct (Nat.eqb_spec e dead); [done|]. destruct (decide (e = u)) as [->|].
    - rewrite list_lookup_total_insert_eq by lia. set_solver.
    - by rewrite list_lookup_total_insert_ne. }
  rewrite Hunion in Hr2.
  unfold requireBlock, visit, required, killed. simpl. rewrite Hb. simpl. rewrite Hid, Hs. simpl. rewrite Ht. simpl. rewrite Hs1. simpl.
  rewrite He. simpl. rewrite Hs2. simpl. rewrite Hd. simpl.
  rewrite (rep_size _ _ _ Hrs), (rep_empty _ _ _ Hrd). case_bool_decide as Hemp; simpl.
  - rewrite Hemp. exists (<[u := s2]> L), tr, T.
    assert (Heq : ((X !!! u ∪ boundOf X t) ∪ boundOf X e) ∖ filter (fun v => bb_outerLoops bb <= default 0 (minLoops c !! v)) (∅ : gset nat) =
                  (X !!! u ∪ boundOf X t) ∪ boundOf X e) by set_solver.
    rewrite Heq, (rep_size _ _ _ Hr2). split; [done|]. split; [by apply bounds_rep_insert|done].
  - destruct (removable_spec bb d tr _ _ Hrd Htr) as (k & -> & Hrk); [intros v; apply (ar_minLoops _ _ _ _ _ ready); eauto|]. simpl.
    destruct (rep_removeAll _ _ _ _ _ Hr2 Hrk) as (s3 & -> & Hr3). simpl.
    exists (<[u := s3]> L), k. eexists. rewrite (rep_size _ _ _ Hr3). split; [done|].
    split; [by apply bounds_rep_insert|done].
Qed.

Definition requireRound (X : list (gset nat)) : list (gset nat) * bool :=
  foldl (visit required) (X, false) (forwardsTopoSort c).

Lemma visit_length F X ch order : length (foldl (visit F) (X, ch) order).1 = length X.
Proof. revert X ch. induction order as [|u order IH]; intros X ch; [done|]. simpl. unfold visit at 2. rewrite IH. by rewrite length_insert. Qed.

Lemma requireTurn_spec L X tr T : bounds_rep L X -> length X = maxBasicBlockId c -> represents words tr T ->
  exists L' tr' T', requireTurn c RnW dead (L, tr) = Some (L', tr', (requireRound X).2) /\
    bounds_rep L' (requireRound X).1 /\ represents words tr' T'.
Proof using ready.
  intros HR Hl Htr. unfold requireTurn, requireRound.
  destruct (foldM_inv (requireBlock c RnW dead)
    (fun done st => exists L' tr' T', st = (L', tr', (foldl (visit required) (X, false) done).2) /\
       bounds_rep L' (foldl (visit required) (X, false) done).1 /\ represents words tr' T')
    (forwardsTopoSort c) (L, tr, false)) as (st & Hrun & L' & tr' & T' & -> & HR' & Htr').
  - eauto 10.
  - intros done x rest st Ho (L' & tr' & T' & -> & HR' & Htr'). rewrite foldl_snoc.
    destruct (foldl (visit required) (X, false) done) as [X' ch'] eqn:Hf. cbn [fst snd] in *.
    destruct (requireBlock_spec L' X' tr' T' ch' x HR') as (L'' & tr'' & T'' & -> & ?); [|done| |by eauto 10].
    + pose proof (visit_length required X false done) as Hvl. rewrite Hf in Hvl. simpl in Hvl. lia.
    + apply (ar_order _ _ _ _ _ ready). rewrite Ho. set_solver.
  - rewrite Hrun. eauto 10.
Qed.

Lemma provideEdges_spec L X u s (A : gset nat) edges : bounds_rep L X -> length X = maxBasicBlockId c ->
  represents words s A -> (forall p, p ∈ edges -> is_Some (cfg_blocks c !! p)) ->
  exists s', foldM (fun set edge =>
      if (edge =? dead)%nat then Some set
      else
        e ← cfg_blocks c !! edge;
        w ← rw_writes RnW !! bb_id e;
        other ← (if (bb_id e =? u)%nat then Some set else L !! bb_id e);
        uis_addBoth set w other) s edges = Some s' /\
    represents words s' (foldl (fun A p => if (p =? dead)%nat then A
                                 else A ∪ (writes !!! p ∪ (if (p =? u)%nat then A else X !!! p))) A edges).
Proof using ready.
  intros HR Hl. destruct (ar_lengths _ _ _ _ _ ready) as (_ & Hlw & _).
  revert s A. induction edges as [|p edges IH]; intros s A Hs Hp; simpl; [eauto|].
  destruct (Nat.eqb_spec p dead); simpl; [apply IH; set_solver|].
  destruct (Hp p ltac:(set_solver)) as [pb Hpb]. destruct (block_lt p pb Hpb) as [Hid Hlt]. rewrite Hpb. simpl. rewrite Hid.
  destruct (bounds_rep_lookup (rw_writes RnW) writes p (ar_writes _ _ _ _ _ ready) ltac:(lia)) as (w & -> & Hw). simpl.
  destruct (bounds_rep_lookup L X p HR ltac:(lia)) as (o & Ho & Hro).
  destruct (Nat.eqb_spec p u); simpl.
  - destruct (rep_addBoth _ _ _ _ _ _ _ Hs Hw Hs) as (s' & -> & Hs'). simpl. apply IH; set_solver.
  - rewrite Ho. simpl. destruct (rep_addBoth _ _ _ _ _ _ _ Hs Hw Hro) as (s' & -> & Hs'). simpl. apply IH; set_solver.
Qed.

Lemma back_blocks u bb p : cfg_blocks c !! u = Some bb -> p ∈ bb_backEdges bb -> is_Some (cfg_blocks c !! p).
Proof using ready.
  intros Hb Hp. destruct (wc_back c (ar_wf _ _ _ _ _ ready) u bb p Hb Hp) as (pb & Hpb & _). eauto.
Qed.

Lemma provideBlock_spec L X ch u : bounds_rep L X -> length X = maxBasicBlockId c -> is_Some (cfg_blocks c !! u) ->
  exists L', provideBlock c RnW dead (L, ch) u = Some (L', (visit provided (X, ch) u).2) /\
    bounds_rep L' (visit provided (X, ch) u).1.
Proof using ready.
  intros HR Hl [bb Hb]. destruct (block_lt u bb Hb) as [Hid Hlt].
  destruct (bounds_rep_lookup L X u HR ltac:(lia)) as (s & Hs & Hrs).
  destruct (provideEdges_spec L X u s _ (bb_backEdges bb) HR Hl Hrs) as (s' & Hs' & Hr'); [by eauto using back_blocks|].
  unfold provideBlock. rewrite Hb. cbn [mbind option_bind]. rewrite Hid, Hs. cbn [mbind option_bind]. rewrite Hs'.
  cbn [mbind option_bind]. unfold visit, provided. cbn [fst snd]. rewrite Hb, (rep_size _ _ _ Hrs), (rep_size _ _ _ Hr').
  eexists. split; [by rewrite Nat.eqb_sym|]. by apply bounds_rep_insert.
Qed.

Definition provideRound (X : list (gset nat)) : list (gset nat) * bool :=
  foldl (visit provided) (X, false) (rev (forwardsTopoSort c)).

Lemma provideTurn_spec L X : bounds_rep L X -> length X = maxBasicBlockId c ->
  exists L', provideTurn c RnW dead L = Some (L', (provideRound X).2) /\ bounds_rep L' (provideRound X).1.
Proof using ready.
  intros HR Hl. unfold provideTurn, provideRound.
  destruct (foldM_inv (provideBlock c RnW dead)
    (fun done st => exists L', st = (L', (foldl (visit provided) (X, false) done).2) /\
       bounds_rep L' (foldl (visit provided) (X, false) done).1)
    (rev (forwardsTopoSort c)) (L, false)) as (st & Hrun & L' & -> & HR').
  - eauto 10.
  - intros done x rest st Ho (L' & -> & HR'). rewrite foldl_snoc.
    destruct (foldl (visit provided) (X, false) done) as [X' ch'] eqn:Hf. cbn [fst snd] in *.
    destruct (provideBlock_spec L' X' ch' x HR') as (L'' & -> & ?); [| |by eauto 10].
    + pose proof (visit_length provided X false done) as Hvl. rewrite Hf in Hvl. simpl in Hvl. lia.
    + apply (ar_order _ _ _ _ _ ready). assert (x ∈ rev (forwardsTopoSort c)) as Hx by (rewrite Ho; set_solver).
      by apply list_elem_of_In, in_rev, list_elem_of_In in Hx.
  - rewrite Hrun. eauto 10.
Qed.

(** *** What the bounds mean *)

(** Some path from [u] leads to a block that reads [v], and no block on it kills [v]. *)
Inductive live (v : nat) : nat -> Prop :=
| live_here u : v ∈ reads !!! u -> v ∉ killed u -> live v u
| live_later u w : succ c u w -> w <> dead -> live v w -> v ∉ killed u -> live v u.

(** The same, where the block that reads [v] may kill it *)
Inductive mayNeed (v : nat) : nat -> Prop :=
| may_here u : v ∈ reads !!! u -> mayNeed v u
| may_later u w : succ c u w -> w <> dead -> mayNeed v w -> v ∉ killed u -> mayNeed v u.

(** Some path along back edges leads from [u] to a block that writes [v]. *)
Inductive written (v : nat) : nat -> Prop :=
| written_by u bb p : cfg_blocks c !! u = Some bb -> p ∈ bb_backEdges bb -> p <> dead ->
    v ∈ writes !!! p -> written v u
| written_before u bb p : cfg_blocks c !! u = Some bb -> p ∈ bb_backEdges bb -> p <> dead ->
    written v p -> written v u.

Lemma boundOf_spec X v w : (v ∈ boundOf X w) <-> w <> dead /\ v ∈ X !!! w.
Proof. unfold boundOf. destruct (Nat.eqb_spec w dead); set_solver. Qed.

Lemma required_spec X u v : is_Some (cfg_blocks c !! u) ->
  (v ∈ required X u) <-> (v ∉ killed u) /\ (v ∈ X !!! u \/ exists w, succ c u w /\ w <> dead /\ v ∈ X !!! w).
Proof using ready.
  intros [bb Hb]. destruct (wf_exit c (wc_graph c (ar_wf _ _ _ _ _ ready)) u bb Hb) as (t & e & Ht & He & _).
  unfold required. rewrite Hb, Ht, He. simpl. rewrite elem_of_difference, !elem_of_union, !boundOf_spec.
  assert (Hs : forall w, succ c u w <-> (w = t \/ w = e)).
  { intros w. unfold succ. rewrite Hb. split; [intros (bb' & [= <-] & [?|?]); simplify_eq; auto|intros [->| ->]; eauto]. }
  split.
  - intros [[[?|?]|?] ?]; split; auto; right; eexists; rewrite Hs; eauto.
  - intros [? [?|(w & [->| ->]%Hs & ? & ?)]]; auto.
Qed.

(** What holds of the bounds during the first loop *)
Record need_inv (X : list (gset nat)) : Prop := mk_need_inv {
  ni_upper : forall u v, v ∈ X !!! u -> mayNeed v u;
  ni_reads : forall u v, v ∈ reads !!! u -> v ∉ killed u -> v ∈ X !!! u }.

Lemma order_block u : u ∈ forwardsTopoSort c -> is_Some (cfg_blocks c !! u) /\ (u < maxBasicBlockId c)%nat.
Proof using ready. intros [bb Hb]%(ar_order _ _ _ _ _ ready). split; [eauto|]. by apply (block_lt u bb). Qed.

Lemma lookup_insert_cases (X : list (gset nat)) u A w : (u < length X)%nat ->
  <[u := A]> X !!! w = if decide (w = u) then A else X !!! w.
Proof. intros. case_decide as E; [subst; by rewrite list_lookup_total_insert_eq|by rewrite list_lookup_total_insert_ne]. Qed.

Lemma need_inv_visit X u : length X = maxBasicBlockId c -> need_inv X -> u ∈ forwardsTopoSort c ->
  need_inv (<[u := required X u]> X).
Proof using ready.
  intros Hl [Hup Hrd] [Hb Hlt]%order_block. split; intros w v; rewrite lookup_insert_cases by lia; case_decide as E; auto.
  - subst w. rewrite required_spec by done. intros [Hk [?|(w & ? & ? & ?)]]; [auto|]. apply (may_later v u w); auto.
  - subst w. intros Hv Hk. rewrite required_spec by done. auto.
Qed.

Definition disjointKilled (X : list (gset nat)) : Prop := forall u v, v ∈ X !!! u -> u ∈ forwardsTopoSort c -> v ∉ killed u.

Lemma required_grows X u : length X = maxBasicBlockId c -> need_inv X /\ disjointKilled X -> u ∈ forwardsTopoSort c ->
  X !!! u ⊆ required X u /\ need_inv (<[u := required X u]> X) /\ disjointKilled (<[u := required X u]> X).
Proof using ready.
  intros Hl [Hn Hd] Hu. destruct (order_block u Hu) as [Hb Hlt]. split; [|split; [by apply need_inv_visit|]].
  - intros v Hv. apply required_spec; [done|]. eauto.
  - intros w v. rewrite lookup_insert_cases by lia. case_decide as E; [|apply Hd].
    subst w. rewrite required_spec by done. naive_solver.
Qed.

(** The first turn, after which no bound has a killed variable *)
Lemma first_round X : length X = maxBasicBlockId c -> need_inv X ->
  length (requireRound X).1 = maxBasicBlockId c /\ need_inv (requireRound X).1 /\ disjointKilled (requireRound X).1.
Proof using ready.
  intros Hl Hn.
  destruct (round_inv required (maxBasicBlockId c) need_inv (forwardsTopoSort c) X false) as [Hl' Hn']; [|done|done|].
  { intros X' u HX' Hn' Hu. by apply need_inv_visit. }
  split; [done|]. split; [done|]. unfold disjointKilled.
  assert (Hgen : forall order ch, (forall u, u ∈ order -> u ∈ forwardsTopoSort c) -> forall u v,
    v ∈ (foldl (visit required) (X, ch) order).1 !!! u -> u ∈ order -> v ∉ killed u);
    [|by intros u v Hv Hu; apply (Hgen (forwardsTopoSort c) false (fun _ H => H) u v)].
  intros order. induction order as [|x order IH] using rev_ind; intros ch Hsub u v; [by intros _ ?%elem_of_nil|].
  destruct (order_block x ltac:(apply Hsub; set_solver)) as [Hxb Hxlt].
  rewrite foldl_snoc. unfold visit at 1. cbn [fst].
  rewrite lookup_insert_cases by (rewrite visit_length; lia). case_decide as E.
  - subst u. rewrite required_spec by done. naive_solver.
  - intros Hv Hu. apply (IH ch); [set_solver|done|set_solver].
Qed.

(** A bound that no turn changes has every live variable. *)
Lemma live_in_fixpoint X : need_inv X -> (forall u, u ∈ forwardsTopoSort c -> required X u = X !!! u) ->
  forall v u, is_Some (cfg_blocks c !! u) -> live v u -> v ∈ X !!! u.
Proof using ready.
  intros Hn Hfix v u Hu Hlive. induction Hlive as [u Hr Hk|u w Hs Hw Hlive IH Hk]; [by apply (ni_reads X Hn)|].
  rewrite <- Hfix by (by apply (ar_order _ _ _ _ _ ready)). apply required_spec; [done|]. split; [done|]. right.
  exists w. split_and!; [done..|]. apply IH. by apply (succ_block c (wc_graph c (ar_wf _ _ _ _ _ ready)) u).
Qed.

(** *** The loops *)

Definition capacity : nat := (maxBasicBlockId c * (32 * words))%nat.

Lemma rep_size_bound s (A : gset nat) : represents words s A -> (size A <= 32 * words)%nat.
Proof.
  intros Hs. assert (HA : A ⊆ set_seq 0 (32 * words)) by (intros v Hv; apply elem_of_set_seq; pose proof (rep_low _ _ _ _ Hs Hv); lia).
  pose proof (subseteq_size _ _ HA) as Hle. by rewrite size_set_seq in Hle.
Qed.

Lemma total_bound L X : bounds_rep L X -> (total X <= length X * (32 * words))%nat.
Proof.
  unfold total. induction 1 as [|s A L X Hs HR IH]; [simpl; lia|]. cbn [sum_list_with length].
  pose proof (rep_size_bound s A Hs). rewrite Nat.mul_succ_l. lia.
Qed.

Lemma total_sizes L X : bounds_rep L X -> sum_list_with uis_size L = total X.
Proof. unfold total. induction 1 as [|s A L X Hs HR IH]; simpl; [done|]. by rewrite IH, (rep_size _ _ _ Hs). Qed.

Lemma capacity_fuel : (capacity + 2 <= boundsFuel c)%nat.
Proof.
  unfold capacity, boundsFuel. pose proof (Nat.div_mod_eq (length (localVariables c) + 31) 32).
  assert (32 * words <= length (localVariables c) + 32)%nat as Hle by lia.
  pose proof (Nat.mul_le_mono_l _ _ (maxBasicBlockId c) Hle). lia.
Qed.

Lemma requireLoop_spec fuel L X tr T : bounds_rep L X -> represents words tr T -> length X = maxBasicBlockId c ->
  need_inv X -> disjointKilled X -> (capacity < fuel)%nat ->
  exists L' tr' X', whileChanged fuel (requireTurn c RnW dead) (L, tr) = Some (L', tr') /\
    bounds_rep L' X' /\ length X' = maxBasicBlockId c /\ need_inv X' /\ disjointKilled X' /\
    forall u, u ∈ forwardsTopoSort c -> required X' u = X' !!! u.
Proof using ready.
  intros HR Htr Hl Hn Hd Hfuel.
  destruct (whileChanged_spec (requireTurn c RnW dead)
    (fun st => exists X T, bounds_rep st.1 X /\ represents words st.2 T /\ length X = maxBasicBlockId c /\
                 need_inv X /\ disjointKilled X)
    (fun st => exists X, bounds_rep st.1 X /\ length X = maxBasicBlockId c /\ need_inv X /\ disjointKilled X /\
                 forall u, u ∈ forwardsTopoSort c -> required X u = X !!! u)
    (fun st => (capacity - sum_list_with uis_size st.1)%nat) fuel (L, tr)) as ([L' tr'] & Hrun & X' & HX'); [|by eauto 10|lia|by eauto 10].
  clear -ready. intros [L tr] (X & T & HR & Htr & Hl & Hn & Hd). cbn [fst snd] in *.
  destruct (requireTurn_spec L X tr T HR Hl Htr) as (L' & tr' & T' & Hrun & HR' & Htr').
  destruct (round_grows required (maxBasicBlockId c) (fun X => need_inv X /\ disjointKilled X) (forwardsTopoSort c) X false)
    as (Hl' & [Hn' Hd'] & _ & _ & Hgrow & _ & Hsame); [intros u Hu; by apply order_block|intros; by apply required_grows|done|done|].
  eexists _, _. split; [exact Hrun|]. cbn [fst snd]. split; [by eauto 10|]. fold (requireRound X) in *.
  destruct (requireRound X).2 eqn:Hch.
  - destruct (Hgrow eq_refl) as [|Hlt]; [done|]. rewrite (total_sizes _ _ HR), (total_sizes _ _ HR').
    pose proof (total_bound _ _ HR') as Hb. unfold capacity. rewrite Hl' in Hb. lia.
  - destruct (Hsame eq_refl) as [Heq Hfix]. exists (requireRound X).1. split_and!; [done..|]. by rewrite Heq.
Qed.

Lemma requireAll : exists L tr X,
  whileChanged (boundsFuel c) (requireTurn c RnW dead) (rw_reads RnW, newUIntSet (length (localVariables c))) = Some (L, tr) /\
  bounds_rep L X /\ length X = maxBasicBlockId c /\ need_inv X /\ disjointKilled X /\
  ((requireRound reads).2 = true -> forall u, u ∈ forwardsTopoSort c -> required X u = X !!! u).
Proof using ready.
  destruct (ar_lengths _ _ _ _ _ ready) as (Hl & _).
  assert (Hn : need_inv reads) by (split; [intros u v; apply may_here|done]).
  destruct (first_round reads Hl Hn) as (Hl1 & Hn1 & Hd1).
  destruct (requireTurn_spec (rw_reads RnW) reads _ _ (ar_reads _ _ _ _ _ ready) Hl (rep_new _ (ar_few _ _ _ _ _ ready))) as (L & tr & T & Hrun & HR & Htr).
  pose proof capacity_fuel as Hfuel. destruct (boundsFuel c) as [|fuel] eqn:Hf; [lia|]. cbn [whileChanged]. rewrite Hrun.
  cbn [mbind option_bind]. destruct (requireRound reads).2 eqn:Hch.
  - destruct (requireLoop_spec fuel L _ tr T HR Htr Hl1 Hn1 Hd1) as (L' & tr' & X' & -> & ?); [lia|]. exists L', tr', X'. naive_solver.
  - exists L, tr, (requireRound reads).1. naive_solver.
Qed.

Lemma provided_edges (X : list (gset nat)) (u v : nat) (edges : list nat) (A : gset nat) : X !!! u ⊆ A ->
  (v ∈ foldl (fun A p => if (p =? dead)%nat then A
                        else A ∪ (writes !!! p ∪ (if (p =? u)%nat then A else X !!! p))) A edges) <->
  (v ∈ A \/ exists p, p ∈ edges /\ p <> dead /\ (v ∈ writes !!! p \/ v ∈ X !!! p)).
Proof.
  revert A. induction edges as [|p edges IH]; intros A HA; cbn [foldl]; [set_solver|].
  destruct (Nat.eqb_spec p dead) as [Hp|Hp].
  - rewrite IH by done. split; [|set_solver]. intros [?|(q & Hq & ?)]; [by left|right]. exists q. set_solver.
  - rewrite IH by set_solver. rewrite !elem_of_union. destruct (Nat.eqb_spec p u) as [->|Hne].
    + split; [set_solver|]. intros [?|(q & [->|Hq]%elem_of_cons & ? & Hv)]; [auto| |right; set_solver].
      left. set_solver.
    + split; [set_solver|]. intros [?|(q & [->|Hq]%elem_of_cons & ? & Hv)]; [auto| |right; set_solver].
      left. set_solver.
Qed.

Lemma provided_spec X u bb v : cfg_blocks c !! u = Some bb ->
  (v ∈ provided X u) <->
  (v ∈ X !!! u \/ exists p, p ∈ bb_backEdges bb /\ p <> dead /\ (v ∈ writes !!! p \/ v ∈ X !!! p)).
Proof. intros Hb. unfold provided. rewrite Hb. by apply provided_edges. Qed.

Definition writtenOnly (X : list (gset nat)) : Prop := forall u v, v ∈ X !!! u -> written v u.

Lemma provided_grows X u : length X = maxBasicBlockId c -> writtenOnly X -> u ∈ rev (forwardsTopoSort c) ->
  X !!! u ⊆ provided X u /\ writtenOnly (<[u := provided X u]> X).
Proof using ready.
  intros Hl HX Hu. apply list_elem_of_In, in_rev, list_elem_of_In in Hu. destruct (order_block u Hu) as [[bb Hb] Hlt]. split.
  - intros v Hv. apply (provided_spec X u bb v Hb). by left.
  - intros w v. rewrite lookup_insert_cases by lia. case_decide as E; [|apply HX]. subst w.
    rewrite (provided_spec X u bb v Hb). intros [?|(p & Hp & Hpd & [Hv|Hv])]; [by apply HX| |].
    + by eapply written_by.
    + eapply written_before; [done..|]. by apply HX.
Qed.

Lemma written_in_fixpoint X : (forall u, u ∈ rev (forwardsTopoSort c) -> provided X u = X !!! u) ->
  forall v u, is_Some (cfg_blocks c !! u) -> written v u -> v ∈ X !!! u.
Proof using ready.
  intros Hfix v u Hu Hw.
  assert (Hin : forall u, is_Some (cfg_blocks c !! u) -> u ∈ rev (forwardsTopoSort c)).
  { intros k Hk. apply list_elem_of_In. rewrite <- in_rev. by apply list_elem_of_In, (ar_order _ _ _ _ _ ready). }
  induction Hw as [u bb p Hb Hp Hpd Hv|u bb p Hb Hp Hpd Hv IH]; rewrite <- Hfix by (by apply Hin);
    apply (provided_spec X u bb v Hb); right; exists p; [by auto|].
  split_and!; [done..|]. right. apply IH. by eapply back_blocks.
Qed.

Lemma provideAll : exists L X,
  whileChanged (boundsFuel c) (provideTurn c RnW dead)
    (replicate (maxBasicBlockId c) (newUIntSet (length (localVariables c)))) = Some L /\
  bounds_rep L X /\ length X = maxBasicBlockId c /\ writtenOnly X /\
  forall u, u ∈ rev (forwardsTopoSort c) -> provided X u = X !!! u.
Proof using ready.
  destruct (whileChanged_spec (provideTurn c RnW dead)
    (fun L => exists X, bounds_rep L X /\ length X = maxBasicBlockId c /\ writtenOnly X)
    (fun L => exists X, bounds_rep L X /\ length X = maxBasicBlockId c /\ writtenOnly X /\
                 forall u, u ∈ rev (forwardsTopoSort c) -> provided X u = X !!! u)
    (fun L => (capacity - sum_list_with uis_size L)%nat) (boundsFuel c)
    (replicate (maxBasicBlockId c) (newUIntSet (length (localVariables c))))) as (L & Hrun & X & HX); [| | |by eauto].
  - clear -ready. intros L (X & HR & Hl & HX). destruct (provideTurn_spec L X HR Hl) as (L' & Hrun & HR').
    destruct (round_grows provided (maxBasicBlockId c) writtenOnly (rev (forwardsTopoSort c)) X false)
      as (Hl' & Hw' & _ & _ & Hgrow & _ & Hsame); [|intros; by apply provided_grows|done|done|].
    { intros u Hu. apply list_elem_of_In, in_rev, list_elem_of_In in Hu. by apply order_block. }
    eexists _, _. split; [exact Hrun|]. split; [by eauto 10|]. fold (provideRound X) in *.
    destruct (provideRound X).2 eqn:Hch.
    + destruct (Hgrow eq_refl) as [|Hlt]; [done|]. rewrite (total_sizes _ _ HR), (total_sizes _ _ HR').
      pose proof (total_bound _ _ HR') as Hb. unfold capacity. rewrite Hl' in Hb. lia.
    + destruct (Hsame eq_refl) as [Heq Hfix]. exists (provideRound X).1. split_and!; [done..|]. by rewrite Heq.
  - exists (replicate (maxBasicBlockId c) ∅). split; [|split; [apply length_replicate|]].
    + apply Forall2_replicate, rep_new, (ar_few _ _ _ _ _ ready).
    + intros u v Hv. rewrite list_lookup_total_alt in Hv. destruct (replicate _ _ !! u) eqn:E; [|set_solver].
      apply lookup_replicate in E as [-> _]. set_solver.
  - pose proof capacity_fuel. lia.
Qed.

(** *** The merge *)

(** [b'] is [b] with the variables [vs] as arguments. *)
Definition withArgs (vs : list nat) (b : BasicBlock) : BasicBlock :=
  set_args (bb_args b ++ ((fun local => useSite local noOffsets) <$> vs)) b.

(** The block at [k] after the merge of the bounds [X] and [Y], and its entry in the result *)
Definition mergedAt (X Y : list (gset nat)) (k : nat) (b' b : BasicBlock) (s : option UIntSet) : Prop :=
  exists set vs, s = Some set /\ represents words set (X !!! k ∩ Y !!! k) /\ StronglySorted lt vs /\
    (forall v, v ∈ vs <-> (v ∈ X !!! k /\ v ∈ Y !!! k)) /\ b' = withArgs vs b.

Lemma mergeBounds_all L1 L2 X Y : bounds_rep L1 X -> bounds_rep L2 Y ->
  length X = maxBasicBlockId c -> length Y = maxBasicBlockId c ->
  exists m L, foldM (mergeBounds L2) (c, L1) (basicBlocks c) = Some (set_blocks m c, L) /\
    forall k, option_Forall2 (fun b' b => mergedAt X Y k b' b (L !! k)) (m !! k) (cfg_blocks c !! k).
Proof using ready.
  intros HX HY HlX HlY. pose proof (ar_wf _ _ _ _ _ ready) as Hwf.
  destruct (foldM_inv (mergeBounds L2)
    (fun done st => exists m L, st = (set_blocks m c, L) /\
      forall k, option_Forall2 (fun b' b => if decide (k ∈ done) then mergedAt X Y k b' b (L !! k)
                                            else b' = b /\ L !! k = L1 !! k) (m !! k) (cfg_blocks c !! k))
    (basicBlocks c) (c, L1)) as (st & Hrun & m & L & -> & Hm).
  - exists (cfg_blocks c), L1. split; [by rewrite set_blocks_id|]. intros k.
    destruct (cfg_blocks c !! k); constructor. by rewrite decide_False by set_solver.
  - intros done x rest st Hl (m & L & -> & Hm).
    assert (Hx : is_Some (cfg_blocks c !! x)) by (apply (wc_listed c Hwf); rewrite Hl; set_solver).
    assert (Hnew : x ∉ done).
    { pose proof (wc_nodup c Hwf) as Hnd. rewrite Hl in Hnd. apply NoDup_app in Hnd as (_ & Hd & _).
      intros Hin. apply (Hd x Hin). set_solver. }
    destruct Hx as [bb Hb]. destruct (block_lt x bb Hb) as [Hid Hlt].
    pose proof (Hm x) as Hmx. rewrite Hb in Hmx. inversion Hmx as [b1 b2 Hmx1 Hmx' |]; subst b2.
    rewrite decide_False in Hmx1 by done. destruct Hmx1 as [-> HLx].
    destruct (bounds_rep_lookup L1 X x HX ltac:(lia)) as (s1 & Hs1 & Hr1).
    destruct (bounds_rep_lookup L2 Y x HY ltac:(lia)) as (s2 & Hs2 & Hr2).
    destruct (rep_intersect _ _ _ _ _ Hr1 Hr2) as (s3 & Hs3 & Hr3).
    destruct (rep_forEach _ _ _ Hr3) as (Hsorted & Hels & _).
    unfold mergeBounds. cbn [cfg_blocks set_blocks]. rewrite <- Hmx'. cbn [mbind option_bind]. rewrite Hid, HLx, Hs1, Hs2.
    cbn [mbind option_bind]. rewrite Hs3. cbn [mbind option_bind]. unfold updateBlock. cbn [cfg_blocks set_blocks].
    rewrite <- Hmx'. cbn [mbind option_bind]. eexists. split; [done|]. eexists _, _. split; [done|].
    assert (HxL : (x < length L)%nat) by (apply lookup_lt_is_Some; rewrite HLx, Hs1; eauto).
    intros k. rewrite lookup_insert. destruct (decide (x = k)) as [Hk|Hk].
    + subst k. rewrite Hb. constructor. rewrite decide_True by set_solver. rewrite list_lookup_insert_eq by done.
      exists s3, (uis_forEach s3). split_and!; [done..| |done]. intros v. rewrite Hels. apply elem_of_intersection.
    + rewrite list_lookup_insert_ne by done. destruct (Hm k) as [b1 b2 Hk'|]; constructor.
      destruct (decide (k ∈ done)); [rewrite decide_True by set_solver|rewrite decide_False by set_solver]; done.
  - exists m, L. split; [done|]. intros k. specialize (Hm k). destruct (cfg_blocks c !! k) eqn:E; inversion Hm as [b1 b2 Hk|]; constructor.
    rewrite decide_True in Hk; [done|]. apply (wc_listed c Hwf). eauto.
Qed.
End Bounds.

(** ** The arguments of the blocks *)

(** What the pass promises of the block at [k]: [b] is the block before it, [b'] after it, [s] the set
    it returns for the block. *)
Definition argsOf (c : CFG) (Xs Ws Zs : list (gset nat)) (dead k : nat) (s : option UIntSet) (b' b : BasicBlock) : Prop :=
  exists set vs, s = Some set /\ uis_forEach set = vs /\ b' = withArgs vs b /\ StronglySorted lt vs /\
    (forall v, v ∈ vs -> mayNeed c Xs Zs dead v k /\ (v ∉ killed c Zs k) /\ written c Ws dead v k) /\
    ((requireRound c Zs dead Xs).2 = true -> forall v, live c Xs Zs dead v k -> written c Ws dead v k -> v ∈ vs).

(** The sets that the pass returns have room for every variable. *)
Definition hasRoom (c : CFG) (s : option UIntSet) : Prop :=
  exists set (A : gset nat), s = Some set /\ represents ((length (localVariables c) + 31) / 32) set A.

Lemma fillInBlockArguments_run c RnW Xs Ws Zs dead : args_ready c RnW Xs Ws Zs ->
  (forall k, k ∈ forwardsTopoSort c <-> is_Some (cfg_blocks c !! k)) -> deadBlock c = Some dead ->
  exists m L, fillInBlockArguments RnW c = Some (set_blocks m c, L) /\
    forall k, option_Forall2 (fun b' b => argsOf c Xs Ws Zs dead k (L !! k) b' b /\ hasRoom c (L !! k)) (m !! k) (cfg_blocks c !! k).
Proof.
  intros ready Horder Hdead.
  destruct (requireAll c RnW Xs Ws Zs dead ready) as (L1 & tr & X1 & Hreq & HR1 & Hl1 & Hn1 & Hd1 & Hfix1).
  destruct (provideAll c RnW Xs Ws Zs dead ready) as (L2 & X2 & Hprov & HR2 & Hl2 & Hw2 & Hfix2).
  destruct (mergeBounds_all c RnW Xs Ws Zs ready L1 L2 X1 X2 HR1 HR2 Hl1 Hl2) as (m & L & Hmerge & Hm).
  exists m, L. split.
  { unfold fillInBlockArguments. rewrite Hdead. cbn [mbind option_bind]. rewrite Hreq. cbn [mbind option_bind]. rewrite Hprov. done. }
  intros k. specialize (Hm k). destruct (cfg_blocks c !! k) as [b|] eqn:Hb; inversion Hm as [b' b2 (set & vs & HL & Hrep & Hs & Hv & Hb')|]; constructor.
  subst. split; [|by exists set, (X1 !!! k ∩ X2 !!! k)]. exists set, vs. split; [done|]. destruct (rep_forEach _ _ _ Hrep) as (Hs' & Hels & _). split.
  { apply sorted_lt_unique; [done..|]. intros v. rewrite Hels, Hv. apply elem_of_intersection. }
  split; [done|]. split; [done|]. split.
  - intros v [H1 H2]%Hv. split; [by apply Hn1|]. split; [|by apply Hw2]. apply (Hd1 k v H1). apply Horder. eauto.
  - intros Hch v Hlive Hwr. apply Hv. split.
    + by apply (live_in_fixpoint c RnW Xs Ws Zs dead ready X1 Hn1 (Hfix1 Hch)).
    + by apply (written_in_fixpoint c RnW Xs Ws Zs dead ready X2 Hfix2).
Qed.

Lemma analysed_local wn c k bb X W Z v : vars_ok c -> cfg_blocks c !! k = Some bb -> analysed wn c k bb X W Z ->
  v ∈ Z -> (v < length (localVariables c))%nat.
Proof.
  intros Hvars Hb Han (before & bind & after & Heq & <- & _)%(an_dead _ _ _ _ _ _ _ Han).
  apply (proj1 (Hvars k bb Hb) bind); [|by left]. rewrite Heq. set_solver.
Qed.

(** C25: on a graph in order whose variables exist, and are at most 2^32 - 32, the analysis of reads and writes followed by
    [fillInBlockArguments] terminates within its fuel. The analysis finds exactly the variables that a
    block reads, those that it writes and another block mentions, and those that it writes first. The
    arguments of a block are sorted, and each is needed on some path from the block and written on
    some path to it. Conversely, if the first turn over the blocks has changed the size of some
    bound, every variable that is live at the block and written before it is an argument. *)
Theorem fillInBlockArguments_correct wn c dead : wf_cfg c -> vars_ok c -> fitsWords (length (localVariables c)) ->
  (forall k, k ∈ forwardsTopoSort c <-> is_Some (cfg_blocks c !! k)) ->
  length (minLoops c) = length (localVariables c) -> deadBlock c = Some dead ->
  exists RnW Xs Ws Zs m L, findAllReadsAndWrites wn c = Some RnW /\
    (forall k bb, cfg_blocks c !! k = Some bb -> analysed wn c k bb (Xs !!! k) (Ws !!! k) (Zs !!! k)) /\
    fillInBlockArguments RnW c = Some (set_blocks m c, L) /\
    forall k, option_Forall2 (argsOf c Xs Ws Zs dead k (L !! k)) (m !! k) (cfg_blocks c !! k).
Proof.
  intros Hwf Hvars Hfew Horder Hmin Hdead.
  destruct (findAllReadsAndWrites_analysed wn c Hwf Hvars Hfew) as (RnW & Xs & Ws & Zs & Hfind & HX & HW & HZ & HlX & HlW & HlZ & Han).
  assert (ready : args_ready c RnW Xs Ws Zs).
  { split; try done. intros u v [bb Hb] Hv. apply lookup_lt_is_Some. rewrite Hmin. eapply (analysed_local wn c u bb); [done|done|by apply Han|done]. }
  destruct (fillInBlockArguments_run c RnW Xs Ws Zs dead ready Horder Hdead) as (m & L & Hrun & Hm).
  exists RnW, Xs, Ws, Zs, m, L. split; [done|]. split; [done|]. split; [done|].
  intros k. destruct (Hm k) as [b' b [Ha _]|]; by constructor.
Qed.

(** A loop: 0 writes variable 7, the header 2 branches on 5, the body 3 uses 6, and 4 returns 7. *)
Definition sampleBinding (v : nat) (i : Insn.Instruction) : Binding := mkBinding (useSite v noOffsets) noOffsets i false.

Definition loopBlock (id : nat) (loops : Z) (exprs : list Binding) (cond t e : nat) (back : list nat) : BasicBlock :=
  mkBasicBlock [] id false false loops exprs (mkBlockExit (useSite cond noOffsets) (Some t) (Some e) noOffsets) back.

Definition loopGraph : CFG :=
  mkCFG 0 5 noOffsets noOffsets
    (list_to_map [(0%nat, loopBlock 0 0 [sampleBinding 7 (Insn.Literal NullType)] 3 2 2 []);
                  (1%nat, loopBlock 1 0 [] 3 1 1 [4%nat]);
                  (2%nat, loopBlock 2 1 [sampleBinding 5 (Insn.Literal NullType)] 5 3 4 [0%nat; 3%nat]);
                  (3%nat, loopBlock 3 1 [sampleBinding 6 (Insn.Literal NullType); sampleBinding 8 (Insn.Ident 6);
                                         sampleBinding 8 (Insn.Ident 6)] 3 2 2 [2%nat]);
                  (4%nat, loopBlock 4 0 [sampleBinding 4 (Insn.Return (useSite 7 noOffsets) noOffsets)] 3 1 1 [2%nat])])
    [0; 1; 2; 3; 4]%nat noOffsets [1; 4; 3; 2; 0]%nat (replicate 9 0) (replicate 9 0)
    (replicate 9 (mkLocalVariable 0 0)) ∅ [].

Lemma fillInBlockArguments_correct_witness :
  wf_cfg loopGraph /\ vars_ok loopGraph /\
  exists RnW Xs Ws Zs m L, findAllReadsAndWrites sampleNames loopGraph = Some RnW /\
    fillInBlockArguments RnW loopGraph = Some (set_blocks m loopGraph, L) /\
    forall k, option_Forall2 (argsOf loopGraph Xs Ws Zs 1 k (L !! k)) (m !! k) (cfg_blocks loopGraph !! k).
Proof.
  assert (Hwf : wf_cfg loopGraph) by (apply wf_cfgb_sound; vm_compute; reflexivity).
  assert (Hvars : vars_ok loopGraph) by (apply vars_okb_sound; vm_compute; reflexivity).
  split; [done|]. split; [done|].
  destruct (fillInBlockArguments_correct sampleNames loopGraph 1 Hwf Hvars ltac:(by vm_compute)) as (RnW & Xs & Ws & Zs & m & L & H1 & _ & H2 & H3);
    [|done|done|eauto 10].
  intros k. rewrite <- (wc_listed _ Hwf). unfold loopGraph; simpl. set_solver.
Defined.
