(* ===== verification/CfgFinalize.v ===== *)
(** * Finishing control flow graphs

    Models the other passes of src/cfg/builder/builder_finalize.cc, which turn the blocks the builder
    has emitted into the graph that inference works on: they resolve aliases of temporaries, find
    loops, remove dead assignments and simplify jumps. *)

From S2P Require Import Prelude Pickler FileHash Files Locs Types NameTable NameText Symbols SymbolRefs.
From S2P Require Import UIntSet Cfg CfgTopo CfgArgs.

#[local] Open Scope Z_scope.

(** ** Aliases of temporaries *)

Section WithNames.
Context (wn : CfgNames) (isSCIPRuby : bool).

Abbreviation Aliases := (gmap nat LocalOccurrence).

Definition maybeDealias (c : CFG) (aliases : Aliases) (what : LocalOccurrence) : option LocalOccurrence :=
  isTemp ← isSyntheticTemporary wn c (lo_variable what);
  Some (if (isTemp : bool) then default what (aliases !! lo_variable what) else what).

Definition dealiasUseSite (c : CFG) (aliases : Aliases) (u : VariableUseSite) : option VariableUseSite :=
  o ← maybeDealias c aliases (occurrence u); Some (assignUseSite u o).

(** The entries of [current] whose variable [other] maps to the same variable *)
Definition intersectAliases (current other : Aliases) : Aliases :=
  filter (fun '(k, el) => option_map lo_variable (other !! k) = Some (lo_variable el)) current.

(** The aliases on entry: those all predecessors agree on. [current] is the entry of the block itself
    in [outAliases], which is what a block that precedes itself is compared with. *)
Definition entryAliases (c : CFG) (outAliases : list Aliases) (bb : BasicBlock) : option Aliases :=
  match bb_backEdges bb with
  | [] => outAliases !! bb_id bb
  | first :: rest =>
      firstBlock ← cfg_blocks c !! first;
      current ← outAliases !! bb_id firstBlock;
      foldM (fun current parent =>
               parentBlock ← cfg_blocks c !! parent;
               other ← (if (bb_id parentBlock =? bb_id bb)%nat then Some current else outAliases !! bb_id parentBlock);
               Some (intersectAliases current other)) current rest
  end.

(** The first treatment of an [Ident], which synthetic instructions get too *)
Definition dealiasIdent (c : CFG) (current : Aliases) (i : Insn.Instruction) : option Insn.Instruction :=
  match i with
  | Insn.Ident what => o ← maybeDealias c current (synthetic what); Some (Insn.Ident (lo_variable o))
  | _ => Some i
  end.

Definition dealiasArg (c : CFG) (current : Aliases) (arg : nat * LocOffsets) : option (nat * LocOffsets) :=
  o ← maybeDealias c current (mkLocalOccurrence arg.1 arg.2);
  Some (lo_variable o, if isSCIPRuby then lo_loc o else arg.2).

Fixpoint mapM {A B} (f : A -> option B) (l : list A) : option (list B) :=
  match l with [] => Some [] | x :: l => y ← f x; ys ← mapM f l; Some (y :: ys) end.

Definition dealiasInstruction (c : CFG) (current : Aliases) (i : Insn.Instruction) : option Insn.Instruction :=
  match i with
  | Insn.Ident what => o ← maybeDealias c current (synthetic what); Some (Insn.Ident (lo_variable o))
  | Insn.Send s =>
      recv ← dealiasUseSite c current (Insn.recv s);
      args ← mapM (dealiasArg c current) (Insn.args s);
      Some (Insn.Send (Insn.mkSend recv (Insn.receiverLoc s) (Insn.fun_ s) (Insn.funLoc s) (Insn.numPosArgs s)
                         (Insn.isPrivateOk s) args (Insn.link s) (Insn.argTypes s) (Insn.scipDispatchInfo s)))
  | Insn.TAbsurd what => what ← dealiasUseSite c current what; Some (Insn.TAbsurd what)
  | Insn.Return what whatLoc => what ← dealiasUseSite c current what; Some (Insn.Return what whatLoc)
  | _ => Some i
  end.

(** One binding: the aliases, the variables that may have one, and the bindings already treated *)
Definition dealiasBinding (c : CFG) (st : Aliases * UIntSet * list Binding) (bind : Binding)
    : option (Aliases * UIntSet * list Binding) :=
  let '(current, mayHaveAlias, done) := st in
  let variable := vu_variable (bd_bind bind) in
  value ← dealiasIdent c current (bd_value bind);
  stale ← uis_contains mayHaveAlias variable;
  let current := if (stale : bool) then filter (fun '(_, el) => lo_variable el <> variable) current else current in
  value ← (if bd_synthetic bind then Some value else dealiasInstruction c current value);
  let bind := mkBinding (bd_bind bind) (bd_loc bind) value (bd_synthetic bind) in
  match value with
  | Insn.Ident what =>
      mayHaveAlias ← uis_add what mayHaveAlias;
      Some (<[variable := mkLocalOccurrence what (bd_loc bind)]> current, mayHaveAlias, done ++ [bind])
  | _ => Some (current, mayHaveAlias, done ++ [bind])
  end.

Definition dealiasBlock (st : CFG * list Aliases) (b : nat) : option (CFG * list Aliases) :=
  let '(c, outAliases) := st in
  dead ← deadBlock c;
  if (b =? dead)%nat then Some (c, outAliases)
  else
    bb ← cfg_blocks c !! b;
    current ← entryAliases c outAliases bb;
    mayHaveAlias ← addItems (newUIntSet (length (localVariables c))) (lo_variable <$> (map_to_list current).*2);
    '(current, _, exprs) ← foldM (dealiasBinding c) (current, mayHaveAlias, []) (bb_exprs bb);
    let exit := bb_exit bb in
    exit ← (if negb (vu_variable (be_cond exit) =? unconditional)%nat then
              cond ← dealiasUseSite c current (be_cond exit);
              Some (mkBlockExit cond (be_thenb exit) (be_elseb exit) (be_loc exit))
            else Some exit);
    c ← updateBlock b (fun bb => set_exit exit (set_exprs exprs bb)) c;
    if (bb_id bb <? length outAliases)%nat then Some (c, <[bb_id bb := current]> outAliases) else None.

Definition dealiasPass (c : CFG) : option CFG :=
  '(c, _) ← foldM dealiasBlock (c, replicate (maxBasicBlockId c) ∅) (rev (forwardsTopoSort c));
  Some c.

(** ** Loops *)

Definition markLoopHeader (c : CFG) (b : nat) : option CFG :=
  bb ← cfg_blocks c !! b;
  isHeader ← foldM (fun isHeader parent =>
      p ← cfg_blocks c !! parent; Some (isHeader || (bb_outerLoops p <? bb_outerLoops bb))) false (bb_backEdges bb);
  if (isHeader : bool) then updateBlock b set_isLoopHeader c else Some c.

Definition markLoopHeaders (c : CFG) : option CFG := foldM markLoopHeader c (basicBlocks c).

(** The first loop of [computeMinMaxLoops] over the variables a block reads *)
Definition lowerMinLoops (outerLoops : Z) (mins : list Z) (local : nat) : option (list Z) :=
  curMin ← mins !! local;
  Some (<[local := if outerLoops <? curMin then outerLoops else curMin]> mins).

Definition minLoopsOfReads (RnW : ReadsAndWrites) (dead : nat) (c : CFG) (b : nat) : option CFG :=
  if (b =? dead)%nat then Some c
  else
    bb ← cfg_blocks c !! b;
    reads ← rw_reads RnW !! bb_id bb;
    mins ← foldM (lowerMinLoops (bb_outerLoops bb)) (minLoops c) (uis_forEach reads);
    Some (set_loops mins (maxLoopWrite c) c).

Definition loopsOfWrite (outerLoops : Z) (st : list Z * list Z) (expr : Binding) : option (list Z * list Z) :=
  let '(mins, maxs) := st in
  let what := vu_variable (bd_bind expr) in
  curMin ← mins !! what;
  curMax ← maxs !! what;
  Some (<[what := if outerLoops <? curMin then outerLoops else curMin]> mins,
        <[what := if curMax <? outerLoops then outerLoops else curMax]> maxs).

Definition minMaxLoopsOfWrites (dead : nat) (c : CFG) (b : nat) : option CFG :=
  if (b =? dead)%nat then Some c
  else
    bb ← cfg_blocks c !! b;
    '(mins, maxs) ← foldM (loopsOfWrite (bb_outerLoops bb)) (minLoops c, maxLoopWrite c) (bb_exprs bb);
    Some (set_loops mins maxs c).

Definition computeMinMaxLoops (RnW : ReadsAndWrites) (c : CFG) : option CFG :=
  dead ← deadBlock c;
  c ← foldM (minLoopsOfReads RnW dead) c (basicBlocks c);
  foldM (minMaxLoopsOfWrites dead) c (basicBlocks c).

(** ** Dead assignments *)

Definition isPure (i : Insn.Instruction) : bool :=
  match i with
  | Insn.Ident _ | Insn.Literal _ | Insn.LoadSelf _ _ | Insn.LoadArg _ _ | Insn.LoadYieldParams _ => true
  | _ => false
  end.

Definition containsAt (sets : list UIntSet) (i v : nat) : option bool := s ← sets !! i; uis_contains s v.

(** Is the binding an assignment without effects to a variable that is not read? *)
Definition isDeadAssign (RnW : ReadsAndWrites) (blockArgs : list UIntSet) (c : CFG) (bb : BasicBlock) (bind : Binding)
    : option bool :=
  let variable := vu_variable (bd_bind bind) in
  isGlobal ← isAliasForGlobal wn c variable;
  if (isGlobal : bool) then Some false
  else
    readHere ← containsAt (rw_reads RnW) (bb_id bb) variable;
    wasRead ← (if (readHere : bool) then Some true
               else
                 thenb ← be_thenb (bb_exit bb) ≫= fun b => cfg_blocks c !! b;
                 inThen ← containsAt blockArgs (bb_id thenb) variable;
                 if (inThen : bool) then Some true
                 else
                   elseb ← be_elseb (bb_exit bb) ≫= fun b => cfg_blocks c !! b;
                   containsAt blockArgs (bb_id elseb) variable);
    Some (negb wasRead && isPure (bd_value bind)).

Definition removeDeadAssignsIn (RnW : ReadsAndWrites) (blockArgs : list UIntSet) (c : CFG) (b : nat) : option CFG :=
  bb ← cfg_blocks c !! b;
  exprs ← foldM (fun kept bind => isDead ← isDeadAssign RnW blockArgs c bb bind;
                                  Some (if (isDead : bool) then kept else kept ++ [bind])) [] (bb_exprs bb);
  updateBlock b (set_exprs exprs) c.

(** [lspQueryIsEmpty] is [ctx.state.lspQuery.isEmpty()]. *)
Definition removeDeadAssigns (lspQueryIsEmpty : bool) (RnW : ReadsAndWrites) (blockArgs : list UIntSet) (c : CFG)
    : option CFG :=
  if negb lspQueryIsEmpty then Some c
  else foldM (removeDeadAssignsIn RnW blockArgs) c (basicBlocks c).
End WithNames.

(** ** Simplification *)

Fixpoint dropRepeats (l : list nat) : list nat :=
  match l with
  | x :: (y :: _) as l' => if (x =? y)%nat then dropRepeats l' else x :: dropRepeats l'
  | _ => l
  end.

(** Sort by id and drop duplicates *)
Definition dedupeBackEdges (edges : list nat) : list nat := dropRepeats (merge_sort le edges).

Definition set_cond (cond : VariableUseSite) (e : BlockExit) : BlockExit :=
  mkBlockExit cond (be_thenb e) (be_elseb e) (be_loc e).

Definition updateExit (b : nat) (f : BlockExit -> BlockExit) (c : CFG) : option CFG :=
  updateBlock b (fun bb => set_exit (f (bb_exit bb)) bb) c.

Definition addBackEdge (b to : nat) (c : CFG) : option CFG :=
  updateBlock to (fun bb => set_backEdges (bb_backEdges bb ++ [b]) bb) c.

(** [bb] takes over the exit of [from]: the variable of the condition, the targets and the location. *)
Definition takeExit (from : BlockExit) (e : BlockExit) : BlockExit :=
  mkBlockExit (mkUseSite (vu_variable (be_cond from)) (vu_type (be_cond e)) (vu_loc (be_cond e)))
    (be_thenb from) (be_elseb from) (be_loc from).

(** [bb] becomes a predecessor of its targets. *)
Definition addToTargets (b : nat) (e : BlockExit) (c : CFG) : option CFG :=
  thenb ← be_thenb e;
  elseb ← be_elseb e;
  c ← addBackEdge b thenb c;
  if (thenb =? elseb)%nat then Some c else addBackEdge b elseb c.

(** What the body of the loop does at a block: [it] was erased, it is tried again, or it is left. *)
Inductive SimplifyResult := BlockErased (c : CFG) | TryAgain (c : CFG) | GoOn (c : CFG).

Definition eraseBlock (b : nat) (c : CFG) : CFG :=
  set_topoSort (filter (fun k => k <> b) (forwardsTopoSort c))
    (set_basicBlocks (filter (fun k => k <> b) (basicBlocks c)) (set_blocks (delete b (cfg_blocks c)) c)).

(** When nothing jumps to the block *)
Definition removeBlock (b thenb elseb : nat) (c : CFG) : option CFG :=
  c ← eraseBackEdge b thenb c;
  c ← (if (elseb =? thenb)%nat then Some c else eraseBackEdge b elseb c);
  Some (eraseBlock b c).

(** The bindings of [thenb] are moved from; the block has no predecessor left and is removed when the
    loop comes to it. *)
Definition squish (b thenb : nat) (c : CFG) : option CFG :=
  t ← cfg_blocks c !! thenb;
  c ← updateBlock b (fun bb => set_exprs (bb_exprs bb ++ bb_exprs t) bb) c;
  c ← updateBlock thenb (set_backEdges []) c;
  c ← updateExit b (takeExit (bb_exit t)) c;
  addToTargets b (bb_exit t) c.

Definition inlineExit (b thenb : nat) (c : CFG) : option CFG :=
  t ← cfg_blocks c !! thenb;
  c ← updateExit b (takeExit (bb_exit t)) c;
  c ← eraseBackEdge b thenb c;
  addToTargets b (bb_exit t) c.

(** Empty, with an unconditional jump *)
Definition canShortcut (dead target : nat) (t : BasicBlock) : bool :=
  negb (target =? dead)%nat && bool_decide (bb_exprs t = []) && isUnconditional (bb_exit t).

Definition shortcutThen (b thenb elseb : nat) (c : CFG) : option CFG :=
  t ← cfg_blocks c !! thenb;
  next ← be_thenb (bb_exit t);
  c ← updateExit b (fun e => mkBlockExit (be_cond e) (Some next) (be_elseb e) (be_loc e)) c;
  c ← addBackEdge b next c;
  c ← eraseBackEdge b thenb c;
  if (thenb =? elseb)%nat
  then updateExit b (fun e => mkBlockExit (be_cond e) (be_thenb e) (Some next) (be_loc e)) c
  else Some c.

Definition shortcutElse (b thenb elseb : nat) (c : CFG) : option CFG :=
  t ← cfg_blocks c !! elseb;
  next ← be_elseb (bb_exit t);
  c ← updateExit b (fun e => mkBlockExit (be_cond e) (be_thenb e) (Some next) (be_loc e)) c;
  c ← addBackEdge b next c;
  c ← eraseBackEdge b elseb c;
  if (thenb =? elseb)%nat
  then updateExit b (fun e => mkBlockExit (be_cond e) (Some next) (be_elseb e) (be_loc e)) c
  else Some c.

(** Pruning of intermediate blocks from one path of a jump *)
Definition simplifyShortcuts (dead b thenb elseb : nat) (c : CFG) : option SimplifyResult :=
  t ← cfg_blocks c !! thenb;
  e ← cfg_blocks c !! elseb;
  if canShortcut dead thenb t && bool_decide (be_thenb (bb_exit t) <> Some thenb) then
    TryAgain <$> shortcutThen b thenb elseb c
  else if canShortcut dead elseb e && bool_decide (be_elseb (bb_exit e) <> Some elseb) then
    TryAgain <$> shortcutElse b thenb elseb c
  else Some (GoOn c).

Definition simplifyAt (b : nat) (c : CFG) : option SimplifyResult :=
  bb ← cfg_blocks c !! b;
  thenb ← be_thenb (bb_exit bb);
  elseb ← be_elseb (bb_exit bb);
  dead ← deadBlock c;
  ent ← entry c;
  if negb (b =? dead)%nat && negb (b =? ent)%nat && bool_decide (bb_backEdges bb = []) then
    BlockErased <$> removeBlock b thenb elseb c
  else
    c ← updateBlock b (fun bb => set_backEdges (dedupeBackEdges (bb_backEdges bb)) bb) c;
    if (thenb =? elseb)%nat then
      c ← updateExit b (fun e => set_cond (assignUseSite (be_cond e) (mkLocalOccurrence unconditional (be_loc e))) e) c;
      t ← cfg_blocks c !! thenb;
      if negb (thenb =? dead)%nat && negb (thenb =? b)%nat && (bb_outerLoops t =? bb_outerLoops bb) then
        if (length (bb_backEdges t) =? 1)%nat then TryAgain <$> squish b thenb c
        else if negb (vu_variable (be_cond (bb_exit t)) =? blockCall)%nat && bool_decide (bb_exprs t = []) then
          TryAgain <$> inlineExit b thenb c
        else simplifyShortcuts dead b thenb elseb c
      else simplifyShortcuts dead b thenb elseb c
    else simplifyShortcuts dead b thenb elseb c.

(** The loop over [basicBlocks] from position [i] on, and whether anything has changed *)
Fixpoint simplifyPass (fuel : nat) (i : nat) (changed : bool) (c : CFG) : option (CFG * bool) :=
  match basicBlocks c !! i with
  | None => Some (c, changed)
  | Some b =>
      match fuel with
      | O => None
      | S fuel =>
          r ← simplifyAt b c;
          match r with
          | BlockErased c | TryAgain c => simplifyPass fuel i true c
          | GoOn c => simplifyPass fuel (S i) changed c
          end
      end
  end.

Definition simplify (fuel : nat) (c : CFG) : option CFG := whileChanged fuel (simplifyPass fuel 0 false) c.
