(* ===== verification/CfgBuild.v ===== *)
(** * Construction of control flow graphs

    Models src/cfg/builder/builder_walk.cc, the [buildFor] functions and [CFGContext] of
    builder_entry.cc, and [parseParam] of src/ast/ParamParsing.cc: the translation of the body of a
    method to basic blocks.

    The builder is a state monad that may stop. [BadGraph] stands for a failed [ENFORCE] about a block,
    a use of a block that does not exist or an index outside a table of the graph; [Raised] for an
    exception, which [walk] reports and rethrows; [BadInput] for trees and symbol tables that
    earlier phases do not produce, on which the code is undefined; [OutOfFuel] for a tree deeper than the fuel.
    A [BasicBlock *] is the id of the block, and a null pointer is [None]. Calls of [beginError] are
    recorded with their location; whether an error is shown is up to the global state. *)

From S2P Require Import Prelude Pickler FileHash Files Locs Types NameTable NameText Symbols SymbolRefs Linearize.
From S2P Require Import Ast UIntSet Cfg CfgTopo CfgReads CfgArgs CfgFinalize.

#[local] Open Scope Z_scope.

(** ** The monad *)

Inductive CfgError :=
| UndeclaredVariable | UnknownTypeParameter | NoNextScope | MalformedTAbsurd | AbstractClassInstantiated | MalformedTBind.

Inductive Stop := OutOfFuel | Raised | BadInput | BadGraph.

(** The graph and the references of [CFGContext] *)
Record BuilderState := mkBuilderState {
  bs_cfg : CFG; bs_aliases : gmap Z LocalOccurrence; bs_undeclared : gmap Z LocalOccurrence;
  bs_temporaryCounter : Z; bs_errors : list (LocOffsets * CfgError) }.

Definition bld (A : Type) : Type := BuilderState -> Stop + (A * BuilderState).

#[export] Instance bld_ret : MRet bld := fun A a st => inr (a, st).

#[export] Instance bld_bind : MBind bld := fun A B f m st =>
  match m st with inl s => inl s | inr (a, st) => f a st end.

Definition stopWith {A} (s : Stop) : bld A := fun _ => inl s.

Definition lift {A} (s : Stop) (o : option A) : bld A := match o with Some a => mret a | None => stopWith s end.

Definition getCFG : bld CFG := fun st => inr (bs_cfg st, st).

Definition set_cfg (c : CFG) (st : BuilderState) : BuilderState :=
  mkBuilderState c (bs_aliases st) (bs_undeclared st) (bs_temporaryCounter st) (bs_errors st).

Definition onCFG {A} (f : CFG -> A * CFG) : bld A := fun st => let '(a, c) := f (bs_cfg st) in inr (a, set_cfg c st).

(** A change of the graph that fails on a block or an index that does not exist *)
Definition graph (f : CFG -> option CFG) : bld unit := fun st =>
  match f (bs_cfg st) with Some c => inr (tt, set_cfg c st) | None => inl BadGraph end.

Definition report (loc : LocOffsets) (e : CfgError) : bld unit := fun st =>
  inr (tt, mkBuilderState (bs_cfg st) (bs_aliases st) (bs_undeclared st) (bs_temporaryCounter st)
             (bs_errors st ++ [(loc, e)])).

Fixpoint foldB {A S} (f : S -> A -> bld S) (s : S) (l : list A) : bld S :=
  match l with [] => mret s | x :: l => s ← f s x; foldB f s l end.

(** ** Blocks, variables and jumps *)

Definition isDead (b : nat) : bld bool := c ← getCFG; dead ← lift BadGraph (deadBlock c); mret (b =? dead)%nat.

Definition deadBlockOf : bld nat := c ← getCFG; lift BadGraph (deadBlock c).

Definition freshB (loops : Z) : bld nat := onCFG (freshBlock loops).

Definition enterLocalB (v : LocalVariable) : bld nat := onCFG (enterLocal v).

(** [CFGContext::newTemporary] *)
Definition newTemporary (name : Z) : bld nat := fun st =>
  let counter := u32 (bs_temporaryCounter st + 1) in
  let '(v, c) := enterLocal (mkLocalVariable name counter) (bs_cfg st) in
  inr (v, mkBuilderState c (bs_aliases st) (bs_undeclared st) counter (bs_errors st)).

(** [bb->exprs.emplace_back(occ, loc, value)] *)
Definition emplace (b : nat) (occ : LocalOccurrence) (loc : LocOffsets) (value : Insn.Instruction) : bld unit :=
  graph (updateBlock b (fun bb =>
    set_exprs (bb_exprs bb ++ [mkBinding (useSite (lo_variable occ) (lo_loc occ)) loc value false]) bb)).

Definition synthesizeExpr (b : nat) (occ : LocalOccurrence) (loc : LocOffsets) (value : Insn.Instruction) : bld unit :=
  graph (updateBlock b (fun bb =>
    set_exprs (bb_exprs bb ++ [mkBinding (useSite (lo_variable occ) (lo_loc occ)) loc value true]) bb)).

(** The exit of [from] is set, which must not be set yet, unless [from] is the dead block. *)
Definition setExit (cond : nat) (thenb elseb : nat) (loc : LocOffsets) (bb : BasicBlock) : option BasicBlock :=
  if isCondSet (bb_exit bb) then None
  else match be_thenb (bb_exit bb), be_elseb (bb_exit bb) with
       | None, None =>
           Some (set_exit (mkBlockExit (assignUseSite (be_cond (bb_exit bb)) (synthetic cond)) (Some thenb) (Some elseb) loc) bb)
       | _, _ => None
       end.

Definition exitBlock (from cond thenb elseb : nat) (loc : LocOffsets) (c : CFG) : option CFG :=
  bb ← cfg_blocks c !! from; bb ← setExit cond thenb elseb loc bb; Some (set_blocks (<[from := bb]> (cfg_blocks c)) c).

Definition conditionalJump (from cond thenb elseb : nat) (loc : LocOffsets) : bld unit :=
  _ ← graph (updateBlock thenb set_wasJumpDestination);
  _ ← graph (updateBlock elseb set_wasJumpDestination);
  dead ← isDead from;
  if (dead : bool) then mret tt
  else
    _ ← graph (exitBlock from cond thenb elseb loc);
    _ ← graph (addBackEdge from thenb);
    graph (addBackEdge from elseb).

Definition unconditionalJump (from to : nat) (loc : LocOffsets) : bld unit :=
  _ ← graph (updateBlock to set_wasJumpDestination);
  dead ← isDead from;
  if (dead : bool) then mret tt
  else
    _ ← graph (exitBlock from unconditional to to loc);
    graph (addBackEdge from to).

Definition jumpToDead (from : nat) (loc : LocOffsets) : bld unit :=
  db ← deadBlockOf;
  if (from =? db)%nat then mret tt
  else
    _ ← graph (exitBlock from unconditional db db loc);
    graph (addBackEdge from db).

Definition MIN_LOOP_FIELD : Z := -1.

Definition MIN_LOOP_LET : Z := -3.

(** [cfg.minLoops\[v\] = z] *)
Definition setMinLoop (v : nat) (z : Z) : bld unit :=
  graph (fun c => if (v <? length (minLoops c))%nat then Some (set_loops (<[v := z]> (minLoops c)) (maxLoopWrite c) c) else None).

(** ** Contexts *)

Record CFGContext := mkCFGContext {
  cc_target : LocalOccurrence; cc_blockBreakTarget : nat; cc_loops : Z; cc_isInsideRubyBlock : bool;
  cc_isInsideLambda : bool; cc_breakIsJump : bool; cc_nextScope : option nat; cc_breakScope : option nat;
  cc_rescueScope : option nat; cc_link : nat }.

Definition withTarget (target : LocalOccurrence) (x : CFGContext) : CFGContext :=
  mkCFGContext target (cc_blockBreakTarget x) (cc_loops x) (cc_isInsideRubyBlock x) (cc_isInsideLambda x)
    (cc_breakIsJump x) (cc_nextScope x) (cc_breakScope x) (cc_rescueScope x) (cc_link x).

Definition withBlockBreakTarget (target : nat) (x : CFGContext) : CFGContext :=
  mkCFGContext (cc_target x) target (cc_loops x) (cc_isInsideRubyBlock x) (cc_isInsideLambda x) false
    (cc_nextScope x) (cc_breakScope x) (cc_rescueScope x) (cc_link x).

Definition withLoopBreakTarget (target : nat) (x : CFGContext) : CFGContext :=
  mkCFGContext (cc_target x) target (cc_loops x) (cc_isInsideRubyBlock x) (cc_isInsideLambda x) true
    (cc_nextScope x) (cc_breakScope x) (cc_rescueScope x) (cc_link x).

Definition withLoopScope (nextScope breakScope : nat) (insideRubyBlock : bool) (x : CFGContext) : CFGContext :=
  mkCFGContext (cc_target x) (cc_blockBreakTarget x) (cc_loops x + 1) insideRubyBlock (cc_isInsideLambda x)
    (cc_breakIsJump x) (Some nextScope) (Some breakScope) (cc_rescueScope x) (cc_link x).

Definition withSendAndBlockLink (link : nat) (x : CFGContext) : CFGContext :=
  mkCFGContext (cc_target x) (cc_blockBreakTarget x) (cc_loops x) (cc_isInsideRubyBlock x) (cc_isInsideLambda x)
    (cc_breakIsJump x) (cc_nextScope x) (cc_breakScope x) (cc_rescueScope x) link.

Definition withInsideLambda (x : CFGContext) : CFGContext :=
  mkCFGContext (cc_target x) (cc_blockBreakTarget x) (cc_loops x) (cc_isInsideRubyBlock x) true
    (cc_breakIsJump x) (cc_nextScope x) (cc_breakScope x) (cc_rescueScope x) (cc_link x).

Definition withRescueScope (scope : nat) (x : CFGContext) : CFGContext :=
  mkCFGContext (cc_target x) (cc_blockBreakTarget x) (cc_loops x) (cc_isInsideRubyBlock x) (cc_isInsideLambda x)
    (cc_breakIsJump x) (cc_nextScope x) (cc_breakScope x) (Some scope) (cc_link x).

(** ** Trees *)

(** [ExpressionPtr::loc] *)
Definition exprLoc (e : Expr) : LocOffsets := default noOffsets (head (node_locs e)).

Definition classMagic : Z := classSymbol 24.

Definition classT : Z := classSymbol 17.

Definition classKernel : Z := classSymbol 21.

Definition classClass : Z := 19.

Definition classStandardError : Z := classSymbol 28.

Definition nilClass : TypePtr := ClassType 15.

Definition trueClass : TypePtr := ClassType 13.

Definition stubModule : Z := classSymbol classStubModule.

Definition undeclaredFieldStub : Z := makeSymbolRef KFieldOrStaticField 1.

(** [cast_tree<ConstantLit>(e)], its symbol, and the scope of its original literal *)
Definition constantSymbol (e : Expr) : option Z :=
  match e with
  | KnownConstantLit _ symbol => Some symbol
  | ResolvedConstantLit symbol _ _ _ => Some symbol
  | FailedConstantLit _ _ _ _ => Some stubModule
  | _ => None
  end.

Definition isConstantLit (e : Expr) : bool := bool_decide (is_Some (constantSymbol e)).

Definition isSend (e : Expr) : bool := match e with Send _ _ _ _ _ _ _ => true | _ => false end.

Definition isEmptyTree (e : Expr) : bool := match e with EmptyTree => true | _ => false end.

Record ParsedParam := mkParsedParam { pp_loc : LocOffsets; pp_local : LocalVariable; pp_flags : ParamFlags }.

Definition noFlags : ParamFlags := mkParamFlags false false false false false.

(** [parseParam]; the loop does not end on other nodes *)
Fixpoint parseParamFrom (f : ParamFlags) (e : Expr) : option ParsedParam :=
  match e with
  | RestParam _ e => parseParamFrom (mkParamFlags (pf_isKeyword f) true (pf_isDefault f) (pf_isShadow f) (pf_isBlock f)) e
  | KeywordArg _ e => parseParamFrom (mkParamFlags true (pf_isRepeated f) (pf_isDefault f) (pf_isShadow f) (pf_isBlock f)) e
  | OptionalParam _ e _ => parseParamFrom (mkParamFlags (pf_isKeyword f) (pf_isRepeated f) true (pf_isShadow f) (pf_isBlock f)) e
  | BlockParam _ e => parseParamFrom (mkParamFlags (pf_isKeyword f) (pf_isRepeated f) (pf_isDefault f) (pf_isShadow f) true) e
  | ShadowArg _ e => parseParamFrom (mkParamFlags (pf_isKeyword f) (pf_isRepeated f) (pf_isDefault f) true (pf_isBlock f)) e
  | Local loc name unique => Some (mkParsedParam loc (mkLocalVariable name unique) f)
  | _ => None
  end.

Definition parseParam (e : Expr) : option ParsedParam := parseParamFrom noFlags e.

Definition parseParams (params : list Expr) : option (list ParsedParam) := mapM parseParam params.

(** [MK::arg2Local] *)
Fixpoint arg2Local (e : Expr) : option (LocOffsets * LocalVariable) :=
  match e with
  | Local loc name unique => Some (loc, mkLocalVariable name unique)
  | RestParam _ e | KeywordArg _ e | OptionalParam _ e _ | BlockParam _ e | ShadowArg _ e => arg2Local e
  | _ => None
  end.

(** *** The arguments of a [Send] *)

Definition hasKwArgs (flags : SendFlags) (numPosArgs : Z) (args : list Expr) : bool :=
  numPosArgs + u1_of_bool (sf_hasBlock flags) <? Z.of_nat (length args).

(** The first [n] elements, if there are so many *)
Definition takeExactly {A} (n : nat) (l : list A) : option (list A) := if (n <=? length l)%nat then Some (take n l) else None.

Fixpoint pairs {A} (l : list A) : list (A * A) :=
  match l with x :: y :: l => (x, y) :: pairs l | _ => [] end.

Definition posArgs (numPosArgs : Z) (args : list Expr) : option (list Expr) := takeExactly (Z.to_nat numPosArgs) args.

Definition kwArgPairs (flags : SendFlags) (numPosArgs : Z) (args : list Expr) : option (list (Expr * Expr)) :=
  pairs <$> takeExactly (Z.to_nat (numKwArgs (Z.of_nat (length args)) numPosArgs (sf_hasBlock flags) * 2)) (drop (Z.to_nat numPosArgs) args).

Definition kwSplat (flags : SendFlags) (numPosArgs : Z) (args : list Expr) : option (option Expr) :=
  if hasKwSplat (Z.of_nat (length args)) numPosArgs (sf_hasBlock flags)
  then Some <$> args !! (length args - 1 - (if sf_hasBlock flags then 1 else 0))%nat
  else Some None.

(** [Send::block]: [Some None] is the null pointer. *)
Definition sendBlock (flags : SendFlags) (args : list Expr) : option (option (LocOffsets * list Expr * Expr)) :=
  if sf_hasBlock flags then
    match last args with
    | Some (Block loc params body) => Some (Some (loc, params, body))
    | _ => None
    end
  else Some None.

(** ** The walk *)

Section Builder.
(** [ctx.state], the file, [ctx.owner], and whether errors about undeclared variables are shown *)
Context (wn : CfgNames) (gs : Symbolic) (file : File) (fileRef : Z) (owner : Z) (reportUndeclared : bool).

(** *** Globals and fields *)

Definition set_alias (what : Z) (o : LocalOccurrence) : bld unit := fun st =>
  inr (tt, mkBuilderState (bs_cfg st) (<[what := o]> (bs_aliases st)) (bs_undeclared st) (bs_temporaryCounter st) (bs_errors st)).

Definition set_undeclared (name : Z) (o : LocalOccurrence) : bld unit := fun st =>
  inr (tt, mkBuilderState (bs_cfg st) (bs_aliases st) (<[name := o]> (bs_undeclared st)) (bs_temporaryCounter st) (bs_errors st)).

Definition findAlias (what : Z) : bld LocalOccurrence := fun st =>
  inr (default (synthetic noVariable) (bs_aliases st !! what), st).

Definition findUndeclared (name : Z) : bld (option LocalOccurrence) := fun st => inr (bs_undeclared st !! name, st).

Definition global2Local (what : Z) (loc : LocOffsets) : bld nat :=
  name ← lift BadInput (symbolName gs what);
  if what =? stubModule then newTemporary name
  else
    alias ← findAlias what;
    if local_exists (lo_variable alias) then mret (lo_variable alias)
    else
      v ← newTemporary name;
      _ ← set_alias what (mkLocalOccurrence v loc);
      mret v.

(** [SymbolRef::enclosingClass] *)
Definition enclosingClass (sym : Z) : option Z :=
  match symbolKind sym with
  | Some KClassOrModule => Some (symbolIndex sym)
  | Some KMethod => me_owner <$> methodData gs (symbolIndex sym)
  | Some KFieldOrStaticField => fi_owner <$> fieldData gs (symbolIndex sym)
  | Some KTypeParameter =>
      tp ← typeParameterData gs (symbolIndex sym); m ← methodData gs (symbolIndex (tp_owner tp)); Some (me_owner m)
  | Some KTypeMember => tp ← typeMemberData gs (symbolIndex sym); Some (symbolIndex (tp_owner tp))
  | None => None
  end.

(** The loop over attached classes; a chain longer than the number of classes does not end. *)
Fixpoint attachedRoot (fuel : nat) (klass : Z) : option Z :=
  attached ← attachedClass gs klass;
  if attached =? 0 then Some klass
  else match fuel with O => None | S fuel => attachedRoot fuel attached end.

(** The class in which a field is looked up; locals have been removed by the namer. *)
Definition identClass (kind : IdentKind) : bld Z :=
  match kind with
  | IdentClass =>
      klass ← lift BadInput (enclosingClass owner);
      lift BadInput (attachedRoot (length (classAndModules (sy_table gs))) klass)
  | IdentInstance => o ← lift BadInput (symbolOwner gs owner); mret (symbolIndex o)
  | IdentGlobal => mret root
  | IdentLocal => stopWith Raised
  end.

Definition unresolvedIdent2Local (loc : LocOffsets) (kind : IdentKind) (name : Z) (isAssign : bool) : bld (nat * bool) :=
  klass ← identClass kind;
  sym ← lift Raised (findMemberTransitive gs klass name);
  if symbol_exists sym then v ← global2Local sym loc; mret (v, false)
  else
    let hasError := negb (match kind with IdentGlobal => true | _ => false end) && negb (name =? n_ivarNameMissing wn)
                    && negb (name =? n_cvarNameMissing wn) in
    fnd ← findUndeclared name;
    match fnd with
    | Some o => mret (lo_variable o, hasError && isAssign)
    | None =>
        _ ← (if hasError && negb isAssign then report loc UndeclaredVariable else mret tt);
        ret ← newTemporary name;
        _ ← set_undeclared name (mkLocalOccurrence ret loc);
        mret (ret, hasError && isAssign)
    end.

(** *** Special calls *)

Definition sendRecvIsT (recv : Expr) : bool :=
  match constantSymbol recv with Some sym => sym =? classT | None => false end.

Definition isKernelLambda (fun_ : Z) (recv : Expr) : bool :=
  if negb (fun_ =? n_lambda wn) && negb (fun_ =? n_lambdaTLet wn) then false
  else match constantSymbol recv with Some sym => sym =? classKernel | None => false end.

(** [NameRef::isAnyStaticInitName] *)
Definition isAnyStaticInitName (name : Z) : option bool :=
  if name =? n_staticInit (sy_wk gs) then Some true
  else match nameKind name with
       | Some UNIQUE => u ← dataUnique (sy_names gs) name; Some (un_original u =? n_staticInit (sy_wk gs))
       | _ => Some false
       end.

(** The last type parameter with the name, or 0 *)
Definition findTypeParameter (name : Z) (params : list Z) : option Z :=
  foldM (fun found it => tp ← typeParameterData gs it; Some (if tp_name tp =? name then it else found)) 0 params.

Definition literalSymbol (e : Expr) : option (LocOffsets * Z) :=
  match e with Literal loc (NamedLiteralType LitSymbol name) => Some (loc, name) | _ => None end.

(** [None] is the null pointer. *)
Definition maybeMakeTypeParameterAlias (loc : LocOffsets) (numPosArgs : Z) (args : list Expr) : bld (option Insn.Instruction) :=
  c ← getCFG;
  method ← lift BadInput (methodData gs (cfg_symbol c));
  if negb (mf_isGenericMethod (me_flags method)) then
    isInit ← lift BadInput (isAnyStaticInitName (me_name method));
    _ ← (if (isInit : bool) then mret tt else report loc UnknownTypeParameter);
    mret None
  else if negb (numPosArgs =? 1) then mret None
  else
    arg ← lift BadInput (args !! 0%nat);
    match literalSymbol arg with
    | None => mret None
    | Some (litLoc, symbol) =>
        typeVarName ← lift BadInput (lookupNameUnique (sy_names gs) TypeVarName symbol 1);
        if typeVarName =? 0 then _ ← report litLoc UnknownTypeParameter; mret None
        else
          typeParam ← lift BadInput (findTypeParameter typeVarName (typeParameters (me_typeParams method)));
          if typeParam =? 0 then _ ← report litLoc UnknownTypeParameter; mret None
          else mret (Some (Insn.Alias (makeSymbolRef KTypeParameter typeParam) 0))
    end.

(** The recursive call of the walk *)
Context (walk : CFGContext -> Expr -> nat -> bld nat).

Definition walkAssign (x : CFGContext) (rhs : Expr) (assignLoc : LocOffsets) (lhs : LocalOccurrence) (current : nat) : bld nat :=
  rhsCont ← walk (withTarget lhs x) rhs current;
  _ ← emplace rhsCont (cc_target x) assignLoc (Insn.Ident (lo_variable lhs));
  mret rhsCont.

(** A subexpression whose value goes to a new temporary *)
Definition walkTemp (x : CFGContext) (name : Z) (e : Expr) (current : nat) : bld (nat * nat) :=
  temp ← newTemporary name;
  current ← walk (withTarget (synthetic temp) x) e current;
  mret (current, temp).

(** A key and its value; both temporaries come first. *)
Definition walkPair (x : CFGContext) (st : nat * list (nat * LocOffsets)) (kv : Expr * Expr) : bld (nat * list (nat * LocOffsets)) :=
  let '(current, args) := st in
  keyTmp ← newTemporary (n_hashTemp wn);
  valTmp ← newTemporary (n_hashTemp wn);
  current ← walk (withTarget (synthetic keyTmp) x) kv.1 current;
  current ← walk (withTarget (synthetic valTmp) x) kv.2 current;
  mret (current, args ++ [(keyTmp, exprLoc kv.1); (valTmp, exprLoc kv.2)]).

(** An argument and its location *)
Definition walkArg (x : CFGContext) (name : Z) (locOf : Expr -> LocOffsets) (st : nat * list (nat * LocOffsets)) (e : Expr)
    : bld (nat * list (nat * LocOffsets)) :=
  let '(current, args) := st in
  '(current, temp) ← walkTemp x name e current;
  mret (current, args ++ [(temp, locOf e)]).

Definition walkHash (x : CFGContext) (loc : LocOffsets) (keys values : list Expr) (current : nat) (method : Z) : bld nat :=
  magic ← newTemporary (n_magic wn);
  if negb (length keys =? length values)%nat then stopWith BadInput
  else
    '(cur, args) ← foldB (walkPair x) (current, []) (zip keys values);
    _ ← synthesizeExpr cur (synthetic magic) noOffsets (Insn.Alias classMagic 0);
    _ ← emplace cur (cc_target x) loc
          (Insn.Send (Insn.makeSend magic loc method noOffsets (2 * Z.of_nat (length keys)) false args));
    mret cur.

Definition walkEmptyTreeInIf (x : CFGContext) (nilLoc : LocOffsets) (current : nat) : bld nat :=
  _ ← synthesizeExpr current (cc_target x) nilLoc (Insn.Literal nilClass);
  mret current.

Definition walkBlockReturn (x : CFGContext) (loc : LocOffsets) (expr : Expr) (current : nat) : bld nat :=
  '(afterNext, exprSym) ← walkTemp x (n_nextTemp wn) expr current;
  afterDead ← isDead afterNext;
  _ ← (if negb afterDead && cc_isInsideRubyBlock x then
         dead ← newTemporary (n_nextTemp wn);
         emplace afterNext (synthetic dead) loc (Insn.BlockReturn (cc_link x) (useSite exprSym (exprLoc expr)))
       else mret tt);
  db ← deadBlockOf;
  _ ← match cc_nextScope x with
      | None => _ ← report loc NoNextScope; unconditionalJump afterNext db loc
      | Some scope => unconditionalJump afterNext scope loc
      end;
  mret db.

Definition isVariable (e : Expr) : bool :=
  match e with Local _ _ _ | UnresolvedIdent _ _ _ | Self _ => true | _ => false end.

(** The check of [new] on an abstract class; it only reports. *)
Definition checkAbstractNew (loc : LocOffsets) (recv : Expr) : bld unit :=
  match constantSymbol recv with
  | None => mret tt
  | Some symbol =>
      if negb (symbol_exists symbol) || negb (isClassOrModule symbol) then mret tt
      else
        data ← lift BadInput (classData gs (symbolIndex symbol));
        if negb (cf_isAbstract (cm_flags data)) then mret tt
        else
          singletonClass ← lift BadInput (lookupSingletonClass gs (symbolIndex symbol));
          if singletonClass =? 0 then mret tt
          else
            method_new ← lift Raised (findMethodTransitive gs singletonClass (n_new wn));
            m ← lift BadInput (methodData gs method_new);
            if me_owner m =? classClass then report loc AbstractClassInstantiated else mret tt
  end.

(** [None] is the null pointer: the call is not special. *)
Definition handleSpecialMethods (x : CFGContext) (current : nat) (loc : LocOffsets) (fun_ : Z) (flags : SendFlags)
    (numPosArgs : Z) (recv : Expr) (args : list Expr) : bld (option nat) :=
  if fun_ =? n_absurd wn then
    if negb (sendRecvIsT recv) then mret None
    else if hasKwArgs flags numPosArgs args then _ ← report loc MalformedTAbsurd; mret (Some current)
    else if negb (numPosArgs =? 1) then _ ← report loc MalformedTAbsurd; mret (Some current)
    else
      posArg0 ← lift BadInput (args !! 0%nat);
      if negb (isVariable posArg0) then _ ← report loc MalformedTAbsurd; mret (Some current)
      else
        '(current, temp) ← walkTemp x (n_statTemp wn) posArg0 current;
        _ ← emplace current (cc_target x) loc (Insn.TAbsurd (useSite temp noOffsets));
        mret (Some current)
  else if fun_ =? n_typeParameter wn then
    if negb (sendRecvIsT recv) then mret None
    else
      insn ← maybeMakeTypeParameterAlias loc numPosArgs args;
      match insn with
      | Some i => _ ← emplace current (cc_target x) loc i; mret (Some current)
      | None => mret None
      end
  else if fun_ =? n_new wn then _ ← checkAbstractNew loc recv; mret None
  else mret None.

Definition joinBlocks (x : CFGContext) (a b : nat) : bld nat :=
  join ← freshB (cc_loops x);
  _ ← unconditionalJump a join noOffsets;
  _ ← unconditionalJump b join noOffsets;
  mret join.

Definition hasType (t : TypePtr) : bool := match t with NullType => false | _ => true end.

Definition walkDefault (x : CFGContext) (paramIndex : Z) (paramInfo : ParamInfo) (paramLoc : LocOffsets) (def : Expr)
    (presentCont : nat) (defaultCont : option nat) : bld (nat * nat * nat) :=
  let defLoc := exprLoc def in
  presentNext ← freshB (cc_loops x);
  defaultNext ← freshB (cc_loops x);
  present ← newTemporary (n_argPresent wn);
  c ← getCFG;
  _ ← synthesizeExpr presentCont (synthetic present) paramLoc (Insn.ArgPresent (cfg_symbol c) paramIndex);
  _ ← conditionalJump presentCont present presentNext defaultNext paramLoc;
  _ ← match defaultCont with
      | Some d => unconditionalJump d defaultNext noOffsets
      | None => mret tt
      end;
  '(defaultNext, result) ← walkTemp x (n_statTemp wn) def defaultNext;
  _ ← (if hasType (pi_type paramInfo) then
         tmp ← newTemporary (n_castTemp wn);
         _ ← synthesizeExpr defaultNext (synthetic tmp) defLoc
               (Insn.Cast (useSite result defLoc) defLoc (pi_type paramInfo) (n_let wn));
         setMinLoop tmp MIN_LOOP_LET
       else mret tt);
  mret (result, presentNext, defaultNext).

Definition buildExceptionHandler (x : CFGContext) (ex : Expr) (caseBody exceptionValue rescueHandlersBlock : nat) : bld nat :=
  let loc := exprLoc ex in
  '(rescueHandlersBlock, exceptionClass) ← walkTemp x (n_exceptionClassTemp wn) ex rescueHandlersBlock;
  isaCheck ← newTemporary (n_isaCheckTemp wn);
  _ ← emplace rescueHandlersBlock (synthetic isaCheck) loc
        (Insn.Send (Insn.makeSend exceptionClass loc (n_tripleEq wn) (offsets_copyWithZeroLength loc) 1 false
                      [(exceptionValue, loc)]));
  otherHandlerBlock ← freshB (cc_loops x);
  _ ← conditionalJump rescueHandlersBlock isaCheck caseBody otherHandlerBlock loc;
  mret otherHandlerBlock.

(** *** The cases of [walk] *)

Definition walkWhile (x : CFGContext) (loc : LocOffsets) (cond body : Expr) (current : nat) : bld nat :=
  headerBlock ← freshB (cc_loops x + 1);
  breakNotCalledBlock ← freshB (cc_loops x);
  continueBlock ← freshB (cc_loops x);
  _ ← unconditionalJump current headerBlock loc;
  condSym ← newTemporary (n_whileTemp wn);
  headerEnd ← walk (withLoopScope headerBlock continueBlock false (withTarget (synthetic condSym) x)) cond headerBlock;
  bodyBlock ← freshB (cc_loops x + 1);
  _ ← conditionalJump headerEnd condSym bodyBlock breakNotCalledBlock (exprLoc cond);
  bodySym ← newTemporary (n_statTemp wn);
  body ← walk (withLoopBreakTarget (lo_variable (cc_target x))
                 (withLoopScope headerBlock continueBlock false (withTarget (synthetic bodySym) x))) body bodyBlock;
  _ ← unconditionalJump body headerBlock loc;
  _ ← synthesizeExpr breakNotCalledBlock (cc_target x) loc (Insn.Literal nilClass);
  _ ← unconditionalJump breakNotCalledBlock continueBlock loc;
  mret continueBlock.

Definition walkReturn (x : CFGContext) (loc : LocOffsets) (expr : Expr) (current : nat) : bld nat :=
  if cc_isInsideLambda x then walkBlockReturn x loc expr current
  else
    '(cont, retSym) ← walkTemp x (n_returnTemp wn) expr current;
    _ ← emplace cont (cc_target x) loc (Insn.Return (useSite retSym (exprLoc expr)) (exprLoc expr));
    _ ← jumpToDead cont loc;
    deadBlockOf.

Definition walkBranch (x : CFGContext) (loc : LocOffsets) (e : Expr) (b : nat) : bld nat :=
  if isEmptyTree e then walkEmptyTreeInIf x loc b else walk x e b.

Definition walkIf (x : CFGContext) (loc : LocOffsets) (cond thenp elsep : Expr) (current : nat) : bld nat :=
  '(cont, ifSym) ← walkTemp x (n_ifTemp wn) cond current;
  thenBlock ← freshB (cc_loops x);
  elseBlock ← freshB (cc_loops x);
  _ ← conditionalJump cont ifSym thenBlock elseBlock (exprLoc cond);
  thenEnd ← walkBranch x loc thenp thenBlock;
  elseEnd ← walkBranch x loc elsep elseBlock;
  thenDead ← isDead thenEnd;
  elseDead ← isDead elseEnd;
  if (thenDead : bool) then (if (elseDead : bool) then deadBlockOf else mret elseEnd)
  else if (elseDead : bool) then mret thenEnd
  else
    ret ← freshB (cc_loops x);
    _ ← unconditionalJump thenEnd ret loc;
    _ ← unconditionalJump elseEnd ret loc;
    mret ret.

Definition walkIdent (x : CFGContext) (loc : LocOffsets) (kind : IdentKind) (name : Z) (current : nat) : bld nat :=
  '(v, _) ← unresolvedIdent2Local loc kind name false;
  _ ← emplace current (cc_target x) loc (Insn.Ident v);
  mret current.

(** [scope] is the scope of the original literal, if there is one. *)
Definition walkConstant (x : CFGContext) (loc : LocOffsets) (sym : Z) (scope : option Expr) (current : nat) : bld nat :=
  aliasName ← newTemporary (n_cfgAlias wn);
  _ ← emplace current (synthetic aliasName) loc (Insn.Alias (if sym =? stubModule then classSymbol untypedClass else sym) 0);
  _ ← synthesizeExpr current (cc_target x) loc (Insn.Ident aliasName);
  match scope with
  | Some e =>
      if isConstantLit e || isSend e then '(current, _) ← walkTemp x (n_keepForIde wn) e current; mret current
      else mret current
  | None => mret current
  end.

Definition walkLocal (x : CFGContext) (loc : LocOffsets) (v : LocalVariable) (current : nat) : bld nat :=
  v ← enterLocalB v;
  _ ← emplace current (cc_target x) loc (Insn.Ident v);
  mret current.

(** The name of the kind of field, for the suggestion *)
Definition fieldKindOf (kind : IdentKind) : bld Z :=
  match kind with
  | IdentClass => mret (n_class wn)
  | _ =>
      o ← lift BadInput (symbolOwner gs owner);
      isSingleton ← lift BadInput (isSingletonClass gs (symbolIndex o));
      mret (if (isSingleton : bool) then n_singletonClassInstance wn else n_instance wn)
  end.

(** An assignment to an undeclared field, as a call of [suggestFieldType] *)
Definition walkUndeclaredAssign (x : CFGContext) (loc lhsLoc : LocOffsets) (kind : IdentKind) (name : Z) (rhs : Expr)
    (lhs : nat) (current : nat) : bld nat :=
  fieldKind ← fieldKindOf kind;
  let zeroLoc := offsets_copyWithZeroLength loc in
  '(current, recvTemp) ← walkTemp x (n_statTemp wn) (KnownConstantLit zeroLoc classMagic) current;
  '(current, rhsTemp) ← walkTemp x (n_statTemp wn) rhs current;
  '(current, fieldKindTemp) ← walkTemp x (n_statTemp wn) (Literal zeroLoc (NamedLiteralType LitString fieldKind)) current;
  ownerTemp ← newTemporary (n_statTemp wn);
  method ← lift BadInput (methodData gs (symbolIndex owner));
  current ← walk (withTarget (synthetic ownerTemp) x) (Literal zeroLoc (NamedLiteralType LitString (me_name method))) current;
  '(current, identTemp) ← walkTemp x (n_statTemp wn) (Literal zeroLoc (NamedLiteralType LitSymbol name)) current;
  _ ← emplace current (mkLocalOccurrence lhs lhsLoc) lhsLoc
        (Insn.Send (Insn.makeSend recvTemp zeroLoc (n_suggestFieldType wn) zeroLoc 4 true
                      [(rhsTemp, exprLoc rhs); (fieldKindTemp, zeroLoc); (ownerTemp, zeroLoc); (identTemp, zeroLoc)]));
  _ ← emplace current (cc_target x) loc (Insn.Ident lhs);
  mret current.

Definition walkAssignment (x : CFGContext) (loc : LocOffsets) (lhs rhs : Expr) (current : nat) : bld nat :=
  match constantSymbol lhs with
  | Some sym => v ← global2Local sym (exprLoc lhs); walkAssign x rhs loc (mkLocalOccurrence v (exprLoc lhs)) current
  | None =>
      match lhs with
      | Local _ name unique =>
          v ← enterLocalB (mkLocalVariable name unique);
          walkAssign x rhs loc (mkLocalOccurrence v (exprLoc lhs)) current
      | UnresolvedIdent identLoc kind name =>
          '(v, foundError) ← unresolvedIdent2Local identLoc kind name true;
          if negb foundError || negb reportUndeclared
          then walkAssign x rhs loc (mkLocalOccurrence v (exprLoc lhs)) current
          else walkUndeclaredAssign x loc (exprLoc lhs) kind name rhs v current
      | _ => stopWith Raised
      end
  end.

Definition walkInsSeq (x : CFGContext) (stats : list Expr) (expr : Expr) (current : nat) : bld nat :=
  current ← foldB (fun current e => '(current, _) ← walkTemp x (n_statTemp wn) e current; mret current) current stats;
  walk x expr current.

(** *** Calls *)

(** One parameter of a block: [argBlock] loads it, with a default in a block of its own. *)
Definition walkBlockParam (x : CFGContext) (bodyLoops : Z) (argTemp : nat) (argBlock : nat) (i : nat)
    (param : Expr) (arg : ParsedParam) : bld nat :=
  v ← enterLocalB (pp_local arg);
  let argLoc := mkLocalOccurrence v (pp_loc arg) in
  let load := Insn.YieldLoadArg (u16 (Z.of_nat i)) (pp_flags arg) (useSite argTemp noOffsets) in
  if pf_isRepeated (pp_flags arg) then _ ← emplace argBlock argLoc (pp_loc arg) load; mret argBlock
  else
    match param with
    | OptionalParam _ _ default_ =>
        presentBlock ← freshB bodyLoops;
        missingBlock ← freshB bodyLoops;
        present ← newTemporary (n_argPresent wn);
        _ ← synthesizeExpr argBlock (synthetic present) (pp_loc arg) (Insn.YieldParamPresent (u16 (Z.of_nat i)));
        _ ← conditionalJump argBlock present presentBlock missingBlock (pp_loc arg);
        joined ← freshB bodyLoops;
        _ ← emplace presentBlock argLoc (pp_loc arg) load;
        _ ← unconditionalJump presentBlock joined (pp_loc arg);
        missingLast ← walk (withTarget argLoc x) default_ missingBlock;
        _ ← unconditionalJump missingLast joined (pp_loc arg);
        mret joined
    | _ => _ ← emplace argBlock argLoc (pp_loc arg) load; mret argBlock
    end.

Fixpoint walkBlockParams (x : CFGContext) (bodyLoops : Z) (argTemp : nat) (argBlock : nat) (i : nat)
    (params : list (Expr * ParsedParam)) : bld nat :=
  match params with
  | [] => mret argBlock
  | (param, arg) :: params =>
      argBlock ← walkBlockParam x bodyLoops argTemp argBlock i param arg;
      walkBlockParams x bodyLoops argTemp argBlock (S i) params
  end.

Definition isLoadSelfOrArg (i : Insn.Instruction) : bool :=
  match i with Insn.LoadSelf _ _ | Insn.YieldLoadArg _ _ _ => true | _ => false end.

(** [loc.source(ctx) == text] *)
Definition sourceIs (loc : Loc) (text : str) : bld bool := s ← lift Raised (loc_source file loc); mret (bool_decide (s = Some text)).

(** The location of the implicit return of a block that ends in [last] *)
Definition blockReturnLoc (blockLoc : LocOffsets) (exprs : list Binding) : bld LocOffsets :=
  let implicit :=
    let blockEndPos := mkLoc fileRef (offsets_copyEndWithZeroLength blockLoc) in
    let endKwLoc := adjustLen file blockEndPos (-3) 3 in
    let endBraceLoc := adjustLen file blockEndPos (-1) 1 in
    isEnd ← sourceIs endKwLoc (s! "end");
    if (isEnd : bool) then mret (locOffsets endKwLoc)
    else
      isBrace ← sourceIs endBraceLoc (s! "}");
      if (isBrace : bool) then mret (locOffsets endBraceLoc) else mret blockLoc in
  match last exprs with
  | None => implicit
  | Some bind => if isLoadSelfOrArg (bd_value bind) then implicit else mret (bd_loc bind)
  end.

Definition enterLinkB (fun_ : Z) (loc : LocOffsets) (paramFlags : list ParamFlags) : bld nat :=
  onCFG (enterLink fun_ loc paramFlags).

(** A call with a block; [snd] is the call without its link. *)
Definition walkSendBlock (x : CFGContext) (loc : LocOffsets) (fun_ : Z) (recv : Expr) (snd : Insn.SendData)
    (blockLoc : LocOffsets) (params : list Expr) (body : Expr) (current : nat) : bld nat :=
  blockParamFlags ← lift BadInput (parseParams params);
  link ← enterLinkB fun_ blockLoc (pp_flags <$> blockParamFlags);
  sendTemp ← newTemporary (n_blockPreCallTemp wn);
  _ ← emplace current (synthetic sendTemp) loc (Insn.Send (Insn.withLink link snd));
  restoreSelf ← newTemporary (n_selfRestore wn);
  _ ← synthesizeExpr current (synthetic restoreSelf) noOffsets (Insn.Ident selfVariable);
  headerBlock ← freshB (cc_loops x + 1);
  solveConstraintBlock ← freshB (cc_loops x);
  postBlock ← freshB (cc_loops x);
  bodyBlock ← freshB (cc_loops x + 1);
  _ ← emplace bodyBlock (synthetic selfVariable) loc (Insn.LoadSelf link selfVariable);
  argBlock ←
    (if bool_decide (blockParamFlags = []) then mret bodyBlock
     else
       argTemp ← newTemporary (n_blkArg wn);
       _ ← emplace bodyBlock (synthetic argTemp) blockLoc (Insn.LoadYieldParams link);
       walkBlockParams x (cc_loops x + 1) argTemp bodyBlock 0 (zip params blockParamFlags));
  _ ← conditionalJump headerBlock blockCall bodyBlock solveConstraintBlock loc;
  _ ← unconditionalJump current headerBlock loc;
  blockrv ← newTemporary (n_blockReturnTemp wn);
  let newX := withSendAndBlockLink link
                (withLoopScope headerBlock postBlock true
                   (withBlockBreakTarget (lo_variable (cc_target x)) (withTarget (synthetic blockrv) x))) in
  blockLast ← walk (if isKernelLambda fun_ recv then withInsideLambda newX else newX) body argBlock;
  lastDead ← isDead blockLast;
  _ ← (if (lastDead : bool) then mret tt
       else
         dead ← newTemporary (n_blockReturnTemp wn);
         c ← getCFG;
         lastBlock ← lift BadGraph (cfg_blocks c !! blockLast);
         returnLoc ← blockReturnLoc blockLoc (bb_exprs lastBlock);
         synthesizeExpr blockLast (synthetic dead) returnLoc (Insn.BlockReturn link (useSite blockrv noOffsets)));
  _ ← unconditionalJump blockLast headerBlock loc;
  _ ← unconditionalJump solveConstraintBlock postBlock loc;
  _ ← emplace solveConstraintBlock (cc_target x) loc (Insn.SolveConstraint link sendTemp);
  _ ← synthesizeExpr postBlock (synthetic selfVariable) loc (Insn.Ident restoreSelf);
  mret postBlock.

Definition walkSend (x : CFGContext) (loc : LocOffsets) (fun_ : Z) (funLoc : LocOffsets) (flags : SendFlags) (numPosArgs : Z)
    (recv : Expr) (args : list Expr) (current : nat) : bld nat :=
  special ← handleSpecialMethods x current loc fun_ flags numPosArgs recv args;
  match special with
  | Some ret => mret ret
  | None =>
      '(current, recvTemp) ← walkTemp x (n_statTemp wn) recv current;
      pos ← lift BadInput (posArgs numPosArgs args);
      kws ← lift BadInput (kwArgPairs flags numPosArgs args);
      splat ← lift BadInput (kwSplat flags numPosArgs args);
      block ← lift BadInput (sendBlock flags args);
      '(current, sent) ← foldB (walkArg x (n_statTemp wn) exprLoc) (current, []) pos;
      '(current, sent) ← foldB (walkPair x) (current, sent) kws;
      '(current, sent) ← (match splat with
                          | Some e => walkArg x (n_statTemp wn) exprLoc (current, sent) e
                          | None => mret (current, sent)
                          end);
      if negb (numNonBlockArgs (Z.of_nat (length args)) numPosArgs (sf_hasBlock flags) =? Z.of_nat (length sent)) then stopWith BadInput
      else
        let snd := Insn.makeSend recvTemp (exprLoc recv) fun_ funLoc numPosArgs (sf_isPrivateOk flags) sent in
        match block with
        | Some (blockLoc, params, body) => walkSendBlock x loc fun_ recv snd blockLoc params body current
        | None => _ ← emplace current (cc_target x) loc (Insn.Send snd); mret current
        end
  end.

(** *** Jumps *)

Definition walkBreak (x : CFGContext) (loc : LocOffsets) (expr : Expr) (current : nat) : bld nat :=
  '(afterBreak, exprSym) ← walkTemp x (n_returnTemp wn) expr current;
  blockBreakAssign ← newTemporary (n_blockBreakAssign wn);
  _ ← emplace afterBreak (synthetic blockBreakAssign) loc (Insn.Ident exprSym);
  _ ← (if cc_breakIsJump x then mret tt
       else
         magic ← newTemporary (n_magic wn);
         ignored ← newTemporary (n_blockBreak wn);
         _ ← synthesizeExpr afterBreak (synthetic magic) loc (Insn.Alias classMagic 0);
         synthesizeExpr afterBreak (synthetic ignored) noOffsets
           (Insn.Send (Insn.makeSend magic noOffsets (n_blockBreak wn) noOffsets 1 false [(exprSym, noOffsets)])));
  _ ← emplace afterBreak (synthetic (cc_blockBreakTarget x)) loc (Insn.Ident blockBreakAssign);
  db ← deadBlockOf;
  _ ← match cc_breakScope x with
      | None => _ ← report loc NoNextScope; unconditionalJump afterBreak db loc
      | Some scope => unconditionalJump afterBreak scope loc
      end;
  mret db.

Definition walkRetry (x : CFGContext) (loc : LocOffsets) (current : nat) : bld nat :=
  db ← deadBlockOf;
  _ ← match cc_rescueScope x with
      | None => _ ← report loc NoNextScope; unconditionalJump current db loc
      | Some scope =>
          magic ← newTemporary (n_magic wn);
          _ ← synthesizeExpr current (synthetic magic) noOffsets (Insn.Alias classMagic 0);
          retryTemp ← newTemporary (n_retryTemp wn);
          _ ← synthesizeExpr current (synthetic retryTemp) noOffsets
                (Insn.Send (Insn.makeSend magic loc (n_retry wn) noOffsets 0 false []));
          unconditionalJump current scope loc
      end;
  mret db.

(** *** Exceptions *)

Definition rescueKeywordLoc (loc : LocOffsets) (rescueCases : list Expr) : LocOffsets :=
  match rescueCases with
  | front :: _ =>
      let l := exprLoc front in
      if 6 <? u32 (endLoc l - beginLoc l) then mkLocOffsets (beginLoc l) (u32 (beginLoc l + 6)) else offsets_copyWithZeroLength loc
  | [] => offsets_copyWithZeroLength loc
  end.

(** [MK::Unsafe] of a local *)
Definition unsafeLocal (loc : LocOffsets) (v : LocalVariable) : Expr :=
  Send loc (n_unsafe wn) loc (mkSendFlags false false false) 1 (KnownConstantLit loc classT) [Local loc (lv_name v) (lv_unique v)].

(** One case: the blocks of the handlers and of [ensure] *)
Definition walkRescueCase (x : CFGContext) (loc : LocOffsets) (ensure : Expr) (exceptionValue : nat) (st : nat * nat) (case : Expr)
    : bld (nat * nat) :=
  let '(rescueHandlersBlock, ensureBody) := st in
  match case with
  | RescueCase caseLoc exceptions (Local localLoc name unique) body =>
      caseBody ← freshB (cc_loops x);
      localVar ← enterLocalB (mkLocalVariable name unique);
      _ ← emplace caseBody (mkLocalOccurrence localVar localLoc) localLoc (Insn.Ident exceptionValue);
      ensureBody ←
        (if isEmptyTree ensure then mret ensureBody
         else
           c ← getCFG;
           v ← lift BadGraph (localData c exceptionValue);
           walk (withTarget (mkLocalOccurrence localVar localLoc) x) (unsafeLocal (offsets_copyWithZeroLength localLoc) v) ensureBody);
      _ ← synthesizeExpr caseBody (synthetic exceptionValue) noOffsets (Insn.Literal nilClass);
      res ← newTemporary (n_keepForCfgTemp wn);
      _ ← synthesizeExpr caseBody (synthetic res) caseLoc (Insn.KeepAlive exceptionValue);
      rescueHandlersBlock ←
        foldB (fun handlers ex => buildExceptionHandler x ex caseBody exceptionValue handlers) rescueHandlersBlock
          (match exceptions with [] => [KnownConstantLit localLoc classStandardError] | _ => exceptions end);
      caseBody ← walk x body caseBody;
      _ ← unconditionalJump caseBody ensureBody loc;
      mret (rescueHandlersBlock, ensureBody)
  | _ => stopWith BadInput
  end.

Definition walkRescue (x : CFGContext) (loc : LocOffsets) (body : Expr) (rescueCases : list Expr) (else_ ensure : Expr)
    (current : nat) : bld nat :=
  rescueHeaderBlock ← freshB (cc_loops x);
  _ ← unconditionalJump current rescueHeaderBlock loc;
  let x := withRescueScope rescueHeaderBlock x in
  rescueHandlersBlock ← freshB (cc_loops x);
  bodyBlock ← freshB (cc_loops x);
  exceptionValue ← newTemporary (n_exceptionValue wn);
  let keywordLoc := rescueKeywordLoc loc rescueCases in
  _ ← synthesizeExpr rescueHeaderBlock (synthetic exceptionValue) keywordLoc Insn.GetCurrentException;
  _ ← conditionalJump rescueHeaderBlock exceptionValue rescueHandlersBlock bodyBlock keywordLoc;
  bodyBlock ← walk x body bodyBlock;
  elseBody ← freshB (cc_loops x);
  _ ← synthesizeExpr bodyBlock (synthetic exceptionValue) keywordLoc Insn.GetCurrentException;
  _ ← conditionalJump bodyBlock exceptionValue rescueHandlersBlock elseBody keywordLoc;
  elseBody ← walk x else_ elseBody;
  ensureBody ← freshB (cc_loops x);
  _ ← unconditionalJump elseBody ensureBody loc;
  '(rescueHandlersBlock, ensureBody) ←
    foldB (walkRescueCase x loc ensure exceptionValue) (rescueHandlersBlock, ensureBody) rescueCases;
  gotoDeadTemp ← newTemporary (n_gotoDeadTemp wn);
  _ ← synthesizeExpr rescueHandlersBlock (synthetic gotoDeadTemp) loc (Insn.Literal trueClass);
  _ ← unconditionalJump rescueHandlersBlock ensureBody loc;
  '(ensureBody, _) ← walkTemp x (n_throwAwayTemp wn) ensure ensureBody;
  ret ← freshB (cc_loops x);
  db ← deadBlockOf;
  _ ← conditionalJump ensureBody gotoDeadTemp db ret loc;
  mret ret.

(** *** Data *)

Definition walkArray (x : CFGContext) (loc : LocOffsets) (elems : list Expr) (current : nat) : bld nat :=
  magic ← newTemporary (n_magic wn);
  '(current, args) ← foldB (walkArg x (n_arrayTemp wn) (fun _ => loc)) (current, []) elems;
  _ ← synthesizeExpr current (synthetic magic) noOffsets (Insn.Alias classMagic 0);
  _ ← emplace current (cc_target x) loc
        (Insn.Send (Insn.makeSend magic loc (n_buildArray wn) noOffsets (Z.of_nat (length elems)) false args));
  mret current.

Definition isSelf (e : Expr) : bool := match e with Self _ => true | _ => false end.

(** [T.bind]: the type of self changes, also at the start of a [retry]. *)
Definition walkBind (x : CFGContext) (loc : LocOffsets) (isSynthetic : bool) (type : TypePtr) (arg : Expr) (tmp current : nat) : bld unit :=
  if isSelf arg then
    let self := Insn.Cast (useSite tmp (exprLoc arg)) (exprLoc arg) type (n_cast wn) in
    _ ← (if isSynthetic then synthesizeExpr current (synthetic selfVariable) loc self
         else emplace current (synthetic selfVariable) loc self);
    _ ← emplace current (cc_target x) loc (Insn.Ident selfVariable);
    match cc_rescueScope x with
    | Some scope =>
        _ ← emplace scope (synthetic selfVariable) loc self;
        emplace scope (cc_target x) loc (Insn.Ident selfVariable)
    | None => mret tt
    end
  else report loc MalformedTBind.

Definition walkCast (x : CFGContext) (loc : LocOffsets) (cast : Z) (type : TypePtr) (arg typeExpr : Expr) (current : nat) : bld nat :=
  current ←
    (if isEmptyTree typeExpr then mret current
     else
       '(current, deadSym) ← walkTemp x (n_keepForIde wn) typeExpr current;
       _ ← emplace current (synthetic deadSym) noOffsets (Insn.KeepAlive deadSym);
       mret current);
  '(current, tmp) ← walkTemp x (n_castTemp wn) arg current;
  _ ← (if cast =? n_uncheckedLet wn then emplace current (cc_target x) loc (Insn.Ident tmp)
       else if (cast =? n_bind wn) || (cast =? n_syntheticBind wn)
       then walkBind x loc (cast =? n_syntheticBind wn) type arg tmp current
       else emplace current (cc_target x) loc (Insn.Cast (useSite tmp (exprLoc arg)) (exprLoc arg) type cast));
  _ ← (if cast =? n_let wn then setMinLoop (lo_variable (cc_target x)) MIN_LOOP_LET else mret tt);
  mret current.

(** *** All nodes *)

Definition walkNode (x : CFGContext) (what : Expr) (current : nat) : bld nat :=
  match what with
  | While loc cond body => walkWhile x loc cond body current
  | Return loc expr => walkReturn x loc expr current
  | If loc cond thenp elsep => walkIf x loc cond thenp elsep current
  | Literal loc value => _ ← emplace current (cc_target x) loc (Insn.Literal value); mret current
  | UnresolvedIdent loc kind name => walkIdent x loc kind name current
  | UnresolvedConstantLit _ _ _ => stopWith Raised
  | KnownConstantLit loc sym => walkConstant x loc sym None current
  | ResolvedConstantLit sym loc _ scope => walkConstant x loc sym (Some scope) current
  | FailedConstantLit _ loc _ scope => walkConstant x loc stubModule (Some scope) current
  | Local loc name unique => walkLocal x loc (mkLocalVariable name unique) current
  | Self loc => _ ← emplace current (cc_target x) loc (Insn.Ident selfVariable); mret current
  | Assign loc lhs rhs => walkAssignment x loc lhs rhs current
  | InsSeq _ stats expr => walkInsSeq x stats expr current
  | Send loc fun_ funLoc flags numPosArgs recv args => walkSend x loc fun_ funLoc flags numPosArgs recv args current
  | Block _ _ _ => stopWith Raised
  | Next loc expr => walkBlockReturn x loc expr current
  | Break loc expr => walkBreak x loc expr current
  | Retry loc => walkRetry x loc current
  | Rescue loc body rescueCases else_ ensure => walkRescue x loc body rescueCases else_ ensure current
  | Hash loc keys values => walkHash x loc keys values current (n_buildHash wn)
  | Array loc elems => walkArray x loc elems current
  | Cast loc cast type arg typeExpr => walkCast x loc cast type arg typeExpr current
  | RuntimeMethodDefinition loc name _ =>
      _ ← emplace current (cc_target x) (offsets_copyWithZeroLength loc) (Insn.Literal (NamedLiteralType LitSymbol name));
      mret current
  | EmptyTree => mret current
  | ClassDef _ _ _ _ _ _ _ _ => mret current
  | _ => stopWith Raised
  end.
End Builder.

(** [walk] on trees of at most [fuel] nodes above one another *)
Fixpoint walk (wn : CfgNames) (gs : Symbolic) (file : File) (fileRef owner : Z) (reportUndeclared : bool) (fuel : nat)
    (x : CFGContext) (what : Expr) (current : nat) : bld nat :=
  match fuel with
  | O => stopWith OutOfFuel
  | S fuel =>
      walkNode wn gs file fileRef owner reportUndeclared (walk wn gs file fileRef owner reportUndeclared fuel) x what current
  end.

(** ** The whole method *)

Section BuildFor.
Context (wn : CfgNames) (gs : Symbolic) (file : File) (fileRef owner : Z) (reportUndeclared isSCIPRuby lspQueryIsEmpty : bool).
Context (fuel : nat).

#[local] Abbreviation walk := (CfgBuild.walk wn gs file fileRef owner reportUndeclared fuel).

(** [ClassOrModule::externalType], [selfTypeArgs] and [selfType] *)
Definition externalType (c : ClassOrModule) : TypePtr := if hasType (cm_resultType c) then cm_resultType c else ClassType untypedClass.

Definition selfTypeArgs (members : list Z) : option (list TypePtr) :=
  mapM (fun tm =>
    d ← typeMemberData gs tm;
    if tf_isFixed (tp_flags d) then
      match tp_resultType d with LambdaParam _ _ upperBound => Some upperBound | _ => None end
    else Some (SelfTypeParam (makeSymbolRef KTypeMember tm))) members.

Definition selfType (klass : Z) : option TypePtr :=
  c ← classData gs klass;
  match typeParameters (cm_typeParams c) with
  | [] => Some (externalType c)
  | members => args ← selfTypeArgs members; Some (AppliedType klass args)
  end.

Definition startContext : CFGContext :=
  mkCFGContext (synthetic noVariable) noVariable 0 false false false None None None 0.

(** The parameters: the blocks of the paths on which the last one was given and was not *)
Definition buildParam (method : Method) (st : nat * option nat * bool * Z) (paramExpr : Expr) : bld (nat * option nat * bool * Z) :=
  let '(presentCont, defaultCont, seenKeyword, i) := st in
  '(loc, v) ← lift BadInput (arg2Local paramExpr);
  local ← enterLocalB v;
  paramInfo ← lift BadInput (me_parameters method !! Z.to_nat i);
  let f := pi_flags paramInfo in
  let seenKeyword := seenKeyword || pf_isKeyword f in
  '(presentCont, defaultCont) ←
    (match defaultCont with
     | Some d =>
         if seenKeyword || pf_isBlock f || pf_isRepeated f || negb (pf_isDefault f)
         then p ← joinBlocks startContext presentCont d; mret (p, None)
         else mret (presentCont, defaultCont)
     | None => mret (presentCont, defaultCont)
     end);
  '(presentCont, defaultCont) ←
    (match paramExpr with
     | OptionalParam _ _ default_ =>
         if mf_isAbstract (me_flags method) && negb isSCIPRuby then mret (presentCont, defaultCont)
         else
           '(result, presentNext, defaultNext) ← walkDefault wn walk startContext i paramInfo loc default_ presentCont defaultCont;
           _ ← synthesizeExpr defaultNext (synthetic local) loc (Insn.Ident result);
           mret (presentNext, Some defaultNext)
     | _ => mret (presentCont, defaultCont)
     end);
  c ← getCFG;
  _ ← synthesizeExpr presentCont (synthetic local) loc (Insn.LoadArg (cfg_symbol c) i);
  mret (presentCont, defaultCont, seenKeyword, i + 1).

Definition buildParams (method : Method) (entryBB : nat) (params : list Expr) : bld nat :=
  '(presentCont, defaultCont, _, _) ← foldB (buildParam method) (entryBB, None, false, 0) params;
  match defaultCont with
  | Some d => joinBlocks startContext presentCont d
  | None => mret presentCont
  end.

Definition shouldBuildFor (what : Expr) : bool :=
  match what with
  | MethodDef _ _ _ _ _ _ _ _ | ClassDef _ _ _ _ _ _ _ _ | EmptyTree => false
  | Assign _ (UnresolvedConstantLit _ _ _) _ => false
  | _ => true
  end.

(** The statements of a class body, or the body of a method *)
Definition buildBody (retSym : nat) (stats : list Expr) (expr : Expr) (cont : nat) : bld nat :=
  match last (filter (fun e => shouldBuildFor e = true) stats) with
  | Some lastStat =>
      cont ← foldB (fun cont e => '(cont, _) ← walkTemp walk startContext (n_statTemp wn) e cont; mret cont) cont
               (removelast (filter (fun e => shouldBuildFor e = true) stats));
      CfgBuild.walk wn gs file fileRef owner reportUndeclared fuel (withTarget (synthetic retSym) startContext) lastStat cont
  | None => CfgBuild.walk wn gs file fileRef owner reportUndeclared fuel (withTarget (synthetic retSym) startContext) expr cont
  end.

Definition isLoadArg (i : Insn.Instruction) : bool := match i with Insn.LoadArg _ _ => true | _ => false end.

Definition setImplicitReturnLoc (loc : LocOffsets) : bld unit := graph (fun c => Some (set_implicitReturnLoc loc c)).

(** The return at the end of the body *)
Definition buildReturn (retSym cont : nat) : bld unit :=
  c ← getCFG;
  contBlock ← lift BadGraph (cfg_blocks c !! cont);
  let implicit :=
    let beginAdjust := offsets_length (cfg_loc c) - 3 in
    let endLoc := adjust file (mkLoc fileRef (cfg_loc c)) beginAdjust 0 in
    isEnd ← sourceIs file endLoc (s! "end");
    if (isEnd : bool) then _ ← setImplicitReturnLoc (locOffsets endLoc); mret (locOffsets endLoc)
    else mret (cfg_loc c) in
  rvLoc ← (match last (bb_exprs contBlock) with
           | None => implicit
           | Some bind => if isLoadArg (bd_value bind) then implicit else mret (bd_loc bind)
           end);
  _ ← synthesizeExpr cont (synthetic finalReturn) rvLoc (Insn.Return (useSite retSym rvLoc) rvLoc);
  jumpToDead cont rvLoc.

(** Bindings in increasing order of their variable *)
Definition bindingLe : relation Binding := fun a b => (vu_variable (bd_bind a) <= vu_variable (bd_bind b))%nat.

#[export] Instance bindingLe_dec : RelDecision bindingLe.
Proof. intros a b. unfold bindingLe. apply _. Defined.

Definition aliasBinding (kv : Z * LocalOccurrence) : Binding :=
  mkBinding (useSite (lo_variable kv.2) noOffsets) (lo_loc kv.2) (Insn.Alias kv.1 0) false.

Definition undeclaredBinding (kv : Z * LocalOccurrence) : Binding :=
  mkBinding (useSite (lo_variable kv.2) noOffsets) (lo_loc kv.2) (Insn.Alias undeclaredFieldStub kv.1) false.

Definition isFieldOrStaticField (sym : Z) : bool := bool_decide (symbolKind sym = Some KFieldOrStaticField).

(** The aliases of globals at the start of the entry; a variable belongs to one symbol, so the order of
    the tables does not matter. *)
Definition buildAliasesOf (aliases undeclared : list (Z * LocalOccurrence)) (entryBB : nat) : bld unit :=
  _ ← foldB (fun _ kv => if isFieldOrStaticField kv.1 then setMinLoop (lo_variable kv.2) MIN_LOOP_FIELD else mret tt) tt aliases;
  _ ← foldB (fun _ kv => setMinLoop (lo_variable kv.2) MIN_LOOP_FIELD) tt undeclared;
  let prefix := merge_sort bindingLe ((aliasBinding <$> aliases) ++ (undeclaredBinding <$> undeclared)) in
  graph (updateBlock entryBB (fun bb => set_exprs (prefix ++ bb_exprs bb) bb)).

Definition buildAliases (entryBB : nat) : bld unit := fun st =>
  buildAliasesOf (map_to_list (bs_aliases st)) (map_to_list (bs_undeclared st)) entryBB st.

(** Everything up to the first [sanityCheck] *)
Definition buildGraph (params stats : list Expr) (expr : Expr) : bld unit :=
  c ← getCFG;
  entryBB ← lift BadGraph (entry c);
  retSym ← newTemporary (n_returnMethodTemp wn);
  method ← lift BadInput (methodData gs (cfg_symbol c));
  let selfClaz := if me_rebind method =? 0 then me_owner method else me_rebind method in
  type ← lift BadInput (selfType selfClaz);
  let zeroLoc := offsets_copyWithZeroLength (cfg_declLoc c) in
  _ ← synthesizeExpr entryBB (synthetic selfVariable) zeroLoc (Insn.Cast (useSite selfVariable zeroLoc) zeroLoc type (n_cast wn));
  cont ← buildParams method entryBB params;
  cont ← buildBody retSym stats expr cont;
  _ ← buildReturn retSym cont;
  buildAliases entryBB.

(** The passes that finish the graph *)
Definition finishGraph (c : CFG) : option CFG :=
  c ← fillInTopoSorts c;
  c ← dealiasPass wn isSCIPRuby c;
  RnW ← findAllReadsAndWrites wn c;
  c ← computeMinMaxLoops RnW c;
  '(c, blockArgs) ← fillInBlockArguments RnW c;
  removeDeadAssigns wn lspQueryIsEmpty RnW blockArgs c.

(** The end of [buildFor]: the passes, then simplification and the marks of the loop headers. The sanity
    checks that follow are made in debug builds only. *)
Definition finishBuild (simplifyFuel : nat) (c : CFG) : option CFG :=
  c ← finishGraph c;
  c ← simplify simplifyFuel c;
  markLoopHeaders c.

Definition startState (symbol : Z) (loc declLoc : LocOffsets) : BuilderState :=
  let c := newCFG wn in
  mkBuilderState
    (mkCFG symbol (maxBasicBlockId c) loc declLoc (cfg_blocks c) (basicBlocks c) (implicitReturnLoc c) (forwardsTopoSort c)
       (minLoops c) (maxLoopWrite c) (localVariables c) (localVariableToLocalRef c) (links c))
    ∅ ∅ 1 [].

(** [buildFor] of a method: the graph before the finishing passes *)
Definition buildForMethod (md : Expr) : Stop + (unit * BuilderState) :=
  match md with
  | MethodDef loc declLoc _ symbol rhs params _ _ =>
      match dealias gs (makeSymbolRef KMethod symbol) with
      | Some sym => buildGraph params [] rhs (startState (symbolIndex sym) loc declLoc)
      | None => inl BadInput
      end
  | _ => inl BadInput
  end.

(** [buildFor] of a class, for its static initializer *)
Definition buildForClass (cd : Expr) (symbol : Z) : Stop + (unit * BuilderState) :=
  match cd with
  | ClassDef loc declLoc _ _ rhs _ _ _ =>
      buildGraph [Local noOffsets (n_blkArg wn) 0] rhs EmptyTree (startState symbol loc declLoc)
  | _ => inl BadInput
  end.
End BuildFor.
