(* ===== verification/NamerMethods.v ===== *)
(** * Definition of methods in the namer

    Models the part of src/namer/namer.cc that enters the methods found in a file ([defineMethod], [insertMethod],
    [modifyMethod] and what they call), and [hashParams] of src/ast/ParamParsing.cc, by which the namer finds a method
    again that it has entered before. The texts of the error messages are left out, their conditions are kept. *)

From S2P Require Import Prelude Pickler FileHash Files Locs Types NameTable NameText Symbols SymbolRefs Ast Cfg CfgBuild SymbolEntry.

#[local] Open Scope Z_scope.

(** Names and symbols that the build generates *)
Record NamerNames := mkNamerNames {
  nn_implicitYield : Z; nn_fwdKwargs : Z; nn_kwargs : Z; nn_blkArg : Z; nn_arg : Z; nn_initialize : Z;
  nn_private : Z; nn_privateClassMethod : Z; nn_packagePrivate : Z; nn_packagePrivateClassMethod : Z;
  nn_protected : Z; nn_public : Z; nn_publicClassMethod : Z; sym_Object : Z }.

(** [FoundMethod], without the scope it was found in *)
Record FoundMethod := mkFoundMethod {
  fdm_name : Z; fdm_loc : LocOffsets; fdm_declLoc : LocOffsets; fdm_nameLoc : LocOffsets;
  fdm_parsedParams : list ParsedParam; fdm_arityHash : Z; fdm_flags : MethodDefFlags }.

Section Namer.
Context (nn : NamerNames) (hashString : str -> Z).

(** ** The hash of the shape of a method *)

Definition hashParam (nt : NameTable) (result : Z) (e : ParsedParam) : option Z :=
  let name := lv_name (pp_local e) in
  result ← (if pf_isKeyword (pp_flags e) then
              s ← shortName nt (if pf_isRepeated (pp_flags e) && negb (name =? nn_fwdKwargs nn) then nn_kwargs nn else name);
              Some (mix result (hashString s))
            else Some result);
  Some (mix result (ParamFlags_toU1 (pp_flags e))).

Definition hashParams (nt : NameTable) (params : list ParsedParam) : option Z :=
  arityHash <$> foldM (hashParam nt) (mix 0 (u32 (vsize params))) params.

(** ** Owners *)

Definition methodOwner (gs : GlobalState) (owner : Z) (isSelfMethod : bool) : option Z :=
  enclosing ← enclosingClass (g_symbols gs) owner;
  let enclosing := if enclosing =? root then sym_Object nn else enclosing in
  if isSelfMethod then lookupSingletonClass (g_symbols gs) enclosing else Some enclosing.

Definition isIntrinsic (m : Method) : bool := hasIntrinsic m && negb (hasSig m).

(** ** Parameters *)

Section Context_.
Context (file : Z).

(** [ctx.locAt(loc)] *)
Definition locAt (loc : LocOffsets) : Loc := mkLoc file loc.

Definition set_paramFlags flags (p : ParamInfo) : ParamInfo := mkParamInfo (pi_name p) (pi_rebind p) (pi_loc p) flags (pi_type p).

(** The name under which a parameter is entered *)
Definition paramName (pos : nat) (param : ParsedParam) (gs : GlobalState) : option (Z * GlobalState) :=
  let local := lv_name (pp_local param) in
  if pf_isKeyword (pp_flags param) then
    Some (if pf_isRepeated (pp_flags param) then if local =? nn_fwdKwargs nn then nn_fwdKwargs nn else nn_kwargs nn else local, gs)
  else if pf_isBlock (pp_flags param) then Some (nn_blkArg nn, gs)
  else '(name, nt) ← freshNameUnique (nametable gs) PositionalArg (nn_arg nn) (Z.of_nat pos + 1); Some (name, set_names nt gs).

Definition paramLoc (param : ParsedParam) : LocOffsets :=
  if negb (pf_isKeyword (pp_flags param)) && pf_isBlock (pp_flags param) && (lv_name (pp_local param) =? nn_implicitYield nn)
  then noOffsets else pp_loc param.

Definition defineArg (method : Z) (pos : nat) (param : ParsedParam) (gs : GlobalState) : option GlobalState :=
  m ← methodData (g_symbols gs) method;
  if (pos <? length (me_parameters m))%nat then
    if offsets_exists (pp_loc param) && negb (lv_name (pp_local param) =? nn_implicitYield nn)
    then setParameter method pos (set_paramLoc (locAt (pp_loc param))) gs
    else Some gs
  else
    '(name, gs) ← paramName pos param gs;
    '(i, gs) ← enterMethodParameter (locAt (paramLoc param)) method name gs;
    setParameter method i (set_paramFlags (pp_flags param)) gs.

(** What a moved [ParamInfo] leaves behind: only the type is emptied. *)
Definition movedParam (p : ParamInfo) : ParamInfo := mkParamInfo (pi_name p) (pi_rebind p) (pi_loc p) (pi_flags p) NullType.

(** One parameter; [swapped] is the block parameter of an intrinsic method that is filled in. *)
Definition defineNextArg (method : Z) (st : option ParamInfo * GlobalState) (arg : nat * ParsedParam)
    : option (option ParamInfo * GlobalState) :=
  let '(swapped, gs) := st in
  let '(i, param) := arg in
  if pf_isShadow (pp_flags param) then Some (swapped, gs)
  else
    '(swapped, gs) ← match swapped with
                     | Some p =>
                         if pf_isBlock (pp_flags param) then
                           gs ← updateMethod method (fun m => set_parameters (me_parameters m ++ [p]) m) gs; Some (Some (movedParam p), gs)
                         else Some (swapped, gs)
                     | None => Some (swapped, gs)
                     end;
    gs ← defineArg method i param gs;
    Some (swapped, gs).

Definition defineArgs (method : Z) (params : list ParsedParam) (gs : GlobalState) : option GlobalState :=
  m ← methodData (g_symbols gs) method;
  let swapped := if isIntrinsic m then match me_parameters m with [p] => Some p | _ => None end else None in
  gs ← match swapped with Some _ => updateMethod method (set_parameters []) gs | None => Some gs end;
  snd <$> foldM (defineNextArg method) (swapped, gs) (imap pair params).

(** ** Redefinition *)

Definition paramMatches (methodParam : ParsedParam) (symParam : ParamInfo) : bool :=
  Bool.eqb (pf_isKeyword (pi_flags symParam)) (pf_isKeyword (pp_flags methodParam)) &&
  Bool.eqb (pf_isBlock (pi_flags symParam)) (pf_isBlock (pp_flags methodParam)) &&
  Bool.eqb (pf_isRepeated (pi_flags symParam)) (pf_isRepeated (pp_flags methodParam)) &&
  (negb (pf_isKeyword (pi_flags symParam)) || (pi_name symParam =? lv_name (pp_local methodParam))).

Definition paramsMatch (gs : GlobalState) (method : Z) (params : list ParsedParam) : option bool :=
  sym ← dealias (g_symbols gs) (makeSymbolRef KMethod method);
  m ← methodData (g_symbols gs) (symbolIndex sym);
  Some ((length params =? length (me_parameters m))%nat &&
        forallb (fun p => paramMatches p.1 p.2) (zip params (me_parameters m))).

(** The errors about a method that is defined again with other parameters *)
Inductive RedefinitionError :=
| ArgumentCount (isAlias : bool) (expected got : Z)
| KeywordMismatch (argument : Z) (isKeyword : bool)
| SplatMismatch (argument : Z) (isRepeated : bool)
| KeywordName (expected got : Z).

(** The loop returns at the first error. *)
Fixpoint firstMismatch (params : list ParsedParam) (symParams : list ParamInfo) : option RedefinitionError :=
  match params, symParams with
  | methodParam :: params, symParam :: symParams =>
      let local := lv_name (pp_local methodParam) in
      if negb (Bool.eqb (pf_isKeyword (pi_flags symParam)) (pf_isKeyword (pp_flags methodParam)))
      then Some (KeywordMismatch local (pf_isKeyword (pp_flags methodParam)))
      else if negb (Bool.eqb (pf_isRepeated (pi_flags symParam)) (pf_isRepeated (pp_flags methodParam)))
      then Some (SplatMismatch local (pf_isRepeated (pp_flags methodParam)))
      else if pf_isKeyword (pi_flags symParam) && negb (pi_name symParam =? local)
      then Some (KeywordName (pi_name symParam) local)
      else firstMismatch params symParams
  | _, _ => None
  end.

Definition paramMismatchErrors (gs : GlobalState) (owner : Z) (params : list ParsedParam) : option (option RedefinitionError) :=
  sym ← dealias (g_symbols gs) owner;
  if negb (isMethod sym) then Some None
  else
    m ← methodData (g_symbols gs) (symbolIndex sym);
    Some (if negb (length (me_parameters m) =? length params)%nat
          then Some (ArgumentCount (negb (sym =? owner)) (u64 (vsize (me_parameters m) - 1)) (u64 (vsize params - 1)))
          else firstMismatch params (me_parameters m)).

(** ** Methods *)

Definition set_methodFlags flags (m : Method) : Method :=
  mkMethod (me_nameLoc m) (me_owner m) (me_name m) (me_rebind m) flags (me_typeParams m) (me_parameters m) (me_resultType m)
    (me_intrinsicOffset m) (me_locs m).

Definition setRewriterSynthesized (f : MethodFlags) : MethodFlags :=
  mkMethodFlags true (mf_isProtected f) (mf_isPrivate f) (mf_isOverloaded f) (mf_isAbstract f) (mf_isGenericMethod f)
    (mf_isOverridable f) (mf_isFinal f) (mf_isOverride f) (mf_allowIncompatibleOverrideAll f)
    (mf_allowIncompatibleOverrideVisibility f) (mf_isPackagePrivate f).

(** Sets the bits for protected and private methods. *)
Definition setVisibility (isProtected isPrivate : bool) (f : MethodFlags) : MethodFlags :=
  mkMethodFlags (mf_isRewriterSynthesized f) isProtected isPrivate (mf_isOverloaded f) (mf_isAbstract f) (mf_isGenericMethod f)
    (mf_isOverridable f) (mf_isFinal f) (mf_isOverride f) (mf_allowIncompatibleOverrideAll f)
    (mf_allowIncompatibleOverrideVisibility f) (mf_isPackagePrivate f).

Definition setPackagePrivate (f : MethodFlags) : MethodFlags :=
  mkMethodFlags (mf_isRewriterSynthesized f) (mf_isProtected f) (mf_isPrivate f) (mf_isOverloaded f) (mf_isAbstract f)
    (mf_isGenericMethod f) (mf_isOverridable f) (mf_isFinal f) (mf_isOverride f) (mf_allowIncompatibleOverrideAll f)
    (mf_allowIncompatibleOverrideVisibility f) true.

(** The errors about a definition that replaces another one *)
Definition redefinitionErrors (gs : GlobalState) (replaced : Z) (params : list ParsedParam) : option (option RedefinitionError) :=
  m ← methodData (g_symbols gs) replaced;
  if isIntrinsic m then Some None else paramMismatchErrors gs (makeSymbolRef KMethod replaced) params.

(** The symbol of a method: a new one, the one of the same shape, or a new one after the present one was renamed *)
Definition methodSymbol (owner : Z) (method : FoundMethod) (gs : GlobalState) : option (option RedefinitionError * Z * GlobalState) :=
  let declLoc := locAt (fdm_declLoc method) in
  let nameLoc := locAt (fdm_nameLoc method) in
  let symTableSize := vsize (methods (table gs)) in
  '(sym, gs) ← enterMethodSymbol declLoc owner (fdm_name method) nameLoc gs;
  if negb (symTableSize =? vsize (methods (table gs))) then Some (None, sym, gs)
  else
    matchingSym ← lookupMethodSymbolWithHash gs owner (fdm_name method) hashString (fdm_arityHash method);
    if matchingSym =? 0 then
      errors ← redefinitionErrors gs sym (fdm_parsedParams method);
      gs ← mangleRenameMethod sym (fdm_name method) gs;
      '(sym, gs) ← enterMethodSymbol declLoc owner (fdm_name method) nameLoc gs;
      Some (errors, sym, gs)
    else
      replacedSym ← findRenamedSymbol gs owner (makeSymbolRef KMethod matchingSym);
      errors ← (if symbol_exists replacedSym then
                  b ← paramsMatch gs (symbolIndex replacedSym) (fdm_parsedParams method);
                  if (b : bool) then Some None else redefinitionErrors gs (symbolIndex replacedSym) (fdm_parsedParams method)
                else Some None);
      Some (errors, matchingSym, gs).

Definition defineMethod (ctxOwner : Z) (method : FoundMethod) (gs : GlobalState) : option (option RedefinitionError * Z * GlobalState) :=
  owner ← methodOwner gs ctxOwner (mdf_isSelfMethod (fdm_flags method));
  '(errors, sym, gs) ← methodSymbol owner method gs;
  gs ← defineArgs sym (fdm_parsedParams method) gs;
  m ← methodData (g_symbols gs) sym;
  locs ← addLoc gs (locAt (fdm_declLoc method)) (me_locs m);
  gs ← updateMethod sym (set_methodLocs locs) gs;
  gs ← (if mdf_isRewriterSynthesized (fdm_flags method) then updateMethod sym (fun m => set_methodFlags (setRewriterSynthesized (me_flags m)) m) gs
        else Some gs);
  Some (errors, sym, gs).

Definition insertMethod (ctxOwner : Z) (method : FoundMethod) (gs : GlobalState) : option (option RedefinitionError * Z * GlobalState) :=
  '(errors, symbol, gs) ← defineMethod ctxOwner method gs;
  m ← methodData (g_symbols gs) symbol;
  enclosing ← enclosingClass (g_symbols gs) ctxOwner;
  implicitlyPrivate ← (if enclosing =? root then Some true
                       else attached ← attachedClass (g_symbols gs) (me_owner m);
                            Some ((attached =? 0) && (me_name m =? nn_initialize nn)));
  gs ← updateMethod symbol (fun m => set_methodFlags
         (if (implicitlyPrivate : bool) then setVisibility (mf_isProtected (me_flags m)) true (me_flags m)
          else setVisibility false false (me_flags m)) m) gs;
  Some (errors, symbol, gs).

(** [MutableContext::selfClass] *)
Definition selfClass (en : EntryNames) (ctxOwner : Z) (gs : GlobalState) : option (Z * GlobalState) :=
  if isClassOrModule ctxOwner then singletonClass en (symbolIndex ctxOwner) gs
  else klass ← enclosingClass (g_symbols gs) ctxOwner; Some (klass, gs).

(** [private], [protected] and the like; the bool says whether the error about methods outside of packages is raised. *)
Definition modifyMethod (en : EntryNames) (ctxOwner name target : Z) (gs : GlobalState) : option (bool * GlobalState) :=
  '(owner, gs) ← (if bool_decide (name ∈ [nn_privateClassMethod nn; nn_publicClassMethod nn; nn_packagePrivateClassMethod nn])
                  then selfClass en ctxOwner gs
                  else owner ← methodOwner gs ctxOwner false; Some (owner, gs));
  found ← lookupSymbolWithKind gs owner target KMethod (makeSymbolRef KMethod 0) false;
  let method := symbolIndex found in
  if method =? 0 then Some (false, gs)
  else
    let change f := (gs ← updateMethod method (fun m => set_methodFlags (f (me_flags m)) m) gs; Some (false, gs)) in
    if bool_decide (name ∈ [nn_private nn; nn_privateClassMethod nn]) then change (fun f => setVisibility (mf_isProtected f) true f)
    else if bool_decide (name ∈ [nn_packagePrivate nn; nn_packagePrivateClassMethod nn]) then
      c ← classData (g_symbols gs) owner;
      if cm_package c =? 0 then Some (true, gs) else change setPackagePrivate
    else if name =? nn_protected nn then change (fun f => setVisibility true (mf_isPrivate f) f)
    else if bool_decide (name ∈ [nn_public nn; nn_publicClassMethod nn]) then change (setVisibility false false)
    else Some (false, gs).
End Context_.
End Namer.
