(* ===== verification/NamerParams.v ===== *)
(** * Parameters of methods in the tree and in the symbol table

    The hash of the parameters of a tree, [hashParams], agrees with the hash of the parameters that [defineArgs] enters
    for them, [methodArityHash], as the two functions promise each other in their comments. *)

From S2P Require Import Prelude Pickler FileHash Files Locs Types NameTable NameText Symbols SymbolRefs Ast Cfg CfgBuild SymbolEntry SymbolViews SymbolConsistent SymbolSample SymbolProps NamerMethods.

#[local] Open Scope Z_scope.

(** ** States that differ in one method and in names *)

Definition withMethod (sym : Z) (m : Method) (nt : NameTable) (gs : GlobalState) : GlobalState :=
  set_names nt (set_table (set_methods (<[Z.to_nat sym := m]> (methods (table gs))) (table gs)) gs).

Section WithMethod.
Context (sym : Z) (gs : GlobalState) (Hin : is_Some (methodData (g_symbols gs) sym)).

Lemma withMethod_data m nt : methodData (g_symbols (withMethod sym m nt gs)) sym = Some m.
Proof. unfold methodData. cbn. rewrite list_lookup_insert_eq; [done|]. by apply lookup_lt_is_Some. Qed.

Lemma withMethod_other m nt i : Z.to_nat i <> Z.to_nat sym ->
  methodData (g_symbols (withMethod sym m nt gs)) i = methodData (g_symbols gs) i.
Proof. intros Hne. unfold methodData. cbn. by rewrite list_lookup_insert_ne. Qed.

Lemma withMethod_update m nt f : updateMethod sym f (withMethod sym m nt gs) = Some (withMethod sym (f m) nt gs).
Proof.
  unfold updateMethod. rewrite withMethod_data. cbn [mbind option_bind]. unfold withMethod, set_table, set_methods. cbn.
  by rewrite list_insert_insert_eq.
Qed.

Lemma withMethod_names m nt nt' : set_names nt' (withMethod sym m nt gs) = withMethod sym m nt' gs.
Proof. done. Qed.

Lemma withMethod_id m : methodData (g_symbols gs) sym = Some m -> withMethod sym m (nametable gs) gs = gs.
Proof.
  unfold methodData. intros Hm. unfold withMethod, set_names, set_table, set_methods. cbn. unfold table. cbn. rewrite list_insert_id by done.
  by destruct gs as [[[] ? ?] ? ? ? ? ?].
Qed.

Lemma withMethod_same m m' nt : 0 <= sym -> methodData (g_symbols gs) sym = Some m ->
  me_owner m' = me_owner m -> me_name m' = me_name m -> me_resultType m' = me_resultType m -> me_typeParams m' = me_typeParams m ->
  SameViews (set_names nt gs) (withMethod sym m' nt gs).
Proof.
  intros Hs Hm H1 H2 H3 H4.
  split; [done|..].
  - split; [done|done|intros []; cbn; try done; unfold vsize; by rewrite length_insert|].
    intros [] j; cbn; try done. apply lookup_insert_view with m; [done|congruence].
  - done.
  - intros kd j Hj. apply aliasTarget_ext. destruct kd; cbn; try done. apply from_option_view, lookup_insert_view with m; [done|congruence].
  - intros kd j Hj. destruct kd; cbn; try done. apply from_option_view, lookup_insert_view with m; [done|congruence].
Qed.
End WithMethod.

(** ** Growth of the name table *)

Lemma grown_refl h nt : NameTable_wf h nt -> grown h nt nt.
Proof. by split. Qed.

Lemma grown_trans h nt1 nt2 nt3 : grown h nt1 nt2 -> grown h nt2 nt3 -> grown h nt1 nt3.
Proof. intros [_ H1] [Hwf H2]. split; [done|]. auto. Qed.

(** A bound on the capacities that the table can have after some more unique names were entered *)
Definition room (nt : NameTable) : Z := utf8Capacity nt + constantCapacity nt + Z.max (uniqueCapacity nt) (2 * vsize (uniqueNames nt)).

Lemma room_capacities nt : capacities nt <= room nt.
Proof. unfold room, capacities. lia. Qed.

Lemma u32_le z : 0 <= z -> u32 z <= z.
Proof. intros Hz. unfold u32. apply Z.mod_le; lia. Qed.

Lemma freshUnique_room h nt unk original num raw nt' : NameTable_wf h nt ->
  freshNameUnique nt unk original num = Some (raw, nt') -> room nt' <= room nt + 2.
Proof.
  intros Hwf E. pose proof (nt_unique _ _ Hwf). unfold freshNameUnique in E. apply bind_Some in E as (b & _ & E). apply bind_Some in E as (bk & _ & E).
  destruct (present bk); [injection E as _ <-; lia|]. apply bind_Some in E as ([nt1 b1] & E1 & [= _ <-]). unfold room, vsize in *. cbn. rewrite length_app. cbn.
  destruct (Z.eqb_spec (Z.of_nat (length (uniqueNames nt))) (uniqueCapacity nt)) as [Heq|].
  - apply bind_Some in E1 as (nt2 & E2 & E1). apply bind_Some in E1 as (b2 & _ & [= <- _]). unfold expandNames in E2.
    apply bind_Some in E2 as (bs & _ & [= <-]). cbn. pose proof (u32_le (uniqueCapacity nt * 2) ltac:(lia)). lia.
  - injection E1 as <- _. lia.
Qed.

(** A unique name, with what it takes from the room *)
Lemma fresh_grown h gs unk original num : NameTable_wf h (nametable gs) -> room (nametable gs) <= 2 ^ 29 ->
  exists raw nt, freshNameUnique (nametable gs) unk original num = Some (raw, nt) /\ grown h (nametable gs) nt /\
    (raw, NUnique (mkUniqueName original num unk)) ∈ allNames nt /\ room nt <= room (nametable gs) + 2.
Proof.
  intros Hwf Hr. pose proof (room_capacities (nametable gs)). destruct (freshUnique_spec h gs unk original num Hwf) as (raw & nt & E & Hint); [lia|].
  pose proof Hint as (Hwf' & _ & Hin & Hmono & _). exists raw, nt. split_and!; [done|done|done|]. by eapply freshUnique_room.
Qed.

(** ** Parameters *)

Lemma utf8_name h nt raw s : NameTable_wf h nt -> (raw, NUtf8 s) ∈ allNames nt -> shortName nt raw = Some s /\ nameKind raw = Some UTF8.
Proof.
  intros Hwf Hin. destruct (allNames_data h nt raw (NUtf8 s) Hwf Hin) as (_ & _ & Hk & Hd). split; [|done].
  unfold shortName. destruct (chainFuel nt) eqn:E; [|cbn; by rewrite Hk]. apply length_zero_iff_nil in E. rewrite E in Hin. by apply not_elem_of_nil in Hin.
Qed.

Section Parameters.
Context (nn : NamerNames) (hs : str -> Z).

(** The name under which the hash of the parameters knows a keyword *)
Definition keywordName (p : ParsedParam) : Z :=
  if pf_isRepeated (pp_flags p) && negb (lv_name (pp_local p) =? nn_fwdKwargs nn) then nn_kwargs nn else lv_name (pp_local p).

(** The name of a parameter that does not depend on its position *)
Definition fixedName (p : ParsedParam) : option Z :=
  if pf_isKeyword (pp_flags p) then Some (keywordName p) else if pf_isBlock (pp_flags p) then Some (nn_blkArg nn) else None.

(** The parameters of a method as the parser gives them: no shadow arguments, keywords are strings of the name table,
    no two keywords and no two blocks have the same name. *)
Record ParamsOk (nt : NameTable) (params : list ParsedParam) : Prop := mkParamsOk {
  po_shadow : Forall (fun p => pf_isShadow (pp_flags p) = false) params;
  po_keywords : Forall (fun p => pf_isKeyword (pp_flags p) = true -> exists s, (keywordName p, NUtf8 s) ∈ allNames nt) params;
  po_names : NoDup (omap fixedName params);
  po_block : nameKind (nn_blkArg nn) <> Some UNIQUE }.

(** How a parameter of a tree appears in the symbol table *)
Definition enteredAs (nt : NameTable) (pos : nat) (p : ParsedParam) (info : ParamInfo) : Prop :=
  pi_flags info = pp_flags p /\
  match fixedName p with
  | Some n => pi_name info = n
  | None => (pi_name info, NUnique (mkUniqueName (nn_arg nn) (Z.of_nat pos + 1) PositionalArg)) ∈ allNames nt
  end.

Lemma enteredAs_grown h nt nt' pos p info : grown h nt nt' -> enteredAs nt pos p info -> enteredAs nt' pos p info.
Proof. intros [_ H] [? Hn]. split; [done|]. destruct (fixedName p); auto. Qed.

Lemma parameterIndex_none name ps : (forall info, info ∈ ps -> pi_name info <> name) -> parameterIndex name ps = None.
Proof.
  induction ps as [|q ps IH]; intros H; [done|]. cbn. rewrite (proj2 (Z.eqb_neq _ _)) by (apply H; by left). rewrite IH; [done|].
  intros info Hi. apply H. by right.
Qed.

Context (h : str -> Z) (file sym : Z) (gs : GlobalState) (m : Method) (Hm : methodData (g_symbols gs) sym = Some m)
  (Hwf : NameTable_wf h (nametable gs)).

Abbreviation state nt ps := (withMethod sym (set_parameters ps m) nt gs).

Lemma withMethod_setParameter nt ps q f : setParameter sym (length ps) f (state nt (ps ++ [q])) = Some (state nt (ps ++ [f q])).
Proof.
  unfold setParameter. rewrite withMethod_update by (by eexists). do 2 f_equal. cbn. by rewrite alter_app_r_alt, Nat.sub_diag by done.
Qed.

(** The name of the next parameter is new. *)
Lemma paramName_new nt (before : list ParsedParam) p ps : ParamsOk (nametable gs) (before ++ [p]) -> grown h (nametable gs) nt -> room nt <= 2 ^ 29 ->
  length ps = length before -> (forall j q info, before !! j = Some q -> ps !! j = Some info -> enteredAs nt j q info) ->
  exists name nt', paramName nn (length before) p (state nt ps) = Some (name, state nt' ps) /\ grown h nt nt' /\ room nt' <= room nt + 2 /\
    parameterIndex name ps = None /\ forall loc, enteredAs nt' (length before) p (mkParamInfo name 0 loc (pp_flags p) NullType).
Proof.
  intros [Hshadow Hkey Hnd Hblk] Hg Hroom Hlen Hall.
  assert (Hstep : exists name nt', paramName nn (length before) p (state nt ps) = Some (name, state nt' ps) /\ grown h nt nt' /\ room nt' <= room nt + 2 /\
    forall loc, enteredAs nt' (length before) p (mkParamInfo name 0 loc (pp_flags p) NullType)).
  { unfold paramName, enteredAs, fixedName, keywordName. destruct (pf_isKeyword (pp_flags p)).
    - eexists _, nt. split_and!; [done|apply grown_refl, Hg|lia|]. intros loc. split; [done|]. cbn. destruct (pf_isRepeated _); [|done]. cbn.
      destruct (Z.eqb_spec (lv_name (pp_local p)) (nn_fwdKwargs nn)); [done|done].
    - destruct (pf_isBlock (pp_flags p)); [eexists _, nt; split_and!; [done|apply grown_refl, Hg|lia|done]|].
      destruct (fresh_grown h (state nt ps) PositionalArg (nn_arg nn) (Z.of_nat (length before) + 1)) as (name & nt' & E & Hg' & Hin & Hr); [apply Hg|done|].
      change (nametable (state nt ps)) with nt in *. rewrite E. exists name, nt'. done. }
  destruct Hstep as (name & nt' & E & Hg' & Hr & Hp). exists name, nt'. split_and!; try done.
  apply parameterIndex_none. intros info [j Hj]%list_elem_of_lookup <-. pose proof (lookup_lt_Some _ _ _ Hj).
  destruct (lookup_lt_is_Some_2 before j) as [q Hq]; [lia|]. pose proof (Hall j q info Hq Hj) as [_ Hold].
  destruct (Hp (noLoc 0)) as [_ Hnew]. cbn in Hnew. pose proof (grown_trans _ _ _ _ Hg Hg') as [Hwf' Hmono].
  assert (Hfixed : forall r n, r ∈ before ++ [p] -> fixedName r = Some n -> nameKind n <> Some UNIQUE).
  { intros r n Hr' Hn. unfold fixedName in Hn. destruct (pf_isKeyword (pp_flags r)) eqn:Hk.
    - injection Hn as <-. rewrite Forall_forall in Hkey. destruct (Hkey r Hr' Hk) as [s Hs]. apply (utf8_name h) in Hs as [_ ->]; done.
    - destruct (pf_isBlock _); [|done]. injection Hn as <-. done. }
  assert (Hq' : q ∈ before ++ [p]) by (apply elem_of_app; left; by eapply list_elem_of_lookup_2).
  assert (Hp' : p ∈ before ++ [p]) by set_solver.
  destruct (fixedName q) as [n|] eqn:Eq, (fixedName p) as [n'|] eqn:Ep.
  - rewrite omap_app in Hnd. apply NoDup_app in Hnd as (_ & Hnd & _). apply (Hnd n); [apply list_elem_of_omap; exists q; split; [by eapply list_elem_of_lookup_2|done]|].
    cbn. rewrite Ep. set_solver.
  - apply (unique_kind h) in Hnew; [|done]. rewrite Hold in Hnew. by apply (Hfixed q n Hq' Eq).
  - apply Hg' in Hold. apply (unique_kind h) in Hold; [|done]. rewrite Hnew in Hold. by apply (Hfixed p n' Hp' Ep).
  - apply Hg' in Hold. assert (E' : NUnique (mkUniqueName (nn_arg nn) (Z.of_nat j + 1) PositionalArg) =
      NUnique (mkUniqueName (nn_arg nn) (Z.of_nat (length before) + 1) PositionalArg)) by (eapply (allNames_functional nt'); eauto).
    injection E' as E'. lia.
Qed.

Lemma defineNextArg_new nt before p ps : ParamsOk (nametable gs) (before ++ [p]) -> grown h (nametable gs) nt -> room nt <= 2 ^ 29 ->
  length ps = length before -> (forall j q info, before !! j = Some q -> ps !! j = Some info -> enteredAs nt j q info) ->
  exists info nt', defineNextArg nn file sym (None, state nt ps) (length before, p) = Some (None, state nt' (ps ++ [info])) /\
    grown h nt nt' /\ room nt' <= room nt + 2 /\ enteredAs nt' (length before) p info.
Proof.
  intros Hok Hg Hroom Hlen Hall. destruct (paramName_new nt before p ps Hok Hg Hroom Hlen Hall) as (name & nt' & E & Hg' & Hr & Hnone & Hp).
  assert (Hin : is_Some (methodData (g_symbols gs) sym)) by (by eexists).
  assert (Hsh : pf_isShadow (pp_flags p) = false) by (pose proof (po_shadow _ _ Hok) as H; rewrite Forall_forall in H; apply H; set_solver).
  eexists (mkParamInfo name 0 (locAt file (paramLoc nn p)) (pp_flags p) NullType), nt'. split_and!; [|done|done|apply Hp].
  unfold defineNextArg. rewrite Hsh. cbn [mbind option_bind]. unfold defineArg. rewrite withMethod_data by done. cbn [mbind option_bind].
  rewrite (proj2 (Nat.ltb_ge _ _)) by (cbn; lia). rewrite E. cbn [mbind option_bind]. unfold enterMethodParameter.
  rewrite withMethod_data by done. cbn [mbind option_bind me_parameters set_parameters]. rewrite Hnone, withMethod_update by done. cbn [mbind option_bind].
  pose proof (withMethod_setParameter nt' ps (mkParamInfo name 0 (locAt file (paramLoc nn p)) noParamFlags NullType) (set_paramFlags (pp_flags p))) as Hset.
  cbn [me_parameters set_parameters] in *. unfold set_parameters in *. cbn in *. rewrite Hset. done.
Qed.

Lemma defineNextArgs_new rest : forall nt before ps, ParamsOk (nametable gs) (before ++ rest) -> grown h (nametable gs) nt ->
  room nt + 2 * Z.of_nat (length rest) <= 2 ^ 29 ->
  length ps = length before -> (forall j q info, before !! j = Some q -> ps !! j = Some info -> enteredAs nt j q info) ->
  exists ps' nt', foldM (defineNextArg nn file sym) (None, state nt ps) (imap (fun k => pair (length before + k)%nat) rest) = Some (None, state nt' ps') /\
    grown h (nametable gs) nt' /\ room nt' <= room nt + 2 * Z.of_nat (length rest) /\ length ps' = length (before ++ rest) /\
    forall j q info, (before ++ rest) !! j = Some q -> ps' !! j = Some info -> enteredAs nt' j q info.
Proof.
  induction rest as [|p rest IH]; intros nt before ps Hok Hg Hroom Hlen Hall.
  { exists ps, nt. rewrite app_nil_r. split_and!; [done..|lia|done|done]. }
  cbn [length] in Hroom. destruct (defineNextArg_new nt before p ps) as (info & nt1 & E & Hg1 & Hr1 & Hp); [|done|lia|done|done|].
  { destruct Hok as [H1 H2 H3 H4]. rewrite cons_middle, app_assoc in H1, H2, H3. rewrite omap_app in H3.
    split; [by apply Forall_app in H1 as [? _]|by apply Forall_app in H2 as [? _]|by apply NoDup_app in H3 as [? _]|done]. }
  destruct (IH nt1 (before ++ [p]) (ps ++ [info])) as (ps' & nt' & E' & Hg' & Hr' & Hlen' & Hall').
  - by rewrite <- app_assoc.
  - by eapply grown_trans.
  - lia.
  - rewrite !length_app. cbn. lia.
  - intros j q info' Hq Hi. destruct (decide (j = length before)) as [->|Hne].
    + rewrite list_lookup_middle in Hq by done. rewrite list_lookup_middle in Hi by (symmetry; done). by simplify_eq.
    + assert (j < length before)%nat by (apply lookup_lt_Some in Hq; rewrite length_app in Hq; cbn in Hq; lia).
      rewrite lookup_app_l in Hq by lia. rewrite lookup_app_l in Hi by lia. eapply enteredAs_grown; [done|]. by apply Hall.
  - rewrite <- app_assoc in Hlen', Hall'. exists ps', nt'. split_and!; [|done|cbn [length]; lia|done|done].
    cbn [imap]. cbn [foldM]. rewrite Nat.add_0_r, E. cbn [mbind option_bind]. rewrite <- E'. f_equal. apply imap_ext. intros k x _.
    cbn. rewrite length_app. cbn. f_equal. lia.
Qed.

(** The hash of the entered parameters is the hash of those in the tree. *)
Lemma arity_agrees gs' params ps : ParamsOk (nametable gs) params -> grown h (nametable gs) (nametable gs') -> length ps = length params ->
  (forall j q info, params !! j = Some q -> ps !! j = Some info -> enteredAs (nametable gs') j q info) ->
  forall m', me_parameters m' = ps -> methodArityHash gs' hs m' = hashParams nn hs (nametable gs) params.
Proof.
  intros Hok [Hwf' Hmono] Hlen Hall m' <-. unfold methodArityHash, hashParams, vsize. rewrite Hlen. f_equal.
  generalize (mix 0 (u32 (Z.of_nat (length params)))). pose proof (po_keywords _ _ Hok) as Hkey. clear Hok.
  set (off := 0%nat). assert (Hall' : forall j q info, params !! j = Some q -> me_parameters m' !! j = Some info -> enteredAs (nametable gs') (off + j) q info) by done.
  clear Hall. clearbody off. revert off Hall'. generalize dependent (me_parameters m'). revert Hkey.
  induction params as [|p params IH]; intros Hkey ps Hlen off Hall z; (destruct ps as [|info ps]; [done|]); [done|]. cbn [foldM].
  apply Forall_cons in Hkey as [Hp Hkey]. destruct (Hall 0%nat p info) as [Hf Hn]; [done..|].
  assert (E : mixParameter gs' hs z info = hashParam nn hs (nametable gs) z p).
  { unfold mixParameter, hashParam, fixedName in *. fold (keywordName p). rewrite Hf. destruct (pf_isKeyword (pp_flags p)); [|done].
    destruct Hp as [s Hs]; [done|]. rewrite Hn. rewrite (proj1 (utf8_name h _ _ s Hwf Hs)), (proj1 (utf8_name h _ _ s Hwf' (Hmono _ _ Hs))). done. }
  rewrite E. destruct (hashParam _ _ _ z p) as [z'|]; [cbn|done]. apply (IH Hkey ps ltac:(cbn in Hlen; lia) (S off)).
  intros j q i Hq Hi. replace (S off + j)%nat with (off + S j)%nat by lia. by apply Hall.
Qed.
End Parameters.
