(* ===== verification/NamerProps.v ===== *)
(** * Properties of the definition of methods

    A method that is defined is found again by the hash of its parameters, and defining it once more gives the
    same symbol: the namer can run again on a file that was changed elsewhere. *)

From S2P Require Import Prelude Pickler FileHash Files Locs Types NameTable NameText Symbols SymbolRefs Ast Cfg CfgBuild SymbolEntry SymbolViews SymbolConsistent SymbolSample SymbolProps NamerMethods NamerParams.

#[local] Open Scope Z_scope.

(** ** States in which methods can be defined *)

(** What is known of each method: aliases are aliases of methods, keywords are strings, its files exist, and it is not the
    stub of an intrinsic method of the class that gets a method. *)
Record MethodOk (gs : GlobalState) (nt : NameTable) (owner : Z) (m : Method) : Prop := mkMethodOk {
  ok_alias target : me_resultType m = AliasType target -> isMethod target = true;
  ok_keywords p : p ∈ me_parameters m -> pf_isKeyword (pi_flags p) = true -> exists s, (pi_name p, NUtf8 s) ∈ allNames nt;
  ok_intrinsic : me_owner m = owner -> isIntrinsic m = false;
  ok_files l : l ∈ me_locs m -> is_Some (fileOf gs (locFile l)) }.

Lemma methodOk_mono h gs gs' nt nt' owner m : g_files gs' = g_files gs -> grown h nt nt' -> MethodOk gs nt owner m -> MethodOk gs' nt' owner m.
Proof.
  intros Hf [_ Hg] [A1 A2 A3 A4]. split; [done| |done|unfold fileOf; by rewrite Hf]. intros p Hp Hk. destruct (A2 p Hp Hk) as [s H]. exists s. by apply Hg.
Qed.

(** A name, or one of its mangled names *)
Definition chainName (nt : NameTable) (name raw : Z) : Prop := raw = name \/ exists j, (raw, mangled name j) ∈ allNames nt.

Record Ready (h : str -> Z) (owner name : Z) (gs : GlobalState) : Prop := mkReady {
  rd_consistent : Consistent h gs;
  rd_owner : live gs KClassOrModule owner;
  rd_named : named gs name;
  rd_plain : plain (wellKnown gs) name;
  rd_kind : nameKind name <> Some UNIQUE;
  rd_methods i m : methodData (g_symbols gs) i = Some m -> MethodOk gs (nametable gs) owner m;
  rd_stub : is_Some (methodData (g_symbols gs) (badAliasMethodStub (wellKnown gs)));
  rd_chain raw sym : chainName (nametable gs) name raw -> member gs owner raw = Some sym -> isMethod sym = true }.

Section Ready.
Context (h : str -> Z) (owner name : Z) (gs : GlobalState) (Hready : Ready h owner name gs).

Lemma ready_members : exists c, classData (g_symbols gs) owner = Some c /\ forall raw, cm_members c !! raw = member gs owner raw.
Proof.
  destruct (rd_owner _ _ _ _ Hready) as (_ & o & n & Hp & _). destruct (class_there gs owner) as [c Hc]; [by eexists|].
  exists c. split; [done|]. intros raw. unfold member. by rewrite Hc.
Qed.

Lemma chain_plain raw : chainName (nametable gs) name raw -> plain (wellKnown gs) raw.
Proof.
  pose proof (rd_consistent _ _ _ _ Hready) as Hco. intros [->|[j Hj]]; [apply (rd_plain _ _ _ _ Hready)|]. eapply unique_plain; [done| |done]. apply Hco.
Qed.

Lemma chain_method raw sym : chainName (nametable gs) name raw -> member gs owner raw = Some sym ->
  exists i m, sym = makeSymbolRef KMethod i /\ 0 < i < 2 ^ 29 /\ methodData (g_symbols gs) i = Some m /\ me_owner m = owner /\ me_name m = raw.
Proof.
  intros Hraw Hm. pose proof (rd_consistent _ _ _ _ Hready) as Hco. pose proof (rd_owner _ _ _ _ Hready) as [Ho _].
  pose proof (rd_chain _ _ _ _ Hready raw sym Hraw Hm) as Hmeth.
  apply (co_member _ _ Hco) in Hm as (kd & i & -> & Hi & _ & Hp); [|done|by apply chain_plain]. pose proof Hp as Hb%(placed_bound h); [|done|lia].
  unfold isMethod in Hmeth. rewrite makeSymbolRef_kind in Hmeth by lia. apply bool_decide_eq_true in Hmeth. injection Hmeth as ->.
  apply data_placed in Hp as (m & Hm & [= <- <-]). by exists i, m.
Qed.

Lemma chain_not_overload raw : chainName (nametable gs) name raw -> isOverloadName (nametable gs) raw = Some false.
Proof.
  intros [->|[j Hj]]; unfold isOverloadName.
  - destruct (nameKind name) as [[]|] eqn:E; try done. by destruct (rd_kind _ _ _ _ Hready).
  - destruct (allNames_data h _ _ _ (co_names _ _ (rd_consistent _ _ _ _ Hready)) Hj) as (_ & _ & -> & ->). done.
Qed.

Context (hs : str -> Z).

Lemma arityHash_total m : MethodOk gs (nametable gs) owner m -> is_Some (methodArityHash gs hs m).
Proof.
  intros [_ Hkey _ _]. unfold methodArityHash. rewrite fmap_is_Some. generalize (mix 0 (u32 (vsize (me_parameters m)))).
  induction (me_parameters m) as [|p ps IH]; intros z; [by eexists|]. cbn. unfold mixParameter at 2.
  assert (Hs : pf_isKeyword (pi_flags p) = true -> is_Some (shortName (nametable gs) (pi_name p))).
  { intros Hk. destruct (Hkey p) as [s Hs]; [by left|done|]. exists s. eapply utf8_name; [|done]. apply (rd_consistent _ _ _ _ Hready). }
  destruct (pf_isKeyword (pi_flags p)); [destruct Hs as [s ->]; [done|]|]; cbn; apply IH; intros q Hq; apply Hkey; by right.
Qed.

(** A method in the chain of mangled names is taken if its hash is right. *)
Lemma chain_matches hash i m : methodData (g_symbols gs) i = Some m -> me_owner m = owner -> chainName (nametable gs) name (me_name m) ->
  exists a, methodArityHash gs hs m = Some a /\ matchesArityHash gs hs hash i = Some (a =? hash).
Proof.
  intros Hm Ho Hc. pose proof (rd_methods _ _ _ _ Hready i m Hm) as Hok. destruct (arityHash_total m Hok) as [a Ha]. exists a. split; [done|].
  unfold matchesArityHash. rewrite Hm. cbn [mbind option_bind]. rewrite (chain_not_overload _ Hc), Ha. cbn [mbind option_bind].
  pose proof (ok_intrinsic _ _ _ _ Hok Ho) as Hi. unfold isIntrinsic in Hi. rewrite Hi. cbn. by rewrite orb_false_r.
Qed.

(** ** The walk along the mangled names *)

(** The place of a name in the chain; all names before it are in use. *)
Definition position (raw : Z) (j : nat) : Prop :=
  match j with
  | O => raw = name
  | S _ => (raw, mangled name (Z.of_nat j)) ∈ allNames (nametable gs)
  end /\ forall i, 1 <= i < Z.of_nat j -> taken gs owner name i.

Lemma position_chain raw j : position raw j -> chainName (nametable gs) name raw.
Proof. intros [H _]. destruct j; [by left|right; by eexists]. Qed.

Lemma position_bound c raw j : (forall r, cm_members c !! r = member gs owner r) -> position raw j -> is_Some (member gs owner raw) ->
  (j <= size (cm_members c))%nat /\ (j <= length (allNames (nametable gs)))%nat.
Proof.
  intros Hc [Hr Hall] Hm. apply (taken_bound h gs owner name j (cm_members c) (rd_consistent _ _ _ _ Hready)); [intros r; by rewrite Hc|].
  intros i Hi. destruct (decide (i = Z.of_nat j)) as [->|]; [|apply Hall; lia]. destruct j; [lia|]. by exists raw.
Qed.

Lemma position_next raw j next : position raw j -> is_Some (member gs owner raw) -> (next, mangled name (Z.of_nat (S j))) ∈ allNames (nametable gs) ->
  position next (S j).
Proof.
  intros [Hr Hall] Hm Hn. split; [done|]. intros i Hi. destruct (decide (i = Z.of_nat j)) as [->|]; [|apply Hall; lia]. destruct j; [lia|]. by exists raw.
Qed.

Lemma mangledLoop_spec {A} (accept : Z -> option (option A)) c fuel : (forall r, cm_members c !! r = member gs owner r) ->
  capacities (nametable gs) <= 2 ^ 29 ->
  (forall raw sym, chainName (nametable gs) name raw -> member gs owner raw = Some sym -> is_Some (accept sym)) ->
  forall raw j, position raw j -> (size (cm_members c) < j + fuel)%nat ->
  exists r, mangledLoop gs name fuel accept (cm_members c) raw (Z.of_nat (S j)) = Some r /\
    forall a, r = Some a -> is_Some (member gs owner raw) /\
      exists raw' j' sym, position raw' j' /\ member gs owner raw' = Some sym /\ accept sym = Some (Some a).
Proof.
  intros Hc Hcap Hacc. pose proof (co_names _ _ (rd_consistent _ _ _ _ Hready)) as Hwf.
  induction fuel as [|fuel IH]; intros raw j Hpos Hfuel; cbn [mangledLoop]; rewrite Hc; destruct (member gs owner raw) as [sym|] eqn:Em;
    try (exists None; split; [done|by intros a [=]]).
  - destruct (position_bound c raw j Hc Hpos) as [? _]; [by rewrite Em|]. lia.
  - destruct (Hacc raw sym (position_chain _ _ Hpos) Em) as [found Hf]. rewrite Hf. cbn [mbind option_bind]. destruct found as [a|].
    { exists (Some a). split; [done|]. intros a' [= <-]. split; [by eexists|]. by exists raw, j, sym. }
    destruct (position_bound c raw j Hc Hpos) as [_ Hb]; [by rewrite Em|]. pose proof (allNames_capacity h _ Hwf).
    destruct (lookupMangled_spec h gs name (Z.of_nat (S j)) Hwf) as (next & -> & Hnext). cbn [mbind option_bind].
    destruct Hnext as [[Hne Hin]|[-> _]]; [|exists None; split; [done|by intros a [=]]]. rewrite (proj2 (Z.eqb_neq _ _) Hne).
    rewrite u32_id by (unfold is_u32; lia). replace (Z.of_nat (S j) + 1) with (Z.of_nat (S (S j))) by lia.
    destruct (IH next (S j)) as (r & E & Hr); [eapply position_next; [done|by rewrite Em|done]|lia|]. exists r. split; [done|].
    intros a Ha. destruct (Hr a Ha) as [_ Hrest]. split; [by eexists|done].
Qed.

Lemma lookupWithHash_spec hash : capacities (nametable gs) <= 2 ^ 29 ->
  exists sym, lookupMethodSymbolWithHash gs owner name hs hash = Some sym /\
    (sym <> 0 -> is_Some (member gs owner name) /\
      exists raw j m, position raw j /\ member gs owner raw = Some (makeSymbolRef KMethod sym) /\ 0 < sym < 2 ^ 29 /\
        methodData (g_symbols gs) sym = Some m /\ me_owner m = owner /\ me_name m = raw /\ methodArityHash gs hs m = Some hash).
Proof.
  intros Hcap. destruct ready_members as (c & Hc & Hmem). unfold lookupMethodSymbolWithHash. rewrite Hc. cbn [mbind option_bind].
  set (accept := fun sym => if isMethod sym then _ else _).
  assert (Hacc : forall raw sym, chainName (nametable gs) name raw -> member gs owner raw = Some sym -> exists i m a,
    sym = makeSymbolRef KMethod i /\ 0 < i < 2 ^ 29 /\ methodData (g_symbols gs) i = Some m /\ me_owner m = owner /\ me_name m = raw /\
    methodArityHash gs hs m = Some a /\ accept sym = Some (if a =? hash then Some i else None)).
  { intros raw sym Hraw Hm. destruct (chain_method raw sym Hraw Hm) as (i & m & -> & Hi & Hd & Ho & Hn).
    destruct (chain_matches hash i m Hd Ho) as (a & Ha & Hmatch); [by rewrite Hn|]. exists i, m, a. split_and!; try done; try lia.
    unfold accept. rewrite (rd_chain _ _ _ _ Hready raw _ Hraw Hm), makeSymbolRef_index by lia. by rewrite Hmatch. }
  destruct (mangledLoop_spec accept c (S (size (cm_members c))) Hmem Hcap) with (raw := name) (j := 0%nat) as (r & E & Hr).
  { intros raw sym Hraw Hm. destruct (Hacc raw sym Hraw Hm) as (i & m & a & _ & _ & _ & _ & _ & _ & ->). by eexists. }
  { split; [done|lia]. }
  { lia. }
  change (Z.of_nat 1) with 1 in E. rewrite E. cbn [mbind option_bind]. eexists. split; [done|]. destruct r as [a|]; [|done]. intros _.
  destruct (Hr a eq_refl) as [Hhead (raw & j & sym & Hpos & Hm & Ha)]. split; [done|].
  destruct (Hacc raw sym (position_chain _ _ Hpos) Hm) as (i & m & b & -> & Hi & Hd & Ho & Hn & Hhash & E2). rewrite E2 in Ha.
  destruct (Z.eqb_spec b hash) as [Heq|]; [|done]. rewrite Heq in Hhash. injection Ha as <-. by exists raw, j, m.
Qed.

(** ** Methods that were replaced *)

Lemma no_name_member : member gs owner noName = None.
Proof.
  pose proof (rd_consistent _ _ _ _ Hready) as Hco. pose proof (rd_owner _ _ _ _ Hready) as [Ho _].
  destruct (member gs owner noName) as [sym|] eqn:E; [|done]. exfalso.
  apply (co_member _ _ Hco) in E as (kd & i & _ & Hi & _ & Hp); [|done|]. 2: { destruct (co_linkNames _ _ Hco). split; intros Hn; by rewrite <- Hn in *. }
  apply (co_named _ _ Hco) in Hp as [d Hd]; [|lia]. by destruct (allNames_data h _ _ _ (co_names _ _ Hco) Hd) as [? _].
Qed.

Lemma lastRenamed_total c fuel : (forall r, cm_members c !! r = member gs owner r) -> capacities (nametable gs) <= 2 ^ 29 ->
  forall raw j, position raw (S j) \/ raw = noName -> (size (cm_members c) < S j + fuel)%nat ->
  exists r, lastRenamed gs name fuel (cm_members c) raw (Z.of_nat (S j)) = Some r /\
    (r = noSymbol \/ exists raw', chainName (nametable gs) name raw' /\ member gs owner raw' = Some r).
Proof.
  intros Hc Hcap. pose proof (co_names _ _ (rd_consistent _ _ _ _ Hready)) as Hwf.
  induction fuel as [|fuel IH]; intros raw j Hpos Hfuel; cbn [lastRenamed]; rewrite Hc;
    (destruct Hpos as [Hpos| ->]; [|rewrite no_name_member; eexists; split; [done|by left]]);
    (destruct (member gs owner raw) as [sym|] eqn:Em; [|eexists; split; [done|by left]]);
    (destruct (position_bound c raw (S j) Hc Hpos) as [? Hb]; [by rewrite Em|]); [lia|].
  pose proof (allNames_capacity h _ Hwf). rewrite u32_id by (unfold is_u32; lia). replace (Z.of_nat (S j) + 1) with (Z.of_nat (S (S j))) by lia.
  destruct (lookupMangled_spec h gs name (Z.of_nat (S (S j))) Hwf) as (next & -> & Hnext). cbn [mbind option_bind].
  destruct Hnext as [[Hne Hin]|[-> _]].
  - rewrite (proj2 (Z.eqb_neq _ _) Hne). apply IH; [|lia]. left. eapply position_next; [done|by rewrite Em|done].
  - exists sym. split; [done|]. right. exists raw. split; [by eapply position_chain|done].
Qed.

Lemma findRenamed_total sym m raw j : capacities (nametable gs) <= 2 ^ 29 -> 0 < sym < 2 ^ 29 -> methodData (g_symbols gs) sym = Some m ->
  me_owner m = owner -> me_name m = raw -> position raw j ->
  exists r, findRenamedSymbol gs owner (makeSymbolRef KMethod sym) = Some r /\
    (r = noSymbol \/ exists raw', chainName (nametable gs) name raw' /\ member gs owner raw' = Some r).
Proof.
  intros Hcap Hs Hm Ho Hn Hpos. pose proof (co_names _ _ (rd_consistent _ _ _ _ Hready)) as Hwf.
  destruct ready_members as (c & Hc & Hmem). unfold findRenamedSymbol, symbolName.
  rewrite makeSymbolRef_kind, makeSymbolRef_index, Hm by lia. cbn [mbind option_bind option_fmap option_map fmap]. rewrite Hc, Hn. cbn [mbind option_bind].
  destruct Hpos as [Hraw Hall]. destruct j as [|j].
  - rewrite Hraw. assert (H : exists r, (lookupName ← lookupNameUnique (nametable gs) MangleRename name 1;
      lastRenamed gs name (S (size (cm_members c))) (cm_members c) lookupName 1) = Some r /\
      (r = noSymbol \/ exists raw', chainName (nametable gs) name raw' /\ member gs owner raw' = Some r)).
    { destruct (lookupMangled_spec h gs name 1 Hwf) as (next & -> & Hnext). cbn [mbind option_bind].
      apply (lastRenamed_total c _ Hmem Hcap next 0); [|lia]. destruct Hnext as [[_ Hin]|[-> _]]; [left; split; [done|lia]|by right]. }
    destruct (nameKind name) as [[]|] eqn:E; try exact H. by destruct (rd_kind _ _ _ _ Hready).
  - destruct (allNames_data h _ _ _ Hwf Hraw) as (_ & _ & -> & ->). cbn [mbind option_bind un_kind un_num un_original].
    destruct j as [|j]; [eexists; split; [done|by left]|]. rewrite (proj2 (Z.eqb_neq _ _)) by lia.
    destruct (Hall (Z.of_nat (S j))) as (r1 & Hr1 & [s Hs1]); [lia|]. pose proof (allNames_capacity h _ Hwf).
    destruct (taken_bound h gs owner name (S j) (cm_members c) (rd_consistent _ _ _ _ Hready)) as [_ Hb]; [intros r; by rewrite Hmem|intros i Hi; apply Hall; lia|].
    rewrite u32_id by (unfold is_u32; lia). replace (Z.of_nat (S (S j)) - 1) with (Z.of_nat (S j)) by lia.
    destruct (lookupMangled_spec h gs name (Z.of_nat (S j)) Hwf) as (next & -> & Hnext). cbn [mbind option_bind].
    destruct Hnext as [[Hne Hin]|[_ Hno]]; [|by destruct (Hno r1)]. rewrite (proj2 (Z.eqb_neq _ _) Hne).
    assert (next = r1) as -> by (by eapply (nodup_functional h)). rewrite Hmem, Hs1. exists s. split; [done|]. right. exists r1.
    split; [right; by eexists|done].
Qed.

(** ** Errors about redefinitions *)

Lemma dealias_method i m : 0 < i < 2 ^ 29 -> methodData (g_symbols gs) i = Some m ->
  exists i' m', dealias (g_symbols gs) (makeSymbolRef KMethod i) = Some (makeSymbolRef KMethod i') /\ 0 < i' < 2 ^ 29 /\
    methodData (g_symbols gs) i' = Some m'.
Proof.
  intros Hi Hm. pose proof (rd_consistent _ _ _ _ Hready) as Hco. unfold dealias. rewrite makeSymbolRef_kind by lia. fold (wellKnown gs).
  revert i m Hi Hm. generalize 42%nat. intros fuel. induction fuel as [|fuel IH]; intros i m Hi Hm; cbn [dealiasWithDefault];
    unfold symbolResultType; rewrite makeSymbolRef_kind, makeSymbolRef_index, Hm by lia; cbn [mbind option_bind option_fmap option_map fmap];
    (assert (Ht : (exists target, me_resultType m = AliasType target) \/ forall A (f : Z -> A) (a : A),
       match me_resultType m with AliasType target => f target | _ => a end = a) by (destruct (me_resultType m); eauto));
    (destruct Ht as [[target Et]|Ht]; [rewrite Et|rewrite Ht; exists i, m; split_and!; [done|lia|lia|done]]).
  - destruct (rd_stub _ _ _ _ Hready) as [stub Hstub]. eexists _, stub. split; [done|]. split; [apply (co_badAlias _ _ Hco)|done].
  - pose proof (ok_alias _ _ _ _ (rd_methods _ _ _ _ Hready i m Hm) target Et) as Htm.
    destruct (co_alias _ _ Hco KMethod i target) as (kd & i' & -> & Hi' & [p Hp]); [lia|unfold aliasTarget, resultType; rewrite Hm; cbn; by rewrite Et|].
    pose proof Hp as Hb%(placed_bound h); [|done|lia]. unfold isMethod in Htm. rewrite makeSymbolRef_kind in Htm by lia.
    apply bool_decide_eq_true in Htm. injection Htm as ->. apply data_placed in Hp as (m' & Hm' & _). apply (IH i' m'); [lia|done].
Qed.
End Ready.

(** ** Redefinition errors can always be computed. *)

Lemma redefinition_total h owner name gs i m params : Ready h owner name gs -> 0 < i < 2 ^ 29 -> methodData (g_symbols gs) i = Some m ->
  is_Some (redefinitionErrors gs i params) /\ is_Some (paramsMatch gs i params).
Proof.
  intros Hready Hi Hm. destruct (dealias_method h owner name gs Hready i m Hi Hm) as (i' & m' & E & Hi' & Hm').
  unfold redefinitionErrors, paramsMatch, paramMismatchErrors. rewrite E, Hm. cbn [mbind option_bind]. rewrite makeSymbolRef_index, Hm' by lia.
  cbn [mbind option_bind]. split; [|by eexists]. destruct (isIntrinsic m); [by eexists|].
  unfold isMethod. rewrite makeSymbolRef_kind by lia. by eexists.
Qed.

(** ** Changes of one method *)

(** Members that are named by a larger table are named by the smaller one. *)
Lemma member_mangled h gs nt owner raw s name j : Consistent h gs -> grown h (nametable gs) nt -> 0 < owner -> member gs owner raw = Some s ->
  (raw, mangled name j) ∈ allNames nt -> (raw, mangled name j) ∈ allNames (nametable gs).
Proof.
  intros Hco Hg Ho Hm Hj. pose proof Hm as (kd & i & _ & Hi & _ & Hp)%(co_member _ _ Hco); [|done|by eapply unique_plain; [|apply Hg|]].
  apply (co_named _ _ Hco) in Hp as [d Hd]; [|lia]. assert (d = mangled name j) as <-; [|done].
  eapply (allNames_functional nt raw); [eexists; apply Hg|by apply Hg|done].
Qed.

Lemma ready_with h owner name gs sym m m' nt : Ready h owner name gs -> 0 < sym -> methodData (g_symbols gs) sym = Some m ->
  me_owner m' = me_owner m -> me_name m' = me_name m -> me_resultType m' = me_resultType m -> me_typeParams m' = me_typeParams m ->
  grown h (nametable gs) nt -> MethodOk gs nt owner m' -> Ready h owner name (withMethod sym m' nt gs).
Proof.
  intros Hready Hs Hm Ho Hn Hr Ht Hg Hok. pose proof Hready as [Hco Hlive Hnamed Hplain Hkind Hmeth [stub Hstub] Hchain].
  pose proof (withMethod_same sym gs m m' nt ltac:(lia) Hm Ho Hn Hr Ht) as Hsame. pose proof (sv_symbols _ _ Hsame) as [_ _ _ Hpl].
  split.
  - eapply consistent_same; [|exact Hsame]. by apply consistent_grown.
  - destruct Hlive as (Hpos & o & n & Hp & Hpos'). split; [done|]. exists o, n. split; [|done]. by rewrite Hpl.
  - destruct Hnamed as [d Hd]. exists d. by apply Hg.
  - done.
  - done.
  - intros i x Hx. destruct (decide (Z.to_nat i = Z.to_nat sym)) as [E|Hne].
    + unfold methodData in Hx. rewrite E in Hx. fold (methodData (g_symbols (withMethod sym m' nt gs)) sym) in Hx.
      rewrite withMethod_data in Hx by (by eexists). injection Hx as <-. eapply (methodOk_mono h gs); [done|apply grown_refl, Hg|exact Hok].
    + rewrite withMethod_other in Hx by done. eapply (methodOk_mono h gs); [done|done|by eapply Hmeth].
  - change (wellKnown (withMethod sym m' nt gs)) with (wellKnown gs).
    destruct (decide (Z.to_nat (badAliasMethodStub (wellKnown gs)) = Z.to_nat sym)) as [E|Hne].
    + unfold methodData. rewrite E. fold (methodData (g_symbols (withMethod sym m' nt gs)) sym). rewrite withMethod_data by (by exists m). by eexists.
    + rewrite withMethod_other by done. by eexists.
  - intros raw s Hraw Hmem. change (member gs owner raw = Some s) in Hmem. apply (Hchain raw s); [|done].
    destruct Hraw as [->|[j Hj]]; [by left|]. right. destruct Hlive as [Hpos _]. exists j. by eapply member_mangled.
Qed.

(** What matters to the hash of a parameter *)
Definition sameShape (p q : ParamInfo) : Prop := pi_name q = pi_name p /\ pi_flags q = pi_flags p.

Lemma shape_refl ps : Forall2 sameShape ps ps.
Proof. induction ps; by constructor. Qed.

Lemma arityHash_shape gs gs' hs m m' : nametable gs' = nametable gs -> Forall2 sameShape (me_parameters m) (me_parameters m') ->
  methodArityHash gs' hs m' = methodArityHash gs hs m.
Proof.
  intros Hnt Hps. unfold methodArityHash, vsize. rewrite <- (Forall2_length _ _ _ Hps). f_equal.
  generalize (mix 0 (u32 (Z.of_nat (length (me_parameters m))))). induction Hps as [|p q ps qs [Hn Hf] _ IH]; intros z; [done|]. cbn [foldM].
  assert (E : mixParameter gs' hs z q = mixParameter gs hs z p) by (unfold mixParameter; by rewrite Hn, Hf, Hnt). rewrite E.
  destruct (mixParameter gs hs z p); [apply IH|done].
Qed.

(** The lookup sees a method only through its name and the shape of its parameters. *)
Lemma mangledLoop_ext {A} h gs gs' name accept accept' members : NameTable_wf h (nametable gs) -> nametable gs' = nametable gs ->
  (forall raw sym, chainName (nametable gs) name raw -> members !! raw = Some sym -> accept' sym = accept sym) ->
  forall fuel raw u, chainName (nametable gs) name raw ->
  mangledLoop (A := A) gs' name fuel accept' members raw u = mangledLoop gs name fuel accept members raw u.
Proof.
  intros Hwf Hnt Hacc fuel. induction fuel as [|fuel IH]; intros raw u Hraw; cbn [mangledLoop]; destruct (members !! raw) as [sym|] eqn:E; try done.
  rewrite (Hacc raw sym Hraw E). destruct (accept sym) as [[a|]|]; [done| |done]. cbn [mbind option_bind]. rewrite Hnt.
  destruct (lookupMangled_spec h gs name u Hwf) as (next & -> & Hnext). cbn [mbind option_bind].
  destruct Hnext as [[Hne Hin]|[-> _]]; [|done]. destruct (next =? noName); [done|]. apply IH. right. by exists u.
Qed.

Lemma lookup_with h owner name gs hs hash sym m m' : Ready h owner name gs -> Ready h owner name (withMethod sym m' (nametable gs) gs) ->
  0 < sym -> methodData (g_symbols gs) sym = Some m -> me_owner m' = me_owner m -> me_name m' = me_name m ->
  Forall2 sameShape (me_parameters m) (me_parameters m') ->
  lookupMethodSymbolWithHash (withMethod sym m' (nametable gs) gs) owner name hs hash = lookupMethodSymbolWithHash gs owner name hs hash.
Proof.
  intros Hready Hready' Hs Hm Ho Hn Hshape. destruct (ready_members _ _ _ _ Hready) as (c & Hc & Hmem). unfold lookupMethodSymbolWithHash.
  change (classData (g_symbols (withMethod sym m' (nametable gs) gs)) owner) with (classData (g_symbols gs) owner). rewrite Hc. cbn [mbind option_bind].
  f_equal. eapply (mangledLoop_ext h); [apply (rd_consistent _ _ _ _ Hready)|done| |by left].
  intros raw s Hraw E. rewrite Hmem in E. destruct (chain_method _ _ _ _ Hready raw s Hraw E) as (i & x & -> & Hi & Hx & Hox & Hnx).
  destruct (isMethod _); [|done]. rewrite makeSymbolRef_index by lia.
  destruct (chain_matches _ _ _ _ Hready hs hash i x Hx Hox) as (a & Ha & ->); [by rewrite Hnx|].
  destruct (decide (i = sym)) as [->|Hne].
  - rewrite Hm in Hx. injection Hx as <-.
    destruct (chain_matches _ _ _ _ Hready' hs hash sym m') as (b & Hb & ->); [apply withMethod_data; by eexists|congruence|rewrite Hn, Hnx; done|].
    rewrite (arityHash_shape gs _ hs m m') in Hb by done. rewrite Ha in Hb. by injection Hb as <-.
  - destruct (chain_matches _ _ _ _ Hready' hs hash i x) as (b & Hb & ->); [rewrite withMethod_other by lia; done|done|rewrite Hnx; done|].
    rewrite (arityHash_shape gs _ hs x x) in Hb; [|done|apply shape_refl]. rewrite Ha in Hb. by injection Hb as <-.
Qed.

(** ** A method that is defined already *)

Section Existing.
Context (nn : NamerNames) (file sym : Z) (gs : GlobalState) (m : Method) (Hm : methodData (g_symbols gs) sym = Some m).

Abbreviation state ps := (withMethod sym (set_parameters ps m) (nametable gs) gs).

Lemma set_parameters_id : set_parameters (me_parameters m) m = m.
Proof. by destruct m. Qed.

Lemma shape_trans ps qs rs : Forall2 sameShape ps qs -> Forall2 sameShape qs rs -> Forall2 sameShape ps rs.
Proof.
  intros H1. revert rs. induction H1 as [|p q ps qs [A B] _ IH]; intros rs H2; inversion H2 as [|? r ? rs' [C D]]; subst; constructor; [split; congruence|by apply IH].
Qed.

Lemma shape_loc pos loc ps : Forall2 sameShape ps (alter (set_paramLoc loc) pos ps).
Proof. revert pos. induction ps as [|p ps IH]; intros [|pos]; cbn; constructor; try done; first [apply shape_refl|apply IH]. Qed.

Lemma defineArg_existing pos p ps : (pos < length ps)%nat ->
  exists ps', defineArg nn file sym pos p (state ps) = Some (state ps') /\ Forall2 sameShape ps ps'.
Proof.
  intros Hpos. assert (Hin : is_Some (methodData (g_symbols gs) sym)) by (by eexists). unfold defineArg. rewrite withMethod_data by done.
  cbn [mbind option_bind me_parameters set_parameters]. rewrite (proj2 (Nat.ltb_lt _ _) Hpos). destruct (_ && _).
  - unfold setParameter. rewrite withMethod_update by done. cbn. eexists. split; [reflexivity|]. apply shape_loc.
  - exists ps. split; [done|apply shape_refl].
Qed.

Lemma defineNextArgs_existing params : forall off ps, (off + length params <= length ps)%nat ->
  exists ps', foldM (defineNextArg nn file sym) (None, state ps) (imap (fun k => pair (off + k)%nat) params) = Some (None, state ps') /\
    Forall2 sameShape ps ps'.
Proof.
  induction params as [|p params IH]; intros off ps Hlen; [exists ps; split; [done|apply shape_refl]|]. cbn [length] in Hlen. cbn [imap foldM].
  rewrite Nat.add_0_r.
  assert (Hstep : exists ps1, defineNextArg nn file sym (None, state ps) (off, p) = Some (None, state ps1) /\ Forall2 sameShape ps ps1).
  { unfold defineNextArg. destruct (pf_isShadow _); [exists ps; split; [done|apply shape_refl]|]. cbn [mbind option_bind].
    destruct (defineArg_existing off p ps) as (ps1 & -> & H1); [lia|]. by exists ps1. }
  destruct Hstep as (ps1 & -> & H1). cbn [mbind option_bind]. destruct (IH (S off) ps1) as (ps2 & E & H2).
  { rewrite <- (Forall2_length _ _ _ H1). lia. }
  exists ps2. split; [|by eapply shape_trans]. rewrite <- E. f_equal. apply imap_ext. intros k x _. cbn. f_equal. lia.
Qed.

Lemma defineArgs_existing params : isIntrinsic m = false -> (length params <= length (me_parameters m))%nat ->
  exists ps, defineArgs nn file sym params gs = Some (state ps) /\ Forall2 sameShape (me_parameters m) ps.
Proof.
  intros Hi Hlen. unfold defineArgs. rewrite Hm. cbn [mbind option_bind]. rewrite Hi. cbn [mbind option_bind].
  destruct (defineNextArgs_existing params 0 (me_parameters m) Hlen) as (ps & E & H). exists ps. split; [|done].
  rewrite set_parameters_id, withMethod_id in E by done. change (imap (fun k => pair (0 + k)%nat) params) with (imap pair params) in E. by rewrite E.
Qed.

Lemma defineArgs_new h params : isIntrinsic m = false -> me_parameters m = [] -> NameTable_wf h (nametable gs) -> ParamsOk nn (nametable gs) params ->
  room (nametable gs) + 2 * Z.of_nat (length params) <= 2 ^ 29 ->
  exists ps nt, defineArgs nn file sym params gs = Some (withMethod sym (set_parameters ps m) nt gs) /\ grown h (nametable gs) nt /\
    length ps = length params /\ (forall j q info, params !! j = Some q -> ps !! j = Some info -> enteredAs nn nt j q info) /\
    capacities nt <= 2 ^ 29.
Proof.
  intros Hi Hnil Hwf Hok Hroom. unfold defineArgs. rewrite Hm. cbn [mbind option_bind]. rewrite Hi. cbn [mbind option_bind].
  destruct (defineNextArgs_new nn h file sym gs m Hm Hwf params (nametable gs) [] []) as (ps & nt & E & Hg & Hr & Hlen & Hall);
    [done|by apply grown_refl|done|done|done|]. pose proof (room_capacities nt).
  exists ps, nt. split_and!; [|done|done|done|lia]. assert (Em : set_parameters [] m = m) by (rewrite <- Hnil; apply set_parameters_id).
  rewrite Em, withMethod_id in E by done. change (imap (fun k => pair (length (@nil ParsedParam) + k)%nat) params) with (imap pair params) in E. by rewrite E.
Qed.
End Existing.

(** ** After the parameters *)

Lemma addLoc_total gs loc locs : is_Some (fileOf gs (locFile loc)) -> (forall l, l ∈ locs -> is_Some (fileOf gs (locFile l))) ->
  exists locs', addLoc gs loc locs = Some locs' /\ forall l, l ∈ locs' -> is_Some (fileOf gs (locFile l)).
Proof.
  intros Hloc Hlocs. unfold addLoc. destruct (locFile loc =? 0); [by exists locs|]. unfold addLocInternal.
  destruct (replaceLoc loc locs) as [locs'|] eqn:E.
  { exists locs'. split; [done|]. revert locs' E. induction locs as [|x locs IH]; intros locs' E; [done|]. cbn in E.
    destruct (_ =? _); [injection E as <-; set_solver|]. apply fmap_Some in E as (l & E & ->). intros y [->|Hy]%elem_of_cons; [apply Hlocs; by left|].
    eapply IH; [|done|done]. intros z Hz. apply Hlocs. by right. }
  destruct (length locs =? 0)%nat; [exists [loc]; split; [done|set_solver]|]. pose proof Hloc as [f ->]. cbn [mbind option_bind].
  assert (Htake : forall l, l ∈ take (length locs - 1) locs ++ loc :: drop (length locs - 1) locs -> is_Some (fileOf gs (locFile l))).
  { intros l Hl. assert (Hl' : l = loc \/ l ∈ take (length locs - 1) locs ++ drop (length locs - 1) locs) by set_solver.
    rewrite take_drop in Hl'. destruct Hl' as [->|?]; auto. }
  destruct (_ && _); [|by eexists]. destruct (loc_exists _) eqn:Ex; [|eexists; split; [done|set_solver]].
  assert (Hlast : is_Some (fileOf gs (locFile (lastLoc locs)))).
  { unfold lastLoc in *. destruct (last locs) as [l|] eqn:El; [|done]. apply Hlocs. by apply last_Some_elem_of. }
  destruct Hlast as [mf ->]. cbn [mbind option_bind]. eexists. split; [done|]. destruct (_ <=? _); set_solver.
Qed.

(** The last steps of [defineMethod] leave the parameters alone. *)
Lemma defineMethod_tail nn hs file ctxOwner method gs gs1 owner errors sym m nt :
  methodOwner nn gs ctxOwner (mdf_isSelfMethod (fdm_flags method)) = Some owner ->
  methodSymbol hs file owner method gs = Some (errors, sym, gs1) -> is_Some (methodData (g_symbols gs1) sym) ->
  defineArgs nn file sym (fdm_parsedParams method) gs1 = Some (withMethod sym m nt gs1) ->
  is_Some (fileOf gs1 file) -> MethodOk gs1 nt owner m ->
  exists m', defineMethod nn hs file ctxOwner method gs = Some (errors, sym, withMethod sym m' nt gs1) /\ MethodOk gs1 nt owner m' /\
    me_owner m' = me_owner m /\ me_name m' = me_name m /\ me_resultType m' = me_resultType m /\ me_typeParams m' = me_typeParams m /\
    me_parameters m' = me_parameters m.
Proof.
  intros Hown Hsym Hin Hargs Hfile Hok. unfold defineMethod. rewrite Hown. cbn [mbind option_bind]. rewrite Hsym. cbn [mbind option_bind].
  rewrite Hargs. cbn [mbind option_bind]. rewrite withMethod_data by done. cbn [mbind option_bind].
  destruct (addLoc_total (withMethod sym m nt gs1) (locAt file (fdm_declLoc method)) (me_locs m)) as (locs & -> & Hlocs); [exact Hfile|apply (ok_files _ _ _ _ Hok)|].
  cbn [mbind option_bind]. rewrite withMethod_update by done. cbn [mbind option_bind]. destruct Hok as [A1 A2 A3 A4].
  destruct (mdf_isRewriterSynthesized _); [rewrite withMethod_update by done|]; cbn [mbind option_bind]; eexists; (split; [reflexivity|]);
    split_and!; try done; (split; [exact A1|exact A2|exact A3|exact Hlocs]).
Qed.

Lemma enterMethod_existing h owner name gs s loc nameLoc : Ready h owner name gs -> member gs owner name = Some s ->
  exists i m, s = makeSymbolRef KMethod i /\ 0 < i < 2 ^ 29 /\ methodData (g_symbols gs) i = Some m /\ me_owner m = owner /\ me_name m = name /\
    enterMethodSymbol loc owner name nameLoc gs = Some (i, gs).
Proof.
  intros Hready Hs. destruct (chain_method _ _ _ _ Hready name s) as (i & m & -> & Hi & Hm & Ho & Hn); [by left|done|].
  exists i, m. split_and!; try done; try lia. destruct (ready_members _ _ _ _ Hready) as (c & Hc & Hmem). unfold enterMethodSymbol, memberOf.
  rewrite Hc. cbn [mbind option_bind]. rewrite Hmem, Hs. change (default noSymbol (Some (makeSymbolRef KMethod i))) with (makeSymbolRef KMethod i). rewrite ref_exists, makeSymbolRef_index by lia. done.
Qed.

(** A method whose shape is in the table is not entered again; only locations change. *)
Lemma defineMethod_existing nn h hs file ctxOwner method owner gs sym m : Ready h owner (fdm_name method) gs ->
  capacities (nametable gs) <= 2 ^ 29 -> methodOwner nn gs ctxOwner (mdf_isSelfMethod (fdm_flags method)) = Some owner -> is_Some (fileOf gs file) ->
  lookupMethodSymbolWithHash gs owner (fdm_name method) hs (fdm_arityHash method) = Some sym -> sym <> 0 ->
  methodData (g_symbols gs) sym = Some m -> length (me_parameters m) = length (fdm_parsedParams method) ->
  exists errors m', defineMethod nn hs file ctxOwner method gs = Some (errors, sym, withMethod sym m' (nametable gs) gs) /\
    Ready h owner (fdm_name method) (withMethod sym m' (nametable gs) gs) /\ SameViews gs (withMethod sym m' (nametable gs) gs) /\
    lookupMethodSymbolWithHash (withMethod sym m' (nametable gs) gs) owner (fdm_name method) hs (fdm_arityHash method) = Some sym /\
    Forall2 sameShape (me_parameters m) (me_parameters m').
Proof.
  intros Hready Hcap Hown Hfile Hlook Hne Hm Hlen. set (name := fdm_name method) in *.
  destruct (lookupWithHash_spec _ _ _ _ Hready hs (fdm_arityHash method) Hcap) as (sym' & E & Hspec). rewrite Hlook in E. injection E as <-.
  destruct (Hspec Hne) as ([s Hs] & raw & j & x & Hpos & Hmem & Hr & Hx & Hox & Hnx & Hhash). rewrite Hm in Hx. injection Hx as <-.
  destruct (enterMethod_existing _ _ _ _ s (locAt file (fdm_declLoc method)) (locAt file (fdm_nameLoc method)) Hready Hs) as (i & y & -> & Hi & Hy & _ & _ & Eent).
  destruct (findRenamed_total _ _ _ _ Hready sym m raw j Hcap Hr Hm Hox Hnx Hpos) as (replaced & Erep & Hrep).
  assert (Herr : exists errors, methodSymbol hs file owner method gs = Some (errors, sym, gs)).
  { unfold methodSymbol. fold name. rewrite Eent. cbn [mbind option_bind]. rewrite Z.eqb_refl. cbn [negb]. rewrite Hlook. cbn [mbind option_bind].
    rewrite (proj2 (Z.eqb_neq _ _) Hne), Erep. cbn [mbind option_bind]. destruct (symbol_exists replaced) eqn:Ex; [|by eexists].
    destruct Hrep as [->|(raw' & Hc & Hm')]; [done|]. destruct (chain_method _ _ _ _ Hready raw' replaced Hc Hm') as (k & z & -> & Hk & Hz & _ & _).
    rewrite makeSymbolRef_index by lia. destruct (redefinition_total _ _ _ _ k z (fdm_parsedParams method) Hready Hk Hz) as [[e ->] [b ->]].
    destruct b; by eexists. }
  destruct Herr as [errors Esym]. pose proof (rd_methods _ _ _ _ Hready sym m Hm) as Hok.
  destruct (defineArgs_existing nn file sym gs m Hm (fdm_parsedParams method)) as (ps & Eargs & Hshape); [by apply (ok_intrinsic _ _ _ _ Hok)|lia|].
  assert (Hok' : MethodOk gs (nametable gs) owner (set_parameters ps m)).
  { destruct Hok as [A1 A2 A3 A4]. split; [done| |done|done]. cbn. intros q [k Hk]%list_elem_of_lookup Hq.
    destruct (Forall2_lookup_r _ _ _ _ _ Hshape Hk) as (p & Hp & Hn & Hf). rewrite Hn. apply A2; [by eapply list_elem_of_lookup_2|by rewrite <- Hf]. }
  destruct (defineMethod_tail nn hs file ctxOwner method gs gs owner errors sym (set_parameters ps m) (nametable gs) Hown Esym) as (m' & Edef & Hok2 & H1 & H2 & H3 & H4 & H5);
    [by eexists|exact Eargs|done|done|].
  cbn in H1, H2, H3, H4, H5. assert (Hready' : Ready h owner name (withMethod sym m' (nametable gs) gs)).
  { eapply ready_with; [done|lia|done..|apply grown_refl, (rd_consistent _ _ _ _ Hready)|done]. }
  exists errors, m'. split_and!; [done|done| | |by rewrite H5].
  - pose proof (withMethod_same sym gs m m' (nametable gs) ltac:(lia) Hm H1 H2 H3 H4) as Hsame. by rewrite set_names_id in Hsame.
  - rewrite (lookup_with h owner name gs hs _ sym m m'); try done; [lia|by rewrite H5].
Qed.

(** ** What stays as it is *)

(** The owners of symbols, aliases, and the links to singleton classes *)
Record Kept (gs gs' : GlobalState) : Prop := mkKept {
  kp_wk : wellKnown gs' = wellKnown gs;
  kp_owner kd i o n : 0 <= i -> place gs kd i = Some (o, n) -> exists n', place gs' kd i = Some (o, n');
  kp_alias kd i : 0 <= i -> aliasTarget gs' kd i = aliasTarget gs kd i;
  kp_singleton k : 0 <= k -> member gs' k (n_singleton (wellKnown gs)) = member gs k (n_singleton (wellKnown gs)) }.

Lemma kept_trans gs1 gs2 gs3 : Kept gs1 gs2 -> Kept gs2 gs3 -> Kept gs1 gs3.
Proof.
  intros [A1 A2 A3 A4] [B1 B2 B3 B4]. split; [congruence| |intros; rewrite B3, A3 by done; done|].
  - intros kd i o n Hi Hp. destruct (A2 kd i o n Hi Hp) as [n1 H1]. by apply (B2 kd i o n1).
  - intros k Hk. rewrite <- A4 by done. rewrite <- A1. by apply B4.
Qed.

Lemma kept_same gs gs' : SameViews gs gs' -> Kept gs gs'.
Proof. intros [H1 [H2 H3 H4 H5] H6 H7 H8]. split; [done|intros kd i o n Hi Hp; exists n; by rewrite H5|done|intros k Hk; by apply H6]. Qed.

Lemma kept_new h kd r o n gs gs' : Consistent h gs -> NewSymbol kd r o n gs gs' -> plain (wellKnown gs) n -> Kept gs gs'.
Proof.
  intros Hco Hnew Hpl. pose proof Hnew as [N1 N2 N3 N4 N5 N6 N7 N8 N9]. split; [done| |done|].
  - intros kd' i o' n' Hi Hp. exists n'. rewrite N6 by done. rewrite decide_False; [done|]. intros [= -> ->]. apply place_lt in Hp; [|done]. lia.
  - intros k Hk. rewrite N7 by done. rewrite decide_False; [done|]. intros [_ [= _ <-]]. by destruct Hpl.
Qed.

Lemma kept_renamed what o n n' gs gs' : Renamed what o n n' gs gs' -> place gs KMethod what = Some (o, n) -> plain (wellKnown gs) n ->
  plain (wellKnown gs) n' -> Kept gs gs'.
Proof.
  intros [R1 R2 R3 R4 R5 R6] Hw Hpl Hpl'. split; [done| |done|].
  - intros kd i o1 n1 Hi Hp. rewrite R3 by done. case_decide as E; [|by exists n1]. injection E as -> ->. rewrite Hw in Hp. injection Hp as <- <-. by exists n'.
  - intros k Hk. rewrite R4 by done. rewrite !decide_False; [done| |]; intros [= _ <-]; [by destruct Hpl|by destruct Hpl'].
Qed.

Lemma dealias_kept h gs gs' fuel def : Consistent h gs -> Kept gs gs' -> forall kd i s, 0 < i -> is_Some (place gs kd i) ->
  dealiasWithDefault (g_symbols gs) fuel (makeSymbolRef kd i) def = Some s -> dealiasWithDefault (g_symbols gs') fuel (makeSymbolRef kd i) def = Some s.
Proof.
  intros Hco Hk. induction fuel as [|fuel IH]; intros kd i s Hi [[o n] Hp]; pose proof Hp as Hb%(placed_bound h); try lia; try done;
    destruct (kp_owner _ _ Hk kd i o n ltac:(lia) Hp) as [n' Hp']; cbn [dealiasWithDefault];
    rewrite !symbolResultType_place by (lia || by eexists); cbn [mbind option_bind];
    pose proof (kp_alias _ _ Hk kd i ltac:(lia)) as Ha; unfold aliasTarget in Ha;
    destruct (resultType gs kd i) eqn:E1, (resultType gs' kd i) eqn:E2; try done; injection Ha as ->; try done.
  destruct (co_alias _ _ Hco kd i symbol) as (kd' & i' & -> & Hi' & Hp2); [lia|by unfold aliasTarget; rewrite E1|]. by apply IH.
Qed.

Lemma singleton_kept h gs gs' k s : Consistent h gs -> Kept gs gs' -> 0 < k ->
  lookupSingletonClass (g_symbols gs) k = Some s -> lookupSingletonClass (g_symbols gs') k = Some s.
Proof.
  intros Hco Hk Hpos E. unfold lookupSingletonClass in *. destruct (k =? untypedClass); [done|]. apply fmap_Some in E as (t & E & ->).
  enough (H : findMember (g_symbols gs') k (n_singleton (wellKnown gs')) = Some t) by (unfold wellKnown in H; by rewrite H). rewrite (kp_wk _ _ Hk).
  fold (wellKnown gs) in E. unfold findMember, findMemberNoDealias in *. apply bind_Some in E as (ret & E & Et). apply bind_Some in E as (c & Hc & [= <-]).
  destruct (kp_owner _ _ Hk KClassOrModule k (cm_owner c) (cm_name c)) as [n' Hp']; [lia|cbn; by rewrite Hc|]. apply data_placed in Hp' as (c' & Hc' & _).
  pose proof (kp_singleton _ _ Hk k ltac:(lia)) as Hm. unfold member in Hm. rewrite Hc, Hc' in Hm. cbn in Hm. rewrite Hc'. cbn [mbind option_bind]. rewrite Hm.
  destruct (cm_members c !! n_singleton (wellKnown gs)) as [sym|] eqn:Em; [|done]. change (default noSymbol (Some sym)) with sym in *.
  destruct (symbol_exists sym); [|done].
  destruct (co_singleton _ _ Hco k sym) as (s & Hs & -> & Hatt); [done|unfold member; by rewrite Hc|].
  assert (Hps : is_Some (place gs KClassOrModule s)) by (unfold member in Hatt; cbn; destruct (classData (g_symbols gs) s); [by eexists|done]).
  pose proof Hps as [p Hb%(placed_bound h)]; [|done|lia]. unfold dealias, classSymbol in *. rewrite makeSymbolRef_kind in * by lia.
  by eapply dealias_kept.
Qed.

Lemma methodOwner_kept h nn gs gs' kd i isSelf owner klass : Consistent h gs -> Kept gs gs' -> 0 < i -> is_Some (place gs kd i) ->
  enclosingClass (g_symbols gs) (makeSymbolRef kd i) = Some klass -> 0 < klass -> 0 < sym_Object nn ->
  methodOwner nn gs (makeSymbolRef kd i) isSelf = Some owner ->
  enclosingClass (g_symbols gs') (makeSymbolRef kd i) = Some klass /\ methodOwner nn gs' (makeSymbolRef kd i) isSelf = Some owner.
Proof.
  intros Hco Hk Hi [[o n] Hp] Ec Hklass Hobj E. pose proof Hp as Hb%(placed_bound h); [|done|lia].
  assert (Ec' : enclosingClass (g_symbols gs') (makeSymbolRef kd i) = Some klass).
  { unfold enclosingClass in *. rewrite makeSymbolRef_kind, makeSymbolRef_index in * by lia. pose proof Hp as [Ho _]%(co_owner _ _ Hco); [|done].
    destruct (kp_owner _ _ Hk kd i o n ltac:(lia) Hp) as [n' Hp']. destruct kd; [done|..].
    all: apply data_placed in Hp as (x & Hx & [= <- <-]); apply data_placed in Hp' as (x' & Hx' & [= Hown _]); rewrite Hx in Ec; rewrite Hx'; cbn in Ec |- *;
      try congruence.
    rewrite Hown. apply bind_Some in Ec as (m & Hm & [= <-]).
    destruct (kp_owner _ _ Hk KMethod (symbolIndex (tp_owner x)) (me_owner m) (me_name m)) as [n1 Hp1]; [done|cbn; by rewrite Hm|].
    apply data_placed in Hp1 as (m' & -> & [= Hm' _]). cbn. by rewrite Hm'. }
  split; [done|]. unfold methodOwner in *. rewrite Ec in E. rewrite Ec'. cbn [mbind option_bind] in *. destruct isSelf; [|done].
  eapply singleton_kept; [done|done| |done]. destruct (klass =? root); lia.
Qed.

(** ** A method that gets a symbol *)

Lemma method_ref i : 0 <= i < 2 ^ 29 -> isMethod (makeSymbolRef KMethod i) = true.
Proof. intros Hi. unfold isMethod. by rewrite makeSymbolRef_kind. Qed.

Definition newMethod (loc : Loc) (owner name : Z) (nameLoc : Loc) : Method :=
  mkMethod nameLoc owner name 0 (MethodFlags_of_bits 0) None [] NullType 0 (if locFile loc =? 0 then [] else [loc]).

Lemma enterMethod_new h owner name gs loc nameLoc : Ready h owner name gs -> member gs owner name = None -> tableSize gs KMethod + 1 < 2 ^ 29 ->
  is_Some (fileOf gs (locFile loc)) ->
  exists gs', enterMethodSymbol loc owner name nameLoc gs = Some (tableSize gs KMethod, gs') /\ Ready h owner name gs' /\ Kept gs gs' /\
    nametable gs' = nametable gs /\ tableSize gs' KMethod = tableSize gs KMethod + 1 /\ g_files gs' = g_files gs /\
    member gs' owner name = Some (makeSymbolRef KMethod (tableSize gs KMethod)) /\
    methods (table gs') = methods (table gs) ++ [newMethod loc owner name nameLoc].
Proof.
  intros Hready Hnone Hroom Hfile. pose proof Hready as [Hco Hlive Hnamed Hplain Hkind Hmeth [stub Hstub] Hchain].
  pose proof Hlive as (Ho & o' & n' & Hpo & Ho'). destruct (enterMethodSymbol_entered loc owner name nameLoc gs) as (r & gs' & E & He); [lia|by eexists|].
  assert (Hen : Enterable gs KMethod owner name) by (split; [done|done|done|done|done]).
  pose proof (consistent_entered h _ _ _ _ _ _ Hco Hen ltac:(done) He) as Hco'.
  destruct He as [(s & Hs & _)|[_ Hnew]]; [by rewrite Hnone in Hs|]. pose proof Hnew as [N1 N2 N3 N4 N5 N6 N7 N8 N9]. subst r. exists gs'.
  assert (Hmethods : methods (table gs') = methods (table gs) ++ [newMethod loc owner name nameLoc]).
  { unfold enterMethodSymbol in E. apply bind_Some in E as (c & Hc & E). destruct (symbol_exists (memberOf c name)) eqn:Ex.
    { destruct (memberOf_member gs owner c name Hc) as [_ H]. rewrite H in Hnone by done. done. }
    apply bind_Some in E as (gs1 & E1 & E). rewrite addLoc_nil in E. cbn [mbind option_bind] in E. unfold updateClass in E1.
    apply bind_Some in E1 as (c1 & _ & E1). injection E1 as <-. by injection E as <-. }
  assert (Hfiles : g_files gs' = g_files gs) by (unfold settings in N3; congruence).
  assert (Hmem : member gs' owner name = Some (makeSymbolRef KMethod (tableSize gs KMethod))) by (rewrite N7, decide_True by (done || lia); done).
  assert (Hold : forall i x, methodData (g_symbols gs) i = Some x -> methodData (g_symbols gs') i = Some x).
  { intros i x Hx. unfold methodData in *. fold (table gs'). rewrite Hmethods. by apply lookup_app_l_Some. }
  pose proof (kept_new h _ _ _ _ _ _ Hco Hnew Hplain) as Hk. pose proof (co_sizes _ _ Hco KMethod) as Hsz.
  split_and!; try done. split; try done.
  - destruct (kp_owner _ _ Hk KClassOrModule owner o' n') as [n1 Hp1]; [lia|done|]. split; [done|by exists o', n1].
  - unfold named. by rewrite N1.
  - by rewrite N2.
  - intros i x Hx. rewrite N1. unfold methodData in Hx. fold (table gs') in Hx. rewrite Hmethods in Hx.
    assert (Hok : MethodOk gs (nametable gs) owner x).
    { apply lookup_app_Some in Hx as [Hx|[_ Hx]]; [by eapply (Hmeth i)|]. apply list_lookup_singleton_Some in Hx as [_ <-].
      split; [done|by intros p ?%elem_of_nil|done|]. cbn. destruct (locFile loc =? 0); [by intros l ?%elem_of_nil|]. intros l ->%list_elem_of_singleton. done. }
    eapply (methodOk_mono h gs); [done|apply grown_refl, Hco|done].
  - rewrite N2. exists stub. by apply Hold.
  - intros raw s Hraw Hs. rewrite N1 in Hraw. rewrite N7 in Hs by lia. case_decide; [|by apply (Hchain raw)]. injection Hs as <-. apply method_ref. change (0 <= tableSize gs KMethod < 2 ^ 29). lia.
Qed.

Lemma mangleRename_ready h owner name gs what : Ready h owner name gs -> room (nametable gs) <= 2 ^ 29 -> 0 < what < 2 ^ 29 ->
  place gs KMethod what = Some (owner, name) ->
  exists gs', mangleRenameMethod what name gs = Some gs' /\ Ready h owner name gs' /\ Kept gs gs' /\ member gs' owner name = None /\
    tableSize gs' KMethod = tableSize gs KMethod /\ g_files gs' = g_files gs /\ grown h (nametable gs) (nametable gs') /\
    room (nametable gs') <= room (nametable gs) + 2.
Proof.
  intros Hready Hroom Hw Hp. pose proof Hready as [Hco Hlive Hnamed Hplain Hkind Hmeth [stub Hstub] Hchain]. pose proof (room_capacities (nametable gs)) as Hcap.
  pose proof Hlive as (Ho & o' & n' & Hpo & Ho').
  destruct (mangleRename_renamed h gs what owner name Hco ltac:(lia) ltac:(lia) Ho Hp) as (gs' & nm & nt & k & E & Hnt & Hrn & Hset & Hnm).
  pose proof Hnm as [Hnum Hint Hfree Htaken Hfresh]. pose proof Hint as (Hwf & _ & Hin & Hmono & _). assert (Hg : grown h (nametable gs) nt) by done.
  assert (Hpl : plain (wellKnown gs) nm) by (by eapply unique_plain). pose proof (kept_renamed _ _ _ _ _ _ Hrn Hp Hplain Hpl) as Hk.
  destruct (co_listed _ _ Hco KMethod what owner name) as [_ Hmn]; [lia|done|by split|done|].
  assert (Hne : nm <> name) by (intros ->; by rewrite Hfree in Hmn). pose proof Hrn as [R1 R2 R3 R4 R5 R6].
  assert (Hfiles : g_files gs' = g_files gs) by (unfold settings in Hset; congruence).
  assert (Hmethods : exists m, methodData (g_symbols gs) what = Some m /\ exists nm', methods (table gs') = <[Z.to_nat what := set_methodName nm' m]> (methods (table gs))).
  { unfold mangleRenameMethod in E. apply bind_Some in E as (m & Hm & E). apply bind_Some in E as (c & Hc & E). apply bind_Some in E as (u & _ & E).
    pose proof Hp as (m1 & Hm1 & [= Ho1 _])%data_placed. rewrite Hm in Hm1. injection Hm1 as <-. rewrite Ho1 in E.
    destruct (nextMangledName_spec h gs owner name Hco ltac:(lia) Ho ltac:(by eexists)) as (nm' & nt' & k' & Enx & _). rewrite Enx in E. cbn [mbind option_bind] in E.
    apply bind_Some in E as (gs1 & E1 & E). unfold updateClass in E1. apply bind_Some in E1 as (c1 & _ & E1). injection E1 as <-. unfold updateMethod in E.
    apply bind_Some in E as (m2 & Hm2 & [= <-]). exists m. split; [done|]. exists nm'. change (methodData (g_symbols gs) what = Some m2) in Hm2.
    rewrite Hm in Hm2. by injection Hm2 as <-. }
  destruct Hmethods as (m & Hm & nm' & Hmethods).
  assert (Hdata : forall i, methodData (g_symbols gs') i = if decide (Z.to_nat i = Z.to_nat what) then Some (set_methodName nm' m) else methodData (g_symbols gs) i).
  { intros i. unfold methodData in *. fold (table gs'). rewrite Hmethods. case_decide as Hi.
    - rewrite Hi, list_lookup_insert_eq; [done|]. by eapply lookup_lt_Some.
    - by rewrite list_lookup_insert_ne. }
  assert (Hmem : member gs' owner name = None) by (rewrite R4, decide_False, decide_True by (congruence || lia); done).
  assert (Hco' : Consistent h gs').
  { eapply (consistent_renamed h what owner name nm gs gs'); try done; [by rewrite Hnt| |exists (mangled name k); by rewrite Hnt|lia].
    intros x [d Hd]. exists d. rewrite Hnt. by apply Hmono. }
  exists gs'. rewrite Hnt. split_and!; try done; [|by eapply freshUnique_room, Hfresh; apply Hco]. split; try done.
  - destruct (kp_owner _ _ Hk KClassOrModule owner o' n') as [n1 Hp1]; [lia|done|]. split; [done|by exists o', n1].
  - destruct Hnamed as [d Hd]. exists d. rewrite Hnt. by apply Hmono.
  - by rewrite R1.
  - intros i x Hx. rewrite Hnt. eapply (methodOk_mono h gs); [done|exact Hg|]. rewrite Hdata in Hx. case_decide; [|by eapply Hmeth].
    injection Hx as <-. destruct (Hmeth what m Hm) as [A1 A2 A3 A4]. by split.
  - rewrite R1, Hdata. case_decide; by eexists.
  - intros raw s Hraw Hs. rewrite R4 in Hs by lia. case_decide; [injection Hs as <-; apply method_ref; lia|]. case_decide; [done|].
    apply (Hchain raw s); [|done]. destruct Hraw as [->|[j Hj]]; [by left|]. right. exists j. rewrite Hnt in Hj. apply (member_mangled h gs nt owner raw s); done.
Qed.

Lemma paramsOk_grown h nn nt nt' params : grown h nt nt' -> ParamsOk nn nt params -> ParamsOk nn nt' params.
Proof.
  intros [_ Hg] [A1 A2 A3 A4]. split; [done| |done|done]. eapply Forall_impl; [exact A2|]. intros p H Hk. destruct (H Hk) as [s Hs]. exists s. by apply Hg.
Qed.

(** The parameters of a new symbol *)
Lemma fresh_defined nn h hs file ctxOwner method owner gs gs1 errors sym : NameTable_wf h (nametable gs) ->
  methodOwner nn gs ctxOwner (mdf_isSelfMethod (fdm_flags method)) = Some owner -> is_Some (fileOf gs1 file) ->
  methodSymbol hs file owner method gs = Some (errors, sym, gs1) -> Ready h owner (fdm_name method) gs1 -> grown h (nametable gs) (nametable gs1) ->
  room (nametable gs1) + 2 * Z.of_nat (length (fdm_parsedParams method)) <= 2 ^ 29 ->
  ParamsOk nn (nametable gs) (fdm_parsedParams method) -> hashParams nn hs (nametable gs) (fdm_parsedParams method) = Some (fdm_arityHash method) ->
  0 < sym < 2 ^ 29 -> methodData (g_symbols gs1) sym = Some (newMethod (locAt file (fdm_declLoc method)) owner (fdm_name method) (locAt file (fdm_nameLoc method))) ->
  member gs1 owner (fdm_name method) = Some (makeSymbolRef KMethod sym) ->
  exists m nt, let gs2 := withMethod sym m nt gs1 in
    defineMethod nn hs file ctxOwner method gs = Some (errors, sym, gs2) /\ Ready h owner (fdm_name method) gs2 /\ Kept gs1 gs2 /\
    capacities nt <= 2 ^ 29 /\ me_owner m = owner /\ length (me_parameters m) = length (fdm_parsedParams method) /\
    methodArityHash gs2 hs m = Some (fdm_arityHash method) /\
    lookupMethodSymbolWithHash gs2 owner (fdm_name method) hs (fdm_arityHash method) = Some sym.
Proof.
  intros Hwf Hown Hfile Esym Hready Hg Hroom Hok Hhash Hsym Hm Hmem. set (m0 := newMethod _ _ _ _) in *.
  destruct (defineArgs_new nn file sym gs1 m0 Hm h (fdm_parsedParams method)) as (ps & nt & Eargs & Hg' & Hlen & Hall & Hcap);
    [done|done|apply (rd_consistent _ _ _ _ Hready)|by eapply paramsOk_grown|done|].
  assert (Hgg : grown h (nametable gs) nt) by (by eapply grown_trans).
  assert (Hmok : MethodOk gs1 nt owner (set_parameters ps m0)).
  { destruct (rd_methods _ _ _ _ Hready sym m0 Hm) as [A1 A2 A3 A4]. split; [done| |done|done]. cbn. intros q [k Hk]%list_elem_of_lookup Hq.
    destruct (lookup_lt_is_Some_2 (fdm_parsedParams method) k) as [p Hp]; [rewrite <- Hlen; by eapply lookup_lt_Some|].
    destruct (Hall k p q Hp Hk) as [Hf Hn]. unfold fixedName in Hn. rewrite Hf in Hq. rewrite Hq in Hn.
    destruct (Forall_lookup_1 _ _ _ _ (po_keywords _ _ _ Hok) Hp Hq) as [s Hs]. exists s. rewrite Hn. by apply Hgg. }
  destruct (defineMethod_tail nn hs file ctxOwner method gs gs1 owner errors sym (set_parameters ps m0) nt Hown Esym)
    as (m & Edef & Hmok' & H1 & H2 & H3 & H4 & H5); [by eexists|done|done|done|]. cbn in H1, H2, H3, H4, H5. exists m, nt. cbn zeta.
  assert (Hready' : Ready h owner (fdm_name method) (withMethod sym m nt gs1)) by (eapply ready_with; try done; lia).
  assert (Hhash' : methodArityHash (withMethod sym m nt gs1) hs m = Some (fdm_arityHash method)).
  { rewrite <- Hhash. by eapply (arity_agrees nn hs h gs Hwf (withMethod sym m nt gs1)). }
  split_and!; try done.
  - eapply kept_trans; [|eapply kept_same, (withMethod_same sym gs1 m0 m nt); (done || lia)]. by split; [|intros kd i o n _ Hp; exists n| |].
  - by rewrite H5.
  - destruct (ready_members _ _ _ _ Hready') as (c & Hc & Hcm). unfold lookupMethodSymbolWithHash. rewrite Hc. cbn [mbind option_bind mangledLoop].
    rewrite Hcm. change (member (withMethod sym m nt gs1) owner (fdm_name method)) with (member gs1 owner (fdm_name method)). rewrite Hmem.
    rewrite method_ref, makeSymbolRef_index by lia.
    destruct (chain_matches _ _ _ _ Hready' hs (fdm_arityHash method) sym m) as (a & Ha & ->); [apply withMethod_data; by eexists|done|rewrite H2; by left|].
    rewrite Hhash' in Ha. injection Ha as <-. cbn [mbind option_bind]. by rewrite Z.eqb_refl.
Qed.

Section Once.
Context (nn : NamerNames) (h hs : str -> Z) (file ctxOwner : Z) (method : FoundMethod) (owner : Z) (gs : GlobalState).
Context (Hready : Ready h owner (fdm_name method) gs) (Hown : methodOwner nn gs ctxOwner (mdf_isSelfMethod (fdm_flags method)) = Some owner)
  (Hfile : is_Some (fileOf gs file)) (Hsize : tableSize gs KMethod + 1 < 2 ^ 29)
  (Hroom : room (nametable gs) + 2 * Z.of_nat (length (fdm_parsedParams method)) + 2 <= 2 ^ 29)
  (Hok : ParamsOk nn (nametable gs) (fdm_parsedParams method))
  (Hhash : hashParams nn hs (nametable gs) (fdm_parsedParams method) = Some (fdm_arityHash method))
  (Hcol : forall j m, methodData (g_symbols gs) j = Some m -> me_owner m = owner -> methodArityHash gs hs m = Some (fdm_arityHash method) ->
     length (me_parameters m) = length (fdm_parsedParams method)).

(** What is known after a method was defined *)
Definition definedAs (sym : Z) (gs1 : GlobalState) : Prop :=
  Ready h owner (fdm_name method) gs1 /\ Kept gs gs1 /\ g_files gs1 = g_files gs /\ sym <> 0 /\ capacities (nametable gs1) <= 2 ^ 29 /\
  lookupMethodSymbolWithHash gs1 owner (fdm_name method) hs (fdm_arityHash method) = Some sym /\
  exists m, methodData (g_symbols gs1) sym = Some m /\ me_owner m = owner /\ length (me_parameters m) = length (fdm_parsedParams method) /\
    methodArityHash gs1 hs m = Some (fdm_arityHash method).

Abbreviation declLoc := (locAt file (fdm_declLoc method)).
Abbreviation nameLoc := (locAt file (fdm_nameLoc method)).

(** The symbol is entered in a state in which the name is free. *)
Lemma define_entered gs0 errors : Ready h owner (fdm_name method) gs0 -> Kept gs gs0 -> member gs0 owner (fdm_name method) = None ->
  tableSize gs0 KMethod = tableSize gs KMethod -> g_files gs0 = g_files gs -> grown h (nametable gs) (nametable gs0) ->
  room (nametable gs0) <= room (nametable gs) + 2 ->
  (forall sym gs1, enterMethodSymbol declLoc owner (fdm_name method) nameLoc gs0 = Some (sym, gs1) -> tableSize gs1 KMethod = tableSize gs KMethod + 1 ->
     methodSymbol hs file owner method gs = Some (errors, sym, gs1)) ->
  exists sym gs1, defineMethod nn hs file ctxOwner method gs = Some (errors, sym, gs1) /\ definedAs sym gs1.
Proof.
  intros Hr0 Hk0 Hnone Hs0 Hf0 Hg0 Hroom0 Hsym. pose proof (co_sizes _ _ (rd_consistent _ _ _ _ Hr0) KMethod) as Hsz.
  destruct (enterMethod_new h owner (fdm_name method) gs0 declLoc nameLoc) as (gs1 & Eent & Hr1 & Hk1 & Hn1 & Hs1 & Hf1 & Hm1 & Hmeth); try done;
    [by rewrite Hs0|cbn; unfold fileOf; by rewrite Hf0|].
  specialize (Hsym _ _ Eent ltac:(lia)). set (r := tableSize gs0 KMethod) in *.
  destruct (fresh_defined nn h hs file ctxOwner method owner gs gs1 errors r) as (m & nt & Edef & Hr2 & Hk2 & Hcap2 & Ho2 & Hlen2 & Hh2 & Hl2); try done.
  - apply (rd_consistent _ _ _ _ Hready).
  - unfold fileOf. by rewrite Hf1, Hf0.
  - by rewrite Hn1.
  - rewrite Hn1. lia.
  - lia.
  - unfold methodData. fold (table gs1). rewrite Hmeth. subst r. cbn. unfold vsize. by rewrite Nat2Z.id, list_lookup_middle.
  - exists r, (withMethod r m nt gs1). split; [done|]. split_and!; try done; [|by cbn; rewrite Hf1|lia|].
    + eapply kept_trans; [exact Hk0|]. by eapply kept_trans.
    + exists m. split_and!; try done. apply withMethod_data. unfold methodData. fold (table gs1). rewrite Hmeth. subst r. cbn. unfold vsize.
      rewrite Nat2Z.id, list_lookup_middle by done. by eexists.
Qed.

Lemma define_once : exists errors sym gs1, defineMethod nn hs file ctxOwner method gs = Some (errors, sym, gs1) /\ definedAs sym gs1.
Proof.
  pose proof (rd_consistent _ _ _ _ Hready) as Hco. pose proof (room_capacities (nametable gs)) as Hcap.
  destruct (member gs owner (fdm_name method)) as [s|] eqn:Em.
  - destruct (enterMethod_existing _ _ _ _ s declLoc nameLoc Hready Em) as (i & y & -> & Hi & Hy & Hoy & Hny & Eent).
    destruct (lookupWithHash_spec _ _ _ _ Hready hs (fdm_arityHash method) ltac:(lia)) as (sym & El & Hspec). destruct (decide (sym = 0)) as [->|Hne].
    + destruct (redefinition_total _ _ _ _ i y (fdm_parsedParams method) Hready Hi Hy) as [[errors Herr] _].
      destruct (mangleRename_ready h owner (fdm_name method) gs i Hready) as (gs0 & Eren & Hr0 & Hk0 & Hn0 & Hs0 & Hf0 & Hg0 & Hroom0);
        [lia|done|cbn; by rewrite Hy, <- Hoy, <- Hny|].
      exists errors. apply (define_entered gs0); try done. intros sym gs1 E1 _. unfold methodSymbol. rewrite Eent. cbn [mbind option_bind].
      rewrite Z.eqb_refl. cbn [negb]. rewrite El. cbn [mbind option_bind Z.eqb]. rewrite Herr. cbn [mbind option_bind]. rewrite Eren. cbn [mbind option_bind].
      by rewrite E1.
    + destruct (Hspec Hne) as (_ & raw & j & m & Hpos & Hmem & Hr & Hm & Hom & Hnm & Hh).
      destruct (defineMethod_existing nn h hs file ctxOwner method owner gs sym m Hready ltac:(lia) Hown Hfile El Hne Hm) as (errors & m' & E & Hr1 & Hsame & Hl1 & Hshape);
        [by eapply Hcol|].
      exists errors, sym, (withMethod sym m' (nametable gs) gs). split; [done|]. split_and!; try done; [by apply kept_same|cbn; lia|].
      exists m'. rewrite withMethod_data by (by eexists). split_and!; [done| | |].
      * pose proof (sa_place _ _ (sv_symbols _ _ Hsame) KMethod sym) as Hpl. unfold place in Hpl. rewrite withMethod_data, Hm in Hpl by (by eexists). cbn in Hpl. congruence.
      * rewrite <- (Forall2_length _ _ _ Hshape). by eapply Hcol.
      * by rewrite (arityHash_shape gs _ hs m m').
  - exists None. apply (define_entered gs); try done; [by split; [|intros kd i o n _ Hp; exists n| |]|apply grown_refl, Hco|lia|].
    intros sym gs1 E1 Hs1. unfold methodSymbol. rewrite E1. cbn [mbind option_bind]. change (vsize (methods (table gs1))) with (tableSize gs1 KMethod).
    change (vsize (methods (table gs))) with (tableSize gs KMethod). rewrite (proj2 (Z.eqb_neq _ _)) by lia. done.
Qed.
End Once.

(** C5: a method that the namer defines is found again. The conditions: the table is consistent and the owner is one of its
    classes; the name of the method is an ordinary one, and whatever the owner has under it or under its mangled names is a
    method; no method of the owner is the stub of an intrinsic one; methods are aliases of methods only, their keywords are
    strings and their files exist; the parameters are none of them shadow arguments, their keywords are strings, no two
    alike, and at most one of them is a block; a method of the owner with the same arity hash has as many parameters; tables have room below 2^29. Then defining
    the method succeeds: its symbol is new, or one of the same arity hash that the owner has already, or new after the
    present method of that name was renamed. Afterwards the table is consistent, all symbols have the owners they had, and the
    owner lists the symbol under the name of the method or one of its mangled names; the symbol has as many parameters as
    the method, and their hash, and [lookupMethodSymbolWithHash] finds it. Defining the method again, as the namer does
    on the fast path, gives the same symbol and adds none. *)
Theorem defineMethod_correct nn h hs file kd i method owner klass gs :
  let ctxOwner := makeSymbolRef kd i in
  let params := fdm_parsedParams method in
  Ready h owner (fdm_name method) gs ->
  0 < i -> is_Some (place gs kd i) -> enclosingClass (g_symbols gs) ctxOwner = Some klass -> 0 < klass -> 0 < sym_Object nn ->
  methodOwner nn gs ctxOwner (mdf_isSelfMethod (fdm_flags method)) = Some owner ->
  is_Some (fileOf gs file) -> tableSize gs KMethod + 1 < 2 ^ 29 -> room (nametable gs) + 2 * Z.of_nat (length params) + 2 <= 2 ^ 29 ->
  ParamsOk nn (nametable gs) params -> hashParams nn hs (nametable gs) params = Some (fdm_arityHash method) ->
  (forall j m, methodData (g_symbols gs) j = Some m -> me_owner m = owner -> methodArityHash gs hs m = Some (fdm_arityHash method) ->
     length (me_parameters m) = length params) ->
  exists errors sym gs1 m, defineMethod nn hs file ctxOwner method gs = Some (errors, sym, gs1) /\ Consistent h gs1 /\ Kept gs gs1 /\
    methodData (g_symbols gs1) sym = Some m /\ me_owner m = owner /\ chainName (nametable gs1) (fdm_name method) (me_name m) /\
    member gs1 owner (me_name m) = Some (makeSymbolRef KMethod sym) /\ length (me_parameters m) = length params /\
    methodArityHash gs1 hs m = Some (fdm_arityHash method) /\
    lookupMethodSymbolWithHash gs1 owner (fdm_name method) hs (fdm_arityHash method) = Some sym /\
    exists errors' gs2, defineMethod nn hs file ctxOwner method gs1 = Some (errors', sym, gs2) /\ SameViews gs1 gs2 /\
      lookupMethodSymbolWithHash gs2 owner (fdm_name method) hs (fdm_arityHash method) = Some sym.
Proof.
  intros ctxOwner params Hready Hi Hp Hklass Hk0 Hobj Hown Hfile Hsize Hroom Hok Hhash Hcol. pose proof (rd_consistent _ _ _ _ Hready) as Hco.
  destruct (define_once nn h hs file ctxOwner method owner gs) as (errors & sym & gs1 & E & Hr1 & Hkept & Hf & Hne & Hcap & Hl & m & Hm & Ho & Hlen & Hh); [done..|].
  destruct (methodOwner_kept h nn gs gs1 kd i _ owner klass Hco Hkept Hi Hp Hklass Hk0 Hobj Hown) as [_ Hown1].
  destruct (defineMethod_existing nn h hs file ctxOwner method owner gs1 sym m Hr1 Hcap Hown1) as (errors' & m' & E' & _ & Hsame & Hl' & _);
    [unfold fileOf; by rewrite Hf|done|done|done|done|].
  destruct (lookupWithHash_spec _ _ _ _ Hr1 hs (fdm_arityHash method) Hcap) as (sym' & Hl1 & Hspec). rewrite Hl in Hl1. injection Hl1 as <-.
  destruct (Hspec Hne) as (_ & raw & j & m1 & Hpos & Hmem & _ & Hm1 & _ & Hn1 & _). rewrite Hm in Hm1. injection Hm1 as <-. subst raw.
  exists errors, sym, gs1, m. split_and!; try done; [by destruct Hr1|by eapply position_chain|]. by eexists _, _.
Qed.

(** C39: the hash of the parameters in the tree is the hash of the parameters in the symbol table. The conditions: the symbol
    has no parameters yet and is no stub of an intrinsic method, the name table is well-formed and has room, no parameter is
    a shadow argument, their keywords are strings, no two alike, and at most one of them is a block. Then entering the parameters for the symbol succeeds, it has
    as many of them, and its [methodArityHash] is [hashParams] of the tree. *)
Theorem arity_hash_agrees nn h hs file sym gs m params : methodData (g_symbols gs) sym = Some m -> isIntrinsic m = false -> me_parameters m = [] ->
  NameTable_wf h (nametable gs) -> ParamsOk nn (nametable gs) params -> room (nametable gs) + 2 * Z.of_nat (length params) <= 2 ^ 29 ->
  exists gs' m', defineArgs nn file sym params gs = Some gs' /\ methodData (g_symbols gs') sym = Some m' /\
    length (me_parameters m') = length params /\ methodArityHash gs' hs m' = hashParams nn hs (nametable gs) params.
Proof.
  intros Hm Hi Hnil Hwf Hok Hroom. destruct (defineArgs_new nn file sym gs m Hm h params) as (ps & nt & E & Hg & Hlen & Hall & _); [done..|].
  exists (withMethod sym (set_parameters ps m) nt gs), (set_parameters ps m).
  split_and!; [done|apply withMethod_data; by eexists|done|]. by eapply (arity_agrees nn hs h gs Hwf (withMethod sym (set_parameters ps m) nt gs)).
Qed.

(** ** Examples *)

(** [def foo(x, bar:, &blk)] in a class that has a method [bar] *)
Definition sampleNamerNames : NamerNames := mkNamerNames 0 0 (text 12) (text 10) (text 11) 0 0 0 0 0 0 0 0 4.

Definition sampleParams : list ParsedParam :=
  [mkParsedParam (mkLocOffsets 0 1) (mkLocalVariable foo 0) (mkParamFlags false false false false false);
   mkParsedParam (mkLocOffsets 0 1) (mkLocalVariable bar 0) (mkParamFlags true false false false false);
   mkParsedParam (mkLocOffsets 0 1) (mkLocalVariable (text 10) 0) (mkParamFlags false false false false true)].

Definition oneOther : list SymbolOp := [EnterClass nowhere root constantA; EnterMethod nowhere 4 bar nowhere].

Definition sampleFound : FoundMethod :=
  mkFoundMethod foo (mkLocOffsets 0 1) (mkLocOffsets 0 1) (mkLocOffsets 0 1) sampleParams
    (default 0 (hashParams sampleNamerNames sampleHash (nametable (after oneOther)) sampleParams)) (mkMethodDefFlags false false false false false false).

Lemma oneOther_run : rtc (opStep sampleEntryNames) sampleState (after oneOther).
Proof.
  apply after_steps; [vm_compute; by eexists|]. intros i op Hi.
  do 2 (destruct i as [|i]; [injection Hi as <-; cbn [take oneOther allowed]; enterable|]). done.
Qed.

Lemma oneOther_consistent : Consistent sampleHash (after oneOther).
Proof. exact (run_consistent _ _ _ _ sampleState_consistent oneOther_run). Qed.

Lemma sampleParams_ok : ParamsOk sampleNamerNames (nametable (after oneOther)) sampleParams.
Proof.
  split.
  - repeat constructor.
  - repeat constructor; try done. intros _. is_named.
  - vm_compute. repeat constructor; set_solver.
  - done.
Qed.

(** The methods of the example *)
Lemma oneOther_methods i m : methodData (g_symbols (after oneOther)) i = Some m ->
  me_resultType m = NullType /\ me_parameters m = [] /\ isIntrinsic m = false /\ me_locs m = [].
Proof. unfold methodData. destruct (Z.to_nat i) as [|[|j]]; intros E; vm_compute in E; simplify_eq; done. Qed.

Lemma oneOther_ready : Ready sampleHash 4 foo (after oneOther).
Proof.
  split.
  - exact oneOther_consistent.
  - is_live.
  - is_named.
  - vm_compute. done.
  - done.
  - intros i m (H1 & H2 & H3 & H4)%oneOther_methods. split; rewrite ?H1, ?H2, ?H3, ?H4; [done|by intros p ?%elem_of_nil|done|by intros l ?%elem_of_nil].
  - vm_compute. by eexists.
  - intros raw sym _ E. unfold member in E. vm_compute in E.
    destruct (decide (sym = makeSymbolRef KMethod 1)) as [->|Hne]; [done|]. exfalso. apply Hne. revert E. vm_compute. repeat case_match; congruence.
Qed.

Lemma defineMethod_correct_witness : exists errors sym gs1, defineMethod sampleNamerNames sampleHash 1 (classSymbol 4) sampleFound (after oneOther) = Some (errors, sym, gs1) /\
  lookupMethodSymbolWithHash gs1 4 foo sampleHash (fdm_arityHash sampleFound) = Some sym /\
  exists errors' gs2, defineMethod sampleNamerNames sampleHash 1 (classSymbol 4) sampleFound gs1 = Some (errors', sym, gs2).
Proof.
  destruct (defineMethod_correct sampleNamerNames sampleHash sampleHash 1 KClassOrModule 4 sampleFound 4 4 (after oneOther))
    as (errors & sym & gs1 & m & E & _ & _ & _ & _ & _ & _ & _ & _ & Hl & errors' & gs2 & E' & _).
  - exact oneOther_ready.
  - done.
  - vm_compute. by eexists.
  - vm_compute. done.
  - done.
  - done.
  - vm_compute. done.
  - vm_compute. by eexists.
  - vm_compute. done.
  - vm_compute. done.
  - exact sampleParams_ok.
  - vm_compute. done.
  - intros j m (_ & Hm & _)%oneOther_methods _ E. unfold methodArityHash in E. rewrite Hm in E. vm_compute in E. done.
  - exists errors, sym, gs1. split; [exact E|]. split; [exact Hl|]. exists errors', gs2. exact E'.
Defined.

Lemma arity_hash_agrees_witness : exists gs' m', defineArgs sampleNamerNames 1 1 sampleParams (after oneOther) = Some gs' /\
  methodData (g_symbols gs') 1 = Some m' /\ methodArityHash gs' sampleHash m' = Some (fdm_arityHash sampleFound).
Proof.
  destruct (methodData (g_symbols (after oneOther)) 1) as [m|] eqn:Hm; [|vm_compute in Hm; done].
  destruct (oneOther_methods 1 m Hm) as (_ & H2 & H3 & _).
  destruct (arity_hash_agrees sampleNamerNames sampleHash sampleHash 1 1 (after oneOther) m sampleParams Hm H3 H2) as (gs' & m' & E & Hm' & _ & Hh);
    [apply oneOther_consistent|exact sampleParams_ok|vm_compute; done|].
  exists gs', m'. split; [exact E|]. split; [exact Hm'|]. rewrite Hh. vm_compute. reflexivity.
Defined.
