(* ===== verification/NamerDelete.v ===== *)
(** * Deletion of old definitions in the namer

    Models the part of src/namer/namer.cc that removes the definitions of the last version of a file before the new ones
    are entered ([deleteOldDefinitions] and what it calls), [insertField], and the hashes of names of
    src/core/FileHash.cc by which the old definitions are known. The members of a class are visited in the order of a
    hash table, which is an argument. *)

From S2P Require Import Prelude Pickler FileHash Files Locs Types NameTable NameText Symbols SymbolRefs CfgBuild SymbolEntry NamerMethods.

#[local] Open Scope Z_scope.

(** ** Hashes of names *)

Section Hashes.
Context (hashString : str -> Z) (nt : NameTable).

Definition incZero (a : Z) : Z := if a =? 0 then 1 else a.

Fixpoint hashFullNameRef (fuel : nat) (nm : Z) : option Z :=
  match fuel with
  | O => None
  | S fuel =>
      kind ← nameKind nm;
      result ← match kind with
               | UTF8 => s ← dataUtf8 nt nm; Some (hashString s)
               | CONSTANT => original ← dataCnst nt nm; hashFullNameRef fuel original
               | UNIQUE => u ← dataUnique nt nm; r ← hashFullNameRef fuel (un_original u); Some (mix (mix r (un_num u)) (u1_of_unk (un_kind u)))
               end;
      Some (mix result (kind_bits kind))
  end.

(** [FullNameHash(gs, nm)] *)
Definition fullNameHash (nm : Z) : option Z := incZero <$> hashFullNameRef (chainFuel nt) nm.

Definition matchesFullNameHash (memberName oldNameHash : Z) : option bool :=
  name ← match nameKind memberName with
         | Some UNIQUE =>
             u ← dataUnique nt memberName;
             Some (if bool_decide (un_kind u = MangleRename \/ un_kind u = Overload) then un_original u else memberName)
         | _ => Some memberName
         end;
  hash ← fullNameHash name;
  Some (hash =? oldNameHash).
End Hashes.

(** ** Deletion *)

(** [SymbolRef::locs] *)
Definition symbolLocs (gs : GlobalState) (sym : Z) : option (list Loc) :=
  match symbolKind sym with
  | Some KClassOrModule => cm_locs <$> classData (g_symbols gs) (symbolIndex sym)
  | Some KMethod => me_locs <$> methodData (g_symbols gs) (symbolIndex sym)
  | Some KFieldOrStaticField => fi_locs <$> fieldData (g_symbols gs) (symbolIndex sym)
  | Some KTypeParameter => tp_locs <$> typeParameterData (g_symbols gs) (symbolIndex sym)
  | Some KTypeMember => tp_locs <$> typeMemberData (g_symbols gs) (symbolIndex sym)
  | None => None
  end.

Definition set_classLocs locs (c : ClassOrModule) : ClassOrModule :=
  mkClassOrModule (cm_packageRegistryOwner c) (cm_package c) (cm_owner c) (cm_name c) (cm_superClass c) (cm_flags c)
    (cm_mixins c) (cm_typeParams c) (cm_members c) (cm_resultType c) locs.

(** [SymbolRef::removeLocsForFile] *)
Definition removeLocs (file sym : Z) (gs : GlobalState) : option GlobalState :=
  match symbolKind sym with
  | Some KClassOrModule => updateClass (symbolIndex sym) (fun c => set_classLocs (removeLocsForFile file (cm_locs c)) c) gs
  | Some KMethod => updateMethod (symbolIndex sym) (fun m => set_methodLocs (removeLocsForFile file (me_locs m)) m) gs
  | Some KFieldOrStaticField => updateField (symbolIndex sym) (fun f => set_fieldLocs (removeLocsForFile file (fi_locs f)) f) gs
  | Some KTypeParameter => updateTypeParameter (symbolIndex sym) (fun t => set_typeParameterLocs (removeLocsForFile file (tp_locs t)) t) gs
  | Some KTypeMember => updateTypeMember (symbolIndex sym) (fun t => set_typeParameterLocs (removeLocsForFile file (tp_locs t)) t) gs
  | None => None
  end.

Definition deleteSymbol (sym : Z) (gs : GlobalState) : option GlobalState :=
  match symbolKind sym with
  | Some KMethod => deleteMethodSymbol (symbolIndex sym) gs
  | Some KFieldOrStaticField => deleteFieldSymbol (symbolIndex sym) gs
  | Some KTypeMember => deleteTypeMemberSymbol (symbolIndex sym) gs
  | _ => Some gs
  end.

(** A symbol loses its locations in the file, and is deleted if it has no others. *)
Definition deleteFromFile (file : Z) (gs : GlobalState) (sym : Z) : option GlobalState :=
  gs ← removeLocs file sym gs;
  locs ← symbolLocs gs sym;
  if (length locs =? 0)%nat then deleteSymbol sym gs else Some gs.

Section Delete.
Context (nn : NamerNames) (en : EntryNames) (hashString : str -> Z) (visit : gmap Z Z -> list (Z * Z)) (file : Z).

(** The members of the hash, classes excepted *)
Fixpoint toDelete (nt : NameTable) (oldNameHash : Z) (members : list (Z * Z)) : option (list Z) :=
  match members with
  | [] => Some []
  | (memberName, memberSym) :: members =>
      b ← (if isClassOrModule memberSym then Some false else matchesFullNameHash hashString nt memberName oldNameHash);
      rest ← toDelete nt oldNameHash members;
      Some (if (b : bool) then memberSym :: rest else rest)
  end.

Definition deleteSymbolViaFullNameHash (owner oldNameHash : Z) (gs : GlobalState) : option GlobalState :=
  c ← classData (g_symbols gs) owner;
  symbols ← toDelete (nametable gs) oldNameHash (visit (cm_members c));
  foldM (deleteFromFile file) gs symbols.

Context (definedClasses : list Z).

(** [getOwnerSymbol] of the owner of a hash *)
Definition getOwnerSymbol (ownerIsSymbol : bool) (ownerIdx : Z) : option Z :=
  if ownerIsSymbol then Some ownerIdx else definedClasses !! Z.to_nat ownerIdx.

Definition deleteStaticFieldViaFullNameHash (gs : GlobalState) (oldDefHash : FoundStaticFieldHash) : option GlobalState :=
  owner ← getOwnerSymbol (fsf_ownerIsSymbol oldDefHash) (fsf_ownerIdx oldDefHash);
  deleteSymbolViaFullNameHash owner (fsf_nameHash oldDefHash) gs.

Definition deleteTypeMemberViaFullNameHash (gs : GlobalState) (oldDefHash : FoundTypeMemberHash) : option GlobalState :=
  owner ← getOwnerSymbol (ftm_ownerIsSymbol oldDefHash) (ftm_ownerIdx oldDefHash);
  '(owner, gs) ← (if ftm_isTypeTemplate oldDefHash then
                    gs ← deleteSymbolViaFullNameHash owner (ftm_nameHash oldDefHash) gs; singletonClass en owner gs
                  else Some (owner, gs));
  deleteSymbolViaFullNameHash owner (ftm_nameHash oldDefHash) gs.

Definition deleteFieldViaFullNameHash (gs : GlobalState) (oldDefHash : FoundFieldHash) : option GlobalState :=
  owner ← getOwnerSymbol (ff_ownerIsSymbol oldDefHash) (ff_ownerIdx oldDefHash);
  '(owner, gs) ← (if ff_onSingletonClass oldDefHash then singletonClass en owner gs else Some (owner, gs));
  deleteSymbolViaFullNameHash owner (ff_nameHash oldDefHash) gs.

Definition deleteMethodViaFullNameHash (gs : GlobalState) (oldDefHash : FoundMethodHash) : option GlobalState :=
  ownerSymbol ← getOwnerSymbol (fm_ownerIsSymbol oldDefHash) (fm_ownerIdx oldDefHash);
  owner ← methodOwner nn gs (classSymbol ownerSymbol) (fm_useSingletonClass oldDefHash);
  deleteSymbolViaFullNameHash owner (fm_nameHash oldDefHash) gs.

(** The type members of a class, except for [AttachedClass] *)
Fixpoint otherTypeMembers (gs : GlobalState) (typeMembers : list Z) : option (list Z) :=
  match typeMembers with
  | [] => Some []
  | t :: typeMembers =>
      tp ← typeMemberData (g_symbols gs) t;
      rest ← otherTypeMembers gs typeMembers;
      Some (if tp_name tp =? n_AttachedClass en then rest else t :: rest)
  end.

(** Those of a class, of its singleton class, and so on *)
Fixpoint chainTypeMembers (fuel : nat) (gs : GlobalState) (currentClass : Z) : option (list Z) :=
  match fuel with
  | O => None
  | S fuel =>
      c ← classData (g_symbols gs) currentClass;
      own ← otherTypeMembers gs (typeParameters (cm_typeParams c));
      next ← lookupSingletonClass (g_symbols gs) currentClass;
      rest ← (if next =? 0 then Some [] else chainTypeMembers fuel gs next);
      Some (own ++ rest)
  end.

Definition deleteTypeMembersOf (gs : GlobalState) (klass : Z) : option GlobalState :=
  symbols ← chainTypeMembers (S (length (classAndModules (table gs)))) gs klass;
  foldM (fun gs t => deleteFromFile file gs (makeSymbolRef KTypeMember t)) gs symbols.

Definition deleteOldDefinitions (oldFoundHashes : FoundDefHashes) (gs : GlobalState) : option GlobalState :=
  gs ← foldM deleteStaticFieldViaFullNameHash gs (staticFieldHashes oldFoundHashes);
  gs ← foldM deleteTypeMemberViaFullNameHash gs (typeMemberHashes oldFoundHashes);
  gs ← foldM deleteTypeMembersOf gs definedClasses;
  gs ← foldM deleteFieldViaFullNameHash gs (fieldHashes oldFoundHashes);
  foldM deleteMethodViaFullNameHash gs (methodHashes oldFoundHashes).
End Delete.

(** ** Fields *)

(** [FoundField], without the scope it was found in *)
Record FoundField := mkFoundField {
  fdf_isInstanceVariable : bool; fdf_onSingletonClass : bool; fdf_fromWithinMethod : bool; fdf_loc : LocOffsets; fdf_name : Z }.

Definition set_fieldType type (f : Field) : Field := mkField (fi_owner f) (fi_name f) (fi_flags f) type (fi_locs f).

Definition insertField (nn : NamerNames) (en : EntryNames) (file ctxOwner : Z) (field : FoundField) (gs : GlobalState) : option (Z * GlobalState) :=
  let todo := ClassType (sym_todo en) in
  let loc := locAt file (fdf_loc field) in
  scope ← enclosingClass (g_symbols gs) ctxOwner;
  let scope := if fdf_fromWithinMethod field && (scope =? root) then sym_Object nn else scope in
  scope ← (if fdf_onSingletonClass field then lookupSingletonClass (g_symbols gs) scope else Some scope);
  existing ← findMember (g_symbols gs) scope (fdf_name field);
  if symbol_exists existing && bool_decide (symbolKind existing = Some KFieldOrStaticField) then
    let prior := symbolIndex existing in
    f ← fieldData (g_symbols gs) prior;
    if match fi_resultType f with ClassType s => s =? sym_todo en | _ => false end then Some (prior, gs)
    else
      gs ← updateField prior (set_fieldType todo) gs;
      locs ← addLoc gs loc (fi_locs f);
      gs ← updateField prior (set_fieldLocs locs) gs;
      Some (prior, gs)
  else
    '(sym, gs) ← (if fdf_isInstanceVariable field then enterFieldSymbol loc scope (fdf_name field) gs
                  else enterStaticFieldSymbol loc scope (fdf_name field) gs);
    gs ← updateField sym (set_fieldType todo) gs;
    Some (sym, gs).
