(* ===== verification/NamerDeleteProps.v ===== *)
(** * Properties of the deletion of old definitions

    The symbols of a class that are deleted are exactly those whose name has the hash and whose locations are all in the
    file; the others keep their place and lose the locations in the file. A field that was entered is deleted by its hash,
    unless it was assigned in a method at the top level: the last theorem shows both. *)

From S2P Require Import Prelude Pickler FileHash Files Locs Types NameTable NameText Symbols SymbolRefs CfgBuild SymbolEntry SymbolViews SymbolConsistent SymbolSample SymbolProps NamerMethods NamerDelete.

#[local] Open Scope Z_scope.

(** ** Hashes *)

Lemma hashFull_total hs h nt raw n fuel : NameTable_wf h nt -> grounded nt raw n -> (n < fuel)%nat -> is_Some (hashFullNameRef hs nt fuel raw).
Proof.
  intros Hwf Hg. revert fuel. induction Hg as [raw s H|raw u n H Hg IH|raw o n H Hg IH]; intros [|fuel] Hf; try lia;
    destruct (allNames_data h nt raw _ Hwf H) as (_ & _ & Hk & Hd); cbn [hashFullNameRef]; rewrite Hk; cbn [mbind option_bind]; rewrite Hd; cbn [mbind option_bind].
  - by eexists.
  - destruct (IH fuel) as [r ->]; [lia|]. by eexists.
  - destruct (IH fuel) as [r ->]; [lia|]. by eexists.
Qed.

Lemma matches_total hs h nt raw hash : NameTable_wf h nt -> all_grounded nt -> (exists d, (raw, d) ∈ allNames nt) -> is_Some (matchesFullNameHash hs nt raw hash).
Proof.
  intros Hwf Hall [d Hd]. destruct (Hall raw d Hd) as [n Hn].
  assert (Htotal : forall nm k, grounded nt nm k -> is_Some (fullNameHash hs nt nm)).
  { intros nm k Hg. unfold fullNameHash. rewrite fmap_is_Some. eapply hashFull_total; [done|done|by eapply grounded_bound]. }
  unfold matchesFullNameHash.
  assert (Hname : exists nm k, (match nameKind raw with
    | Some UNIQUE => u ← dataUnique nt raw; Some (if bool_decide (un_kind u = MangleRename \/ un_kind u = Overload) then un_original u else raw)
    | _ => Some raw end) = Some nm /\ grounded nt nm k).
  { destruct Hn as [raw s H|raw u n H Hg|raw o n H Hg]; destruct (allNames_data h nt raw _ Hwf H) as (_ & _ & -> & Hdata).
    - exists raw, 0%nat. split; [done|by eapply grounded_utf8].
    - rewrite Hdata. cbn [mbind option_bind]. case_bool_decide; eexists _, _; (split; [done|]); [done|by eapply grounded_unique].
    - eexists raw, _. split; [done|by eapply grounded_constant]. }
  destruct Hname as (nm & k & -> & Hg). cbn [mbind option_bind]. destruct (Htotal nm k Hg) as [hv ->]. by eexists.
Qed.

(** ** Locations of symbols *)

Definition locsView (gs : GlobalState) (kd : SymbolKind) (i : Z) : option (list Loc) :=
  match kd with
  | KClassOrModule => cm_locs <$> classData (g_symbols gs) i
  | KMethod => me_locs <$> methodData (g_symbols gs) i
  | KFieldOrStaticField => fi_locs <$> fieldData (g_symbols gs) i
  | KTypeParameter => tp_locs <$> typeParameterData (g_symbols gs) i
  | KTypeMember => tp_locs <$> typeMemberData (g_symbols gs) i
  end.

Lemma symbolLocs_view gs kd i : 0 <= i < 2 ^ 29 -> symbolLocs gs (makeSymbolRef kd i) = locsView gs kd i.
Proof. intros Hi. unfold symbolLocs. rewrite makeSymbolRef_kind, makeSymbolRef_index by lia. by destruct kd. Qed.

Lemma locsView_placed gs kd i p : place gs kd i = Some p -> is_Some (locsView gs kd i).
Proof. destruct kd; cbn; intros (x & -> & _)%data_placed; by eexists. Qed.

(** The symbols of a class that can be deleted *)
Definition deletable (kd : SymbolKind) : Prop := kd = KMethod \/ kd = KFieldOrStaticField \/ kd = KTypeMember.

(** Only the locations of one symbol change. *)
Record LocsChanged (kd : SymbolKind) (i : Z) (locs : list Loc) (gs gs' : GlobalState) : Prop := mkLocsChanged {
  lc_same : SameViews gs gs';
  lc_self : locsView gs' kd i = Some locs;
  lc_other kd' j : 0 <= j -> (kd', j) <> (kd, i) -> locsView gs' kd' j = locsView gs kd' j }.

Lemma insert_locs {A} (f : A -> list Loc) (l : list A) i x : is_Some (l !! Z.to_nat i) -> 0 <= i ->
  f <$> <[Z.to_nat i := x]> l !! Z.to_nat i = Some (f x) /\
  forall j, 0 <= j -> j <> i -> f <$> <[Z.to_nat i := x]> l !! Z.to_nat j = f <$> l !! Z.to_nat j.
Proof.
  intros Hl Hi. split; [rewrite list_lookup_insert_eq; [done|by apply lookup_lt_is_Some]|]. intros j Hj Hne. by rewrite list_lookup_insert_ne by lia.
Qed.

Ltac only_locs x :=
  split; [done|split; [done|done|intros []; cbn; try done; unfold vsize; by rewrite length_insert|
    intros [] j; cbn; try done; by apply lookup_insert_view with x]|done| |];
  intros kd j Hj; destruct kd; try done; try apply aliasTarget_ext; cbn; by apply from_option_view, lookup_insert_view with x.

Lemma removeLocs_spec file kd i gs locs : deletable kd -> 0 < i < 2 ^ 29 -> locsView gs kd i = Some locs ->
  exists gs', removeLocs file (makeSymbolRef kd i) gs = Some gs' /\ LocsChanged kd i (removeLocsForFile file locs) gs gs'.
Proof.
  intros Hkd Hi Hl. unfold removeLocs. rewrite makeSymbolRef_kind, makeSymbolRef_index by lia.
  destruct Hkd as [->|[->| ->]]; cbn in Hl; apply fmap_Some in Hl as (x & Hx & ->); unfold updateMethod, updateField, updateTypeMember; rewrite Hx;
    cbn [mbind option_bind]; (eexists; split; [done|]); split.
  - only_locs x.
  - cbn. apply (insert_locs me_locs); [by exists x|lia].
  - intros [] j Hj Hne; try done. cbn. apply (insert_locs me_locs); [by exists x|lia|done|congruence].
  - only_locs x.
  - cbn. apply (insert_locs fi_locs); [by exists x|lia].
  - intros [] j Hj Hne; try done. cbn. apply (insert_locs fi_locs); [by exists x|lia|done|congruence].
  - only_locs x.
  - cbn. apply (insert_locs tp_locs); [by exists x|lia].
  - intros [] j Hj Hne; try done. cbn. apply (insert_locs tp_locs); [by exists x|lia|done|congruence].
Qed.

(** ** One symbol *)

Lemma eraseExisting_locs owner name gs gs' kd j : eraseExisting owner name gs = Some gs' -> locsView gs' kd j = locsView gs kd j.
Proof.
  intros E. unfold eraseExisting in E. apply bind_Some in E as (c & Hc & E). apply bind_Some in E as (u & _ & E). unfold updateClass in E.
  apply bind_Some in E as (c' & Hc' & E). injection E as <-. destruct kd; try done. cbn. by apply lookup_insert_view with c'.
Qed.

Lemma deleteTypeParameters_locs tps gs gs' kd j : foldM deleteTypeParameter gs tps = Some gs' -> kd <> KTypeParameter -> locsView gs' kd j = locsView gs kd j.
Proof.
  intros E Hkd. revert gs E. induction tps as [|t tps IH]; intros gs E; [by injection E as <-|]. cbn in E. apply bind_Some in E as (gs1 & E1 & E).
  rewrite (IH gs1 E). unfold deleteTypeParameter, updateTypeParameter in E1. apply bind_Some in E1 as (stub & _ & E1). apply bind_Some in E1 as (x & _ & E1).
  injection E1 as <-. by destruct kd.
Qed.

Lemma deleteSymbol_spec h kd i o n gs : Consistent h gs -> deletable kd -> 0 < i -> live gs KClassOrModule o -> place gs kd i = Some (o, n) ->
  exists gs', deleteSymbol (makeSymbolRef kd i) gs = Some gs' /\ Deleted kd i o n gs gs' /\
    forall kd' j, 0 <= j -> kd' <> KTypeParameter -> (kd', j) <> (kd, i) -> locsView gs' kd' j = locsView gs kd' j.
Proof.
  intros Hco Hkd Hi Hl Hp. pose proof Hl as [Ho _]. pose proof Hp as Hb%(placed_bound h); [|done|lia]. unfold deleteSymbol. rewrite makeSymbolRef_kind, makeSymbolRef_index by lia.
  destruct Hkd as [->|[->| ->]].
  - destruct (deleteMethod_deleted h gs i o n) as (gs' & E & Hd); [done..|]. exists gs'. split_and!; [done|done|]. intros kd' j Hj Hk Hne.
    unfold deleteMethodSymbol in E. apply bind_Some in E as (m & Hm & E). apply bind_Some in E as (gs1 & E1 & E). apply bind_Some in E as (gs2 & E2 & E).
    apply bind_Some in E as (stub & _ & E). unfold updateMethod in E. apply bind_Some in E as (m2 & Hm2 & E). injection E as <-.
    rewrite <- (eraseExisting_locs _ _ _ _ kd' j E1), <- (deleteTypeParameters_locs _ _ _ kd' j E2) by done. destruct kd'; try done.
    cbn. apply (insert_locs me_locs); [by exists m2|lia|done|congruence].
  - destruct (deleteField_deleted h gs i o n) as (gs' & E & Hd); [done..|]. exists gs'. split_and!; [done|done|]. intros kd' j Hj Hk Hne.
    unfold deleteFieldSymbol in E. apply bind_Some in E as (m & Hm & E). apply bind_Some in E as (gs1 & E1 & E).
    apply bind_Some in E as (stub & _ & E). unfold updateField in E. apply bind_Some in E as (m2 & Hm2 & E). injection E as <-.
    rewrite <- (eraseExisting_locs _ _ _ _ kd' j E1). destruct kd'; try done. cbn. apply (insert_locs fi_locs); [by exists m2|lia|done|congruence].
  - destruct (deleteTypeMember_deleted h gs i o n) as (gs' & E & Hd); [done..|]. exists gs'. split_and!; [done|done|]. intros kd' j Hj Hk Hne.
    unfold deleteTypeMemberSymbol in E. apply bind_Some in E as (m & Hm & E). apply bind_Some in E as (gs1 & E1 & E). apply bind_Some in E as (c & Hc & E).
    apply bind_Some in E as (ms & _ & E). destruct (negb _); [done|]. apply bind_Some in E as (gs2 & E2 & E).
    apply bind_Some in E as (stub & _ & E). unfold updateTypeMember in E. apply bind_Some in E as (m2 & Hm2 & E). injection E as <-.
    rewrite <- (eraseExisting_locs _ _ _ _ kd' j E1). unfold updateClass in E2. apply bind_Some in E2 as (c2 & Hc2 & E2). injection E2 as <-.
    destruct kd'; try done; cbn; [by apply lookup_insert_view with c2|]. apply (insert_locs tp_locs); [by exists m2|lia|done|congruence].
Qed.

Section Deleting.
Context (h : str -> Z) (file owner : Z).

(** All locations of the symbol are in the file. *)
Definition onlyIn (gs : GlobalState) (kd : SymbolKind) (i : Z) : bool :=
  from_option (fun locs => (length (removeLocsForFile file locs) =? 0)%nat) false (locsView gs kd i).

(** The state after one symbol was treated *)
Record Treated (kd : SymbolKind) (i n : Z) (gs gs' : GlobalState) : Prop := mkTreated {
  tr_consistent : Consistent h gs';
  tr_live : live gs' KClassOrModule owner;
  tr_names : nametable gs' = nametable gs;
  tr_member k m : 0 <= k -> member gs' k m = if decide (onlyIn gs kd i = true /\ (k, m) = (owner, n)) then None else member gs k m;
  tr_self : onlyIn gs kd i = false -> place gs' kd i = place gs kd i /\ locsView gs' kd i = removeLocsForFile file <$> locsView gs kd i;
  tr_other kd' j : 0 <= j -> kd' <> KTypeParameter -> (kd', j) <> (kd, i) -> place gs' kd' j = place gs kd' j /\ locsView gs' kd' j = locsView gs kd' j }.

Lemma deleteFromFile_treated kd i n gs : Consistent h gs -> live gs KClassOrModule owner -> deletable kd -> 0 < i -> place gs kd i = Some (owner, n) ->
  exists gs', deleteFromFile file gs (makeSymbolRef kd i) = Some gs' /\ Treated kd i n gs gs'.
Proof.
  intros Hco Hl Hkd Hi Hp. pose proof Hp as Hb%(placed_bound h); [|done|lia]. destruct (locsView_placed _ _ _ _ Hp) as [locs Hlocs].
  destruct (removeLocs_spec file kd i gs locs Hkd ltac:(lia) Hlocs) as (gs1 & E1 & [Hsame Hself Hother]). unfold deleteFromFile. rewrite E1. cbn [mbind option_bind].
  rewrite symbolLocs_view, Hself by lia. cbn [mbind option_bind]. pose proof Hsame as [V1 [V2 V3 V4 V5] V6 V7 V8].
  pose proof (consistent_same _ _ _ Hco Hsame) as Hco1.
  assert (Hl1 : live gs1 KClassOrModule owner) by (destruct Hl as (? & o & m & ? & ?); split; [done|]; exists o, m; by rewrite V5).
  assert (Hin : onlyIn gs kd i = (length (removeLocsForFile file locs) =? 0)%nat) by (unfold onlyIn; by rewrite Hlocs). rewrite <- Hin.
  assert (Hkd' : kd <> KClassOrModule /\ kd <> KTypeParameter) by (destruct Hkd as [->|[->| ->]]; done).
  destruct (onlyIn gs kd i) eqn:Eo.
  - destruct (deleteSymbol_spec h kd i owner n gs1 Hco1 Hkd Hi Hl1) as (gs2 & E2 & Hd & Hl2); [by rewrite V5|]. exists gs2. split; [done|].
    pose proof Hd as [D0 D1 D2 D3 D4 D5 D6 D7]. pose proof Hl1 as (Ho & o & m & Hpo & Ho').
    split; [|split; [done|exists o, m; split; [|done]]|congruence| |by rewrite Eo|].
    + eapply consistent_deleted; [done|done|apply Hkd'|apply Hkd'|done|done|by rewrite V5].
    + rewrite D3, decide_False by (lia || naive_solver). done.
    + intros k m' Hk. rewrite D4, V6, Eo by done. destruct (decide ((k, m') = (owner, n))); [rewrite decide_True by done|rewrite decide_False by naive_solver]; done.
    + intros kd' j Hj Hk Hne. rewrite D3, decide_False by (done || naive_solver). rewrite V5, Hl2, Hother by done. done.
  - exists gs1. split; [done|]. split; [done|done|done| | |].
    + intros k m Hk. rewrite V6, Eo, decide_False by (done || by intros [? _]). done.
    + intros _. rewrite V5, Hself, Hlocs. done.
    + intros kd' j Hj _ Hne. rewrite V5, Hother by done. done.
Qed.

(** ** A list of symbols *)

Abbreviation memberEntry := (Z * SymbolKind * Z)%type.

Lemma deleteAll_treated (l : list memberEntry) : forall gs, Consistent h gs -> live gs KClassOrModule owner ->
  NoDup ((fun e => (e.1.2, e.2)) <$> l) ->
  (forall n kd i, (n, kd, i) ∈ l -> deletable kd /\ 0 < i /\ place gs kd i = Some (owner, n)) ->
  exists gs', foldM (deleteFromFile file) gs ((fun e => makeSymbolRef e.1.2 e.2) <$> l) = Some gs' /\ Consistent h gs' /\ nametable gs' = nametable gs /\
    (forall n kd i, (n, kd, i) ∈ l -> onlyIn gs kd i = true -> member gs' owner n = None) /\
    (forall k m, 0 <= k -> (forall kd i, k = owner -> (m, kd, i) ∈ l -> onlyIn gs kd i = false) -> member gs' k m = member gs k m) /\
    (forall n kd i, (n, kd, i) ∈ l -> onlyIn gs kd i = false ->
       place gs' kd i = place gs kd i /\ locsView gs' kd i = removeLocsForFile file <$> locsView gs kd i) /\
    (forall kd i, 0 <= i -> kd <> KTypeParameter -> (forall n, (n, kd, i) ∉ l) -> place gs' kd i = place gs kd i /\ locsView gs' kd i = locsView gs kd i).
Proof.
  induction l as [|[[n kd] i] l IH]; intros gs Hco Hl Hnd Hall.
  { exists gs. split_and!; try done; by intros ? ? ? ?%elem_of_nil. }
  rewrite fmap_cons in Hnd. apply NoDup_cons in Hnd as [Hni Hnd]. cbn in Hni.
  destruct (Hall n kd i) as (Hkd & Hi & Hp); [by left|]. destruct (deleteFromFile_treated kd i n gs Hco Hl Hkd Hi Hp) as (gs1 & E1 & [T1 T2 T3 T4 T5 T6]).
  assert (Hdiff : forall n' kd' i', (n', kd', i') ∈ l -> (kd', i') <> (kd, i)).
  { intros n' kd' i' Hin [= -> ->]. apply Hni, list_elem_of_fmap. by exists (n', kd, i). }
  assert (Hold : forall n' kd' i', (n', kd', i') ∈ l -> place gs1 kd' i' = place gs kd' i' /\ locsView gs1 kd' i' = locsView gs kd' i').
  { intros n' kd' i' Hin. destruct (Hall n' kd' i') as (Hkd' & Hi' & _); [by right|]. apply T6; [lia| |by eapply Hdiff]. by destruct Hkd' as [->|[->| ->]]. }
  assert (Hon : forall n' kd' i', (n', kd', i') ∈ l -> onlyIn gs1 kd' i' = onlyIn gs kd' i') by (intros n' kd' i' Hin; unfold onlyIn; by rewrite (proj2 (Hold _ _ _ Hin))).
  destruct (IH gs1 T1 T2 Hnd) as (gs' & E & Hco' & Hnt & Hgone & Hkeep & Hself & Hrest).
  { intros n' kd' i' Hin. destruct (Hall n' kd' i') as (? & ? & ?); [by right|]. by rewrite (proj1 (Hold _ _ _ Hin)). }
  assert (Hnames : forall n' kd' i', (n', kd', i') ∈ l -> n' <> n).
  { intros n' kd' i' Hin ->. destruct (Hall n kd' i') as (Hkd' & Hi' & Hp'); [by right|]. pose proof Hl as [Ho _].
    destruct (co_listed _ _ Hco kd i owner n) as [_ M1]; [done|done|split; destruct Hkd as [->|[->| ->]]; done|done|].
    destruct (co_listed _ _ Hco kd' i' owner n) as [_ M2]; [done|done|split; destruct Hkd' as [->|[->| ->]]; done|done|].
    rewrite M1 in M2. injection M2 as M2. apply makeSymbolRef_inj in M2 as [-> ->]; [by apply (Hdiff n kd' i' Hin)| |].
    - apply (placed_bound h) in Hp; [lia|done|lia].
    - apply (placed_bound h) in Hp'; [lia|done|lia]. }
  pose proof (proj1 Hl) as Ho. exists gs'. cbn [fmap list_fmap foldM fst snd]. rewrite E1. cbn [mbind option_bind]. split_and!; [exact E|done|congruence|..].
  - intros n' kd' i' [[= -> -> ->]|Hin]%elem_of_cons Hon'; [|apply (Hgone n' kd' i' Hin); by rewrite (Hon n')].
    rewrite Hkeep, T4, decide_True; [done|done|lia|lia|]. intros kd' i' _ Hin. by destruct (Hnames n kd' i' Hin).
  - intros k m Hk Hno. rewrite Hkeep, T4; [|done|done|].
    + rewrite decide_False; [done|]. intros [Ht [= -> ->]]. rewrite (Hno kd i) in Ht; [done|done|by left].
    + intros kd' i' -> Hin. rewrite (Hon m) by done. apply Hno; [done|by right].
  - intros n' kd' i' [[= -> -> ->]|Hin]%elem_of_cons Hf.
    + destruct (T5 Hf) as [P L]. rewrite <- P, <- L. apply Hrest; [lia|by destruct Hkd as [->|[->| ->]]|]. intros n' Hin. by apply (Hdiff n' kd i Hin).
    + destruct (Hself n' kd' i' Hin) as [P L]; [by rewrite (Hon n')|]. destruct (Hold n' kd' i' Hin) as [<- <-]. done.
  - intros kd' i' Hi' Hk Hno. destruct (Hrest kd' i' Hi' Hk) as [P L]; [intros n' Hin; apply (Hno n'); by right|]. rewrite P, L. apply T6; [done|done|].
    intros [= -> ->]. apply (Hno n). by left.
Qed.
End Deleting.

(** ** The symbols of a hash *)

Section Found.
Context (h hs : str -> Z) (visit : gmap Z Z -> list (Z * Z)) (file owner hash : Z) (gs : GlobalState).

(** A member of the class whose name has the hash *)
Definition found (n : Z) (kd : SymbolKind) (i : Z) : Prop :=
  member gs owner n = Some (makeSymbolRef kd i) /\ 0 <= i < 2 ^ 29 /\ kd <> KClassOrModule /\ matchesFullNameHash hs (nametable gs) n hash = Some true.

Lemma toDelete_spec ms : (forall n s, (n, s) ∈ ms -> isClassOrModule s = true \/ exists kd i b, s = makeSymbolRef kd i /\ 0 < i < 2 ^ 29 /\ isClassOrModule s = false /\
    matchesFullNameHash hs (nametable gs) n hash = Some b) ->
  exists l : list (Z * SymbolKind * Z), toDelete hs (nametable gs) hash ms = Some ((fun e => makeSymbolRef e.1.2 e.2) <$> l) /\
    ((fun e => e.1.1) <$> l) `sublist_of` ms.*1 /\
    (forall n kd i, (n, kd, i) ∈ l -> (n, makeSymbolRef kd i) ∈ ms /\ 0 < i < 2 ^ 29 /\ isClassOrModule (makeSymbolRef kd i) = false /\
       matchesFullNameHash hs (nametable gs) n hash = Some true) /\
    (forall n s, (n, s) ∈ ms -> isClassOrModule s = false -> matchesFullNameHash hs (nametable gs) n hash = Some true ->
       exists kd i, s = makeSymbolRef kd i /\ (n, kd, i) ∈ l).
Proof.
  induction ms as [|[n s] ms IH]; intros Hall.
  { exists []. split_and!; [done|done|by intros ? ? ? ?%elem_of_nil|by intros ? ? ?%elem_of_nil]. }
  destruct IH as (l & E & Hsub & H1 & H2); [intros n' s' Hin; apply Hall; by right|]. cbn [toDelete]. destruct (Hall n s) as [Hc|(kd & i & b & -> & Hi & Hc & Hb)]; [by left| |].
  - rewrite Hc. cbn [mbind option_bind]. rewrite E. exists l. split_and!; [done|by apply sublist_cons| |].
    + intros n' kd i Hin. destruct (H1 n' kd i Hin) as (? & ? & ?). split; [by right|done].
    + intros n' s' [[= -> ->]|Hin]%elem_of_cons Hc'; [congruence|by apply H2].
  - rewrite Hc, Hb. cbn [mbind option_bind]. rewrite E. destruct b.
    + exists ((n, kd, i) :: l). split_and!; [done|by apply sublist_skip| |].
      * intros n' kd' i' [[= -> -> ->]|Hin]%elem_of_cons; [split; [by left|done]|]. destruct (H1 n' kd' i' Hin) as (? & ? & ?). split; [by right|done].
      * intros n' s' [[= -> ->]|Hin]%elem_of_cons Hc' Ht; [exists kd, i; split; [done|by left]|]. destruct (H2 n' s' Hin Hc' Ht) as (kd' & i' & -> & Hl).
        exists kd', i'. split; [done|by right].
    + exists l. split_and!; [done|by apply sublist_cons| |].
      * intros n' kd' i' Hin. destruct (H1 n' kd' i' Hin) as (? & ? & ?). split; [by right|done].
      * intros n' s' [[= -> ->]|Hin]%elem_of_cons Hc' Ht; [congruence|by apply H2].
Qed.

Context (Hco : Consistent h gs) (Hl : live gs KClassOrModule owner).

(** What the members of a class are *)
Lemma member_kinds n s : member gs owner n = Some s -> isClassOrModule s = true \/
  exists kd i, s = makeSymbolRef kd i /\ deletable kd /\ 0 < i < 2 ^ 29 /\ place gs kd i = Some (owner, n) /\ isClassOrModule s = false.
Proof.
  intros Hm. pose proof (proj1 Hl) as Ho.
  assert (Hclass : forall s k, s = classSymbol k -> 0 < k -> is_Some (classData (g_symbols gs) k) -> isClassOrModule s = true).
  { intros s' k -> Hk [c Hc]. unfold isClassOrModule, classSymbol. rewrite makeSymbolRef_kind; [done|]. split; [lia|].
    eapply (placed_bound h gs KClassOrModule k (cm_owner c, cm_name c)); [done|lia|]. cbn. by rewrite Hc. }
  destruct (decide (n = n_singleton (wellKnown gs))) as [->|Hn1].
  { left. apply (co_singleton _ _ Hco) in Hm as (k & Hk & -> & Ha); [|done]. apply (Hclass _ k); [done|done|]. unfold member in Ha. destruct (classData _ k); [by eexists|done]. }
  destruct (decide (n = n_attached (wellKnown gs))) as [->|Hn2].
  { left. apply (co_attached _ _ Hco) in Hm as (k & Hk & -> & Ha); [|done]. apply (Hclass _ k); [done|done|]. unfold member in Ha. destruct (classData _ k); [by eexists|done]. }
  apply (co_member _ _ Hco) in Hm as (kd & i & -> & Hi & Hkd & Hp); [|done|done]. pose proof Hp as Hb%(placed_bound h); [|done|lia].
  unfold isClassOrModule. rewrite makeSymbolRef_kind by lia. destruct kd; [by left|right..|done|right].
  all: eexists _, i; split_and!; try done; try lia; unfold deletable; auto.
Qed.

Lemma delete_found : all_grounded (nametable gs) -> (forall m, visit m ≡ₚ map_to_list m) ->
  exists l, deleteSymbolViaFullNameHash hs visit file owner hash gs = foldM (deleteFromFile file) gs ((fun e => makeSymbolRef e.1.2 e.2) <$> l) /\
    NoDup ((fun e => (e.1.2, e.2)) <$> l) /\ (forall n kd i, (n, kd, i) ∈ l -> deletable kd /\ 0 < i /\ place gs kd i = Some (owner, n)) /\
    forall n kd i, (n, kd, i) ∈ l <-> found n kd i.
Proof.
  intros Hground Hvisit. destruct Hl as (Ho & o & n0 & Hpo & _). destruct (class_there gs owner) as [c Hc]; [by eexists|].
  assert (Hmem : forall n s, (n, s) ∈ visit (cm_members c) <-> member gs owner n = Some s).
  { intros n s. rewrite (Hvisit _), elem_of_map_to_list. unfold member. by rewrite Hc. }
  destruct (toDelete_spec (visit (cm_members c))) as (l & E & Hsub & H1 & H2).
  { intros n s Hin%Hmem. destruct (member_kinds n s Hin) as [?|(kd & i & -> & _ & Hi & Hp & Hf)]; [by left|]. right.
    destruct (matches_total hs h (nametable gs) n hash) as [b Hb]; [apply Hco|done|by eapply (co_named _ _ Hco); [|exact Hp]; lia|]. by exists kd, i, b. }
  assert (Hent : forall n kd i, (n, kd, i) ∈ l -> deletable kd /\ 0 < i < 2 ^ 29 /\ place gs kd i = Some (owner, n)).
  { intros n kd i Hin. destruct (H1 n kd i Hin) as (Hm%Hmem & Hi & Hf & _). destruct (member_kinds n _ Hm) as [?|(kd' & i' & Heq & Hd & Hi' & Hp & _)]; [congruence|].
    apply makeSymbolRef_inj in Heq as [-> ->]; [done|lia|lia]. }
  exists l. split_and!.
  - unfold deleteSymbolViaFullNameHash. rewrite Hc. cbn [mbind option_bind]. by rewrite E.
  - assert (Hnd : NoDup ((fun e : Z * SymbolKind * Z => e.1.1) <$> l)).
    { eapply sublist_NoDup; [|exact Hsub]. rewrite (Hvisit _). apply NoDup_fst_map_to_list. }
    assert (Eq : (fun e : Z * SymbolKind * Z => e.1.1) <$> l = (fun x => from_option snd 0 (place gs x.1 x.2)) <$> ((fun e => (e.1.2, e.2)) <$> l)).
    { rewrite <- list_fmap_compose. apply list_fmap_ext. intros k [[n kd] i] Hk. cbn. destruct (Hent n kd i) as (_ & _ & ->); [by eapply list_elem_of_lookup_2|done]. }
    rewrite Eq in Hnd. by apply NoDup_fmap_1 in Hnd.
  - intros n kd i Hin. destruct (Hent n kd i Hin) as (? & [? _] & ?). done.
  - intros n kd i. split.
    + intros Hin. destruct (Hent n kd i Hin) as (Hd & Hi & _). destruct (H1 n kd i Hin) as (Hm%Hmem & _ & _ & Ht). split_and!; [done|lia|lia| |done].
      by destruct Hd as [->|[->| ->]].
    + intros (Hm & Hi & Hkd & Ht). destruct (member_kinds n _ Hm) as [Hcl|(kd' & i' & Heq & Hd & Hi' & Hp & Hf)].
      { unfold isClassOrModule in Hcl. rewrite makeSymbolRef_kind in Hcl by lia. apply bool_decide_eq_true in Hcl. congruence. }
      apply Hmem in Hm. destruct (H2 n _ Hm Hf Ht) as (kd2 & i2 & Heq2 & Hin). destruct (Hent n kd2 i2 Hin) as (_ & Hi2 & _).
      apply makeSymbolRef_inj in Heq2 as [-> ->]; [done|lia|lia].
Qed.
End Found.

Lemma deleteViaHash_run h hs visit file owner hash gs : Consistent h gs -> live gs KClassOrModule owner -> all_grounded (nametable gs) ->
  (forall m, visit m ≡ₚ map_to_list m) ->
  exists gs', deleteSymbolViaFullNameHash hs visit file owner hash gs = Some gs' /\ Consistent h gs' /\ nametable gs' = nametable gs /\
    (forall n kd i, found hs owner hash gs n kd i -> onlyIn file gs kd i = true -> member gs' owner n = None) /\
    (forall n kd i, found hs owner hash gs n kd i -> onlyIn file gs kd i = false -> member gs' owner n = member gs owner n /\
       place gs' kd i = place gs kd i /\ locsView gs' kd i = removeLocsForFile file <$> locsView gs kd i) /\
    (forall k m, 0 <= k -> (forall kd i, k = owner -> ~ found hs owner hash gs m kd i) -> member gs' k m = member gs k m) /\
    (forall kd i, 0 <= i -> kd <> KTypeParameter -> (forall n, ~ found hs owner hash gs n kd i) ->
       place gs' kd i = place gs kd i /\ locsView gs' kd i = locsView gs kd i).
Proof.
  intros Hco Hl Hground Hvisit. destruct (delete_found h hs visit file owner hash gs Hco Hl Hground Hvisit) as (l & E & Hnd & Hent & Hin).
  destruct (deleteAll_treated h file owner l gs Hco Hl Hnd Hent) as (gs' & E' & Hco' & Hnt & Hgone & Hkeep & Hself & Hrest).
  exists gs'. rewrite E. split_and!; [done|done|done|..].
  - intros n kd i Hf%Hin Ho. by apply (Hgone n kd i).
  - intros n kd i Hf Ho. pose proof Hf as (Hm & Hi & _). apply Hin in Hf. split; [|by apply (Hself n)].
    apply Hkeep; [pose proof (proj1 Hl); lia|]. intros kd' i' _ Hf'%Hin. pose proof Hf' as (Hm' & Hi' & _). rewrite Hm in Hm'. injection Hm' as Heq.
    by apply makeSymbolRef_inj in Heq as [-> ->].
  - intros k m Hk Hno. apply Hkeep; [done|]. intros kd i -> Hf%Hin. by destruct (Hno kd i).
  - intros kd i Hi Hk Hno. apply Hrest; [done|done|]. intros n Hf%Hin. by apply (Hno n).
Qed.


(** C6: deletion by the hash of a name. It succeeds for every order in which the members of the class are visited, and keeps the
    table consistent. A member whose name has the hash, and which is not a class, is no longer a member if all its locations
    are in the file; otherwise it stays where it is and loses its locations in the file. All other members of all classes
    stay, and all other symbols keep their places and locations, type parameters of deleted methods excepted. *)
Theorem deleteViaHash_correct h hs visit file owner hash gs : Consistent h gs -> live gs KClassOrModule owner -> all_grounded (nametable gs) ->
  (forall m, visit m ≡ₚ map_to_list m) ->
  exists gs', deleteSymbolViaFullNameHash hs visit file owner hash gs = Some gs' /\ Consistent h gs' /\ nametable gs' = nametable gs /\
    (forall n kd i, found hs owner hash gs n kd i -> onlyIn file gs kd i = true -> member gs' owner n = None) /\
    (forall n kd i, found hs owner hash gs n kd i -> onlyIn file gs kd i = false -> member gs' owner n = member gs owner n /\
       place gs' kd i = place gs kd i /\ locsView gs' kd i = removeLocsForFile file <$> locsView gs kd i) /\
    (forall k m, 0 <= k -> (forall kd i, k = owner -> ~ found hs owner hash gs m kd i) -> member gs' k m = member gs k m) /\
    (forall kd i, 0 <= i -> kd <> KTypeParameter -> (forall n, ~ found hs owner hash gs n kd i) ->
       place gs' kd i = place gs kd i /\ locsView gs' kd i = locsView gs kd i).
Proof. apply deleteViaHash_run. Qed.

(** ** Fields from their entry to their deletion *)

(** A type that is no alias, in a field that has none yet *)
Lemma fieldType_same id t gs x : fieldData (g_symbols gs) id = Some x -> fi_resultType x = NullType -> (forall target, t <> AliasType target) -> 0 <= id ->
  exists gs', updateField id (set_fieldType t) gs = Some gs' /\ SameViews gs gs' /\
    locsView gs' KFieldOrStaticField id = Some (fi_locs x).
Proof.
  intros Hx Hr Ht Hid. unfold updateField. rewrite Hx. eexists. split; [done|]. pose proof Hx as Hlt%lookup_lt_Some.
  assert (H1 : fi_owner (set_fieldType t x) = fi_owner x) by done. assert (H2 : fi_name (set_fieldType t x) = fi_name x) by done.
  split; [split; [done|same_symbols x|done| |done]|].
  - intros kd j Hj. destruct (decide (kd = KFieldOrStaticField)) as [->|]; [|apply aliasTarget_ext; by destruct kd].
    unfold aliasTarget. cbn [resultType]. unfold fieldData in *. cbn.
    destruct (decide (Z.to_nat j = Z.to_nat id)) as [->|Hne].
    + rewrite list_lookup_insert_eq by done. cbn. rewrite Hx. cbn. rewrite Hr. destruct t; try done. by destruct (Ht symbol).
    + by rewrite list_lookup_insert_ne.
  - cbn. unfold fieldData. cbn. by rewrite list_lookup_insert_eq.
Qed.

Section Fields.
Context (nn : NamerNames) (en : EntryNames) (h hs : str -> Z) (visit : gmap Z Z -> list (Z * Z)) (file klass : Z) (field : FoundField) (gs : GlobalState).

(** The class in which a field is entered *)
Definition fieldScope : Z := if fdf_fromWithinMethod field && (klass =? root) then sym_Object nn else klass.

Context (Hco : Consistent h gs) (Hklass : live gs KClassOrModule klass) (Hscope : live gs KClassOrModule fieldScope).
Context (Hsingle : fdf_onSingletonClass field = false) (Hfree : member gs fieldScope (fdf_name field) = None).
Context (Hen : Enterable gs KFieldOrStaticField fieldScope (fdf_name field)).

Lemma insertField_new : exists sym gs1, insertField nn en file (classSymbol klass) field gs = Some (sym, gs1) /\
  NewSymbol KFieldOrStaticField sym fieldScope (fdf_name field) gs gs1 /\ Consistent h gs1 /\
  locsView gs1 KFieldOrStaticField sym = Some (if file =? 0 then [] else [locAt file (fdf_loc field)]).
Proof using Hco Hklass Hscope Hsingle Hfree Hen.
  pose proof (proj1 Hklass) as Hk. assert (Hkb : 0 <= klass < 2 ^ 29).
  { destruct Hklass as (_ & o & n & Hp & _). split; [lia|]. eapply (placed_bound h); [done|lia|exact Hp]. }
  unfold insertField, enclosingClass, classSymbol. rewrite makeSymbolRef_kind, makeSymbolRef_index by lia. cbn [mbind option_bind].
  rewrite Hsingle. fold fieldScope. cbn [mbind option_bind].
  pose proof Hscope as (Hs & o & n & Hp & _). destruct (class_there gs fieldScope) as [c Hc]; [by eexists|].
  assert (Hnone : cm_members c !! fdf_name field = None) by (unfold member in Hfree; by rewrite Hc in Hfree).
  unfold findMember, findMemberNoDealias. rewrite Hc. cbn [mbind option_bind]. rewrite Hnone. cbn.
  assert (Hstore : symbol_exists (memberOf c (fdf_name field)) = false) by (unfold memberOf; by rewrite Hnone).
  set (flags := if fdf_isInstanceVariable field then mkFieldFlags true false false false false else mkFieldFlags false true false false false).
  replace (if fdf_isInstanceVariable field then _ else _) with (newField fieldScope (fdf_name field) flags (locAt file (fdf_loc field)) gs)
    by (unfold flags, enterFieldSymbol, enterStaticFieldSymbol; rewrite Hc; cbn [mbind option_bind]; rewrite Hstore; by destruct (fdf_isInstanceVariable field)).
  destruct (newField_new fieldScope (fdf_name field) flags (locAt file (fdf_loc field)) gs ltac:(lia) ltac:(by eexists)) as (sym & gs1 & E & Hnew).
  rewrite E. cbn [mbind option_bind]. pose proof (co_sizes _ _ Hco KFieldOrStaticField) as Hsz. pose proof (ns_index _ _ _ _ _ _ Hnew) as Hsym.
  assert (Hdata : fieldData (g_symbols gs1) sym = Some (mkField fieldScope (fdf_name field) flags NullType (if file =? 0 then [] else [locAt file (fdf_loc field)]))).
  { unfold newField in E. apply bind_Some in E as (gs0 & E0 & E). rewrite addLoc_nil in E. cbn [mbind option_bind] in E. injection E as <- <-.
    unfold updateClass in E0. apply bind_Some in E0 as (c0 & _ & [= <-]). unfold fieldData. cbn. unfold vsize. by rewrite Nat2Z.id, list_lookup_middle. }
  destruct (fieldType_same sym (ClassType (sym_todo en)) gs1 _ Hdata) as (gs2 & E2 & Hsame & Hlocs); [done|done|rewrite Hsym; cbn; unfold vsize; lia|].
  rewrite E2. exists sym, gs2. split; [done|]. pose proof (NewSymbol_same _ _ _ _ _ _ _ Hnew Hsame) as Hnew'. split; [done|]. split; [|done].
  eapply (consistent_entered h _ _ _ _ _ _ Hco Hen); [done|]. right. split; [by rewrite Hfree|exact Hnew'].
Qed.

Context (definedClasses : list Z) (hash : FoundFieldHash).
Context (Hground : all_grounded (nametable gs)) (Hvisit : forall m, visit m ≡ₚ map_to_list m).
(** The hash is the one of this field: its owner among the classes of the file is [klass]. *)
Context (Howner : getOwnerSymbol definedClasses (ff_ownerIsSymbol hash) (ff_ownerIdx hash) = Some klass).
Context (Hhs : ff_onSingletonClass hash = false) (Hname : fullNameHash hs (nametable gs) (fdf_name field) = Some (ff_nameHash hash)).
Context (Hkind : nameKind (fdf_name field) <> Some UNIQUE).

Lemma field_fate : exists sym gs1 gs2, insertField nn en file (classSymbol klass) field gs = Some (sym, gs1) /\
  member gs1 fieldScope (fdf_name field) = Some (makeSymbolRef KFieldOrStaticField sym) /\
  deleteFieldViaFullNameHash en hs visit file definedClasses gs1 hash = Some gs2 /\ Consistent h gs2 /\
  (fieldScope = klass -> member gs2 fieldScope (fdf_name field) = None) /\
  (fieldScope <> klass -> member gs2 fieldScope (fdf_name field) = Some (makeSymbolRef KFieldOrStaticField sym) /\
     locsView gs2 KFieldOrStaticField sym = locsView gs1 KFieldOrStaticField sym) /\
  locsView gs1 KFieldOrStaticField sym = Some (if file =? 0 then [] else [locAt file (fdf_loc field)]).
Proof using Hco Hklass Hscope Hsingle Hfree Hen Hground Hvisit Howner Hhs Hname Hkind.
  destruct insertField_new as (sym & gs1 & E & Hnew & Hco1 & Hlocs). pose proof Hnew as [N1 N2 N3 N4 N5 N6 N7 N8 N9].
  pose proof (proj1 Hscope) as Hs. assert (Hmem : member gs1 fieldScope (fdf_name field) = Some (makeSymbolRef KFieldOrStaticField sym))
    by (rewrite N7, decide_True by (done || lia); done).
  assert (Hl1 : live gs1 KClassOrModule klass).
  { destruct Hklass as (? & o & n & Hp & Ho). split; [done|]. exists o, n. split; [|done]. rewrite N6, decide_False by (lia || done). done. }
  assert (Hp1 : place gs1 KFieldOrStaticField sym = Some (fieldScope, fdf_name field)).
  { rewrite N6, decide_True; [done|done|]. rewrite N5. cbn. unfold vsize. lia. }
  assert (Hb : 0 <= sym < 2 ^ 29).
  { split; [rewrite N5; cbn; unfold vsize; lia|]. eapply (placed_bound h gs1 KFieldOrStaticField); [done| |exact Hp1]. rewrite N5. cbn. unfold vsize. lia. }
  destruct (deleteViaHash_run h hs visit file klass (ff_nameHash hash) gs1) as (gs2 & E2 & Hco2 & _ & Hgone & _ & Hkeep & Hrest); [done|done|by rewrite N1|done|].
  exists sym, gs1, gs2. split; [done|]. split; [done|]. split.
  { unfold deleteFieldViaFullNameHash. rewrite Howner. cbn [mbind option_bind]. rewrite Hhs. exact E2. }
  split; [done|]. split_and!; [| |done].
  - intros Heq. rewrite Heq in Hmem. rewrite Heq. apply (Hgone _ KFieldOrStaticField sym); [|unfold onlyIn; rewrite Hlocs; cbn].
    + split_and!; [done|lia|lia|done|]. unfold matchesFullNameHash. rewrite N1.
      assert (Hm : match nameKind (fdf_name field) with
        | Some UNIQUE => u ← dataUnique (nametable gs) (fdf_name field);
            Some (if bool_decide (un_kind u = MangleRename \/ un_kind u = Overload) then un_original u else fdf_name field)
        | _ => Some (fdf_name field) end = Some (fdf_name field)) by (destruct (nameKind (fdf_name field)) as [[]|]; done).
      rewrite Hm. cbn [mbind option_bind]. rewrite Hname. cbn. by rewrite Z.eqb_refl.
    + unfold removeLocsForFile. destruct (file =? 0); [done|]. rewrite filter_cons. cbn. by destruct (decide _).
  - intros Hne. split.
    + rewrite Hkeep; [done|lia|]. intros kd i Heq. by destruct Hne.
    + apply Hrest; [lia|done|]. intros n (Hm & _). apply (co_member _ _ Hco1) in Hm as (kd & i & Heq & Hi & _ & Hp); [|apply Hklass|].
      * apply makeSymbolRef_inj in Heq as [<- <-]; [|lia|split; [lia|]; eapply (placed_bound h gs1); [done|lia|exact Hp]]. congruence.
      * split; intros ->; [apply (co_singleton _ _ Hco1) in Hm as (k & Hk & Heq & Ha)|apply (co_attached _ _ Hco1) in Hm as (k & Hk & Heq & Ha)]; try apply Hklass.
        all: apply makeSymbolRef_inj in Heq as [[=] _]; [lia|]. all: split; [lia|]. all: unfold member in Ha; destruct (classData _ k) as [ck|] eqn:Ek; [|done].
        all: eapply (placed_bound h gs1 KClassOrModule k (cm_owner ck, cm_name ck)); [done|lia|]; cbn; by rewrite Ek.
Qed.
End Fields.

(** C40: a field that the namer enters is deleted again by its hash, unless it is assigned in a method at the top level. For a
    field that is new to its class, in a consistent table, with an ordinary name and a class that is not a singleton class:
    [insertField] enters it with its location, and [deleteFieldViaFullNameHash], given the hash that was recorded for it,
    succeeds and keeps the table consistent. If the class in which the field was entered is the one that contains the
    assignment, the field is no member any more. But a field assigned in a method at the top level is entered in [Object],
    and the deletion, which does not read [fromWithinMethod], looks for it in [root]: it stays a member, with its location. *)
Theorem field_deleted_unless_top_level nn en h hs visit file klass field definedClasses hash gs :
  let scope := fieldScope nn klass field in
  Consistent h gs -> all_grounded (nametable gs) -> (forall m, visit m ≡ₚ map_to_list m) ->
  live gs KClassOrModule klass -> live gs KClassOrModule scope -> sym_Object nn <> root ->
  fdf_onSingletonClass field = false -> nameKind (fdf_name field) <> Some UNIQUE ->
  Enterable gs KFieldOrStaticField scope (fdf_name field) -> member gs scope (fdf_name field) = None ->
  getOwnerSymbol definedClasses (ff_ownerIsSymbol hash) (ff_ownerIdx hash) = Some klass ->
  ff_onSingletonClass hash = false -> fullNameHash hs (nametable gs) (fdf_name field) = Some (ff_nameHash hash) ->
  exists sym gs1 gs2, insertField nn en file (classSymbol klass) field gs = Some (sym, gs1) /\
    member gs1 scope (fdf_name field) = Some (makeSymbolRef KFieldOrStaticField sym) /\
    locsView gs1 KFieldOrStaticField sym = Some (if file =? 0 then [] else [locAt file (fdf_loc field)]) /\
    deleteFieldViaFullNameHash en hs visit file definedClasses gs1 hash = Some gs2 /\ Consistent h gs2 /\
    if fdf_fromWithinMethod field && (klass =? root)
    then scope = sym_Object nn /\ member gs2 scope (fdf_name field) = Some (makeSymbolRef KFieldOrStaticField sym) /\
         locsView gs2 KFieldOrStaticField sym = locsView gs1 KFieldOrStaticField sym
    else scope = klass /\ member gs2 scope (fdf_name field) = None.
Proof.
  intros scope Hco Hground Hvisit Hk Hs Hobj Hsingle Hkind Hen Hfree Howner Hhs Hname.
  destruct (field_fate nn en h hs visit file klass field gs Hco Hk Hs Hsingle Hfree Hen definedClasses hash Hground Hvisit Howner Hhs Hname Hkind)
    as (sym & gs1 & gs2 & E1 & Hm & E2 & Hco2 & Hgone & Hstay & Hlocs). fold scope in Hm, Hgone, Hstay.
  exists sym, gs1, gs2. split_and!; try done. unfold scope, fieldScope in *. destruct (_ && _) eqn:Etop.
  - split; [done|]. apply Hstay. apply andb_true_iff in Etop as [_ ->%Z.eqb_eq]. done.
  - split; [done|]. by apply Hgone.
Qed.

(** ** Examples *)

Definition deleteNamerNames : NamerNames := mkNamerNames 0 0 (text 12) (text 10) (text 11) 0 0 0 0 0 0 0 0 4.

(** A hash that tells the names of the example apart *)
Definition textHash (s : str) : Z := fold_left (fun hash c => 31 * hash + Z.of_N (Ascii.N_of_ascii c)) s 7 mod 2 ^ 32.

(** A method in the first file *)
Definition located : list SymbolOp := [EnterClass nowhere root constantA; EnterMethod (locAt 1 (mkLocOffsets 0 1)) 4 foo nowhere; EnterField nowhere 4 bar].

Lemma located_run : rtc (opStep sampleEntryNames) sampleState (after located).
Proof.
  apply after_steps; [vm_compute; by eexists|]. intros i op Hi.
  do 3 (destruct i as [|i]; [injection Hi as <-; cbn [take located allowed]; enterable|]). done.
Qed.

Definition fooHash : Z := default 0 (fullNameHash textHash (nametable (after located)) foo).

Lemma located_grounded : all_grounded (nametable (after located)).
Proof.
  assert (Hutf8 : forall raw s, (raw, NUtf8 s) ∈ allNames (nametable (after located)) -> exists n, grounded (nametable (after located)) raw n)
    by (intros raw s H; exists 0%nat; by eapply grounded_utf8).
  intros raw d H. destruct d as [s|o|u]; [by eapply Hutf8| |].
  - assert (Ho : exists s, (o, NUtf8 s) ∈ allNames (nametable (after located))).
    { apply list_elem_of_In in H. vm_compute in H. destruct_or!; simplify_eq; try done; eexists; apply list_elem_of_In; vm_compute; eauto 40. }
    destruct Ho as [s Ho]. exists 1%nat. eapply grounded_constant; [done|by eapply grounded_utf8].
  - exfalso. apply list_elem_of_In in H. vm_compute in H. destruct_or!; done.
Qed.

Lemma deleteViaHash_correct_witness : exists gs', deleteSymbolViaFullNameHash textHash map_to_list 1 4 fooHash (after located) = Some gs' /\
  member gs' 4 foo = None /\ member gs' 4 bar = Some (makeSymbolRef KFieldOrStaticField 1).
Proof.
  destruct (deleteViaHash_correct sampleHash textHash map_to_list 1 4 fooHash (after located)) as (gs' & E & _ & _ & Hgone & _ & Hkeep & _).
  - exact (run_consistent _ _ _ _ sampleState_consistent located_run).
  - is_live.
  - exact located_grounded.
  - done.
  - exists gs'. split; [exact E|]. split.
    + apply (Hgone foo KMethod 1); [|vm_compute; reflexivity]. clear. split_and!; [vm_compute; reflexivity|lia|lia|discriminate|vm_compute; reflexivity].
    + rewrite Hkeep; [clear; vm_compute; reflexivity|lia|]. clear. intros kd i _ (_ & _ & _ & H). vm_compute in H. discriminate H.
Defined.

(** [@bar] in a method at the top level, where the class 4 is [Object] *)
Definition topLevelField : FoundField := mkFoundField true false true (mkLocOffsets 0 1) bar.

(** What [populateFoundDefHashes] records for it, [root] being the first class of the file *)
Definition topLevelHash : FoundFieldHash :=
  mkFoundFieldHash 0 false false true true (default 0 (fullNameHash textHash (nametable (after [EnterClass nowhere root constantA])) bar)).

Abbreviation topLevel := (after [EnterClass nowhere root constantA]).

Lemma topLevel_run : rtc (opStep sampleEntryNames) sampleState topLevel.
Proof.
  apply after_steps; [vm_compute; by eexists|]. intros i op Hi.
  destruct i as [|i]; [injection Hi as <-; cbn [take allowed]; enterable|]. done.
Qed.

(** The field in a method at the top level stays in the class 4; one in the body of the class itself is deleted. *)
Lemma field_deleted_unless_top_level_witness :
  (exists sym gs1 gs2, insertField deleteNamerNames sampleEntryNames 1 (classSymbol root) topLevelField topLevel = Some (sym, gs1) /\
     deleteFieldViaFullNameHash sampleEntryNames textHash map_to_list 1 [root] gs1 topLevelHash = Some gs2 /\
     member gs2 4 bar = Some (makeSymbolRef KFieldOrStaticField sym)) /\
  exists sym gs1 gs2, insertField deleteNamerNames sampleEntryNames 1 (classSymbol 4) topLevelField topLevel = Some (sym, gs1) /\
     deleteFieldViaFullNameHash sampleEntryNames textHash map_to_list 1 [4] gs1 topLevelHash = Some gs2 /\ member gs2 4 bar = None.
Proof.
  assert (Hg : all_grounded (nametable topLevel)).
  { replace (nametable topLevel) with (nametable (after located)) by (vm_compute; reflexivity). exact located_grounded. }
  assert (Hc : Consistent sampleHash topLevel) by exact (run_consistent _ _ _ _ sampleState_consistent topLevel_run).
  split.
  - destruct (field_deleted_unless_top_level deleteNamerNames sampleEntryNames sampleHash textHash map_to_list 1 root topLevelField [root] topLevelHash topLevel)
      as (sym & gs1 & gs2 & E1 & _ & _ & E2 & _ & H);
      [exact Hc|exact Hg|done|is_live|is_live|vm_compute; done|done|vm_compute; done|enterable|vm_compute; reflexivity|done|done|vm_compute; reflexivity|].
    exists sym, gs1, gs2. split; [exact E1|]. split; [exact E2|]. exact (proj1 (proj2 H)).
  - destruct (field_deleted_unless_top_level deleteNamerNames sampleEntryNames sampleHash textHash map_to_list 1 4 topLevelField [4] topLevelHash topLevel)
      as (sym & gs1 & gs2 & E1 & _ & _ & E2 & _ & H);
      [exact Hc|exact Hg|done|is_live|is_live|vm_compute; done|done|vm_compute; done|enterable|vm_compute; reflexivity|done|done|vm_compute; reflexivity|].
    exists sym, gs1, gs2. split; [exact E1|]. split; [exact E2|]. exact (proj2 H).
Defined.
