(* ===== verification/KwargsFinder.v ===== *)
(** * Keyword arguments of a call

    Models src/main/lsp/KwargsFinder.cc: a query over a tree for the call at a location, which answers
    with the names of its keyword arguments. *)

From S2P Require Import Prelude Pickler FileHash Files Locs Types NameTable NameText Symbols SymbolRefs Ast UIntSet.
From S2P Require Import Cfg CfgTopo CfgReads CfgArgs CfgFinalize CfgBuild TreeWalk.

#[local] Open Scope Z_scope.

(** The symbol literals among the keys *)
Definition keyName (pair : Expr * Expr) : list Z :=
  match pair.1 with Literal _ (NamedLiteralType LitSymbol name) => [name] | _ => [] end.

(** [SendTraversal] *)
Definition sendTraversal (funLoc : LocOffsets) (call : Call) (kwargs : list Z) : option (list Z * QueryControl) :=
  match ca_phase call, ca_node call with
  | Pre, Send loc _ sendFunLoc flags numPosArgs _ args =>
      if negb (offsets_contains sendFunLoc funLoc)
      then Some (kwargs, if offsets_contains loc funLoc then Continue else Skip)
      else
        pairs ← kwArgPairs flags numPosArgs args;
        Some (kwargs ++ concat (keyName <$> pairs), Done)
  | Pre, MethodDef loc _ _ _ _ _ _ _ => Some (kwargs, if offsets_contains loc funLoc then Continue else Skip)
  | _, _ => Some (kwargs, Continue)
  end.

Definition findKwargs (file : Z) (tree : Expr) (funLoc : LocOffsets) : option (list Z) :=
  treeQuery (sendTraversal funLoc) (mkContext (classSymbol root) file) tree [].

(** ** A query does not enter rescue cases *)

(** [foo(a: 1)] at the location 5 to 14, with the name [foo] at 5 to 8 *)
Definition keywordCall : Expr :=
  Send (mkLocOffsets 5 14) 77 (mkLocOffsets 5 8) (mkSendFlags true false false) 0 (Self noOffsets)
    [Literal noOffsets (NamedLiteralType LitSymbol 99); Literal noOffsets (IntegerLiteralType 1)].

Definition rescued (body : Expr) (cases : list Expr) : Expr := Rescue (mkLocOffsets 0 20) body cases EmptyTree EmptyTree.

(** Whatever the rescue cases of a statement are, the query does not look at them: it finds the keyword arguments of a
    call in the body of the statement, and not those of the same call in a rescue case. *)
Theorem rescue_case_not_searched file funLoc body cases :
  findKwargs file (rescued body cases) funLoc = findKwargs file (rescued body []) funLoc /\
  findKwargs file (rescued keywordCall []) (mkLocOffsets 5 8) = Some [99] /\
  findKwargs file (rescued EmptyTree [RescueCase (mkLocOffsets 2 14) [] EmptyTree keywordCall]) (mkLocOffsets 5 8) = Some [].
Proof. split_and!; reflexivity. Qed.
