(* ===== verification/CfgBuildInv.v ===== *)
(** * The builder keeps graphs sane

    A proof about every function of [CfgBuild]: it never uses a block that does not exist, never sets
    the exit of a block twice and leaves no block without an exit, and the back edges mirror the
    exits. The proof is a logic of triples for the monad of the builder, in which the blocks that
    have no exit yet are resources: a jump consumes the block it leaves, a walk consumes its current
    block and gives back the one it returns. *)

From S2P Require Import Prelude Pickler FileHash Files Locs Types NameTable NameText Symbols SymbolRefs Linearize.
From S2P Require Import Ast UIntSet Cfg CfgTopo CfgReads CfgArgs CfgFinalize CfgBuild.

#[local] Open Scope Z_scope.

(** ** The invariant *)

(** The dead block is the second one that a graph creates. *)
Definition dead : nat := 1.

Definition unset (e : BlockExit) : Prop := vu_variable (be_cond e) = noVariable /\ be_thenb e = None /\ be_elseb e = None.

(** An exit to blocks below [n] that are not the entry, with the condition that [CFG::sanityCheck] asks for *)
Definition exit_ok (n : nat) (e : BlockExit) : Prop :=
  exists t f, be_thenb e = Some t /\ be_elseb e = Some f /\ (0 < t < n)%nat /\ (0 < f < n)%nat /\
    vu_variable (be_cond e) <> noVariable /\ (t = f <-> vu_variable (be_cond e) = unconditional).

Section Invariant.
Context (wn : CfgNames).

(** A graph whose open blocks are those of [R]; the dead block may be listed any number of times. *)
Record sane (R : list nat) (c : CFG) : Prop := mk_sane {
  sn_blocks : forall k, is_Some (cfg_blocks c !! k) <-> (k < maxBasicBlockId c)%nat;
  sn_ids : forall k bb, cfg_blocks c !! k = Some bb -> bb_id bb = k;
  sn_listed : basicBlocks c = seq 0 (maxBasicBlockId c);
  sn_open_low : forall k, k ∈ R -> (k < maxBasicBlockId c)%nat;
  sn_open_nodup : NoDup (filter (fun k => k <> dead) R);
  sn_exits : forall k bb, cfg_blocks c !! k = Some bb -> k <> dead ->
    if decide (k ∈ R) then unset (bb_exit bb) else exit_ok (maxBasicBlockId c) (bb_exit bb);
  sn_dead : forall bb, cfg_blocks c !! dead = Some bb ->
    be_thenb (bb_exit bb) = Some dead /\ be_elseb (bb_exit bb) = Some dead /\ vu_variable (be_cond (bb_exit bb)) = unconditional;
  sn_back_nodup : forall k bb, cfg_blocks c !! k = Some bb -> NoDup (bb_backEdges bb);
  sn_back : forall k bb p, cfg_blocks c !! k = Some bb -> p ∈ bb_backEdges bb <-> (p <> dead /\ succ c p k);
  sn_vars : vars_ok c }.

(** The variables of a graph: the first ones are fixed, and a known one is where the table says. *)
Record locals_ok (c : CFG) : Prop := mk_locals_ok {
  lk_minLoops : length (minLoops c) = length (localVariables c);
  lk_maxLoopWrite : length (maxLoopWrite c) = length (localVariables c);
  lk_unconditional : localVariables c !! unconditional = Some (mkLocalVariable (n_unconditional wn) 0);
  lk_table : forall v r, localVariableToLocalRef c !! v = Some r ->
    (r < length (localVariables c))%nat /\ (r <> noVariable -> localVariables c !! r = Some v) }.

(** At least [n] blocks and [l] variables exist. *)
Record Inv (R : list nat) (n l : nat) (st : BuilderState) : Prop := mk_Inv {
  in_sane : sane R (bs_cfg st);
  in_locals : locals_ok (bs_cfg st);
  in_n : (2 <= n <= maxBasicBlockId (bs_cfg st))%nat;
  in_l : (5 <= l <= length (localVariables (bs_cfg st)))%nat;
  in_aliases : forall k o, bs_aliases st !! k = Some o -> (lo_variable o < length (localVariables (bs_cfg st)))%nat;
  in_undeclared : forall k o, bs_undeclared st !! k = Some o -> (lo_variable o < length (localVariables (bs_cfg st)))%nat }.

(** ** Triples

    A computation that starts with open blocks [R] either stops for a reason that is not the graph,
    and not the fuel if [E] holds, or ends with a result and open blocks of which [Phi] holds. *)

Definition fine (E : Prop) (s : Stop) : Prop := s <> BadGraph /\ (E -> s <> OutOfFuel).

Definition spec {A} (E : Prop) (R : list nat) (n l : nat) (m : bld A) (Phi : A -> list nat -> nat -> nat -> Prop) : Prop :=
  forall st, Inv R n l st ->
    match m st with
    | inl s => fine E s
    | inr (a, st') => exists R' n' l', (n <= n')%nat /\ (l <= l')%nat /\ Phi a R' n' l' /\ Inv R' n' l' st'
    end.

Lemma spec_bind {A B} E R n l (m : bld A) (k : A -> bld B) Phi Psi :
  spec E R n l m Phi ->
  (forall a R' n' l', (n <= n')%nat -> (l <= l')%nat -> Phi a R' n' l' -> spec E R' n' l' (k a) Psi) ->
  spec E R n l (m ≫= k) Psi.
Proof.
  intros Hm Hk st Hst. unfold mbind, bld_bind. specialize (Hm st Hst). destruct (m st) as [s|[a st']]; [done|].
  destruct Hm as (R' & n' & l' & Hn & Hl & HP & HI). specialize (Hk a R' n' l' Hn Hl HP st' HI).
  destruct (k a st') as [s|[b st'']]; [done|]. destruct Hk as (R'' & n'' & l'' & ? & ? & ? & ?).
  exists R'', n'', l''. split_and!; [lia|lia|done|done].
Qed.

Lemma spec_mono {A} (E E' : Prop) R n l (m : bld A) Phi Psi : (E' -> E) -> spec E R n l m Phi ->
  (forall a R' n' l', (n <= n')%nat -> (l <= l')%nat -> Phi a R' n' l' -> Psi a R' n' l') -> spec E' R n l m Psi.
Proof.
  intros HE Hm HPQ st Hst. specialize (Hm st Hst). destruct (m st) as [s|[a st']].
  - destruct Hm. split; auto.
  - destruct Hm as (R' & n' & l' & Hn & Hl & HP & HI). exists R', n', l'. auto.
Qed.

Lemma spec_stop {A} E R n l s Phi : s <> BadGraph -> s <> OutOfFuel -> spec E R n l (@stopWith A s) Phi.
Proof. intros H1 H2 st _. simpl. by split. Qed.

(** *** The order of open blocks, and the dead block among them, do not matter *)

Lemma tokens_elem R R' k : filter (fun k => k <> dead) R ≡ₚ filter (fun k => k <> dead) R' -> k <> dead -> k ∈ R <-> k ∈ R'.
Proof.
  intros Hp Hk. assert (H : k ∈ filter (fun k => k <> dead) R <-> k ∈ filter (fun k => k <> dead) R') by (by rewrite Hp).
  rewrite !list_elem_of_filter in H. naive_solver.
Qed.

Lemma sane_tokens R R' c : (2 <= maxBasicBlockId c)%nat -> filter (fun k => k <> dead) R ≡ₚ filter (fun k => k <> dead) R' -> sane R c -> sane R' c.
Proof.
  intros H2 Hp [H1 Hid Hls Hlow Hnd Hex Hdead Hbn Hb Hv]. split; try done.
  - intros k Hk. destruct (decide (k = dead)) as [->|Hne]; [unfold dead; lia|]. apply Hlow. by apply (tokens_elem R R').
  - by rewrite <- Hp.
  - intros k bb Hbb Hne. specialize (Hex k bb Hbb Hne). pose proof (tokens_elem R R' k Hp Hne).
    destruct (decide (k ∈ R)), (decide (k ∈ R')); tauto.
Qed.

Lemma spec_tokens {A} E R R' n l (m : bld A) Phi : filter (fun k => k <> dead) R ≡ₚ filter (fun k => k <> dead) R' ->
  spec E R' n l m Phi -> spec E R n l m Phi.
Proof.
  intros Hp Hm st [H1 H2 H3 H4 H5 H6]. apply Hm. split; try done. eapply sane_tokens; [lia|done|done].
Qed.

Lemma spec_ret {A} E R R' n l (a : A) Phi : filter (fun k => k <> dead) R ≡ₚ filter (fun k => k <> dead) R' ->
  Phi a R' n l -> spec E R n l (mret a) Phi.
Proof.
  intros Hp HP. eapply spec_tokens; [done|]. intros st Hst. simpl. exists R', n, l. auto.
Qed.

(** ** Changes of blocks *)

Lemma succ_ext c c' p k : (forall u, bb_exit <$> cfg_blocks c' !! u = bb_exit <$> cfg_blocks c !! u) -> succ c' p k <-> succ c p k.
Proof.
  intros H. specialize (H p). unfold succ.
  destruct (cfg_blocks c' !! p) as [b'|], (cfg_blocks c !! p) as [b|]; simplify_eq/=; [|naive_solver].
  split; intros (bb & [= <-] & ?); eexists; (split; [done|]); congruence.
Qed.

(** A change of a block that keeps its id, exit and back edges, and uses only existing variables *)
Definition benign (l : nat) (f : BasicBlock -> BasicBlock) : Prop := forall bb,
  bb_id (f bb) = bb_id bb /\ bb_exit (f bb) = bb_exit bb /\ bb_backEdges (f bb) = bb_backEdges bb /\
  forall bind, bind ∈ bb_exprs (f bb) -> bind ∈ bb_exprs bb \/
    (bindingWrites bind < l)%nat /\ Forall (fun v => v < l)%nat (instructionReads (bd_value bind)).

Lemma sane_benign R c b f : sane R c -> (b < maxBasicBlockId c)%nat -> benign (length (localVariables c)) f ->
  exists m, updateBlock b f c = Some (set_blocks m c) /\ sane R (set_blocks m c).
Proof.
  intros [H1 Hid Hls Hlow Hnd Hex Hdead Hbn Hb Hv] Hlt Hf. destruct (proj2 (H1 b) Hlt) as [bb Hbb].
  unfold updateBlock. rewrite Hbb. simpl. eexists. split; [done|].
  destruct (Hf bb) as (Fid & Fex & Fbk & Fexprs).
  assert (Hlk : forall k d, <[b := f bb]> (cfg_blocks c) !! k = Some d ->
    exists d0, cfg_blocks c !! k = Some d0 /\ bb_id d = bb_id d0 /\ bb_exit d = bb_exit d0 /\ bb_backEdges d = bb_backEdges d0).
  { intros k d. rewrite lookup_insert_Some. intros [[<- <-]|[_ Hk]]; [exists bb|exists d]; auto. }
  assert (Hs : forall p k, succ (set_blocks (<[b := f bb]> (cfg_blocks c)) c) p k <-> succ c p k).
  { intros p k. apply succ_ext. intros u. simpl. rewrite lookup_insert. case_decide; [subst|done]. rewrite Hbb. simpl. by f_equal. }
  split; simpl; try done.
  - intros k. rewrite <- H1, lookup_insert_is_Some. destruct (decide (b = k)) as [->|]; naive_solver.
  - intros k d (d0 & Hk & -> & _)%Hlk. by apply Hid.
  - intros k d (d0 & Hk & _ & -> & _)%Hlk. by apply Hex.
  - intros d (d0 & Hk & _ & -> & _)%Hlk. by apply Hdead.
  - intros k d (d0 & Hk & _ & _ & ->)%Hlk. by eapply Hbn.
  - intros k d p (d0 & Hk & _ & _ & ->)%Hlk. rewrite Hs. by apply Hb.
  - intros k d Hk. cbn [cfg_blocks set_blocks] in Hk. apply lookup_insert_Some in Hk as [[<- <-]|[_ Hk]]; [|by apply (Hv k)].
    destruct (Hv b bb Hbb) as [Hbind Hcond]. rewrite Fex. split; [|done].
    intros bind v Hin Hvv. destruct (Fexprs bind Hin) as [?|[Hw Hr]]; [by apply (Hbind bind)|].
    destruct Hvv as [->|Hvv]; [done|]. rewrite Forall_forall in Hr. by apply Hr.
Qed.

Lemma Inv_blocks R R' n l st m : Inv R n l st -> sane R' (set_blocks m (bs_cfg st)) ->
  Inv R' n l (set_cfg (set_blocks m (bs_cfg st)) st).
Proof. intros [H1 [L1 L2 L3 L4] H3 H4 H5 H6] Hs. split; try done. Qed.

Lemma spec_benign E R n l b f : (b < n)%nat -> benign l f ->
  spec E R n l (graph (updateBlock b f)) (fun _ R' n' l' => R' = R).
Proof.
  intros Hb Hf st HI. pose proof (in_n _ _ _ _ HI). pose proof (in_l _ _ _ _ HI).
  destruct (sane_benign R (bs_cfg st) b f (in_sane _ _ _ _ HI)) as (m & Hu & Hs); [lia| |].
  - intros bb. destruct (Hf bb) as (? & ? & ? & Hx). split_and!; [done..|]. intros bind Hin.
    destruct (Hx bind Hin) as [?|[? Hr]]; [by left|right]. split; [lia|]. eapply Forall_impl; [exact Hr|]. simpl. lia.
  - unfold graph. rewrite Hu. exists R, n, l. split_and!; [lia|lia|done|]. by apply (Inv_blocks R).
Qed.

Lemma benign_jump l : benign l set_wasJumpDestination.
Proof. intros bb. split_and!; try done. by left. Qed.

Lemma benign_snoc l occ loc i s : (lo_variable occ < l)%nat -> Forall (fun v => v < l)%nat (instructionReads i) ->
  benign l (fun bb => set_exprs (bb_exprs bb ++ [mkBinding (useSite (lo_variable occ) (lo_loc occ)) loc i s]) bb).
Proof.
  intros Ho Hi bb. split_and!; try done. simpl. intros bind [?|Hb%list_elem_of_singleton]%elem_of_app; [by left|].
  subst bind. by right.
Qed.

Lemma spec_emplace E R n l b occ loc i : (b < n)%nat -> (lo_variable occ < l)%nat -> Forall (fun v => v < l)%nat (instructionReads i) ->
  spec E R n l (emplace b occ loc i) (fun _ R' n' l' => R' = R).
Proof. intros. by apply spec_benign, benign_snoc. Qed.

Lemma spec_synthesize E R n l b occ loc i : (b < n)%nat -> (lo_variable occ < l)%nat -> Forall (fun v => v < l)%nat (instructionReads i) ->
  spec E R n l (synthesizeExpr b occ loc i) (fun _ R' n' l' => R' = R).
Proof. intros. by apply spec_benign, benign_snoc. Qed.

(** ** Exits *)

Lemma updateBlock_alter b g c : is_Some (cfg_blocks c !! b) -> updateBlock b g c = Some (set_blocks (alter g b (cfg_blocks c)) c).
Proof.
  intros [bb Hb]. unfold updateBlock. rewrite Hb. simpl. do 2 f_equal. apply map_eq. intros k.
  rewrite lookup_insert, lookup_alter. case_decide; [subst; by rewrite Hb|done].
Qed.

Definition pushBack (from : nat) (bb : BasicBlock) : BasicBlock := set_backEdges (bb_backEdges bb ++ [from]) bb.

Definition exitTo (cond t f : nat) (loc : LocOffsets) (bb : BasicBlock) : BasicBlock :=
  set_exit (mkBlockExit (assignUseSite (be_cond (bb_exit bb)) (synthetic cond)) (Some t) (Some f) loc) bb.

Lemma exitBlock_alter from cond t f loc c bb : cfg_blocks c !! from = Some bb -> unset (bb_exit bb) ->
  exitBlock from cond t f loc c = Some (set_blocks (alter (exitTo cond t f loc) from (cfg_blocks c)) c).
Proof.
  intros Hb (Hc & Ht & Hf). unfold exitBlock. rewrite Hb. simpl. unfold setExit, isCondSet. rewrite Hc, Ht, Hf. simpl.
  do 2 f_equal. apply map_eq. intros k. rewrite lookup_insert, lookup_alter. case_decide; [subst; by rewrite Hb|done].
Qed.

(** The heap after [from] got an exit to [t] and [f] and its targets their back edges *)
Definition jumped (from cond t f : nat) (loc : LocOffsets) (blocks m : gmap nat BasicBlock) : Prop := forall k,
  m !! k = (fun bb =>
      let bb := if decide (k = from) then exitTo cond t f loc bb else bb in
      if decide (k = t \/ k = f) then pushBack from bb else bb) <$> blocks !! k.

Lemma jumped_exit from cond t f loc c m k bb : jumped from cond t f loc (cfg_blocks c) m -> m !! k = Some bb ->
  exists d, cfg_blocks c !! k = Some d /\ bb_id bb = bb_id d /\ bb_exprs bb = bb_exprs d /\
    bb_exit bb = (if decide (k = from) then bb_exit (exitTo cond t f loc d) else bb_exit d) /\
    bb_backEdges bb = (if decide (k = t \/ k = f) then bb_backEdges d ++ [from] else bb_backEdges d).
Proof.
  intros Hm. rewrite Hm. intros (d & Hd & ->)%fmap_Some. exists d. split; [done|].
  destruct (decide (k = from)), (decide (k = t \/ k = f)); done.
Qed.

Lemma jumped_succ from cond t f loc c m p k : jumped from cond t f loc (cfg_blocks c) m -> is_Some (cfg_blocks c !! from) ->
  (succ (set_blocks m c) p k) <-> (if decide (p = from) then k = t \/ k = f else succ c p k).
Proof.
  intros Hm Hfrom. unfold succ. simpl. split.
  - intros (bb & Hbb & Hs). destruct (jumped_exit _ _ _ _ _ _ _ _ _ Hm Hbb) as (d & Hd & _ & _ & Hex & _).
    rewrite Hex in Hs. destruct (decide (p = from)); [|eauto]. simpl in Hs. destruct Hs; simplify_eq; auto.
  - destruct (decide (p = from)) as [->|].
    + destruct Hfrom as [d Hd]. intros Hk. specialize (Hm from). rewrite Hd in Hm. simpl in Hm. eexists. split; [done|].
      destruct (decide (from = from)); [|done]. destruct (decide _); simpl; destruct Hk; subst; auto.
    + intros (d & Hd & Hs). specialize (Hm p). rewrite Hd in Hm. simpl in Hm. eexists. split; [done|].
      destruct (decide (p = from)); [done|]. destruct (decide _); simpl; auto.
Qed.

Lemma sane_jumped R c from cond t f loc m : sane (from :: R) c -> from <> dead -> (0 < t < maxBasicBlockId c)%nat -> (0 < f < maxBasicBlockId c)%nat ->
  cond <> noVariable -> (t = f <-> cond = unconditional) -> (cond < length (localVariables c))%nat ->
  jumped from cond t f loc (cfg_blocks c) m -> sane R (set_blocks m c).
Proof.
  intros [H1 Hid Hls Hlow Hnd Hex Hdead Hbn Hb Hv] Hne Ht Hf Hc Htf Hcl Hm.
  assert (Hfrom : is_Some (cfg_blocks c !! from)) by (apply H1, Hlow; set_solver).
  assert (Hfr : from ∉ R).
  { rewrite filter_cons_True in Hnd by done. apply NoDup_cons in Hnd as [Hni _]. contradict Hni. by apply list_elem_of_filter. }
  assert (Hopen : forall k, ~ succ c from k).
  { intros k (bb & Hbb & Hs). specialize (Hex from bb Hbb Hne). rewrite decide_True in Hex by set_solver.
    destruct Hex as (_ & E1 & E2). rewrite E1, E2 in Hs. naive_solver. }
  split; simpl; try done.
  - intros k. rewrite <- H1, (Hm k), fmap_is_Some. done.
  - intros k bb Hk. destruct (jumped_exit _ _ _ _ _ _ _ _ _ Hm Hk) as (d & Hd & -> & _). by apply Hid.
  - intros k Hk. apply Hlow. set_solver.
  - rewrite filter_cons_True in Hnd by done. by apply NoDup_cons in Hnd as [_ ?].
  - intros k bb Hk Hkd. destruct (jumped_exit _ _ _ _ _ _ _ _ _ Hm Hk) as (d & Hd & _ & _ & -> & _).
    destruct (decide (k = from)) as [->|Hkf].
    + rewrite decide_False by done. by exists t, f.
    + specialize (Hex k d Hd Hkd). destruct (decide (k ∈ R)); [rewrite decide_True in Hex by set_solver|rewrite decide_False in Hex by set_solver]; done.
  - intros bb Hk. destruct (jumped_exit _ _ _ _ _ _ _ _ _ Hm Hk) as (d & Hd & _ & _ & -> & _).
    rewrite decide_False by done. by apply Hdead.
  - intros k bb Hk. destruct (jumped_exit _ _ _ _ _ _ _ _ _ Hm Hk) as (d & Hd & _ & _ & _ & ->).
    destruct (decide _); [|by eapply Hbn]. apply NoDup_app. split; [by eapply Hbn|]. split; [|apply NoDup_singleton].
    intros p Hp Hpf%list_elem_of_singleton. subst p. apply (Hb k d from Hd) in Hp as [_ Hs]. by apply Hopen in Hs.
  - intros k bb p Hk. rewrite (jumped_succ _ _ _ _ _ _ _ p k Hm Hfrom).
    destruct (jumped_exit _ _ _ _ _ _ _ _ _ Hm Hk) as (d & Hd & _ & _ & _ & ->).
    pose proof (Hb k d p Hd) as Hbp. pose proof (Hopen k) as Hok.
    destruct (decide (k = t \/ k = f)), (decide (p = from)) as [->|]; rewrite ?elem_of_app, ?list_elem_of_singleton; naive_solver.
  - intros k bb Hk. destruct (jumped_exit _ _ _ _ _ _ _ _ _ Hm Hk) as (d & Hd & _ & Hexp & Hexit & _).
    destruct (Hv k d Hd) as [Hbind Hcond]. rewrite Hexp. split; [done|]. rewrite Hexit. by destruct (decide _).
Qed.

Lemma deadBlock_sane R n l st : Inv R n l st -> deadBlock (bs_cfg st) = Some dead.
Proof.
  intros HI. unfold deadBlock. rewrite (sn_listed _ _ (in_sane _ _ _ _ HI)). pose proof (in_n _ _ _ _ HI).
  rewrite lookup_seq_lt by lia. done.
Qed.

Lemma spec_isDead E R n l b : spec E R n l (isDead b) (fun d R' n' l' => R' = R /\ d = (b =? dead)%nat).
Proof.
  intros st HI. unfold isDead, getCFG, mbind, bld_bind. rewrite (deadBlock_sane _ _ _ _ HI). simpl. exists R, n, l. auto.
Qed.

Lemma spec_deadBlockOf E R n l : spec E R n l deadBlockOf (fun d R' n' l' => R' = R /\ d = dead).
Proof.
  intros st HI. unfold deadBlockOf, getCFG, mbind, bld_bind. rewrite (deadBlock_sane _ _ _ _ HI). simpl. exists R, n, l. auto.
Qed.

Lemma is_Some_block R n l st b : Inv R n l st -> (b < maxBasicBlockId (bs_cfg st))%nat -> is_Some (cfg_blocks (bs_cfg st) !! b).
Proof. intros HI. apply (sn_blocks _ _ (in_sane _ _ _ _ HI)). Qed.

Lemma set_cfg_twice c c' st : set_cfg c (set_cfg c' st) = set_cfg c st.
Proof. done. Qed.

Lemma lookup_alter_if (g : BasicBlock -> BasicBlock) i k (m : gmap nat BasicBlock) :
  alter g i m !! k = (fun bb => if decide (k = i) then g bb else bb) <$> m !! k.
Proof.
  destruct (decide (k = i)) as [->|].
  - rewrite lookup_alter_eq. destruct (m !! i); [|done]. simpl. by destruct (decide (i = i)).
  - rewrite lookup_alter_ne by done. by destruct (m !! k).
Qed.

Lemma jumped_two from cond t f loc blocks : t <> f ->
  jumped from cond t f loc blocks (alter (pushBack from) f (alter (pushBack from) t (alter (exitTo cond t f loc) from blocks))).
Proof.
  intros Hne k. rewrite !lookup_alter_if. destruct (blocks !! k) as [bb|]; [|done]. simpl. f_equal.
  destruct (decide (k = from)), (decide (k = t)), (decide (k = f)), (decide (k = t \/ k = f)); naive_solver.
Qed.

Lemma jumped_one from cond t loc blocks :
  jumped from cond t t loc blocks (alter (pushBack from) t (alter (exitTo cond t t loc) from blocks)).
Proof.
  intros k. rewrite !lookup_alter_if. destruct (blocks !! k) as [bb|]; [|done]. simpl. f_equal.
  destruct (decide (k = from)), (decide (k = t)), (decide (k = t \/ k = t)); naive_solver.
Qed.

(** The parts of the jumps that follow the check for the dead block *)
Lemma spec_exit_two E R n l from cond t f loc : from <> dead -> (0 < t < n)%nat -> (0 < f < n)%nat -> (cond < l)%nat ->
  t <> f -> cond <> noVariable -> cond <> unconditional ->
  spec E (from :: R) n l (_ ← graph (exitBlock from cond t f loc); _ ← graph (addBackEdge from t); graph (addBackEdge from f))
    (fun _ R' n' l' => R' = R).
Proof.
  intros Hne Ht Hf Hcl Htf Hc Hcu st HI. pose proof (in_sane _ _ _ _ HI) as Hs. pose proof (in_n _ _ _ _ HI). pose proof (in_l _ _ _ _ HI).
  destruct (is_Some_block _ _ _ _ from HI ltac:(apply (sn_open_low _ _ Hs); set_solver)) as [bb Hbb].
  destruct (is_Some_block _ _ _ _ t HI ltac:(lia)) as [tb Htb]. destruct (is_Some_block _ _ _ _ f HI ltac:(lia)) as [fb Hfb].
  assert (Hun : unset (bb_exit bb)).
  { pose proof (sn_exits _ _ Hs from bb Hbb Hne) as Hx. by rewrite decide_True in Hx by set_solver. }
  unfold graph, mbind, bld_bind. rewrite (exitBlock_alter _ _ _ _ _ _ bb Hbb Hun). simpl.
  unfold addBackEdge. rewrite updateBlock_alter by (simpl; rewrite lookup_alter_is_Some; eauto). simpl.
  rewrite updateBlock_alter by (simpl; rewrite !lookup_alter_is_Some; eauto). simpl.
  exists R, n, l. split_and!; [lia|lia|done|]. rewrite !set_cfg_twice, !set_blocks_twice.
  eapply (Inv_blocks (from :: R) R); [exact HI|]. eapply (sane_jumped R _ from cond t f loc); try done; try lia.
  by apply jumped_two.
Qed.

Lemma spec_exit_one E R n l from t loc : from <> dead -> (0 < t < n)%nat ->
  spec E (from :: R) n l (_ ← graph (exitBlock from unconditional t t loc); graph (addBackEdge from t)) (fun _ R' n' l' => R' = R).
Proof.
  intros Hne Ht st HI. pose proof (in_sane _ _ _ _ HI) as Hs. pose proof (in_n _ _ _ _ HI). pose proof (in_l _ _ _ _ HI).
  destruct (is_Some_block _ _ _ _ from HI ltac:(apply (sn_open_low _ _ Hs); set_solver)) as [bb Hbb].
  destruct (is_Some_block _ _ _ _ t HI ltac:(lia)) as [tb Htb].
  assert (Hun : unset (bb_exit bb)).
  { pose proof (sn_exits _ _ Hs from bb Hbb Hne) as Hx. by rewrite decide_True in Hx by set_solver. }
  unfold graph, mbind, bld_bind. rewrite (exitBlock_alter _ _ _ _ _ _ bb Hbb Hun). simpl.
  unfold addBackEdge. rewrite updateBlock_alter by (simpl; rewrite lookup_alter_is_Some; eauto). simpl.
  exists R, n, l. split_and!; [lia|lia|done|]. rewrite !set_cfg_twice, !set_blocks_twice.
  eapply (Inv_blocks (from :: R) R); [exact HI|]. eapply (sane_jumped R _ from unconditional t t loc); try done; try lia.
  - unfold unconditional. lia.
  - apply jumped_one.
Qed.

(** A dead token can be dropped. *)
Lemma spec_drop {A} E R n l (m : bld A) Phi b : b = dead -> spec E R n l m Phi -> spec E (b :: R) n l m Phi.
Proof. intros -> Hm. eapply spec_tokens; [|exact Hm]. by rewrite filter_cons_False by naive_solver. Qed.

Lemma spec_unconditionalJump E R R0 n l from to loc : R ≡ₚ from :: R0 -> (0 < to < n)%nat ->
  spec E R n l (unconditionalJump from to loc) (fun _ R' n' l' => R' = R0).
Proof.
  intros Hp Ht. eapply spec_tokens; [by rewrite Hp|]. unfold unconditionalJump.
  eapply spec_bind; [apply spec_benign; [lia|apply benign_jump]|]. intros _ R' n1 l1 Hn Hl ->.
  eapply spec_bind; [apply spec_isDead|]. intros d R' n2 l2 Hn2 Hl2 [-> ->].
  destruct (Nat.eqb_spec from dead) as [->|Hne].
  - apply spec_drop; [done|]. by eapply spec_ret.
  - apply spec_exit_one; [done|lia].
Qed.

Definition condvar (v : nat) : Prop := v <> noVariable /\ v <> unconditional.

Lemma spec_conditionalJump E R R0 n l from cond t f loc : R ≡ₚ from :: R0 -> (0 < t < n)%nat -> (0 < f < n)%nat -> (cond < l)%nat ->
  t <> f -> condvar cond ->
  spec E R n l (conditionalJump from cond t f loc) (fun _ R' n' l' => R' = R0).
Proof.
  intros Hp Ht Hf Hcl Htf [Hc1 Hc2]. eapply spec_tokens; [by rewrite Hp|]. unfold conditionalJump.
  eapply spec_bind; [apply spec_benign; [lia|apply benign_jump]|]. intros _ R' n1 l1 Hn Hl ->.
  eapply spec_bind; [apply spec_benign; [lia|apply benign_jump]|]. intros _ R' n2 l2 Hn2 Hl2 ->.
  eapply spec_bind; [apply spec_isDead|]. intros d R' n3 l3 Hn3 Hl3 [-> ->].
  destruct (Nat.eqb_spec from dead) as [->|Hne].
  - apply spec_drop; [done|]. by eapply spec_ret.
  - apply spec_exit_two; try done; lia.
Qed.

Lemma spec_jumpToDead E R R0 n l from loc : R ≡ₚ from :: R0 -> (2 <= n)%nat ->
  spec E R n l (jumpToDead from loc) (fun _ R' n' l' => R' = R0).
Proof.
  intros Hp Hn2. eapply spec_tokens; [by rewrite Hp|]. unfold jumpToDead.
  eapply spec_bind; [apply spec_deadBlockOf|]. intros d R' n1 l1 Hn Hl [-> ->].
  destruct (Nat.eqb_spec from dead) as [->|Hne].
  - apply spec_drop; [done|]. by eapply spec_ret.
  - apply spec_exit_one; [done|]. unfold dead. lia.
Qed.

(** ** New blocks and variables *)

Lemma sane_ext R c c' : cfg_blocks c' = cfg_blocks c -> maxBasicBlockId c' = maxBasicBlockId c -> basicBlocks c' = basicBlocks c ->
  (length (localVariables c) <= length (localVariables c'))%nat -> sane R c -> sane R c'.
Proof.
  intros Eb Em El Hl [H1 Hid Hls Hlow Hnd Hex Hdead Hbn Hb Hv].
  assert (Hs : forall p k, succ c' p k <-> succ c p k) by (intros p k; apply succ_ext; by rewrite Eb).
  split; rewrite ?Eb, ?Em, ?El; try done.
  - intros k bb p Hk. rewrite Hs. by apply Hb.
  - intros k bb Hk. rewrite Eb in Hk. destruct (Hv k bb Hk) as [Hbind Hcond]. split; [|lia].
    intros bind v Hin Hvv. specialize (Hbind bind v Hin Hvv). lia.
Qed.

Lemma sane_fresh R c z : (2 <= maxBasicBlockId c)%nat -> sane R c -> sane (maxBasicBlockId c :: R) (freshBlock z c).2.
Proof.
  intros H2 [H1 Hid Hls Hlow Hnd Hex Hdead Hbn Hb Hv]. set (id := maxBasicBlockId c) in *.
  assert (Hnew : cfg_blocks c !! id = None).
  { destruct (cfg_blocks c !! id) eqn:E; [|done]. assert (id < id)%nat by (apply H1; eauto). lia. }
  assert (Hidd : id <> dead) by (unfold dead; lia).
  assert (HidR : id ∉ R) by (intros Hin%Hlow; lia).
  assert (Hexit_low : forall k bb, cfg_blocks c !! k = Some bb -> be_thenb (bb_exit bb) <> Some id /\ be_elseb (bb_exit bb) <> Some id).
  { intros k bb Hk. destruct (decide (k = dead)) as [->|Hne].
    - destruct (Hdead bb Hk) as (-> & -> & _). split; congruence.
    - specialize (Hex k bb Hk Hne). destruct (decide (k ∈ R)).
      + destruct Hex as (_ & -> & ->). done.
      + destruct Hex as (t & f & -> & -> & Ht & Hf & _). split; intros [= Heq]; subst; lia. }
  set (nb := mkBasicBlock [] id false false z [] emptyExit []).
  assert (Hlk : forall k bb, <[id := nb]> (cfg_blocks c) !! k = Some bb -> (k = id /\ bb = nb) \/ (k <> id /\ cfg_blocks c !! k = Some bb)).
  { intros k bb. rewrite lookup_insert_Some. naive_solver. }
  assert (Hs : forall p k, succ (freshBlock z c).2 p k <-> succ c p k).
  { intros p k. unfold succ. simpl. fold id nb. split; intros (bb & Hp & Ht).
    - apply Hlk in Hp as [[-> ->]|[_ Hp]]; [by destruct Ht|eauto].
    - exists bb. rewrite lookup_insert_ne by congruence. done. }
  split; try (simpl; fold id nb).
  - intros k. rewrite lookup_insert_is_Some. rewrite H1. lia.
  - intros k bb [[-> ->]|[_ Hk]]%Hlk; [done|by apply Hid].
  - change (0%nat :: seq 1 id) with (seq 0 (S id)). by rewrite seq_S, Hls.
  - intros k [->|Hk]%elem_of_cons; [lia|]. apply Hlow in Hk. lia.
  - rewrite filter_cons_True by done. constructor; [|done]. rewrite list_elem_of_filter. naive_solver.
  - intros k bb [[-> ->]|[Hne Hk]]%Hlk Hkd.
    + rewrite decide_True by set_solver. done.
    + specialize (Hex k bb Hk Hkd). destruct (decide (k ∈ R)); [by rewrite decide_True by set_solver|rewrite decide_False by set_solver].
      destruct Hex as (t & f & ? & ? & ? & ? & ? & ?). exists t, f. split_and!; try done; lia.
  - intros bb [[? _]|[_ Hk]]%Hlk; [done|by apply Hdead].
  - intros k bb [[-> ->]|[_ Hk]]%Hlk; [apply NoDup_nil_2|by eapply Hbn].
  - intros k bb p Hk. change (p ∈ bb_backEdges bb <-> p <> dead /\ succ (freshBlock z c).2 p k). rewrite Hs. apply Hlk in Hk as [[-> ->]|[_ Hk]]; [|by apply Hb]. simpl. split; [by intros ?%elem_of_nil|].
    intros (_ & pb & Hp & Ht). destruct (Hexit_low p pb Hp). naive_solver.
  - intros k bb Hk. simpl in Hk. fold id nb in Hk. simpl. apply Hlk in Hk as [[-> ->]|[_ Hk]]; [|by apply (Hv k)].
    split; [by intros bind v ?%elem_of_nil|]. simpl.
    destruct (proj2 (H1 dead) ltac:(unfold dead; lia)) as [db Hdb]. destruct (Hv dead db Hdb) as [_ Hc]. unfold noVariable. lia.
Qed.

Lemma spec_fresh E R n l z : spec E R n l (freshB z) (fun b R' n' l' => R' = b :: R /\ (n <= b < n')%nat /\ (2 <= b)%nat).
Proof.
  intros st HI. destruct HI as [H1 [L1 L2 L3 L4] H3 H4 H5 H6]. unfold freshB, onCFG. simpl.
  exists (maxBasicBlockId (bs_cfg st) :: R), (S (maxBasicBlockId (bs_cfg st))), l. split_and!; [lia|lia|done|lia|lia|lia|].
  split; simpl; try done; [|lia]. apply (sane_fresh R (bs_cfg st) z); [lia|done].
Qed.

Lemma enterLocal_ok c v c' r : locals_ok c -> (5 <= length (localVariables c))%nat -> enterLocal v c = (r, c') ->
  locals_ok c' /\ (length (localVariables c) <= length (localVariables c'))%nat /\ (r < length (localVariables c'))%nat /\
  cfg_blocks c' = cfg_blocks c /\ maxBasicBlockId c' = maxBasicBlockId c /\ basicBlocks c' = basicBlocks c /\
  (lv_name v <> 0 -> r <> noVariable) /\ (lv_name v <> n_unconditional wn -> lv_name v <> 0 -> r <> unconditional).
Proof.
  intros [L1 L2 L3 L4] H5. unfold enterLocal. set (ref := default noVariable (localVariableToLocalRef c !! v)).
  assert (Href : (ref < length (localVariables c))%nat /\ (ref <> noVariable -> localVariables c !! ref = Some v)).
  { unfold ref. destruct (localVariableToLocalRef c !! v) as [r0|] eqn:E; simpl; [by apply L4|]. split; [unfold noVariable; lia|done]. }
  destruct Href as [Hlt Hat]. unfold local_exists.
  destruct (Nat.ltb_spec 0 ref) as [Hpos|Hz], (Z.eqb_spec (lv_name v) 0) as [Hn0|Hn0]; simpl; intros [= <- <-].
  1-3: split; [split; simpl; try done; intros w rw; rewrite lookup_insert_Some; naive_solver|simpl; split_and!; try done].
  - intros _. unfold noVariable. lia.
  - intros Hn _ ->. rewrite Hat in L3 by done. by simplify_eq.
  - split; [split; simpl|simpl; split_and!; try done].
    + rewrite !length_app. simpl. lia.
    + rewrite !length_app. simpl. lia.
    + by apply lookup_app_l_Some.
    + intros w rw. rewrite length_app, lookup_insert_Some. simpl. intros [[<- <-]|[_ Hw]].
      * split; [lia|]. intros _. by apply list_lookup_middle.
      * destruct (L4 w rw Hw) as [? Hwat]. split; [lia|]. intros ?. by apply lookup_app_l_Some, Hwat.
    + rewrite length_app. lia.
    + rewrite length_app. simpl. lia.
    + intros _. unfold noVariable. lia.
    + intros _ _. unfold unconditional. lia.
Qed.

Lemma Inv_locals R n l st c' : Inv R n l st -> locals_ok c' -> (length (localVariables (bs_cfg st)) <= length (localVariables c'))%nat ->
  cfg_blocks c' = cfg_blocks (bs_cfg st) -> maxBasicBlockId c' = maxBasicBlockId (bs_cfg st) -> basicBlocks c' = basicBlocks (bs_cfg st) ->
  forall counter errors, Inv R n (length (localVariables c')) (mkBuilderState c' (bs_aliases st) (bs_undeclared st) counter errors).
Proof.
  intros [H1 H2 H3 H4 H5 H6] Hl Hle Eb Em El counter errors. split; simpl; try done.
  - by apply (sane_ext R (bs_cfg st)).
  - by rewrite Em.
  - lia.
  - intros k o Ho. specialize (H5 k o Ho). lia.
  - intros k o Ho. specialize (H6 k o Ho). lia.
Qed.

Lemma spec_enterLocal E R n l v : spec E R n l (enterLocalB v) (fun r R' n' l' => R' = R /\ (r < l')%nat).
Proof.
  intros st HI. unfold enterLocalB, onCFG. destruct (enterLocal v (bs_cfg st)) as [r c'] eqn:E0. pose proof (in_l _ _ _ _ HI).
  destruct (enterLocal_ok _ _ _ _ (in_locals _ _ _ _ HI) ltac:(lia) E0) as (Hl & Hle & Hr & Eb & Em & El & _).
  exists R, n, (length (localVariables c')). split_and!; [done|lia|done|done|]. by eapply Inv_locals.
Qed.

(** The names of temporaries that conditions use *)
Definition condname (name : Z) : Prop := name <> 0 /\ name <> n_unconditional wn.

Lemma spec_temp E R n l name :
  spec E R n l (newTemporary name) (fun r R' n' l' => R' = R /\ (r < l')%nat /\ (condname name -> condvar r)).
Proof.
  intros st HI. unfold newTemporary. destruct (enterLocal _ (bs_cfg st)) as [r c'] eqn:E0. pose proof (in_l _ _ _ _ HI).
  destruct (enterLocal_ok _ _ _ _ (in_locals _ _ _ _ HI) ltac:(lia) E0) as (Hl & Hle & Hr & Eb & Em & El & H0 & Hu). simpl in H0, Hu.
  exists R, n, (length (localVariables c')). split_and!; [done|lia|done|done| |by eapply Inv_locals].
  intros [? ?]. by split; auto.
Qed.

Lemma spec_lift {A} E R n l s (o : option A) : s <> BadGraph -> s <> OutOfFuel ->
  spec E R n l (lift s o) (fun a R' n' l' => R' = R /\ o = Some a).
Proof. intros H1 H2. destruct o as [a|]; [by eapply spec_ret|by apply spec_stop]. Qed.

Lemma spec_lift_some {A} E R n l s (o : option A) : is_Some o -> spec E R n l (lift s o) (fun a R' n' l' => R' = R /\ o = Some a).
Proof. intros [a ->]. by eapply spec_ret. Qed.

Lemma spec_getCFG E R n l : spec E R n l getCFG (fun c R' n' l' => R' = R /\
  (forall b, (b < n)%nat -> is_Some (cfg_blocks c !! b)) /\ (forall v, (v < l)%nat -> is_Some (localData c v)) /\ entry c = Some 0%nat).
Proof.
  intros st HI. unfold getCFG. pose proof (in_n _ _ _ _ HI). pose proof (in_l _ _ _ _ HI).
  exists R, n, l. split_and!; try done.
  - intros b Hb. eapply is_Some_block; [done|lia].
  - intros v Hv. apply lookup_lt_is_Some. lia.
  - unfold entry. rewrite (sn_listed _ _ (in_sane _ _ _ _ HI)), lookup_seq_lt by lia. done.
Qed.

Lemma spec_report E R n l loc e : spec E R n l (report loc e) (fun _ R' n' l' => R' = R).
Proof. intros st [H1 H2 H3 H4 H5 H6]. exists R, n, l. by split_and!. Qed.

Lemma spec_setMinLoop E R n l v z : (v < l)%nat -> spec E R n l (setMinLoop v z) (fun _ R' n' l' => R' = R).
Proof.
  intros Hv st [H1 [L1 L2 L3 L4] H3 H4 H5 H6]. unfold setMinLoop, graph. rewrite (proj2 (Nat.ltb_lt _ _)) by lia.
  exists R, n, l. split_and!; try done. split; try done; [by apply (sane_ext R (bs_cfg st))|].
  split; simpl; try done. by rewrite length_insert.
Qed.

Lemma spec_enterLink E R n l f loc flags : spec E R n l (enterLinkB f loc flags) (fun _ R' n' l' => R' = R).
Proof.
  intros st [H1 [L1 L2 L3 L4] H3 H4 H5 H6]. exists R, n, l. split_and!; try done. split; try done. by apply (sane_ext R (bs_cfg st)).
Qed.

Lemma spec_implicitReturnLoc E R n l loc : spec E R n l (setImplicitReturnLoc loc) (fun _ R' n' l' => R' = R).
Proof.
  intros st [H1 [L1 L2 L3 L4] H3 H4 H5 H6]. exists R, n, l. split_and!; try done. split; try done. by apply (sane_ext R (bs_cfg st)).
Qed.

Lemma spec_set_alias E R n l what o : (lo_variable o < l)%nat -> spec E R n l (set_alias what o) (fun _ R' n' l' => R' = R).
Proof.
  intros Ho st [H1 H2 H3 H4 H5 H6]. exists R, n, l. split_and!; try done. split; simpl; try done.
  intros k o'. rewrite lookup_insert_Some. intros [[_ <-]|[_ Hk]]; [lia|by eapply H5].
Qed.

Lemma spec_set_undeclared E R n l name o : (lo_variable o < l)%nat -> spec E R n l (set_undeclared name o) (fun _ R' n' l' => R' = R).
Proof.
  intros Ho st [H1 H2 H3 H4 H5 H6]. exists R, n, l. split_and!; try done. split; simpl; try done.
  intros k o'. rewrite lookup_insert_Some. intros [[_ <-]|[_ Hk]]; [lia|by eapply H6].
Qed.

Lemma Inv_raise R n l st : Inv R n l st -> Inv R n (length (localVariables (bs_cfg st))) st.
Proof. intros [H1 H2 H3 H4 H5 H6]. split; try done. lia. Qed.

Lemma spec_findAlias E R n l what : spec E R n l (findAlias what) (fun o R' n' l' => R' = R /\ (lo_variable o < l')%nat).
Proof.
  intros st HI. exists R, n, (length (localVariables (bs_cfg st))). pose proof (in_l _ _ _ _ HI).
  split_and!; [done|lia|done| |by eapply Inv_raise].
  destruct (bs_aliases st !! what) as [o|] eqn:E0; simpl; [by eapply in_aliases|]. unfold noVariable. lia.
Qed.

Lemma spec_findUndeclared E R n l name :
  spec E R n l (findUndeclared name) (fun o R' n' l' => R' = R /\ forall a, o = Some a -> (lo_variable a < l')%nat).
Proof.
  intros st HI. exists R, n, (length (localVariables (bs_cfg st))). pose proof (in_l _ _ _ _ HI).
  split_and!; [done|lia|done| |by eapply Inv_raise]. intros a Ha. by eapply in_undeclared.
Qed.

(** ** Composition *)

Lemma spec_foldB {A S} E (P : S -> list nat -> nat -> nat -> Prop) (f : S -> A -> bld S) xs n0 l0 :
  (forall s a R n l, a ∈ xs -> (n0 <= n)%nat -> (l0 <= l)%nat -> P s R n l -> spec E R n l (f s a) P) ->
  forall s R n l, (n0 <= n)%nat -> (l0 <= l)%nat -> P s R n l -> spec E R n l (foldB f s xs) P.
Proof.
  induction xs as [|a xs IH]; intros Hf s R n l Hn Hl HP; simpl; [by eapply spec_ret|].
  eapply spec_bind; [apply Hf; [apply list_elem_of_here|done..]|]. intros s' R' n' l' Hn' Hl' HP'.
  apply IH; [|lia|lia|done]. intros. apply Hf; try done. by apply list_elem_of_further.
Qed.

(** The bounds that hold in every state *)
Lemma spec_bounds {A} E R n l (m : bld A) Phi : ((2 <= n)%nat -> (5 <= l)%nat -> spec E R n l m Phi) -> spec E R n l m Phi.
Proof. intros H st HI. apply H; [apply (in_n _ _ _ _ HI)|apply (in_l _ _ _ _ HI)|done]. Qed.

Lemma spec_ret_perm {A} E R R' n l (a : A) Phi : R ≡ₚ R' -> Phi a R' n l -> spec E R n l (mret a) Phi.
Proof. intros Hp. apply spec_ret. by rewrite Hp. Qed.

(** Returning the dead block opens it. *)
Lemma spec_ret_dead E R n l : (2 <= n)%nat -> spec E R n l (mret dead) (fun r R' n' l' => R' = r :: R /\ (0 < r < n')%nat).
Proof.
  intros Hn. apply (spec_ret E R (dead :: R)); [by rewrite filter_cons_False by naive_solver|]. split; [done|]. unfold dead. lia.
Qed.

Lemma bring_skip (h x : nat) T T0 : T ≡ₚ x :: T0 -> h :: T ≡ₚ x :: h :: T0.
Proof. intros ->. apply Permutation_swap. Qed.
End Invariant.
