(* ===== verification/CfgWalk.v ===== *)
(** * The walk over a method keeps graphs sane

    The triples of [CfgBuildInv] for every case of [walk] and for the construction of a whole method:
    no tree makes the builder use a block that does not exist or set an exit twice, the fuel runs out only on trees
    deeper than it, and the finished graph has no open blocks. *)

From S2P Require Import Prelude Pickler FileHash Files Locs Types NameTable NameText Symbols SymbolRefs Linearize.
From S2P Require Import Ast UIntSet Cfg CfgTopo CfgReads CfgArgs CfgFinalize CfgBuild CfgBuildInv.

#[local] Open Scope Z_scope.

(** ** Contexts *)

Definition below (n : nat) (o : option nat) : Prop := match o with Some b => (0 < b < n)%nat | None => True end.

Definition ctx_ok (x : CFGContext) (n l : nat) : Prop :=
  (lo_variable (cc_target x) < l)%nat /\ (cc_blockBreakTarget x < l)%nat /\
  below n (cc_nextScope x) /\ below n (cc_breakScope x) /\ below n (cc_rescueScope x).

Lemma below_mono n n' o : (n <= n')%nat -> below n o -> below n' o.
Proof. destruct o; simpl; lia. Qed.

(** The names of conditions are not the name of the unconditional jump. *)
Definition names_ok (wn : CfgNames) : Prop := Forall (condname wn)
  [n_whileTemp wn; n_ifTemp wn; n_argPresent wn; n_isaCheckTemp wn; n_exceptionValue wn; n_gotoDeadTemp wn].

(** Variables below [l] *)
Definition vars (l : nat) (args : list (nat * LocOffsets)) : Prop := Forall (fun v => v < l)%nat args.*1.

Lemma vars_app l a b : vars l a -> vars l b -> vars l (a ++ b).
Proof. unfold vars. rewrite fmap_app. by apply Forall_app_2. Qed.

Lemma vars_mono l l' a : (l <= l')%nat -> vars l a -> vars l' a.
Proof. intros Hl Ha. eapply Forall_impl; [exact Ha|]. simpl. lia. Qed.

(** A walk from [cur] gives back one open block, and not the entry unless it began there. *)
Definition walks (cur : nat) (R0 : list nat) : nat -> list nat -> nat -> nat -> Prop :=
  fun r R' n' l' => R' = r :: R0 /\ (r < n')%nat /\ (0 < cur -> 0 < r)%nat.

(** The block of a walk and the arguments it has evaluated *)
Definition sent (cur : nat) (R0 : list nat) : nat * list (nat * LocOffsets) -> list nat -> nat -> nat -> Prop :=
  fun st R' n' l' => R' = st.1 :: R0 /\ (st.1 < n')%nat /\ (0 < cur -> 0 < st.1)%nat /\ vars l' st.2.

(** ** Tactics *)

(** Find the block that a step consumes among the open ones. *)
Ltac bring := first [reflexivity | eassumption | eapply bring_skip; bring].

Ltac ctx :=
  match goal with
  | H : ctx_ok ?x _ _ |- ctx_ok _ _ _ =>
      destruct H as (? & ? & ? & ? & ?); split_and!; cbn;
      try done; try lia; try (eapply below_mono; [|eassumption]; lia); fail
  end.

(** Bounds of the fixed blocks and variables *)
Ltac fixed := unfold dead, noVariable, blockCall, selfVariable, unconditional, finalReturn in *; lia.

Ltac reads := cbn; repeat (apply Forall_cons_2; [first [lia|fixed]|]); try apply Forall_nil_2; try (eapply vars_mono; [|eassumption]; lia).

Ltac cond_name :=
  match goal with H : names_ok _ |- condname _ _ => unfold names_ok in H; rewrite Forall_forall in H; apply H; rewrite !elem_of_cons; tauto end.

Ltac scopes := repeat match goal with Ex : _ = Some ?s, H : below _ _ |- _ => rewrite Ex in H; simpl in H end.

Ltac side :=
  lazymatch goal with
  | |- (_ < _ < _)%nat => split; side
  | |- _ ≡ₚ _ => bring
  | |- ctx_ok _ _ _ => ctx
  | |- Forall _ _ => reads
  | |- is_Some _ => match goal with H : forall b, _ -> is_Some _ |- _ => apply H; lia end
  | |- vars _ (_ ++ _) => apply vars_app; side
  | |- vars _ _ => first [eapply vars_mono; [|eassumption]; lia | unfold vars; reads]
  | |- condvar _ => first [by split | match goal with H : condname _ _ -> condvar ?v |- condvar ?v => apply H; cond_name end]
  | |- (_ < _)%nat => cbn; first [lia | fixed | match goal with H : ctx_ok _ _ _ |- _ => destruct H as (? & ? & ? & ? & ?); scopes; lia end]
  | |- (_ <= _)%nat => lia
  | |- (_ < _ -> _ < _)%nat => cbn; lia
  | |- _ <> _ => solve [done | fixed]
  | |- _ => try done; auto
  end.

(** The triple of one primitive step *)
Ltac prim :=
  lazymatch goal with
  | |- spec _ _ _ _ _ (newTemporary _) _ => eapply spec_temp
  | |- spec _ _ _ _ _ (freshB _) _ => eapply spec_fresh
  | |- spec _ _ _ _ _ (enterLocalB _) _ => eapply spec_enterLocal
  | |- spec _ _ _ _ _ (enterLinkB _ _ _) _ => eapply spec_enterLink
  | |- spec _ _ _ _ _ (emplace _ _ _ _) _ => eapply spec_emplace
  | |- spec _ _ _ _ _ (synthesizeExpr _ _ _ _) _ => eapply spec_synthesize
  | |- spec _ _ _ _ _ (unconditionalJump _ _ _) _ => eapply spec_unconditionalJump
  | |- spec _ _ _ _ _ (conditionalJump _ _ _ _ _) _ => eapply spec_conditionalJump
  | |- spec _ _ _ _ _ (jumpToDead _ _) _ => eapply spec_jumpToDead
  | |- spec _ _ _ _ _ (isDead _) _ => eapply spec_isDead
  | |- spec _ _ _ _ _ deadBlockOf _ => eapply spec_deadBlockOf
  | |- spec _ _ _ _ _ (lift BadGraph _) _ => eapply spec_lift_some
  | |- spec _ _ _ _ _ (lift _ _) _ => eapply spec_lift
  | |- spec _ _ _ _ _ getCFG _ => eapply spec_getCFG
  | |- spec _ _ _ _ _ (report _ _) _ => eapply spec_report
  | |- spec _ _ _ _ _ (setMinLoop _ _) _ => eapply spec_setMinLoop
  | |- spec _ _ _ _ _ (set_alias _ _) _ => eapply spec_set_alias
  | |- spec _ _ _ _ _ (set_undeclared _ _) _ => eapply spec_set_undeclared
  | |- spec _ _ _ _ _ (findAlias _) _ => eapply spec_findAlias
  | |- spec _ _ _ _ _ (findUndeclared _) _ => eapply spec_findUndeclared
  end.

(** What a step leaves behind *)
Ltac after :=
  let a := fresh "r" in let HP := fresh in
  intros a ? ? ? ? ? HP; try match type of a with unit => destruct a end; repeat match type of a with (_ * _)%type => let b := fresh "r" in destruct a as [a b] end;
  unfold walks, sent in HP; cbv beta iota zeta in HP |- *; cbn [fst snd] in HP; destruct_and? HP; subst.

Tactic Notation "exec" uconstr(lem) := eapply spec_bind; [eapply lem; side|after].

Ltac step := lazymatch goal with |- spec _ _ _ _ _ (@mbind _ _ _ _ _ _) _ => eapply spec_bind; [prim; side|after] end.

Ltac steps := repeat step.

(** The last step *)
Ltac finish := eapply spec_ret_perm; [|unfold walks, sent; cbn [fst snd]; split; [reflexivity|]]; [bring|split_and?; side].

Ltac ret := eapply spec_ret; [reflexivity|unfold walks, sent; cbn [fst snd]; split_and?; side].

Ltac tail := eapply spec_mono; [done|prim; side|intros; cbv beta in *; destruct_and?; subst; split_and?; side].

(** ** Depths of trees *)

Lemma fits_sub fuel e k : fits fuel e -> k ∈ kids e -> fits fuel k.
Proof.
  destruct fuel as [|fuel]; [done|]. intros He Hk. cbn [fits] in He. rewrite Forall_forall in He.
  eapply fits_mono; [|by apply He]. lia.
Qed.

Lemma fits_leaf fuel e e' : kids e' = [] -> fits fuel e -> fits fuel e'.
Proof. destruct fuel; [done|]. cbn [fits]. by intros ->. Qed.

(** A step that consumes the first open block and gives one back *)
Ltac replaces := lazymatch goal with |- spec _ _ (?b :: ?T) _ _ _ _ => eapply (spec_bind _ _ _ _ _ _ _ (walks b T)) end.

Section Walk.
Context (wn : CfgNames) (gs : Symbolic) (file : File) (fileRef owner : Z) (reportUndeclared : bool).
Hypothesis Hnames : names_ok wn.

(** A step that leaves the open blocks as they are *)
Lemma spec_then {A B} E R n l (m : bld A) (k : A -> bld B) Phi :
  spec wn E R n l m (fun _ R' _ _ => R' = R) ->
  (forall a n' l', (n <= n')%nat -> (l <= l')%nat -> spec wn E R n' l' (k a) Phi) -> spec wn E R n l (m ≫= k) Phi.
Proof. intros Hm Hk. eapply spec_bind; [done|]. intros a R' n' l' Hn Hl ->. by apply Hk. Qed.

Lemma spec_global2Local E R n l what loc : spec wn E R n l (global2Local gs what loc) (fun v R' n' l' => R' = R /\ (v < l')%nat).
Proof.
  unfold global2Local. step. destruct (what =? stubModule); [tail|].
  step. destruct (local_exists _); [ret|]. steps. ret.
Qed.

Lemma spec_identClass E R n l kind : spec wn E R n l (identClass gs owner kind) (fun _ R' _ _ => R' = R).
Proof. unfold identClass. destruct kind; [by apply spec_stop|step; ret|step; tail|ret]. Qed.

Lemma spec_unresolvedIdent E R n l loc kind name isAssign :
  spec wn E R n l (unresolvedIdent2Local wn gs owner loc kind name isAssign) (fun v R' n' l' => R' = R /\ (v.1 < l')%nat).
Proof.
  unfold unresolvedIdent2Local. eapply spec_then; [apply spec_identClass|intros klass n0 l0 ? ?]. step.
  destruct (symbol_exists _); [exec spec_global2Local; ret|].
  step. destruct r0 as [o|]; [eapply spec_ret; eauto|].
  eapply spec_then; [destruct (_ && _); [prim|ret]|intros]. steps. ret.
Qed.

Lemma spec_typeParameterAlias E R n l loc numPosArgs args :
  spec wn E R n l (maybeMakeTypeParameterAlias gs loc numPosArgs args)
    (fun i R' n' l' => R' = R /\ forall j, i = Some j -> instructionReads j = []).
Proof.
  unfold maybeMakeTypeParameterAlias. steps. destruct (negb _); [|destruct (negb _)].
  - step. eapply spec_then; [destruct r1; [ret|prim]|intros]. ret.
  - ret.
  - step. destruct (literalSymbol _) as [[]|]; [|ret].
    step. destruct (_ =? 0); [step; ret|].
    step. destruct (_ =? 0); [step; ret|]. eapply spec_ret; [done|]. split; [done|]. by intros j [= <-].
Qed.

Lemma spec_checkAbstractNew E R n l loc recv : spec wn E R n l (checkAbstractNew wn gs loc recv) (fun _ R' _ _ => R' = R).
Proof.
  unfold checkAbstractNew. destruct (constantSymbol recv); [|ret]. destruct (_ || _); [ret|].
  step. destruct (negb _); [ret|]. step. destruct (_ =? 0); [ret|].
  steps. destruct (_ =? _); [prim|ret].
Qed.

Lemma spec_fieldKindOf E R n l kind : spec wn E R n l (fieldKindOf wn gs owner kind) (fun _ R' _ _ => R' = R).
Proof. unfold fieldKindOf. destruct kind; steps; ret. Qed.

Lemma spec_sourceIs E R n l loc text : spec wn E R n l (sourceIs file loc text) (fun _ R' _ _ => R' = R).
Proof. unfold sourceIs. steps. ret. Qed.

Lemma spec_blockReturnLoc E R n l blockLoc exprs : spec wn E R n l (blockReturnLoc file fileRef blockLoc exprs) (fun _ R' _ _ => R' = R).
Proof.
  unfold blockReturnLoc. destruct (last exprs) as [b|]; [destruct (isLoadSelfOrArg _); [|ret]|];
    (eapply spec_then; [apply spec_sourceIs|intros [] ? ? ? ?; [ret|]];
     eapply spec_then; [apply spec_sourceIs|intros [] ? ? ? ?; ret]).
Qed.

Lemma spec_joinBlocks E R R0 n l x a b : R ≡ₚ a :: b :: R0 ->
  spec wn E R n l (joinBlocks x a b) (fun r R' n' l' => R' = r :: R0 /\ (0 < r < n')%nat).
Proof.
  intros Hp. eapply spec_tokens; [by rewrite Hp|]. unfold joinBlocks. steps. finish.
Qed.

Lemma spec_from E R R0 n l m r cur : (0 < cur -> 0 < r)%nat -> spec wn E R n l m (walks r R0) -> spec wn E R n l m (walks cur R0).
Proof.
  intros Hr Hm. eapply spec_mono; [done|exact Hm|]. intros a R' n' l' _ _ (-> & ? & ?). split_and!; [done|lia..].
Qed.

(** A dead block needs no exit. *)
Lemma spec_discard {A} E R R0 n l (m : bld A) Phi : R ≡ₚ dead :: R0 -> spec wn E R0 n l m Phi -> spec wn E R n l m Phi.
Proof. intros Hp Hm. eapply spec_tokens; [by rewrite Hp|]. by apply spec_drop. Qed.

Lemma spec_dead_walks E R0 cur n l : (2 <= n)%nat -> spec wn E R0 n l (mret dead) (walks cur R0).
Proof. intros Hn. eapply spec_mono; [done|by apply spec_ret_dead|]. intros a R' n' l' _ _ [-> ?]. split_and!; [done|lia..]. Qed.

Lemma spec_deadEnd E R0 cur n l : (2 <= n)%nat -> spec wn E R0 n l deadBlockOf (walks cur R0).
Proof.
  intros Hn st HI. unfold deadBlockOf, getCFG, mbind, bld_bind. rewrite (deadBlock_sane _ _ _ _ _ HI).
  by apply (spec_dead_walks E R0 cur n l Hn st HI).
Qed.

(** ** The recursive calls *)

Section Cases.
Context (fuel : nat) (walk : CFGContext -> Expr -> nat -> bld nat).
Hypothesis IH : forall x e cur R n l, (cur < n)%nat -> ctx_ok x n l ->
  spec wn (fits fuel e) (cur :: R) n l (walk x e cur) (walks cur R).

Lemma spec_walk E R R0 n l x e cur : R ≡ₚ cur :: R0 -> (cur < n)%nat -> ctx_ok x n l -> (E -> fits fuel e) ->
  spec wn E R n l (walk x e cur) (walks cur R0).
Proof.
  intros Hp Hc Hx HE. eapply spec_tokens; [by rewrite Hp|]. eapply spec_mono; [exact HE|by apply IH|done].
Qed.

Lemma spec_walkTemp E R R0 n l x name e cur : R ≡ₚ cur :: R0 -> (cur < n)%nat -> ctx_ok x n l -> (E -> fits fuel e) ->
  spec wn E R n l (walkTemp walk x name e cur)
    (fun r R' n' l' => R' = r.1 :: R0 /\ (r.1 < n')%nat /\ (0 < cur -> 0 < r.1)%nat /\ (r.2 < l')%nat /\ (condname wn name -> condvar r.2)).
Proof. intros Hp Hc Hx HE. unfold walkTemp. step. exec spec_walk. ret. Qed.

Lemma spec_walkAssign E R0 n l x rhs loc lhs cur : (cur < n)%nat -> ctx_ok x n l -> (lo_variable lhs < l)%nat -> (E -> fits fuel rhs) ->
  spec wn E (cur :: R0) n l (walkAssign walk x rhs loc lhs cur) (walks cur R0).
Proof. intros Hc Hx Hl HE. unfold walkAssign. exec spec_walk. step. ret. Qed.

Lemma spec_walkPair E R R0 cur0 n l x st kv : sent cur0 R0 st R n l -> ctx_ok x n l -> (E -> fits fuel kv.1 /\ fits fuel kv.2) ->
  spec wn E R n l (walkPair wn walk x st kv) (sent cur0 R0).
Proof.
  destruct st as [cur args]. intros (-> & Hc & Hz & Ha) Hx HE. simpl in *. unfold walkPair. steps.
  exec spec_walk; [naive_solver|]. exec spec_walk; [naive_solver|]. ret.
Qed.

Lemma spec_walkArg E R R0 cur0 n l x name locOf st e : sent cur0 R0 st R n l -> ctx_ok x n l -> (E -> fits fuel e) ->
  spec wn E R n l (walkArg walk x name locOf st e) (sent cur0 R0).
Proof.
  destruct st as [cur args]. intros (-> & Hc & Hz & Ha) Hx HE. simpl in *. unfold walkArg. exec spec_walkTemp.
  ret.
Qed.

Lemma spec_walkPairs E R R0 cur0 n l x st kvs : sent cur0 R0 st R n l -> ctx_ok x n l ->
  (E -> Forall (fun kv => fits fuel kv.1 /\ fits fuel kv.2) kvs) -> spec wn E R n l (foldB (walkPair wn walk x) st kvs) (sent cur0 R0).
Proof.
  intros Hs Hx HE. eapply (spec_foldB _ _ _ _ _ n l); try done. intros st' kv R1 n1 l1 Hin Hn Hl Hs'.
  eapply spec_walkPair; [done|side|]. rewrite Forall_forall in HE. auto.
Qed.

Lemma spec_walkArgs E R R0 cur0 n l x name locOf st es : sent cur0 R0 st R n l -> ctx_ok x n l -> (E -> Forall (fits fuel) es) ->
  spec wn E R n l (foldB (walkArg walk x name locOf) st es) (sent cur0 R0).
Proof.
  intros Hs Hx HE. eapply (spec_foldB _ _ _ _ _ n l); try done. intros st' e R1 n1 l1 Hin Hn Hl Hs'.
  eapply spec_walkArg; [done|side|]. rewrite Forall_forall in HE. auto.
Qed.

Lemma Forall_zip_fits (ks vs : list Expr) : Forall (fits fuel) ks -> Forall (fits fuel) vs ->
  Forall (fun kv => fits fuel kv.1 /\ fits fuel kv.2) (zip ks vs).
Proof.
  intros Hk. revert vs. induction Hk as [|k ks Hk Hks IHk]; intros vs Hv; [constructor|]. destruct Hv; simpl; constructor; auto.
Qed.

Lemma spec_walkHash E R0 n l x loc keys values cur method : (cur < n)%nat -> ctx_ok x n l ->
  (E -> Forall (fits fuel) keys) -> (E -> Forall (fits fuel) values) ->
  spec wn E (cur :: R0) n l (walkHash wn walk x loc keys values cur method) (walks cur R0).
Proof.
  intros Hc Hx Hk Hv. unfold walkHash. step. destruct (negb _); [by apply spec_stop|].
  exec (spec_walkPairs _ _ _ cur); [split_and!; side..|eauto using Forall_zip_fits|]. steps. ret.
Qed.

Lemma spec_walkArray E R0 n l x loc elems cur : (cur < n)%nat -> ctx_ok x n l -> (E -> Forall (fits fuel) elems) ->
  spec wn E (cur :: R0) n l (walkArray wn walk x loc elems cur) (walks cur R0).
Proof.
  intros Hc Hx HE. unfold walkArray. step. exec (spec_walkArgs _ _ _ cur); [split_and!; side..|]. steps. ret.
Qed.

Lemma spec_walkBlockReturn E R0 n l x loc expr cur : (cur < n)%nat -> ctx_ok x n l -> (E -> fits fuel expr) ->
  spec wn E (cur :: R0) n l (walkBlockReturn wn walk x loc expr cur) (walks cur R0).
Proof.
  intros Hc Hx HE. apply spec_bounds. intros H2 _. unfold walkBlockReturn. exec spec_walkTemp. step.
  eapply spec_then; [destruct (_ && _); [step; prim; side|ret]|intros _ n1 l1 ? ?]. step.
  eapply (spec_bind _ _ _ _ _ _ _ (fun _ R' _ _ => R' = R0)); [|intros; subst; apply spec_dead_walks; lia].
  destruct (cc_nextScope x) eqn:Ex; [|step]; prim; side.
Qed.

Lemma spec_walkReturn E R0 n l x loc expr cur : (cur < n)%nat -> ctx_ok x n l -> (E -> fits fuel expr) ->
  spec wn E (cur :: R0) n l (walkReturn wn walk x loc expr cur) (walks cur R0).
Proof.
  intros Hc Hx HE. unfold walkReturn. destruct (cc_isInsideLambda x); [by apply spec_walkBlockReturn|].
  apply spec_bounds. intros H2 _. exec spec_walkTemp. steps. apply spec_deadEnd. lia.
Qed.

Lemma spec_walkWhile E R0 n l x loc cond body cur : (cur < n)%nat -> ctx_ok x n l -> (E -> fits fuel cond) -> (E -> fits fuel body) ->
  spec wn E (cur :: R0) n l (walkWhile wn walk x loc cond body cur) (walks cur R0).
Proof.
  intros Hc Hx H1 H2. unfold walkWhile. steps. exec spec_walk. steps. exec spec_walk. steps. ret.
Qed.

Lemma spec_walkBranch E R R0 n l x loc e b : R ≡ₚ b :: R0 -> (b < n)%nat -> ctx_ok x n l -> (E -> fits fuel e) ->
  spec wn E R n l (walkBranch walk x loc e b) (walks b R0).
Proof.
  intros Hp Hb Hx HE. unfold walkBranch. destruct (isEmptyTree e); [|by eapply spec_walk].
  unfold walkEmptyTreeInIf. step. finish.
Qed.

Lemma spec_walkIf E R0 n l x loc cond thenp elsep cur : (cur < n)%nat -> ctx_ok x n l ->
  (E -> fits fuel cond) -> (E -> fits fuel thenp) -> (E -> fits fuel elsep) ->
  spec wn E (cur :: R0) n l (walkIf wn walk x loc cond thenp elsep cur) (walks cur R0).
Proof.
  intros Hc Hx H1 H2 H3. apply spec_bounds. intros H4 _. unfold walkIf. exec spec_walkTemp. steps.
  exec spec_walkBranch. exec spec_walkBranch. steps.
  destruct (Nat.eqb_spec r3 dead) as [->|], (Nat.eqb_spec r4 dead) as [->|].
  - do 2 (eapply spec_discard; [bring|]). apply spec_deadEnd. lia.
  - eapply spec_discard; [bring|]. finish.
  - eapply spec_discard; [bring|]. finish.
  - steps. finish.
Qed.

Lemma spec_walkIdent E R0 n l x loc kind name cur : (cur < n)%nat -> ctx_ok x n l ->
  spec wn E (cur :: R0) n l (walkIdent wn gs owner x loc kind name cur) (walks cur R0).
Proof. intros Hc Hx. unfold walkIdent. exec spec_unresolvedIdent. step. ret. Qed.

Lemma spec_walkConstant E R0 n l x loc sym scope cur : (cur < n)%nat -> ctx_ok x n l ->
  (forall e, scope = Some e -> E -> fits fuel e) ->
  spec wn E (cur :: R0) n l (walkConstant wn walk x loc sym scope cur) (walks cur R0).
Proof.
  intros Hc Hx HE. unfold walkConstant. steps. destruct scope as [e|]; [|ret]. destruct (_ || _); [|ret].
  exec spec_walkTemp. ret.
Qed.

Lemma spec_walkLocal E R0 n l x loc v cur : (cur < n)%nat -> ctx_ok x n l ->
  spec wn E (cur :: R0) n l (walkLocal x loc v cur) (walks cur R0).
Proof. intros Hc Hx. unfold walkLocal. steps. ret. Qed.

Lemma spec_walkUndeclaredAssign E R0 n l x loc lhsLoc kind name rhs lhs cur : (cur < n)%nat -> ctx_ok x n l -> (lhs < l)%nat ->
  (E -> fits fuel rhs) ->
  spec wn E (cur :: R0) n l (walkUndeclaredAssign wn gs owner walk x loc lhsLoc kind name rhs lhs cur) (walks cur R0).
Proof.
  intros Hc Hx Hl HE. assert (Hleaf : forall e, kids e = [] -> E -> fits fuel e) by eauto using fits_leaf.
  unfold walkUndeclaredAssign. eapply spec_then; [apply spec_fieldKindOf|intros fieldKind n1 l1 ? ?]. cbv zeta.
  exec spec_walkTemp. exec spec_walkTemp. exec spec_walkTemp. steps. exec spec_walk. exec spec_walkTemp. steps. ret.
Qed.

Lemma spec_walkAssignment E R0 n l x loc lhs rhs cur : (cur < n)%nat -> ctx_ok x n l -> (E -> fits fuel rhs) ->
  spec wn E (cur :: R0) n l (walkAssignment wn gs owner reportUndeclared walk x loc lhs rhs cur) (walks cur R0).
Proof.
  intros Hc Hx HE. unfold walkAssignment. destruct (constantSymbol lhs).
  - exec spec_global2Local. apply spec_walkAssign; side.
  - destruct lhs; try (by apply spec_stop).
    + step. apply spec_walkAssign; side.
    + exec spec_unresolvedIdent. destruct (_ || _); [apply spec_walkAssign; side|]. apply spec_walkUndeclaredAssign; side.
Qed.

Lemma spec_walkStats E R R0 n l x name stats cur : R = cur :: R0 -> (cur < n)%nat -> ctx_ok x n l -> (E -> Forall (fits fuel) stats) ->
  spec wn E R n l (foldB (fun current e => '(current, _) ← walkTemp walk x name e current; mret current) cur stats) (walks cur R0).
Proof.
  intros -> Hc Hx HE. eapply (spec_foldB _ _ _ _ _ n l); try done. intros s e R n1 l1 Hin Hn Hl [-> Hs].
  exec spec_walkTemp; [rewrite Forall_forall in HE; auto|]. ret.
Qed.

Lemma spec_walkInsSeq E R0 n l x stats expr cur : (cur < n)%nat -> ctx_ok x n l -> (E -> Forall (fits fuel) stats) -> (E -> fits fuel expr) ->
  spec wn E (cur :: R0) n l (walkInsSeq wn walk x stats expr cur) (walks cur R0).
Proof. intros Hc Hx H1 H2. unfold walkInsSeq. exec spec_walkStats. eapply spec_from; [|eapply spec_walk; side]. lia. Qed.

Lemma spec_handleSpecial E R0 n l x cur loc fun_ flags numPosArgs recv args : (cur < n)%nat -> ctx_ok x n l -> (E -> Forall (fits fuel) args) ->
  spec wn E (cur :: R0) n l (handleSpecialMethods wn gs walk x cur loc fun_ flags numPosArgs recv args)
    (fun r R' n' l' => match r with Some b => walks cur R0 b R' n' l' | None => R' = cur :: R0 end).
Proof.
  intros Hc Hx HE. unfold handleSpecialMethods. destruct (fun_ =? n_absurd wn); [|destruct (fun_ =? n_typeParameter wn)].
  - destruct (negb _); [ret|]. destruct (hasKwArgs _ _ _); [step; ret|]. destruct (negb _); [step; ret|]. step.
    destruct (negb _); [step; ret|]. exec spec_walkTemp; [intros ?%HE; by eapply Forall_lookup_1|]. step. ret.
  - destruct (negb _); [ret|]. exec spec_typeParameterAlias. destruct r as [i|]; [|ret].
    eapply spec_bind; [apply spec_emplace; [side|side|by rewrite (H3 i)]|after]. ret.
  - destruct (fun_ =? n_new wn); [|ret]. eapply spec_then; [apply spec_checkAbstractNew|intros]. ret.
Qed.

Lemma spec_walkBlockParam E R R0 n l x loops argTemp argBlock i param arg : R ≡ₚ argBlock :: R0 -> (argBlock < n)%nat -> ctx_ok x n l ->
  (argTemp < l)%nat -> (E -> fits fuel param) ->
  spec wn E R n l (walkBlockParam wn walk x loops argTemp argBlock i param arg) (walks argBlock R0).
Proof.
  intros Hp Hc Hx Ha HE. eapply spec_tokens; [by rewrite Hp|]. unfold walkBlockParam. step.
  destruct (pf_isRepeated _); [step; ret|]. destruct param; try (step; ret; fail).
  steps. exec spec_walk; [intros ?%HE; eapply fits_sub; [done|set_solver]|]. steps. ret.
Qed.

Lemma spec_walkBlockParams E x loops argTemp params : forall R R0 n l argBlock i, R ≡ₚ argBlock :: R0 -> (argBlock < n)%nat -> ctx_ok x n l ->
  (argTemp < l)%nat -> (E -> Forall (fun p => fits fuel p.1) params) ->
  spec wn E R n l (walkBlockParams wn walk x loops argTemp argBlock i params) (walks argBlock R0).
Proof.
  induction params as [|[param arg] params IHp]; intros R R0 n l argBlock i Hp Hc Hx Ha HE; simpl; [finish|].
  exec spec_walkBlockParam; [intros H; apply HE in H; by inversion H|].
  eapply spec_from; [|apply IHp; side]; [lia|]. intros H'. apply HE in H'. by inversion H'.
Qed.

Lemma spec_walkSendBlock E R0 n l x loc fun_ recv snd blockLoc params body cur : (cur < n)%nat -> ctx_ok x n l ->
  Forall (fun v => v < l)%nat (instructionReads (Insn.Send snd)) -> (E -> Forall (fits fuel) params) -> (E -> fits fuel body) ->
  spec wn E (cur :: R0) n l (walkSendBlock wn file fileRef walk x loc fun_ recv snd blockLoc params body cur) (walks cur R0).
Proof.
  intros Hc Hx Hs Hps HE. apply spec_bounds. intros H2 H5. unfold walkSendBlock. do 3 step.
  eapply spec_bind; [apply spec_emplace; [side|side|]|after].
  { eapply Forall_impl; [exact Hs|]. simpl. lia. }
  steps. replaces.
  { destruct (bool_decide _); [ret|]. steps. eapply spec_walkBlockParams; side.
    intros He. specialize (Hps He). clear -Hps. revert r. induction Hps; intros [|]; simpl; constructor; auto. }
  after. steps. eapply spec_bind; [eapply spec_walk; [bring|side|destruct (isKernelLambda _ _ _); ctx|done]|after]. step.
  eapply spec_then; [|intros ? ? ? ? ?; steps; ret].
  destruct (_ =? _)%nat; [ret|]. steps. eapply spec_then; [apply spec_blockReturnLoc|intros]. prim; side.
Qed.

Lemma takeExactly_fits k (es bs : list Expr) : takeExactly k es = Some bs -> Forall (fits fuel) es -> Forall (fits fuel) bs.
Proof. unfold takeExactly. destruct (k <=? _)%nat; [|done]. intros [= <-]. apply Forall_take. Qed.

Lemma pairs_fits (es : list Expr) : Forall (fits fuel) es -> Forall (fun kv => fits fuel kv.1 /\ fits fuel kv.2) (pairs es).
Proof.
  enough (H : forall k es, (length es < k)%nat -> Forall (fits fuel) es -> Forall (fun kv => fits fuel kv.1 /\ fits fuel kv.2) (pairs es)) by eauto.
  induction k as [|k IHk]; intros [|a [|b es']] Hl Hf; simpl in *; try lia; try constructor.
  - inversion_clear Hf as [|? ? Ha Hf']. inversion_clear Hf'. auto.
  - inversion_clear Hf as [|? ? Ha Hf']. inversion_clear Hf'. apply IHk; [lia|done].
Qed.

Lemma kwSplat_fits flags numPosArgs (args : list Expr) e : kwSplat flags numPosArgs args = Some (Some e) -> Forall (fits fuel) args -> fits fuel e.
Proof.
  unfold kwSplat. destruct (hasKwSplat _ _ _); [|done]. intros (e' & He & [= <-])%fmap_Some Ha. by eapply Forall_lookup_1.
Qed.

Lemma sendBlock_fits flags (args : list Expr) loc params body : sendBlock flags args = Some (Some (loc, params, body)) ->
  Forall (fits fuel) args -> Forall (fits fuel) params /\ fits fuel body.
Proof.
  unfold sendBlock. destruct (sf_hasBlock flags); [|done]. destruct (last args) as [b|] eqn:Eb; [|done]. intros Hb Ha.
  assert (Hf : fits fuel b) by (rewrite last_lookup in Eb; by eapply Forall_lookup_1).
  destruct b; simplify_eq. split; [apply Forall_forall; intros p Hp|]; (eapply fits_sub; [exact Hf|simpl; set_solver]).
Qed.

Lemma spec_walkSend E R0 n l x loc fun_ funLoc flags numPosArgs recv args cur : (cur < n)%nat -> ctx_ok x n l ->
  (E -> fits fuel recv) -> (E -> Forall (fits fuel) args) ->
  spec wn E (cur :: R0) n l (walkSend wn gs file fileRef walk x loc fun_ funLoc flags numPosArgs recv args cur) (walks cur R0).
Proof.
  intros Hc Hx Hr Ha. unfold walkSend. eapply spec_bind; [by apply spec_handleSpecial|].
  intros [b|] R1 n1 l1 Hn Hl HR; [destruct HR as [-> ?]; ret|]. subst R1.
  exec spec_walkTemp. steps.
  assert (Hkw : E -> Forall (fun kv => fits fuel kv.1 /\ fits fuel kv.2) r2).
  { intros He. unfold kwArgPairs in *. destruct (takeExactly _ (drop _ _)) as [es|] eqn:Ek; simplify_eq/=.
    apply pairs_fits. eapply takeExactly_fits; [done|]. by apply Forall_drop, Ha. }
  exec (spec_walkArgs _ _ _ cur); [split_and!; side..|eauto using takeExactly_fits|].
  exec (spec_walkPairs _ _ _ cur); [split_and!; side..|].
  eapply (spec_bind _ _ _ _ _ _ _ (sent cur R0)).
  { destruct r3 as [e|]; [|ret]. eapply spec_walkArg; [split_and!; side|side|eauto using kwSplat_fits]. }
  after. destruct (negb _); [by apply spec_stop|]. destruct r4 as [[[blockLoc params] body]|].
  - assert (Hb : E -> Forall (fits fuel) params /\ fits fuel body) by eauto using sendBlock_fits.
    eapply spec_from; [|eapply spec_walkSendBlock; [side|side|reads|intros He..]]; [done|by destruct (Hb He)..].
  - step. ret.
Qed.

(** *** Jumps *)

Lemma spec_walkBreak E R0 n l x loc expr cur : (cur < n)%nat -> ctx_ok x n l -> (E -> fits fuel expr) ->
  spec wn E (cur :: R0) n l (walkBreak wn walk x loc expr cur) (walks cur R0).
Proof.
  intros Hc Hx HE. apply spec_bounds. intros H2 _. unfold walkBreak. exec spec_walkTemp. steps.
  eapply spec_then; [destruct (cc_breakIsJump x); [ret|steps; prim; side]|intros ? ? ? ? ?]. steps.
  eapply (spec_bind _ _ _ _ _ _ _ (fun _ R' _ _ => R' = R0)); [|intros; subst; apply spec_dead_walks; lia].
  destruct (cc_breakScope x) eqn:Ex; [|step]; prim; side.
Qed.

Lemma spec_walkRetry E R0 n l x loc cur : (cur < n)%nat -> ctx_ok x n l ->
  spec wn E (cur :: R0) n l (walkRetry wn x loc cur) (walks cur R0).
Proof.
  intros Hc Hx. apply spec_bounds. intros H2 _. unfold walkRetry. steps.
  eapply (spec_bind _ _ _ _ _ _ _ (fun _ R' _ _ => R' = R0)); [|intros; subst; apply spec_dead_walks; lia].
  destruct (cc_rescueScope x) eqn:Ex; [|step; prim; side]. steps. prim; side.
Qed.

(** *** Casts *)

Lemma spec_walkBind E R n l x loc isSynthetic type arg tmp cur : (cur < n)%nat -> ctx_ok x n l -> (tmp < l)%nat ->
  spec wn E R n l (walkBind wn x loc isSynthetic type arg tmp cur) (fun _ R' _ _ => R' = R).
Proof.
  intros Hc Hx Ht. apply spec_bounds. intros _ H5. unfold walkBind. destruct (isSelf arg); [|prim].
  eapply spec_then; [destruct isSynthetic; prim; side|intros ? ? ? ? ?]. steps.
  destruct (cc_rescueScope x) eqn:Ex; [|ret]. steps. prim; side.
Qed.

Lemma spec_walkCast E R0 n l x loc cast type arg typeExpr cur : (cur < n)%nat -> ctx_ok x n l -> (E -> fits fuel arg) -> (E -> fits fuel typeExpr) ->
  spec wn E (cur :: R0) n l (walkCast wn walk x loc cast type arg typeExpr cur) (walks cur R0).
Proof.
  intros Hc Hx H1 H2. unfold walkCast. replaces.
  { destruct (isEmptyTree typeExpr); [ret|]. exec spec_walkTemp. steps. ret. }
  after. exec spec_walkTemp. eapply spec_then; [|intros ? ? ? ? ?].
  { destruct (cast =? _); [prim; side|]. destruct (_ || _); [apply spec_walkBind; side|prim; side]. }
  eapply spec_then; [destruct (cast =? _); [prim; side|ret]|intros]. ret.
Qed.

(** *** Defaults *)

Lemma spec_walkDefault E R R0 n l x i info loc def present dflt :
  R ≡ₚ present :: match dflt with Some d => d :: R0 | None => R0 end -> (present < n)%nat -> ctx_ok x n l -> (E -> fits fuel def) ->
  spec wn E R n l (walkDefault wn walk x i info loc def present dflt)
    (fun r R' n' l' => R' = r.2 :: r.1.2 :: R0 /\ (r.2 < n')%nat /\ (r.1.2 < n')%nat /\ (r.1.1 < l')%nat).
Proof.
  intros Hp Hc Hx HE. eapply spec_tokens; [by rewrite Hp|]. unfold walkDefault. steps.
  eapply (spec_bind _ _ _ _ _ _ _ (fun _ R' _ _ => R' = r0 :: r :: R0)).
  { destruct dflt; [prim; side|ret]. }
  after. exec spec_walkTemp. eapply spec_then; [|intros; ret].
  destruct (hasType _); [|ret]. steps. prim; side.
Qed.

(** *** Exceptions *)

Lemma spec_exceptionHandler E R R0 n l x ex caseBody exceptionValue handlers : R ≡ₚ handlers :: R0 -> (handlers < n)%nat -> (0 < caseBody < n)%nat ->
  (exceptionValue < l)%nat -> ctx_ok x n l -> (E -> fits fuel ex) ->
  spec wn E R n l (buildExceptionHandler wn walk x ex caseBody exceptionValue handlers) (walks handlers R0).
Proof.
  intros Hp Hh Hc He Hx HE. eapply spec_tokens; [by rewrite Hp|]. unfold buildExceptionHandler. exec spec_walkTemp. steps. ret.
Qed.

Lemma fits_unsafe loc v exceptions var body : (exists a b c, var = Local a b c) ->
  fits fuel (RescueCase loc exceptions var body) -> forall loc', fits fuel (unsafeLocal wn loc' v).
Proof.
  intros (a & b & c & ->) Hf loc'. destruct fuel as [|[|f]]; simpl in *; [done|by inversion Hf|].
  repeat constructor.
Qed.

Definition rescued (R0 : list nat) : nat * nat -> list nat -> nat -> nat -> Prop :=
  fun st R' n' l' => R' ≡ₚ st.1 :: st.2 :: R0 /\ (st.1 < n')%nat /\ (0 < st.2 < n')%nat.

Lemma spec_handlers E R R0 n l x caseBody exceptionValue handlers exs : R ≡ₚ handlers :: R0 -> (handlers < n)%nat -> (0 < caseBody < n)%nat ->
  (exceptionValue < l)%nat -> ctx_ok x n l -> (E -> Forall (fits fuel) exs) ->
  spec wn E R n l (foldB (fun handlers ex => buildExceptionHandler wn walk x ex caseBody exceptionValue handlers) handlers exs) (walks handlers R0).
Proof.
  intros Hp Hh Hc He Hx HE. eapply spec_tokens; [by rewrite Hp|]. eapply (spec_foldB _ _ _ _ _ n l); try done.
  intros s ex R1 n1 l1 Hin Hn Hl (-> & Hs & Hz). eapply spec_from; [exact Hz|]. eapply spec_exceptionHandler; side. rewrite Forall_forall in HE. auto.
Qed.

Lemma spec_walkRescueCase E R R0 n l x loc ensure exceptionValue st case : rescued R0 st R n l -> (exceptionValue < l)%nat -> ctx_ok x n l ->
  (E -> fits fuel case) -> spec wn E R n l (walkRescueCase wn walk x loc ensure exceptionValue st case) (rescued R0).
Proof.
  destruct st as [handlers ens]. intros (Hp & Hh & Hens) He Hx HE. simpl in *. eapply spec_tokens; [by rewrite Hp|].
  unfold walkRescueCase. destruct case; try (by apply spec_stop). rename case1 into var, case2 into body. destruct var; try (by apply spec_stop).
  assert (Hsub : forall e, e ∈ body :: exceptions -> E -> fits fuel e).
  { intros e He1 He2. eapply fits_sub; [by apply HE|]. simpl. set_solver. }
  steps. eapply (spec_bind _ _ _ _ _ _ _ (walks ens (r :: handlers :: R0))).
  { destruct (isEmptyTree ensure); [finish|]. steps. eapply spec_walk; side. intros H'. eapply fits_unsafe; [|by apply HE]. eauto. }
  after. steps. exec spec_handlers.
  { intros H'. destruct exceptions; [apply Forall_singleton; by eapply fits_leaf; [|by apply HE]|].
    apply Forall_forall. intros e' Hin. apply Hsub; [set_solver|done]. }
  exec spec_walk; [apply Hsub; set_solver|]. steps. eapply spec_ret; [reflexivity|]. split_and!; simpl; [done|lia..].
Qed.

Lemma spec_rescueCases E R R0 n l x loc ensure exceptionValue st cases : rescued R0 st R n l -> (exceptionValue < l)%nat -> ctx_ok x n l ->
  (E -> Forall (fits fuel) cases) -> spec wn E R n l (foldB (walkRescueCase wn walk x loc ensure exceptionValue) st cases) (rescued R0).
Proof.
  intros Hst He Hx HE. eapply (spec_foldB _ _ _ _ _ n l); try done.
  intros st' case R1 n1 l1 Hin Hn Hl Hs. eapply spec_walkRescueCase; side. rewrite Forall_forall in HE. auto.
Qed.

Lemma spec_walkRescue E R0 n l x loc body cases else_ ensure cur : (cur < n)%nat -> ctx_ok x n l -> (E -> fits fuel body) ->
  (E -> Forall (fits fuel) cases) -> (E -> fits fuel else_) -> (E -> fits fuel ensure) ->
  spec wn E (cur :: R0) n l (walkRescue wn walk x loc body cases else_ ensure cur) (walks cur R0).
Proof.
  intros Hc Hx H1 H2 H3 H4. apply spec_bounds. intros H2' _. unfold walkRescue. steps. exec spec_walk. steps. exec spec_walk. steps.
  eapply spec_bind; [eapply (spec_rescueCases _ _ R0); [split_and!; simpl; [apply Permutation_swap|lia..]|side|side|done]|].
  intros [handlers ens] R1 n1 l1 Hn1 Hl1 (Hp & Hh & He). simpl in *. eapply spec_tokens; [by rewrite Hp|].
  steps. exec spec_walkTemp. steps. ret.
Qed.

(** *** All nodes *)

Ltac head t := lazymatch t with ?f _ => head f | _ => t end.

(** The triple of the function that a kind of node calls *)
Ltac node_case :=
  lazymatch goal with
  | |- spec _ _ _ _ _ (mret _) _ => ret
  | |- spec _ _ _ _ _ (@mbind _ _ _ _ _ _) _ => step; ret
  | |- spec _ _ _ _ _ ?m _ =>
      let h := head m in
      lazymatch h with
      | @walkSend => apply spec_walkSend
      | @walkIf => apply spec_walkIf
      | @walkWhile => apply spec_walkWhile
      | @walkBreak => apply spec_walkBreak
      | @walkRetry => apply spec_walkRetry
      | @walkBlockReturn => apply spec_walkBlockReturn
      | @walkReturn => apply spec_walkReturn
      | @walkRescue => apply spec_walkRescue
      | @walkLocal => apply spec_walkLocal
      | @walkIdent => apply spec_walkIdent
      | @walkAssignment => apply spec_walkAssignment
      | @walkCast => apply spec_walkCast
      | @walkHash => apply spec_walkHash
      | @walkArray => apply spec_walkArray
      | @walkConstant => apply spec_walkConstant
      | @walkInsSeq => apply spec_walkInsSeq
      end
  end.

Lemma spec_walkNode x e cur R0 n l : (cur < n)%nat -> ctx_ok x n l ->
  spec wn (Forall (fits fuel) (kids e)) (cur :: R0) n l (walkNode wn gs file fileRef owner reportUndeclared walk x e cur) (walks cur R0).
Proof.
  intros Hc Hx. apply spec_bounds. intros H2 H5. destruct e; cbn [walkNode kids]; try (by apply spec_stop);
    node_case; try done; intros; simplify_eq; repeat match goal with H : Forall _ _ |- _ => rewrite ?Forall_cons, ?Forall_app in H end; tauto.
Qed.
End Cases.

Theorem spec_walk_all fuel : forall x e cur R n l, (cur < n)%nat -> ctx_ok x n l ->
  spec wn (fits fuel e) (cur :: R) n l (walk wn gs file fileRef owner reportUndeclared fuel x e cur) (walks cur R).
Proof.
  induction fuel as [|fuel IH]; intros x e cur R n l Hc Hx; simpl.
  - intros st _. simpl. split; [done|]. by intros [].
  - by apply spec_walkNode.
Qed.
End Walk.
