(* ===== verification/CfgMethod.v ===== *)
(** * Graphs of whole methods

    The composition of the builder: the graph of a method starts from an empty one, [buildGraph] fills it
    in, and the passes of [CfgTopo], [CfgFinalize] and [CfgArgs] finish it. *)

From S2P Require Import Prelude Pickler FileHash Files Locs Types NameTable NameText Symbols SymbolRefs Linearize.
From S2P Require Import Ast UIntSet Cfg CfgTopo CfgReads CfgArgs CfgFinalize CfgBuild CfgBuildInv CfgWalk.

#[local] Open Scope Z_scope.

Section Method.
Context (wn : CfgNames) (gs : Symbolic) (file : File) (fileRef owner : Z) (reportUndeclared isSCIPRuby : bool) (fuel : nat).
Hypothesis Hnames : names_ok wn.

#[local] Abbreviation walk := (CfgBuild.walk wn gs file fileRef owner reportUndeclared fuel).

Lemma walk_IH x e cur R n l : (cur < n)%nat -> ctx_ok x n l -> spec wn (fits fuel e) (cur :: R) n l (walk x e cur) (walks cur R).
Proof. by apply spec_walk_all. Qed.

Lemma start_ctx n l : (5 <= l)%nat -> ctx_ok startContext n l.
Proof. intros H5. unfold ctx_ok. cbn. unfold noVariable. split_and!; [lia|lia|done..]. Qed.

(** ** Parameters *)

(** The open blocks of the two paths *)
Definition paths (present : nat) (dflt : option nat) : list nat := present :: match dflt with Some d => [d] | None => [] end.

Definition conts (r : nat * option nat) (R' : list nat) (n' l' : nat) : Prop :=
  R' ≡ₚ paths r.1 r.2 /\ (r.1 < n')%nat /\ match r.2 with Some d => (d < n')%nat | None => True end.

Lemma spec_joinConts E R n l (b : bool) present dflt : conts (present, dflt) R n l ->
  spec wn E R n l
    (match dflt with
     | Some d => if b then p ← joinBlocks startContext present d; mret (p, None) else mret (present, dflt)
     | None => mret (present, dflt)
     end) conts.
Proof.
  intros (Hp & Hc & Hd). destruct dflt as [d|]; simpl in *.
  - destruct b; [|by eapply spec_ret]. eapply spec_bind; [by eapply (spec_joinBlocks wn _ _ [])|after].
    eapply spec_ret; [reflexivity|]. split_and!; simpl; [done|lia|done].
  - by eapply spec_ret.
Qed.

Lemma spec_buildParam E R n l method st paramExpr : conts st.1.1 R n l -> (E -> fits fuel paramExpr) ->
  spec wn E R n l (buildParam wn gs file fileRef owner reportUndeclared isSCIPRuby fuel method st paramExpr) (fun r => conts r.1.1).
Proof.
  destruct st as [[[present dflt] seen] i]. intros Hst HE. simpl in Hst. apply spec_bounds. intros H2 H5.
  unfold buildParam. eapply spec_bind; [prim; done|]. intros [loc v] R1 n1 l1 Hn1 Hl1 [-> _]. steps. cbv zeta.
  eapply spec_bind; [apply spec_joinConts; destruct Hst as (? & ? & ?); split_and!; [done|simpl in *; lia|by destruct dflt; simpl in *; [lia|]]|].
  clear Hst. intros [present' dflt'] R2 n2 l2 Hn2 Hl2 (Hp & Hc & Hd). simpl in Hp, Hc, Hd.
  eapply (spec_bind _ _ _ _ _ _ _ conts).
  { destruct paramExpr; try (eapply spec_ret; [reflexivity|done]). destruct (_ && _); [eapply spec_ret; [reflexivity|done]|].
    eapply spec_bind; [eapply (spec_walkDefault wn Hnames fuel walk walk_IH E R2 [])|after].
    - rewrite Hp. by destruct dflt'.
    - lia.
    - apply start_ctx. lia.
    - intros ?%HE. eapply fits_sub; [done|simpl; set_solver].
    - steps. eapply spec_ret; [reflexivity|]. split_and!; simpl; [apply Permutation_swap|lia|lia]. }
  intros [present2 dflt2] R3 n3 l3 Hn3 Hl3 (Hp3 & Hc3 & Hd3). simpl in Hp3, Hc3, Hd3. steps.
  eapply spec_ret; [reflexivity|]. split_and!; simpl; [done|lia|destruct dflt2; [lia|done]].
Qed.

Lemma spec_buildParams E n l method params : (1 <= n)%nat -> (E -> Forall (fits fuel) params) ->
  spec wn E [0%nat] n l (buildParams wn gs file fileRef owner reportUndeclared isSCIPRuby fuel method 0 params) (walks 0 []).
Proof.
  intros Hn HE. unfold buildParams. eapply spec_bind; [eapply (spec_foldB wn E (fun r => conts r.1.1) _ _ n l)|].
  - intros s a R n' l' Ha Hn' Hl' Hs. apply spec_buildParam; [done|]. rewrite Forall_forall in HE. auto.
  - done.
  - done.
  - split_and!; simpl; [done|lia|done].
  - intros [[[present dflt] seen] i] R n' l' Hn' Hl' (Hp & Hc & Hd). simpl in *. eapply spec_tokens; [by rewrite Hp|].
    destruct dflt as [d|]; [|ret]. eapply spec_mono; [done|by eapply (spec_joinBlocks wn _ _ [])|].
    intros r R' n2 l2 _ _ [-> ?]. split_and!; [done|lia..].
Qed.

(** ** The body *)

Lemma spec_buildBody E n l retSym stats expr cont : (cont < n)%nat -> (retSym < l)%nat -> (5 <= l)%nat ->
  (E -> Forall (fits fuel) stats) -> (E -> fits fuel expr) ->
  spec wn E [cont] n l (buildBody wn gs file fileRef owner reportUndeclared fuel retSym stats expr cont) (walks cont []).
Proof.
  intros Hc Hr H5 Hs HE. unfold buildBody. set (built := filter _ stats).
  assert (Hb : E -> Forall (fits fuel) built).
  { intros He. specialize (Hs He). rewrite Forall_forall in *. intros e [_ Hin]%list_elem_of_filter. by apply Hs. }
  assert (Hctx : forall n' l', (l <= l')%nat -> ctx_ok (withTarget (synthetic retSym) startContext) n' l').
  { intros n' l' Hl'. unfold ctx_ok. cbn. unfold noVariable. split_and!; [lia|lia|done..]. }
  destruct (last built) as [lastStat|] eqn:El; [|eapply (spec_walk wn fuel walk walk_IH); [done|done|by apply Hctx|done]].
  apply last_Some in El as [init El]. rewrite El, removelast_last. rewrite El in Hb.
  eapply spec_bind; [eapply (spec_walkStats wn fuel walk walk_IH E _ []); [done|done|by apply start_ctx|]|after].
  { intros He. specialize (Hb He). by apply Forall_app in Hb as [? _]. }
  eapply spec_from; [|eapply (spec_walk wn fuel walk walk_IH); [done|done|by apply Hctx|]]; [done|].
  intros He. specialize (Hb He). apply Forall_app in Hb as [_ Hb]. by inversion Hb.
Qed.

Lemma spec_buildReturn E n l retSym cont : (cont < n)%nat -> (retSym < l)%nat ->
  spec wn E [cont] n l (buildReturn file fileRef retSym cont) (fun _ R' _ _ => R' = []).
Proof.
  intros Hc Hr. apply spec_bounds. intros H2 H5. unfold buildReturn. step. step. cbv zeta.
  eapply spec_then; [|intros rvLoc n2 l2 ? ?; steps; prim; side].
  destruct (last _) as [b|]; [destruct (isLoadArg _); [|ret]|];
    (eapply spec_then; [apply spec_sourceIs|intros [] ? ? ? ?; [|ret]];
     eapply spec_then; [apply spec_implicitReturnLoc|intros; ret]).
Qed.

(** ** Aliases *)

Lemma spec_minLoops E R n l (xs : list (Z * LocalOccurrence)) (keep : Z * LocalOccurrence -> bool) :
  Forall (fun kv => lo_variable kv.2 < l)%nat xs ->
  spec wn E R n l (foldB (fun _ kv => if keep kv then setMinLoop (lo_variable kv.2) MIN_LOOP_FIELD else mret tt) tt xs) (fun _ R' _ _ => R' = R).
Proof.
  intros Hx. eapply (spec_foldB wn E (fun _ R' _ _ => R' = R) _ _ n l); try done.
  intros [] kv R' n' l' Hin Hn Hl ->. rewrite Forall_forall in Hx. specialize (Hx kv Hin).
  destruct (keep kv); [prim; lia|ret].
Qed.

Lemma benign_prefix l (prefix : list Binding) :
  (forall bind, bind ∈ prefix -> (bindingWrites bind < l)%nat /\ instructionReads (bd_value bind) = []) ->
  benign l (fun bb => set_exprs (prefix ++ bb_exprs bb) bb).
Proof.
  intros Hp bb. split_and!; try done. simpl. intros bind [Hin|?]%elem_of_app; [right|by left].
  destruct (Hp bind Hin) as [? ->]. split; [done|constructor].
Qed.

Lemma spec_buildAliasesOf E n l aliases undeclared : (1 <= n)%nat -> Forall (fun kv => lo_variable kv.2 < l)%nat aliases ->
  Forall (fun kv => lo_variable kv.2 < l)%nat undeclared ->
  spec wn E [] n l (buildAliasesOf aliases undeclared 0) (fun _ R' _ _ => R' = []).
Proof.
  intros Hn Ha Hu. unfold buildAliasesOf.
  eapply spec_then; [by apply (spec_minLoops _ _ _ _ _ (fun kv => isFieldOrStaticField kv.1))|intros _ n1 l1 ? ?].
  eapply spec_then; [apply (spec_minLoops _ _ _ _ _ (fun _ => true)); eapply Forall_impl; [exact Hu|simpl; lia]|intros _ n2 l2 ? ?]. cbv zeta.
  apply spec_benign; [lia|]. apply benign_prefix. intros bind. rewrite merge_sort_Permutation, elem_of_app, !list_elem_of_fmap.
  rewrite Forall_forall in Ha, Hu. intros [(kv & -> & Hk)|(kv & -> & Hk)]; cbn; (split; [|done]); [specialize (Ha kv Hk)|specialize (Hu kv Hk)]; lia.
Qed.

Lemma alias_bounds (m : gmap Z LocalOccurrence) (L : nat) : (forall k o, m !! k = Some o -> (lo_variable o < L)%nat) ->
  Forall (fun kv => lo_variable kv.2 < L)%nat (map_to_list m).
Proof. intros Hm. apply Forall_forall. intros [k o] Hk%elem_of_map_to_list. by eapply Hm. Qed.

Lemma spec_buildAliases E n l : spec wn E [] n l (buildAliases 0) (fun _ R' _ _ => R' = []).
Proof.
  intros st HI. pose proof (in_n _ _ _ _ _ HI) as Hn. pose proof (in_l _ _ _ _ _ HI) as Hl. apply Inv_raise in HI. unfold buildAliases.
  assert (Hspec := spec_buildAliasesOf E n (length (localVariables (bs_cfg st))) (map_to_list (bs_aliases st)) (map_to_list (bs_undeclared st))).
  specialize (Hspec ltac:(lia) (alias_bounds _ _ (in_aliases _ _ _ _ _ HI)) (alias_bounds _ _ (in_undeclared _ _ _ _ _ HI)) st HI).
  destruct (buildAliasesOf _ _ _ st) as [s|[u st']]; [done|]. destruct Hspec as (R' & n' & l' & ? & ? & ? & ?).
  exists R', n', l'. split_and!; [done|lia|done..].
Qed.

(** ** The whole graph *)

Lemma spec_buildGraph (E : Prop) params stats expr : (E -> Forall (fits fuel) params) -> (E -> Forall (fits fuel) stats) -> (E -> fits fuel expr) ->
  spec wn E [0%nat] 2 5 (buildGraph wn gs file fileRef owner reportUndeclared isSCIPRuby fuel params stats expr) (fun _ R' _ _ => R' = []).
Proof.
  intros Hp Hs He. unfold buildGraph. step.
  eapply spec_bind; [apply (spec_lift_some wn); eauto|]. intros ent R1 n1 l1 ? ? [-> Hent]. assert (ent = 0%nat) as -> by congruence.
  steps. cbv zeta. steps.
  eapply spec_bind; [apply spec_buildParams; [lia|done]|after].
  eapply spec_bind; [apply spec_buildBody; [lia|lia|lia|done|done]|after].
  eapply spec_bind; [apply spec_buildReturn; lia|after]. apply spec_buildAliases.
Qed.
End Method.

(** ** The start *)

(** The names of the fixed variables differ, as the [ENFORCE]s of [CFG::CFG] ask for. *)
Definition fixed_names (wn : CfgNames) : Prop :=
  NoDup [0; n_blockCall wn; n_selfLocal wn; n_unconditional wn; n_finalReturn wn].

Lemma enterLocal_new v c : localVariableToLocalRef c !! v = None -> lv_name v <> 0 -> enterLocal v c = enterLocalInternal v c.
Proof. intros Hv Hn. unfold enterLocal. rewrite Hv. simpl. by rewrite (proj2 (Z.eqb_neq _ _) Hn). Qed.

Lemma newCFG_shape wn : fixed_names wn -> exists table,
  newCFG wn = mkCFG 0 2 noOffsets noOffsets
    (<[1%nat := mkBasicBlock [] 1 false false 0 [] (mkBlockExit (mkUseSite unconditional NullType noOffsets) (Some 1%nat) (Some 1%nat) noOffsets) []]>
       (<[0%nat := mkBasicBlock [] 0 false false 0 [] emptyExit []]> ∅))
    [0; 1]%nat noOffsets [] (replicate 5 INT_MAX) (replicate 5 0)
    [mkLocalVariable 0 0; mkLocalVariable (n_blockCall wn) 0; mkLocalVariable (n_selfLocal wn) 0; mkLocalVariable (n_unconditional wn) 0;
     mkLocalVariable (n_finalReturn wn) 0] table [None] /\
  forall v r, table !! v = Some r -> (r < 5)%nat /\
    [mkLocalVariable 0 0; mkLocalVariable (n_blockCall wn) 0; mkLocalVariable (n_selfLocal wn) 0; mkLocalVariable (n_unconditional wn) 0;
     mkLocalVariable (n_finalReturn wn) 0] !! r = Some v.
Proof.
  unfold fixed_names. rewrite !NoDup_cons. intros Hnd. unfold newCFG. cbn [freshBlock maxBasicBlockId].
  unfold updateBlock. cbn [cfg_blocks basicBlocks app]. rewrite lookup_insert_eq. cbn [mbind option_bind default from_option id].
  unfold set_blocks, set_exit. cbn -[lookup insert enterLocal]. rewrite insert_insert_eq.
  do 4 (rewrite enterLocal_new; [|cbn -[lookup insert]; rewrite ?lookup_insert_ne by set_solver; done|cbn; set_solver];
    unfold enterLocalInternal; cbn -[lookup insert enterLocal]).
  eexists. split; [reflexivity|]. intros v r. rewrite !lookup_insert_Some, lookup_empty.
  naive_solver lia.
Qed.

Lemma start_lookup k bb (b0 b1 : BasicBlock) : (<[1%nat := b1]> (<[0%nat := b0]> ∅) : gmap nat BasicBlock) !! k = Some bb ->
  (k = 0%nat /\ bb = b0) \/ (k = 1%nat /\ bb = b1).
Proof. rewrite !lookup_insert_Some, lookup_empty. naive_solver. Qed.

Lemma startState_Inv wn symbol loc declLoc : fixed_names wn -> Inv wn [0%nat] 2 5 (startState wn symbol loc declLoc).
Proof.
  intros (table & Hc & Htable)%newCFG_shape. unfold startState. rewrite Hc. clear Hc.
  set (b1 := mkBasicBlock [] 1 _ _ _ _ _ _). set (b0 := mkBasicBlock [] 0 _ _ _ _ _ _). cbn -[lookup insert].
  pose proof (fun k bb => start_lookup k bb b0 b1) as Hlk. set (blocks := <[1%nat := b1]> _) in *.
  assert (Hdom : forall k, is_Some (blocks !! k) <-> (k < 2)%nat).
  { intros k. unfold blocks. rewrite !lookup_insert_is_Some, lookup_empty. split; [intros [->|[? [->|[? [? [=]]]]]]; lia|lia]. }
  clearbody blocks. split; [split|split| | | |]; cbn -[lookup insert].
  - done.
  - intros k bb [[-> ->]|[-> ->]]%Hlk; done.
  - done.
  - intros k ->%list_elem_of_singleton. lia.
  - destruct (decide _); [apply NoDup_singleton|apply NoDup_nil_2].
  - intros k bb [[-> ->]|[-> ->]]%Hlk Hk; [|done]. destruct (decide _) as [|Hn]; [done|]. destruct Hn. apply list_elem_of_here.
  - intros bb [[? ->]|[_ ->]]%Hlk; done.
  - intros k bb [[-> ->]|[-> ->]]%Hlk; apply NoDup_nil_2.
  - intros k bb p Hk. assert (bb_backEdges bb = []) as -> by (apply Hlk in Hk as [[_ ->]|[_ ->]]; done).
    split; [by intros ?%elem_of_nil|]. intros [Hp (pb & Hpb & Hs)]. apply Hlk in Hpb as [[-> ->]|[-> ->]]; [|done]. by destruct Hs.
  - intros k bb Hk. apply Hlk in Hk as [[_ ->]|[_ ->]]; (split; [by intros bind v ?%elem_of_nil|]); cbn; unfold noVariable, unconditional; lia.
  - done.
  - done.
  - done.
  - intros v r Hv. destruct (Htable v r Hv). by split.
  - lia.
  - lia.
  - intros k o. by rewrite lookup_empty.
  - intros k o. by rewrite lookup_empty.
Qed.

(** ** Graphs without open blocks *)

(** Every block has an exit, and the back edges mirror the exits. *)
Record complete (c : CFG) : Prop := mk_complete {
  cp_wf : wf_cfg c;
  cp_vars : vars_ok c;
  cp_entry : entry c = Some 0%nat;
  cp_no_entry_edge : forall k, ~ succ c k 0;
  cp_dead : deadBlock c = Some dead;
  cp_sanity : sanityCheck c = true;
  cp_loops : length (minLoops c) = length (localVariables c) /\ length (maxLoopWrite c) = length (localVariables c) }.

Lemma countOf_once k edges : NoDup edges -> k ∈ edges -> countOf k edges = 1%nat.
Proof.
  unfold countOf. intros Hnd Hin. assert (Hp : filter (fun p => p = k) edges ≡ₚ [k]); [|by rewrite Hp].
  apply NoDup_Permutation; [by apply NoDup_filter|apply NoDup_singleton|]. intros x. rewrite list_elem_of_filter, list_elem_of_singleton. naive_solver.
Qed.

Section Complete.
Context (c : CFG) (Hs : sane [] c) (Hmax : (2 <= maxBasicBlockId c)%nat).

Lemma sane_exit k bb : cfg_blocks c !! k = Some bb -> exit_ok (maxBasicBlockId c) (bb_exit bb).
Proof using Hs Hmax.
  intros Hk. destruct (decide (k = dead)) as [->|Hne].
  - destruct (sn_dead _ _ Hs bb Hk) as (Ht & He & Hc). exists dead, dead. rewrite Hc. unfold dead, noVariable, unconditional.
    split_and!; try done; lia.
  - pose proof (sn_exits _ _ Hs k bb Hk Hne) as Hx. by rewrite decide_False in Hx by set_solver.
Qed.

Lemma sane_back_once k bb t : cfg_blocks c !! k = Some bb -> k <> dead -> be_thenb (bb_exit bb) = Some t \/ be_elseb (bb_exit bb) = Some t ->
  exists tb, cfg_blocks c !! t = Some tb /\ countOf k (bb_backEdges tb) = 1%nat.
Proof using Hs Hmax.
  intros Hk Hne Ht. destruct (sane_exit k bb Hk) as (t' & f' & Et & Ef & Htl & Hfl & _).
  assert (is_Some (cfg_blocks c !! t)) as [tb Htb].
  { apply (sn_blocks _ _ Hs). destruct Ht; simplify_eq; lia. }
  exists tb. split; [done|].
  assert (Hin : k ∈ bb_backEdges tb) by (apply (sn_back _ _ Hs t tb k Htb); split; [done|by exists bb]).
  apply countOf_once; [by apply (sn_back_nodup _ _ Hs t)|done].
Qed.

Lemma sane_sanityCheck : sanityCheck c = true.
Proof using Hs Hmax.
  unfold sanityCheck. rewrite forallb_forall. intros k Hin%list_elem_of_In.
  assert (is_Some (cfg_blocks c !! k)) as [bb Hb].
  { apply (sn_blocks _ _ Hs). rewrite (sn_listed _ _ Hs) in Hin. apply elem_of_seq in Hin. lia. }
  destruct (sane_exit k bb Hb) as (t & f & Et & Ef & Ht & Hf & Hc & Htf).
  assert (Hcs : isCondSet (bb_exit bb) = true) by (unfold isCondSet, local_exists, noVariable in *; apply Nat.ltb_lt; lia).
  unfold sanityCheckBlock. rewrite Hb, Hcs. simpl.
  assert (Hd : deadBlock c = Some dead) by (unfold deadBlock; rewrite (sn_listed _ _ Hs), lookup_seq_lt by lia; done).
  rewrite Hd. destruct (decide (k = dead)) as [->|Hne]; [by rewrite bool_decide_true|]. rewrite bool_decide_false by congruence. simpl.
  destruct (sane_back_once k bb t Hb Hne) as (tb & Htb & Hct); [by left|].
  destruct (sane_back_once k bb f Hb Hne) as (fb & Hfb & Hcf); [by right|].
  rewrite Et, Ef. simpl. rewrite Htb, Hfb, Hct, Hcf. simpl. unfold isUnconditional. rewrite Et, Ef.
  case_bool_decide as Heq; simplify_eq.
  - apply Nat.eqb_eq, Htf. done.
  - unfold isCondSet in Hcs. rewrite Hcs. simpl. apply negb_true_iff, Nat.eqb_neq. intros ?%Htf. congruence.
Qed.

Lemma sane_wf : wf_cfg c.
Proof using Hs Hmax.
  split; [split| | |].
  - intros k bb Hk. split; [by apply (sn_ids _ _ Hs)|]. apply (sn_blocks _ _ Hs). eauto.
  - intros k bb Hk. destruct (sane_exit k bb Hk) as (t & f & Et & Ef & Ht & Hf & _). exists t, f.
    split_and!; try done; apply (sn_blocks _ _ Hs); lia.
  - intros k. rewrite (sn_listed _ _ Hs), elem_of_seq, (sn_blocks _ _ Hs). lia.
  - rewrite (sn_listed _ _ Hs). apply NoDup_seq.
  - intros k bb p Hk Hp. by apply (sn_back _ _ Hs k bb p Hk) in Hp as [_ ?].
Qed.

Lemma sane_complete wn : locals_ok wn c -> complete c.
Proof using Hs Hmax.
  intros [L1 L2 L3 L4]. split; try done.
  - apply sane_wf.
  - apply (sn_vars _ _ Hs).
  - unfold entry. by rewrite (sn_listed _ _ Hs), lookup_seq_lt by lia.
  - intros k (bb & Hk & Ht). destruct (sane_exit k bb Hk) as (t & f & Et & Ef & ? & ? & _). destruct Ht; simplify_eq; lia.
  - unfold deadBlock. by rewrite (sn_listed _ _ Hs), lookup_seq_lt by lia.
  - apply sane_sanityCheck.
Qed.
End Complete.

(** ** The builder *)

Section Build.
Context (wn : CfgNames) (gs : Symbolic) (file : File) (fileRef owner : Z) (reportUndeclared isSCIPRuby : bool) (fuel : nat).
Hypothesis Hnames : names_ok wn.
Hypothesis Hfixed : fixed_names wn.

Lemma buildGraph_complete (E : Prop) params stats expr symbol loc declLoc :
  (E -> Forall (fits fuel) params) -> (E -> Forall (fits fuel) stats) -> (E -> fits fuel expr) ->
  match buildGraph wn gs file fileRef owner reportUndeclared isSCIPRuby fuel params stats expr (startState wn symbol loc declLoc) with
  | inl s => fine E s
  | inr (_, st) => complete (bs_cfg st)
  end.
Proof using Hnames Hfixed.
  intros Hp Hs He.
  pose proof (spec_buildGraph wn gs file fileRef owner reportUndeclared isSCIPRuby fuel Hnames E params stats expr Hp Hs He _
    (startState_Inv wn symbol loc declLoc Hfixed)) as Hspec.
  destruct (buildGraph _ _ _ _ _ _ _ _ _ _ _ _) as [s|[u st]]; [done|].
  destruct Hspec as (R' & n' & l' & Hn & Hl & -> & HI). pose proof (in_n _ _ _ _ _ HI).
  eapply sane_complete; [apply (in_sane _ _ _ _ _ HI)|lia|apply (in_locals _ _ _ _ _ HI)].
Qed.
End Build.
