(* ===== verification/CfgPasses.v ===== *)
(** * The finishing passes succeed

    Each pass of [finishGraph] ends without a use of a missing block, variable or bit, on every graph the
    builder makes, and leaves the shape of the graph as it was. *)

From S2P Require Import Prelude Pickler FileHash Files Locs Types NameTable NameText Symbols SymbolRefs Linearize.
From S2P Require Import Ast UIntSet Cfg CfgTopo CfgReads CfgArgs CfgFinalize CfgBuild CfgBuildInv CfgWalk CfgMethod.

#[local] Open Scope Z_scope.

(** ** Changes that keep the shape *)

Definition same_shape (b b' : BasicBlock) : Prop :=
  bb_id b' = bb_id b /\ be_thenb (bb_exit b') = be_thenb (bb_exit b) /\ be_elseb (bb_exit b') = be_elseb (bb_exit b) /\
  bb_backEdges b' = bb_backEdges b.

(** [c'] has the blocks of [c], in the same places, with other contents. *)
Record same_graph (c c' : CFG) : Prop := mk_same_graph {
  sg_blocks : forall k, option_Forall2 same_shape (cfg_blocks c !! k) (cfg_blocks c' !! k);
  sg_max : maxBasicBlockId c' = maxBasicBlockId c;
  sg_listed : basicBlocks c' = basicBlocks c;
  sg_order : forwardsTopoSort c' = forwardsTopoSort c;
  sg_locals : localVariables c' = localVariables c }.

#[export] Instance same_shape_refl : Reflexive same_shape.
Proof. intros b. by split_and!. Qed.

#[export] Instance same_shape_trans : Transitive same_shape.
Proof. intros a b d (? & ? & ? & ?) (? & ? & ? & ?). split_and!; congruence. Qed.

#[export] Instance same_graph_refl : Reflexive same_graph.
Proof. intros c. split; try done. Qed.

#[export] Instance same_graph_trans : Transitive same_graph.
Proof. intros a b d [H1 ? ? ? ?] [H2 ? ? ? ?]. split; try congruence.
  intros k. specialize (H1 k). specialize (H2 k). destruct H1; inversion H2; constructor. by etrans.
Qed.

Lemma same_graph_dom c c' k : same_graph c c' -> is_Some (cfg_blocks c' !! k) <-> is_Some (cfg_blocks c !! k).
Proof. intros H. destruct (sg_blocks _ _ H k); split; intros [? ?]; eauto; done. Qed.

Lemma same_graph_block c c' k b' : same_graph c c' -> cfg_blocks c' !! k = Some b' -> exists b, cfg_blocks c !! k = Some b /\ same_shape b b'.
Proof. intros H Hk. pose proof (sg_blocks _ _ H k) as Hb. rewrite Hk in Hb. inversion Hb; eauto. Qed.

Lemma same_graph_succ c c' u v : same_graph c c' -> succ c' u v <-> succ c u v.
Proof.
  intros H. unfold succ. destruct (sg_blocks _ _ H u) as [b b' (_ & Ht & He & _)|]; [|naive_solver].
  split; intros (bb & [= <-] & ?); eexists; (split; [done|]); congruence.
Qed.

Lemma same_graph_wf c c' : same_graph c c' -> wf_cfg c -> wf_cfg c'.
Proof.
  intros H [[Hid Hex] Hl Hnd Hb]. split; [split| | |].
  - intros k b' Hk. destruct (same_graph_block c c' k b' H Hk) as (b & Hkb & -> & _). rewrite (sg_max _ _ H). by apply Hid.
  - intros k b' Hk. destruct (same_graph_block c c' k b' H Hk) as (b & Hkb & _ & -> & -> & _).
    destruct (Hex k b Hkb) as (t & e & ? & ? & ? & ?). exists t, e. by rewrite !(same_graph_dom c c' _ H).
  - intros k. rewrite (sg_listed _ _ H), (same_graph_dom c c' k H). apply Hl.
  - by rewrite (sg_listed _ _ H).
  - intros k b' p Hk. destruct (same_graph_block c c' k b' H Hk) as (b & Hkb & _ & _ & _ & ->).
    rewrite (same_graph_succ c c' p k H). by apply Hb.
Qed.

(** One block is changed. *)
Lemma updateBlock_same c b bb f : cfg_blocks c !! b = Some bb -> same_shape bb (f bb) ->
  updateBlock b f c = Some (set_blocks (<[b := f bb]> (cfg_blocks c)) c) /\ same_graph c (set_blocks (<[b := f bb]> (cfg_blocks c)) c).
Proof.
  intros Hb Hf. unfold updateBlock. rewrite Hb. split; [done|]. split; try done. intros k. simpl. rewrite lookup_insert.
  case_decide as Hk; [subst; rewrite Hb; by constructor|]. destruct (cfg_blocks c !! k); by constructor.
Qed.

(** ** Aliases *)

(** The variables of a binding exist. *)
Definition binding_ok (l : nat) (bind : Binding) : Prop :=
  (bindingWrites bind < l)%nat /\ Forall (fun v => v < l)%nat (instructionReads (bd_value bind)).

Lemma vars_ok_bindings c : vars_ok c <-> forall k bb, cfg_blocks c !! k = Some bb ->
  Forall (binding_ok (length (localVariables c))) (bb_exprs bb) /\ (vu_variable (be_cond (bb_exit bb)) < length (localVariables c))%nat.
Proof.
  unfold vars_ok, binding_ok. split; intros H k bb Hk; destruct (H k bb Hk) as [Hb Hc]; (split; [|done]).
  - apply Forall_forall. intros bind Hin. split; [apply (Hb bind); [done|by left]|]. apply Forall_forall. intros v Hv. apply (Hb bind); [done|by right].
  - intros bind v Hin Hv. rewrite Forall_forall in Hb. destruct (Hb bind Hin) as [Hw Hr]. rewrite Forall_forall in Hr. destruct Hv; [by subst|auto].
Qed.

Section Dealias.
Context (wn : CfgNames) (isSCIPRuby : bool) (c : CFG).

#[local] Abbreviation L := (length (localVariables c)).

Definition alias_ok (a : gmap nat LocalOccurrence) : Prop := forall k o, a !! k = Some o -> (lo_variable o < L)%nat.

Lemma maybeDealias_ok a w : alias_ok a -> (lo_variable w < L)%nat ->
  exists o, maybeDealias wn c a w = Some o /\ (lo_variable o < L)%nat.
Proof.
  intros Ha Hw. unfold maybeDealias, isSyntheticTemporary, localData.
  destruct (lookup_lt_is_Some_2 (localVariables c) (lo_variable w) Hw) as [v ->]. simpl. eexists. split; [done|].
  destruct (isSyntheticTemporaryVar wn v); [|done]. destruct (a !! lo_variable w) as [o|] eqn:E; simpl; [by eapply Ha|done].
Qed.

Lemma dealiasUseSite_ok a u : alias_ok a -> (vu_variable u < L)%nat ->
  exists u', dealiasUseSite wn c a u = Some u' /\ (vu_variable u' < L)%nat.
Proof.
  intros Ha Hu. unfold dealiasUseSite. destruct (maybeDealias_ok a (occurrence u) Ha Hu) as (o & -> & Ho). simpl. eauto.
Qed.

Lemma dealiasArgs_ok a args : alias_ok a -> Forall (fun v => v < L)%nat args.*1 ->
  exists args', mapM (dealiasArg wn isSCIPRuby c a) args = Some args' /\ Forall (fun v => v < L)%nat args'.*1.
Proof.
  intros Ha. induction args as [|[v loc] args IH]; simpl; intros Hf; [by exists []|].
  apply Forall_cons in Hf as [Hv Hf]. destruct (IH Hf) as (args' & -> & Hargs').
  unfold dealiasArg. simpl. destruct (maybeDealias_ok a (mkLocalOccurrence v loc) Ha Hv) as (o & -> & Ho). simpl.
  eexists. split; [done|]. by constructor.
Qed.

Lemma dealiasIdent_ok a i : alias_ok a -> Forall (fun v => v < L)%nat (instructionReads i) ->
  exists i', dealiasIdent wn c a i = Some i' /\ Forall (fun v => v < L)%nat (instructionReads i').
Proof.
  intros Ha Hi. destruct i; simpl in *; eauto. rewrite Forall_singleton in Hi.
  destruct (maybeDealias_ok a (synthetic what) Ha Hi) as (o & -> & Ho). simpl. eexists. split; [done|]. by apply Forall_singleton.
Qed.

Lemma dealiasInstruction_ok a i : alias_ok a -> Forall (fun v => v < L)%nat (instructionReads i) ->
  exists i', dealiasInstruction wn isSCIPRuby c a i = Some i' /\ Forall (fun v => v < L)%nat (instructionReads i').
Proof.
  intros Ha Hi. destruct i; simpl in *; eauto.
  - rewrite Forall_singleton in Hi. destruct (maybeDealias_ok a (synthetic what) Ha Hi) as (o & -> & Ho). simpl. eexists. split; [done|]. by apply Forall_singleton.
  - apply Forall_cons in Hi as [Hr Hargs]. destruct (dealiasUseSite_ok a _ Ha Hr) as (u & -> & Hu). simpl.
    destruct (dealiasArgs_ok a _ Ha Hargs) as (args' & -> & Hargs'). simpl. eexists. split; [done|]. by constructor.
  - rewrite Forall_singleton in Hi. destruct (dealiasUseSite_ok a _ Ha Hi) as (u & -> & Hu). simpl. eexists. split; [done|]. by apply Forall_singleton.
  - rewrite Forall_singleton in Hi. destruct (dealiasUseSite_ok a _ Ha Hi) as (u & -> & Hu). simpl. eexists. split; [done|]. by apply Forall_singleton.
Qed.

#[local] Abbreviation words := ((L + 31) / 32)%nat.

Lemma alias_ok_filter a (P : nat * LocalOccurrence -> Prop) `{forall x, Decision (P x)} : alias_ok a -> alias_ok (filter P a).
Proof. intros Ha k o [Hk _]%map_lookup_filter_Some. by eapply Ha. Qed.

Lemma alias_ok_empty : alias_ok ∅.
Proof. intros k o. by rewrite lookup_empty. Qed.

Definition binding_inv (st : gmap nat LocalOccurrence * UIntSet * list Binding) : Prop :=
  alias_ok st.1.1 /\ (exists X, represents words st.1.2 X) /\ Forall (binding_ok L) st.2.

Lemma dealiasBinding_ok st bind : binding_inv st -> binding_ok L bind ->
  exists st', dealiasBinding wn isSCIPRuby c st bind = Some st' /\ binding_inv st'.
Proof.
  destruct st as [[a may] done]. intros (Ha & [X HX] & Hd) [Hw Hr]. simpl in *. unfold dealiasBinding.
  destruct (dealiasIdent_ok a _ Ha Hr) as (i1 & -> & Hi1). cbn [mbind option_bind].
  rewrite (rep_contains words may X _ HX) by (by apply local_in_words). cbn [mbind option_bind].
  match goal with |- context [if bool_decide ?P then ?f else ?g] => set (a' := if bool_decide P then f else g) end.
  assert (Ha' : alias_ok a') by (subst a'; case_bool_decide; [by apply alias_ok_filter|done]). clearbody a'.
  assert (exists i2, (if bd_synthetic bind then Some i1 else dealiasInstruction wn isSCIPRuby c a' i1) = Some i2 /\
    Forall (fun v => v < L)%nat (instructionReads i2)) as (i2 & -> & Hi2).
  { destruct (bd_synthetic bind); [eauto|by apply dealiasInstruction_ok]. }
  cbn [mbind option_bind]. set (bind' := mkBinding _ _ i2 _).
  assert (Hd' : Forall (binding_ok L) (done ++ [bind'])) by (apply Forall_app_2; [done|]; apply Forall_singleton; by split).
  destruct i2; try (eexists; split; [reflexivity|]; split_and!; [done|by exists X|done]).
  simpl in Hi2. rewrite Forall_singleton in Hi2.
  destruct (rep_add words may X what HX) as (may' & -> & Hmay'); [by apply local_in_words|]. cbn [mbind option_bind].
  eexists. split; [reflexivity|]. split_and!; simpl; [|by eexists|done].
  intros k o. rewrite lookup_insert_Some. intros [[_ <-]|[_ Hk]]; [done|by eapply Ha'].
Qed.

Lemma entryAliases_ok out b bb : wf_cfg c -> cfg_blocks c !! b = Some bb -> length out = maxBasicBlockId c -> Forall alias_ok out ->
  exists a, entryAliases c out bb = Some a /\ alias_ok a.
Proof.
  intros Hwf Hb Hlen Hout. rewrite Forall_lookup in Hout. unfold entryAliases.
  assert (Hget : forall k kb, cfg_blocks c !! k = Some kb -> exists a, out !! bb_id kb = Some a /\ alias_ok a).
  { intros k kb Hk. destruct (wf_id c (wc_graph c Hwf) k kb Hk) as [-> Hlt]. rewrite <- Hlen in Hlt.
    destruct (lookup_lt_is_Some_2 out k Hlt) as [a Ha]. eauto. }
  assert (Hprev : forall p, p ∈ bb_backEdges bb -> is_Some (cfg_blocks c !! p)).
  { intros p Hp. destruct (wc_back c Hwf b bb p Hb Hp) as (pb & Hpb & _). eauto. }
  destruct (bb_backEdges bb) as [|first rest]; [by eapply Hget|].
  destruct (Hprev first) as [fb Hfb]; [set_solver|]. rewrite Hfb. cbn [mbind option_bind].
  destruct (Hget first fb Hfb) as (a & -> & Ha). cbn [mbind option_bind].
  destruct (foldM_inv (fun current parent => parentBlock ← cfg_blocks c !! parent;
      other ← (if (bb_id parentBlock =? bb_id bb)%nat then Some current else out !! bb_id parentBlock); Some (intersectAliases current other))
    (fun _ a => alias_ok a) rest a Ha) as (a' & Hrun & Ha'); [|by exists a'].
  intros done p rest' a1 Hl Ha1. destruct (Hprev p) as [pb Hpb]; [rewrite Hl; set_solver|]. rewrite Hpb. cbn [mbind option_bind].
  assert (exists other, (if (bb_id pb =? bb_id bb)%nat then Some a1 else out !! bb_id pb) = Some other) as (other & ->).
  { destruct (_ =? _)%nat; [eauto|]. destruct (Hget p pb Hpb) as (? & ? & _). eauto. }
  eexists. split; [reflexivity|]. by apply alias_ok_filter.
Qed.
End Dealias.

Section DealiasPass.
Context (wn : CfgNames) (isSCIPRuby : bool).

Lemma dealiasBlock_ok c d out b : wf_cfg c -> vars_ok c -> fitsWords (length (localVariables c)) -> deadBlock c = Some d -> is_Some (cfg_blocks c !! b) ->
  length out = maxBasicBlockId c -> Forall (alias_ok c) out ->
  exists c' out', dealiasBlock wn isSCIPRuby (c, out) b = Some (c', out') /\ same_graph c c' /\ vars_ok c' /\
    minLoops c' = minLoops c /\ maxLoopWrite c' = maxLoopWrite c /\
    length out' = maxBasicBlockId c' /\ Forall (alias_ok c') out'.
Proof.
  intros Hwf Hvars Hfew Hd [bb Hb] Hlen Hout. unfold dealiasBlock. rewrite Hd. cbn [mbind option_bind].
  destruct (b =? d)%nat; [by exists c, out|]. rewrite Hb. cbn [mbind option_bind].
  destruct (entryAliases_ok c out b bb Hwf Hb Hlen Hout) as (a & -> & Ha). cbn [mbind option_bind].
  destruct (proj1 (vars_ok_bindings c) Hvars b bb Hb) as [Hbind Hcond].
  destruct (rep_addItems c (lo_variable <$> (map_to_list a).*2) _ _ (rep_new (length (localVariables c)) Hfew)) as (may & -> & Hmay).
  { intros v (o & -> & ((k & o') & -> & Hk%elem_of_map_to_list)%list_elem_of_fmap)%list_elem_of_fmap. by eapply Ha. }
  cbn [mbind option_bind].
  destruct (foldM_inv (dealiasBinding wn isSCIPRuby c) (fun _ st => binding_inv c st) (bb_exprs bb) (a, may, [])) as (st & -> & Hst).
  { split_and!; simpl; [done|by eexists|done]. }
  { intros done x rest st Hl Hst. apply dealiasBinding_ok; [done|]. rewrite Forall_forall in Hbind. apply Hbind. rewrite Hl. set_solver. }
  destruct st as [[a' may'] exprs]. destruct Hst as (Ha' & _ & Hexprs). simpl in Ha', Hexprs. cbn [mbind option_bind].
  assert (exists e, (if negb (vu_variable (be_cond (bb_exit bb)) =? unconditional)%nat then
              cond ← dealiasUseSite wn c a' (be_cond (bb_exit bb));
              Some (mkBlockExit cond (be_thenb (bb_exit bb)) (be_elseb (bb_exit bb)) (be_loc (bb_exit bb)))
            else Some (bb_exit bb)) = Some e /\ (vu_variable (be_cond e) < length (localVariables c))%nat /\
            be_thenb e = be_thenb (bb_exit bb) /\ be_elseb e = be_elseb (bb_exit bb)) as (e & -> & He & Het & Hee).
  { destruct (negb _); [|eauto]. destruct (dealiasUseSite_ok wn c a' _ Ha' Hcond) as (u & -> & Hu). simpl. eauto. }
  cbn [mbind option_bind].
  destruct (updateBlock_same c b bb (fun bb => set_exit e (set_exprs exprs bb)) Hb) as [-> Hsame]; [by split_and!|]. cbn [mbind option_bind].
  destruct (wf_id c (wc_graph c Hwf) b bb Hb) as [Hid Hlt]. rewrite Hid, (proj2 (Nat.ltb_lt _ _)) by lia.
  eexists _, _. split; [reflexivity|]. split; [done|]. split_and!; try done.
  - apply vars_ok_bindings. intros k kb. simpl. rewrite lookup_insert_Some. intros [[<- <-]|[_ Hk]]; [done|].
    by apply (proj1 (vars_ok_bindings c) Hvars k).
  - by rewrite length_insert.
  - by apply Forall_insert.
Qed.

Lemma alias_ok_locals c c' a : localVariables c' = localVariables c -> alias_ok c a -> alias_ok c' a.
Proof. intros E Ha k o Hk. rewrite E. by eapply Ha. Qed.

Lemma same_graph_dead c c' : same_graph c c' -> deadBlock c' = deadBlock c.
Proof. intros H. unfold deadBlock. by rewrite (sg_listed _ _ H). Qed.

Lemma dealiasPass_ok c d : wf_cfg c -> vars_ok c -> fitsWords (length (localVariables c)) -> deadBlock c = Some d ->
  (forall k, k ∈ forwardsTopoSort c -> is_Some (cfg_blocks c !! k)) ->
  exists c', dealiasPass wn isSCIPRuby c = Some c' /\ same_graph c c' /\ vars_ok c' /\
    minLoops c' = minLoops c /\ maxLoopWrite c' = maxLoopWrite c.
Proof.
  intros Hwf Hvars Hfew Hd Hord. unfold dealiasPass.
  destruct (foldM_inv (dealiasBlock wn isSCIPRuby)
    (fun _ st => same_graph c st.1 /\ vars_ok st.1 /\ minLoops st.1 = minLoops c /\ maxLoopWrite st.1 = maxLoopWrite c /\
       length st.2 = maxBasicBlockId st.1 /\ Forall (alias_ok st.1) st.2)
    (rev (forwardsTopoSort c)) (c, replicate (maxBasicBlockId c) ∅)) as ([c' out] & -> & Hs & Hv & Hmin & Hmax & _).
  - split_and!; simpl; try done; [apply length_replicate|apply Forall_replicate, alias_ok_empty].
  - intros done b rest [c1 out1] Hl (Hs & Hv & Hmin & Hmax & Hlen & Hout). simpl in *.
    destruct (dealiasBlock_ok c1 d out1 b) as (c2 & out2 & Hrun & Hs2 & Hv2 & Hmin2 & Hmax2 & Hlen2 & Hout2); try done.
    + by eapply same_graph_wf.
    + by rewrite (sg_locals _ _ Hs).
    + by rewrite (same_graph_dead _ _ Hs).
    + apply (same_graph_dom _ _ _ Hs), Hord. apply list_elem_of_In, in_rev. rewrite Hl. apply list_elem_of_In. set_solver.
    + exists (c2, out2). split; [done|]. split_and!; simpl; try done; [by etrans|congruence|congruence].
  - exists c'. by split_and!.
Qed.
End DealiasPass.

(** ** Loops *)

Section Loops.
Context (wn : CfgNames) (c : CFG) (Hwf : wf_cfg c) (Hvars : vars_ok c).
Context (RnW : ReadsAndWrites) (Xs : list (gset nat)) (HX : Forall2 (represents ((length (localVariables c) + 31) / 32)) (rw_reads RnW) Xs)
  (HlX : length Xs = maxBasicBlockId c)
  (Hreads : forall k bb v, cfg_blocks c !! k = Some bb -> v ∈ Xs !!! k -> (v < length (localVariables c))%nat).

#[local] Abbreviation L := (length (localVariables c)).

(** Only the tables of loops differ. *)
Definition loops_of (c' : CFG) : Prop :=
  exists mins maxs, c' = set_loops mins maxs c /\ length mins = L /\ length maxs = L.

Lemma lowerMinLoops_ok loops mins items : length mins = L -> (forall v, v ∈ items -> (v < L)%nat) ->
  exists mins', foldM (lowerMinLoops loops) mins items = Some mins' /\ length mins' = L.
Proof.
  intros Hlen Hv. destruct (foldM_inv (lowerMinLoops loops) (fun _ m => length m = L) items mins Hlen) as (m & ? & ?); [|by exists m].
  intros done x rest m Hl Hm. unfold lowerMinLoops.
  destruct (lookup_lt_is_Some_2 m x) as [z ->]; [rewrite Hm; apply Hv; rewrite Hl; set_solver|].
  eexists. split; [reflexivity|]. by rewrite length_insert.
Qed.

Lemma loopsOfWrite_ok loops mins maxs exprs : length mins = L -> length maxs = L -> Forall (binding_ok L) exprs ->
  exists mins' maxs', foldM (loopsOfWrite loops) (mins, maxs) exprs = Some (mins', maxs') /\ length mins' = L /\ length maxs' = L.
Proof.
  intros Hmin Hmax Hb.
  destruct (foldM_inv (loopsOfWrite loops) (fun _ m => length m.1 = L /\ length m.2 = L) exprs (mins, maxs)) as ([m1 m2] & Hrun & H1 & H2); [done| |by exists m1, m2].
  intros done x rest [m1 m2] Hl [H1 H2]. simpl in *. unfold loopsOfWrite. rewrite Forall_forall in Hb.
  destruct (Hb x) as [Hx _]; [rewrite Hl; set_solver|]. unfold bindingWrites in Hx.
  destruct (lookup_lt_is_Some_2 m1 (vu_variable (bd_bind x))) as [z1 ->]; [lia|]. cbn [mbind option_bind].
  destruct (lookup_lt_is_Some_2 m2 (vu_variable (bd_bind x))) as [z2 ->]; [lia|]. cbn [mbind option_bind].
  eexists. split; [reflexivity|]. simpl. by rewrite !length_insert.
Qed.

Lemma computeMinMaxLoops_ok d : deadBlock c = Some d -> length (minLoops c) = L -> length (maxLoopWrite c) = L ->
  exists c', computeMinMaxLoops RnW c = Some c' /\ loops_of c'.
Proof using Hwf Hvars HX HlX Hreads.
  intros Hd Hmin Hmax. unfold computeMinMaxLoops. rewrite Hd. cbn [mbind option_bind].
  destruct (foldM_inv (minLoopsOfReads RnW d) (fun _ c' => loops_of c') (basicBlocks c) c) as (c1 & -> & (mins1 & maxs1 & -> & Hmin1 & Hmax1)).
  - exists (minLoops c), (maxLoopWrite c). split_and!; try done. by destruct c.
  - intros done b rest c1 Hl (mins & maxs & -> & H1 & H2). unfold minLoopsOfReads. destruct (b =? d)%nat; [eexists; split; [done|]; by exists mins, maxs|].
    assert (is_Some (cfg_blocks c !! b)) as [bb Hb] by (apply (wc_listed c Hwf); rewrite Hl; set_solver).
    simpl. rewrite Hb. cbn [mbind option_bind]. destruct (wf_id c (wc_graph c Hwf) b bb Hb) as [-> Hlt].
    destruct (rep_at c (rw_reads RnW) Xs b HX ltac:(lia)) as (set & -> & Hset). cbn [mbind option_bind].
    destruct (lowerMinLoops_ok (bb_outerLoops bb) mins (uis_forEach set) H1) as (mins' & -> & Hmins').
    { intros v Hv. destruct (rep_forEach _ _ _ Hset) as (_ & Hels & _). apply Hels in Hv. by eapply Hreads. }
    eexists. split; [reflexivity|]. by exists mins', maxs.
  - cbn [mbind option_bind].
    destruct (foldM_inv (minMaxLoopsOfWrites d) (fun _ c' => loops_of c') (basicBlocks c) (set_loops mins1 maxs1 c)) as (c2 & Hrun & Hc2).
    + by exists mins1, maxs1.
    + intros done b rest c1 Hl (mins & maxs & -> & H1 & H2). unfold minMaxLoopsOfWrites. destruct (b =? d)%nat; [eexists; split; [done|]; by exists mins, maxs|].
      assert (is_Some (cfg_blocks c !! b)) as [bb Hb] by (apply (wc_listed c Hwf); rewrite Hl; set_solver).
      simpl. rewrite Hb. cbn [mbind option_bind]. destruct (proj1 (vars_ok_bindings c) Hvars b bb Hb) as [Hbind _].
      destruct (loopsOfWrite_ok (bb_outerLoops bb) mins maxs (bb_exprs bb) H1 H2 Hbind) as (mins' & maxs' & -> & ? & ?). cbn [mbind option_bind].
      eexists. split; [reflexivity|]. by exists mins', maxs'.
    + exists c2. split; [done|done].
Qed.
End Loops.

(** ** Dead assignments *)

Section DeadAssigns.
Context (wn : CfgNames) (c : CFG) (Hwf : wf_cfg c) (Hvars : vars_ok c).
Context (RnW : ReadsAndWrites) (Xs : list (gset nat)) (HX : Forall2 (represents ((length (localVariables c) + 31) / 32)) (rw_reads RnW) Xs)
  (HlX : length Xs = maxBasicBlockId c).
Context (blockArgs : list UIntSet) (A : nat -> gset nat).
Hypothesis Hargs : forall k, is_Some (cfg_blocks c !! k) ->
  exists set, blockArgs !! k = Some set /\ represents ((length (localVariables c) + 31) / 32) set (A k).

#[local] Abbreviation L := (length (localVariables c)).

Definition notArgumentOf (o : option nat) (v : nat) : bool := match o with Some t => bool_decide (v ∉ A t) | None => true end.

(** A pure assignment to a variable that is neither read in the block nor an argument of a successor *)
Definition deadAssign (b : nat) (bb : BasicBlock) (bind : Binding) : bool :=
  let v := bindingWrites bind in
  negb (default false (isAliasForGlobal wn c v)) && bool_decide (v ∉ Xs !!! b) &&
  notArgumentOf (be_thenb (bb_exit bb)) v && notArgumentOf (be_elseb (bb_exit bb)) v && isPure (bd_value bind).

Definition withoutDead (b : nat) (bb : BasicBlock) : BasicBlock :=
  set_exprs (filter (fun bind => deadAssign b bb bind = false) (bb_exprs bb)) bb.

(** The graph while the pass runs: the blocks in [done] are treated. *)
Definition treated (done : list nat) (c' : CFG) : Prop :=
  exists m, c' = set_blocks m c /\ forall k, m !! k = (fun bb => if decide (k ∈ done) then withoutDead k bb else bb) <$> cfg_blocks c !! k.

Lemma treated_id done c' k bb : treated done c' -> cfg_blocks c !! k = Some bb -> exists bb', cfg_blocks c' !! k = Some bb' /\ bb_id bb' = k.
Proof using Hwf.
  intros (m & -> & Hm) Hk. simpl. rewrite Hm, Hk. simpl. eexists. split; [done|].
  destruct (wf_id c (wc_graph c Hwf) k bb Hk) as [Hid _]. by destruct (decide _).
Qed.

Lemma containsAt_args k v : is_Some (cfg_blocks c !! k) -> (v < L)%nat -> containsAt blockArgs k v = Some (bool_decide (v ∈ A k)).
Proof using Hargs.
  intros Hk Hv. unfold containsAt. destruct (Hargs k Hk) as (set & -> & Hset). cbn [mbind option_bind].
  by rewrite (rep_contains _ _ _ v Hset) by (by apply local_in_words).
Qed.

Lemma isDeadAssign_ok done c' b bb bind : treated done c' -> cfg_blocks c !! b = Some bb -> bind ∈ bb_exprs bb ->
  isDeadAssign wn RnW blockArgs c' bb bind = Some (deadAssign b bb bind).
Proof using Hwf Hvars HX HlX Hargs.
  intros Ht Hb Hin. destruct (proj1 (vars_ok_bindings c) Hvars b bb Hb) as [Hbind _]. rewrite Forall_forall in Hbind.
  destruct (Hbind bind Hin) as [Hv _]. destruct (wf_id c (wc_graph c Hwf) b bb Hb) as [Hid Hlt].
  destruct (wf_exit c (wc_graph c Hwf) b bb Hb) as (t & e & Et & Ee & [tb Htb] & [eb Heb]).
  destruct (treated_id done c' t tb Ht Htb) as (tb' & Htb' & Htid). destruct (treated_id done c' e eb Ht Heb) as (eb' & Heb' & Heid).
  unfold isDeadAssign, deadAssign. fold (bindingWrites bind). set (v := bindingWrites bind) in *.
  assert (isAliasForGlobal wn c' v = isAliasForGlobal wn c v) as -> by (destruct Ht as (m & -> & _); done).
  unfold isAliasForGlobal, localData. destruct (lookup_lt_is_Some_2 (localVariables c) v Hv) as [lv ->]. cbn.
  destruct (isAliasForGlobalVar wn lv); [done|]. cbn [negb andb].
  assert (containsAt (rw_reads RnW) (bb_id bb) v = Some (bool_decide (v ∈ Xs !!! b))) as ->.
  { unfold containsAt. rewrite Hid. destruct (rep_at c _ Xs b HX ltac:(lia)) as (set & -> & Hset). cbn [mbind option_bind].
    by rewrite (rep_contains _ _ _ v Hset) by (by apply local_in_words). }
  cbn [mbind option_bind]. rewrite Et, Ee. cbn [mbind option_bind notArgumentOf]. rewrite Htb', Heb'. cbn [mbind option_bind].
  rewrite Htid, Heid, !containsAt_args by eauto. cbn [mbind option_bind].
  repeat case_bool_decide; cbn; try done; tauto.
Qed.

Lemma removeDeadAssignsIn_ok done b c' : treated done c' -> b ∉ done -> is_Some (cfg_blocks c !! b) ->
  exists c'', removeDeadAssignsIn wn RnW blockArgs c' b = Some c'' /\ treated (done ++ [b]) c''.
Proof using Hwf Hvars HX HlX Hargs.
  intros Ht Hnew [bb Hb]. pose proof Ht as (m & -> & Hm). unfold removeDeadAssignsIn. cbn [cfg_blocks set_blocks].
  pose proof (Hm b) as Hmb. rewrite Hb in Hmb. simpl in Hmb. rewrite decide_False in Hmb by done. rewrite Hmb. cbn [mbind option_bind].
  assert (foldM (fun kept bind => isDead ← isDeadAssign wn RnW blockArgs (set_blocks m c) bb bind; Some (if (isDead : bool) then kept else kept ++ [bind])) [] (bb_exprs bb)
    = Some (filter (fun bind => deadAssign b bb bind = false) (bb_exprs bb))) as ->.
  { destruct (foldM_inv (fun kept bind => isDead ← isDeadAssign wn RnW blockArgs (set_blocks m c) bb bind; Some (if (isDead : bool) then kept else kept ++ [bind]))
      (fun done kept => kept = filter (fun bind => deadAssign b bb bind = false) done) (bb_exprs bb) []) as (r & Hr & ->); [done| |exact Hr].
    intros done' x rest kept Hl ->. rewrite (isDeadAssign_ok done _ b bb x Ht Hb) by (rewrite Hl; set_solver). cbn [mbind option_bind].
    eexists. split; [reflexivity|]. rewrite filter_app, filter_cons, filter_nil. destruct (deadAssign b bb x) eqn:E.
    - by rewrite decide_False, app_nil_r by done.
    - by rewrite decide_True by done. }
  cbn [mbind option_bind]. unfold updateBlock. cbn [cfg_blocks set_blocks]. rewrite Hmb. cbn [mbind option_bind].
  eexists. split; [reflexivity|]. eexists. split; [reflexivity|]. intros k. rewrite lookup_insert. case_decide as Hk.
  - subst k. rewrite Hb. simpl. by rewrite decide_True by set_solver.
  - rewrite Hm. destruct (cfg_blocks c !! k); [|done]. simpl. f_equal.
    destruct (decide (k ∈ done)); [rewrite decide_True by set_solver|rewrite decide_False by set_solver]; done.
Qed.

Lemma removeDeadAssigns_ok : exists m, removeDeadAssigns wn true RnW blockArgs c = Some (set_blocks m c) /\
  forall k, m !! k = withoutDead k <$> cfg_blocks c !! k.
Proof using Hwf Hvars HX HlX Hargs.
  unfold removeDeadAssigns. cbn [negb].
  destruct (foldM_inv (removeDeadAssignsIn wn RnW blockArgs) treated (basicBlocks c) c) as (c' & -> & (m & -> & Hm)).
  - exists (cfg_blocks c). split; [by rewrite set_blocks_id|]. intros k. destruct (cfg_blocks c !! k); [|done]. cbn [fmap option_fmap option_map].
    destruct (decide _) as [Hin|]; [by apply elem_of_nil in Hin|done].
  - intros done b rest c' Hl Ht. apply removeDeadAssignsIn_ok; [done| |].
    + pose proof (wc_nodup c Hwf) as Hnd. rewrite Hl in Hnd. apply NoDup_app in Hnd as (_ & Hd & _). intros Hin. apply (Hd b Hin). set_solver.
    + apply (wc_listed c Hwf). rewrite Hl. set_solver.
  - exists m. split; [done|]. intros k. rewrite Hm. destruct (cfg_blocks c !! k) eqn:E; [|done]. simpl.
    rewrite decide_True; [done|]. apply (wc_listed c Hwf). eauto.
Qed.
End DeadAssigns.

(** ** All passes *)

(** What the passes make of the complete graph [c] *)
Record finished (c c' : CFG) : Prop := mk_finished {
  fi_wf : wf_cfg c';
  fi_vars : vars_ok c';
  fi_entry : entry c' = Some 0%nat;
  fi_blocks : forall k, is_Some (cfg_blocks c' !! k) <-> reachable c 0%nat k;
  fi_order : NoDup (forwardsTopoSort c') /\ forall k, k ∈ forwardsTopoSort c' <-> reachable c 0%nat k;
  fi_edges : forall u v, is_Some (cfg_blocks c' !! u) -> succ c' u v <-> succ c u v;
  fi_second : exists d, deadBlock c' = Some d }.

Section Finish.
Context (wn : CfgNames) (isSCIPRuby lspQueryIsEmpty : bool).

(** The order of the blocks and the removal of the unreachable ones *)
Lemma sorted_finished c : complete c -> exists c', fillInTopoSorts c = Some c' /\ finished c c' /\ localVariables c' = localVariables c /\
  length (minLoops c') = length (localVariables c') /\ length (maxLoopWrite c') = length (localVariables c').
Proof.
  intros [Hwf Hvars He Hno Hd _ [Hmin Hmax]].
  destruct (fillInTopoSorts_pruned c 0%nat Hwf He) as (c' & ids & Hrun & Hres & Hpr). exists c'. split; [done|].
  destruct (pr_tables _ _ _ Hpr) as (El & Em & Ex).
  assert (H0 : 0%nat ∈ forwardsTopoSort c') by (apply (tr_reachable _ _ _ _ Hres); constructor).
  split; [|rewrite El, Em, Ex; by split]. split.
  - by eapply pruned_wf.
  - intros k b' Hk. destruct (pr_block _ _ _ Hpr k b' Hk) as (b & es & Hb & -> & _). rewrite El. by apply (Hvars k b).
  - unfold entry. rewrite (pr_listed _ _ _ Hpr). by apply entry_kept.
  - intros k. rewrite (pr_dom _ _ _ Hpr). apply Hres.
  - split; apply Hres.
  - intros u v [b' Hu]. destruct (pr_block _ _ _ Hpr u b' Hu) as (b & es & Hb & -> & _).
    unfold succ. rewrite Hu, Hb. split; intros (bb & [= <-] & ?); eauto.
  - assert (exists t, succ c 0%nat t) as [t Ht].
    { destruct (wc_listed c Hwf 0%nat) as [[b Hb] _]; [by eapply list_elem_of_lookup_2|].
      destruct (wf_exit c (wc_graph c Hwf) 0%nat b Hb) as (t & e & Et & _). exists t, b. auto. }
    assert (Htin : t ∈ forwardsTopoSort c') by (apply (tr_reachable _ _ _ _ Hres); by apply rtc_once).
    assert (Htl : t ∈ basicBlocks c').
    { rewrite (pr_listed _ _ _ Hpr). apply list_elem_of_filter. split; [done|]. apply (wc_listed c Hwf).
      destruct Ht as (b & Hb & Ht'). destruct (wf_exit c (wc_graph c Hwf) 0%nat b Hb) as (t1 & e1 & ? & ? & ? & ?). destruct Ht'; simplify_eq; done. }
    assert (t <> 0%nat) by (intros ->; by apply (Hno 0%nat)).
    assert (Hent : basicBlocks c' !! 0%nat = Some 0%nat) by (rewrite (pr_listed _ _ _ Hpr); by apply entry_kept).
    unfold deadBlock. destruct (basicBlocks c') as [|a [|b l]]; simplify_eq/=; [|eauto].
    apply list_elem_of_singleton in Htl. done.
Qed.

Lemma same_graph_finished c c1 c2 : same_graph c1 c2 -> vars_ok c2 -> finished c c1 -> finished c c2.
Proof.
  intros Hs Hv [Hwf _ He Hb Ho Hed [d Hd]]. split.
  - by eapply same_graph_wf.
  - done.
  - unfold entry. by rewrite (sg_listed _ _ Hs).
  - intros k. by rewrite (same_graph_dom _ _ _ Hs).
  - by rewrite (sg_order _ _ Hs).
  - intros u v Hu. rewrite (same_graph_succ _ _ _ _ Hs). apply Hed. by apply (same_graph_dom _ _ _ Hs).
  - exists d. by rewrite (same_graph_dead _ _ Hs).
Qed.

Lemma same_graph_loops c mins maxs : same_graph c (set_loops mins maxs c).
Proof. split; try done. Qed.

Lemma same_graph_blocks c m : (forall k, option_Forall2 (fun b' b => same_shape b b' /\ bb_exit b' = bb_exit b /\
    forall bind, bind ∈ bb_exprs b' -> bind ∈ bb_exprs b) (m !! k) (cfg_blocks c !! k)) ->
  vars_ok c -> same_graph c (set_blocks m c) /\ vars_ok (set_blocks m c).
Proof.
  intros Hm Hv. split.
  - split; try done. intros k. simpl. destruct (Hm k) as [b' b (? & _)|]; by constructor.
  - intros k b' Hk. simpl in Hk. specialize (Hm k). rewrite Hk in Hm. inversion Hm as [b1 b (_ & He & Hb) Hb1 Hbk|]; subst b1.
    symmetry in Hbk. destruct (Hv k b Hbk) as [Hbind Hcond]. rewrite He. split; [|done]. intros bind v Hin. apply Hbind, Hb, Hin.
Qed.

Lemma finishGraph_run c : complete c -> fitsWords (length (localVariables c)) ->
  exists c', finishGraph wn isSCIPRuby lspQueryIsEmpty c = Some c' /\ finished c c'.
Proof.
  intros Hc Hfew. destruct (sorted_finished c Hc) as (c1 & Hrun1 & Hf1 & El1 & Hmin1 & Hmax1). rewrite <- El1 in Hfew.
  destruct (fi_second _ _ Hf1) as [d Hd]. unfold finishGraph. rewrite Hrun1. cbn [mbind option_bind].
  destruct (dealiasPass_ok wn isSCIPRuby c1 d (fi_wf _ _ Hf1) (fi_vars _ _ Hf1) Hfew Hd) as (c2 & -> & Hs2 & Hv2 & Em2 & Ex2).
  { intros k Hk. by apply (fi_blocks _ _ Hf1), (fi_order _ _ Hf1). }
  cbn [mbind option_bind]. pose proof (same_graph_finished _ _ _ Hs2 Hv2 Hf1) as Hf2. clear Hf1 Hrun1.
  rewrite <- (sg_locals _ _ Hs2) in Hfew.
  destruct (findAllReadsAndWrites_analysed wn c2 (fi_wf _ _ Hf2) (fi_vars _ _ Hf2) Hfew) as (RnW & Xs & Ws & Zs & -> & HX & HW & HZ & HlX & HlW & HlZ & Han).
  cbn [mbind option_bind].
  assert (Hd2 : deadBlock c2 = Some d) by (by rewrite (same_graph_dead _ _ Hs2)).
  assert (El2 : length (localVariables c2) = length (localVariables c1)) by (by rewrite (sg_locals _ _ Hs2)).
  destruct (computeMinMaxLoops_ok c2 (fi_wf _ _ Hf2) (fi_vars _ _ Hf2) RnW Xs HX HlX) with (d := d) as (c3 & -> & (mins & maxs & -> & Hmins & Hmaxs)).
  { intros k bb v Hk Hv%(an_reads _ _ _ _ _ _ _ (Han k bb Hk)). eapply reads_local; [apply (fi_vars _ _ Hf2)|exact Hk|by left]. }
  { done. }
  { congruence. }
  { congruence. }
  cbn [mbind option_bind]. pose proof (same_graph_finished _ _ _ (same_graph_loops c2 mins maxs) (fi_vars _ _ Hf2) Hf2) as Hf3.
  set (c3 := set_loops mins maxs c2) in *.
  assert (ready : args_ready c3 RnW Xs Ws Zs).
  { split; try done; [apply (fi_wf _ _ Hf3)| |].
    - intros k. rewrite (fi_blocks _ _ Hf3). apply (fi_order _ _ Hf3).
    - intros u v [bb Hb] Hv. apply lookup_lt_is_Some. simpl. rewrite Hmins.
      eapply (analysed_local wn c2 u bb); [apply (fi_vars _ _ Hf2)|done|by apply Han|done]. }
  assert (Hd3 : deadBlock c3 = Some d) by done.
  destruct (fillInBlockArguments_run c3 RnW Xs Ws Zs d ready (ar_order _ _ _ _ _ ready) Hd3) as (m & blockArgs & -> & Hm). cbn [mbind option_bind].
  destruct (same_graph_blocks c3 m) as [Hs4 Hv4]; [|apply (fi_vars _ _ Hf3)|].
  { intros k. destruct (Hm k) as [b' b [(set & vs & _ & _ & -> & _) _]|]; constructor. split_and!; try done. }
  pose proof (same_graph_finished _ _ _ Hs4 Hv4 Hf3) as Hf4. destruct lspQueryIsEmpty; [|by exists (set_blocks m c3)].
  destruct (removeDeadAssigns_ok wn (set_blocks m c3) (fi_wf _ _ Hf4) Hv4 RnW Xs HX HlX blockArgs
    (fun k => match blockArgs !! k with Some set => list_to_set (uis_forEach set) | None => ∅ end)) as (m' & -> & Hm').
  { intros k [b' Hk]. simpl in Hk. specialize (Hm k). rewrite Hk in Hm. inversion Hm as [? ? [_ (set & A & HL & Hrep)]|].
    exists set. rewrite HL. split; [done|]. destruct (rep_forEach _ _ _ Hrep) as (_ & Hels & _).
    assert (A = list_to_set (uis_forEach set)) as <-; [|done]. apply leibniz_equiv. intros v. by rewrite elem_of_list_to_set, Hels. }
  destruct (same_graph_blocks (set_blocks m c3) m') as [Hs5 Hv5]; [|done|].
  { intros k. rewrite Hm'. destruct (cfg_blocks (set_blocks m c3) !! k); constructor. split_and!; try done.
    intros bind. simpl. rewrite list_elem_of_filter. tauto. }
  exists (set_blocks m' (set_blocks m c3)). split; [done|]. exact (same_graph_finished _ _ _ Hs5 Hv5 Hf4).
Qed.
End Finish.

(** ** Methods and classes *)

Lemma buildFor_run wn gs file fileRef owner reportUndeclared isSCIPRuby fuel symbol tree :
  names_ok wn -> fixed_names wn ->
  forall r, r = buildForMethod wn gs file fileRef owner reportUndeclared isSCIPRuby fuel tree \/
            r = buildForClass wn gs file fileRef owner reportUndeclared isSCIPRuby fuel tree symbol ->
  match r with
  | inl s => s <> BadGraph /\ (fits fuel tree -> s <> OutOfFuel)
  | inr (_, st) => complete (bs_cfg st)
  end.
Proof.
  intros Hn Hf r [->| ->].
  - unfold buildForMethod. destruct tree; try done. destruct (dealias _ _); [|done].
    apply (buildGraph_complete _ _ _ _ _ _ _ _ Hn Hf (fits fuel _)); [|done|]; intros Hfit.
    + apply Forall_forall. intros e He. eapply fits_sub; [exact Hfit|]. simpl. set_solver.
    + eapply fits_sub; [exact Hfit|]. simpl. set_solver.
  - unfold buildForClass. destruct tree; try done.
    apply (buildGraph_complete _ _ _ _ _ _ _ _ Hn Hf (fits fuel _)); intros Hfit.
    + apply Forall_singleton. by eapply fits_leaf.
    + apply Forall_forall. intros e He. eapply fits_sub; [exact Hfit|]. simpl. set_solver.
    + by eapply fits_leaf.
Qed.

(** C23: whatever the tree and the symbol table, the builder never uses a block, an edge or a table entry
    that does not exist and never sets an exit twice; it runs out of fuel only on trees deeper than
    the fuel. The graph it returns is complete: every block has an exit, every exit but that of the dead block has
    exactly one back edge to it, [sanityCheck] holds, all variables exist and nothing jumps to the entry. *)
Theorem buildFor_complete wn gs file fileRef owner reportUndeclared isSCIPRuby fuel symbol tree :
  names_ok wn -> fixed_names wn ->
  forall r, r = buildForMethod wn gs file fileRef owner reportUndeclared isSCIPRuby fuel tree \/
            r = buildForClass wn gs file fileRef owner reportUndeclared isSCIPRuby fuel tree symbol ->
  match r with
  | inl s => s <> BadGraph /\ (fits fuel tree -> s <> OutOfFuel)
  | inr (_, st) => complete (bs_cfg st)
  end.
Proof. apply buildFor_run. Qed.

(** C24: the finishing passes succeed on every complete graph whose variables are at most 2^32 - 32, so that the bit
    sets over them can be built: no pass runs out of fuel, uses an erased block or an index
    outside its tables. The result is well-formed, its blocks are the ones reachable from the entry, each of which is once in the order, with the
    edges they had, and all its variables exist. *)
Theorem finishGraph_total wn isSCIPRuby lspQueryIsEmpty c : complete c -> fitsWords (length (localVariables c)) ->
  exists c', finishGraph wn isSCIPRuby lspQueryIsEmpty c = Some c' /\ finished c c'.
Proof. apply finishGraph_run. Qed.

(** ** Examples *)

Section Examples.
(** A method with the parameters [z] and a block, and no flags *)
Definition exampleMethod : Method :=
  mkMethod (noLoc 0) 1 5 0 (mkMethodFlags false false false false false false false false false false false false) None
    [mkParamInfo 1001 0 (noLoc 0) noFlags NullType; mkParamInfo 149 0 (noLoc 0) (mkParamFlags false false false false true) NullType] NullType 0 [].

Definition exampleState : Symbolic :=
  mkSymbolic (mkSymbolTable [Symbols.sampleClass; Symbols.sampleClass] [sampleMethod; exampleMethod] [] [] []) (emptyTable 1 1 1)
    (mkWellKnown 0 0 0 0 0 0).

Definition var (name : Z) : Expr := Local noOffsets name 0.

Definition call (f : Z) (args : list Expr) : Expr :=
  Send noOffsets f noOffsets (mkSendFlags true false false) (Z.of_nat (length args)) (Self noOffsets) args.

(** [name = 1; baz(name)] *)
Definition assignAndUse (name : Z) : Expr :=
  InsSeq noOffsets [Assign noOffsets (var name) (Literal noOffsets (IntegerLiteralType 1))] (call 5001 [var name]).

Definition methodOf (body : Expr) : Expr :=
  MethodDef noOffsets noOffsets noOffsets 1 body [var 1001; BlockParam noOffsets (var 149)] 5
    (mkMethodDefFlags false false false false false false).

(** [while bar; baz(z); if qux then f = 1; baz(f) else f = 1; baz(f) end; d = 1; baz(d); end] *)
Definition loopMethod : Expr :=
  methodOf (While noOffsets (call 3001 [])
    (InsSeq noOffsets [call 5001 [var 1001]; If noOffsets (call 6001 []) (assignAndUse 4001) (assignAndUse 4001);
                       Assign noOffsets (var 2001) (Literal noOffsets (IntegerLiteralType 1))] (call 5001 [var 2001]))).

(** [while (next; true); end] *)
Definition endlessMethod : Expr :=
  methodOf (While noOffsets (InsSeq noOffsets [Next noOffsets EmptyTree] (Literal noOffsets (ClassType 13))) EmptyTree).

Definition buildExample (tree : Expr) : Stop + (unit * BuilderState) :=
  buildForMethod sampleNames exampleState sampleFile 1 (makeSymbolRef KMethod 1) true false 10 tree.

Definition finishExample (tree : Expr) : option CFG :=
  match buildExample tree with inr (_, st) => finishGraph sampleNames false true (bs_cfg st) | inl _ => None end.

Lemma sampleNames_ok : names_ok sampleNames /\ fixed_names sampleNames.
Proof.
  split.
  - unfold names_ok, condname. cbn. repeat constructor; lia.
  - unfold fixed_names. apply (bool_decide_unpack _). vm_compute. done.
Qed.
End Examples.

Lemma buildFor_complete_witness : exists st, buildExample loopMethod = inr (tt, st) /\ complete (bs_cfg st).
Proof.
  destruct sampleNames_ok as [Hn Hf].
  assert (H : match buildExample loopMethod with inl s => s <> BadGraph /\ (fits 10 loopMethod -> s <> OutOfFuel) | inr (_, st) => complete (bs_cfg st) end)
    by exact (buildFor_complete sampleNames exampleState sampleFile 1 (makeSymbolRef KMethod 1) true false 10 0 loopMethod Hn Hf _ (or_introl eq_refl)).
  destruct (buildExample loopMethod) as [s|[[] st]] eqn:E; [vm_compute in E; discriminate|]. exists st. split; [reflexivity|exact H].
Defined.

Lemma buildExample_complete tree u st : buildExample tree = inr (u, st) -> complete (bs_cfg st).
Proof.
  destruct sampleNames_ok as [Hn Hf]. intros E.
  pose proof (buildFor_run sampleNames exampleState sampleFile 1 (makeSymbolRef KMethod 1) true false 10 0 tree Hn Hf (buildExample tree) (or_introl eq_refl)) as H.
  rewrite E in H. exact H.
Qed.

Lemma finishGraph_total_witness : exists st c', buildExample loopMethod = inr (tt, st) /\
  finishGraph sampleNames false true (bs_cfg st) = Some c' /\ finished (bs_cfg st) c'.
Proof.
  destruct (buildExample loopMethod) as [s|[[] st]] eqn:E; [vm_compute in E; discriminate|].
  assert (Hfew : fitsWords (length (localVariables (bs_cfg st)))) by (vm_compute in E; injection E as <-; by vm_compute).
  destruct (finishGraph_total sampleNames false true (bs_cfg st) (buildExample_complete _ _ _ E) Hfew) as (c' & H1 & H2). clear E Hfew. exists st, c'. split; [reflexivity|]. split; [exact H1|exact H2].
Defined.

Lemma finishExample_inv tree c' : finishExample tree = Some c' ->
  exists st, buildExample tree = inr (tt, st) /\ finishGraph sampleNames false true (bs_cfg st) = Some c'.
Proof. unfold finishExample. destruct (buildExample tree) as [s|[[] st]]; [done|]. intros H. by exists st. Qed.

(** The variables that are arguments of a block, and those that its bindings write *)
Definition argumentsOf (c : CFG) (k : nat) : list nat := from_option (fun bb => vu_variable <$> bb_args bb) [] (cfg_blocks c !! k).

Definition writesOf (c : CFG) (k : nat) : list nat := from_option (fun bb => bindingWrites <$> bb_exprs bb) [] (cfg_blocks c !! k).

Definition targetsOf (c : CFG) (k : nat) : option nat * option nat :=
  from_option (fun bb => (be_thenb (bb_exit bb), be_elseb (bb_exit bb))) (None, None) (cfg_blocks c !! k).

(** The loops of [fillInBlockArguments] stop when no set has changed its size, although its members may have: in the
    graph of [loopMethod], variable 6, the parameter [z], is an argument of the loop header 2, and block 8 jumps back to
    the header and does not write it, but it is not an argument of block 8. *)
Theorem blockArguments_incomplete : exists c', finishExample loopMethod = Some c' /\
  6%nat ∈ argumentsOf c' 2 /\ targetsOf c' 8 = (Some 2%nat, Some 2%nat) /\ 6%nat ∉ writesOf c' 8 /\ 6%nat ∉ argumentsOf c' 8.
Proof.
  assert (H : (fun c => (bool_decide (6%nat ∈ argumentsOf c 2), targetsOf c 8, bool_decide (6%nat ∉ writesOf c 8), bool_decide (6%nat ∉ argumentsOf c 8)))
    <$> (finishExample loopMethod) = Some (true, (Some 2%nat, Some 2%nat), true, true)) by (vm_compute; reflexivity).
  apply fmap_Some in H as (c' & E & H). exists c'. split; [exact E|]. clear E. injection H as H1 H2 H3 H4.
  split_and!; [by apply (bool_decide_eq_true_1 _)|done|by apply (bool_decide_eq_true_1 _)..].
Qed.

(** The dead block of a method without a way out is removed as unreachable, and [deadBlock], the second block of the
    graph, is then the header of the loop: the graph of [endlessMethod] ends up with block 2 there. *)
Theorem deadBlock_erased : exists st c', buildExample endlessMethod = inr (tt, st) /\ deadBlock (bs_cfg st) = Some dead /\
  finishGraph sampleNames false true (bs_cfg st) = Some c' /\ deadBlock c' = Some 2%nat /\ cfg_blocks c' !! dead = None /\
  targetsOf c' 2 = (Some 2%nat, Some 2%nat).
Proof.
  assert (H : (fun c => (deadBlock c, cfg_blocks c !! dead, targetsOf c 2)) <$> (finishExample endlessMethod) = Some (Some 2%nat, None, (Some 2%nat, Some 2%nat)))
    by (vm_compute; reflexivity).
  apply fmap_Some in H as (c' & H1 & H). destruct (finishExample_inv _ _ H1) as (st & E & F). exists st, c'.
  split; [exact E|]. split; [exact (cp_dead _ (buildExample_complete _ _ _ E))|]. split; [exact F|]. clear E F H1. injection H as H1 H2 H3.
  split_and!; congruence.
Qed.
