(* ===== verification/NameCache.v ===== *)
(** * The cache of the name table

    Models how the names of a run are kept for the next one: [GlobalState::wasNameTableModified],
    [markNameTableAsCached] (src/core/GlobalState.cc), the entry points of [Serializer] for the UUID,
    the diffs and the metadata (src/core/serialize/serialize.cc), [retainGlobalState] and
    [kvstoreChangedSinceGsCreation] (src/main/cache/cache.cc) and the part of
    [createInitialGlobalState] (src/payload/payload.cc) that loads the names. The key-value store is
    a finite map; its transactions make each of these calls one step. LZ4 and XXH32 are parameters. *)

From S2P Require Import Prelude Pickler FileHash Files NameTable NameTableSer.
From stdpp Require Import pretty.

#[local] Open Scope Z_scope.
#[local] Open Scope pickle_scope.

(** ** State *)

Record GlobalState := mkGlobalState {
  names : NameTable; utf8NamesWritten : Z; constantNamesWritten : Z; uniqueNamesWritten : Z;
  nameTableDiffCount : Z; kvstoreUuid : Z; hadCriticalError : bool }.

Abbreviation KeyValueStore := (gmap str (list Z)).

Definition set_names (nt : NameTable) (gs : GlobalState) : GlobalState :=
  mkGlobalState nt (utf8NamesWritten gs) (constantNamesWritten gs) (uniqueNamesWritten gs)
    (nameTableDiffCount gs) (kvstoreUuid gs) (hadCriticalError gs).

Definition set_kvstoreUuid (uuid : Z) (gs : GlobalState) : GlobalState :=
  mkGlobalState (names gs) (utf8NamesWritten gs) (constantNamesWritten gs) (uniqueNamesWritten gs)
    (nameTableDiffCount gs) uuid (hadCriticalError gs).

Definition setNameTableDiffCount (count : Z) (gs : GlobalState) : GlobalState :=
  mkGlobalState (names gs) (utf8NamesWritten gs) (constantNamesWritten gs) (uniqueNamesWritten gs)
    count (kvstoreUuid gs) (hadCriticalError gs).

Definition incrementNameTableDiffCount (gs : GlobalState) : GlobalState :=
  setNameTableDiffCount (u32 (nameTableDiffCount gs + 1)) gs.

Definition wasNameTableModified (gs : GlobalState) : bool :=
  (utf8NamesWritten gs <? vsize (utf8Names (names gs))) ||
  (constantNamesWritten gs <? vsize (constantNames (names gs))) ||
  (uniqueNamesWritten gs <? vsize (uniqueNames (names gs))).

Definition markNameTableAsCached (gs : GlobalState) : GlobalState :=
  mkGlobalState (names gs) (u32 (vsize (utf8Names (names gs)))) (u32 (vsize (constantNames (names gs))))
    (u32 (vsize (uniqueNames (names gs)))) (nameTableDiffCount gs) (kvstoreUuid gs)
    (hadCriticalError gs).

(** ** Entries of the store *)

Definition VERSION : Z := 7.

Definition NAME_TABLE_UUID_KEY : str := s! "NameTableUUID".

Definition NAME_TABLE_DIFF_COUNT_AND_HASH_SIZE_KEY : str := s! "NameTableDiffCountAndHashSize".

Definition nameTableDiffKey (index : Z) : str :=
  s! "NameTableDiff:" ++ String.list_ascii_of_string (pretty (Z.to_N index)).

(** [if (p.getU4() != Serializer::VERSION) Exception::raise(...)] *)
Definition checkVersion : unp unit := v ← getU4; if v =? VERSION then mret tt else unp_fail.

Section Cache.
Context (compress : list Z -> Z -> list Z) (decompress : list Z -> Z -> option (list Z)).
Context (compressBound : Z -> Z) (xxh32 : str -> Z).

Definition pickleUUID (uuid : Z) (p : Pickler) : Pickler := p |> putU4 VERSION |> putU4 uuid.

Definition storeUUID (gs : GlobalState) : option (list Z) :=
  serialize compress compressBound (lift (pickleUUID (kvstoreUuid gs))).

Definition unpickleGSUUID : unp Z := checkVersion ;; getU4.

Definition loadGlobalStateUUID (data : list Z) : option Z := deserialize decompress unpickleGSUUID data.

Definition pickleStoredDiff (a b c : Z) (nt : NameTable) (p : Pickler) : Pickler :=
  p |> putU4 VERSION |> pickleNameTableDiff xxh32 a b c nt.

Definition storeNameTableDiff (gs : GlobalState) : option (list Z) :=
  serialize compress compressBound
    (lift (pickleStoredDiff (utf8NamesWritten gs) (constantNamesWritten gs) (uniqueNamesWritten gs)
             (names gs))).

Definition unpickleStoredDiff (nt : NameTable) : unp NameTable := checkVersion ;; unpickleNameTableDiff nt.

Definition loadAndAppendNameTableDiff (nt : NameTable) (data : list Z) : option NameTable :=
  deserialize decompress (unpickleStoredDiff nt) data.

Definition pickleCounts (count : Z) (nt : NameTable) (p : Pickler) : Pickler :=
  p |> putU4 VERSION |> putU4 count |> putU4 (u32 (vsize (namesByHash nt)))
    |> putU4 (u32 (vsize (utf8Names nt))) |> putU4 (u32 (vsize (constantNames nt)))
    |> putU4 (u32 (vsize (uniqueNames nt))).

Definition storeNameTableDiffCountAndHashSize (count : Z) (gs : GlobalState) : option (list Z) :=
  serialize compress compressBound (lift (pickleCounts count (names gs))).

(** [clear] keeps the capacities of the vectors. *)
Definition unpickleCounts (nt : NameTable) : unp (Z * NameTable) :=
  checkVersion ;;
  diffCount ← getU4; namesByHashSize ← getU4; utf8NamesSize ← getU4; constantNamesSize ← getU4;
  uniqueNamesSize ← getU4;
  mret (diffCount,
        reserveNames (nextPowerOfTwo utf8NamesSize) (nextPowerOfTwo constantNamesSize)
          (nextPowerOfTwo uniqueNamesSize)
          (mkNameTable [] [] [] (utf8Capacity nt) (constantCapacity nt) (uniqueCapacity nt)
             (replicate (Z.to_nat namesByHashSize) emptyBucket))).

Definition loadNameTableDiffCountAndResizeNamesHash (nt : NameTable) (data : list Z)
    : option (Z * NameTable) :=
  deserialize decompress (unpickleCounts nt) data.

(** ** Loading, [createInitialGlobalState] *)

Fixpoint appendDiffs (kvstore : KeyValueStore) (n : nat) (i : Z) (nt : NameTable) : option NameTable :=
  match n with
  | O => Some nt
  | S n =>
      data ← kvstore !! nameTableDiffKey i;
      nt ← loadAndAppendNameTableDiff nt data;
      appendDiffs kvstore n (i + 1) nt
  end.

Definition loadCachedNames (gs : GlobalState) (kvstore : KeyValueStore) : option GlobalState :=
  match kvstore !! NAME_TABLE_UUID_KEY, kvstore !! NAME_TABLE_DIFF_COUNT_AND_HASH_SIZE_KEY with
  | Some uuidBytes, Some countBytes =>
      '(diffCount, nt) ← loadNameTableDiffCountAndResizeNamesHash (names gs) countBytes;
      uuid ← loadGlobalStateUUID uuidBytes;
      nt ← appendDiffs kvstore (Z.to_nat diffCount) 0 nt;
      Some (markNameTableAsCached
              (setNameTableDiffCount diffCount (set_kvstoreUuid uuid (set_names nt gs))))
  | _, _ => Some gs
  end.

(** ** Storing, [retainGlobalState] *)

Definition kvstoreChangedSinceGsCreation (gs : GlobalState) (kvstore : KeyValueStore) : option bool :=
  match kvstore !! NAME_TABLE_UUID_KEY with
  | Some uuidBytes =>
      uuid ← loadGlobalStateUUID uuidBytes; Some (negb (kvstoreUuid gs =? uuid))
  | None => Some (negb (kvstoreUuid gs =? 0))
  end.

(** [uuid] is what [Random::uniformU4()] returns. The result: whether the store now has the names of
    this state, the state, and the store. *)
Definition retainGlobalState (uuid : Z) (gs : GlobalState) (kvstore : KeyValueStore)
    : option (bool * GlobalState * KeyValueStore) :=
  if hadCriticalError gs then Some (false, gs, kvstore)
  else
    changed ← kvstoreChangedSinceGsCreation gs kvstore;
    if (changed : bool) then Some (false, gs, kvstore)
    else if wasNameTableModified gs then
      let gs := set_kvstoreUuid uuid gs in
      data ← storeUUID gs;
      let kvstore := <[NAME_TABLE_UUID_KEY := data]> kvstore in
      data ← storeNameTableDiff gs;
      let kvstore := <[nameTableDiffKey (nameTableDiffCount gs) := data]> kvstore in
      let gs := incrementNameTableDiffCount gs in
      data ← storeNameTableDiffCountAndHashSize (nameTableDiffCount gs) gs;
      let kvstore := <[NAME_TABLE_DIFF_COUNT_AND_HASH_SIZE_KEY := data]> kvstore in
      Some (true, markNameTableAsCached gs, kvstore)
    else Some (true, gs, kvstore).
End Cache.

(** ** Keys *)

Lemma list_ascii_of_string_inj s t : String.list_ascii_of_string s = String.list_ascii_of_string t -> s = t.
Proof.
  intros H. rewrite <- (String.string_of_list_ascii_of_string s), H.
  apply String.string_of_list_ascii_of_string.
Qed.

Lemma nameTableDiffKey_inj i j : 0 <= i -> 0 <= j -> nameTableDiffKey i = nameTableDiffKey j -> i = j.
Proof.
  unfold nameTableDiffKey. intros Hi Hj H. apply app_inv_head in H.
  apply list_ascii_of_string_inj in H. apply (inj pretty) in H. lia.
Qed.

Lemma nameTableDiffKey_uuid i : nameTableDiffKey i <> NAME_TABLE_UUID_KEY.
Proof. done. Qed.

Lemma nameTableDiffKey_counts i : nameTableDiffKey i <> NAME_TABLE_DIFF_COUNT_AND_HASH_SIZE_KEY.
Proof. done. Qed.

(** ** Names that were there stay *)

Definition names_prefix (nt nt' : NameTable) : Prop :=
  utf8Names nt `prefix_of` utf8Names nt' /\ constantNames nt `prefix_of` constantNames nt' /\
  uniqueNames nt `prefix_of` uniqueNames nt'.

#[export] Instance names_prefix_preorder : PreOrder names_prefix.
Proof.
  split; [by intros ? | intros x y z (H1 & H2 & H3) (K1 & K2 & K3)].
  split; [by etrans |]. split; by etrans.
Qed.

Definition names_total (nt : NameTable) : Z :=
  vsize (utf8Names nt) + vsize (constantNames nt) + vsize (uniqueNames nt).

Lemma vsize_prefix {A} (l k : list A) : l `prefix_of` k -> vsize l <= vsize k.
Proof. intros H. apply prefix_length in H. unfold vsize. lia. Qed.

Lemma names_prefix_total nt nt' : names_prefix nt nt' -> names_total nt <= names_total nt'.
Proof.
  intros (?%vsize_prefix & ?%vsize_prefix & ?%vsize_prefix). unfold names_total. lia.
Qed.

Lemma prefix_same_length {A} (l k : list A) : l `prefix_of` k -> vsize k <= vsize l -> k = l.
Proof.
  intros [m ->]. unfold vsize. rewrite length_app. destruct m; [by rewrite app_nil_r | cbn; lia].
Qed.

Lemma same_names_prefix nt nt' : same_names nt nt' -> names_prefix nt nt'.
Proof. intros (E1 & E2 & E3). unfold names_prefix. by rewrite E1, E2, E3. Qed.

Lemma vec_ok_prefix {A} (ok : A -> Prop) l k : l `prefix_of` k -> vec_ok ok k -> vec_ok ok l.
Proof.
  intros [m ->] [Hs Hf]. apply Forall_app in Hf as [Hl _]. split; [| done].
  unfold is_size in *. rewrite length_app in Hs. lia.
Qed.

Lemma names_ok_prefix nt nt' : names_prefix nt nt' -> names_ok nt' -> names_ok nt.
Proof. intros (H1 & H2 & H3) [K1 K2 K3]. split; by eapply vec_ok_prefix. Qed.

Lemma names_fit_prefix nt nt' n : names_prefix nt nt' -> names_fit nt' n -> names_fit nt n.
Proof.
  intros (?%vsize_prefix & ?%vsize_prefix & ?%vsize_prefix). unfold names_fit. lia.
Qed.

Lemma names_ok_same nt nt' : same_names nt nt' -> names_ok nt -> names_ok nt'.
Proof. intros (E1 & E2 & E3) [K1 K2 K3]. split; congruence. Qed.

Definition pow2 (c : Z) : Prop := exists j, 0 <= j /\ c = 2 ^ j.

Lemma nextPowerOfTwo_pow2 n c : 0 <= n <= c -> pow2 c -> c < 2 ^ 31 ->
  nextPowerOfTwo n <= c /\ pow2 (nextPowerOfTwo n) /\ n <= nextPowerOfTwo n /\ 1 <= nextPowerOfTwo n.
Proof.
  intros Hn (j & Hj & ->) Hc. destruct (nextPowerOfTwo_spec n) as (i & Hi & -> & Hle & Hmin); [lia |].
  assert (0 < 2 ^ i) by (apply Z.pow_pos_nonneg; lia).
  split; [apply Z.pow_le_mono_r; [lia | apply Hmin; lia] |]. split; [exists i; lia | lia].
Qed.

Lemma pow2_max a b : pow2 a -> pow2 b -> pow2 (Z.max a b).
Proof. intros. by destruct (Z.max_spec a b) as [[_ ->] | [_ ->]]. Qed.

Lemma pow2_double c : pow2 c -> pow2 (c * 2).
Proof. intros (j & Hj & ->). exists (j + 1). rewrite Z.pow_add_r by lia. lia. Qed.

(** ** Processes

    All processes run the same binary: the vectors of a fresh state have the capacities the
    constructor and the payload leave, which are powers of two. *)

Definition NameData_ok (d : NameData) : Prop :=
  match d with
  | NUtf8 s => is_size (length s)
  | NConstant o => is_u32 o
  | NUnique u => UniqueName_ok u
  end.

Section Processes.
Context (compress : list Z -> Z -> list Z) (decompress : list Z -> Z -> option (list Z)).
Context (compressBound : Z -> Z) (xxh32 : str -> Z) (baseU baseC baseQ : Z).

(** The names of a process at any time. *)
Record table_ok (nt : NameTable) : Prop := {
  tok_wf : NameTable_wf xxh32 nt;
  tok_names : names_ok nt;
  tok_some : 0 < vsize (utf8Names nt);
  tok_utf8 : pow2 (utf8Capacity nt) /\ baseU <= utf8Capacity nt;
  tok_constant : pow2 (constantCapacity nt) /\ baseC <= constantCapacity nt;
  tok_unique : pow2 (uniqueCapacity nt) /\ baseQ <= uniqueCapacity nt;
}.

(** A process before it has looked at the store. *)
Record fresh (gs : GlobalState) : Prop := {
  fr_table : table_ok (names gs);
  fr_caps : utf8Capacity (names gs) = baseU /\ constantCapacity (names gs) = baseC /\
            uniqueCapacity (names gs) = baseQ;
  fr_written : utf8NamesWritten gs = 0 /\ constantNamesWritten gs = 0 /\ uniqueNamesWritten gs = 0;
  fr_count : nameTableDiffCount gs = 0;
  fr_uuid : kvstoreUuid gs = 0;
}.

(** The processes that share a store, and the store. *)
Definition System : Type := list GlobalState * KeyValueStore.

(** A random number no process holds. *)
Definition unused_uuid (uuid : Z) (procs : list GlobalState) : Prop :=
  is_u32 uuid /\ uuid <> 0 /\ forall gs, gs ∈ procs -> kvstoreUuid gs <> uuid.

Inductive step : System -> System -> Prop :=
| step_start procs kv gs0 gs :
    fresh gs0 -> loadCachedNames decompress gs0 kv = Some gs ->
    step (procs, kv) (gs :: procs, kv)
| step_enter procs kv i gs d raw nt :
    procs !! i = Some gs -> NameData_ok d -> capacities (names gs) <= 2 ^ 29 ->
    enterName xxh32 (names gs) d = Some (raw, nt) ->
    step (procs, kv) (<[i := set_names nt gs]> procs, kv)
| step_retain procs kv i gs uuid b gs' kv' :
    procs !! i = Some gs -> unused_uuid uuid procs ->
    retainGlobalState compress decompress compressBound xxh32 uuid gs kv = Some (b, gs', kv') ->
    step (procs, kv) (<[i := gs']> procs, kv').

Definition reachable (s : System) : Prop := rtc step ([], ∅) s.

(** ** Entering names *)

Lemma expandNames_names nt a b c nt' :
  expandNames nt a b c = Some nt' ->
  utf8Names nt' = utf8Names nt /\ constantNames nt' = constantNames nt /\ uniqueNames nt' = uniqueNames nt /\
  utf8Capacity nt' = Z.max (utf8Capacity nt) a /\ constantCapacity nt' = Z.max (constantCapacity nt) b /\
  uniqueCapacity nt' = Z.max (uniqueCapacity nt) c.
Proof. unfold expandNames. destruct (expandBuckets _ _ _ _); cbn; [| done]. by intros [= <-]. Qed.

(** A capacity is kept or doubled. *)
Definition grown (c c' : Z) : Prop := c' = c \/ c' = Z.max c (u32 (c * 2)).

Lemma enterName_grows nt d raw nt' :
  enterName xxh32 nt d = Some (raw, nt') ->
  names_prefix nt nt' /\ (NameData_ok d -> Forall NameData_ok (NUtf8 <$> utf8Names nt) ->
    Forall NameData_ok (NConstant <$> constantNames nt) -> Forall NameData_ok (NUnique <$> uniqueNames nt) ->
    Forall NameData_ok (NUtf8 <$> utf8Names nt') /\ Forall NameData_ok (NConstant <$> constantNames nt') /\
    Forall NameData_ok (NUnique <$> uniqueNames nt')) /\
  grown (utf8Capacity nt) (utf8Capacity nt') /\ grown (constantCapacity nt) (constantCapacity nt') /\
  grown (uniqueCapacity nt) (uniqueCapacity nt').
Proof.
  unfold grown.
  destruct d as [s | o | [o n k]]; cbn [enterName un_kind un_original un_num];
    unfold enterNameUTF8, enterNameConstant, freshNameUnique;
    (destruct (lookupBucket _ _ _); cbn; [| done]); (destruct (_ !! _); cbn; [| done]);
    (destruct (present _); [intros [= <- <-]; split; [reflexivity |]; split; [done |]; auto |]);
    (destruct (_ =? _) eqn:?; cbn;
     [destruct (expandNames _ _ _ _) as [nt1 |] eqn:E; cbn; [| done];
      apply expandNames_names in E as (E1 & E2 & E3 & E4 & E5 & E6);
      destruct (lookupBucket _ _ _); cbn; [| done] |]);
    intros [= <- <-]; cbn; unfold names_prefix; cbn; rewrite ?E1, ?E2, ?E3, ?E4, ?E5, ?E6;
    (split; [repeat split; (done || by eexists) |]);
    (split; [intros; rewrite ?fmap_app, ?Forall_app; cbn; rewrite ?Forall_singleton; auto |]);
    rewrite ?Z.max_id; auto.
Qed.

Lemma names_ok_data nt :
  NameTable_wf xxh32 nt ->
  (names_ok nt <->
   Forall NameData_ok (NUtf8 <$> utf8Names nt) /\ Forall NameData_ok (NConstant <$> constantNames nt) /\
   Forall NameData_ok (NUnique <$> uniqueNames nt)).
Proof.
  intros Hwf. destruct (index_bound xxh32 nt Hwf) as (H1 & H2 & H3 & _). unfold vsize in *.
  rewrite !Forall_fmap. split.
  - intros [[_ ?] [_ ?] [_ ?]]. done.
  - intros (? & ? & ?). split; split; (done || unfold is_size; lia).
Qed.

Lemma grown_ok c c' base : pow2 c /\ base <= c -> 0 <= c <= 2 ^ 29 -> grown c c' -> pow2 c' /\ base <= c'.
Proof.
  intros [Hp Hb] Hc [-> | ->]; [done |]. rewrite u32_id by (unfold is_u32; lia).
  split; [by apply pow2_max; [| apply pow2_double] | lia].
Qed.

Lemma table_ok_enter nt d raw nt' :
  table_ok nt -> NameData_ok d -> capacities nt <= 2 ^ 29 -> enterName xxh32 nt d = Some (raw, nt') ->
  table_ok nt' /\ names_prefix nt nt'.
Proof.
  intros [Hwf Hok Hsome HU HC HQ] Hd Hcap He.
  destruct (enter_spec xxh32 nt d Hwf Hcap) as (raw1 & nt1 & He1 & (Hwf' & _)). simplify_eq.
  destruct (enterName_grows nt d raw nt' He) as (Hpre & Hdata & G1 & G2 & G3).
  pose proof Hwf as [_ _ [? ?] [? ?] [? ?] _]. unfold capacities in Hcap.
  split; [| done]. split; [done | | | | |].
  - apply names_ok_data; [done |]. apply names_ok_data in Hok as (? & ? & ?); [| done]. auto.
  - destruct Hpre as (?%vsize_prefix & _). lia.
  - eapply grown_ok; [exact HU | lia | done].
  - eapply grown_ok; [exact HC | lia | done].
  - eapply grown_ok; [exact HQ | lia | done].
Qed.

(** ** The contents of the store *)

Abbreviation ser := (serialize compress compressBound).

(** The diffs [0 .. n-1] of the store build up the names of [nt]. *)
Inductive chain (kv : KeyValueStore) : nat -> NameTable -> Prop :=
| chain_nil nt : names_total nt = 0 -> chain kv 0 nt
| chain_snoc n nt0 nt data :
    chain kv n nt0 -> names_prefix nt0 nt -> names_total nt0 < names_total nt ->
    kv !! nameTableDiffKey (Z.of_nat n) = Some data ->
    ser (lift (pickleStoredDiff xxh32 (vsize (utf8Names nt0)) (vsize (constantNames nt0))
                 (vsize (uniqueNames nt0)) nt)) = Some data ->
    chain kv (S n) nt.

(** The store has the names [nt] of the process that last wrote it, under [uuid]. *)
Record Stored (kv : KeyValueStore) (uuid count : Z) (nt : NameTable) : Prop := {
  st_uuid : exists data, kv !! NAME_TABLE_UUID_KEY = Some data /\ ser (lift (pickleUUID uuid)) = Some data;
  st_counts : exists data, kv !! NAME_TABLE_DIFF_COUNT_AND_HASH_SIZE_KEY = Some data /\
    ser (lift (pickleCounts count nt)) = Some data;
  st_chain : chain kv (Z.to_nat count) nt;
  st_table : table_ok nt;
  st_ids : is_u32 uuid /\ uuid <> 0 /\ 0 <= count;
}.

Lemma chain_length kv n nt : chain kv n nt -> Z.of_nat n <= names_total nt.
Proof. induction 1; lia. Qed.

(** Writes to other keys do not matter. *)
Lemma chain_frame kv kv' n nt :
  (forall i, 0 <= i < Z.of_nat n -> kv' !! nameTableDiffKey i = kv !! nameTableDiffKey i) ->
  chain kv n nt -> chain kv' n nt.
Proof.
  intros Hk H. induction H as [nt H | n nt0 nt data _ IH Hp Ht Hd Hs]; [by apply chain_nil |].
  eapply chain_snoc; [| done | done | | done]; [apply IH; intros; apply Hk; lia |].
  rewrite Hk by lia. done.
Qed.

Lemma chain_names kv n nt nt' : same_names nt nt' -> chain kv n nt -> chain kv n nt'.
Proof.
  intros Hs H. pose proof Hs as (E1 & E2 & E3).
  assert (Et : names_total nt' = names_total nt) by (unfold names_total; by rewrite E1, E2, E3).
  destruct H as [nt H | n nt0 nt data Hc Hp Ht Hd Hser]; [apply chain_nil; lia |].
  eapply chain_snoc; [done | | lia | done |].
  - etrans; [exact Hp | by apply same_names_prefix].
  - rewrite <- Hser. unfold pickleStoredDiff, pickleNameTableDiff. by rewrite E1, E2, E3.
Qed.

Lemma table_bounds nt :
  table_ok nt -> names_fit nt (vsize (namesByHash nt)) /\
    vsize (namesByHash nt) <= 2 ^ 31 /\ capacities nt <= 2 ^ 30.
Proof.
  intros [Hwf _ _ _ _ _]. pose proof Hwf as [[(k & Hk & Hsz) _ _ _ _] _ [? ?] [? ?] [? ?] Hroom].
  destruct (index_bound xxh32 nt Hwf) as (_ & _ & _ & Hfit). pose proof (length_entries xxh32 nt).
  assert (2 ^ k <= 2 ^ 31) by (apply Z.pow_le_mono_r; lia).
  unfold names_fit, capacities, vsize in *. lia.
Qed.

(** ** Reading what was written *)

Context (Hcompress : lz4_compresses compress compressBound).
Context (Hrestore : lz4_restores compress decompress).
Context (Hlimits : lz4_limits compress compressBound).
Context (Hxxh : forall s, is_u32 (xxh32 s)).
Context (HbaseU : pow2 baseU) (HbaseC : pow2 baseC) (HbaseQ : pow2 baseQ).

Lemma decodes_version w : decodes checkVersion w (putU4 VERSION w) tt.
Proof.
  unfold checkVersion.
  eapply (decodes_bind _ _ _ (putU4 VERSION w)); [apply decodes_putU4; unfold is_u32, VERSION; lia |].
  apply decodes_ret.
Qed.

Lemma stored_reads {A} (put : Pickler -> Pickler) (get : unp A) data x :
  decodes get emptyPickler (put emptyPickler) x -> ser (lift put) = Some data ->
  deserialize decompress get data = Some x.
Proof.
  intros Hd Hs.
  exact (container_decodes _ _ _ Hcompress Hrestore (lift put) get _ data x Hlimits eq_refl Hd Hs).
Qed.

Lemma load_uuid uuid data :
  is_u32 uuid -> ser (lift (pickleUUID uuid)) = Some data ->
  loadGlobalStateUUID decompress data = Some uuid.
Proof.
  intros Hu. apply stored_reads. unfold unpickleGSUUID, pickleUUID.
  eapply decodes_bind; [apply decodes_version | by apply decodes_putU4].
Qed.

(** The empty table that loading starts from. *)
Definition resized (base nt : NameTable) : NameTable :=
  reserveNames (nextPowerOfTwo (vsize (utf8Names nt))) (nextPowerOfTwo (vsize (constantNames nt)))
    (nextPowerOfTwo (vsize (uniqueNames nt)))
    (mkNameTable [] [] [] (utf8Capacity base) (constantCapacity base) (uniqueCapacity base)
       (replicate (length (namesByHash nt)) emptyBucket)).

Lemma load_counts count nt base data :
  is_u32 count -> table_ok nt -> ser (lift (pickleCounts count nt)) = Some data ->
  loadNameTableDiffCountAndResizeNamesHash decompress base data = Some (count, resized base nt).
Proof.
  intros Hc Hok. destruct (table_bounds nt Hok) as (Ht & Hh & _). unfold names_fit in Ht.
  apply stored_reads. unfold unpickleCounts, pickleCounts.
  assert (forall A (l : list A), 0 <= vsize l) as Hpos by (intros; unfold vsize; lia).
  pose proof (Hpos _ (utf8Names nt)). pose proof (Hpos _ (constantNames nt)).
  pose proof (Hpos _ (uniqueNames nt)). pose proof (Hpos _ (namesByHash nt)).
  rewrite !u32_id by (unfold is_u32; lia).
  eapply (decodes_bind _ _ _ (putU4 VERSION emptyPickler)); [apply decodes_version |].
  assert (is_u32 (vsize (utf8Names nt)) /\ is_u32 (vsize (constantNames nt)) /\
          is_u32 (vsize (uniqueNames nt)) /\ is_u32 (vsize (namesByHash nt))) as (? & ? & ? & ?)
    by (unfold is_u32; lia).
  pickle. unfold resized. replace (Z.to_nat (vsize (namesByHash nt))) with (length (namesByHash nt))
    by (unfold vsize; lia). apply decodes_ret.
Qed.

Lemma load_diff nt0 nt t data :
  TableInv (namesByHash t) (entries xxh32 t) -> same_names nt0 t -> names_prefix nt0 nt -> names_ok nt ->
  names_fit nt (vsize (namesByHash t)) ->
  ser (lift (pickleStoredDiff xxh32 (vsize (utf8Names nt0)) (vsize (constantNames nt0))
               (vsize (uniqueNames nt0)) nt)) = Some data ->
  exists t', loadAndAppendNameTableDiff decompress t data = Some t' /\ same_names nt t' /\
    TableInv (namesByHash t') (entries xxh32 t') /\ same_shape t t'.
Proof.
  intros Hinv (E1 & E2 & E3) ([du Hu] & [dc Hc] & [dq Hq]) Hok Hroom.
  rewrite <- E1 in Hu. rewrite <- E2 in Hc. rewrite <- E3 in Hq.
  destruct (load_name_table_diff xxh32 Hxxh t du dc dq nt (putU4 VERSION emptyPickler) Hinv Hu Hc Hq Hok Hroom)
    as (t' & Hd & Hs & Hinv' & Hshape).
  intros Hser. exists t'. split; [| done]. rewrite E1, E2, E3 in Hd.
  eapply stored_reads; [| exact Hser]. unfold unpickleStoredDiff, pickleStoredDiff.
  eapply decodes_bind; [apply decodes_version | exact Hd].
Qed.

Lemma appendDiffs_snoc kv n i t :
  appendDiffs decompress kv (S n) i t =
    (t ← appendDiffs decompress kv n i t;
     data ← kv !! nameTableDiffKey (i + Z.of_nat n); loadAndAppendNameTableDiff decompress t data).
Proof.
  revert i t. induction n as [| n IH]; intros i t.
  - cbn. rewrite Z.add_0_r. destruct (kv !! _); cbn; [| done].
    by destruct (loadAndAppendNameTableDiff _ _ _).
  - change (appendDiffs decompress kv (S (S n)) i t) with
      (data ← kv !! nameTableDiffKey i; t ← loadAndAppendNameTableDiff decompress t data;
       appendDiffs decompress kv (S n) (i + 1) t).
    cbn [appendDiffs]. destruct (kv !! nameTableDiffKey i) as [data |]; cbn; [| done].
    destruct (loadAndAppendNameTableDiff decompress t data) as [t1 |]; cbn; [| done].
    specialize (IH (i + 1) t1). cbn in IH. rewrite IH.
    by replace (i + 1 + Z.of_nat n) with (i + Z.of_nat (S n)) by lia.
Qed.

Lemma load_chain kv n nt t0 :
  chain kv n nt -> names_ok nt -> TableInv (namesByHash t0) (entries xxh32 t0) -> names_total t0 = 0 ->
  names_fit nt (vsize (namesByHash t0)) ->
  exists t, appendDiffs decompress kv n 0 t0 = Some t /\ same_names nt t /\
    TableInv (namesByHash t) (entries xxh32 t) /\ same_shape t0 t.
Proof.
  intros Hc Hok Hinv H0. induction Hc as [nt Hnil | n nt0 nt data Hc IH Hp Ht Hd Hser]; intros Hroom.
  - exists t0. split; [done |]. split; [| done]. unfold names_total, vsize, same_names in *.
    split; [| split];
      (etrans; [apply nil_length_inv; lia | symmetry; apply nil_length_inv; lia]).
  - destruct IH as (t & Ha & Hs & Hinv' & Hshape); [by eapply names_ok_prefix | by eapply names_fit_prefix |].
    destruct (load_diff nt0 nt t data) as (t' & Hl & Hs' & Hinv'' & Hshape'); try done.
    { destruct Hshape as (_ & _ & _ & Hlen). unfold vsize. by rewrite Hlen. }
    exists t'. rewrite appendDiffs_snoc, Ha, Z.add_0_l. cbn [mbind option_bind]. rewrite Hd. cbn [mbind option_bind]. split; [done |].
    split; [done |]. split; [done |]. destruct Hshape as (? & ? & ? & ?), Hshape' as (? & ? & ? & ?).
    unfold same_shape. split_and!; congruence.
Qed.

Lemma capacity_reloaded base c n :
  pow2 base -> pow2 c /\ base <= c -> 0 <= n <= c -> c < 2 ^ 31 ->
  let c' := Z.max base (nextPowerOfTwo n) in n <= c' /\ 1 <= c' /\ c' <= c /\ pow2 c' /\ base <= c'.
Proof.
  intros Hb [Hc Hle] Hn Hlt c'. destruct (nextPowerOfTwo_pow2 n c Hn Hc Hlt) as (? & ? & ? & ?).
  assert (pow2 c') by by apply pow2_max. unfold c' in *. split_and!; (done || lia).
Qed.

(** The table that was loaded is as good as the one that was stored. *)
Lemma table_ok_loaded base nt t :
  table_ok nt -> utf8Capacity base = baseU -> constantCapacity base = baseC ->
  uniqueCapacity base = baseQ -> same_names nt t -> TableInv (namesByHash t) (entries xxh32 t) ->
  same_shape (resized base nt) t -> table_ok t.
Proof.
  intros Hok B1 B2 B3 Hs Hinv (S1 & S2 & S3 & S4). destruct (table_bounds nt Hok) as (_ & _ & Hcaps).
  pose proof Hok as [[_ Hnd [Hu Hu1] [Hc Hc1] [Hq Hq1] Hroom] Hnames Hsome HU HC HQ].
  unfold resized in S1, S2, S3, S4. cbn in S1, S2, S3, S4. rewrite length_replicate in S4.
  rewrite B1 in S1. rewrite B2 in S2. rewrite B3 in S3. unfold capacities in *.
  assert (forall A (l : list A), 0 <= vsize l) as Hpos by (intros; unfold vsize; lia).
  destruct (capacity_reloaded baseU (utf8Capacity nt) (vsize (utf8Names nt)))
    as (U1 & U2 & U3 & U4 & U5); [done | done | auto | lia |].
  destruct (capacity_reloaded baseC (constantCapacity nt) (vsize (constantNames nt)))
    as (V1 & V2 & V3 & V4 & V5); [done | done | auto | lia |].
  destruct (capacity_reloaded baseQ (uniqueCapacity nt) (vsize (uniqueNames nt)))
    as (W1 & W2 & W3 & W4 & W5); [done | done | auto | lia |].
  pose proof Hs as (E1 & E2 & E3).
  split; [split | | | | |]; rewrite ?S1, ?S2, ?S3, ?E1, ?E2, ?E3; try done.
  - rewrite (same_names_all _ _ Hs). done.
  - unfold capacities. rewrite S1, S2, S3, S4. lia.
  - by eapply names_ok_same.
Qed.

(** What a process knows after loading. *)
Definition loaded (uuid count : Z) (nt : NameTable) (gs : GlobalState) : Prop :=
  kvstoreUuid gs = uuid /\ nameTableDiffCount gs = count /\ same_names nt (names gs) /\
  utf8NamesWritten gs = vsize (utf8Names nt) /\ constantNamesWritten gs = vsize (constantNames nt) /\
  uniqueNamesWritten gs = vsize (uniqueNames nt).

Lemma marked_loaded gs :
  table_ok (names gs) ->
  loaded (kvstoreUuid gs) (nameTableDiffCount gs) (names gs) (markNameTableAsCached gs).
Proof.
  intros Hok. destruct (table_bounds _ Hok) as ((? & ? & ? & _) & _). unfold loaded. cbn.
  rewrite !u32_id by (unfold is_u32; unfold vsize in *; lia). done.
Qed.

Lemma load_stored kv uuid count nt gs0 :
  Stored kv uuid count nt -> fresh gs0 ->
  exists gs, loadCachedNames decompress gs0 kv = Some gs /\ loaded uuid count nt gs /\ table_ok (names gs).
Proof.
  intros [(du & Ku & Su) (dc & Kc & Sc) Hchain Hok (Hu & Hne & Hpos)] [_ (B1 & B2 & B3) _ _ _].
  destruct (table_bounds nt Hok) as (Hfit & Hh & _). pose proof (chain_length _ _ _ Hchain) as Hlen.
  assert (Hc32 : is_u32 count) by (unfold is_u32, names_fit, names_total in *; lia).
  assert (Hinv0 : TableInv (namesByHash (resized (names gs0) nt)) (entries xxh32 (resized (names gs0) nt))).
  { destruct (inv_size _ _ (nt_table _ _ (tok_wf _ Hok))) as (k & Hk & Hsz). unfold resized. cbn.
    replace (length (namesByHash nt)) with (Z.to_nat (2 ^ k)) by lia. by apply TableInv_empty. }
  destruct (load_chain kv _ nt (resized (names gs0) nt) Hchain (tok_names _ Hok) Hinv0)
    as (t & Ha & Hs & Hinv & Hshape).
  { done. }
  { unfold resized, vsize. cbn. by rewrite length_replicate. }
  assert (Ht : table_ok t) by by eapply table_ok_loaded.
  unfold loadCachedNames. rewrite Ku, Kc. rewrite (load_counts count nt (names gs0) dc Hc32 Hok Sc).
  cbn [mbind option_bind]. rewrite (load_uuid uuid du Hu Su). cbn [mbind option_bind]. rewrite Ha.
  cbn [mbind option_bind]. eexists. split; [done |]. split; [| exact Ht].
  set (gs := setNameTableDiffCount _ _). pose proof (marked_loaded gs Ht) as (M1 & M2 & M3 & M4 & M5 & M6).
  unfold loaded. rewrite M1, M2, M4, M5, M6. pose proof Hs as (E1 & E2 & E3).
  unfold gs. cbn. rewrite E1, E2, E3. done.
Qed.

(** ** Writing *)

Lemma retain_writes kv n nt0 gs uuid b gs' kv' :
  chain kv (Z.to_nat n) nt0 -> 0 <= n -> nameTableDiffCount gs = n ->
  utf8NamesWritten gs = vsize (utf8Names nt0) -> constantNamesWritten gs = vsize (constantNames nt0) ->
  uniqueNamesWritten gs = vsize (uniqueNames nt0) -> names_prefix nt0 (names gs) ->
  table_ok (names gs) -> is_u32 uuid -> uuid <> 0 -> wasNameTableModified gs = true ->
  hadCriticalError gs = false -> kvstoreChangedSinceGsCreation decompress gs kv = Some false ->
  retainGlobalState compress decompress compressBound xxh32 uuid gs kv = Some (b, gs', kv') ->
  b = true /\ Stored kv' uuid (n + 1) (names gs) /\ loaded uuid (n + 1) (names gs) gs' /\
  names gs' = names gs.
Proof.
  intros Hchain Hn Hcount W1 W2 W3 Hpre Hok Hu Hne Hmod Hcrit Hchg. unfold retainGlobalState.
  rewrite Hcrit, Hchg. cbn [mbind option_bind]. rewrite Hmod.
  destruct (storeUUID _ _ _) as [du |] eqn:Eu; [| done]. cbn [mbind option_bind].
  destruct (storeNameTableDiff _ _ _ _) as [dd |] eqn:Ed; [| done]. cbn [mbind option_bind].
  destruct (storeNameTableDiffCountAndHashSize _ _ _ _) as [dc |] eqn:Ec; [| done].
  cbn [mbind option_bind]. intros [= <- <- <-]. split; [done |].
  assert (Hless : names_total nt0 < names_total (names gs)).
  { pose proof Hpre as (?%vsize_prefix & ?%vsize_prefix & ?%vsize_prefix).
    unfold wasNameTableModified in Hmod. rewrite W1, W2, W3, !orb_true_iff, !Z.ltb_lt in Hmod.
    unfold names_total. lia. }
  pose proof (chain_length _ _ _ Hchain) as Hlen. destruct (table_bounds _ Hok) as (Hfit & Hh & _).
  assert (Hcnt : u32 (n + 1) = n + 1)
    by (apply u32_id; unfold is_u32, names_fit, names_total in *; lia).
  unfold incrementNameTableDiffCount in *. cbn in Eu, Ed, Ec. rewrite Hcount, Hcnt in Ec.
  cbn [nameTableDiffCount set_kvstoreUuid]. rewrite Hcount, Hcnt.
  split; [| split; [| done]].
  - split; [| | | done | by split_and!; try lia].
    + exists du. split; [| exact Eu]. rewrite lookup_insert_ne by done.
      rewrite lookup_insert_ne by done. by rewrite lookup_insert_eq.
    + exists dc. split; [by rewrite lookup_insert_eq | exact Ec].
    + replace (Z.to_nat (n + 1)) with (S (Z.to_nat n)) by lia.
      eapply (chain_snoc _ _ nt0 _ dd); [| done | done | |].
      * eapply chain_frame; [| exact Hchain]. intros i Hi. rewrite lookup_insert_ne by done.
        rewrite lookup_insert_ne; [by rewrite lookup_insert_ne |].
        intros E. apply nameTableDiffKey_inj in E; lia.
      * rewrite Z2Nat.id by lia. rewrite lookup_insert_ne by done. by rewrite lookup_insert_eq.
      * rewrite <- W1, <- W2, <- W3. exact Ed.
  - match goal with |- loaded _ _ _ (markNameTableAsCached ?g) => pose proof (marked_loaded g Hok) as Hl end.
    exact Hl.
Qed.

(** ** The invariant of the system

    A process that holds the UUID of the store has written, or loaded, exactly what is stored. *)

Definition in_step (uuid count : Z) (nt : NameTable) (gs : GlobalState) : Prop :=
  kvstoreUuid gs = uuid ->
  nameTableDiffCount gs = count /\ utf8NamesWritten gs = vsize (utf8Names nt) /\
  constantNamesWritten gs = vsize (constantNames nt) /\
  uniqueNamesWritten gs = vsize (uniqueNames nt) /\ names_prefix nt (names gs).

Definition noNames : NameTable := mkNameTable [] [] [] 0 0 0 [].

Inductive Inv : System -> Prop :=
| inv_empty procs kv :
    kv !! NAME_TABLE_UUID_KEY = None -> Forall (fun gs => table_ok (names gs)) procs ->
    Forall (in_step 0 0 noNames) procs -> Inv (procs, kv)
| inv_stored procs kv uuid count nt :
    Stored kv uuid count nt -> Forall (fun gs => table_ok (names gs)) procs ->
    Forall (in_step uuid count nt) procs -> Inv (procs, kv).

Lemma in_step_loaded uuid count nt gs : loaded uuid count nt gs -> in_step uuid count nt gs.
Proof.
  intros (_ & Hc & Hs & W1 & W2 & W3) _. split_and!; try done. by apply same_names_prefix.
Qed.

Lemma in_step_enter uuid count nt gs nt' :
  in_step uuid count nt gs -> names_prefix (names gs) nt' -> in_step uuid count nt (set_names nt' gs).
Proof.
  intros H Hp Hu. destruct (H Hu) as (? & ? & ? & ? & ?). split_and!; try done. cbn. by etrans.
Qed.

Lemma fresh_in_step gs : fresh gs -> in_step 0 0 noNames gs.
Proof.
  intros [_ _ (W1 & W2 & W3) Hc _] _. split_and!; try done. split_and!; apply prefix_nil.
Qed.

(** A process may write only when it holds the UUID of the store. *)
Lemma changed_false_empty gs kv :
  kv !! NAME_TABLE_UUID_KEY = None -> kvstoreChangedSinceGsCreation decompress gs kv = Some false ->
  kvstoreUuid gs = 0.
Proof.
  unfold kvstoreChangedSinceGsCreation. intros ->. intros [= H]. by apply negb_false_iff, Z.eqb_eq in H.
Qed.

Lemma changed_false_stored kv uuid count nt gs :
  Stored kv uuid count nt -> kvstoreChangedSinceGsCreation decompress gs kv = Some false ->
  kvstoreUuid gs = uuid.
Proof.
  intros [(du & Ku & Su) _ _ _ (Hu & _)]. unfold kvstoreChangedSinceGsCreation. rewrite Ku.
  rewrite (load_uuid uuid du Hu Su). cbn. intros [= H]. by apply negb_false_iff, Z.eqb_eq in H.
Qed.

(** Either nothing is written, or the process was in step and the store has its names. *)
Lemma retain_cases procs kv gs uuid b gs' kv' :
  Inv (procs, kv) -> gs ∈ procs -> unused_uuid uuid procs ->
  retainGlobalState compress decompress compressBound xxh32 uuid gs kv = Some (b, gs', kv') ->
  (b = false /\ gs' = gs /\ kv' = kv) \/
  (b = true /\ gs' = gs /\ kv' = kv /\
     exists count nt, Stored kv (kvstoreUuid gs) count nt /\ loaded (kvstoreUuid gs) count nt gs) \/
  (b = true /\ names gs' = names gs /\
     exists count, Stored kv' uuid count (names gs) /\ loaded uuid count (names gs) gs').
Proof.
  intros HInv Hin (Hu & Hne & _) Hret. pose proof Hret as Hret'. unfold retainGlobalState in Hret'.
  destruct (hadCriticalError gs) eqn:Hcrit; [left; by simplify_eq |].
  destruct (kvstoreChangedSinceGsCreation decompress gs kv) as [[] |] eqn:Hchg; cbn in Hret';
    [left; by simplify_eq | | done].
  right. inversion HInv as [procs' kv0 Hnone Hok Hst | procs' kv0 u count nt Hstored Hok Hst]; subst;
    rewrite Forall_forall in Hok, Hst; specialize (Hok gs Hin); specialize (Hst gs Hin).
  - destruct (Hst (changed_false_empty _ _ Hnone Hchg)) as (Hc & W1 & W2 & W3 & Hp).
    assert (Hmod : wasNameTableModified gs = true).
    { unfold wasNameTableModified. rewrite W1. pose proof (tok_some _ Hok).
      rewrite (proj2 (Z.ltb_lt _ _)); [done | exact H]. }
    destruct (retain_writes kv 0 noNames gs uuid b gs' kv') as (-> & HS & HL & HN); try done.
    { by apply chain_nil. }
    right. split; [done |]. split; [done |]. by exists (0 + 1).
  - pose proof (changed_false_stored _ _ _ _ _ Hstored Hchg) as Huid.
    destruct (Hst Huid) as (Hc & W1 & W2 & W3 & Hp).
    destruct (wasNameTableModified gs) eqn:Hmod.
    + destruct (retain_writes kv count nt gs uuid b gs' kv') as (-> & HS & HL & HN); try done.
      { apply (st_chain _ _ _ _ Hstored). }
      { by destruct (st_ids _ _ _ _ Hstored) as (_ & _ & ?). }
      right. split; [done |]. split; [done |]. by exists (count + 1).
    + simplify_eq. left. split_and!; try done. exists (nameTableDiffCount gs'), nt.
      split; [done |]. unfold wasNameTableModified in Hmod.
      rewrite W1, W2, W3, !orb_false_iff, !Z.ltb_ge in Hmod. destruct Hmod as ((M1 & M2) & M3).
      destruct Hp as (P1 & P2 & P3). split_and!; try done.
      split_and!; by apply prefix_same_length.
Qed.

Lemma Inv_step s s' : Inv s -> step s s' -> Inv s'.
Proof.
  intros HInv Hstep. inversion Hstep as [procs kv gs0 gs Hf Hl | procs kv i gs d raw nt Hi Hd Hcap He |
    procs kv i gs uuid b gs' kv' Hi Hun Hret]; subst.
  - inversion HInv as [procs' kv0 Hnone Hok Hst | procs' kv0 u count nt Hstored Hok Hst]; subst.
    + unfold loadCachedNames in Hl. rewrite Hnone in Hl. simplify_eq.
      apply inv_empty; [done | constructor; [apply Hf | done] | constructor; [by apply fresh_in_step | done]].
    + destruct (load_stored kv u count nt gs0 Hstored Hf) as (gs1 & Hl1 & HL & Hok1). simplify_eq.
      eapply inv_stored; [done | by constructor | constructor; [by apply in_step_loaded | done]].
  - assert (Hgs : forall P, Forall P procs -> P gs) by (intros P HP; by eapply Forall_lookup_1).
    inversion HInv as [procs' kv0 Hnone Hok Hst | procs' kv0 u count nt0 Hstored Hok Hst]; subst;
      destruct (table_ok_enter (names gs) d raw nt (Hgs _ Hok) Hd Hcap He) as [Hok' Hp];
      [eapply inv_empty | eapply inv_stored]; try done;
      apply Forall_insert; try done; apply in_step_enter; try done; exact (Hgs _ Hst).
  - assert (Hin : gs ∈ procs) by by eapply list_elem_of_lookup_2.
    destruct (retain_cases _ _ _ _ _ _ _ HInv Hin Hun Hret)
      as [(-> & -> & ->) | [(-> & -> & -> & _) | (-> & HN & count & HS & HL)]];
      [by rewrite list_insert_id | by rewrite list_insert_id |].
    assert (Hok : Forall (fun gs => table_ok (names gs)) procs) by by inversion HInv.
    eapply inv_stored; [exact HS | |].
    + apply Forall_insert; [done |]. rewrite HN. by eapply Forall_lookup_1 in Hok.
    + apply Forall_insert; [| by apply in_step_loaded]. apply Forall_forall. intros g Hg E.
      destruct Hun as (_ & _ & Hun). by destruct (Hun g Hg).
Qed.

Lemma Inv_reachable s : reachable s -> Inv s.
Proof.
  unfold reachable. intros H.
  assert (Inv ([], ∅)) as H0 by (apply inv_empty; [apply lookup_empty | constructor | constructor]).
  induction H as [| s1 s2 s3 Hs _ IH]; [done |]. apply IH. by eapply Inv_step.
Qed.
End Processes.

(** ** Properties *)

(** C1: any number of processes that start, enter names and try to retain them, in any order, keep
    the cache consistent. Whatever happened, a new process loads the cache without an exception into
    a well-formed name table; and when a process was told that its names are retained, a process
    started next has exactly its names, each under the same reference, so that every lookup agrees.
    A process whose UUID is not that of the store, because another one wrote in between, writes
    nothing. *)
Theorem name_cache_consistent compress decompress compressBound xxh32 baseU baseC baseQ procs kv :
  lz4_compresses compress compressBound -> lz4_restores compress decompress ->
  lz4_limits compress compressBound -> (forall s, is_u32 (xxh32 s)) ->
  pow2 baseU -> pow2 baseC -> pow2 baseQ ->
  reachable compress decompress compressBound xxh32 baseU baseC baseQ (procs, kv) ->
  (forall gs0, fresh xxh32 baseU baseC baseQ gs0 ->
     exists gs, loadCachedNames decompress gs0 kv = Some gs /\ NameTable_wf xxh32 (names gs)) /\
  (forall gs uuid gs' kv' gs0, gs ∈ procs -> unused_uuid uuid procs ->
     retainGlobalState compress decompress compressBound xxh32 uuid gs kv = Some (true, gs', kv') ->
     fresh xxh32 baseU baseC baseQ gs0 ->
     exists gs1, loadCachedNames decompress gs0 kv' = Some gs1 /\
       kvstoreUuid gs1 = kvstoreUuid gs' /\ same_names (names gs) (names gs1) /\
       forall d, lookupName xxh32 (names gs1) d = lookupName xxh32 (names gs) d).
Proof.
  intros Hc Hr Hl Hx HU HC HQ Hreach.
  assert (HInv : Inv compress compressBound xxh32 baseU baseC baseQ (procs, kv))
    by by eapply Inv_reachable.
  assert (Hok : Forall (fun gs => table_ok xxh32 baseU baseC baseQ (names gs)) procs)
    by by inversion HInv.
  split.
  - intros gs0 Hf. inversion HInv as [p k Hnone _ _ | p k u count nt HS _ _]; subst.
    + exists gs0. unfold loadCachedNames. rewrite Hnone. split; [done | apply Hf].
    + destruct (load_stored _ _ _ _ _ _ _ Hc Hr Hl Hx HU HC HQ _ _ _ _ gs0 HS Hf)
        as (gs & Hload & _ & Ht). exists gs. split; [done | apply Ht].
  - intros gs uuid gs' kv' gs0 Hin Hun Hret Hf. rewrite Forall_forall in Hok.
    destruct (Hok gs Hin) as [Hwf _ _ _ _ _].
    destruct (retain_cases _ _ _ _ _ _ _ Hc Hr Hl procs kv gs uuid true gs' kv' HInv Hin Hun Hret)
      as [(? & _) | [(_ & -> & -> & count & nt & HS & (_ & _ & (N1 & N2 & N3) & _)) |
                     (_ & _ & count & HS & (U & _))]]; [done | |];
      destruct (load_stored _ _ _ _ _ _ _ Hc Hr Hl Hx HU HC HQ _ _ _ _ gs0 HS Hf)
        as (gs1 & Hload & (L1 & _ & (E1 & E2 & E3) & _) & [Hwf1 _ _ _ _ _]);
      exists gs1; (split; [done |]); (split; [congruence |]).
    + assert (Hs : same_names (names gs) (names gs1)) by (split_and!; congruence).
      split; [done |]. intros d. by apply same_names_lookup.
    + assert (Hs : same_names (names gs) (names gs1)) by (split_and!; congruence).
      split; [done |]. intros d. by apply same_names_lookup.
Qed.

(** A process with the one name [foo], and the hash that sends every name to the same bucket. *)
Definition sampleTable : NameTable :=
  mkNameTable [s! "foo"] [] [] 1 1 1 (<[5%nat := mkBucket 5 1]> (replicate 8 emptyBucket)).

Definition sampleState : GlobalState := mkGlobalState sampleTable 0 0 0 0 0 false.

Lemma sample_fresh : fresh (fun _ => 5) 1 1 1 sampleState.
Proof.
  destruct (enter_spec (fun _ => 5) (emptyTable 1 1 1) (NUtf8 s! "foo")) as (raw & nt & He & (Hwf & _));
    [apply emptyTable_wf; lia | vm_compute; discriminate |].
  vm_compute in He. injection He as _ <-.
  assert (pow2 1) by by exists 0.
  assert (table_ok (fun _ => 5) 1 1 1 sampleTable).
  { split; [exact Hwf | | reflexivity | done | done | done].
    split; split; repeat constructor; vm_compute; reflexivity. }
  split; [done | by split_and! | by split_and! | done | done].
Qed.

Lemma name_cache_consistent_witness :
  exists gs' kv' gs1,
    retainGlobalState storeCompress storeDecompress Z.succ (fun _ => 5) 9 sampleState ∅ =
      Some (true, gs', kv') /\
    loadCachedNames storeDecompress sampleState kv' = Some gs1 /\
    kvstoreUuid gs1 = kvstoreUuid gs' /\ same_names (names sampleState) (names gs1).
Proof.
  destruct (name_cache_consistent storeCompress storeDecompress Z.succ (fun _ => 5) 1 1 1 [sampleState] ∅)
    as [_ H].
  - exact storeCompress_compresses.
  - exact storeCompress_restores.
  - exact storeCompress_limits.
  - intros _. unfold is_u32. lia.
  - by exists 0.
  - by exists 0.
  - by exists 0.
  - apply rtc_once. eapply step_start; [exact sample_fresh | reflexivity].
  - destruct (retainGlobalState storeCompress storeDecompress Z.succ (fun _ => 5) 9 sampleState ∅)
      as [[[b gs'] kv'] |] eqn:E; [| vm_compute in E; discriminate].
    assert (b = true) as -> by (vm_compute in E; congruence).
    destruct (H sampleState 9 gs' kv' sampleState) as (gs1 & Hl & Hu & Hs & _).
    + by apply list_elem_of_singleton.
    + split; [unfold is_u32; lia |]. split; [done |]. intros g ->%list_elem_of_singleton. done.
    + exact E.
    + exact sample_fresh.
    + by exists gs', kv', gs1.
Defined.
