(* ===== verification/GlobalStateSer.v ===== *)
(** * The serialized global state

    Models the file table and the functions of [Serializer] (src/core/serialize/serialize.cc) that
    store a whole global state, as the payload compiled into the binary does, and load it:
    [Serializer::store], [loadGlobalState] and [loadSymbolTable]. *)

From S2P Require Import Prelude Pickler FileHash Files Locs Types NameTable NameTableSer Symbols.

#[local] Open Scope Z_scope.
#[local] Open Scope pickle_scope.

(** ** State

    The file table without its null entry 0, and the symbols each file refers to, one set per entry
    of the file table. *)
Record State := mkState {
  symbolTable : SymbolTable; nameTable : NameTable; files : list File;
  symbolsReferencedByFile : list (gset Z) }.

Record SerializedGlobalState := mkSerializedGlobalState {
  symbolTableData : list Z; nameTableData : list Z; fileTableData : list Z }.

Definition pickleFileTable (files : list File) (p : Pickler) : Pickler := putVec pickleFile files p.

(** [files.reserve(1 + filesSize)] throws on a negative size. *)
Definition unpickleFileTable : unp (list File) :=
  filesSize ← getU4;
  let filesSize := i32 filesSize in
  if 1 + filesSize <? 0 then unp_fail else getN unpickleFile (Z.to_nat filesSize).

Section Payload.
Context (compress : list Z -> Z -> list Z) (decompress : list Z -> Z -> option (list Z)).
Context (compressBound : Z -> Z) (xxh32 : str -> Z).

Definition store (gs : State) : option SerializedGlobalState :=
  symbolTableData ← serialize compress compressBound (pickleSymbolTable (symbolTable gs));
  nameTableData ← serialize compress compressBound (lift (pickleNameTable xxh32 (nameTable gs)));
  fileTableData ← serialize compress compressBound (lift (pickleFileTable (files gs)));
  Some (mkSerializedGlobalState symbolTableData nameTableData fileTableData).

Definition loadSymbolTable (gs : State) (symbolTableData : list Z) : option State :=
  st ← deserialize decompress unpickleSymbolTable symbolTableData;
  Some (mkState st (nameTable gs) (files gs) (symbolsReferencedByFile gs)).

Definition loadNames (gs : State) (nameTableData : list Z) : option State :=
  nt ← deserialize decompress (unpickleNameTable (nameTable gs)) nameTableData;
  Some (mkState (symbolTable gs) nt (files gs) (symbolsReferencedByFile gs)).

Definition loadFiles (gs : State) (fileTableData : list Z) : option State :=
  fs ← deserialize decompress unpickleFileTable fileTableData;
  Some (mkState (symbolTable gs) (nameTable gs) fs (replicate (S (length fs)) ∅)).

Definition loadGlobalState (gs : State) (symbolTableData nameTableData fileTableData : list Z)
    : option State :=
  gs ← loadSymbolTable gs symbolTableData;
  gs ← loadNames gs nameTableData;
  loadFiles gs fileTableData.
End Payload.

(** ** Round trip *)

Lemma decodes_fileTable fs w :
  is_size (length fs) -> Forall File_ok fs ->
  decodes unpickleFileTable w (pickleFileTable fs w) (reloaded <$> fs).
Proof.
  intros Hs Hok. unfold unpickleFileTable, pickleFileTable, putVec.
  eapply (decodes_bind _ _ _ (putU4 (Z.of_nat (length fs)) w)); [by apply decodes_putU4, is_size_u32 |].
  cbv zeta. rewrite i32_size by done. rewrite (proj2 (Z.ltb_ge _ _)) by lia. rewrite Nat2Z.id.
  apply decodes_putAll. eapply Forall_impl; [exact Hok |]. intros f Hf w'. by apply File_rt.
Qed.

(** What has to hold of a state for it to be stored. *)
Record State_ok (xxh32 : str -> Z) (gs : State) : Prop := {
  so_symbols : SymbolTable_ok (symbolTable gs);
  so_names : NameTable_wf xxh32 (nameTable gs);
  so_data : names_ok (nameTable gs);
  so_files : is_size (length (files gs)) /\ Forall File_ok (files gs);
}.

(** C32: whenever [store] succeeded on a state in order, [loadGlobalState] does not raise in a state with room for its names,
    and loads what was stored, but for the following. The names are those of the stored state, under the same
    references, with every lookup unchanged. The symbol table is [reloadSymbolTable] of the stored one: all symbols are
    there with their names, owners, members and flags, but an unresolved type in them is not read back: it becomes the
    [ClassType] of no symbol, and an empty list of type parameters becomes an absent one. Files lose the state that
    belongs to the process. LZ4 and XXH32 are parameters with their documented behaviour. *)
Theorem global_state_roundtrip compress decompress compressBound xxh32 gs old data :
  lz4_compresses compress compressBound -> lz4_restores compress decompress ->
  lz4_limits compress compressBound -> (forall s, is_u32 (xxh32 s)) ->
  State_ok xxh32 gs -> reload_room (nameTable gs) (nameTable old) ->
  0 <= utf8Capacity (nameTable old) -> 0 <= constantCapacity (nameTable old) ->
  0 <= uniqueCapacity (nameTable old) ->
  store compress compressBound xxh32 gs = Some data ->
  exists nt,
    loadGlobalState decompress old (symbolTableData data) (nameTableData data) (fileTableData data) =
      Some (mkState (reloadSymbolTable (symbolTable gs)) nt (reloaded <$> files gs)
              (replicate (S (length (files gs))) ∅)) /\
    same_names (nameTable gs) nt /\ NameTable_wf xxh32 nt /\
    forall d, lookupName xxh32 nt d = lookupName xxh32 (nameTable gs) d.
Proof.
  intros Hc Hr Hl Hx [Hsym Hwf Hok [Hsize Hfiles]] Hroom H1 H2 H3 Hstore.
  unfold store in Hstore.
  destruct (serialize _ _ (pickleSymbolTable _)) as [d1 |] eqn:E1; [| done]. cbn [mbind option_bind] in Hstore.
  destruct (serialize _ _ (lift (pickleNameTable _ _))) as [d2 |] eqn:E2; [| done]. cbn [mbind option_bind] in Hstore.
  destruct (serialize _ _ (lift (pickleFileTable _))) as [d3 |] eqn:E3; [| done]. cbn [mbind option_bind] in Hstore.
  injection Hstore as <-. cbn [symbolTableData nameTableData fileTableData].
  destruct (emits_SymbolTable (symbolTable gs) Hsym emptyPickler) as (w1 & P1 & D1).
  destruct (load_name_table xxh32 Hx (nameTable gs) (nameTable old) emptyPickler Hwf Hok Hroom H1 H2 H3)
    as (nt & D2 & Hwf' & Hs).
  pose proof (decodes_fileTable (files gs) emptyPickler Hsize Hfiles) as D3.
  exists nt. split; [| split_and!; try done; intros d; by apply same_names_lookup].
  unfold loadGlobalState, loadSymbolTable, loadNames, loadFiles.
  rewrite (container_decodes _ _ _ Hc Hr _ _ w1 d1 _ Hl P1 D1 E1). cbn [mbind option_bind nameTable].
  rewrite (container_decodes _ _ _ Hc Hr _ _ _ d2 _ Hl eq_refl D2 E2). cbn [mbind option_bind].
  rewrite (container_decodes _ _ _ Hc Hr _ _ _ d3 _ Hl eq_refl D3 E3). cbn [mbind option_bind].
  by rewrite length_fmap.
Qed.

Definition payloadState : State :=
  mkState sampleSymbolTable (emptyTable 1 1 1)
    [mkFile 4 Normal (makeFlags s! "lib/a.rb") s! "lib/a.rb" s! "# typed: true" None Max
       TrueLevel TrueLevel None] [].

Definition freshState : State := mkState (mkSymbolTable [] [] [] [] []) (emptyTable 1 1 1) [] [].

Lemma payloadState_ok : State_ok (fun _ => 7) payloadState.
Proof.
  split.
  - repeat first [split | constructor]; vm_compute; first [done | split; done].
  - apply emptyTable_wf; lia.
  - split; split; try constructor; vm_compute; reflexivity.
  - split; [vm_compute; reflexivity |]. constructor; [| constructor].
    split; [| by vm_compute]. split; [reflexivity | done | vm_compute; reflexivity].
Qed.

Lemma global_state_roundtrip_witness :
  exists data nt,
    store storeCompress Z.succ (fun _ => 7) payloadState = Some data /\
    loadGlobalState storeDecompress freshState (symbolTableData data) (nameTableData data)
      (fileTableData data) =
      Some (mkState sampleSymbolTable nt (reloaded <$> files payloadState) [∅; ∅]) /\
    same_names (emptyTable 1 1 1) nt.
Proof.
  destruct (store storeCompress Z.succ (fun _ => 7) payloadState) as [data |] eqn:E;
    [| vm_compute in E; discriminate].
  destruct (global_state_roundtrip storeCompress storeDecompress Z.succ (fun _ => 7) payloadState
    freshState data) as (nt & Hl & Hs & _).
  - exact storeCompress_compresses.
  - exact storeCompress_restores.
  - exact storeCompress_limits.
  - intros _. unfold is_u32. lia.
  - exact payloadState_ok.
  - vm_compute. discriminate.
  - vm_compute. discriminate.
  - vm_compute. discriminate.
  - vm_compute. discriminate.
  - exact E.
  - exists data, nt. split; [done |]. split; [exact Hl | exact Hs].
Defined.
