(* ===== verification/ScipUtils.v ===== *)
(** * SCIP strings

    Models src/scip_indexer/SCIPUtils.cc: escaping of text for protobuf string fields, and the
    printing of a [scip::Symbol] as the string by which occurrences in all files and repositories
    refer to it. The messages are those of src/proto/SCIP.proto. The UTF-8 decoder of rapidjson is a
    parameter: [decode s] is the number of bytes [UTF8<>::Decode] consumes, if it succeeds. *)

From S2P Require Import Prelude.

#[local] Open Scope Z_scope.

(** ** Escaping of invalid UTF-8 *)

Definition octal (z : Z) : ascii := char_of_byte (48 + z).

Definition escapeByte (b : Z) : str :=
  ["\"%char; octal (Z.land (Z.shiftr b 6) 7); octal (Z.land (Z.shiftr b 3) 7); octal (Z.land b 7)].

Section Escape.
Variable decode : str -> option nat.

(** [None] when the fuel runs out. *)
Fixpoint escape_loop (fuel : nat) (text : str) : option str :=
  match text, fuel with
  | [], _ => Some []
  | _, O => None
  | c :: rest, S fuel =>
      let byte := byte_of_char c in
      if byte <? 0x80 then cons c <$> escape_loop fuel rest
      else
        match decode text with
        | Some n => app (take n text) <$> escape_loop fuel (drop n text)
        | None => app (escapeByte byte) <$> escape_loop fuel rest
        end
  end.

Definition escapeInvalidUtf8 (text : str) : option str := escape_loop (length text) text.
End Escape.

(** ** Symbols *)

Inductive Suffix :=
| UnspecifiedSuffix | NamespaceSuffix | TypeSuffix | TermSuffix | MethodSuffix | TypeParameterSuffix
| ParameterSuffix | MetaSuffix | LocalSuffix | MacroSuffix.

Record Descriptor := mkDescriptor { d_name : str; d_disambiguator : str; d_suffix : Suffix }.

Record Package := mkPackage { p_name : str; p_version : str }.

Record Symbol := mkSymbol { s_package : option Package; s_descriptors : list Descriptor }.

Inductive Status := OkStatus | InvalidArgumentError.

Definition backtick : ascii := "`".

Definition between (lo hi c : ascii) : bool :=
  (byte_of_char lo <=? byte_of_char c) && (byte_of_char c <=? byte_of_char hi).

Definition isIdentifierChar (c : ascii) : bool :=
  between "a" "z" c || between "A" "Z" c || between "0" "9" c || char_eqb c "+" || char_eqb c "-" ||
  char_eqb c "$" || char_eqb c "_".

(** The loop over the characters: [(needsEscape, needsBacktickEscape)]. *)
Definition scanName (name : str) : bool * bool :=
  fold_left (fun st c => if isIdentifierChar c then st else (true, char_eqb c backtick)) name
    (false, false).

(** [absl::StrReplaceAll(s, {{"x", "xx"}})] for one character *)
Definition doubled (x : ascii) (s : str) : str :=
  flat_map (fun c => if char_eqb c x then [x; x] else [c]) s.

Definition addEscaped (out name : str) : str :=
  let '(needsEscape, needsBacktickEscape) := scanName name in
  if needsEscape then
    if needsBacktickEscape then out ++ [backtick] ++ doubled backtick name ++ [backtick]
    else out ++ [backtick] ++ name ++ [backtick]
  else out ++ name.

Definition addSpaceEscaped (out s : str) : str :=
  if bool_decide (" "%char ∈ s) then out ++ doubled " " s else out ++ s.

Definition emitDescriptorString (descriptor : Descriptor) (out : str) : Status * str :=
  match d_suffix descriptor with
  | NamespaceSuffix => (OkStatus, addEscaped out (d_name descriptor) ++ s! "/")
  | TypeSuffix => (OkStatus, addEscaped out (d_name descriptor) ++ s! "#")
  | TermSuffix => (OkStatus, addEscaped out (d_name descriptor) ++ s! ".")
  | MetaSuffix => (OkStatus, addEscaped out (d_name descriptor) ++ s! ":")
  | MethodSuffix =>
      let out := addEscaped out (d_name descriptor) in
      let out := out ++ s! "(" in
      let out := addEscaped out (d_disambiguator descriptor) in
      (OkStatus, out ++ s! ").")
  | TypeParameterSuffix => (OkStatus, addEscaped (out ++ s! "[") (d_name descriptor) ++ s! "]")
  | ParameterSuffix => (OkStatus, addEscaped (out ++ s! "(") (d_name descriptor) ++ s! ")")
  | UnspecifiedSuffix | LocalSuffix | MacroSuffix => (InvalidArgumentError, out)
  end.

(** [if (!s.empty()) { addSpaceEscaped(out, s); out.push_back(' '); } else out.append(". ");] *)
Definition emitField (s out : str) : str :=
  match s with [] => out ++ s! ". " | _ => addSpaceEscaped out s ++ s! " " end.

Fixpoint emitDescriptors (descriptors : list Descriptor) (out : str) : Status * str :=
  match descriptors with
  | [] => (OkStatus, out)
  | d :: descriptors =>
      let '(status, out) := emitDescriptorString d out in
      match status with
      | OkStatus => emitDescriptors descriptors out
      | _ => (status, out)
      end
  end.

Definition SCHEME : str := s! "scip-ruby gem ".

Definition emitSymbolString (symbol : Symbol) (out : str) : Status * str :=
  let out := out ++ SCHEME in
  let out :=
    match s_package symbol with
    | Some package => emitField (p_version package) (emitField (p_name package) out)
    | None => out ++ s! ". . "
    end in
  match s_descriptors symbol with
  | [] => (InvalidArgumentError, out)
  | descriptors => emitDescriptors descriptors out
  end.

(** ** Well-formed UTF-8 (table 3-7 of the Unicode standard) *)

Definition in_range (lo hi : Z) (c : ascii) : bool := (lo <=? byte_of_char c) && (byte_of_char c <=? hi).

Definition cont : ascii -> bool := in_range 0x80 0xBF.

(** The length of the well-formed sequence a text starts with. *)
Definition utf8_char (s : str) : option nat :=
  match s with
  | [] => None
  | a :: s =>
      if in_range 0 0x7F a then Some 1%nat
      else
        match s with
        | b :: c :: d :: _ =>
            if in_range 0xC2 0xDF a && cont b then Some 2%nat
            else if in_range 0xE0 0xE0 a && in_range 0xA0 0xBF b && cont c then Some 3%nat
            else if in_range 0xE1 0xEC a && cont b && cont c then Some 3%nat
            else if in_range 0xED 0xED a && in_range 0x80 0x9F b && cont c then Some 3%nat
            else if in_range 0xEE 0xEF a && cont b && cont c then Some 3%nat
            else if in_range 0xF0 0xF0 a && in_range 0x90 0xBF b && cont c && cont d then Some 4%nat
            else if in_range 0xF1 0xF3 a && cont b && cont c && cont d then Some 4%nat
            else if in_range 0xF4 0xF4 a && in_range 0x80 0x8F b && cont c && cont d then Some 4%nat
            else None
        | [b; c] =>
            if in_range 0xC2 0xDF a && cont b then Some 2%nat
            else if in_range 0xE0 0xE0 a && in_range 0xA0 0xBF b && cont c then Some 3%nat
            else if in_range 0xE1 0xEC a && cont b && cont c then Some 3%nat
            else if in_range 0xED 0xED a && in_range 0x80 0x9F b && cont c then Some 3%nat
            else if in_range 0xEE 0xEF a && cont b && cont c then Some 3%nat
            else None
        | [b] => if in_range 0xC2 0xDF a && cont b then Some 2%nat else None
        | [] => None
        end
  end.

Inductive valid_utf8 : str -> Prop :=
| valid_nil : valid_utf8 []
| valid_char n s : utf8_char s = Some n -> valid_utf8 (drop n s) -> valid_utf8 s.

(** What rapidjson documents of [UTF8<>::Decode]: it accepts a well-formed sequence and nothing
    else, and consumes the sequence. *)
Definition validating (decode : str -> option nat) : Prop := forall s, decode s = utf8_char s.

Lemma utf8_char_bounds s n : utf8_char s = Some n -> (1 <= n <= length s)%nat.
Proof.
  destruct s as [| a s]; cbn [utf8_char]; [done |]. destruct (in_range 0 0x7F a); [intros [= <-]; cbn; lia |].
  destruct s as [| b [| c [| d s]]]; cbn [length]; [done | | |];
    repeat (destruct (_ && _); [intros [= <-]; lia |]); done.
Qed.

(** Whether a sequence is well-formed does not depend on what follows it. *)
Lemma utf8_char_app s t n :
  utf8_char s = Some n -> utf8_char (s ++ t) = Some n.
Proof.
  destruct s as [| a s]; cbn [utf8_char app]; [done |]. destruct (in_range 0 0x7F a); [done |].
  destruct s as [| b [| c [| d s]]]; cbn [app]; [done | | | done].
  - destruct (in_range 0xC2 0xDF a && cont b) eqn:E; [| done]. intros [= <-].
    by destruct t as [| ? [| ? ?]].
  - intros H. destruct t; [done |].
    repeat match goal with
           | |- context [if ?b then _ else _] => destruct b eqn:?; try done
           end.
Qed.

Lemma valid_utf8_app s t : valid_utf8 s -> valid_utf8 t -> valid_utf8 (s ++ t).
Proof.
  intros Hs Ht. induction Hs as [| n s Hn Hd IH]; [done |].
  apply (valid_char n); [by apply utf8_char_app |].
  pose proof (utf8_char_bounds s n Hn). by rewrite drop_app_le by lia.
Qed.

Lemma valid_ascii s : Forall (fun c => in_range 0 0x7F c = true) s -> valid_utf8 s.
Proof.
  induction 1 as [| c s Hc _ IH]; [constructor |]. apply (valid_char 1); [| done].
  cbn [utf8_char]. by rewrite Hc.
Qed.

Lemma valid_prefix s n : utf8_char s = Some n -> valid_utf8 (take n s).
Proof.
  intros H. pose proof (utf8_char_bounds s n H) as Hn. apply (valid_char n).
  - destruct s as [| a s]; cbn [utf8_char] in H; [done |].
    destruct (in_range 0 0x7F a) eqn:Ea; [injection H as <-; cbn [take utf8_char]; by rewrite Ea |].
    destruct s as [| b [| c [| d s]]]; [done | | |];
      repeat match type of H with
             | (if ?b then _ else _) = _ =>
                 destruct b eqn:?;
                 [injection H as <-; cbn [take utf8_char]; rewrite Ea;
                  repeat match goal with E : ?b = _ |- context [if ?b then _ else _] => rewrite E end;
                  done |]
             end; done.
  - rewrite drop_ge by (rewrite length_take; lia). constructor.
Qed.

(** ** Escaping gives well-formed text *)

Lemma octal_ascii z : 0 <= z <= 7 -> in_range 0 0x7F (octal z) = true.
Proof.
  intros Hz. assert (z = 0 \/ z = 1 \/ z = 2 \/ z = 3 \/ z = 4 \/ z = 5 \/ z = 6 \/ z = 7) as H by lia.
  by repeat (destruct H as [-> | H]; [reflexivity |]); subst.
Qed.

Lemma land_7 z : 0 <= Z.land z 7 <= 7.
Proof. change 7 with (Z.ones 3) at 1 2. rewrite Z.land_ones by lia. pose proof (Z.mod_pos_bound z (2 ^ 3)). lia. Qed.

Lemma escapeByte_valid b : valid_utf8 (escapeByte b).
Proof. apply valid_ascii. unfold escapeByte. repeat constructor; apply octal_ascii, land_7. Qed.

Lemma utf8_char_ascii c s : byte_of_char c < 0x80 -> utf8_char (c :: s) = Some 1%nat.
Proof.
  intros H. cbn [utf8_char]. unfold in_range. pose proof (byte_of_char_range c) as Hc. unfold is_u8 in Hc.
  rewrite !(proj2 (Z.leb_le _ _)) by lia. done.
Qed.

Lemma escape_loop_spec decode fuel text :
  validating decode -> (length text <= fuel)%nat ->
  exists out, escape_loop decode fuel text = Some out /\ valid_utf8 out /\ (valid_utf8 text -> out = text).
Proof.
  intros Hdec. revert text. induction fuel as [| fuel IH]; intros text Hlen.
  - destruct text; [| cbn in Hlen; lia]. exists []. split; [done |]. by split; [constructor |].
  - destruct text as [| c rest]; [exists []; split; [done |]; by split; [constructor |] |].
    cbn [escape_loop length] in *. destruct (Z.ltb_spec (byte_of_char c) 0x80) as [Hc | Hc].
    + destruct (IH rest) as (out & -> & Hv & Hid); [lia |]. exists (c :: out). split; [done |].
      pose proof (utf8_char_ascii c) as Hchar. split.
      * apply (valid_char 1); [by apply Hchar | done].
      * intros Hvt. inversion Hvt as [| n s Hn Hd]; subst. rewrite Hchar in Hn by done.
        injection Hn as <-. cbn in Hd. by rewrite Hid.
    + rewrite Hdec. destruct (utf8_char (c :: rest)) as [n |] eqn:En.
      * pose proof (utf8_char_bounds _ _ En) as Hn. cbn [length] in Hn.
        destruct (IH (drop n (c :: rest))) as (out & E & Hv & Hid); [rewrite length_drop; cbn [length]; lia |].
        rewrite E. exists (take n (c :: rest) ++ out). split; [done |].
        split; [apply valid_utf8_app; [by apply valid_prefix | done] |].
        intros Hvt. inversion Hvt as [| m s Hm Hd]; subst. rewrite En in Hm. injection Hm as <-.
        rewrite Hid by done. apply take_drop.
      * destruct (IH rest) as (out & -> & Hv & _); [lia |]. exists (escapeByte (byte_of_char c) ++ out).
        split; [done |]. split; [apply valid_utf8_app; [apply escapeByte_valid | done] |].
        intros Hvt. inversion Hvt as [| m s Hm Hd]; subst. congruence.
Qed.

(** ** Reading symbols back

    A parser for the grammar documented in src/proto/SCIP.proto, used to show that printed symbols
    are unambiguous. *)

Fixpoint span (f : ascii -> bool) (s : str) : str * str :=
  match s with
  | [] => ([], [])
  | c :: s' => if f c then let '(a, b) := span f s' in (c :: a, b) else ([], s)
  end.

(** The characters up to a single [x], a double one standing for [x] itself. *)
Fixpoint readUntil (x : ascii) (s : str) : option (str * str) :=
  match s with
  | [] => None
  | c :: s' =>
      if char_eqb c x then
        match s' with
        | d :: s'' => if char_eqb d x then '(a, b) ← readUntil x s''; Some (x :: a, b) else Some ([], s')
        | [] => Some ([], s')
        end
      else '(a, b) ← readUntil x s'; Some (c :: a, b)
  end.

Definition readName (s : str) : option (str * str) :=
  match s with
  | c :: s' => if char_eqb c backtick then readUntil backtick s' else Some (span isIdentifierChar s)
  | [] => Some ([], [])
  end.

Definition expect (p s : str) : option str := if is_prefix p s then Some (drop (length p) s) else None.

Definition readSuffix (name s : str) : option (Descriptor * str) :=
  match s with
  | c :: s =>
      if char_eqb c "/" then Some (mkDescriptor name [] NamespaceSuffix, s)
      else if char_eqb c "#" then Some (mkDescriptor name [] TypeSuffix, s)
      else if char_eqb c "." then Some (mkDescriptor name [] TermSuffix, s)
      else if char_eqb c ":" then Some (mkDescriptor name [] MetaSuffix, s)
      else if char_eqb c "(" then
        '(dis, s) ← readName s; s ← expect s! ")." s; Some (mkDescriptor name dis MethodSuffix, s)
      else None
  | [] => None
  end.

Definition readDescriptor (s : str) : option (Descriptor * str) :=
  match s with
  | c :: s' =>
      if char_eqb c "[" then
        '(name, s) ← readName s'; s ← expect s! "]" s; Some (mkDescriptor name [] TypeParameterSuffix, s)
      else if char_eqb c "(" then
        '(name, s) ← readName s'; s ← expect s! ")" s; Some (mkDescriptor name [] ParameterSuffix, s)
      else '(name, s) ← readName s; readSuffix name s
  | [] => None
  end.

Fixpoint readDescriptors (fuel : nat) (s : str) : option (list Descriptor) :=
  match s, fuel with
  | [], _ => Some []
  | _, O => None
  | _, S fuel =>
      '(d, s) ← readDescriptor s; ds ← readDescriptors fuel s; Some (d :: ds)
  end.

Definition readField (s : str) : option (str * str) :=
  '(f, s) ← readUntil " " s; Some (if bool_decide (f = s! ".") then [] else f, s).

Definition readSymbol (s : str) : option Symbol :=
  s ← expect SCHEME s;
  '(name, s) ← readField s;
  '(version, s) ← readField s;
  ds ← readDescriptors (length s) s;
  Some (mkSymbol (Some (mkPackage name version)) ds).

(** ** Which symbols are printed unambiguously *)

(** No backtick, or the flag set by the last special character asks for it to be doubled. *)
Definition name_ok (name : str) : Prop := backtick ∉ name \/ (scanName name).2 = true.

Definition descriptor_ok (d : Descriptor) : Prop :=
  name_ok (d_name d) /\
  match d_suffix d with
  | NamespaceSuffix | TypeSuffix | TermSuffix | MetaSuffix | TypeParameterSuffix | ParameterSuffix =>
      d_disambiguator d = []
  | MethodSuffix => name_ok (d_disambiguator d) /\ d_name d <> []
  | UnspecifiedSuffix | LocalSuffix | MacroSuffix => False
  end.

Definition field_ok (f : str) : Prop := f <> s! "." /\ head f <> Some " "%char.

Definition symbol_ok (s : Symbol) : Prop :=
  match s_package s with
  | Some p => field_ok (p_name p) /\ field_ok (p_version p)
  | None => False
  end /\ s_descriptors s <> [] /\ Forall descriptor_ok (s_descriptors s).

(** What follows a name: a character that is neither part of an identifier nor a backtick. *)
Definition stops_name (rest : str) : Prop :=
  match rest with [] => True | c :: _ => isIdentifierChar c = false /\ c <> backtick end.

Lemma char_eqb_true c d : char_eqb c d = true <-> c = d.
Proof. unfold char_eqb. apply bool_decide_eq_true. Qed.

Lemma char_eqb_false c d : char_eqb c d = false <-> c <> d.
Proof. unfold char_eqb. apply bool_decide_eq_false. Qed.

Lemma readUntil_doubled x s rest :
  head rest <> Some x -> readUntil x (doubled x s ++ x :: rest) = Some (s, rest).
Proof.
  intros Hr. induction s as [| c s IH]; cbn [doubled flat_map app].
  - cbn. rewrite (proj2 (char_eqb_true x x)) by done. destruct rest as [| d rest]; [done |].
    rewrite (proj2 (char_eqb_false d x)); [done |]. cbn in Hr. congruence.
  - fold (doubled x s). destruct (char_eqb c x) eqn:E.
    + apply char_eqb_true in E as ->. cbn. rewrite !(proj2 (char_eqb_true x x)) by done.
      by rewrite IH.
    + cbn. rewrite E. by rewrite IH.
Qed.

Lemma doubled_none x s : x ∉ s -> doubled x s = s.
Proof.
  induction s as [| c s IH]; [done |]. intros H. apply not_elem_of_cons in H as [Hc Hs]. cbn.
  rewrite (proj2 (char_eqb_false c x)) by congruence. cbn. f_equal. by apply IH.
Qed.

Lemma span_ident s rest :
  Forall (fun c => isIdentifierChar c = true) s -> stops_name rest ->
  span isIdentifierChar (s ++ rest) = (s, rest).
Proof.
  intros Hs Hr. induction Hs as [| c s Hc _ IH]; cbn [span app].
  - destruct rest as [| c rest]; [done |]. destruct Hr as [Hc _]. cbn [span]. by rewrite Hc.
  - by rewrite Hc, IH.
Qed.

Lemma scanName_loop name a b :
  fold_left (fun st c => if isIdentifierChar c then st else (true, char_eqb c backtick)) name (a, b) =
    if forallb isIdentifierChar name then (a, b) else (true, (scanName name).2).
Proof.
  unfold scanName. revert a b. induction name as [| c name IH]; intros a b; cbn [fold_left forallb]; [done |].
  destruct (isIdentifierChar c) eqn:E; cbn [andb]; [apply IH |].
  rewrite IH. by destruct (forallb isIdentifierChar name).
Qed.

Lemma scanName_escape name : (scanName name).1 = negb (forallb isIdentifierChar name).
Proof. unfold scanName. rewrite scanName_loop. by destruct (forallb isIdentifierChar name). Qed.

Lemma addEscaped_app out name : addEscaped out name = out ++ addEscaped [] name.
Proof. unfold addEscaped. destruct (scanName name) as [[] []]; by rewrite ?app_nil_l, <- ?app_assoc. Qed.

(** A printed name is read back. *)
Lemma readName_escaped name rest :
  name_ok name -> stops_name rest -> readName (addEscaped [] name ++ rest) = Some (name, rest).
Proof.
  intros Hok Hr. pose proof (scanName_escape name) as He. unfold addEscaped.
  destruct (scanName name) as [esc bt] eqn:Es. cbn [fst] in He. subst esc.
  assert (Hhead : head rest <> Some backtick) by (destruct rest; cbn in *; [done | destruct Hr; congruence]).
  destruct (forallb isIdentifierChar name) eqn:Ea; cbn [negb].
  - assert (Hall : Forall (fun c => isIdentifierChar c = true) name).
    { apply Forall_forall. intros c Hc. rewrite forallb_forall in Ea. by apply Ea, list_elem_of_In. }
    rewrite app_nil_l. pose proof (span_ident name rest Hall Hr) as Hspan. unfold readName.
    destruct (name ++ rest) as [| c s] eqn:E; [by apply app_eq_nil in E as [-> ->] |].
    rewrite Hspan. rewrite (proj2 (char_eqb_false c backtick)); [done |].
    destruct name as [| c' name]; cbn in E; simplify_eq; [by destruct Hr |].
    apply Forall_cons in Hall as [Hc _]. intros ->. vm_compute in Hc. done.
  - assert (Hb : (if bt then [] ++ [backtick] ++ doubled backtick name ++ [backtick]
                  else [] ++ [backtick] ++ name ++ [backtick]) =
                 backtick :: doubled backtick name ++ [backtick]).
    { destruct bt; [done |]. destruct Hok as [Hno | Hyes]; [by rewrite doubled_none |].
      by rewrite Es in Hyes. }
    rewrite Hb. cbn [app readName]. rewrite (proj2 (char_eqb_true backtick backtick)) by done.
    rewrite <- app_assoc. cbn [app]. by apply readUntil_doubled.
Qed.

(** A printed name starts with an identifier character or a backtick. *)
Lemma addEscaped_head name c s :
  name <> [] -> addEscaped [] name = c :: s -> isIdentifierChar c = true \/ c = backtick.
Proof.
  intros Hne. pose proof (scanName_escape name) as He. unfold addEscaped.
  destruct (scanName name) as [esc bt]. cbn [fst] in He. subst esc.
  destruct (forallb isIdentifierChar name) eqn:Ea; cbn [negb].
  - rewrite app_nil_l. intros ->. apply andb_true_iff in Ea as [Ha _]. by left.
  - destruct bt; intros [= <- _]; by right.
Qed.

Lemma addEscaped_nonempty name : name <> [] -> addEscaped [] name <> [].
Proof. unfold addEscaped. destruct (scanName name) as [[] []]; by destruct name. Qed.

(** ** Descriptors *)

Definition printed (d : Descriptor) : str :=
  let name := addEscaped [] (d_name d) in
  match d_suffix d with
  | NamespaceSuffix => name ++ s! "/"
  | TypeSuffix => name ++ s! "#"
  | TermSuffix => name ++ s! "."
  | MetaSuffix => name ++ s! ":"
  | MethodSuffix => name ++ s! "(" ++ addEscaped [] (d_disambiguator d) ++ s! ")."
  | TypeParameterSuffix => s! "[" ++ name ++ s! "]"
  | ParameterSuffix => s! "(" ++ name ++ s! ")"
  | UnspecifiedSuffix | LocalSuffix | MacroSuffix => []
  end.

Lemma emitDescriptor_printed d out :
  descriptor_ok d -> emitDescriptorString d out = (OkStatus, out ++ printed d).
Proof.
  intros [_ Hd]. unfold emitDescriptorString, printed. cbv zeta.
  destruct (d_suffix d); try done; rewrite addEscaped_app; rewrite <- ?app_assoc; try done.
  rewrite (addEscaped_app out (d_name d)), <- !app_assoc. done.
Qed.

Lemma emitDescriptors_printed ds out :
  Forall descriptor_ok ds -> emitDescriptors ds out = (OkStatus, out ++ flat_map printed ds).
Proof.
  intros Hds. revert out. induction Hds as [| d ds Hd _ IH]; intros out; cbn [emitDescriptors flat_map].
  - by rewrite app_nil_r.
  - rewrite emitDescriptor_printed by done. rewrite IH. by rewrite <- app_assoc.
Qed.

(** The first character of a descriptor that is not bracketed tells it from one that is. *)
Lemma plain_head name c0 t c s :
  addEscaped [] name ++ c0 :: t = c :: s -> name <> [] \/ (c0 <> "[" /\ c0 <> "(" /\ c0 <> " ")%char ->
  (c <> "[" /\ c <> "(" /\ c <> " ")%char.
Proof.
  intros E H. destruct (addEscaped [] name) as [| c' s'] eqn:En.
  - cbn in E. injection E as <- <-. destruct H as [H | H]; [| done].
    by destruct (addEscaped_nonempty name H).
  - cbn in E. injection E as <- _. assert (Hne : name <> []) by (intros ->; done).
    destruct (addEscaped_head name c' s' Hne En) as [Hc | ->]; [| done].
    split_and!; intros ->; vm_compute in Hc; done.
Qed.

Lemma readDescriptor_plain name c0 t rest d :
  name_ok name -> isIdentifierChar c0 = false -> c0 <> backtick ->
  name <> [] \/ (c0 <> "[" /\ c0 <> "(" /\ c0 <> " ")%char ->
  readSuffix name (c0 :: t ++ rest) = Some (d, rest) ->
  readDescriptor ((addEscaped [] name ++ c0 :: t) ++ rest) = Some (d, rest).
Proof.
  intros Hok Hc Hb Hne Hs. rewrite <- app_assoc. cbn [app].
  pose proof (readName_escaped name (c0 :: t ++ rest) Hok (conj Hc Hb)) as Hr.
  destruct (addEscaped [] name ++ c0 :: t ++ rest) as [| c s] eqn:E; [by destruct (addEscaped [] name) |].
  destruct (plain_head _ _ _ _ _ E Hne) as (H1 & H2 & _). unfold readDescriptor.
  rewrite (proj2 (char_eqb_false c "[")), (proj2 (char_eqb_false c "(")) by done.
  rewrite Hr. exact Hs.
Qed.

Lemma expect_app p s : expect p (p ++ s) = Some s.
Proof.
  unfold expect. rewrite (proj2 (is_prefix_spec p (p ++ s))) by by apply prefix_app_r.
  by rewrite drop_app_length.
Qed.

(** A bracketed name. *)
Lemma read_bracketed name close rest :
  name_ok name -> stops_name (close ++ rest) ->
  ('(n, s) ← readName (addEscaped [] name ++ close ++ rest); s ← expect close s; Some (n, s)) =
    Some (name, rest).
Proof.
  intros Hok Hs. rewrite readName_escaped by done. cbn [mbind option_bind].
  by rewrite expect_app.
Qed.

Lemma readDescriptor_printed d rest :
  descriptor_ok d -> readDescriptor (printed d ++ rest) = Some (d, rest).
Proof.
  destruct d as [name dis suf]. intros [Hn Hd]. unfold printed. cbn [d_name d_disambiguator d_suffix] in *.
  destruct suf; try done; subst;
    try (apply readDescriptor_plain; [done | done | done | by right | done]).
  - destruct Hd as [Hdis Hne].
    change (s! "(") with ["("%char]. cbn [app].
    apply (readDescriptor_plain name "(" (addEscaped [] dis ++ s! ").")); [done | done | done | by left |].
    rewrite <- app_assoc. cbn [readSuffix]. cbv beta iota delta [char_eqb].
    rewrite readName_escaped by done. cbn [mbind option_bind]. by rewrite expect_app.
  - change (s! "[") with ["["%char]. rewrite <- !app_assoc. cbn [app readDescriptor].
    rewrite readName_escaped by done. cbn [mbind option_bind]. by rewrite expect_app.
  - change (s! "(") with ["("%char]. rewrite <- !app_assoc. cbn [app readDescriptor].
    rewrite readName_escaped by done. cbn [mbind option_bind]. by rewrite expect_app.
Qed.

Lemma printed_nonempty d : descriptor_ok d -> printed d <> [].
Proof.
  intros [_ Hd]. unfold printed. destruct (d_suffix d); try done; by destruct (addEscaped [] (d_name d)).
Qed.

Lemma readDescriptors_printed ds fuel :
  Forall descriptor_ok ds -> (length (flat_map printed ds) <= fuel)%nat ->
  readDescriptors fuel (flat_map printed ds) = Some ds.
Proof.
  intros Hds. revert fuel. induction Hds as [| d ds Hd _ IH]; intros fuel Hf; [by destruct fuel |].
  cbn [flat_map] in *. pose proof (printed_nonempty d Hd) as Hne. rewrite length_app in Hf.
  pose proof (readDescriptor_printed d (flat_map printed ds) Hd) as Hr.
  destruct (printed d) as [| c p] eqn:Ep; [done |]. cbn [length app] in *.
  destruct fuel as [| fuel]; [lia |]. cbn [readDescriptors]. rewrite Hr. cbn [mbind option_bind].
  rewrite IH by lia. done.
Qed.

(** ** Whole symbols *)

Lemma doubled_head x s : head (doubled x s) = head s.
Proof.
  destruct s as [| c s]; [done |]. cbn. destruct (char_eqb c x) eqn:E; [| done].
  apply char_eqb_true in E as ->. done.
Qed.

(** A field is printed with its spaces doubled and closed by a space. *)
Definition printedField (f : str) : str := doubled " " (match f with [] => s! "." | _ => f end).

Lemma emitField_printed f out : emitField f out = out ++ printedField f ++ s! " ".
Proof.
  unfold emitField, printedField, addSpaceEscaped. destruct f as [| c f]; [done |].
  case_bool_decide as E; [by rewrite <- app_assoc |].
  rewrite doubled_none by done. by rewrite <- app_assoc.
Qed.

Lemma readField_printed f rest :
  field_ok f -> head rest <> Some " "%char -> readField (printedField f ++ s! " " ++ rest) = Some (f, rest).
Proof.
  intros [Hdot _] Hr. unfold readField, printedField. change (s! " ") with [" "%char]. cbn [app].
  rewrite readUntil_doubled by done. cbn [mbind option_bind].
  destruct f as [| c f]; [done |]. by rewrite bool_decide_eq_false_2.
Qed.

Lemma printedField_head f rest :
  field_ok f -> head (printedField f ++ s! " " ++ rest) <> Some " "%char.
Proof.
  intros [_ Hh]. unfold printedField. destruct f as [| c f]; [done |].
  pose proof (doubled_head " " (c :: f)) as Hd. destruct (doubled " " (c :: f)); cbn in *; congruence.
Qed.

Lemma printed_head d rest : descriptor_ok d -> head (printed d ++ rest) <> Some " "%char.
Proof.
  intros [_ Hd]. unfold printed.
  destruct (d_suffix d); try done;
    (destruct (addEscaped [] (d_name d)) as [| c s] eqn:E; cbn [app head]; [done |]);
    intros [= ->];
    (assert (Hne : d_name d <> []) by (intros Hnil; by rewrite Hnil in E));
    (destruct (addEscaped_head _ _ _ Hne E) as [Hc | Hc]; [vm_compute in Hc |]; done).
Qed.

Lemma readSymbol_emitted s out :
  symbol_ok s -> emitSymbolString s [] = (OkStatus, out) -> readSymbol out = Some s.
Proof.
  destruct s as [[[name version] |] ds]; intros (Hp & Hne & Hds); cbn in Hp, Hne, Hds; [| done].
  destruct Hp as [Hname Hversion]. unfold emitSymbolString. cbn [s_package s_descriptors p_name p_version].
  rewrite !emitField_printed. destruct ds as [| d ds]; [done |]. rewrite emitDescriptors_printed by done.
  intros H. apply (f_equal snd) in H. cbn [snd] in H. subst out. unfold readSymbol. rewrite <- !app_assoc, ?app_nil_l, expect_app. cbn [mbind option_bind].
  assert (Hhead : head (flat_map printed (d :: ds)) <> Some " "%char).
  { cbn [flat_map]. apply printed_head. by apply Forall_cons in Hds as [? _]. }
  rewrite readField_printed; [| done | by apply printedField_head]. cbn [mbind option_bind].
  rewrite readField_printed by done. cbn [mbind option_bind].
  by rewrite readDescriptors_printed.
Qed.

(** ** Properties *)

(** Text from source files becomes well-formed UTF-8. Escaping terminates on every text, its
    result is well-formed UTF-8, and well-formed text is left as it is. The decoder is a parameter
    with its documented behaviour. *)
Theorem escapeInvalidUtf8_valid decode text :
  validating decode ->
  exists out, escapeInvalidUtf8 decode text = Some out /\ valid_utf8 out /\
    (valid_utf8 text -> out = text).
Proof. intros H. by apply escape_loop_spec. Qed.

Lemma escapeInvalidUtf8_valid_witness :
  exists out, escapeInvalidUtf8 utf8_char (char_of_byte 0xC3 :: char_of_byte 0xA9 :: [char_of_byte 0xFF]) = Some out /\
    valid_utf8 out /\ out = char_of_byte 0xC3 :: char_of_byte 0xA9 :: s! "\377".
Proof.
  destruct (escapeInvalidUtf8_valid utf8_char (char_of_byte 0xC3 :: char_of_byte 0xA9 :: [char_of_byte 0xFF]))
    as (out & E & Hv & _); [intros s; reflexivity |].
  exists out. split; [exact E |]. split; [exact Hv |]. vm_compute in E. injection E as <-. reflexivity.
Defined.

(** C34: printed symbols identify what they stand for. Two symbols in order ([symbol_ok]) whose printing
    succeeds with the same string are the same symbol: the same gem, version and path of descriptors. A symbol is in order
    if it has a package, whose name and version are neither a dot nor start with a space, and at least one descriptor, if
    its descriptors have the suffixes that the indexer uses, disambiguators on methods only, and non-empty names of
    methods, and if no other special character comes after the last backtick of a name. Otherwise the names may have any
    characters. *)
Theorem emitSymbolString_injective s1 s2 out :
  symbol_ok s1 -> symbol_ok s2 ->
  emitSymbolString s1 [] = (OkStatus, out) -> emitSymbolString s2 [] = (OkStatus, out) -> s1 = s2.
Proof.
  intros H1 H2 E1 E2. apply readSymbol_emitted in E1, E2; [| done | done]. congruence.
Qed.

Definition sampleSymbol : Symbol :=
  mkSymbol (Some (mkPackage s! "my gem" s! "1.0"))
    [mkDescriptor s! "Foo" [] TypeSuffix; mkDescriptor s! "[]=" [] MethodSuffix;
     mkDescriptor s! "a`" [] ParameterSuffix].

Lemma sampleSymbol_ok : symbol_ok sampleSymbol.
Proof.
  assert (Hno : forall n, bool_decide (backtick ∉ n) = true -> name_ok n)
    by (intros n H; left; by apply bool_decide_eq_true in H).
  split; [split; split; vm_compute; discriminate |]. split; [discriminate |].
  apply Forall_cons_2; [split; [by apply Hno | done] |].
  apply Forall_cons_2; [split; [by apply Hno |]; split; [by apply Hno | done] |].
  apply Forall_cons_2; [split; [by right | done] | constructor].
Qed.

Lemma emitSymbolString_injective_witness :
  exists out, emitSymbolString sampleSymbol [] = (OkStatus, out) /\
    out = s! "scip-ruby gem my  gem 1.0 Foo#`[]=`().(`a```)" /\
    forall s, symbol_ok s -> emitSymbolString s [] = (OkStatus, out) -> s = sampleSymbol.
Proof.
  exists s! "scip-ruby gem my  gem 1.0 Foo#`[]=`().(`a```)". split; [reflexivity |]. split; [reflexivity |].
  intros s Hs E. eapply emitSymbolString_injective; [exact Hs | exact sampleSymbol_ok | exact E | reflexivity].
Defined.

(** The flag that asks for backticks to be doubled is overwritten by every later special
    character, so a name with a backtick followed by one is printed without doubling, against the
    documented grammar, and collides with a path of two other names. *)
Theorem addEscaped_collision :
  let joined := mkSymbol (Some (mkPackage s! "g" s! "1")) [mkDescriptor s! "a!`#`b!" [] TypeSuffix] in
  let path := mkSymbol (Some (mkPackage s! "g" s! "1"))
                [mkDescriptor s! "a!" [] TypeSuffix; mkDescriptor s! "b!" [] TypeSuffix] in
  joined <> path /\ emitSymbolString joined [] = emitSymbolString path [] /\
  (emitSymbolString path []).1 = OkStatus.
Proof. split; [discriminate |]. split; reflexivity. Qed.
