(* ===== verification/ScipProto.v ===== *)
(** * The order of SCIP messages

    Models src/scip_indexer/SCIPProtoExt.cc, the comparisons by which the indexer sorts the
    occurrences and symbols of a document before it writes them. The messages are those of
    src/proto/SCIP.proto; [std::string::compare] orders by unsigned bytes, and only the sign of its
    result is specified. *)

From S2P Require Import Prelude.

#[local] Open Scope Z_scope.

(** ** Messages *)

Record Diagnostic := mkDiagnostic {
  severity : Z; code : str; message : str; source : str; tags : list Z }.

Record Occurrence := mkOccurrence {
  range : list Z; symbol : str; symbol_roles : Z; override_documentation : list str;
  syntax_kind : Z; diagnostics : list Diagnostic; enclosing_range : list Z }.

Record Relationship := mkRelationship {
  r_symbol : str; is_reference : bool; is_implementation : bool; is_type_definition : bool;
  is_definition : bool }.

Record SymbolInformation := mkSymbolInformation {
  s_symbol : str; documentation : list str; relationships : list Relationship }.

(** ** Comparisons *)

(** The macro [CHECK_CMP]: return unless the comparison is zero. *)
Definition check_cmp (cmp rest : Z) : Z := if cmp =? 0 then rest else cmp.

(** The difference of two [int]s. *)
Definition diff (a b : Z) : Z := i32 (a - b).

(** [std::string::compare] *)
Fixpoint str_compare (s t : str) : Z :=
  match s, t with
  | [], [] => 0
  | [], _ :: _ => -1
  | _ :: _, [] => 1
  | c :: s, d :: t =>
      if byte_of_char c <? byte_of_char d then -1
      else if byte_of_char d <? byte_of_char c then 1
      else str_compare s t
  end.

(** [for (auto i = 0; i < l.size(); i++) CHECK_CMP(cmp(l(i), k(i)))] on lists of the same size *)
Fixpoint compare_each {A} (cmp : A -> A -> Z) (l k : list A) (rest : Z) : Z :=
  match l, k with
  | a :: l, b :: k => check_cmp (cmp a b) (compare_each cmp l k rest)
  | _, _ => rest
  end.

Definition size_diff {A} (l k : list A) : Z := diff (Z.of_nat (length l)) (Z.of_nat (length k)).

(** The sizes, then the elements. *)
Definition compare_list {A} (cmp : A -> A -> Z) (l k : list A) (rest : Z) : Z :=
  check_cmp (size_diff l k) (compare_each cmp l k rest).

Definition compareDiagnostic (d1 d2 : Diagnostic) : Z :=
  check_cmp (diff (severity d1) (severity d2))
  (check_cmp (str_compare (code d1) (code d2))
  (check_cmp (str_compare (message d1) (message d2))
  (check_cmp (str_compare (source d1) (source d2))
  (compare_list diff (tags d1) (tags d2) 0)))).

Definition compareOccurrence (o1 o2 : Occurrence) : Z :=
  compare_list diff (range o1) (range o2)
  (check_cmp (str_compare (symbol o1) (symbol o2))
  (check_cmp (diff (symbol_roles o1) (symbol_roles o2))
  (compare_list str_compare (override_documentation o1) (override_documentation o2)
  (check_cmp (diff (syntax_kind o1) (syntax_kind o2))
  (compare_list compareDiagnostic (diagnostics o1) (diagnostics o2) 0))))).

Definition compareBool (b1 b2 : bool) : Z := u1_of_bool b1 - u1_of_bool b2.

Definition compareRelationship (r1 r2 : Relationship) : Z :=
  check_cmp (str_compare (r_symbol r1) (r_symbol r2))
  (check_cmp (compareBool (is_reference r1) (is_reference r2))
  (check_cmp (compareBool (is_implementation r1) (is_implementation r2))
  (check_cmp (compareBool (is_type_definition r1) (is_type_definition r2))
  (check_cmp (compareBool (is_definition r1) (is_definition r2)) 0)))).

Definition compareSymbolInformation (s1 s2 : SymbolInformation) : Z :=
  check_cmp (str_compare (s_symbol s1) (s_symbol s2))
  (compare_list str_compare (documentation s1) (documentation s2)
  (compare_list compareRelationship (relationships s1) (relationships s2) 0)).

(** ** Strict weak orders

    What sorting needs of a comparison on the values that satisfy [ok]: the values it does not
    tell apart are those that [R] relates. *)

Class Comparison {A} (ok : A -> Prop) (R : relation A) (cmp : A -> A -> Z) : Prop := {
  cmp_equiv :: Equivalence R;
  cmp_zero : forall a b, ok a -> ok b -> cmp a b = 0 <-> R a b;
  cmp_flip : forall a b, ok a -> ok b -> cmp a b < 0 <-> 0 < cmp b a;
  cmp_trans : forall a b c, ok a -> ok b -> ok c -> cmp a b < 0 -> cmp b c < 0 -> cmp a c < 0;
}.

Section comparison.
Context {A} {ok : A -> Prop} {R : relation A} {cmp : A -> A -> Z} {HC : Comparison ok R cmp}.
Implicit Types a b c : A.

Lemma cmp_cases a b : ok a -> ok b -> cmp a b < 0 \/ R a b \/ cmp b a < 0.
Proof.
  intros Ha Hb. pose proof (cmp_zero a b Ha Hb). pose proof (cmp_flip b a Hb Ha).
  destruct (Z.lt_trichotomy (cmp a b) 0) as [|[|]]; tauto.
Qed.

Lemma cmp_irrefl a b : ok a -> ok b -> R a b -> ~ cmp a b < 0.
Proof. intros Ha Hb H%(cmp_zero a b Ha Hb). lia. Qed.

Lemma cmp_lt_equiv a b c : ok a -> ok b -> ok c -> cmp a b < 0 -> R b c -> cmp a c < 0.
Proof.
  intros Ha Hb Hc H HR. destruct (cmp_cases a c Ha Hc) as [|[H'|H']]; [done | |].
  - destruct (cmp_irrefl a b Ha Hb); [transitivity c; [done | by symmetry] | done].
  - destruct (cmp_irrefl c b Hc Hb); [by symmetry | by apply (cmp_trans c a b)].
Qed.

Lemma cmp_equiv_lt a b c : ok a -> ok b -> ok c -> R a b -> cmp b c < 0 -> cmp a c < 0.
Proof.
  intros Ha Hb Hc HR H. destruct (cmp_cases a c Ha Hc) as [|[H'|H']]; [done | |].
  - destruct (cmp_irrefl b c Hb Hc); [transitivity a; [by symmetry | done] | done].
  - destruct (cmp_irrefl b a Hb Ha); [by symmetry | by apply (cmp_trans b c a)].
Qed.
End comparison.

(** The values of [int] fields: their differences do not overflow. *)
Definition int_ok (z : Z) : Prop := 0 <= z < 2 ^ 31.

Lemma diff_exact a b : int_ok a -> int_ok b -> diff a b = a - b.
Proof.
  unfold int_ok, diff, i32, u32. intros Ha Hb. case_bool_decide as E.
  - destruct (Z.le_gt_cases 0 (a - b)); [rewrite Z.mod_small; lia |].
    rewrite (Z.mod_eq (a - b)) in E by lia.
    assert ((a - b) / 2 ^ 32 = -1) as Hd; [| rewrite Hd in E; lia].
    symmetry. apply (Z.div_unique (a - b) (2 ^ 32) (-1) (a - b + 2 ^ 32)); lia.
  - destruct (Z.le_gt_cases 0 (a - b)); [rewrite Z.mod_small in E; lia |].
    rewrite Z.mod_eq by lia. assert ((a - b) / 2 ^ 32 = -1) as ->; [| lia].
    symmetry. apply (Z.div_unique (a - b) (2 ^ 32) (-1) (a - b + 2 ^ 32)); lia.
Qed.

#[export] Instance diff_comparison : Comparison int_ok eq diff.
Proof.
  split; [apply _ | intros; rewrite !diff_exact in * by done; lia ..].
Qed.

#[export] Instance str_comparison : Comparison (fun _ => True) eq str_compare.
Proof.
  split.
  - apply _.
  - intros s t _ _. revert t. induction s as [| c s IH]; intros [| d t]; cbn; try done.
    destruct (Z.ltb_spec (byte_of_char c) (byte_of_char d)); [split; [done | intros [= -> ->]; lia] |].
    destruct (Z.ltb_spec (byte_of_char d) (byte_of_char c)); [split; [done | intros [= -> ->]; lia] |].
    rewrite IH. split; [intros ->; f_equal; apply byte_of_char_inj; lia | by intros [= _ ->]].
  - intros s t _ _. revert t. induction s as [| c s IH]; intros [| d t]; cbn; try lia.
    destruct (Z.ltb_spec (byte_of_char c) (byte_of_char d)), (Z.ltb_spec (byte_of_char d) (byte_of_char c));
      try lia. apply IH.
  - intros s t u _ _ _. revert t u. induction s as [| c s IH]; intros [| d t] [| e u]; cbn; try lia.
    destruct (Z.ltb_spec (byte_of_char c) (byte_of_char d)), (Z.ltb_spec (byte_of_char d) (byte_of_char c)),
      (Z.ltb_spec (byte_of_char d) (byte_of_char e)), (Z.ltb_spec (byte_of_char e) (byte_of_char d)),
      (Z.ltb_spec (byte_of_char c) (byte_of_char e)), (Z.ltb_spec (byte_of_char e) (byte_of_char c));
      try lia. apply IH.
Qed.

#[export] Instance bool_comparison : Comparison (fun _ => True) eq compareBool.
Proof. split; [apply _ | intros [] [] | intros [] [] | intros [] [] []]; cbn; intros; (lia || done). Qed.

(** ** Composition *)

#[export] Instance zero_comparison {A} (ok : A -> Prop) : Comparison ok (fun _ _ => True) (fun _ _ => 0).
Proof. by split. Qed.

Lemma check_cmp_neg x y : check_cmp x y < 0 <-> x < 0 \/ x = 0 /\ y < 0.
Proof. unfold check_cmp. destruct (Z.eqb_spec x 0); lia. Qed.

Lemma check_cmp_pos x y : 0 < check_cmp x y <-> 0 < x \/ x = 0 /\ 0 < y.
Proof. unfold check_cmp. destruct (Z.eqb_spec x 0); lia. Qed.

Lemma check_cmp_zero x y : check_cmp x y = 0 <-> x = 0 /\ y = 0.
Proof. unfold check_cmp. destruct (Z.eqb_spec x 0); lia. Qed.

Lemma check_cmp_0_r x : check_cmp x 0 = x.
Proof. unfold check_cmp. destruct (Z.eqb_spec x 0); lia. Qed.

Lemma check_cmp_assoc x y z : check_cmp (check_cmp x y) z = check_cmp x (check_cmp y z).
Proof. unfold check_cmp. destruct (Z.eqb_spec x 0); [done |]. destruct (Z.eqb_spec x 0); done. Qed.

(** A comparison of a field, then of the rest. *)
Lemma lex_comparison {A B} (f : A -> B) {okB : B -> Prop} {RB : relation B} {cmpB}
    {okA : A -> Prop} {RA : relation A} {rest} :
  Comparison okB RB cmpB -> Comparison okA RA rest -> (forall a, okA a -> okB (f a)) ->
  Comparison okA (fun a b => RB (f a) (f b) /\ RA a b)
    (fun a b => check_cmp (cmpB (f a) (f b)) (rest a b)).
Proof.
  intros HB HA Hok. split.
  - split.
    + by intros a.
    + by intros a b [??].
    + intros a b c [??] [??]. split; by etrans.
  - intros a b Ha Hb. rewrite check_cmp_zero, (cmp_zero (f a) (f b)), (cmp_zero a b) by auto. done.
  - intros a b Ha Hb. rewrite check_cmp_neg, check_cmp_pos, (cmp_flip (f a) (f b)), (cmp_flip a b) by auto.
    rewrite (cmp_zero (f a) (f b)), (cmp_zero (f b) (f a)), (symmetry_iff RB (f a)) by auto. done.
  - intros a b c Ha Hb Hc. rewrite !check_cmp_neg.
    rewrite (cmp_zero (f a) (f b)), (cmp_zero (f b) (f c)), (cmp_zero (f a) (f c)) by auto.
    intros [H1|[H1 H2]] [H3|[H3 H4]].
    + left. eapply (cmp_trans (f a) (f b) (f c)); auto.
    + left. eapply (cmp_lt_equiv (f a) (f b) (f c)); auto.
    + left. eapply (cmp_equiv_lt (f a) (f b) (f c)); auto.
    + right. split; [by etrans | by eapply (cmp_trans a b c)].
Qed.

Lemma comparison_ext {A} (ok : A -> Prop) R R' (cmp cmp' : A -> A -> Z) :
  Comparison ok R cmp -> (forall a b, R a b <-> R' a b) -> (forall a b, cmp a b = cmp' a b) ->
  Comparison ok R' cmp'.
Proof.
  intros H HR Hc. split.
  - split.
    + intros a. apply HR. reflexivity.
    + intros a b ?%HR. apply HR. by symmetry.
    + intros a b c ?%HR ?%HR. apply HR. by etrans.
  - intros a b Ha Hb. rewrite <- Hc, <- HR. by apply cmp_zero.
  - intros a b Ha Hb. rewrite <- !Hc. by apply cmp_flip.
  - intros a b c Ha Hb Hcc. rewrite <- !Hc. by apply cmp_trans.
Qed.

(** *** Repeated fields *)

Definition list_ok {A} (ok : A -> Prop) (l : list A) : Prop := Forall ok l /\ is_size (length l).

Lemma size_diff_zero {A} (l k : list A) :
  is_size (length l) -> is_size (length k) -> size_diff l k = 0 <-> length l = length k.
Proof. unfold is_size, size_diff. intros. rewrite diff_exact by (unfold int_ok; lia). lia. Qed.

Section lists.
Context {A} {ok : A -> Prop} {R : relation A} {cmp : A -> A -> Z} {HC : Comparison ok R cmp}.

Lemma compare_each_zero l k : Forall ok l -> Forall ok k -> length l = length k ->
  compare_each cmp l k 0 = 0 <-> Forall2 R l k.
Proof.
  intros Hl. revert k. induction Hl as [| a l Ha Hl IH]; intros [| b k]; try done.
  intros [Hb Hk]%Forall_cons [= Hlen]. cbn [compare_each].
  rewrite check_cmp_zero, Forall2_cons, (cmp_zero a b), IH by done. done.
Qed.

Lemma compare_each_flip l k : Forall ok l -> Forall ok k -> length l = length k ->
  compare_each cmp l k 0 < 0 <-> 0 < compare_each cmp k l 0.
Proof.
  intros Hl. revert k. induction Hl as [| a l Ha Hl IH]; intros [| b k]; try done.
  intros [Hb Hk]%Forall_cons [= Hlen]. cbn [compare_each].
  rewrite check_cmp_neg, check_cmp_pos, (cmp_zero a b), (cmp_zero b a), (cmp_flip a b), IH by done.
  by rewrite (symmetry_iff R a).
Qed.

Lemma compare_each_trans l k m : Forall ok l -> Forall ok k -> Forall ok m ->
  length l = length k -> length k = length m ->
  compare_each cmp l k 0 < 0 -> compare_each cmp k m 0 < 0 -> compare_each cmp l m 0 < 0.
Proof.
  intros Hl. revert k m. induction Hl as [| a l Ha Hl IH]; intros [| b k] [| c m]; try done.
  intros [Hb Hk]%Forall_cons [Hc Hm]%Forall_cons [= E1] [= E2]. cbn [compare_each].
  rewrite !check_cmp_neg, (cmp_zero a b), (cmp_zero b c), (cmp_zero a c) by done.
  intros [H1|[H1 H2]] [H3|[H3 H4]].
  - left. eapply (cmp_trans a b c); auto.
  - left. eapply (cmp_lt_equiv a b c); auto.
  - left. eapply (cmp_equiv_lt a b c); auto.
  - right. split; [by etrans | by apply (IH k m)].
Qed.

#[export] Instance list_comparison :
  Comparison (list_ok ok) (Forall2 R) (fun l k => compare_list cmp l k 0).
Proof.
  unfold compare_list. split.
  - apply _.
  - intros l k [Hl ?] [Hk ?]. rewrite check_cmp_zero, size_diff_zero by done. split.
    + intros [? ?]. by apply compare_each_zero.
    + intros HR. pose proof (Forall2_length _ _ _ HR). split; [done | by apply compare_each_zero].
  - intros l k [Hl Hnl] [Hk Hnk]. rewrite check_cmp_neg, check_cmp_pos, !size_diff_zero by done.
    unfold size_diff, is_size in *. rewrite !diff_exact by (unfold int_ok; lia).
    destruct (decide (length l = length k)) as [E|]; [| lia].
    pose proof (compare_each_flip l k Hl Hk E). lia.
  - intros l k m [Hl Hnl] [Hk Hnk] [Hm Hnm]. rewrite !check_cmp_neg, !size_diff_zero by done.
    unfold size_diff, is_size in *. rewrite !diff_exact by (unfold int_ok; lia).
    intros [?|[E1 H1]] [?|[E2 H2]]; [left; lia .. |]. right. split; [lia |].
    by apply (compare_each_trans l k m).
Qed.

Lemma compare_each_rest l k rest :
  compare_each cmp l k rest = check_cmp (compare_each cmp l k 0) rest.
Proof.
  revert k. induction l as [| a l IH]; intros [| b k]; try done. cbn [compare_each].
  by rewrite IH, check_cmp_assoc.
Qed.

Lemma compare_list_rest l k rest :
  compare_list cmp l k rest = check_cmp (compare_list cmp l k 0) rest.
Proof. unfold compare_list. by rewrite compare_each_rest, check_cmp_assoc. Qed.
End lists.

Lemma list_comparison_eq {A} {ok : A -> Prop} {cmp : A -> A -> Z} :
  Comparison ok eq cmp -> Comparison (list_ok ok) eq (fun l k => compare_list cmp l k 0).
Proof.
  intros H. eapply comparison_ext; [apply (list_comparison (HC := H)) | | done].
  intros l k. by rewrite list_eq_Forall2.
Qed.

(** ** The messages' orders *)

Definition diagnostic_ok (d : Diagnostic) : Prop := int_ok (severity d) /\ list_ok int_ok (tags d).

Definition relationship_ok (r : Relationship) : Prop := True.

Definition occurrence_ok (o : Occurrence) : Prop :=
  list_ok int_ok (range o) /\ int_ok (symbol_roles o) /\
  list_ok (fun _ => True) (override_documentation o) /\ int_ok (syntax_kind o) /\
  list_ok diagnostic_ok (diagnostics o).

Definition symbol_info_ok (s : SymbolInformation) : Prop :=
  list_ok (fun _ => True) (documentation s) /\ list_ok relationship_ok (relationships s).

(** The occurrences that the order does not tell apart: [compareOccurrence] does not read
    [enclosing_range]. *)
Definition same_occurrence (o1 o2 : Occurrence) : Prop :=
  range o1 = range o2 /\ symbol o1 = symbol o2 /\ symbol_roles o1 = symbol_roles o2 /\
  override_documentation o1 = override_documentation o2 /\ syntax_kind o1 = syntax_kind o2 /\
  diagnostics o1 = diagnostics o2.

#[export] Instance diagnostic_comparison : Comparison diagnostic_ok eq compareDiagnostic.
Proof.
  pose proof (zero_comparison diagnostic_ok) as H.
  apply (lex_comparison tags (list_comparison_eq diff_comparison)) in H; [| by intros ? []].
  apply (lex_comparison source str_comparison) in H; [| done].
  apply (lex_comparison message str_comparison) in H; [| done].
  apply (lex_comparison code str_comparison) in H; [| done].
  apply (lex_comparison severity diff_comparison) in H; [| by intros ? []].
  eapply comparison_ext; [apply H | |].
  - intros [] []. cbn. split; [intros; destruct_and!; congruence | by intros [= -> -> -> -> ->]].
  - intros a b. cbn. unfold compareDiagnostic. by rewrite check_cmp_0_r.
Qed.

#[export] Instance occurrence_comparison : Comparison occurrence_ok same_occurrence compareOccurrence.
Proof.
  pose proof (zero_comparison occurrence_ok) as H.
  apply (lex_comparison diagnostics (list_comparison_eq diagnostic_comparison)) in H;
    [| unfold occurrence_ok; tauto].
  apply (lex_comparison syntax_kind diff_comparison) in H; [| unfold occurrence_ok; tauto].
  apply (lex_comparison override_documentation (list_comparison_eq str_comparison)) in H;
    [| unfold occurrence_ok; tauto].
  apply (lex_comparison symbol_roles diff_comparison) in H; [| unfold occurrence_ok; tauto].
  apply (lex_comparison symbol str_comparison) in H; [| done].
  apply (lex_comparison range (list_comparison_eq diff_comparison)) in H; [| unfold occurrence_ok; tauto].
  eapply comparison_ext; [apply H | |].
  - intros a b. unfold same_occurrence. tauto.
  - intros a b. cbn. unfold compareOccurrence. rewrite check_cmp_0_r.
    by rewrite (compare_list_rest (range a) _ (check_cmp _ _)),
      (compare_list_rest (override_documentation a) _ (check_cmp _ _)).
Qed.

#[export] Instance relationship_comparison : Comparison relationship_ok eq compareRelationship.
Proof.
  pose proof (zero_comparison relationship_ok) as H.
  apply (lex_comparison is_definition bool_comparison) in H; [| done].
  apply (lex_comparison is_type_definition bool_comparison) in H; [| done].
  apply (lex_comparison is_implementation bool_comparison) in H; [| done].
  apply (lex_comparison is_reference bool_comparison) in H; [| done].
  apply (lex_comparison r_symbol str_comparison) in H; [| done].
  eapply comparison_ext; [apply H | | done].
  intros [] []. cbn. split; [intros; destruct_and!; congruence | by intros [= -> -> -> -> ->]].
Qed.

#[export] Instance symbol_info_comparison :
  Comparison symbol_info_ok eq compareSymbolInformation.
Proof.
  pose proof (zero_comparison symbol_info_ok) as H.
  apply (lex_comparison relationships (list_comparison_eq relationship_comparison)) in H;
    [| by intros ? []].
  apply (lex_comparison documentation (list_comparison_eq str_comparison)) in H; [| by intros ? []].
  apply (lex_comparison s_symbol str_comparison) in H; [| done].
  eapply comparison_ext; [apply H | |].
  - intros [] []. cbn. split; [intros; destruct_and!; congruence | by intros [= -> -> ->]].
  - intros a b. cbn. unfold compareSymbolInformation.
    by rewrite check_cmp_0_r, (compare_list_rest (documentation a) _ (compare_list _ _ _ _)).
Qed.

(** ** Sorting

    [fast_sort(l, [](auto &x, auto &y) { return cmp(x, y) < 0; })] calls pdqsort
    (src/common/sort/sort.h), which is not part of the repository. What is known of it: if the
    comparison is a strict weak order on the elements, the result is a permutation of the argument
    in which no element is less than an earlier one. *)

Definition sorted_by {A} (cmp : A -> A -> Z) (l : list A) : Prop :=
  StronglySorted (fun a b => ~ cmp b a < 0) l.

Definition sorts {A} (ok : A -> Prop) (cmp : A -> A -> Z) (sort : list A -> list A) : Prop :=
  forall l, Forall ok l -> sort l ≡ₚ l /\ sorted_by cmp (sort l).

(** A function that satisfies it. *)
Fixpoint insert_by {A} (cmp : A -> A -> Z) (a : A) (l : list A) : list A :=
  match l with
  | [] => [a]
  | b :: l' => if cmp b a <? 0 then b :: insert_by cmp a l' else a :: l
  end.

Definition insertion_sort {A} (cmp : A -> A -> Z) (l : list A) : list A :=
  foldr (insert_by cmp) [] l.

Section sorting.
Context {A} {ok : A -> Prop} {R : relation A} {cmp : A -> A -> Z} {HC : Comparison ok R cmp}.

(** The same elements up to [R]. *)
Definition same_elements (l k : list A) : Prop := exists m, l ≡ₚ m /\ Forall2 R m k.

(** No element of a sorted list is less than its head. *)
Lemma sorted_least a l x : Forall ok (a :: l) -> sorted_by cmp (a :: l) -> x ∈ a :: l ->
  ~ cmp x a < 0.
Proof.
  intros [Ha _]%Forall_cons [_ Hs]%StronglySorted_inv [-> | Hx]%elem_of_cons.
  - by apply cmp_irrefl.
  - rewrite Forall_forall in Hs. by apply Hs.
Qed.

Lemma same_elements_head a l b k : Forall ok (a :: l) -> Forall ok (b :: k) ->
  sorted_by cmp (a :: l) -> sorted_by cmp (b :: k) -> same_elements (a :: l) (b :: k) -> R a b.
Proof.
  intros Hokl Hokk Hl Hk (m & Hp & HR).
  pose proof (proj1 (Forall_forall _ _) Hokl) as Ol. pose proof (proj1 (Forall_forall _ _) Hokk) as Ok.
  assert (exists b', b' ∈ b :: k /\ R a b') as (b' & Hb' & Rab').
  { assert (a ∈ m) as [i Hi]%list_elem_of_lookup by (rewrite <- Hp; left).
    destruct (Forall2_lookup_l _ _ _ _ _ HR Hi) as (b' & ? & ?).
    exists b'. split; [by eapply list_elem_of_lookup_2 | done]. }
  assert (exists a', a' ∈ a :: l /\ R a' b) as (a' & Ha' & Ra'b).
  { apply Forall2_cons_inv_r in HR as (a' & m' & ? & ? & ->).
    exists a'. split; [rewrite Hp; left | done]. }
  pose proof (Ol a (list_elem_of_here _ _)) as Oa. pose proof (Ok b (list_elem_of_here _ _)) as Ob.
  destruct (cmp_cases a b Oa Ob) as [H|[H|H]]; [| done |].
  - destruct (sorted_least b k b' Hokk Hk Hb'). by apply (cmp_equiv_lt b' a b); auto.
  - destruct (sorted_least a l a' Hokl Hl Ha'). by apply (cmp_equiv_lt a' b a); auto.
Qed.

Lemma same_elements_tail a l b k : R a b -> same_elements (a :: l) (b :: k) -> same_elements l k.
Proof.
  intros Hab (m & Hp & HR). apply Forall2_cons_inv_r in HR as (c & m' & Hcb & HR & ->).
  assert (a ∈ c :: m') as [-> | Ha]%elem_of_cons by (rewrite <- Hp; left).
  { exists m'. split; [by eapply Permutation.Permutation_cons_inv | done]. }
  apply list_elem_of_split in Ha as (x & y & ->).
  apply Forall2_app_inv_l in HR as (x' & k' & Hx & Hk & ->).
  apply Forall2_cons_inv_l in Hk as (b' & y' & Hb' & Hy & ->).
  exists (x ++ c :: y). split.
  - apply (Permutation.Permutation_cons_inv (a := a)). rewrite Hp. solve_Permutation.
  - apply Forall2_app; [done |]. constructor; [| done].
    transitivity b; [done |]. transitivity a; [by symmetry | done].
Qed.

Lemma sorted_unique_up_to l k : Forall ok l -> Forall ok k ->
  sorted_by cmp l -> sorted_by cmp k -> same_elements l k -> Forall2 R l k.
Proof.
  revert k. induction l as [| a l IH]; intros [| b k] Ol Ok Hl Hk HS.
  - done.
  - destruct HS as (m & Hp%Permutation.Permutation_nil & H). subst. inversion H.
  - destruct HS as (m & Hp & H%Forall2_nil_inv_r). subst. by apply Permutation.Permutation_sym, Permutation.Permutation_nil_cons in Hp.
  - assert (R a b) as Hab by by eapply same_elements_head.
    constructor; [done |]. apply IH.
    + by apply Forall_cons in Ol as [].
    + by apply Forall_cons in Ok as [].
    + by apply StronglySorted_inv in Hl as [].
    + by apply StronglySorted_inv in Hk as [].
    + by eapply same_elements_tail.
Qed.

(** Two sorting functions give the same list up to [R] on permutations of one list. *)
Lemma sorts_unique sort1 sort2 l k : sorts ok cmp sort1 -> sorts ok cmp sort2 -> Forall ok l -> l ≡ₚ k ->
  Forall2 R (sort1 l) (sort2 k).
Proof.
  intros H1 H2 Hl Hp. destruct (H1 l Hl) as [P1 S1]. destruct (H2 k) as [P2 S2]; [by rewrite <- Hp |].
  apply sorted_unique_up_to; try done.
  - by rewrite P1.
  - by rewrite P2, <- Hp.
  - exists (sort2 k). split; [by rewrite P1, P2 | reflexivity].
Qed.

Lemma insert_by_perm a l : insert_by cmp a l ≡ₚ a :: l.
Proof.
  induction l as [| b l IH]; cbn [insert_by]; [done |]. destruct (cmp b a <? 0); [| done].
  rewrite IH. apply Permutation.perm_swap.
Qed.

Lemma insert_by_sorted a l : ok a -> Forall ok l -> sorted_by cmp l -> sorted_by cmp (insert_by cmp a l).
Proof.
  intros Ha Hl Hs. revert Hl. induction Hs as [| b l Hs IH Hb]; intros Hl; cbn [insert_by].
  { repeat constructor. }
  pose proof Hl as [Hokb Hokl]%Forall_cons. destruct (Z.ltb_spec (cmp b a) 0) as [Hlt | Hge].
  - constructor; [by apply IH |]. rewrite insert_by_perm. constructor; [| done].
    intros H. apply (cmp_irrefl a a); [done .. | reflexivity | by apply (cmp_trans a b a)].
  - constructor; [by constructor |]. constructor; [lia |].
    rewrite Forall_forall in Hb, Hokl |- *. intros c Hc Hca.
    destruct (cmp_cases b a) as [|[H|H]]; [done | done | lia | |].
    + destruct (Hb c Hc). apply (cmp_lt_equiv c a b); auto. by symmetry.
    + destruct (Hb c Hc). apply (cmp_trans c a b); auto.
Qed.

Lemma insertion_sort_sorts : sorts ok cmp (insertion_sort cmp).
Proof.
  intros l Hl. induction Hl as [| a l Ha Hl [IHp IHs]].
  { split; [done | constructor]. }
  change (insertion_sort cmp (a :: l)) with (insert_by cmp a (insertion_sort cmp l)).
  split; [by rewrite insert_by_perm, IHp |]. apply insert_by_sorted; [done | by rewrite IHp | done].
Qed.
End sorting.

(** ** Properties *)

(** On occurrences whose integer fields are non-negative [int]s and whose repeated fields have
    [int] sizes, [compareOccurrence] is a strict weak order: it is antisymmetric and transitive,
    its zeros are exactly the pairs that agree in range, symbol, roles, override documentation,
    syntax kind and diagnostics, and any two sorting functions put two permutations of the same
    occurrences in the same order up to that equality, so the occurrences of a document do not
    depend on the order in which they were recorded. *)
Theorem compareOccurrence_order sort1 sort2 l k :
  sorts occurrence_ok compareOccurrence sort1 -> sorts occurrence_ok compareOccurrence sort2 ->
  Forall occurrence_ok l -> l ≡ₚ k ->
  Forall2 same_occurrence (sort1 l) (sort2 k) /\
  (forall a b, a ∈ l -> b ∈ l -> compareOccurrence a b = 0 <-> same_occurrence a b) /\
  (forall a b, a ∈ l -> b ∈ l -> compareOccurrence a b < 0 <-> 0 < compareOccurrence b a) /\
  (forall a b c, a ∈ l -> b ∈ l -> c ∈ l ->
    compareOccurrence a b < 0 -> compareOccurrence b c < 0 -> compareOccurrence a c < 0).
Proof.
  intros H1 H2 Hl Hp. split; [by apply sorts_unique |]. rewrite Forall_forall in Hl.
  repeat split_and; intros; [apply cmp_zero | apply cmp_flip | eapply (cmp_trans a b c)]; eauto.
Qed.

Definition two_occurrences : list Occurrence :=
  [mkOccurrence [3; 2; 5] s!"b" 1 [] 0 [] [];
   mkOccurrence [3; 2; 5] s!"a" 0 [s!"doc"] 0 [mkDiagnostic 1 s!"c" s!"m" s!"s" [1]] [1; 0; 9; 4]].

Lemma two_occurrences_ok : Forall occurrence_ok two_occurrences.
Proof. repeat constructor; done. Qed.

Lemma compareOccurrence_order_witness :
  Forall2 same_occurrence (insertion_sort compareOccurrence two_occurrences)
    (insertion_sort compareOccurrence (reverse two_occurrences)).
Proof.
  apply (compareOccurrence_order _ _ two_occurrences (reverse two_occurrences)).
  - apply insertion_sort_sorts.
  - apply insertion_sort_sorts.
  - apply two_occurrences_ok.
  - apply Permutation.perm_swap.
Defined.

(** [compareSymbolInformation] tells apart any two different symbols: any two sorting functions
    give the same list on two permutations of the same symbols. *)
Theorem compareSymbolInformation_order sort1 sort2 l k :
  sorts symbol_info_ok compareSymbolInformation sort1 ->
  sorts symbol_info_ok compareSymbolInformation sort2 ->
  Forall symbol_info_ok l -> l ≡ₚ k ->
  sort1 l = sort2 k /\
  (forall a b, a ∈ l -> b ∈ l -> compareSymbolInformation a b = 0 <-> a = b).
Proof.
  intros H1 H2 Hl Hp. split; [by apply list_eq_Forall2, sorts_unique |].
  rewrite Forall_forall in Hl. intros; apply cmp_zero; auto.
Qed.

Definition two_symbols : list SymbolInformation :=
  [mkSymbolInformation s!"b" [s!"doc"] [mkRelationship s!"a" true false false false];
   mkSymbolInformation s!"b" [s!"doc"] [mkRelationship s!"a" false false false true]].

Lemma compareSymbolInformation_order_witness :
  insertion_sort compareSymbolInformation two_symbols =
  insertion_sort compareSymbolInformation (reverse two_symbols).
Proof.
  apply (compareSymbolInformation_order _ _ two_symbols (reverse two_symbols)).
  - apply insertion_sort_sorts.
  - apply insertion_sort_sorts.
  - repeat constructor; done.
  - apply Permutation.perm_swap.
Defined.
