(* ===== verification/ScipGem.v ===== *)
(** * Gem metadata

    Models src/scip_indexer/SCIPGemMetadata.h and .cc: how the indexer finds the name and version of
    the gem a file belongs to, which become part of every symbol. Texts are byte strings; the file
    system is given by the listing of the directory, a function that reads a file, and the name of
    the current directory. A [None] at the outermost level of [tryParseFilepath] and
    [lookupGemForFile] stands for the exception of [std::optional::value]. *)

From S2P Require Import Prelude Pickler FileHash Files.

#[local] Open Scope Z_scope.

(** ** Text *)

(** [absl::StrSplit(s, c)]: one piece more than there are delimiters *)
Fixpoint split_on (c : ascii) (s : str) : list str :=
  match s with
  | [] => [[]]
  | d :: s =>
      if char_eqb d c then [] :: split_on c s
      else match split_on c s with
           | piece :: pieces => (d :: piece) :: pieces
           | [] => [[d]]
           end
  end.

(** The lines that [while (getline(lines, line))] reads: a final newline ends the last line. *)
Definition getlines (s : str) : list str :=
  let pieces := split_on newline s in
  match last pieces with
  | Some [] => take (length pieces - 1) pieces
  | _ => pieces
  end.

(** *** Regular expressions

    The expressions of this file are sequences of character classes, repeated greedily, with an
    optional literal; matching backtracks from the longest repetition to the shortest, as ECMAScript
    prescribes, and has to consume the whole text, as [regex_match] does. *)

Inductive item :=
| One (cls : ascii -> bool)
| Many (min : nat) (cls : ascii -> bool) (capture : bool)
| Opt (literal : list (ascii -> bool)).

Fixpoint match_literal (literal : list (ascii -> bool)) (s : str) : option str :=
  match literal, s with
  | [], _ => Some s
  | cls :: literal, c :: s => if cls c then match_literal literal s else None
  | _ :: _, [] => None
  end.

Fixpoint regex_match (r : list item) (s : str) : option (list str) :=
  match r with
  | [] => match s with [] => Some [] | _ => None end
  | One cls :: r =>
      match s with
      | c :: s => if cls c then regex_match r s else None
      | [] => None
      end
  | Many min cls capture :: r =>
      (fix try (n : nat) : option (list str) :=
         if (n <? min)%nat then None
         else
           match regex_match r (drop n s) with
           | Some groups => Some (if capture then take n s :: groups else groups)
           | None => match n with O => None | S n => try n end
           end) (count_while cls s)
  | Opt literal :: r =>
      match match_literal literal s with
      | Some s' =>
          match regex_match r s' with
          | Some groups => Some groups
          | None => regex_match r s
          end
      | None => regex_match r s
      end
  end.

Definition lit (c : ascii) : ascii -> bool := char_eqb c.

Definition literal (s : str) : list item := (fun c => One (lit c)) <$> s.

(** [\s], [.] and [[0-9]] *)
Definition space_class (c : ascii) : bool :=
  let b := byte_of_char c in (b =? 32) || ((9 <=? b) && (b <=? 13)).

Definition any_class (c : ascii) : bool :=
  let b := byte_of_char c in negb (b =? 10) && negb (b =? 13).

Definition digit_class (c : ascii) : bool :=
  let b := byte_of_char c in (48 <=? b) && (b <=? 57).

(** [[A-Za-z0-9_\-]] *)
Definition gem_class (c : ascii) : bool :=
  let b := byte_of_char c in
  ((65 <=? b) && (b <=? 90)) || ((97 <=? b) && (b <=? 122)) || digit_class c || (b =? 95) || (b =? 45).

(** ** The legacy [T::Module] pin *)

Fixpoint digits_value (acc : Z) (s : str) : Z :=
  match s with
  | [] => acc
  | c :: s => digits_value (acc * 10 + (byte_of_char c - 48)) s
  end.

(** [absl::SimpleAtoi] to a [uint32_t], on digits *)
Definition SimpleAtoi (s : str) : option Z :=
  let v := digits_value 0 s in if v <? 2 ^ 32 then Some v else None.

Definition Version : Type := Z * Z * Z.

Definition SPEC_PREFIX : str := s! "    sorbet-runtime (".

(** [^    sorbet-runtime \(([0-9]+)\.([0-9]+)\.([0-9]+)\)$] *)
Definition releasedVersion : list item :=
  literal SPEC_PREFIX ++
  [Many 1 digit_class true; One (lit "."); Many 1 digit_class true; One (lit "."); Many 1 digit_class true;
   One (lit ")")].

(** The version of a spec line, if it is a released one *)
Definition parseVersion (line : str) : option Version :=
  match regex_match releasedVersion line with
  | Some [a; b; c] =>
      a ← SimpleAtoi a; b ← SimpleAtoi b; c ← SimpleAtoi c; Some (a, b, c)
  | _ => None
  end.

(** The comparison of arrays *)
Definition version_lt (v w : Version) : bool :=
  let '(v0, v1, v2) := v in
  let '(w0, w1, w2) := w in
  (v0 <? w0) || ((v0 =? w0) && ((v1 <? w1) || ((v1 =? w1) && (v2 <? w2)))).

Definition strip_cr (line : str) : str :=
  match last line with
  | Some c => if char_eqb c "013"%char then take (length line - 1) line else line
  | None => line
  end.

Record LockState := mkLockState { ls_section : str; ls_specs : bool; ls_pin : option Version }.

(** One iteration of the loop; [None] for [return false]. *)
Definition lockLine (st : LockState) (line : str) : option LockState :=
  let line := strip_cr line in
  match line with
  | c :: _ =>
      if negb (char_eqb c " ") then Some (mkLockState line false (ls_pin st))
      else if bool_decide (line = s! "  specs:") then Some (mkLockState (ls_section st) true (ls_pin st))
      else if ls_specs st && is_prefix SPEC_PREFIX line then
        if negb (bool_decide (ls_section st = s! "GEM")) then None
        else
          version ← parseVersion line;
          match ls_pin st with
          | Some pin => if bool_decide (pin = version) then Some (mkLockState (ls_section st) true (Some version))
                        else None
          | None => Some (mkLockState (ls_section st) true (Some version))
          end
      else Some st
  | [] => Some st
  end.

Fixpoint lockLines (st : LockState) (lines : list str) : option LockState :=
  match lines with
  | [] => Some st
  | line :: lines => st ← lockLine st line; lockLines st lines
  end.

Definition T_MODULE_VERSION : Version := (0, 6, 12698).

(** [contents] is [None] when there is no Gemfile.lock. *)
Definition usesLegacyTModule (contents : option str) : bool :=
  match contents with
  | None => false
  | Some contents =>
      match lockLines (mkLockState [] false None) (getlines contents) with
      | Some st =>
          match ls_pin st with
          | Some pin => version_lt pin T_MODULE_VERSION
          | None => false
          end
      | None => false
      end
  end.

(** ** Metadata *)

Record GemMetadata := mkGemMetadata { gm_name : str; gm_version : str }.

#[export] Instance GemMetadata_eq_dec : EqDecision GemMetadata.
Proof. solve_decision. Defined.

Inductive GemMetadataError :=
| configNotFoundError | multipleGemspecWarning | failedToParseGemspecWarning
| failedToParseNameFromGemspecWarning | failedToParseVersionFromGemspecWarning
| failedToParseGemfileLockWarning.

Definition is_empty (s : str) : bool := match s with [] => true | _ => false end.

Definition tryParse (nameAndVersion : str) : option GemMetadata :=
  match split_on "@" nameAndVersion with
  | [name; version] =>
      if is_empty name || is_empty version then None else Some (mkGemMetadata name version)
  | _ => None
  end.

(** *** Gemfile.lock *)

(** [\s+([A-Za-z0-9_\-]+)\s*\((.+)\)\s*] *)
Definition specLineRegex : list item :=
  [Many 1 space_class false; Many 1 gem_class true; Many 0 space_class false; One (lit "(");
   Many 1 any_class true; One (lit ")"); Many 0 space_class false].

(** The name and version of the first spec of a [PATH] section, by the loop over the lines *)
Fixpoint findPathSpec (sawPATH sawSpecs : bool) (lines : list str) : option (str * str) :=
  match lines with
  | [] => None
  | line :: lines =>
      if is_prefix s! "PATH" line then findPathSpec true sawSpecs lines
      else if sawPATH && str_contains line s! "specs:" then findPathSpec sawPATH true lines
      else if sawSpecs then
        match regex_match specLineRegex line with
        | Some [name; version] => Some (name, version)
        | _ => None
        end
      else findPathSpec sawPATH sawSpecs lines
  end.

Definition readFromGemfileLock (contents : str) : GemMetadata * list GemMetadataError :=
  match findPathSpec false false (getlines contents) with
  | Some (name, version) => (mkGemMetadata name version, [])
  | None => (mkGemMetadata [] [], [failedToParseGemfileLockWarning])
  end.

(** *** Gemspecs *)

Definition quote_class (c : ascii) : bool := char_eqb c "034" || char_eqb c "'".

(** [\s*["'](.+)["'](.freeze)?], whose dot stands for any character *)
Definition stringKeyRegex : list item :=
  [Many 0 space_class false; One quote_class; Many 1 any_class true; One quote_class;
   Opt (any_class :: (lit <$> s! "freeze"))].

Definition readValue (line : str) : str :=
  match split_on "=" line with
  | [_; value] => match regex_match stringKeyRegex value with Some [v] => v | _ => [] end
  | _ => []
  end.

Record SpecState := mkSpecState {
  sp_name : option str; sp_version : option str; sp_errors : list GemMetadataError }.

(** The rest of an iteration, once the name has been looked for *)
Definition specVersion (st : SpecState) (line : str) : SpecState :=
  match sp_version st with
  | None =>
      if str_contains line s! ".version =" then
        let version := readValue line in
        mkSpecState (sp_name st) (Some version)
          (if is_empty version then sp_errors st ++ [failedToParseVersionFromGemspecWarning]
           else sp_errors st)
      else st
  | Some _ => st
  end.

Definition specLine (st : SpecState) (line : str) : SpecState :=
  match sp_name st with
  | None =>
      if str_contains line s! ".name =" then
        let name := readValue line in
        if is_empty name then
          mkSpecState (Some name) (sp_version st) (sp_errors st ++ [failedToParseNameFromGemspecWarning])
        else specVersion (mkSpecState (Some name) (sp_version st) (sp_errors st)) line
      else specVersion st line
  | Some _ => specVersion st line
  end.

(** The loop stops once both have been found. *)
Fixpoint specLines (st : SpecState) (lines : list str) : SpecState :=
  match lines with
  | [] => st
  | line :: lines =>
      match sp_name st, sp_version st with
      | Some _, Some _ => st
      | _, _ => specLines (specLine st line) lines
      end
  end.

Definition readFromGemspec (contents : str) : GemMetadata * list GemMetadataError :=
  let st := specLines (mkSpecState None None []) (getlines contents) in
  let errors :=
    match sp_name st, sp_version st with
    | Some _, Some _ => sp_errors st
    | _, _ => sp_errors st ++ [failedToParseGemspecWarning]
    end in
  (mkGemMetadata (default [] (sp_name st)) (default [] (sp_version st)), errors).

(** *** Configuration *)

Section Config.
Context (readFile : str -> str).

(** [name = m.name().empty() ? name : m.name()] *)
Definition overwrite (old : option str) (new : str) : option str :=
  if is_empty new then old else Some new.

(** The first path with a suffix *)
Definition firstWithSuffix (suffix : str) (paths : list str) : option str := List.find (is_suffix suffix) paths.

(** [path] as seen from the end: [components.back()] without the suffix *)
Definition gemspecName (path : str) : str :=
  let component := default [] (last (split_on "/" path)) in
  if is_suffix s! ".gemspec" component then take (length component - 8) component else component.

(** [currentDirName] is the last component of the current directory. *)
Definition readFromConfig (paths : list str) (currentDirName : str) : GemMetadata * list GemMetadataError :=
  match paths with
  | [] => (mkGemMetadata currentDirName s! "latest", [configNotFoundError])
  | _ =>
      let lock := readFromGemfileLock ∘ readFile <$> firstWithSuffix s! "Gemfile.lock" paths in
      let spec := readFromGemspec ∘ readFile <$> firstWithSuffix s! ".gemspec" paths in
      let complete (r : option (GemMetadata * list GemMetadataError)) :=
        match r with
        | Some (m, _) => if is_empty (gm_name m) || is_empty (gm_version m) then None else Some m
        | None => None
        end in
      match complete lock with
      | Some m => (m, [])
      | None =>
          match complete spec with
          | Some m => (m, [])
          | None =>
              let merge (st : option str * option str * list GemMetadataError)
                        (r : option (GemMetadata * list GemMetadataError)) :=
                match r with
                | Some (m, errs) =>
                    (overwrite st.1.1 (gm_name m), overwrite st.1.2 (gm_version m), st.2 ++ errs)
                | None => st
                end in
              let '(name, version, errors) := merge (merge (None, None, []) lock) spec in
              let errors := match name, version with Some _, Some _ => [] | _, _ => errors end in
              let name :=
                match name, firstWithSuffix s! ".gemspec" paths with
                | None, Some path => Some (gemspecName path)
                | _, _ => name
                end in
              (mkGemMetadata (default currentDirName name) (default s! "latest" version), errors)
          end
      end
  end.
End Config.

(** ** The gem of a file *)

Record GemMapping := mkGemMapping {
  currentGem : option GemMetadata; gem_map : gmap Z GemMetadata; stdlibGem : GemMetadata;
  globalPlaceholderGem : GemMetadata }.

Definition newGemMapping : GemMapping :=
  mkGemMapping None ∅ (default (mkGemMetadata [] []) (tryParse s! "ruby@latest"))
    (default (mkGemMetadata [] []) (tryParse s! "_global_@latest")).

Definition markCurrentGem (gem : GemMetadata) (m : GemMapping) : GemMapping :=
  mkGemMapping (Some gem) (gem_map m) (stdlibGem m) (globalPlaceholderGem m).

Definition tryParseFilepath (filepath : str) : option (option GemMetadata) :=
  let filename := basename filepath in
  match rfind_char "." filename with
  | None => Some None
  | Some dotIndex =>
      let base := take dotIndex filename in
      if bool_decide ("@"%char ∈ base) then
        match tryParse base with
        | Some metadata => Some (Some metadata)
        | None => None
        end
      else Some (Some (mkGemMetadata base s! "latest"))
  end.

(** [file] is the reference, [filepath] the path of the file. *)
Definition lookupGemForFile (m : GemMapping) (file : Z) (filepath : str) : option (option GemMetadata) :=
  match gem_map m !! file with
  | Some gem => Some (Some gem)
  | None =>
      if is_prefix URL_PREFIX filepath then Some (Some (stdlibGem m))
      else
        (if str_contains filepath s! "sorbet/rbi/" &&
            (str_contains filepath s! "sorbet/rbi/gems/" ||
             str_contains filepath s! "sorbet/rbi/annotations/" ||
             str_contains filepath s! "sorbet/rbi/dsl/")
         then tryParseFilepath filepath
         else Some None) ≫= fun metadata =>
        match metadata with
        | Some gem => Some (Some gem)
        | None => Some (currentGem m)
        end
  end.

(** ** Splitting *)

Lemma char_eqb_spec c d : reflect (c = d) (char_eqb c d).
Proof. unfold char_eqb. case_bool_decide; by constructor. Qed.

Lemma split_on_none c s : c ∉ s -> split_on c s = [s].
Proof.
  induction s as [| d s IH]; intros Hc; cbn; [done |]. apply not_elem_of_cons in Hc as [Hd Hc].
  destruct (char_eqb_spec d c); [congruence |]. by rewrite IH.
Qed.

Lemma split_on_app c a b : c ∉ a -> split_on c (a ++ c :: b) = a :: split_on c b.
Proof.
  induction a as [| d a IH]; intros Hc; cbn.
  - by destruct (char_eqb_spec c c).
  - apply not_elem_of_cons in Hc as [Hd Hc]. destruct (char_eqb_spec d c); [congruence |]. by rewrite IH.
Qed.

(** The pieces, joined by the delimiter *)
Fixpoint join_on (c : ascii) (pieces : list str) : str :=
  match pieces with
  | [] => []
  | [piece] => piece
  | piece :: pieces => piece ++ c :: join_on c pieces
  end.

Lemma split_on_cons c s : exists piece pieces, split_on c s = piece :: pieces.
Proof.
  destruct s as [| d s]; cbn; [eauto |]. destruct (char_eqb d c); [eauto |].
  destruct (split_on c s); eauto.
Qed.

Lemma split_on_spec c s : join_on c (split_on c s) = s /\ Forall (fun piece => c ∉ piece) (split_on c s).
Proof.
  induction s as [| d s [IHj IHf]]; cbn.
  { split; [done |]. repeat constructor. apply not_elem_of_nil. }
  destruct (split_on_cons c s) as (piece & pieces & E). rewrite E in *.
  destruct (char_eqb_spec d c) as [-> | Hd].
  - split; [exact (f_equal (cons c) IHj) |]. constructor; [apply not_elem_of_nil | done].
  - apply Forall_cons in IHf as [Hp Hps]. split.
    + rewrite <- IHj. by destruct pieces.
    + constructor; [| done]. by apply not_elem_of_cons.
Qed.

Lemma is_empty_false s : is_empty s = false <-> s <> [].
Proof. by destruct s. Qed.

Lemma tryParse_Some s name version :
  tryParse s = Some (mkGemMetadata name version) <->
  s = (name ++ "@"%char :: version) /\ name <> [] /\ version <> [] /\
  ("@"%char ∉ name) /\ ("@"%char ∉ version).
Proof.
  unfold tryParse. split.
  - destruct (split_on_spec "@" s) as [Hj Hf].
    destruct (split_on "@" s) as [| a [| b [| ? ?]]] eqn:E; try done.
    destruct (is_empty a) eqn:Ea; [done |]. destruct (is_empty b) eqn:Eb; [done |]. cbn.
    intros [= <- <-]. apply is_empty_false in Ea, Eb.
    rewrite !Forall_cons in Hf. destruct Hf as (Ha & Hb & _). split_and!; by rewrite <- ?Hj.
  - intros (-> & Hn & Hv & Hn' & Hv'). rewrite split_on_app, split_on_none by done.
    apply is_empty_false in Hn, Hv. by rewrite Hn, Hv.
Qed.

(** ** Paths *)

Lemma rfind_char_none c s : c ∉ s -> rfind_char c s = None.
Proof.
  induction s as [| d s IH]; intros Hc; cbn; [done |]. apply not_elem_of_cons in Hc as [Hd Hc].
  rewrite IH by done. by destruct (char_eqb_spec d c).
Qed.

Lemma rfind_char_app c a b : c ∉ b -> rfind_char c (a ++ c :: b) = Some (length a).
Proof.
  intros Hb. induction a as [| d a IH]; cbn.
  - rewrite rfind_char_none by done. by destruct (char_eqb_spec c c).
  - by rewrite IH.
Qed.

Lemma basename_app dir file : "/"%char ∉ file -> basename (dir ++ "/"%char :: file) = file.
Proof.
  intros Hf. unfold basename. rewrite rfind_char_app by done. rewrite drop_app_ge by lia.
  by replace (length dir + 1 - length dir)%nat with 1%nat by lia.
Qed.

Lemma str_contains_app p a b : str_contains (a ++ p ++ b) p = true.
Proof.
  apply bool_decide_eq_true_2. destruct (find_sub p (a ++ p ++ b)) eqn:E; [done |].
  pose proof (find_sub_None _ _ E (length a)) as H. rewrite drop_app_length in H.
  assert (is_prefix p (p ++ b) = true); [| congruence]. apply is_prefix_spec. by exists b.
Qed.

(** The path of a file that holds the RBIs of a gem *)
Definition gemRbiPath (dir base : str) : str := dir ++ s! "sorbet/rbi/gems/" ++ base ++ s! ".rbi".

Lemma tryParseFilepath_rbi dir base : "/"%char ∉ base ->
  tryParseFilepath (gemRbiPath dir base) =
    if bool_decide ("@"%char ∈ base) then
      match tryParse base with Some m => Some (Some m) | None => None end
    else Some (Some (mkGemMetadata base s! "latest")).
Proof.
  intros Hb. unfold tryParseFilepath, gemRbiPath.
  assert (E : dir ++ s! "sorbet/rbi/gems/" ++ base ++ s! ".rbi" =
    (dir ++ s! "sorbet/rbi/gems") ++ "/"%char :: (base ++ "."%char :: s! "rbi")).
  { rewrite <- app_assoc. done. }
  rewrite E, basename_app, rfind_char_app, take_app_length.
  - done.
  - by apply (bool_decide_unpack _).
  - rewrite not_elem_of_app. split; [done |]. by apply (bool_decide_unpack _).
Qed.

Lemma lookupGemForFile_rbi m file dir base :
  gem_map m !! file = None -> is_prefix URL_PREFIX (gemRbiPath dir base) = false ->
  lookupGemForFile m file (gemRbiPath dir base) =
    tryParseFilepath (gemRbiPath dir base) ≫= fun metadata =>
      match metadata with Some gem => Some (Some gem) | None => Some (currentGem m) end.
Proof.
  intros Hm Hu. unfold lookupGemForFile. rewrite Hm, Hu.
  assert (H1 : str_contains (gemRbiPath dir base) s! "sorbet/rbi/gems/" = true)
    by apply str_contains_app.
  assert (H2 : str_contains (gemRbiPath dir base) s! "sorbet/rbi/" = true).
  { apply (str_contains_app s! "sorbet/rbi/" dir (s! "gems/" ++ base ++ s! ".rbi")). }
  by rewrite H1, H2.
Qed.

(** ** Lock files *)

Lemma count_while_all f a b : forallb f a = true -> (forall c, head b = Some c -> f c = false) ->
  count_while f (a ++ b) = length a.
Proof.
  intros Ha Hb. induction a as [| c a IH]; cbn.
  - destruct b as [| c b]; [done |]. cbn. by rewrite (Hb c).
  - cbn in Ha. apply andb_true_iff in Ha as [Hc Ha]. rewrite Hc. by rewrite IH.
Qed.

(** A greedy repetition of a class that what follows does not start with *)
Lemma regex_many min cls capture r a b groups :
  forallb cls a = true -> (forall c, head b = Some c -> cls c = false) -> (min <= length a)%nat ->
  regex_match r b = Some groups ->
  regex_match (Many min cls capture :: r) (a ++ b) = Some (if capture then a :: groups else groups).
Proof.
  intros Ha Hb Hmin Hr. cbn [regex_match]. rewrite (count_while_all cls a b Ha Hb).
  assert (E : (length a <? min)%nat = false) by (apply Nat.ltb_ge; lia).
  destruct (length a) eqn:El; rewrite E, <- El, drop_app_length, Hr, take_app_length; done.
Qed.

Lemma regex_one cls r c s groups : cls c = true -> regex_match r s = Some groups ->
  regex_match (One cls :: r) (c :: s) = Some groups.
Proof. intros Hc Hr. cbn [regex_match]. by rewrite Hc. Qed.

(** A greedy repetition that takes the whole text first and gives back the closing character *)
Lemma regex_many_back cls capture r a c groups :
  forallb cls (a ++ [c]) = true -> (1 <= length a)%nat ->
  regex_match r [] = None -> regex_match r [c] = Some groups ->
  regex_match (Many 1 cls capture :: r) (a ++ [c]) = Some (if capture then a :: groups else groups).
Proof.
  intros Ha Hl Hnil Hc. cbn [regex_match].
  rewrite <- (app_nil_r (a ++ [c])) at 1. rewrite (count_while_all cls (a ++ [c]) []) by done.
  rewrite length_app. cbn [length]. rewrite Nat.add_1_r.
  assert (E1 : (S (length a) <? 1)%nat = false) by (apply Nat.ltb_ge; lia). rewrite E1.
  rewrite (drop_ge (a ++ [c])) by (rewrite length_app; cbn; lia). rewrite Hnil.
  assert (E2 : (length a <? 1)%nat = false) by (apply Nat.ltb_ge; lia).
  destruct (length a) eqn:El; rewrite E2, <- El, drop_app_length, Hc, take_app_length; done.
Qed.

(** A line of a [specs:] block as Bundler writes it *)
Definition specText (name version : str) : str := s! "    " ++ name ++ s! " (" ++ version ++ s! ")".

Lemma gem_class_space c : gem_class c = true -> space_class c = false.
Proof.
  unfold gem_class, space_class, digit_class. intros H. apply orb_false_intro; [| apply andb_false_iff]; lia.
Qed.

Lemma regex_spec name version :
  name <> [] -> version <> [] -> forallb gem_class name = true -> forallb any_class version = true ->
  regex_match specLineRegex (specText name version) = Some [name; version].
Proof.
  intros Hn Hv Gn Gv. unfold specText, specLineRegex.
  apply (regex_many 1 space_class false _ s! "    "); [done | | cbn; lia |].
  { destruct name as [| c name]; [done |]. cbn in Gn |- *. intros c' [= <-].
    apply andb_true_iff in Gn as [Gc _]. by apply gem_class_space. }
  apply (regex_many 1 gem_class true _ name); [done | by intros c [= <-] | destruct name; cbn; [done | lia] |].
  apply (regex_many 0 space_class false _ s! " " _ _); [done | by intros c [= <-] | cbn; lia |].
  apply (regex_one _ _ "("); [done |].
  apply (regex_many_back any_class true _ version); [| destruct version; cbn; [done | lia] | done | done].
  rewrite forallb_app. by rewrite Gv.
Qed.

Lemma findPathSpec_specs name version rest :
  name <> [] -> version <> [] -> forallb gem_class name = true -> forallb any_class version = true ->
  str_contains (specText name version) s! "specs:" = false ->
  findPathSpec true true (specText name version :: rest) = Some (name, version).
Proof.
  intros Hn Hv Gn Gv Hc. cbn [findPathSpec]. rewrite Hc, (regex_spec name version) by done. done.
Qed.

(** The lines before the [specs:] line of the first [PATH] section *)
Lemma findPathSpec_path before remote rest :
  Forall (fun l => is_prefix s! "PATH" l = false) before ->
  Forall (fun l => is_prefix s! "PATH" l = false /\ str_contains l s! "specs:" = false) remote ->
  findPathSpec false false (before ++ s! "PATH" :: remote ++ s! "  specs:" :: rest) =
  findPathSpec true true rest.
Proof.
  intros Hb Hr. induction Hb as [| l before Hl Hb IH]; cbn [app findPathSpec]; [| by rewrite Hl].
  change (is_prefix s! "PATH" s! "PATH") with true. cbn iota.
  induction Hr as [| l remote [Hl Hs] Hr IH]; cbn [app findPathSpec]; [done |]. by rewrite Hl, Hs.
Qed.

(** ** Properties *)

(** [tryParse] accepts exactly the texts [name@version] with one [@] and two non-empty parts, and
    returns the parts. *)
Theorem tryParse_correct s :
  (forall name version, tryParse s = Some (mkGemMetadata name version) <->
     s = (name ++ "@"%char :: version) /\ name <> [] /\ version <> [] /\
     ("@"%char ∉ name) /\ ("@"%char ∉ version)) /\
  (tryParse s = None <-> ~ exists name version, s = (name ++ "@"%char :: version) /\ name <> [] /\
     version <> [] /\ ("@"%char ∉ name) /\ ("@"%char ∉ version)).
Proof.
  split; [apply tryParse_Some |]. destruct (tryParse s) as [[n v] |] eqn:E.
  - split; [done |]. intros H. destruct H. exists n, v. by apply tryParse_Some.
  - split; [| done]. intros _ (n & v & H). apply tryParse_Some in H. congruence.
Qed.

(** The gem of a file. An entry of the map wins over everything; a file of the payload belongs to
    Ruby; a file [.../sorbet/rbi/gems/name@version.rbi] belongs to that gem, and one without a
    version to the latest version, whatever dots the name contains; any other file belongs to the
    current gem. A file name with a second [@] makes the lookup raise. *)
Theorem lookupGemForFile_correct m file :
  (forall path gem, gem_map m !! file = Some gem -> lookupGemForFile m file path = Some (Some gem)) /\
  (gem_map m !! file = None ->
   (forall path, is_prefix URL_PREFIX path = true -> lookupGemForFile m file path = Some (Some (stdlibGem m))) /\
   (forall path, is_prefix URL_PREFIX path = false -> str_contains path s! "sorbet/rbi/" = false ->
      lookupGemForFile m file path = Some (currentGem m)) /\
   (forall dir base, "/"%char ∉ base -> is_prefix URL_PREFIX (gemRbiPath dir base) = false ->
      ("@"%char ∉ base -> lookupGemForFile m file (gemRbiPath dir base) =
         Some (Some (mkGemMetadata base s! "latest"))) /\
      (forall name version, tryParse base = Some (mkGemMetadata name version) ->
         lookupGemForFile m file (gemRbiPath dir base) = Some (Some (mkGemMetadata name version))) /\
      ("@"%char ∈ base -> tryParse base = None -> lookupGemForFile m file (gemRbiPath dir base) = None))).
Proof.
  split; [intros path gem H; unfold lookupGemForFile; by rewrite H |]. intros Hm. split_and!.
  - intros path H. unfold lookupGemForFile. by rewrite Hm, H.
  - intros path H Hc. unfold lookupGemForFile. by rewrite Hm, H, Hc.
  - intros dir base Hb Hu. rewrite lookupGemForFile_rbi, tryParseFilepath_rbi by done. split_and!.
    + intros Ha. by rewrite bool_decide_false.
    + intros name version Hp. rewrite Hp. apply tryParse_Some in Hp as (-> & _).
      rewrite bool_decide_true; [done |]. rewrite elem_of_app, elem_of_cons. auto.
    + intros Ha Hp. by rewrite bool_decide_true, Hp.
Qed.

(** The name and version of a gem are read from its Gemfile.lock: the first spec of the first
    [PATH] section, whatever precedes it and whatever follows, for every name of letters, digits,
    underscores and dashes and every version without line breaks. *)
Theorem readFromGemfileLock_correct contents before remote name version rest :
  getlines contents =
    before ++ s! "PATH" :: remote ++ s! "  specs:" :: specText name version :: rest ->
  Forall (fun l => is_prefix s! "PATH" l = false) before ->
  Forall (fun l => is_prefix s! "PATH" l = false /\ str_contains l s! "specs:" = false) remote ->
  name <> [] -> version <> [] -> forallb gem_class name = true -> forallb any_class version = true ->
  str_contains (specText name version) s! "specs:" = false ->
  readFromGemfileLock contents = (mkGemMetadata name version, []).
Proof.
  intros E Hb Hr Hn Hv Gn Gv Hc. unfold readFromGemfileLock.
  by rewrite E, findPathSpec_path, findPathSpec_specs.
Qed.

Definition sampleLock : str :=
  s! "GIT" ++ [newline] ++ s! "PATH" ++ [newline] ++ s! "  remote: ." ++ [newline] ++
  s! "  specs:" ++ [newline] ++ s! "    my-gem (1.2.3.pre)" ++ [newline] ++ s! "      dep (>= 1)" ++ [newline].

Lemma readFromGemfileLock_correct_witness :
  readFromGemfileLock sampleLock = (mkGemMetadata s! "my-gem" s! "1.2.3.pre", []).
Proof.
  apply (readFromGemfileLock_correct _ [s! "GIT"] [s! "  remote: ."] _ _ [s! "      dep (>= 1)"]);
    [vm_compute; reflexivity | repeat constructor .. | done | done | done | done | done].
Defined.

Lemma lookupGemForFile_correct_witness :
  lookupGemForFile newGemMapping 1 (gemRbiPath s! "x/" s! "foo@1.2.3") =
  Some (Some (mkGemMetadata s! "foo" s! "1.2.3")).
Proof.
  destruct (lookupGemForFile_correct newGemMapping 1) as [_ H]. destruct (H eq_refl) as (_ & _ & Hr).
  destruct (Hr s! "x/" s! "foo@1.2.3") as (_ & H1 & _);
    [by apply (bool_decide_unpack _) | done | by apply H1].
Defined.

(** The [sorbet-runtime] entries of a lock file: the section each is in, and its line *)
Fixpoint runtimeSpecs (section : str) (specs : bool) (lines : list str) : list (str * str) :=
  match lines with
  | [] => []
  | line :: lines =>
      let line := strip_cr line in
      match line with
      | [] => runtimeSpecs section specs lines
      | c :: _ =>
          if negb (char_eqb c " ") then runtimeSpecs line false lines
          else if bool_decide (line = s! "  specs:") then runtimeSpecs section true lines
          else if specs && is_prefix SPEC_PREFIX line then (section, line) :: runtimeSpecs section specs lines
          else runtimeSpecs section specs lines
      end
  end.

(** An entry of a released version [v] from a gem server *)
Definition releasedSpec (v : Version) (entry : str * str) : Prop :=
  entry.1 = s! "GEM" /\ parseVersion entry.2 = Some v.

Ltac lock_cases IH :=
  cbn [lockLines runtimeSpecs]; unfold lockLine; cbn [ls_section ls_specs ls_pin];
  match goal with |- context [strip_cr ?l] => destruct (strip_cr l) as [| c rest] end; [by apply IH |];
  match goal with |- context [negb ?b] => destruct (negb b) end; [by apply IH |];
  case_bool_decide as Hspecs; [by apply IH |].

Lemma lockLines_sound lines : forall section specs pin st,
  lockLines (mkLockState section specs pin) lines = Some st ->
  Forall (fun entry => exists v, ls_pin st = Some v /\ releasedSpec v entry) (runtimeSpecs section specs lines) /\
  (runtimeSpecs section specs lines = [] -> ls_pin st = pin) /\
  (forall v, pin = Some v -> ls_pin st = Some v).
Proof.
  induction lines as [| line lines IH]; intros section specs pin st.
  { intros [= <-]. auto. }
  lock_cases IH. destruct (specs && is_prefix SPEC_PREFIX (c :: rest)) eqn:Ep; [| by apply IH].
  apply andb_true_iff in Ep as [-> _].
  case_bool_decide as Hg; [| done]. cbn [negb].
  destruct (parseVersion (c :: rest)) as [v |] eqn:Ev; [| done]. cbn [mbind option_bind].
  destruct pin as [pin |]; [case_bool_decide as Hp; [subst pin | done] |]; cbn [mbind option_bind];
    intros H; destruct (IH _ _ _ _ H) as (H1 & _ & H3); pose proof (H3 v eq_refl) as Hv;
    (split_and!; [constructor; [exists v; by split_and! | done] | done | congruence]).
Qed.

Lemma lockLines_complete v lines : forall section specs pin,
  Forall (releasedSpec v) (runtimeSpecs section specs lines) -> (pin = None \/ pin = Some v) ->
  exists st, lockLines (mkLockState section specs pin) lines = Some st /\
    (runtimeSpecs section specs lines <> [] -> ls_pin st = Some v).
Proof.
  induction lines as [| line lines IH]; intros section specs pin.
  { intros _ Hp. by eexists. }
  lock_cases IH. destruct (specs && is_prefix SPEC_PREFIX (c :: rest)) eqn:Ep; [| by apply IH].
  apply andb_true_iff in Ep as [-> _]. intros [[Hg Hv] Hf]%Forall_cons Hp. cbn in Hg, Hv.
  rewrite bool_decide_true by done. cbn [negb]. rewrite Hv. cbn [mbind option_bind].
  destruct (IH section true (Some v) Hf (or_intror eq_refl)) as (st & Hst & _).
  destruct (lockLines_sound _ _ _ _ _ Hst) as (_ & _ & Hpin).
  exists st. split; [| intros _; by apply Hpin].
  destruct Hp as [-> | ->]; [done |]. by rewrite bool_decide_true.
Qed.

(** The compatibility mode for old [sorbet-runtime]s is on exactly when the lock file has a
    [sorbet-runtime] entry and all of them are from a gem server and pin one released version, which
    precedes 0.6.12698. *)
Theorem usesLegacyTModule_correct contents :
  usesLegacyTModule (Some contents) = true <->
  runtimeSpecs [] false (getlines contents) <> [] /\
  exists v, version_lt v T_MODULE_VERSION = true /\
    Forall (releasedSpec v) (runtimeSpecs [] false (getlines contents)).
Proof.
  unfold usesLegacyTModule. split.
  - destruct (lockLines _ _) as [st |] eqn:E; [| done]. destruct (ls_pin st) as [v |] eqn:Ev; [| done].
    intros Hv. destruct (lockLines_sound _ _ _ _ _ E) as (Hf & Hn & _). split.
    + intros Hnil. by rewrite Hn in Ev.
    + exists v. split; [done |]. eapply Forall_impl; [exact Hf |]. intros entry (w & Hw & Hr). congruence.
  - intros (Hne & v & Hv & Hf).
    destruct (lockLines_complete v _ _ _ None Hf) as (st & -> & Hpin); [auto |].
    by rewrite (Hpin Hne).
Qed.
