(* ===== verification/ScipSymbolRef.v ===== *)
(** * SCIP symbols of program symbols

    Models src/scip_indexer/SCIPSymbolRef.h and .cc: references to program symbols, fields and
    parameters, and the SCIP symbol that stands for each: the gem of its file and the path of
    descriptors from the root of the symbol table. References are the [uint32_t] they hold, [None]
    stands for a read outside a table, an uncaught exception, or an owner chain that does not end. *)

From S2P Require Import Prelude Pickler FileHash Files Locs Types NameTable NameText Symbols SymbolRefs.
From S2P Require Import ScipUtils ScipProto ScipGem.

#[local] Open Scope Z_scope.

(** ** References *)

Record UntypedGenericSymbolRef := mkUntyped { u_selfOrOwner : Z; u_name : Z }.

#[export] Instance UntypedGenericSymbolRef_eq_dec : EqDecision UntypedGenericSymbolRef.
Proof. solve_decision. Defined.

#[export] Instance UntypedGenericSymbolRef_countable : Countable UntypedGenericSymbolRef.
Proof.
  refine (inj_countable' (fun r => (u_selfOrOwner r, u_name r)) (fun '(a, b) => mkUntyped a b) _).
  by intros [].
Defined.

Record GenericSymbolRef := mkGeneric { g_selfOrOwner : Z; g_name : Z; g_definitionType : TypePtr }.

Inductive RefKind := RClassOrModule | RField | RMethod | RParameter | RType.

#[export] Instance RefKind_eq_dec : EqDecision RefKind.
Proof. solve_decision. Defined.

(** [GenericSymbolRef::kind] *)
Definition refKind (r : GenericSymbolRef) : RefKind :=
  if negb (g_name r =? noName) then if isMethod (g_selfOrOwner r) then RParameter else RField
  else if isMethod (g_selfOrOwner r) then RMethod
  else if negb (isClassOrModule (g_selfOrOwner r)) then RType
  else RClassOrModule.

(** [withoutType]: the casts to a more specific reference and back keep a reference as it is. *)
Definition withoutType (r : GenericSymbolRef) : UntypedGenericSymbolRef :=
  match refKind r with
  | RParameter | RField => mkUntyped (g_selfOrOwner r) (g_name r)
  | RType | RMethod | RClassOrModule => mkUntyped (g_selfOrOwner r) noName
  end.

(** [operator==], which ignores the type *)
Definition sameRef (a b : GenericSymbolRef) : bool :=
  (g_selfOrOwner a =? g_selfOrOwner b) && (g_name a =? g_name b).

(** [operator<] *)
Definition refLess (a b : GenericSymbolRef) : bool :=
  (g_selfOrOwner a <? g_selfOrOwner b) ||
  ((g_selfOrOwner a =? g_selfOrOwner b) && (g_name a <? g_name b)).

(** ** Results *)

Inductive Result := okValue | skipValue | statusValue (status : Status).

(** What the indexer reads of a [GlobalState] *)
Record Program := mkProgram { pr_gs : Symbolic; pr_files : list File }.

Section Symbols.
Context (gs : Program).

(** Files are numbered from one. *)
Definition fileData (file : Z) : option File :=
  if file <=? 0 then None else pr_files gs !! Z.to_nat (file - 1).

Definition isGlobal (name : Z) : option bool :=
  if name =? noName then Some false
  else
    s ← shortName (sy_names (pr_gs gs)) name;
    Some (match s with c :: _ => char_eqb c "$" | [] => false end).

(** The suffix of a descriptor, by the kind of symbol *)
Definition kindSuffix (k : SymbolKind) : Suffix :=
  match k with
  | KMethod => MethodSuffix
  | KClassOrModule => TypeSuffix
  | KTypeParameter => TypeParameterSuffix
  | KFieldOrStaticField => TermSuffix
  | KTypeMember => TypeSuffix
  end.

Definition symbolDescriptor (cur : Z) : option Descriptor :=
  name ← symbolName (pr_gs gs) cur;
  text ← show (sy_names (pr_gs gs)) name;
  k ← symbolKind cur;
  Some (mkDescriptor text [] (kindSuffix k)).

(** [while (cur != core::Symbols::root())]: the descriptors are pushed from the inside out. *)
Fixpoint ownerDescriptors (fuel : nat) (cur : Z) (descriptors : list Descriptor)
    : option (list Descriptor) :=
  if cur =? classSymbol root then Some descriptors
  else
    match fuel with
    | O => None
    | S fuel =>
        descriptor ← symbolDescriptor cur;
        owner ← symbolOwner (pr_gs gs) cur;
        ownerDescriptors fuel owner (descriptors ++ [descriptor])
    end.

(** No chain of owners is longer than the symbol table. *)
Definition ownerFuel : nat :=
  let st := sy_table (pr_gs gs) in
  length (classAndModules st) + length (methods st) + length (fields st) + length (typeParams st) +
  length (typeMembers st).

Definition fieldDescriptor (r : UntypedGenericSymbolRef) : option (list Descriptor) :=
  if u_name r =? noName then Some []
  else
    text ← shortName (sy_names (pr_gs gs)) (u_name r);
    Some [mkDescriptor text [] (if isMethod (u_selfOrOwner r) then ParameterSuffix else TermSuffix)].

(** The gem of a symbol; [Some None] when there is none. *)
Definition symbolGem (gemMap : GemMapping) (loc : option Loc) (r : UntypedGenericSymbolRef)
    : option (option GemMetadata) :=
  isGlobal (u_name r) ≫= fun global : bool =>
  if global then Some (Some (globalPlaceholderGem gemMap))
  else
    owningFile ← match loc with
                 | Some l => Some (locFile l)
                 | None => locFile <$> symbolLoc (pr_gs gs) (u_selfOrOwner r)
                 end;
    if owningFile =? 0 then Some None
    else f ← fileData owningFile; lookupGemForFile gemMap owningFile (path_ f).

(** The result and, when it is [okValue], the symbol *)
Definition symbolForExpr (gemMap : GemMapping) (loc : option Loc) (r : UntypedGenericSymbolRef)
    : option (Result * Symbol) :=
  metadata ← symbolGem gemMap loc r;
  match metadata with
  | None => Some (skipValue, mkSymbol None [])
  | Some gem =>
      descriptors ← ownerDescriptors ownerFuel (u_selfOrOwner r) [];
      field ← fieldDescriptor r;
      Some (okValue, mkSymbol (Some (mkPackage (gm_name gem) (gm_version gem))) (rev descriptors ++ field))
  end.

(** ** Locations *)

(** [GenericSymbolRef::symbolLoc] *)
Definition refLoc (r : GenericSymbolRef) : option Loc :=
  match refKind r with
  | RParameter =>
      m ← methodData (pr_gs gs) (symbolIndex (g_selfOrOwner r));
      Some (match List.find (fun p => pi_name p =? g_name r) (me_parameters m) with
            | Some p => pi_loc p
            | None => noLoc 0
            end)
  | RMethod =>
      m ← methodData (pr_gs gs) (symbolIndex (g_selfOrOwner r));
      Some (if negb (loc_exists (me_nameLoc m)) || offsets_empty (locOffsets (me_nameLoc m))
            then lastLoc (me_locs m) else me_nameLoc m)
  | RType | RClassOrModule => symbolLoc (pr_gs gs) (g_selfOrOwner r)
  | RField => Some (noLoc 0)
  end.

(** ** Symbols of Sorbet itself *)

(** The loop of [isSorbetInternal]: each round visits a symbol that was not visited. *)
Fixpoint isSorbetInternal_loop (fuel : nat) (classT : Z) (visited : list Z) (sym : Z) : option bool :=
  match fuel with
  | O => None
  | S fuel =>
      if negb (symbol_exists sym) || bool_decide (sym ∈ visited) then Some false
      else if isClassOrModule sym &&
              ((symbolIndex sym =? Sorbet_Private (sy_wk (pr_gs gs))) ||
               (symbolIndex sym =? T_class (sy_wk (pr_gs gs))) || (symbolIndex sym =? classT))
      then Some true
      else owner ← symbolOwner (pr_gs gs) sym; isSorbetInternal_loop fuel classT (sym :: visited) owner
  end.

Definition isSorbetInternal (sym : Z) : option bool :=
  classT ← lookupSingletonClass (pr_gs gs) (T_class (sy_wk (pr_gs gs)));
  isSorbetInternal_loop (S (S ownerFuel)) classT [] sym.

Definition isSorbetInternalClassOrMethod (r : GenericSymbolRef) : option bool :=
  match refKind r with
  | RField | RParameter => Some false
  | RType | RClassOrModule | RMethod => isSorbetInternal (g_selfOrOwner r)
  end.
End Symbols.

(** ** Paths of descriptors *)

(** The owners of a symbol up to the root, each of which can be printed *)
Inductive path (gs : Program) : Z -> list Descriptor -> Prop :=
| path_root : path gs (classSymbol root) []
| path_step sym owner d ds :
    0 <= sym -> sym <> classSymbol root -> symbolDescriptor gs sym = Some d ->
    symbolOwner (pr_gs gs) sym = Some owner -> path gs owner ds -> path gs sym (ds ++ [d]).

Definition validOwner (gs : Program) (sym : Z) : option Z :=
  if sym <? 0 then None else symbolOwner (pr_gs gs) sym.

Lemma path_chain gs sym ds :
  path gs sym ds -> chain_to (validOwner gs) (classSymbol root) sym (length ds).
Proof.
  induction 1 as [| sym owner d ds Hs Hr Hd Ho Hp IH]; [constructor |].
  rewrite length_app, Nat.add_comm. cbn. eapply chain_step; [done | | done].
  unfold validOwner. destruct (Z.ltb_spec sym 0); [lia | done].
Qed.

(** References into a table of [n] symbols *)
Definition tableRefs (k : SymbolKind) (n : nat) : list Z :=
  (fun i => symbol_kind_bits k + 8 * Z.of_nat i) <$> seq 0 n.

Definition allRefs (st : SymbolTable) : list Z :=
  tableRefs KClassOrModule (length (classAndModules st)) ++ tableRefs KMethod (length (methods st)) ++
  tableRefs KFieldOrStaticField (length (fields st)) ++ tableRefs KTypeParameter (length (typeParams st)) ++
  tableRefs KTypeMember (length (typeMembers st)).

Lemma length_allRefs gs : length (allRefs (sy_table (pr_gs gs))) = ownerFuel gs.
Proof.
  unfold allRefs, tableRefs, ownerFuel. rewrite !length_app, !length_fmap, !length_seq. lia.
Qed.

Lemma symbolKind_bits sym k : symbolKind sym = Some k -> Z.land sym 7 = symbol_kind_bits k.
Proof.
  unfold symbolKind. intros H.
  destruct (Z.land sym 7) as [| p | p]; [by injection H as <- | | done].
  destruct p as [[p | p |] | [p | [p | p |] |] |]; try done; by injection H as <-.
Qed.

Lemma elem_of_tableRefs k n sym : 0 <= sym -> symbolKind sym = Some k ->
  (Z.to_nat (symbolIndex sym) < n)%nat -> sym ∈ tableRefs k n.
Proof.
  intros Hs Hk Hn. apply list_elem_of_fmap. exists (Z.to_nat (symbolIndex sym)).
  split; [| apply elem_of_seq; lia]. rewrite <- (symbolKind_bits sym k Hk). unfold symbolIndex in *.
  change 7 with (Z.ones 3). rewrite Z.shiftr_div_pow2 in * by lia. rewrite Z.land_ones by lia.
  rewrite Z2Nat.id by (apply Z.div_pos; lia). rewrite Z.add_comm. apply Z.div_mod. lia.
Qed.

Lemma validOwner_ref gs sym : is_Some (validOwner gs sym) -> sym ∈ allRefs (sy_table (pr_gs gs)).
Proof.
  unfold validOwner. destruct (Z.ltb_spec sym 0) as [| Hs]; [by intros [] |].
  intros [o Ho]. unfold symbolOwner in Ho.
  assert (forall A (f : A -> Z) (l : list A) k, symbolKind sym = Some k ->
    f <$> l !! Z.to_nat (symbolIndex sym) = Some o -> sym ∈ tableRefs k (length l)) as Hin.
  { intros A f l k Hk Hl. apply elem_of_tableRefs; [done .. |].
    destruct (l !! Z.to_nat (symbolIndex sym)) eqn:E; [by eapply lookup_lt_Some | done]. }
  unfold allRefs. rewrite !elem_of_app.
  destruct (symbolKind sym) as [[] |] eqn:Hk; [.. | done];
    [left | right; left | right; right; left | right; right; right; left | right; right; right; right];
    by eapply (Hin _ _ _ _ eq_refl).
Qed.

Lemma path_bound gs sym ds : path gs sym ds -> (length ds <= ownerFuel gs)%nat.
Proof.
  intros Hp. rewrite <- length_allRefs. eapply chain_to_bound; [by eapply path_chain |].
  apply validOwner_ref.
Qed.

Lemma ownerDescriptors_path gs sym ds : path gs sym ds -> forall fuel acc,
  (length ds <= fuel)%nat -> ownerDescriptors gs fuel sym acc = Some (acc ++ rev ds).
Proof.
  induction 1 as [| sym owner d ds Hs Hr Hd Ho Hp IH]; intros fuel acc Hf.
  - by destruct fuel; cbn; rewrite app_nil_r.
  - rewrite length_app in Hf. cbn in Hf. destruct fuel as [| fuel]; [lia |]. cbn [ownerDescriptors].
    destruct (Z.eqb_spec sym (classSymbol root)); [done |]. rewrite Hd. cbn. rewrite Ho. cbn.
    rewrite IH by lia. by rewrite rev_app_distr, <- app_assoc.
Qed.

Lemma path_functional gs sym ds ds' : path gs sym ds -> path gs sym ds' -> ds = ds'.
Proof.
  intros Hp Hp'. pose proof (ownerDescriptors_path _ _ _ Hp (length ds + length ds') []) as H1.
  pose proof (ownerDescriptors_path _ _ _ Hp' (length ds + length ds') []) as H2.
  rewrite H1 in H2 by lia. specialize (H2 ltac:(lia)). injection H2 as H2.
  apply (f_equal (@rev Descriptor)) in H2. by rewrite !rev_involutive in H2.
Qed.

(** Symbols with the same owner are told apart by their descriptors. *)
Definition siblings_distinct (gs : Program) : Prop :=
  forall s1 s2 owner d, 0 <= s1 -> 0 <= s2 ->
    symbolOwner (pr_gs gs) s1 = Some owner -> symbolOwner (pr_gs gs) s2 = Some owner ->
    symbolDescriptor gs s1 = Some d -> symbolDescriptor gs s2 = Some d -> s1 = s2.

Lemma path_inv gs sym ds : path gs sym ds ->
  (sym = classSymbol root /\ ds = []) \/
  exists owner d ds', ds = ds' ++ [d] /\ 0 <= sym /\ symbolDescriptor gs sym = Some d /\
    symbolOwner (pr_gs gs) sym = Some owner /\ path gs owner ds'.
Proof. destruct 1; [by left | right]. eauto 10. Qed.

Lemma path_injective gs s1 s2 ds : siblings_distinct gs -> path gs s1 ds -> path gs s2 ds -> s1 = s2.
Proof.
  intros Hd Hp. revert s2. induction Hp as [| s1 owner d ds Hs Hr Hdesc Ho Hp IH]; intros s2 Hp2.
  - apply path_inv in Hp2 as [[-> _] | (owner & d & ds & E & _)]; [done |]. by destruct ds.
  - apply path_inv in Hp2 as [[_ E] | (owner' & d' & ds' & E & Hs2 & Hdesc2 & Ho2 & Hp2')];
      [by destruct ds |].
    apply app_inj_tail in E as [-> ->]. rewrite <- (IH _ Hp2') in Ho2. by eapply Hd.
Qed.

(** ** Properties *)

(** C29: the SCIP symbol of a program symbol. For a symbol whose owners lead to the root, of any
    depth, the walk up ends and gives the descriptors from the outermost owner to the symbol itself,
    followed by the field or parameter; the package is the gem of its file, and a symbol without a
    file or a gem is skipped. *)
Theorem symbolForExpr_path gs gemMap loc r ds fd metadata :
  path gs (u_selfOrOwner r) ds -> fieldDescriptor gs r = Some fd ->
  symbolGem gs gemMap loc r = Some metadata ->
  symbolForExpr gs gemMap loc r =
    match metadata with
    | Some gem =>
        Some (okValue, mkSymbol (Some (mkPackage (gm_name gem) (gm_version gem))) (ds ++ fd))
    | None => Some (skipValue, mkSymbol None [])
    end.
Proof.
  intros Hp Hf Hg. unfold symbolForExpr. rewrite Hg. cbn. destruct metadata as [gem |]; [| done].
  rewrite (ownerDescriptors_path _ _ _ Hp) by by eapply path_bound. cbn. rewrite Hf. cbn.
  by rewrite rev_involutive.
Qed.

(** C30: SCIP symbols identify program symbols: when siblings are told apart by their descriptors,
    two references of the same sort (both symbols, or both fields or parameters) with the same SCIP
    symbol are the same symbol, or fields of the same text of the same class. *)
Theorem symbolForExpr_injective gs gemMap loc1 loc2 r1 r2 ds1 ds2 s :
  siblings_distinct gs -> path gs (u_selfOrOwner r1) ds1 -> path gs (u_selfOrOwner r2) ds2 ->
  (u_name r1 = noName <-> u_name r2 = noName) ->
  symbolForExpr gs gemMap loc1 r1 = Some (okValue, s) -> symbolForExpr gs gemMap loc2 r2 = Some (okValue, s) ->
  u_selfOrOwner r1 = u_selfOrOwner r2 /\ fieldDescriptor gs r1 = fieldDescriptor gs r2.
Proof.
  intros Hd Hp1 Hp2 Hn H1 H2.
  assert (forall loc r ds, path gs (u_selfOrOwner r) ds -> symbolForExpr gs gemMap loc r = Some (okValue, s) ->
    exists fd, fieldDescriptor gs r = Some fd /\ s_descriptors s = ds ++ fd) as Hdesc.
  { clear. intros loc r ds Hp H. unfold symbolForExpr in H.
    destruct (symbolGem gs gemMap loc r) as [[gem |] |]; cbn in H; [| done ..].
    rewrite (ownerDescriptors_path _ _ _ Hp) in H by by eapply path_bound. cbn in H.
    destruct (fieldDescriptor gs r) as [fd |]; cbn in H; [| done]. injection H as <-.
    exists fd. split; [done |]. cbn. by rewrite rev_involutive. }
  destruct (Hdesc _ _ _ Hp1 H1) as (fd1 & F1 & E1). destruct (Hdesc _ _ _ Hp2 H2) as (fd2 & F2 & E2).
  assert (length fd1 = length fd2) as Hlen.
  { unfold fieldDescriptor in F1, F2.
    destruct (Z.eqb_spec (u_name r1) noName), (Z.eqb_spec (u_name r2) noName); try tauto.
    - by simplify_eq.
    - destruct (shortName _ (u_name r1)); [| done]. destruct (shortName _ (u_name r2)); [| done].
      cbn in F1, F2. by simplify_eq. }
  rewrite E1 in E2. apply app_inj_2 in E2 as [-> ->]; [| done].
  split; [by eapply path_injective | congruence].
Qed.

(** A program with one class [foo] in one file *)
Definition noClass : ClassOrModule :=
  mkClassOrModule 0 0 0 0 0 (ClassFlags_of_bits 0) [] None ∅ NullType [].

Definition fooClass : ClassOrModule :=
  mkClassOrModule 0 0 3 1 0 (ClassFlags_of_bits 1) [] None ∅ NullType [mkLoc 1 (mkLocOffsets 0 2)].

Definition fooProgram : Program :=
  mkProgram
    (mkSymbolic (mkSymbolTable [noClass; noClass; noClass; noClass; fooClass] [] [] [] []) fooTable
       (mkWellKnown 0 0 0 0 0 0))
    [sampleFile].

Lemma foo_path : path fooProgram 32 [mkDescriptor s! "foo" [] TypeSuffix].
Proof. apply (path_step _ 32 (classSymbol root) _ []); [done .. | constructor]. Qed.

Lemma symbolForExpr_path_witness :
  symbolForExpr fooProgram (markCurrentGem (mkGemMetadata s! "g" s! "1") newGemMapping) None
    (mkUntyped 32 noName) =
  Some (okValue, mkSymbol (Some (mkPackage s! "g" s! "1")) [mkDescriptor s! "foo" [] TypeSuffix]).
Proof.
  apply (symbolForExpr_path _ _ _ _ [mkDescriptor s! "foo" [] TypeSuffix] []
    (Some (mkGemMetadata s! "g" s! "1"))); [apply foo_path | reflexivity | reflexivity].
Defined.

Lemma foo_siblings : siblings_distinct fooProgram.
Proof.
  assert (forall s o d, 0 <= s -> symbolOwner (pr_gs fooProgram) s = Some o ->
    symbolDescriptor fooProgram s = Some d -> s = 32) as H.
  { intros s o d Hs Ho Hd. assert (s ∈ allRefs (sy_table (pr_gs fooProgram))) as Hin.
    { apply validOwner_ref. unfold validOwner. destruct (Z.ltb_spec s 0); [lia | by rewrite Ho]. }
    change (allRefs (sy_table (pr_gs fooProgram))) with [0; 8; 16; 24; 32] in Hin.
    rewrite !elem_of_cons, elem_of_nil in Hin.
    destruct Hin as [-> | [-> | [-> | [-> | [-> | []]]]]]; done. }
  intros s1 s2 owner d ? ? ? ? ? ?. by rewrite (H s1 owner d), (H s2 owner d).
Qed.

Lemma symbolForExpr_injective_witness :
  u_selfOrOwner (mkUntyped 32 1) = u_selfOrOwner (mkUntyped 32 1) /\
  fieldDescriptor fooProgram (mkUntyped 32 1) = fieldDescriptor fooProgram (mkUntyped 32 1).
Proof.
  apply (symbolForExpr_injective fooProgram (markCurrentGem (mkGemMetadata s! "g" s! "1") newGemMapping)
    None None (mkUntyped 32 1) (mkUntyped 32 1) _ _
    (mkSymbol (Some (mkPackage s! "g" s! "1"))
       [mkDescriptor s! "foo" [] TypeSuffix; mkDescriptor s! "foo" [] TermSuffix])
    foo_siblings foo_path foo_path); [done | reflexivity | reflexivity].
Defined.
