(* ===== verification/ScipState.v ===== *)
(** * The state of the SCIP indexer

    Models [SCIPState] of src/scip_indexer/SCIPIndexer.cc, which collects the occurrences and symbols
    of each file while its methods are traversed, and assembles the documents of the index, with the
    location helpers of that file and [saveParentRelationships] of SCIPSymbolRef.cc. Hash maps and
    sets are finite maps and sets. Arguments of the model are the UTF-8 decoder of rapidjson, the
    sorting functions (pdqsort), the printer of types ([TypePtr::show]) and the documentation of a
    symbol ([GenericSymbolRef::saveDocStrings]), about which nothing is assumed unless stated. [None]
    stands for an uncaught exception. *)

From S2P Require Import Prelude Pickler FileHash Files Locs Types NameTable NameText Symbols SymbolRefs.
From S2P Require Import ScipUtils ScipProto ScipGem ScipSymbolRef.

#[local] Open Scope Z_scope.

(** ** Locations *)

(** [s.rfind("::")] *)
Fixpoint rfind_sub (p s : str) : option nat :=
  match s with
  | [] => if is_prefix p [] then Some O else None
  | _ :: s' =>
      match rfind_sub p s' with
      | Some k => Some (S k)
      | None => if is_prefix p s then Some O else None
      end
  end.

Definition trimColonColonPrefix (f : File) (baseLoc : Loc) : option Loc :=
  source ← loc_source f baseLoc;
  Some (match source with
        | None => baseLoc
        | Some source =>
            match rfind_sub s! "::" source with
            | None => baseLoc
            | Some pos =>
                let occLen := Z.of_nat (length source) - (Z.of_nat pos + 2) in
                mkLoc (locFile baseLoc) (mkLocOffsets (u32 (endPos baseLoc - u32 occLen)) (endPos baseLoc))
            end
        end).

(** Lines and columns from zero; the end line is left out when it is the start line. *)
Definition fromSorbetLoc (f : File) (loc : Loc) : option (list Z) :=
  '(start, end_) ← toDetails f loc;
  Some ([i32 (line start - 1); i32 (column start - 1)] ++
        (if line start =? line end_ then [] else [i32 (line end_ - 1)]) ++
        [i32 (column end_ - 1)]).

(** ** Local variables *)

(** A [char] is signed: it is sign-extended before the [xor]. *)
Definition u32_of_char (c : ascii) : Z :=
  let b := byte_of_char c in if b <? 128 then b else b + (2 ^ 32 - 256).

Definition fnv1a_32 (s : str) : Z :=
  fold_left (fun h c => u32 (Z.lxor h (u32_of_char c) * 16777619)) s 2166136261.

Definition separator (gs : Symbolic) (sym : Z) : option str :=
  match symbolKind sym with
  | Some KClassOrModule | Some KTypeMember => Some (s! "::")
  | Some KMethod | Some KTypeParameter => Some (s! "#")
  | Some KFieldOrStaticField =>
      f ← fieldData gs (symbolIndex sym);
      Some (if ff_isStaticField (fi_flags f) then s! "::" else s! "#")
  | None => None
  end.

(** [SymbolRef::showFullName] *)
Fixpoint showFullName (gs : Symbolic) (fuel : nat) (sym : Z) : option str :=
  match fuel with
  | O => None
  | S fuel =>
      owner ← symbolOwner gs sym;
      name ← symbolName gs sym;
      ownerStr ← (if symbol_exists owner && negb (owner =? classSymbol root) then showFullName gs fuel owner
                  else Some []);
      sep ← separator gs sym;
      text ← show (sy_names gs) name;
      Some (ownerStr ++ sep ++ text)
  end.

Record OwnedLocal := mkOwnedLocal { ol_owner : Z; ol_counter : Z; ol_offsets : LocOffsets }.

Definition toSCIPString (gs : Program) (occ : OwnedLocal) : option str :=
  name ← showFullName (pr_gs gs) (S (ownerFuel gs)) (ol_owner occ);
  Some (s! "local " ++ decimal (ol_counter occ) ++ s! "$" ++ decimal (fnv1a_32 name)).

(** ** State *)

Record FieldQueryResult := mkFieldQueryResult { inherited : Z; mixedIn : list Z }.

Abbreviation RelationshipsMap := (gmap UntypedGenericSymbolRef FieldQueryResult).

Record Document := mkDocument {
  relative_path : str; doc_occurrences : list Occurrence; doc_symbols : list SymbolInformation }.

(** The keys of the caches: the offsets and roles of a local; a reference without its type, a
    location and roles *)
Abbreviation LocalKey := (Z * Z * Z)%type.

Abbreviation OccurrenceKey := (Z * Z * (Z * Z * Z) * Z)%type.

Record SCIPState := mkSCIPState {
  symbolStringCache : gmap UntypedGenericSymbolRef str;
  localOccurrenceCache : gmap LocalKey (list Z);
  symbolOccurrenceCache : gset OccurrenceKey;
  potentialRefOnlySymbols : gmap Z (gset UntypedGenericSymbolRef);
  gemMap : GemMapping;
  occurrenceMap : gmap Z (list Occurrence);
  emittedSymbols : gset (Z * str);
  symbolMap : gmap Z (list SymbolInformation);
  relationshipsMap : gmap Z RelationshipsMap;
  documents : list Document;
  externalSymbols : list SymbolInformation }.

Definition newSCIPState (gems : GemMapping) : SCIPState :=
  mkSCIPState ∅ ∅ ∅ ∅ gems ∅ ∅ ∅ ∅ [] [].

Definition set_symbolStringCache c (st : SCIPState) : SCIPState :=
  mkSCIPState c (localOccurrenceCache st) (symbolOccurrenceCache st) (potentialRefOnlySymbols st) (gemMap st)
    (occurrenceMap st) (emittedSymbols st) (symbolMap st) (relationshipsMap st) (documents st) (externalSymbols st).

Definition set_localOccurrenceCache c (st : SCIPState) : SCIPState :=
  mkSCIPState (symbolStringCache st) c (symbolOccurrenceCache st) (potentialRefOnlySymbols st) (gemMap st)
    (occurrenceMap st) (emittedSymbols st) (symbolMap st) (relationshipsMap st) (documents st) (externalSymbols st).

Definition set_symbolOccurrenceCache c (st : SCIPState) : SCIPState :=
  mkSCIPState (symbolStringCache st) (localOccurrenceCache st) c (potentialRefOnlySymbols st) (gemMap st)
    (occurrenceMap st) (emittedSymbols st) (symbolMap st) (relationshipsMap st) (documents st) (externalSymbols st).

Definition set_potentialRefOnlySymbols c (st : SCIPState) : SCIPState :=
  mkSCIPState (symbolStringCache st) (localOccurrenceCache st) (symbolOccurrenceCache st) c (gemMap st)
    (occurrenceMap st) (emittedSymbols st) (symbolMap st) (relationshipsMap st) (documents st) (externalSymbols st).

Definition set_occurrenceMap c (st : SCIPState) : SCIPState :=
  mkSCIPState (symbolStringCache st) (localOccurrenceCache st) (symbolOccurrenceCache st)
    (potentialRefOnlySymbols st) (gemMap st) c (emittedSymbols st) (symbolMap st) (relationshipsMap st)
    (documents st) (externalSymbols st).

Definition set_symbolMap c (st : SCIPState) : SCIPState :=
  mkSCIPState (symbolStringCache st) (localOccurrenceCache st) (symbolOccurrenceCache st)
    (potentialRefOnlySymbols st) (gemMap st) (occurrenceMap st) (emittedSymbols st) c (relationshipsMap st)
    (documents st) (externalSymbols st).

Definition set_relationshipsMap c (st : SCIPState) : SCIPState :=
  mkSCIPState (symbolStringCache st) (localOccurrenceCache st) (symbolOccurrenceCache st)
    (potentialRefOnlySymbols st) (gemMap st) (occurrenceMap st) (emittedSymbols st) (symbolMap st) c
    (documents st) (externalSymbols st).

Definition set_documents c (st : SCIPState) : SCIPState :=
  mkSCIPState (symbolStringCache st) (localOccurrenceCache st) (symbolOccurrenceCache st)
    (potentialRefOnlySymbols st) (gemMap st) (occurrenceMap st) (emittedSymbols st) (symbolMap st)
    (relationshipsMap st) c (externalSymbols st).

Definition clearFunctionLocalCaches (st : SCIPState) : SCIPState := set_localOccurrenceCache ∅ st.

(** [map[file].push_back(x)] *)
Definition push_back {A} (file : Z) (x : A) (m : gmap Z (list A)) : gmap Z (list A) :=
  <[file := default [] (m !! file) ++ [x]]> m.

Inductive Emitted := Now | Earlier.

(** [SymbolRole::Definition] *)
Definition DefinitionRole : Z := 1.

(** ** Operations *)

Section Operations.
Context (gs : Program) (decode : str -> option nat).
Context (sortRelationships : list Relationship -> list Relationship)
  (sortOccurrences : list Occurrence -> list Occurrence)
  (sortSymbols : list SymbolInformation -> list SymbolInformation).
Context (showType : TypePtr -> str) (docStrings : GenericSymbolRef -> TypePtr -> Loc -> option (list str)).

(** [output] is the string that the caller passes by reference: a hit in the cache replaces it, a
    miss appends to it. *)
Definition saveSymbolString (st : SCIPState) (symRef : UntypedGenericSymbolRef) (symbol : option Symbol)
    (output : str) : option (Result * str * SCIPState) :=
  match symbolStringCache st !! symRef with
  | Some s => Some (okValue, s, st)
  | None =>
      '(result, symbol) ← match symbol with
                          | Some symbol => Some (okValue, symbol)
                          | None => symbolForExpr gs (gemMap st) None symRef
                          end;
      match result with
      | okValue =>
          let '(status, output) := emitSymbolString symbol output in
          match status with
          | OkStatus =>
              Some (okValue, output, set_symbolStringCache (<[symRef := output]> (symbolStringCache st)) st)
          | _ => Some (statusValue status, output, st)
          end
      | _ => Some (result, output, st)
      end
  end.

Definition alreadyEmittedSymbolInfo (st : SCIPState) (file : Z) (symbolString : str) : bool :=
  bool_decide ((file, symbolString) ∈ emittedSymbols st).

Definition saveSymbolInfo (st : SCIPState) (file : Z) (symbolString : str) (docs : list str)
    (rels : list Relationship) : option (Emitted * SCIPState) :=
  if alreadyEmittedSymbolInfo st file symbolString then Some (Earlier, st)
  else
    docs ← mapM (escapeInvalidUtf8 decode) docs;
    let symbolInfo := mkSymbolInformation symbolString docs rels in
    Some (Now, set_symbolMap (push_back file symbolInfo (symbolMap st)) st).

Definition saveDefinitionImpl (st : SCIPState) (file : Z) (symbolString : str) (occLoc : Loc) (docs : list str)
    (rels : list Relationship) (enclosingLoc : option Loc) : option (Status * SCIPState) :=
  if negb (loc_exists occLoc) || offsets_empty (locOffsets occLoc) then Some (OkStatus, st)
  else
    f ← fileData gs (locFile occLoc);
    occLoc ← trimColonColonPrefix f occLoc;
    range ← fromSorbetLoc f occLoc;
    if (length range =? 4)%nat then Some (OkStatus, st)
    else
      '(emitted, st) ← saveSymbolInfo st file symbolString docs rels;
      encRange ← match enclosingLoc with
                 | Some l => if offsets_empty (locOffsets l) then Some []
                             else ef ← fileData gs (locFile l); fromSorbetLoc ef l
                 | None => Some []
                 end;
      overrideDocs ← match emitted with
                     | Now => Some []
                     | Earlier => mapM (escapeInvalidUtf8 decode) docs
                     end;
      let occurrence := mkOccurrence range symbolString DefinitionRole overrideDocs 0 [] encRange in
      Some (OkStatus, set_occurrenceMap (push_back file occurrence (occurrenceMap st)) st).

Definition saveReferenceImpl (st : SCIPState) (file : Z) (symbolString : str) (overrideDocs : list str)
    (occLocOffsets : LocOffsets) (roles : Z) : option SCIPState :=
  f ← fileData gs file;
  occLoc ← trimColonColonPrefix f (mkLoc file occLocOffsets);
  range ← fromSorbetLoc f occLoc;
  if (length range =? 4)%nat then Some st
  else
    overrideDocs ← mapM (escapeInvalidUtf8 decode) overrideDocs;
    let occurrence := mkOccurrence range symbolString roles overrideDocs 0 [] [] in
    Some (set_occurrenceMap (push_back file occurrence (occurrenceMap st)) st).

(** The two overloads of [cacheOccurrence]: true for a hit *)
Definition cacheLocalOccurrence (st : SCIPState) (occ : OwnedLocal) (roles : Z) : bool * SCIPState :=
  let key := (beginLoc (ol_offsets occ), endLoc (ol_offsets occ), roles) in
  let counters := default [] (localOccurrenceCache st !! key) in
  if bool_decide (ol_counter occ ∈ counters)
  then (true, set_localOccurrenceCache (<[key := counters]> (localOccurrenceCache st)) st)
  else (false, set_localOccurrenceCache (<[key := counters ++ [ol_counter occ]]> (localOccurrenceCache st)) st).

Definition occurrenceKey (loc : Loc) (sym : GenericSymbolRef) (roles : Z) : OccurrenceKey :=
  (g_selfOrOwner sym, g_name sym, (locFile loc, beginPos loc, endPos loc), roles).

Definition cacheSymbolOccurrence (st : SCIPState) (loc : Loc) (sym : GenericSymbolRef) (roles : Z)
    : bool * SCIPState :=
  let key := occurrenceKey loc sym roles in
  if bool_decide (key ∈ symbolOccurrenceCache st) then (true, st)
  else (false, set_symbolOccurrenceCache ({[key]} ∪ symbolOccurrenceCache st) st).

(** [saveSymbol] of [saveParentRelationships]: the relationship to the field of another class *)
Definition saveParent (name klass : Z) (rel : str -> Relationship)
    (acc : list Relationship * SCIPState) : option (list Relationship * SCIPState) :=
  '(result, symbol, st) ← saveSymbolString acc.2 (mkUntyped (classSymbol klass) name) None [];
  match result with
  | okValue => Some (acc.1 ++ [rel symbol], st)
  | _ => Some (acc.1, st)
  end.

Fixpoint saveMixins (name : Z) (mixins : list Z) (acc : list Relationship * SCIPState)
    : option (list Relationship * SCIPState) :=
  match mixins with
  | [] => Some acc
  | mixin :: mixins =>
      acc ← saveParent name mixin (fun s => mkRelationship s true false false false) acc;
      saveMixins name mixins acc
  end.

(** [this->relationshipsMap[file]] creates the entry. *)
Definition touchRelationships (st : SCIPState) (file : Z) : SCIPState :=
  set_relationshipsMap
    (<[file := default ∅ (relationshipsMap st !! file)]> (relationshipsMap st)) st.

Definition saveParentRelationships (st : SCIPState) (file : Z) (symRef : UntypedGenericSymbolRef)
    (rels : list Relationship) : option (list Relationship * SCIPState) :=
  let st := touchRelationships st file in
  match default ∅ (relationshipsMap st !! file) !! symRef with
  | None => Some (rels, st)
  | Some result =>
      acc ← (if negb (classSymbol (inherited result) =? u_selfOrOwner symRef)
             then saveParent (u_name symRef) (inherited result)
                    (fun s => mkRelationship s false false false true) (rels, st)
             else Some (rels, st));
      '(rels, st) ← saveMixins (u_name symRef) (mixedIn result) acc;
      Some (sortRelationships rels, st)
  end.

Definition saveAliasRelationship (st : SCIPState) (aliasedSymbol : UntypedGenericSymbolRef)
    (rels : list Relationship) : option (list Relationship * SCIPState) :=
  '(result, symbol, st) ← saveSymbolString st aliasedSymbol None [];
  match result with
  | okValue => Some (rels ++ [mkRelationship symbol true false false false], st)
  | _ => Some (rels, st)
  end.

(** The documentation of a local variable: its text and its type *)
Definition localDoc (loc : Loc) (type : TypePtr) : option str :=
  f ← fileData gs (locFile loc);
  var ← loc_source f loc;
  var ← var;
  Some (s! "```ruby" ++ [newline] ++ var ++ s! " (" ++ showType type ++ s! ")" ++ [newline] ++ s! "```").

(** [saveDefinition] of a local variable *)
Definition saveLocalDefinition (st : SCIPState) (file : Z) (occ : OwnedLocal) (type : option TypePtr)
    (enclosingLoc : option Loc) : option (Status * SCIPState) :=
  let '(hit, st) := cacheLocalOccurrence st occ DefinitionRole in
  if hit then Some (OkStatus, st)
  else
    let loc := mkLoc file (ol_offsets occ) in
    docs ← match type with
           | Some t => doc ← localDoc loc t; Some [doc]
           | None => Some []
           end;
    symbolString ← toSCIPString gs occ;
    saveDefinitionImpl st file symbolString loc docs [] enclosingLoc.

(** [saveDefinition] of a symbol *)
Definition saveDefinition (st : SCIPState) (file : Z) (symRef : GenericSymbolRef)
    (aliasedSymbol : option UntypedGenericSymbolRef) (loc : option LocOffsets) (enclosingLoc : option Loc)
    : option (Status * SCIPState) :=
  occLoc ← match loc with
           | Some l => Some (mkLoc file l)
           | None => refLoc gs symRef
           end;
  if negb (loc_exists occLoc) || offsets_empty (locOffsets occLoc) then Some (OkStatus, st)
  else
    '(result, symbol) ← symbolForExpr gs (gemMap st) (Some occLoc) (withoutType symRef);
    match result with
    | skipValue => Some (OkStatus, st)
    | statusValue status => Some (status, st)
    | okValue =>
        '(result, symbolString, st) ← saveSymbolString st (withoutType symRef) (Some symbol) [];
        match result with
        | statusValue status => Some (status, st)
        | skipValue => Some (OkStatus, st)
        | okValue =>
            docs ← docStrings symRef (g_definitionType symRef) occLoc;
            '(rels, st) ← saveParentRelationships st file (withoutType symRef) [];
            '(rels, st) ← match aliasedSymbol with
                          | Some a => saveAliasRelationship st a rels
                          | None => Some (rels, st)
                          end;
            saveDefinitionImpl st file symbolString occLoc docs rels enclosingLoc
        end
    end.

(** [saveReference] of a local variable *)
Definition saveLocalReference (st : SCIPState) (file : Z) (occ : OwnedLocal) (overrideType : option TypePtr)
    (roles : Z) : option (Status * SCIPState) :=
  let '(hit, st) := cacheLocalOccurrence st occ roles in
  if hit then Some (OkStatus, st)
  else
    docs ← match overrideType with
           | Some t => doc ← localDoc (mkLoc file (ol_offsets occ)) t; Some [doc]
           | None => Some []
           end;
    symbolString ← toSCIPString gs occ;
    st ← saveReferenceImpl st file symbolString docs (ol_offsets occ) roles;
    Some (OkStatus, st).

(** [saveReference] of a symbol, from a context with an owner and a file *)
Definition saveReference (st : SCIPState) (owner file : Z) (symRef : GenericSymbolRef)
    (overrideType : option TypePtr) (occLoc : LocOffsets) (roles : Z) : option (Status * SCIPState) :=
  ownerName ← symbolName (pr_gs gs) owner;
  internal ← (if ownerName =? n_staticInit (sy_wk (pr_gs gs)) then isSorbetInternalClassOrMethod gs symRef
              else Some false);
  if (internal : bool) then Some (OkStatus, st)
  else
    let loc := mkLoc file occLoc in
    let '(hit, st) := cacheSymbolOccurrence st loc symRef roles in
    if hit then Some (OkStatus, st)
    else
      '(result, symbolString, st) ← saveSymbolString st (withoutType symRef) None [];
      match result with
      | skipValue => Some (OkStatus, st)
      | statusValue status => Some (status, st)
      | okValue =>
          overrideDocs ← match refKind symRef, overrideType with
                         | (RParameter | RField), Some t => docStrings symRef t loc
                         | _, _ => Some []
                         end;
          let st :=
            if bool_decide ((file, symbolString) ∈ emittedSymbols st) then st
            else
              let st := touchRelationships st file in
              match default ∅ (relationshipsMap st !! file) !! withoutType symRef with
              | Some _ =>
                  set_potentialRefOnlySymbols
                    (<[file := {[withoutType symRef]} ∪ default ∅ (potentialRefOnlySymbols st !! file)]>
                       (potentialRefOnlySymbols st)) st
              | None => st
              end in
          st ← saveReferenceImpl st file symbolString overrideDocs occLoc roles;
          Some (OkStatus, st)
      end.

(** The loop of [finalizeRefOnlySymbolInfos]; [symbolString] outlives an iteration. *)
Fixpoint finalizeSymbols (st : SCIPState) (file : Z) (syms : list UntypedGenericSymbolRef) (symbolString : str)
    : option SCIPState :=
  match syms with
  | [] => Some st
  | symRef :: syms =>
      '(result, symbolString, st) ← saveSymbolString st symRef None symbolString;
      match result with
      | okValue =>
          if alreadyEmittedSymbolInfo st file symbolString then finalizeSymbols st file syms symbolString
          else
            '(rels, st) ← saveParentRelationships st file symRef [];
            '(_, st) ← saveSymbolInfo st file symbolString [] rels;
            finalizeSymbols st file syms symbolString
      | _ => finalizeSymbols st file syms symbolString
      end
  end.

(** The set is visited in an unspecified order; [elements] is one. *)
Definition finalizeRefOnlySymbolInfos (st : SCIPState) (file : Z) : option SCIPState :=
  let syms := default ∅ (potentialRefOnlySymbols st !! file) in
  let st := set_potentialRefOnlySymbols (<[file := syms]> (potentialRefOnlySymbols st)) st in
  finalizeSymbols st file (elements syms) [].

(** [lexically_relative] of an absolute path to the current directory is an argument. *)
Definition saveDocument (lexically_relative : str -> str) (st : SCIPState) (file : Z) : option SCIPState :=
  f ← fileData gs file;
  let path := path_ f in
  let relative := match path with c :: _ => if char_eqb c "/" then lexically_relative path else path
                             | [] => path end in
  let '(occs, st) :=
    match occurrenceMap st !! file with
    | Some occs => (sortOccurrences occs, set_occurrenceMap (delete file (occurrenceMap st)) st)
    | None => ([], st)
    end in
  let '(syms, st) :=
    match symbolMap st !! file with
    | Some syms => (sortSymbols syms, set_symbolMap (delete file (symbolMap st)) st)
    | None => ([], st)
    end in
  Some (set_documents (documents st ++ [mkDocument relative occs syms]) st).
End Operations.

(** ** Ranges *)

(** A location inside a file *)
Definition in_file (f : File) (l : Loc) : Prop :=
  0 <= beginPos l <= endPos l /\ endPos l <= Z.of_nat (length (source_ f)).

(** A range on one line, from zero *)
Definition one_line (r : list Z) : Prop := exists l c1 c2, r = [l; c1; c2] /\ 0 <= l /\ 0 <= c1 <= c2.

Lemma i32_small z : 0 <= z < 2 ^ 31 -> i32 z = z.
Proof.
  intros Hz. unfold i32. rewrite u32_id by (unfold is_u32; lia). by rewrite bool_decide_true by lia.
Qed.

Lemma fromSorbetLoc_range f l : File_wf f -> is_size (length (source_ f)) -> in_file f l ->
  exists r, fromSorbetLoc f l = Some r /\ (length r = 4%nat \/ one_line r).
Proof.
  intros Hwf Hsz [[Hb Hbe] He]. unfold is_size in Hsz.
  destruct (offset_line (source_ f) (beginPos l)) as (k & st & e & Hst & Hk & Hr); [lia |].
  destruct (offset_line (source_ f) (endPos l)) as (k' & st' & e' & Hst' & Hk' & Hr'); [lia |].
  pose proof (breaks_lookup_range _ _ _ Hk) as [Hek _]. pose proof (breaks_lookup_range _ _ _ Hk') as [Hek' Hlk'].
  pose proof (breaks_lookup_range _ _ _ Hk) as [_ Hlk].
  unfold fromSorbetLoc, toDetails.
  rewrite (pos2Detail_line f k (beginPos l) st e), (pos2Detail_line f k' (endPos l) st' e') by done.
  cbn [mbind option_bind line column].
  assert (0 <= st /\ 0 <= st') as [Hs0 Hs0'].
  { split; [destruct k as [| p]; [cbn in Hst; lia | destruct Hst as (b & Hpb & ->)]
           | destruct k' as [| p]; [cbn in Hst'; lia | destruct Hst' as (b & Hpb & ->)]];
      apply breaks_lookup_range in Hpb; lia. }
  eexists. split; [done |].
  destruct (Z.eqb_spec (Z.of_nat k + 1) (Z.of_nat k' + 1)) as [E | E]; [right | by left].
  assert (k = k') as <- by lia. rewrite Hk in Hk'. injection Hk' as <-.
  assert (st = st') as <-.
  { destruct k as [| p]; cbn in Hst, Hst'; [lia |]. destruct Hst as (b & Hb1 & ->), Hst' as (b' & Hb2 & ->).
    congruence. }
  rewrite !i32_small by lia. exists (Z.of_nat k + 1 - 1), (beginPos l - st + 1 - 1), (endPos l - st + 1 - 1).
  split; [done | lia].
Qed.

Lemma rfind_sub_bound p s k : rfind_sub p s = Some k -> (k + length p <= length s)%nat.
Proof.
  assert (forall t, is_prefix p t = true -> (length p <= length t)%nat) as Hlen.
  { intros t [u ->]%is_prefix_spec. rewrite length_app. lia. }
  revert k. induction s as [| c s IH]; intros k; cbn [rfind_sub].
  - destruct (is_prefix p []) eqn:E; [| done]. intros [= <-]. apply Hlen in E. cbn in *. lia.
  - destruct (rfind_sub p s) as [j |]; [intros [= <-]; specialize (IH j eq_refl); cbn; lia |].
    destruct (is_prefix p (c :: s)) eqn:E; [| done]. intros [= <-]. apply Hlen in E. lia.
Qed.

Lemma trim_in_file f l : File_wf f -> in_file f l -> locFile l <> 0 ->
  exists l', trimColonColonPrefix f l = Some l' /\ in_file f l' /\ locFile l' = locFile l /\
    beginPos l <= beginPos l' /\ endPos l' = endPos l.
Proof.
  intros Hwf Hin Hf. destruct Hin as [[Hb Hbe] He]. destruct Hwf as [Hsz _ _]. unfold INVALID_POS_LOC in Hsz.
  unfold trimColonColonPrefix, loc_source. assert (Hex : loc_exists l = true).
  { unfold loc_exists, offsets_exists, INVALID_POS_LOC. unfold beginPos, endPos in *.
    destruct (Z.eqb_spec (locFile l) 0); [done |]. cbn. lia. }
  rewrite Hex. cbn [negb]. destruct (Z.ltb_spec (Z.of_nat (length (source_ f))) (beginPos l)); [lia |].
  cbn [mbind option_bind]. set (text := substr _ _ _).
  assert (Hlen : Z.of_nat (length text) = endPos l - beginPos l).
  { unfold text, substr, offsets_length, beginPos, endPos in *. rewrite length_take, length_drop.
    rewrite u32_id by (unfold is_u32; lia). lia. }
  destruct (rfind_sub s! "::" text) as [k |] eqn:E.
  - apply rfind_sub_bound in E. cbn in E. eexists. split; [done |]. unfold in_file. cbn.
    rewrite (u32_id (Z.of_nat (length text) - _)) by (unfold is_u32; lia).
    rewrite u32_id by (unfold is_u32; lia). unfold beginPos, endPos in *. cbn. lia.
  - eexists. split; [done |]. unfold in_file. lia.
Qed.

(** ** The invariant of the state *)

(** A cached string is the text of exactly one symbol. *)
Definition cache_ok (st : SCIPState) : Prop :=
  forall r s, symbolStringCache st !! r = Some s -> exists symbol, emitSymbolString symbol [] = (OkStatus, s).

Definition local_symbol (s : str) : Prop :=
  exists counter hash, s = s! "local " ++ decimal counter ++ s! "$" ++ decimal hash.

(** The symbols of an index: cached strings, and locals *)
Definition index_symbol (st : SCIPState) (s : str) : Prop :=
  (exists r, symbolStringCache st !! r = Some s) \/ local_symbol s.

Record Inv (st : SCIPState) : Prop := {
  inv_cache : cache_ok st;
  inv_occurrences : forall file occs o, occurrenceMap st !! file = Some occs -> o ∈ occs ->
    one_line (range o) /\ index_symbol st (symbol o) /\ Forall valid_utf8 (override_documentation o);
  inv_symbols : forall file syms s, symbolMap st !! file = Some syms -> s ∈ syms ->
    index_symbol st (s_symbol s) /\ Forall valid_utf8 (documentation s);
  inv_refonly : forall file syms r, potentialRefOnlySymbols st !! file = Some syms -> r ∈ syms ->
    is_Some (symbolStringCache st !! r);
}.

(** The operations that only fill caches: they change neither what is recorded nor a cached string. *)
Record grows (st st' : SCIPState) : Prop := {
  gr_cache : symbolStringCache st ⊆ symbolStringCache st';
  gr_ok : cache_ok st -> cache_ok st';
  gr_occurrences : occurrenceMap st' = occurrenceMap st;
  gr_symbols : symbolMap st' = symbolMap st;
  gr_refonly : potentialRefOnlySymbols st' = potentialRefOnlySymbols st;
}.

#[export] Instance grows_preorder : PreOrder grows.
Proof.
  split.
  - intros st. by split.
  - intros st1 st2 st3 [] []. split; [by etrans | auto | congruence ..].
Qed.

Lemma index_symbol_mono st st' s :
  symbolStringCache st ⊆ symbolStringCache st' -> index_symbol st s -> index_symbol st' s.
Proof. intros Hc [[r Hr] | Hl]; [left; exists r; by eapply lookup_weaken | by right]. Qed.

Lemma Inv_grows st st' : Inv st -> grows st st' -> Inv st'.
Proof.
  intros [Hc Ho Hs Hr] [Gc Gk Go Gs Gr]. split.
  - auto.
  - rewrite Go. intros file occs o H1 H2. destruct (Ho _ _ _ H1 H2) as (? & ? & ?).
    split_and!; [done | by eapply index_symbol_mono | done].
  - rewrite Gs. intros file syms s H1 H2. destruct (Hs _ _ _ H1 H2).
    split; [by eapply index_symbol_mono | done].
  - rewrite Gr. intros file syms r H1 H2. destruct (Hr _ _ _ H1 H2) as [s Hrs].
    exists s. by eapply lookup_weaken.
Qed.

Lemma elem_of_push_back {A} file (x y : A) m file' l :
  push_back file x m !! file' = Some l -> y ∈ l ->
  y = x \/ exists l', m !! file' = Some l' /\ y ∈ l'.
Proof.
  unfold push_back. destruct (decide (file = file')) as [<- | Hne].
  - rewrite lookup_insert_eq. intros [= <-] [Hy | ->%list_elem_of_singleton]%elem_of_app; [| by left].
    destruct (m !! file) as [l' |]; cbn in Hy; [right; eauto | by apply not_elem_of_nil in Hy].
  - rewrite lookup_insert_ne by done. eauto.
Qed.

(** Recording an occurrence or a symbol *)
Lemma Inv_push_occurrence st file o : Inv st ->
  one_line (range o) -> index_symbol st (symbol o) -> Forall valid_utf8 (override_documentation o) ->
  Inv (set_occurrenceMap (push_back file o (occurrenceMap st)) st).
Proof.
  intros [Hc Ho Hs Hr] H1 H2 H3. split; [done | | done | done].
  cbn. intros file' occs o' Hl [-> | (l' & Hl' & Hin)]%(elem_of_push_back _ _ _ _ _ _ Hl); [done |].
  by eapply Ho.
Qed.

Lemma Inv_push_symbol st file s : Inv st -> index_symbol st (s_symbol s) -> Forall valid_utf8 (documentation s) ->
  Inv (set_symbolMap (push_back file s (symbolMap st)) st).
Proof.
  intros [Hc Ho Hs Hr] H1 H2. split; [done | done | | done].
  cbn. intros file' syms s' Hl [-> | (l' & Hl' & Hin)]%(elem_of_push_back _ _ _ _ _ _ Hl); [done |].
  by eapply Hs.
Qed.

Section Preservation.
Context (gs : Program) (decode : str -> option nat).
Context (sortRelationships : list Relationship -> list Relationship)
  (sortOccurrences : list Occurrence -> list Occurrence)
  (sortSymbols : list SymbolInformation -> list SymbolInformation).
Context (showType : TypePtr -> str) (docStrings : GenericSymbolRef -> TypePtr -> Loc -> option (list str)).
Context (Hdecode : validating decode).
Context (Hfiles : forall file f, fileData gs file = Some f -> File_wf f /\ is_size (length (source_ f))).

Lemma saveSymbolString_spec st r symbol output result s st' :
  output = [] \/ is_Some (symbolStringCache st !! r) ->
  saveSymbolString gs st r symbol output = Some (result, s, st') ->
  grows st st' /\ (result = okValue -> symbolStringCache st' !! r = Some s).
Proof.
  intros Hout. unfold saveSymbolString. destruct (symbolStringCache st !! r) as [c |] eqn:E.
  { intros [= <- <- <-]. by split. }
  destruct Hout as [-> | [? ?]]; [| done].
  destruct (match symbol with Some _ => _ | None => _ end) as [[[] sym] |]; cbn; [| by intros [= <- <- <-] .. | done].
  destruct (emitSymbolString sym []) as [[] out] eqn:Ee; [| by intros [= <- <- <-]].
  intros [= <- <- <-]. split; [| intros _; apply lookup_insert_eq]. split; cbn; try done.
  - by apply insert_subseteq.
  - intros Hc r' s'. cbn [symbolStringCache set_symbolStringCache].
    destruct (decide (r = r')) as [<- | Hne].
    + rewrite lookup_insert_eq. intros [= <-]. by exists sym.
    + rewrite lookup_insert_ne by done. apply Hc.
Qed.

Lemma saveParent_grows name klass rel acc acc' :
  saveParent gs name klass rel acc = Some acc' -> grows acc.2 acc'.2.
Proof.
  unfold saveParent. destruct (saveSymbolString _ _ _ _ _) as [[[result s] st] |] eqn:E; cbn; [| done].
  apply saveSymbolString_spec in E as [Hg _]; [| by left]. by destruct result; intros [= <-].
Qed.

Lemma saveMixins_grows name mixins acc acc' :
  saveMixins gs name mixins acc = Some acc' -> grows acc.2 acc'.2.
Proof.
  revert acc. induction mixins as [| m mixins IH]; intros acc; cbn.
  { by intros [= <-]. }
  destruct (saveParent _ _ _ _ _) as [acc1 |] eqn:E; cbn; [| done].
  intros H. etrans; [by eapply saveParent_grows | by apply IH].
Qed.

Lemma saveParentRelationships_grows st file r rels rels' st' :
  saveParentRelationships gs sortRelationships st file r rels = Some (rels', st') -> grows st st'.
Proof.
  unfold saveParentRelationships. set (st1 := touchRelationships st file).
  assert (H1 : grows st st1) by by split.
  destruct (default ∅ _ !! r) as [q |]; [| intros [= <- <-]; done].
  destruct (if negb _ then _ else _) as [acc |] eqn:E; cbn; [| done].
  assert (H2 : grows st1 acc.2).
  { destruct (negb _); [by apply saveParent_grows in E | by injection E as <-]. }
  destruct (saveMixins _ _ _ _) as [acc' |] eqn:E'; cbn; [| done]. apply saveMixins_grows in E'.
  destruct acc' as [rels1 st2]. intros [= <- <-]. etrans; [done |]. by etrans.
Qed.

Lemma saveAliasRelationship_grows st r rels rels' st' :
  saveAliasRelationship gs st r rels = Some (rels', st') -> grows st st'.
Proof.
  unfold saveAliasRelationship. destruct (saveSymbolString _ _ _ _ _) as [[[result s] st1] |] eqn:E; cbn; [| done].
  apply saveSymbolString_spec in E as [Hg _]; [| by left]. by destruct result; intros [= <- <-].
Qed.

Lemma escaped_valid docs docs' : mapM (escapeInvalidUtf8 decode) docs = Some docs' -> Forall valid_utf8 docs'.
Proof.
  intros H%mapM_Some. induction H as [| d d' docs docs' Hd _ IH]; constructor; [| done].
  destruct (escape_loop_spec decode (length d) d Hdecode) as (out & Ho & Hv & _); [done |].
  unfold escapeInvalidUtf8 in Hd. congruence.
Qed.

Lemma escape_total docs : exists docs', mapM (escapeInvalidUtf8 decode) docs = Some docs'.
Proof.
  apply mapM_is_Some, Forall_true. intros d.
  destruct (escape_loop_spec decode (length d) d Hdecode) as (out & Ho & _); [done | by exists out].
Qed.

(** Recording leaves the symbol cache alone. *)
Definition records (st st' : SCIPState) : Prop := symbolStringCache st' = symbolStringCache st /\ (Inv st -> Inv st').

Lemma saveSymbolInfo_records st file s docs rels e st' :
  index_symbol st s -> saveSymbolInfo decode st file s docs rels = Some (e, st') -> records st st'.
Proof.
  intros Hs. unfold saveSymbolInfo. destruct (alreadyEmittedSymbolInfo st file s); [by intros [= <- <-] |].
  destruct (mapM _ docs) as [docs' |] eqn:E; cbn; [| done]. intros [= <- <-]. split; [done |].
  intros Hinv. by apply Inv_push_symbol; [| | eapply escaped_valid].
Qed.

Lemma trimmed_range f l l' r : File_wf f -> is_size (length (source_ f)) -> in_file f l -> locFile l <> 0 ->
  trimColonColonPrefix f l = Some l' -> fromSorbetLoc f l' = Some r -> length r <> 4%nat -> one_line r.
Proof.
  intros Hwf Hsz Hin Hf Ht Hr H4. destruct (trim_in_file f l Hwf Hin Hf) as (l1 & E & Hin' & _).
  rewrite Ht in E. injection E as <-. destruct (fromSorbetLoc_range f l' Hwf Hsz Hin') as (r' & E & Hc).
  rewrite Hr in E. injection E as <-. by destruct Hc.
Qed.

(** The location lies in its file. *)
Definition located (l : Loc) : Prop := forall f, fileData gs (locFile l) = Some f -> in_file f l.

Lemma saveDefinitionImpl_records st file s l docs rels enc status st' :
  index_symbol st s -> (loc_exists l = true -> located l) ->
  saveDefinitionImpl gs decode st file s l docs rels enc = Some (status, st') -> records st st'.
Proof.
  intros Hs Hl. unfold saveDefinitionImpl. destruct (loc_exists l) eqn:Ex; [| by intros [= <- <-]].
  cbn [negb orb]. destruct (offsets_empty _); [by intros [= <- <-] |].
  destruct (fileData gs (locFile l)) as [f |] eqn:Ef; [| done]. cbn [mbind option_bind].
  destruct (trimColonColonPrefix f l) as [l' |] eqn:Et; [| done]. cbn [mbind option_bind].
  destruct (fromSorbetLoc f l') as [r |] eqn:Er; [| done]. cbn [mbind option_bind].
  destruct (Nat.eqb_spec (length r) 4) as [| H4]; [by intros [= <- <-] |].
  destruct (saveSymbolInfo _ _ _ _ _ _) as [[e st1] |] eqn:Ei; [| done]. cbn [mbind option_bind].
  destruct (match enc with Some _ => _ | None => _ end) as [enc' |]; [| done]. cbn [mbind option_bind].
  destruct (match e with Now => _ | Earlier => _ end) as [over |] eqn:Eo; [| done]. cbn [mbind option_bind].
  intros [= <- <-]. apply saveSymbolInfo_records in Ei as [Hc Hi]; [| done]. split; [done |]. intros Hinv.
  destruct (Hfiles _ _ Ef) as [Hwf Hsz]. apply Inv_push_occurrence; [auto | | |].
  - apply (trimmed_range f l l'); [done | done | by apply Hl | | done ..].
    unfold loc_exists in Ex. by destruct (Z.eqb_spec (locFile l) 0).
  - destruct Hs as [[r' Hr'] | Hs]; [left; exists r'; by rewrite Hc | by right].
  - destruct e; [by injection Eo as <- | by eapply escaped_valid].
Qed.

Lemma saveReferenceImpl_records st file s docs offsets roles st' :
  index_symbol st s -> file <> 0 -> located (mkLoc file offsets) ->
  saveReferenceImpl gs decode st file s docs offsets roles = Some st' -> records st st'.
Proof.
  intros Hs Hf Hl. unfold saveReferenceImpl.
  destruct (fileData gs file) as [f |] eqn:Ef; [| done]. cbn [mbind option_bind].
  destruct (trimColonColonPrefix f _) as [l' |] eqn:Et; [| done]. cbn [mbind option_bind].
  destruct (fromSorbetLoc f l') as [r |] eqn:Er; [| done]. cbn [mbind option_bind].
  destruct (Nat.eqb_spec (length r) 4) as [| H4]; [by intros [= <-] |].
  destruct (mapM _ docs) as [over |] eqn:Eo; [| done]. cbn [mbind option_bind].
  intros [= <-]. split; [done |]. intros Hinv. destruct (Hfiles _ _ Ef) as [Hwf Hsz].
  apply Inv_push_occurrence; [done | | done | by eapply escaped_valid].
  apply (trimmed_range f (mkLoc file offsets) l'); [done | done | by apply Hl | done ..].
Qed.

Lemma toSCIPString_local occ s : toSCIPString gs occ = Some s -> local_symbol s.
Proof.
  unfold toSCIPString. destruct (showFullName _ _ _); cbn; [| done]. intros [= <-]. by eexists _, _.
Qed.

Lemma cacheLocalOccurrence_grows st occ roles hit st' :
  cacheLocalOccurrence st occ roles = (hit, st') -> grows st st'.
Proof. unfold cacheLocalOccurrence. case_bool_decide; intros [= <- <-]; by split. Qed.

Lemma cacheSymbolOccurrence_grows st loc sym roles hit st' :
  cacheSymbolOccurrence st loc sym roles = (hit, st') -> grows st st'.
Proof. unfold cacheSymbolOccurrence. case_bool_decide; intros [= <- <-]; by split. Qed.

(** What every operation guarantees: cached strings stay, and so does the invariant. *)
Definition preserves (st st' : SCIPState) : Prop :=
  symbolStringCache st ⊆ symbolStringCache st' /\ (Inv st -> Inv st').

#[export] Instance preserves_preorder : PreOrder preserves.
Proof.
  split; [by intros st |]. intros st1 st2 st3 [] []. split; [by etrans | auto].
Qed.

Lemma grows_preserves st st' : grows st st' -> preserves st st'.
Proof. intros H. split; [apply H | intros Hi; by eapply Inv_grows]. Qed.

Lemma records_preserves st st' : records st st' -> preserves st st'.
Proof. intros [H1 H2]. split; [by rewrite H1 | done]. Qed.

Lemma saveLocalDefinition_preserves st file occ type enc status st' :
  located (mkLoc file (ol_offsets occ)) ->
  saveLocalDefinition gs decode showType st file occ type enc = Some (status, st') -> preserves st st'.
Proof.
  intros Hl. unfold saveLocalDefinition. destruct (cacheLocalOccurrence _ _ _) as [hit st1] eqn:E.
  apply cacheLocalOccurrence_grows in E. destruct hit; [intros [= <- <-]; by apply grows_preserves |].
  destruct (match type with Some _ => _ | None => _ end) as [docs |]; cbn [mbind option_bind]; [| done].
  destruct (toSCIPString gs occ) as [s |] eqn:Es; cbn [mbind option_bind]; [| done].
  intros H. etrans; [by apply grows_preserves |]. apply records_preserves.
  eapply saveDefinitionImpl_records; [| | exact H]; [right; by eapply toSCIPString_local | done].
Qed.

Lemma saveLocalReference_preserves st file occ type roles status st' :
  file <> 0 -> located (mkLoc file (ol_offsets occ)) ->
  saveLocalReference gs decode showType st file occ type roles = Some (status, st') -> preserves st st'.
Proof.
  intros Hf Hl. unfold saveLocalReference. destruct (cacheLocalOccurrence _ _ _) as [hit st1] eqn:E.
  apply cacheLocalOccurrence_grows in E. destruct hit; [intros [= <- <-]; by apply grows_preserves |].
  destruct (match type with Some _ => _ | None => _ end) as [docs |]; cbn [mbind option_bind]; [| done].
  destruct (toSCIPString gs occ) as [s |] eqn:Es; cbn [mbind option_bind]; [| done].
  destruct (saveReferenceImpl _ _ _ _ _ _ _ _) as [st2 |] eqn:H; cbn [mbind option_bind]; [| done].
  intros [= <- <-]. etrans; [by apply grows_preserves |]. apply records_preserves.
  eapply saveReferenceImpl_records; [| done | done | exact H]. right. by eapply toSCIPString_local.
Qed.

Lemma saveDefinition_preserves st file r alias loc enc status st' :
  (forall l, match loc with Some o => Some (mkLoc file o) | None => refLoc gs r end = Some l ->
     loc_exists l = true -> located l) ->
  saveDefinition gs decode sortRelationships docStrings st file r alias loc enc = Some (status, st') ->
  preserves st st'.
Proof.
  intros Hl. unfold saveDefinition. destruct (match loc with Some _ => _ | None => _ end) as [l |];
    cbn [mbind option_bind]; [| done].
  destruct (negb (loc_exists l) || _); [by intros [= <- <-] |].
  destruct (symbolForExpr _ _ _ _) as [[[] sym] |]; cbn [mbind option_bind]; [| by intros [= <- <-] .. | done].
  destruct (saveSymbolString _ _ _ _ _) as [[[result s] st1] |] eqn:E1; cbn [mbind option_bind]; [| done].
  apply saveSymbolString_spec in E1 as [G1 Hs]; [| by left].
  destruct result; [| intros [= <- <-]; by apply grows_preserves ..].
  destruct (docStrings _ _ _) as [docs |]; cbn [mbind option_bind]; [| done].
  destruct (saveParentRelationships _ _ _ _ _ _) as [[rels st2] |] eqn:E2; cbn [mbind option_bind]; [| done].
  apply saveParentRelationships_grows in E2.
  destruct (match alias with Some _ => _ | None => _ end) as [[rels' st3] |] eqn:E3;
    cbn [mbind option_bind]; [| done].
  assert (G3 : grows st2 st3).
  { destruct alias; [by eapply saveAliasRelationship_grows | by injection E3 as <- <-]. }
  intros H. assert (G : grows st st3) by (etrans; [done |]; by etrans).
  etrans; [by apply grows_preserves |]. apply records_preserves.
  eapply saveDefinitionImpl_records; [| | exact H]; [| by apply Hl].
  left. eexists. eapply lookup_weaken; [by apply Hs |]. etrans; [apply E2 | apply G3].
Qed.

(** The part of [saveReference] that notes a reference-only symbol *)
Lemma refonly_preserves st file r syms :
  is_Some (symbolStringCache st !! r) ->
  preserves st
    (set_potentialRefOnlySymbols
       (<[file := {[r]} ∪ default ∅ (potentialRefOnlySymbols st !! file)]> (potentialRefOnlySymbols st))
       (set_relationshipsMap syms st)).
Proof.
  intros Hr. split; [done |]. intros [Hc Ho Hs Hp]. split; [done .. |]. cbn.
  intros file' s r'. destruct (decide (file = file')) as [<- | Hne].
  - rewrite lookup_insert_eq. intros [= <-] [->%elem_of_singleton | Hin]%elem_of_union; [done |].
    destruct (potentialRefOnlySymbols st !! file) as [s |] eqn:E; cbn in Hin; [by eapply Hp | set_solver].
  - rewrite lookup_insert_ne by done. apply Hp.
Qed.

Lemma saveReference_preserves st owner file r type offsets roles status st' :
  file <> 0 -> located (mkLoc file offsets) ->
  saveReference gs decode docStrings st owner file r type offsets roles = Some (status, st') -> preserves st st'.
Proof.
  intros Hf Hl. unfold saveReference. destruct (symbolName _ _) as [on |]; cbn [mbind option_bind]; [| done].
  destruct (if on =? _ then _ else _) as [[] |]; cbn [mbind option_bind]; [by intros [= <- <-] | | done].
  destruct (cacheSymbolOccurrence _ _ _ _) as [hit st1] eqn:E1. apply cacheSymbolOccurrence_grows in E1.
  destruct hit; [intros [= <- <-]; by apply grows_preserves |].
  destruct (saveSymbolString _ _ _ _ _) as [[[result s] st2] |] eqn:E2; cbn [mbind option_bind]; [| done].
  apply saveSymbolString_spec in E2 as [G2 Hs]; [| by left].
  assert (G : preserves st st2) by (apply grows_preserves; by etrans).
  destruct result; [specialize (Hs eq_refl) | by intros [= <- <-] ..].
  destruct (match refKind r with RParameter | RField => _ | _ => _ end) as [docs |]; cbn [mbind option_bind];
    [| done].
  set (st3 := if bool_decide _ then _ else _).
  assert (P3 : preserves st2 st3 /\ symbolStringCache st3 !! withoutType r = Some s).
  { unfold st3. case_bool_decide; [done |]. destruct (default ∅ _ !! _).
    - split; [| done]. apply (refonly_preserves st2 file (withoutType r)
        (<[file := default ∅ (relationshipsMap st2 !! file)]> (relationshipsMap st2))). by rewrite Hs.
    - split; [apply grows_preserves; by split | done]. }
  destruct (saveReferenceImpl _ _ _ _ _ _ _ _) as [st4 |] eqn:E4; cbn [mbind option_bind]; [| done].
  intros [= <- <-]. etrans; [done |]. etrans; [apply P3 |]. apply records_preserves.
  eapply saveReferenceImpl_records; [| done | done | exact E4]. left.
  exists (withoutType r). apply P3.
Qed.

(** The shared buffer of [finalizeRefOnlySymbolInfos] is always replaced. *)
Lemma finalizeSymbols_preserves file syms : forall st buffer st',
  (forall r, r ∈ syms -> is_Some (symbolStringCache st !! r)) ->
  finalizeSymbols gs decode sortRelationships st file syms buffer = Some st' -> preserves st st'.
Proof.
  induction syms as [| r syms IH]; intros st buffer st' Hc; cbn [finalizeSymbols].
  { by intros [= <-]. }
  destruct (saveSymbolString _ _ _ _ _) as [[[result s] st1] |] eqn:E1; cbn [mbind option_bind]; [| done].
  apply saveSymbolString_spec in E1 as [G1 Hs]; [| right; apply Hc; left].
  assert (Hmono : forall st0, symbolStringCache st ⊆ symbolStringCache st0 ->
    forall r, r ∈ syms -> is_Some (symbolStringCache st0 !! r)).
  { intros st0 Hsub r' Hr'. destruct (Hc r') as [s' Hs']; [by right |]. exists s'. by eapply lookup_weaken. }
  assert (Hnext : forall buffer, finalizeSymbols gs decode sortRelationships st1 file syms buffer = Some st' ->
    preserves st st').
  { intros b H. etrans; [by apply grows_preserves |]. eapply IH; [| exact H]. apply Hmono, G1. }
  destruct result; [specialize (Hs eq_refl) | apply Hnext ..].
  destruct (alreadyEmittedSymbolInfo st1 file s); [apply Hnext |].
  destruct (saveParentRelationships _ _ _ _ _ _) as [[rels st2] |] eqn:E2; cbn [mbind option_bind]; [| done].
  apply saveParentRelationships_grows in E2.
  destruct (saveSymbolInfo _ _ _ _ _ _) as [[e st3] |] eqn:E3; cbn [mbind option_bind]; [| done].
  apply saveSymbolInfo_records in E3; [| left; eexists; eapply lookup_weaken; [exact Hs | apply E2]].
  assert (P : preserves st st3).
  { etrans; [by apply grows_preserves |]. etrans; [by apply grows_preserves | by apply records_preserves]. }
  intros H. etrans; [exact P |]. eapply IH; [| exact H]. apply Hmono, P.
Qed.

Lemma finalizeRefOnlySymbolInfos_preserves st file st' : Inv st ->
  finalizeRefOnlySymbolInfos gs decode sortRelationships st file = Some st' -> preserves st st'.
Proof.
  intros Hinv. unfold finalizeRefOnlySymbolInfos. set (syms := default ∅ _). intros H.
  etrans; [| eapply finalizeSymbols_preserves; [| exact H]].
  - split; [done |]. intros [Hc Ho Hs Hp]. split; [done .. |]. cbn. intros file' s r.
    destruct (decide (file = file')) as [<- | Hne]; [| rewrite lookup_insert_ne by done; apply Hp].
    rewrite lookup_insert_eq. intros [= <-]. unfold syms.
    destruct (potentialRefOnlySymbols st !! file) as [s |] eqn:E; cbn; [by apply (Hp file) | set_solver].
  - cbn. intros r Hr%elem_of_elements. unfold syms in Hr.
    destruct (potentialRefOnlySymbols st !! file) as [s |] eqn:E; cbn in Hr; [| set_solver].
    by eapply (inv_refonly _ Hinv).
Qed.

Lemma saveDocument_preserves rel st file st' :
  saveDocument gs sortOccurrences sortSymbols rel st file = Some st' -> preserves st st'.
Proof.
  unfold saveDocument. destruct (fileData gs file) as [f |]; cbn [mbind option_bind]; [| done].
  assert (forall A (m : gmap Z (list A)) file' l x, delete file m !! file' = Some l -> x ∈ l ->
    m !! file' = Some l) as Hdel by (intros A m file' l x [_ H]%lookup_delete_Some _; done).
  intros H.
  assert (symbolStringCache st' = symbolStringCache st /\
    potentialRefOnlySymbols st' = potentialRefOnlySymbols st /\
    (forall file' l x, occurrenceMap st' !! file' = Some l -> x ∈ l -> occurrenceMap st !! file' = Some l) /\
    (forall file' l x, symbolMap st' !! file' = Some l -> x ∈ l -> symbolMap st !! file' = Some l))
    as (Hc & Hp & Ho & Hs).
  { destruct (occurrenceMap st !! file), (symbolMap st !! file) eqn:Es; cbn in H; rewrite ?Es in H;
      injection H as <-; cbn; eauto 10. }
  split; [by rewrite Hc |]. intros [Ic Io Is Ip]. split.
  - intros r s. rewrite Hc. apply Ic.
  - intros file' l o H1 H2. destruct (Io _ _ _ (Ho _ _ _ H1 H2) H2) as (? & ? & ?).
    split_and!; [done | apply (index_symbol_mono st); [by rewrite Hc | done] | done].
  - intros file' l o H1 H2. destruct (Is _ _ _ (Hs _ _ _ H1 H2) H2) as (? & ?).
    split_and!; [apply (index_symbol_mono st); [by rewrite Hc | done] | done].
  - rewrite Hc, Hp. apply Ip.
Qed.

(** ** Runs of the indexer *)

(** What the traversal of a program may do with the state, in any order: record definitions and
    references at locations of their file, set the relationships of a file, start a new function,
    and finish a file. *)
Inductive step : SCIPState -> SCIPState -> Prop :=
| step_localDefinition st file occ type enc status st' :
    located (mkLoc file (ol_offsets occ)) ->
    saveLocalDefinition gs decode showType st file occ type enc = Some (status, st') -> step st st'
| step_localReference st file occ type roles status st' :
    file <> 0 -> located (mkLoc file (ol_offsets occ)) ->
    saveLocalReference gs decode showType st file occ type roles = Some (status, st') -> step st st'
| step_definition st file r alias loc enc status st' :
    (forall l, match loc with Some o => Some (mkLoc file o) | None => refLoc gs r end = Some l ->
       loc_exists l = true -> located l) ->
    saveDefinition gs decode sortRelationships docStrings st file r alias loc enc = Some (status, st') ->
    step st st'
| step_reference st owner file r type offsets roles status st' :
    file <> 0 -> located (mkLoc file offsets) ->
    saveReference gs decode docStrings st owner file r type offsets roles = Some (status, st') -> step st st'
| step_relationships st m : step st (set_relationshipsMap m st)
| step_function st : step st (clearFunctionLocalCaches st)
| step_finalize st file st' :
    finalizeRefOnlySymbolInfos gs decode sortRelationships st file = Some st' -> step st st'
| step_document rel st file st' :
    saveDocument gs sortOccurrences sortSymbols rel st file = Some st' -> step st st'.

Lemma step_preserves st st' : step st st' -> Inv st -> preserves st st'.
Proof.
  intros H Hinv. destruct H.
  - by eapply saveLocalDefinition_preserves.
  - by eapply saveLocalReference_preserves.
  - by eapply saveDefinition_preserves.
  - by eapply saveReference_preserves.
  - apply grows_preserves. by split.
  - apply grows_preserves. by split.
  - by eapply finalizeRefOnlySymbolInfos_preserves.
  - by eapply saveDocument_preserves.
Qed.

Lemma Inv_new gems : Inv (newSCIPState gems).
Proof.
  split; [intros r s | intros file l o | intros file l s | intros file l r]; cbn; by rewrite lookup_empty.
Qed.

Lemma run_preserves st st' : rtc step st st' -> Inv st -> preserves st st'.
Proof.
  induction 1 as [| st1 st2 st3 Hs Hr IH]; intros Hinv; [done |].
  pose proof (step_preserves _ _ Hs Hinv) as Hp. etrans; [exact Hp |]. by apply IH, Hp.
Qed.
End Preservation.

(** ** Properties *)

(** The index is well-formed after any run of the indexer. Every occurrence waiting to be
    written lies on one line, with non-negative coordinates in order; its symbol, and that of every
    symbol information, is the text of one symbol or a local; documentation is well-formed UTF-8;
    and a string once chosen for a program symbol is never changed in the rest of the run. The
    buffer shared by the iterations of [finalizeRefOnlySymbolInfos] does no harm. *)
Theorem index_well_formed gs decode sortR sortO sortS showType docStrings gems st st' :
  validating decode ->
  (forall file f, fileData gs file = Some f -> File_wf f /\ is_size (length (source_ f))) ->
  rtc (step gs decode sortR sortO sortS showType docStrings) (newSCIPState gems) st ->
  rtc (step gs decode sortR sortO sortS showType docStrings) st st' ->
  (forall file occs o, occurrenceMap st !! file = Some occs -> o ∈ occs ->
     one_line (range o) /\ Forall valid_utf8 (override_documentation o) /\
     ((exists symb, emitSymbolString symb [] = (OkStatus, symbol o)) \/ local_symbol (symbol o))) /\
  (forall file syms s, symbolMap st !! file = Some syms -> s ∈ syms ->
     Forall valid_utf8 (documentation s) /\
     ((exists symb, emitSymbolString symb [] = (OkStatus, s_symbol s)) \/ local_symbol (s_symbol s))) /\
  (forall r s, symbolStringCache st !! r = Some s -> symbolStringCache st' !! r = Some s).
Proof.
  intros Hd Hf Hr Hr'. destruct (run_preserves gs decode sortR sortO sortS showType docStrings Hd Hf _ _ Hr
    (Inv_new gems)) as [_ Hinv]. specialize (Hinv (Inv_new gems)).
  assert (Hsym : forall s, index_symbol st s ->
    (exists symb, emitSymbolString symb [] = (OkStatus, s)) \/ local_symbol s).
  { intros s [[r Hs] | Hs]; [left; by eapply (inv_cache _ Hinv) | by right]. }
  split_and!.
  - intros file occs o H1 H2. destruct (inv_occurrences _ Hinv _ _ _ H1 H2) as (? & ? & ?). auto.
  - intros file syms s H1 H2. destruct (inv_symbols _ Hinv _ _ _ H1 H2) as (? & ?). auto.
  - intros r s H. eapply lookup_weaken; [exact H |].
    by apply (run_preserves gs decode sortR sortO sortS showType docStrings Hd Hf _ _ Hr' Hinv).
Qed.

(** A run on the program with the class [foo]: one reference to it *)
Definition fooRef : GenericSymbolRef := mkGeneric 32 noName NullType.

Definition fooState : SCIPState :=
  newSCIPState (markCurrentGem (mkGemMetadata s! "g" s! "1") newGemMapping).

Definition fooIndexed : SCIPState :=
  match saveReference fooProgram utf8_char (fun _ _ _ => Some []) fooState 32 1 fooRef None (mkLocOffsets 0 2) 0 with
  | Some (_, st) => st
  | None => fooState
  end.

Lemma fooProgram_files file f :
  fileData fooProgram file = Some f -> File_wf f /\ is_size (length (source_ f)).
Proof.
  unfold fileData. destruct (file <=? 0); [done |]. cbn. destruct (Z.to_nat (file - 1)) as [| n]; cbn.
  - intros [= <-]. split; [apply sampleFile_wf | done].
  - by destruct n.
Qed.

Lemma index_well_formed_witness :
  exists o, occurrenceMap fooIndexed !! 1 = Some [o] /\ one_line (range o).
Proof.
  eexists. split; [vm_compute; reflexivity |].
  eapply (index_well_formed fooProgram utf8_char id id id (fun _ => []) (fun _ _ _ => Some [])
    (markCurrentGem (mkGemMetadata s! "g" s! "1") newGemMapping) fooIndexed fooIndexed)
    with (file := 1).
  - done.
  - apply fooProgram_files.
  - eapply rtc_l; [| apply rtc_refl].
    eapply (step_reference _ _ _ _ _ _ _ _ 32 1 fooRef None (mkLocOffsets 0 2) 0 OkStatus); [done | |].
    + intros f [= <-]. split; cbn; lia.
    + vm_compute. reflexivity.
  - apply rtc_refl.
  - vm_compute. reflexivity.
  - apply list_elem_of_here.
Defined.

(** *** Documents *)

Lemma sorts_nil {A} ok (cmp : A -> A -> Z) sort : sorts ok cmp sort -> sort [] = [].
Proof. intros H. destruct (H [] ltac:(constructor)) as [Hp _]. by apply Permutation.Permutation_nil. Qed.

Lemma saveDocument_spec gs sortO sortS rel st file f :
  sortO [] = [] -> sortS [] = [] -> fileData gs file = Some f ->
  exists st', saveDocument gs sortO sortS rel st file = Some st' /\
    documents st' = documents st ++
      [mkDocument (match path_ f with c :: _ => if char_eqb c "/" then rel (path_ f) else path_ f
                                 | [] => path_ f end)
         (sortO (default [] (occurrenceMap st !! file))) (sortS (default [] (symbolMap st !! file)))] /\
    occurrenceMap st' = delete file (occurrenceMap st) /\ symbolMap st' = delete file (symbolMap st).
Proof.
  intros HO HS Hf. unfold saveDocument. rewrite Hf. cbn [mbind option_bind].
  destruct (occurrenceMap st !! file) as [occs |] eqn:Eo; cbn;
    destruct (symbolMap st !! file) as [syms |] eqn:Es; cbn;
    eexists; (split; [done |]); cbn; rewrite ?HO, ?HS; (split_and!; first [done | by rewrite delete_id]).
Qed.

(** A finished document has exactly the occurrences and symbols recorded for its file, sorted;
    they are removed from the state, and nothing recorded for another file changes. The document
    does not depend on the order of recording: a state that recorded the same occurrences and
    symbols in another order, sorted by any other sorting functions, gives the same document, up to
    enclosing ranges. *)
Theorem saveDocument_correct gs sortO sortS sortO' sortS' rel st st2 file f :
  sorts occurrence_ok compareOccurrence sortO -> sorts symbol_info_ok compareSymbolInformation sortS ->
  sorts occurrence_ok compareOccurrence sortO' -> sorts symbol_info_ok compareSymbolInformation sortS' ->
  fileData gs file = Some f ->
  (forall occs, occurrenceMap st !! file = Some occs -> Forall occurrence_ok occs) ->
  (forall syms, symbolMap st !! file = Some syms -> Forall symbol_info_ok syms) ->
  default [] (occurrenceMap st !! file) ≡ₚ default [] (occurrenceMap st2 !! file) ->
  default [] (symbolMap st !! file) ≡ₚ default [] (symbolMap st2 !! file) ->
  exists doc doc2 st' st2',
    saveDocument gs sortO sortS rel st file = Some st' /\ documents st' = documents st ++ [doc] /\
    saveDocument gs sortO' sortS' rel st2 file = Some st2' /\ documents st2' = documents st2 ++ [doc2] /\
    doc_occurrences doc ≡ₚ default [] (occurrenceMap st !! file) /\
    sorted_by compareOccurrence (doc_occurrences doc) /\
    doc_symbols doc ≡ₚ default [] (symbolMap st !! file) /\
    sorted_by compareSymbolInformation (doc_symbols doc) /\
    occurrenceMap st' = delete file (occurrenceMap st) /\ symbolMap st' = delete file (symbolMap st) /\
    relative_path doc = relative_path doc2 /\ doc_symbols doc = doc_symbols doc2 /\
    Forall2 same_occurrence (doc_occurrences doc) (doc_occurrences doc2).
Proof.
  intros SO SS SO' SS' Hf Ho Hs Po Ps.
  destruct (saveDocument_spec gs sortO sortS rel st file f) as (st' & E & Ed & Eo & Es);
    [by eapply sorts_nil .. | done |].
  destruct (saveDocument_spec gs sortO' sortS' rel st2 file f) as (st2' & E2 & Ed2 & _);
    [by eapply sorts_nil .. | done |].
  assert (Fo : Forall occurrence_ok (default [] (occurrenceMap st !! file)))
    by (destruct (occurrenceMap st !! file); [by apply Ho | constructor]).
  assert (Fs : Forall symbol_info_ok (default [] (symbolMap st !! file)))
    by (destruct (symbolMap st !! file); [by apply Hs | constructor]).
  destruct (SO _ Fo) as [P1 S1]. destruct (SS _ Fs) as [P2 S2].
  eexists _, _, st', st2'. split_and!; try done; cbn.
  - apply list_eq_Forall2. by eapply sorts_unique.
  - by eapply sorts_unique.
Qed.

Lemma fooIndexed_occurrences :
  occurrenceMap fooIndexed !! 1 =
  Some [mkOccurrence [0; 0; 2] s! "scip-ruby gem g 1 foo#" 0 [] 0 [] []].
Proof. vm_compute. reflexivity. Qed.

Lemma fooIndexed_symbols : symbolMap fooIndexed !! 1 = None.
Proof. vm_compute. reflexivity. Qed.

Lemma saveDocument_correct_witness :
  exists doc st', saveDocument fooProgram (insertion_sort compareOccurrence)
      (insertion_sort compareSymbolInformation) id fooIndexed 1 = Some st' /\
    documents st' = documents fooIndexed ++ [doc] /\
    doc_occurrences doc ≡ₚ default [] (occurrenceMap fooIndexed !! 1).
Proof.
  destruct (saveDocument_correct fooProgram (insertion_sort compareOccurrence)
    (insertion_sort compareSymbolInformation) (insertion_sort compareOccurrence)
    (insertion_sort compareSymbolInformation) id fooIndexed fooIndexed 1 sampleFile)
    as (doc & _ & st' & _ & H1 & H2 & _ & _ & H3 & _).
  - apply insertion_sort_sorts.
  - apply insertion_sort_sorts.
  - apply insertion_sort_sorts.
  - apply insertion_sort_sorts.
  - done.
  - rewrite fooIndexed_occurrences. intros occs [= <-]. by repeat constructor.
  - by rewrite fooIndexed_symbols.
  - done.
  - done.
  - by exists doc, st'.
Defined.

(** *** Duplicates *)

Lemma saveSymbolString_occurrences gs st r symbol output result s st' :
  saveSymbolString gs st r symbol output = Some (result, s, st') ->
  symbolOccurrenceCache st' = symbolOccurrenceCache st.
Proof.
  unfold saveSymbolString. destruct (symbolStringCache st !! r); [by intros [= <- <- <-] |].
  destruct (match symbol with Some _ => _ | None => _ end) as [[[] sym] |]; cbn; [| by intros [= <- <- <-] .. | done].
  by destruct (emitSymbolString sym output) as [[] out]; intros [= <- <- <-].
Qed.

Lemma saveReferenceImpl_caches gs decode st file s docs offsets roles st' :
  saveReferenceImpl gs decode st file s docs offsets roles = Some st' ->
  symbolOccurrenceCache st' = symbolOccurrenceCache st /\ localOccurrenceCache st' = localOccurrenceCache st.
Proof.
  unfold saveReferenceImpl. destruct (fileData gs file) as [f |]; cbn [mbind option_bind]; [| done].
  destruct (trimColonColonPrefix f _) as [l |]; cbn [mbind option_bind]; [| done].
  destruct (fromSorbetLoc f l) as [r |]; cbn [mbind option_bind]; [| done].
  destruct (length r =? 4)%nat; [by intros [= <-] |].
  destruct (mapM _ docs); cbn [mbind option_bind]; [| done]. by intros [= <-].
Qed.

(** The context is that of a symbol of Sorbet in a static initializer. *)
Definition ignored (gs : Program) (owner : Z) (r : GenericSymbolRef) : option bool :=
  ownerName ← symbolName (pr_gs gs) owner;
  if ownerName =? n_staticInit (sy_wk (pr_gs gs)) then isSorbetInternalClassOrMethod gs r else Some false.

Lemma saveReference_hit gs decode docStrings st owner file r type offsets roles :
  is_Some (ignored gs owner r) ->
  ignored gs owner r = Some true \/ occurrenceKey (mkLoc file offsets) r roles ∈ symbolOccurrenceCache st ->
  saveReference gs decode docStrings st owner file r type offsets roles = Some (OkStatus, st).
Proof.
  unfold ignored, saveReference. destruct (symbolName _ _) as [name |]; cbn [mbind option_bind]; [| by intros []].
  destruct (if name =? _ then _ else _) as [[] |]; cbn [mbind option_bind]; [done | | by intros []].
  intros _ [[=] | Hin]. unfold cacheSymbolOccurrence. by rewrite bool_decide_true.
Qed.

Lemma saveReference_cached gs decode docStrings st owner file r type offsets roles status st' :
  saveReference gs decode docStrings st owner file r type offsets roles = Some (status, st') ->
  is_Some (ignored gs owner r) /\
  (ignored gs owner r = Some true \/ occurrenceKey (mkLoc file offsets) r roles ∈ symbolOccurrenceCache st').
Proof.
  unfold ignored, saveReference. destruct (symbolName _ _) as [name |]; cbn [mbind option_bind]; [| done].
  destruct (if name =? _ then _ else _) as [[] |]; cbn [mbind option_bind]; [by eauto | | done].
  intros H. split; [done |]. right. revert H.
  destruct (cacheSymbolOccurrence _ _ _ _) as [hit st1] eqn:E1.
  assert (Hin : occurrenceKey (mkLoc file offsets) r roles ∈ symbolOccurrenceCache st1).
  { unfold cacheSymbolOccurrence in E1. case_bool_decide; injection E1 as <- <-; [done | cbn; set_solver]. }
  destruct hit; [by intros [= <- <-] |].
  destruct (saveSymbolString _ _ _ _ _) as [[[result s] st2] |] eqn:E2; cbn [mbind option_bind]; [| done].
  apply saveSymbolString_occurrences in E2. rewrite <- E2 in Hin.
  destruct result; [| by intros [= <- <-] ..].
  destruct (match refKind r with RParameter | RField => _ | _ => _ end); cbn [mbind option_bind]; [| done].
  set (st3 := if bool_decide _ then _ else _).
  assert (E3 : symbolOccurrenceCache st3 = symbolOccurrenceCache st2).
  { unfold st3. case_bool_decide; [done |]. by destruct (default ∅ _ !! _). }
  destruct (saveReferenceImpl _ _ _ _ _ _ _ _) as [st4 |] eqn:E4; cbn [mbind option_bind]; [| done].
  intros [= <- <-]. apply saveReferenceImpl_caches in E4 as [-> _]. by rewrite E3.
Qed.

(** A reference is recorded once. Saving a reference again, to the same symbol, at the same place
    and with the same roles, whatever type it is seen at, succeeds and changes nothing, so rewritten
    code that mentions a constant several times gives one occurrence. *)
Theorem saveReference_once gs decode docStrings st owner file r r' type type' offsets roles status st' :
  sameRef r r' = true ->
  saveReference gs decode docStrings st owner file r type offsets roles = Some (status, st') ->
  saveReference gs decode docStrings st' owner file r' type' offsets roles = Some (OkStatus, st').
Proof.
  intros Hr H. apply saveReference_cached in H as [Hs Hc].
  unfold sameRef in Hr. apply andb_true_iff in Hr as [E1%Z.eqb_eq E2%Z.eqb_eq].
  assert (ignored gs owner r' = ignored gs owner r) as Ei.
  { unfold ignored, isSorbetInternalClassOrMethod, refKind. by rewrite E1, E2. }
  apply saveReference_hit; rewrite Ei; [done |].
  destruct Hc as [Hc | Hc]; [by left | right]. unfold occurrenceKey in *. by rewrite <- E1, <- E2.
Qed.

Lemma saveReference_once_witness :
  saveReference fooProgram utf8_char (fun _ _ _ => Some []) fooIndexed 32 1 (mkGeneric 32 noName (ClassType 7)) None
    (mkLocOffsets 0 2) 0 = Some (OkStatus, fooIndexed).
Proof.
  apply (saveReference_once fooProgram utf8_char (fun _ _ _ => Some []) fooState 32 1 fooRef _ None None
    (mkLocOffsets 0 2) 0 OkStatus fooIndexed); vm_compute; reflexivity.
Defined.
