(* ===== verification/ScipFieldResolve.v ===== *)
(** * Resolution of fields

    Models src/scip_indexer/SCIPFieldResolve.h and .cc: which class an undeclared instance or class
    variable belongs to, and which mixins mention it. The answers are cached per file, class and
    field. [unresolvedFields] of the global state maps a class to the undeclared fields it mentions.
    [None] stands for a read outside a table or for a chain of superclasses that does not end. *)

From S2P Require Import Prelude Pickler FileHash Files Locs Types NameTable NameText Symbols SymbolRefs.
From S2P Require Import ScipUtils ScipProto ScipGem ScipSymbolRef ScipState.

#[local] Open Scope Z_scope.

Record FieldQuery := mkFieldQuery { q_file : Z; q_start : Z; q_field : Z }.

#[export] Instance FieldQuery_eq_dec : EqDecision FieldQuery.
Proof. solve_decision. Defined.

#[export] Instance FieldQuery_countable : Countable FieldQuery.
Proof.
  refine (inj_countable' (fun q => (q_file q, q_start q, q_field q)) (fun '(a, b, c) => mkFieldQuery a b c) _).
  by intros [].
Defined.

(** ** The queue *)

Record BasicQueue := mkBasicQueue { storage : list Z; current : nat }.

Definition queue_clear (q : BasicQueue) : BasicQueue := mkBasicQueue [] 0.

Definition queue_push_back (val : Z) (q : BasicQueue) : BasicQueue :=
  mkBasicQueue (storage q ++ [val]) (current q).

Definition try_pop_front (q : BasicQueue) : option Z * BasicQueue :=
  match storage q !! current q with
  | Some ret => (Some ret, mkBasicQueue (storage q) (S (current q)))
  | None => (None, q)
  end.

Record FieldResolver := mkFieldResolver { cache : gmap FieldQuery FieldQueryResult; mixinQueue : BasicQueue }.

(** ** Resolution *)

Section Resolve.
Context (gs : Symbolic) (unresolvedFields : gmap Z (gset Z)).

(** [it != gs.unresolvedFields.end() && it->second.contains(field)] *)
Definition mentions (klass field : Z) : bool := bool_decide (field ∈ default ∅ (unresolvedFields !! klass)).

(** [while (auto m = this->mixinQueue.try_pop_front())] *)
Fixpoint popMixins (fuel : nat) (field : Z) (q : BasicQueue) (out : list Z) : option (list Z * BasicQueue) :=
  let '(m, q) := try_pop_front q in
  match m with
  | None => Some (out, q)
  | Some mixin =>
      match fuel with
      | O => None
      | S fuel =>
          sym ← findMember gs mixin field;
          popMixins fuel field q
            (if symbol_exists sym then out ++ [mixin]
             else if mentions mixin field then out ++ [mixin]
             else out)
      end
  end.

Definition findUnresolvedFieldInMixinsTransitive (r : FieldResolver) (query : FieldQuery)
    : option (list Z * FieldResolver) :=
  let q := queue_clear (mixinQueue r) in
  c ← classData gs (q_start query);
  let q := fold_left (fun q mixin => queue_push_back mixin q) (cm_mixins c) q in
  '(out, q) ← popMixins (length (storage q)) (q_field query) q [];
  Some (out, mkFieldResolver (cache r) q).

Definition is_at (c : ascii) : bool := char_eqb c "@".

Definition normalizeParentForClassVar (klass : Z) (name : str) : option Z :=
  let isClassVar := match name with a :: b :: _ => is_at a && is_at b | _ => false end in
  if isClassVar then
    isSingletonClass gs klass ≫= fun singleton : bool =>
    if singleton then Some klass else lookupSingletonClass gs klass
  else Some klass.

(** [while (cur.exists())], from the class up; a class that is its own superclass ends the walk. *)
Fixpoint inheritanceChain (fuel : nat) (field best cur : Z) : option Z :=
  if cur =? 0 then Some best
  else
    match fuel with
    | O => None
    | S fuel =>
        klass ← classData gs cur;
        sym ← findMember gs cur field;
        if symbol_exists sym then Some cur
        else
          let best := if mentions cur field then cur else best in
          if cur =? cm_superClass klass then Some best
          else inheritanceChain fuel field best (cm_superClass klass)
    end.

Definition findUnresolvedFieldInInheritanceChain (query : FieldQuery) : option Z :=
  let start := q_start query in
  fieldText ← shortName (sy_names gs) (q_field query);
  let isInstanceVar := match fieldText with a :: b :: _ => is_at a && negb (is_at b) | _ => false end in
  classInstanceVar ← (if isInstanceVar then isSingletonClass gs start else Some false);
  if (classInstanceVar : bool) then Some start
  else
    start ← normalizeParentForClassVar start fieldText;
    inheritanceChain (length (classAndModules (sy_table gs))) (q_field query) start start.

Definition findUnresolvedFieldTransitive (r : FieldResolver) (query : FieldQuery)
    : option (FieldQueryResult * FieldResolver) :=
  match cache r !! query with
  | Some result => Some (result, r)
  | None =>
      inherited ← findUnresolvedFieldInInheritanceChain query;
      '(mixins, r) ← findUnresolvedFieldInMixinsTransitive r query;
      let result := mkFieldQueryResult inherited mixins in
      Some (result, mkFieldResolver (<[query := result]> (cache r)) (mixinQueue r))
  end.

(** ** Specification *)

(** A class declares a field as a member. *)
Definition declares (klass field : Z) : bool :=
  match findMember gs klass field with Some sym => symbol_exists sym | None => false end.

(** The classes from [cur] to the last superclass *)
Inductive superclasses : Z -> list Z -> Prop :=
| super_end : superclasses 0 []
| super_self cur klass : 0 < cur -> classData gs cur = Some klass -> cm_superClass klass = cur ->
    superclasses cur [cur]
| super_step cur klass l : 0 < cur -> classData gs cur = Some klass -> cm_superClass klass <> cur ->
    superclasses (cm_superClass klass) l -> superclasses cur (cur :: l).

(** The owner of a field: the first class of the chain that declares it; otherwise the last one that
    mentions it, or [best]. *)
Fixpoint fieldOwner (field best : Z) (chain : list Z) : Z :=
  match chain with
  | [] => best
  | c :: chain =>
      if declares c field then c else fieldOwner field (if mentions c field then c else best) chain
  end.

Definition fieldMixins (field : Z) (mixins : list Z) : list Z :=
  List.filter (fun m => declares m field || mentions m field) mixins.

Lemma inheritanceChain_spec field cur l : superclasses cur l ->
  (forall c, c ∈ l -> is_Some (findMember gs c field)) ->
  forall fuel best, (length l <= fuel)%nat -> inheritanceChain fuel field best cur = Some (fieldOwner field best l).
Proof.
  induction 1 as [| cur klass Hcur Hk Hs | cur klass l Hcur Hk Hs Hl IH]; intros Hm fuel best Hf.
  - by destruct fuel.
  - cbn in Hf. destruct fuel as [| fuel]; [lia |]. cbn [inheritanceChain fieldOwner].
    destruct (Z.eqb_spec cur 0); [lia |]. rewrite Hk. cbn [mbind option_bind]. unfold declares.
    destruct (Hm cur) as [sym ->]; [left |]. cbn [mbind option_bind]. destruct (symbol_exists sym); [done |].
    by rewrite Hs, Z.eqb_refl.
  - cbn in Hf. destruct fuel as [| fuel]; [lia |]. cbn [inheritanceChain fieldOwner].
    destruct (Z.eqb_spec cur 0); [lia |]. rewrite Hk. cbn [mbind option_bind]. unfold declares.
    destruct (Hm cur) as [sym ->]; [left |]. cbn [mbind option_bind]. destruct (symbol_exists sym); [done |].
    destruct (Z.eqb_spec cur (cm_superClass klass)); [congruence |].
    apply IH; [| lia]. intros c Hc. apply Hm. by right.
Qed.

Lemma queue_push_all q mixins :
  fold_left (fun q mixin => queue_push_back mixin q) mixins q = mkBasicQueue (storage q ++ mixins) (current q).
Proof.
  revert q. induction mixins as [| m mixins IH]; intros [s c]; cbn; [by rewrite app_nil_r |].
  rewrite IH. cbn. by rewrite <- app_assoc.
Qed.

Lemma popMixins_spec field mixins : (forall m, m ∈ mixins -> is_Some (findMember gs m field)) ->
  forall fuel pre out, (length mixins <= fuel)%nat ->
  popMixins fuel field (mkBasicQueue (pre ++ mixins) (length pre)) out =
  Some (out ++ fieldMixins field mixins, mkBasicQueue (pre ++ mixins) (length pre + length mixins)).
Proof.
  induction mixins as [| m mixins IH]; intros Hm fuel pre out Hf.
  - destruct fuel; cbn [popMixins]; unfold try_pop_front; cbn [storage current];
      rewrite app_nil_r, lookup_ge_None_2 by lia; cbn; by rewrite app_nil_r, Nat.add_0_r.
  - cbn [length] in Hf. destruct fuel as [| fuel]; [lia |]. cbn [popMixins]. unfold try_pop_front.
    cbn [storage current]. rewrite list_lookup_middle by done. cbn iota beta zeta.
    destruct (Hm m) as [sym Hsym]; [left |]. rewrite Hsym. cbn [mbind option_bind].
    replace (S (length pre)) with (length (pre ++ [m])) by (rewrite length_app; cbn; lia).
    replace (pre ++ m :: mixins) with ((pre ++ [m]) ++ mixins) by by rewrite <- app_assoc.
    rewrite IH; [| intros m' Hm'; apply Hm; by right | lia].
    unfold fieldMixins. cbn [List.filter]. unfold declares at 2. rewrite Hsym. rewrite length_app. cbn [length].
    replace (length pre + 1 + length mixins)%nat with (length pre + S (length mixins))%nat by lia.
    destruct (symbol_exists sym); cbn [orb]; [by rewrite <- app_assoc |].
    destruct (mentions m field); [by rewrite <- app_assoc | done].
Qed.

Lemma superclasses_functional cur l l' : superclasses cur l -> superclasses cur l' -> l = l'.
Proof.
  intros H. revert l'. induction H as [| cur klass Hcur Hk Hs | cur klass l Hcur Hk Hs Hl IH]; intros l' H';
    inversion H'; subst; try lia; simplify_eq; try done. f_equal. auto.
Qed.

Lemma superclasses_elem cur l c : superclasses cur l -> c ∈ l ->
  (0 < c /\ is_Some (classData gs c)) /\ exists l', superclasses c l' /\ (length l' <= length l)%nat.
Proof.
  induction 1 as [| cur klass Hcur Hk Hs | cur klass l Hcur Hk Hs Hl IH].
  - by intros ?%not_elem_of_nil.
  - intros ->%list_elem_of_singleton. split; [done |]. exists [cur]. split; [by eapply super_self | done].
  - intros [-> | Hc]%elem_of_cons.
    + split; [done |]. exists (cur :: l). split; [by eapply super_step | done].
    + destruct (IH Hc) as (? & l' & ? & ?). split; [done |]. exists l'. split; [done | cbn; lia].
Qed.

Lemma superclasses_nodup cur l : superclasses cur l -> NoDup l.
Proof.
  induction 1 as [| cur klass Hcur Hk Hs | cur klass l Hcur Hk Hs Hl IH];
    [constructor | apply NoDup_singleton |]. constructor; [| done].
  intros Hin. destruct (superclasses_elem _ _ _ Hl Hin) as (_ & l' & Hl' & Hlen).
  assert (l' = cur :: l) as ->; [| cbn in Hlen; lia].
  eapply superclasses_functional; [done | by eapply super_step].
Qed.

(** A chain of superclasses is not longer than the table. *)
Lemma superclasses_bound cur l : superclasses cur l -> (length l <= length (classAndModules (sy_table gs)))%nat.
Proof.
  intros H. set (n := length (classAndModules (sy_table gs))).
  assert (l ⊆+ (Z.of_nat <$> seq 0 n)) as Hsub%submseteq_length; [| by rewrite length_fmap, length_seq in Hsub].
  apply NoDup_submseteq; [by eapply superclasses_nodup |]. intros c Hc. destruct (superclasses_elem _ _ _ H Hc) as ([Hpos [k Hk]] & _). apply list_elem_of_fmap.
  exists (Z.to_nat c). split; [lia |]. apply elem_of_seq. apply lookup_lt_Some in Hk. lia.
Qed.

(** An instance variable of a singleton class *)
Definition isInstanceVariable (text : str) : bool :=
  match text with a :: b :: _ => is_at a && negb (is_at b) | _ => false end.

(** The answer to a query about a class with a chain of superclasses [chain], whose walk starts at
    [start]: the class itself or, for a class variable, its singleton class *)
Definition answer (q : FieldQuery) (res : FieldQueryResult) : Prop :=
  exists text singleton start chain c,
    shortName (sy_names gs) (q_field q) = Some text /\ isSingletonClass gs (q_start q) = Some singleton /\
    normalizeParentForClassVar (q_start q) text = Some start /\ superclasses start chain /\
    classData gs (q_start q) = Some c /\
    (forall k, k ∈ chain \/ k ∈ cm_mixins c -> is_Some (findMember gs k (q_field q))) /\
    res = mkFieldQueryResult
            (if isInstanceVariable text && singleton then q_start q else fieldOwner (q_field q) start chain)
            (fieldMixins (q_field q) (cm_mixins c)).

Lemma answer_functional q res res' : answer q res -> answer q res' -> res = res'.
Proof.
  intros (t & b & s & l & c & H1 & H2 & H3 & H4 & H5 & _ & ->)
         (t' & b' & s' & l' & c' & H1' & H2' & H3' & H4' & H5' & _ & ->).
  assert (t' = t /\ b' = b /\ s' = s /\ c' = c) as (-> & -> & -> & ->) by (split_and!; congruence).
  by rewrite (superclasses_functional s l l').
Qed.

Definition cache_sound (r : FieldResolver) : Prop := forall q res, cache r !! q = Some res -> answer q res.

Lemma findUnresolvedFieldInInheritanceChain_answer q res :
  answer q res -> findUnresolvedFieldInInheritanceChain q = Some (inherited res).
Proof.
  intros (t & b & s & l & c & H1 & H2 & H3 & H4 & H5 & H6 & ->). unfold findUnresolvedFieldInInheritanceChain.
  rewrite H1. cbn [mbind option_bind]. fold (isInstanceVariable t). destruct (isInstanceVariable t).
  - rewrite H2. cbn [mbind option_bind]. destruct b; [done |]. rewrite H3. cbn [mbind option_bind].
    apply inheritanceChain_spec; [done | auto | by eapply superclasses_bound].
  - cbn [mbind option_bind]. rewrite H3. cbn [mbind option_bind].
    apply inheritanceChain_spec; [done | auto | by eapply superclasses_bound].
Qed.

Lemma findUnresolvedFieldInMixins_answer r q res : answer q res ->
  exists r', findUnresolvedFieldInMixinsTransitive r q = Some (mixedIn res, r') /\ cache r' = cache r.
Proof.
  intros (t & b & s & l & c & H1 & H2 & H3 & H4 & H5 & H6 & ->). unfold findUnresolvedFieldInMixinsTransitive.
  rewrite H5. cbn [mbind option_bind]. rewrite queue_push_all. cbn [storage current queue_clear app].
  rewrite (popMixins_spec (q_field q) (cm_mixins c) ltac:(auto) _ [] []) by done. by eexists.
Qed.
End Resolve.

(** ** Properties *)

(** C36: the resolver of fields answers every query as specified, and its cache stays sound. The
    walk over the superclasses ends, at a class that is its own superclass too; a field belongs to
    the first class that declares it, otherwise to the last ancestor that mentions it, otherwise to
    the class itself; instance variables of singleton classes are not inherited, class variables
    are looked up from the singleton class; and the queue of mixins yields, in order, those that
    declare or mention the field. A cached answer is the answer the walk would give. *)
Theorem field_resolution gs unresolved r q res :
  cache_sound gs unresolved r -> answer gs unresolved q res ->
  exists r', findUnresolvedFieldTransitive gs unresolved r q = Some (res, r') /\ cache_sound gs unresolved r' /\
    cache r' !! q = Some res.
Proof.
  intros Hc Ha. unfold findUnresolvedFieldTransitive. destruct (cache r !! q) as [res' |] eqn:E.
  { assert (res' = res) as -> by (eapply answer_functional; [by apply Hc | done]). by exists r. }
  rewrite (findUnresolvedFieldInInheritanceChain_answer _ _ _ _ Ha). cbn [mbind option_bind].
  destruct (findUnresolvedFieldInMixins_answer _ _ r _ _ Ha) as (r' & -> & Hr'). cbn [mbind option_bind].
  destruct res as [i m]. eexists. split; [done |]. cbn. split; [| apply lookup_insert_eq].
  intros q' res'. cbn. rewrite Hr'. destruct (decide (q = q')) as [<- | Hne].
  - rewrite lookup_insert_eq. by intros [= <-].
  - rewrite lookup_insert_ne by done. apply Hc.
Qed.

(** A field of the class [foo], which mentions it and has no superclass *)
Lemma field_resolution_witness :
  exists r', findUnresolvedFieldTransitive (pr_gs fooProgram) {[4 := {[1]}]} (mkFieldResolver ∅ (mkBasicQueue [] 0))
      (mkFieldQuery 1 4 1) = Some (mkFieldQueryResult 4 [], r').
Proof.
  destruct (field_resolution (pr_gs fooProgram) {[4 := {[1]}]} (mkFieldResolver ∅ (mkBasicQueue [] 0))
    (mkFieldQuery 1 4 1) (mkFieldQueryResult 4 [])) as (r' & H & _).
  - by intros q res.
  - exists s! "foo", false, 4, [4], fooClass. split_and!; try reflexivity.
    + by eapply (super_step _ 4 fooClass []); [lia | .. | constructor].
    + intros k [->%list_elem_of_singleton | Hk]; [vm_compute; by eexists | by apply not_elem_of_nil in Hk].
  - by exists r'.
Defined.
