(* ===== verification/ScipOccurrences.v ===== *)
(** * Locations and symbols of the instructions of a graph

    Models the functions of src/scip_indexer/SCIPIndexer.cc that the traversal of control flow graphs
    is made of: which variables are temporaries, where the name of a called method or of a keyword
    argument stands in the source, which class a receiver is an instance of, and [AliasMap], the
    symbols that the variables of a graph stand for. The text of a file is read through
    [Loc::source]. [None] stands for an uncaught exception or a read outside a table. *)

From S2P Require Import Prelude Pickler FileHash Files Locs Types NameTable NameText Symbols SymbolRefs Linearize.
From S2P Require Import Ast UIntSet Cfg CfgTopo CfgReads CfgArgs CfgFinalize CfgBuild.
From S2P Require Import ScipUtils ScipProto ScipGem ScipSymbolRef ScipState ScipFieldResolve.

#[local] Open Scope Z_scope.

(** ** Names and symbols

    References that the build generates, beyond those the builder of graphs uses *)
Record ScipNames := mkScipNames {
  sn_cfg : CfgNames;
  n_blockTemp : Z; n_blockPassTemp : Z; n_implicitYield : Z; n_forTemp : Z;
  n_squareBrackets : Z; n_squareBracketsEq : Z; n_call : Z; n_Command : Z; n_Opus : Z; n_initialize : Z;
  n_ampersand : Z; n_star : Z; n_starStar : Z; n_fwdArgs : Z; n_fwdKwargs : Z; n_fwdBlock : Z;
  n_nilForSafeNavigation : Z; n_callWithSplat : Z; n_callWithBlockPass : Z; n_callWithSplatAndBlockPass : Z;
  n_sig : Z }.

Definition topClass : Z := 1.

Definition rootSingleton : Z := 4.

Definition objectClass : Z := 6.

Definition integerClass : Z := 7.

Definition floatClass : Z := 8.

Definition stringClass : Z := 9.

Definition symbolClass : Z := 10.

Definition arrayClass : Z := 11.

Definition hashClass : Z := 12.

Definition T_Sig_WithoutRuntime : Z := 63.

Definition T_Enum : Z := 70.

(** [GenericSymbolRef::classOrModule] and [typeSymbol]; [field], [method] and [parameter] *)
Definition symbolOnly (sym : Z) : GenericSymbolRef := mkGeneric sym noName NullType.

Definition fieldRef (owner name : Z) (type : TypePtr) : GenericSymbolRef := mkGeneric owner name type.

Definition methodRef (method : Z) : GenericSymbolRef := symbolOnly (makeSymbolRef KMethod method).

Definition parameterRef (method name : Z) (type : TypePtr) : GenericSymbolRef :=
  mkGeneric (makeSymbolRef KMethod method) name type.

(** ** Types

    What the indexer asks of the type checker: [operator==] of [TypePtr] compares pointers, so that
    equal types may differ; unions and substituted types are computed by src/core/types. *)
Record TypeOps := mkTypeOps {
  samePointer : TypePtr -> TypePtr -> bool;
  anyType : TypePtr -> TypePtr -> TypePtr;
  underlying : TypePtr -> TypePtr;
  resultTypeAsSeenFromSelf : TypePtr -> Z -> TypePtr;
  trackUntypedBlame : bool }.

(** [Types::untyped] of a method *)
Definition untypedOf (ty : TypeOps) (method : Z) : TypePtr :=
  if trackUntypedBlame ty && negb (method =? 0) then BlamedUntyped (makeSymbolRef KMethod method)
  else ClassType untypedClass.

Definition arrayOf (elem : TypePtr) : TypePtr := AppliedType arrayClass [elem].

Definition hashOf (elem : TypePtr) : TypePtr :=
  AppliedType hashClass [ClassType symbolClass; elem; TupleType [ClassType symbolClass; elem]].

Definition dropLiteral (t : TypePtr) : TypePtr :=
  match t with
  | NamedLiteralType LitString _ => ClassType stringClass
  | NamedLiteralType LitSymbol _ => ClassType symbolClass
  | IntegerLiteralType _ => ClassType integerClass
  | FloatLiteralType _ => ClassType floatClass
  | _ => t
  end.

Definition isNull (t : TypePtr) : bool := match t with NullType => true | _ => false end.

Definition isTuple (t : TypePtr) : bool := match t with TupleType _ => true | _ => false end.

Definition isShape (t : TypePtr) : bool := match t with ShapeType _ _ => true | _ => false end.

(** The symbol of a [ClassType] or of one of the types derived from it *)
Definition classTypeSymbol (t : TypePtr) : option Z :=
  match t with
  | ClassType symbol => Some symbol
  | BlamedUntyped _ | UnresolvedClassType _ _ | UnresolvedAppliedType _ _ => Some untypedClass
  | _ => None
  end.

Definition computeOverrideType (ty : TypeOps) (definitionType newType : TypePtr) : option TypePtr :=
  if isNull newType || samePointer ty definitionType newType then None else Some newType.

(** The symbol of a variable, its location, and whether an occurrence has been recorded for it *)
Abbreviation AliasMap := (gmap nat (GenericSymbolRef * LocOffsets * bool)).

Section Helpers.
Context (sn : ScipNames).

Definition isTemporary (var : LocalVariable) : bool :=
  isSyntheticTemporaryVar (sn_cfg sn) var ||
  bool_decide (lv_name var ∈
    [n_blockPreCallTemp (sn_cfg sn); n_blockTemp sn; n_blockPassTemp sn; n_blkArg (sn_cfg sn); n_implicitYield sn;
     n_keepForIde (sn_cfg sn); n_blockCall (sn_cfg sn); n_blockBreakAssign (sn_cfg sn); n_argPresent (sn_cfg sn);
     n_forTemp sn; n_keepForCfgTemp (sn_cfg sn); n_finalReturn (sn_cfg sn); noName; n_selfLocal (sn_cfg sn);
     n_unconditional (sn_cfg sn)]).

Context (gs : Program).

Definition isTypeSymbol (sym : Z) : option bool :=
  if negb (symbol_exists sym) then Some false
  else match symbolKind sym with
       | Some KTypeMember | Some KTypeParameter => Some true
       | Some KFieldOrStaticField =>
           f ← SymbolRefs.fieldData (pr_gs gs) (symbolIndex sym); Some (ff_isStaticFieldTypeAlias (fi_flags f))
       | Some _ => Some false
       | None => None
       end.

(** ** Places in the source *)

(** [ctx.locAt(loc).source(ctx)] *)
Definition sourceAt (file : Z) (loc : LocOffsets) : option (option str) :=
  f ← fileData gs file; loc_source f (mkLoc file loc).

(** [ctx.locAt(loc).adjustLen(ctx, beginAdjust, len).offsets()] *)
Definition adjustLenAt (file : Z) (loc : LocOffsets) (beginAdjust len : Z) : option LocOffsets :=
  f ← fileData gs file; Some (locOffsets (adjustLen f (mkLoc file loc) beginAdjust len)).

Definition computeMethodLoc (file fun_ : Z) (loc : LocOffsets) : option LocOffsets :=
  if negb (offsets_exists loc) || negb (offsets_empty loc) ||
     (negb (fun_ =? n_squareBrackets sn) && negb (fun_ =? n_squareBracketsEq sn))
  then Some loc
  else
    bracketLoc ← adjustLenAt file loc 0 1;
    bracket ← sourceAt file bracketLoc;
    if negb (bool_decide (bracket = Some s! "[")) then Some loc
    else
      let methodName := if fun_ =? n_squareBracketsEq sn then s! "[]=" else s! "[]" in
      explicitLoc ← adjustLenAt file loc 0 (Z.of_nat (length methodName));
      explicit ← sourceAt file explicitLoc;
      Some (if bool_decide (explicit = Some methodName) then explicitLoc else bracketLoc).

Definition quotes (c : ascii) : bool := char_eqb c "'" || char_eqb c "034".

Definition computeWrappedMethodLoc (file : Z) (send : Insn.SendData) (fun_ : Z) : option LocOffsets :=
  '(_, loc) ← Insn.args send !! 1%nat;
  source ← sourceAt file loc;
  match source with
  | Some (c0 :: c1 :: rest as text) =>
      if negb (char_eqb c0 ":") then computeMethodLoc file fun_ (Insn.funLoc send)
      else if quotes c1 then
        if (length text <? 4)%nat || negb (bool_decide (last text = Some c1)) then Some noOffsets
        else Some (mkLocOffsets (u32 (beginLoc loc + 2)) (u32 (endLoc loc - 1)))
      else Some (mkLocOffsets (u32 (beginLoc loc + 1)) (endLoc loc))
  | _ => computeMethodLoc file fun_ (Insn.funLoc send)
  end.

(** The text and the ends of its range without a colon at the end or else at the beginning, and then
    without quotes *)
Definition stripColon (r : str * Z * Z) : str * Z * Z :=
  let '(text, b, e) := r in
  if is_suffix s! ":" text then (take (length text - 1) text, b, u32 (e - 1))
  else if is_prefix s! ":" text then (drop 1 text, u32 (b + 1), e)
  else r.

Definition stripQuotes (r : str * Z * Z) : str * Z * Z :=
  let '(text, b, e) := r in
  match text with
  | c :: _ =>
      if (2 <=? length text)%nat && quotes c && bool_decide (last text = Some c)
      then (drop 1 (take (length text - 1) text), u32 (b + 1), u32 (e - 1))
      else r
  | [] => r
  end.

Definition keywordNameLoc (file : Z) (loc : LocOffsets) (name : Z) : option LocOffsets :=
  if negb (offsets_exists loc) || offsets_empty loc then Some noOffsets
  else
    source ← sourceAt file loc;
    match source with
    | None => Some noOffsets
    | Some source =>
        let '(text, b, e) := stripQuotes (stripColon (source, beginLoc loc, endLoc loc)) in
        short ← shortName (sy_names (pr_gs gs)) name;
        Some (if str_eqb text short then mkLocOffsets b e else noOffsets)
    end.

(** ** Receivers *)

Definition computeReceiver (ty : TypeOps) (recvType : TypePtr) (fun_ : Z) : option Z :=
  if isTuple recvType then Some arrayClass
  else if isShape recvType then Some hashClass
  else
    let recvType := dropLiteral recvType in
    let recvType := if isShape recvType || isTuple recvType then underlying ty recvType else recvType in
    match classTypeSymbol recvType, recvType with
    | Some symbol, _ => Some (if symbol =? topClass then objectClass else symbol)
    | None, AppliedType recv _ =>
        if negb (recv =? 0) && (fun_ =? n_call sn) then
          recvAttached ← attachedClass (pr_gs gs) recv;
          if recvAttached =? 0 then Some recv
          else
            attached ← classData (pr_gs gs) recvAttached;
            let super := cm_superClass attached in
            if super =? 0 then Some recv
            else
              superData ← classData (pr_gs gs) super;
              if (cm_name superData =? n_Command sn) && negb (cm_owner superData =? 0) then
                owner ← classData (pr_gs gs) (cm_owner superData);
                Some (if cm_name owner =? n_Opus sn then recvAttached else recv)
              else Some recv
        else Some recv
    | None, _ => Some 0
    end.

(** ** Parameters *)

(** The visits of [forEachKeywordParameter] *)
Definition keywordParameter (ty : TypeOps) (file method : Z) (m : Method) (pe : ParamInfo * Expr)
    : option (list (GenericSymbolRef * LocalVariable * LocOffsets)) :=
  let '(param, expr) := pe in
  if negb (pf_isKeyword (pi_flags param)) || pf_isRepeated (pi_flags param) then Some []
  else
    '(localLoc, local) ← arg2Local expr;
    loc ← keywordNameLoc file localLoc (pi_name param);
    if negb (offsets_exists loc) then Some []
    else
      let type := resultTypeAsSeenFromSelf ty (pi_type param) (me_owner m) in
      let type := if isNull type then untypedOf ty method else type in
      Some [(parameterRef method (pi_name param) type, local, loc)].

Definition forEachKeywordParameter (ty : TypeOps) (file method : Z) (params : list Expr)
    : option (list (GenericSymbolRef * LocalVariable * LocOffsets)) :=
  m ← methodData (pr_gs gs) method;
  @concat _ <$> mapM (keywordParameter ty file method m) (zip (me_parameters m) params).

(** ** Aliases *)

Context (unresolvedFields : gmap Z (gset Z)).

(** [map.insert], which keeps an entry that is present *)
Definition insertNew {K} `{Countable K} {V} (k : K) (v : V) (m : gmap K V) : gmap K V :=
  match m !! k with Some _ => m | None => <[k := v]> m end.

Definition trim (file : Z) (loc : LocOffsets) : option LocOffsets :=
  f ← fileData gs file; locOffsets <$> trimColonColonPrefix f (mkLoc file loc).

Definition startsWith (c : ascii) (s : str) : bool := match s with d :: _ => char_eqb d c | [] => false end.

(** The relationships of a field that are not known yet; [normalize] is applied to the class found. *)
Definition relate (file klass name : Z) (normalize : Z -> option Z) (symRef : GenericSymbolRef)
    (st : FieldResolver * RelationshipsMap) : option (FieldResolver * RelationshipsMap) :=
  let '(resolver, relMap) := st in
  match relMap !! withoutType symRef with
  | Some _ => Some st
  | None =>
      '(result, resolver) ← findUnresolvedFieldTransitive (pr_gs gs) unresolvedFields resolver
                              (mkFieldQuery file klass name);
      inherited ← normalize (inherited result);
      Some (resolver, <[withoutType symRef := mkFieldQueryResult inherited (mixedIn result)]> relMap)
  end.

(** One [Alias] instruction of [AliasMap::populate] *)
Definition populateAlias (file klass : Z) (bind : Binding) (what name : Z)
    (st : AliasMap * (FieldResolver * RelationshipsMap)) : option (AliasMap * (FieldResolver * RelationshipsMap)) :=
  let '(map, rels) := st in
  let variable := vu_variable (bd_bind bind) in
  let type := vu_type (bd_bind bind) in
  if negb (symbol_exists what) || (what =? classMagic) then Some st
  else
    isType ← isTypeSymbol what;
    if (isType : bool) then Some (insertNew variable (symbolOnly what, bd_loc bind, true) map, rels)
    else if what =? undeclaredFieldStub then
      fieldName ← shortName (sy_names (pr_gs gs)) name;
      if startsWith "$" fieldName
      then Some (insertNew variable (fieldRef (classSymbol rootSingleton) name type, bd_loc bind, false) map, rels)
      else
        normalizedKlass ← normalizeParentForClassVar (pr_gs gs) (symbolIndex klass) fieldName;
        let namedSymRef := fieldRef (classSymbol normalizedKlass) name type in
        rels ← relate file (symbolIndex klass) name Some namedSymRef rels;
        Some (insertNew variable (namedSymRef, bd_loc bind, false) map, rels)
    else if isFieldOrStaticField what then
      name ← symbolName (pr_gs gs) what;
      nameText ← shortName (sy_names (pr_gs gs)) name;
      owner ← symbolOwner (pr_gs gs) what;
      '(symRef, rels) ←
        (if startsWith "@" nameText then
           normalizedKlass ← normalizeParentForClassVar (pr_gs gs) (symbolIndex klass) nameText;
           let symRef := fieldRef (classSymbol normalizedKlass) name type in
           rels ← relate file (symbolIndex klass) name
                    (fun inherited => normalizeParentForClassVar (pr_gs gs) inherited nameText) symRef rels;
           Some (symRef, rels)
         else Some (fieldRef owner name type, rels));
      loc ← trim file (bd_loc bind);
      Some (insertNew variable (symRef, loc, false) map, rels)
    else if isClassOrModule what then
      let loc := bd_loc bind in
      if negb (offsets_exists loc) || offsets_empty loc || (what =? classSymbol root) ||
         (what =? classSymbol T_Sig_WithoutRuntime)
      then Some st
      else
        loc ← trim file loc;
        Some (insertNew variable (symbolOnly what, loc, false) map, rels)
    else Some st.

Definition populateBinding (file klass : Z) (st : AliasMap * (FieldResolver * RelationshipsMap)) (bind : Binding)
    : option (AliasMap * (FieldResolver * RelationshipsMap)) :=
  match bd_value bind with
  | Insn.Alias what name => populateAlias file klass bind what name st
  | _ => Some st
  end.

(** [bb->exprs] for the blocks of the list *)
Definition bindingsOf (c : CFG) (ids : list nat) : option (list Binding) :=
  @concat _ <$> mapM (fun b => bb_exprs <$> cfg_blocks c !! b) ids.

Definition populate (owner file : Z) (c : CFG) (resolver : FieldResolver) (relMap : RelationshipsMap)
    : option (AliasMap * (FieldResolver * RelationshipsMap)) :=
  klass ← symbolOwner (pr_gs gs) owner;
  bindings ← bindingsOf c (basicBlocks c);
  foldM (populateBinding file klass) (∅, (resolver, relMap)) bindings.

Definition try_consume (v : nat) (map : AliasMap) : option (GenericSymbolRef * LocOffsets) * AliasMap :=
  match map !! v with
  | None => (None, map)
  | Some (namedSym, loc, _) => (Some (namedSym, loc), <[v := (namedSym, loc, true)]> map)
  end.

Definition try_get (v : nat) (map : AliasMap) : option GenericSymbolRef :=
  match map !! v with Some (namedSym, _, _) => Some namedSym | None => None end.
End Helpers.
