(* ===== verification/ScipTraversal.v ===== *)
(** * The traversal of control flow graphs

    Models [CFGTraversal] of src/scip_indexer/SCIPIndexer.cc, which visits the instructions of the
    graph of a method and records the occurrences of variables, fields, constants and methods. The
    traversal talks to the state of the indexer through the class [Recorder]; the state itself is one
    instance, and the list of the calls made is another. The order in which a hash map is visited is
    unspecified; [map_to_list] is one. *)

From S2P Require Import Prelude Pickler FileHash Files Locs Types NameTable NameText Symbols SymbolRefs Linearize.
From S2P Require Import Ast UIntSet Cfg CfgTopo CfgReads CfgArgs CfgFinalize CfgBuild.
From S2P Require Import ScipUtils ScipProto ScipGem ScipSymbolRef ScipState ScipFieldResolve ScipOccurrences.

#[local] Open Scope Z_scope.

(** ** The interface to the state of the indexer *)

(** The calls of [saveDefinition] and [saveReference] for symbols, and for locals of the method that
    is traversed, which have a number, and the assignment of the relationships of the file *)
Inductive Event :=
| Definition_ (sym : GenericSymbolRef) (aliasedSymbol : option UntypedGenericSymbolRef) (loc : LocOffsets)
| Reference (sym : GenericSymbolRef) (overrideType : option TypePtr) (loc : LocOffsets) (roles : Z)
| LocalDefinition (id : Z) (loc : LocOffsets) (type : option TypePtr)
| LocalReference (id : Z) (loc : LocOffsets) (overrideType : option TypePtr) (roles : Z)
| Relationships (m : RelationshipsMap).

Class Recorder (St : Type) := {
  record : Event -> St -> option St;
  relationships : St -> RelationshipsMap }.

Definition WriteAccess : Z := 4.

Definition ReadAccess : Z := 8.

(** ** State *)

Record AnonymousParameter := mkAnonymousParameter { ap_id : Z; ap_loc : LocOffsets }.

Record KeywordParameter := mkKeywordParameter { kp_symbol : GenericSymbolRef; kp_loc : LocOffsets }.

Record Traversal := mkTraversal {
  blockLocals : gmap nat (gset nat);
  functionLocals : gmap nat Z;
  localDefinitionType : gmap Z TypePtr;
  aliasMap : AliasMap;
  anonymousParameters : gmap Z AnonymousParameter;
  keywordParameters : gmap LocalVariable KeywordParameter;
  keywordTupleDefinitions : option (gmap nat Binding);
  counter : Z }.

Definition newTraversal : Traversal := mkTraversal ∅ ∅ ∅ ∅ ∅ ∅ None 0.

Definition set_locals (blocks : gmap nat (gset nat)) (locals : gmap nat Z) (types : gmap Z TypePtr) (n : Z)
    (t : Traversal) : Traversal :=
  mkTraversal blocks locals types (aliasMap t) (anonymousParameters t) (keywordParameters t)
    (keywordTupleDefinitions t) n.

Definition set_blockLocals (blocks : gmap nat (gset nat)) (t : Traversal) : Traversal :=
  set_locals blocks (functionLocals t) (localDefinitionType t) (counter t) t.

Definition set_aliasMap (m : AliasMap) (t : Traversal) : Traversal :=
  mkTraversal (blockLocals t) (functionLocals t) (localDefinitionType t) m (anonymousParameters t)
    (keywordParameters t) (keywordTupleDefinitions t) (counter t).

Definition set_keywordParameters (m : gmap LocalVariable KeywordParameter) (t : Traversal) : Traversal :=
  mkTraversal (blockLocals t) (functionLocals t) (localDefinitionType t) (aliasMap t) (anonymousParameters t)
    m (keywordTupleDefinitions t) (counter t).

Definition set_keywordTupleDefinitions (m : gmap nat Binding) (t : Traversal) : Traversal :=
  mkTraversal (blockLocals t) (functionLocals t) (localDefinitionType t) (aliasMap t) (anonymousParameters t)
    (keywordParameters t) (Some m) (counter t).

Definition set_anonymous (m : gmap Z AnonymousParameter) (n : Z) (t : Traversal) : Traversal :=
  mkTraversal (blockLocals t) (functionLocals t) (localDefinitionType t) (aliasMap t) m
    (keywordParameters t) (keywordTupleDefinitions t) n.

(** [blockLocals[bb].insert(localRef)] *)
Definition insertBlockLocal (b v : nat) (t : Traversal) : Traversal :=
  set_blockLocals (<[b := {[v]} ∪ default ∅ (blockLocals t !! b)]> (blockLocals t)) t.

Definition inBlock (b v : nat) (t : Traversal) : bool := bool_decide (v ∈ default ∅ (blockLocals t !! b)).

Definition addLocal (b v : nat) (t : Traversal) : Z * Traversal :=
  let n := u32 (counter t + 1) in
  let t := insertBlockLocal b v t in
  (n, set_locals (blockLocals t) (<[v := n]> (functionLocals t)) (localDefinitionType t) n t).

Definition lhsLocIfPresent (bind : Binding) : LocOffsets :=
  if offsets_exists (vu_loc (bd_bind bind)) then vu_loc (bd_bind bind) else bd_loc bind.

Definition isArrayOrLiteral (sn : ScipNames) (i : Insn.Instruction) : bool :=
  match i with
  | Insn.Send s => Insn.fun_ s =? n_buildArray (sn_cfg sn)
  | Insn.Literal _ => true
  | _ => false
  end.

Definition isLiteral (i : Insn.Instruction) : bool := match i with Insn.Literal _ => true | _ => false end.

(** A location with a text *)
Definition present (loc : LocOffsets) : bool := offsets_exists loc && negb (offsets_empty loc).

Definition nonNull (t : TypePtr) : option TypePtr := if isNull t then None else Some t.

(** The ends of a location as a key *)
Definition occKey (o : LocalOccurrence) : nat * Z * Z := (lo_variable o, beginLoc (lo_loc o), endLoc (lo_loc o)).

Abbreviation TypesAt := (gmap (nat * Z * Z) TypePtr).

(** [std::unique] of neighbours *)
Fixpoint uniqueNeighbours {A} (same : A -> A -> bool) (l : list A) : list A :=
  match l with
  | [] => []
  | x :: l =>
      match uniqueNeighbours same l with
      | [] => [x]
      | y :: l' => if same x y then x :: l' else x :: y :: l'
      end
  end.

Section Traverse.
Context (sn : ScipNames) (gs : Program) (ty : TypeOps) (unresolvedFields : gmap Z (gset Z)).
(** The sort of the remaining aliases, and whether its comparison has met two equal elements *)
Context (sortAliases : list (GenericSymbolRef * LocOffsets) -> list (GenericSymbolRef * LocOffsets) * bool).
Context (owner file : Z).
Context {St : Type} `{Recorder St}.

Abbreviation state := (Traversal * St)%type.

(** [scipState.saveReference(...)] and the like; statuses are not looked at. *)
Definition emit (e : Event) (st : state) : option state := s ← record e st.2; Some (st.1, s).

Definition emitIf (b : bool) (e : Event) (st : state) : option state := if b then emit e st else Some st.

(** *** Keyword arguments behind a splat *)

Definition tupleDefinitions (c : CFG) : option (gmap nat Binding) :=
  bindings ← bindingsOf c (basicBlocks c);
  Some (fold_left (fun m bind => if isArrayOrLiteral sn (bd_value bind)
                                 then insertNew (vu_variable (bd_bind bind)) bind m else m) bindings ∅).

(** The pairs of a keyword tuple; the location of the last key with the name *)
Fixpoint tupleKeyLoc (defs : gmap nat Binding) (name : Z) (args : list (nat * LocOffsets)) (types : list TypePtr)
    (loc : LocOffsets) : option LocOffsets :=
  match args, types with
  | (key, _) :: _ :: args, t :: _ :: types =>
      loc ← match t with
            | NamedLiteralType LitSymbol n =>
                if n =? name then
                  match defs !! key with
                  | Some def => if isLiteral (bd_value def) then keywordNameLoc gs file (bd_loc def) name else Some loc
                  | None => Some loc
                  end
                else Some loc
            | _ => Some loc
            end;
      tupleKeyLoc defs name args types loc
  | _, _ => Some loc
  end.

Definition wrappedKeywordNameLoc (c : CFG) (send : Insn.SendData) (name : Z) (t : Traversal)
    : option (LocOffsets * Traversal) :=
  match Insn.args send !! 3%nat with
  | None => Some (noOffsets, t)
  | Some (ref, _) =>
      '(defs, t) ← match keywordTupleDefinitions t with
                   | Some defs => Some (defs, t)
                   | None => defs ← tupleDefinitions c; Some (defs, set_keywordTupleDefinitions defs t)
                   end;
      match bd_value <$> defs !! ref with
      | Some (Insn.Send array) =>
          loc ← tupleKeyLoc defs name (Insn.args array) (Insn.argTypes array) noOffsets; Some (loc, t)
      | _ => Some (noOffsets, t)
      end
  end.

(** *** Anonymous parameters *)

(** The names under which a parameter is used in the body *)
Definition anonymousNames (source : str) : list Z :=
  if str_eqb source s! "&" then [n_ampersand sn]
  else if str_eqb source s! "*" then [n_star sn; n_fwdArgs sn]
  else if str_eqb source s! "**" then [n_starStar sn; n_fwdKwargs sn]
  else if str_eqb source s! "..." then [n_fwdArgs sn; n_fwdKwargs sn; n_fwdBlock sn]
  else [].

Definition defineAnonymousParameter (m : Method) (st : state) (pe : ParamInfo * Expr) : option state :=
  let '(param, expr) := pe in
  match expr with
  | Local loc _ _ =>
      source ← sourceAt gs file loc;
      match source with
      | None => Some st
      | Some source =>
          let forwarding := str_eqb source s! "..." in
          let anonymous := anonymousParameters st.1 in
          if bool_decide (anonymousNames source = []) then Some st
          else if forwarding && bool_decide (is_Some (anonymous !! n_fwdArgs sn)) then Some st
          else
            let id := u32 (counter st.1 + 1) in
            let parameter := mkAnonymousParameter id loc in
            let anonymous := fold_left (fun a name => <[name := parameter]> a) (anonymousNames source) anonymous in
            let type := resultTypeAsSeenFromSelf ty (pi_type param) (me_owner m) in
            let type := if isNull type || forwarding then untypedOf ty (symbolIndex owner) else type in
            let type := if pf_isRepeated (pi_flags param) && negb forwarding
                        then if pf_isKeyword (pi_flags param) then hashOf type else arrayOf type
                        else type in
            emit (LocalDefinition id loc (nonNull type)) (set_anonymous anonymous id st.1, st.2)
      end
  | _ => Some st
  end.

Definition defineAnonymousParameters (params : list Expr) (st : state) : option state :=
  m ← methodData (pr_gs gs) (symbolIndex owner);
  foldM (defineAnonymousParameter m) st (zip (me_parameters m) params).

(** *** Occurrences of variables *)

Definition emitKeyword (parameter : KeywordParameter) (name : Z) (loc : LocOffsets) (lvalue : bool) (type : TypePtr)
    (st : state) : option state :=
  loc ← keywordNameLoc gs file loc name;
  if negb (offsets_exists loc) || (lvalue && bool_decide (loc = kp_loc parameter)) then Some st
  else emit (Reference (kp_symbol parameter)
               (computeOverrideType ty (g_definitionType (kp_symbol parameter)) type) loc
               (if lvalue then WriteAccess else ReadAccess)) st.

Definition emitAnonymous (parameter : AnonymousParameter) (name : Z) (loc : LocOffsets) (lvalue : bool) (st : state)
    : option state :=
  if lvalue then Some st
  else
    loc ← (if offsets_exists loc && offsets_empty loc && (0 <? beginLoc loc) && (name =? n_ampersand sn)
           then adjustLenAt gs file loc (-1) 1 else Some loc);
    if negb (present loc) then Some st
    else
      use ← sourceAt gs file loc;
      declaration ← sourceAt gs file (ap_loc parameter);
      emitIf (bool_decide (use = declaration)) (LocalReference (ap_id parameter) loc None ReadAccess) st.

(** Whether the occurrence of a variable is a definition, with the variable added to the block and,
    when it is new, numbered *)
Definition classify (b v : nat) (lvalue : bool) (type : TypePtr) (t : Traversal) : bool * Traversal :=
  match functionLocals t !! v with
  | None =>
      let '(id, t) := addLocal b v t in
      (lvalue, if lvalue then set_locals (blockLocals t) (functionLocals t) (<[id := type]> (localDefinitionType t))
                                (counter t) t
               else t)
  | Some _ => if inBlock b v t then (false, t) else (lvalue, insertBlockLocal b v t)
  end.

(** A trailing colon is not part of the name. *)
Definition withoutColon (name : Z) (loc : LocOffsets) : option LocOffsets :=
  source ← sourceAt gs file loc;
  match source with
  | Some source =>
      if is_suffix s! ":" source then
        short ← shortName (sy_names (pr_gs gs)) name;
        Some (if str_eqb (take (length source - 1) source) short
              then mkLocOffsets (beginLoc loc) (u32 (endLoc loc - 1)) else loc)
      else Some loc
  | None => Some loc
  end.

(** The event for a variable that stands for a symbol *)
Definition symbolEvent (t : Traversal) (namedSym : GenericSymbolRef) (isDefinition : bool) (aliasRHS : option nat)
    (loc : LocOffsets) (role : Z) (type : TypePtr) : Event :=
  if isDefinition
  then Definition_ namedSym (rhs ← aliasRHS; withoutType <$> try_get rhs (aliasMap t)) loc
  else Reference namedSym (computeOverrideType ty (g_definitionType namedSym) type) loc role.

(** The event for a local variable *)
Definition localEvent (t : Traversal) (id : Z) (isDefinition : bool) (loc : LocOffsets) (role : Z) (type : TypePtr)
    : Event :=
  if isDefinition then LocalDefinition id loc (nonNull type)
  else LocalReference id loc
         match localDefinitionType t !! id with
         | Some definitionType => computeOverrideType ty definitionType type
         | None => nonNull type
         end role.

Definition emitLocalOccurrence (c : CFG) (b : nat) (local : LocalOccurrence) (lvalue : bool) (aliasRHS : option nat)
    (type : TypePtr) (st : state) : option state :=
  let loc := lo_loc local in
  let v := lo_variable local in
  localVar ← localData c v;
  match keywordParameters st.1 !! localVar with
  | Some parameter => emitKeyword parameter (lv_name localVar) loc lvalue type st
  | None =>
      match (if lv_unique localVar =? 0 then anonymousParameters st.1 !! lv_name localVar else None) with
      | Some parameter => emitAnonymous parameter (lv_name localVar) loc lvalue st
      | None =>
          if negb (present loc) then Some st
          else
            let '(symRef, aliases) := try_consume v (aliasMap st.1) in
            let t := set_aliasMap aliases st.1 in
            let role := if lvalue then WriteAccess else ReadAccess in
            match symRef with
            | Some (namedSym, _) =>
                if bool_decide (refKind namedSym = RType) then Some (t, st.2)
                else
                  let '(isDefinition, t) := classify b v lvalue type t in
                  emit (symbolEvent t namedSym isDefinition aliasRHS loc role type) (t, st.2)
            | None =>
                if isTemporary sn localVar then Some (t, st.2)
                else
                  loc ← withoutColon (lv_name localVar) loc;
                  let '(isDefinition, t) := classify b v lvalue type t in
                  id ← functionLocals t !! v;
                  emit (localEvent t id isDefinition loc role type) (t, st.2)
            end
      end
  end.

(** *** References to methods *)

(** The method that a call of [Class#new] runs *)
Definition constructorOf (recv fun_ funSym : Z) : option Z :=
  if (funSym =? 0) || negb (fun_ =? n_new (sn_cfg sn)) then Some funSym
  else
    m ← methodData (pr_gs gs) funSym;
    if negb (me_owner m =? classClass) then Some funSym
    else
      instance ← attachedClass (pr_gs gs) recv;
      if instance =? 0 then Some funSym
      else
        initializer ← findMethodTransitive (pr_gs gs) instance (n_initialize sn);
        if initializer =? 0 then Some funSym
        else
          init ← methodData (pr_gs gs) initializer;
          if (me_owner init =? BasicObject) || (me_owner init =? objectClass) then Some funSym
          else
            internal ← isSorbetInternalClassOrMethod gs (methodRef initializer);
            Some (if (internal : bool) then funSym else initializer).

(** The methods that a call on a receiver of the type refers to, in order *)
Fixpoint calledMethods (recvType : TypePtr) (fun_ : Z) : option (list Z) :=
  match recvType with
  | NullType => Some []
  | OrType l r => ml ← calledMethods l fun_; mr ← calledMethods r fun_; Some (ml ++ mr)
  | _ =>
      recv ← computeReceiver sn gs ty recvType fun_;
      if recv =? 0 then Some []
      else
        funSym ← findMethodTransitive (pr_gs gs) recv fun_;
        funSym ← constructorOf recv fun_ funSym;
        Some (if funSym =? 0 then [] else [funSym])
  end.

Definition emitMethods (funLoc : LocOffsets) (st : state) (methods : list Z) : option state :=
  foldM (fun st m => emit (Reference (methodRef m) None funLoc 0) st) st methods.

Definition emitMethodReference (recvType : TypePtr) (fun_ : Z) (funLoc : LocOffsets)
    (dispatchInfo : option SCIPDispatchInfo) (st : state) : option state :=
  if isNull recvType || (fun_ =? noName) || negb (present funLoc) || isTemporary sn (mkLocalVariable fun_ 1)
  then Some st
  else
    match dispatchInfo ≫= intersectionMethods with
    | Some methods => emitMethods funLoc st methods
    | None => methods ← calledMethods recvType fun_; emitMethods funLoc st methods
    end.

(** *** Blocks *)

Definition copyLocalsFromParents (b : nat) (bb : BasicBlock) (t : Traversal) : Traversal :=
  set_blockLocals (<[b := ⋃ ((fun p => default ∅ (blockLocals t !! p)) <$> bb_backEdges bb)]> (blockLocals t)) t.

(** The types of the variables at the locations of safe navigation: first the locations, then the
    types found there, joined *)
Definition markSafeNavigation (c : CFG) (types : TypesAt * TypesAt) (bind : Binding) : option (TypesAt * TypesAt) :=
  match bd_value bind with
  | Insn.Send send =>
      if negb (Insn.fun_ send =? n_nilForSafeNavigation sn) then Some types
      else
        let '(assignments, receivers) := types in
        let occ := mkLocalOccurrence (vu_variable (bd_bind bind)) (lhsLocIfPresent bind) in
        assignments ← (if present (lo_loc occ) then
                         var ← localData c (lo_variable occ);
                         Some (if isTemporary sn var then assignments else <[occKey occ := NullType]> assignments)
                       else Some assignments);
        Some (assignments,
              match Insn.args send with
              | [(v, loc)] => if present loc then <[occKey (mkLocalOccurrence v loc) := NullType]> receivers else receivers
              | _ => receivers
              end)
  | _ => Some types
  end.

Definition addType (types : TypesAt) (occ : LocalOccurrence) (type : TypePtr) : TypesAt :=
  match types !! occKey occ with
  | Some old =>
      if isNull type || samePointer ty old type then types
      else <[occKey occ := if isNull old then type else anyType ty old type]> types
  | None => types
  end.

(** The arguments of a call with their types *)
Definition typedArgs (send : Insn.SendData) : list (LocalOccurrence * TypePtr) :=
  zip ((fun '(v, loc) => mkLocalOccurrence v loc) <$> Insn.args send) (Insn.argTypes send).

Definition joinSafeNavigation (types : TypesAt * TypesAt) (bind : Binding) : TypesAt * TypesAt :=
  let '(assignments, receivers) := types in
  (addType assignments (mkLocalOccurrence (vu_variable (bd_bind bind)) (lhsLocIfPresent bind)) (vu_type (bd_bind bind)),
   match bd_value bind with
   | Insn.Send send =>
       fold_left (fun r '(occ, t) => addType r occ t) (typedArgs send)
         (addType receivers (occurrence (Insn.recv send)) (vu_type (Insn.recv send)))
   | _ => receivers
   end).

Definition safeNavigationTypes (c : CFG) : option (TypesAt * TypesAt) :=
  bindings ← bindingsOf c (forwardsTopoSort c);
  types ← foldM (markSafeNavigation c) (∅, ∅) bindings;
  Some (if (size types.1 =? 0)%nat && (size types.2 =? 0)%nat then types
        else fold_left joinSafeNavigation bindings types).

Definition typeAt (types : TypesAt) (occ : LocalOccurrence) (type : TypePtr) : TypePtr :=
  default type (types !! occKey occ).

(** [GlobalState::lookupStaticInitForFile] and [lookupStaticInitForClass], as symbols *)
Definition lookupStaticInitForFile : option Z :=
  nm ← lookupNameUnique (sy_names (pr_gs gs)) Namer (n_staticInit (sy_wk (pr_gs gs))) file;
  ref ← findMember (pr_gs gs) rootSingleton nm;
  Some (makeSymbolRef KMethod (symbolIndex ref)).

Definition lookupStaticInitForClass (klass : Z) : option Z :=
  singleton ← lookupSingletonClass (pr_gs gs) klass;
  m ← findMethod (pr_gs gs) singleton (n_staticInit (sy_wk (pr_gs gs)));
  Some (makeSymbolRef KMethod m).

(** Bindings without a location are skipped, except that the argument of [keep_for_ide] is recorded. *)
Definition isSkipped (bind : Binding) : bool := negb (present (bd_loc bind) || present (vu_loc (bd_bind bind))).

(** Does the method define the symbol that is kept? *)
Definition definesKept (isMethodFileStaticInit : bool) (namedSym : GenericSymbolRef) : option bool :=
  if isMethodFileStaticInit then Some true
  else if bool_decide (refKind namedSym = RField) then Some false
  else
    klass ← classData (pr_gs gs) (symbolIndex (g_selfOrOwner namedSym));
    init ← lookupStaticInitForClass (cm_owner klass);
    Some (owner =? init).

Definition emitKept (isMethodFileStaticInit : bool) (bind : Binding) (st : state) : option state :=
  match bd_value bind with
  | Insn.Send send =>
      if negb (Insn.fun_ send =? n_keepForIde (sn_cfg sn)) then Some st
      else
        '(v, loc) ← Insn.args send !! 0%nat;
        let '(symRef, aliases) := try_consume v (aliasMap st.1) in
        '(namedSym, _) ← symRef;
        let st := (set_aliasMap aliases st.1, st.2) in
        if bool_decide (refKind namedSym = RType) then Some st
        else
          isDefinition ← definesKept isMethodFileStaticInit namedSym;
          emit (if (isDefinition : bool) then Definition_ namedSym None loc else Reference namedSym None loc 0) st
  | _ => Some st
  end.

(** One keyword argument of a call *)
Definition emitKeywordArgument (c : CFG) (send : Insn.SendData) (st : state) (argument : SCIPKeywordArgument)
    : option state :=
  let wrapped := (Insn.fun_ send =? n_callWithSplat sn) || (Insn.fun_ send =? n_callWithSplatAndBlockPass sn) in
  '(loc, t) ← (if wrapped then wrappedKeywordNameLoc c send (ka_name argument) st.1
               else loc ← keywordNameLoc gs file (ka_loc argument) (ka_name argument); Some (loc, st.1));
  let st := (t, st.2) in
  if negb (offsets_exists loc) then Some st
  else
    let symbol := parameterRef (ka_method argument) (ka_name argument) NullType in
    m ← methodData (pr_gs gs) (ka_method argument);
    indexable ←
      (if mf_isRewriterSynthesized (me_flags m) then
         definition ← refLoc gs symbol;
         if negb (loc_exists definition) then Some false
         else
           name ← keywordNameLoc gs (locFile definition) (locOffsets definition) (ka_name argument);
           Some (offsets_exists name)
       else Some true);
    emitIf indexable (Reference symbol None loc 0) st.

Definition isWrapped (send : Insn.SendData) : bool :=
  (Insn.fun_ send =? n_callWithSplat sn) || (Insn.fun_ send =? n_callWithBlockPass sn) ||
  (Insn.fun_ send =? n_callWithSplatAndBlockPass sn).

(** The reference to the called method *)
Definition emitCall (send : Insn.SendData) (st : state) : option state :=
  let direct :=
    loc ← computeMethodLoc sn gs file (Insn.fun_ send) (Insn.funLoc send);
    emitMethodReference (vu_type (Insn.recv send)) (Insn.fun_ send) loc (Insn.scipDispatchInfo send) st in
  if isWrapped send then
    match Insn.argTypes send with
    | recvType :: NamedLiteralType kind name :: _ =>
        match kind with
        | LitSymbol =>
            loc ← computeWrappedMethodLoc sn gs file send name;
            emitMethodReference recvType name loc (Insn.scipDispatchInfo send) st
        | LitString => Some st
        end
    | _ => direct
    end
  else direct.

Definition emitArgument (c : CFG) (b : nat) (receivers : TypesAt) (send : Insn.SendData) (st : state)
    (arg : LocalOccurrence * TypePtr) : option state :=
  let '(occ, type) := arg in
  if bool_decide (lo_loc occ = Insn.receiverLoc send) then Some st
  else emitLocalOccurrence c b occ false None (typeAt receivers occ type) st.

Definition emitSend (c : CFG) (b : nat) (receivers : TypesAt) (send : Insn.SendData) (st : state) : option state :=
  let recv := occurrence (Insn.recv send) in
  st ← (if present (lo_loc recv)
        then emitLocalOccurrence c b recv false None (typeAt receivers recv (vu_type (Insn.recv send))) st
        else Some st);
  st ← emitCall send st;
  st ← match Insn.scipDispatchInfo send with
       | Some info => foldM (emitKeywordArgument c send) st (keywordArguments info)
       | None => Some st
       end;
  foldM (emitArgument c b receivers send) st (typedArgs send).

(** The left-hand side of a binding *)
Definition emitLHS (c : CFG) (b : nat) (assignments : TypesAt) (bind : Binding) (st : state) : option state :=
  match bd_value bind with
  | Insn.Alias _ _ | Insn.ArgPresent _ _ => Some st
  | _ =>
      let occ := mkLocalOccurrence (vu_variable (bd_bind bind)) (lhsLocIfPresent bind) in
      aliasRHS ← match bd_value bind with
                 | Insn.Ident what =>
                     isAlias ← (if local_exists what then isAliasForGlobal (sn_cfg sn) c what else Some false);
                     Some (if (isAlias : bool) then Some what else None)
                 | _ => Some None
                 end;
      emitLocalOccurrence c b occ true aliasRHS (typeAt assignments occ (vu_type (bd_bind bind))) st
  end.

(** The right-hand side *)
Definition emitRHS (c : CFG) (b : nat) (isStaticInit : bool) (receivers : TypesAt) (bind : Binding) (st : state)
    : option state :=
  let emitLocal v := emitLocalOccurrence c b (mkLocalOccurrence v (bd_loc bind)) false None (vu_type (bd_bind bind)) st in
  match bd_value bind with
  | Insn.Ident what =>
      var ← localData c (vu_variable (bd_bind bind));
      if isStaticInit && (lv_name var =? n_returnMethodTemp (sn_cfg sn)) then Some st else emitLocal what
  | Insn.Send send => emitSend c b receivers send st
  | Insn.Return what _ =>
      if isStaticInit && (vu_variable (bd_bind bind) =? finalReturn)%nat then Some st
      else emitLocalOccurrence c b (occurrence what) false None (vu_type what) st
  | Insn.BlockReturn _ what =>
      let loc := if offsets_exists (vu_loc what) then vu_loc what else bd_loc bind in
      emitLocalOccurrence c b (mkLocalOccurrence (vu_variable what) loc) false None (vu_type what) st
  | Insn.Cast value _ _ _ => emitLocal (vu_variable value)
  | _ => Some st
  end.

Definition visitBinding (c : CFG) (types : TypesAt * TypesAt) (fileInit isStaticInit : bool) (b : nat) (st : state)
    (bind : Binding) : option state :=
  if isSkipped bind then emitKept fileInit bind st
  else
    st ← emitLHS c b types.1 bind st;
    emitRHS c b isStaticInit types.2 bind st.

Definition visitBlock (c : CFG) (types : TypesAt * TypesAt) (fileInit isStaticInit : bool) (st : state) (b : nat)
    : option state :=
  bb ← cfg_blocks c !! b;
  foldM (visitBinding c types fileInit isStaticInit b) (copyLocalsFromParents b bb st.1, st.2) (bb_exprs bb).

(** *** The aliases that no instruction has used *)

Definition sameAlias (a b : GenericSymbolRef * LocOffsets) : bool := sameRef a.1 b.1 && bool_decide (a.2 = b.2).

Definition remainingAliases (m : AliasMap) : list (GenericSymbolRef * LocOffsets) :=
  omap (fun '(_, (namedSym, loc, emitted)) => if (emitted : bool) then None else Some (namedSym, loc)) (map_to_list m).

Definition sortedAliases (m : AliasMap) : list (GenericSymbolRef * LocOffsets) :=
  let '(todo, foundDupes) := sortAliases (remainingAliases m) in
  if foundDupes then uniqueNeighbours sameAlias todo else todo.

(** Is the method the initializer of the class it is attached to? *)
Definition isClassStaticInit : option bool :=
  methodOwner ← symbolOwner (pr_gs gs) owner;
  if negb (isClassOrModule methodOwner && symbol_exists methodOwner) then Some false
  else
    attached ← attachedClass (pr_gs gs) (symbolIndex methodOwner);
    if attached =? 0 then Some false
    else init ← lookupStaticInitForClass attached; Some (owner =? init).

(** [GenericSymbolRef::isEnumConstant] *)
Definition isEnumConstant (sym : GenericSymbolRef) : option bool :=
  if negb (bool_decide (refKind sym = RField)) || negb (symbol_exists (g_selfOrOwner sym)) then Some false
  else c ← classData (pr_gs gs) (symbolIndex (g_selfOrOwner sym)); Some (cm_superClass c =? T_Enum).

Definition emitAlias (classInit : bool) (st : state) (alias : GenericSymbolRef * LocOffsets) : option state :=
  isEnum ← (if classInit then isEnumConstant alias.1 else Some false);
  emit (if (isEnum : bool) then Definition_ alias.1 None alias.2 else Reference alias.1 None alias.2 0) st.

(** *** The whole traversal; [methodDef] is the symbol and the parameters of the definition of the method, if there is one. *)

Definition declareKeywords (method : Z) (params : list Expr) (t : Traversal) : option Traversal :=
  keywords ← forEachKeywordParameter gs ty file method params;
  Some (set_keywordParameters
          (fold_left (fun m '(symbol, local, loc) => insertNew local (mkKeywordParameter symbol loc) m)
             keywords (keywordParameters t)) t).

(** The parameters of the method and the aliases of the graph *)
Definition prepare (c : CFG) (methodDef : option (Z * list Expr)) (resolver : FieldResolver) (s : St)
    : option (FieldResolver * state) :=
  st ← match methodDef with Some (_, params) => defineAnonymousParameters params (newTraversal, s) | None => Some (newTraversal, s) end;
  t ← match methodDef with Some (method, params) => declareKeywords method params st.1 | None => Some st.1 end;
  '(aliases, (resolver, rels)) ← populate gs unresolvedFields owner file c resolver (relationships st.2);
  st ← emit (Relationships rels) (set_aliasMap aliases t, st.2);
  Some (resolver, st).

Definition traverse (c : CFG) (methodDef : option (Z * list Expr)) (resolver : FieldResolver) (s : St)
    : option (FieldResolver * state) :=
  '(resolver, st) ← prepare c methodDef resolver s;
  fileInit ← lookupStaticInitForFile;
  ownerName ← symbolName (pr_gs gs) owner;
  let isMethodFileStaticInit := owner =? fileInit in
  let isStaticInit := isMethodFileStaticInit || (ownerName =? n_staticInit (sy_wk (pr_gs gs))) in
  types ← safeNavigationTypes c;
  st ← foldM (visitBlock c types isMethodFileStaticInit isStaticInit) st (rev (forwardsTopoSort c));
  classInit ← isClassStaticInit;
  let todo := sortedAliases (aliasMap st.1) in
  st ← foldM (emitAlias classInit) (set_aliasMap ∅ st.1, st.2) todo;
  Some (resolver, st).
End Traverse.
