(* ===== verification/ScipSample.v ===== *)
(** * A method to index

    The method [m(&)] of the class [foo] in a file with one line, its control flow graph with three
    blocks, and the traversal of the graph. The files about traversals use it as their example. *)

From S2P Require Import Prelude Pickler FileHash Files Locs Types NameTable NameText Symbols SymbolRefs Linearize.
From S2P Require Import Ast UIntSet Cfg CfgTopo CfgReads CfgArgs CfgFinalize CfgBuild CfgPasses.
From S2P Require Import ScipUtils ScipProto ScipGem ScipSymbolRef ScipState ScipFieldResolve ScipOccurrences.
From S2P Require Import ScipTraversal.

#[local] Open Scope Z_scope.

Definition indexedFile : File :=
  mkFile 0 Normal (makeFlags s! "a.rb") s! "a.rb" s! "m(&) x=foo;x=x;x" None Max NoneLevel NoneLevel None.

Lemma indexedFile_wf : File_wf indexedFile.
Proof. apply (makeFile_wf s! "a.rb" s! "m(&) x=foo;x=x;x" Normal 0). reflexivity. Qed.

Definition indexedMethod : Method :=
  mkMethod (noLoc 0) 4 1 0 (mkMethodFlags false false false false false false false false false false false false) None
    [mkParamInfo 1 0 (noLoc 0) (mkParamFlags false false false false true) NullType] NullType 0 [].

Definition indexedProgram : Program :=
  mkProgram
    (mkSymbolic (mkSymbolTable [noClass; noClass; noClass; noClass; fooClass] [sampleMethod; indexedMethod] [] [] []) fooTable
       (mkWellKnown 0 0 0 0 0 0))
    [indexedFile].

Lemma indexedProgram_files file f : fileData indexedProgram file = Some f -> File_wf f /\ is_size (length (source_ f)).
Proof.
  unfold fileData. destruct (file <=? 0); [done|]. cbn. destruct (Z.to_nat (file - 1)) as [|[|n]]; cbn; try done.
  intros [= <-]. split; [apply indexedFile_wf|done].
Qed.

Definition indexedOwner : Z := makeSymbolRef KMethod 1.

Definition indexedNames : ScipNames :=
  mkScipNames sampleNames 8001 8002 8003 8004 8005 8006 8007 8008 8009 8010 8011 8012 8013 8014 8015 8016 8017 8018 8019 8020 8021.

Definition indexedTypes : TypeOps := mkTypeOps (fun _ _ => false) OrType id (fun t _ => t) false.

Definition indexedBlock (id : nat) (exprs : list Binding) (back : list nat) : BasicBlock :=
  mkBasicBlock [] id false false 0 exprs (mkBlockExit (useSite unconditional noOffsets) None None noOffsets) back.

Definition ident (v : nat) (at_ : LocOffsets) (what : nat) (loc : LocOffsets) : Binding :=
  mkBinding (useSite v at_) loc (Insn.Ident what) false.

(** The variables are a temporary, [x], and one that stands for [foo]. *)
Definition indexedGraph : CFG :=
  mkCFG indexedOwner 3 noOffsets noOffsets
    (list_to_map
       [(0, indexedBlock 0 [mkBinding (useSite 2 noOffsets) (mkLocOffsets 7 10) (Insn.Alias 32 noName) true;
                            ident 1 (mkLocOffsets 5 6) 2 (mkLocOffsets 7 10)] []);
        (1, indexedBlock 1 [ident 1 (mkLocOffsets 11 12) 1 (mkLocOffsets 13 14)] [0]);
        (2, indexedBlock 2 [ident 0 noOffsets 1 (mkLocOffsets 15 16)] [0; 1])])%nat
    [0; 1; 2]%nat noOffsets [2; 1; 0]%nat [] []
    [mkLocalVariable noName 0; mkLocalVariable 1001 0; mkLocalVariable 2001 0] ∅ [].

Definition indexedParams : list Expr := [Local (mkLocOffsets 2 3) 1 0].

Definition indexedResolver : FieldResolver := mkFieldResolver ∅ (mkBasicQueue [] 0).

Definition keepOrder (todo : list (GenericSymbolRef * LocOffsets)) : list (GenericSymbolRef * LocOffsets) * bool := (todo, false).

(** The traversal of the graph *)
Definition traverseSample {St} `{Recorder St} (s : St) : option (FieldResolver * (Traversal * St)) :=
  traverse indexedNames indexedProgram indexedTypes ∅ keepOrder indexedOwner 1 indexedGraph (Some (1, indexedParams)) indexedResolver s.
