(* ===== verification/ScipReplay.v ===== *)
(** * The calls of a traversal

    A traversal uses the state of the indexer only through [Recorder], and what it does next depends
    on the state only through the relationships it reads at the beginning. So a traversal of any state
    is a traversal that writes its calls down, followed by making these calls. *)

From S2P Require Import Prelude Pickler FileHash Files Locs Types NameTable NameText Symbols SymbolRefs Linearize.
From S2P Require Import Ast UIntSet Cfg CfgTopo CfgReads CfgArgs CfgFinalize CfgBuild.
From S2P Require Import ScipUtils ScipProto ScipGem ScipSymbolRef ScipState ScipFieldResolve ScipOccurrences.
From S2P Require Import ScipTraversal ScipSample.

#[local] Open Scope Z_scope.

(** ** The two instances *)

Record Log := mkLog { lg_events : list Event; lg_relationships : RelationshipsMap }.

Definition logged (e : Event) (l : Log) : Log :=
  mkLog (lg_events l ++ [e]) match e with Relationships m => m | _ => lg_relationships l end.

#[export] Instance logRecorder : Recorder Log := {
  record e l := Some (logged e l);
  relationships := lg_relationships }.

(** The calls of [SCIPState], from a method of a file *)
Definition scipRecorder (gs : Program) (decode : str -> option nat)
    (sortRelationships : list Relationship -> list Relationship) (showType : TypePtr -> str)
    (docStrings : GenericSymbolRef -> TypePtr -> Loc -> option (list str)) (owner file : Z) : Recorder SCIPState := {|
  record e st :=
    match e with
    | Definition_ sym aliased loc =>
        snd <$> saveDefinition gs decode sortRelationships docStrings st file sym aliased (Some loc) None
    | Reference sym overrideType loc roles =>
        snd <$> saveReference gs decode docStrings st owner file sym overrideType loc roles
    | LocalDefinition id loc type =>
        snd <$> saveLocalDefinition gs decode showType st file (mkOwnedLocal owner id loc) type None
    | LocalReference id loc overrideType roles =>
        snd <$> saveLocalReference gs decode showType st file (mkOwnedLocal owner id loc) overrideType roles
    | Relationships m => Some (set_relationshipsMap (<[file := m]> (relationshipsMap st)) st)
    end;
  relationships st := default ∅ (relationshipsMap st !! file) |}.

(** The calls that are made before the relationships are read leave them as they are. *)
Class LawfulRecorder (St : Type) `{Recorder St} :=
  record_local id loc type s s' : record (LocalDefinition id loc type) s = Some s' -> relationships s' = relationships s.

#[export] Instance logRecorder_lawful : LawfulRecorder Log.
Proof. intros id loc type s s'. by intros [= <-]. Qed.

Lemma saveDefinitionImpl_relationships gs decode st file s l docs rels enc r :
  saveDefinitionImpl gs decode st file s l docs rels enc = Some r -> relationshipsMap r.2 = relationshipsMap st.
Proof.
  unfold saveDefinitionImpl, saveSymbolInfo. intros E.
  repeat first [ progress simplify_option_eq | case_match ]; done.
Qed.

#[export] Instance scipRecorder_lawful gs decode sortR showType docStrings owner file :
  @LawfulRecorder SCIPState (scipRecorder gs decode sortR showType docStrings owner file).
Proof.
  intros id loc type s s' ([status s1] & E & ->)%fmap_Some. cbn in *. do 2 f_equal.
  unfold saveLocalDefinition, cacheLocalOccurrence in E.
  destruct (bool_decide _); [by injection E as <- <-|].
  apply bind_Some in E as (docs & _ & E). apply bind_Some in E as (text & _ & E).
  by apply saveDefinitionImpl_relationships in E.
Qed.

(** ** Replaying *)

Definition replay {St} `{Recorder St} (s : St) (events : list Event) : option St :=
  foldM (fun s e => record e s) s events.

Section Replay.
Context {St : Type} `{Recorder St}.

Lemma replay_app s es es' : replay s (es ++ es') = s ← replay s es; replay s es'.
Proof. apply foldM_app. Qed.

(** An operation on a state [f] makes the calls that the same operation [g] on a log writes down. *)
Definition replays (f : Traversal * St -> option (Traversal * St)) (g : Traversal * Log -> option (Traversal * Log)) : Prop :=
  forall s0 t l, (s ← replay s0 (lg_events l); f (t, s)) =
    ('(t', l') ← g (t, l); s' ← replay s0 (lg_events l'); Some (t', s')).

Lemma replays_same : replays Some Some.
Proof. by intros s0 t l. Qed.

Lemma replays_pure (h : Traversal -> option Traversal) :
  replays (fun st => t ← h st.1; Some (t, st.2)) (fun st => t ← h st.1; Some (t, st.2)).
Proof. intros s0 t l. cbn. destruct (h t); cbn; [done|by destruct (replay _ _)]. Qed.

Lemma replays_none : replays (fun _ => None) (fun _ => None).
Proof. intros s0 t l. cbn. by destruct (replay _ _). Qed.

Lemma replays_bind f g f' g' : replays f g -> replays f' g' ->
  replays (fun st => st ← f st; f' st) (fun st => st ← g st; g' st).
Proof.
  intros Hf Hf' s0 t l. specialize (Hf s0 t l). cbn in *.
  transitivity (st ← (s ← replay s0 (lg_events l); f (t, s)); f' st).
  { by destruct (replay s0 (lg_events l)). }
  rewrite Hf. destruct (g (t, l)) as [[t' l']|]; [|done]. cbn. rewrite <- Hf'.
  by destruct (replay s0 (lg_events l')).
Qed.

Lemma replays_emit e : replays (emit e) (emit e).
Proof.
  intros s0 t l. cbn. fold (replay s0 (lg_events l ++ [e])). rewrite replay_app.
  destruct (replay s0 (lg_events l)) as [s|]; [|done]. unfold emit, replay. cbn. by destruct (record e s).
Qed.

(** The choice between operations is made on the traversal, which both have. *)
Lemma replays_dep f g : (forall t, replays (fun st => f t (t, st.2)) (fun st => g t (t, st.2))) ->
  replays (fun st => f st.1 st) (fun st => g st.1 st).
Proof. intros Hf s0 t l. apply (Hf t s0 t l). Qed.

Lemma replays_set f g t : replays f g -> replays (fun st => f (t, st.2)) (fun st => g (t, st.2)).
Proof. intros Hf s0 t' l. apply (Hf s0 t l). Qed.

Lemma replays_foldM {A} f g (xs : list A) : (forall x, replays (fun st => f st x) (fun st => g st x)) ->
  replays (fun st => foldM f st xs) (fun st => foldM g st xs).
Proof.
  intros Hf. induction xs as [|x xs IH]; [exact replays_same|]. cbn [foldM].
  apply (replays_bind (fun st => f st x) (fun st => g st x)); [apply Hf|exact IH].
Qed.
End Replay.

(** The operations of the traversal, from the rules above *)

Create HintDb replays.

#[export] Hint Resolve replays_same replays_none replays_emit : replays.

(** Decide what does not depend on the state, then follow the operations. *)
Ltac follow :=
  repeat first
    [ progress cbn [mbind option_bind fst snd]
    | match goal with
      | |- replays (fun st => match ?x with _ => _ end) _ => destruct x
      end
    | by eauto with replays
    | apply replays_set
    | apply replays_foldM; intros ?
    | match goal with
      | |- replays (fun st => @mbind option _ _ _ _ ?m) _ =>
          lazymatch m with
          | context [st] => fail
          | _ => destruct m
          end
      end ].

Section Operations.
Context (sn : ScipNames) (gs : Program) (ty : TypeOps) (unresolvedFields : gmap Z (gset Z)).
Context (sortAliases : list (GenericSymbolRef * LocOffsets) -> list (GenericSymbolRef * LocOffsets) * bool).
Context (owner file : Z).
Context {St : Type} `{Recorder St}.

Lemma replays_emitLocalOccurrence c b local lvalue aliasRHS type :
  replays (emitLocalOccurrence sn gs ty file c b local lvalue aliasRHS type)
    (emitLocalOccurrence sn gs ty file c b local lvalue aliasRHS type).
Proof.
  apply (replays_dep (fun t st => emitLocalOccurrence sn gs ty file c b local lvalue aliasRHS type st)
           (fun t st => emitLocalOccurrence sn gs ty file c b local lvalue aliasRHS type st)). intros t.
  unfold emitLocalOccurrence, emitKeyword, emitAnonymous, emitIf. follow.
Qed.

#[local] Hint Resolve replays_emitLocalOccurrence : replays.

Lemma replays_emitMethods loc methods : replays (fun st => emitMethods loc st methods) (fun st => emitMethods loc st methods).
Proof. unfold emitMethods. follow. Qed.

#[local] Hint Resolve replays_emitMethods : replays.

Lemma replays_emitMethodReference recvType fun_ loc info :
  replays (emitMethodReference sn gs ty recvType fun_ loc info) (emitMethodReference sn gs ty recvType fun_ loc info).
Proof. unfold emitMethodReference. follow. Qed.

#[local] Hint Resolve replays_emitMethodReference : replays.

Lemma replays_emitCall send : replays (emitCall sn gs ty file send) (emitCall sn gs ty file send).
Proof. unfold emitCall. follow. Qed.

Lemma replays_emitKeywordArgument c send argument :
  replays (fun st => emitKeywordArgument sn gs file c send st argument)
    (fun st => emitKeywordArgument sn gs file c send st argument).
Proof.
  apply (replays_dep (fun t st => emitKeywordArgument sn gs file c send st argument)
           (fun t st => emitKeywordArgument sn gs file c send st argument)). intros t.
  unfold emitKeywordArgument, emitIf. follow.
Qed.

Lemma replays_emitArgument c b receivers send arg :
  replays (fun st => emitArgument sn gs ty file c b receivers send st arg)
    (fun st => emitArgument sn gs ty file c b receivers send st arg).
Proof. unfold emitArgument. follow. Qed.

#[local] Hint Resolve replays_emitCall replays_emitKeywordArgument replays_emitArgument : replays.

Lemma replays_emitSend c b receivers send :
  replays (emitSend sn gs ty file c b receivers send) (emitSend sn gs ty file c b receivers send).
Proof.
  unfold emitSend. repeat (eapply replays_bind; [follow|]). follow.
Qed.

#[local] Hint Resolve replays_emitSend : replays.

Lemma replays_emitLHS c b assignments bind :
  replays (emitLHS sn gs ty file c b assignments bind) (emitLHS sn gs ty file c b assignments bind).
Proof. unfold emitLHS. follow. Qed.

Lemma replays_emitRHS c b init receivers bind :
  replays (emitRHS sn gs ty file c b init receivers bind) (emitRHS sn gs ty file c b init receivers bind).
Proof. unfold emitRHS. follow. Qed.

Lemma replays_emitKept fileInit bind : replays (emitKept sn gs owner fileInit bind) (emitKept sn gs owner fileInit bind).
Proof.
  apply (replays_dep (fun t st => emitKept sn gs owner fileInit bind st) (fun t st => emitKept sn gs owner fileInit bind st)).
  intros t. unfold emitKept. follow.
Qed.

#[local] Hint Resolve replays_emitLHS replays_emitRHS replays_emitKept : replays.

Lemma replays_visitBinding c types fileInit init b bind :
  replays (fun st => visitBinding sn gs ty owner file c types fileInit init b st bind)
    (fun st => visitBinding sn gs ty owner file c types fileInit init b st bind).
Proof.
  unfold visitBinding. destruct (isSkipped bind); [follow|].
  eapply (replays_bind (emitLHS _ _ _ _ _ _ _ _)); follow.
Qed.

#[local] Hint Resolve replays_visitBinding : replays.

Lemma replays_visitBlock c types fileInit init b :
  replays (fun st => visitBlock sn gs ty owner file c types fileInit init st b)
    (fun st => visitBlock sn gs ty owner file c types fileInit init st b).
Proof.
  apply (replays_dep (fun t st => visitBlock sn gs ty owner file c types fileInit init st b)
           (fun t st => visitBlock sn gs ty owner file c types fileInit init st b)). intros t.
  unfold visitBlock. cbn [fst snd]. destruct (cfg_blocks c !! b) as [bb|]; [|follow]. cbn [mbind option_bind].
  apply (replays_set (fun st => foldM _ st _) (fun st => foldM _ st _)). follow.
Qed.

Lemma replays_emitAlias classInit alias :
  replays (fun st => emitAlias gs classInit st alias) (fun st => emitAlias gs classInit st alias).
Proof. unfold emitAlias. follow. Qed.

Lemma replays_defineAnonymousParameter m pe :
  replays (fun st => defineAnonymousParameter sn gs ty owner file m st pe)
    (fun st => defineAnonymousParameter sn gs ty owner file m st pe).
Proof.
  apply (replays_dep (fun t st => defineAnonymousParameter sn gs ty owner file m st pe)
           (fun t st => defineAnonymousParameter sn gs ty owner file m st pe)). intros t.
  unfold defineAnonymousParameter. follow.
Qed.

#[local] Hint Resolve replays_visitBlock replays_emitAlias replays_defineAnonymousParameter : replays.

Lemma replays_defineAnonymousParameters params :
  replays (defineAnonymousParameters sn gs ty owner file params) (defineAnonymousParameters sn gs ty owner file params).
Proof. unfold defineAnonymousParameters. follow. Qed.

Lemma define_relationships {S} `{LawfulRecorder S} params t (s : S) t' s' :
  defineAnonymousParameters sn gs ty owner file params (t, s) = Some (t', s') -> relationships s' = relationships s.
Proof.
  unfold defineAnonymousParameters. intros (m & _ & E)%bind_Some. revert t s E.
  induction (zip _ params) as [|[param expr] l IH]; intros t s E; [by injection E as <- <-|].
  apply bind_Some in E as ([t1 s1] & E1 & E). rewrite (IH _ _ E). clear IH E.
  unfold defineAnonymousParameter, emit in E1. repeat (case_match || simplify_option_eq); try done.
  all: by eapply record_local.
Qed.

(** What follows the reading of the relationships *)
Definition finish (c : CFG) (t : Traversal) (aliases : AliasMap) (rels : RelationshipsMap) {S} `{Recorder S} (st : Traversal * S)
    : option (Traversal * S) :=
  st ← emit (Relationships rels) (set_aliasMap aliases t, st.2);
  fileInit ← lookupStaticInitForFile gs file;
  ownerName ← symbolName (pr_gs gs) owner;
  let isMethodFileStaticInit := owner =? fileInit in
  let isStaticInit := isMethodFileStaticInit || (ownerName =? n_staticInit (sy_wk (pr_gs gs))) in
  types ← safeNavigationTypes sn ty c;
  st ← foldM (visitBlock sn gs ty owner file c types isMethodFileStaticInit isStaticInit) st (rev (forwardsTopoSort c));
  classInit ← isClassStaticInit gs owner;
  foldM (emitAlias gs classInit) (set_aliasMap ∅ st.1, st.2) (sortedAliases sortAliases (aliasMap st.1)).

Lemma replays_aliases classInit :
  replays (fun st => foldM (emitAlias gs classInit) (set_aliasMap ∅ st.1, st.2) (sortedAliases sortAliases (aliasMap st.1)))
    (fun st => foldM (emitAlias gs classInit) (set_aliasMap ∅ st.1, st.2) (sortedAliases sortAliases (aliasMap st.1))).
Proof.
  apply (replays_dep
    (fun t st => foldM (emitAlias gs classInit) (set_aliasMap ∅ st.1, st.2) (sortedAliases sortAliases (aliasMap st.1)))
    (fun t st => foldM (emitAlias gs classInit) (set_aliasMap ∅ st.1, st.2) (sortedAliases sortAliases (aliasMap st.1)))).
  intros t. cbn [fst snd]. apply (replays_set (fun st => foldM _ st _) (fun st => foldM _ st _)). follow.
Qed.

#[local] Hint Resolve replays_aliases : replays.

Lemma replays_finish c t aliases rels : replays (finish c t aliases rels) (finish c t aliases rels).
Proof.
  unfold finish. apply (replays_bind (fun st => emit _ (_, st.2)) (fun st => emit _ (_, st.2))).
  { apply (replays_set (emit _) (emit _)). follow. }
  destruct (lookupStaticInitForFile _ _); [|follow]. destruct (symbolName _ _); [|follow].
  destruct (safeNavigationTypes _ _ _); [|follow]. cbn [mbind option_bind].
  eapply (replays_bind (fun st => foldM _ st _)); [follow|]. destruct (isClassStaticInit _ _); follow.
Qed.

(** The traversal as its first part, the reading of the aliases, and the rest *)
Definition start (methodDef : option (Z * list Expr)) {S} `{Recorder S} (st : Traversal * S) : option (Traversal * S) :=
  match methodDef with Some (_, params) => defineAnonymousParameters sn gs ty owner file params st | None => Some st end.

Definition keywords (methodDef : option (Z * list Expr)) (t : Traversal) : option Traversal :=
  match methodDef with Some (method, params) => declareKeywords gs ty file method params t | None => Some t end.

Lemma traverse_parts {S} `{Recorder S} c params resolver (s : S) :
  traverse sn gs ty unresolvedFields sortAliases owner file c params resolver s =
  (st ← start params (newTraversal, s);
   t ← keywords params st.1;
   '(aliases, (resolver, rels)) ← populate gs unresolvedFields owner file c resolver (relationships st.2);
   st ← finish c t aliases rels st;
   Some (resolver, st)).
Proof.
  unfold traverse, prepare, start, keywords, finish.
  repeat first
    [ done
    | progress cbn [mbind option_bind fst snd]
    | case_match; simplify_eq
    | match goal with
      | |- context [@mbind option _ _ _ _ ?x] =>
          lazymatch x with @mbind _ _ _ _ _ _ => fail | _ => destruct x as [?|] end
      end ].
Qed.

Lemma traverse_replay `{!LawfulRecorder St} c params resolver (s : St) :
  traverse sn gs ty unresolvedFields sortAliases owner file c params resolver s =
  ('(resolver', (t, l)) ← traverse sn gs ty unresolvedFields sortAliases owner file c params resolver
                            (mkLog [] (relationships s));
   s' ← replay s (lg_events l);
   Some (resolver', (t, s'))).
Proof.
  rewrite !traverse_parts. set (l0 := mkLog [] (relationships s)).
  assert (Hstart : replays (start params) (start params)).
  { destruct params as [[? ?]|]; [apply replays_defineAnonymousParameters|apply replays_same]. }
  assert (Hs : start params (newTraversal, s) = '(t', l') ← start params (newTraversal, l0);
    s' ← replay s (lg_events l'); Some (t', s')) by exact (Hstart s newTraversal l0).
  destruct (start params (newTraversal, l0)) as [[t1 l1]|] eqn:El; [|by rewrite Hs]. cbn [mbind option_bind] in Hs.
  rewrite Hs. cbn [mbind option_bind fst snd].
  assert (Hrel : relationships l1 = relationships s).
  { destruct params as [[method params]|]; [|by injection El as <- <-]. by apply (define_relationships (S := Log)) in El. }
  destruct (replay s (lg_events l1)) as [s1|] eqn:Es.
  - cbn [mbind option_bind fst snd]. destruct (keywords params t1) as [t|]; [|done]. cbn [mbind option_bind fst snd].
    assert (relationships s1 = relationships l1) as ->.
    { rewrite Hrel. destruct params as [[method params]|]; [|injection El as <- <-; by injection Es as <-].
      cbn [mbind option_bind] in Hs. by eapply define_relationships. }
    destruct (populate _ _ _ _ _ _ _) as [[aliases [resolver' rels]]|]; [|done]. cbn [mbind option_bind fst snd].
    pose proof (replays_finish c t aliases rels s t1 l1) as Hf. rewrite Es in Hf. cbn [mbind option_bind fst snd] in Hf. rewrite Hf.
    destruct (finish c t aliases rels (t1, l1)) as [[t2 l2]|]; [|done]. cbn [mbind option_bind fst snd]. by destruct (replay s (lg_events l2)).
  - cbn [mbind option_bind fst snd]. destruct (keywords params t1) as [t|]; [|done]. cbn [mbind option_bind fst snd].
    destruct (populate _ _ _ _ _ _ _) as [[aliases [resolver' rels]]|]; [|done]. cbn [mbind option_bind fst snd].
    pose proof (replays_finish c t aliases rels s t1 l1) as Hf. rewrite Es in Hf. cbn [mbind option_bind fst snd] in Hf.
    destruct (finish c t aliases rels (t1, l1)) as [[t2 l2]|]; [|done]. cbn [mbind option_bind fst snd] in *.
    by destruct (replay s (lg_events l2)).
Qed.
End Operations.

(** The traversal of the sample, on the state of the indexer *)
Definition sampleRecorder : Recorder SCIPState :=
  scipRecorder indexedProgram utf8_char id (fun _ => []) (fun _ _ _ => Some []) indexedOwner 1.
