(* ===== verification/ScipRun.v ===== *)
(** * Traversals as sequences of steps

    What a traversal of src/scip_indexer/SCIPIndexer.cc does in a binding of a graph, as a relation
    between the states before and after. Every step says which occurrence of which variable it is
    about, and every operation of the traversal is a sequence of steps. The traversal writes its calls
    down; for any other recorder see ScipReplay. *)

From S2P Require Import Prelude Pickler FileHash Files Locs Types NameTable NameText Symbols SymbolRefs Linearize.
From S2P Require Import Ast UIntSet Cfg CfgTopo CfgReads CfgArgs CfgFinalize CfgBuild.
From S2P Require Import ScipUtils ScipProto ScipGem ScipSymbolRef ScipState ScipFieldResolve ScipOccurrences.
From S2P Require Import ScipTraversal ScipReplay.

#[local] Open Scope Z_scope.

Lemma rtc_preserves {A} (R : relation A) (P : A -> Prop) x y : (forall x y, R x y -> P x -> P y) -> rtc R x y -> P x -> P y.
Proof. intros HR. induction 1; eauto. Qed.

(** The variables of a binding with the place of the occurrence, and whether it is a write *)
Definition occurrencesOf (bind : Binding) : list (LocalOccurrence * bool) :=
  let lhs := (mkLocalOccurrence (vu_variable (bd_bind bind)) (lhsLocIfPresent bind), true) in
  let read v := (mkLocalOccurrence v (bd_loc bind), false) in
  match bd_value bind with
  | Insn.Alias _ _ | Insn.ArgPresent _ _ => []
  | Insn.Ident what => [lhs; read what]
  | Insn.Send send =>
      lhs :: (occurrence (Insn.recv send), false) ::
      ((fun '(v, loc) => (mkLocalOccurrence v loc, false)) <$> Insn.args send)
  | Insn.Return what _ => [lhs; (occurrence what, false)]
  | Insn.BlockReturn _ what =>
      let loc := if offsets_exists (vu_loc what) then vu_loc what else bd_loc bind in
      [lhs; (mkLocalOccurrence (vu_variable what) loc, false)]
  | Insn.Cast value _ _ _ => [lhs; read (vu_variable value)]
  | _ => [lhs]
  end.

(** The symbol that an event defines or refers to, and the number and place of a local *)
Definition eventSymbol (e : Event) : option GenericSymbolRef :=
  match e with Definition_ sym _ _ | Reference sym _ _ _ => Some sym | _ => None end.

Definition eventLocal (e : Event) : option (Z * LocOffsets) :=
  match e with LocalDefinition id loc _ | LocalReference id loc _ _ => Some (id, loc) | _ => None end.

Create HintDb run.

Section Run.
Context (sn : ScipNames) (gs : Program) (ty : TypeOps) (unresolvedFields : gmap Z (gset Z)).
Context (sortAliases : list (GenericSymbolRef * LocOffsets) -> list (GenericSymbolRef * LocOffsets) * bool).
Context (owner file : Z) (c : CFG).

Abbreviation state := (Traversal * Log)%type.

Definition consume (v : nat) (sym : GenericSymbolRef) (loc : LocOffsets) (t : Traversal) : Traversal :=
  set_aliasMap (<[v := (sym, loc, true)]> (aliasMap t)) t.

(** One step in a binding of the block [b] *)
Inductive step (b : nat) (bind : Binding) : relation state :=
| step_symbol t l e : is_Some (eventSymbol e) -> step b bind (t, l) (t, logged e l)
| step_anonymous t l name p loc :
    anonymousParameters t !! name = Some p -> sourceAt gs file loc = sourceAt gs file (ap_loc p) ->
    step b bind (t, l) (t, logged (LocalReference (ap_id p) loc None ReadAccess) l)
| step_tuples t l defs : step b bind (t, l) (set_keywordTupleDefinitions defs t, l)
| step_type t l v sym loc emitted :
    aliasMap t !! v = Some (sym, loc, emitted) -> refKind sym = RType -> step b bind (t, l) (consume v sym loc t, l)
| step_kept t l v sym loc emitted e :
    aliasMap t !! v = Some (sym, loc, emitted) -> eventSymbol e = Some sym ->
    step b bind (t, l) (consume v sym loc t, logged e l)
| step_alias t l v at_ lvalue type sym loc emitted d t' rhs role :
    (mkLocalOccurrence v at_, lvalue) ∈ occurrencesOf bind -> is_Some (localData c v) ->
    aliasMap t !! v = Some (sym, loc, emitted) ->
    classify b v lvalue type (consume v sym loc t) = (d, t') ->
    step b bind (t, l) (t', logged (symbolEvent ty t' sym d rhs at_ role type) l)
| step_local t l v var at_ lvalue type d t' id at' :
    (mkLocalOccurrence v at_, lvalue) ∈ occurrencesOf bind -> localData c v = Some var ->
    aliasMap t !! v = None -> isTemporary sn var = false ->
    withoutColon gs file (lv_name var) at_ = Some at' ->
    classify b v lvalue type t = (d, t') -> functionLocals t' !! v = Some id ->
    step b bind (t, l)
      (t', logged (localEvent ty t' id d at' (if lvalue then WriteAccess else ReadAccess) type) l).

Definition runs b bind (f : state -> option state) : Prop := forall st st', f st = Some st' -> rtc (step b bind) st st'.

Lemma runs_some b bind : runs b bind Some.
Proof. intros st st' [= ->]. apply rtc_refl. Qed.

Lemma runs_none b bind : runs b bind (fun _ => None).
Proof. done. Qed.

Lemma runs_bind b bind f g : runs b bind f -> runs b bind g -> runs b bind (fun st => st ← f st; g st).
Proof. intros Hf Hg st st' (st1 & E1 & E2)%bind_Some. etrans; eauto. Qed.

Lemma runs_symbol b bind e : is_Some (eventSymbol e) -> runs b bind (emit e).
Proof. intros He [t l] st' [= <-]. apply rtc_once. by constructor. Qed.

Lemma runs_emitIf b bind x e : is_Some (eventSymbol e) -> runs b bind (emitIf x e).
Proof. intros He. unfold emitIf. destruct x; [by apply runs_symbol|apply runs_some]. Qed.

Lemma runs_dep b bind (f : Traversal -> state -> option state) :
  (forall t, runs b bind (f t)) -> runs b bind (fun st => f st.1 st).
Proof. intros Hf st st' E. by eapply Hf. Qed.

Lemma runs_foldM {A} b bind (f : state -> A -> option state) (l : list A) :
  (forall a, a ∈ l -> runs b bind (fun st => f st a)) -> runs b bind (fun st => foldM f st l).
Proof.
  induction l as [|a l IH]; intros Hf; [apply runs_some|].
  apply (runs_bind _ _ (fun st => f st a)); [apply Hf|apply IH; intros; apply Hf]; set_solver.
Qed.

#[local] Hint Resolve runs_some runs_none runs_symbol runs_emitIf : run.
#[local] Hint Extern 1 (is_Some (eventSymbol _)) => eexists; reflexivity : run.

(** Decide what does not depend on the state, then follow the operations. *)
Ltac go :=
  repeat first
    [ progress cbn [mbind option_bind fst snd]
    | by eauto with run
    | match goal with
      | |- runs _ _ (fun st => match ?x with _ => _ end) => destruct x eqn:?
      | |- runs _ _ (fun st => @mbind option _ _ _ _ ?m) =>
          lazymatch m with
          | context [st] => fail
          | _ => destruct m eqn:?
          end
      end
    | apply runs_foldM; intros ? ? ].

Lemma runs_emitKeyword b bind parameter name loc lvalue type : runs b bind (emitKeyword gs ty file parameter name loc lvalue type).
Proof. unfold emitKeyword. go. Qed.

Lemma runs_emitMethods b bind loc methods : runs b bind (fun st => emitMethods loc st methods).
Proof. unfold emitMethods. go. Qed.

#[local] Hint Resolve runs_emitKeyword runs_emitMethods : run.

Lemma runs_emitMethodReference b bind recvType fun_ loc info : runs b bind (emitMethodReference sn gs ty recvType fun_ loc info).
Proof. unfold emitMethodReference. go. Qed.

#[local] Hint Resolve runs_emitMethodReference : run.

Lemma runs_emitCall b bind send : runs b bind (emitCall sn gs ty file send).
Proof. unfold emitCall. go. Qed.

Lemma emitAnonymous_runs b bind p name name' loc lvalue t l st' : anonymousParameters t !! name' = Some p ->
  emitAnonymous sn gs file p name loc lvalue (t, l) = Some st' -> rtc (step b bind) (t, l) st'.
Proof.
  intros Hp. unfold emitAnonymous. destruct lvalue; [by intros [= <-]; apply rtc_refl|].
  intros (loc' & _ & E)%bind_Some. destruct (negb _); [injection E as <-; apply rtc_refl|].
  apply bind_Some in E as (use & Eu & E). apply bind_Some in E as (decl & Ed & E). unfold emitIf in E.
  case_bool_decide as Ht; [|injection E as <-; apply rtc_refl]. injection E as <-.
  apply rtc_once. eapply step_anonymous; [done|congruence].
Qed.

Lemma runs_emitLocalOccurrence b bind occ lvalue aliasRHS type : (occ, lvalue) ∈ occurrencesOf bind ->
  runs b bind (emitLocalOccurrence sn gs ty file c b occ lvalue aliasRHS type).
Proof.
  intros Ho [t l] st'. unfold emitLocalOccurrence. destruct occ as [v at_]. cbn [lo_loc lo_variable fst snd].
  intros (var & Ev & E)%bind_Some.
  destruct (keywordParameters t !! var) as [kp|]; [by eapply runs_emitKeyword|].
  destruct (if _ =? 0 then _ else None) as [p|] eqn:Ep.
  { destruct (lv_unique var =? 0); [|done]. by eapply emitAnonymous_runs. }
  destruct (negb (present at_)); [injection E as <-; apply rtc_refl|].
  unfold try_consume in E. destruct (aliasMap t !! v) as [[[sym loc] emitted]|] eqn:Ea.
  - case_bool_decide as Ht; [injection E as <-; apply rtc_once; by econstructor|].
    change (set_aliasMap _ t) with (consume v sym loc t) in E.
    destruct (classify _ _ _ _ _) as [d t'] eqn:Ec. injection E as <-. apply rtc_once. by eapply step_alias.
  - replace (set_aliasMap (aliasMap t) t) with t in E by by destruct t.
    destruct (isTemporary sn var) eqn:Et; [injection E as <-; apply rtc_refl|].
    apply bind_Some in E as (at' & Ew & E). destruct (classify _ _ _ _ _) as [d t'] eqn:Ec.
    apply bind_Some in E as (id & Ei & E). injection E as <-. apply rtc_once. by eapply step_local.
Qed.

Lemma runs_emitKeywordArgument b bind send argument : runs b bind (fun st => emitKeywordArgument sn gs file c send st argument).
Proof.
  intros [t l] st' ([loc t'] & Ew & E)%bind_Some. cbn [fst snd] in *.
  transitivity (t', l).
  - destruct (_ || _); [|destruct (keywordNameLoc _ _ _ _); [injection Ew as <- <-|done]; apply rtc_refl].
    unfold wrappedKeywordNameLoc in Ew. destruct (Insn.args send !! 3%nat) as [[ref ?]|]; [|injection Ew as <- <-; apply rtc_refl].
    apply bind_Some in Ew as ([defs t1] & Ed & Ew).
    assert (t' = t1) as -> by (repeat (case_match || simplify_option_eq); done).
    destruct (keywordTupleDefinitions t); [injection Ed as <- <-; apply rtc_refl|].
    apply bind_Some in Ed as (defs' & _ & [= <- <-]). apply rtc_once. constructor.
  - revert E. generalize (t', l) as st. intros st. revert st st'.
    match goal with |- forall st st', @?f st = Some st' -> _ => change (runs b bind f) end. go.
Qed.

#[local] Hint Resolve runs_emitCall runs_emitKeywordArgument : run.

Lemma typedArgs_occurrences send occ type : (occ, type) ∈ typedArgs send ->
  (occ, false) ∈ (fun '(v, loc) => (mkLocalOccurrence v loc, false)) <$> Insn.args send.
Proof.
  unfold typedArgs. intros ([v loc] & -> & Ha)%elem_of_zip_l%list_elem_of_fmap.
  apply list_elem_of_fmap. by exists (v, loc).
Qed.

Lemma runs_emitSend b bind receivers send : bd_value bind = Insn.Send send ->
  runs b bind (emitSend sn gs ty file c b receivers send).
Proof.
  intros Hv. assert (Ho : occurrencesOf bind = (mkLocalOccurrence (vu_variable (bd_bind bind)) (lhsLocIfPresent bind), true) ::
    (occurrence (Insn.recv send), false) :: ((fun '(v, loc) => (mkLocalOccurrence v loc, false)) <$> Insn.args send))
    by (unfold occurrencesOf; by rewrite Hv).
  unfold emitSend. apply (runs_bind _ _ (fun st => if present _ then _ else _)).
  { go. apply runs_emitLocalOccurrence. rewrite Ho. set_solver. }
  apply runs_bind; [apply runs_emitCall|].
  apply (runs_bind _ _ (fun st => match Insn.scipDispatchInfo send with _ => _ end)); [go|].
  go. unfold emitArgument. destruct a as [occ type]. go. apply runs_emitLocalOccurrence. rewrite Ho.
  do 2 right. by eapply typedArgs_occurrences.
Qed.

Lemma runs_emitLHS b bind assignments : runs b bind (emitLHS sn gs ty file c b assignments bind).
Proof.
  unfold emitLHS.
  destruct (bd_value bind) eqn:Hv; go; apply runs_emitLocalOccurrence; unfold occurrencesOf; rewrite Hv; set_solver.
Qed.

Lemma runs_emitRHS b bind init receivers : runs b bind (emitRHS sn gs ty file c b init receivers bind).
Proof.
  unfold emitRHS. destruct (bd_value bind) eqn:Hv; go; try by apply runs_emitSend.
  all: apply runs_emitLocalOccurrence; unfold occurrencesOf; rewrite Hv; set_solver.
Qed.

Lemma runs_emitKept b bind fileInit : runs b bind (emitKept sn gs owner fileInit bind).
Proof.
  intros [t l] st'. unfold emitKept. destruct (bd_value bind); try (intros [= <-]; apply rtc_refl).
  destruct (negb _); [intros [= <-]; apply rtc_refl|]. intros ([v loc] & _ & E)%bind_Some. unfold try_consume in E.
  cbn [fst snd] in E. destruct (aliasMap t !! v) as [[[sym loc'] emitted]|] eqn:Ea; [|done]. cbn [mbind option_bind] in E.
  case_bool_decide; [injection E as <-; apply rtc_once; by econstructor|].
  apply bind_Some in E as ([] & _ & [= <-]); apply rtc_once; by eapply step_kept.
Qed.

Lemma runs_visitBinding types fileInit init b bind :
  runs b bind (fun st => visitBinding sn gs ty owner file c types fileInit init b st bind).
Proof.
  unfold visitBinding. destruct (isSkipped bind); [apply runs_emitKept|].
  apply runs_bind; [apply runs_emitLHS|apply runs_emitRHS].
Qed.

(** ** Blocks *)

(** One step in some binding of the block *)
Definition blockStep (b : nat) : relation state := fun st st' =>
  exists bb bind, cfg_blocks c !! b = Some bb /\ bind ∈ bb_exprs bb /\ step b bind st st'.

Definition visit (b : nat) : relation state := fun st st' =>
  exists bb, cfg_blocks c !! b = Some bb /\ rtc (blockStep b) (copyLocalsFromParents b bb st.1, st.2) st'.

Inductive visits : list nat -> relation state :=
| visits_nil st : visits [] st st
| visits_snoc bs b st st1 st2 : visits bs st st1 -> visit b st1 st2 -> visits (bs ++ [b]) st st2.

Lemma visitBlock_visit types fileInit init b st st' :
  visitBlock sn gs ty owner file c types fileInit init st b = Some st' -> visit b st st'.
Proof.
  intros (bb & Eb & E)%bind_Some. exists bb. split; [done|]. revert E. generalize (copyLocalsFromParents b bb st.1, st.2).
  assert (Hin : forall x, x ∈ bb_exprs bb -> x ∈ bb_exprs bb) by done. revert Hin.
  generalize (bb_exprs bb) at 1 3 as exprs.
  induction exprs as [|bind exprs IH]; intros Hin st0 E; [injection E as <-; apply rtc_refl|].
  apply bind_Some in E as (st1 & E1 & E). transitivity st1.
  - apply runs_visitBinding in E1. revert E1. apply rtc_subrel. intros x y Hs.
    exists bb, bind. split_and!; [done|apply Hin; left|done].
  - apply IH; [|done]. intros x Hx. apply Hin. by right.
Qed.

Lemma visits_foldM types fileInit init bs st st' :
  foldM (visitBlock sn gs ty owner file c types fileInit init) st bs = Some st' -> visits bs st st'.
Proof.
  revert st'. induction bs as [|b bs IH] using rev_ind; intros st' E; [injection E as <-; constructor|].
  rewrite foldM_app in E. apply bind_Some in E as (st1 & E1 & E). cbn [foldM] in E.
  apply bind_Some in E as (st2 & E2 & [= <-]). econstructor; [by apply IH|by eapply visitBlock_visit].
Qed.

(** What a traversal of the graph consists of: [t0] and [l0] after the declaration of the parameters, [t] and [l]
    after the visits of the blocks, [tail] the events for the aliases that are left *)
Record traversed (params : option (Z * list Expr)) (resolver : FieldResolver) (rels : RelationshipsMap)
    (t0 : Traversal) (l0 : Log) (aliases : AliasMap) (rels' : RelationshipsMap) (t : Traversal) (l : Log)
    (tail : list Event) (out : FieldResolver * state) : Prop := mk_traversed {
  td_start : start sn gs ty owner file params (newTraversal, mkLog [] rels) = Some (t0, l0);
  td_populate : populate gs unresolvedFields owner file c resolver (lg_relationships l0) = Some (aliases, (out.1, rels'));
  td_visits : exists keywords,
    visits (rev (forwardsTopoSort c)) (set_aliasMap aliases (set_keywordParameters keywords t0), logged (Relationships rels') l0) (t, l);
  td_tail : Forall2 (fun alias e => eventSymbol e = Some alias.1) (sortedAliases sortAliases (aliasMap t)) tail;
  td_events : lg_events out.2.2 = lg_events l ++ tail;
  td_out : out.2.1 = set_aliasMap ∅ t }.

Lemma emitAliases_log classInit todo t l t' l' : foldM (emitAlias gs classInit) (t, l) todo = Some (t', l') ->
  t' = t /\ exists tail, lg_events l' = lg_events l ++ tail /\ Forall2 (fun alias e => eventSymbol e = Some alias.1) todo tail.
Proof.
  revert l. induction todo as [|[sym loc] todo IH]; intros l E.
  { injection E as <- <-. split; [done|]. exists []. by rewrite app_nil_r. }
  apply bind_Some in E as ([t1 l1] & E1 & E). apply bind_Some in E1 as (isEnum & _ & E1). injection E1 as <- <-.
  apply IH in E as (-> & tail & -> & Ht). split; [done|]. eexists (_ :: tail).
  split; [unfold logged; cbn [lg_events fst snd]; by rewrite <- app_assoc|]. constructor; [by destruct isEnum|done].
Qed.

Lemma traverse_traversed params resolver rels out :
  traverse sn gs ty unresolvedFields sortAliases owner file c params resolver (mkLog [] rels) = Some out ->
  exists t0 l0 aliases rels' t l tail, traversed params resolver rels t0 l0 aliases rels' t l tail out.
Proof.
  rewrite traverse_parts. intros ([t0 l0] & E0 & E)%bind_Some. apply bind_Some in E as (t1 & E1 & E).
  apply bind_Some in E as ([aliases [resolver' rels']] & E2 & E). apply bind_Some in E as ([t' l'] & E3 & [= <-]).
  unfold finish in E3. cbn [emit record mbind option_bind fst snd logRecorder] in E3.
  apply bind_Some in E3 as (fileInit & _ & E3). apply bind_Some in E3 as (ownerName & _ & E3).
  apply bind_Some in E3 as (types & _ & E3). apply bind_Some in E3 as ([t l] & E4 & E3).
  apply bind_Some in E3 as (classInit & _ & E3). apply emitAliases_log in E3 as (-> & tail & El & Ht).
  exists t0, l0, aliases, rels', t, l, tail. split; try done. cbn [fst snd] in *.
  apply visits_foldM in E4. unfold keywords in E1. destruct params as [[method params]|].
  - apply bind_Some in E1 as (keywords & _ & [= <-]). by eexists.
  - injection E1 as <-. exists (keywordParameters t0).
    by replace (set_keywordParameters (keywordParameters t0) t0) with t0 by by destruct t0.
Qed.
End Run.
