(* ===== verification/ScipLocals.v ===== *)
(** * Local variables in the index

    The traversal of src/scip_indexer/SCIPIndexer.cc numbers the local variables of a method and
    decides which occurrence is the definition. This file shows that a number belongs to one variable
    or to one anonymous parameter, and that an assignment is the definition exactly where the variable
    has not been mentioned before, neither in the block nor on the way to it. *)

From S2P Require Import Prelude Pickler FileHash Files Locs Types NameTable NameText Symbols SymbolRefs Linearize.
From S2P Require Import Ast UIntSet Cfg CfgTopo CfgReads CfgArgs CfgFinalize CfgBuild.
From S2P Require Import ScipUtils ScipProto ScipGem ScipSymbolRef ScipState ScipFieldResolve ScipOccurrences.
From S2P Require Import ScipTraversal ScipSample ScipReplay ScipRun.

#[local] Open Scope Z_scope.

(** ** One occurrence *)

(** The variables known in a block *)
Definition known (t : Traversal) (b : nat) : gset nat := default ∅ (blockLocals t !! b).

(** What [classify] changes *)
Record classified (b v : nat) (lvalue : bool) (t : Traversal) (d : bool) (t' : Traversal) : Prop := mk_classified {
  cl_aliasMap : aliasMap t' = aliasMap t;
  cl_anonymous : anonymousParameters t' = anonymousParameters t;
  cl_locals : functionLocals t' = match functionLocals t !! v with
                                  | Some _ => functionLocals t
                                  | None => <[v := u32 (counter t + 1)]> (functionLocals t)
                                  end;
  cl_counter : counter t' = match functionLocals t !! v with Some _ => counter t | None => u32 (counter t + 1) end;
  cl_known : known t' b = {[v]} ∪ known t b;
  cl_others b' : b' <> b -> blockLocals t' !! b' = blockLocals t !! b';
  cl_definition : (v ∈ known t b -> is_Some (functionLocals t !! v)) -> d = lvalue && bool_decide (v ∉ known t b) }.

Lemma known_insertBlockLocal b v t : known (insertBlockLocal b v t) b = {[v]} ∪ known t b.
Proof. unfold known, insertBlockLocal, set_blockLocals, set_locals. cbn. by rewrite lookup_insert_eq. Qed.

Lemma classify_classified b v lvalue type t d t' : classify b v lvalue type t = (d, t') -> classified b v lvalue t d t'.
Proof.
  unfold classify. destruct (functionLocals t !! v) as [id|] eqn:Ef.
  - unfold inBlock. case_bool_decide as Hb; intros [= <- <-].
    + split; rewrite ?Ef; try done; [unfold known; set_solver|]. intros _. rewrite bool_decide_false; [by rewrite andb_false_r|].
      unfold known. naive_solver.
    + split; rewrite ?Ef; try done; [apply known_insertBlockLocal| |].
      * intros b' Hb'. by apply lookup_insert_ne.
      * intros _. rewrite bool_decide_true; [by rewrite andb_true_r|done].
  - cbn [addLocal]. intros [= <- <-].
    assert (H : classified b v lvalue t lvalue (addLocal b v t).2).
    { split; rewrite ?Ef; try done; [apply (known_insertBlockLocal b v t)| |].
      - intros b' Hb'. by apply lookup_insert_ne.
      - intros Hk. rewrite bool_decide_true; [by rewrite andb_true_r|]. intros (? & ?)%Hk. congruence. }
    destruct lvalue; [|done]. destruct H. by split.
Qed.

Section Numbers.
Context (sn : ScipNames) (gs : Program) (ty : TypeOps) (file : Z) (c : CFG).

Abbreviation state := (Traversal * Log)%type.

(** The graph has an occurrence of the variable there. *)
Definition occursAt (v : nat) (at_ : LocOffsets) : Prop :=
  exists b bb bind lvalue, cfg_blocks c !! b = Some bb /\ bind ∈ bb_exprs bb /\
    (mkLocalOccurrence v at_, lvalue) ∈ occurrencesOf bind.

(** What a number at a place in the log stands for *)
Definition attributed (declared : list AnonymousParameter) (t : Traversal) (id : Z) (loc : LocOffsets) : Prop :=
  (exists p, p ∈ declared /\ ap_id p = id /\ sourceAt gs file loc = sourceAt gs file (ap_loc p)) \/
  (exists v var at_, functionLocals t !! v = Some id /\ localData c v = Some var /\ isTemporary sn var = false /\
     occursAt v at_ /\ withoutColon gs file (lv_name var) at_ = Some loc).

Record numbered (declared : list AnonymousParameter) (st : state) : Prop := mk_numbered {
  nb_anonymous name p : anonymousParameters st.1 !! name = Some p -> p ∈ declared;
  nb_counter : counter st.1 = Z.of_nat (length declared + size (functionLocals st.1));
  nb_variable v id : functionLocals st.1 !! v = Some id -> is_Some (localData c v);
  nb_range v id : functionLocals st.1 !! v = Some id -> Z.of_nat (length declared) < id <= counter st.1;
  nb_inj v v' id : functionLocals st.1 !! v = Some id -> functionLocals st.1 !! v' = Some id -> v = v';
  nb_events e id loc : e ∈ lg_events st.2 -> eventLocal e = Some (id, loc) -> attributed declared st.1 id loc }.

Context (declared : list AnonymousParameter).
Context (Hfit : Z.of_nat (length declared + length (localVariables c)) < 2 ^ 32).

Lemma locals_size (m : gmap nat Z) : (forall v id, m !! v = Some id -> is_Some (localData c v)) ->
  (size m <= length (localVariables c))%nat.
Proof.
  intros Hm. rewrite <- size_dom, <- (size_set_seq (C := gset nat) 0). apply subseteq_size. intros v.
  rewrite elem_of_dom, elem_of_set_seq. intros (id & Hv). apply Hm in Hv. apply lookup_lt_is_Some in Hv. lia.
Qed.

Lemma attributed_mono t t' id loc : functionLocals t ⊆ functionLocals t' -> attributed declared t id loc -> attributed declared t' id loc.
Proof.
  intros Hsub [Hp|(v & var & at_ & Hv & Hrest)]; [by left|]. right. exists v, var, at_. split; [|done].
  by eapply lookup_weaken.
Qed.

Lemma next_number t l v : numbered declared (t, l) -> functionLocals t !! v = None -> is_Some (localData c v) ->
  u32 (counter t + 1) = counter t + 1.
Proof.
  intros [_ Hc Hv _ _ _] E Hvar. cbn [fst snd] in *.
  enough (size (<[v := 0%Z]> (functionLocals t)) <= length (localVariables c))%nat as Hs.
  { rewrite map_size_insert, E in Hs. apply Z.mod_small. lia. }
  apply locals_size. intros w id [(<- & _)|(_ & Hw)]%lookup_insert_Some; [done|by eapply Hv].
Qed.

(** A new occurrence, with the event that it is recorded as *)
Lemma numbered_classify b v lvalue t l d t' e :
  numbered declared (t, l) -> classified b v lvalue t d t' -> is_Some (localData c v) ->
  (forall id loc, eventLocal e = Some (id, loc) -> attributed declared t' id loc) ->
  numbered declared (t', logged e l).
Proof.
  intros Hn H Hvar Hev. pose proof (next_number _ _ v Hn) as Hnext. destruct Hn as [Ha Hc Hv Hr Hi He]. cbn [fst snd] in *.
  destruct H as [_ Hanon Hloc Hcnt _ _ _].
  destruct (functionLocals t !! v) as [id0|] eqn:E.
  { split; cbn [fst snd]; rewrite ?Hanon, ?Hloc, ?Hcnt; try done.
    intros e' id loc [He'|He'%list_elem_of_singleton]%elem_of_app Hl; [|subst; by apply Hev].
    eapply (attributed_mono t); [by rewrite Hloc|by eapply He]. }
  rewrite Hnext in Hcnt, Hloc by done. split; cbn [fst snd]; rewrite ?Hanon, ?Hcnt.
  - done.
  - rewrite Hloc, map_size_insert, E. lia.
  - intros w id. rewrite Hloc, lookup_insert_Some. intros [(<- & _)|(_ & Hw)]; [done|by eapply Hv].
  - intros w id. rewrite Hloc, lookup_insert_Some. intros [(<- & <-)|(_ & Hw)]; [lia|]. apply Hr in Hw. lia.
  - intros w w' id. rewrite Hloc, !lookup_insert_Some. intros [(<- & <-)|(_ & Hw)] [(<- & Hid)|(_ & Hw')]; try done.
    + apply Hr in Hw'. lia.
    + apply Hr in Hw. lia.
    + by eapply Hi.
  - intros e' id loc [He'|He'%list_elem_of_singleton]%elem_of_app Hl; [|subst; by apply Hev].
    eapply (attributed_mono t); [rewrite Hloc; by apply insert_subseteq|by eapply He].
Qed.

(** Changes of the other parts of the state, and other events *)
Lemma numbered_state t l t' : numbered declared (t, l) -> functionLocals t' = functionLocals t -> counter t' = counter t ->
  anonymousParameters t' = anonymousParameters t -> numbered declared (t', l).
Proof.
  intros [Ha Hc Hv Hr Hi He] Hf Hcnt Hanon. cbn [fst snd] in *.
  split; cbn [fst snd]; rewrite ?Hf, ?Hcnt, ?Hanon; try done.
  intros e id loc Hin Hl. eapply (attributed_mono t); [by rewrite Hf|by eapply He].
Qed.

Lemma numbered_event t l e : numbered declared (t, l) ->
  (forall id loc, eventLocal e = Some (id, loc) -> attributed declared t id loc) -> numbered declared (t, logged e l).
Proof.
  intros [Ha Hc Hv Hr Hi He] Hev. split; try done.
  intros e' id loc [He'|He'%list_elem_of_singleton]%elem_of_app Hl; [|subst]; naive_solver.
Qed.

Lemma event_not_local e : is_Some (eventSymbol e) -> eventLocal e = None.
Proof. by destruct e; intros [? ?]. Qed.

Lemma localEvent_local t id d loc role type id' loc' :
  eventLocal (localEvent ty t id d loc role type) = Some (id', loc') -> id' = id /\ loc' = loc.
Proof. unfold localEvent. destruct d; by intros [= -> ->]. Qed.

Lemma numbered_step b bb bind st st' : cfg_blocks c !! b = Some bb -> bind ∈ bb_exprs bb ->
  step sn gs ty file c b bind st st' -> numbered declared st -> numbered declared st'.
Proof.
  intros Hbb Hbind Hs Hn. destruct Hs.
  - apply numbered_event; [done|]. by rewrite event_not_local.
  - apply numbered_event; [done|]. intros id loc' [= <- <-]. left. exists p. split_and!; [|done|done].
    by eapply (nb_anonymous _ _ Hn).
  - by eapply numbered_state.
  - by eapply numbered_state.
  - apply numbered_event; [by eapply numbered_state|]. by rewrite event_not_local by by eexists.
  - apply classify_classified in H2. eapply (numbered_classify b v lvalue (consume v sym loc t)); [|done|done|].
    + by eapply numbered_state.
    + unfold symbolEvent. by destruct d.
  - apply classify_classified in H4. eapply numbered_classify; [done|done|by eexists|].
    intros id' loc' [-> ->]%localEvent_local. right. exists v, var, at_. split_and!; try done. by exists b, bb, bind, lvalue.
Qed.

Lemma numbered_visits bs st st' : visits sn gs ty file c bs st st' -> numbered declared st -> numbered declared st'.
Proof.
  induction 1 as [|bs b st st1 st2 Hvs IH (bb & Hbb & Hv)]; intros Hn; [done|]. specialize (IH Hn). destruct st1 as [t l].
  eapply (rtc_preserves (blockStep sn gs ty file c b)); [|exact Hv|by eapply numbered_state].
  intros x y (bb' & bind & Hbb' & Hbind & Hs). by eapply numbered_step.
Qed.
End Numbers.

(** ** The anonymous parameters *)

Section Declared.
Context (sn : ScipNames) (gs : Program) (ty : TypeOps) (owner file : Z).

(** The state after the declaration of some parameters *)
Record declares (declared : list AnonymousParameter) (t : Traversal) (l : Log) : Prop := mk_declares {
  dc_locals : functionLocals t = ∅;
  dc_blocks : blockLocals t = ∅;
  dc_counter : counter t = Z.of_nat (length declared);
  dc_ids : ap_id <$> declared = seqZ 1 (Z.of_nat (length declared));
  dc_anonymous name p : anonymousParameters t !! name = Some p -> p ∈ declared;
  dc_events e : e ∈ lg_events l -> exists p type, p ∈ declared /\ e = LocalDefinition (ap_id p) (ap_loc p) type }.

Lemma declares_snoc declared t l p anonymous type : declares declared t l ->
  ap_id p = Z.of_nat (length declared) + 1 ->
  (forall name q, anonymous !! name = Some q -> q = p \/ anonymousParameters t !! name = Some q) ->
  declares (declared ++ [p]) (set_anonymous anonymous (ap_id p) t) (logged (LocalDefinition (ap_id p) (ap_loc p) type) l).
Proof.
  intros [Hl Hb Hc Hi Ha He] Hp Hanon. split; try done.
  - rewrite length_app. cbn. lia.
  - rewrite fmap_app, Hi, length_app. cbn. rewrite Nat2Z.inj_add, seqZ_app by lia. f_equal. change (Z.of_nat 1) with 1.
    rewrite seqZ_cons by lia. cbn. by rewrite Hp, Z.add_comm.
  - intros name q [->|Hq]%Hanon; apply elem_of_app; [right; by left|left; by eapply Ha].
  - intros e [He'|He'%list_elem_of_singleton]%elem_of_app.
    + apply He in He' as (q & type' & Hq & ->). exists q, type'. set_solver.
    + exists p, type. set_solver.
Qed.

Lemma insertNames_lookup (names : list Z) (p q : AnonymousParameter) (name : Z) : forall m : gmap Z AnonymousParameter,
  fold_left (fun a name => <[name := p]> a) names m !! name = Some q -> q = p \/ m !! name = Some q.
Proof.
  induction names as [|n names IH]; intros m E; [by right|]. apply IH in E as [->|E]; [by left|].
  apply lookup_insert_Some in E as [(_ & ->)|(_ & ?)]; [by left|by right].
Qed.

Lemma defineAnonymousParameter_declares m declared t l pe t' l' : declares declared t l ->
  Z.of_nat (length declared) + 1 < 2 ^ 32 ->
  defineAnonymousParameter sn gs ty owner file m (t, l) pe = Some (t', l') ->
  exists declared', (length declared' <= length declared + 1)%nat /\ declares declared' t' l'.
Proof.
  intros Hd Hfit. destruct pe as [param expr]. cbn [defineAnonymousParameter fst snd].
  assert (Hsame : Some (t, l) = Some (t', l') -> exists declared', (length declared' <= length declared + 1)%nat /\ declares declared' t' l').
  { intros [= <- <-]. exists declared. split; [lia|done]. }
  destruct expr; try exact Hsame. intros (source & _ & E)%bind_Some. destruct source as [source|]; [|by apply Hsame].
  case_bool_decide; [by apply Hsame|]. destruct (_ && bool_decide (is_Some _)); [by apply Hsame|].
  set (p := mkAnonymousParameter (u32 (counter t + 1)) loc) in *. injection E as <- <-. exists (declared ++ [p]).
  split; [by rewrite length_app|]. apply (declares_snoc declared t l p); [done| |intros name' q; apply insertNames_lookup].
  cbn [ap_id p]. rewrite (dc_counter _ _ _ Hd). apply Z.mod_small. lia.
Qed.

Lemma defineAll_declares m pes : forall declared t l t' l', declares declared t l ->
  Z.of_nat (length declared + length pes) < 2 ^ 32 ->
  foldM (defineAnonymousParameter sn gs ty owner file m) (t, l) pes = Some (t', l') ->
  exists declared', (length declared' <= length declared + length pes)%nat /\ declares declared' t' l'.
Proof.
  induction pes as [|pe pes IH]; intros declared t l t' l' Hd Hfit; cbn [foldM length] in *.
  { intros [= <- <-]. exists declared. split; [lia|done]. }
  intros ([t1 l1] & E1 & E)%bind_Some.
  apply (defineAnonymousParameter_declares m declared) in E1 as (d1 & Hl1 & Hd1); [|done|lia].
  apply (IH d1) in E as (d2 & Hl2 & Hd2); [|done|lia]. exists d2. split; [lia|done].
Qed.

Lemma start_declares params rels t l :
  Z.of_nat (length (default [] (snd <$> params))) < 2 ^ 32 ->
  start sn gs ty owner file params (newTraversal, mkLog [] rels) = Some (t, l) ->
  exists declared, (length declared <= length (default [] (snd <$> params)))%nat /\ declares declared t l.
Proof.
  intros Hfit. assert (H0 : declares [] newTraversal (mkLog [] rels)).
  { split; try done. intros e He. by apply not_elem_of_nil in He. }
  destruct params as [[method params]|]; [|intros [= <- <-]; by exists []]. cbn [start default from_option id fmap option_fmap option_map snd] in *.
  intros (m & _ & E)%bind_Some. pose proof (length_zip (me_parameters m) params) as Hlen.
  destruct (defineAll_declares m (zip (me_parameters m) params) [] _ _ t l H0) as (declared & Hl & Hd).
  - rewrite Hlen. cbn -[Z.pow]. lia.
  - done.
  - exists declared. split; [rewrite Hlen in Hl; cbn in Hl; lia|done].
Qed.
End Declared.

(** ** Numbers *)

Section LocalNumbers.
Context (sn : ScipNames) (gs : Program) (ty : TypeOps) (unresolvedFields : gmap Z (gset Z)).
Context (sortAliases : list (GenericSymbolRef * LocOffsets) -> list (GenericSymbolRef * LocOffsets) * bool).
Context (owner file : Z) (c : CFG).

Lemma declares_numbered declared t l keywords aliases rels : declares declared t l ->
  numbered sn gs file c declared (set_aliasMap aliases (set_keywordParameters keywords t), logged (Relationships rels) l).
Proof.
  intros [Hl Hb Hc Hi Ha He]. split; cbn -[u32]; rewrite ?Hl; try done.
  - rewrite map_size_empty, Nat.add_0_r. done.
  - intros e id loc [He'|He'%list_elem_of_singleton]%elem_of_app Hloc; [|by subst].
    apply He in He' as (p & type & Hp & ->). injection Hloc as <- <-. left. by exists p.
Qed.

Lemma traverse_numbered params resolver rels out t0 l0 aliases rels' t l tail :
  Z.of_nat (length (default [] (snd <$> params)) + length (localVariables c)) < 2 ^ 32 ->
  traversed sn gs ty unresolvedFields sortAliases owner file c params resolver rels t0 l0 aliases rels' t l tail out ->
  exists declared, declares declared t0 l0 /\ numbered sn gs file c declared (t, l).
Proof.
  intros Hfit [Hs _ (keywords & Hv) _ _ _]. apply start_declares in Hs as (declared & Hlen & Hd); [|lia].
  exists declared. split; [done|]. eapply numbered_visits; [|exact Hv|by apply declares_numbered].
  lia.
Qed.

(** C19: the numbers of locals in the calls of a traversal are unambiguous, when the parameters and variables of the
    method are fewer than 2^32: anonymous parameters are numbered 1, 2, ..., variables have other numbers, two
    variables never share one; every call about a local is either for an anonymous parameter, at a place where the
    source has the text of its declaration, or for the variable with that number, which is not a temporary, at a
    place where the graph mentions this variable (the colon of a label left out). *)
Theorem local_numbers params resolver rels resolver' t l :
  Z.of_nat (length (default [] (snd <$> params)) + length (localVariables c)) < 2 ^ 32 ->
  traverse sn gs ty unresolvedFields sortAliases owner file c params resolver (mkLog [] rels) = Some (resolver', (t, l)) ->
  exists declared,
    ap_id <$> declared = seqZ 1 (Z.of_nat (length declared)) /\
    (forall v id, functionLocals t !! v = Some id -> Z.of_nat (length declared) < id) /\
    (forall v v' id, functionLocals t !! v = Some id -> functionLocals t !! v' = Some id -> v = v') /\
    (forall e id loc, e ∈ lg_events l -> eventLocal e = Some (id, loc) -> attributed sn gs file c declared t id loc).
Proof.
  intros Hfit (t0 & l0 & aliases & rels' & t1 & l1 & tail & Ht)%traverse_traversed.
  destruct (traverse_numbered _ _ _ _ _ _ _ _ _ _ _ Hfit Ht) as (declared & Hd & Hn).
  destruct Ht as [_ _ _ Htail Hev Hout]. cbn [fst snd] in *. subst t. exists declared. split_and!.
  - apply Hd.
  - intros v id Hv. by apply (nb_range _ _ _ _ _ _ Hn) in Hv as [? _].
  - apply Hn.
  - intros e id loc He Hl. rewrite Hev in He. apply elem_of_app in He as [He|He]; [by eapply (nb_events _ _ _ _ _ _ Hn)|].
    apply list_elem_of_lookup in He as (i & Hi). eapply Forall2_lookup_r in Htail as (alias & _ & Hs); [|exact Hi].
    by rewrite event_not_local in Hl.
Qed.
End LocalNumbers.

(** The anonymous parameter of the sample is number one, and [x] is number two. *)
Lemma local_numbers_witness : exists resolver t l, traverseSample (mkLog [] ∅) = Some (resolver, (t, l)) /\
  functionLocals t !! 1%nat = Some 2 /\
  forall v, functionLocals t !! v = Some 2 -> v = 1%nat.
Proof.
  destruct (traverseSample (mkLog [] ∅)) as [[resolver [t l]]|] eqn:E; [|vm_compute in E; discriminate].
  assert (H1 : functionLocals t !! 1%nat = Some 2) by (vm_compute in E; injection E as <- <- <-; reflexivity).
  exists resolver, t, l. split; [reflexivity|]. split; [exact H1|].
  destruct (local_numbers indexedNames indexedProgram indexedTypes ∅ keepOrder indexedOwner 1 indexedGraph (Some (1, indexedParams))
    indexedResolver ∅ resolver t l) as (declared & _ & _ & Hinj & _); [vm_compute; reflexivity|exact E|].
  intros v Hv. exact (Hinj v 1%nat 2 Hv H1).
Defined.
