(* ===== verification/ScipDefinitions.v ===== *)
(** * Which assignment is the definition

    In the index of a file the first assignment to a local variable is its definition, and the others
    are references. A traversal of src/scip_indexer/SCIPIndexer.cc keeps for every block the set of the
    variables that are known there. This file relates these sets to the calls that are made: an
    assignment is recorded as a definition exactly if neither an earlier call in its block nor a call
    in a block on the way to it has been about the variable. *)

From S2P Require Import Prelude Pickler FileHash Files Locs Types NameTable NameText Symbols SymbolRefs Linearize.
From S2P Require Import Ast UIntSet Cfg CfgTopo CfgReads CfgArgs CfgFinalize CfgBuild.
From S2P Require Import ScipUtils ScipProto ScipGem ScipSymbolRef ScipState ScipFieldResolve ScipOccurrences.
From S2P Require Import ScipTraversal ScipSample ScipReplay ScipRun ScipLocals.

#[local] Open Scope Z_scope.

(** Some event is about the local with the number. *)
Definition mentioned (id : Z) (es : list Event) : Prop := exists e loc, e ∈ es /\ eventLocal e = Some (id, loc).

(** The local that an event assigns to *)
Definition writes (e : Event) : option Z :=
  match e with
  | LocalDefinition id _ _ => Some id
  | LocalReference id _ _ roles => if roles =? WriteAccess then Some id else None
  | _ => None
  end.

Definition defines (e : Event) : bool := match e with LocalDefinition _ _ _ => true | _ => false end.

Lemma mentioned_nil id : ~ mentioned id [].
Proof. intros (e & loc & He & _). by apply not_elem_of_nil in He. Qed.

Lemma mentioned_snoc id es e : mentioned id (es ++ [e]) <-> mentioned id es \/ fst <$> eventLocal e = Some id.
Proof.
  unfold mentioned. split.
  - intros (e' & loc & [He|He%list_elem_of_singleton]%elem_of_app & Hl); [naive_solver|]. subst. right. by rewrite Hl.
  - intros [(e' & loc & He & Hl)|Hl]; [set_solver|]. destruct (eventLocal e) as [[id' loc]|] eqn:E; [|done].
    injection Hl as ->. exists e, loc. set_solver.
Qed.

Section Definitions.
Context (sn : ScipNames) (gs : Program) (ty : TypeOps) (file : Z) (c : CFG).
Context (declared : list AnonymousParameter).
Context (Hids : ap_id <$> declared = seqZ 1 (Z.of_nat (length declared))).
Context (Hfit : Z.of_nat (length declared + length (localVariables c)) < 2 ^ 32).

Abbreviation state := (Traversal * Log)%type.
Abbreviation numbered := (numbered sn gs file c declared).

(** ** One block *)

(** The situation in the block [b] after the events [es]; it started in [t0], [l0]. *)
Record inside (b : nat) (t0 : Traversal) (l0 : Log) (es : list Event) (st : state) : Prop := mk_inside {
  is_events : lg_events st.2 = lg_events l0 ++ es;
  is_numbered : numbered st;
  is_aliases v : aliasMap st.1 !! v = None <-> aliasMap t0 !! v = None;
  is_locals : functionLocals t0 ⊆ functionLocals st.1;
  is_others b' : b' <> b -> blockLocals st.1 !! b' = blockLocals t0 !! b';
  is_known b' v : v ∈ known st.1 b' -> is_Some (functionLocals st.1 !! v);
  is_here v : aliasMap t0 !! v = None ->
    (v ∈ known st.1 b) <-> (v ∈ known t0 b \/ exists id, functionLocals st.1 !! v = Some id /\ mentioned id es);
  is_decided es1 e es2 id : es = es1 ++ e :: es2 -> writes e = Some id ->
    exists v, aliasMap t0 !! v = None /\ functionLocals st.1 !! v = Some id /\
      ((defines e = true) <-> (v ∉ known t0 b) /\ ~ mentioned id es1) }.

(** A new event at the end *)
Lemma snoc_split {A} (es es1 es2 : list A) e e' : es ++ [e] = es1 ++ e' :: es2 ->
  (es1 = es /\ e' = e /\ es2 = []) \/ exists es2', es2 = es2' ++ [e] /\ es = es1 ++ e' :: es2'.
Proof.
  destruct es2 as [|x es2 _] using rev_ind; intros E.
  - apply app_inj_tail in E as [<- <-]. by left.
  - right. exists es2. rewrite app_comm_cons, app_assoc in E. by apply app_inj_tail in E as [-> ->].
Qed.

(** Events that are not about variables of the method *)
Lemma inside_event b t0 l0 es t l e : inside b t0 l0 es (t, l) -> numbered (t, logged e l) -> writes e = None ->
  (forall id v, fst <$> eventLocal e = Some id -> functionLocals t !! v <> Some id) ->
  inside b t0 l0 (es ++ [e]) (t, logged e l).
Proof.
  intros [He Hn Ha Hl Ho Hk Hh Hd] Hn' Hw Hm. cbn [fst snd] in *. split; cbn [fst snd]; try done.
  - unfold logged. cbn. by rewrite He, app_assoc.
  - intros v Hv. rewrite (Hh v Hv). setoid_rewrite mentioned_snoc. naive_solver.
  - intros es1 e' es2 id [(-> & -> & ->)|(es2' & -> & ->)]%snoc_split Hw'; [congruence|]. by eapply Hd.
Qed.

(** Changes of the aliases that keep the variables *)
Lemma inside_state b t0 l0 es t l t' : inside b t0 l0 es (t, l) -> functionLocals t' = functionLocals t ->
  counter t' = counter t -> anonymousParameters t' = anonymousParameters t -> blockLocals t' = blockLocals t ->
  (forall v, aliasMap t' !! v = None <-> aliasMap t !! v = None) -> inside b t0 l0 es (t', l).
Proof.
  intros [He Hn Ha Hl Ho Hk Hh Hd] Hf Hc Han Hb Hal. cbn [fst snd] in *.
  split; cbn [fst snd]; unfold known in *; rewrite ?Hf, ?Hb; try done.
  - by eapply numbered_state.
  - intros v. rewrite Hal. apply Ha.
Qed.

Lemma declared_ids p : p ∈ declared -> 1 <= ap_id p <= Z.of_nat (length declared).
Proof.
  intros Hp%(list_elem_of_fmap_2 ap_id). rewrite Hids in Hp. apply elem_of_seqZ in Hp. lia.
Qed.

Lemma mentioned_bound t l id : numbered (t, l) -> mentioned id (lg_events l) -> id <= counter t.
Proof.
  intros Hn (e & loc & He & Hl). destruct (nb_events _ _ _ _ _ _ Hn e id loc He Hl) as [(p & Hp & <- & _)|(v & var & at_ & Hv & _)].
  - apply declared_ids in Hp. pose proof (nb_counter _ _ _ _ _ _ Hn) as Hc. cbn in Hc. lia.
  - by apply (nb_range _ _ _ _ _ _ Hn) in Hv as [_ Hv].
Qed.

(** An occurrence of a variable: [e] is a symbol event for an alias, or the event for the local. *)
Definition eventOf (v : nat) (alias lvalue d : bool) (t' : Traversal) (e : Event) : Prop :=
  if alias then eventLocal e = None /\ writes e = None
  else exists id, functionLocals t' !! v = Some id /\ fst <$> eventLocal e = Some id /\
         (writes e = None \/ writes e = Some id /\ lvalue = true /\ defines e = d).

Lemma eventOf_other v alias lvalue d t' l e w id : numbered (t', l) -> eventOf v alias lvalue d t' e -> w <> v ->
  functionLocals t' !! w = Some id -> fst <$> eventLocal e <> Some id.
Proof.
  intros Hn He Hw Hf E. destruct alias; [destruct He as [He _]; by rewrite He in E|].
  destruct He as (id' & Hv & Hl & _). rewrite Hl in E. injection E as ->. by destruct Hw; eapply (nb_inj _ _ _ _ _ _ Hn).
Qed.

Lemma classified_locals b v lvalue t d t' w : classified b v lvalue t d t' -> w <> v ->
  functionLocals t' !! w = functionLocals t !! w.
Proof.
  intros H Hw. rewrite (cl_locals _ _ _ _ _ _ H). destruct (functionLocals t !! v); [done|]. by apply lookup_insert_ne.
Qed.

Lemma classified_sub b v lvalue t d t' : classified b v lvalue t d t' -> functionLocals t ⊆ functionLocals t'.
Proof.
  intros H. rewrite (cl_locals _ _ _ _ _ _ H). destruct (functionLocals t !! v) eqn:E; [done|]. by apply insert_subseteq.
Qed.

(** The decision for the new event *)
Lemma inside_decides b t0 l0 es t l v lvalue d t' id : inside b t0 l0 es (t, l) -> classified b v lvalue t d t' ->
  is_Some (localData c v) -> aliasMap t0 !! v = None -> lvalue = true -> functionLocals t' !! v = Some id ->
  (d = true) <-> (v ∉ known t0 b) /\ ~ mentioned id es.
Proof.
  intros [He Hn Ha Hl Ho Hk Hh Hd] Hc Hvar Hal -> Hid. cbn [fst snd] in *.
  rewrite (cl_definition _ _ _ _ _ _ Hc) by by intros; eapply Hk. cbn. rewrite bool_decide_eq_true, (Hh v Hal).
  rewrite (cl_locals _ _ _ _ _ _ Hc) in Hid. destruct (functionLocals t !! v) as [id'|] eqn:E.
  - rewrite E in Hid. injection Hid as ->. naive_solver.
  - rewrite lookup_insert_eq, (next_number sn gs file c declared Hfit t l v) in Hid by done. injection Hid as <-.
    enough (~ mentioned (counter t + 1) es) by naive_solver.
    intros (e & loc & Hin & Hev). enough (counter t + 1 <= counter t) by lia.
    apply (mentioned_bound t l); [done|]. exists e, loc. split; [|done]. rewrite He. set_solver.
Qed.

Lemma inside_classify b t0 l0 es t l v lvalue d t' e : inside b t0 l0 es (t, l) -> classified b v lvalue t d t' ->
  is_Some (localData c v) -> numbered (t', logged e l) ->
  eventOf v (bool_decide (aliasMap t0 !! v <> None)) lvalue d t' e ->
  inside b t0 l0 (es ++ [e]) (t', logged e l).
Proof.
  intros Hi Hc Hvar Hn' Hev. pose proof Hi as [He Hn Ha Hl Ho Hk Hh Hd]. cbn [fst snd] in *.
  pose proof (classified_sub _ _ _ _ _ _ Hc) as Hsub.
  split; cbn [fst snd].
  - unfold logged. cbn. by rewrite He, app_assoc.
  - done.
  - by rewrite (cl_aliasMap _ _ _ _ _ _ Hc).
  - by etrans.
  - intros b' Hb. rewrite (cl_others _ _ _ _ _ _ Hc) by done. by apply Ho.
  - intros b' w. destruct (decide (b' = b)) as [->|Hb].
    + rewrite (cl_known _ _ _ _ _ _ Hc), elem_of_union, elem_of_singleton. intros [->|Hw].
      * rewrite (cl_locals _ _ _ _ _ _ Hc). destruct (functionLocals t !! v) eqn:E; [by eexists|]. by rewrite lookup_insert_eq.
      * apply Hk in Hw as (id & Hw). exists id. by eapply lookup_weaken.
    + unfold known. rewrite (cl_others _ _ _ _ _ _ Hc) by done. intros (id & Hw)%Hk. exists id. by eapply lookup_weaken.
  - intros w Hw. rewrite (cl_known _ _ _ _ _ _ Hc), elem_of_union, elem_of_singleton, (Hh w Hw). setoid_rewrite mentioned_snoc.
    destruct (decide (w = v)) as [->|Hne].
    + split; [intros _|by left]. right. rewrite bool_decide_false in Hev by naive_solver. naive_solver.
    + rewrite (classified_locals _ _ _ _ _ _ w Hc Hne). split; [naive_solver|].
      intros [Hk0|(id & Hf & [Hm|Hm])]; [naive_solver|naive_solver|]. exfalso.
      eapply eventOf_other; [exact Hn'|exact Hev|exact Hne| |exact Hm]. by rewrite (classified_locals _ _ _ _ _ _ w Hc Hne).
  - intros es1 e' es2 id [(-> & -> & ->)|(es2' & -> & ->)]%snoc_split Hw.
    + unfold eventOf in Hev. case_bool_decide as Hal; [destruct Hev; congruence|].
      destruct Hev as (id' & Hid & _ & [Hno|(Hw' & -> & Hdef)]); [congruence|]. exists v. split; [done|].
      assert (id' = id) as -> by congruence. split; [done|]. rewrite Hdef. by eapply inside_decides.
    + destruct (Hd es1 e' es2' id eq_refl Hw) as (w & Hal & Hf & Hdec). exists w. split_and!; [done|by eapply lookup_weaken|done].
Qed.

Lemma anonymous_other t l name p v : numbered (t, l) -> anonymousParameters t !! name = Some p ->
  functionLocals t !! v <> Some (ap_id p).
Proof.
  intros Hn Hp Hv. apply (nb_anonymous _ _ _ _ _ _ Hn) in Hp. apply declared_ids in Hp.
  apply (nb_range _ _ _ _ _ _ Hn) in Hv. lia.
Qed.

Lemma consume_aliases v sym loc emitted t w : aliasMap t !! v = Some (sym, loc, emitted) ->
  aliasMap (consume v sym loc t) !! w = None <-> aliasMap t !! w = None.
Proof.
  intros Hv. cbn. destruct (decide (v = w)) as [<-|Hne]; [by rewrite lookup_insert_eq, Hv|by rewrite lookup_insert_ne].
Qed.

Lemma inside_symbol b t0 l0 es t l e : inside b t0 l0 es (t, l) -> numbered (t, logged e l) -> is_Some (eventSymbol e) ->
  inside b t0 l0 (es ++ [e]) (t, logged e l).
Proof.
  intros Hi Hn He. apply inside_event; [done|done|by destruct e; destruct He|]. by rewrite event_not_local.
Qed.

Lemma inside_step b t0 l0 es st st' : blockStep sn gs ty file c b st st' -> inside b t0 l0 es st ->
  exists es', inside b t0 l0 es' st'.
Proof.
  intros (bb & bind & Hbb & Hbind & Hs) Hi.
  pose proof (numbered_step sn gs ty file c declared Hfit b bb bind st st' Hbb Hbind Hs (is_numbered _ _ _ _ _ Hi)) as Hn.
  destruct Hs as [t l e He|t l name p loc Hp Hsrc|t l defs|t l v sym loc emitted Hv Ht|t l v sym loc emitted e Hv He
    |t l v at_ lvalue type sym loc emitted d t' rhs role Ho Hvar Hv Hc|t l v var at_ lvalue type d t' id at' Ho Hvar Hv Htmp Hw Hc Hid].
  - eexists. by apply inside_symbol.
  - eexists. apply inside_event; [exact Hi|done|done|]. intros id v [= <-]. eapply anonymous_other; [|done].
    exact (is_numbered _ _ _ _ _ Hi).
  - exists es. by eapply inside_state.
  - exists es. eapply inside_state; try done. intros w. by eapply consume_aliases.
  - eexists. apply inside_symbol; [|done|by eexists]. eapply inside_state; try done. intros w. by eapply consume_aliases.
  - apply classify_classified in Hc. eexists. eapply inside_classify; [|exact Hc|done|done|].
    + eapply inside_state; try done. intros w. by eapply consume_aliases.
    + rewrite bool_decide_true; [unfold symbolEvent; by destruct d|]. rewrite <- (is_aliases _ _ _ _ _ Hi). cbn. by rewrite Hv.
  - apply classify_classified in Hc. eexists. eapply inside_classify; [exact Hi|exact Hc|by eexists|done|].
    rewrite bool_decide_false; [|rewrite <- (is_aliases _ _ _ _ _ Hi); naive_solver]. exists id. split; [done|].
    pose proof (cl_definition _ _ _ _ _ _ Hc (is_known _ _ _ _ _ Hi b v)) as Hd.
    unfold localEvent. destruct d; [|by destruct lvalue; cbn; eauto].
    destruct lvalue; [cbn; eauto|done].
Qed.

Lemma inside_block b t0 l0 st : rtc (blockStep sn gs ty file c b) (t0, l0) st -> numbered (t0, l0) ->
  (forall b' v, v ∈ known t0 b' -> is_Some (functionLocals t0 !! v)) -> exists es, inside b t0 l0 es st.
Proof.
  intros Hs Hn Hk. apply (rtc_preserves _ (fun st => exists es, inside b t0 l0 es st) _ _) in Hs; [done| |].
  - intros x y Hxy (es & Hes). by eapply inside_step.
  - exists []. split; try done; [by rewrite app_nil_r| |].
    + intros v Hv. split; [by left|]. intros [?|(id & _ & []%mentioned_nil)]. done.
    + intros es1 e es2 id Hes. by apply app_cons_not_nil in Hes.
Qed.

(** ** The whole graph *)

Context (order : list nat) (Hnodup : NoDup order).

(** [p] is a predecessor of [b] that is visited before it. *)
Definition edge : relation nat := fun p b =>
  exists i j bb, (i < j)%nat /\ order !! i = Some p /\ order !! j = Some b /\ cfg_blocks c !! b = Some bb /\ p ∈ bb_backEdges bb.

(** A call about the local in [b] or in a block from which it is reached *)
Definition mentionedUpTo (segments : list (list Event)) (b : nat) (id : Z) : Prop :=
  exists i b0 es, order !! i = Some b0 /\ segments !! i = Some es /\ rtc edge b0 b /\ mentioned id es.

(** The assignments of the block at position [j] *)
Definition decided (segments : list (list Event)) (j : nat) : Prop :=
  forall b es1 e es2 id, order !! j = Some b -> segments !! j = Some (es1 ++ e :: es2) -> writes e = Some id ->
    (defines e = true) <-> ~ mentioned id es1 /\ ~ exists p, edge p b /\ mentionedUpTo segments p id.

(** After the visits of the first blocks of the order *)
Record visited (l0 : Log) (segments : list (list Event)) (st : state) : Prop := mk_visited {
  vs_events : lg_events st.2 = lg_events l0 ++ concat segments;
  vs_numbered : numbered st;
  vs_blocks b : is_Some (blockLocals st.1 !! b) -> exists i, order !! i = Some b /\ (i < length segments)%nat;
  vs_known b v : v ∈ known st.1 b -> is_Some (functionLocals st.1 !! v);
  vs_upTo i b v : order !! i = Some b -> (i < length segments)%nat -> aliasMap st.1 !! v = None ->
    (v ∈ known st.1 b) <-> (exists id, functionLocals st.1 !! v = Some id /\ mentionedUpTo segments b id);
  vs_decided j : (j < length segments)%nat -> decided segments j }.

Lemma edge_before p b j : edge p b -> order !! j = Some b -> exists i, (i < j)%nat /\ order !! i = Some p.
Proof.
  intros (i & j' & bb & Hlt & Hi & Hj' & _) Hj. exists i. split; [|done].
  by rewrite (NoDup_lookup order j j' b Hnodup Hj Hj').
Qed.

Lemma edges_before b0 b j : rtc edge b0 b -> order !! j = Some b -> exists i, (i <= j)%nat /\ order !! i = Some b0.
Proof.
  intros Hr. revert j. induction Hr as [b|b0 p b He Hr IH]; intros j Hj; [by exists j|].
  destruct (IH j Hj) as (i & Hij & Hi). destruct (edge_before _ _ _ He Hi) as (i' & Hi' & Hp). exists i'. split; [lia|done].
Qed.

(** A segment more says nothing new about the blocks before it. *)
Lemma mentionedUpTo_snoc segments es b i id : order !! i = Some b -> (i < length segments)%nat ->
  mentionedUpTo (segments ++ [es]) b id <-> mentionedUpTo segments b id.
Proof.
  intros Hi Hlen. split; intros (k & b0 & es0 & Hk & Hes & Hr & Hm); exists k, b0, es0; (split_and!; [done| |done|done]).
  - destruct (edges_before _ _ _ Hr Hi) as (k' & Hk' & Hb0). rewrite (NoDup_lookup order k k' b0 Hnodup Hk Hb0) in Hes |- *.
    by rewrite lookup_app_l in Hes by lia.
  - by apply lookup_app_l_Some.
Qed.

Lemma parents_snoc segments es b j id : order !! j = Some b -> (j <= length segments)%nat ->
  (exists p, edge p b /\ mentionedUpTo (segments ++ [es]) p id) <-> (exists p, edge p b /\ mentionedUpTo segments p id).
Proof.
  intros Hb Hj. split; intros (p & He & Hm); exists p; (split; [done|]);
    destruct (edge_before _ _ _ He Hb) as (i & Hij & Hi); apply (mentionedUpTo_snoc segments es p i); done || lia.
Qed.

Lemma decided_snoc segments es j : (j < length segments)%nat -> decided segments j -> decided (segments ++ [es]) j.
Proof.
  intros Hj Hd b es1 e es2 id Hb Hes Hw. rewrite lookup_app_l in Hes by done.
  rewrite (Hd b es1 e es2 id Hb Hes Hw), (parents_snoc segments es b j id Hb) by lia. done.
Qed.

(** What is known up to the block that has been visited last *)
Lemma mentionedUpTo_last segments es b id : order !! length segments = Some b ->
  mentionedUpTo (segments ++ [es]) b id <-> mentioned id es \/ exists p, edge p b /\ mentionedUpTo segments p id.
Proof.
  intros Hb. split.
  - intros (i & b0 & es0 & Hi & Hes & Hr & Hm). destruct (rtc_inv_r _ _ Hr) as [->|(p & Hp & He)].
    + left. assert (i = length segments) as -> by by eapply NoDup_lookup. rewrite lookup_app_r, Nat.sub_diag in Hes by lia.
      by injection Hes as ->.
    + right. exists p. split; [done|]. destruct (edge_before _ _ _ He Hb) as (k & Hk & Hpk).
      apply (mentionedUpTo_snoc segments es p k); [done|done|]. by exists i, b0, es0.
  - intros [Hm|(p & He & (i & b0 & es0 & Hi & Hes & Hr & Hm))].
    + exists (length segments), b, es. split_and!; [done|by rewrite lookup_app_r, Nat.sub_diag by lia|done|done].
    + exists i, b0, es0. split_and!; [done|by apply lookup_app_l_Some| |done]. by eapply rtc_r.
Qed.

Lemma mentionedUpTo_log l0 segments st b id : visited l0 segments st -> mentionedUpTo segments b id -> mentioned id (lg_events st.2).
Proof.
  intros Hv (i & b0 & es & _ & Hes & _ & (e & loc & He & Hl)). exists e, loc. split; [|done]. rewrite (vs_events _ _ _ Hv).
  apply elem_of_app. right. apply list_elem_of_In, in_concat. exists es.
  rewrite <- !list_elem_of_In. split; [by eapply list_elem_of_lookup_2|done].
Qed.

(** A number that occurs in the log has been given to its variable before. *)
Lemma mentioned_old t l t' l' v id : numbered (t, l) -> numbered (t', l') -> functionLocals t ⊆ functionLocals t' ->
  functionLocals t' !! v = Some id -> mentioned id (lg_events l) -> functionLocals t !! v = Some id.
Proof.
  intros Hn Hn' Hsub Hv (e & loc & He & Hl).
  destruct (nb_events _ _ _ _ _ _ Hn e id loc He Hl) as [(p & Hp & <- & _)|(w & var & at_ & Hw & _)].
  - apply declared_ids in Hp. apply (nb_range _ _ _ _ _ _ Hn') in Hv. lia.
  - assert (w = v) as ->; [|done]. eapply (nb_inj _ _ _ _ _ _ Hn'); [by eapply lookup_weaken|done].
Qed.

Lemma known_copied b bb t : known (copyLocalsFromParents b bb t) b = ⋃ ((fun p => known t p) <$> bb_backEdges bb).
Proof. unfold known, copyLocalsFromParents. cbn. by rewrite lookup_insert_eq. Qed.

(** The variables known at the beginning of a block *)
Lemma visited_parents l0 segments t l b bb v : visited l0 segments (t, l) -> order !! length segments = Some b ->
  cfg_blocks c !! b = Some bb -> aliasMap t !! v = None ->
  (v ∈ known (copyLocalsFromParents b bb t) b) <->
  (exists id, functionLocals t !! v = Some id /\ exists p, edge p b /\ mentionedUpTo segments p id).
Proof.
  intros Hv Hb Hbb Ha. rewrite known_copied, elem_of_union_list. setoid_rewrite list_elem_of_fmap. split.
  - intros (X & (p & -> & Hp) & HX). destruct (vs_blocks _ _ _ Hv p) as (i & Hi & Hlen).
    { unfold known in HX. destruct (blockLocals t !! p) eqn:E; [|set_solver]. cbn. by rewrite E. }
    apply (vs_upTo _ _ _ Hv i p v) in HX as (id & Hid & Hm); [|done|done|done]. exists id. split; [done|]. exists p.
    split; [|done]. by exists i, (length segments), bb.
  - intros (id & Hid & p & He & Hm). exists (known t p). destruct (edge_before _ _ _ He Hb) as (i & Hlt & Hi). split.
    + exists p. split; [done|]. destruct He as (? & ? & bb' & _ & _ & _ & Hbb' & Hp). by simplify_eq.
    + apply (vs_upTo _ _ _ Hv i p v); [done|done|done|]. by exists id.
Qed.

(** The visit of the next block *)
Section Visit.
Context (l0 : Log) (segments : list (list Event)) (t : Traversal) (l : Log) (b : nat) (bb : BasicBlock).
Context (Hv : visited l0 segments (t, l)) (Hb : order !! length segments = Some b) (Hbb : cfg_blocks c !! b = Some bb).
Context (es : list Event) (t' : Traversal) (l' : Log).
Context (Hi : inside b (copyLocalsFromParents b bb t) l es (t', l')).

Lemma visit_ne i b' : order !! i = Some b' -> (i < length segments)%nat -> b' <> b.
Proof. intros Hi' Hlt ->. assert (i = length segments) by by eapply NoDup_lookup. lia. Qed.

Lemma visit_old v id b' : functionLocals t' !! v = Some id -> mentionedUpTo segments b' id -> functionLocals t !! v = Some id.
Proof.
  intros Hf Hm. apply (mentionedUpTo_log _ _ _ _ _ Hv) in Hm.
  eapply (mentioned_old t l t' l'); [apply Hv|apply Hi|apply (is_locals _ _ _ _ _ Hi)|done|done].
Qed.

Lemma visit_parents v : aliasMap t !! v = None -> (v ∈ known (copyLocalsFromParents b bb t) b) <->
  (exists id, functionLocals t' !! v = Some id /\ exists p, edge p b /\ mentionedUpTo segments p id).
Proof.
  intros Ha. rewrite (visited_parents l0 segments t l b bb v) by done.
  split; intros (id & Hf & p & Hp & Hm); exists id; (split; [|by exists p]); [|by eapply visit_old].
  eapply lookup_weaken; [exact Hf|apply (is_locals _ _ _ _ _ Hi)].
Qed.

Lemma visit_elsewhere b' : b' <> b -> blockLocals t' !! b' = blockLocals t !! b'.
Proof. intros Hne. rewrite (is_others _ _ _ _ _ Hi) by done. by apply lookup_insert_ne. Qed.

Lemma visit_blocks b' : is_Some (blockLocals t' !! b') -> exists i, order !! i = Some b' /\ (i < length (segments ++ [es]))%nat.
Proof.
  rewrite length_app. cbn. destruct (decide (b' = b)) as [->|Hne]; [intros _; exists (length segments); split; [done|lia]|].
  rewrite visit_elsewhere by done. intros (i & Hi' & Hlt)%(vs_blocks _ _ _ Hv). exists i. split; [done|lia].
Qed.

Lemma visit_upTo i b' v : order !! i = Some b' -> (i < length (segments ++ [es]))%nat -> aliasMap t' !! v = None ->
  (v ∈ known t' b') <-> (exists id, functionLocals t' !! v = Some id /\ mentionedUpTo (segments ++ [es]) b' id).
Proof.
  rewrite length_app. cbn. intros Hi' Hlen Ha%(is_aliases _ _ _ _ _ Hi). destruct (decide (i = length segments)) as [->|Hlt].
  - assert (b' = b) as -> by congruence. rewrite (is_here _ _ _ _ _ Hi v Ha), (visit_parents v Ha).
    setoid_rewrite (fun id => mentionedUpTo_last segments es b id Hb). naive_solver.
  - assert (Hlt' : (i < length segments)%nat) by lia. unfold known. rewrite visit_elsewhere by by eapply visit_ne. change (default ∅ (blockLocals t !! b')) with (known t b').
    rewrite (vs_upTo _ _ _ Hv i b' v Hi') by (done || lia). cbn.
    setoid_rewrite (fun id => mentionedUpTo_snoc segments es b' i id Hi' Hlt').
    split; intros (id & Hf & Hm); exists id; (split; [|done]); [|by eapply visit_old].
    eapply lookup_weaken; [exact Hf|apply (is_locals _ _ _ _ _ Hi)].
Qed.

Lemma visit_decided j : (j < length (segments ++ [es]))%nat -> decided (segments ++ [es]) j.
Proof.
  rewrite length_app. cbn. intros Hj. destruct (decide (j = length segments)) as [->|Hlt].
  - intros b' es1 e es2 id Hb' Hes Hw. assert (b' = b) as -> by congruence.
    rewrite lookup_app_r, Nat.sub_diag in Hes by lia. injection Hes as Hes.
    destruct (is_decided _ _ _ _ _ Hi es1 e es2 id Hes Hw) as (v & Hva & Hf & ->). cbn in Hf.
    rewrite (visit_parents v Hva), (parents_snoc segments es b _ id Hb) by done. naive_solver.
  - apply decided_snoc; [lia|]. apply (vs_decided _ _ _ Hv). lia.
Qed.

Lemma visit_visited : visited l0 (segments ++ [es]) (t', l').
Proof.
  split; cbn [fst snd].
  - pose proof (is_events _ _ _ _ _ Hi) as He. pose proof (vs_events _ _ _ Hv) as He'. cbn in He, He'.
    rewrite He, He', concat_app. cbn. by rewrite app_nil_r, app_assoc.
  - apply Hi.
  - apply visit_blocks.
  - apply Hi.
  - apply visit_upTo.
  - apply visit_decided.
Qed.
End Visit.

Lemma visited_visit l0 segments st b st' : visited l0 segments st -> order !! length segments = Some b ->
  visit sn gs ty file c b st st' -> exists es, visited l0 (segments ++ [es]) st'.
Proof.
  intros Hv Hb (bb & Hbb & Hs). destruct st as [t l], st' as [t' l']. cbn [fst snd] in *.
  destruct (inside_block b (copyLocalsFromParents b bb t) l (t', l') Hs) as (es & Hi).
  - eapply numbered_state; [exact (vs_numbered _ _ _ Hv)|done..].
  - intros b' v. destruct (decide (b' = b)) as [->|Hne].
    + rewrite known_copied, elem_of_union_list. setoid_rewrite list_elem_of_fmap.
      intros (X & (p & -> & _) & HX). by eapply (vs_known _ _ _ Hv).
    + unfold known. cbn. rewrite lookup_insert_ne by done. apply (vs_known _ _ _ Hv).
  - exists es. by eapply visit_visited.
Qed.

Lemma visits_visited bs st st' : visits sn gs ty file c bs st st' -> bs `prefix_of` order -> numbered st ->
  blockLocals st.1 = ∅ -> exists segments, length segments = length bs /\ visited st.2 segments st'.
Proof.
  intros Hvs. induction Hvs as [st|bs b st st1 st2 Hvs IH Hv]; intros Hp Hn Hb.
  - exists []. split; [done|]. split; try done; try (cbn; lia).
    + cbn. by rewrite app_nil_r.
    + intros b. rewrite Hb. by intros [? ?].
    + intros b v. unfold known. rewrite Hb. cbn. set_solver.
  - destruct Hp as [rest Hp]. destruct IH as (segments & Hlen & Hvis); [|done|done|].
    { exists ([b] ++ rest). by rewrite Hp, <- app_assoc. }
    destruct (visited_visit _ _ _ b st2 Hvis) as (es & Hvis').
    + by rewrite Hp, Hlen, <- app_assoc, lookup_app_r, Nat.sub_diag by lia.
    + done.
    + exists (segments ++ [es]). split; [by rewrite !length_app, Hlen|done].
Qed.
End Definitions.

Section Decided.
Context (sn : ScipNames) (gs : Program) (ty : TypeOps) (unresolvedFields : gmap Z (gset Z)).
Context (sortAliases : list (GenericSymbolRef * LocOffsets) -> list (GenericSymbolRef * LocOffsets) * bool).
Context (owner file : Z) (c : CFG).

(** C18: in the calls of a traversal exactly the right assignments are definitions. The calls are those for the
    parameters, then one segment for every block in the order of the visits, then those for symbols that no
    instruction has used. A call of a block that assigns to a local is a definition if and only if no earlier call of
    the block is about the local, and no call of a block from which the block is reached along edges that go forward
    in the order of the visits. *)
Theorem definitions_where_unknown params resolver rels resolver' t l :
  Z.of_nat (length (default [] (snd <$> params)) + length (localVariables c)) < 2 ^ 32 ->
  NoDup (forwardsTopoSort c) ->
  traverse sn gs ty unresolvedFields sortAliases owner file c params resolver (mkLog [] rels) = Some (resolver', (t, l)) ->
  exists parameters segments aliases,
    lg_events l = parameters ++ concat segments ++ aliases /\
    length segments = length (forwardsTopoSort c) /\
    (forall e, e ∈ aliases -> is_Some (eventSymbol e)) /\
    (forall j, (j < length segments)%nat -> decided c (rev (forwardsTopoSort c)) segments j).
Proof.
  intros Hfit Hnodup (t0 & l0 & aliases & rels' & t1 & l1 & tail & Ht)%traverse_traversed.
  destruct Ht as [Hs _ (keywords & Hv) Htail Hev _]. apply start_declares in Hs as (declared & Hlen & Hd); [|lia].
  assert (Hrev : NoDup (rev (forwardsTopoSort c))) by by rewrite <- Permutation_rev.
  destruct (visits_visited sn gs ty file c declared (dc_ids _ _ _ Hd) ltac:(lia) _ Hrev _ _ _ Hv) as (segments & Hseg & Hvis).
  - done.
  - by apply declares_numbered.
  - apply Hd.
  - exists (lg_events l0 ++ [Relationships rels']), segments, tail. split_and!.
    + cbn in Hev. pose proof (vs_events _ _ _ _ _ _ _ _ _ Hvis) as He. cbn in He. rewrite Hev, He. by rewrite <- !app_assoc.
    + by rewrite Hseg, length_rev.
    + intros e He. apply list_elem_of_lookup in He as (i & Hi). eapply Forall2_lookup_r in Htail as (alias & _ & Ha); [|exact Hi].
      by eexists.
    + apply Hvis.
Qed.
End Decided.

(** The sample has three blocks; the first assignment to [x] is the definition. *)
Lemma definitions_where_unknown_witness : exists resolver t l parameters segments aliases,
  traverseSample (mkLog [] ∅) = Some (resolver, (t, l)) /\
  lg_events l = parameters ++ concat segments ++ aliases /\
  length segments = 3%nat /\
  (forall j, (j < length segments)%nat -> decided indexedGraph [0; 1; 2]%nat segments j).
Proof.
  destruct (traverseSample (mkLog [] ∅)) as [[resolver [t l]]|] eqn:E; [|vm_compute in E; discriminate].
  destruct (definitions_where_unknown indexedNames indexedProgram indexedTypes ∅ keepOrder indexedOwner 1 indexedGraph
    (Some (1, indexedParams)) indexedResolver ∅ resolver t l) as (parameters & segments & aliases & H1 & H2 & _ & H4).
  - vm_compute. reflexivity.
  - apply (bool_decide_unpack _). vm_compute. exact I.
  - exact E.
  - exists resolver, t, l, parameters, segments, aliases. split; [reflexivity|]. split; [exact H1|]. split; [exact H2|exact H4].
Defined.
