(* ===== verification/ScipAliases.v ===== *)
(** * No symbol is lost

    The variables of a graph that stand for fields, classes and constants are collected in [AliasMap]
    before src/scip_indexer/SCIPIndexer.cc visits the instructions. A symbol is recorded where an
    instruction uses its variable; the symbols that are left over are recorded at the end. This file
    shows that every symbol gets an occurrence in one of the two ways. *)

From S2P Require Import Prelude Pickler FileHash Files Locs Types NameTable NameText Symbols SymbolRefs Linearize.
From S2P Require Import Ast UIntSet Cfg CfgTopo CfgReads CfgArgs CfgFinalize CfgBuild.
From S2P Require Import ScipUtils ScipProto ScipGem ScipSymbolRef ScipState ScipFieldResolve ScipOccurrences.
From S2P Require Import ScipTraversal ScipSample ScipReplay ScipRun ScipLocals.

#[local] Open Scope Z_scope.

(** ** Sorting and removing duplicates *)

Lemma sameAlias_iff a b : sameAlias a b = true <-> sameRef a.1 b.1 = true /\ a.2 = b.2.
Proof. unfold sameAlias. by rewrite andb_true_iff, bool_decide_eq_true. Qed.

Lemma sameRef_iff a b : sameRef a b = true <-> g_selfOrOwner a = g_selfOrOwner b /\ g_name a = g_name b.
Proof. unfold sameRef. by rewrite andb_true_iff, !Z.eqb_eq. Qed.

#[export] Instance sameAlias_equivalence : Equivalence (fun a b => sameAlias a b = true).
Proof.
  split.
  - intros a. by rewrite sameAlias_iff, sameRef_iff.
  - intros a b. rewrite !sameAlias_iff, !sameRef_iff. naive_solver.
  - intros a b d. rewrite !sameAlias_iff, !sameRef_iff. naive_solver congruence.
Qed.

(** Every element has a representative among those that are kept. *)
Lemma uniqueNeighbours_keeps {A} (same : A -> A -> bool) `{Heq : !Equivalence (fun a b => same a b = true)} (l : list A) x :
  x ∈ l -> exists y, y ∈ uniqueNeighbours same l /\ same y x = true.
Proof.
  pose proof (@Equivalence_Reflexive _ _ Heq : forall a, same a a = true) as Hrefl.
  pose proof (@Equivalence_Transitive _ _ Heq : forall a b d, same a b = true -> same b d = true -> same a d = true) as Htrans.
  induction l as [|z l IH]; intros Hx; [by apply not_elem_of_nil in Hx|]. cbn [uniqueNeighbours].
  assert (Hrest : x ∈ l -> exists y, y ∈ uniqueNeighbours same l /\ same y x = true) by exact IH.
  destruct (uniqueNeighbours same l) as [|y l'].
  - apply elem_of_cons in Hx as [->|(y & []%not_elem_of_nil & _)%Hrest]. exists z. split; [by left|done].
  - destruct (same z y) eqn:E; apply elem_of_cons in Hx as [->|(w & Hw & Hs)%Hrest].
    + exists z. split; [by left|done].
    + apply elem_of_cons in Hw as [->|Hw]; [exists z; split; [by left|by eapply Htrans]|exists w; split; [by right|done]].
    + exists z. split; [by left|done].
    + exists w. split; [by right|done].
Qed.

(** ** The visits *)

Section Aliases.
Context (sn : ScipNames) (gs : Program) (ty : TypeOps) (unresolvedFields : gmap Z (gset Z)).
Context (sortAliases : list (GenericSymbolRef * LocOffsets) -> list (GenericSymbolRef * LocOffsets) * bool).
Context (owner file : Z) (c : CFG).

Definition recorded (sym : GenericSymbolRef) (es : list Event) : Prop :=
  exists e sym', e ∈ es /\ eventSymbol e = Some sym' /\ sameRef sym' sym = true.

Lemma recorded_app sym es es' : recorded sym (es ++ es') <-> recorded sym es \/ recorded sym es'.
Proof. unfold recorded. setoid_rewrite elem_of_app. naive_solver. Qed.

(** An alias that counts as emitted is a type or has been recorded. *)
Definition tracked (aliases : AliasMap) (st : Traversal * Log) : Prop :=
  forall v sym loc emitted, aliases !! v = Some (sym, loc, emitted) -> exists emitted',
    aliasMap st.1 !! v = Some (sym, loc, emitted') /\
    (emitted' = true -> emitted = true \/ refKind sym = RType \/ recorded sym (lg_events st.2)).

Lemma tracked_state aliases t l t' e : tracked aliases (t, l) -> aliasMap t' = aliasMap t ->
  tracked aliases (t', l) /\ tracked aliases (t', logged e l).
Proof.
  intros Ht Ha. split; intros v sym loc emitted Hv; cbn; rewrite Ha.
  - by eapply Ht.
  - destruct (Ht v sym loc emitted Hv) as (emitted' & Hm & He). exists emitted'. split; [done|].
    rewrite recorded_app. naive_solver.
Qed.

Lemma recorded_last sym e es : eventSymbol e = Some sym -> recorded sym (es ++ [e]).
Proof. intros He. exists e, sym. split_and!; [set_solver|done|by rewrite sameRef_iff]. Qed.

Lemma tracked_consume aliases t l v sym loc emitted es : tracked aliases (t, l) -> aliasMap t !! v = Some (sym, loc, emitted) ->
  (refKind sym = RType \/ recorded sym (lg_events l ++ es)) ->
  forall rels, tracked aliases (consume v sym loc t, mkLog (lg_events l ++ es) rels).
Proof.
  intros Ht Hv Hsym rels w sym' loc' emitted' Hw. destruct (Ht w sym' loc' emitted' Hw) as (em & Hm & He). cbn in *.
  destruct (decide (v = w)) as [<-|Hne].
  - rewrite Hv in Hm. injection Hm as <- <- <-. exists true. rewrite lookup_insert_eq. naive_solver.
  - exists em. rewrite lookup_insert_ne by done. split; [done|]. rewrite recorded_app. naive_solver.
Qed.

Lemma tracked_step aliases b bind st st' : step sn gs ty file c b bind st st' -> tracked aliases st -> tracked aliases st'.
Proof.
  intros Hs Ht. destruct Hs as [t l e He|t l name p loc Hp Hsrc|t l defs|t l v sym loc emitted Hv Hty|t l v sym loc emitted e Hv He
    |t l v at_ lvalue type sym loc emitted d t' rhs role Ho Hvar Hv Hc|t l v var at_ lvalue type d t' id at' Ho Hvar Hv Htmp Hw Hc Hid].
  - by apply (tracked_state aliases t l).
  - by apply (tracked_state aliases t l).
  - by apply (tracked_state aliases t l (set_keywordTupleDefinitions defs t) (Relationships ∅)).
  - pose proof (tracked_consume aliases t l v sym loc emitted [] Ht Hv (or_introl Hty) (lg_relationships l)) as H.
    rewrite app_nil_r in H. by destruct l.
  - apply (tracked_consume aliases t l v sym loc emitted [e]); [done|done|]. right. by apply recorded_last.
  - apply classify_classified in Hc. pose proof (cl_aliasMap _ _ _ _ _ _ Hc) as Ha.
    set (e := symbolEvent ty t' sym d rhs at_ role type).
    assert (He : eventSymbol e = Some sym) by (unfold e, symbolEvent; by destruct d).
    intros w sym' loc' em Hw. cbn [fst]. rewrite Ha.
    apply (tracked_consume aliases t l v sym loc emitted [e]); [done|done|right; by apply recorded_last|done].
  - apply classify_classified in Hc. apply (tracked_state aliases t l); [done|]. by apply (cl_aliasMap _ _ _ _ _ _ Hc).
Qed.

Lemma tracked_visits aliases bs st st' : visits sn gs ty file c bs st st' -> tracked aliases st -> tracked aliases st'.
Proof.
  induction 1 as [|bs b st st1 st2 Hvs IH (bb & Hbb & Hv)]; intros Ht; [done|]. specialize (IH Ht). destruct st1 as [t l].
  eapply (rtc_preserves (blockStep sn gs ty file c b)); [|exact Hv|].
  - intros x y (bb' & bind & _ & _ & Hs). by eapply tracked_step.
  - by apply (tracked_state aliases t l (copyLocalsFromParents b bb t) (Relationships ∅)).
Qed.

Lemma remaining_listed t v sym loc : aliasMap t !! v = Some (sym, loc, false) -> (sym, loc) ∈ remainingAliases (aliasMap t).
Proof.
  intros Hv. unfold remainingAliases. apply list_elem_of_omap. exists (v, (sym, loc, false)). split; [by apply elem_of_map_to_list|done].
Qed.

(** C21: no symbol is lost: if the sort of the aliases that are left neither drops nor adds elements, every variable
    of the graph that stands for a symbol other than a type has an occurrence of that symbol, as a definition or as a
    reference, among the calls of the traversal. *)
Theorem aliases_recorded params resolver rels resolver' t l :
  (forall todo, (sortAliases todo).1 ≡ₚ todo) ->
  traverse sn gs ty unresolvedFields sortAliases owner file c params resolver (mkLog [] rels) = Some (resolver', (t, l)) ->
  exists aliases rels', populate gs unresolvedFields owner file c resolver rels = Some (aliases, (resolver', rels')) /\
    forall v sym loc, aliases !! v = Some (sym, loc, false) -> refKind sym <> RType -> recorded sym (lg_events l).
Proof.
  intros Hsort (t0 & l0 & aliases & rels' & t1 & l1 & tail & [Hs Hp (keywords & Hv) Htail Hev _])%traverse_traversed.
  cbn [fst snd] in *. exists aliases, rels'. split.
  { replace rels with (lg_relationships l0); [done|]. destruct params as [[method params]|]; [|by injection Hs as <- <-].
    exact (define_relationships sn gs ty owner file params newTraversal (mkLog [] rels) t0 l0 Hs). }
  intros v sym loc Hsym Hty. rewrite Hev, recorded_app.
  destruct (tracked_visits aliases _ _ _ Hv) with (v := v) (sym := sym) (loc := loc) (emitted := false) as (em & Hm & He); [|done|].
  { intros w sym' loc' em Hw. exists em. split; [done|]. by left. }
  destruct em; [destruct (He eq_refl) as [?|[?|?]]; [done|done|by left]|]. right.
  cbn [fst snd] in Hm. apply remaining_listed in Hm. rewrite <- (Hsort (remainingAliases _)) in Hm. unfold sortedAliases in Htail.
  destruct (sortAliases (remainingAliases (aliasMap t1))) as [todo dupes]. cbn in Hm.
  assert (Hin : exists a, a ∈ (if dupes then uniqueNeighbours sameAlias todo else todo) /\ sameAlias a (sym, loc) = true).
  { destruct dupes; [by apply (uniqueNeighbours_keeps sameAlias)|]. exists (sym, loc). split; [done|by apply sameAlias_iff; rewrite sameRef_iff]. }
  destruct Hin as (a & Ha & (Hsame & _)%sameAlias_iff). apply list_elem_of_lookup in Ha as (i & Hi).
  eapply Forall2_lookup_l in Htail as (e & Hi' & Hes); [|exact Hi]. exists e, a.1. split_and!; [by eapply list_elem_of_lookup_2|done|done].
Qed.
End Aliases.

(** The class [foo] of the sample *)
Lemma aliases_recorded_witness : exists resolver t l, traverseSample (mkLog [] ∅) = Some (resolver, (t, l)) /\
  recorded (symbolOnly 32) (lg_events l).
Proof.
  destruct (traverseSample (mkLog [] ∅)) as [[resolver [t l]]|] eqn:E; [|vm_compute in E; discriminate].
  exists resolver, t, l. split; [reflexivity|].
  destruct (aliases_recorded indexedNames indexedProgram indexedTypes ∅ keepOrder indexedOwner 1 indexedGraph
    (Some (1, indexedParams)) indexedResolver ∅ resolver t l) as (aliases & rels & Hp & H); [reflexivity|exact E|].
  vm_compute in Hp. injection Hp as <- _ _.
  exact (H 2%nat (symbolOnly 32) (mkLocOffsets 7 10) eq_refl ltac:(vm_compute; discriminate)).
Defined.
