(* ===== verification/ScipPlaces.v ===== *)
(** * The places of occurrences

    Every place that a traversal of src/scip_indexer/SCIPIndexer.cc computes from the places in a graph
    lies inside the file: names of keyword arguments without their colons and quotes, brackets of
    calls, the ampersand of a block argument. Where a name is looked for, the text at the place that
    is found is the name. *)

From S2P Require Import Prelude Pickler FileHash Files Locs Types NameTable NameText Symbols SymbolRefs Linearize.
From S2P Require Import Ast UIntSet Cfg CfgTopo CfgReads CfgArgs CfgFinalize CfgBuild.
From S2P Require Import ScipUtils ScipProto ScipGem ScipSymbolRef ScipState ScipFieldResolve ScipOccurrences.
From S2P Require Import ScipTraversal ScipReplay.

#[local] Open Scope Z_scope.

(** ** Texts with their ranges *)

Section Ranges.
Context (f : File) (Hwf : File_wf f).

(** The range has this text, in the file. *)
Definition spells (r : str * Z * Z) : Prop :=
  let '(text, b, e) := r in
  0 <= b /\ e = b + Z.of_nat (length text) /\ e <= Z.of_nat (length (source_ f)) /\
  text = substr (source_ f) (Z.to_nat b) (length text).

(** A location in the file *)
Definition inside (loc : LocOffsets) : Prop := 0 <= beginLoc loc <= endLoc loc /\ endLoc loc <= Z.of_nat (length (source_ f)).

Lemma inside_exists loc : inside loc -> offsets_exists loc = true.
Proof.
  intros [Hb He]. destruct loc as [b e]. pose proof (wf_size _ Hwf). cbn in *. apply offsets_wf_exists; lia.
Qed.

Lemma u32_offset z : 0 <= z <= Z.of_nat (length (source_ f)) -> u32 z = z.
Proof. intros Hz. pose proof (wf_size _ Hwf). apply u32_id. unfold is_u32, INVALID_POS_LOC in *. lia. Qed.

Lemma spells_source loc : inside loc ->
  spells (substr (source_ f) (Z.to_nat (beginLoc loc)) (Z.to_nat (offsets_length loc)), beginLoc loc, endLoc loc).
Proof.
  intros [Hb He]. assert (Hl : Z.of_nat (length (substr (source_ f) (Z.to_nat (beginLoc loc)) (Z.to_nat (offsets_length loc)))) = endLoc loc - beginLoc loc).
  { unfold substr, offsets_length. rewrite u32_offset, length_take, length_drop by lia. lia. }
  cbn. rewrite Hl. split_and!; [lia|lia|lia|]. f_equal. unfold offsets_length in *. rewrite u32_offset in * by lia. lia.
Qed.

(** Part of a range *)
Lemma spells_part text b e n m : spells (text, b, e) -> (n + m <= length text)%nat ->
  spells (take m (drop n text), b + Z.of_nat n, b + Z.of_nat n + Z.of_nat m).
Proof.
  intros (Hb & -> & He & Ht) Hnm. assert (Hl : length (take m (drop n text)) = m) by (rewrite length_take, length_drop; lia).
  cbn. rewrite Hl. split_and!; [lia|lia|lia|]. rewrite Ht at 1. unfold substr.
  rewrite skipn_firstn_comm, drop_drop, take_take. f_equal; [lia|f_equal; lia].
Qed.

Lemma stripColon_spells r : spells r -> spells (stripColon r).
Proof.
  destruct r as [[text b] e]. intros Hr. pose proof Hr as (Hb & He & Hf & _). unfold stripColon.
  destruct (is_suffix _ text) eqn:Es.
  - apply is_suffix_spec, suffix_length in Es. cbn in Es.
    pose proof (spells_part text b e 0 (length text - 1) Hr ltac:(lia)) as Hp. rewrite drop_0 in Hp.
    rewrite u32_offset by lia. eapply eq_rect; [exact Hp|]. do 2 f_equal; lia.
  - destruct (is_prefix _ text) eqn:Ep; [|done]. apply is_prefix_spec, prefix_length in Ep. cbn in Ep.
    pose proof (spells_part text b e 1 (length text - 1) Hr ltac:(lia)) as Hp.
    rewrite take_ge in Hp by (rewrite length_drop; lia).
    rewrite u32_offset by lia. eapply eq_rect; [exact Hp|]. do 2 f_equal; lia.
Qed.

Lemma stripQuotes_spells r : spells r -> spells (stripQuotes r).
Proof.
  destruct r as [[text b] e]. intros Hr. pose proof Hr as (Hb & He & Hf & _). unfold stripQuotes.
  destruct text as [|q rest] eqn:Etext; [done|]. rewrite <- Etext in *. destruct (_ && _) eqn:Eq; [|done].
  apply andb_true_iff in Eq as [[Hlen%Nat.leb_le _]%andb_true_iff _].
  pose proof (spells_part text b e 1 (length text - 2) Hr ltac:(lia)) as Hp.
  rewrite !u32_offset by lia. eapply eq_rect; [exact Hp|]. rewrite skipn_firstn_comm. f_equal; [do 2 f_equal; lia|lia].
Qed.

Lemma adjustLen_inside file loc ba len : inside loc -> -1 <= ba -> 0 <= len -> ba + len <= 3 ->
  offsets_exists (locOffsets (adjustLen f (mkLoc file loc) ba len)) = true ->
  inside (locOffsets (adjustLen f (mkLoc file loc) ba len)).
Proof.
  intros [Hb He] Hba Hlen Hsum. unfold adjustLen. destruct (negb _); [done|]. unfold beginPos. cbn [locOffsets].
  destruct (Z.ltb_spec (beginLoc loc + ba) 0); [done|]. pose proof (wf_size _ Hwf). unfold INVALID_POS_LOC in *.
  rewrite u64_id by (unfold is_u64; lia). destruct (Z.ltb_spec (Z.of_nat (length (source_ f))) (beginLoc loc + ba + len)); [done|].
  intros _. unfold inside. cbn. rewrite (u32_offset (beginLoc loc + ba)), u32_offset by lia. lia.
Qed.
End Ranges.

(** ** The functions that look for a place *)

Section Places.
Context (sn : ScipNames) (gs : Program) (file : Z) (f : File).
Context (Hf : fileData gs file = Some f) (Hwf : File_wf f).

(** A location that is present lies in the file. *)
Definition placed (loc : LocOffsets) : Prop := offsets_exists loc = true -> inside f loc.

Lemma file_positive : file <> 0.
Proof. intros ->. done. Qed.

Lemma sourceAt_spells loc : inside f loc ->
  exists text, sourceAt gs file loc = Some (Some text) /\ spells f (text, beginLoc loc, endLoc loc).
Proof.
  intros Hi. unfold sourceAt. rewrite Hf. cbn [mbind option_bind]. unfold loc_source, loc_exists. cbn [locFile locOffsets].
  rewrite (inside_exists f Hwf loc Hi), (proj2 (Z.eqb_neq _ _) file_positive). cbn [negb andb].
  destruct Hi as [Hb He]. unfold beginPos. cbn [locOffsets]. destruct (Z.ltb_spec (Z.of_nat (length (source_ f))) (beginLoc loc)); [lia|].
  eexists. split; [done|]. by apply (spells_source f Hwf loc).
Qed.

Lemma spells_inside text b e : spells f (text, b, e) -> inside f (mkLocOffsets b e).
Proof. intros (Hb & -> & He & _). unfold inside. cbn. lia. Qed.

Lemma spells_sourceAt text b e : spells f (text, b, e) -> sourceAt gs file (mkLocOffsets b e) = Some (Some text).
Proof.
  intros Hs. destruct (sourceAt_spells _ (spells_inside _ _ _ Hs)) as (text' & -> & Ht). do 2 f_equal.
  destruct Hs as (_ & He & _ & Hs), Ht as (_ & He' & _ & Ht). cbn in *. rewrite Hs, Ht at 1. f_equal. lia.
Qed.

(** What [keywordNameLoc] finds: nothing, or a part of the location that spells the name *)
Lemma keywordNameLoc_found loc name loc' : placed loc -> keywordNameLoc gs file loc name = Some loc' ->
  offsets_exists loc' = true ->
  inside f loc' /\ exists short, shortName (sy_names (pr_gs gs)) name = Some short /\ sourceAt gs file loc' = Some (Some short).
Proof.
  intros Hp. unfold keywordNameLoc. destruct (offsets_exists loc) eqn:Ex; [|by intros [= <-]].
  destruct (sourceAt_spells loc (Hp Ex)) as (text & -> & Hs). cbn [negb orb mbind option_bind].
  destruct (offsets_empty loc); [by intros [= <-]|].
  apply (stripColon_spells f Hwf), (stripQuotes_spells f Hwf) in Hs.
  destruct (stripQuotes _) as [[text' b] e]. destruct (shortName _ name) as [short|]; [|done]. cbn [mbind option_bind].
  intros [= <-]. destruct (str_eqb text' short) eqn:Et; [|done]. apply bool_decide_eq_true in Et as ->. intros _.
  split; [by eapply spells_inside|]. exists short. split; [done|by apply spells_sourceAt].
Qed.

Lemma withoutColon_inside name loc loc' : inside f loc -> withoutColon gs file name loc = Some loc' -> inside f loc'.
Proof.
  intros Hi. unfold withoutColon. destruct (sourceAt_spells loc Hi) as (text & -> & Hs). cbn [mbind option_bind].
  destruct (is_suffix _ text) eqn:Es; [|by intros [= <-]]. destruct (shortName _ name); [|done]. cbn [mbind option_bind].
  intros [= <-]. destruct (str_eqb _ _); [|done]. apply is_suffix_spec, suffix_length in Es. cbn in Es.
  destruct Hs as (Hb & He & Hl & _), Hi as [Hi _]. unfold inside. cbn. rewrite (u32_offset f Hwf) by lia. lia.
Qed.

Lemma adjustLenAt_placed loc ba len loc' : inside f loc -> -1 <= ba -> 0 <= len -> ba + len <= 3 ->
  adjustLenAt gs file loc ba len = Some loc' -> placed loc'.
Proof.
  intros Hi Hb Hl Hs. unfold adjustLenAt. rewrite Hf. intros [= <-] He. by apply (adjustLen_inside f Hwf).
Qed.

Lemma computeMethodLoc_placed fun_ loc loc' : placed loc -> computeMethodLoc sn gs file fun_ loc = Some loc' -> placed loc'.
Proof.
  intros Hp. unfold computeMethodLoc. destruct (offsets_exists loc) eqn:Ex; [|by intros [= <-]].
  cbn [negb orb]. destruct (_ || _); [by intros [= <-]|].
  intros (bracketLoc & E1 & E)%bind_Some. apply bind_Some in E as (bracket & _ & E).
  case_bool_decide; cbn [negb] in E; [|by injection E as <-].
  apply bind_Some in E as (explicitLoc & E2 & E). apply bind_Some in E as (explicit & _ & E). injection E as <-.
  case_bool_decide; [|by eapply adjustLenAt_placed; [apply Hp| | | |exact E1]].
  eapply adjustLenAt_placed; [by apply Hp| | | |exact E2]; destruct (fun_ =? _); cbn; lia.
Qed.

Lemma computeWrappedMethodLoc_placed send fun_ loc' :
  (forall v loc, (v, loc) ∈ Insn.args send -> placed loc) -> placed (Insn.funLoc send) ->
  computeWrappedMethodLoc sn gs file send fun_ = Some loc' -> placed loc'.
Proof.
  intros Hargs Hfun. unfold computeWrappedMethodLoc. intros ([v loc] & Ha & E)%bind_Some.
  apply list_elem_of_lookup_2, Hargs in Ha. apply bind_Some in E as (source & Es & E).
  destruct source as [[|c0 [|c1 rest]]|]; try exact (computeMethodLoc_placed _ _ _ Hfun E).
  assert (Ex : offsets_exists loc = true).
  { unfold sourceAt in Es. rewrite Hf in Es. cbn in Es. unfold loc_source, loc_exists in Es. cbn in Es.
    destruct (offsets_exists loc); [done|]. by rewrite andb_false_r in Es. }
  specialize (Ha Ex). destruct (sourceAt_spells loc Ha) as (text & Es' & Hs). rewrite Es in Es'. injection Es' as <-.
  destruct Hs as (Hb & He & Hl & _). cbn [length] in He.
  destruct (negb (char_eqb c0 _)); [exact (computeMethodLoc_placed _ _ _ Hfun E)|]. destruct (quotes c1).
  - destruct ((_ <? _)%nat) eqn:Hlen; cbn [orb] in E; [by injection E as <-|]. apply Nat.ltb_ge in Hlen. cbn [length] in Hlen.
    destruct (negb _); injection E as <-; [done|]. intros _. unfold inside. cbn. rewrite !(u32_offset f Hwf) by lia. lia.
  - injection E as <-. intros _. unfold inside. cbn. rewrite (u32_offset f Hwf) by lia. lia.
Qed.
End Places.

(** ** Graphs with places in the file *)

Definition placedb (f : File) (loc : LocOffsets) : bool :=
  negb (offsets_exists loc) ||
  ((0 <=? beginLoc loc) && (beginLoc loc <=? endLoc loc) && (endLoc loc <=? Z.of_nat (length (source_ f)))).

Lemma placedb_spec f loc : placedb f loc = true <-> placed f loc.
Proof.
  unfold placedb, placed, inside. destruct (offsets_exists loc); cbn; [|naive_solver].
  rewrite !andb_true_iff, !Z.leb_le. naive_solver.
Qed.

(** The places in a binding *)
Definition bindingPlaces (bind : Binding) : list LocOffsets :=
  bd_loc bind :: vu_loc (bd_bind bind) ::
  match bd_value bind with
  | Insn.Send send =>
      vu_loc (Insn.recv send) :: Insn.funLoc send :: (snd <$> Insn.args send) ++
      match Insn.scipDispatchInfo send with Some info => ka_loc <$> keywordArguments info | None => [] end
  | Insn.Return what _ | Insn.BlockReturn _ what => [vu_loc what]
  | _ => []
  end.

(** Every place is in the file, fields have one, and so has the argument of [keep_for_ide]. *)
Definition bindingPlaced (sn : ScipNames) (f : File) (bind : Binding) : bool :=
  forallb (placedb f) (bindingPlaces bind) &&
  match bd_value bind with
  | Insn.Alias what _ => isClassOrModule what || offsets_exists (bd_loc bind)
  | Insn.Send send =>
      negb (Insn.fun_ send =? n_keepForIde (sn_cfg sn)) ||
      match Insn.args send with (_, loc) :: _ => offsets_exists loc | [] => true end
  | _ => true
  end.

Definition graphPlaced (sn : ScipNames) (f : File) (c : CFG) : bool :=
  forallb (fun '(_, bb) => forallb (bindingPlaced sn f) (bb_exprs bb)) (map_to_list (cfg_blocks c)).

Definition paramPlaced (f : File) (e : Expr) : bool := match e with Local loc _ _ => placedb f loc | _ => true end.

Lemma forallb_elem {A} (p : A -> bool) (l : list A) : forallb p l = true <-> forall x, x ∈ l -> p x = true.
Proof. rewrite forallb_forall. by setoid_rewrite list_elem_of_In. Qed.

Lemma mapM_elem {A B} (g : A -> option B) l k y : mapM g l = Some k -> y ∈ k -> exists x, x ∈ l /\ g x = Some y.
Proof.
  revert k. induction l as [|x l IH]; intros k; cbn; [intros [= <-] []%not_elem_of_nil|].
  intros (z & Hz & (k' & Hk & [= <-])%bind_Some)%bind_Some [->|Hy]%elem_of_cons; [exists x; set_solver|].
  destruct (IH _ Hk Hy) as (x' & Hx & Hg). exists x'. set_solver.
Qed.

Section Graph.
Context (sn : ScipNames) (f : File) (c : CFG) (Hgraph : graphPlaced sn f c = true).

Definition inGraph (bind : Binding) : Prop := exists b bb, cfg_blocks c !! b = Some bb /\ bind ∈ bb_exprs bb.

Lemma inGraph_placed bind : inGraph bind -> bindingPlaced sn f bind = true.
Proof.
  intros (b & bb & Hb & Hbind). unfold graphPlaced in Hgraph. rewrite forallb_elem in Hgraph.
  specialize (Hgraph (b, bb) (proj2 (elem_of_map_to_list _ _ _) Hb)). cbn in Hgraph. by eapply forallb_elem in Hgraph.
Qed.

Lemma inGraph_place bind loc : inGraph bind -> loc ∈ bindingPlaces bind -> placed f loc.
Proof.
  intros Hb%inGraph_placed Hl. apply andb_true_iff in Hb as [Hb _]. apply placedb_spec. by eapply forallb_elem in Hb.
Qed.

Lemma lhsLoc_placed bind : inGraph bind -> placed f (lhsLocIfPresent bind).
Proof.
  intros Hb. unfold lhsLocIfPresent. destruct (offsets_exists _); apply (inGraph_place bind); (done || cbn; set_solver).
Qed.

Lemma bindingsOf_inGraph ids bindings bind : bindingsOf c ids = Some bindings -> bind ∈ bindings -> inGraph bind.
Proof.
  intros (exprs & Hm & ->)%fmap_Some Hin. apply list_elem_of_In, in_concat in Hin as (es & He & Hin).
  apply list_elem_of_In in He, Hin. eapply mapM_elem in Hm as (b & _ & Hb); [|exact He].
  apply fmap_Some in Hb as (bb & Hb & ->). by exists b, bb.
Qed.
End Graph.
