(* ===== verification/ScipIndexing.v ===== *)
(** * Traversals and the state of the indexer

    A traversal of src/scip_indexer/SCIPIndexer.cc that is started on the state of the indexer makes
    calls of that state, and all of them at places inside the file. So it is a run of the indexer in
    the sense of ScipState, and the index stays well-formed. *)

From S2P Require Import Prelude Pickler FileHash Files Locs Types NameTable NameText Symbols SymbolRefs Linearize.
From S2P Require Import Ast UIntSet Cfg CfgTopo CfgReads CfgArgs CfgFinalize CfgBuild.
From S2P Require Import ScipUtils ScipProto ScipGem ScipSymbolRef ScipState ScipFieldResolve ScipOccurrences.
From S2P Require Import ScipTraversal ScipSample ScipReplay ScipRun ScipPlaces.

#[local] Open Scope Z_scope.

(** The place of an event *)
Definition eventLoc (e : Event) : option LocOffsets :=
  match e with
  | Definition_ _ _ loc | Reference _ _ loc _ | LocalDefinition _ loc _ | LocalReference _ loc _ _ => Some loc
  | Relationships _ => None
  end.

Lemma uniqueNeighbours_sub {A} (same : A -> A -> bool) (l : list A) x : x ∈ uniqueNeighbours same l -> x ∈ l.
Proof.
  induction l as [|y l IH]; [done|]. cbn. destruct (uniqueNeighbours same l) as [|z l']; [set_solver|].
  destruct (same y z); set_solver.
Qed.

Create HintDb places.

Section InFile.
Context (sn : ScipNames) (gs : Program) (ty : TypeOps) (unresolvedFields : gmap Z (gset Z)).
Context (sortAliases : list (GenericSymbolRef * LocOffsets) -> list (GenericSymbolRef * LocOffsets) * bool).
Context (owner file : Z) (f : File) (c : CFG).
Context (Hf : fileData gs file = Some f) (Hwf : File_wf f) (Hgraph : graphPlaced sn f c = true).

Abbreviation state := (Traversal * Log)%type.

Definition eventPlaced (e : Event) : Prop := forall loc, eventLoc e = Some loc -> inside f loc.

Record allPlaced (st : state) : Prop := mk_allPlaced {
  ap_aliases v sym loc : aliasMap st.1 !! v = Some (sym, loc, false) -> inside f loc;
  ap_tuples defs v bind : keywordTupleDefinitions st.1 = Some defs -> defs !! v = Some bind -> inGraph c bind;
  ap_events e : e ∈ lg_events st.2 -> eventPlaced e }.

Definition keeps (g : state -> option state) : Prop := forall st st', g st = Some st' -> allPlaced st -> allPlaced st'.

Lemma keeps_some : keeps Some.
Proof. by intros st st' [= ->]. Qed.

Lemma keeps_none : keeps (fun _ => None).
Proof. done. Qed.

Lemma keeps_bind g h : keeps g -> keeps h -> keeps (fun st => st ← g st; h st).
Proof. intros Hg Hh st st' (st1 & E1 & E2)%bind_Some H. eauto. Qed.

Lemma placed_emit t t' l e : allPlaced (t, l) -> eventPlaced e -> keywordTupleDefinitions t' = keywordTupleDefinitions t ->
  (forall v sym loc, aliasMap t' !! v = Some (sym, loc, false) -> aliasMap t !! v = Some (sym, loc, false)) ->
  allPlaced (t', l) /\ allPlaced (t', logged e l).
Proof.
  intros [Ha Ht He] Hev Hk Hal. cbn [fst snd] in *. split; split; cbn [fst snd]; rewrite ?Hk; eauto.
  intros e' [He'|He'%list_elem_of_singleton]%elem_of_app; [auto|by subst].
Qed.

Lemma keeps_emit e : eventPlaced e -> keeps (emit e).
Proof. intros He [t l] st' [= <-] H. by apply (placed_emit t t l e). Qed.

Lemma keeps_emitIf b e : (b = true -> eventPlaced e) -> keeps (emitIf b e).
Proof. intros He. unfold emitIf. destruct b; [by apply keeps_emit, He|apply keeps_some]. Qed.

Lemma keeps_foldM {A} (g : state -> A -> option state) (l : list A) :
  (forall a, a ∈ l -> keeps (fun st => g st a)) -> keeps (fun st => foldM g st l).
Proof.
  induction l as [|a l IH]; intros Hg; [apply keeps_some|].
  apply (keeps_bind (fun st => g st a)); [apply Hg|apply IH; intros; apply Hg]; set_solver.
Qed.

#[local] Hint Resolve keeps_some keeps_none : places.

Lemma event_at e loc : eventLoc e = Some loc -> inside f loc -> eventPlaced e.
Proof. intros He Hi loc'. rewrite He. by intros [= <-]. Qed.

(** Follow what does not depend on the state. *)
Ltac walk :=
  repeat first
    [ progress cbn [mbind option_bind fst snd]
    | by eauto with places
    | match goal with
      | |- keeps (fun st => match ?x with _ => _ end) => destruct x eqn:?
      | |- keeps (fun st => @mbind option _ _ _ _ ?m) =>
          lazymatch m with
          | context [st] => fail
          | _ => destruct m eqn:?
          end
      end ].

Lemma keeps_emitKeyword parameter name loc lvalue type : placed f loc ->
  keeps (emitKeyword gs ty file parameter name loc lvalue type).
Proof.
  intros Hp. unfold emitKeyword. walk. apply keeps_emit. eapply event_at; [done|].
  apply orb_false_iff in Heqb as [Hex%negb_false_iff _]. by eapply keywordNameLoc_found.
Qed.

Lemma present_inside loc : placed f loc -> negb (present loc) = false -> inside f loc.
Proof. intros Hp Hl%negb_false_iff. apply andb_true_iff in Hl as [He _]. by apply Hp. Qed.

Lemma keeps_emitAnonymous p name loc lvalue : placed f loc -> keeps (emitAnonymous sn gs file p name loc lvalue).
Proof.
  intros Hp. unfold emitAnonymous. destruct lvalue; [apply keeps_some|].
  assert (Hl : forall loc', (if offsets_exists loc && offsets_empty loc && (0 <? beginLoc loc) && (name =? n_ampersand sn)
           then adjustLenAt gs file loc (-1) 1 else Some loc) = Some loc' -> placed f loc').
  { intros loc'. destruct (_ && _) eqn:Hc; [|by intros [= <-]].
    apply andb_true_iff in Hc as [[[Hc _]%andb_true_iff _]%andb_true_iff _].
    apply (adjustLenAt_placed gs file f Hf Hwf); [by apply Hp|lia|lia|lia]. }
  walk; specialize (Hl _ eq_refl); apply keeps_emitIf; intros _; (eapply event_at; [done|by apply present_inside]).
Qed.

Lemma keeps_emitMethods loc methods : inside f loc -> keeps (fun st => emitMethods loc st methods).
Proof. intros Hi. apply keeps_foldM. intros m _. apply keeps_emit. by eapply event_at. Qed.

Lemma keeps_emitMethodReference recvType fun_ loc info : placed f loc ->
  keeps (emitMethodReference sn gs ty recvType fun_ loc info).
Proof.
  intros Hp. unfold emitMethodReference. destruct (_ || _) eqn:Hc; [apply keeps_some|].
  apply orb_false_iff in Hc as [[[_ _]%orb_false_iff Hpres]%orb_false_iff _].
  pose proof (present_inside _ Hp Hpres). walk; by apply keeps_emitMethods.
Qed.

Lemma aliases_consumed v t v' sym loc : aliasMap (set_aliasMap (try_consume v (aliasMap t)).2 t) !! v' = Some (sym, loc, false) ->
  aliasMap t !! v' = Some (sym, loc, false).
Proof.
  cbn. unfold try_consume. destruct (aliasMap t !! v) as [[[sym' loc'] em]|] eqn:E; [|done]. cbn.
  intros [(_ & ?)|(_ & ?)]%lookup_insert_Some; done.
Qed.

Lemma classify_fields b v lvalue type t d t' : classify b v lvalue type t = (d, t') ->
  aliasMap t' = aliasMap t /\ keywordTupleDefinitions t' = keywordTupleDefinitions t.
Proof.
  unfold classify. destruct (functionLocals t !! v); [destruct (inBlock b v t)|]; intros [= <- <-]; by destruct lvalue.
Qed.

Lemma keeps_emitLocalOccurrence b occ lvalue aliasRHS type : placed f (lo_loc occ) ->
  keeps (emitLocalOccurrence sn gs ty file c b occ lvalue aliasRHS type).
Proof.
  intros Hp [t l] st'. unfold emitLocalOccurrence. intros (var & Ev & E)%bind_Some H. cbn [fst snd] in E.
  destruct (keywordParameters t !! var) as [kp|]; [by eapply keeps_emitKeyword|].
  destruct (if _ =? 0 then _ else None) as [p|]; [by eapply keeps_emitAnonymous|].
  destruct (negb (present _)) eqn:Hpres; [by injection E as <-|]. pose proof (present_inside _ Hp Hpres) as Hi.
  destruct (try_consume _ _) as [symRef aliases] eqn:Ec.
  pose proof (aliases_consumed (lo_variable occ) t) as Hal. rewrite Ec in Hal. cbn [snd] in Hal.
  set (t1 := set_aliasMap aliases t) in *.
  assert (Hsame : allPlaced (t1, l)) by by apply (placed_emit t t1 l (Relationships ∅)).
  assert (Hemit : forall t' e loc, aliasMap t' = aliasMap t1 -> keywordTupleDefinitions t' = keywordTupleDefinitions t1 ->
    eventLoc e = Some loc -> inside f loc -> allPlaced (t', logged e l)).
  { intros t' e loc Ha Hk He Hin. apply (placed_emit t1 t' l e); [done|by eapply event_at|done|by rewrite Ha]. }
  destruct symRef as [[sym sloc]|].
  - case_bool_decide; [by injection E as <-|]. destruct (classify _ _ _ _ t1) as [d t'] eqn:Ecl. injection E as <-.
    apply classify_fields in Ecl as [Ha Hk]. eapply Hemit; [done|done| |exact Hi]. unfold symbolEvent. by destruct d.
  - destruct (isTemporary sn var); [by injection E as <-|]. apply bind_Some in E as (loc' & Ew & E).
    destruct (classify _ _ _ _ t1) as [d t'] eqn:Ecl. apply bind_Some in E as (id & _ & E). injection E as <-.
    apply classify_fields in Ecl as [Ha Hk]. eapply Hemit; [done|done| |by eapply withoutColon_inside].
    unfold localEvent. by destruct d.
Qed.

Lemma placed_none : placed f noOffsets.
Proof. intros H. by vm_compute in H. Qed.

Lemma tupleDefinitions_inGraph defs v bind : tupleDefinitions sn c = Some defs -> defs !! v = Some bind -> inGraph c bind.
Proof.
  unfold tupleDefinitions. intros (bindings & Hb & [= <-])%bind_Some.
  assert (Hall : forall x, x ∈ bindings -> inGraph c x) by (intros x; by eapply bindingsOf_inGraph). clear Hb. revert Hall.
  enough (Hgen : forall m : gmap nat Binding, (forall x, x ∈ bindings -> inGraph c x) ->
    (forall w x, m !! w = Some x -> inGraph c x) ->
    fold_left (fun m bind => if isArrayOrLiteral sn (bd_value bind) then insertNew (vu_variable (bd_bind bind)) bind m else m)
      bindings m !! v = Some bind -> inGraph c bind).
  { intros Hall. apply (Hgen ∅); [done|]. intros w x. by rewrite lookup_empty. }
  induction bindings as [|x bindings IH]; intros m Hall Hm; [apply Hm|]. apply IH; [set_solver|].
  destruct (isArrayOrLiteral _ _); [|done]. unfold insertNew. destruct (m !! _); [done|].
  intros w y [(_ & <-)|(_ & Hy)]%lookup_insert_Some; [set_solver|by eapply Hm].
Qed.

Lemma tupleKeyLoc_placed defs name args types loc loc' : (forall v bind, defs !! v = Some bind -> inGraph c bind) ->
  placed f loc -> tupleKeyLoc gs file defs name args types loc = Some loc' -> placed f loc'.
Proof.
  intros Hd. revert types loc. induction args as [args IH] using (induction_ltof1 _ (@length _)). intros types loc Hp.
  destruct args as [|[key ?] [|x args]]; [by intros [= <-]..|]. destruct types as [|t [|t' types]]; [by intros [= <-]..|].
  cbn [tupleKeyLoc]. intros (loc1 & E1 & E)%bind_Some. eapply (IH args); [unfold ltof; cbn; lia| |exact E].
  repeat case_match; simplify_eq; try done. intros Hex. eapply keywordNameLoc_found; [done|done| |exact E1|done].
  eapply inGraph_place; [done|by eapply Hd|by left].
Qed.

Lemma keeps_emitKeywordArgument bind send argument : inGraph c bind -> bd_value bind = Insn.Send send ->
  (exists info, Insn.scipDispatchInfo send = Some info /\ argument ∈ keywordArguments info) ->
  keeps (fun st => emitKeywordArgument sn gs file c send st argument).
Proof.
  intros Hbind Hv (info & Hinfo & Harg) [t l] st' ([loc t'] & Ew & E)%bind_Some H. cbn [fst snd] in *.
  assert (allPlaced (t', l) /\ placed f loc) as [H' Hp].
  { destruct (_ || _).
    - unfold wrappedKeywordNameLoc in Ew. destruct (Insn.args send !! 3%nat) as [[ref ?]|]; [|by injection Ew as <- <-].
      apply bind_Some in Ew as ([defs t1] & Ed & Ew).
      assert (allPlaced (t1, l) /\ forall v bind, defs !! v = Some bind -> inGraph c bind) as [H1 Hd].
      { destruct (keywordTupleDefinitions t) as [defs0|] eqn:Ek.
        - injection Ed as <- <-. split; [done|]. intros v x. by eapply (ap_tuples _ H).
        - apply bind_Some in Ed as (defs' & Ed & [= <- <-]). pose proof (fun v x => tupleDefinitions_inGraph defs' v x Ed) as Hd.
          split; [|done]. destruct H as [Ha Ht He]. split; try done. cbn. intros defs v x [= <-]. apply Hd. }
      destruct (bd_value <$> defs !! ref) as [[]|]; try by injection Ew as <- <-.
      apply bind_Some in Ew as (loc' & Et & [= <- <-]). split; [done|]. eapply (tupleKeyLoc_placed defs); [done|apply placed_none|exact Et].
    - destruct (keywordNameLoc _ _ _ _) as [loc0|] eqn:Ek; [|done]. injection Ew as <- <-. split; [done|]. intros Hex.
      eapply keywordNameLoc_found; [done|done| |exact Ek|done]. eapply inGraph_place; [done|done|].
      unfold bindingPlaces. rewrite Hv, Hinfo. do 4 right. apply elem_of_app. right. by apply list_elem_of_fmap_2. }
  destruct (negb (offsets_exists loc)) eqn:Hex; [by injection E as <-|]. apply negb_false_iff in Hex.
  apply bind_Some in E as (m & _ & E). apply bind_Some in E as (indexable & _ & E).
  eapply keeps_emitIf; [|exact E|done]. intros _. eapply event_at; [done|by apply Hp].
Qed.

Lemma keeps_emitCall bind send : inGraph c bind -> bd_value bind = Insn.Send send -> keeps (emitCall sn gs ty file send).
Proof.
  intros Hbind Hv. assert (Hplaces : forall loc, loc ∈ bindingPlaces bind -> placed f loc) by (intros loc; by eapply inGraph_place).
  unfold bindingPlaces in Hplaces. rewrite Hv in Hplaces.
  assert (Hfun : placed f (Insn.funLoc send)) by (apply Hplaces; set_solver).
  assert (Hdirect : keeps (fun st => loc ← computeMethodLoc sn gs file (Insn.fun_ send) (Insn.funLoc send);
    emitMethodReference sn gs ty (vu_type (Insn.recv send)) (Insn.fun_ send) loc (Insn.scipDispatchInfo send) st)).
  { walk. apply keeps_emitMethodReference. by eapply computeMethodLoc_placed. }
  assert (Hwrapped : forall recvType name, keeps (fun st => loc ← computeWrappedMethodLoc sn gs file send name;
    emitMethodReference sn gs ty recvType name loc (Insn.scipDispatchInfo send) st)).
  { intros recvType name. walk. apply keeps_emitMethodReference. eapply computeWrappedMethodLoc_placed; try done.
    intros v loc Ha. apply Hplaces. do 4 right. apply elem_of_app. left. apply list_elem_of_fmap. by exists (v, loc). }
  unfold emitCall. destruct (isWrapped sn send); [|exact Hdirect].
  destruct (Insn.argTypes send) as [|recvType [|[] rest]]; try exact Hdirect. destruct kind; [apply keeps_some|apply Hwrapped].
Qed.

Lemma keeps_emitSend b bind receivers send : inGraph c bind -> bd_value bind = Insn.Send send ->
  keeps (emitSend sn gs ty file c b receivers send).
Proof.
  intros Hbind Hv. assert (Hplaces : forall loc, loc ∈ bindingPlaces bind -> placed f loc) by (intros loc; by eapply inGraph_place).
  unfold bindingPlaces in Hplaces. rewrite Hv in Hplaces.
  unfold emitSend. apply (keeps_bind (fun st => if present _ then _ else _)).
  { walk. apply keeps_emitLocalOccurrence. apply Hplaces. set_solver. }
  apply keeps_bind; [by eapply keeps_emitCall|].
  apply (keeps_bind (fun st => match Insn.scipDispatchInfo send with _ => _ end)).
  { destruct (Insn.scipDispatchInfo send) as [info|] eqn:Ei; [|apply keeps_some]. apply keeps_foldM. intros argument Ha.
    eapply keeps_emitKeywordArgument; [done|done|]. by exists info. }
  apply keeps_foldM. intros [occ type] Ha. unfold emitArgument. case_bool_decide; [apply keeps_some|].
  apply keeps_emitLocalOccurrence, Hplaces. do 4 right. apply elem_of_app. left.
  apply elem_of_zip_l, list_elem_of_fmap in Ha as ([v loc] & -> & Ha). apply list_elem_of_fmap. by exists (v, loc).
Qed.

Lemma keeps_emitKept fileInit bind : inGraph c bind -> keeps (emitKept sn gs owner fileInit bind).
Proof.
  intros Hbind. assert (Hplaces : forall loc, loc ∈ bindingPlaces bind -> placed f loc) by (intros loc; by eapply inGraph_place).
  pose proof (inGraph_placed _ _ _ Hgraph bind Hbind) as Hk. apply andb_true_iff in Hk as [_ Hk].
  intros [t l] st'. unfold emitKept. destruct (bd_value bind) as [| | |send| | | | | | | | | | | | |] eqn:Hv; try by intros [= <-].
  destruct (Insn.fun_ send =? _) eqn:Efun; cbn [negb] in *; [|by intros [= <-]]. intros ([v loc] & Ha & E)%bind_Some H.
  assert (Hin : inside f loc).
  { destruct (Insn.args send) as [|[v0 loc0] args] eqn:Ea; [done|]. injection Ha as -> ->. cbn in Hk.
    apply Hplaces; [|done]. unfold bindingPlaces. rewrite Hv, Ea. set_solver. }
  cbn [fst snd] in E. pose proof (aliases_consumed v t) as Hal. destruct (try_consume v (aliasMap t)) as [symRef aliases].
  cbn [snd] in Hal. destruct symRef as [[sym ?]|]; [|done]. cbn [mbind option_bind] in E.
  assert (He : forall e, eventLoc e = Some loc -> allPlaced (set_aliasMap aliases t, l) /\ allPlaced (set_aliasMap aliases t, logged e l)).
  { intros e He. apply (placed_emit t); [done|by eapply event_at|done|done]. }
  case_bool_decide; [injection E as <-; by apply (He (Reference sym None loc 0))|].
  apply bind_Some in E as ([] & _ & [= <-]); by apply He.
Qed.

Lemma keeps_visitBinding types fileInit init b bind : inGraph c bind ->
  keeps (fun st => visitBinding sn gs ty owner file c types fileInit init b st bind).
Proof.
  intros Hbind. assert (Hplaces : forall loc, loc ∈ bindingPlaces bind -> placed f loc) by (intros loc; by eapply inGraph_place).
  assert (Hloc : placed f (bd_loc bind)) by (apply Hplaces; by left).
  assert (Hlhs : placed f (lhsLocIfPresent bind)) by by eapply lhsLoc_placed.
  unfold visitBinding. destruct (isSkipped bind).
  - by apply keeps_emitKept.
  - apply keeps_bind.
    + unfold emitLHS. destruct (bd_value bind); walk; by apply keeps_emitLocalOccurrence.
    + unfold emitRHS. unfold bindingPlaces in Hplaces. destruct (bd_value bind) eqn:Hv; walk; try by eapply keeps_emitSend.
      all: apply keeps_emitLocalOccurrence; cbn [lo_loc occurrence]; try destruct (offsets_exists _); try done.
      all: apply Hplaces; set_solver.
Qed.

Lemma keeps_visitBlock types fileInit init b : keeps (fun st => visitBlock sn gs ty owner file c types fileInit init st b).
Proof.
  intros [t l] st' (bb & Hbb & E)%bind_Some H. cbn [fst snd] in E.
  eapply (keeps_foldM (visitBinding sn gs ty owner file c types fileInit init b) (bb_exprs bb)); [|exact E|].
  - intros bind Hb. apply keeps_visitBinding. by exists b, bb.
  - destruct H as [Ha Ht He]. by split.
Qed.

(** *** Parameters and aliases *)

Lemma start_placed params rels t l : forallb (paramPlaced f) (default [] (snd <$> params)) = true ->
  start sn gs ty owner file params (newTraversal, mkLog [] rels) = Some (t, l) -> allPlaced (t, l).
Proof.
  intros Hp. assert (H0 : allPlaced (newTraversal, mkLog [] rels)) by (split; try done; intros e []%not_elem_of_nil).
  destruct params as [[method params]|]; [|by intros [= <- <-]]. intros (m & _ & E)%bind_Some. rewrite forallb_elem in Hp.
  eapply (keeps_foldM (defineAnonymousParameter sn gs ty owner file m)); [|exact E|done].
  intros [param expr] Hin%elem_of_zip_r. apply Hp in Hin. intros [t1 l1] st' E' H. cbn [defineAnonymousParameter] in E'.
  destruct expr; try by injection E' as <-. apply placedb_spec in Hin.
  apply bind_Some in E' as (source & Es & E'). destruct source as [source|]; [|by injection E' as <-].
  case_bool_decide; [by injection E' as <-|]. destruct (_ && bool_decide (is_Some _)); [by injection E' as <-|].
  assert (Hi : inside f loc).
  { apply Hin. unfold sourceAt in Es. rewrite Hf in Es. cbn in Es. unfold loc_source, loc_exists in Es. cbn in Es.
    destruct (offsets_exists loc); [done|]. by rewrite andb_false_r in Es. }
  injection E' as <-. apply (placed_emit t1); [done|by eapply event_at|done|done].
Qed.

Lemma trim_inside loc loc' : inside f loc -> trim gs file loc = Some loc' -> inside f loc'.
Proof.
  intros Hi. unfold trim. rewrite Hf. cbn [mbind option_bind]. intros (l' & El & ->)%fmap_Some.
  destruct (trim_in_file f (mkLoc file loc) Hwf Hi (file_positive gs file f Hf)) as (l'' & El' & Hin & _).
  rewrite El in El'. by injection El' as <-.
Qed.

Definition aliasesPlaced (m : AliasMap) : Prop := forall v sym loc, m !! v = Some (sym, loc, false) -> inside f loc.

Lemma insertNew_placed v sym loc em (m : AliasMap) : aliasesPlaced m -> (em = false -> inside f loc) ->
  aliasesPlaced (insertNew v (sym, loc, em) m).
Proof.
  intros Hm Hi. unfold insertNew. destruct (m !! v); [done|].
  intros w sym' loc' [(_ & [= <- <- ->])|(_ & Hw)]%lookup_insert_Some; [by apply Hi|by eapply Hm].
Qed.

Lemma populateBinding_placed klass m rels bind m' rels' : inGraph c bind -> aliasesPlaced m ->
  populateBinding gs unresolvedFields file klass (m, rels) bind = Some (m', rels') -> aliasesPlaced m'.
Proof.
  intros Hbind Hm. unfold populateBinding. destruct (bd_value bind) eqn:Hv; try by intros [= <- <-].
  pose proof (inGraph_placed _ _ _ Hgraph bind Hbind) as Hk. apply andb_true_iff in Hk as [_ Hk]. rewrite Hv in Hk.
  assert (Hp : placed f (bd_loc bind)) by (eapply inGraph_place; [done|done|by left]).
  assert (Hfield : isClassOrModule what = false -> inside f (bd_loc bind)).
  { intros Hc. rewrite Hc in Hk. by apply Hp. }
  unfold populateAlias. destruct (negb (symbol_exists what) || _); [by intros [= <- <-]|].
  intros ([] & _ & E)%bind_Some; [injection E as <- <-; by apply insertNew_placed|].
  destruct (Z.eqb_spec what undeclaredFieldStub) as [->|_].
  { apply bind_Some in E as (fieldName & _ & E). destruct (startsWith _ _).
    - injection E as <- <-. apply insertNew_placed; [done|]. intros _. by apply Hfield.
    - apply bind_Some in E as (k & _ & E). apply bind_Some in E as (r & _ & E). injection E as <- <-.
      apply insertNew_placed; [done|]. intros _. by apply Hfield. }
  destruct (isFieldOrStaticField what) eqn:Ef.
  { apply bind_Some in E as (n & _ & E). apply bind_Some in E as (nt & _ & E). apply bind_Some in E as (o & _ & E).
    apply bind_Some in E as ([symRef r] & _ & E). apply bind_Some in E as (loc & Et & E). injection E as <- <-.
    apply insertNew_placed; [done|]. intros _. eapply trim_inside; [|exact Et]. apply Hfield.
    apply bool_decide_eq_true in Ef. unfold isClassOrModule. apply bool_decide_eq_false. congruence. }
  destruct (isClassOrModule what); [|by injection E as <- <-].
  destruct (offsets_exists (bd_loc bind)) eqn:Ex; cbn [negb orb] in E; [|by injection E as <- <-].
  destruct (offsets_empty _ || _ || _); [by injection E as <- <-|].
  apply bind_Some in E as (loc & Et & E). injection E as <- <-.
  apply insertNew_placed; [done|]. intros _. eapply trim_inside; [|exact Et]. by apply Hp.
Qed.

Lemma populate_placed resolver rels m out : populate gs unresolvedFields owner file c resolver rels = Some (m, out) -> aliasesPlaced m.
Proof.
  unfold populate. intros (klass & _ & E)%bind_Some. apply bind_Some in E as (bindings & Hb & E).
  assert (Hall : forall x, x ∈ bindings -> inGraph c x) by (intros x; by eapply bindingsOf_inGraph). clear Hb.
  assert (H0 : aliasesPlaced ∅) by by intros v sym loc. revert H0 E. generalize (∅ : AliasMap) as m0. generalize (resolver, rels) as r0.
  induction bindings as [|bind bindings IH]; intros r0 m0 H0; [by intros [= <- _]|].
  intros ([m1 r1] & E1 & E)%bind_Some. eapply (IH ltac:(set_solver)); [|exact E]. eapply populateBinding_placed; [|exact H0|exact E1].
  apply Hall. by left.
Qed.

Lemma sortedAliases_placed m a : (forall todo, (sortAliases todo).1 ≡ₚ todo) -> aliasesPlaced m ->
  a ∈ sortedAliases sortAliases m -> inside f a.2.
Proof.
  intros Hsort Hm Ha. assert (Hr : a ∈ remainingAliases m).
  { rewrite <- (Hsort (remainingAliases m)). unfold sortedAliases in Ha. destruct (sortAliases (remainingAliases m)) as [todo dupes].
    destruct dupes; [|done]. by eapply uniqueNeighbours_sub. }
  unfold remainingAliases in Hr. apply list_elem_of_omap in Hr as ([v [[sym loc] em]] & Hv & He).
  apply elem_of_map_to_list in Hv. destruct em; [done|]. injection He as <-. by eapply Hm.
Qed.

Lemma traverse_placed params resolver rels resolver' t l :
  (forall todo, (sortAliases todo).1 ≡ₚ todo) -> forallb (paramPlaced f) (default [] (snd <$> params)) = true ->
  traverse sn gs ty unresolvedFields sortAliases owner file c params resolver (mkLog [] rels) = Some (resolver', (t, l)) ->
  forall e, e ∈ lg_events l -> eventPlaced e.
Proof.
  intros Hsort Hparams. rewrite traverse_parts. intros ([t0 l0] & E0 & E)%bind_Some. apply bind_Some in E as (t1 & E1 & E).
  apply bind_Some in E as ([aliases [resolver1 rels']] & E2 & E). apply bind_Some in E as ([t' l'] & E3 & E).
  injection E as <- <- <-.
  unfold finish in E3. cbn [emit record mbind option_bind fst snd logRecorder] in E3.
  apply bind_Some in E3 as (fileInit & _ & E3). apply bind_Some in E3 as (ownerName & _ & E3).
  apply bind_Some in E3 as (types & _ & E3). apply bind_Some in E3 as ([t2 l2] & E4 & E3).
  apply bind_Some in E3 as (classInit & _ & E3).
  apply (start_placed _ _ _ _ Hparams) in E0 as [_ Htup Hev]. apply populate_placed in E2.
  assert (H2 : allPlaced (t2, l2)).
  { eapply (keeps_foldM (visitBlock sn gs ty owner file c types _ _)); [intros b _; apply keeps_visitBlock|exact E4|].
    apply (placed_emit (set_aliasMap aliases t1) _ l0 (Relationships rels')); try done. split; cbn; [exact E2| |exact Hev].
    intros defs v bind Hk. apply Htup. unfold keywords in E1. destruct params as [[method params]|]; [|by injection E1 as <-].
    apply bind_Some in E1 as (kw & _ & [= <-]). done. }
  eapply (ap_events (t', l')). eapply (keeps_foldM (emitAlias gs classInit)); [|exact E3|].
  - intros a Ha st st' (isEnum & _ & E)%bind_Some. revert st st' E. apply keeps_emit. eapply event_at.
    + by destruct isEnum.
    + eapply sortedAliases_placed; [done|exact (ap_aliases _ H2)|done].
  - destruct H2 as [_ Ht He]. split; try done.
Qed.
End InFile.

(** ** Runs of the indexer *)

Section Composition.
Context (sn : ScipNames) (gs : Program) (ty : TypeOps) (unresolvedFields : gmap Z (gset Z)).
Context (sortAliases : list (GenericSymbolRef * LocOffsets) -> list (GenericSymbolRef * LocOffsets) * bool).
Context (decode : str -> option nat) (sortR : list Relationship -> list Relationship)
  (sortO : list Occurrence -> list Occurrence) (sortS : list SymbolInformation -> list SymbolInformation).
Context (showType : TypePtr -> str) (docStrings : GenericSymbolRef -> TypePtr -> Loc -> option (list str)).
Context (owner file : Z) (f : File).

Abbreviation step := (ScipState.step gs decode sortR sortO sortS showType docStrings).

#[local] Instance recorder : Recorder SCIPState := scipRecorder gs decode sortR showType docStrings owner file.

#[local] Instance recorder_lawful : LawfulRecorder SCIPState.
Proof. apply scipRecorder_lawful. Qed.

(** A call at a place inside the file is a step of the indexer. *)
Lemma record_step e s s' : fileData gs file = Some f -> (forall loc, eventLoc e = Some loc -> inside f loc) ->
  record e s = Some s' -> step s s'.
Proof.
  intros Hf Hin. assert (Hl : forall loc, eventLoc e = Some loc -> located gs (mkLoc file loc)).
  { intros loc He f'. cbn. rewrite Hf. intros [= <-]. by apply Hin. }
  pose proof (file_positive gs file f Hf) as Hpos.
  destruct e as [sym aliased loc|sym type loc roles|id loc type|id loc type roles|m]; cbn [eventLoc] in Hl; cbn [record recorder scipRecorder]; try specialize (Hl loc eq_refl).
  - intros ([status s1] & E & ->)%fmap_Some. eapply step_definition; [|exact E]. by intros l [= <-].
  - intros ([status s1] & E & ->)%fmap_Some. by eapply step_reference.
  - intros ([status s1] & E & ->)%fmap_Some. eapply step_localDefinition; [|exact E]. exact Hl.
  - intros ([status s1] & E & ->)%fmap_Some. eapply step_localReference; [exact Hpos| |exact E]. exact Hl.
  - intros [= <-]. apply step_relationships.
Qed.

Lemma replay_runs es s s' : fileData gs file = Some f -> (forall e, e ∈ es -> forall loc, eventLoc e = Some loc -> inside f loc) ->
  replay s es = Some s' -> rtc step s s'.
Proof.
  intros Hf. revert s. induction es as [|e es IH]; intros s Hin; [intros [= <-]; apply rtc_refl|].
  intros (s1 & E1 & E)%bind_Some. eapply rtc_l; [eapply record_step; [done| |exact E1]; apply Hin; by left|].
  apply IH; [|done]. intros e' He'. apply Hin. by right.
Qed.

Lemma traverse_runs c params resolver s resolver' t s' :
  fileData gs file = Some f ->
  (forall file f, fileData gs file = Some f -> File_wf f /\ is_size (length (source_ f))) ->
  (forall todo, (sortAliases todo).1 ≡ₚ todo) ->
  graphPlaced sn f c = true ->
  forallb (paramPlaced f) (default [] (snd <$> params)) = true ->
  traverse sn gs ty unresolvedFields sortAliases owner file c params resolver s = Some (resolver', (t, s')) ->
  rtc step s s'.
Proof.
  intros Hf Hfiles Hsort Hgraph Hparams E.
  rewrite (traverse_replay sn gs ty unresolvedFields sortAliases owner file c params resolver s) in E. apply bind_Some in E as ([resolver1 [t1 l]] & E1 & E).
  apply bind_Some in E as (s1 & Er & E). injection E as <- <- <-.
  eapply replay_runs; [done| |exact Er]. by eapply (traverse_placed sn gs ty unresolvedFields sortAliases owner file f c Hf (proj1 (Hfiles _ _ Hf))).
Qed.

(** C20: the traversal and the state of the indexer fit together: when the places of a graph and of the parameters lie
    in the file, a traversal of the state is a run of the indexer, that is a sequence of the calls for definitions,
    references and relationships, all at places inside the file. So it keeps the index well-formed and never changes a
    string that has been chosen for a symbol. *)
Theorem traversal_is_run c params resolver s resolver' t s' :
  fileData gs file = Some f ->
  (forall file f, fileData gs file = Some f -> File_wf f /\ is_size (length (source_ f))) ->
  validating decode ->
  (forall todo, (sortAliases todo).1 ≡ₚ todo) ->
  graphPlaced sn f c = true ->
  forallb (paramPlaced f) (default [] (snd <$> params)) = true ->
  traverse sn gs ty unresolvedFields sortAliases owner file c params resolver s = Some (resolver', (t, s')) ->
  rtc step s s' /\ (Inv s -> Inv s' /\ symbolStringCache s ⊆ symbolStringCache s').
Proof.
  intros Hf Hfiles Hdec Hsort Hgraph Hparams E. pose proof (traverse_runs _ _ _ _ _ _ _ Hf Hfiles Hsort Hgraph Hparams E) as Hrun.
  split; [done|]. intros Hinv. destruct (run_preserves gs decode sortR sortO sortS showType docStrings Hdec Hfiles _ _ Hrun Hinv).
  eauto.
Qed.
End Composition.

(** The traversal of the sample *)
Lemma traversal_is_run_witness : exists resolver t s',
  @traverseSample SCIPState sampleRecorder fooState = Some (resolver, (t, s')) /\ Inv s'.
Proof.
  assert (Hs : is_Some (@traverseSample SCIPState sampleRecorder fooState)) by (vm_compute; by eexists).
  destruct Hs as [[resolver [t s']] E]. exists resolver, t, s'. split; [exact E|].
  destruct (traversal_is_run indexedNames indexedProgram indexedTypes ∅ keepOrder utf8_char id id id (fun _ => [])
    (fun _ _ _ => Some []) indexedOwner 1 indexedFile indexedGraph (Some (1, indexedParams)) indexedResolver fooState resolver t s')
    as [_ H].
  - reflexivity.
  - apply indexedProgram_files.
  - intros s. reflexivity.
  - reflexivity.
  - vm_compute. reflexivity.
  - vm_compute. reflexivity.
  - exact E.
  - apply H, Inv_new.
Defined.
