(* ===== verification/ScipDocuments.v ===== *)
(** * The documents of the indexer

    Among the operations of [SCIPState] only [saveDocument] adds a document, and it adds the one of its
    file. The occurrences and symbols of the documents are well-formed, as those that are waiting to
    be written are. *)

From S2P Require Import Prelude Pickler FileHash Files Locs Types NameTable NameText Symbols SymbolRefs.
From S2P Require Import ScipUtils ScipProto ScipGem ScipSymbolRef ScipState.

#[local] Open Scope Z_scope.

(** ** Operations that finish no document *)

Definition quiet (st st' : SCIPState) : Prop := documents st' = documents st /\ externalSymbols st' = externalSymbols st.

#[export] Instance quiet_preorder : PreOrder quiet.
Proof. split; [intros st; by split|]. intros st1 st2 st3 [H1 H2] [H3 H4]. split; congruence. Qed.


Section Quiet.
Context (gs : Program) (decode : str -> option nat) (sortR : list Relationship -> list Relationship).
Context (showType : TypePtr -> str) (docStrings : GenericSymbolRef -> TypePtr -> Loc -> option (list str)).

Lemma saveSymbolString_quiet st r symbol output result s st' : saveSymbolString gs st r symbol output = Some (result, s, st') -> quiet st st'.
Proof.
  unfold saveSymbolString. destruct (_ !! r); [by intros [= <- <- <-]|]. intros ([res symb] & _ & E)%bind_Some.
  destruct res; [|by injection E as <- <- <-..]. destruct (emitSymbolString symb output) as [status out].
  by destruct status; injection E as <- <- <-.
Qed.

Lemma saveParent_quiet name klass rel acc acc' : saveParent gs name klass rel acc = Some acc' -> quiet acc.2 acc'.2.
Proof.
  intros ([[result symb] st] & E & E')%bind_Some. apply saveSymbolString_quiet in E. by destruct result; injection E' as <-.
Qed.

Lemma saveMixins_quiet name mixins acc acc' : saveMixins gs name mixins acc = Some acc' -> quiet acc.2 acc'.2.
Proof.
  revert acc. induction mixins as [|mixin mixins IH]; intros acc; cbn; [by intros [= <-]|].
  intros (acc1 & E1 & E)%bind_Some. transitivity acc1.2; [by eapply saveParent_quiet|by apply IH].
Qed.

Lemma touchRelationships_quiet st file : quiet st (touchRelationships st file).
Proof. by split. Qed.

Lemma saveParentRelationships_quiet st file r rels rels' st' :
  saveParentRelationships gs sortR st file r rels = Some (rels', st') -> quiet st st'.
Proof.
  unfold saveParentRelationships. cbv zeta. intros E. transitivity (touchRelationships st file); [apply touchRelationships_quiet|].
  destruct (default ∅ _ !! r) as [res|]; [|by injection E as <- <-]. apply bind_Some in E as (acc & E1 & E).
  apply bind_Some in E as ([rels1 st1] & E2 & [= <- <-]). apply saveMixins_quiet in E2. transitivity acc.2; [|done].
  destruct (negb _); [by apply saveParent_quiet in E1|by injection E1 as <-].
Qed.

Lemma saveAliasRelationship_quiet st r rels rels' st' : saveAliasRelationship gs st r rels = Some (rels', st') -> quiet st st'.
Proof.
  intros ([[result symb] st1] & E & E')%bind_Some. apply saveSymbolString_quiet in E. by destruct result; injection E' as <- <-.
Qed.

Lemma saveSymbolInfo_quiet st file s docs rels e st' : saveSymbolInfo decode st file s docs rels = Some (e, st') -> quiet st st'.
Proof.
  unfold saveSymbolInfo. destruct (alreadyEmittedSymbolInfo _ _ _); [by intros [= <- <-]|].
  by intros (docs' & _ & [= <- <-])%bind_Some.
Qed.

Lemma saveDefinitionImpl_quiet st file s l docs rels enc status st' :
  saveDefinitionImpl gs decode st file s l docs rels enc = Some (status, st') -> quiet st st'.
Proof.
  unfold saveDefinitionImpl. destruct (_ || _); [by intros [= <- <-]|]. intros (f & _ & E)%bind_Some.
  apply bind_Some in E as (l' & _ & E). apply bind_Some in E as (rng & _ & E). destruct (_ =? _)%nat; [by injection E as <- <-|].
  apply bind_Some in E as ([e st1] & E1 & E). apply saveSymbolInfo_quiet in E1. apply bind_Some in E as (encRange & _ & E).
  apply bind_Some in E as (over & _ & [= <- <-]). etransitivity; [exact E1|by split].
Qed.

Lemma saveReferenceImpl_quiet st file s docs offsets roles st' :
  saveReferenceImpl gs decode st file s docs offsets roles = Some st' -> quiet st st'.
Proof.
  intros (f & _ & E)%bind_Some. apply bind_Some in E as (l' & _ & E). apply bind_Some in E as (rng & _ & E).
  destruct (_ =? _)%nat; [by injection E as <-|]. apply bind_Some in E as (over & _ & [= <-]). by split.
Qed.

Lemma cacheLocalOccurrence_quiet st occ roles hit st' : cacheLocalOccurrence st occ roles = (hit, st') -> quiet st st'.
Proof. unfold cacheLocalOccurrence. by destruct (bool_decide _); intros [= <- <-]. Qed.

Lemma cacheSymbolOccurrence_quiet st loc sym roles hit st' : cacheSymbolOccurrence st loc sym roles = (hit, st') -> quiet st st'.
Proof. unfold cacheSymbolOccurrence. by destruct (bool_decide _); intros [= <- <-]. Qed.

Lemma saveLocalDefinition_quiet st file occ type enc status st' :
  saveLocalDefinition gs decode showType st file occ type enc = Some (status, st') -> quiet st st'.
Proof.
  unfold saveLocalDefinition. destruct (cacheLocalOccurrence _ _ _) as [hit st1] eqn:Ec. apply cacheLocalOccurrence_quiet in Ec.
  destruct hit; [by intros [= <- <-]|]. intros (docs & _ & E)%bind_Some. apply bind_Some in E as (s & _ & E).
  apply saveDefinitionImpl_quiet in E. by transitivity st1.
Qed.

Lemma saveLocalReference_quiet st file occ type roles status st' :
  saveLocalReference gs decode showType st file occ type roles = Some (status, st') -> quiet st st'.
Proof.
  unfold saveLocalReference. destruct (cacheLocalOccurrence _ _ _) as [hit st1] eqn:Ec. apply cacheLocalOccurrence_quiet in Ec.
  destruct hit; [by intros [= <- <-]|]. intros (docs & _ & E)%bind_Some. apply bind_Some in E as (s & _ & E).
  apply bind_Some in E as (st2 & E & [= <- <-]). apply saveReferenceImpl_quiet in E. by transitivity st1.
Qed.

Lemma saveDefinition_quiet st file r alias loc enc status st' :
  saveDefinition gs decode sortR docStrings st file r alias loc enc = Some (status, st') -> quiet st st'.
Proof.
  intros (occLoc & _ & E)%bind_Some. destruct (_ || _); [by injection E as <- <-|].
  apply bind_Some in E as ([result symb] & _ & E). destruct result; [|by injection E as <- <-..].
  apply bind_Some in E as ([[result s] st1] & E1 & E). apply saveSymbolString_quiet in E1.
  destruct result; [|by injection E as <- <-..]. apply bind_Some in E as (docs & _ & E).
  apply bind_Some in E as ([rels st2] & E2 & E). apply saveParentRelationships_quiet in E2.
  apply bind_Some in E as ([rels' st3] & E3 & E). apply saveDefinitionImpl_quiet in E.
  transitivity st1; [done|]. transitivity st2; [done|]. transitivity st3; [|done].
  destruct alias; [by eapply saveAliasRelationship_quiet|by injection E3 as <- <-].
Qed.

Lemma saveReference_quiet st owner file r type offsets roles status st' :
  saveReference gs decode docStrings st owner file r type offsets roles = Some (status, st') -> quiet st st'.
Proof.
  intros (ownerName & _ & E)%bind_Some. apply bind_Some in E as (internal & _ & E). destruct internal; [by injection E as <- <-|]. cbv zeta in E.
  destruct (cacheSymbolOccurrence _ _ _ _) as [hit st1] eqn:Ec. apply cacheSymbolOccurrence_quiet in Ec.
  destruct hit; [by injection E as <- <-|]. apply bind_Some in E as ([[result s] st2] & E1 & E). apply saveSymbolString_quiet in E1.
  transitivity st1; [done|]. transitivity st2; [done|]. destruct result; [|by injection E as <- <-..].
  apply bind_Some in E as (over & _ & E). apply bind_Some in E as (st3 & E & [= <- <-]).
  apply saveReferenceImpl_quiet in E. etransitivity; [|exact E]. destruct (bool_decide _); [done|].
  destruct (default ∅ _ !! _); by split.
Qed.

Lemma finalizeSymbols_quiet file syms : forall st buffer st',
  finalizeSymbols gs decode sortR st file syms buffer = Some st' -> quiet st st'.
Proof.
  induction syms as [|r syms IH]; intros st buffer st'; cbn; [by intros [= <-]|].
  intros ([[result s] st1] & E1 & E)%bind_Some. apply saveSymbolString_quiet in E1. transitivity st1; [done|].
  destruct result; [|by eapply IH..]. destruct (alreadyEmittedSymbolInfo _ _ _); [by eapply IH|].
  apply bind_Some in E as ([rels st2] & E2 & E). apply saveParentRelationships_quiet in E2.
  apply bind_Some in E as ([e st3] & E3 & E). apply saveSymbolInfo_quiet in E3.
  transitivity st2; [done|]. transitivity st3; [done|]. by eapply IH.
Qed.

Lemma finalizeRefOnlySymbolInfos_quiet st file st' : finalizeRefOnlySymbolInfos gs decode sortR st file = Some st' -> quiet st st'.
Proof. unfold finalizeRefOnlySymbolInfos. intros E%finalizeSymbols_quiet. etransitivity; [|exact E]. by split. Qed.
End Quiet.

(** ** Documents *)

(** The path that the document of a file has *)
Definition documentPath (relativePath : str -> str) (path : str) : str :=
  match path with c :: _ => if char_eqb c "/" then relativePath path else path | [] => path end.

Lemma saveDocument_adds gs sortO sortS relativePath st file st' : saveDocument gs sortO sortS relativePath st file = Some st' ->
  exists f doc, fileData gs file = Some f /\ relative_path doc = documentPath relativePath (path_ f) /\
    documents st' = documents st ++ [doc] /\ externalSymbols st' = externalSymbols st /\
    (forall o, o ∈ doc_occurrences doc -> exists occs, occurrenceMap st !! file = Some occs /\ o ∈ sortO occs) /\
    (forall s, s ∈ doc_symbols doc -> exists syms, symbolMap st !! file = Some syms /\ s ∈ sortS syms).
Proof.
  intros (f & Hf & E)%bind_Some. exists f. cbv zeta in E. fold (documentPath relativePath (path_ f)) in E.
  destruct (occurrenceMap st !! file) as [occs|] eqn:Eo; destruct (symbolMap st !! file) as [syms|] eqn:Es;
    cbn in E; rewrite ?Es in E; injection E as <-; cbn.
  all: eexists; split_and!; try done; cbn; eauto; by intros ? []%not_elem_of_nil.
Qed.

Definition index_text (s : str) : Prop := (exists symb, emitSymbolString symb [] = (OkStatus, s)) \/ local_symbol s.

Lemma index_symbol_text st s : Inv st -> index_symbol st s -> index_text s.
Proof. intros Hinv [[r Hs]|Hs]; [left; by eapply (inv_cache _ Hinv)|by right]. Qed.

Record document_ok (doc : Document) : Prop := mk_document_ok {
  dok_occurrences o : o ∈ doc_occurrences doc ->
    one_line (range o) /\ Forall valid_utf8 (override_documentation o) /\ index_text (symbol o);
  dok_symbols s : s ∈ doc_symbols doc -> Forall valid_utf8 (documentation s) /\ index_text (s_symbol s) }.

Definition documents_ok (st : SCIPState) : Prop := Inv st /\ Forall document_ok (documents st).

Section Runs.
Context (gs : Program) (decode : str -> option nat) (sortR : list Relationship -> list Relationship)
  (sortO : list Occurrence -> list Occurrence) (sortS : list SymbolInformation -> list SymbolInformation).
Context (showType : TypePtr -> str) (docStrings : GenericSymbolRef -> TypePtr -> Loc -> option (list str)).
Context (Hdecode : validating decode).
Context (Hfiles : forall file f, fileData gs file = Some f -> File_wf f /\ is_size (length (source_ f))).
(** Sorting invents no elements. *)
Context (HsortO : forall l o, o ∈ sortO l -> o ∈ l) (HsortS : forall l s, s ∈ sortS l -> s ∈ l).

Abbreviation step := (ScipState.step gs decode sortR sortO sortS showType docStrings).

Lemma saveDocument_ok rel st file st' : saveDocument gs sortO sortS rel st file = Some st' -> Inv st ->
  Forall document_ok (documents st) -> Forall document_ok (documents st').
Proof.
  intros (f & doc & _ & _ & -> & _ & Ho & Hs)%saveDocument_adds Hinv Hd. apply Forall_app. split; [done|]. constructor; [|done].
  split.
  - intros o (occs & Hm & Hin%HsortO)%Ho. destruct (inv_occurrences _ Hinv _ _ _ Hm Hin) as (? & ? & ?).
    split_and!; [done|done|by eapply index_symbol_text].
  - intros s (syms & Hm & Hin%HsortS)%Hs. destruct (inv_symbols _ Hinv _ _ _ Hm Hin) as (? & ?).
    split; [done|by eapply index_symbol_text].
Qed.

Lemma quiet_ok st st' : quiet st st' -> Forall document_ok (documents st) -> Forall document_ok (documents st').
Proof. intros [-> _]. done. Qed.

Lemma step_documents st st' : step st st' -> documents_ok st -> documents_ok st'.
Proof.
  intros Hs [Hinv Hd]. split; [by apply (step_preserves gs decode sortR sortO sortS showType docStrings Hdecode Hfiles _ _ Hs Hinv)|].
  destruct Hs; [..|by eapply saveDocument_ok]; (eapply quiet_ok; [|exact Hd]).
  - by eapply saveLocalDefinition_quiet.
  - by eapply saveLocalReference_quiet.
  - by eapply saveDefinition_quiet.
  - by eapply saveReference_quiet.
  - by split.
  - by split.
  - by eapply finalizeRefOnlySymbolInfos_quiet.
Qed.

Lemma run_documents st st' : rtc step st st' -> documents_ok st -> documents_ok st'.
Proof. induction 1 as [|st1 st2 st3 Hs _ IH]; [done|]. intros H. by eapply IH, step_documents. Qed.
End Runs.
