(* ===== verification/ScipTypeSymbols.v ===== *)
(** * Type members, type aliases and type parameters

    Models [TypeSymbolCollector] of src/scip_indexer/SCIPIndexer.cc: a walk over the tree of a file that
    records the definitions of type members, type aliases and type parameters and the references to
    them. The collector knows the nodes of the tree by their places; it talks to the state of the
    indexer through [recordAt], which is told the owner of the context. *)

From S2P Require Import Prelude Pickler FileHash Files Locs Types NameTable NameText Symbols SymbolRefs Linearize.
From S2P Require Import Ast UIntSet TreeWalk Cfg CfgTopo CfgReads CfgArgs CfgFinalize CfgBuild.
From S2P Require Import ScipUtils ScipProto ScipGem ScipSymbolRef ScipState ScipFieldResolve ScipOccurrences.
From S2P Require Import ScipTraversal ScipReplay ScipPlaces.

#[local] Open Scope Z_scope.

Record Collector := mkCollector {
  co_definitions : gset Place;
  co_emittedDefinitions : gset (Z * (Z * Z));
  co_signatureMethods : gmap Place Z;
  co_signatureStack : list Z }.

Definition newCollector : Collector := mkCollector ∅ ∅ ∅ [].

Definition set_definitions d (c : Collector) : Collector :=
  mkCollector d (co_emittedDefinitions c) (co_signatureMethods c) (co_signatureStack c).

Definition set_emittedDefinitions e (c : Collector) : Collector :=
  mkCollector (co_definitions c) e (co_signatureMethods c) (co_signatureStack c).

Definition set_signatureMethods m (c : Collector) : Collector :=
  mkCollector (co_definitions c) (co_emittedDefinitions c) m (co_signatureStack c).

Definition set_signatureStack l (c : Collector) : Collector :=
  mkCollector (co_definitions c) (co_emittedDefinitions c) (co_signatureMethods c) l.

Section Collect.
Context (sn : ScipNames) (gs : Program) (rbsEnabled : bool).
Context {St : Type} (recordAt : Z -> Event -> St -> option St).

Abbreviation names := (sy_names (pr_gs gs)).
Abbreviation state := (Collector * St)%type.

Definition double_quote : ascii := "034".

(** The name of a parameter at a location: a symbol literal with or without quotes, or the name itself *)
Definition parameterLoc (file name : Z) (loc : LocOffsets) : option LocOffsets :=
  text ← shortName names name;
  f ← fileData gs file;
  let len := Z.of_nat (length text) in
  let token := mkLocOffsets (beginLoc loc) (u32 (beginLoc loc + u32 len)) in
  found ← (if offsets_exists loc && offsets_empty loc && rbsEnabled && (beginLoc loc + len <=? Z.of_nat (length (source_ f)))
           then source ← sourceAt gs file token; Some (bool_decide (source = Some text))
           else Some false);
  if (found : bool) then Some token
  else
    source ← sourceAt gs file loc;
    Some (match source with
          | None | Some [] => noOffsets
          | Some source =>
              if str_eqb source text then loc
              else if str_eqb source (":"%char :: text) then mkLocOffsets (u32 (beginLoc loc + 1)) (endLoc loc)
              else if str_eqb source (":"%char :: double_quote :: text ++ [double_quote]) ||
                      str_eqb source (":"%char :: "'"%char :: text ++ ["'"%char])
              then mkLocOffsets (u32 (beginLoc loc + 2)) (u32 (endLoc loc - 1))
              else noOffsets
          end).

Definition definitionKey (sym : Z) (loc : LocOffsets) : Z * (Z * Z) := (sym, (beginLoc loc, endLoc loc)).

Definition define (ctx : CoreContext) (sym : Z) (loc : LocOffsets) (st : state) : option state :=
  if negb (offsets_exists loc) || offsets_empty loc ||
     bool_decide (definitionKey sym loc ∈ co_emittedDefinitions st.1)
  then Some st
  else
    s ← recordAt (ctx_owner ctx) (Definition_ (symbolOnly sym) None loc) st.2;
    Some (set_emittedDefinitions ({[definitionKey sym loc]} ∪ co_emittedDefinitions st.1) st.1, s).

(** [preTransformClassDef]: the signatures before a method belong to it. The [i]-th statement of the class at [p] has
    the place [i :: p]. *)
Fixpoint associate (p : Place) (i : nat) (sigs : list Place) (rhs : list Expr) (m : gmap Place Z) : gmap Place Z :=
  match rhs with
  | [] => m
  | stat :: rhs =>
      match stat with
      | Send _ fun_ _ flags _ _ _ =>
          associate p (S i) (if (fun_ =? n_sig sn) && sf_hasBlock flags then sigs ++ [i :: p] else sigs) rhs m
      | MethodDef _ _ _ symbol _ _ _ _ =>
          associate p (S i) [] rhs (fold_left (fun m sig => insertNew sig symbol m) sigs m)
      | _ => associate p (S i) sigs rhs m
      end
  end.

Definition typeParameterLoc (tp : TypeParameter) : Loc := default (noLoc 0) (last (tp_locs tp)).

Definition preTransformMethodDef (ctx : CoreContext) (symbol : Z) (st : state) : option state :=
  m ← methodData (pr_gs gs) symbol;
  foldM (fun st param =>
           tp ← typeParameterData (pr_gs gs) param;
           let loc := typeParameterLoc tp in
           if locFile loc =? ctx_file ctx then
             nameLoc ← parameterLoc (ctx_file ctx) (tp_name tp) (locOffsets loc);
             define ctx (makeSymbolRef KTypeParameter param) nameLoc st
           else Some st) st (typeParameters (me_typeParams m)).

Definition preTransformAssign (ctx : CoreContext) (p : Place) (lhs : Expr) (st : state) : option state :=
  match constantSymbol lhs with
  | None => Some st
  | Some sym =>
      isType ← isTypeSymbol gs sym;
      if (isType : bool) then define ctx sym (exprLoc lhs) (set_definitions ({[0%nat :: p]} ∪ co_definitions st.1) st.1, st.2)
      else Some st
  end.

Definition refer (ctx : CoreContext) (sym : Z) (loc : LocOffsets) (st : state) : option state :=
  s ← recordAt (ctx_owner ctx) (Reference (symbolOnly sym) None loc ReadAccess) st.2; Some (st.1, s).

Definition postTransformConstantLit (ctx : CoreContext) (p : Place) (constant : Expr) (sym : Z) (st : state) : option state :=
  isType ← isTypeSymbol gs sym;
  if (isType : bool) && negb (bool_decide (p ∈ co_definitions st.1)) && present (exprLoc constant)
  then refer ctx sym (exprLoc constant) st
  else Some st.

Definition preTransformSend (p : Place) (st : state) : option state :=
  Some (match co_signatureMethods st.1 !! p with
        | Some method => (set_signatureStack (co_signatureStack st.1 ++ [method]) st.1, st.2)
        | None => st
        end).

(** The name in [T.type_parameter(:name)] and its location *)
Definition typeParameterName (send : Expr) : option (Z * LocOffsets) :=
  match send with
  | Send _ fun_ _ flags numPosArgs recv args =>
      if (fun_ =? n_typeParameter (sn_cfg sn)) && sendRecvIsT recv && (numPosArgs =? 1) && negb (hasKwArgs flags numPosArgs args)
      then match args with Literal loc (NamedLiteralType LitSymbol name) :: _ => Some (name, loc) | _ => None end
      else None
  | _ => None
  end.

(** The first of the parameters that has the name *)
Fixpoint findParameter (text : str) (params : list Z) : option (option Z) :=
  match params with
  | [] => Some None
  | param :: params =>
      tp ← typeParameterData (pr_gs gs) param;
      paramText ← shortName names (tp_name tp);
      if str_eqb paramText text then Some (Some param) else findParameter text params
  end.

Definition referParameter (ctx : CoreContext) (owner name : Z) (argLoc : LocOffsets) (st : state) : option state :=
  m ← methodData (pr_gs gs) (symbolIndex owner);
  text ← shortName names name;
  param ← findParameter text (typeParameters (me_typeParams m));
  match param with
  | None => Some st
  | Some param =>
      loc ← parameterLoc (ctx_file ctx) name argLoc;
      if present loc then refer ctx (makeSymbolRef KTypeParameter param) loc st else Some st
  end.

Definition isMethodSymbol (sym : Z) : bool := bool_decide (symbolKind sym = Some KMethod).

(** The method of the innermost signature, or the owner of the context *)
Definition signatureOwner (ctx : CoreContext) (stack : list Z) : Z :=
  match last stack with None => ctx_owner ctx | Some method => makeSymbolRef KMethod method end.

Definition pop_back {A} (l : list A) : option (list A) := match l with [] => None | _ => Some (take (length l - 1) l) end.

Definition postTransformSend (ctx : CoreContext) (p : Place) (send : Expr) (st : state) : option state :=
  st ← match typeParameterName send with
       | Some (name, argLoc) =>
           let owner := signatureOwner ctx (co_signatureStack st.1) in
           if isMethodSymbol owner then referParameter ctx owner name argLoc st else Some st
       | None => Some st
       end;
  match co_signatureMethods st.1 !! p with
  | Some _ => stack ← pop_back (co_signatureStack st.1); Some (set_signatureStack stack st.1, st.2)
  | None => Some st
  end.

(** The hooks of [TypeSymbolCollector] *)
Definition collect (call : Call) (st : state) : option state :=
  let ctx := ca_ctx call in
  let p := ca_place call in
  match ca_phase call, ca_node call with
  | Pre, ClassDef _ _ _ _ rhs _ _ _ => Some (set_signatureMethods (associate p 0 [] rhs (co_signatureMethods st.1)) st.1, st.2)
  | Pre, MethodDef _ _ _ symbol _ _ _ _ => preTransformMethodDef ctx symbol st
  | Pre, Assign _ lhs _ => preTransformAssign ctx p lhs st
  | Pre, Send _ _ _ _ _ _ _ => preTransformSend p st
  | Post, Send _ _ _ _ _ _ _ => postTransformSend ctx p (ca_node call) st
  | Post, (KnownConstantLit _ _ | ResolvedConstantLit _ _ _ _ | FailedConstantLit _ _ _ _) =>
      match constantSymbol (ca_node call) with
      | Some sym => postTransformConstantLit ctx p (ca_node call) sym st
      | None => Some st
      end
  | _, _ => Some st
  end.

(** The collector of a file, on the tree of its top-level class *)
Definition collectTypeSymbols (ctx : CoreContext) (klass : Expr) (s : St) : option St :=
  snd <$> constTreeWalkClass collect ctx klass (newCollector, s).
End Collect.

(** ** What a collector may record *)

Section Recorded.
Context (sn : ScipNames) (gs : Program) (rbsEnabled : bool) (file : Z).
Context {St : Type} (recordAt : Z -> Event -> St -> option St).

(** Locations as they come from the tree and from the table of symbols, and those where something is recorded *)
Context (given good : LocOffsets -> Prop).
Context (Hgiven : forall loc, given loc -> present loc = true -> good loc).
Context (Hparam : forall name loc loc', given loc -> parameterLoc gs rbsEnabled file name loc = Some loc' -> present loc' = true -> good loc').
Context (Htypes : forall param tp, typeParameterData (pr_gs gs) param = Some tp ->
  locFile (typeParameterLoc tp) = file -> given (locOffsets (typeParameterLoc tp))).
Context (R : relation St) `{!PreOrder R}.
Context (Hrec : forall owner e s s' loc, recordAt owner e s = Some s' ->
  (exists sym, e = Definition_ sym None loc) \/ (exists sym roles, e = Reference sym None loc roles) -> good loc -> R s s').

Abbreviation state := (Collector * St)%type.

Definition within_R (st st' : state) : Prop := R st.2 st'.2.

#[local] Instance within_R_preorder : PreOrder within_R.
Proof. split; [intros st; red; reflexivity|intros st1 st2 st3 H1 H2; red; by transitivity st2.2]. Qed.

Lemma define_R ctx sym loc st st' : (present loc = true -> good loc) -> define recordAt ctx sym loc st = Some st' -> within_R st st'.
Proof.
  unfold define, within_R, present. destruct (offsets_exists loc); cbn [negb orb andb]; [|by intros _ [= <-]].
  destruct (offsets_empty loc); cbn [negb orb]; [by intros _ [= <-]|]. destruct (bool_decide _); [by intros _ [= <-]|].
  intros Hg (s & E & [= <-])%bind_Some. eapply Hrec; [exact E|left; by eexists|auto].
Qed.

Lemma refer_R ctx sym loc st st' : good loc -> refer recordAt ctx sym loc st = Some st' -> within_R st st'.
Proof. intros Hg (s & E & [= <-])%bind_Some. eapply Hrec; [exact E|right; by eexists _, _|done]. Qed.

Lemma preTransformMethodDef_R ctx symbol st st' : ctx_file ctx = file ->
  preTransformMethodDef gs rbsEnabled recordAt ctx symbol st = Some st' -> within_R st st'.
Proof.
  intros Hc (m & _ & E)%bind_Some. revert st E. induction (typeParameters (me_typeParams m)) as [|param params IH]; intros st E.
  { injection E as <-. unfold within_R. reflexivity. }
  cbn in E. apply bind_Some in E as (st1 & E1 & E). transitivity st1; [|by apply IH]. clear E IH.
  apply bind_Some in E1 as (tp & Htp & E1). rewrite Hc in E1. destruct (Z.eqb_spec (locFile (typeParameterLoc tp)) file) as [Hl|]; [|by injection E1 as <-].
  apply bind_Some in E1 as (loc & El & E1). eapply define_R; [|exact E1]. intros Hp. by eapply Hparam; [eapply Htypes| |].
Qed.

Lemma preTransformAssign_R ctx p lhs st st' : Forall given (node_locs lhs) ->
  preTransformAssign gs recordAt ctx p lhs st = Some st' -> within_R st st'.
Proof.
  intros Hl. unfold preTransformAssign. destruct (constantSymbol lhs) as [sym|] eqn:Es; [|by intros [= <-]].
  intros (isType & _ & E)%bind_Some. destruct isType; [|by injection E as <-].
  change (within_R (set_definitions ({[0%nat :: p]} ∪ co_definitions st.1) st.1, st.2) st'). eapply define_R; [|exact E].
  apply Hgiven. destruct lhs; try done; by apply Forall_cons in Hl as [Hl _].
Qed.

Lemma postTransformConstantLit_R ctx p constant sym st st' : Forall given (node_locs constant) -> constantSymbol constant = Some sym ->
  postTransformConstantLit gs recordAt ctx p constant sym st = Some st' -> within_R st st'.
Proof.
  intros Hl Hs (isType & _ & E)%bind_Some. destruct (isType && _ && _) eqn:Hp; [|injection E as <-; unfold within_R; reflexivity].
  apply andb_true_iff in Hp as [_ Hp]. eapply refer_R; [|exact E]. apply Hgiven; [|done].
  destruct constant; try done; by apply Forall_cons in Hl as [Hl _].
Qed.

Lemma postTransformSend_R ctx p send st st' : ctx_file ctx = file ->
  (forall name loc, typeParameterName sn send = Some (name, loc) -> given loc) ->
  postTransformSend sn gs rbsEnabled recordAt ctx p send st = Some st' -> within_R st st'.
Proof.
  intros Hc Hl (st1 & E1 & E)%bind_Some. transitivity st1.
  - destruct (typeParameterName sn send) as [[name argLoc]|] eqn:Et; [|by injection E1 as <-].
    cbv zeta in E1. destruct (isMethodSymbol _); [|by injection E1 as <-]. apply bind_Some in E1 as (m & _ & E1).
    apply bind_Some in E1 as (text & _ & E1). apply bind_Some in E1 as ([param|] & _ & E1); [|by injection E1 as <-].
    apply bind_Some in E1 as (loc & El & E1). destruct (present loc) eqn:Hp; [|by injection E1 as <-].
    eapply refer_R; [|exact E1]. rewrite Hc in El. eapply Hparam; [by eapply Hl|done|done].
  - destruct (_ !! p); [|by injection E as <-]. apply bind_Some in E as (stack & _ & [= <-]). red; reflexivity.
Qed.

(** The locations at a node *)
Definition node_given (v : Expr) : Prop := Forall given (node_locs v).

Lemma collect_R call st st' : ctx_file (ca_ctx call) = file -> everyNode node_given (ca_node call) ->
  collect sn gs rbsEnabled recordAt call st = Some st' -> within_R st st'.
Proof.
  intros Hc Hn. inversion Hn as [v Hv Hk Ev]. unfold collect.
  destruct (ca_phase call), (ca_node call) eqn:Enode; try (intros [= <-]; unfold within_R; reflexivity).
  - intros [= <-]. unfold within_R, preTransformSend. by destruct (_ !! _).
  - by apply preTransformMethodDef_R.
  - apply preTransformAssign_R. cbn in Hk. apply Forall_cons in Hk as [Hk _]. by inversion Hk.
  - apply postTransformSend_R; [done|]. intros name loc' Ht. unfold typeParameterName in Ht.
    destruct (_ && _); [|done]. cbn in Hk. apply Forall_cons in Hk as [_ Hk].
    destruct args as [|[] args]; try done. destruct value; try done. destruct kind; try done. injection Ht as _ <-.
    apply Forall_cons in Hk as [Hk _]. inversion Hk as [? H _]. by apply Forall_cons in H as [H _].
  - by apply postTransformConstantLit_R.
  - by apply postTransformConstantLit_R.
Qed.

Lemma collectTypeSymbols_R ctx klass s s' : ctx_file ctx = file -> everyNode node_given klass ->
  collectTypeSymbols sn gs rbsEnabled recordAt ctx klass s = Some s' -> R s s'.
Proof.
  intros Hc Hn ([c s1] & E & ->)%fmap_Some. rewrite (constTreeWalkClass_calls Full) in E by done.
  apply bind_Some in E as (cs & Hcs & E).
  change (within_R (newCollector, s) (c, s1)).
  assert (Hall : forall call, call ∈ cs -> ctx_file (ca_ctx call) = file /\ everyNode node_given (ca_node call)).
  { intros call Hin. destruct (nodeCalls_within _ _ _ _ _ _ Hcs Hin) as [Hw _]. split; [by rewrite (within_file _ _ _ _ _ _ _ Hw)|].
    by eapply within_everyNode. }
  clear Hcs. revert E Hall. generalize (newCollector, s). induction cs as [|call cs IH]; intros st E Hall.
  { injection E as <-. reflexivity. }
  cbn in E. apply bind_Some in E as (st1 & E1 & E). destruct (Hall call ltac:(by left)).
  transitivity st1; [by eapply collect_R|]. apply (IH st1 E). intros call' Hin. apply Hall. by right.
Qed.
End Recorded.

(** ** Where the name of a parameter is found *)

Section Found.
Context (gs : Program) (rbsEnabled : bool) (file : Z) (f : File).
Context (Hf : fileData gs file = Some f) (Hwf : File_wf f).

Lemma sourceAt_exists loc source : sourceAt gs file loc = Some (Some source) -> offsets_exists loc = true.
Proof.
  unfold sourceAt. rewrite Hf. cbn [mbind option_bind]. unfold loc_source, loc_exists. cbn [locFile locOffsets].
  destruct (offsets_exists loc); [done|]. by rewrite andb_false_r.
Qed.

(** What [parameterLoc] finds is the name of the parameter, in the file. *)
Lemma parameterLoc_found name loc loc' : placed f loc -> parameterLoc gs rbsEnabled file name loc = Some loc' -> present loc' = true ->
  exists text, shortName (sy_names (pr_gs gs)) name = Some text /\ spells f (text, beginLoc loc', endLoc loc').
Proof.
  intros Hp (text & Ht & E)%bind_Some Hpr. exists text. split; [done|]. rewrite Hf in E. cbn [mbind option_bind] in E.
  apply bind_Some in E as (found & Efound & E). destruct found.
  - injection E as <-. destruct (offsets_exists loc) eqn:Ex; [|done]. cbn [andb] in Efound. destruct (offsets_empty loc && rbsEnabled); [|done].
    cbn [andb] in Efound. specialize (Hp Ex) as [Hb He]. destruct (Z.leb_spec (beginLoc loc + Z.of_nat (length text)) (Z.of_nat (length (source_ f)))) as [Hle|]; [|done].
    apply bind_Some in Efound as (source & Es & [= Hd]). apply bool_decide_eq_true in Hd as ->.
    rewrite (u32_offset f Hwf (Z.of_nat (length text))), (u32_offset f Hwf (_ + _)) in Es |- * by lia.
    destruct (sourceAt_spells gs file f Hf Hwf (mkLocOffsets (beginLoc loc) (beginLoc loc + Z.of_nat (length text)))) as (text' & Es' & Hs); [unfold inside; cbn; lia|].
    rewrite Es in Es'. by injection Es' as <-.
  - clear Efound. apply bind_Some in E as ([[|c source]|] & Es & [= <-]); [done| |done].
    destruct (sourceAt_spells gs file f Hf Hwf loc (Hp (sourceAt_exists _ _ Es))) as (text' & Es' & Hs).
    rewrite Es in Es'. injection Es' as <-. pose proof Hs as (Hb & He & Hlen & _).
    destruct (str_eqb (c :: source) text) eqn:E1; [by apply bool_decide_eq_true in E1 as <-|].
    destruct (str_eqb (c :: source) (":"%char :: text)) eqn:E2.
    { apply bool_decide_eq_true in E2. rewrite E2 in *. cbn [length] in *. pose proof (spells_part f _ _ _ 1 (length text) Hs ltac:(cbn; lia)) as Hs1.
      change (drop 1 (":"%char :: text)) with text in Hs1. cbn [beginLoc endLoc] in *. rewrite take_ge in Hs1 by lia. rewrite (u32_offset f Hwf) by lia. eapply eq_rect; [exact Hs1|]. do 2 f_equal; lia. }
    destruct (_ || _) eqn:E3; [|done].
    assert (Hquote : exists q, c :: source = ":"%char :: q :: text ++ [q]).
    { apply orb_true_iff in E3 as [E3|E3]; apply bool_decide_eq_true in E3; rewrite E3; by eexists. }
    destruct Hquote as [q Hq]. rewrite Hq in *. cbn [length] in *. rewrite length_app in *. cbn [length] in *.
    pose proof (spells_part f _ _ _ 2 (length text) Hs ltac:(cbn; rewrite length_app; cbn; lia)) as Hs1.
    change (drop 2 (":"%char :: q :: text ++ [q])) with (text ++ [q]) in Hs1. cbn [beginLoc endLoc] in *. rewrite take_app_length in Hs1. rewrite !(u32_offset f Hwf) by lia.
    eapply eq_rect; [exact Hs1|]. do 2 f_equal; lia.
Qed.
End Found.
