(* ===== verification/ScipExtension.v ===== *)
(** * The extension of the pipeline that writes the index

    Models [SCIPSemanticExtension] and [IndexWriter] of src/scip_indexer/SCIPIndexer.cc,
    [saveQualifierReferences] of [SCIPState], and [GemMapping::populateFromNDJSON] of
    SCIPGemMetadata.cc. Every thread has a state of its own in a table behind a lock, so a call of the
    extension changes the entry of the thread that makes it; a thread is known by a number. Arguments
    of the model are those of ScipState and ScipTraversal, the JSON parser, paths of the file system,
    and the order in which the table of the threads is visited. *)

From S2P Require Import Prelude Pickler FileHash Files Locs Types NameTable NameText Symbols SymbolRefs Linearize.
From S2P Require Import Ast UIntSet TreeWalk Cfg CfgTopo CfgReads CfgArgs CfgFinalize CfgBuild.
From S2P Require Import ScipUtils ScipProto ScipGem ScipSymbolRef ScipState ScipFieldResolve ScipOccurrences.
From S2P Require Import ScipTraversal ScipReplay ScipPlaces ScipTypeSymbols.

#[local] Open Scope Z_scope.

(** ** The map from paths to gems *)

(** [std::filesystem]: [lexically_normal], [lexically_relative], [operator/] and [operator==] of paths *)
Record PathOps := mkPathOps {
  lexically_normal : str -> str; lexically_relative : str -> str -> str; path_join : str -> str -> str;
  same_path : str -> str -> bool }.

Definition is_absolute (path : str) : bool := match path with c :: _ => char_eqb c "/" | [] => false end.

Fixpoint dropSpaces (s : str) : str :=
  match s with c :: s' => if space_class c then dropSpaces s' else s | [] => [] end.

Definition stripAsciiWhitespace (s : str) : str := rev (dropSpaces (rev (dropSpaces s))).

Section Mapping.
Context (gs : Program) (paths : PathOps) (currentDir : str).
(** The members [path] and [gem] of a line that is an object in which they are strings *)
Context (parseEntry : str -> option (str * str)).

Fixpoint findFrom (n : Z) (path : str) (files : list File) : Z :=
  match files with
  | [] => 0
  | f :: files => if str_eqb (path_ f) path then n else findFrom (n + 1) path files
  end.

(** [GlobalState::findFileByPath]; 0 is the reference to no file. *)
Definition findFileByPath (path : str) : Z := findFrom 1 path (pr_files gs).

Definition alternatePaths (path : str) : list str :=
  let normalized := lexically_normal paths path in
  (if same_path paths normalized path then [] else [normalized]) ++
  [lexically_normal paths (if is_absolute normalized then lexically_relative paths normalized currentDir
                           else path_join paths currentDir normalized)].

Definition findMapped (path : str) : Z :=
  let fileRef := findFileByPath path in
  if negb (fileRef =? 0) then fileRef
  else default 0 (List.find (fun r => negb (r =? 0)) (findFileByPath <$> alternatePaths path)).

(** The map, the number of unknown paths, and those that are reported *)
Definition mapLine (st : GemMapping * Z * list str) (line : str) : GemMapping * Z * list str :=
  let '(m, errorCount, reported) := st in
  match stripAsciiWhitespace line with
  | [] => st
  | jsonLine =>
      match parseEntry jsonLine with
      | None => st
      | Some (jsonPath, gem) =>
          let fileRef := findMapped jsonPath in
          if fileRef =? 0
          then (m, u32 (errorCount + 1), if u32 (errorCount + 1) <? 5 then reported ++ [jsonPath] else reported)
          else
            match tryParse gem with
            | None => st
            | Some metadata =>
                (mkGemMapping (currentGem m) (<[fileRef := metadata]> (gem_map m)) (stdlibGem m) (globalPlaceholderGem m),
                 errorCount, reported)
            end
      end
  end.

Definition populateFromNDJSON (contents : str) (m : GemMapping) : GemMapping * Z * list str :=
  fold_left mapLine (getlines contents) (m, 0, []).
End Mapping.

(** ** The state of the extension *)

Record Config := mkConfig { gemMetadata : str; gemMapPath : str; legacyTModule : bool }.

(** The resolver of fields is part of [SCIPState] in the source. *)
Abbreviation ThreadState := (SCIPState * FieldResolver)%type.

Abbreviation StateMap := (gmap nat ThreadState).

Record Extension := mkExtension {
  indexFilePath : str; config : Config; ex_gemMap : GemMapping; ex_states : StateMap }.

Definition set_states (states : StateMap) (x : Extension) : Extension :=
  mkExtension (indexFilePath x) (config x) (ex_gemMap x) states.

Definition deepCopy (x : Extension) : Extension := set_states ∅ x.

Definition newThreadState (gems : GemMapping) : ThreadState := (newSCIPState gems, mkFieldResolver ∅ (mkBasicQueue [] 0)).

Definition getSCIPState (thread : nat) (x : Extension) : ThreadState :=
  default (newThreadState (ex_gemMap x)) (ex_states x !! thread).

Definition doNothing (x : Extension) : bool := is_empty (indexFilePath x).

Definition cacheKey (x : Extension) : str :=
  if legacyTModule (config x) then s! "scip-ruby:15:legacy-t-module" else s! "scip-ruby:15".

Section Prepare.
Context (readFile : str -> str) (configPaths : list str) (currentDirName : str).
Context (gs : Program) (paths : PathOps) (currentDir : str) (parseEntry : str -> option (str * str)).

(** The mapping, the errors of the gem and the paths that are reported *)
Definition prepareForTypechecking (x : Extension) : Extension * list GemMetadataError * list str :=
  let given := default (mkGemMetadata [] []) (tryParse (gemMetadata (config x))) in
  let '(gem, errors) :=
    if is_empty (gm_name given) || is_empty (gm_version given)
    then readFromConfig readFile configPaths currentDirName
    else (given, []) in
  let marked := markCurrentGem gem (ex_gemMap x) in
  let '(gems, reported) :=
    if is_empty (gemMapPath (config x)) then (marked, [])
    else let '(gems, _, reported) := populateFromNDJSON gs paths currentDir parseEntry (readFile (gemMapPath (config x))) marked in
         (gems, reported) in
  (mkExtension (indexFilePath x) (config x) gems (ex_states x), errors, reported).
End Prepare.

(** ** Calls of the pipeline *)

Inductive ExtensionCall :=
| TypecheckClass (klass : Expr)
| TypecheckMethod (methodDef : Expr)
| Typecheck (cfg : CFG) (methodDef : option Expr)
| FinishTypecheckFile.

Section Calls.
Context (sn : ScipNames) (minitest : list Z) (gs : Program) (ty : TypeOps) (rbsEnabled : bool).
Context (unresolvedFields : gmap Z (gset Z)).
Context (sortAliases : list (GenericSymbolRef * LocOffsets) -> list (GenericSymbolRef * LocOffsets) * bool).
Context (decode : str -> option nat) (sortR : list Relationship -> list Relationship)
  (sortO : list Occurrence -> list Occurrence) (sortS : list SymbolInformation -> list SymbolInformation).
Context (showType : TypePtr -> str) (docStrings : GenericSymbolRef -> TypePtr -> Loc -> option (list str)).
Context (relativePath : str -> str).

Abbreviation saveDef := (ScipState.saveDefinition gs decode sortR docStrings).

(** The reference of [saveQualifierReferences] to one constant *)
Definition qualifierRef (symbol : Z) : option (option GenericSymbolRef) :=
  if symbol_exists symbol && isClassOrModule symbol then Some (Some (symbolOnly symbol))
  else if symbol_exists symbol && bool_decide (symbolKind symbol = Some KFieldOrStaticField) then
    field ← SymbolRefs.fieldData (pr_gs gs) (symbolIndex symbol);
    Some (Some (fieldRef (classSymbol (fi_owner field)) (fi_name field) (fi_resultType field)))
  else Some None.

Definition saveQualifier (file symbol : Z) (loc : LocOffsets) (st : SCIPState) : option (Status * SCIPState) :=
  symRef ← qualifierRef symbol;
  match symRef with
  | Some symRef => saveReference gs decode docStrings st symbol file symRef None loc 0
  | None => Some (OkStatus, st)
  end.

Fixpoint saveQualifierReferences (file : Z) (expr : Expr) (st : SCIPState) : option (Status * SCIPState) :=
  match expr with
  | KnownConstantLit loc symbol => saveQualifier file symbol loc st
  | ResolvedConstantLit symbol loc _ scope =>
      '(status, st) ← saveQualifier file symbol loc st;
      match status with OkStatus => saveQualifierReferences file scope st | _ => Some (status, st) end
  | FailedConstantLit _ loc _ scope =>
      '(status, st) ← saveQualifier file stubModule loc st;
      match status with OkStatus => saveQualifierReferences file scope st | _ => Some (status, st) end
  | _ => Some (OkStatus, st)
  end.

(** The scope of the literal that a constant was resolved from *)
Definition originalScope (e : Expr) : option Expr :=
  match e with ResolvedConstantLit _ _ _ scope | FailedConstantLit _ _ _ scope => Some scope | _ => None end.

Definition recordAt (file owner : Z) (e : Event) (st : SCIPState) : option SCIPState :=
  @record SCIPState (scipRecorder gs decode sortR showType docStrings owner file) e st.

(** Failed states are ignored, as in builds without assertions. *)
Definition typecheckClass (file : Z) (klass : Expr) (st : SCIPState) : option SCIPState :=
  match klass with
  | ClassDef loc _ symbol _ _ name ancestors _ =>
      st ← (if symbol =? root
            then collectTypeSymbols sn gs rbsEnabled (recordAt file) (mkContext (classSymbol symbol) file) klass st
            else Some st);
      if isEmptyTree name then Some st
      else
        let nameLoc := exprLoc name in
        if negb (offsets_exists nameLoc) || offsets_empty nameLoc then Some st
        else
          '(_, st) ← saveDef st file (symbolOnly (classSymbol symbol)) None (Some nameLoc) (Some (mkLoc file loc));
          st ← match originalScope name with
               | Some scope => snd <$> saveQualifierReferences file scope st
               | None => Some st
               end;
          foldM (fun st ancestor => snd <$> saveQualifierReferences file ancestor st) st ancestors
  | _ => None
  end.

(** The location of the name of a method in its file *)
Definition methodNameLoc (f : File) (file name : Z) (declLoc nameLoc : LocOffsets) : option Loc :=
  let loc := mkLoc file (if offsets_exists nameLoc then nameLoc else declLoc) in
  if loc_exists loc && offsets_empty (locOffsets loc) && offsets_exists nameLoc then
    methodName ← shortName (sy_names (pr_gs gs)) name;
    let sourceNameLoc := adjustLen f (mkLoc file nameLoc) 0 (Z.of_nat (length methodName)) in
    source ← loc_source f sourceNameLoc;
    Some (if bool_decide (source = Some methodName) then sourceNameLoc else loc)
  else Some loc.

Definition typecheckMethod (file : Z) (methodDef : Expr) (st : SCIPState) : option SCIPState :=
  match methodDef with
  | MethodDef loc declLoc nameLoc symbol _ params name flags =>
      if name =? n_staticInit (sy_wk (pr_gs gs)) then Some st
      else
        f ← fileData gs file;
        st ← (if negb (mdf_discardDef flags) || offsets_exists nameLoc then
                nameLoc ← methodNameLoc f file name declLoc nameLoc;
                if loc_exists nameLoc && negb (offsets_empty (locOffsets nameLoc))
                then snd <$> saveDef st file (methodRef symbol) None (Some (locOffsets nameLoc)) (Some (mkLoc file loc))
                else Some st
              else Some st);
        keywords ← forEachKeywordParameter gs ty file symbol params;
        foldM (fun st '(sym, _, loc) => snd <$> saveDef st file sym None (Some loc) None) st keywords
  | _ => None
  end.

(** [minitest] are the names of the methods of test libraries that take a block. *)
Definition isSyntheticMethodWithHandwrittenBody (name : Z) (flags : MethodDefFlags) : option bool :=
  if mdf_hasHandwrittenBody flags then Some true
  else if name =? noName then Some false
  else if bool_decide (name ∈ minitest) then Some true
  else match nameKind name with
       | Some UTF8 =>
           text ← dataUtf8 (sy_names (pr_gs gs)) name;
           Some (is_prefix s! "<it '" text || is_prefix s! "<describe " text)
       | _ => Some false
       end.

(** Is the body of the method made by a rewriter? *)
Definition isSynthetic (methodDef : option Expr) : option bool :=
  match methodDef with
  | Some (MethodDef _ _ _ _ _ _ name flags) =>
      if mdf_isRewriterSynthesized flags || mdf_isAttrBestEffortUIOnly flags
      then negb <$> isSyntheticMethodWithHandwrittenBody name flags
      else Some false
  | _ => Some false
  end.

Definition definitionOf (methodDef : Expr) : option (Z * list Expr) :=
  match methodDef with MethodDef _ _ _ symbol _ params _ _ => Some (symbol, params) | _ => None end.

Definition typecheck (file : Z) (cfg : CFG) (methodDef : option Expr) (t : ThreadState) : option ThreadState :=
  synthetic ← isSynthetic methodDef;
  if (synthetic : bool) then Some t
  else
    '(resolver, (_, st)) ←
      @traverse sn gs ty unresolvedFields sortAliases (makeSymbolRef KMethod (cfg_symbol cfg)) file SCIPState
        (scipRecorder gs decode sortR showType docStrings (makeSymbolRef KMethod (cfg_symbol cfg)) file) cfg
        (methodDef ← methodDef; definitionOf methodDef) t.2 t.1;
    Some (clearFunctionLocalCaches st, resolver).

Definition finishTypecheckFile (file : Z) (st : SCIPState) : option SCIPState :=
  st ← finalizeRefOnlySymbolInfos gs decode sortR st file;
  saveDocument gs sortO sortS relativePath st file.

(** What a call does to the state of its thread *)
Definition perform (file : Z) (call : ExtensionCall) (t : ThreadState) : option ThreadState :=
  match call with
  | TypecheckClass klass => st ← typecheckClass file klass t.1; Some (st, t.2)
  | TypecheckMethod methodDef => st ← typecheckMethod file methodDef t.1; Some (st, t.2)
  | Typecheck cfg methodDef => typecheck file cfg methodDef t
  | FinishTypecheckFile => st ← finishTypecheckFile file t.1; Some (st, t.2)
  end.

(** Calls that return before they ask for the state of the thread create none. *)
Definition usesState (call : ExtensionCall) : bool :=
  match call with
  | TypecheckClass (ClassDef _ _ symbol _ _ name _ _) => (symbol =? root) || (negb (isEmptyTree name) && present (exprLoc name))
  | TypecheckMethod (MethodDef _ _ _ _ _ _ name _) => negb (name =? n_staticInit (sy_wk (pr_gs gs)))
  | _ => true
  end.

Definition extensionCall (thread : nat) (file : Z) (call : ExtensionCall) (x : Extension) : option Extension :=
  if doNothing x || negb (usesState call) then Some x
  else t ← perform file call (getSCIPState thread x); Some (set_states (<[thread := t]> (ex_states x)) x).
End Calls.

(** ** The index file *)

Record Metadata := mkMetadata {
  protocolVersion : Z; tool_name : str; tool_version : str; tool_arguments : list str; project_root : str;
  text_document_encoding : Z }.

(** A message of the index. The file is a sequence of messages, whose repeated fields a reader appends. *)
Record Index := mkIndex {
  ix_metadata : option Metadata; ix_documents : list Document; ix_external_symbols : list SymbolInformation }.

Record IndexWriter := mkIndexWriter { iw_index : Index; iw_output : list Index }.

Definition write (w : IndexWriter) : IndexWriter :=
  mkIndexWriter (mkIndex (ix_metadata (iw_index w)) [] []) (iw_output w ++ [iw_index w]).

Definition writeDocument (w : IndexWriter) (doc : Document) : IndexWriter :=
  let i := iw_index w in
  write (mkIndexWriter (mkIndex (ix_metadata i) (ix_documents i ++ [doc]) (ix_external_symbols i)) (iw_output w)).

Definition writeExternalSymbol (w : IndexWriter) (symbolInfo : SymbolInformation) : IndexWriter :=
  let i := iw_index w in
  let external := ix_external_symbols i ++ [symbolInfo] in
  let w := mkIndexWriter (mkIndex (ix_metadata i) (ix_documents i) external) (iw_output w) in
  if (Z.of_nat (length external)) mod 1024 =? 0 then write w else w.

Section Finish.
Context (visitStates : StateMap -> list ThreadState).
Context (sortDocuments : list Document -> list Document) (sortSymbols : list SymbolInformation -> list SymbolInformation).
Context (scip_ruby_version currentPath : str).

Definition indexMetadata : Metadata :=
  mkMetadata 0 s! "scip-ruby" scip_ruby_version [s! "FIXME"] (s! "file://" ++ currentPath) 1.

(** The messages for the documents and the symbols; the last one is written by the destructor of the writer. *)
Definition writeIndex (docs : list Document) (symbols : list SymbolInformation) : list Index :=
  let w := mkIndexWriter (mkIndex None [] []) [mkIndex (Some indexMetadata) [] []] in
  iw_output (write (fold_left writeExternalSymbol symbols (fold_left writeDocument docs w))).

(** The messages in the file, if one is written, and the extension without states *)
Definition finishTypecheck (x : Extension) : option (list Index) * Extension :=
  if doNothing x then (None, x)
  else
    let allStates := visitStates (ex_states x) in
    let allDocuments := concat ((fun t : ThreadState => documents t.1) <$> allStates) in
    let allExternalSymbols := concat ((fun t : ThreadState => externalSymbols t.1) <$> allStates) in
    (Some (writeIndex (sortDocuments allDocuments) (sortSymbols allExternalSymbols)), set_states ∅ x).
End Finish.

(** What a reader of the file sees *)
Definition readDocuments (messages : list Index) : list Document := concat (ix_documents <$> messages).

Definition readExternalSymbols (messages : list Index) : list SymbolInformation := concat (ix_external_symbols <$> messages).
