(* ===== verification/ScipCalls.v ===== *)
(** * What a call of the extension does

    A call of the extension of src/scip_indexer/SCIPIndexer.cc for a class, a method, a graph or the end of
    a file is a run of the indexer on the state of the thread, if the places in the tree and in the
    graph lie in the file. Only the call at the end of a file adds a document, which has the path of
    the file. *)

From S2P Require Import Prelude Pickler FileHash Files Locs Types NameTable NameText Symbols SymbolRefs Linearize.
From S2P Require Import Ast UIntSet TreeWalk Cfg CfgTopo CfgReads CfgArgs CfgFinalize CfgBuild.
From S2P Require Import ScipUtils ScipProto ScipGem ScipSymbolRef ScipState ScipFieldResolve ScipOccurrences.
From S2P Require Import ScipTraversal ScipReplay ScipPlaces ScipIndexing ScipDocuments ScipTypeSymbols ScipExtension.

#[local] Open Scope Z_scope.

(** ** Trees with places in the file *)

Definition insideb (f : File) (loc : LocOffsets) : bool := offsets_exists loc && placedb f loc.

(** The constants of a qualified name have places. *)
Fixpoint qualifierPlaced (f : File) (e : Expr) : bool :=
  match e with
  | KnownConstantLit loc _ => insideb f loc
  | ResolvedConstantLit _ loc _ scope | FailedConstantLit _ loc _ scope => insideb f loc && qualifierPlaced f scope
  | _ => true
  end.

Definition nodePlaced (f : File) (v : Expr) : bool :=
  forallb (placedb f) (node_locs v) &&
  match v with
  | ClassDef _ _ _ _ _ name ancestors _ =>
      from_option (qualifierPlaced f) true (originalScope name) && forallb (qualifierPlaced f) ancestors
  | _ => true
  end.

Definition treePlaced (f : File) : Expr -> Prop := everyNode (fun v => nodePlaced f v = true).

Definition typeParametersPlaced (gs : Program) (file : Z) (f : File) : bool :=
  forallb (fun tp => let loc := typeParameterLoc tp in negb (locFile loc =? file) || placedb f (locOffsets loc))
    (typeParams (sy_table (pr_gs gs))).

Definition callPlaced (sn : ScipNames) (f : File) (call : ExtensionCall) : Prop :=
  match call with
  | TypecheckClass klass => treePlaced f klass
  | TypecheckMethod methodDef => treePlaced f methodDef
  | Typecheck cfg methodDef =>
      graphPlaced sn f cfg = true /\ (forall m, methodDef = Some m -> treePlaced f m)
  | FinishTypecheckFile => True
  end.

Lemma insideb_inside f loc : insideb f loc = true -> inside f loc.
Proof. intros [Hx Hp]%andb_true_iff. apply placedb_spec in Hp. by apply Hp. Qed.

Lemma treePlaced_locs f v : treePlaced f v -> Forall (placed f) (node_locs v).
Proof.
  intros [v' H _]. apply andb_true_iff in H as [H _]. apply Forall_forall. intros loc Hl. apply placedb_spec.
  by eapply forallb_elem in H.
Qed.

Lemma everyNode_impl (P Q : Expr -> Prop) v : (forall x, P x -> Q x) -> everyNode P v -> everyNode Q v.
Proof.
  intros HPQ. revert v. fix IH 2. intros v [v' Hp Hk]. constructor; [by apply HPQ|].
  induction Hk as [|x l Hx Hl IHl]; constructor; [by apply IH|done].
Qed.

Lemma treePlaced_given f v : treePlaced f v -> everyNode (node_given (placed f)) v.
Proof.
  apply everyNode_impl. intros x H. apply andb_true_iff in H as [H _]. apply Forall_forall. intros loc Hl.
  apply placedb_spec. by eapply forallb_elem in H.
Qed.

Lemma treePlaced_kid f v x : treePlaced f v -> x ∈ kids v -> treePlaced f x.
Proof. intros [v' _ Hk] Hx. by eapply Forall_forall in Hk. Qed.

Lemma arg2Local_placed f e loc local : treePlaced f e -> arg2Local e = Some (loc, local) -> placed f loc.
Proof.
  revert loc local. induction e; intros loc' local' Hp; try done; cbn [arg2Local].
  { intros [= <- _]. apply treePlaced_locs in Hp. by apply Forall_cons in Hp as [? _]. }
  all: match goal with IH : forall loc local, _ |- _ => by eapply IH, (treePlaced_kid _ _ _ Hp); left end.
Qed.

Lemma params_placed f params : (forall x, x ∈ params -> treePlaced f x) -> forallb (paramPlaced f) params = true.
Proof.
  intros H. apply forallb_elem. intros x Hx. destruct x; try done. cbn. apply placedb_spec.
  apply H, treePlaced_locs in Hx. by apply Forall_cons in Hx as [? _].
Qed.

(** ** Calls are runs *)

Section Runs.
Context (sn : ScipNames) (minitest : list Z) (gs : Program) (ty : TypeOps) (rbsEnabled : bool).
Context (unresolvedFields : gmap Z (gset Z)).
Context (sortAliases : list (GenericSymbolRef * LocOffsets) -> list (GenericSymbolRef * LocOffsets) * bool).
Context (decode : str -> option nat) (sortR : list Relationship -> list Relationship)
  (sortO : list Occurrence -> list Occurrence) (sortS : list SymbolInformation -> list SymbolInformation).
Context (showType : TypePtr -> str) (docStrings : GenericSymbolRef -> TypePtr -> Loc -> option (list str)).
Context (relativePath : str -> str).

Abbreviation step := (ScipState.step gs decode sortR sortO sortS showType docStrings).
Abbreviation performCall :=
  (perform sn minitest gs ty rbsEnabled unresolvedFields sortAliases decode sortR sortO sortS showType docStrings relativePath).

Context (Hfiles : forall file f, fileData gs file = Some f -> File_wf f /\ is_size (length (source_ f))).
Context (Hsort : forall todo, (sortAliases todo).1 ≡ₚ todo).
Context (file : Z) (f : File) (Hf : fileData gs file = Some f).

Abbreviation Hwf := (proj1 (Hfiles file f Hf)).

Lemma located_inside loc : inside f loc -> located gs (mkLoc file loc).
Proof. intros Hi f'. cbn. rewrite Hf. by intros [= <-]. Qed.

Lemma definition_runs sym alias loc enc st status st' : placed f loc ->
  saveDefinition gs decode sortR docStrings st file sym alias (Some loc) enc = Some (status, st') -> rtc step st st'.
Proof.
  intros Hp E. apply rtc_once. eapply step_definition; [|exact E]. intros l [= <-] Hl. apply located_inside, Hp.
  unfold loc_exists in Hl. by apply andb_true_iff in Hl as [_ Hl].
Qed.

Lemma reference_runs owner sym type loc roles st status st' : inside f loc ->
  saveReference gs decode docStrings st owner file sym type loc roles = Some (status, st') -> rtc step st st'.
Proof.
  intros Hi E. apply rtc_once. eapply step_reference; [by eapply file_positive|by apply located_inside|exact E].
Qed.

Lemma qualifier_runs symbol loc st status st' : inside f loc ->
  saveQualifier gs decode docStrings file symbol loc st = Some (status, st') -> rtc step st st'.
Proof.
  intros Hi ([symRef|] & _ & E)%bind_Some; [by eapply reference_runs|injection E as <- <-; apply rtc_refl].
Qed.

Lemma qualifierReferences_runs expr st status st' : qualifierPlaced f expr = true ->
  saveQualifierReferences gs decode docStrings file expr st = Some (status, st') -> rtc step st st'.
Proof.
  revert st status st'. induction expr; intros st status st' Hq; cbn [saveQualifierReferences];
    try (intros [= <- <-]; apply rtc_refl); cbn [qualifierPlaced] in Hq.
  - apply qualifier_runs. by apply insideb_inside.
  - apply andb_true_iff in Hq as [Hl Hq]. intros ([status1 st1] & E1 & E)%bind_Some.
    apply qualifier_runs in E1; [|by apply insideb_inside]. etransitivity; [exact E1|].
    destruct status1; [by eapply IHexpr|injection E as <- <-; apply rtc_refl..].
  - apply andb_true_iff in Hq as [Hl Hq]. intros ([status1 st1] & E1 & E)%bind_Some.
    apply qualifier_runs in E1; [|by apply insideb_inside]. etransitivity; [exact E1|].
    destruct status1; [by eapply IHexpr|injection E as <- <-; apply rtc_refl..].
Qed.

Lemma state_runs_foldM {A} (g : SCIPState -> A -> option SCIPState) l : (forall x st st', x ∈ l -> g st x = Some st' -> rtc step st st') ->
  forall st st', foldM g st l = Some st' -> rtc step st st'.
Proof.
  intros Hg. induction l as [|x l IH]; intros st st' E; [injection E as <-; apply rtc_refl|].
  cbn in E. apply bind_Some in E as (st1 & E1 & E). etransitivity; [eapply Hg, E1; by left|].
  eapply IH, E. intros y st2 st3 Hy. apply Hg. by right.
Qed.

Lemma collect_runs ctx klass st st' : ctx_file ctx = file -> treePlaced f klass -> typeParametersPlaced gs file f = true ->
  collectTypeSymbols sn gs rbsEnabled (recordAt gs decode sortR showType docStrings file) ctx klass st = Some st' -> rtc step st st'.
Proof.
  intros Hc Hk Ht. apply (collectTypeSymbols_R sn gs rbsEnabled file _ (placed f) (inside f)); [..|by apply treePlaced_given].
  - intros loc Hp Hl. apply Hp. by apply andb_true_iff in Hl as [Hl _].
  - intros name loc loc' Hp E Hl. destruct (parameterLoc_found gs rbsEnabled file f Hf Hwf name loc loc' Hp E Hl) as (text & _ & Hs).
    destruct loc'. by eapply spells_inside.
  - intros param tp Hp Hl. unfold typeParametersPlaced in Ht. eapply forallb_elem in Ht; [|by eapply list_elem_of_lookup_2].
    cbv zeta in Ht. rewrite Hl, Z.eqb_refl in Ht. by apply placedb_spec.
  - apply _.
  - intros owner e s s' loc E He Hi. apply rtc_once.
    eapply (record_step gs decode sortR sortO sortS showType docStrings owner file f); [done| |exact E].
    intros loc' Hl. destruct He as [(sym & ->)|(sym & roles & ->)]; injection Hl as <-; done.
  - done.
Qed.

Lemma class_runs klass st st' : treePlaced f klass -> typeParametersPlaced gs file f = true ->
  typecheckClass sn gs rbsEnabled decode sortR showType docStrings file klass st = Some st' -> rtc step st st'.
Proof.
  intros Hk Ht. unfold typecheckClass. destruct klass; try done. intros (st1 & E1 & E)%bind_Some.
  assert (H1 : rtc step st st1).
  { destruct (symbol =? root); [by eapply collect_runs in E1|injection E1 as <-; apply rtc_refl]. }
  etransitivity; [exact H1|]. clear E1 H1. destruct (isEmptyTree klass); [injection E as <-; apply rtc_refl|].
  cbv zeta in E. destruct (_ || _); [injection E as <-; apply rtc_refl|]. apply bind_Some in E as ([status st2] & E2 & E).
  inversion Hk as [v Hn _ Hv]. apply andb_true_iff in Hn as [_ Hn]. apply andb_true_iff in Hn as [Hscope Hanc].
  etransitivity; [eapply definition_runs, E2|].
  { assert (Hname : treePlaced f klass) by (apply (treePlaced_kid f _ _ Hk); by left). apply treePlaced_locs in Hname.
    unfold exprLoc. destruct (node_locs klass); cbn; [done|by apply Forall_cons in Hname as [? _]]. }
  apply bind_Some in E as (st3 & E3 & E). transitivity st3.
  - destruct (originalScope klass) as [scope|]; [|injection E3 as <-; apply rtc_refl].
    apply fmap_Some in E3 as ([status3 st4] & E3 & ->). by eapply qualifierReferences_runs.
  - eapply state_runs_foldM, E. intros x st4 st5 Hx. intros ([status5 st6] & E5 & ->)%fmap_Some.
    eapply qualifierReferences_runs, E5. by eapply forallb_elem in Hanc.
Qed.

(** The name of a method at its place *)
Lemma methodNameLoc_placed name declLoc nameLoc loc : placed f declLoc -> placed f nameLoc ->
  methodNameLoc gs f file name declLoc nameLoc = Some loc -> placed f (locOffsets loc).
Proof.
  intros Hd Hn. unfold methodNameLoc.
  assert (Hchosen : placed f (locOffsets (mkLoc file (if offsets_exists nameLoc then nameLoc else declLoc)))) by (by destruct (offsets_exists nameLoc)).
  destruct (_ && offsets_exists nameLoc) eqn:Ex; [|by intros [= <-]]. apply andb_true_iff in Ex as [_ Ex].
  intros (text & _ & E)%bind_Some. apply bind_Some in E as (source & Es & [= <-]).
  destruct (bool_decide _) eqn:Eq; [|done]. apply bool_decide_eq_true in Eq as ->.
  specialize (Hn Ex) as [Hb He]. revert Es. unfold adjustLen, loc_source, loc_exists. cbn [locFile locOffsets].
  rewrite Ex, (proj2 (Z.eqb_neq _ _) (file_positive gs file f Hf)). cbn [negb andb]. unfold beginPos. cbn [locOffsets].
  rewrite Z.add_0_r. destruct (Z.ltb_spec (beginLoc nameLoc) 0); [lia|].
  destruct (_ <? u64 _); [done|]. cbn [locFile locOffsets beginLoc endLoc]. rewrite (u32_offset f Hwf) by lia.
  rewrite (proj2 (Z.eqb_neq _ _) (file_positive gs file f Hf)). cbn [negb andb].
  destruct (offsets_exists (mkLocOffsets _ _)); [|done]. cbn [negb].
  destruct (Z.ltb_spec (Z.of_nat (length (source_ f))) (beginLoc nameLoc)); [lia|]. intros [= Htext].
  assert (Hlen : (length text <= length (source_ f) - Z.to_nat (beginLoc nameLoc))%nat).
  { rewrite <- Htext at 1. unfold substr. rewrite length_take, length_drop. lia. }
  intros _. unfold inside. cbn [beginLoc endLoc]. rewrite (u32_offset f Hwf) by lia. lia.
Qed.

Lemma keywordParameters_placed symbol params keywords sym local loc : (forall x, x ∈ params -> treePlaced f x) ->
  forEachKeywordParameter gs ty file symbol params = Some keywords -> (sym, local, loc) ∈ keywords -> placed f loc.
Proof.
  intros Hp (m & _ & E)%bind_Some Hin. apply fmap_Some in E as (all & E & ->).
  apply list_elem_of_In, in_concat in Hin as (ks & Hks & Hin). apply list_elem_of_In in Hks, Hin.
  eapply mapM_elem in E as ([param expr] & Hz & E); [|exact Hks].
  assert (He : expr ∈ params) by (apply list_elem_of_lookup_1 in Hz as (i & Hi); apply lookup_zip_with_Some in Hi as (? & ? & [= <- <-] & _ & Hi); by eapply list_elem_of_lookup_2).
  unfold keywordParameter in E. destruct (_ || _); [injection E as <-; by apply not_elem_of_nil in Hin|].
  apply bind_Some in E as ([localLoc lv] & Ea & E). apply bind_Some in E as (kloc & Ek & E).
  destruct (offsets_exists kloc) eqn:Ex; [|injection E as <-; by apply not_elem_of_nil in Hin].
  cbn [negb] in E. injection E as <-. apply list_elem_of_singleton in Hin as [= -> -> ->]. intros _.
  by destruct (keywordNameLoc_found gs file f Hf Hwf localLoc (pi_name param) kloc (arg2Local_placed f expr _ _ (Hp _ He) Ea) Ek Ex).
Qed.

Lemma method_runs methodDef st st' : treePlaced f methodDef ->
  typecheckMethod gs ty decode sortR docStrings file methodDef st = Some st' -> rtc step st st'.
Proof.
  intros Hk. unfold typecheckMethod. destruct methodDef; try done. destruct (name =? _); [intros [= <-]; apply rtc_refl|].
  rewrite Hf. cbn [mbind option_bind]. intros (st1 & E1 & E)%bind_Some. apply bind_Some in E as (keywords & Ek & E).
  pose proof (treePlaced_locs f _ Hk) as Hl. cbn [node_locs] in Hl. apply Forall_cons in Hl as [_ Hl].
  apply Forall_cons in Hl as [Hd Hl]. apply Forall_cons in Hl as [Hn _]. transitivity st1.
  - destruct (_ || _); [|injection E1 as <-; apply rtc_refl]. apply bind_Some in E1 as (loc1 & El & E1).
    destruct (_ && _); [|injection E1 as <-; apply rtc_refl]. apply fmap_Some in E1 as ([status st2] & E1 & ->).
    eapply definition_runs, E1. exact (methodNameLoc_placed _ _ _ _ Hd Hn El).
  - eapply state_runs_foldM, E. intros [[sym local] loc1] st2 st3 Hin ([status st4] & E2 & ->)%fmap_Some.
    eapply definition_runs, E2. eapply keywordParameters_placed, Hin; [|exact Ek].
    intros x Hx. apply (treePlaced_kid f _ _ Hk). by right.
Qed.

Lemma graph_runs cfg methodDef t t' : graphPlaced sn f cfg = true -> (forall m, methodDef = Some m -> treePlaced f m) ->
  typecheck sn minitest gs ty unresolvedFields sortAliases decode sortR showType docStrings file cfg methodDef t = Some t' ->
  rtc step t.1 t'.1.
Proof.
  intros Hg Hm (synthetic & _ & E)%bind_Some. destruct synthetic; [injection E as <-; apply rtc_refl|].
  apply bind_Some in E as ([resolver [tr st]] & E & [= <-]). cbn.
  eapply rtc_r; [|apply step_function]. eapply (traverse_runs sn gs ty unresolvedFields sortAliases decode sortR sortO sortS showType docStrings), E;
    [done|done|done|done|].
  destruct methodDef as [[]|]; try done. cbn. apply params_placed. intros x Hx. eapply treePlaced_kid; [by apply Hm|by right].
Qed.

(** Every call is a run on the state of its thread. *)
Lemma perform_runs call t t' : callPlaced sn f call -> typeParametersPlaced gs file f = true ->
  performCall file call t = Some t' -> rtc step t.1 t'.1.
Proof.
  intros Hc Ht. destruct call; cbn [perform callPlaced] in *.
  - intros (st & E & [= <-])%bind_Some. by eapply class_runs.
  - intros (st & E & [= <-])%bind_Some. by eapply method_runs.
  - destruct Hc. by apply graph_runs.
  - intros (st & (st1 & E1 & E)%bind_Some & [= <-])%bind_Some. cbn.
    eapply rtc_l; [by eapply step_finalize|]. apply rtc_once. by eapply step_document.
Qed.
End Runs.

(** ** Calls and documents *)

Lemma everyNode_all (P : Expr -> Prop) : (forall x, P x) -> forall v, everyNode P v.
Proof.
  intros HP v. induction v using Expr_nested_ind; (constructor; [apply HP|]); cbn [kids];
    repeat first [assumption|apply Forall_nil_2|apply Forall_app; split|apply Forall_cons_2].
Qed.

Section Documents.
Context (sn : ScipNames) (minitest : list Z) (gs : Program) (ty : TypeOps) (rbsEnabled : bool).
Context (unresolvedFields : gmap Z (gset Z)).
Context (sortAliases : list (GenericSymbolRef * LocOffsets) -> list (GenericSymbolRef * LocOffsets) * bool).
Context (decode : str -> option nat) (sortR : list Relationship -> list Relationship)
  (sortO : list Occurrence -> list Occurrence) (sortS : list SymbolInformation -> list SymbolInformation).
Context (showType : TypePtr -> str) (docStrings : GenericSymbolRef -> TypePtr -> Loc -> option (list str)).
Context (relativePath : str -> str) (file : Z).

Abbreviation performCall :=
  (perform sn minitest gs ty rbsEnabled unresolvedFields sortAliases decode sortR sortO sortS showType docStrings relativePath).

Lemma record_quiet owner e st st' : recordAt gs decode sortR showType docStrings file owner e st = Some st' -> quiet st st'.
Proof.
  unfold recordAt. destruct e; cbn [record scipRecorder]; [..|by intros [= <-]]; intros ([status s1] & E & ->)%fmap_Some.
  - by apply saveDefinition_quiet in E.
  - by apply saveReference_quiet in E.
  - by apply saveLocalDefinition_quiet in E.
  - by apply saveLocalReference_quiet in E.
Qed.

Lemma quiet_foldM {A} (g : SCIPState -> A -> option SCIPState) l : (forall x st st', g st x = Some st' -> quiet st st') ->
  forall st st', foldM g st l = Some st' -> quiet st st'.
Proof.
  intros Hg. induction l as [|x l IH]; intros st st' E; [by injection E as <-|].
  cbn in E. apply bind_Some in E as (st1 & E1 & E). transitivity st1; [by eapply Hg|by apply IH].
Qed.

Lemma qualifierReferences_quiet expr : forall st status st',
  saveQualifierReferences gs decode docStrings file expr st = Some (status, st') -> quiet st st'.
Proof.
  assert (Hq : forall symbol loc st status st', saveQualifier gs decode docStrings file symbol loc st = Some (status, st') -> quiet st st').
  { intros symbol loc st status st' ([symRef|] & _ & E)%bind_Some; [by eapply saveReference_quiet|by injection E as <- <-]. }
  induction expr; intros st status st'; cbn [saveQualifierReferences]; try (by intros [= <- <-]); [by apply Hq| |].
  all: intros ([status1 st1] & E1%Hq & E)%bind_Some; transitivity st1; [done|].
  all: destruct status1; [by eapply IHexpr|by injection E as <- <-..].
Qed.

Lemma class_quiet klass st st' : typecheckClass sn gs rbsEnabled decode sortR showType docStrings file klass st = Some st' -> quiet st st'.
Proof.
  unfold typecheckClass. destruct klass; try done. intros (st1 & E1 & E)%bind_Some. transitivity st1; [|clear E1].
  { destruct (symbol =? root); [|by injection E1 as <-]. revert E1.
    eapply (collectTypeSymbols_R sn gs rbsEnabled file _ (fun _ => True) (fun _ => True)); try done; [apply _| |].
    - intros owner e s s' loc1 Er _ _. by eapply record_quiet.
    - apply everyNode_all. intros x. apply Forall_forall. done. }
  destruct (isEmptyTree klass); [by injection E as <-|]. cbv zeta in E. destruct (_ || _); [by injection E as <-|].
  apply bind_Some in E as ([status st2] & E2%saveDefinition_quiet & E). transitivity st2; [done|].
  apply bind_Some in E as (st3 & E3 & E). transitivity st3.
  - destruct (originalScope klass); [|by injection E3 as <-]. apply fmap_Some in E3 as ([status3 st4] & E3 & ->).
    by eapply qualifierReferences_quiet.
  - eapply quiet_foldM, E. intros x st4 st5 ([status5 st6] & E5 & ->)%fmap_Some. by eapply qualifierReferences_quiet.
Qed.

Lemma method_quiet methodDef st st' : typecheckMethod gs ty decode sortR docStrings file methodDef st = Some st' -> quiet st st'.
Proof.
  unfold typecheckMethod. destruct methodDef; try done. destruct (name =? _); [by intros [= <-]|]. intros (f & _ & E)%bind_Some.
  apply bind_Some in E as (st1 & E1 & E). apply bind_Some in E as (keywords & _ & E). transitivity st1.
  - destruct (_ || _); [|by injection E1 as <-]. apply bind_Some in E1 as (loc1 & _ & E1).
    destruct (_ && _); [|by injection E1 as <-]. apply fmap_Some in E1 as ([status st2] & E1 & ->). by eapply saveDefinition_quiet.
  - eapply quiet_foldM, E. intros [[sym local] loc1] st2 st3 ([status st4] & E2 & ->)%fmap_Some. by eapply saveDefinition_quiet.
Qed.

Lemma graph_quiet cfg methodDef t t' :
  typecheck sn minitest gs ty unresolvedFields sortAliases decode sortR showType docStrings file cfg methodDef t = Some t' ->
  quiet t.1 t'.1.
Proof.
  intros (synthetic & _ & E)%bind_Some. destruct synthetic; [by injection E as <-|].
  apply bind_Some in E as ([resolver [tr st]] & E & [= <-]). cbn. transitivity st; [|by split].
  rewrite (@traverse_replay sn gs ty unresolvedFields sortAliases _ file SCIPState _ (scipRecorder_lawful _ _ _ _ _ _ _)) in E.
  apply bind_Some in E as ([resolver1 [t1 l]] & _ & E). apply bind_Some in E as (s1 & Er & E). injection E as <- <- <-.
  eapply quiet_foldM, Er. intros e st st1. apply record_quiet.
Qed.

(** Only the end of a file adds a document. *)
Lemma perform_documents call t t' : performCall file call t = Some t' ->
  externalSymbols t'.1 = externalSymbols t.1 /\
  match call with
  | FinishTypecheckFile => exists f doc, fileData gs file = Some f /\ relative_path doc = documentPath relativePath (path_ f) /\
      documents t'.1 = documents t.1 ++ [doc]
  | _ => documents t'.1 = documents t.1
  end.
Proof.
  destruct call; cbn [perform].
  - intros (st & E & [= <-])%bind_Some. by apply class_quiet in E as [? ?].
  - intros (st & E & [= <-])%bind_Some. by apply method_quiet in E as [? ?].
  - intros E. by apply graph_quiet in E as [? ?].
  - intros (st & (st1 & E1 & E)%bind_Some & [= <-])%bind_Some. cbn. apply finalizeRefOnlySymbolInfos_quiet in E1 as [H1 H2].
    apply saveDocument_adds in E as (f & doc & Hf & Hp & Hd & He & _). split; [congruence|]. exists f, doc. split_and!; congruence.
Qed.
End Documents.
