(* ===== verification/ScipPipeline.v ===== *)
(** * From trees to the index

    Models [CFGCollectorAndTyper] and [typecheckOne] of src/main/pipeline/pipeline.cc and
    [Inference::willRun] of src/infer/inference.cc: the calls of the extension that a file leads to. They
    depend on the tree of the file alone. An exception ends the check of the file, and is caught there: the calls
    made before it stay made. Exceptions come from the builder of graphs, the walk over the tree, and from two arguments:
    inference, which gives a graph or none or raises, and the validator of definitions. What the extension raises is
    in [ScipThreads]. [None] stands for symbols, files and graphs that do not exist, and for fuel that does not suffice. *)

From S2P Require Import Prelude Pickler FileHash Files Locs Types NameTable NameText Symbols SymbolRefs Linearize.
From S2P Require Import Ast UIntSet TreeWalk Cfg CfgTopo CfgReads CfgArgs CfgFinalize CfgBuild.
From S2P Require Import ScipUtils ScipProto ScipGem ScipSymbolRef ScipState ScipFieldResolve ScipOccurrences.
From S2P Require Import ScipTraversal ScipExtension.

#[local] Open Scope Z_scope.

Inductive PipelinePhase :=
| INIT | PARSER | RBS_REWRITER | DESUGARER | REWRITER | LOCAL_VARS | NAMER | PACKAGER | RESOLVER | CFG_PHASE | INFERENCER.

#[export] Instance PipelinePhase_eq_dec : EqDecision PipelinePhase.
Proof. solve_decision. Defined.

Section Pipeline.
Context (sn : ScipNames) (gs : Program) (stopAfterPhase : PipelinePhase).
Context (isSCIPRuby lspQueryIsEmpty reportUndeclared : bool) (fuel simplifyFuel : nat).
(** [Inference::run] in the context of the method of the graph; [None] is an exception. *)
Context (infer : Z -> CFG -> option (option CFG)).
(** Does [definition_validator::runOne] raise? *)
Context (validatorRaises : Z -> Expr -> bool).

Abbreviation wn := (sn_cfg sn).

Definition willRun (file method : Z) (hasBody : bool) : option bool :=
  f ← fileData gs file;
  if strictValue (strictLevel f) <? strictValue (if isSCIPRuby then FalseLevel else TrueLevel) then Some false
  else
    m ← methodData (pr_gs gs) method;
    if mf_isOverloaded (me_flags m) then Some false
    else if mf_isAbstract (me_flags m) && (negb isSCIPRuby || isRBI f || negb hasBody) then Some false
    else Some true.

(** Calls that are made, and whether an exception follows *)
Record Calls := mkCalls { cl_made : list ExtensionCall; cl_raised : bool }.

(** The graph is finished, inferred and handed to the extension. *)
Definition graphCalls (built : Stop + (unit * BuilderState)) (methodDef : option Expr) : option Calls :=
  match built with
  | inl Raised => Some (mkCalls [] true)
  | inl _ => None
  | inr (_, st) =>
      c ← finishBuild wn isSCIPRuby lspQueryIsEmpty simplifyFuel (bs_cfg st);
      if decide (stopAfterPhase = CFG_PHASE) then Some (mkCalls [] false)
      else
        Some (match infer (makeSymbolRef KMethod (cfg_symbol c)) c with
              | None => mkCalls [] true
              | Some None => mkCalls [] false
              | Some (Some c) => mkCalls [Typecheck c methodDef] false
              end)
  end.

Definition methodCalls (file : Z) (m : Expr) : option Calls :=
  match m with
  | MethodDef _ _ _ symbol rhs _ _ _ =>
      runs ← willRun file symbol (negb (isEmptyTree rhs));
      more ← (if (runs : bool) then
                f ← fileData gs file;
                graphCalls (buildForMethod wn (pr_gs gs) f file (makeSymbolRef KMethod symbol) reportUndeclared isSCIPRuby fuel m) (Some m)
              else Some (mkCalls [] false));
      Some (mkCalls (TypecheckMethod m :: cl_made more) (cl_raised more))
  | _ => None
  end.

(** [ClassOrModuleRef::lookupStaticInit] *)
Definition lookupStaticInit (file klass : Z) : option Z :=
  if klass =? root then lookupStaticInitForFile gs file else lookupStaticInitForClass gs klass.

Definition classCalls (file : Z) (c : Expr) : option Calls :=
  match c with
  | ClassDef _ _ klass _ _ _ _ _ =>
      symbol ← lookupStaticInit file klass;
      runs ← willRun file (symbolIndex symbol) false;
      if (runs : bool) then
        f ← fileData gs file;
        graphCalls (buildForClass wn (pr_gs gs) f file symbol reportUndeclared isSCIPRuby fuel c (symbolIndex symbol)) None
      else Some (mkCalls [] false)
  | _ => None
  end.

(** The hooks of [CFGCollectorAndTyper] *)
Definition nodeHooks (call : Call) : option Calls :=
  let file := ctx_file (ca_ctx call) in
  match ca_phase call, ca_node call with
  | Pre, ClassDef _ _ _ _ _ _ _ _ => classCalls file (ca_node call)
  | Pre, MethodDef _ _ _ _ _ _ _ _ => methodCalls file (ca_node call)
  | Post, ClassDef _ _ _ _ _ _ _ _ => Some (mkCalls [TypecheckClass (ca_node call)] false)
  | _, _ => Some (mkCalls [] false)
  end.

(** They write their calls down; the state is lost where the source has no result. *)
Definition collectCalls (call : Call) (calls : option (list ExtensionCall)) : Outcome (option (list ExtensionCall)) QueryControl :=
  match calls, nodeHooks call with
  | Some calls, Some more =>
      if cl_raised more then Throws (Some (calls ++ cl_made more)) else Returns (Some (calls ++ cl_made more)) Continue
  | _, _ => Throws None
  end.

(** What the check of a file leads to: the calls of the extension, and whether the check ran to its end.
    Trees that stop before inference and interface files lead to no calls, unless they are queried. *)
Definition typecheckOne (file : Z) (tree : Expr) : option (list ExtensionCall * bool) :=
  f ← fileData gs file;
  if decide (stopAfterPhase = NAMER) then Some ([], true)
  else if validatorRaises file tree then Some ([], false)
  else if decide (stopAfterPhase = RESOLVER) then Some ([], true)
  else if isRBI f && lspQueryIsEmpty then Some ([], true)
  else
    match constShallowWalk collectCalls (mkContext (classSymbol root) file) tree (Some []) with
    | Returns calls _ => calls ← calls; Some (if isRBI f then (calls, true) else (calls ++ [FinishTypecheckFile], true))
    | Throws calls => calls ← calls; Some (calls, false)
    end.
End Pipeline.
