(* ===== verification/ScipThreads.v ===== *)
(** * Threads and the index

    The threads of src/main/pipeline/pipeline.cc call the extension of src/scip_indexer/SCIPIndexer.cc in any
    interleaving. Every thread sees its own calls only, so the interleaving does not matter; at the
    end the index has one document for each file that was finished, sorted by path. A call may raise an
    exception, which ends the check of its file and is caught (src/main/pipeline/pipeline.cc:1501 and 1587). *)

From S2P Require Import Prelude Pickler FileHash Files Locs Types NameTable NameText Symbols SymbolRefs Linearize.
From S2P Require Import Ast UIntSet TreeWalk Cfg CfgTopo CfgReads CfgArgs CfgFinalize CfgBuild.
From S2P Require Import ScipUtils ScipProto ScipGem ScipSymbolRef ScipState ScipFieldResolve ScipOccurrences.
From S2P Require Import ScipTraversal ScipReplay ScipPlaces ScipIndexing ScipDocuments ScipTypeSymbols ScipExtension ScipCalls ScipPipeline.

#[local] Open Scope Z_scope.

(** A call returns, or it raises and leaves a state behind that depends on how far it came. *)
Inductive Attempt :=
| CallReturns (call : ExtensionCall)
| CallThrows (call : ExtensionCall) (leave : ThreadState -> ThreadState).

(** The calls in the order in which they are made, with their threads and files *)
Abbreviation Schedule := (list (nat * (Z * Attempt))).

Definition threadCalls (thread : nat) (sched : Schedule) : list (Z * Attempt) := snd <$> filter (fun e => e.1 = thread) sched.

Lemma threadCalls_cons thread t c sched : threadCalls thread ((t, c) :: sched) =
  if decide (t = thread) then c :: threadCalls thread sched else threadCalls thread sched.
Proof. unfold threadCalls. rewrite filter_cons. cbn. by destruct (decide (t = thread)). Qed.

Section Threads.
Context (sn : ScipNames) (minitest : list Z) (gs : Program) (ty : TypeOps) (rbsEnabled : bool).
Context (unresolvedFields : gmap Z (gset Z)).
Context (sortAliases : list (GenericSymbolRef * LocOffsets) -> list (GenericSymbolRef * LocOffsets) * bool).
Context (decode : str -> option nat) (sortR : list Relationship -> list Relationship)
  (sortO : list Occurrence -> list Occurrence) (sortS : list SymbolInformation -> list SymbolInformation).
Context (showType : TypePtr -> str) (docStrings : GenericSymbolRef -> TypePtr -> Loc -> option (list str)).
Context (relativePath : str -> str).

Abbreviation performCall :=
  (perform sn minitest gs ty rbsEnabled unresolvedFields sortAliases decode sortR sortO sortS showType docStrings relativePath).
Abbreviation callOne :=
  (extensionCall sn minitest gs ty rbsEnabled unresolvedFields sortAliases decode sortR sortO sortS showType docStrings relativePath).

(** A call raises only where its model has no result. *)
Definition attemptOne (thread : nat) (file : Z) (a : Attempt) (x : Extension) : option Extension :=
  match a with
  | CallReturns call => callOne thread file call x
  | CallThrows call leave =>
      match callOne thread file call x with
      | Some _ => None
      | None => Some (set_states (<[thread := leave (getSCIPState thread x)]> (ex_states x)) x)
      end
  end.

Definition runSchedule (x : Extension) (sched : Schedule) : option Extension :=
  foldM (fun x '(thread, (file, a)) => attemptOne thread file a x) x sched.

(** ** Every thread by itself *)

(** What a call does to the entry of its thread, in an extension that does something or nothing *)
Definition threadStep (idle : bool) (gems : GemMapping) (entry : option ThreadState) (c : Z * Attempt) : option (option ThreadState) :=
  let state := default (newThreadState gems) entry in
  match c.2 with
  | CallReturns call =>
      if idle || negb (usesState gs call) then Some entry else t ← performCall c.1 call state; Some (Some t)
  | CallThrows call leave =>
      if idle || negb (usesState gs call) then None
      else match performCall c.1 call state with Some _ => None | None => Some (Some (leave state)) end
  end.

Definition threadRun (x : Extension) (thread : nat) (calls : list (Z * Attempt)) : option (option ThreadState) :=
  foldM (threadStep (doNothing x) (ex_gemMap x)) (ex_states x !! thread) calls.

Lemma attemptOne_thread x thread file a : attemptOne thread file a x =
  entry ← threadStep (doNothing x) (ex_gemMap x) (ex_states x !! thread) (file, a);
  Some (set_states (partial_alter (fun _ => entry) thread (ex_states x)) x).
Proof.
  assert (Hself : Some (set_states (partial_alter (fun _ => ex_states x !! thread) thread (ex_states x)) x) = Some x)
    by (rewrite partial_alter_self; by destruct x).
  unfold attemptOne, threadStep, extensionCall. destruct a as [call|call leave]; cbn [fst snd]; destruct (_ || _); try done.
  - unfold getSCIPState. by destruct (performCall _ _ _).
  - unfold getSCIPState. by destruct (performCall _ _ _).
Qed.

Lemma run_threads sched x x' : runSchedule x sched = Some x' ->
  indexFilePath x' = indexFilePath x /\ config x' = config x /\ ex_gemMap x' = ex_gemMap x /\
  forall thread, threadRun x thread (threadCalls thread sched) = Some (ex_states x' !! thread).
Proof.
  revert x. induction sched as [|[t [file call]] sched IH]; intros x E; [by injection E as <-|].
  cbn in E. apply bind_Some in E as (x1 & E1 & E). rewrite attemptOne_thread in E1.
  apply bind_Some in E1 as (entry & Ee & [= <-]). apply IH in E as (-> & -> & -> & Hall). split_and!; [done..|].
  intros thread. rewrite <- Hall, threadCalls_cons. unfold threadRun, doNothing. cbn [ex_gemMap ex_states set_states indexFilePath].
  destruct (decide (t = thread)) as [<-|Hne].
  - cbn [foldM]. unfold doNothing in Ee. rewrite Ee, lookup_partial_alter_eq. done.
  - by rewrite lookup_partial_alter_ne.
Qed.

Lemma run_total sched x : (forall thread, is_Some (threadRun x thread (threadCalls thread sched))) -> is_Some (runSchedule x sched).
Proof.
  revert x. induction sched as [|[t [file call]] sched IH]; intros x Hall; [by eexists|].
  cbn. rewrite attemptOne_thread. pose proof (Hall t) as [o Ho]. rewrite threadCalls_cons, decide_True in Ho by done.
  apply bind_Some in Ho as (entry & Ee & Ho). rewrite Ee. cbn [mbind option_bind]. apply IH.
  intros thread. specialize (Hall thread). rewrite threadCalls_cons in Hall. unfold threadRun, doNothing in *.
  cbn [ex_gemMap ex_states set_states indexFilePath]. destruct (decide (t = thread)) as [<-|Hne].
  - cbn [foldM] in Hall. rewrite Ee in Hall. by rewrite lookup_partial_alter_eq.
  - by rewrite lookup_partial_alter_ne.
Qed.

Lemma run_nothing sched x x' : doNothing x = true -> runSchedule x sched = Some x' -> x' = x.
Proof.
  intros Hx. revert x'. induction sched as [|[t [file a]] sched IH]; intros x' E; [by injection E as <-|].
  unfold runSchedule in *. cbn [foldM] in E. apply bind_Some in E as (x1 & E1 & E).
  assert (x1 = x) as ->; [|by apply IH]. destruct a; cbn in E1; unfold extensionCall in E1; rewrite Hx in E1; [|done]. by injection E1 as <-.
Qed.

(** The interleaving does not matter. *)
Lemma run_interleaved sched1 sched2 x : (forall thread, threadCalls thread sched1 = threadCalls thread sched2) ->
  runSchedule x sched1 = runSchedule x sched2.
Proof.
  intros Hsame.
  assert (Hhalf : forall s1 s2 x1, (forall thread, threadCalls thread s1 = threadCalls thread s2) ->
    runSchedule x s1 = Some x1 -> runSchedule x s2 = Some x1).
  { intros s1 s2 x1 Hs (H1 & H2 & H3 & Hall)%run_threads.
    destruct (run_total s2 x) as [x2 E2]; [intros thread; rewrite <- Hs, Hall; by eexists|].
    pose proof E2 as (H4 & H5 & H6 & Hall2)%run_threads. rewrite E2. f_equal.
    assert (ex_states x2 = ex_states x1).
    { apply map_eq. intros thread. specialize (Hall thread). specialize (Hall2 thread). rewrite Hs in Hall. congruence. }
    destruct x1, x2; cbn in *; congruence. }
  destruct (runSchedule x sched1) as [x1|] eqn:E1; [by symmetry; eapply Hhalf|].
  destruct (runSchedule x sched2) as [x2|] eqn:E2; [|done]. by rewrite (Hhalf sched2 sched1 x2) in E1.
Qed.

(** ** The documents of all threads *)

Definition threadDocuments (t : ThreadState) : list Document := documents t.1.

Definition allDocuments (m : StateMap) : list Document := concat (threadDocuments <$> (map_to_list m).*2).

(** The path of the document that a call adds *)
Definition finishedPath (c : Z * Attempt) : option str :=
  match c.2 with CallReturns FinishTypecheckFile => f ← fileData gs c.1; Some (documentPath relativePath (path_ f)) | _ => None end.

Lemma concat_perm {A} (l k : list (list A)) : l ≡ₚ k -> concat l ≡ₚ concat k.
Proof.
  induction 1 as [|x l k _ IH|x y l|l k m _ IH1 _ IH2]; cbn; [done|by rewrite IH| |by rewrite IH1].
  rewrite !app_assoc. by rewrite (Permutation_app_comm y x).
Qed.

Lemma allDocuments_insert m thread t : allDocuments (<[thread := t]> m) ≡ₚ threadDocuments t ++ allDocuments (delete thread m).
Proof.
  unfold allDocuments. rewrite <- insert_delete_eq.
  rewrite (concat_perm _ ((threadDocuments t) :: (threadDocuments <$> (map_to_list (delete thread m)).*2))); [done|].
  rewrite map_to_list_insert by apply lookup_delete_eq. done.
Qed.

Lemma allDocuments_entry m thread : allDocuments m ≡ₚ from_option threadDocuments [] (m !! thread) ++ allDocuments (delete thread m).
Proof.
  destruct (m !! thread) as [t|] eqn:E; cbn; [|by rewrite delete_id]. by rewrite <- (allDocuments_insert m thread t), insert_id.
Qed.

Definition noExternal (m : StateMap) : Prop := forall thread t, m !! thread = Some t -> externalSymbols t.1 = [].

(** A call that raises has added no document: a document is added when the call that finishes a file is done. *)
Definition throws_quiet (sched : Schedule) : Prop :=
  forall thread file call leave, (thread, (file, CallThrows call leave)) ∈ sched -> forall t, quiet t.1 (leave t).1.

(** The entry of one thread is replaced. *)
Lemma entry_documents x thread t docs : noExternal (ex_states x) ->
  externalSymbols t.1 = externalSymbols (getSCIPState thread x).1 -> documents t.1 = documents (getSCIPState thread x).1 ++ docs ->
  noExternal (<[thread := t]> (ex_states x)) /\ allDocuments (<[thread := t]> (ex_states x)) ≡ₚ allDocuments (ex_states x) ++ docs.
Proof.
  intros Hn He Hd.
  assert (Hdocs0 : allDocuments (ex_states x) ≡ₚ documents (getSCIPState thread x).1 ++ allDocuments (delete thread (ex_states x))).
  { rewrite (allDocuments_entry _ thread) at 1. unfold getSCIPState. by destruct (ex_states x !! thread). }
  split.
  - intros thread' t' [(<- & <-)|(_ & H)]%lookup_insert_Some; [|by eapply Hn]. rewrite He. unfold getSCIPState.
    destruct (ex_states x !! thread) eqn:Et; [by eapply Hn|done].
  - rewrite allDocuments_insert, Hdocs0. unfold threadDocuments. rewrite Hd. solve_Permutation.
Qed.

Lemma attemptOne_documents x thread file a x' : doNothing x = false -> noExternal (ex_states x) ->
  throws_quiet [(thread, (file, a))] -> attemptOne thread file a x = Some x' ->
  noExternal (ex_states x') /\ doNothing x' = false /\
  exists docs, relative_path <$> docs = option_list (finishedPath (file, a)) /\
    allDocuments (ex_states x') ≡ₚ allDocuments (ex_states x) ++ docs.
Proof.
  intros Hx Hn Hq E. destruct a as [call|call leave]; cbn [attemptOne] in E.
  - unfold extensionCall in E. rewrite Hx in E. cbn [orb] in E. destruct (usesState gs call) eqn:Eu; cbn [negb] in E.
    + apply bind_Some in E as (t & E & [= <-]). cbn [ex_states set_states]. apply perform_documents in E as [He Hd].
      assert (exists docs, relative_path <$> docs = option_list (finishedPath (file, CallReturns call)) /\
        documents t.1 = documents (getSCIPState thread x).1 ++ docs) as (docs & Hp & Hd').
      { destruct call; cbn [finishedPath snd fst]; [by exists []; rewrite app_nil_r..|].
        destruct Hd as (f & doc & Hf & Hp & Hd). exists [doc]. rewrite Hf. cbn. by rewrite Hp. }
      destruct (entry_documents x thread t docs Hn He Hd') as [H1 H2]. split_and!; [done..|]. by exists docs.
    + injection E as <-. split_and!; [done..|]. exists []. rewrite app_nil_r. split; [|done]. by destruct call.
  - destruct (callOne _ _ _ _); [done|]. injection E as <-. cbn [ex_states set_states].
    destruct (Hq thread file call leave ltac:(by left) (getSCIPState thread x)) as [Hd He].
    destruct (entry_documents x thread (leave (getSCIPState thread x)) [] Hn He) as [H1 H2]; [by rewrite app_nil_r|].
    split_and!; [done..|]. by exists [].
Qed.

Lemma run_documents_all sched x x' : doNothing x = false -> noExternal (ex_states x) -> throws_quiet sched -> runSchedule x sched = Some x' ->
  noExternal (ex_states x') /\
  exists docs, relative_path <$> docs = omap finishedPath sched.*2 /\ allDocuments (ex_states x') ≡ₚ allDocuments (ex_states x) ++ docs.
Proof.
  revert x. induction sched as [|[t [file a]] sched IH]; intros x Hx Hn Hq E.
  { injection E as <-. split; [done|]. exists []. by rewrite app_nil_r. }
  unfold runSchedule in E. cbn [foldM] in E. apply bind_Some in E as (x1 & E1 & E).
  apply attemptOne_documents in E1 as (Hn1 & Hx1 & docs1 & Hp1 & Hd1); [|done..|].
  2: { intros th fl c lv Hin%list_elem_of_singleton. apply (Hq th fl c lv). rewrite Hin. by left. }
  destruct (IH x1 Hx1 Hn1) as (Hn' & docs & Hp & Hd); [intros th fl c lv Hin; apply (Hq th fl c lv); by right|done|].
  split; [done|]. exists (docs1 ++ docs). split.
  - rewrite fmap_app, Hp1, Hp. cbn. by destruct (finishedPath (file, a)).
  - by rewrite Hd, Hd1, app_assoc.
Qed.

(** *** Well-formed documents *)

Definition documents_wf (m : StateMap) : Prop := forall thread t, m !! thread = Some t -> documents_ok t.1.

(** What a call that raises has done is a run of recordings, as what a call does that returns. *)
Definition throws_run (sched : Schedule) : Prop :=
  forall thread file call leave, (thread, (file, CallThrows call leave)) ∈ sched ->
    forall t, rtc (ScipState.step gs decode sortR sortO sortS showType docStrings) t.1 (leave t).1.

Lemma run_documents_wf sched x x' :
  (forall file f, fileData gs file = Some f -> File_wf f /\ is_size (length (source_ f))) ->
  validating decode -> (forall todo, (sortAliases todo).1 ≡ₚ todo) ->
  (forall l o, o ∈ sortO l -> o ∈ l) -> (forall l s, s ∈ sortS l -> s ∈ l) ->
  (forall t file call, (t, (file, CallReturns call)) ∈ sched -> exists f, fileData gs file = Some f /\
     typeParametersPlaced gs file f = true /\ callPlaced sn f call) -> throws_run sched ->
  documents_wf (ex_states x) -> runSchedule x sched = Some x' -> documents_wf (ex_states x').
Proof.
  intros Hfiles Hdec Hsort HsO HsS. revert x. induction sched as [|[t [file a]] sched IH]; intros x Hp Hthrow Hw E; [by injection E as <-|].
  unfold runSchedule in E. cbn [foldM] in E. apply bind_Some in E as (x1 & E1 & E).
  assert (Hold : documents_ok (getSCIPState t x).1).
  { unfold getSCIPState. destruct (ex_states x !! t) as [t0|] eqn:Et; [by eapply Hw|]. split; [apply Inv_new|constructor]. }
  assert (Hnew : forall ts, documents_ok ts.1 -> documents_wf (<[t := ts]> (ex_states x))).
  { intros ts Hts thread t' [(<- & <-)|(_ & H)]%lookup_insert_Some; [done|by eapply Hw]. }
  assert (Hw1 : documents_wf (ex_states x1)).
  { destruct a as [call|call leave]; cbn [attemptOne] in E1.
    - unfold extensionCall in E1. destruct (_ || _); [by injection E1 as <-|]. apply bind_Some in E1 as (ts & E1 & [= <-]).
      apply Hnew. destruct (Hp t file call ltac:(by left)) as (f & Hf & Ht & Hc).
      eapply (perform_runs sn minitest gs ty rbsEnabled unresolvedFields sortAliases decode sortR sortO sortS showType docStrings relativePath Hfiles Hsort file f Hf) in E1; [|done..].
      by eapply (run_documents gs decode sortR sortO sortS showType docStrings); [done..|exact E1|].
    - destruct (callOne _ _ _ _); [done|]. injection E1 as <-. apply Hnew.
      eapply (run_documents gs decode sortR sortO sortS showType docStrings); [done..| |exact Hold].
      apply (Hthrow t file call leave). by left. }
  eapply IH; [| |exact Hw1|exact E].
  - intros t' file' call' Hin. apply (Hp t'). by right.
  - intros t' file' call' leave Hin. apply (Hthrow t' file' call'). by right.
Qed.
End Threads.

(** ** The file that is written *)

Section Writer.
Context (scip_ruby_version currentPath : str).

Lemma fold_writeDocument docs w : ix_documents (iw_index w) = [] ->
  readDocuments (iw_output (fold_left writeDocument docs w)) = readDocuments (iw_output w) ++ docs /\
  (ix_external_symbols (iw_index w) = [] ->
   readExternalSymbols (iw_output (fold_left writeDocument docs w)) = readExternalSymbols (iw_output w) /\
   ix_external_symbols (iw_index (fold_left writeDocument docs w)) = []) /\
  ix_documents (iw_index (fold_left writeDocument docs w)) = [].
Proof.
  revert w. induction docs as [|doc docs IH]; intros w Hw; [by rewrite app_nil_r|].
  cbn [fold_left]. destruct (IH (writeDocument w doc)) as (H1 & H2 & H3); [done|]. split_and!; [| |done].
  - rewrite H1. unfold readDocuments, writeDocument, write. cbn [iw_output iw_index ix_documents].
    rewrite fmap_app, concat_app, Hw. cbn. by rewrite <- app_assoc.
  - intros Hx. destruct (H2 eq_refl) as [-> ->]. split; [|done]. unfold readExternalSymbols, writeDocument, write.
    cbn [iw_output iw_index ix_external_symbols]. rewrite fmap_app, concat_app, Hx. cbn. by rewrite app_nil_r.
Qed.

Lemma fold_writeExternal symbols w : ix_documents (iw_index w) = [] ->
  readDocuments (iw_output (write (fold_left writeExternalSymbol symbols w))) = readDocuments (iw_output w) /\
  readExternalSymbols (iw_output (write (fold_left writeExternalSymbol symbols w))) =
    readExternalSymbols (iw_output w) ++ ix_external_symbols (iw_index w) ++ symbols.
Proof.
  revert w. induction symbols as [|s symbols IH]; intros w Hw.
  { unfold readDocuments, readExternalSymbols, write. cbn. rewrite !fmap_app, !concat_app. cbn. by rewrite Hw, !app_nil_r. }
  cbn [fold_left]. destruct (IH (writeExternalSymbol w s)) as [H1 H2].
  { unfold writeExternalSymbol. by destruct (_ =? 0). }
  rewrite H1, H2. unfold writeExternalSymbol. destruct (_ =? 0); cbn [write iw_output iw_index ix_external_symbols].
  - unfold readDocuments, readExternalSymbols. rewrite !fmap_app, !concat_app. cbn. rewrite Hw, !app_nil_r.
    split; [done|]. by rewrite <- !app_assoc.
  - split; [done|]. by rewrite <- !app_assoc.
Qed.

(** The chunks of the writer lose nothing. *)
Lemma writeIndex_read docs symbols :
  readDocuments (writeIndex scip_ruby_version currentPath docs symbols) = docs /\
  readExternalSymbols (writeIndex scip_ruby_version currentPath docs symbols) = symbols.
Proof.
  unfold writeIndex. cbv zeta. destruct (fold_writeDocument docs (mkIndexWriter (mkIndex None [] []) [mkIndex (Some (indexMetadata scip_ruby_version currentPath)) [] []]))
    as (H1 & [H2 H2']%(fun H => H eq_refl) & H3); [done|]. destruct (fold_writeExternal symbols _ H3) as [-> ->].
  rewrite H1, H2, H2'. done.
Qed.
End Writer.

(** ** The files of the threads *)

Lemma sched_partition ts (sched : Schedule) : NoDup ts -> (forall e, e ∈ sched -> e.1 ∈ ts) ->
  sched.*2 ≡ₚ concat ((fun t => threadCalls t sched) <$> ts).
Proof.
  intros Hnd. revert sched. induction Hnd as [|t ts Ht _ IH]; intros sched Hin.
  { destruct sched as [|e sched]; [done|]. by specialize (Hin e ltac:(by left)) as []%not_elem_of_nil. }
  rewrite <- (filter_app_complement (fun e : nat * (Z * Attempt) => e.1 = t) sched) at 1. rewrite fmap_app. cbn [fmap list_fmap concat].
  apply Permutation_app; [done|]. rewrite IH.
  - apply concat_perm. clear IH Hin. induction ts as [|t' ts IHts]; [done|]. cbn [fmap list_fmap].
    rewrite IHts by (intros ?; apply Ht; by right).
    replace (threadCalls t' (filter (fun e => ~ e.1 = t) sched)) with (threadCalls t' sched); [done|].
    unfold threadCalls. f_equal. rewrite list_filter_filter. apply list_filter_iff. intros e.
    assert (t' <> t) by (intros ->; apply Ht; by left). naive_solver congruence.
  - intros e [Hne He]%list_elem_of_filter. apply Hin in He. set_solver.
Qed.

(** A file that a thread takes, and the number of the call of the extension that raises for it, if one does *)
Record Job := mkJob { jb_file : Z; jb_tree : Expr; jb_throws : option (nat * (ThreadState -> ThreadState)) }.

Section Jobs.
Context (sn : ScipNames) (gs : Program) (stopAfterPhase : PipelinePhase).
Context (isSCIPRuby lspQueryIsEmpty reportUndeclared : bool) (fuel simplifyFuel : nat).
Context (infer : Z -> CFG -> option (option CFG)) (validatorRaises : Z -> Expr -> bool) (relativePath : str -> str).

Abbreviation callsOfFile :=
  (typecheckOne sn gs stopAfterPhase isSCIPRuby lspQueryIsEmpty reportUndeclared fuel simplifyFuel infer validatorRaises).
Abbreviation collected := (collectCalls sn gs stopAfterPhase isSCIPRuby lspQueryIsEmpty reportUndeclared fuel simplifyFuel infer).
Abbreviation hooks := (nodeHooks sn gs stopAfterPhase isSCIPRuby lspQueryIsEmpty reportUndeclared fuel simplifyFuel infer).

(** The calls for a file, and whether its check ran to the end. A call of the extension that raises is the last one. *)
Definition jobRun (job : Job) : option (list (Z * Attempt) * bool) :=
  '(calls, finished) ← callsOfFile (jb_file job) (jb_tree job);
  let returns := fmap (fun call => (jb_file job, CallReturns call)) in
  match jb_throws job with
  | None => Some (returns (calls : list ExtensionCall), finished : bool)
  | Some (n, leave) => call ← calls !! n; Some (returns (take n calls) ++ [(jb_file job, CallThrows call leave)], false)
  end.

(** The calls for the files that a thread takes from the queue, in this order *)
Definition jobCalls (files : list Job) : option (list (Z * Attempt)) :=
  runs ← mapM jobRun files; Some (concat (fst <$> (runs : list (list (Z * Attempt) * bool)))).

(** The path of the document of a file, if it may have one *)
Definition indexedPath (file : Z) : option str :=
  f ← fileData gs file;
  if bool_decide (stopAfterPhase = NAMER) || bool_decide (stopAfterPhase = RESOLVER) || isRBI f then None
  else Some (documentPath relativePath (path_ f)).

(** The path of the document of a file whose check ran to its end *)
Definition completedPath (job : Job) : option str :=
  run ← jobRun job; if (run : list (Z * Attempt) * bool).2 then indexedPath (jb_file job) else None.

(** The node a call is about *)
Definition about (call : ExtensionCall) (v : Expr) : Prop :=
  match call with
  | TypecheckClass klass => klass = v
  | TypecheckMethod methodDef => methodDef = v
  | Typecheck _ methodDef => methodDef = None \/ methodDef = Some v
  | FinishTypecheckFile => False
  end.

Lemma graphCalls_about built m call calls v :
  graphCalls sn stopAfterPhase isSCIPRuby lspQueryIsEmpty simplifyFuel infer built m = Some calls ->
  m = None \/ m = Some v -> call ∈ cl_made calls -> about call v.
Proof.
  unfold graphCalls. destruct built as [[]|[[] st]]; try done; [intros [= <-] _ []%not_elem_of_nil|].
  intros (c & _ & E)%bind_Some Hm Hin.
  destruct (decide _); [injection E as <-; by apply not_elem_of_nil in Hin|]. injection E as <-.
  destruct (infer _ c) as [[c'|]|]; [|by apply not_elem_of_nil in Hin..]. by apply list_elem_of_singleton in Hin as ->.
Qed.

Lemma hooks_about c more call : hooks c = Some more -> call ∈ cl_made more -> about call (ca_node c).
Proof.
  unfold nodeHooks. intros E Hin.
  destruct (ca_phase c), (ca_node c) eqn:En; try (injection E as <-; by apply not_elem_of_nil in Hin).
  - unfold classCalls in E. apply bind_Some in E as (sym & _ & E). apply bind_Some in E as (runs & _ & E).
    destruct runs; [|injection E as <-; by apply not_elem_of_nil in Hin]. apply bind_Some in E as (f & _ & E).
    eapply graphCalls_about, Hin; [exact E|by left].
  - unfold methodCalls in E. apply bind_Some in E as (runs & _ & E). apply bind_Some in E as (gcalls & E & [= <-]).
    apply elem_of_cons in Hin as [->|Hin]; [done|]. destruct runs; [|injection E as <-; by apply not_elem_of_nil in Hin].
    apply bind_Some in E as (f & _ & E). eapply graphCalls_about, Hin; [exact E|by right].
  - injection E as <-. by apply list_elem_of_singleton in Hin as ->.
Qed.

(** Calls are about nodes of the tree, also when an exception ends the walk. *)
Definition of_tree (tree : Expr) (calls : list ExtensionCall) : Prop :=
  forall call, call ∈ calls -> exists v, about call v /\ forall P, everyNode P tree -> everyNode P v.

Lemma walk_calls ctx tree calls : leftBy (constShallowWalk collected ctx tree (Some [])) = Some calls -> of_tree tree calls.
Proof.
  pose proof (walk_left Shallow (fun calls => forall l, calls = Some l -> of_tree tree l) collected ctx tree (Some [])) as H.
  apply H; clear H calls.
  - intros c s Hw Hs l. unfold collectCalls. destruct s as [calls|]; [|done]. destruct (hooks c) as [more|] eqn:E; [|done].
    intros Hl. assert (l = calls ++ cl_made more) as ->; [by destruct (cl_raised more); injection Hl as <-|].
    intros call [Hin|Hin]%elem_of_app; [by apply (Hs calls)|]. exists (ca_node c). split; [by eapply hooks_about|].
    intros P. by eapply within_everyNode.
  - intros l [= <-] call []%not_elem_of_nil.
Qed.

(** The calls of a file: those of its nodes, and the end of the file if the check came there and it is no interface *)
Lemma typecheckOne_calls file tree calls finished : callsOfFile file tree = Some (calls, finished) -> exists body,
  of_tree tree body /\
  calls = body ++ if (finished : bool) then match indexedPath file with Some _ => [FinishTypecheckFile] | None => [] end else [].
Proof.
  intros (f & Hf & E)%bind_Some. unfold indexedPath. rewrite Hf. cbn [mbind option_bind].
  assert (Hnone : of_tree tree []) by (by intros call []%not_elem_of_nil).
  destruct (decide (stopAfterPhase = NAMER)) as [Hp|Hp]; [rewrite (bool_decide_eq_true_2 _ Hp)|rewrite (bool_decide_eq_false_2 _ Hp)]; clear Hp.
  { injection E as <- <-. by exists []. }
  destruct (validatorRaises file tree); [injection E as <- <-; by exists []|].
  destruct (decide (stopAfterPhase = RESOLVER)) as [Hp|Hp]; [rewrite (bool_decide_eq_true_2 _ Hp)|rewrite (bool_decide_eq_false_2 _ Hp)]; clear Hp.
  { injection E as <- <-. by exists []. }
  cbn [orb]. destruct (isRBI f && lspQueryIsEmpty) eqn:Er.
  { injection E as <- <-. apply andb_true_iff in Er as [-> _]. by exists []. }
  pose proof (walk_calls (mkContext (classSymbol root) file) tree) as Hw.
  destruct (constShallowWalk _ _ _ _) as [[body|]|[body|] b]; try done; cbn [leftBy mbind option_bind] in *; exists body.
  - injection E as <- <-. rewrite app_nil_r. split; [by apply Hw|done].
  - split; [by apply Hw|]. revert E. destruct (isRBI f); intros E; injection E as <- <-; [by rewrite app_nil_r|done].
Qed.

Abbreviation inFile file := (fmap (fun call : ExtensionCall => (file, CallReturns call))).

Lemma body_unfinished tree file body : of_tree tree body -> omap (finishedPath gs relativePath) (inFile file body) = [].
Proof.
  intros Hall. induction body as [|call body IH]; [done|]. cbn. rewrite IH by (intros c Hc; apply Hall; by right).
  destruct (Hall call ltac:(by left)) as (v & Ha & _). by destruct call.
Qed.

Lemma jobRun_finished job run : jobRun job = Some run ->
  omap (finishedPath gs relativePath) run.1 = option_list (completedPath job).
Proof.
  intros Hrun. unfold completedPath. rewrite Hrun. cbn [mbind option_bind].
  apply bind_Some in Hrun as ([calls finished] & (body & Hall & Hcalls)%typecheckOne_calls & E).
  destruct (jb_throws job) as [[n leave]|].
  - apply bind_Some in E as (call & Hn & [= <-]). cbn [fst snd]. rewrite omap_app. cbn. rewrite app_nil_r.
    assert (of_tree (jb_tree job) (take n calls)) as H; [|by rewrite (body_unfinished _ _ _ H)].
    assert (n <= length body)%nat as Hle.
    { apply lookup_lt_Some in Hn. rewrite Hcalls, length_app in Hn. destruct finished; [destruct (indexedPath _)|]; cbn in Hn; lia. }
    rewrite Hcalls, take_app_le by done. intros c Hc. apply Hall. by eapply subseteq_take.
  - injection E as <-. cbn [fst snd]. rewrite Hcalls, fmap_app, omap_app, (body_unfinished _ _ _ Hall). cbn [app].
    destruct finished; [|done]. unfold indexedPath. destruct (fileData gs (jb_file job)) as [f|] eqn:Hf; cbn; [|done].
    destruct (_ || _); [done|]. cbn. by rewrite Hf.
Qed.

Lemma jobRun_placed job run f : jobRun job = Some run -> treePlaced f (jb_tree job) ->
  (forall file c m, (file, CallReturns (Typecheck c m)) ∈ run.1 -> graphPlaced sn f c = true) ->
  forall file call, (file, CallReturns call) ∈ run.1 -> file = jb_file job /\ callPlaced sn f call.
Proof.
  intros ([calls finished] & (body & Hall & Hcalls)%typecheckOne_calls & E)%bind_Some Ht Hg file call Hin.
  assert (Hsub : file = jb_file job /\ call ∈ calls).
  { destruct (jb_throws job) as [[n leave]|].
    - apply bind_Some in E as (c & _ & [= <-]). apply elem_of_app in Hin as [Hin|Hin]; [|by apply list_elem_of_singleton in Hin].
      apply list_elem_of_fmap in Hin as (c' & [= -> ->] & Hc). split; [done|by eapply subseteq_take].
    - injection E as <-. by apply list_elem_of_fmap in Hin as (c' & [= -> ->] & Hc). }
  destruct Hsub as [-> Hc]. split; [done|]. rewrite Hcalls in Hc. apply elem_of_app in Hc as [Hb|Hb].
  - destruct (Hall call Hb) as (v & Ha & Hv). specialize (Hv _ Ht). destruct call; cbn in Ha |- *; [by subst..| |done].
    split; [by eapply Hg|]. intros m ->. destruct Ha as [?|[= ->]]; [done|]. exact Hv.
  - destruct finished; [destruct (indexedPath _)|]; try by apply not_elem_of_nil in Hb. by apply list_elem_of_singleton in Hb as ->.
Qed.

Lemma jobCalls_finished files calls : jobCalls files = Some calls ->
  omap (finishedPath gs relativePath) calls = omap completedPath files.
Proof.
  intros (all & Hm & [= <-])%bind_Some. revert all Hm. induction files as [|job files IH]; intros all Hm; [by injection Hm as <-|].
  cbn [mapM] in Hm. apply bind_Some in Hm as (run & Hj & Hm). apply bind_Some in Hm as (rest & Hm & [= <-]).
  cbn [concat omap list_omap fmap list_fmap]. rewrite omap_app, (IH _ Hm), (jobRun_finished _ _ Hj). by destruct (completedPath job).
Qed.

Lemma jobCalls_elem files calls e : jobCalls files = Some calls -> e ∈ calls ->
  exists job run, job ∈ files /\ jobRun job = Some run /\ e ∈ run.1 /\ forall e', e' ∈ run.1 -> e' ∈ calls.
Proof.
  intros (all & Hm & [= <-])%bind_Some Hin. apply list_elem_of_In, in_concat in Hin as (cs & Hcs & Hin). apply list_elem_of_In in Hcs, Hin.
  pose proof Hcs as (run & -> & Hrun)%list_elem_of_fmap. pose proof Hm as (job & Hj & E)%(mapM_elem _ _ _ run); [|done].
  exists job, run. split_and!; [done..|]. intros e' He. apply list_elem_of_In, in_concat. eexists. split; apply list_elem_of_In; [exact Hcs|done].
Qed.
End Jobs.
