(* ===== verification/ScipIndex.v ===== *)
(** * The index of a program

    Puts the parts of the indexer together: files are taken by threads, every file leads to calls of
    the extension (src/main/pipeline/pipeline.cc), the calls of the threads interleave, and at the end
    the index is written (src/scip_indexer/SCIPIndexer.cc). *)

From S2P Require Import Prelude Pickler FileHash Files Locs Types NameTable NameText Symbols SymbolRefs Linearize.
From S2P Require Import Ast UIntSet TreeWalk Cfg CfgTopo CfgReads CfgArgs CfgFinalize CfgBuild.
From S2P Require Import ScipUtils ScipProto ScipGem ScipSymbolRef ScipState ScipFieldResolve ScipOccurrences.
From S2P Require Import ScipTraversal ScipSample ScipReplay ScipPlaces ScipIndexing ScipDocuments ScipTypeSymbols ScipExtension ScipCalls ScipPipeline.
From S2P Require Import ScipThreads.

#[local] Open Scope Z_scope.

(** The comparisons of [finishTypecheck] *)
Definition pathOrder (d1 d2 : Document) : Z := str_compare (relative_path d1) (relative_path d2).

Definition externalOrder (s1 s2 : SymbolInformation) : Z := str_compare (s_symbol s1) (s_symbol s2).

(** Values are compared by a text of theirs. *)
Lemma text_comparison {A} (text : A -> str) :
  Comparison (fun _ => True) (fun a b => text a = text b) (fun a b => str_compare (text a) (text b)).
Proof.
  split; [split; [done|by intros ??|intros ???; by etransitivity]|..]; intros.
  - by apply (cmp_zero (ok := fun _ => True)).
  - by apply (cmp_flip (ok := fun _ => True) (R := eq)).
  - by eapply (cmp_trans (ok := fun _ => True) (R := eq)).
Qed.

Definition samePath (d1 d2 : Document) : Prop := relative_path d1 = relative_path d2.

#[export] Instance pathOrder_comparison : Comparison (fun _ => True) samePath pathOrder := text_comparison relative_path.

#[export] Instance externalOrder_comparison :
  Comparison (fun _ => True) (fun s1 s2 => s_symbol s1 = s_symbol s2) externalOrder := text_comparison s_symbol.

(** Lists with the same elements and the same paths in order are equal if no path occurs twice. *)
Lemma same_paths_eq l k : l ≡ₚ k -> NoDup (relative_path <$> l) -> Forall2 samePath l k -> l = k.
Proof.
  intros Hp Hn HF. apply list_eq_same_length with (length l); [by rewrite Hp|done|]. intros i a b _ Ha Hb.
  destruct (Forall2_lookup_l _ _ _ _ _ HF Ha) as (b' & Hb' & Hs). rewrite Hb in Hb'. injection Hb' as <-.
  assert (Hin : b ∈ l) by (rewrite Hp; by eapply list_elem_of_lookup_2). apply list_elem_of_lookup in Hin as (j & Hj).
  assert (i = j); [|by subst; rewrite Ha in Hj; injection Hj as ->].
  eapply NoDup_lookup; [exact Hn|by rewrite list_lookup_fmap, Ha|rewrite list_lookup_fmap, Hj; cbn; by rewrite <- Hs].
Qed.

Section Index.
Context (sn : ScipNames) (minitest : list Z) (gs : Program) (ty : TypeOps) (rbsEnabled : bool).
Context (unresolvedFields : gmap Z (gset Z)).
Context (sortAliases : list (GenericSymbolRef * LocOffsets) -> list (GenericSymbolRef * LocOffsets) * bool).
Context (decode : str -> option nat) (sortR : list Relationship -> list Relationship)
  (sortO : list Occurrence -> list Occurrence) (sortS : list SymbolInformation -> list SymbolInformation).
Context (showType : TypePtr -> str) (docStrings : GenericSymbolRef -> TypePtr -> Loc -> option (list str)).
Context (relativePath : str -> str) (scip_ruby_version currentPath : str).

Abbreviation run :=
  (runSchedule sn minitest gs ty rbsEnabled unresolvedFields sortAliases decode sortR sortO sortS showType docStrings relativePath).

(** How the end of the run visits the table of the threads and sorts *)
Record Finishing := mkFinishing {
  visitStates : StateMap -> list ThreadState;
  sortDocuments : list Document -> list Document;
  sortExternal : list SymbolInformation -> list SymbolInformation }.

Record finishing_ok (fin : Finishing) : Prop := mk_finishing_ok {
  fo_visit m : visitStates fin m ≡ₚ (map_to_list m).*2;
  fo_documents : sorts (fun _ => True) pathOrder (sortDocuments fin);
  fo_external : sorts (fun _ => True) externalOrder (sortExternal fin) }.

Definition finish (fin : Finishing) (x : Extension) : option (list Index) * Extension :=
  finishTypecheck (visitStates fin) (sortDocuments fin) (sortExternal fin) scip_ruby_version currentPath x.

Lemma all_true {A} (l : list A) : Forall (fun _ => True) l.
Proof. by apply Forall_forall. Qed.

Lemma visited_documents fin m : finishing_ok fin ->
  concat ((fun t : ThreadState => documents t.1) <$> visitStates fin m) ≡ₚ allDocuments m.
Proof. intros Hfin. apply concat_perm. by rewrite (fo_visit _ Hfin). Qed.

Lemma visited_external fin m : finishing_ok fin -> noExternal m ->
  concat ((fun t : ThreadState => externalSymbols t.1) <$> visitStates fin m) = [].
Proof.
  intros Hfin Hn. assert (H : Forall (fun t : ThreadState => externalSymbols t.1 = []) (visitStates fin m)).
  { apply Forall_forall. intros t. rewrite (fo_visit _ Hfin). intros ([thread t'] & -> & Hin)%list_elem_of_fmap.
    apply elem_of_map_to_list in Hin. by eapply Hn. }
  induction H as [|t l Ht _ IH]; [done|]. cbn. by rewrite Ht, IH.
Qed.

(** What a reader of the file finds *)
Lemma finish_read fin x : finishing_ok fin -> doNothing x = false -> noExternal (ex_states x) ->
  exists messages, finish fin x = (Some messages, set_states ∅ x) /\
    messages = writeIndex scip_ruby_version currentPath
      (sortDocuments fin (concat ((fun t : ThreadState => documents t.1) <$> visitStates fin (ex_states x)))) [] /\
    readDocuments messages ≡ₚ allDocuments (ex_states x) /\ sorted_by pathOrder (readDocuments messages) /\
    readExternalSymbols messages = [].
Proof.
  intros Hfin Hx Hn. unfold finish, finishTypecheck. rewrite Hx. cbv zeta. rewrite (visited_external _ _ Hfin Hn).
  destruct (fo_external _ Hfin [] (all_true _)) as [->%Permutation_nil_r _]. eexists. split; [done|]. split; [done|].
  destruct (writeIndex_read scip_ruby_version currentPath
    (sortDocuments fin (concat ((fun t : ThreadState => documents t.1) <$> visitStates fin (ex_states x)))) []) as [-> ->].
  destruct (fo_documents _ Hfin _ (all_true (concat ((fun t : ThreadState => documents t.1) <$> visitStates fin (ex_states x))))) as [Hp Hs].
  split_and!; [|done|done]. by rewrite Hp, visited_documents.
Qed.

(** C17: the index does not depend on the threads: two interleavings of the same calls of the threads do the same, and
    as long as no two finished files have the same path and calls that raise leave no document, neither the order in which the table of the threads is
    visited nor the way in which the documents are sorted changes a byte of what is written. *)
Theorem index_deterministic sched1 sched2 fin1 fin2 x x1 :
  (forall thread, threadCalls thread sched1 = threadCalls thread sched2) ->
  finishing_ok fin1 -> finishing_ok fin2 -> ex_states x = ∅ ->
  NoDup (omap (finishedPath gs relativePath) sched1.*2) -> throws_quiet sched1 ->
  run x sched1 = Some x1 ->
  run x sched2 = Some x1 /\ finish fin2 x1 = finish fin1 x1.
Proof.
  intros Hsame H1 H2 Hx Hn Hq E. split; [by rewrite <- (run_interleaved _ _ _ _ _ _ _ _ _ _ _ _ _ _ sched1 sched2 x Hsame)|].
  destruct (doNothing x) eqn:Hd.
  { apply run_nothing in E as ->; [|done]. unfold finish, finishTypecheck. by rewrite Hd. }
  pose proof E as (Hpath & _)%run_threads. assert (Hd1 : doNothing x1 = false) by (unfold doNothing in *; by rewrite Hpath).
  apply run_documents_all in E as (Hext & docs & Hp & Hall); [|done|rewrite Hx; intros ? ?; by rewrite lookup_empty|done].
  destruct (finish_read fin1 x1 H1 Hd1 Hext) as (m1 & -> & -> & Hr1 & _ & _), (finish_read fin2 x1 H2 Hd1 Hext) as (m2 & -> & -> & Hr2 & _ & _).
  assert (Hsorted : forall fin, finishing_ok fin ->
    sortDocuments fin (concat ((fun t : ThreadState => documents t.1) <$> visitStates fin (ex_states x1))) ≡ₚ allDocuments (ex_states x1)).
  { intros fin Hfin. rewrite <- (visited_documents fin) by done. apply (fo_documents _ Hfin), all_true. }
  do 3 f_equal. apply same_paths_eq.
  - by rewrite !Hsorted.
  - rewrite Hsorted, Hall, Hx by done. unfold allDocuments at 1. rewrite map_to_list_empty. cbn. by rewrite Hp.
  - apply (sorts_unique (ok := fun _ => True) (cmp := pathOrder)); [apply H2|apply H1|apply all_true|by rewrite !visited_documents].
Qed.

(** ** Files and documents *)

Context (stopAfterPhase : PipelinePhase) (isSCIPRuby lspQueryIsEmpty reportUndeclared : bool) (fuel simplifyFuel : nat).
Context (infer : Z -> CFG -> option (option CFG)) (validatorRaises : Z -> Expr -> bool).

Abbreviation callsFor :=
  (jobCalls sn gs stopAfterPhase isSCIPRuby lspQueryIsEmpty reportUndeclared fuel simplifyFuel infer validatorRaises).
Abbreviation completed :=
  (completedPath sn gs stopAfterPhase isSCIPRuby lspQueryIsEmpty reportUndeclared fuel simplifyFuel infer validatorRaises relativePath).

(** The [n]-th thread takes the files [jobs !! n], and a schedule interleaves the calls that they lead to. *)
Definition interleaves (jobs : list (list Job)) (sched : Schedule) : Prop :=
  forall thread, callsFor (default [] (jobs !! thread)) = Some (threadCalls thread sched).

Lemma interleaves_threads jobs sched e : interleaves jobs sched -> e ∈ sched -> e.1 ∈ seq 0 (length jobs).
Proof.
  intros Hi He. apply elem_of_seq. split; [lia|]. destruct (decide (e.1 < length jobs)%nat) as [|Hge]; [lia|]. exfalso.
  specialize (Hi e.1). rewrite lookup_ge_None_2 in Hi by lia. cbn in Hi. injection Hi as Hi.
  assert (Hin : e.2 ∈ threadCalls e.1 sched) by (apply list_elem_of_fmap; exists e; split; [done|by apply list_elem_of_filter]).
  rewrite <- Hi in Hin. by apply not_elem_of_nil in Hin.
Qed.

Lemma interleaves_jobs jobs sched t c : interleaves jobs sched -> (t, c) ∈ sched ->
  exists files calls, jobs !! t = Some files /\ callsFor files = Some calls /\ c ∈ calls /\ forall c', c' ∈ calls -> (t, c') ∈ sched.
Proof.
  intros Hi Hin. pose proof (interleaves_threads _ _ _ Hi Hin) as Ht%elem_of_seq. cbn in Ht.
  destruct (lookup_lt_is_Some_2 jobs t ltac:(lia)) as [files Hf]. exists files, (threadCalls t sched). specialize (Hi t).
  rewrite Hf in Hi. split_and!; [done|done|apply list_elem_of_fmap; exists (t, c); split; [done|by apply list_elem_of_filter]|].
  intros c' ([t' c1] & -> & [Hq Hc']%list_elem_of_filter)%list_elem_of_fmap. cbn in *. by subst.
Qed.

Lemma interleaves_paths jobs sched : interleaves jobs sched ->
  omap (finishedPath gs relativePath) sched.*2 ≡ₚ omap completed (concat jobs).
Proof.
  intros Hi. rewrite (sched_partition (seq 0 (length jobs)) sched); [|apply NoDup_seq|intros e; by apply interleaves_threads].
  assert (Hlist : jobs = (fun t => default [] (jobs !! t)) <$> seq 0 (length jobs)).
  { apply list_eq. intros i. rewrite list_lookup_fmap. destruct (decide (i < length jobs)%nat).
    - rewrite lookup_seq_lt by done. cbn. by destruct (lookup_lt_is_Some_2 jobs i) as [? ->].
    - rewrite lookup_seq_ge, lookup_ge_None_2 by lia. done. }
  rewrite Hlist at 2. clear Hlist. induction (seq 0 (length jobs)) as [|t ts IH]; [done|]. cbn [fmap list_fmap concat].
  rewrite !omap_app. apply Permutation_app; [|done]. by erewrite (jobCalls_finished _ _ _ _ _ _ _ _ _ _ relativePath _ _ (Hi t)).
Qed.

(** C15: the index is complete: whatever the interleaving of the threads, and whichever files raise exceptions, the file
    that is written has exactly one document for each Ruby file whose check ran to its end, under its path, and none for
    the files that raised and for interface files, provided that no call of the extension raises once it has added its
    document; the documents are sorted by path, and there are no external symbols. *)
Theorem index_complete jobs sched fin x x' messages x'' :
  interleaves jobs sched -> throws_quiet sched -> finishing_ok fin -> doNothing x = false -> ex_states x = ∅ ->
  run x sched = Some x' -> finish fin x' = (Some messages, x'') ->
  relative_path <$> readDocuments messages ≡ₚ omap completed (concat jobs) /\
  sorted_by pathOrder (readDocuments messages) /\ readExternalSymbols messages = [] /\ ex_states x'' = ∅.
Proof.
  intros Hi Hq Hfin Hd Hx E Em. pose proof E as (Hpath & _)%run_threads.
  assert (Hd' : doNothing x' = false) by (unfold doNothing in *; by rewrite Hpath).
  apply run_documents_all in E as (Hext & docs & Hp & Hall); [|done|rewrite Hx; intros ? ?; by rewrite lookup_empty|done].
  destruct (finish_read fin x' Hfin Hd' Hext) as (m & Em' & _ & Hr & Hs & He). rewrite Em in Em'. injection Em' as <- ->.
  split_and!; [|done|done|done]. rewrite Hr, Hall, Hx. unfold allDocuments. rewrite map_to_list_empty. cbn.
  by rewrite Hp, interleaves_paths.
Qed.

(** The trees and graphs of the files have places in them. *)
Definition jobs_placed (jobs : list (list Job)) (sched : Schedule) : Prop :=
  (forall files job, files ∈ jobs -> job ∈ files -> exists f, fileData gs (jb_file job) = Some f /\
     typeParametersPlaced gs (jb_file job) f = true /\ treePlaced f (jb_tree job)) /\
  (forall t file c m f, (t, (file, CallReturns (Typecheck c m))) ∈ sched -> fileData gs file = Some f -> graphPlaced sn f c = true).

(** Every call belongs to a file that its thread has taken. *)
Lemma sched_placed jobs sched t file call : interleaves jobs sched -> jobs_placed jobs sched ->
  (t, (file, CallReturns call)) ∈ sched -> exists f, fileData gs file = Some f /\
    typeParametersPlaced gs file f = true /\ callPlaced sn f call.
Proof.
  intros Hi [Htrees Hgraphs] Hin. destruct (interleaves_jobs _ _ _ _ Hi Hin) as (files & calls & Hf & Hc & Hin' & Hback).
  eapply jobCalls_elem in Hin' as (job & jrun & Hjob & Hrun & Hcall & Hsub); [|exact Hc].
  destruct (Htrees files job) as (f & Hfile & Htp & Hplaced); [by eapply list_elem_of_lookup_2|done|].
  assert (H : forall file call, (file, CallReturns call) ∈ jrun.1 -> file = jb_file job).
  { intros file' call' Hc'. apply bind_Some in Hrun as ([calls' fin'] & _ & E). destruct (jb_throws job) as [[n leave]|].
    - apply bind_Some in E as (c & _ & [= <-]). apply elem_of_app in Hc' as [Hc'|Hc']; [|by apply list_elem_of_singleton in Hc'].
      by apply list_elem_of_fmap in Hc' as (c' & [= -> _] & _).
    - injection E as <-. by apply list_elem_of_fmap in Hc' as (c' & [= -> _] & _). }
  eapply (jobRun_placed _ _ _ _ _ _ _ _ _ _ relativePath) in Hcall as [-> Hcall]; [|exact Hrun|exact Hplaced|].
  - by exists f.
  - intros file' c m Hc'. eapply (Hgraphs t file' c m); [by apply Hback, Hsub|]. by rewrite (H _ _ Hc').
Qed.

(** C16: everything in the written index is well-formed: every occurrence lies on one line, with non-negative
    coordinates in order, its symbol and that of every symbol information is the text of one SCIP symbol or a local,
    and documentation is well-formed UTF-8, if the places in the trees and graphs lie in their files. This holds
    whichever files raise exceptions, provided that what a raising call of the extension has done until then is a
    sequence of recordings that adds no document. *)
Theorem index_documents_ok jobs sched fin x x' messages x'' :
  (forall file f, fileData gs file = Some f -> File_wf f /\ is_size (length (source_ f))) ->
  validating decode -> (forall todo, (sortAliases todo).1 ≡ₚ todo) ->
  (forall l o, o ∈ sortO l -> o ∈ l) -> (forall l s, s ∈ sortS l -> s ∈ l) ->
  interleaves jobs sched -> jobs_placed jobs sched ->
  throws_quiet sched -> throws_run gs decode sortR sortO sortS showType docStrings sched ->
  finishing_ok fin -> doNothing x = false -> ex_states x = ∅ ->
  run x sched = Some x' -> finish fin x' = (Some messages, x'') ->
  Forall document_ok (readDocuments messages).
Proof.
  intros Hfiles Hdec Hsort HsO HsS Hi Hplaced Hq Hthrow Hfin Hd Hx E Em. pose proof E as (Hpath & _)%run_threads.
  assert (Hd' : doNothing x' = false) by (unfold doNothing in *; by rewrite Hpath).
  pose proof E as (Hext & _)%run_documents_all; [|done|rewrite Hx; intros ? ?; by rewrite lookup_empty|done].
  eapply run_documents_wf in E; try done.
  - destruct (finish_read fin x' Hfin Hd' Hext) as (m & Em' & _ & Hr & _). rewrite Em in Em'. injection Em' as <- ->.
    rewrite Hr. apply Forall_concat, Forall_fmap, Forall_fmap, Forall_forall. intros [thread t] Hin%elem_of_map_to_list.
    by apply E in Hin as [_ ?].
  - intros t file call Hin. by eapply sched_placed.
  - rewrite Hx. intros ? ?. by rewrite lookup_empty.
Qed.
End Index.

(** ** Two threads and five files

    The Ruby files have the class [foo]; the first thread also takes an interface file. The second thread takes a file for
    which the extension raises when it defines the class, and one whose tree has a parameter in the body of a class, for which
    the builder of graphs raises. *)

Definition rubyFile (path : str) : File :=
  mkFile 0 Normal (makeFlags path) path s! "class foo; end" None Max NoneLevel TrueLevel None.

Definition fiveFiles : Program :=
  mkProgram
    (mkSymbolic (mkSymbolTable [noClass; noClass; noClass; noClass; fooClass] [indexedMethod; indexedMethod] [] [] []) fooTable
       (mkWellKnown 0 0 0 0 0 0))
    [rubyFile s! "b.rb"; rubyFile s! "a.rb"; rubyFile s! "c.rbi"; rubyFile s! "d.rb"; rubyFile s! "e.rb"].

Definition treeWith (rhs : list Expr) : Expr :=
  ClassDef (mkLocOffsets 0 14) (mkLocOffsets 0 0) root KindClass
    (ClassDef (mkLocOffsets 0 14) (mkLocOffsets 0 9) 4 KindClass [] (KnownConstantLit (mkLocOffsets 6 9) 32) [] [] :: rhs) EmptyTree [] [].

Definition fooTree : Expr := treeWith [].

Definition misplacedTree : Expr := treeWith [BlockParam (mkLocOffsets 6 9) (Local (mkLocOffsets 6 9) 1 0)].

(** There is no documentation for what is in the fourth file. *)
Definition sampleDocs : GenericSymbolRef -> TypePtr -> Loc -> option (list str) :=
  fun _ _ loc => if locFile loc =? 4 then None else Some [].

Definition quietly (t : ThreadState) : ThreadState := t.

(** The third call for the fourth file defines the class. *)
Definition sampleJobs : list (list Job) :=
  [[mkJob 1 fooTree None; mkJob 3 fooTree None];
   [mkJob 4 fooTree (Some (2%nat, quietly)); mkJob 5 misplacedTree None; mkJob 2 fooTree None]].

Abbreviation callsSample :=
  (jobCalls indexedNames fiveFiles INFERENCER true true false 10 10 (fun _ c => Some (Some c)) (fun _ _ => false)).

(** The second thread runs between the first and the second call of the first thread, or after it. *)
Definition onThread (thread : nat) (calls : list (Z * Attempt)) : Schedule := (fun c => (thread, c)) <$> calls.

Definition callsOfThread (thread : nat) : list (Z * Attempt) := default [] (files ← sampleJobs !! thread; callsSample files).

Definition between : Schedule :=
  onThread 0 (take 1 (callsOfThread 0)) ++ onThread 1 (callsOfThread 1) ++ onThread 0 (drop 1 (callsOfThread 0)).

Definition afterwards : Schedule := onThread 0 (callsOfThread 0) ++ onThread 1 (callsOfThread 1).

Definition emptyExtension : Extension :=
  mkExtension s! "index.scip" (mkConfig [] [] false) (markCurrentGem (mkGemMetadata s! "g" s! "1") newGemMapping) ∅.

Abbreviation runSample :=
  (runSchedule indexedNames [] fiveFiles indexedTypes false ∅ keepOrder utf8_char id id id (fun _ => []) sampleDocs id
    emptyExtension).

(** Two ways to finish *)
Definition inOrder : Finishing := mkFinishing (fun m => (map_to_list m).*2) (insertion_sort pathOrder) (insertion_sort externalOrder).

Definition backwards : Finishing := mkFinishing (fun m => rev (map_to_list m).*2) (insertion_sort pathOrder) (insertion_sort externalOrder).

Lemma inOrder_ok : finishing_ok inOrder.
Proof. split; [done|apply insertion_sort_sorts..]. Qed.

Lemma backwards_ok : finishing_ok backwards.
Proof. split; [intros m; cbn; symmetry; apply Permutation_rev|apply insertion_sort_sorts..]. Qed.

(** No other thread has calls. *)
Lemma threadCalls_other (sched : Schedule) n : forallb (fun e => (e.1 <? 2)%nat) sched = true -> threadCalls (S (S n)) sched = [].
Proof.
  induction sched as [|[t c] sched IH]; [done|]. cbn [forallb fst]. intros [Ht H]%andb_true_iff. apply Nat.ltb_lt in Ht.
  rewrite threadCalls_cons, decide_False by lia. by apply IH.
Qed.

Lemma between_interleaves :
  interleaves indexedNames fiveFiles INFERENCER true true false 10 10 (fun _ c => Some (Some c)) (fun _ _ => false) sampleJobs between.
Proof.
  intros [|[|n]]; [vm_compute; reflexivity|vm_compute; reflexivity|]. rewrite threadCalls_other by (vm_compute; reflexivity). reflexivity.
Qed.

(** The call that raises leaves everything as it was. *)
Lemma between_throws thread file call leave : (thread, (file, CallThrows call leave)) ∈ between -> leave = quietly.
Proof.
  assert (Hall : Forall (fun e : nat * (Z * Attempt) => match e.2.2 with CallThrows _ leave => leave = quietly | CallReturns _ => True end) between).
  { vm_compute. repeat constructor. }
  rewrite Forall_forall in Hall. intros Hin. exact (Hall _ Hin).
Qed.

Lemma between_quiet : throws_quiet between.
Proof. intros thread file call leave Hin t. rewrite (between_throws _ _ _ _ Hin). reflexivity. Qed.

Lemma fiveFiles_wf file f : fileData fiveFiles file = Some f -> File_wf f /\ is_size (length (source_ f)).
Proof.
  assert (H : forall path, File_wf (rubyFile path)) by (intros path; split; [reflexivity|done|reflexivity]).
  unfold fileData. destruct (file <=? 0); [done|]. cbn. destruct (Z.to_nat (file - 1)) as [|[|[|[|[|n]]]]]; cbn; try done.
  all: intros [= <-]; split; [apply H|done].
Qed.

(** The trees and the graphs of the sample have places. *)
Lemma between_placed : jobs_placed indexedNames fiveFiles sampleJobs between.
Proof.
  split.
  - intros files job Hfiles Hjob.
    assert (Hall : forallb (forallb (fun job => match fileData fiveFiles (jb_file job) with
        | Some f => typeParametersPlaced fiveFiles (jb_file job) f && everyNodeb (nodePlaced f) 4 (jb_tree job) | None => false end))
      sampleJobs = true) by (vm_compute; reflexivity).
    rewrite forallb_elem in Hall. specialize (Hall _ Hfiles). rewrite forallb_elem in Hall. specialize (Hall _ Hjob). cbn beta in Hall.
    destruct (fileData fiveFiles (jb_file job)) as [f|]; [|done]. apply andb_true_iff in Hall as [H1 H2]. exists f.
    split_and!; [done|done|]. eapply everyNodeb_sound, H2. done.
  - assert (Hall : forallb (fun e : nat * (Z * Attempt) => match e.2.2, fileData fiveFiles e.2.1 with
      | CallReturns (Typecheck c _), Some f => graphPlaced indexedNames f c | _, _ => true end) between = true) by (vm_compute; reflexivity).
    intros t file c m f Hin Hf. rewrite forallb_elem in Hall. specialize (Hall _ Hin). cbn beta iota in Hall. cbn [fst snd] in Hall. by rewrite Hf in Hall.
Qed.

Lemma between_runs : is_Some (runSample between).
Proof. vm_compute. by eexists. Qed.

Lemma finish_sample sched x : runSample sched = Some x ->
  exists messages, finish s! "v" s! "/" inOrder x = (Some messages, set_states ∅ x).
Proof.
  intros [Hp _]%run_threads. assert (Hd : doNothing x = false) by (unfold doNothing; by rewrite Hp).
  unfold finish, finishTypecheck. rewrite Hd. by eexists.
Qed.

Lemma index_deterministic_witness : exists x1, runSample between = Some x1 /\ runSample afterwards = Some x1 /\
  finish s! "v" s! "/" backwards x1 = finish s! "v" s! "/" inOrder x1.
Proof.
  destruct between_runs as [x1 E]. exists x1. split; [exact E|].
  destruct (index_deterministic indexedNames [] fiveFiles indexedTypes false ∅ keepOrder utf8_char id id id (fun _ => [])
    sampleDocs id s! "v" s! "/" between afterwards inOrder backwards emptyExtension x1) as [H1 H2].
  - intros [|[|n]]; [vm_compute; reflexivity|vm_compute; reflexivity|]. rewrite !threadCalls_other by (vm_compute; reflexivity). reflexivity.
  - apply inOrder_ok.
  - apply backwards_ok.
  - reflexivity.
  - apply (bool_decide_unpack _). vm_compute. exact I.
  - apply between_quiet.
  - exact E.
  - split; [exact H1|exact H2].
Defined.

Lemma index_complete_witness : exists x' messages, runSample between = Some x' /\
  finish s! "v" s! "/" inOrder x' = (Some messages, set_states ∅ x') /\
  relative_path <$> readDocuments messages ≡ₚ [s! "b.rb"; s! "a.rb"] /\ sorted_by pathOrder (readDocuments messages).
Proof.
  destruct between_runs as [x' E]. exists x'. destruct (finish_sample between x' E) as [messages Hm]. exists messages.
  split; [exact E|]. split; [exact Hm|].
  destruct (index_complete indexedNames [] fiveFiles indexedTypes false ∅ keepOrder utf8_char id id id (fun _ => []) sampleDocs id
    s! "v" s! "/" INFERENCER true true false 10 10 (fun _ c => Some (Some c)) (fun _ _ => false) sampleJobs between inOrder
    emptyExtension x' messages (set_states ∅ x')) as (Hp & Hs & _).
  - apply between_interleaves.
  - apply between_quiet.
  - apply inOrder_ok.
  - reflexivity.
  - reflexivity.
  - exact E.
  - exact Hm.
  - split; [|exact Hs]. etransitivity; [exact Hp|]. vm_compute. reflexivity.
Defined.

Lemma index_documents_ok_witness : exists x' messages, runSample between = Some x' /\
  finish s! "v" s! "/" inOrder x' = (Some messages, set_states ∅ x') /\ Forall document_ok (readDocuments messages).
Proof.
  destruct between_runs as [x' E]. exists x'. destruct (finish_sample between x' E) as [messages Hm]. exists messages.
  split; [exact E|]. split; [exact Hm|].
  eapply (index_documents_ok indexedNames [] fiveFiles indexedTypes false ∅ keepOrder utf8_char id id id (fun _ => []) sampleDocs id
    s! "v" s! "/" INFERENCER true true false 10 10 (fun _ c => Some (Some c)) (fun _ _ => false) sampleJobs between inOrder
    emptyExtension x' messages (set_states ∅ x')).
  - apply fiveFiles_wf.
  - intros s. reflexivity.
  - intros todo. reflexivity.
  - intros l o Ho. exact Ho.
  - intros l o Ho. exact Ho.
  - apply between_interleaves.
  - apply between_placed.
  - apply between_quiet.
  - intros thread file call leave Hin t. rewrite (between_throws _ _ _ _ Hin). reflexivity.
  - apply inOrder_ok.
  - reflexivity.
  - reflexivity.
  - exact E.
  - exact Hm.
Defined.
