(* ===== verification/LspEpochs.v ===== *)
(** * Epochs and preemption of the language server

    Models src/core/lsp/TypecheckEpochManager, src/core/lsp/PreemptionTaskManager, and the code of src/main/lsp that uses
    them: the processing thread ([LSPLoop::runLSP], [LSPTypecheckerCoordinator]) starts, cancels and preempts long runs of
    the checker (slow paths), which the typechecking thread does ([SorbetWorkspaceEditTask::runSpecial],
    [LSPTypechecker::runSlowPath]). What a thread does under [epochMutex], and every access to an atomic variable, is one
    step; the steps of the two threads interleave in any way. Tasks and error queues are known by numbers, as the
    source knows them by their addresses. *)

From S2P Require Import Prelude.

#[local] Open Scope Z_scope.

(** ** Epochs *)

Record TypecheckEpochManager := mkEpochManager {
  currentlyProcessingLSPEpoch : Z; lspEpochInvalidator : Z; lastCommittedLSPEpoch : Z;
  em_typecheckingThreadId : option Z; em_messageProcessingThreadId : option Z }.

(** [None] is the exception about the wrong thread. *)
Definition assertConsistentThread (expectedThreadId : option Z) (this_thread : Z) : option (option Z) :=
  match expectedThreadId with
  | None => Some (Some this_thread)
  | Some expected => if expected =? this_thread then Some (Some expected) else None
  end.

Definition startCommitEpoch (this_thread epoch : Z) (em : TypecheckEpochManager) : option TypecheckEpochManager :=
  thread ← assertConsistentThread (em_typecheckingThreadId em) this_thread;
  Some (mkEpochManager epoch epoch (lastCommittedLSPEpoch em) thread (em_messageProcessingThreadId em)).

Definition wasTypecheckingCanceled (em : TypecheckEpochManager) : bool := negb (lspEpochInvalidator em =? currentlyProcessingLSPEpoch em).

Record TypecheckingStatus := mkStatus { slowPathRunning : bool; slowPathWasCanceled : bool; ts_epoch : Z }.

Definition getStatusInternal (em : TypecheckEpochManager) : TypecheckingStatus :=
  let processing := currentlyProcessingLSPEpoch em in
  mkStatus (negb (processing =? lastCommittedLSPEpoch em)) (negb (processing =? lspEpochInvalidator em)) processing.

Definition tryCancelSlowPath (this_thread newEpoch : Z) (em : TypecheckEpochManager) : option (bool * TypecheckEpochManager) :=
  thread ← assertConsistentThread (em_messageProcessingThreadId em) this_thread;
  let processing := currentlyProcessingLSPEpoch em in
  let committed := lastCommittedLSPEpoch em in
  let cancels := negb ((processing =? committed) || (newEpoch =? processing)) in
  Some (cancels, mkEpochManager processing (if cancels then newEpoch else lspEpochInvalidator em) committed (em_typecheckingThreadId em) thread).

(** The critical section of [tryCommitEpoch] *)
Definition commitEpoch (em : TypecheckEpochManager) : bool * TypecheckEpochManager :=
  let processing := currentlyProcessingLSPEpoch em in
  if processing =? lspEpochInvalidator em
  then (true, mkEpochManager processing (lspEpochInvalidator em) processing (em_typecheckingThreadId em) (em_messageProcessingThreadId em))
  else let lastCommitted := lastCommittedLSPEpoch em in
       (false, mkEpochManager lastCommitted lastCommitted lastCommitted (em_typecheckingThreadId em) (em_messageProcessingThreadId em)).

(** ** Preemption *)

(** [atomic_compare_exchange_strong(&slot, &expected, desired)]: the result and the new values of [slot] and [expected] *)
Definition compareExchange (slot expected desired : option Z) : bool * option Z * option Z :=
  if bool_decide (slot = expected) then (true, desired, expected) else (false, slot, slot).

(** [rescheduled] is the stratum that [setRescheduledStratum] was called with. *)
Record RunResult := mkRunResult { tasksHandled : bool; rescheduled : option Z }.

Definition progress (r : RunResult) : bool := tasksHandled r || bool_decide (is_Some (rescheduled r)).

Record PreemptionTaskManager := mkPreemption {
  preemptTask : option Z; runnableAt : Z; pm_typecheckingThreadId : option Z; pm_processingThreadId : option Z }.

Definition set_preemptTask task (pm : PreemptionTaskManager) : PreemptionTaskManager :=
  mkPreemption task (runnableAt pm) (pm_typecheckingThreadId pm) (pm_processingThreadId pm).

Definition set_runnableAt stratum (pm : PreemptionTaskManager) : PreemptionTaskManager :=
  mkPreemption (preemptTask pm) stratum (pm_typecheckingThreadId pm) (pm_processingThreadId pm).

(** [trySchedulePreemptionTask], up to the check of the status: the task that is loaded, and whether the code goes on *)
Definition scheduleLoad (this_thread : Z) (em : TypecheckEpochManager) (pm : PreemptionTaskManager)
    : option (bool * option Z * PreemptionTaskManager) :=
  thread ← assertConsistentThread (pm_processingThreadId pm) this_thread;
  let status := getStatusInternal em in
  let existingTask := preemptTask pm in
  let goesOn := negb (negb (slowPathRunning status) || slowPathWasCanceled status || bool_decide (is_Some existingTask)) in
  Some (goesOn, existingTask, mkPreemption existingTask (runnableAt pm) (pm_typecheckingThreadId pm) thread).

Definition scheduleSwap (task : Z) (existingTask : option Z) (pm : PreemptionTaskManager) : bool * PreemptionTaskManager :=
  let '(success, slot, _) := compareExchange (preemptTask pm) existingTask (Some task) in (success, set_preemptTask slot pm).

(** The whole of it, without interference *)
Definition trySchedulePreemptionTask (this_thread task : Z) (em : TypecheckEpochManager) (pm : PreemptionTaskManager)
    : option (bool * PreemptionTaskManager) :=
  '(goesOn, existingTask, pm) ← scheduleLoad this_thread em pm;
  Some (if (goesOn : bool) then scheduleSwap task existingTask (set_runnableAt 0 pm) else (false, pm)).

Definition tryCancelScheduledPreemptionTask (this_thread : Z) (task : option Z) (pm : PreemptionTaskManager)
    : option (bool * PreemptionTaskManager) :=
  thread ← assertConsistentThread (pm_processingThreadId pm) this_thread;
  let '(success, slot, _) := compareExchange (preemptTask pm) task None in
  Some (success, mkPreemption slot (runnableAt pm) (pm_typecheckingThreadId pm) thread).

(** [tryRunScheduledPreemptionTask] up to the load of the slot *)
Definition runLoad (this_thread : Z) (pm : PreemptionTaskManager) : option (option Z * PreemptionTaskManager) :=
  thread ← assertConsistentThread (pm_typecheckingThreadId pm) this_thread;
  Some (preemptTask pm, mkPreemption (preemptTask pm) (runnableAt pm) thread (pm_processingThreadId pm)).

(** Whether the stratum that the task waits for is not reached yet *)
Definition runTooEarly (allowReschedule : bool) (currentStratum : Z) (pm : PreemptionTaskManager) : bool :=
  allowReschedule && (currentStratum <? runnableAt pm).

(** The whole of it, without interference, for a task whose [run] gives [result]; the last component says whether the
    task was finished. *)
Definition tryRunScheduledPreemptionTask (this_thread currentStratum : Z) (allowReschedule : bool) (result : RunResult)
    (pm : PreemptionTaskManager) : option (RunResult * bool * PreemptionTaskManager) :=
  '(task, pm) ← runLoad this_thread pm;
  match task with
  | None => Some (mkRunResult false None, false, pm)
  | Some task =>
      if runTooEarly allowReschedule currentStratum pm then Some (mkRunResult false (Some (runnableAt pm)), false, pm)
      else
        let '(taken, slot, _) := compareExchange (preemptTask pm) (Some task) None in
        let pm := set_preemptTask slot pm in
        if negb taken then Some (mkRunResult false None, false, pm)
        else match rescheduled result with
             | Some stratum =>
                 if allowReschedule then
                   let pm := set_runnableAt stratum pm in
                   let existingTask := preemptTask pm in
                   let '(_, slot, _) := compareExchange (preemptTask pm) existingTask (Some task) in
                   Some (result, false, set_preemptTask slot pm)
                 else Some (result, true, pm)
             | None => Some (result, true, pm)
             end
  end.

(** [tryCommitEpoch] without interference: [typecheck] is the function that it is given, and gives the stratum it came to;
    [result] is that of a task that runs at the end. *)
Definition tryCommitEpoch (this_thread : Z) (isCancelable hasPreemption : bool)
    (typecheck : TypecheckEpochManager -> PreemptionTaskManager -> option (Z * TypecheckEpochManager * PreemptionTaskManager)) (result : RunResult)
    (em : TypecheckEpochManager) (pm : PreemptionTaskManager) : option (bool * TypecheckEpochManager * PreemptionTaskManager) :=
  thread ← assertConsistentThread (em_typecheckingThreadId em) this_thread;
  let em := mkEpochManager (currentlyProcessingLSPEpoch em) (lspEpochInvalidator em) (lastCommittedLSPEpoch em) thread (em_messageProcessingThreadId em) in
  '(finalStratum, em, pm) ← typecheck em pm;
  if negb isCancelable then Some (true, em, pm)
  else
    let '(committed, em) := commitEpoch em in
    if (hasPreemption : bool) then
      '(_, _, pm) ← tryRunScheduledPreemptionTask this_thread finalStratum false result pm; Some (committed, em, pm)
    else Some (committed, em, pm).

(** ** The two threads *)

(** Inside [tryRunScheduledPreemptionTask]; [queue] is the error queue that is put back when the task has run *)
Inductive RunPc :=
| RunLoad
| RunCheck (task : Z)
| RunTake (task : Z)
| RunTask (task queue : Z)
| RunDefer (task queue stratum : Z)
| RunReload (task queue : Z)
| RunRequeue (task queue : Z) (existingTask : option Z)
| RunFinish (task queue : Z)
| RunDone.

Inductive TypecheckingPc :=
| Waiting                                                  (* for a task in the queue of the thread *)
| Checking (epoch : Z)                                     (* in [tryCommitEpoch], in the function [typecheck] *)
| Preempting (epoch stratum : Z) (run : RunPc)             (* there, running a task *)
| Ending (epoch stratum : Z) (run : RunPc).                (* in [tryCommitEpoch], after the commit *)

Inductive ProcessingPc :=
| Idle
| ScheduleReset (task : Z) (existingTask : option Z)       (* in [trySchedulePreemptionTask], before [runnableAt.store] *)
| ScheduleSwap (task : Z) (existingTask : option Z)        (* before the exchange *)
| Scheduled (task : Z)                                     (* waits until the front of its queue cannot preempt *)
| Blocked (task : Z)                                       (* in [finished.WaitForNotification()] *)
| Starting (epoch : Z).                                    (* in [blockUntilReady] of a slow path *)

(** What the threads have done *)
Inductive Event :=
| EvStarted (epoch : Z) | EvCanceled (newEpoch : Z) | EvCommitted (epoch : Z) | EvAborted (epoch : Z)
| EvScheduled (task : Z) | EvUnscheduled (task : Z) | EvRan (task stratum : Z) (last : bool) | EvDeferred (task stratum : Z) | EvFinished (task : Z).

Record Server := mkServer {
  sv_epochs : TypecheckEpochManager; sv_preemption : PreemptionTaskManager; sv_errorQueue : Z;
  sv_typechecking : TypecheckingPc; sv_processing : ProcessingPc; sv_log : list Event }.

Definition processingThread : Z := 0.
Definition typecheckingThread : Z := 1.

(** [epochMutex] is held while a task is scheduled; the other critical sections are single steps. *)
Definition lockHeld (p : ProcessingPc) : bool := match p with ScheduleReset _ _ | ScheduleSwap _ _ => true | _ => false end.

(** A task that was made but never scheduled is in no event. *)
Definition eventTask (ev : Event) : option Z :=
  match ev with
  | EvScheduled t | EvUnscheduled t | EvRan t _ _ | EvDeferred t _ | EvFinished t => Some t
  | _ => None
  end.

(** The steps of [tryRunScheduledPreemptionTask]. The result of the task is any. *)
Inductive runStep (allowReschedule : bool) (currentStratum : Z) :
  RunPc -> PreemptionTaskManager -> Z -> list Event -> RunPc -> PreemptionTaskManager -> Z -> Prop :=
| run_load_none pm pm' q : runLoad typecheckingThread pm = Some (None, pm') -> runStep allowReschedule currentStratum RunLoad pm q [] RunDone pm' q
| run_load_some task pm pm' q : runLoad typecheckingThread pm = Some (Some task, pm') ->
    runStep allowReschedule currentStratum RunLoad pm q [] (RunCheck task) pm' q
| run_check task pm q : runStep allowReschedule currentStratum (RunCheck task) pm q []
    (if runTooEarly allowReschedule currentStratum pm then RunDone else RunTake task) pm q
| run_take task pm slot expected q q' : compareExchange (preemptTask pm) (Some task) None = (true, slot, expected) -> q' <> q ->
    runStep allowReschedule currentStratum (RunTake task) pm q [] (RunTask task q) (set_preemptTask slot pm) q'
| run_miss task pm slot expected q : compareExchange (preemptTask pm) (Some task) None = (false, slot, expected) ->
    runStep allowReschedule currentStratum (RunTake task) pm q [] RunDone (set_preemptTask slot pm) q
| run_task task queue result pm q : runStep allowReschedule currentStratum (RunTask task queue) pm q [EvRan task currentStratum (negb allowReschedule)]
    (match rescheduled result with
     | Some stratum => if allowReschedule then RunDefer task queue stratum else RunFinish task queue
     | None => RunFinish task queue
     end) pm q
| run_defer task queue stratum pm q : runStep allowReschedule currentStratum (RunDefer task queue stratum) pm q [EvDeferred task stratum]
    (RunReload task queue) (set_runnableAt stratum pm) q
| run_reload task queue pm q : runStep allowReschedule currentStratum (RunReload task queue) pm q [] (RunRequeue task queue (preemptTask pm)) pm q
| run_requeue task queue existing success slot expected pm q : compareExchange (preemptTask pm) existing (Some task) = (success, slot, expected) ->
    runStep allowReschedule currentStratum (RunRequeue task queue existing) pm q [] RunDone (set_preemptTask slot pm) queue
| run_finish task queue pm q : runStep allowReschedule currentStratum (RunFinish task queue) pm q [EvFinished task] RunDone pm queue.

(** The steps of the typechecking thread *)
Inductive typecheckingStep : Server -> Server -> Prop :=
| tc_start em em' pm q epoch log : startCommitEpoch typecheckingThread epoch em = Some em' ->
    typecheckingStep (mkServer em pm q Waiting (Starting epoch) log) (mkServer em' pm q (Checking epoch) Idle (log ++ [EvStarted epoch]))
| tc_preempt em pm q epoch stratum proc log :
    typecheckingStep (mkServer em pm q (Checking epoch) proc log) (mkServer em pm q (Preempting epoch stratum RunLoad) proc log)
| tc_run em pm q epoch stratum run proc log evs run' pm' q' : runStep true stratum run pm q evs run' pm' q' ->
    typecheckingStep (mkServer em pm q (Preempting epoch stratum run) proc log) (mkServer em pm' q' (Preempting epoch stratum run') proc (log ++ evs))
| tc_return em pm q epoch stratum proc log :
    typecheckingStep (mkServer em pm q (Preempting epoch stratum RunDone) proc log) (mkServer em pm q (Checking epoch) proc log)
| tc_commit em em' committed pm q epoch stratum proc log : lockHeld proc = false -> commitEpoch em = (committed, em') ->
    typecheckingStep (mkServer em pm q (Checking epoch) proc log)
      (mkServer em' pm q (Ending epoch stratum RunLoad) proc (log ++ [if (committed : bool) then EvCommitted epoch else EvAborted epoch]))
| tc_run_last em pm q epoch stratum run proc log evs run' pm' q' : runStep false stratum run pm q evs run' pm' q' ->
    typecheckingStep (mkServer em pm q (Ending epoch stratum run) proc log) (mkServer em pm' q' (Ending epoch stratum run') proc (log ++ evs))
| tc_end em pm q epoch stratum proc log :
    typecheckingStep (mkServer em pm q (Ending epoch stratum RunDone) proc log) (mkServer em pm q Waiting proc log).

(** The steps of the processing thread. It posts slow paths with new epochs, and schedules new tasks. *)
Inductive processingStep : Server -> Server -> Prop :=
| pr_post em pm q tc epoch log : epoch <> currentlyProcessingLSPEpoch em -> epoch <> lastCommittedLSPEpoch em ->
    processingStep (mkServer em pm q tc Idle log) (mkServer em pm q tc (Starting epoch) log)
| pr_cancel em em' pm q tc newEpoch b log : tryCancelSlowPath processingThread newEpoch em = Some (b, em') ->
    processingStep (mkServer em pm q tc Idle log) (mkServer em' pm q tc Idle (log ++ if (b : bool) then [EvCanceled newEpoch] else []))
| pr_schedule em pm pm' q tc task existing goesOn log : scheduleLoad processingThread em pm = Some (goesOn, existing, pm') ->
    Forall (fun ev => eventTask ev <> Some task) log ->
    processingStep (mkServer em pm q tc Idle log) (mkServer em pm' q tc (if (goesOn : bool) then ScheduleReset task existing else Idle) log)
| pr_reset em pm q tc task existing log :
    processingStep (mkServer em pm q tc (ScheduleReset task existing) log) (mkServer em (set_runnableAt 0 pm) q tc (ScheduleSwap task existing) log)
| pr_swap em pm pm' q tc task existing success log : scheduleSwap task existing pm = (success, pm') ->
    processingStep (mkServer em pm q tc (ScheduleSwap task existing) log)
      (mkServer em pm' q tc (if (success : bool) then Scheduled task else Idle) (log ++ if (success : bool) then [EvScheduled task] else []))
| pr_unschedule em pm pm' q tc task success log : tryCancelScheduledPreemptionTask processingThread (Some task) pm = Some (success, pm') ->
    processingStep (mkServer em pm q tc (Scheduled task) log)
      (mkServer em pm' q tc (if (success : bool) then Idle else Blocked task) (log ++ if (success : bool) then [EvUnscheduled task] else []))
| pr_wake em pm q tc task log : EvFinished task ∈ log ->
    processingStep (mkServer em pm q tc (Blocked task) log) (mkServer em pm q tc Idle log).

Definition serverStep (s s' : Server) : Prop := typecheckingStep s s' \/ processingStep s s'.

Definition server0 : Server :=
  mkServer (mkEpochManager 0 0 0 None None) (mkPreemption None 0 None None) 0 Waiting Idle [].
