(* ===== verification/LspEpochsProps.v ===== *)
(** * Theorems on epochs and preemption

    The threads of [LspEpochs] follow two protocols, written here as automata over the events of a run: one for slow
    paths, one for each task that is scheduled. The invariant says in which state of both automata a state of the server
    is. *)

From S2P Require Import Prelude LspEpochs.

#[local] Open Scope Z_scope.

(** ** The protocols *)

(** The last committed epoch, and the slow path that runs, with a mark whether it was canceled *)
Record SlowPaths := mkSlowPaths { sp_committed : Z; sp_running : option (Z * bool) }.

Definition slowPathStep (st : SlowPaths) (ev : Event) : option SlowPaths :=
  match ev, sp_running st with
  | EvStarted e, None => if e =? sp_committed st then None else Some (mkSlowPaths (sp_committed st) (Some (e, false)))
  | EvCanceled n, Some (e, _) => if n =? e then None else Some (mkSlowPaths (sp_committed st) (Some (e, true)))
  | EvCommitted e', Some (e, false) => if e' =? e then Some (mkSlowPaths e None) else None
  | EvAborted e', Some (e, true) => if e' =? e then Some (mkSlowPaths (sp_committed st) None) else None
  | (EvStarted _ | EvCanceled _ | EvCommitted _ | EvAborted _), _ => None
  | _, _ => Some st
  end.

Definition slowPaths (log : list Event) : option SlowPaths := foldM slowPathStep (mkSlowPaths 0 None) log.

(** What [getStatus] is expected to say *)
Definition expectedStatus (st : SlowPaths) : TypecheckingStatus :=
  match sp_running st with
  | Some (e, canceled) => mkStatus true canceled e
  | None => mkStatus false false (sp_committed st)
  end.

(** A task waits for a stratum, has just run, has finished, or was taken back. *)
Inductive TaskState := TaskNew | TaskQueued (stratum : Z) | TaskRan | TaskFinished | TaskUnscheduled.

Definition taskStep (t : Z) (st : TaskState) (ev : Event) : option TaskState :=
  if bool_decide (eventTask ev = Some t) then
    match st, ev with
    | TaskNew, EvScheduled _ => Some (TaskQueued 0)
    | TaskQueued _, EvUnscheduled _ => Some TaskUnscheduled
    | TaskQueued s, EvRan _ stratum last => if last || (s <=? stratum) then Some TaskRan else None
    | TaskRan, EvDeferred _ stratum => Some (TaskQueued stratum)
    | TaskRan, EvFinished _ => Some TaskFinished
    | _, _ => None
    end
  else Some st.

Definition taskHistory (t : Z) (log : list Event) : option TaskState := foldM (taskStep t) TaskNew log.

Definition settled (st : TaskState) : Prop := st = TaskNew \/ st = TaskFinished \/ st = TaskUnscheduled.

(** ** Lemmas on histories *)

Lemma slowPaths_app log evs st : slowPaths log = Some st -> slowPaths (log ++ evs) = foldM slowPathStep st evs.
Proof. intros H. unfold slowPaths in *. rewrite foldM_app, H. done. Qed.

Lemma taskHistory_app t log evs st : taskHistory t log = Some st -> taskHistory t (log ++ evs) = foldM (taskStep t) st evs.
Proof. intros H. unfold taskHistory in *. rewrite foldM_app, H. done. Qed.

Lemma taskHistory_other t log evs st : Forall (fun ev => eventTask ev <> Some t) evs -> taskHistory t log = Some st -> taskHistory t (log ++ evs) = Some st.
Proof.
  intros He H. rewrite (taskHistory_app t log evs st H). clear H. induction He as [|ev evs Hev He IH] in st |- *; [done|].
  cbn. unfold taskStep. rewrite bool_decide_eq_false_2 by done. apply IH.
Qed.

Lemma taskHistory_new t log : Forall (fun ev => eventTask ev <> Some t) log -> taskHistory t log = Some TaskNew.
Proof. intros H. apply (taskHistory_other t [] log TaskNew); done. Qed.

Lemma taskHistory_finished t log st : taskHistory t log = Some st -> EvFinished t ∈ log <-> st = TaskFinished.
Proof.
  revert st. induction log as [|ev log IH] using rev_ind; intros st H.
  { unfold taskHistory in H. cbn in H. simplify_eq. split; [by intros ?%elem_of_nil|done]. }
  unfold taskHistory in H. rewrite foldM_app in H. destruct (foldM (taskStep t) TaskNew log) as [st0|] eqn:E; [|done].
  specialize (IH st0 E). cbn in H. unfold taskStep in H. rewrite elem_of_app, list_elem_of_singleton, IH.
  destruct (bool_decide_reflect (eventTask ev = Some t)) as [Ht|Ht]; cbn in H.
  - destruct st0, ev; simplify_eq/=; try (split; [by intros [?|?]|done]); try (split; [done|by right]); repeat case_match; simplify_eq/=; by split; [intros [?|?]|].
  - simplify_eq. split; [intros [?| <-]; [done|by destruct Ht]|by left].
Qed.

Lemma taskHistory_scheduled t log st : taskHistory t log = Some st -> EvScheduled t ∈ log <-> st <> TaskNew.
Proof.
  revert st. induction log as [|ev log IH] using rev_ind; intros st H.
  { unfold taskHistory in H. cbn in H. simplify_eq. split; [by intros ?%elem_of_nil|done]. }
  unfold taskHistory in H. rewrite foldM_app in H. destruct (foldM (taskStep t) TaskNew log) as [st0|] eqn:E; [|done].
  specialize (IH st0 E). cbn in H. unfold taskStep in H. rewrite elem_of_app, list_elem_of_singleton, IH.
  destruct (bool_decide_reflect (eventTask ev = Some t)) as [Ht|Ht]; cbn in H.
  - destruct st0, ev; simplify_eq/=; try (split; [done|by intros _; (left; done) || (right; done)]); repeat case_match; simplify_eq/=; split; [done|by left].
  - simplify_eq. split; [intros [?| <-]; [done|by destruct Ht]|by left].
Qed.

(** ** The invariant *)

(** The slow path in [typecheck], if any *)
Definition running (tc : TypecheckingPc) : option Z := match tc with Checking e | Preempting e _ _ => Some e | _ => None end.

Definition runOf (tc : TypecheckingPc) : option (Z * RunPc) := match tc with Preempting _ s r | Ending _ s r => Some (s, r) | _ => None end.

(** The task that runs, and the error queue of the slow path *)
Definition held (r : option (Z * RunPc)) : option (Z * Z) :=
  match r with
  | Some (_, (RunTask t q | RunDefer t q _ | RunReload t q | RunRequeue t q _ | RunFinish t q)) => Some (t, q)
  | _ => None
  end.

(** The task that the processing thread waits for *)
Definition pending (proc : ProcessingPc) : option Z := match proc with Scheduled t | Blocked t => Some t | _ => None end.

(** The state of that task *)
Definition pendingState (pm : PreemptionTaskManager) (r : option (Z * RunPc)) (t : Z) : TaskState :=
  match r with
  | Some (_, (RunTask _ _ | RunReload _ _ | RunRequeue _ _ _)) => TaskQueued (runnableAt pm)
  | Some (_, (RunDefer _ _ _ | RunFinish _ _)) => TaskRan
  | _ => if bool_decide (preemptTask pm = Some t) then TaskQueued (runnableAt pm) else TaskFinished
  end.

Definition threadIs (t : Z) (o : option Z) : Prop := o = None \/ o = Some t.

(** What a run of tasks relies on; [active] says that it may reschedule them. *)
Definition RunOk (active : bool) (pm : PreemptionTaskManager) (r : option (Z * RunPc)) : Prop :=
  match r with
  | None => active = false -> preemptTask pm = None
  | Some (stratum, run) =>
      match run with
      | RunLoad | RunFinish _ _ => True
      | RunCheck t => active = false -> preemptTask pm = Some t \/ preemptTask pm = None
      | RunTake t => (active = false -> preemptTask pm = Some t \/ preemptTask pm = None) /\
          (active = true -> preemptTask pm = Some t -> runnableAt pm <= stratum)
      | RunTask _ _ => active = true -> runnableAt pm <= stratum
      | RunDefer _ _ _ | RunReload _ _ => active = true
      | RunRequeue _ _ existing => active = true /\ existing = None
      | RunDone => active = false -> preemptTask pm = None
      end
  end.

Record TaskInv (active : bool) (pm : PreemptionTaskManager) (q : Z) (r : option (Z * RunPc)) (proc : ProcessingPc) (log : list Event) : Prop := {
  ti_slot : match pending proc with
            | Some t => (preemptTask pm = None \/ preemptTask pm = Some t /\ held r = None) /\ (forall t' q', held r = Some (t', q') -> t' = t)
            | None => preemptTask pm = None /\ held r = None
            end;
  ti_pending t : pending proc = Some t -> taskHistory t log = Some (pendingState pm r t);
  ti_others t : pending proc <> Some t -> exists st, taskHistory t log = Some st /\ settled st;
  ti_schedule t existing : proc = ScheduleReset t existing \/ proc = ScheduleSwap t existing ->
    existing = None /\ taskHistory t log = Some TaskNew;
  ti_swap t existing : proc = ScheduleSwap t existing -> runnableAt pm = 0;
  ti_lock : lockHeld proc = true -> active = true;
  ti_loaded stratum t : r = Some (stratum, RunCheck t) \/ r = Some (stratum, RunTake t) -> EvScheduled t ∈ log;
  ti_queue : match held r with Some (_, q') => q' = 0 | None => q = 0 end;
  ti_run : RunOk active pm r;
  ti_threads : threadIs typecheckingThread (pm_typecheckingThreadId pm) /\ threadIs processingThread (pm_processingThreadId pm) }.

Lemma thread_ok t o : threadIs t o -> assertConsistentThread o t = Some (Some t).
Proof. intros [->| ->]; cbn; [done|]. by rewrite Z.eqb_refl. Qed.

Lemma compareExchange_true slot expected desired slot' expected' :
  compareExchange slot expected desired = (true, slot', expected') -> slot = expected /\ slot' = desired.
Proof. unfold compareExchange. case_bool_decide; intros; by simplify_eq. Qed.

Lemma compareExchange_false slot expected desired slot' expected' :
  compareExchange slot expected desired = (false, slot', expected') -> slot <> expected /\ slot' = slot.
Proof. unfold compareExchange. case_bool_decide; intros; by simplify_eq. Qed.

Lemma compareExchange_same slot desired : compareExchange slot slot desired = (true, desired, slot).
Proof. unfold compareExchange. by rewrite bool_decide_eq_true_2. Qed.

(** ** Steps of a run of tasks *)

Lemma pending_event active pm q r proc log t q' : TaskInv active pm q r proc log -> held r = Some (t, q') -> pending proc = Some t /\ preemptTask pm = None.
Proof.
  intros [Hslot _ _ _ _ _ _ _ _ _] Hh. destruct (pending proc) as [t'|]; [|rewrite Hh in Hslot; by destruct Hslot].
  destruct Hslot as [Hs Heq]. pose proof (Heq _ _ Hh) as ->. split; [done|]. destruct Hs as [?|[_ Hn]]; [done|by rewrite Hh in Hn].
Qed.

(** The events of a run are about the task that the processing thread waits for. *)
Lemma runStep_events active stratum run pm q evs run' pm' q' proc log t : runStep active stratum run pm q evs run' pm' q' ->
  TaskInv active pm q (Some (stratum, run)) proc log -> pending proc <> Some t -> Forall (fun ev => eventTask ev <> Some t) evs.
Proof.
  intros Hs Hi Hp. destruct Hs; try constructor; try constructor; cbn; intros [= ->];
    (destruct (pending_event _ _ _ _ _ _ t queue Hi) as [Hp' _]; [done|]; congruence).
Qed.

Lemma runStep_slowPaths active stratum run pm q evs run' pm' q' st : runStep active stratum run pm q evs run' pm' q' ->
  foldM slowPathStep st evs = Some st.
Proof. by destruct 1. Qed.

Lemma taskStep_hit t st ev : eventTask ev = Some t -> taskStep t st ev =
  match st, ev with
  | TaskNew, EvScheduled _ => Some (TaskQueued 0)
  | TaskQueued _, EvUnscheduled _ => Some TaskUnscheduled
  | TaskQueued s, EvRan _ stratum last => if last || (s <=? stratum) then Some TaskRan else None
  | TaskRan, EvDeferred _ stratum => Some (TaskQueued stratum)
  | TaskRan, EvFinished _ => Some TaskFinished
  | _, _ => None
  end.
Proof. intros H. unfold taskStep. by rewrite bool_decide_eq_true_2. Qed.

(** The history of the pending task follows the run. *)
Lemma runStep_pending active stratum run pm q evs run' pm' q' proc log t : runStep active stratum run pm q evs run' pm' q' ->
  TaskInv active pm q (Some (stratum, run)) proc log -> pending proc = Some t ->
  taskHistory t (log ++ evs) = Some (pendingState pm' (Some (stratum, run')) t).
Proof.
  intros Hs Hi Hp. pose proof (ti_pending _ _ _ _ _ _ Hi t Hp) as Hh. rewrite (taskHistory_app t log evs _ Hh). clear Hh.
  pose proof (ti_slot _ _ _ _ _ _ Hi) as Hslot. rewrite Hp in Hslot. destruct Hslot as [Hslot Hheld].
  pose proof (ti_run _ _ _ _ _ _ Hi) as Hrun.
  assert (Hpe : forall t' q'', held (Some (stratum, run)) = Some (t', q'') -> t' = t /\ preemptTask pm = None).
  { intros t' q'' E. destruct (pending_event _ _ _ _ _ _ _ _ Hi E). split; [congruence|done]. }
  destruct Hs; cbn [foldM held pendingState] in *.
  - unfold runLoad in H. destruct (assertConsistentThread _ _); [|done]. cbn in H. by simplify_eq/=.
  - unfold runLoad in H. destruct (assertConsistentThread _ _); [|done]. cbn in H. by simplify_eq/=.
  - by destruct (runTooEarly _ _ _).
  - apply compareExchange_true in H as [E ->]. cbn. destruct Hslot as [?|[Hs _]]; [congruence|]. rewrite bool_decide_eq_true_2 by done. done.
  - apply compareExchange_false in H as [_ ->]. done.
  - destruct (Hpe _ _ eq_refl) as [-> Hn]. cbn in Hrun. rewrite taskStep_hit by done.
    assert (negb active || (runnableAt pm <=? stratum) = true) as -> by (destruct active; [apply Z.leb_le; by apply Hrun|done]).
    cbn. by destruct (rescheduled result), active.
  - destruct (Hpe _ _ eq_refl) as [-> Hn]. rewrite taskStep_hit by done. done.
  - done.
  - destruct (Hpe _ _ eq_refl) as [-> Hn]. destruct Hrun as [_ ->]. rewrite Hn, compareExchange_same in H. simplify_eq/=.
    by rewrite bool_decide_eq_true_2.
  - destruct (Hpe _ _ eq_refl) as [-> Hn]. rewrite taskStep_hit by done. cbn. by rewrite Hn, bool_decide_eq_false_2.
Qed.

Lemma runStep_runOk active stratum run pm q evs run' pm' q' proc log : runStep active stratum run pm q evs run' pm' q' ->
  TaskInv active pm q (Some (stratum, run)) proc log -> RunOk active pm' (Some (stratum, run')).
Proof.
  intros Hs Hi. pose proof (ti_run _ _ _ _ _ _ Hi) as Hrun.
  assert (Hpe : forall t' q'', held (Some (stratum, run)) = Some (t', q'') -> preemptTask pm = None)
    by (intros t' q'' E; by apply (pending_event _ _ _ _ _ _ _ _ Hi E)).
  destruct Hs; cbn in *.
  - unfold runLoad in H. destruct (assertConsistentThread _ _); cbn in H; by simplify_eq/=.
  - unfold runLoad in H. destruct (assertConsistentThread _ _); cbn in H; simplify_eq/=. intros _. by left.
  - destruct (runTooEarly active stratum pm) eqn:E; unfold runTooEarly in E; [intros ->; done|]. split; [done|]. intros -> _. cbn in E. lia.
  - apply compareExchange_true in H as [E ->]. intros ->. cbn. by apply Hrun.
  - apply compareExchange_false in H as [E ->]. intros ->. cbn. destruct (proj1 Hrun eq_refl); done.
  - destruct (rescheduled result), active; done.
  - done.
  - split; [done|]. by eapply Hpe.
  - intros ->. by destruct Hrun.
  - intros _. by eapply Hpe.
Qed.

Lemma runStep_loaded active stratum run pm q evs run' pm' q' proc log stratum' t : runStep active stratum run pm q evs run' pm' q' ->
  TaskInv active pm q (Some (stratum, run)) proc log -> Some (stratum, run') = Some (stratum', RunCheck t) \/ Some (stratum, run') = Some (stratum', RunTake t) ->
  EvScheduled t ∈ log.
Proof.
  intros Hs [Hslot Hpend _ _ _ _ Hld _ _ _] E. destruct Hs; cbn in *; try (destruct E; simplify_eq; done).
  - unfold runLoad in H. destruct (assertConsistentThread _ _); cbn in H; simplify_eq/=. destruct E; simplify_eq.
    destruct (pending proc) as [t'|] eqn:Hp; [|by rewrite (proj1 Hslot) in *]. destruct Hslot as [[Hs|[Hs _]] _]; [congruence|].
    assert (t' = t) as -> by congruence. rewrite (taskHistory_scheduled t log _ (Hpend t eq_refl)). unfold pendingState. by rewrite bool_decide_eq_true_2.
  - destruct (runTooEarly _ _ _); destruct E; simplify_eq. eapply Hld. by left.
  - destruct (rescheduled result), active; destruct E; simplify_eq.
Qed.

(** The invariant after a step of a run *)
Lemma runStep_inv active stratum run pm q evs run' pm' q' proc log : runStep active stratum run pm q evs run' pm' q' ->
  TaskInv active pm q (Some (stratum, run)) proc log -> TaskInv active pm' q' (Some (stratum, run')) proc (log ++ evs).
Proof.
  intros Hs Hi. pose proof Hi as [Hslot Hpend Hoth Hsch Hswap Hlock Hld Hq Hrun Hth].
  assert (Hpe : forall t' q'', held (Some (stratum, run)) = Some (t', q'') -> pending proc = Some t' /\ preemptTask pm = None)
    by (intros t' q'' E; by apply (pending_event _ _ _ _ _ _ _ _ Hi E)).
  assert (Hidle : pending proc = None -> preemptTask pm' = None /\ held (Some (stratum, run')) = None /\ runnableAt pm' = runnableAt pm).
  { intros Hp. rewrite Hp in Hslot. destruct Hslot as [Hs0 Hn].
    destruct Hs; cbn in Hn; try done; try (unfold runLoad in H; destruct (assertConsistentThread _ _); cbn in H; by simplify_eq/=).
    - by destruct (runTooEarly _ _ _).
    - apply compareExchange_true in H as [E _]. congruence.
    - by apply compareExchange_false in H as [_ ->]. }
  split.
  - destruct (pending proc) as [t|] eqn:Hp; [|by destruct Hidle as (? & ? & _)]. destruct Hslot as [Hs0 Hn].
    destruct Hs; cbn in *; try (unfold runLoad in H; destruct (assertConsistentThread _ _); cbn in H; by simplify_eq/=).
    + by destruct (runTooEarly _ _ _).
    + apply compareExchange_true in H as [E ->]. split; [by left|]. intros ?? [= <- <-]. destruct Hs0 as [?|[? _]]; congruence.
    + by apply compareExchange_false in H as [_ ->].
    + split; [left; by eapply Hpe|]. destruct (rescheduled result), active; cbn; by intros ?? [= <- <-]; eapply Hn.
    + split; [left; by eapply Hpe|]. by intros ?? [= <- <-]; eapply Hn.
    + split; [left; by eapply Hpe|]. by intros ?? [= <- <-]; eapply Hn.
    + destruct (Hpe _ _ eq_refl) as [[= ->] HN]. destruct Hrun as [_ ->]. rewrite HN, compareExchange_same in H. simplify_eq/=.
      split; [by right|done].
    + split; [left; by eapply Hpe|done].
  - intros t Hp. by eapply runStep_pending.
  - intros t Hp. destruct (Hoth t Hp) as (st & Hst & Hset). exists st. split; [|done].
    apply taskHistory_other; [|done]. by eapply runStep_events.
  - intros t existing Hp. assert (pending proc = None) by (by destruct Hp as [->| ->]). destruct (Hsch t existing Hp) as [-> Hnew]. split; [done|].
    apply taskHistory_other; [|done]. eapply runStep_events; [done|done|congruence].
  - intros t existing ->. destruct Hidle as (_ & _ & ->); [done|]. by eapply Hswap.
  - done.
  - intros stratum' t E. apply elem_of_app. left. by eapply runStep_loaded.
  - destruct Hs; cbn in *; simplify_eq/=; try done; [by destruct (runTooEarly _ _ _)|by destruct (rescheduled result), active].
  - by eapply runStep_runOk.
  - destruct Hs; cbn; try done; unfold runLoad in H; rewrite thread_ok in H by apply Hth; cbn in H; simplify_eq/=; by split; [right|apply Hth].
Qed.

(** ** The invariant of the server *)

Definition slowPathsOf (em : TypecheckEpochManager) (tc : TypecheckingPc) : SlowPaths :=
  mkSlowPaths (lastCommittedLSPEpoch em)
    (match running tc with Some e => Some (e, negb (currentlyProcessingLSPEpoch em =? lspEpochInvalidator em)) | None => None end).

Record ServerInv (s : Server) : Prop := {
  si_history : slowPaths (sv_log s) = Some (slowPathsOf (sv_epochs s) (sv_typechecking s));
  si_running : match running (sv_typechecking s) with
               | Some e => currentlyProcessingLSPEpoch (sv_epochs s) = e /\ e <> lastCommittedLSPEpoch (sv_epochs s)
               | None => currentlyProcessingLSPEpoch (sv_epochs s) = lastCommittedLSPEpoch (sv_epochs s) /\
                         lspEpochInvalidator (sv_epochs s) = lastCommittedLSPEpoch (sv_epochs s)
               end;
  si_starting e : sv_processing s = Starting e ->
    e <> currentlyProcessingLSPEpoch (sv_epochs s) /\ e <> lastCommittedLSPEpoch (sv_epochs s);
  si_threads : threadIs typecheckingThread (em_typecheckingThreadId (sv_epochs s)) /\
               threadIs processingThread (em_messageProcessingThreadId (sv_epochs s));
  si_tasks : TaskInv (bool_decide (is_Some (running (sv_typechecking s)))) (sv_preemption s) (sv_errorQueue s)
               (runOf (sv_typechecking s)) (sv_processing s) (sv_log s) }.

Lemma server0_inv : ServerInv server0.
Proof.
  split; cbn; try done; [by split; left|]. split; cbn; try done; [by exists TaskNew; split; [|left]|by intros ?? [?|?]|by intros ?? [?|?]|by split; left].
Qed.

(** Events about epochs do not matter for tasks. *)
Lemma taskInv_log active pm q r proc log evs : Forall (fun ev => eventTask ev = None) evs ->
  TaskInv active pm q r proc log -> TaskInv active pm q r proc (log ++ evs).
Proof.
  intros He [Hslot Hpend Hoth Hsch Hswap Hlock Hld Hq Hrun Hth].
  assert (Ho : forall t, Forall (fun ev => eventTask ev <> Some t) evs) by (intros t; eapply Forall_impl; [done|]; cbn; congruence).
  split; try done.
  - intros t Hp. by apply taskHistory_other, Hpend.
  - intros t Hp. destruct (Hoth t Hp) as (st & Hst & ?). exists st. split; [|done]. by apply taskHistory_other.
  - intros t existing Hp. destruct (Hsch t existing Hp). split; [done|]. by apply taskHistory_other.
  - intros stratum t E. apply elem_of_app. left. by eapply Hld.
Qed.

(** The typechecking thread begins or ends something in which no task is held. *)
Lemma taskInv_run active active' pm q r r' proc log : TaskInv active pm q r proc log -> held r = None -> match r' with None | Some (_, (RunLoad | RunDone)) => True | _ => False end ->
  RunOk active' pm r' -> (lockHeld proc = true -> active' = true) -> TaskInv active' pm q r' proc log.
Proof.
  intros [Hslot Hpend Hoth Hsch Hswap Hlock Hld Hq Hrun Hth] Hn Hn' Hok Hl. rewrite Hn in *. assert (held r' = None) as Hh by (by destruct r' as [[? []]|]).
  split; rewrite ?Hh; try done.
  - intros t Hp. rewrite (Hpend t Hp). f_equal. destruct r as [[? []]|], r' as [[? []]|]; cbn in *; done.
  - by intros stratum t [->| ->].
Qed.

(** The processing thread changes to a state that waits for the same task. *)
Lemma taskInv_proc active pm q r proc proc' log : TaskInv active pm q r proc log ->
  pending proc' = pending proc -> lockHeld proc' = false -> TaskInv active pm q r proc' log.
Proof.
  intros [Hslot Hpend Hoth Hsch Hswap Hlock Hld Hq Hrun Hth] Hp Hl. split; rewrite ?Hp; try done.
  - by intros t existing [->| ->].
  - by intros t existing ->.
  - by rewrite Hl.
Qed.

Lemma typechecking_inv s s' : typecheckingStep s s' -> ServerInv s -> ServerInv s'.
Proof.
  intros Hs [Hh Hr Hst Hth Ht]. destruct Hs; cbn in *.
  - unfold startCommitEpoch in H. rewrite thread_ok in H by apply Hth. cbn in H. simplify_eq/=. destruct (Hst epoch eq_refl) as [Hne1 Hne2]. split; cbn.
    + rewrite (slowPaths_app _ _ _ Hh). cbn. unfold slowPathsOf; cbn. rewrite Z.eqb_refl. by destruct (Z.eqb_spec epoch (lastCommittedLSPEpoch em)).
    + done.
    + done.
    + split; [by right|apply Hth].
    + apply taskInv_log; [by repeat constructor|]. eapply (taskInv_proc _ _ _ _ (Starting epoch)); [|done|done]. by eapply (taskInv_run false).
  - split; cbn; try done. by eapply (taskInv_run true).
  - split; cbn; try done; [|by eapply runStep_inv]. rewrite (slowPaths_app _ _ _ Hh). by eapply runStep_slowPaths.
  - split; cbn; try done. by eapply (taskInv_run true).
  - destruct Hr as [<- Hne]. unfold commitEpoch in H0.
    assert (Hc : slowPaths (log ++ [if committed then EvCommitted (currentlyProcessingLSPEpoch em) else EvAborted (currentlyProcessingLSPEpoch em)]) =
        Some (slowPathsOf em' Waiting) /\ currentlyProcessingLSPEpoch em' = lastCommittedLSPEpoch em' /\
        lspEpochInvalidator em' = lastCommittedLSPEpoch em' /\
        (lastCommittedLSPEpoch em' = lastCommittedLSPEpoch em \/ lastCommittedLSPEpoch em' = currentlyProcessingLSPEpoch em) /\
        em_typecheckingThreadId em' = em_typecheckingThreadId em /\ em_messageProcessingThreadId em' = em_messageProcessingThreadId em).
    { rewrite (slowPaths_app _ _ _ Hh). unfold slowPathsOf; cbn.
      destruct (Z.eqb_spec (currentlyProcessingLSPEpoch em) (lspEpochInvalidator em)); simplify_eq/=; rewrite Z.eqb_refl; cbn; split_and!; auto. }
    destruct Hc as (Hc & Hp & Hi & Hl & E1 & E2). split; cbn; try done.
    + intros e ->. destruct (Hst e eq_refl). destruct Hl; split; congruence.
    + by rewrite E1, E2.
    + apply taskInv_log; [by repeat constructor; destruct committed|]. by eapply (taskInv_run true); try done; rewrite H.
  - split; cbn; try done; [|by eapply runStep_inv]. rewrite (slowPaths_app _ _ _ Hh). by eapply runStep_slowPaths.
  - split; cbn; try done. eapply (taskInv_run false); try done; [by apply (ti_run _ _ _ _ _ _ Ht)|by apply (ti_lock _ _ _ _ _ _ Ht)].
Qed.

(** Scheduling puts the task in the slot, which is empty. *)
Lemma taskInv_swap active pm q r t existing log : TaskInv active pm q r (ScheduleSwap t existing) log -> existing = None /\ preemptTask pm = None /\
  TaskInv active (set_preemptTask (Some t) pm) q r (Scheduled t) (log ++ [EvScheduled t]).
Proof.
  intros [Hslot Hpend Hoth Hsch Hswap Hlock Hld Hq Hrun Hth]. cbn in *. destruct Hslot as [Hn Hh].
  destruct (Hsch t existing) as [-> Hnew]; [by right|]. pose proof (Hswap _ _ eq_refl) as H0. pose proof (Hlock eq_refl) as ->.
  split; [done|]. split; [done|]. split; cbn; try done.
  - split; [by right|]. intros ??. by rewrite Hh.
  - intros ? [= <-]. rewrite (taskHistory_app _ _ _ _ Hnew). cbn. rewrite taskStep_hit by done. cbn. unfold pendingState; cbn.
    destruct r as [[? []]|]; cbn in *; try done; by rewrite bool_decide_eq_true_2, H0.
  - intros t' Ht'. destruct (Hoth t') as (st & Hst & ?); [done|]. exists st. split; [|done]. apply taskHistory_other; [|done]. repeat constructor. cbn. congruence.
  - by intros ?? [?|?].
  - intros stratum t' E. apply elem_of_app. left. by eapply Hld.
  - destruct r as [[? []]|]; cbn in *; try done. split; [done|]. intros _ [= <-].
    assert (Hin : EvScheduled t ∈ log) by (eapply Hld; by right). by apply (taskHistory_scheduled t log _ Hnew) in Hin.
Qed.

(** Taking back a task: it is in the slot, or it was taken from there. *)
Lemma taskInv_unschedule active pm q r t thread log : threadIs processingThread thread ->
  TaskInv active pm q r (Scheduled t) log -> preemptTask pm = Some t ->
  TaskInv active (mkPreemption None (runnableAt pm) (pm_typecheckingThreadId pm) thread) q r Idle (log ++ [EvUnscheduled t]).
Proof.
  intros Ht [Hslot Hpend Hoth Hsch Hswap Hlock Hld Hq Hrun Hth] Hs. cbn in *. destruct Hslot as [[?|[_ Hh]] _]; [congruence|].
  pose proof (Hpend t eq_refl) as Hhist.
  assert (Hqd : pendingState pm r t = TaskQueued (runnableAt pm)) by (unfold pendingState; destruct r as [[? []]|]; cbn in *; try done; by rewrite bool_decide_eq_true_2).
  rewrite Hqd in Hhist. split; cbn; try done.
  - intros t' _. destruct (decide (t' = t)) as [->|Hne].
    { exists TaskUnscheduled. split; [|by right; right]. rewrite (taskHistory_app _ _ _ _ Hhist). cbn. by rewrite taskStep_hit. }
    destruct (Hoth t') as (st & Hst & ?); [congruence|]. exists st. split; [|done]. apply taskHistory_other; [|done]. repeat constructor. cbn. congruence.
  - by intros ?? [?|?].
  - intros stratum t' E. apply elem_of_app. left. by eapply Hld.
  - destruct r as [[? []]|]; cbn in *; try done; [by intros _; right|by split; [right|]].
  - by split; [apply Hth|].
Qed.

(** The thread of the processing thread is noted at its first call. *)
Lemma taskInv_thread active pm q r proc log thread : threadIs processingThread thread -> TaskInv active pm q r proc log ->
  TaskInv active (mkPreemption (preemptTask pm) (runnableAt pm) (pm_typecheckingThreadId pm) thread) q r proc log.
Proof. intros Ht [Hslot Hpend Hoth Hsch Hswap Hlock Hld Hq Hrun Hth]. split; try done. by split; [apply Hth|]. Qed.

Lemma taskInv_begin active pm q r t log : Forall (fun ev => eventTask ev <> Some t) log -> active = true ->
  TaskInv active pm q r Idle log -> TaskInv active pm q r (ScheduleReset t None) log.
Proof.
  intros Hf -> [Hslot Hpend Hoth Hsch Hswap Hlock Hld Hq Hrun Hth]. split; try done.
  intros ?? [[= <- <-]|?]; [|done]. split; [done|]. by apply taskHistory_new.
Qed.

Lemma taskInv_reset active pm q r t existing log : TaskInv active pm q r (ScheduleReset t existing) log ->
  TaskInv active (set_runnableAt 0 pm) q r (ScheduleSwap t existing) log.
Proof.
  intros [Hslot Hpend Hoth Hsch Hswap Hlock Hld Hq Hrun Hth]. cbn in *. split; cbn; try done.
  - intros ?? [?|[= <- <-]]; [done|]. by apply Hsch; left.
  - destruct Hslot as [Hs Hh]. destruct r as [[? []]|]; cbn in *; try done. rewrite Hs. split; [by right|done].
Qed.

(** After the task was finished, the processing thread goes on. *)
Lemma taskInv_wake active pm q r t log : EvFinished t ∈ log -> TaskInv active pm q r (Blocked t) log -> TaskInv active pm q r Idle log.
Proof.
  intros Hf [Hslot Hpend Hoth Hsch Hswap Hlock Hld Hq Hrun Hth]. cbn in *. pose proof (Hpend t eq_refl) as Hh.
  apply (taskHistory_finished t log _ Hh) in Hf. rewrite Hf in Hh. destruct Hslot as [Hs _].
  assert (Hn : preemptTask pm = None /\ held r = None).
  { unfold pendingState in Hf. destruct r as [[? []]|]; cbn in *; try done; case_bool_decide; destruct Hs as [?|[? ?]]; done. }
  split; try done; [|by intros ?? [?|?]]. intros t' _. destruct (decide (t' = t)) as [->|Hne]; [by exists TaskFinished; split; [|right; left]|]. apply Hoth. congruence.
Qed.

Lemma processing_inv s s' : processingStep s s' -> ServerInv s -> ServerInv s'.
Proof.
  intros Hs [Hh Hr Hst Hth Ht]. destruct Hs; cbn in *.
  - split; cbn; try done; [by intros e [= <-]|]. by eapply taskInv_proc.
  - unfold tryCancelSlowPath in H. rewrite thread_ok in H by apply Hth. cbn in H. injection H as <- <-.
    assert (Hev : Forall (fun ev => eventTask ev = None) (if negb ((currentlyProcessingLSPEpoch em =? lastCommittedLSPEpoch em) || (newEpoch =? currentlyProcessingLSPEpoch em)) then [EvCanceled newEpoch] else []))
      by (destruct (negb _); by repeat constructor).
    split; cbn; try done; [| |split; [apply Hth|by right]|by apply taskInv_log].
    + rewrite (slowPaths_app _ _ _ Hh). unfold slowPathsOf; cbn. destruct (running tc) as [e|].
      * destruct Hr as [<- Hne]. destruct (Z.eqb_spec (currentlyProcessingLSPEpoch em) (lastCommittedLSPEpoch em)); [done|].
        destruct (Z.eqb_spec newEpoch (currentlyProcessingLSPEpoch em)) as [->|Hn]; cbn; [done|]. rewrite (proj2 (Z.eqb_neq _ _) Hn). cbn.
        by rewrite (proj2 (Z.eqb_neq (currentlyProcessingLSPEpoch em) newEpoch)).
      * destruct Hr as [-> Hi]. by rewrite Z.eqb_refl.
    + destruct (running tc) as [e|]; [done|]. destruct Hr as [-> ->]. by rewrite Z.eqb_refl.
  - unfold scheduleLoad in H. rewrite thread_ok in H by apply (ti_threads _ _ _ _ _ _ Ht). cbn in H. injection H as <- <- <-.
    assert (Ht' := taskInv_thread _ _ _ _ _ _ (Some processingThread) ltac:(by right) Ht).
    match goal with |- context [if ?b then _ else _] => destruct b eqn:E end; [|by split]. rewrite !negb_orb, !andb_true_iff, !negb_true_iff, negb_false_iff in E. destruct E as [[E1 E2] E3].
    apply bool_decide_eq_false in E3. assert (Hn : preemptTask pm = None) by (destruct (preemptTask pm); [by destruct E3|done]). rewrite Hn in *.
    split; cbn; try done. apply taskInv_begin; [done| |done]. apply bool_decide_eq_true. destruct (running tc); [done|]. destruct Hr as [Hr _]. cbn in E1. by rewrite Hr, Z.eqb_refl in E1.
  - split; cbn; try done. by apply taskInv_reset.
  - destruct (taskInv_swap _ _ _ _ _ _ _ Ht) as (-> & Hn & Ht'). unfold scheduleSwap in H. rewrite Hn, compareExchange_same in H. injection H as <- <-.
    split; cbn; try done. rewrite (slowPaths_app _ _ _ Hh). done.
  - unfold tryCancelScheduledPreemptionTask in H. rewrite thread_ok in H by apply (ti_threads _ _ _ _ _ _ Ht). cbn in H.
    destruct (compareExchange (preemptTask pm) (Some task) None) as [[b slot] expected] eqn:E. injection H as <- <-. destruct b.
    + apply compareExchange_true in E as [E ->]. split; cbn; try done; [rewrite (slowPaths_app _ _ _ Hh); done|]. apply taskInv_unschedule; [by right|done|done].
    + apply compareExchange_false in E as [E ->]. split; cbn; try done; [by rewrite app_nil_r|]. rewrite app_nil_r.
      eapply (taskInv_proc _ _ _ _ (Scheduled task)); [|done|done]. apply taskInv_thread; [by right|done].
  - split; cbn; try done. by eapply taskInv_wake.
Qed.

Lemma reachable_inv s : rtc serverStep server0 s -> ServerInv s.
Proof.
  intros H. assert (Hc : forall s0, rtc serverStep s0 s -> ServerInv s0 -> ServerInv s).
  { clear. induction 1 as [|x y z Hs _ IH]; [done|]. intros Hi. apply IH. destruct Hs; [by eapply typechecking_inv|by eapply processing_inv]. }
  by eapply Hc, server0_inv.
Qed.

(** ** The end of a slow path *)

Definition runMeasure (run : RunPc) : nat :=
  match run with
  | RunDone => 0 | RunFinish _ _ | RunRequeue _ _ _ => 1 | RunReload _ _ => 2 | RunDefer _ _ _ => 3 | RunTask _ _ => 4
  | RunTake _ => 5 | RunCheck _ => 6 | RunLoad => 7
  end.

Definition tcMeasure (tc : TypecheckingPc) : nat :=
  match tc with Waiting => 0 | Ending _ _ run => 1 + runMeasure run | Checking _ => 10 | Preempting _ _ run => 11 + runMeasure run end.

(** A run of tasks can go on, and comes to its end. *)
Lemma run_goes_on active stratum run pm q : threadIs typecheckingThread (pm_typecheckingThreadId pm) -> run <> RunDone ->
  exists evs run' pm' q', runStep active stratum run pm q evs run' pm' q' /\ (runMeasure run' < runMeasure run)%nat.
Proof.
  intros Ht Hne. destruct run; try done.
  - destruct (preemptTask pm) as [t|] eqn:E; do 4 eexists; (split; [|]);
      [eapply run_load_some; unfold runLoad; rewrite thread_ok, E by done; done|cbn; lia|eapply run_load_none; unfold runLoad; rewrite thread_ok, E by done; done|cbn; lia].
  - do 4 eexists. split; [eapply run_check|]. destruct (runTooEarly _ _ _); cbn; lia.
  - destruct (compareExchange (preemptTask pm) (Some task) None) as [[[] slot] expected] eqn:E; do 4 eexists; (split; [|]);
      [eapply (run_take _ _ _ _ _ _ q (q + 1)); [done|lia]|cbn; lia|by eapply run_miss|cbn; lia].
  - do 4 eexists. split; [eapply (run_task _ _ _ _ (mkRunResult true None))|]. cbn. lia.
  - do 4 eexists. split; [eapply run_defer|]. cbn. lia.
  - do 4 eexists. split; [eapply run_reload|]. cbn. lia.
  - destruct (compareExchange (preemptTask pm) existingTask (Some task)) as [[b slot] expected] eqn:E. do 4 eexists. split; [by eapply run_requeue|]. cbn. lia.
  - do 4 eexists. split; [eapply run_finish|]. cbn. lia.
Qed.

Lemma typechecking_goes_on s : ServerInv s -> lockHeld (sv_processing s) = false -> sv_typechecking s <> Waiting ->
  exists s', typecheckingStep s s' /\ (tcMeasure (sv_typechecking s') < tcMeasure (sv_typechecking s))%nat /\ sv_processing s' = sv_processing s.
Proof.
  intros Hi Hl Hne. pose proof (proj1 (ti_threads _ _ _ _ _ _ (si_tasks _ Hi))) as Hth. destruct s as [em pm q tc proc log]. cbn in *.
  destruct tc as [|e|e stratum run|e stratum run]; [done| | |].
  - destruct (commitEpoch em) as [b em'] eqn:E. eexists. split; [by eapply (tc_commit _ _ _ _ _ _ 0)|]. split; [cbn; lia|done].
  - destruct (decide (runMeasure run = 0%nat)) as [E|E].
    + destruct run; try done. eexists. split; [apply tc_return|]. split; [cbn; lia|done].
    + destruct (run_goes_on true stratum run pm q) as (evs & run' & pm' & q' & Hs & Hm); [done|by intros ->|].
      eexists. split; [by eapply tc_run|]. split; [cbn; lia|done].
  - destruct (decide (runMeasure run = 0%nat)) as [E|E].
    + destruct run; try done. eexists. split; [apply tc_end|]. split; [cbn; lia|done].
    + destruct (run_goes_on false stratum run pm q) as (evs & run' & pm' & q' & Hs & Hm); [done|by intros ->|].
      eexists. split; [by eapply tc_run_last|]. split; [cbn; lia|done].
Qed.

Lemma typechecking_ends s : ServerInv s -> lockHeld (sv_processing s) = false ->
  exists s', rtc typecheckingStep s s' /\ ServerInv s' /\ sv_typechecking s' = Waiting /\ sv_processing s' = sv_processing s.
Proof.
  remember (tcMeasure (sv_typechecking s)) as n eqn:En. revert s En. induction n as [n IH] using lt_wf_ind. intros s -> Hi Hl.
  destruct (sv_typechecking s) eqn:E; [by exists s; split; [constructor|]|..];
    (destruct (typechecking_goes_on s) as (s1 & Hs & Hm & Hp); [done|done|congruence|];
     destruct (IH (tcMeasure (sv_typechecking s1))) with (s := s1) as (s2 & Hs2 & Hi2 & Ht2 & Hp2); [congruence|done|by eapply typechecking_inv|congruence|];
     exists s2; split; [by eapply rtc_l|]; split; [done|]; split; [done|congruence]).
Qed.

(** Without interference, the steps of a run do what [tryRunScheduledPreemptionTask] does, and put the error queue back. *)
Definition runSteps (active : bool) (stratum : Z) (x y : RunPc * PreemptionTaskManager * Z) : Prop :=
  exists evs, runStep active stratum x.1.1 x.1.2 x.2 evs y.1.1 y.1.2 y.2.

Lemma run_alone active stratum result pm res finished pm' q :
  tryRunScheduledPreemptionTask typecheckingThread stratum active result pm = Some (res, finished, pm') ->
  rtc (runSteps active stratum) (RunLoad, pm, q) (RunDone, pm', q).
Proof.
  unfold tryRunScheduledPreemptionTask. intros H.
  assert (Hstep : forall run pm q evs run' pm' q' z, runStep active stratum run pm q evs run' pm' q' ->
    rtc (runSteps active stratum) (run', pm', q') z -> rtc (runSteps active stratum) (run, pm, q) z) by (intros run0 pm0 q0 evs run1 pm2 q1 z Hr Hz; apply (rtc_l _ _ (run1, pm2, q1)); [exists evs; exact Hr|exact Hz]).
  destruct (runLoad typecheckingThread pm) as [[[task|] pm1]|] eqn:E; cbn in H; [| |done].
  2: { simplify_eq. eapply Hstep; [by apply run_load_none|done]. }
  eapply Hstep; [by apply run_load_some|]. eapply Hstep; [apply run_check|].
  destruct (runTooEarly active stratum pm1) eqn:Ee; [by simplify_eq|].
  destruct (compareExchange (preemptTask pm1) (Some task) None) as [[[] slot] expected] eqn:Ec; cbn in H; [|simplify_eq; eapply Hstep; [by eapply run_miss|done]].
  eapply Hstep; [eapply (run_take _ _ _ _ _ _ q (q + 1)); [done|lia]|]. eapply Hstep; [apply (run_task _ _ _ _ result)|].
  destruct (rescheduled result) as [next|]; [|simplify_eq; eapply Hstep; [apply run_finish|done]].
  destruct active; [|simplify_eq; eapply Hstep; [apply run_finish|done]].
  eapply Hstep; [apply run_defer|]. eapply Hstep; [apply run_reload|]. cbn in *. rewrite compareExchange_same in H. simplify_eq.
  eapply Hstep; [eapply run_requeue, compareExchange_same|done].
Qed.

(** C12: slow paths follow their protocol under all interleavings of the two threads: at most one runs, it is committed if and only if
    it was not canceled, and the last committed epoch changes at a commit only. [getStatus] and [wasTypecheckingCanceled]
    tell the state of the protocol, and a slow path can be canceled exactly while it runs. *)
Theorem slow_paths_follow s : rtc serverStep server0 s -> exists st, slowPaths (sv_log s) = Some st /\
  getStatusInternal (sv_epochs s) = expectedStatus st /\ wasTypecheckingCanceled (sv_epochs s) = slowPathWasCanceled (expectedStatus st) /\
  lastCommittedLSPEpoch (sv_epochs s) = sp_committed st /\
  (forall newEpoch, fst <$> tryCancelSlowPath processingThread newEpoch (sv_epochs s) =
     Some (match sp_running st with Some (e, _) => negb (newEpoch =? e) | None => false end)).
Proof.
  intros [Hh Hr _ Hth _]%reachable_inv. eexists. split; [done|]. unfold getStatusInternal, expectedStatus, wasTypecheckingCanceled, slowPathsOf, tryCancelSlowPath.
  rewrite thread_ok by apply Hth. rewrite (Z.eqb_sym (lspEpochInvalidator _)). cbn. destruct (running (sv_typechecking s)) as [e|]; destruct Hr as [-> Hr]; cbn.
  - apply Z.eqb_neq in Hr. rewrite Hr. done.
  - rewrite Hr, Z.eqb_refl. done.
Qed.

(** C11: a task that is scheduled runs. The events of every task are in order: it is scheduled, runs and is deferred any number of times,
    never before the stratum it was deferred to unless the slow path has ended, and then it is finished, or it is taken back while it waits.
    When the typechecking thread has returned from a slow path, every task that was scheduled is finished or was taken back. The slow
    path has its own error queue whenever no task runs. *)
Theorem scheduled_tasks_run s : rtc serverStep server0 s ->
  (forall t, exists st, taskHistory t (sv_log s) = Some st /\ (EvScheduled t ∈ sv_log s <-> st <> TaskNew) /\
     (EvFinished t ∈ sv_log s <-> st = TaskFinished) /\ (sv_typechecking s = Waiting -> settled st)) /\
  (held (runOf (sv_typechecking s)) = None -> sv_errorQueue s = sv_errorQueue server0).
Proof.
  intros [_ _ _ _ Ht]%reachable_inv. split.
  - intros t. assert (Hst : exists st, taskHistory t (sv_log s) = Some st /\ (sv_typechecking s = Waiting -> settled st)).
    { destruct (decide (pending (sv_processing s) = Some t)) as [Hp|Hp].
      - eexists. split; [by apply (ti_pending _ _ _ _ _ _ Ht)|]. intros E. pose proof (ti_run _ _ _ _ _ _ Ht) as Hn. rewrite E in *. cbn in *.
        rewrite Hn by done. by right; left.
      - destruct (ti_others _ _ _ _ _ _ Ht t Hp) as (st & ? & ?). by exists st. }
    destruct Hst as (st & Hst & Hset). exists st. split_and!; [done|by apply taskHistory_scheduled|by apply taskHistory_finished|done].
  - intros E. pose proof (ti_queue _ _ _ _ _ _ Ht) as Hq. by rewrite E in Hq.
Qed.

(** C13: the processing thread is never blocked for ever. Whenever it waits for a task, or for its slow path to start, the typechecking
    thread can go on by itself, without an exception, until the processing thread can go on. *)
Theorem processing_continues s : rtc serverStep server0 s ->
  (forall t, sv_processing s = Blocked t -> exists s1 s2, rtc typecheckingStep s s1 /\ processingStep s1 s2 /\ sv_processing s2 = Idle) /\
  (forall e, sv_processing s = Starting e -> exists s1, rtc typecheckingStep s s1 /\ sv_processing s1 = Idle /\ sv_typechecking s1 = Checking e).
Proof.
  intros Hi%reachable_inv. split; [intros t E|intros e E]; (destruct (typechecking_ends s Hi) as (s1 & Hs1 & Hi1 & Ht1 & Hp1); [by rewrite E|]); rewrite E in Hp1.
  - destruct s1 as [em pm q tc proc log]. cbn in *. subst. pose proof (si_tasks _ Hi1) as Ht. cbn in Ht. exists (mkServer em pm q Waiting (Blocked t) log), (mkServer em pm q Waiting Idle log).
    split; [done|]. split; [|done]. apply pr_wake. pose proof (ti_pending _ _ _ _ _ _ Ht t eq_refl) as Hh. apply (taskHistory_finished _ _ _ Hh).
    pose proof (ti_run _ _ _ _ _ _ Ht) as Hn. cbn in *. by rewrite Hn.
  - destruct s1 as [em pm q tc proc log]. cbn in *. subst.
    assert (Hst : exists em', startCommitEpoch typecheckingThread e em = Some em')
      by (unfold startCommitEpoch; rewrite thread_ok by apply (si_threads _ Hi1); by eexists).
    destruct Hst as [em' Hst]. eexists. split; [eapply rtc_r; [done|by apply tc_start]|done].
Qed.

(** ** Examples *)

(** A slow path runs a task, while the processing thread has failed to take it back *)
Definition sampleServer : Server :=
  mkServer (mkEpochManager 1 1 0 (Some 1) None) (mkPreemption None 0 (Some 1) (Some 0)) 5 (Preempting 1 0 (RunDefer 7 0 2)) (Blocked 7)
    [EvStarted 1; EvScheduled 7; EvRan 7 0 false].

Lemma sampleServer_run : rtc serverStep server0 sampleServer.
Proof.
  eapply rtc_l; [right; by apply (pr_post _ _ _ _ 1)|]. eapply rtc_l; [left; by apply tc_start|].
  eapply rtc_l; [right; eapply (pr_schedule _ _ _ _ _ 7); [done|]; by repeat constructor|]. eapply rtc_l; [right; apply pr_reset|].
  eapply rtc_l; [right; by apply pr_swap|]. eapply rtc_l; [left; apply (tc_preempt _ _ _ _ 0)|].
  eapply rtc_l; [left; apply tc_run; by apply run_load_some|]. eapply rtc_l; [left; apply tc_run; apply run_check|].
  eapply rtc_l; [left; apply tc_run; by eapply (run_take _ _ _ _ _ _ _ 5)|]. eapply rtc_l; [right; by apply pr_unschedule|].
  eapply rtc_l; [left; apply tc_run; apply (run_task _ _ _ _ (mkRunResult false (Some 2)))|]. apply rtc_refl.
Qed.

Lemma slow_paths_follow_witness : exists st, slowPaths (sv_log sampleServer) = Some st /\ sp_running st = Some (1, false).
Proof.
  destruct (slow_paths_follow sampleServer sampleServer_run) as (st & Hst & _). exists st. split; [exact Hst|].
  vm_compute in Hst. injection Hst as <-. reflexivity.
Defined.

Lemma scheduled_tasks_run_witness : exists st, taskHistory 7 (sv_log sampleServer) = Some st /\ st = TaskRan /\ EvScheduled 7 ∈ sv_log sampleServer.
Proof.
  destruct (scheduled_tasks_run sampleServer sampleServer_run) as [H _]. destruct (H 7) as (st & Hst & Hs & _). exists st.
  assert (E : st = TaskRan) by (vm_compute in Hst; injection Hst as <-; reflexivity). split; [exact Hst|]. split; [exact E|]. apply Hs. rewrite E. discriminate.
Defined.

Lemma processing_continues_witness : exists s1 s2, rtc typecheckingStep sampleServer s1 /\ processingStep s1 s2 /\ sv_processing s2 = Idle.
Proof. exact (proj1 (processing_continues sampleServer sampleServer_run) 7 eq_refl). Defined.
