(* ===== verification/NameSubst.v ===== *)
(** * Substitution of names

    Models src/core/NameSubstitution: [NameSubstitution], which enters all names of one name table in another and keeps
    the references, and [LazyNameSubstitution], which does so for a name when it is asked for, and collects the hashes of
    the names of a file (with the hash of src/core/FileHash.cc that ignores unique names). Syntax trees are moved
    between global states with these ([AstSubst]). Semantic extensions may do more when tables are merged; the one
    of the indexer does nothing. *)

From S2P Require Import Prelude FileHash NameTable NameText NamerDelete.

#[local] Open Scope Z_scope.

(** ** All names at once *)

Record NameSubstitution := mkSubst {
  utf8NameSubstitution : list Z; constantNameSubstitution : list Z; uniqueNameSubstitution : list Z }.

(** [NameSubstitution::substitute] *)
Definition substituteName (s : NameSubstitution) (from : Z) : option Z :=
  match nameKind from with
  | Some UTF8 => utf8NameSubstitution s !! Z.to_nat (unsafeTableIndex from)
  | Some CONSTANT => constantNameSubstitution s !! Z.to_nat (unsafeTableIndex from)
  | Some UNIQUE => uniqueNameSubstitution s !! Z.to_nat (unsafeTableIndex from)
  | None => None
  end.

Section Substitution.
Context (xxh32 : str -> Z).

Definition substUtf8 (st : NameSubstitution * NameTable) (nm : str) : option (NameSubstitution * NameTable) :=
  let '(s, to) := st in
  '(name, to) ← enterNameUTF8 xxh32 to nm;
  Some (mkSubst (utf8NameSubstitution s ++ [name]) (constantNameSubstitution s) (uniqueNameSubstitution s), to).

(** The next constants, as many as the first argument says *)
Fixpoint substConstants (count : nat) (from : NameTable) (st : NameSubstitution * NameTable) : option (NameSubstitution * NameTable) :=
  match count with
  | O => Some st
  | S count =>
      let '(s, to) := st in
      cnst ← constantNames from !! length (constantNameSubstitution s);
      original ← substituteName s cnst;
      '(name, to) ← enterNameConstant to original;
      substConstants count from (mkSubst (utf8NameSubstitution s) (constantNameSubstitution s ++ [name]) (uniqueNameSubstitution s), to)
  end.

(** A unique name, after the constants up to the one that it is derived from *)
Definition substUnique (from : NameTable) (st : NameSubstitution * NameTable) (nm : UniqueName) : option (NameSubstitution * NameTable) :=
  let size := length (constantNameSubstitution st.1) in
  st ← (if bool_decide (nameKind (un_original nm) = Some CONSTANT) && (Z.of_nat size <=? unsafeTableIndex (un_original nm))
        then substConstants (Z.to_nat (unsafeTableIndex (un_original nm)) + 1 - size) from st else Some st);
  let '(s, to) := st in
  original ← substituteName s (un_original nm);
  '(name, to) ← freshNameUnique to (un_kind nm) original (un_num nm);
  Some (mkSubst (utf8NameSubstitution s) (constantNameSubstitution s) (uniqueNameSubstitution s ++ [name]), to).

(** The constructor [NameSubstitution(from, to)] *)
Definition newNameSubstitution (from to : NameTable) : option (NameSubstitution * NameTable) :=
  st ← foldM substUtf8 (mkSubst [] [] [], to) (utf8Names from);
  st ← foldM (substUnique from) st (uniqueNames from);
  substConstants (length (constantNames from) - length (constantNameSubstitution st.1)) from st.

(** ** One name at a time *)

(** [nameSubstitution] and [acc.nameHashes] *)
Record LazyNameSubstitution := mkLazySubst { nameSubstitution : gmap Z Z; acc_nameHashes : list Z }.

Definition newLazySubst : LazyNameSubstitution := mkLazySubst {[noName := noName]} [].

(** [substitute] and [defineName], for two different tables *)
Fixpoint lazySubstitute_loop (fuel : nat) (fromGS : NameTable) (from : Z) (st : LazyNameSubstitution * NameTable)
    : option (Z * (LazyNameSubstitution * NameTable)) :=
  match nameSubstitution st.1 !! from with
  | Some to => Some (to, st)
  | None =>
      match fuel with
      | O => None
      | S fuel =>
          kind ← nameKind from;
          '(to, (s, toGS)) ← match kind with
             | UNIQUE =>
                 unique ← dataUnique fromGS from;
                 '(original, (s, toGS)) ← lazySubstitute_loop fuel fromGS (un_original unique) st;
                 '(to, toGS) ← freshNameUnique toGS (un_kind unique) original (un_num unique);
                 Some (to, (s, toGS))
             | UTF8 =>
                 utf8 ← dataUtf8 fromGS from;
                 '(to, toGS) ← enterNameUTF8 xxh32 st.2 utf8;
                 Some (to, (st.1, toGS))
             | CONSTANT =>
                 constant ← dataCnst fromGS from;
                 '(original, (s, toGS)) ← lazySubstitute_loop fuel fromGS constant st;
                 '(to, toGS) ← enterNameConstant toGS original;
                 Some (to, (s, toGS))
             end;
          Some (to, (mkLazySubst (<[from := to]> (nameSubstitution s)) (acc_nameHashes s), toGS))
      end
  end.

Definition lazySubstitute (fromGS : NameTable) (from : Z) (st : LazyNameSubstitution * NameTable) : option (Z * (LazyNameSubstitution * NameTable)) :=
  lazySubstitute_loop (chainFuel fromGS) fromGS from st.
End Substitution.

(** ** Hashes of the names of a file *)

Section Usages.
Context (hashString : str -> Z).

Fixpoint hashNameRefWithoutUniques (fuel : nat) (nt : NameTable) (nm : Z) : option Z :=
  match fuel with
  | O => None
  | S fuel =>
      kind ← nameKind nm;
      match kind with
      | UTF8 => s ← dataUtf8 nt nm; Some (mix (hashString s) (kind_bits UTF8))
      | CONSTANT => original ← dataCnst nt nm; result ← hashNameRefWithoutUniques fuel nt original; Some (mix result (kind_bits CONSTANT))
      | UNIQUE => u ← dataUnique nt nm; hashNameRefWithoutUniques fuel nt (un_original u)
      end
  end.

(** [WithoutUniqueNameHash(gs, nm)] *)
Definition withoutUniqueNameHash (nt : NameTable) (nm : Z) : option Z :=
  incZero <$> hashNameRefWithoutUniques (chainFuel nt) nt nm.

(** [LazyNameSubstitution::substituteSymbolName] *)
Definition lazySubstituteSymbolName (xxh32 : str -> Z) (fromGS : NameTable) (from : Z) (st : LazyNameSubstitution * NameTable)
    : option (Z * (LazyNameSubstitution * NameTable)) :=
  hash ← withoutUniqueNameHash fromGS from;
  lazySubstitute xxh32 fromGS from (mkLazySubst (nameSubstitution st.1) (acc_nameHashes st.1 ++ [hash]), st.2).

(** [getAllNames]: [sort] is [fast_sort], and [unique] drops elements that equal the one before. *)
Fixpoint unique (l : list Z) : list Z :=
  match l with
  | x :: (y :: _) as rest => if x =? y then unique rest else x :: unique rest
  | _ => l
  end.

Definition getAllNames (sort : list Z -> list Z) (s : LazyNameSubstitution) : UsageHash := mkUsageHash (unique (sort (acc_nameHashes s))).
End Usages.
