(* ===== verification/NameSubstProps.v ===== *)
(** * Theorems on the substitution of names *)

From S2P Require Import Prelude FileHash NameTable NameText NamerDelete NamerDeleteProps NameSubst.

#[local] Open Scope Z_scope.

(** ** Names that say the same *)

(** A name of [from] and one of [to] are derived in the same way from the same string. *)
Inductive sameName (from to : NameTable) : Z -> Z -> Prop :=
| same_utf8 r r' s : (r, NUtf8 s) ∈ allNames from -> (r', NUtf8 s) ∈ allNames to -> sameName from to r r'
| same_constant r r' o o' : (r, NConstant o) ∈ allNames from -> (r', NConstant o') ∈ allNames to -> sameName from to o o' -> sameName from to r r'
| same_unique r r' u o' : (r, NUnique u) ∈ allNames from -> (r', NUnique (mkUniqueName o' (un_num u) (un_kind u))) ∈ allNames to ->
    sameName from to (un_original u) o' -> sameName from to r r'.

Definition contains (to to' : NameTable) : Prop := forall r d, (r, d) ∈ allNames to -> (r, d) ∈ allNames to'.

Lemma sameName_mono from to to' r r' : contains to to' -> sameName from to r r' -> sameName from to' r r'.
Proof. intros Hc. induction 1; [eapply same_utf8|eapply same_constant|eapply same_unique]; eauto. Qed.

(** The name on the right is determined by the one on the left, and the other way round. *)
Lemma sameName_functional h h' from to r r1 r2 : NameTable_wf h from -> NameTable_wf h' to -> sameName from to r r1 -> sameName from to r r2 -> r1 = r2.
Proof.
  intros Hf Ht H1. revert r2. induction H1 as [r r1 s Hr Hr1|r r1 o o' Hr Hr1 Ho IH|r r1 u o' Hr Hr1 Ho IH]; intros r2 H2; inversion H2; subst;
    match goal with H1 : (?r, _) ∈ allNames from, H2 : (?r, _) ∈ allNames from |- _ =>
      let E := fresh in assert (E := allNames_functional from r _ _ (ex_intro _ h Hf) H1 H2); simplify_eq end;
    [|erewrite (IH o'0) in * by done..]; eapply (nodup_functional h' to); eauto.
Qed.

Lemma sameName_injective h h' from to r1 r2 r : NameTable_wf h from -> NameTable_wf h' to -> sameName from to r1 r -> sameName from to r2 r -> r1 = r2.
Proof.
  intros Hf Ht H1. revert r2. induction H1 as [r1 r s Hr Hr1|r1 r o o' Hr Hr1 Ho IH|r1 r u o' Hr Hr1 Ho IH]; intros r2 H2; inversion H2; subst;
    match goal with H1 : (?r, _) ∈ allNames to, H2 : (?r, _) ∈ allNames to |- _ =>
      let E := fresh in assert (E := allNames_functional to r _ _ (ex_intro _ h' Ht) H1 H2); simplify_eq end.
  - eapply (nodup_functional h from); eauto.
  - rewrite (IH o0) in * by done. eapply (nodup_functional h from); eauto.
  - destruct u as [o n k], u0 as [o0 n0 k0]. cbn in *. simplify_eq. rewrite (IH o0) in * by done. eapply (nodup_functional h from); eauto.
Qed.

(** ** Room *)

(** A bound on the capacities that the table can have after more names were entered *)
Definition roomFor (nt : NameTable) : Z :=
  Z.max (utf8Capacity nt) (2 * vsize (utf8Names nt)) + Z.max (constantCapacity nt) (2 * vsize (constantNames nt)) +
  Z.max (uniqueCapacity nt) (2 * vsize (uniqueNames nt)).

Lemma enter_room h nt d raw nt' : NameTable_wf h nt -> enterName h nt d = Some (raw, nt') -> roomFor nt' <= roomFor nt + 2.
Proof.
  intros Hwf E. pose proof (nt_utf8 _ _ Hwf). pose proof (nt_constant _ _ Hwf). pose proof (nt_unique _ _ Hwf).
  assert (Hu : forall z, 0 <= z -> u32 z <= z) by (intros; unfold u32; apply Z.mod_le; lia).
  destruct d; cbn in E; unfold enterNameUTF8, enterNameConstant, freshNameUnique in E; apply bind_Some in E as (b & _ & E); apply bind_Some in E as (bk & _ & E);
    (destruct (present bk); [injection E as _ <-; lia|]); apply bind_Some in E as ([nt1 b1] & E1 & [= _ <-]); unfold roomFor, vsize in *; cbn;
    match type of E1 with context [if ?a =? ?b then _ else _] => destruct (Z.eqb_spec a b) as [Heq|] end;
    (injection E1 as <- _; rewrite length_app; cbn; lia) ||
    (apply bind_Some in E1 as (nt2 & E2 & E1); apply bind_Some in E1 as (b2 & _ & [= <- _]); unfold expandNames in E2;
     apply bind_Some in E2 as (bs & _ & [= <-]); cbn; rewrite length_app; cbn;
     match type of Heq with _ = ?c => pose proof (Hu (c * 2) ltac:(lia)) end; lia).
Qed.

(** Entering a name, with what the proofs below need of it *)
Lemma enter_more h nt d : NameTable_wf h nt -> roomFor nt <= 2 ^ 29 ->
  exists raw nt', enterName h nt d = Some (raw, nt') /\ NameTable_wf h nt' /\ contains nt nt' /\ (raw, d) ∈ allNames nt' /\
    (forall r d', (r, d') ∈ allNames nt' -> (r, d') ∈ allNames nt \/ r = raw) /\ roomFor nt' <= roomFor nt + 2.
Proof.
  intros Hwf Hr. destruct (enter_spec h nt d Hwf) as (raw & nt' & E & Hwf' & _ & Hin & Hsub & Hnew & _); [unfold capacities, roomFor in *; lia|].
  exists raw, nt'. split_and!; try done; [|by eapply enter_room]. intros r d' [?|[= -> ->]]%Hnew; auto.
Qed.

(** ** Tables whose names were entered one after the other *)

Definition originalOf (d : NameData) : option Z :=
  match d with NUtf8 _ => None | NConstant o => Some o | NUnique u => Some (un_original u) end.

Definition nameCount (nt : NameTable) (k : NameKind) : nat :=
  match k with UTF8 => length (utf8Names nt) | CONSTANT => length (constantNames nt) | UNIQUE => length (uniqueNames nt) end.

(** There is an order in time in which the names of each kind are in order, and a name comes after the one it is derived from. *)
Definition linear (nt : NameTable) : Prop := exists time : Z -> nat,
  (forall k i j, (i < j < nameCount nt k)%nat -> (time (makeNameRef k (Z.of_nat i)) < time (makeNameRef k (Z.of_nat j)))%nat) /\
  (forall r d o, (r, d) ∈ allNames nt -> originalOf d = Some o -> (exists d', (o, d') ∈ allNames nt) /\ (time o < time r)%nat).

Lemma allNames_index nt r d : (r, d) ∈ allNames nt -> exists k i, r = makeNameRef k (Z.of_nat i) /\ (i < nameCount nt k)%nat.
Proof.
  intros H. unfold allNames in H. rewrite !elem_of_app, !refs_elem in H.
  destruct H as [(i & a & -> & _ & E)|[(i & a & -> & _ & E)|(i & a & -> & _ & E)]]; apply lookup_lt_Some in E;
    [exists UTF8, i|exists CONSTANT, i|exists UNIQUE, i]; by split.
Qed.

Lemma index_name nt k i : (i < nameCount nt k)%nat -> exists d, (makeNameRef k (Z.of_nat i), d) ∈ allNames nt /\
  match k with UTF8 => exists s, d = NUtf8 s /\ utf8Names nt !! i = Some s | CONSTANT => exists o, d = NConstant o /\ constantNames nt !! i = Some o
             | UNIQUE => exists u, d = NUnique u /\ uniqueNames nt !! i = Some u end.
Proof.
  intros Hi. destruct k; apply lookup_lt_is_Some in Hi as [a Ha]; eexists; (split; [unfold allNames; rewrite !elem_of_app, !refs_elem|by exists a]).
  - left. by exists i, a.
  - right; right. by exists i, a.
  - right; left. by exists i, a.
Qed.

Lemma count_bound h nt k : NameTable_wf h nt -> Z.of_nat (nameCount nt k) < 2 ^ 30.
Proof. intros Hwf. pose proof (index_bound h nt Hwf). unfold vsize in *. destruct k; cbn; lia. Qed.

Lemma makeNameRef_inj h nt k k' i i' : NameTable_wf h nt -> (i < nameCount nt k)%nat -> (i' < nameCount nt k')%nat ->
  makeNameRef k (Z.of_nat i) = makeNameRef k' (Z.of_nat i') -> k = k' /\ i = i'.
Proof.
  intros Hwf Hi Hi' E. pose proof (count_bound h nt k Hwf). pose proof (count_bound h nt k' Hwf).
  assert (Hk := makeNameRef_kind k (Z.of_nat i) ltac:(lia)). assert (Hx := makeNameRef_index k (Z.of_nat i) ltac:(lia)).
  rewrite E, makeNameRef_kind in Hk by lia. rewrite E, makeNameRef_index in Hx by lia. split; [congruence|lia].
Qed.

(** A name is entered at the end of its vector. *)
Lemma enter_count h nt d raw nt' : enterName h nt d = Some (raw, nt') -> NameTable_wf h nt ->
  nt' = nt \/ exists k, raw = makeNameRef k (Z.of_nat (nameCount nt k)) /\ forall k', nameCount nt' k' = (nameCount nt k' + if decide (k' = k) then 1 else 0)%nat.
Proof.
  intros E Hwf. destruct d; cbn in E; unfold enterNameUTF8, enterNameConstant, freshNameUnique in E;
    apply bind_Some in E as (b & _ & E); apply bind_Some in E as (bk & _ & E); (destruct (present bk); [injection E as _ <-; by left|]); right;
    apply bind_Some in E as ([nt1 b1] & E1 & [= <- <-]); [exists UTF8|exists CONSTANT|exists UNIQUE];
    (assert (Hs : utf8Names nt1 = utf8Names nt /\ constantNames nt1 = constantNames nt /\ uniqueNames nt1 = uniqueNames nt);
     [match type of E1 with context [if ?c then _ else _] => destruct c end;
        [apply bind_Some in E1 as (nt2 & E2 & E1); apply bind_Some in E1 as (b2 & _ & [= <- _]); unfold expandNames in E2;
         by apply bind_Some in E2 as (bs & _ & [= <-])|by injection E1 as <- _]|]);
    destruct Hs as (-> & -> & ->); (split; [done|]); intros []; case_decide; try congruence; cbn; rewrite ?length_app; cbn; lia.
Qed.

(** Tables are linear if names are entered after the names they are derived from. *)
Lemma linear_enter h nt d raw nt' : NameTable_wf h nt -> capacities nt <= 2 ^ 29 -> original_known nt d -> linear nt ->
  enterName h nt d = Some (raw, nt') -> linear nt'.
Proof.
  intros Hwf Hcap Ho (time & Hord & Horig) E. destruct (enter_count h nt d raw nt' E Hwf) as [->|(k & -> & Hc)]; [by exists time|].
  destruct (enter_spec h nt d Hwf Hcap) as (raw' & nt'' & E' & Hwf' & _ & Hin & Hsub & Hnew & _). rewrite E in E'. injection E' as <- <-.
  set (last := S (max_list (time <$> (allNames nt).*1))).
  assert (Hlast : forall r d', (r, d') ∈ allNames nt -> (time r < last)%nat).
  { intros r d' Hr. unfold last. apply Nat.lt_succ_r, max_list_elem_of_le, list_elem_of_fmap. exists r. split; [done|]. apply list_elem_of_fmap. by exists (r, d'). }
  assert (Hne : forall r d', (r, d') ∈ allNames nt -> r <> makeNameRef k (Z.of_nat (nameCount nt k))).
  { intros r d' Hr ->. destruct (allNames_index nt _ _ Hr) as (k' & i & Hk & Hi). apply (makeNameRef_inj h nt') in Hk as [<- Hk]; [lia|done|..];
      rewrite Hc; [rewrite decide_True by done|]; lia. }
  exists (fun r => if decide (r = makeNameRef k (Z.of_nat (nameCount nt k))) then last else time r). split.
  - intros k' i j Hij. rewrite Hc in Hij.
    assert (Hi : forall i, (i < nameCount nt k')%nat -> makeNameRef k' (Z.of_nat i) <> makeNameRef k (Z.of_nat (nameCount nt k)) /\ (time (makeNameRef k' (Z.of_nat i)) < last)%nat).
    { intros i' Hi'. destruct (index_name nt k' i' Hi') as (d' & Hd' & _). split; [by eapply Hne|by eapply Hlast]. }
    destruct (decide (j < nameCount nt k')%nat) as [Hj|Hj].
    + rewrite !decide_False by (apply Hi; lia). apply Hord. lia.
    + destruct (decide (k' = k)) as [->|]; [|lia]. replace j with (nameCount nt k) by lia. rewrite decide_False, decide_True by (done || (apply Hi; lia)). apply Hi. lia.
  - intros r d' o Hr Hd. destruct (Hnew r d' Hr) as [Hr'|[= -> ->]].
    + destruct (Horig r d' o Hr' Hd) as ((d2 & Hd2) & Hlt). split; [by exists d2; apply Hsub|]. by rewrite !decide_False by (by eapply Hne).
    + assert (Hk : exists d2, (o, d2) ∈ allNames nt) by (destruct d; cbn in *; by simplify_eq). destruct Hk as [d2 Hd2]. split; [by exists d2; apply Hsub|].
      rewrite decide_False, decide_True by (done || by eapply Hne). by eapply Hlast.
Qed.

(** ** All names at once *)

Definition substList (s : NameSubstitution) (k : NameKind) : list Z :=
  match k with UTF8 => utf8NameSubstitution s | CONSTANT => constantNameSubstitution s | UNIQUE => uniqueNameSubstitution s end.

Definition pushSubst (k : NameKind) (r : Z) (s : NameSubstitution) : NameSubstitution :=
  let '(mkSubst a b c) := s in
  match k with UTF8 => mkSubst (a ++ [r]) b c | CONSTANT => mkSubst a (b ++ [r]) c | UNIQUE => mkSubst a b (c ++ [r]) end.

Lemma substList_push k k' r s : substList (pushSubst k r s) k' = substList s k' ++ (if decide (k' = k) then [r] else []).
Proof. destruct s, k, k'; cbn; by rewrite ?app_nil_r. Qed.

(** How many names are done *)
Definition doneNames (s : NameSubstitution) : nat := length (substList s UTF8) + length (substList s CONSTANT) + length (substList s UNIQUE).

(** A name that is done *)
Lemma substituteName_index s k i : Z.of_nat i < 2 ^ 30 -> substituteName s (makeNameRef k (Z.of_nat i)) = substList s k !! i.
Proof. intros Hi. unfold substituteName. rewrite makeNameRef_kind, makeNameRef_index, Nat2Z.id by lia. by destruct k. Qed.

Section Eager.
Context (hf h : str -> Z) (from to0 : NameTable) (Hfrom : NameTable_wf hf from).

Record Substituted (s : NameSubstitution) (to : NameTable) : Prop := {
  sb_wf : NameTable_wf h to;
  sb_contains : contains to0 to;
  sb_same k i r : substList s k !! i = Some r -> sameName from to (makeNameRef k (Z.of_nat i)) r;
  sb_new r d : (r, d) ∈ allNames to -> (r, d) ∈ allNames to0 \/ exists k i, substList s k !! i = Some r;
  sb_room : roomFor to <= roomFor to0 + 2 * Z.of_nat (doneNames s);
  sb_count k : (length (substList s k) <= nameCount from k)%nat }.

Context (Hroom : roomFor to0 + 2 * Z.of_nat (length (allNames from)) <= 2 ^ 29).

Lemma doneNames_bound s to : Substituted s to -> (doneNames s <= length (allNames from))%nat.
Proof.
  intros H. pose proof (sb_count _ _ H UTF8). pose proof (sb_count _ _ H CONSTANT). pose proof (sb_count _ _ H UNIQUE).
  unfold allNames, doneNames. rewrite !length_app, !length_refs. cbn in *. lia.
Qed.

Lemma substituteName_done s to k i : Substituted s to -> (i < length (substList s k))%nat ->
  exists r, substituteName s (makeNameRef k (Z.of_nat i)) = Some r /\ sameName from to (makeNameRef k (Z.of_nat i)) r.
Proof.
  intros Hs Hi. pose proof (sb_count _ _ Hs k). pose proof (count_bound hf from k Hfrom). rewrite substituteName_index by lia.
  destruct (lookup_lt_is_Some_2 _ _ Hi) as [r Hr]. exists r. split; [done|]. by apply (sb_same _ _ Hs).
Qed.

(** The next name of a kind *)
Lemma substituted_push s to k d d' : Substituted s to -> (makeNameRef k (Z.of_nat (length (substList s k))), d) ∈ allNames from ->
  (forall r to', contains to to' -> (r, d') ∈ allNames to' -> sameName from to' (makeNameRef k (Z.of_nat (length (substList s k)))) r) ->
  (length (substList s k) < nameCount from k)%nat ->
  exists r to', enterName h to d' = Some (r, to') /\ Substituted (pushSubst k r s) to'.
Proof.
  intros Hs Hd Hsame Hlt. pose proof (doneNames_bound s to Hs) as Hb. pose proof (sb_room _ _ Hs) as Hr.
  assert (Hlt' : (doneNames s < length (allNames from))%nat).
  { pose proof (sb_count _ _ Hs UTF8). pose proof (sb_count _ _ Hs CONSTANT). pose proof (sb_count _ _ Hs UNIQUE).
    unfold allNames, doneNames. rewrite !length_app, !length_refs. destruct k; cbn in *; lia. }
  destruct (enter_more h to d' (sb_wf _ _ Hs)) as (r & to' & E & Hwf & Hc & Hin & Hnew & Hroom'); [lia|].
  exists r, to'. split; [done|]. split.
  - done.
  - intros x dx Hx. by apply Hc, (sb_contains _ _ Hs).
  - intros k' i x. rewrite substList_push, lookup_app_Some. intros [Hx|[Hle Hx]]; [by eapply sameName_mono, (sb_same _ _ Hs)|].
    destruct (decide (k' = k)) as [->|]; [|done]. apply list_lookup_singleton_Some in Hx as [Hz ->]. replace i with (length (substList s k)) by lia. by apply Hsame.
  - intros x dx [Hx| ->]%Hnew.
    + destruct (sb_new _ _ Hs x dx Hx) as [?|(k' & i & Hi)]; [by left|right]. exists k', i. rewrite substList_push. by apply lookup_app_l_Some.
    + right. exists k, (length (substList s k)). rewrite substList_push, decide_True by done. rewrite lookup_app_r, Nat.sub_diag by done. done.
  - assert (doneNames (pushSubst k r s) = S (doneNames s)) as -> by (unfold doneNames; rewrite !substList_push, !length_app; destruct k; repeat case_decide; try congruence; cbn; lia). lia.
  - intros k'. rewrite substList_push, length_app. pose proof (sb_count _ _ Hs k'). case_decide; [subst|]; cbn; lia.
Qed.

Lemma substUtf8_ok s to nm i : Substituted s to -> utf8Names from !! i = Some nm -> i = length (substList s UTF8) ->
  exists r to', substUtf8 h (s, to) nm = Some (pushSubst UTF8 r s, to') /\ Substituted (pushSubst UTF8 r s) to'.
Proof.
  intros Hs Hi ->. pose proof (lookup_lt_Some _ _ _ Hi) as Hlt. destruct (index_name from UTF8 _ Hlt) as (d & Hd & nm' & -> & Hnm). rewrite Hi in Hnm. simplify_eq.
  destruct (substituted_push s to UTF8 (NUtf8 nm') (NUtf8 nm') Hs Hd) as (r & to' & E & Hs'); [|done|].
  { intros r to' _ Hr. by eapply same_utf8. }
  exists r, to'. split; [|done]. cbn in *. rewrite E. by destruct s.
Qed.

(** A name is done, or is a constant before the [i]-th *)
Definition readyFor (s : NameSubstitution) (i : nat) (o : Z) : Prop :=
  exists k j, o = makeNameRef k (Z.of_nat j) /\ if decide (k = CONSTANT) then (j < i)%nat else (j < length (substList s k))%nat.

Lemma substConstants_ok count : forall s to, Substituted s to -> (length (substList s CONSTANT) + count <= nameCount from CONSTANT)%nat ->
  (forall i o, (length (substList s CONSTANT) <= i < length (substList s CONSTANT) + count)%nat -> constantNames from !! i = Some o -> readyFor s i o) ->
  exists s' to', substConstants count from (s, to) = Some (s', to') /\ Substituted s' to' /\
    length (substList s' CONSTANT) = (length (substList s CONSTANT) + count)%nat /\ (forall k, k <> CONSTANT -> substList s' k = substList s k).
Proof.
  induction count as [|count IH]; intros s to Hs Hn Hready.
  { exists s, to. split_and!; [done|done|lia|done]. }
  assert (Hlt : (length (substList s CONSTANT) < nameCount from CONSTANT)%nat) by lia.
  destruct (index_name from CONSTANT _ Hlt) as (d & Hd & o & -> & Ho).
  destruct (Hready (length (substList s CONSTANT)) o ltac:(lia) Ho) as (k & j & -> & Hj).
  destruct (substituteName_done s to k j Hs) as (o' & Eo & Hso); [case_decide; subst; done|].
  destruct (substituted_push s to CONSTANT _ (NConstant o') Hs Hd) as (r & to' & E & Hs'); [|done|].
  { intros r to' Hc Hr. eapply same_constant; [done|done|by eapply sameName_mono]. }
  cbn in E. assert (Hp : forall k, substList (pushSubst CONSTANT r s) k = substList s k ++ (if decide (k = CONSTANT) then [r] else [])) by (intros; apply substList_push).
  assert (Hlen : length (substList (pushSubst CONSTANT r s) CONSTANT) = S (length (substList s CONSTANT))) by (rewrite Hp, decide_True, length_app by done; cbn; lia).
  destruct (IH (pushSubst CONSTANT r s) to' Hs') as (s2 & to2 & E2 & Hs2 & Hl2 & Hk2); [lia| |].
  { intros i o Hi Hoi. destruct (Hready i o ltac:(lia) Hoi) as (k' & j' & -> & Hj'). exists k', j'. split; [done|]. rewrite Hp. case_decide; [done|]. by rewrite app_nil_r. }
  exists s2, to2. split_and!; [|done|lia|].
  - cbn [substConstants]. cbn [substList] in Ho. rewrite Ho. cbn. rewrite Eo. cbn. rewrite E. cbn. destruct s. exact E2.
  - intros k' Hk'. rewrite Hk2, Hp, decide_False by done. apply app_nil_r.
Qed.

Context (time : Z -> nat)
  (Hord : forall k i j, (i < j < nameCount from k)%nat -> (time (makeNameRef k (Z.of_nat i)) < time (makeNameRef k (Z.of_nat j)))%nat)
  (Horig : forall r d o, (r, d) ∈ allNames from -> originalOf d = Some o -> (exists d', (o, d') ∈ allNames from) /\ (time o < time r)%nat).

(** What comes earlier has a smaller index. *)
Lemma time_index k i j : (i < nameCount from k)%nat -> (j < nameCount from k)%nat ->
  (time (makeNameRef k (Z.of_nat i)) < time (makeNameRef k (Z.of_nat j)))%nat -> (i < j)%nat.
Proof.
  intros Hi Hj Ht. destruct (Nat.lt_trichotomy i j) as [?|[->|Hlt]]; [done|lia|]. pose proof (Hord k j i ltac:(lia)). lia.
Qed.

(** The original of a constant that comes before a unique name is ready when the unique names before that are done. *)
Lemma constant_ready s i o bound : length (substList s UTF8) = nameCount from UTF8 -> constantNames from !! i = Some o ->
  (forall j, (j < nameCount from UNIQUE)%nat -> (time (makeNameRef UNIQUE (Z.of_nat j)) < bound)%nat -> (j < length (substList s UNIQUE))%nat) ->
  (time (makeNameRef CONSTANT (Z.of_nat i)) <= bound)%nat -> readyFor s i o.
Proof.
  intros Hu Ho Hq Ht. pose proof (lookup_lt_Some _ _ _ Ho) as Hi. destruct (index_name from CONSTANT i Hi) as (d & Hd & o' & -> & Ho'). rewrite Ho in Ho'. simplify_eq.
  destruct (Horig _ _ o' Hd eq_refl) as [(d' & Hd') Hlt]. destruct (allNames_index from o' d' Hd') as (k & j & -> & Hj). exists k, j. split; [done|].
  case_decide; [subst; by apply (time_index CONSTANT)|]. destruct k; [by rewrite Hu|apply Hq; [done|lia]|done].
Qed.

Lemma substUnique_ok s to nm : Substituted s to -> length (substList s UTF8) = nameCount from UTF8 ->
  uniqueNames from !! length (substList s UNIQUE) = Some nm ->
  exists s' to', substUnique from (s, to) nm = Some (s', to') /\ Substituted s' to' /\ length (substList s' UTF8) = nameCount from UTF8 /\
    length (substList s' UNIQUE) = S (length (substList s UNIQUE)).
Proof.
  intros Hs Hu Hnm. pose proof (lookup_lt_Some _ _ _ Hnm) as Hlt. destruct (index_name from UNIQUE _ Hlt) as (d & Hd & nm' & -> & Hnm'). rewrite Hnm in Hnm'. simplify_eq.
  destruct (Horig _ _ _ Hd eq_refl) as [(d' & Hd') Ht]. destruct (allNames_index from _ _ Hd') as (k & j & Eo & Hj).
  pose proof (count_bound hf from k Hfrom).
  assert (Hq : forall j', (j' < nameCount from UNIQUE)%nat -> (time (makeNameRef UNIQUE (Z.of_nat j')) < time (makeNameRef UNIQUE (Z.of_nat (length (substList s UNIQUE)))))%nat ->
    (j' < length (substList s UNIQUE))%nat) by (intros j' Hj' Ht'; by apply (time_index UNIQUE)).
  assert (Hc : exists s1 to1, (if bool_decide (nameKind (un_original nm') = Some CONSTANT) && (Z.of_nat (length (substList s CONSTANT)) <=? unsafeTableIndex (un_original nm'))
      then substConstants (Z.to_nat (unsafeTableIndex (un_original nm')) + 1 - length (substList s CONSTANT)) from (s, to) else Some (s, to)) = Some (s1, to1) /\
    Substituted s1 to1 /\ (j < length (substList s1 k))%nat /\ (forall k, k <> CONSTANT -> substList s1 k = substList s k)).
  { rewrite Eo, makeNameRef_kind, makeNameRef_index, Nat2Z.id by lia. rewrite Eo in Ht. destruct (decide (k = CONSTANT)) as [->|Hk].
    - rewrite bool_decide_eq_true_2, andb_true_l by done. destruct (Z.leb_spec (Z.of_nat (length (substList s CONSTANT))) (Z.of_nat j)) as [Hle|Hle].
      + destruct (substConstants_ok (j + 1 - length (substList s CONSTANT)) s to Hs) as (s1 & to1 & E & Hs1 & Hl & Hk); [lia| |].
        { intros i o Hi Ho. eapply (constant_ready s i o (time (makeNameRef UNIQUE (Z.of_nat (length (substList s UNIQUE)))))); [done|done|done|].
          destruct (decide (i = j)) as [->|]; [lia|]. pose proof (Hord CONSTANT i j ltac:(lia)). lia. }
        exists s1, to1. split_and!; [done|done|lia|done].
      + exists s, to. split_and!; [done|done|lia|done].
    - rewrite bool_decide_eq_false_2 by congruence. exists s, to. split_and!; [done|done| |done].
      destruct k; [by rewrite Hu|by apply Hq|done]. }
  destruct Hc as (s1 & to1 & E1 & Hs1 & Hj1 & Hk1). destruct (substituteName_done s1 to1 k j Hs1 Hj1) as (o' & Eo' & Hso). rewrite <- Eo in Eo', Hso.
  destruct (substituted_push s1 to1 UNIQUE (NUnique nm') (NUnique (mkUniqueName o' (un_num nm') (un_kind nm'))) Hs1) as (r & to' & E & Hs'); [by rewrite Hk1| |by rewrite Hk1|].
  { rewrite Hk1 by done. intros r to' Hc Hr. eapply same_unique; [done|done|by eapply sameName_mono]. }
  exists (pushSubst UNIQUE r s1), to'. split_and!; [|done| |].
  - unfold substUnique. cbn [fst]. cbn [substList] in E1. rewrite E1. cbn. rewrite Eo'. cbn. cbn in E. rewrite E. by destruct s1.
  - rewrite substList_push, decide_False, app_nil_r, Hk1 by done. done.
  - rewrite substList_push, decide_True, length_app, Hk1 by done. cbn. lia.
Qed.

Lemma newNameSubstitution_ok : NameTable_wf h to0 -> exists s to, newNameSubstitution h from to0 = Some (s, to) /\ Substituted s to /\
  forall k, length (substList s k) = nameCount from k.
Proof.
  intros Hto. unfold newNameSubstitution.
  destruct (foldM_inv (substUtf8 h) (fun l st => Substituted st.1 st.2 /\ length (substList st.1 UTF8) = length l /\ substList st.1 CONSTANT = [] /\ substList st.1 UNIQUE = [])
    (utf8Names from) (mkSubst [] [] [], to0)) as ([s1 to1] & E1 & Hs1 & Hu1 & Hc1 & Hq1).
  { split_and!; [|done|done|done]. split; [done|by intros r d Hr| |by intros r d Hr; left|unfold doneNames; cbn; lia|intros []; cbn; lia].
    intros [] i r Hr; cbn in Hr; by rewrite lookup_nil in Hr. }
  { intros l x rest [s to] El (Hs & Hu & Hc & Hq). cbn [fst snd] in *.
    destruct (substUtf8_ok s to x (length l) Hs) as (r & to' & E & Hs'); [rewrite El; by rewrite lookup_app_r, Nat.sub_diag by done|done|].
    exists (pushSubst UTF8 r s, to'). cbn [fst snd]. rewrite !substList_push, decide_True, !decide_False, !app_nil_r, !length_app by done.
    split_and!; [done|done|cbn [length]; lia|done|done]. }
  rewrite E1. cbn [mbind option_bind fst snd] in *.
  destruct (foldM_inv (substUnique from) (fun l st => Substituted st.1 st.2 /\ length (substList st.1 UTF8) = nameCount from UTF8 /\ length (substList st.1 UNIQUE) = length l)
    (uniqueNames from) (s1, to1)) as ([s2 to2] & E2 & Hs2 & Hu2 & Hq2).
  { cbn [fst snd]. rewrite Hq1. by split_and!. }
  { intros l x rest [s to] El (Hs & Hu & Hq). cbn [fst snd] in *.
    destruct (substUnique_ok s to x Hs Hu) as (s' & to' & E & Hs' & Hu' & Hq'); [rewrite Hq, El; by rewrite lookup_app_r, Nat.sub_diag by done|].
    exists (s', to'). split_and!; [done|done|done|]. cbn [fst]. rewrite length_app. cbn [length]. lia. }
  rewrite E2. cbn [mbind option_bind fst snd] in *.
  pose proof (sb_count _ _ Hs2 CONSTANT) as Hcc. cbn [substList nameCount] in Hcc.
  destruct (substConstants_ok (length (constantNames from) - length (constantNameSubstitution s2)) s2 to2 Hs2) as (s3 & to3 & E3 & Hs3 & Hl3 & Hk3).
  { cbn [substList nameCount]. lia. }
  { intros i o Hi Ho. apply (constant_ready s2 i o (time (makeNameRef CONSTANT (Z.of_nat i)))); [done|done| |done]. intros j Hj _. by rewrite Hq2. }
  exists s3, to3. split_and!; [done|done|]. intros [].
  - by rewrite Hk3.
  - by rewrite Hk3.
  - rewrite Hl3. cbn [substList nameCount]. lia.
Qed.
End Eager.

(** C9: substitution of names. For a table whose names were entered one after the other, entering all its names in another table
    succeeds, whatever order constants and unique names are in. The other table only grows, by names that the substitution
    gives; every name of the first table has a substitute, derived in the same way from the same string, and different
    names have different substitutes. *)
Theorem name_substitution_correct hf h from to : NameTable_wf hf from -> linear from -> NameTable_wf h to ->
  roomFor to + 2 * Z.of_nat (length (allNames from)) <= 2 ^ 29 ->
  exists s to', newNameSubstitution h from to = Some (s, to') /\ NameTable_wf h to' /\ contains to to' /\
    (forall r d, (r, d) ∈ allNames from -> exists r', substituteName s r = Some r' /\ sameName from to' r r') /\
    (forall r1 r2 d1 d2, (r1, d1) ∈ allNames from -> (r2, d2) ∈ allNames from -> substituteName s r1 = substituteName s r2 -> r1 = r2) /\
    (forall r' d', (r', d') ∈ allNames to' -> (r', d') ∈ allNames to \/ exists r d, (r, d) ∈ allNames from /\ substituteName s r = Some r').
Proof.
  intros Hf (time & Hord & Horig) Ht Hroom. destruct (newNameSubstitution_ok hf h from to Hf Hroom time Hord Horig Ht) as (s & to' & E & Hs & Hc).
  assert (Hsub : forall r d, (r, d) ∈ allNames from -> exists r', substituteName s r = Some r' /\ sameName from to' r r').
  { intros r d Hr. destruct (allNames_index from r d Hr) as (k & i & -> & Hi). apply (substituteName_done hf h from to Hf); [done|]. by rewrite Hc. }
  exists s, to'. split_and!; [done|apply (sb_wf _ _ _ _ _ Hs)|apply (sb_contains _ _ _ _ _ Hs)|done| |].
  - intros r1 r2 d1 d2 H1 H2 Heq. destruct (Hsub _ _ H1) as (x1 & E1 & S1), (Hsub _ _ H2) as (x2 & E2 & S2). rewrite E1, E2 in Heq. simplify_eq.
    eapply (sameName_injective hf h from to'); [done|apply (sb_wf _ _ _ _ _ Hs)|done|done].
  - intros r' d' Hr. destruct (sb_new _ _ _ _ _ Hs r' d' Hr) as [?|(k & i & Hi)]; [by left|right].
    pose proof (lookup_lt_Some _ _ _ Hi) as Hlt. rewrite Hc in Hlt. destruct (index_name from k i Hlt) as (d & Hd & _). exists (makeNameRef k (Z.of_nat i)), d.
    split; [done|]. pose proof (count_bound hf from k Hf). by rewrite (substituteName_index s k i) by lia.
Qed.

(** ** One name at a time *)

Section Lazy.
Context (hf h : str -> Z) (from to0 : NameTable) (Hfrom : NameTable_wf hf from).
Context (Hroom : roomFor to0 + 2 * Z.of_nat (length (allNames from)) + 2 <= 2 ^ 29).

Record LazyOk (st : LazyNameSubstitution * NameTable) : Prop := {
  lz_wf : NameTable_wf h st.2;
  lz_contains : contains to0 st.2;
  lz_none : nameSubstitution st.1 !! noName = Some noName;
  lz_same r r' : nameSubstitution st.1 !! r = Some r' -> r <> noName -> sameName from st.2 r r';
  lz_room : roomFor st.2 <= roomFor to0 + 2 * Z.of_nat (size (nameSubstitution st.1)) }.

Lemma sameName_from to r r' : sameName from to r r' -> exists d, (r, d) ∈ allNames from.
Proof. destruct 1; by eexists. Qed.

Lemma name_nonzero r d : (r, d) ∈ allNames from -> r <> noName.
Proof. intros H. by destruct (allNames_data hf from r d Hfrom H). Qed.

(** There is room for a name that is not in the map. *)
Lemma lazy_room st r d : LazyOk st -> (r, d) ∈ allNames from -> nameSubstitution st.1 !! r = None -> roomFor st.2 <= 2 ^ 29.
Proof.
  intros Hst Hr Hn. pose proof (lz_room _ Hst). enough (size (nameSubstitution st.1) <= S (length (allNames from)))%nat by lia.
  assert (Hsub : (map_to_list (nameSubstitution st.1)).*1 ⊆ noName :: (allNames from).*1).
  { intros x Hx. apply list_elem_of_fmap in Hx as ([? y] & -> & Hy%elem_of_map_to_list). cbn. apply elem_of_cons.
    destruct (decide (z = noName)) as [->|Hx]; [by left|right].
    destruct (sameName_from _ _ _ (lz_same _ Hst z y Hy Hx)) as [dx Hdx]. apply list_elem_of_fmap. by exists (z, dx). }
  pose proof (submseteq_length _ _ (NoDup_submseteq _ _ (NoDup_fst_map_to_list _) Hsub)) as Hl. cbn in Hl. rewrite !length_fmap, length_map_to_list in Hl. done.
Qed.

Record lazyGrown (st st' : LazyNameSubstitution * NameTable) : Prop := {
  lg_contains : contains st.2 st'.2;
  lg_map : nameSubstitution st.1 ⊆ nameSubstitution st'.1;
  lg_acc : acc_nameHashes st'.1 = acc_nameHashes st.1 }.

Lemma lazyGrown_refl st : lazyGrown st st.
Proof. split; [by intros r d| |]; reflexivity. Qed.

(** What a new entry of the map adds *)
Lemma lazy_define st st1 r d d' : LazyOk st1 -> lazyGrown st st1 -> (r, d) ∈ allNames from -> nameSubstitution st.1 !! r = None ->
  (nameSubstitution st1.1 !! r = None) ->
  (forall to', contains st1.2 to' -> (forall x, (x, d') ∈ allNames to' -> sameName from to' r x)) ->
  exists r' to', enterName h st1.2 d' = Some (r', to') /\ let st' := (mkLazySubst (<[r := r']> (nameSubstitution st1.1)) (acc_nameHashes st1.1), to') in
    LazyOk st' /\ lazyGrown st st' /\ sameName from to' r r'.
Proof.
  intros Hst1 [Hc Hm Ha] Hr Hn Hn1 Hsame. destruct (enter_more h st1.2 d' (lz_wf _ Hst1)) as (x & to' & E & Hwf & Hc' & Hin & Hnew & Hroom'); [by eapply lazy_room|].
  exists x, to'. split; [done|]. split; [|split].
  - split; cbn.
    + done.
    + intros y dy Hy. by apply Hc', (lz_contains _ Hst1).
    + rewrite lookup_insert_ne by (by eapply name_nonzero). apply (lz_none _ Hst1).
    + intros y y' Hy Hne. destruct (decide (y = r)) as [->|Hyr].
      * rewrite lookup_insert_eq in Hy. simplify_eq. by apply Hsame.
      * rewrite lookup_insert_ne in Hy by done. eapply sameName_mono; [done|by apply (lz_same _ Hst1)].
    + rewrite map_size_insert, Hn1. pose proof (lz_room _ Hst1). lia.
  - split; cbn; [intros y dy Hy; by apply Hc', Hc| |done]. transitivity (nameSubstitution st1.1); [done|]. by apply insert_subseteq.
  - by apply Hsame.
Qed.

(** The names that a substitution adds to the map are those on the way to a string. *)
Definition addedBelow (n : nat) (st st' : LazyNameSubstitution * NameTable) : Prop :=
  forall x, is_Some (nameSubstitution st'.1 !! x) -> is_Some (nameSubstitution st.1 !! x) \/ exists m, (m <= n)%nat /\ grounded from x m.

Definition lazyResult (st : LazyNameSubstitution * NameTable) (n : nat) (r : Z) (res : option (Z * (LazyNameSubstitution * NameTable))) : Prop :=
  exists r' st', res = Some (r', st') /\ LazyOk st' /\ lazyGrown st st' /\ sameName from st'.2 r r' /\ addedBelow n st st'.

Lemma lazy_known fuel st n r r' d : LazyOk st -> nameSubstitution st.1 !! r = Some r' -> (r, d) ∈ allNames from ->
  lazyResult st n r (lazySubstitute_loop h fuel from r st).
Proof.
  intros Hst Hx Hd. exists r', st. split_and!; [destruct fuel; cbn; by rewrite Hx|done|apply lazyGrown_refl| |by intros ? ?; left].
  apply (lz_same _ Hst); [done|by eapply name_nonzero].
Qed.

(** A derived name, after the one it is derived from *)
Lemma lazy_derived st st1 n r d d' o o' : grounded from r (S n) -> (r, d) ∈ allNames from -> nameSubstitution st.1 !! r = None ->
  LazyOk st1 -> lazyGrown st st1 -> sameName from st1.2 o o' -> addedBelow n st st1 ->
  (forall to' x, (x, d') ∈ allNames to' -> sameName from to' o o' -> sameName from to' r x) ->
  exists r' to', enterName h st1.2 d' = Some (r', to') /\
    lazyResult st (S n) r (Some (r', (mkLazySubst (<[r := r']> (nameSubstitution st1.1)) (acc_nameHashes st1.1), to'))).
Proof.
  intros Hg Hr Hn Hst1 Hgr Hso Hadd Hsame.
  assert (Hn1 : nameSubstitution st1.1 !! r = None).
  { apply eq_None_not_Some. intros Hs. destruct (Hadd r Hs) as [[x Hx]|(m & Hm & Hgm)]; [congruence|]. pose proof (grounded_depth hf from r _ _ Hfrom Hg Hgm). lia. }
  destruct (lazy_define st st1 r d d' Hst1 Hgr Hr Hn Hn1) as (r' & to' & E & Hok & Hg' & Hs').
  { intros to' Hc x Hx. apply Hsame; [done|by eapply sameName_mono]. }
  exists r', to'. split; [done|]. exists r', (mkLazySubst (<[r := r']> (nameSubstitution st1.1)) (acc_nameHashes st1.1), to'). split_and!; try done.
  intros x Hx. cbn in Hx. destruct (decide (x = r)) as [->|Hne]; [right; by exists (S n)|]. rewrite lookup_insert_ne in Hx by done.
  destruct (Hadd x Hx) as [?|(m & ? & ?)]; [by left|right; exists m; split; [lia|done]].
Qed.

Lemma lazySubstitute_ok r n : grounded from r n -> forall fuel st, (n < fuel)%nat -> LazyOk st -> lazyResult st n r (lazySubstitute_loop h fuel from r st).
Proof.
  intros Hg. pose proof Hg as Hg0. induction Hg as [r s Hr|r u n Hr Hg IH|r o n Hr Hg IH]; intros fuel st Hf Hst;
    (destruct (nameSubstitution st.1 !! r) as [r'|] eqn:Hn; [by eapply lazy_known|]); (destruct fuel as [|fuel]; [lia|]);
    destruct (allNames_data hf from _ _ Hfrom Hr) as (_ & _ & Hk & Hd); cbn [lazySubstitute_loop]; rewrite Hn, Hk; cbn [mbind option_bind]; rewrite Hd; cbn [mbind option_bind].
  - destruct (lazy_define st st r (NUtf8 s) (NUtf8 s) Hst) as (r' & to' & E & Hok & Hgr & Hs); [apply lazyGrown_refl|done|done|done| |].
    { intros to' _ x Hx. by eapply same_utf8. }
    cbn in E. rewrite E. cbn. eexists _, _. split_and!; [done|done|done|done|].
    intros x Hx. cbn in Hx. destruct (decide (x = r)) as [->|Hne]; [right; by exists O|]. rewrite lookup_insert_ne in Hx by done. by left.
  - destruct (IH Hg fuel st) as (o' & [s1 to1] & E1 & Hok1 & Hgr1 & Hs1 & Ha1); [lia|done|]. rewrite E1. cbn [mbind option_bind].
    destruct (lazy_derived st (s1, to1) n r _ (NUnique (mkUniqueName o' (un_num u) (un_kind u))) (un_original u) o' Hg0 Hr Hn Hok1 Hgr1 Hs1 Ha1) as (r' & to' & E & Hres).
    { intros to' x Hx Ho. by eapply same_unique. }
    cbn in E. rewrite E. exact Hres.
  - destruct (IH Hg fuel st) as (o' & [s1 to1] & E1 & Hok1 & Hgr1 & Hs1 & Ha1); [lia|done|]. rewrite E1. cbn [mbind option_bind].
    destruct (lazy_derived st (s1, to1) n r _ (NConstant o') o o' Hg0 Hr Hn Hok1 Hgr1 Hs1 Ha1) as (r' & to' & E & Hres).
    { intros to' x Hx Ho. by eapply same_constant. }
    cbn in E. rewrite E. exact Hres.
Qed.
End Lazy.

Lemma lazyOk_new h from to : NameTable_wf h to -> LazyOk h from to (newLazySubst, to).
Proof.
  intros Ht. split; cbn; [done|by intros r d|apply lookup_insert_eq| |rewrite map_size_insert, lookup_empty, map_size_empty; lia].
  intros r r' Hr Hne. by rewrite lookup_insert_ne in Hr by done.
Qed.

(** The answers to a sequence of requests *)
Fixpoint lazySubstituteAll (h : str -> Z) (from : NameTable) (rs : list Z) (st : LazyNameSubstitution * NameTable)
    : option (list Z * (LazyNameSubstitution * NameTable)) :=
  match rs with
  | [] => Some ([], st)
  | r :: rs => '(r', st) ← lazySubstitute h from r st; '(rs', st) ← lazySubstituteAll h from rs st; Some (r' :: rs', st)
  end.

Lemma lazySubstituteAll_ok hf h from to0 rs : NameTable_wf hf from -> all_grounded from ->
  roomFor to0 + 2 * Z.of_nat (length (allNames from)) + 2 <= 2 ^ 29 -> Forall (fun r => exists d, (r, d) ∈ allNames from) rs ->
  forall st, LazyOk h from to0 st -> exists rs' st', lazySubstituteAll h from rs st = Some (rs', st') /\ LazyOk h from to0 st' /\ lazyGrown st st' /\ Forall2 (sameName from st'.2) rs rs'.
Proof.
  intros Hf Hg Hroom Hrs. induction Hrs as [|r rs [d Hd] _ IH]; intros st Hst.
  { exists [], st. split_and!; [done|done|apply lazyGrown_refl|constructor]. }
  destruct (Hg r d Hd) as [n Hn]. pose proof (grounded_bound hf from r n Hf Hn) as Hb.
  destruct (lazySubstitute_ok hf h from to0 Hf Hroom r n Hn (chainFuel from) st Hb Hst) as (r' & st1 & E1 & Hok1 & Hg1 & Hs1 & _).
  destruct (IH st1 Hok1) as (rs' & st2 & E2 & Hok2 & Hg2 & Hs2). exists (r' :: rs'), st2. split_and!; [|done| |].
  - cbn. unfold lazySubstitute. rewrite E1. cbn. by rewrite E2.
  - split; [intros x dx Hx; by apply (lg_contains _ _ Hg2), (lg_contains _ _ Hg1)|etransitivity; [apply (lg_map _ _ Hg1)|apply (lg_map _ _ Hg2)]|].
    by rewrite (lg_acc _ _ Hg2), (lg_acc _ _ Hg1).
  - constructor; [|done]. eapply sameName_mono; [apply (lg_contains _ _ Hg2)|done].
Qed.

(** C22: lazy substitution of names. When every name of a table goes back to a string, and another table has
    room for them, any sequence of requests for names of the first succeeds, with recursion to the string of each
    name; the other table only grows, and every answer is derived in the same way from the same string as the name that was asked
    for, in the table as it is at the end; equal requests have equal answers. *)
Theorem lazy_substitution_correct hf h from to rs : NameTable_wf hf from -> all_grounded from -> NameTable_wf h to ->
  roomFor to + 2 * Z.of_nat (length (allNames from)) + 2 <= 2 ^ 29 -> Forall (fun r => exists d, (r, d) ∈ allNames from) rs ->
  exists rs' st', lazySubstituteAll h from rs (newLazySubst, to) = Some (rs', st') /\ NameTable_wf h st'.2 /\ contains to st'.2 /\
    Forall2 (sameName from st'.2) rs rs' /\ (forall i j r, rs !! i = Some r -> rs !! j = Some r -> rs' !! i = rs' !! j).
Proof.
  intros Hf Hg Ht Hroom Hrs. destruct (lazySubstituteAll_ok hf h from to rs Hf Hg Hroom Hrs (newLazySubst, to)) as (rs' & st' & E & Hok & Hgr & Hs).
  { by apply lazyOk_new. }
  exists rs', st'. split_and!; [done|apply (lz_wf _ _ _ _ Hok)|apply (lz_contains _ _ _ _ Hok)|done|].
  intros i j r Hi Hj. destruct (Forall2_lookup_l _ _ _ _ _ Hs Hi) as (x & Hx & Sx), (Forall2_lookup_l _ _ _ _ _ Hs Hj) as (y & Hy & Sy).
  rewrite Hx, Hy. f_equal. eapply (sameName_functional hf h from st'.2); [done|apply (lz_wf _ _ _ _ Hok)|done|done].
Qed.

(** ** Hashes and texts do not depend on the table *)

Section Portable.
Context (hf h : str -> Z) (from to : NameTable) (Hfrom : NameTable_wf hf from) (Hto : NameTable_wf h to).

Lemma sameName_grounded r r' : sameName from to r r' -> exists n, grounded from r n /\ grounded to r' n.
Proof.
  induction 1 as [r r' s H1 H2|r r' o o' H1 H2 _ (n & G1 & G2)|r r' u o' H1 H2 _ (n & G1 & G2)].
  - exists O. split; by eapply grounded_utf8.
  - exists (S n). split; by eapply grounded_constant.
  - exists (S n). split; eapply grounded_unique; done.
Qed.

(** Functions that follow the chain of a name give the same with any fuel above its length. *)
Lemma portable_fuel hs r r' : sameName from to r r' -> forall n f f', grounded from r n -> (n < f)%nat -> (n < f')%nat ->
  hashFullNameRef hs from f r = hashFullNameRef hs to f' r' /\ hashNameRefWithoutUniques hs f from r = hashNameRefWithoutUniques hs f' to r' /\
  shortName_loop from f r = shortName_loop to f' r'.
Proof.
  induction 1 as [r r' s H1 H2|r r' o o' H1 H2 Hs IH|r r' u o' H1 H2 Hs IH]; intros n f f' Hg Hf Hf'; (destruct f as [|f]; [lia|]); (destruct f' as [|f']; [lia|]);
    destruct (allNames_data hf from _ _ Hfrom H1) as (_ & _ & K1 & D1); destruct (allNames_data h to _ _ Hto H2) as (_ & _ & K2 & D2);
    cbn [hashFullNameRef hashNameRefWithoutUniques shortName_loop]; rewrite K1, K2; cbn [mbind option_bind]; rewrite D1, D2; cbn [mbind option_bind]; [done|..];
    destruct (sameName_grounded _ _ Hs) as (m & Gm & _).
  - pose proof (grounded_depth hf from r _ _ Hfrom Hg (grounded_constant _ _ _ _ H1 Gm)) as ->. destruct (IH m f f' Gm ltac:(lia) ltac:(lia)) as (E1 & E2 & E3). by rewrite E1, E2, E3.
  - pose proof (grounded_depth hf from r _ _ Hfrom Hg (grounded_unique _ _ _ _ H1 Gm)) as ->. destruct (IH m f f' Gm ltac:(lia) ltac:(lia)) as (E1 & E2 & E3).
    cbn [un_original un_num un_kind]. by rewrite E1, E2, E3.
Qed.
End Portable.

(** C10: the hashes and the text of a name do not depend on the table: a name and its substitute have the same full hash, by which the
    namer deletes definitions, the same hash without unique names, by which the users of a name are found, and the same short name. *)
Theorem name_hashes_portable hf h hs from to r r' : NameTable_wf hf from -> NameTable_wf h to -> sameName from to r r' ->
  is_Some (fullNameHash hs from r) /\ fullNameHash hs from r = fullNameHash hs to r' /\ withoutUniqueNameHash hs from r = withoutUniqueNameHash hs to r' /\
  shortName from r = shortName to r'.
Proof.
  intros Hf Ht Hs. destruct (sameName_grounded from to r r' Hs) as (n & G1 & G2). pose proof (grounded_bound hf from r n Hf G1) as B1. pose proof (grounded_bound h to r' n Ht G2) as B2.
  destruct (portable_fuel hf h from to Hf Ht hs r r' Hs n (chainFuel from) (chainFuel to) G1 B1 B2) as (E1 & E2 & E3).
  unfold fullNameHash, withoutUniqueNameHash, shortName. rewrite <- E1, E2, E3. split_and!; [|done|done|done].
  destruct (hashFull_total hs hf from r n (chainFuel from) Hf G1 B1) as [x Hx]. by rewrite Hx.
Qed.

(** ** Examples *)

Definition fiveHash (s : str) : Z := 5.

(** A constant over a string, a unique name over the constant, a constant over that, and a unique name over the second constant *)
Definition sampleNames : list NameData :=
  [NUtf8 s! "foo"; NConstant (makeNameRef UTF8 0); NUnique (mkUniqueName (makeNameRef CONSTANT 0) 1 TEnum);
   NConstant (makeNameRef UNIQUE 0); NUnique (mkUniqueName (makeNameRef CONSTANT 1) 2 Namer)].

Definition sampleFrom (n : nat) : NameTable :=
  default (emptyTable 4 4 4) (foldM (fun nt d => snd <$> enterName fiveHash nt d) (emptyTable 4 4 4) (take n sampleNames)).

Lemma sampleFrom_step n d raw : NameTable_wf fiveHash (sampleFrom n) /\ linear (sampleFrom n) /\ all_grounded (sampleFrom n) ->
  capacities (sampleFrom n) <= 2 ^ 29 -> original_known (sampleFrom n) d -> enterName fiveHash (sampleFrom n) d = Some (raw, sampleFrom (S n)) ->
  NameTable_wf fiveHash (sampleFrom (S n)) /\ linear (sampleFrom (S n)) /\ all_grounded (sampleFrom (S n)).
Proof.
  intros (Hwf & Hl & Hg) Hc Ho E. destruct (enter_spec fiveHash _ d Hwf Hc) as (raw' & nt' & E' & Hint). rewrite E in E'. injection E' as <- <-.
  split_and!; [apply Hint|by eapply linear_enter|by eapply all_grounded_enter].
Qed.

Ltac sample_step d raw :=
  apply (sampleFrom_step _ d raw); [|vm_compute; discriminate|try done; eexists; apply list_elem_of_In; vm_compute; eauto 10|vm_compute; reflexivity].

Lemma sampleFrom_ok : NameTable_wf fiveHash (sampleFrom 5) /\ linear (sampleFrom 5) /\ all_grounded (sampleFrom 5).
Proof.
  sample_step (NUnique (mkUniqueName (makeNameRef CONSTANT 1) 2 Namer)) (makeNameRef UNIQUE 1). sample_step (NConstant (makeNameRef UNIQUE 0)) (makeNameRef CONSTANT 1).
  sample_step (NUnique (mkUniqueName (makeNameRef CONSTANT 0) 1 TEnum)) (makeNameRef UNIQUE 0). sample_step (NConstant (makeNameRef UTF8 0)) (makeNameRef CONSTANT 0).
  sample_step (NUtf8 s! "foo") (makeNameRef UTF8 0).
  split_and!; [apply emptyTable_wf; lia| |apply emptyTable_grounded]. exists (fun _ => O). split; [intros [] i j H; cbn in H; lia|by intros r d o ?%not_elem_of_nil].
Qed.

(** Into a table that has the string already *)
Definition sampleTo : NameTable := sampleFrom 1.

Lemma sampleTo_wf : NameTable_wf fiveHash sampleTo.
Proof.
  unfold sampleTo. apply (sampleFrom_step 0 (NUtf8 s! "foo") (makeNameRef UTF8 0)); [|vm_compute; discriminate|done|vm_compute; reflexivity].
  split_and!; [apply emptyTable_wf; lia| |apply emptyTable_grounded]. exists (fun _ => O). split; [intros [] i j H; cbn in H; lia|by intros r d o ?%not_elem_of_nil].
Qed.

Lemma name_substitution_correct_witness : exists s to' r', newNameSubstitution fiveHash (sampleFrom 5) sampleTo = Some (s, to') /\
  substituteName s (makeNameRef UNIQUE 1) = Some r' /\ sameName (sampleFrom 5) to' (makeNameRef UNIQUE 1) r'.
Proof.
  destruct (name_substitution_correct fiveHash fiveHash (sampleFrom 5) sampleTo (proj1 sampleFrom_ok) (proj1 (proj2 sampleFrom_ok)) sampleTo_wf) as (s & to' & E & _ & _ & Hsub & _);
    [vm_compute; discriminate|].
  destruct (Hsub (makeNameRef UNIQUE 1) (NUnique (mkUniqueName (makeNameRef CONSTANT 1) 2 Namer))) as (r' & E' & Hs); [apply list_elem_of_In; vm_compute; eauto 10|].
  exists s, to', r'. split; [exact E|]. split; [exact E'|exact Hs].
Defined.

Lemma lazy_substitution_correct_witness : exists rs' st', lazySubstituteAll fiveHash (sampleFrom 5) [makeNameRef UNIQUE 1; makeNameRef UNIQUE 1] (newLazySubst, sampleTo) = Some (rs', st') /\
  Forall2 (sameName (sampleFrom 5) st'.2) [makeNameRef UNIQUE 1; makeNameRef UNIQUE 1] rs'.
Proof.
  destruct (lazy_substitution_correct fiveHash fiveHash (sampleFrom 5) sampleTo [makeNameRef UNIQUE 1; makeNameRef UNIQUE 1]
    (proj1 sampleFrom_ok) (proj2 (proj2 sampleFrom_ok)) sampleTo_wf) as (rs' & st' & E & _ & _ & Hs & _); [vm_compute; discriminate| |].
  { repeat constructor; exists (NUnique (mkUniqueName (makeNameRef CONSTANT 1) 2 Namer)); apply list_elem_of_In; vm_compute; eauto 10. }
  exists rs', st'. split; [exact E|exact Hs].
Defined.

Lemma name_hashes_portable_witness : fullNameHash fiveHash (sampleFrom 5) (makeNameRef UTF8 0) = fullNameHash fiveHash sampleTo (makeNameRef UTF8 0).
Proof.
  apply (name_hashes_portable fiveHash fiveHash fiveHash (sampleFrom 5) sampleTo (makeNameRef UTF8 0) (makeNameRef UTF8 0) (proj1 sampleFrom_ok) sampleTo_wf).
  apply (same_utf8 _ _ _ _ s! "foo"); apply list_elem_of_In; vm_compute; eauto 10.
Defined.
