(* ===== verification/AstSubst.v ===== *)
(** * Substitution of the names of a tree

    Models src/ast/substitute: the walk that rewrites a tree from the names of one global state to those of another. It is
    written against the class [Substituter], the interface that [NameSubstitution] and [LazyNameSubstitution] share;
    the template parameter of [SubstWalk] in the source. [TreeWalk] of src/ast/treemap/treemap.h changes the tree in place;
    here every function returns the new tree. References of well-known names, and the table of the methods that intrinsic methods
    dispatch to, are arguments. [None] is an exception. *)

From S2P Require Import Prelude FileHash Files Locs Types NameTable NameText Symbols Ast NameSubst.

#[local] Open Scope Z_scope.

(** ** The interface *)

Class Substituter (St : Type) := {
  substitute_ : Z -> St -> option (Z * St);
  substituteSymbolName : Z -> St -> option (Z * St) }.

(** [NameSubstitution] never changes. *)
#[export] Instance eagerSubstituter : Substituter NameSubstitution := {|
  substitute_ from s := to ← substituteName s from; Some (to, s);
  substituteSymbolName from s := to ← substituteName s from; Some (to, s) |}.

Definition lazySubstituter (hashString xxh32 : str -> Z) (fromGS : NameTable) : Substituter (LazyNameSubstitution * NameTable) := {|
  substitute_ := lazySubstitute xxh32 fromGS;
  substituteSymbolName := lazySubstituteSymbolName hashString xxh32 fromGS |}.

(** ** The walk *)

(** [aliasMethod] and the four names of calls with splats and the like; [dispatchTargets] are the values of [intrinsicMethodsDispatchMap] *)
Record SubstNames := mkSubstNames { wn_aliasMethod : Z; wn_calls : list Z; dispatchTargets : list (list Z) }.

Section Walk.
Context {St : Type} `{Substituter St} (wn : SubstNames).

(** A parameter is a local variable in any number of wrappers. *)
Fixpoint substArg (arg : Expr) (st : St) : option (Expr * St) :=
  match arg with
  | RestParam loc expr => '(expr, st) ← substArg expr st; Some (RestParam loc expr, st)
  | KeywordArg loc expr => '(expr, st) ← substArg expr st; Some (KeywordArg loc expr, st)
  | OptionalParam loc expr default_ => '(expr, st) ← substArg expr st; Some (OptionalParam loc expr default_, st)
  | BlockParam loc expr => '(expr, st) ← substArg expr st; Some (BlockParam loc expr, st)
  | ShadowArg loc expr => '(expr, st) ← substArg expr st; Some (ShadowArg loc expr, st)
  | Local loc name unique => '(name, st) ← substitute_ name st; Some (Local loc name unique, st)
  | _ => None
  end.

(** [noName] for all but names *)
Definition unwrapLiteralToName (arg : Expr) : Z := match arg with Literal _ (NamedLiteralType _ name) => name | _ => noName end.

(** The substitute is not used. *)
Definition noteName (name : Z) (st : St) : option St := snd <$> substituteSymbolName name st.

Definition noteArg (args : list Expr) (i : nat) (st : St) : option St :=
  arg ← args !! i;
  if unwrapLiteralToName arg =? noName then Some st else noteName (unwrapLiteralToName arg) st.

(** [preTransformSend]: the name of the method *)
Definition substSend (fun_ : Z) (numPosArgs : Z) (args : list Expr) (st : St) : option (Z * St) :=
  st ← (if fun_ =? wn_aliasMethod wn then
          st ← (if 0 <? numPosArgs then noteArg args 0 st else Some st);
          if 1 <? numPosArgs then noteArg args 1 st else Some st
        else if bool_decide (fun_ ∈ wn_calls wn) then arg ← args !! 1%nat; noteName (unwrapLiteralToName arg) st
        else Some st);
  '(fun_, st) ← substituteSymbolName fun_ st;
  st ← foldM (fun st targets => foldM (fun st target => noteName target st) st targets) st (dispatchTargets wn);
  Some (fun_, st).

(** [postTransformLiteral] *)
Definition substLiteral (value : TypePtr) (st : St) : option (TypePtr * St) :=
  match value with
  | NamedLiteralType kind name =>
      if name =? noName then Some (value, st)
      else '(newName, st) ← substitute_ name st; Some (if newName =? name then value else NamedLiteralType kind newName, st)
  | _ => Some (value, st)
  end.

(** A loop over nodes *)
Definition substEach (f : Expr -> St -> option (Expr * St)) : list Expr -> St -> option (list Expr * St) :=
  fix each (l : list Expr) (st : St) : option (list Expr * St) :=
    match l with
    | [] => Some ([], st)
    | x :: l => '(x, st) ← f x st; '(l, st) ← each l st; Some (x :: l, st)
    end.

(** Only optional parameters have subexpressions; [params] are the parameters before [substArg], [params'] those after. *)
Definition substDefaults (f : Expr -> St -> option (Expr * St)) : list Expr -> list Expr -> St -> option (list Expr * St) :=
  fix each (params params' : list Expr) (st : St) : option (list Expr * St) :=
    match params, params' with
    | param :: params, param' :: params' =>
        '(param', st) ← match param, param' with
                        | OptionalParam _ _ default_, OptionalParam loc expr _ => '(default_, st) ← f default_ st; Some (OptionalParam loc expr default_, st)
                        | _, _ => Some (param', st)
                        end;
        '(params', st) ← each params params' st;
        Some (param' :: params', st)
    | _, _ => Some (params', st)
    end.

(** [substClassName]: the scopes of a constant, from the inside; [f] is the walk. *)
Definition substClassName (f : Expr -> St -> option (Expr * St)) : Expr -> St -> option (Expr * St) :=
  fix go (node : Expr) (st : St) : option (Expr * St) :=
    match node with
    | UnresolvedConstantLit loc cnst scope =>
        '(cnst, st) ← substituteSymbolName cnst st;
        '(scope, st) ← go scope st;
        Some (UnresolvedConstantLit loc cnst scope, st)
    | EmptyTree => Some (node, st)
    | _ => f node st
    end.

(** [TreeWalk::apply] of [SubstWalk] *)
Fixpoint substNode (v : Expr) (st : St) {struct v} : option (Expr * St) :=
  match v with
  | NullTree | EmptyTree | ZSuperArgs _ | Retry _ | Self _ | KnownConstantLit _ _ | ResolvedConstantLit _ _ _ _ | FailedConstantLit _ _ _ _ => Some (v, st)
  | Send loc fun_ funLoc flags numPosArgs recv args =>
      '(fun_, st) ← substSend fun_ numPosArgs args st;
      '(recv, st) ← substNode recv st;
      '(args, st) ← substEach substNode args st;
      Some (Send loc fun_ funLoc flags numPosArgs recv args, st)
  | ClassDef loc declLoc symbol kind rhs name ancestors singletonAncestors =>
      '(name, st) ← substClassName substNode name st;
      '(ancestors, st) ← substEach (substClassName substNode) ancestors st;
      '(rhs, st) ← substEach substNode rhs st;
      Some (ClassDef loc declLoc symbol kind rhs name ancestors singletonAncestors, st)
  | MethodDef loc declLoc nameLoc symbol rhs params name flags =>
      '(name, st) ← substituteSymbolName name st;
      '(params', st) ← substEach substArg params st;
      '(params', st) ← substDefaults substNode params params' st;
      '(rhs, st) ← substNode rhs st;
      Some (MethodDef loc declLoc nameLoc symbol rhs params' name flags, st)
  | If loc cond thenp elsep =>
      '(cond, st) ← substNode cond st; '(thenp, st) ← substNode thenp st; '(elsep, st) ← substNode elsep st; Some (If loc cond thenp elsep, st)
  | While loc cond body => '(cond, st) ← substNode cond st; '(body, st) ← substNode body st; Some (While loc cond body, st)
  | Break loc expr => '(expr, st) ← substNode expr st; Some (Break loc expr, st)
  | Next loc expr => '(expr, st) ← substNode expr st; Some (Next loc expr, st)
  | Return loc expr => '(expr, st) ← substNode expr st; Some (Return loc expr, st)
  | RescueCase _ _ _ _ => None
  | Rescue loc body rescueCases else_ ensure =>
      '(body, st) ← substNode body st;
      '(rescueCases, st) ← substEach (fun el st =>
          match el with
          | RescueCase loc exceptions var body =>
              '(exceptions, st) ← substEach substNode exceptions st;
              '(var, st) ← substNode var st;
              '(body, st) ← substNode body st;
              Some (RescueCase loc exceptions var body, st)
          | _ => None
          end) rescueCases st;
      '(else_, st) ← substNode else_ st;
      '(ensure, st) ← substNode ensure st;
      Some (Rescue loc body rescueCases else_ ensure, st)
  | Local loc name unique => '(name, st) ← substitute_ name st; Some (Local loc name unique, st)
  | UnresolvedIdent loc kind name =>
      '(name, st) ← match kind with IdentLocal => substitute_ name st | _ => substituteSymbolName name st end;
      Some (UnresolvedIdent loc kind name, st)
  | RestParam _ _ | KeywordArg _ _ | OptionalParam _ _ _ | BlockParam _ _ | ShadowArg _ _ => None
  | Assign loc lhs rhs => '(lhs, st) ← substNode lhs st; '(rhs, st) ← substNode rhs st; Some (Assign loc lhs rhs, st)
  | Cast loc cast type arg typeExpr =>
      '(arg, st) ← substNode arg st; '(typeExpr, st) ← substNode typeExpr st; Some (Cast loc cast type arg typeExpr, st)
  | Hash loc keys values => '(keys, st) ← substEach substNode keys st; '(values, st) ← substEach substNode values st; Some (Hash loc keys values, st)
  | Array loc elems => '(elems, st) ← substEach substNode elems st; Some (Array loc elems, st)
  | Literal loc value => '(value, st) ← substLiteral value st; Some (Literal loc value, st)
  | UnresolvedConstantLit loc cnst scope =>
      '(cnst, st) ← substituteSymbolName cnst st;
      '(scope, st) ← substClassName substNode scope st;
      Some (UnresolvedConstantLit loc cnst scope, st)
  | Block loc params body =>
      '(params', st) ← substEach substArg params st;
      '(params', st) ← substDefaults substNode params params' st;
      '(body, st) ← substNode body st;
      Some (Block loc params' body, st)
  | InsSeq loc stats expr => '(stats, st) ← substEach substNode stats st; '(expr, st) ← substNode expr st; Some (InsSeq loc stats expr, st)
  | RuntimeMethodDefinition loc name isSelfMethod => '(name, st) ← substitute_ name st; Some (RuntimeMethodDefinition loc name isSelfMethod, st)
  end.
End Walk.
