(* ===== verification/AstSubstProps.v ===== *)
(** * Theorems on the substitution of the names of a tree

    The walk of [AstSubst] renames every name of a tree once. That is proved for every substituter that keeps the laws of [SubstituterLaws]:
    names that it knows have answers, and answers do not change. Both substitutions of [NameSubst] keep them. *)

From S2P Require Import Prelude FileHash Files Locs Types NameTable NameText Symbols Ast NamerDelete NameSubst NameSubstProps AstSubst.

#[local] Open Scope Z_scope.

(** ** Renaming *)

Definition renameLiteral (f : Z -> Z) (value : TypePtr) : TypePtr :=
  match value with NamedLiteralType kind name => if name =? noName then value else NamedLiteralType kind (f name) | _ => value end.

Fixpoint rename (f : Z -> Z) (e : Expr) : Expr :=
  match e with
  | Send loc fun_ funLoc flags numPosArgs recv args => Send loc (f fun_) funLoc flags numPosArgs (rename f recv) (rename f <$> args)
  | ClassDef loc declLoc symbol kind rhs name ancestors singletonAncestors =>
      ClassDef loc declLoc symbol kind (rename f <$> rhs) (rename f name) (rename f <$> ancestors) (rename f <$> singletonAncestors)
  | MethodDef loc declLoc nameLoc symbol rhs params name flags => MethodDef loc declLoc nameLoc symbol (rename f rhs) (rename f <$> params) (f name) flags
  | If loc cond thenp elsep => If loc (rename f cond) (rename f thenp) (rename f elsep)
  | While loc cond body => While loc (rename f cond) (rename f body)
  | Break loc expr => Break loc (rename f expr)
  | Next loc expr => Next loc (rename f expr)
  | Return loc expr => Return loc (rename f expr)
  | RescueCase loc exceptions var body => RescueCase loc (rename f <$> exceptions) (rename f var) (rename f body)
  | Rescue loc body rescueCases else_ ensure => Rescue loc (rename f body) (rename f <$> rescueCases) (rename f else_) (rename f ensure)
  | Local loc name unique => Local loc (f name) unique
  | UnresolvedIdent loc kind name => UnresolvedIdent loc kind (f name)
  | RestParam loc expr => RestParam loc (rename f expr)
  | KeywordArg loc expr => KeywordArg loc (rename f expr)
  | OptionalParam loc expr default_ => OptionalParam loc (rename f expr) (rename f default_)
  | BlockParam loc expr => BlockParam loc (rename f expr)
  | ShadowArg loc expr => ShadowArg loc (rename f expr)
  | Assign loc lhs rhs => Assign loc (rename f lhs) (rename f rhs)
  | Cast loc cast type arg typeExpr => Cast loc cast type (rename f arg) (rename f typeExpr)
  | Hash loc keys values => Hash loc (rename f <$> keys) (rename f <$> values)
  | Array loc elems => Array loc (rename f <$> elems)
  | Literal loc value => Literal loc (renameLiteral f value)
  | UnresolvedConstantLit loc cnst scope => UnresolvedConstantLit loc (f cnst) (rename f scope)
  | Block loc params body => Block loc (rename f <$> params) (rename f body)
  | InsSeq loc stats expr => InsSeq loc (rename f <$> stats) (rename f expr)
  | RuntimeMethodDefinition loc name isSelfMethod => RuntimeMethodDefinition loc (f name) isSelfMethod
  | _ => e
  end.

(** The names of a call that are looked up among the members of classes: its method, the methods that aliases and calls with splats name by
    a literal, and those that intrinsic methods dispatch to *)
Definition literalNames (arg : option Expr) : list (bool * Z) :=
  match arg with Some arg => if unwrapLiteralToName arg =? noName then [] else [(true, unwrapLiteralToName arg)] | None => [] end.

Definition sendNames (wn : SubstNames) (fun_ numPosArgs : Z) (args : list Expr) : list (bool * Z) :=
  (if fun_ =? wn_aliasMethod wn then
     (if 0 <? numPosArgs then literalNames (args !! 0%nat) else []) ++ (if 1 <? numPosArgs then literalNames (args !! 1%nat) else [])
   else if bool_decide (fun_ ∈ wn_calls wn) then literalNames (args !! 1%nat) else []) ++
  (true, fun_) :: flat_map (map (pair true)) (dispatchTargets wn).

(** The names of a tree, with whether they name a symbol *)
Fixpoint treeNames (wn : SubstNames) (e : Expr) : list (bool * Z) :=
  match e with
  | Send _ fun_ _ _ numPosArgs recv args => sendNames wn fun_ numPosArgs args ++ treeNames wn recv ++ flat_map (treeNames wn) args
  | ClassDef _ _ _ _ rhs name ancestors _ => treeNames wn name ++ flat_map (treeNames wn) ancestors ++ flat_map (treeNames wn) rhs
  | MethodDef _ _ _ _ rhs params name _ => (true, name) :: flat_map (treeNames wn) params ++ treeNames wn rhs
  | If _ a b c => treeNames wn a ++ treeNames wn b ++ treeNames wn c
  | While _ a b | Assign _ a b | Cast _ _ _ a b | OptionalParam _ a b => treeNames wn a ++ treeNames wn b
  | Break _ a | Next _ a | Return _ a | RestParam _ a | KeywordArg _ a | BlockParam _ a | ShadowArg _ a => treeNames wn a
  | RescueCase _ exceptions var body => flat_map (treeNames wn) exceptions ++ treeNames wn var ++ treeNames wn body
  | Rescue _ body rescueCases else_ ensure => treeNames wn body ++ flat_map (treeNames wn) rescueCases ++ treeNames wn else_ ++ treeNames wn ensure
  | Local _ name _ | RuntimeMethodDefinition _ name _ => [(false, name)]
  | UnresolvedIdent _ kind name => [(match kind with IdentLocal => false | _ => true end, name)]
  | Hash _ keys values => flat_map (treeNames wn) keys ++ flat_map (treeNames wn) values
  | Array _ elems => flat_map (treeNames wn) elems
  | Literal _ (NamedLiteralType _ name) => if name =? noName then [] else [(false, name)]
  | UnresolvedConstantLit _ cnst scope => (true, cnst) :: treeNames wn scope
  | Block _ params body => flat_map (treeNames wn) params ++ treeNames wn body
  | InsSeq _ stats expr => flat_map (treeNames wn) stats ++ treeNames wn expr
  | _ => []
  end.

(** Trees before the namer: parameters are wrapped local variables, constants are not resolved, clauses of a rescue are nowhere else,
    calls have the arguments that desugaring gave them. *)
Fixpoint innerParam (p : Expr) : bool :=
  match p with
  | Local _ _ _ => true
  | RestParam _ e | KeywordArg _ e | BlockParam _ e | ShadowArg _ e => innerParam e
  | _ => false
  end.

Definition sendOk (wn : SubstNames) (fun_ numPosArgs : Z) (args : list Expr) : bool :=
  if fun_ =? wn_aliasMethod wn then numPosArgs <=? Z.of_nat (length args)
  else if bool_decide (fun_ ∈ wn_calls wn) then match args !! 1%nat with Some arg => negb (unwrapLiteralToName arg =? noName) | None => false end
  else true.

Fixpoint walkable (wn : SubstNames) (e : Expr) : bool :=
  match e with
  | Send _ fun_ _ _ numPosArgs recv args => sendOk wn fun_ numPosArgs args && walkable wn recv && forallb (walkable wn) args
  | ClassDef _ _ _ _ rhs name ancestors singletonAncestors =>
      walkable wn name && forallb (walkable wn) ancestors && forallb (walkable wn) rhs && match singletonAncestors with [] => true | _ => false end
  | MethodDef _ _ _ _ rhs params _ _ =>
      forallb (fun p => match p with OptionalParam _ e d => innerParam e && walkable wn d | _ => innerParam p end) params && walkable wn rhs
  | If _ a b c => walkable wn a && walkable wn b && walkable wn c
  | While _ a b | Assign _ a b | Cast _ _ _ a b => walkable wn a && walkable wn b
  | Break _ a | Next _ a | Return _ a => walkable wn a
  | Rescue _ body rescueCases else_ ensure =>
      walkable wn body &&
      forallb (fun c => match c with RescueCase _ xs v b => forallb (walkable wn) xs && walkable wn v && walkable wn b | _ => false end) rescueCases &&
      walkable wn else_ && walkable wn ensure
  | Hash _ keys values => forallb (walkable wn) keys && forallb (walkable wn) values
  | Array _ elems => forallb (walkable wn) elems
  | UnresolvedConstantLit _ _ scope => walkable wn scope
  | Block _ params body =>
      forallb (fun p => match p with OptionalParam _ e d => innerParam e && walkable wn d | _ => innerParam p end) params && walkable wn body
  | InsSeq _ stats expr => forallb (walkable wn) stats && walkable wn expr
  | RescueCase _ _ _ _ | RestParam _ _ | KeywordArg _ _ | OptionalParam _ _ _ | BlockParam _ _ | ShadowArg _ _
  | ResolvedConstantLit _ _ _ _ | FailedConstantLit _ _ _ _ => false
  | _ => true
  end.

(** ** Substituters *)

(** [answer st r] is what [r] has been, and will be, substituted by; [records st r] that [r] was noted as the name of a symbol. *)
Definition grows {St} (answer : St -> Z -> option Z) (records : St -> Z -> Prop) (st st' : St) : Prop :=
  (forall x y, answer st x = Some y -> answer st' x = Some y) /\ (forall x, records st x -> records st' x).

Class SubstituterLaws (St : Type) `{Substituter St} (ok : St -> Prop) (knows : Z -> Prop) (answer : St -> Z -> option Z) (records : St -> Z -> Prop) : Prop := {
  law_substitute r st : ok st -> knows r -> exists r' st', substitute_ r st = Some (r', st') /\ ok st' /\ grows answer records st st' /\ answer st' r = Some r';
  law_symbolName r st : ok st -> knows r ->
    exists r' st', substituteSymbolName r st = Some (r', st') /\ ok st' /\ grows answer records st st' /\ answer st' r = Some r' /\ records st' r }.

Section Walk.
Context {St : Type} `{HS : Substituter St} (ok : St -> Prop) (knows : Z -> Prop) (answer : St -> Z -> option Z) (records : St -> Z -> Prop).
Context {HL : SubstituterLaws St ok knows answer records} (wn : SubstNames).

#[local] Notation "'grow'" := (grows answer records).
#[local] Notation "'Known'" := (Forall (fun x : bool * Z => knows x.2)).

Lemma grow_trans st1 st2 st3 : grow st1 st2 -> grow st2 st3 -> grow st1 st3.
Proof. intros [H1 H2] [H3 H4]. split; auto. Qed.

(** A name was substituted, and noted if it names a symbol. *)
Definition has (st : St) (x : bool * Z) : Prop := is_Some (answer st x.2) /\ (x.1 = true -> records st x.2).

Lemma has_grow st st' x : grow st st' -> has st x -> has st' x.
Proof. intros [H1 H2] [[y Hy] Hr]. split; [exists y; auto|auto]. Qed.

Definition agrees (f : Z -> Z) (st : St) : Prop := forall r y, answer st r = Some y -> f r = y.

Lemma agrees_grow f st st' : grow st st' -> agrees f st' -> agrees f st.
Proof. intros [H _] Hf r y Hr. by apply Hf, H. Qed.

(** A step succeeds, is done with the names [N], and gives [b f] for every renaming [f] that agrees with the answers, if [P f]. *)
Definition Good {A} (N : bool * Z -> Prop) (P : (Z -> Z) -> Prop) (b : (Z -> Z) -> A) (st : St) (res : option (A * St)) : Prop :=
  exists a st', res = Some (a, st') /\ ok st' /\ grow st st' /\ (forall x, N x -> has st' x) /\ (forall f, agrees f st' -> P f -> a = b f).

Lemma good_ret {A} (P : (Z -> Z) -> Prop) (b : (Z -> Z) -> A) st a : ok st -> (forall f, agrees f st -> P f -> a = b f) -> Good (fun _ => False) P b st (Some (a, st)).
Proof. intros Hok Ha. exists a, st. split_and!; [done|done|done|done|done]. Qed.

Lemma good_bind {A B} (N1 N2 : bool * Z -> Prop) P (b1 : (Z -> Z) -> A) (b2 : (Z -> Z) -> B) st m k :
  Good N1 P b1 st m -> (forall a st1, m = Some (a, st1) -> ok st1 -> Good N2 (fun f => P f /\ a = b1 f) b2 st1 (k (a, st1))) ->
  Good (fun x => N1 x \/ N2 x) P b2 st (m ≫= k).
Proof.
  intros (a & st1 & -> & Hok1 & Hext1 & Hn1 & Ha) Hk. destruct (Hk a st1 eq_refl Hok1) as (b & st2 & E & Hok2 & Hext2 & Hn2 & Hb).
  exists b, st2. cbn. split_and!; [done|done|by eapply grow_trans| |].
  - intros x [Hx|Hx]; [|by apply Hn2]. eapply has_grow; [done|by apply Hn1].
  - intros f Hf HP. apply Hb; [done|]. split; [done|]. apply Ha; [by eapply agrees_grow|done].
Qed.

Lemma good_mono {A} (N N' : bool * Z -> Prop) (P P' : (Z -> Z) -> Prop) (b : (Z -> Z) -> A) st m :
  Good N P b st m -> (forall x, N' x -> N x) -> (forall f, P' f -> P f) -> Good N' P' b st m.
Proof. intros (a & st' & -> & Hok & Hext & Hn & Ha) HN HP. exists a, st'. split_and!; auto. Qed.

Lemma good_same {A} (N : bool * Z -> Prop) (P : (Z -> Z) -> Prop) (b : (Z -> Z) -> A) st a :
  ok st -> (forall x, ~ N x) -> (forall f, P f -> a = b f) -> Good N P b st (Some (a, st)).
Proof. intros Hok HN Ha. eapply good_mono; [apply (good_ret P b); [done|by intros f _ ?%Ha]|exact HN|done]. Qed.

Lemma good_name P r st : ok st -> knows r -> Good (eq (false, r)) P (fun f => f r) st (substitute_ r st).
Proof.
  intros Hok Hk. destruct (law_substitute (St := St) r st Hok Hk) as (r' & st' & E & Hok' & Hext & Ha). exists r', st'. split_and!; try done.
  - intros ? <-. split; [by exists r'|done].
  - intros f Hf _. symmetry. by apply Hf.
Qed.

Lemma good_symbolName P r st : ok st -> knows r -> Good (eq (true, r)) P (fun f => f r) st (substituteSymbolName r st).
Proof.
  intros Hok Hk. destruct (law_symbolName (St := St) r st Hok Hk) as (r' & st' & E & Hok' & Hext & Ha & Hr). exists r', st'. split_and!; try done.
  - intros ? <-. split; [by exists r'|done].
  - intros f Hf _. symmetry. by apply Hf.
Qed.

(** ** Steps without a result *)

Definition Noted (N : bool * Z -> Prop) (st : St) (res : option St) : Prop := exists st', res = Some st' /\ ok st' /\ grow st st' /\ forall x, N x -> has st' x.

Lemma noted_same (N : bool * Z -> Prop) st : ok st -> (forall x, ~ N x) -> Noted N st (Some st).
Proof. intros Hok HN. exists st. split_and!; [done|done|done|]. by intros x ?%HN. Qed.

Lemma noted_bind (l1 l2 : list (bool * Z)) st m k : Noted (fun x => x ∈ l1) st m -> (forall st1, ok st1 -> Noted (fun x => x ∈ l2) st1 (k st1)) ->
  Noted (fun x => x ∈ l1 ++ l2) st (m ≫= k).
Proof.
  intros (st1 & -> & Hok1 & H1 & Hn1) Hk. destruct (Hk st1 Hok1) as (st2 & E & Hok2 & H2 & Hn2). exists st2. cbn. split_and!; [done|done|by eapply grow_trans|].
  intros x [Hx|Hx]%elem_of_app; [|by apply Hn2]. eapply has_grow; [done|by apply Hn1].
Qed.

Lemma noteName_ok r st : ok st -> knows r -> Noted (fun x => x ∈ [(true, r)]) st (noteName r st).
Proof.
  intros Hok Hk. destruct (law_symbolName (St := St) r st Hok Hk) as (r' & st' & E & Hok' & Hext & Ha & Hr). exists st'. unfold noteName. rewrite E. split_and!; [done|done|done|].
  intros x ->%list_elem_of_singleton. split; [by exists r'|done].
Qed.

Lemma noted_fold {A} (f : St -> A -> option St) (nm : A -> list (bool * Z)) l : Forall (fun a => forall st, ok st -> Noted (fun x => x ∈ nm a) st (f st a)) l ->
  forall st, ok st -> Noted (fun x => x ∈ flat_map nm l) st (foldM f st l).
Proof.
  induction 1 as [|x l Hx _ IH]; intros st Hok; cbn; [apply noted_same; [done|by intros ? ?%not_elem_of_nil]|].
  by apply noted_bind; [apply Hx|apply IH].
Qed.

Lemma good_noted {A} N1 N2 P (b : (Z -> Z) -> A) st m k : Noted N1 st m -> (forall st1, ok st1 -> Good N2 P b st1 (k st1)) -> Good (fun x => N1 x \/ N2 x) P b st (m ≫= k).
Proof.
  intros (st1 & -> & Hok1 & Hext1 & Hn1) Hk. destruct (Hk st1 Hok1) as (a & st2 & E & Hok2 & Hext2 & Hn & Ha). exists a, st2. cbn.
  split_and!; [done|done|by eapply grow_trans| |done]. intros x [Hx|Hx]; [|by apply Hn]. eapply has_grow; [done|by apply Hn1].
Qed.

Lemma noteArg_ok args i st : ok st -> Known (literalNames (args !! i)) -> (i < length args)%nat -> Noted (fun x => x ∈ literalNames (args !! i)) st (noteArg args i st).
Proof.
  intros Hok Hk Hi. unfold noteArg. destruct (lookup_lt_is_Some_2 args i Hi) as [arg Harg]. rewrite Harg in Hk |- *. cbn in Hk |- *.
  destruct (_ =? noName); [apply noted_same; [done|by intros ? ?%not_elem_of_nil]|]. apply noteName_ok; [done|by inversion Hk].
Qed.

(** Names that are noted for their effect only *)
Lemma noteCallArgs_ok fun_ numPosArgs args st : ok st -> Known (sendNames wn fun_ numPosArgs args) -> sendOk wn fun_ numPosArgs args = true ->
  Noted (fun x => x ∈ (if fun_ =? wn_aliasMethod wn then
      (if 0 <? numPosArgs then literalNames (args !! 0%nat) else []) ++ (if 1 <? numPosArgs then literalNames (args !! 1%nat) else [])
    else if bool_decide (fun_ ∈ wn_calls wn) then literalNames (args !! 1%nat) else [])) st
   (if fun_ =? wn_aliasMethod wn then
      st ← (if 0 <? numPosArgs then noteArg args 0 st else Some st);
      if 1 <? numPosArgs then noteArg args 1 st else Some st
    else if bool_decide (fun_ ∈ wn_calls wn) then arg ← args !! 1%nat; noteName (unwrapLiteralToName arg) st
    else Some st).
Proof.
  intros Hok Hk Hs. unfold sendNames in Hk. apply Forall_app in Hk as [Hk _]. unfold sendOk in Hs. destruct (fun_ =? wn_aliasMethod wn).
  - apply Z.leb_le in Hs. apply Forall_app in Hk as [Hk0 Hk1]. apply noted_bind.
    + destruct (Z.ltb_spec 0 numPosArgs); [apply noteArg_ok; [done|done|lia]|apply noted_same; [done|by intros ? ?%not_elem_of_nil]].
    + intros st1 Hok1. destruct (Z.ltb_spec 1 numPosArgs); [apply noteArg_ok; [done|done|lia]|apply noted_same; [done|by intros ? ?%not_elem_of_nil]].
  - destruct (bool_decide _); [|apply noted_same; [done|by intros ? ?%not_elem_of_nil]]. destruct (args !! 1%nat) as [arg|] eqn:E; [|done]. cbn in Hk |- *.
    destruct (_ =? noName); [done|]. apply noteName_ok; [done|by inversion Hk].
Qed.

Lemma flat_map_pair (ts : list Z) : flat_map (fun t => [(true, t)]) ts = map (pair true) ts.
Proof. induction ts as [|t ts IH]; cbn; [done|by rewrite IH]. Qed.

Lemma substSend_ok P fun_ numPosArgs args st : ok st -> Known (sendNames wn fun_ numPosArgs args) -> sendOk wn fun_ numPosArgs args = true ->
  Good (fun x => x ∈ sendNames wn fun_ numPosArgs args) P (fun f => f fun_) st (substSend wn fun_ numPosArgs args st).
Proof.
  intros Hok Hk Hs. unfold substSend. pose proof Hk as Hk'. unfold sendNames in Hk'. apply Forall_app in Hk' as [_ [Hf Ht]%Forall_cons]. eapply good_mono.
  - eapply good_noted; [by apply noteCallArgs_ok|]. intros st1 Hok1. eapply good_bind; [by apply good_symbolName|]. intros a st2 _ Hok2. cbn. eapply good_noted.
    { apply (noted_fold _ (map (pair true))); [|done]. apply Forall_forall. intros ts Hts st3 Hok3. rewrite <- flat_map_pair.
      apply (noted_fold _ (fun t => [(true, t)])); [|done]. apply Forall_forall. intros t Htt st4 Hok4. apply noteName_ok; [done|].
      rewrite Forall_forall in Ht. apply (Ht (true, t)), list_elem_of_In, in_flat_map. exists ts. split; [by apply list_elem_of_In|]. apply in_map. by apply list_elem_of_In. }
    intros st3 Hok3. apply good_ret; [done|]. by intros f _ [_ ->].
  - intros x. unfold sendNames. rewrite elem_of_app, elem_of_cons. intuition auto.
  - done.
Qed.

(** ** Lists *)

Lemma substEach_gen P (g : Expr -> St -> option (Expr * St)) (nm : Expr -> list (bool * Z)) (bld : (Z -> Z) -> Expr -> Expr) l :
  Forall (fun x => forall P st, ok st -> Good (fun r => r ∈ nm x) P (fun f => bld f x) st (g x st)) l ->
  forall st, ok st -> Good (fun r => r ∈ flat_map nm l) P (fun f => bld f <$> l) st (substEach g l st).
Proof.
  intros Hl. revert P. induction Hl as [|x l Hx _ IH]; intros P st Hok; cbn; eapply good_mono.
  - by apply (good_ret P).
  - by intros r ?%not_elem_of_nil.
  - done.
  - eapply good_bind; [by apply Hx|]. intros x' st1 _ Hok1. cbn. eapply good_bind; [by apply IH|]. intros l' st2 _ Hok2. cbn.
    apply good_ret; [done|]. by intros f _ [[_ ->] ->].
  - intros r [?|?]%elem_of_app; auto.
  - done.
Qed.

Lemma substEach_ok P (g : Expr -> St -> option (Expr * St)) l : Forall (fun x => forall P st, ok st -> Good (fun r => r ∈ treeNames wn x) P (fun f => rename f x) st (g x st)) l ->
  forall st, ok st -> Good (fun r => r ∈ flat_map (treeNames wn) l) P (fun f => rename f <$> l) st (substEach g l st).
Proof. apply (substEach_gen P g (treeNames wn) rename). Qed.

Lemma substArg_inner P p : innerParam p = true -> Known (treeNames wn p) -> forall st, ok st -> Good (fun r => r ∈ treeNames wn p) P (fun f => rename f p) st (substArg p st).
Proof.
  revert P. induction p; intros P Hp Hk st Hok; cbn in Hp; try done; cbn;
    (eapply good_mono;
     [eapply good_bind;
        [first [by apply IHp|apply good_name; [done|by inversion Hk]]|intros x st1 _ Hok1; cbn; apply good_ret; [done|by intros f _ [_ ->]]]
     |intros r Hr; left; first [exact Hr|by apply list_elem_of_singleton in Hr as ->]|done]).
Qed.

(** ** Parameters *)

Definition paramOk (p : Expr) : bool := match p with OptionalParam _ e d => innerParam e && walkable wn d | _ => innerParam p end.

(** [substArg] leaves the default of an optional parameter alone. *)
Definition renameArg (f : Z -> Z) (p : Expr) : Expr := match p with OptionalParam loc e d => OptionalParam loc (rename f e) d | _ => rename f p end.

Definition argNames (p : Expr) : list (bool * Z) := match p with OptionalParam _ e _ => treeNames wn e | _ => treeNames wn p end.

Definition defaultNames (p : Expr) : list (bool * Z) := match p with OptionalParam _ _ d => treeNames wn d | _ => [] end.

Definition sameShape (p p' : Expr) : Prop :=
  match p with OptionalParam loc _ d => exists e', p' = OptionalParam loc e' d | _ => match p' with OptionalParam _ _ _ => False | _ => True end end.

Lemma substArg_ok P p : paramOk p = true -> Known (argNames p) -> forall st, ok st -> Good (fun r => r ∈ argNames p) P (fun f => renameArg f p) st (substArg p st).
Proof.
  intros Hp Hk st Hok. destruct p; cbn in Hp; try done; try (by apply substArg_inner). apply andb_true_iff in Hp as [Hp _]. cbn. eapply good_mono.
  - eapply good_bind; [by apply substArg_inner|]. intros x st1 _ Hok1. cbn. apply good_ret; [done|]. by intros f _ [_ ->].
  - by left.
  - done.
Qed.

Lemma substArg_shape p p' st st' : substArg p st = Some (p', st') -> sameShape p p'.
Proof.
  destruct p; cbn; try done; intros (x & _ & E)%bind_Some; destruct x; simplify_eq/=; [done..|by eexists|done|done].
Qed.

Lemma substArgs_shape l : forall l' st st', substEach substArg l st = Some (l', st') -> Forall2 sameShape l l'.
Proof.
  induction l as [|p l IH]; intros l' st st' E; cbn in E; [by simplify_eq; constructor|].
  apply bind_Some in E as ([p' st1] & E1 & E). apply bind_Some in E as ([l1 st2] & E2 & E). simplify_eq. constructor; [by eapply substArg_shape|by eapply IH].
Qed.

Lemma substDefaults_ok (g : Expr -> St -> option (Expr * St)) params params' : Forall2 sameShape params params' ->
  Forall (fun p => match p with OptionalParam _ _ d => forall P st, ok st -> Good (fun r => r ∈ treeNames wn d) P (fun f => rename f d) st (g d st) | _ => True end) params ->
  forall (P : (Z -> Z) -> Prop) st, ok st -> (forall f, P f -> params' = renameArg f <$> params) ->
  Good (fun r => r ∈ flat_map defaultNames params) P (fun f => rename f <$> params) st (substDefaults g params params' st).
Proof.
  intros Hsh. induction Hsh as [|p p' params params' Hp _ IH]; intros Hg P st Hok HP; inversion_clear Hg as [|? ? Hgp Hgl]; cbn [substDefaults].
  { eapply good_mono; [apply (good_ret P (fun f => rename f <$> [])); [done|]|by intros r ?%not_elem_of_nil|done]. by intros f _ _. }
  eapply good_mono.
  - eapply (good_bind (fun r => r ∈ defaultNames p) _ P (fun f => rename f p)).
    + destruct p; try (match goal with |- Good _ _ _ _ ?m => replace m with (Some (p', st)) by (destruct p'; done) end;
        apply good_same; [done|by intros r ?%not_elem_of_nil|]; intros f Hf; by apply HP in Hf as [= -> _]).
      cbn in Hp. destruct Hp as [e' ->]. eapply good_mono.
      * eapply good_bind; [by apply Hgp|]. intros d' st1 _ Hok1. cbn. apply good_ret; [done|]. intros f _ [Hf ->]. by apply HP in Hf as [= -> _].
      * by left.
      * done.
    + intros x st1 _ Hok1. cbn. eapply good_bind.
      * apply IH; [done|done|]. intros f [Hf _]. by apply HP in Hf as [= _ ->].
      * intros l st2 _ Hok2. cbn. apply good_ret; [done|]. by intros f _ [[_ ->] ->].
  - cbn. intros r [?|?]%elem_of_app; auto.
  - done.
Qed.
(** ** Nodes *)

Definition NodeOk (e : Expr) : Prop :=
  walkable wn e = true -> Known (treeNames wn e) ->
  forall P st, ok st -> Good (fun r => r ∈ treeNames wn e) P (fun f => rename f e) st (substNode wn e st).

(** Clauses of a rescue and optional parameters are walked by the node that has them. *)
Definition PartsOk (e : Expr) : Prop :=
  match e with
  | RescueCase _ exceptions var body => Forall NodeOk exceptions /\ NodeOk var /\ NodeOk body
  | OptionalParam _ _ default_ => NodeOk default_
  | _ => True
  end.

(** The loop over the scopes of a constant does what the walk does. *)
Lemma substClassName_node e st : substClassName (substNode wn) e st = substNode wn e st.
Proof. by destruct e. Qed.

Lemma substEach_ext (g h : Expr -> St -> option (Expr * St)) l : (forall e st, g e st = h e st) -> forall st, substEach g l st = substEach h l st.
Proof.
  intros Hgh. induction l as [|x l IH]; intros st; cbn; [done|]. rewrite Hgh. destruct (h x st) as [[x' st1]|]; [|done]. cbn. by rewrite IH.
Qed.

Lemma knows_elem l : Known (flat_map (treeNames wn) l) -> Forall (fun e => Known (treeNames wn e)) l.
Proof. induction l as [|e l IH]; cbn; [done|]. rewrite Forall_app. intros [? ?]. constructor; auto. Qed.

Lemma nodes_ok l : Forall NodeOk l -> forallb (walkable wn) l = true -> Known (flat_map (treeNames wn) l) -> forall P st, ok st ->
  Good (fun r => r ∈ flat_map (treeNames wn) l) P (fun f => rename f <$> l) st (substEach (substNode wn) l st).
Proof.
  intros Hl Hw Hk%knows_elem P st Hok. apply substEach_ok; [|done]. apply Forall_forall. intros e He P' st' Hok'.
  rewrite forallb_forall in Hw. rewrite Forall_forall in Hl. rewrite Forall_forall in Hk. apply Hl; auto. by apply Hw, list_elem_of_In.
Qed.

(** A clause of a rescue *)
Definition substClause (el : Expr) (st : St) : option (Expr * St) :=
  match el with
  | RescueCase loc exceptions var body =>
      '(exceptions, st) ← substEach (substNode wn) exceptions st;
      '(var, st) ← substNode wn var st;
      '(body, st) ← substNode wn body st;
      Some (RescueCase loc exceptions var body, st)
  | _ => None
  end.

Definition clauseOk (c : Expr) : bool :=
  match c with RescueCase _ xs v b => forallb (walkable wn) xs && walkable wn v && walkable wn b | _ => false end.

(** One step of the walk, and its end *)
Ltac split_hyps := repeat match goal with
  | H : _ && _ = true |- _ => apply andb_true_iff in H as [? ?]
  | H : Known (_ ++ _) |- _ => apply Forall_app in H as [? ?]
  | H : Known (_ :: _) |- _ => apply Forall_cons in H as [? ?] end.
Ltac good_next := eapply good_bind;
  [first [by apply good_name|by apply good_symbolName|by apply nodes_ok|by apply substSend_ok|match goal with H : NodeOk ?e |- _ => by apply H end]|intros ? ? _ ?; cbn -[substNode substEach]].
Ltac good_end := apply good_ret; [done|]; intros ? _ ?; destruct_and?; subst; try done.
Ltac good_node := eapply good_mono; [repeat good_next; good_end|cbn; set_solver|done].

Lemma clause_ok c : PartsOk c -> clauseOk c = true -> Known (treeNames wn c) -> forall P st, ok st ->
  Good (fun r => r ∈ treeNames wn c) P (fun f => rename f c) st (substClause c st).
Proof.
  intros Hp Hc Hk P st Hok. destruct c; try done. cbn in Hp, Hc, Hk. destruct Hp as (Hx & Hv & Hb). split_hyps. cbn -[substNode substEach]. good_node.
Qed.

Lemma clauses_ok l : Forall PartsOk l -> forallb clauseOk l = true -> Known (flat_map (treeNames wn) l) -> forall P st, ok st ->
  Good (fun r => r ∈ flat_map (treeNames wn) l) P (fun f => rename f <$> l) st (substEach substClause l st).
Proof.
  intros Hl Hw Hk%knows_elem P st Hok. apply substEach_ok; [|done]. apply Forall_forall. intros e He P' st' Hok'.
  rewrite forallb_forall in Hw. rewrite Forall_forall in Hl. rewrite Forall_forall in Hk. apply clause_ok; auto. by apply Hw, list_elem_of_In.
Qed.

Lemma param_names p r : r ∈ treeNames wn p <-> r ∈ argNames p \/ r ∈ defaultNames p.
Proof. destruct p; cbn; rewrite ?elem_of_app, ?elem_of_nil; tauto. Qed.

Lemma params_names l r : r ∈ flat_map (treeNames wn) l <-> r ∈ flat_map argNames l \/ r ∈ flat_map defaultNames l.
Proof. induction l as [|p l IH]; cbn; rewrite ?elem_of_nil, ?elem_of_app; [tauto|]. rewrite IH, param_names. tauto. Qed.

(** The parameters of a method or of a block: first their variables, then their defaults *)
Lemma params_ok l : Forall PartsOk l -> forallb paramOk l = true -> Known (flat_map (treeNames wn) l) -> forall P st, ok st ->
  Good (fun r => r ∈ flat_map (treeNames wn) l) P (fun f => rename f <$> l) st ('(l', st) ← substEach substArg l st; substDefaults (substNode wn) l l' st).
Proof.
  intros Hl Hw Hk%knows_elem P st Hok. rewrite forallb_forall in Hw. rewrite Forall_forall in Hl. rewrite Forall_forall in Hk. eapply good_mono.
  - eapply good_bind.
    + apply (substEach_gen P substArg argNames renameArg); [|done]. apply Forall_forall. intros p Hp P' st' Hok'. apply substArg_ok; [by apply Hw, list_elem_of_In| |done].
      apply Forall_forall. intros r Hr. pose proof (Hk p Hp) as Hkp. rewrite Forall_forall in Hkp. apply Hkp, param_names. by left.
    + intros l' st1 E Hok1. cbn. apply substDefaults_ok; [by eapply substArgs_shape|apply Forall_forall; intros p Hp|done|by intros f [_ ?]].
      destruct p; try done. pose proof (Hl _ Hp) as Hq. pose proof (Hk _ Hp) as Hkp. apply list_elem_of_In, Hw in Hp. cbn in Hp, Hkp. split_hyps. by apply Hq.
  - intros r Hr. by apply params_names.
  - done.
Qed.

Lemma literal_ok loc value : NodeOk (Literal loc value).
Proof.
  intros _ Hk P st Hok. destruct value; cbn in *; try (apply good_same; [done|by intros ? ?%not_elem_of_nil|done]). destruct (Z.eqb_spec name noName) as [E|E].
  { cbn. apply good_same; [done|by intros ? ?%not_elem_of_nil|]. intros f _. by destruct (Z.eqb_spec name noName). }
  split_hyps. rewrite option_bind_assoc. eapply good_mono.
  - eapply good_bind; [by apply good_name|]. intros name' st1 _ Hok1. cbn. apply good_ret; [done|]. intros f _ [_ ->]. destruct (Z.eqb_spec name noName); [done|].
    by destruct (Z.eqb_spec (f name) name) as [->|].
  - intros r Hr. left. symmetry. by apply list_elem_of_singleton.
  - done.
Qed.

Lemma ident_ok loc kind name : NodeOk (UnresolvedIdent loc kind name).
Proof. intros _ Hk P st Hok. cbn in *. split_hyps. destruct kind; good_node. Qed.

Lemma classDef_ok l d s k rhs n anc sanc : NodeOk n -> Forall NodeOk anc -> Forall NodeOk rhs -> NodeOk (ClassDef l d s k rhs n anc sanc).
Proof.
  intros Hn Hanc Hrhs Hw Hk P st Hok. cbn in Hw, Hk. split_hyps. destruct sanc; [|done]. cbn -[substEach]. rewrite substClassName_node.
  eapply good_mono; [good_next; rewrite (substEach_ext _ _ anc substClassName_node); repeat good_next; good_end|cbn; set_solver|done].
Qed.

Lemma constant_ok l c s : NodeOk s -> NodeOk (UnresolvedConstantLit l c s).
Proof.
  intros Hs Hw Hk P st Hok. cbn in Hw, Hk. split_hyps. cbn. eapply good_mono; [good_next; rewrite substClassName_node; repeat good_next; good_end|cbn; set_solver|done].
Qed.

Lemma rescue_ok l b cs e n : NodeOk b -> Forall PartsOk cs -> NodeOk e -> NodeOk n -> NodeOk (Rescue l b cs e n).
Proof.
  intros Hb Hcs He Hn Hw Hk P st Hok. cbn in Hw, Hk. split_hyps. cbn -[substEach]. fold clauseOk in *.
  eapply good_mono; [good_next; eapply good_bind; [by apply clauses_ok|intros ? ? _ ?; cbn -[substEach]]; repeat good_next; good_end|cbn; set_solver|done].
Qed.

Lemma pair_bind_assoc {A B C} (m : option (A * St)) (k1 : A -> St -> option B) (k2 : B -> option C) :
  ('(a, st) ← m; k1 a st ≫= k2) = ('(a, st) ← m; k1 a st) ≫= k2.
Proof. by destruct m as [[a st]|]. Qed.

Lemma methodDef_ok l d nl s rhs ps n f : NodeOk rhs -> Forall PartsOk ps -> NodeOk (MethodDef l d nl s rhs ps n f).
Proof.
  intros Hrhs Hps Hw Hk P st Hok. cbn in Hw, Hk. split_hyps. cbn -[substEach substDefaults].
  eapply good_mono; [good_next; rewrite pair_bind_assoc; eapply good_bind; [by apply params_ok|intros ? ? _ ?; cbn -[substEach]]; repeat good_next; good_end|cbn; set_solver|done].
Qed.

Lemma block_ok l ps b : Forall PartsOk ps -> NodeOk b -> NodeOk (Block l ps b).
Proof.
  intros Hps Hb Hw Hk P st Hok. cbn in Hw, Hk. split_hyps. cbn -[substEach substDefaults].
  eapply good_mono; [rewrite pair_bind_assoc; eapply good_bind; [by apply params_ok|intros ? ? _ ?; cbn -[substEach]]; repeat good_next; good_end|cbn; set_solver|done].
Qed.

Create HintDb substnode.
#[local] Hint Resolve literal_ok ident_ok classDef_ok constant_ok rescue_ok methodDef_ok block_ok : substnode.

(** The rest are composed of their parts. *)
Ltac node_case := intros Hw Hk P0 st Hok; cbn in Hw, Hk; try done; split_hyps; cbn -[substEach];
  first [apply good_same; [done|by intros ? ?%not_elem_of_nil|done]|good_node].

Lemma substNode_ok e : NodeOk e /\ PartsOk e.
Proof.
  induction e using Expr_nested_ind;
    repeat match goal with H : _ /\ _ |- _ => destruct H | H : Forall (fun _ => _ /\ _) _ |- _ => apply Forall_and in H as [? ?] end;
    (split; [first [solve [eauto with substnode]|node_case]|try done; by cbn]).
Qed.
End Walk.

(** ** The substitutions *)

(** Names have the substitutes that they have in the table. *)
Lemma eager_laws s : SubstituterLaws NameSubstitution (fun s' => s' = s) (fun r => is_Some (substituteName s r)) substituteName (fun _ _ => True).
Proof. split; intros r st -> [r' Hr]; exists r', s; cbn; rewrite Hr; by split_and!. Qed.

(** The substitute is in the map when [substitute] returns. *)
Lemma lazySubstitute_stored h fuel from r st r' st' : lazySubstitute_loop h fuel from r st = Some (r', st') -> nameSubstitution st'.1 !! r = Some r'.
Proof.
  destruct fuel as [|fuel]; cbn; destruct (nameSubstitution st.1 !! r) eqn:Hn; intros E; try (by simplify_eq). apply bind_Some in E as (k & _ & E). apply bind_Some in E as ([to [s toGS]] & _ & E).
  simplify_eq. apply lookup_insert_eq.
Qed.

Lemma withoutUniques_total hs hf nt r n fuel : NameTable_wf hf nt -> grounded nt r n -> (n < fuel)%nat -> is_Some (hashNameRefWithoutUniques hs fuel nt r).
Proof.
  intros Hwf Hg. revert fuel. induction Hg as [r s Hr|r u n Hr _ IH|r o n Hr _ IH]; intros [|fuel] Hf; try lia;
    destruct (allNames_data hf nt _ _ Hwf Hr) as (_ & _ & Hk & Hd); cbn; rewrite Hk; cbn; rewrite Hd; cbn; [done|apply IH; lia|].
  destruct (IH fuel ltac:(lia)) as [x ->]. done.
Qed.

Section LazyLaws.
Context (hf h hs : str -> Z) (from to0 : NameTable) (Hfrom : NameTable_wf hf from) (Hgr : all_grounded from).
Context (Hroom : roomFor to0 + 2 * Z.of_nat (length (allNames from)) + 2 <= 2 ^ 29).

Definition lazyAnswer (st : LazyNameSubstitution * NameTable) (r : Z) : option Z := nameSubstitution st.1 !! r.

Definition lazyRecords (st : LazyNameSubstitution * NameTable) (r : Z) : Prop := exists x, withoutUniqueNameHash hs from r = Some x /\ x ∈ acc_nameHashes st.1.

Lemma lazySubstitute_laws r d st : LazyOk h from to0 st -> (r, d) ∈ allNames from ->
  exists r' st', lazySubstitute h from r st = Some (r', st') /\ LazyOk h from to0 st' /\ grows lazyAnswer lazyRecords st st' /\ lazyAnswer st' r = Some r'.
Proof.
  intros Hok Hr. destruct (Hgr r d Hr) as [n Hn]. pose proof (grounded_bound hf from r n Hfrom Hn) as Hb.
  destruct (lazySubstitute_ok hf h from to0 Hfrom Hroom r n Hn (chainFuel from) st Hb Hok) as (r' & st' & E & Hok' & Hg & _ & _). exists r', st'.
  split_and!; [done|done| |by eapply lazySubstitute_stored]. split; [intros x y Hx; eapply lookup_weaken; [exact Hx|apply (lg_map _ _ Hg)]|]. intros x. unfold lazyRecords. by rewrite (lg_acc _ _ Hg).
Qed.

Lemma lazy_laws : SubstituterLaws (H := lazySubstituter hs h from) (LazyNameSubstitution * NameTable) (LazyOk h from to0) (fun r => exists d, (r, d) ∈ allNames from) lazyAnswer lazyRecords.
Proof.
  split; intros r st Hok [d Hr].
  - by apply (lazySubstitute_laws r d).
  - destruct (Hgr r d Hr) as [n Hn]. destruct (withoutUniques_total hs hf from r n (chainFuel from) Hfrom Hn (grounded_bound hf from r n Hfrom Hn)) as [x Hx].
    assert (Hw : withoutUniqueNameHash hs from r = Some (incZero x)) by (unfold withoutUniqueNameHash; by rewrite Hx). cbn. unfold lazySubstituteSymbolName. rewrite Hw. cbn.
    destruct (lazySubstitute_laws r d (mkLazySubst (nameSubstitution st.1) (acc_nameHashes st.1 ++ [incZero x]), st.2)) as (r' & st' & E & Hok' & [H1 H2] & Ha); [by destruct Hok; split|done|].
    exists r', st'. split_and!; [done|done| |done|].
    + split; [intros y z Hy; by apply H1|]. intros y (z & Hz & Hin). apply H2. exists z. split; [done|]. cbn. apply elem_of_app. by left.
    + apply H2. exists (incZero x). split; [done|]. cbn. apply elem_of_app. right. by apply list_elem_of_singleton.
Qed.
End LazyLaws.

Lemma elem_of_unique l x : x ∈ unique l <-> x ∈ l.
Proof.
  induction l as [|a l IH]; [done|]. destruct l as [|b l]; [done|]. change (unique (a :: b :: l)) with (if a =? b then unique (b :: l) else a :: unique (b :: l)).
  destruct (Z.eqb_spec a b) as [->|]; [|by rewrite !(elem_of_cons _ x a), IH]. rewrite IH, !elem_of_cons. tauto.
Qed.

(** ** Correctness *)



(** ** Example *)

(** A call of the alias method with a literal, on a block with a parameter that has a default *)
Definition sampleWn : SubstNames := mkSubstNames (makeNameRef UTF8 0) [makeNameRef CONSTANT 0] [[makeNameRef CONSTANT 0]].

Definition sampleTree : Expr :=
  Send noOffsets (makeNameRef UTF8 0) noOffsets (mkSendFlags false false false) 1 (UnresolvedConstantLit noOffsets (makeNameRef CONSTANT 1) EmptyTree)
    [Literal noOffsets (NamedLiteralType LitSymbol (makeNameRef UNIQUE 1));
     Block noOffsets [OptionalParam noOffsets (KeywordArg noOffsets (Local noOffsets (makeNameRef UNIQUE 0) 0)) (UnresolvedIdent noOffsets IdentInstance (makeNameRef UTF8 0))]
       (Local noOffsets (makeNameRef UNIQUE 0) 0)].

Lemma sampleTree_names : Forall (fun x => exists d, (x.2, d) ∈ allNames (sampleFrom 5)) (treeNames sampleWn sampleTree).
Proof.
  assert (H : Forall (fun x => x.2 ∈ (allNames (sampleFrom 5)).*1) (treeNames sampleWn sampleTree)) by (apply (bool_decide_eq_true_1 _); vm_compute; reflexivity).
  eapply Forall_impl; [exact H|]. intros x Hx. apply list_elem_of_fmap in Hx as ([r d] & -> & Hd). by exists d.
Qed.


